(* ===== verification/_CoqProject ===== *)
-Q . S2P
Prelude.v
RuntimeMem.v
RuntimeFmod.v
RuntimeWide.v
RuntimePanic.v
WasmLeb.v
WasmObject.v
WasmLink.v
ElfClass.v
ElfReloc.v
ElfReach.v
ElfRelocSpec.v
LspJson.v
Lexer.v
LexerSpec.v
Parser.v
ParserSpec.v
Ir.v
IrRange.v
IrRangeSpec.v
IrReach.v
ConstEval.v
Target.v
Source.v
TargetGate.v
Work.v
Scope.v
Snapshot.v
SyntaxCache.v
Ast.v
AstTypes.v
SemaTypes.v
SemaConst.v
SemaCase.v
AstNames.v
AstGeneric.v
AstLayout.v
AstLayoutSpec.v
AstLiteral.v
SemaGlobals.v
SemaFind.v
SemaExpr.v
SemaExprSpec.v
SemaStmt.v
SemaStmtSpec.v
SemaDecl.v
SemaDeclSpec.v
LspText.v
LspInput.v
LspWork.v
LspWire.v
LspDocument.v
