(* ===== verification/Prelude.v ===== *)
(** * Verification of the Dyn compiler (C sources under src/)

    Dyn is a compiler written in C (src/src) with a runtime support library
    (src/runtime). Source files are gated by target, parsed into immutable
    snapshots, merged into modules, checked, lowered to an IR, optimised and
    emitted as native or WebAssembly objects, which built-in linkers join; a
    language server shares the front end. This development models the parts
    below as executable functions or step relations, translated from the code,
    and proves what they promise.

    ** Files

    - [Prelude]: machine integers, C strings, array access ([get_at] is [None]
      out of bounds), the [let*] and [let?] notations, UTF-8, binary search,
      tactics and shared lemmas.
    - Runtime (src/runtime/reference_support.c, wasm_support.c): [RuntimeMem]
      (memory functions), [RuntimeFmod] (fmod, fmodf on IEEE doubles and floats
      from SpecFloat), [RuntimeWide] (128-bit product), [RuntimePanic] (unwinding
      frames, thread slots, check messages, traces).
    - WebAssembly linker (link_wasm.c): [WasmLeb] (byte cursors and LEB128),
      [WasmObject] (object parser), [WasmLink] (resolution, archives, layout,
      relocation, output).
    - [ElfClass] (elf_class.h): conversion between ELF32 and ELF64.
    - ELF linker (link_elf.c): [ElfReloc] (relocation of a section for x86-64,
      AArch64, RISC-V and Arm), [ElfReach] (the instructions it patches, as the
      processors read them), [ElfRelocSpec] (its accesses).
    - Language server: [LspJson] (lsp_json.h, validation and traversal of JSON
      messages), [LspText] (lsp_server.c, decoding and escaping of strings),
      [LspInput] (lsp_input.h, framing of the input), [LspWork] (lsp_work.h, the
      read-ahead queue, over an interface that [LspInput] implements), [LspWire]
      (lsp_wire.h, columns and the response buffer), [LspDocument]
      (lsp_document.c, URIs, positions, edits and words).
    - Parser (parser.c): [Lexer] and [LexerSpec] (tokens and a lexical grammar),
      [Parser] and [ParserSpec] (expressions, types, tree, speculation).
    - IR: [Ir] (ir.h, the data and its validation), [IrRange] and [IrRangeSpec]
      (ir.c, the pass that removes bounds and overflow checks, and a semantics
      of what it may touch), [IrReach] (ir_reachability.inc, reachable functions
      and pruning).
    - AST (ast.c, dyn_ast.h): [Ast] (the tables, a state of program, reports and
      budget, and the host that grants memory), [AstTypes] (interned types),
      [AstGeneric] (substitution, instances, inference), [AstNames] (names, the
      index of declarations, loops), [AstLayout] and [AstLayoutSpec] (layouts),
      [AstLiteral] (literals).
    - Semantic analysis (sema.c, sema_globals.c): [SemaTypes] (predicates and
      conversions), [SemaConst] (constant folding), [SemaCase] (coverage of
      integer cases), [SemaGlobals] (order of initialisers), [SemaFind]
      (lookups), [SemaExpr] and [SemaExprSpec] (expressions), [SemaStmt] and
      [SemaStmtSpec] (statements and blocks), [SemaDecl] and [SemaDeclSpec]
      (constants, and the order in which inferred globals are checked).
    - [ConstEval] (native_opt.c): the constant evaluator of the optimiser and a
      semantics on mathematical integers.
    - [Target] (target.c), [Source] and [TargetGate] (source.c,
      dyn_location.h): targets, the [#target] gate, merging, positions and line
      tables.
    - [Work] (dyn.h): the cooperative work budget.
    - [Scope] (dyn_scope.h): the index of local bindings.
    - [Snapshot] (snapshot.c) and [SyntaxCache] (source_tree.c): snapshots,
      their shared reference count, and the cache of parsed sources.

    ** Conventions

    A w-bit integer is a [Z] and every C operation that can leave its range is
    followed by [u8], [u16], [u32] or [u64]. Undefined behaviour (an access
    out of bounds, a freed node or snapshot) and a loop that runs out of fuel are
    [None], so totality theorems exclude both. Allocation, callbacks, clocks and
    [qsort] are parameters with the state they keep; input arrives as any
    sequence of results of [poll] and [read]; concurrent code is a step
    relation over atomic operations.

    ** What the theorems show

    Some of these are the claims of the development, the others lemmas it
    keeps.

    - Memory safety and termination for every input: [parse_memory_safe],
      [parse_total], [widen_memory_safe], [narrow_memory_safe], [value_correct],
      [archive_selection_closed], [reachable_collect_exact],
      [json_string_after_exact], [relocate_stays_inside].
    - Semantic analysis: when a check of an expression or block returns, no
      error type is left without a report ([check_expr_never_silent],
      [block_never_silent]) and only what it means to change is changed
      ([check_expr_keeps_program], [block_closes_scope]); these say nothing of
      the programs on which the check reads out of bounds, which exist
      ([nil_left_of_global]). Types are compared by
      number ([types_canonical]); substitution, instances and inference
      ([substitute_correct], [instantiate_correct], [generic_inference]); layouts
      ([layouts_correct]); folding and conversions ([constant_int_exact],
      [lossless_exact]); coverage of cases ([integer_case_complete_correct]);
      the indexes of declarations and locals ([name_index_find_correct],
      [sema_local_lookup_correct]); initialisers
      ([initializer_order_correct]); constants and the order of inferred
      globals ([constants_checked], [global_type_order_correct]); literals ([parse_uint_exact],
      [string_literal_roundtrip]).
    - Preservation of meaning: [prove_unsigned_ranges_sound] (a program without
      the checks that were removed runs as with them), [relax_keeps_address]
      (a relaxed pair of instructions loads the same address),
      [branches_reach] (a relocated branch goes to its symbol).
    - Agreement with a reference: [json_valid_iff] (a JSON grammar),
      [lex_correct] (a lexical grammar), [memmove_moves], [memset_agrees],
      [multi3_correct], [fmod_exact], [binary_exact] (integer arithmetic),
      [location_index_agrees] (line tables against counting), [scope_lookup_correct]
      (binary search against all bindings), [target_enabled_correct],
      [frames_delivered] (any arrival of the bytes against the sequence of
      messages), [wire_cursor_exact] (a remembered cursor against a new one),
      [apply_change_exact] and [apply_changes_sequential] (edits against the
      positions and objects of the protocol).
    - Refinement of an abstract specification: [value_correct] (a big-step
      semantics), [source_parse_correct] (a cache that only ever returns a parse
      of the exact bytes, with exact ownership), [work_queue_refines] (a linked
      list in a heap against a list, with a limit).
    - Invariants and interleavings: [references_safe], [unwind_slot_unique],
      [unwind_lifo], [expression_frame], [layout_disjoint], [exports_unique],
      [input_next_preserves], [work_keeps_order].
    - Round trips: LEB128, ELF symbols and relocations, the emitted module,
      [merge_positions] (every byte of a merged module back to its file),
      [json_escape_roundtrip], [wire_columns_roundtrip],
      [document_points_roundtrip] (with the rows and columns that newlines give),
      [uri_roundtrip].
    - Errors the code does not catch: [code_section_order_unchecked],
      [narrow_writes_out_of_bounds], [json_key_letter_escapes],
      [trace_slot_claims_twice], [bare_newline_header_depends_on_arrival],
      [empty_range_never_ends], [unsigned_negation_folds],
      [zero_length_field_unlaid], [nil_left_of_global], [signature_not_inferred],
      [distinct_pointers_share_an_id], [order_ignores_function_values],
      [dead_word_past_section], [relax_out_of_range].

    ** Bounds and fuel

    Fuel is never observable where a totality theorem gives an amount that is
    enough. The parser's is linear in the work budget it is given plus its depth
    limit of 1024; the evaluator's is 35 per level under its depth limit of 64
    (a call has at most 32 arguments); the recursions over the IR take the number
    of expressions or the depth limit of 1024 plus a constant; layouts take the
    number of structs and enums times their depth; substitution the height of
    the type; the search for initialisers 1028 (its depth limit is 512); the
    coverage of a case the number of patterns; the framing loop recurses on the
    turns of the outside, the read-ahead on its 64 messages; the searches of
    [SemaDecl] take the budget plus two; loops over a text or
    an array take its length plus one. The checker of expressions and statements
    recurses as deep as its program and has no limit of its own: [deep] (searches
    through a program), the fuel of expressions and that of blocks are arguments,
    and its theorems hold for every amount.

    ** Not modelled

    The declaration grammar (parser_source.inc, except the helpers of the
    expression parser), the construction of the AST and its copy into the IR,
    the rest of the checks of declarations ([sema_program]) and those of
    lifetimes, the inliner,
    native and WebAssembly code generation, the COFF and Mach-O linkers and the
    rest of the ELF linker, module rewriting, on-disk caches, the command line,
    the rewriting of responses and the request handlers of the language server:
    they are large, and partly input and output. The scope index, the cache and
    the snapshots take the tree of a file from the parser as a parameter. *)

From stdpp Require Export base numbers list strings gmap.
From Stdlib Require Export ZArith Lia.

#[global] Open Scope Z_scope.

(** ** Machine integers

    A w-bit unsigned C integer is a [Z] in [0, 2^w); every operation of the C
    code that can leave that range is followed by [wrap]. *)
Definition wrap (w x : Z) : Z := x mod 2 ^ w.
Definition u8 (x : Z) : Z := wrap 8 x.
Definition u16 (x : Z) : Z := wrap 16 x.
Definition u32 (x : Z) : Z := wrap 32 x.
Definition u64 (x : Z) : Z := wrap 64 x.

(** Two's-complement reading of the low [w] bits. *)
Definition to_signed (w x : Z) : Z :=
  let y := wrap w x in if y <? 2 ^ (w - 1) then y else y - 2 ^ w.
Definition i32 (x : Z) : Z := to_signed 32 x.
Definition i64 (x : Z) : Z := to_signed 64 x.

Definition UINT32_MAX : Z := 2 ^ 32 - 1.
Definition UINT64_MAX : Z := 2 ^ 64 - 1.

Definition in_width (w x : Z) : Prop := 0 <= x < 2 ^ w.

(** ** Results of fallible code *)
Inductive res (E A : Type) : Type :=
| Ok (a : A)
| Err (e : E).
Arguments Ok {E A} _.
Arguments Err {E A} _.

Declare Scope dyn_scope.
Delimit Scope dyn_scope with dyn.

(** [let?] sequences computations in [res], [let*] in [option]. *)
Notation "'let?' x ':=' c 'in' k" :=
  (match c with Ok x => k | Err e => Err e end)
  (at level 10, x pattern, c at level 100, k at level 200,
   format "'let?'  x  ':='  c  'in' '//' k") : dyn_scope.
Notation "'let*' x ':=' c 'in' k" :=
  (match c with Some x => k | None => None end)
  (at level 10, x pattern, c at level 100, k at level 200,
   format "'let*'  x  ':='  c  'in' '//' k") : dyn_scope.
#[global] Open Scope dyn_scope.

(** ** Bytes and C strings *)
Definition is_byte (b : Z) : Prop := 0 <= b < 256.
Abbreviation bytes := (list Z).

(** The bytes of a string literal. *)
Definition byte_of_ascii (c : Ascii.ascii) : Z := Z.of_N (Ascii.N_of_ascii c).
Fixpoint str (s : string) : bytes :=
  match s with
  | EmptyString => []
  | String c s' => byte_of_ascii c :: str s'
  end.
Definition ch (s : string) : Z := match str s with c :: _ => c | [] => 0 end.

(** A NUL-terminated C string is the list of the bytes before its
    terminator: reading at its end gives the terminator. *)
Definition cstr_get (s : bytes) : Z := match s with c :: _ => c | [] => 0 end.

(** Reading element [i] of an array of known length; [None] is an access out
    of bounds, which C leaves undefined. *)
Definition get_at {A} (l : list A) (i : Z) : option A :=
  if (0 <=? i) && (i <? Z.of_nat (length l)) then l !! Z.to_nat i else None.
Definition set_at {A} (l : list A) (i : Z) (x : A) : option (list A) :=
  if (0 <=? i) && (i <? Z.of_nat (length l)) then Some (<[Z.to_nat i := x]> l) else None.

(** [strchr(set, c)] for a non-NUL [c], as a test. *)
Definition one_of (c : Z) (set : bytes) : bool := existsb (Z.eqb c) set.

Definition bytes_eqb (a b : bytes) : bool := bool_decide (a = b).

(** ** Proof automation *)

(** Boolean tests to propositions, everywhere. *)
Ltac to_prop :=
  repeat match goal with
  | H : context [ (_ && _) = true ] |- _ => rewrite andb_true_iff in H
  | H : context [ (_ && _) = false ] |- _ => rewrite andb_false_iff in H
  | H : context [ (_ || _) = true ] |- _ => rewrite orb_true_iff in H
  | H : context [ (_ || _) = false ] |- _ => rewrite orb_false_iff in H
  | H : context [ negb _ = true ] |- _ => rewrite negb_true_iff in H
  | H : context [ negb _ = false ] |- _ => rewrite negb_false_iff in H
  | H : context [ (_ =? _) = true ] |- _ => rewrite Z.eqb_eq in H
  | H : context [ (_ =? _) = false ] |- _ => rewrite Z.eqb_neq in H
  | H : context [ (_ <=? _) = true ] |- _ => rewrite Z.leb_le in H
  | H : context [ (_ <=? _) = false ] |- _ => rewrite Z.leb_gt in H
  | H : context [ (_ <? _) = true ] |- _ => rewrite Z.ltb_lt in H
  | H : context [ (_ <? _) = false ] |- _ => rewrite Z.ltb_ge in H
  | H : context [ (_ >? _) = true ] |- _ => rewrite Z.gtb_lt in H
  | H : context [ (_ >=? _) = true ] |- _ => rewrite Z.geb_le in H
  end.

(** Case split on the innermost test or match of the goal or a hypothesis. *)
Ltac split_if :=
  match goal with
  | |- context [ if ?b then _ else _ ] =>
      lazymatch b with context [ if _ then _ else _ ] => fail | _ => destruct b eqn:? end
  end.
Ltac split_if_in H :=
  match type of H with
  | context [ if ?b then _ else _ ] =>
      lazymatch b with context [ if _ then _ else _ ] => fail | _ => destruct b eqn:? end
  end.
Ltac split_match_in H :=
  match type of H with
  | context [ match ?x with _ => _ end ] =>
      lazymatch x with context [ match _ with _ => _ end ] => fail | _ => destruct x eqn:? end
  end.
Ltac split_match :=
  match goal with
  | |- context [ match ?x with _ => _ end ] =>
      lazymatch x with context [ match _ with _ => _ end ] => fail | _ => destruct x eqn:? end
  end.

(** Decides the comparisons of the goal that [lia] can decide. *)
Ltac zb :=
  repeat match goal with
  | |- context [?a =? ?b] =>
      first [rewrite (proj2 (Z.eqb_eq a b)) by lia | rewrite (proj2 (Z.eqb_neq a b)) by lia]
  | |- context [?a <=? ?b] =>
      first [rewrite (proj2 (Z.leb_le a b)) by lia | rewrite (proj2 (Z.leb_gt a b)) by lia]
  | |- context [?a <? ?b] =>
      first [rewrite (proj2 (Z.ltb_lt a b)) by lia | rewrite (proj2 (Z.ltb_ge a b)) by lia]
  end; cbn [andb orb negb].

Create HintDb dyn discriminated.
Create Rewrite HintDb dyn.

(** ** Arithmetic lemmas *)
Lemma wrap_range w x : 0 <= w -> 0 <= wrap w x < 2 ^ w.
Proof. intros. apply Z.mod_pos_bound. lia. Qed.

Lemma wrap_small w x : in_width w x -> wrap w x = x.
Proof. apply Z.mod_small. Qed.

Lemma u32_range x : 0 <= u32 x < 2 ^ 32.
Proof. apply wrap_range. lia. Qed.
Lemma u64_range x : 0 <= u64 x < 2 ^ 64.
Proof. apply wrap_range. lia. Qed.
Lemma u8_range x : 0 <= u8 x < 256.
Proof. apply (wrap_range 8). lia. Qed.
Lemma u32_small x : 0 <= x < 2 ^ 32 -> u32 x = x.
Proof. apply wrap_small. Qed.
Lemma u64_small x : 0 <= x < 2 ^ 64 -> u64 x = x.
Proof. apply wrap_small. Qed.
Lemma u8_small x : 0 <= x < 256 -> u8 x = x.
Proof. apply (wrap_small 8). Qed.

#[export] Hint Resolve u32_range u64_range u8_range : dyn.
#[export] Hint Rewrite u32_small u64_small u8_small using lia : dyn.

Lemma land_ones_mod x n : 0 <= n -> Z.land x (2 ^ n - 1) = x mod 2 ^ n.
Proof. intros. rewrite <- Z.land_ones by lia. f_equal. rewrite Z.ones_equiv. lia. Qed.

Lemma testbit_high a n i : 0 <= a < 2 ^ n -> 0 <= n <= i -> Z.testbit a i = false.
Proof.
  intros Ha Hi. rewrite <- (Z.mod_small a (2 ^ n)) by lia.
  apply Z.mod_pow2_bits_high. lia.
Qed.

(** Disjoint bit fields: [or] is addition. *)
Lemma lor_shift_add a b n :
  0 <= n -> 0 <= a < 2 ^ n -> Z.lor a (Z.shiftl b n) = a + b * 2 ^ n.
Proof.
  intros Hn Ha. rewrite <- Z.shiftl_mul_pow2 by lia.
  assert (Z.land a (Z.shiftl b n) = 0) as H0.
  { apply Z.bits_inj'; intros i Hi. rewrite Z.land_spec, Z.bits_0.
    destruct (Z_lt_le_dec i n).
    - rewrite Z.shiftl_spec_low by lia. apply andb_false_r.
    - rewrite (testbit_high a n) by lia. reflexivity. }
  rewrite Z.add_nocarry_lxor, Z.lxor_lor by done. done.
Qed.

(** A test of one bit, as the C code writes it: [x & 2^n]. *)
Lemma land_pow2_testbit x n : 0 <= n -> Z.land x (2 ^ n) = if Z.testbit x n then 2 ^ n else 0.
Proof.
  intros Hn. apply Z.bits_inj'; intros i Hi. rewrite Z.land_spec, Z.pow2_bits_eqb by lia.
  destruct (Z.eqb_spec n i) as [<-|Hne].
  - destruct (Z.testbit x n); [|now rewrite Z.bits_0]. now rewrite Z.pow2_bits_true.
  - rewrite andb_false_r. destruct (Z.testbit x n); [|now rewrite Z.bits_0].
    rewrite Z.pow2_bits_eqb by lia. symmetry. now apply Z.eqb_neq.
Qed.

(** Rounding up to a power of two, as the C code masks it. *)
Lemma align_up a k :
  0 <= k -> let align := Z.shiftl 1 k in
  let r := Z.land (a + align - 1) (Z.lnot (align - 1)) in
  a <= r < a + 2 ^ k /\ (2 ^ k | r).
Proof.
  intros Hk. cbv zeta. rewrite Z.shiftl_1_l. pose proof (Z.pow_pos_nonneg 2 k).
  rewrite <- Z.ldiff_land. replace (2 ^ k - 1) with (Z.ones k) by (rewrite Z.ones_equiv; lia).
  rewrite Z.ldiff_ones_r, Z.shiftl_mul_pow2, Z.shiftr_div_pow2 by lia.
  split; [|by exists ((a + 2 ^ k - 1) / 2 ^ k)].
  pose proof (Z.div_mod (a + 2 ^ k - 1) (2 ^ k)). pose proof (Z.mod_pos_bound (a + 2 ^ k - 1) (2 ^ k)). lia.
Qed.

(** ** List lemmas *)
Lemma get_at_Some {A} (l : list A) i x :
  get_at l i = Some x <-> 0 <= i < Z.of_nat (length l) /\ l !! Z.to_nat i = Some x.
Proof.
  unfold get_at. split.
  - intros H. split_if_in H; [|done]. to_prop. split; [lia|done].
  - intros [Hi Hx]. rewrite (proj2 (Z.leb_le _ _)), (proj2 (Z.ltb_lt _ _)) by lia. done.
Qed.

Lemma get_at_is_Some {A} (l : list A) i :
  0 <= i < Z.of_nat (length l) -> exists x, get_at l i = Some x.
Proof.
  intros Hi. destruct (lookup_lt_is_Some_2 l (Z.to_nat i)) as [x Hx]; [lia|].
  exists x. now apply get_at_Some.
Qed.

Lemma set_at_length {A} (l l' : list A) i x : set_at l i x = Some l' -> length l' = length l.
Proof. unfold set_at. intros H. split_if_in H; [|done]. simplify_eq. apply length_insert. Qed.

Lemma get_at_insert_ne {A} (l : list A) i j x :
  0 <= i -> 0 <= j -> i <> j -> get_at (<[Z.to_nat i := x]> l) j = get_at l j.
Proof.
  intros. unfold get_at. rewrite length_insert. split_if; [|done]. apply list_lookup_insert_ne. lia.
Qed.
Lemma get_at_insert_eq {A} (l : list A) i x :
  0 <= i < Z.of_nat (length l) -> get_at (<[Z.to_nat i := x]> l) i = Some x.
Proof. intros. apply get_at_Some. rewrite length_insert. split; [lia|]. apply list_lookup_insert_eq. lia. Qed.

Lemma set_at_insert {A} (l : list A) i x :
  0 <= i < Z.of_nat (length l) -> set_at l i x = Some (<[Z.to_nat i := x]> l).
Proof. intros. unfold set_at. by rewrite (proj2 (Z.leb_le _ _)), (proj2 (Z.ltb_lt _ _)) by lia. Qed.

Lemma set_at_get {A} (o : list A) p v o' q :
  set_at o p v = Some o' ->
  get_at o' q = if q =? p then Some v else get_at o q.
Proof.
  unfold set_at. intros H. split_if_in H; [|done]. to_prop. simplify_eq.
  destruct (Z.eqb_spec q p) as [->|]; [apply get_at_insert_eq; lia|].
  unfold get_at. rewrite length_insert. split_if; [|done]. to_prop. apply list_lookup_insert_ne. lia.
Qed.

Lemma str_bytes s : Forall is_byte (str s).
Proof.
  induction s as [|c s IH]; constructor; [|done].
  unfold is_byte, byte_of_ascii. pose proof (Ascii.N_ascii_bounded c). lia.
Qed.

Lemma bytes_eqb_spec a b : reflect (a = b) (bytes_eqb a b).
Proof. apply bool_decide_reflect. Qed.

(** ** UTF-8 *)
Definition cont (c : Z) : Prop := 0x80 <= c <= 0xbf.

(** Well-formed multi-byte UTF-8 sequences (Unicode, table 3-7). *)
Inductive utf8_multi : bytes -> Prop :=
| utf8_2 a b : 0xc2 <= a <= 0xdf -> cont b -> utf8_multi [a; b]
| utf8_3 a b c :
    (a = 0xe0 /\ 0xa0 <= b <= 0xbf) \/ ((0xe1 <= a <= 0xec \/ 0xee <= a <= 0xef) /\ cont b)
    \/ (a = 0xed /\ 0x80 <= b <= 0x9f) ->
    cont c -> utf8_multi [a; b; c]
| utf8_4 a b c d :
    (a = 0xf0 /\ 0x90 <= b <= 0xbf) \/ (0xf1 <= a <= 0xf3 /\ cont b) \/ (a = 0xf4 /\ 0x80 <= b <= 0x8f) ->
    cont c -> cont d -> utf8_multi [a; b; c; d].

Lemma all_bytes (P : Z -> bool) :
  forallb P (map Z.of_nat (seq 0 256)) = true -> forall c, 0 <= c < 256 -> P c = true.
Proof.
  intros H c Hc. rewrite forallb_forall in H. apply H. apply in_map_iff. exists (Z.to_nat c).
  split; [lia|]. apply in_seq. lia.
Qed.

(** The test of the C code for a continuation byte. *)
Lemma land_cont c : 0 <= c < 256 -> (Z.land c 0xc0 =? 0x80) = (0x80 <=? c) && (c <=? 0xbf).
Proof.
  intros Hc.
  apply eqb_prop, (all_bytes (fun c => eqb (Z.land c 0xc0 =? 0x80) ((0x80 <=? c) && (c <=? 0xbf)))); [|done].
  vm_compute. reflexivity.
Qed.

(** ** Binary search

    The loop [while (lo < hi)] of the lookups: [less] reads the array at the
    middle and is [None] out of its bounds. *)
Fixpoint bsearch (fuel : nat) (less : Z -> option bool) (lo hi : Z) : option Z :=
  match fuel with
  | O => None
  | S f =>
      if lo <? hi then
        let mid := lo + (hi - lo) / 2 in
        let* b := less mid in
        if b : bool then bsearch f less (mid + 1) hi else bsearch f less lo mid
      else Some lo
  end.

Lemma bsearch_spec (less : Z -> option bool) (p : Z -> bool) fuel lo hi :
  lo <= hi -> hi - lo < Z.of_nat fuel ->
  (forall i, lo <= i < hi -> less i = Some (p i)) ->
  (forall i j, lo <= i <= j -> j < hi -> p j = true -> p i = true) ->
  exists r, bsearch fuel less lo hi = Some r /\ lo <= r <= hi
            /\ (forall i, lo <= i < r -> p i = true) /\ (forall i, r <= i < hi -> p i = false).
Proof.
  revert lo hi. induction fuel as [|f IH]; intros lo hi Hle Hf Hless Hmono; [lia|]. cbn [bsearch].
  destruct (Z.ltb_spec lo hi) as [Hlt|Hge]; [|exists lo; repeat split; [lia..|intros; lia|intros; lia]].
  set (mid := lo + (hi - lo) / 2). assert (lo <= mid < hi) as Hmid.
  { subst mid. pose proof (Z.div_pos (hi - lo) 2). pose proof (Z.div_lt (hi - lo) 2). lia. }
  rewrite Hless by lia. destruct (p mid) eqn:Hp.
  - destruct (IH (mid + 1) hi) as (r & Hr & Hrange & Hlo & Hhi); [lia|lia|auto with lia|intros; eapply Hmono; eauto; lia|].
    exists r. split; [done|]. split; [lia|]. split; [|done]. intros i Hi.
    destruct (Z_le_gt_dec i mid); [apply (Hmono i mid); (lia || done) | apply Hlo; lia].
  - destruct (IH lo mid) as (r & Hr & Hrange & Hlo & Hhi); [lia|lia|auto with lia|intros; eapply Hmono; eauto; lia|].
    exists r. split; [done|]. split; [lia|]. split; [done|]. intros i Hi.
    destruct (Z_lt_le_dec i mid); [apply Hhi; lia|]. destruct (p i) eqn:Hpi; [|done].
    rewrite (Hmono mid i) in Hp; [done|lia|lia|done].
Qed.

(** Without an order on the elements the loop still ends in the range. *)
Lemma bsearch_total (less : Z -> option bool) fuel lo hi :
  lo <= hi -> hi - lo < Z.of_nat fuel -> (forall i, lo <= i < hi -> exists b, less i = Some b) ->
  exists r, bsearch fuel less lo hi = Some r /\ lo <= r <= hi.
Proof.
  revert lo hi. induction fuel as [|f IH]; intros lo hi Hle Hf Hless; [lia|]. cbn [bsearch].
  destruct (Z.ltb_spec lo hi) as [Hlt|Hge]; [|exists lo; by split].
  set (mid := lo + (hi - lo) / 2). assert (lo <= mid < hi) as Hmid.
  { subst mid. pose proof (Z.div_pos (hi - lo) 2). pose proof (Z.div_lt (hi - lo) 2). lia. }
  destruct (Hless mid Hmid) as [b ->].
  destruct b; [destruct (IH (mid + 1) hi) as (r & -> & Hr) | destruct (IH lo mid) as (r & -> & Hr)];
    try lia; try (intros; apply Hless; lia); exists r; split; (done || lia).
Qed.
