(* ===== verification/RuntimeMem.v ===== *)
(** * Freestanding memory primitives

    [memset], [memcpy] and [memmove] of runtime/reference_support.c (the
    word-at-a-time versions of native programs) and of runtime/wasm_support.c
    (the byte loops of Wasm programs).

    Memory is a function from addresses to bytes; a pointer is its address.
    A C object never wraps around the address space, so pointer arithmetic is
    arithmetic on [Z]. *)

From S2P Require Import Prelude.

Definition mem := Z -> Z.

Definition store (m : mem) (a v : Z) : mem := fun x => if x =? a then v else m x.

(** Unaligned little-endian 64-bit accesses ([DynWord]). *)
Fixpoint load_le (n : nat) (m : mem) (a : Z) : Z :=
  match n with
  | O => 0
  | S n' => m a + 256 * load_le n' m (a + 1)
  end.
Fixpoint store_le (n : nat) (m : mem) (a v : Z) : mem :=
  match n with
  | O => m
  | S n' => store_le n' (store m a (u8 v)) (a + 1) (Z.shiftr v 8)
  end.
Definition load64 (m : mem) (a : Z) : Z := load_le 8 m a.
Definition store64 (m : mem) (a v : Z) : mem := store_le 8 m a v.

Definition DYN_STRING_THRESHOLD : Z := 512.

(** Byte loop of [copy_forward]; also the effect of [rep movsb]. *)
Fixpoint forward1 (fuel : nat) (m : mem) (to from count : Z) : mem :=
  match fuel with
  | O => m
  | S f =>
      if negb (count =? 0)
      then forward1 f (store m to (m from)) (to + 1) (from + 1) (count - 1)
      else m
  end.

(** Loop state: memory, [to], [from], [count]. *)
Definition copy_state : Type := mem * Z * Z * Z.

Fixpoint forward32 (fuel : nat) (m : mem) (to from count : Z) : copy_state :=
  match fuel with
  | O => (m, to, from, count)
  | S f =>
      if 32 <=? count then
        let a := load64 m from in
        let b := load64 m (from + 8) in
        let c := load64 m (from + 16) in
        let d := load64 m (from + 24) in
        let m := store64 m to a in
        let m := store64 m (to + 8) b in
        let m := store64 m (to + 16) c in
        let m := store64 m (to + 24) d in
        forward32 f m (to + 32) (from + 32) (count - 32)
      else (m, to, from, count)
  end.

Fixpoint forward8 (fuel : nat) (m : mem) (to from count : Z) : copy_state :=
  match fuel with
  | O => (m, to, from, count)
  | S f =>
      if 8 <=? count
      then forward8 f (store64 m to (load64 m from)) (to + 8) (from + 8) (count - 8)
      else (m, to, from, count)
  end.

(** [x86_64] selects the branch compiled for that architecture. *)
Definition copy_forward (x86_64 : bool) (m : mem) (to from count : Z) : mem :=
  let fuel := Z.to_nat count in
  if x86_64 && (DYN_STRING_THRESHOLD <=? count) then forward1 fuel m to from count
  else
    let '(m, to, from, count) := forward32 fuel m to from count in
    let '(m, to, from, count) := forward8 fuel m to from count in
    forward1 fuel m to from count.

Fixpoint backward32 (fuel : nat) (m : mem) (to from count : Z) : copy_state :=
  match fuel with
  | O => (m, to, from, count)
  | S f =>
      if 32 <=? count then
        let to := to - 32 in
        let from := from - 32 in
        let a := load64 m from in
        let b := load64 m (from + 8) in
        let c := load64 m (from + 16) in
        let d := load64 m (from + 24) in
        let m := store64 m (to + 24) d in
        let m := store64 m (to + 16) c in
        let m := store64 m (to + 8) b in
        let m := store64 m to a in
        backward32 f m to from (count - 32)
      else (m, to, from, count)
  end.

Fixpoint backward8 (fuel : nat) (m : mem) (to from count : Z) : copy_state :=
  match fuel with
  | O => (m, to, from, count)
  | S f =>
      if 8 <=? count then
        let to := to - 8 in
        let from := from - 8 in
        backward8 f (store64 m to (load64 m from)) to from (count - 8)
      else (m, to, from, count)
  end.

Fixpoint backward1 (fuel : nat) (m : mem) (to from count : Z) : mem :=
  match fuel with
  | O => m
  | S f =>
      if negb (count =? 0)
      then backward1 f (store m (to - 1) (m (from - 1))) (to - 1) (from - 1) (count - 1)
      else m
  end.

Definition copy_backward (m : mem) (to from count : Z) : mem :=
  let fuel := Z.to_nat count in
  let to := to + count in
  let from := from + count in
  let '(m, to, from, count) := backward32 fuel m to from count in
  let '(m, to, from, count) := backward8 fuel m to from count in
  backward1 fuel m to from count.

Definition memcpy (x86_64 : bool) (m : mem) (destination source count : Z) : mem :=
  copy_forward x86_64 m destination source count.

Definition memmove (x86_64 : bool) (m : mem) (destination source count : Z) : mem :=
  let to := destination in
  let from := source in
  if (from <? to) && (to - from <? count)
  then copy_backward m destination source count
  else copy_forward x86_64 m destination source count.

(** Byte loop of [memset]; also the effect of [rep stosb]. *)
Fixpoint fill1 (fuel : nat) (m : mem) (p value count : Z) : mem :=
  match fuel with
  | O => m
  | S f =>
      if negb (count =? 0)
      then fill1 f (store m p (u8 value)) (p + 1) value (count - 1)
      else m
  end.

Fixpoint fill32 (fuel : nat) (m : mem) (p pattern count : Z) : mem * Z * Z :=
  match fuel with
  | O => (m, p, count)
  | S f =>
      if 32 <=? count then
        let m := store64 m p pattern in
        let m := store64 m (p + 8) pattern in
        let m := store64 m (p + 16) pattern in
        let m := store64 m (p + 24) pattern in
        fill32 f m (p + 32) pattern (count - 32)
      else (m, p, count)
  end.

Fixpoint fill8 (fuel : nat) (m : mem) (p pattern count : Z) : mem * Z * Z :=
  match fuel with
  | O => (m, p, count)
  | S f =>
      if 8 <=? count
      then fill8 f (store64 m p pattern) (p + 8) pattern (count - 8)
      else (m, p, count)
  end.

Definition memset (x86_64 : bool) (m : mem) (destination value count : Z) : mem :=
  let fuel := Z.to_nat count in
  if x86_64 && (DYN_STRING_THRESHOLD <=? count)
  then fill1 fuel m destination value count
  else
    let pattern := u64 (u8 value * 0x0101010101010101) in
    let '(m, p, count) := fill32 fuel m destination pattern count in
    let '(m, p, count) := fill8 fuel m p pattern count in
    fill1 fuel m p value count.

Definition bzero (x86_64 : bool) (m : mem) (destination count : Z) : mem :=
  memset x86_64 m destination 0 count.

(** The Wasm runtime's versions. *)
Module Wasm.

Fixpoint memset_loop (fuel : nat) (m : mem) (out value i count : Z) : mem :=
  match fuel with
  | O => m
  | S f =>
      if i <? count
      then memset_loop f (store m (out + i) (u8 value)) out value (i + 1) count
      else m
  end.
Definition wasm_memset (m : mem) (destination value count : Z) : mem :=
  memset_loop (Z.to_nat count) m destination value 0 count.

Fixpoint memcpy_loop (fuel : nat) (m : mem) (out inp i count : Z) : mem :=
  match fuel with
  | O => m
  | S f =>
      if i <? count
      then memcpy_loop f (store m (out + i) (m (inp + i))) out inp (i + 1) count
      else m
  end.
Definition wasm_memcpy (m : mem) (destination source count : Z) : mem :=
  memcpy_loop (Z.to_nat count) m destination source 0 count.

Fixpoint memmove_loop (fuel : nat) (m : mem) (out inp count : Z) : mem :=
  match fuel with
  | O => m
  | S f =>
      if negb (count =? 0)
      then let count := count - 1 in
           memmove_loop f (store m (out + count) (m (inp + count))) out inp count
      else m
  end.
Definition wasm_memmove (m : mem) (destination source count : Z) : mem :=
  if destination <? source then wasm_memcpy m destination source count
  else memmove_loop (Z.to_nat count) m destination source count.

End Wasm.

(** ** Specification *)

(** Every cell of memory holds a byte. *)
Definition mem_ok (m : mem) : Prop := forall a, is_byte (m a).

(** The memory after [count] bytes at [from] have been moved to [to] as if
    through a temporary copy. *)
Definition move (m : mem) (to from count : Z) : mem :=
  fun x => if (to <=? x) && (x <? to + count) then m (from + (x - to)) else m x.

(** The memory after [count] bytes at [to] have been set to [v]. *)
Definition fill (m : mem) (to v count : Z) : mem :=
  fun x => if (to <=? x) && (x <? to + count) then v else m x.


(** Pointwise goals about [store], [move] and [fill]: split every range test. *)
Ltac mem_cases :=
  unfold move, fill, store in *;
  repeat (split_if || match goal with H : context [if _ then _ else _] |- _ => split_if_in H end);
  to_prop; try lia; try (f_equal; lia).

Lemma move_ok m to from n : mem_ok m -> mem_ok (move m to from n).
Proof. intros H a. unfold move. case_match; apply H. Qed.

Lemma move_0 m to from n x : n <= 0 -> move m to from n x = m x.
Proof. intros. mem_cases. Qed.

Lemma store_le_load n : forall m m0 a b x,
  mem_ok m0 ->
  store_le n m a (load_le n m0 b) x
  = if (a <=? x) && (x <? a + Z.of_nat n) then m0 (b + (x - a)) else m x.
Proof.
  induction n as [|n IH]; intros m m0 a b x H0; [mem_cases|].
  cbn [store_le load_le]. pose proof (H0 b) as Hb. unfold is_byte in Hb.
  rewrite Z.shiftr_div_pow2 by lia. change (2 ^ 8) with 256.
  replace ((m0 b + 256 * load_le n m0 (b + 1)) / 256) with (load_le n m0 (b + 1))
    by (rewrite Z.mul_comm, Z.div_add, (Z.div_small (m0 b)) by lia; lia).
  replace (u8 (m0 b + 256 * load_le n m0 (b + 1))) with (m0 b)
    by (unfold u8, wrap; change (2 ^ 8) with 256;
        rewrite Z.mul_comm, Z_mod_plus_full, Z.mod_small; lia).
  rewrite IH by done. mem_cases.
Qed.

Lemma store64_load64 m m0 a b x :
  mem_ok m0 ->
  store64 m a (load64 m0 b) x
  = if (a <=? x) && (x <? a + 8) then m0 (b + (x - a)) else m x.
Proof. intros. unfold store64, load64. now rewrite store_le_load. Qed.

(** A block of four words, all loaded before the first is stored, moves 32
    bytes whatever the overlap and the order of the stores. *)
Lemma block32_up m to from x :
  mem_ok m ->
  store64 (store64 (store64 (store64 m to (load64 m from)) (to + 8) (load64 m (from + 8)))
    (to + 16) (load64 m (from + 16))) (to + 24) (load64 m (from + 24)) x
  = move m to from 32 x.
Proof. intros. rewrite !store64_load64 by done. mem_cases. Qed.

Lemma block32_down m to from x :
  mem_ok m ->
  store64 (store64 (store64 (store64 m (to + 24) (load64 m (from + 24))) (to + 16)
    (load64 m (from + 16))) (to + 8) (load64 m (from + 8))) to (load64 m from) x
  = move m to from 32 x.
Proof. intros. rewrite !store64_load64 by done. mem_cases. Qed.

Lemma block8 m to from x :
  mem_ok m -> store64 m to (load64 m from) x = move m to from 8 x.
Proof. intros. rewrite store64_load64 by done. mem_cases. Qed.

(** A forward copy may proceed when the destination does not overlap the
    source from above. *)
Definition forward_safe (to from count : Z) : Prop := to <= from \/ from + count <= to.

(** What a copy loop does: [k] bytes moved upward, [count - k] left. *)
Definition forward_post (m : mem) (to from count : Z) (s : copy_state) : Prop :=
  let '(m', to', from', count') := s in
  exists k, 0 <= k <= count /\ to' = to + k /\ from' = from + k /\ count' = count - k
            /\ (forall x, m' x = move m to from k x).

Lemma forward_post_step m m1 to from count k s :
  0 <= k <= count -> forward_safe to from count ->
  (forall x, m1 x = move m to from k x) ->
  forward_post m1 (to + k) (from + k) (count - k) s ->
  forward_post m to from count s.
Proof.
  destruct s as [[[m' to'] from'] count']. intros Hk Hs H1 (j & Hj & -> & -> & -> & Hm).
  exists (k + j). repeat split; try lia.
  intros x. rewrite Hm. unfold move at 1. rewrite !H1. unfold forward_safe in Hs. mem_cases.
Qed.

Lemma forward_post_0 m to from count : 0 <= count -> forward_post m to from count (m, to, from, count).
Proof. intros. exists 0. repeat split; try lia. intros. now rewrite move_0. Qed.

Lemma forward32_spec fuel : forall m to from count,
  mem_ok m -> 0 <= count -> forward_safe to from count ->
  forward_post m to from count (forward32 fuel m to from count).
Proof.
  induction fuel as [|f IH]; intros m to from count Hm Hc Hs; cbn [forward32];
    [now apply forward_post_0|].
  destruct (Z.leb_spec 32 count); [|now apply forward_post_0].
  eapply forward_post_step with (k := 32); [lia|done|intros; now apply block32_up|].
  apply IH; [|lia|unfold forward_safe in *; lia].
  intros a. rewrite block32_up by done. now apply move_ok.
Qed.

Lemma forward8_spec fuel : forall m to from count,
  mem_ok m -> 0 <= count -> forward_safe to from count ->
  forward_post m to from count (forward8 fuel m to from count).
Proof.
  induction fuel as [|f IH]; intros m to from count Hm Hc Hs; cbn [forward8];
    [now apply forward_post_0|].
  destruct (Z.leb_spec 8 count); [|now apply forward_post_0].
  eapply forward_post_step with (k := 8); [lia|done|intros; now apply block8|].
  apply IH; [|lia|unfold forward_safe in *; lia].
  intros a. rewrite block8 by done. now apply move_ok.
Qed.

Lemma forward1_spec fuel : forall m to from count x,
  0 <= count <= Z.of_nat fuel -> forward_safe to from count ->
  forward1 fuel m to from count x = move m to from count x.
Proof.
  induction fuel as [|f IH]; intros m to from count x Hc Hs; cbn [forward1];
    [rewrite move_0; [done|lia]|].
  destruct (Z.eqb_spec count 0) as [->|Hne]; cbn [negb]; [rewrite move_0; [done|lia]|].
  rewrite IH by (unfold forward_safe in *; lia). unfold forward_safe in Hs. mem_cases.
Qed.

Lemma copy_forward_spec x86 m to from count x :
  mem_ok m -> 0 <= count -> forward_safe to from count ->
  copy_forward x86 m to from count x = move m to from count x.
Proof.
  intros Hm Hc Hs. unfold copy_forward.
  destruct (x86 && _); [apply forward1_spec; [lia|done]|].
  pose proof (forward32_spec (Z.to_nat count) m to from count Hm Hc Hs) as H1.
  destruct (forward32 _ _ _ _ _) as [[[m1 to1] from1] count1].
  destruct H1 as (k & Hk & -> & -> & -> & H1).
  assert (mem_ok m1) as Hm1 by (intros a; rewrite H1; now apply move_ok).
  pose proof (forward8_spec (Z.to_nat count) m1 (to + k) (from + k) (count - k) Hm1
    ltac:(lia) ltac:(unfold forward_safe in *; lia)) as H2.
  destruct (forward8 _ _ _ _ _) as [[[m2 to2] from2] count2].
  destruct H2 as (j & Hj & -> & -> & -> & H2).
  rewrite forward1_spec by (unfold forward_safe in *; lia).
  unfold move. rewrite ?H2. unfold move. rewrite ?H1.
  unfold forward_safe in Hs. mem_cases.
Qed.

(** Downward copies: [to] and [from] are the ends of the bytes still to move. *)
Definition backward_post (m : mem) (to from count : Z) (s : copy_state) : Prop :=
  let '(m', to', from', count') := s in
  exists k, 0 <= k <= count /\ to' = to - k /\ from' = from - k /\ count' = count - k
            /\ (forall x, m' x = move m (to - k) (from - k) k x).

Lemma backward_post_step m m1 to from count k s :
  0 <= k <= count -> from <= to ->
  (forall x, m1 x = move m (to - k) (from - k) k x) ->
  backward_post m1 (to - k) (from - k) (count - k) s ->
  backward_post m to from count s.
Proof.
  destruct s as [[[m' to'] from'] count']. intros Hk Hs H1 (j & Hj & -> & -> & -> & Hm).
  exists (k + j). repeat split; try lia.
  intros x. rewrite Hm. unfold move at 1. rewrite !H1. mem_cases.
Qed.

Lemma backward_post_0 m to from count : 0 <= count -> backward_post m to from count (m, to, from, count).
Proof. intros. exists 0. repeat split; try lia. intros. now rewrite move_0. Qed.

Lemma backward32_spec fuel : forall m to from count,
  mem_ok m -> 0 <= count -> from <= to ->
  backward_post m to from count (backward32 fuel m to from count).
Proof.
  induction fuel as [|f IH]; intros m to from count Hm Hc Hs; cbn [backward32];
    [now apply backward_post_0|].
  destruct (Z.leb_spec 32 count); [|now apply backward_post_0].
  eapply backward_post_step with (k := 32); [lia|done|intros; now apply block32_down|].
  apply IH; [|lia|lia]. intros a. rewrite block32_down by done. now apply move_ok.
Qed.

Lemma backward8_spec fuel : forall m to from count,
  mem_ok m -> 0 <= count -> from <= to ->
  backward_post m to from count (backward8 fuel m to from count).
Proof.
  induction fuel as [|f IH]; intros m to from count Hm Hc Hs; cbn [backward8];
    [now apply backward_post_0|].
  destruct (Z.leb_spec 8 count); [|now apply backward_post_0].
  eapply backward_post_step with (k := 8); [lia|done|intros; now apply block8|].
  apply IH; [|lia|lia]. intros a. rewrite block8 by done. now apply move_ok.
Qed.

Lemma backward1_spec fuel : forall m to from count x,
  0 <= count <= Z.of_nat fuel -> from <= to ->
  backward1 fuel m to from count x = move m (to - count) (from - count) count x.
Proof.
  induction fuel as [|f IH]; intros m to from count x Hc Hs; cbn [backward1];
    [rewrite move_0; [done|lia]|].
  destruct (Z.eqb_spec count 0) as [->|Hne]; cbn [negb]; [rewrite move_0; [done|lia]|].
  rewrite IH by lia. mem_cases.
Qed.

Lemma copy_backward_spec m to from count x :
  mem_ok m -> 0 <= count -> from <= to ->
  copy_backward m to from count x = move m to from count x.
Proof.
  intros Hm Hc Hs. unfold copy_backward.
  pose proof (backward32_spec (Z.to_nat count) m (to + count) (from + count) count Hm Hc
    ltac:(lia)) as H1.
  destruct (backward32 _ _ _ _ _) as [[[m1 to1] from1] count1].
  destruct H1 as (k & Hk & -> & -> & -> & H1).
  assert (mem_ok m1) as Hm1 by (intros a; rewrite H1; now apply move_ok).
  pose proof (backward8_spec (Z.to_nat count) m1 (to + count - k) (from + count - k) (count - k)
    Hm1 ltac:(lia) ltac:(lia)) as H2.
  destruct (backward8 _ _ _ _ _) as [[[m2 to2] from2] count2].
  destruct H2 as (j & Hj & -> & -> & -> & H2).
  rewrite backward1_spec by lia.
  unfold move. rewrite ?H2. unfold move. rewrite ?H1. mem_cases.
Qed.

(** C37: [memmove] moves the bytes as if through a temporary copy, for every
    overlap of source and destination, every count and both code paths, and
    changes nothing else. *)
Theorem memmove_moves x86 m dst src count :
  mem_ok m -> 0 <= count ->
  forall x, memmove x86 m dst src count x = move m dst src count x.
Proof.
  intros Hm Hc x. unfold memmove.
  destruct ((src <? dst) && (dst - src <? count)) eqn:E; to_prop.
  - apply copy_backward_spec; [done..|lia].
  - apply copy_forward_spec; [done..|]. unfold forward_safe. destruct E; lia.
Qed.

(** A concrete memory for the witnesses. *)
Definition demo_mem : mem := fun a => a mod 256.
Lemma demo_mem_ok : mem_ok demo_mem.
Proof. intros a. unfold is_byte, demo_mem. pose proof (Z.mod_pos_bound a 256). lia. Qed.

Lemma memmove_moves_witness : memmove true demo_mem 3 0 40 42 = 39.
Proof. rewrite (memmove_moves true demo_mem 3 0 40 demo_mem_ok ltac:(lia) 42). reflexivity. Defined.

Lemma memcpy_moves x86 m dst src count x :
  mem_ok m -> 0 <= count -> forward_safe dst src count ->
  memcpy x86 m dst src count x = move m dst src count x.
Proof. apply copy_forward_spec. Qed.

(** The 64-bit fill pattern is the word read from memory full of the byte. *)
Lemma pattern_load64 v : u64 (u8 v * 0x0101010101010101) = load64 (fun _ => u8 v) 0.
Proof.
  pose proof (u8_range v). rewrite u64_small by lia. unfold load64. cbn [load_le]. lia.
Qed.

Lemma store64_pattern m a v x :
  store64 m a (u64 (u8 v * 0x0101010101010101)) x = fill m a (u8 v) 8 x.
Proof.
  rewrite pattern_load64, store64_load64 by (intros b; apply u8_range). mem_cases.
Qed.

Definition fill_post (m : mem) (p v count : Z) (s : mem * Z * Z) : Prop :=
  let '(m', p', count') := s in
  exists k, 0 <= k <= count /\ p' = p + k /\ count' = count - k
            /\ (forall x, m' x = fill m p v k x).

Lemma fill_post_0 m p v count : 0 <= count -> fill_post m p v count (m, p, count).
Proof. intros. exists 0. repeat split; try lia. intros. mem_cases. Qed.

Lemma fill_post_step m m1 p v count k s :
  0 <= k <= count -> (forall x, m1 x = fill m p v k x) ->
  fill_post m1 (p + k) v (count - k) s -> fill_post m p v count s.
Proof.
  destruct s as [[m' p'] count']. intros Hk H1 (j & Hj & -> & -> & Hm).
  exists (k + j). repeat split; try lia. intros x. rewrite Hm. unfold fill at 1. rewrite !H1.
  mem_cases.
Qed.

Lemma fill32_spec fuel v : forall m p count,
  0 <= count ->
  fill_post m p (u8 v) count (fill32 fuel m p (u64 (u8 v * 0x0101010101010101)) count).
Proof.
  induction fuel as [|f IH]; intros m p count Hc; cbn [fill32]; [now apply fill_post_0|].
  destruct (Z.leb_spec 32 count); [|now apply fill_post_0].
  eapply fill_post_step with (k := 32); [lia| |apply IH; lia].
  intros x. rewrite store64_pattern. unfold fill at 1. rewrite store64_pattern.
  unfold fill at 1. rewrite store64_pattern. unfold fill at 1. rewrite store64_pattern. mem_cases.
Qed.

Lemma fill8_spec fuel v : forall m p count,
  0 <= count ->
  fill_post m p (u8 v) count (fill8 fuel m p (u64 (u8 v * 0x0101010101010101)) count).
Proof.
  induction fuel as [|f IH]; intros m p count Hc; cbn [fill8]; [now apply fill_post_0|].
  destruct (Z.leb_spec 8 count); [|now apply fill_post_0].
  eapply fill_post_step with (k := 8); [lia|apply store64_pattern|apply IH; lia].
Qed.

Lemma fill1_spec fuel v : forall m p count x,
  0 <= count <= Z.of_nat fuel -> fill1 fuel m p v count x = fill m p (u8 v) count x.
Proof.
  induction fuel as [|f IH]; intros m p count x Hc; cbn [fill1]; [mem_cases|].
  destruct (Z.eqb_spec count 0) as [->|Hne]; cbn [negb]; [mem_cases|].
  rewrite IH by lia. mem_cases.
Qed.

Lemma memset_fills x86 m dst v count x :
  0 <= count -> memset x86 m dst v count x = fill m dst (u8 v) count x.
Proof.
  intros Hc. unfold memset. destruct (x86 && _); [apply fill1_spec; lia|].
  pose proof (fill32_spec (Z.to_nat count) v m dst count Hc) as H1.
  destruct (fill32 _ _ _ _ _) as [[m1 p1] c1]. destruct H1 as (k & Hk & -> & -> & H1).
  pose proof (fill8_spec (Z.to_nat count) v m1 (dst + k) (count - k) ltac:(lia)) as H2.
  destruct (fill8 _ _ _ _ _) as [[m2 p2] c2]. destruct H2 as (j & Hj & -> & -> & H2).
  rewrite fill1_spec by lia. unfold fill at 1. rewrite ?H2. unfold fill at 1. rewrite ?H1.
  mem_cases.
Qed.

Lemma memset_loop_spec fuel v : forall m out i count x,
  0 <= i <= count -> count - i <= Z.of_nat fuel ->
  Wasm.memset_loop fuel m out v i count x = fill m (out + i) (u8 v) (count - i) x.
Proof.
  induction fuel as [|f IH]; intros m out i count x Hi Hf; cbn [Wasm.memset_loop]; [mem_cases|].
  destruct (Z.ltb_spec i count); [|mem_cases]. rewrite IH by lia. mem_cases.
Qed.

Lemma memcpy_loop_spec fuel : forall m out inp i count x,
  0 <= i <= count -> count - i <= Z.of_nat fuel -> forward_safe out inp count ->
  Wasm.memcpy_loop fuel m out inp i count x = move m (out + i) (inp + i) (count - i) x.
Proof.
  induction fuel as [|f IH]; intros m out inp i count x Hi Hf Hs; cbn [Wasm.memcpy_loop];
    [mem_cases|].
  destruct (Z.ltb_spec i count); [|mem_cases].
  rewrite IH by (try done; lia). unfold forward_safe in Hs. mem_cases.
Qed.

Lemma memmove_loop_spec fuel : forall m out inp count x,
  0 <= count <= Z.of_nat fuel -> inp <= out ->
  Wasm.memmove_loop fuel m out inp count x = move m out inp count x.
Proof.
  induction fuel as [|f IH]; intros m out inp count x Hc Hs; cbn [Wasm.memmove_loop];
    [mem_cases|].
  destruct (Z.eqb_spec count 0) as [->|Hne]; cbn [negb]; [mem_cases|].
  rewrite IH by lia. mem_cases.
Qed.

Lemma wasm_memmove_moves m dst src count x :
  0 <= count -> Wasm.wasm_memmove m dst src count x = move m dst src count x.
Proof.
  intros Hc. unfold Wasm.wasm_memmove. destruct (Z.ltb_spec dst src).
  - unfold Wasm.wasm_memcpy. rewrite memcpy_loop_spec by (unfold forward_safe; lia). mem_cases.
  - apply memmove_loop_spec; lia.
Qed.

(** C38: The word-at-a-time [memset] of native programs writes the low byte of
    its argument to exactly the [count] bytes at the destination, and agrees
    with the byte loop of Wasm programs everywhere. *)
Theorem memset_agrees x86 m dst v count :
  0 <= count ->
  forall x, memset x86 m dst v count x = fill m dst (u8 v) count x
            /\ Wasm.wasm_memset m dst v count x = memset x86 m dst v count x.
Proof.
  intros Hc x. rewrite memset_fills by done. split; [done|].
  unfold Wasm.wasm_memset. rewrite memset_loop_spec by lia. mem_cases.
Qed.

Lemma memset_agrees_witness : memset false demo_mem 5 0x1ff 43 47 = 255.
Proof. rewrite (proj1 (memset_agrees false demo_mem 5 0x1ff 43 ltac:(lia) 47)). reflexivity. Defined.
