(* ===== verification/RuntimeFmod.v ===== *)
(** * Floating remainder

    [fmod] and [fmodf] of runtime/reference_support.c. Both work on the bit
    patterns of their arguments; the few genuine floating operations
    ([0 * x], [(x * y) / (x * y)]) are the IEEE operations of the standard
    library's [SpecFloat]. *)

From S2P Require Import Prelude.
From Stdlib Require Import SpecFloat.

(** Reading a bit pattern as an IEEE number with [fw] fraction bits in a
    [w]-bit word ([dyn_f64_value], [dyn_f32_value]). *)
Definition decode_float (w fw bits : Z) : spec_float :=
  let s := Z.testbit bits (w - 1) in
  let ebits := w - 1 - fw in
  let e := Z.land (Z.shiftr bits fw) (2 ^ ebits - 1) in
  let f := Z.land bits (2 ^ fw - 1) in
  let bias := 2 ^ (ebits - 1) - 1 in
  if e =? 0 then
    match f with
    | Zpos m => S754_finite s m (1 - bias - fw)
    | _ => S754_zero s
    end
  else if e =? 2 ^ ebits - 1 then (if f =? 0 then S754_infinity s else S754_nan)
  else
    match 2 ^ fw + f with
    | Zpos m => S754_finite s m (e - bias - fw)
    | _ => S754_nan
    end.

Definition dyn_f64_value (i : Z) : spec_float := decode_float 64 52 i.
Definition dyn_f32_value (i : Z) : spec_float := decode_float 32 23 i.

Definition mul64 := SFmul 53 1024.
Definition div64 := SFdiv 53 1024.
Definition mul32 := SFmul 24 128.
Definition div32 := SFdiv 24 128.

(** The loops, at word width [w]; [None] is a loop that has not ended within
    its fuel.
    [for (i = ...; i >> (w-1) == 0; ex--, i <<= 1) {}] *)
Fixpoint normalize_loop (fuel : nat) (w i ex : Z) : option Z :=
  match fuel with
  | O => None
  | S f =>
      if Z.shiftr i (w - 1) =? 0
      then normalize_loop f w (wrap w (Z.shiftl i 1)) (ex - 1)
      else Some ex
  end.

(** [for (; ex > ey; ex--) ...]: [Some None] is the early [return 0 * x]. *)
Fixpoint subtract_loop (fuel : nat) (w ux uy ex ey : Z) : option (option (Z * Z)) :=
  match fuel with
  | O => None
  | S f =>
      if ey <? ex then
        let i := wrap w (ux - uy) in
        if Z.shiftr i (w - 1) =? 0 then
          if i =? 0 then Some None
          else subtract_loop f w (wrap w (Z.shiftl i 1)) uy (ex - 1) ey
        else subtract_loop f w (wrap w (Z.shiftl ux 1)) uy (ex - 1) ey
      else Some (Some (ux, ex))
  end.

(** [for (; ux >> fw == 0; ux <<= 1, ex--) {}] *)
Fixpoint renormalize_loop (fuel : nat) (w fw ux ex : Z) : option (Z * Z) :=
  match fuel with
  | O => None
  | S f =>
      if Z.shiftr ux fw =? 0
      then renormalize_loop f w fw (wrap w (Z.shiftl ux 1)) (ex - 1)
      else Some (ux, ex)
  end.

(** Exponent and significand of an operand, the leading one made explicit
    and subnormals normalized. *)
Definition significand64 (ux ex : Z) : option (Z * Z) :=
  if ex =? 0 then
    let* ex := normalize_loop 64 64 (u64 (Z.shiftl ux 12)) ex in
    Some (u64 (Z.shiftl ux (- ex + 1)), ex)
  else Some (Z.lor (Z.land ux (Z.shiftr (2 ^ 64 - 1) 12)) (Z.shiftl 1 52), ex).

(** [None] would be a call that does not return. *)
Definition fmod (xbits ybits : Z) : option spec_float :=
  let x := dyn_f64_value xbits in
  let y := dyn_f64_value ybits in
  let zero_x := mul64 (S754_zero false) x in
  let ux := xbits in
  let uy := ybits in
  let ex := Z.land (Z.shiftr ux 52) 0x7ff in
  let ey := Z.land (Z.shiftr uy 52) 0x7ff in
  let sx := Z.shiftr ux 63 in
  if (u64 (Z.shiftl uy 1) =? 0) || (Z.shiftl 0xffe 52 <? u64 (Z.shiftl uy 1)) || (ex =? 0x7ff)
  then Some (div64 (mul64 x y) (mul64 x y))
  else if u64 (Z.shiftl ux 1) <=? u64 (Z.shiftl uy 1) then
    Some (if u64 (Z.shiftl ux 1) =? u64 (Z.shiftl uy 1) then zero_x else x)
  else
    let* (ux, ex) := significand64 ux ex in
    let* (uy, ey) := significand64 uy ey in
    let* rest := subtract_loop (S (Z.to_nat (ex - ey))) 64 ux uy ex ey in
    match rest with
    | None => Some zero_x
    | Some (ux, ex) =>
        let i := u64 (ux - uy) in
        if (Z.shiftr i 63 =? 0) && (i =? 0) then Some zero_x
        else
          let ux := if Z.shiftr i 63 =? 0 then i else ux in
          let* (ux, ex) := renormalize_loop 53 64 52 ux ex in
          let ux :=
            if 0 <? ex then Z.lor (u64 (ux - Z.shiftl 1 52)) (u64 (Z.shiftl ex 52))
            else Z.shiftr ux (- ex + 1) in
          Some (dyn_f64_value (Z.lor ux (u64 (Z.shiftl sx 63))))
    end.

Definition significand32 (ux ex : Z) : option (Z * Z) :=
  if ex =? 0 then
    let* ex := normalize_loop 32 32 (u32 (Z.shiftl ux 9)) ex in
    Some (u32 (Z.shiftl ux (- ex + 1)), ex)
  else Some (Z.lor (Z.land ux (Z.shiftr (2 ^ 32 - 1) 9)) (Z.shiftl 1 23), ex).

Definition fmodf (xbits ybits : Z) : option spec_float :=
  let x := dyn_f32_value xbits in
  let y := dyn_f32_value ybits in
  let zero_x := mul32 (S754_zero false) x in
  let ux := xbits in
  let uy := ybits in
  let ex := Z.land (Z.shiftr ux 23) 0xff in
  let ey := Z.land (Z.shiftr uy 23) 0xff in
  let sx := Z.land ux 0x80000000 in
  if (u32 (Z.shiftl uy 1) =? 0) || (0xff000000 <? u32 (Z.shiftl uy 1)) || (ex =? 0xff)
  then Some (div32 (mul32 x y) (mul32 x y))
  else if u32 (Z.shiftl ux 1) <=? u32 (Z.shiftl uy 1) then
    Some (if u32 (Z.shiftl ux 1) =? u32 (Z.shiftl uy 1) then zero_x else x)
  else
    let* (ux, ex) := significand32 ux ex in
    let* (uy, ey) := significand32 uy ey in
    let* rest := subtract_loop (S (Z.to_nat (ex - ey))) 32 ux uy ex ey in
    match rest with
    | None => Some zero_x
    | Some (ux, ex) =>
        let i := u32 (ux - uy) in
        if (Z.shiftr i 31 =? 0) && (i =? 0) then Some zero_x
        else
          let ux := if Z.shiftr i 31 =? 0 then i else ux in
          let* (ux, ex) := renormalize_loop 24 32 23 ux ex in
          let ux :=
            if 0 <? ex then Z.lor (u32 (ux - Z.shiftl 1 23)) (u32 (Z.shiftl ex 23))
            else Z.shiftr ux (- ex + 1) in
          Some (dyn_f32_value (Z.lor ux sx))
    end.

(** ** Specification *)

(** The magnitude of a finite number in units of [2^emin]. *)
Definition magnitude (emin : Z) (f : spec_float) : Z :=
  match f with
  | S754_finite _ m e => Zpos m * 2 ^ (e - emin)
  | _ => 0
  end.
Definition sign_of (f : spec_float) : bool :=
  match f with
  | S754_zero s | S754_infinity s | S754_finite s _ _ => s
  | S754_nan => false
  end.
Definition finite (f : spec_float) : Prop :=
  match f with S754_zero _ | S754_finite _ _ _ => True | _ => False end.

Example fmod_5_3 : fmod 0x4014000000000000 0x4008000000000000 = Some (S754_finite false 4503599627370496 (-51)).
Proof. vm_compute. reflexivity. Qed.

(** ** Correctness, at any width

    The two functions are one algorithm at two widths; [fmod_gen] is that
    algorithm, and both C functions are instances of it by computation. *)
Definition significand_gen (w fw ux ex : Z) : option (Z * Z) :=
  if ex =? 0 then
    let* ex := normalize_loop (Z.to_nat w) w (wrap w (Z.shiftl ux (w - fw))) ex in
    Some (wrap w (Z.shiftl ux (- ex + 1)), ex)
  else Some (Z.lor (Z.land ux (Z.shiftr (2 ^ w - 1) (w - fw))) (Z.shiftl 1 fw), ex).

Definition fmod_gen (w fw : Z) (special zero_x x : spec_float) (sbits ux uy : Z) : option spec_float :=
  let emax := 2 ^ (w - 1 - fw) - 1 in
  let ex := Z.land (Z.shiftr ux fw) emax in
  let ey := Z.land (Z.shiftr uy fw) emax in
  if (wrap w (Z.shiftl uy 1) =? 0) || (Z.shiftl emax (fw + 1) <? wrap w (Z.shiftl uy 1)) || (ex =? emax)
  then Some special
  else if wrap w (Z.shiftl ux 1) <=? wrap w (Z.shiftl uy 1) then
    Some (if wrap w (Z.shiftl ux 1) =? wrap w (Z.shiftl uy 1) then zero_x else x)
  else
    let* (ux, ex) := significand_gen w fw ux ex in
    let* (uy, ey) := significand_gen w fw uy ey in
    let* rest := subtract_loop (S (Z.to_nat (ex - ey))) w ux uy ex ey in
    match rest with
    | None => Some zero_x
    | Some (ux, ex) =>
        let i := wrap w (ux - uy) in
        if (Z.shiftr i (w - 1) =? 0) && (i =? 0) then Some zero_x
        else
          let ux := if Z.shiftr i (w - 1) =? 0 then i else ux in
          let* (ux, ex) := renormalize_loop (Z.to_nat (fw + 1)) w fw ux ex in
          let ux :=
            if 0 <? ex then Z.lor (wrap w (ux - Z.shiftl 1 fw)) (wrap w (Z.shiftl ex fw))
            else Z.shiftr ux (- ex + 1) in
          Some (decode_float w fw (Z.lor ux sbits))
    end.

Lemma fmod_is_gen xb yb :
  fmod xb yb =
  fmod_gen 64 52 (div64 (mul64 (dyn_f64_value xb) (dyn_f64_value yb)) (mul64 (dyn_f64_value xb) (dyn_f64_value yb)))
    (mul64 (S754_zero false) (dyn_f64_value xb)) (dyn_f64_value xb)
    (u64 (Z.shiftl (Z.shiftr xb 63) 63)) xb yb.
Proof. reflexivity. Qed.

Lemma fmodf_is_gen xb yb :
  fmodf xb yb =
  fmod_gen 32 23 (div32 (mul32 (dyn_f32_value xb) (dyn_f32_value yb)) (mul32 (dyn_f32_value xb) (dyn_f32_value yb)))
    (mul32 (S754_zero false) (dyn_f32_value xb)) (dyn_f32_value xb)
    (Z.land xb 0x80000000) xb yb.
Proof. reflexivity. Qed.

Section Generic.
Context (w fw : Z).
Context (Hfw : 1 <= fw) (Hw : fw + 3 <= w).

#[local] Abbreviation ebits := (w - 1 - fw).
#[local] Abbreviation emax := (2 ^ (w - 1 - fw) - 1).

(** Exponent field, fraction and magnitude of a bit pattern. *)
Definition exp_field (u : Z) : Z := Z.land (Z.shiftr u fw) emax.
Definition frac_field (u : Z) : Z := u mod 2 ^ fw.
Definition mag (u : Z) : Z :=
  if exp_field u =? 0 then frac_field u else (2 ^ fw + frac_field u) * 2 ^ (exp_field u - 1).

Lemma pow_split a b : 0 <= a -> 0 <= b -> 2 ^ (a + b) = 2 ^ a * 2 ^ b.
Proof. apply Z.pow_add_r. Qed.

Lemma pow_pos n : 0 <= n -> 0 < 2 ^ n.
Proof. intros. apply Z.pow_pos_nonneg; lia. Qed.

Lemma exp_field_mod u : exp_field u = (u / 2 ^ fw) mod 2 ^ ebits.
Proof. unfold exp_field. rewrite land_ones_mod, Z.shiftr_div_pow2 by lia. reflexivity. Qed.

Lemma exp_field_range u : 0 <= exp_field u <= emax.
Proof. rewrite exp_field_mod. pose proof (Z.mod_pos_bound (u / 2 ^ fw) (2 ^ ebits) (pow_pos ebits ltac:(lia))). lia. Qed.

Lemma frac_field_range u : 0 <= frac_field u < 2 ^ fw.
Proof. apply Z.mod_pos_bound, pow_pos. lia. Qed.

(** Without its sign bit, a pattern is its exponent above its fraction. *)
Lemma unsigned_part u : u mod 2 ^ (w - 1) = exp_field u * 2 ^ fw + frac_field u.
Proof.
  rewrite exp_field_mod. unfold frac_field.
  replace (w - 1) with (fw + ebits) at 1 by lia. rewrite pow_split by lia.
  rewrite Z.rem_mul_r by (apply Z.pow_nonzero || apply pow_pos; lia). lia.
Qed.

Lemma shifted_pattern u : wrap w (Z.shiftl u 1) = 2 * (u mod 2 ^ (w - 1)).
Proof.
  unfold wrap. rewrite Z.shiftl_mul_pow2 by lia. change (2 ^ 1) with 2.
  replace w with (1 + (w - 1)) at 1 by lia. rewrite pow_split by lia. change (2 ^ 1) with 2.
  rewrite (Z.mul_comm u 2), Z.mul_mod_distr_l; [reflexivity| |lia].
  apply Z.pow_nonzero; lia.
Qed.

(** Magnitudes are ordered as the unsigned parts. *)
Lemma mag_lt u v : u mod 2 ^ (w - 1) < v mod 2 ^ (w - 1) -> mag u < mag v.
Proof.
  rewrite !unsigned_part. intros H.
  pose proof (frac_field_range u). pose proof (frac_field_range v).
  pose proof (exp_field_range u). pose proof (exp_field_range v).
  pose proof (pow_pos fw ltac:(lia)) as Hp.
  assert (exp_field u < exp_field v \/ exp_field u = exp_field v /\ frac_field u < frac_field v) as [He|[He Hf]].
  { destruct (Z.lt_trichotomy (exp_field u) (exp_field v)) as [|[Heq|Hgt]]; [auto| |].
    - right. rewrite Heq in H. lia.
    - exfalso. nia. }
  - unfold mag. destruct (Z.eqb_spec (exp_field v) 0); [lia|].
    pose proof (pow_pos (exp_field v - 1) ltac:(lia)).
    destruct (Z.eqb_spec (exp_field u) 0); [nia|].
    replace (exp_field v - 1) with (exp_field u + (exp_field v - exp_field u - 1)) by lia.
    rewrite pow_split by lia. pose proof (pow_pos (exp_field v - exp_field u - 1) ltac:(lia)).
    replace (2 ^ exp_field u) with (2 * 2 ^ (exp_field u - 1))
      by (rewrite <- Z.pow_succ_r by lia; f_equal; lia).
    pose proof (pow_pos (exp_field u - 1) ltac:(lia)). nia.
  - unfold mag. rewrite He. destruct (Z.eqb_spec (exp_field v) 0); [lia|].
    pose proof (pow_pos (exp_field v - 1) ltac:(lia)). nia.
Qed.

Lemma mag_eq u v : u mod 2 ^ (w - 1) = v mod 2 ^ (w - 1) -> mag u = mag v.
Proof.
  rewrite !unsigned_part. intros H.
  pose proof (frac_field_range u). pose proof (frac_field_range v).
  assert (exp_field u = exp_field v) as He by nia.
  unfold mag. rewrite He in *. replace (frac_field u) with (frac_field v) by lia. reflexivity.
Qed.

Lemma mag_nonneg u : 0 <= mag u.
Proof.
  unfold mag. pose proof (frac_field_range u). pose proof (exp_field_range u).
  destruct (Z.eqb_spec (exp_field u) 0); [lia|].
  pose proof (pow_pos (exp_field u - 1) ltac:(lia)). nia.
Qed.

(** *** The loops *)
Lemma shiftr_zero_iff x n : 0 <= n -> 0 <= x -> (Z.shiftr x n =? 0) = (x <? 2 ^ n).
Proof.
  intros Hn Hx. rewrite Z.shiftr_div_pow2 by lia. pose proof (pow_pos n Hn).
  destruct (Z.ltb_spec x (2 ^ n)); [rewrite Z.div_small; lia|].
  apply Z.eqb_neq. pose proof (Z.div_str_pos x (2 ^ n)). lia.
Qed.

Lemma wrap_double x : 0 <= x < 2 ^ (w - 1) -> wrap w (Z.shiftl x 1) = 2 * x.
Proof.
  intros Hx. rewrite shifted_pattern, Z.mod_small by lia. lia.
Qed.

Lemma normalize_loop_spec fuel : forall i ex,
  0 < i < 2 ^ w -> 2 ^ w <= i * 2 ^ Z.of_nat fuel ->
  exists k, 0 <= k <= Z.of_nat fuel /\ normalize_loop fuel w i ex = Some (ex - k)
            /\ 2 ^ (w - 1) <= i * 2 ^ k < 2 ^ w.
Proof.
  induction fuel as [|f IH]; intros i ex Hi Hf; cbn [normalize_loop].
  - change (2 ^ Z.of_nat 0) with 1 in Hf. lia.
  - rewrite shiftr_zero_iff by lia. destruct (Z.ltb_spec i (2 ^ (w - 1))) as [Hlt|Hge].
    + rewrite wrap_double by lia.
      assert (2 ^ w = 2 * 2 ^ (w - 1)) as Hpw
        by (rewrite <- Z.pow_succ_r by lia; f_equal; lia).
      rewrite Nat2Z.inj_succ, Z.pow_succ_r in Hf by lia.
      destruct (IH (2 * i) (ex - 1)) as (k & Hk & -> & Hb); [lia|lia|].
      exists (k + 1). rewrite Z.pow_add_r, Z.pow_1_r by lia. split; [lia|]. split; [f_equal; lia|]. lia.
    + exists 0. rewrite Z.pow_0_r. split; [lia|]. split; [f_equal; lia|]. lia.
Qed.

(** The sign of a wrapped difference tells which operand is larger. *)
Lemma wrap_sub_sign a b :
  0 <= a < 2 ^ (w - 1) -> 0 <= b <= 2 ^ (w - 2) ->
  (b <= a -> wrap w (a - b) = a - b /\ (Z.shiftr (wrap w (a - b)) (w - 1) =? 0) = true) /\
  (a < b -> (Z.shiftr (wrap w (a - b)) (w - 1) =? 0) = false).
Proof.
  intros Ha Hb.
  assert (2 ^ w = 2 * 2 ^ (w - 1)) as E1 by (rewrite <- Z.pow_succ_r by lia; f_equal; lia).
  assert (2 ^ (w - 1) = 2 * 2 ^ (w - 2)) as E2 by (rewrite <- Z.pow_succ_r by lia; f_equal; lia).
  pose proof (wrap_range w (a - b) ltac:(lia)).
  split; intros Hab.
  - assert (wrap w (a - b) = a - b) as -> by (apply Z.mod_small; lia).
    split; [done|]. rewrite shiftr_zero_iff by lia. apply Z.ltb_lt. lia.
  - rewrite shiftr_zero_iff by lia. apply Z.ltb_ge.
    unfold wrap. rewrite <- (Z_mod_plus_full _ 1), Z.mod_small; lia.
Qed.

(** An operand with its leading one: normalized, and small enough that
    doubling it never overflows. *)
Definition normal (u : Z) : Prop := 2 ^ fw <= u < 2 ^ (fw + 1).

Lemma normal_small u : normal u -> 0 < u /\ 2 * u < 2 ^ (w - 1) /\ u <= 2 ^ (w - 2).
Proof.
  unfold normal. intros Hu. pose proof (pow_pos fw ltac:(lia)).
  assert (2 ^ (fw + 1) <= 2 ^ (w - 2)) by (apply Z.pow_le_mono_r; lia).
  assert (2 ^ (w - 1) = 2 * 2 ^ (w - 2)) by (rewrite <- Z.pow_succ_r by lia; f_equal; lia).
  lia.
Qed.

Lemma subtract_loop_spec uy ey : normal uy -> forall fuel ux ex,
  0 < ux < 2 * uy -> ey <= ex -> ex - ey < Z.of_nat fuel ->
  match subtract_loop fuel w ux uy ex ey with
  | None => False
  | Some None => (ux * 2 ^ (ex - ey)) mod uy = 0
  | Some (Some (ux', ex')) => ex' = ey /\ 0 < ux' < 2 * uy /\ ux' mod uy = (ux * 2 ^ (ex - ey)) mod uy
  end.
Proof.
  intros Hn. destruct (normal_small uy Hn) as (Hpos & Hsmall & Hy).
  induction fuel as [|f IH]; intros ux ex Hux He Hf; cbn [subtract_loop].
  - lia.
  - destruct (Z.ltb_spec ey ex) as [Hlt|Hge].
    2: { replace (ex - ey) with 0 by lia. rewrite Z.pow_0_r, Z.mul_1_r. repeat split; lia. }
    replace (ex - ey) with (1 + (ex - 1 - ey)) by lia. rewrite pow_split by lia.
    change (2 ^ 1) with 2. pose proof (pow_pos (ex - 1 - ey) ltac:(lia)).
    destruct (wrap_sub_sign ux uy ltac:(lia) ltac:(lia)) as [Hge Hlt'].
    destruct (Z_le_gt_dec uy ux) as [Hc|Hc].
    + destruct (Hge Hc) as [E ->]. rewrite E.
      replace (ux * (2 * 2 ^ (ex - 1 - ey))) with (2 * (ux - uy) * 2 ^ (ex - 1 - ey) + (2 * 2 ^ (ex - 1 - ey)) * uy) by ring.
      rewrite Z_mod_plus_full.
      destruct (Z.eqb_spec (ux - uy) 0) as [E0|E0].
      * rewrite E0. apply Z.mod_0_l. lia.
      * rewrite wrap_double by lia. apply IH; lia.
    + rewrite Hlt' by lia. rewrite wrap_double by lia.
      replace (ux * (2 * 2 ^ (ex - 1 - ey))) with (2 * ux * 2 ^ (ex - 1 - ey)) by ring.
      apply IH; lia.
Qed.

Lemma renormalize_loop_spec fuel : forall ux ex,
  0 < ux < 2 ^ (fw + 1) -> 2 ^ (fw + 1) <= ux * 2 ^ Z.of_nat fuel ->
  exists k, 0 <= k <= Z.of_nat fuel
            /\ renormalize_loop fuel w fw ux ex = Some (ux * 2 ^ k, ex - k) /\ normal (ux * 2 ^ k).
Proof.
  unfold normal. assert (2 ^ (fw + 1) = 2 * 2 ^ fw) as Hp
    by (rewrite <- Z.pow_succ_r by lia; f_equal; lia).
  assert (2 ^ (fw + 1) <= 2 ^ (w - 1)) by (apply Z.pow_le_mono_r; lia).
  induction fuel as [|f IH]; intros ux ex Hu Hf; cbn [renormalize_loop].
  - change (2 ^ Z.of_nat 0) with 1 in Hf. lia.
  - rewrite shiftr_zero_iff by lia. destruct (Z.ltb_spec ux (2 ^ fw)) as [Hlt|Hge].
    + rewrite wrap_double by lia. rewrite Nat2Z.inj_succ, Z.pow_succ_r in Hf by lia.
      destruct (IH (2 * ux) (ex - 1)) as (k & Hk & -> & Hb); [lia|lia|].
      exists (k + 1). rewrite Z.pow_add_r, Z.pow_1_r by lia.
      replace (ux * (2 ^ k * 2)) with (2 * ux * 2 ^ k) by ring.
      replace (ex - (k + 1)) with (ex - 1 - k) by lia. repeat split; lia.
    + exists 0. rewrite Z.pow_0_r, Z.mul_1_r, Z.sub_0_r. repeat split; lia.
Qed.

(** *** Significands *)
Lemma significand_spec u :
  0 < mag u -> exp_field u <> emax ->
  exists s e, significand_gen w fw u (exp_field u) = Some (s, e) /\ normal s /\ 1 - fw <= e < emax /\ s * 2 ^ (e - 1 + fw) = mag u * 2 ^ fw.
Proof.
  intros Hm He. pose proof (exp_field_range u) as Hr. pose proof (frac_field_range u) as Hf.
  assert (2 ^ (fw + 1) = 2 * 2 ^ fw) as Hp by (rewrite <- Z.pow_succ_r by lia; f_equal; lia).
  assert (4 <= 2 ^ ebits) by (change 4 with (2 ^ 2); apply Z.pow_le_mono_r; lia).
  unfold significand_gen, mag, normal in *. destruct (Z.eqb_spec (exp_field u) 0) as [E|E].
  - rewrite E.
    assert (wrap w (Z.shiftl u (w - fw)) = frac_field u * 2 ^ (w - fw)) as ->.
    { unfold wrap. rewrite Z.shiftl_mul_pow2 by lia. replace w with (fw + (w - fw)) at 2 by lia.
      rewrite pow_split, Z.mul_mod_distr_r; [reflexivity|apply Z.pow_nonzero; lia..|lia|lia]. }
    pose proof (pow_pos (w - fw) ltac:(lia)) as Hp2.
    assert (2 ^ w = 2 ^ fw * 2 ^ (w - fw)) as Hp3 by (rewrite <- pow_split by lia; f_equal; lia).
    assert (2 ^ (w - 1) = 2 ^ (fw - 1) * 2 ^ (w - fw)) as Hp4 by (rewrite <- pow_split by lia; f_equal; lia).
    destruct (normalize_loop_spec (Z.to_nat w) (frac_field u * 2 ^ (w - fw)) 0) as (k & Hk & -> & Hb).
    { split; nia. }
    { rewrite Z2Nat.id by lia.
      assert (1 <= frac_field u * 2 ^ (w - fw)) by nia. nia. }
    assert (2 ^ (fw - 1) <= frac_field u * 2 ^ k < 2 ^ fw) as Hfk by nia.
    assert (k <= fw - 1).
    { destruct (Z_le_gt_dec k (fw - 1)); [done|]. exfalso.
      assert (2 ^ fw <= 2 ^ k) by (apply Z.pow_le_mono_r; lia). nia. }
    assert (2 ^ fw = 2 * 2 ^ (fw - 1)) as Hp5 by (rewrite <- Z.pow_succ_r by lia; f_equal; lia).
    assert (wrap w (Z.shiftl u (- (0 - k) + 1)) = frac_field u * 2 ^ (k + 1)) as ->.
    { assert (u mod 2 ^ (w - 1) = frac_field u) as Hu by (rewrite unsigned_part, E; lia).
      unfold wrap. rewrite Z.shiftl_mul_pow2 by lia. replace (- (0 - k) + 1) with (k + 1) by lia.
      rewrite (Z.div_mod u (2 ^ (w - 1))) at 1 by (apply Z.pow_nonzero; lia). rewrite Hu.
      replace ((2 ^ (w - 1) * (u / 2 ^ (w - 1)) + frac_field u) * 2 ^ (k + 1))
        with (frac_field u * 2 ^ (k + 1) + (u / 2 ^ (w - 1) * 2 ^ k) * 2 ^ w).
      - rewrite Z_mod_plus_full. apply Z.mod_small.
        rewrite Z.pow_add_r, Z.pow_1_r by lia.
        assert (2 ^ (fw + 1) <= 2 ^ w) by (apply Z.pow_le_mono_r; lia). nia.
      - assert (2 ^ w = 2 * 2 ^ (w - 1)) as -> by (rewrite <- Z.pow_succ_r by lia; f_equal; lia).
        rewrite Z.pow_add_r, Z.pow_1_r by lia. ring. }
    eexists _, _. split; [reflexivity|]. replace (0 - k - 1 + fw) with (fw - (k + 1)) by lia.
    split; [|split; [lia|]].
    + rewrite Z.pow_add_r, Z.pow_1_r by lia. lia.
    + rewrite <- Z.mul_assoc, <- pow_split by lia. do 2 f_equal. lia.
  - assert (Z.lor (Z.land u (Z.shiftr (2 ^ w - 1) (w - fw))) (Z.shiftl 1 fw) = 2 ^ fw + frac_field u) as ->.
    { replace (Z.shiftr (2 ^ w - 1) (w - fw)) with (2 ^ fw - 1).
      - rewrite land_ones_mod, lor_shift_add by (try apply Z.mod_pos_bound, pow_pos; lia).
        unfold frac_field. lia.
      - rewrite Z.shiftr_div_pow2 by lia. apply Z.div_unique with (2 ^ (w - fw) - 1).
        + pose proof (pow_pos (w - fw) ltac:(lia)). lia.
        + rewrite Z.mul_sub_distr_l, Z.mul_1_r, <- pow_split by lia.
          replace (w - fw + fw) with w by lia. lia. }
    eexists _, _. split; [reflexivity|]. split; [lia|]. split; [lia|].
    rewrite <- Z.mul_assoc, <- pow_split by lia. reflexivity.
Qed.

(** *** Reading the result back *)
Definition emin : Z := 1 - (2 ^ (ebits - 1) - 1) - fw.

Lemma decode_finite u :
  exp_field u <> emax ->
  finite (decode_float w fw u) /\ magnitude emin (decode_float w fw u) = mag u
  /\ sign_of (decode_float w fw u) = Z.testbit u (w - 1).
Proof.
  intros He. pose proof (frac_field_range u) as Hf. pose proof (exp_field_range u) as Hr.
  unfold decode_float, mag. fold (exp_field u). rewrite land_ones_mod by lia.
  fold (frac_field u). pose proof (pow_pos fw ltac:(lia)).
  destruct (Z.eqb_spec (exp_field u) 0) as [E|E].
  - destruct (frac_field u) as [|m|m] eqn:Ef; [done| |lia].
    cbn. repeat split. unfold emin. rewrite Z.sub_diag, Z.pow_0_r. lia.
  - destruct (Z.eqb_spec (exp_field u) emax); [done|].
    destruct (2 ^ fw + frac_field u) as [|m|m] eqn:Ef; [lia| |lia].
    cbn. repeat split. unfold emin. f_equal. f_equal. lia.
Qed.

Lemma exp_frac_of_parts e f s :
  0 <= e <= emax -> 0 <= f < 2 ^ fw -> s = 0 \/ s = 2 ^ (w - 1) ->
  let u := Z.lor (f + e * 2 ^ fw) s in
  exp_field u = e /\ frac_field u = f /\ Z.testbit u (w - 1) = negb (s =? 0).
Proof.
  intros He Hf Hs u. pose proof (pow_pos fw ltac:(lia)).
  assert (2 ^ (w - 1) = 2 ^ fw * 2 ^ ebits) as Hp by (rewrite <- pow_split by lia; f_equal; lia).
  pose proof (pow_pos ebits ltac:(lia)).
  assert (0 <= f + e * 2 ^ fw < 2 ^ (w - 1)) as Hb by nia.
  assert (exists b, u = f + e * 2 ^ fw + b * 2 ^ (w - 1) /\ b * 2 ^ (w - 1) = s) as (b & Hu & Hbs).
  { destruct Hs as [-> | ->]; [exists 0; unfold u; rewrite Z.lor_0_r; lia|].
    exists 1. split; [|lia]. unfold u.
    replace (2 ^ (w - 1)) with (Z.shiftl 1 (w - 1)) at 1 by (rewrite Z.shiftl_mul_pow2; lia).
    rewrite lor_shift_add by lia. lia. }
  rewrite exp_field_mod. unfold frac_field. split; [|split].
  - rewrite Hu, Hp. replace (f + e * 2 ^ fw + b * (2 ^ fw * 2 ^ ebits))
      with (f + (e + b * 2 ^ ebits) * 2 ^ fw) by ring.
    rewrite Z.div_add, (Z.div_small f), Z.add_0_l, Z_mod_plus_full, Z.mod_small; lia.
  - rewrite Hu, Hp. replace (f + e * 2 ^ fw + b * (2 ^ fw * 2 ^ ebits))
      with (f + (e + b * 2 ^ ebits) * 2 ^ fw) by ring.
    rewrite Z_mod_plus_full, Z.mod_small; lia.
  - unfold u. rewrite Z.lor_spec, (testbit_high _ (w - 1)) by lia. cbn [orb].
    destruct Hs as [-> | ->]; [rewrite Z.bits_0; done|].
    rewrite Z.pow2_bits_true by lia. pose proof (pow_pos (w - 1) ltac:(lia)).
    destruct (Z.eqb_spec (2 ^ (w - 1)) 0); [lia|done].
Qed.

(** The final packing: a normalized remainder back to a bit pattern. *)
Lemma pack_spec ux ex r s :
  normal ux -> ex < emax -> 1 - 2 * fw <= ex ->
  ux * 2 ^ (ex - 1 + 2 * fw) = r * 2 ^ (2 * fw) ->
  s = 0 \/ s = 2 ^ (w - 1) ->
  let u := Z.lor (if 0 <? ex then Z.lor (wrap w (ux - Z.shiftl 1 fw)) (wrap w (Z.shiftl ex fw))
                  else Z.shiftr ux (- ex + 1)) s in
  finite (decode_float w fw u) /\ magnitude emin (decode_float w fw u) = r
  /\ sign_of (decode_float w fw u) = negb (s =? 0).
Proof.
  intros Hn He1 He2 Hr Hs. pose proof (pow_pos fw ltac:(lia)).
  assert (2 ^ (fw + 1) = 2 * 2 ^ fw) as Hp1 by (rewrite <- Z.pow_succ_r by lia; f_equal; lia).
  unfold normal in Hn. cbv zeta.
  destruct (Z.ltb_spec 0 ex) as [Hpos|Hneg].
  - assert (2 ^ w = 2 * (2 ^ fw * 2 ^ ebits)) as Hpw
      by (rewrite <- pow_split, <- Z.pow_succ_r by lia; f_equal; lia).
    assert (wrap w (ux - Z.shiftl 1 fw) = ux - 2 ^ fw) as ->.
    { rewrite Z.shiftl_mul_pow2, Z.mul_1_l by lia. apply Z.mod_small.
      pose proof (pow_pos ebits ltac:(lia)). nia. }
    assert (wrap w (Z.shiftl ex fw) = Z.shiftl ex fw) as ->.
    { apply Z.mod_small. rewrite Z.shiftl_mul_pow2 by lia. nia. }
    rewrite lor_shift_add by lia.
    destruct (exp_frac_of_parts ex (ux - 2 ^ fw) s) as (Ee & Ef & Es); [lia|lia|done|].
    destruct (decode_finite (Z.lor (ux - 2 ^ fw + ex * 2 ^ fw) s)) as (H1 & H2 & H3); [lia|].
    rewrite H2, H3, Es. split; [done|]. split; [|done]. unfold mag. rewrite Ee, Ef.
    destruct (Z.eqb_spec ex 0); [lia|]. rewrite pow_split, Z.mul_assoc in Hr by lia.
    apply Z.mul_cancel_r in Hr; [|apply Z.pow_nonzero; lia]. rewrite <- Hr. f_equal. lia.
  - assert (ux = r * 2 ^ (1 - ex)) as Hux.
    { apply Z.mul_cancel_r with (2 ^ (ex - 1 + 2 * fw)); [apply Z.pow_nonzero; lia|].
      rewrite Hr, <- Z.mul_assoc, <- pow_split by lia. do 2 f_equal. lia. }
    assert (Z.shiftr ux (- ex + 1) = r) as ->.
    { rewrite Z.shiftr_div_pow2, Hux by lia. replace (- ex + 1) with (1 - ex) by lia.
      apply Z.div_mul, Z.pow_nonzero; lia. }
    assert (2 <= 2 ^ (1 - ex)) as Hp2 by (change 2 with (2 ^ 1) at 1; apply Z.pow_le_mono_r; lia).
    assert (2 ^ ebits >= 4) as Hge4 by (change 4 with (2 ^ 2); apply Z.le_ge, Z.pow_le_mono_r; lia).
    assert (0 <= r < 2 ^ fw) as Hrb by nia.
    destruct (exp_frac_of_parts 0 r s) as (Ee & Ef & Es); [lia|lia|done|].
    replace (r + 0 * 2 ^ fw) with r in * by lia.
    destruct (decode_finite (Z.lor r s)) as (H1 & H2 & H3); [lia|].
    rewrite H2, H3, Es. split; [done|]. split; [|done]. unfold mag. now rewrite Ee, Ef.
Qed.

(** *** The whole function *)

(** What a returned number must be: finite, of magnitude [r], with sign [b]. *)
Definition is_remainder (r : Z) (b : bool) (f : spec_float) : Prop :=
  finite f /\ magnitude emin f = r /\ sign_of f = b.

(** Significands of ordered operands have ordered exponents. *)
Lemma exponents_ordered mx my sx ex sy ey :
  my < mx -> normal sx -> normal sy -> 1 - fw <= ex -> 1 - fw <= ey ->
  sx * 2 ^ (ex - 1 + fw) = mx * 2 ^ fw -> sy * 2 ^ (ey - 1 + fw) = my * 2 ^ fw ->
  ey <= ex.
Proof.
  intros Hlt HX HY HeX HeY HmX HmY. destruct (Z_le_gt_dec ey ex) as [|Hc]; [done|]. exfalso.
  pose proof (pow_pos fw ltac:(lia)). unfold normal in *.
  assert (sx * 2 ^ (ex - 1 + fw) < sy * 2 ^ (ey - 1 + fw)); [|nia].
  apply Z.lt_le_trans with (2 ^ (fw + 1) * 2 ^ (ex - 1 + fw)).
  - apply Z.mul_lt_mono_pos_r; [apply pow_pos|]; lia.
  - apply Z.le_trans with (2 ^ fw * 2 ^ (ey - 1 + fw)).
    + rewrite <- !pow_split by lia. apply Z.pow_le_mono_r; lia.
    + apply Z.mul_le_mono_nonneg_r; [apply Z.pow_nonneg|]; lia.
Qed.

(** The remainder of the magnitudes, through the significands. *)
Lemma remainder_scaled mx my sx ex sy ey :
  0 < my -> 0 < sy -> 1 - fw <= ey <= ex ->
  sx * 2 ^ (ex - 1 + fw) = mx * 2 ^ fw -> sy * 2 ^ (ey - 1 + fw) = my * 2 ^ fw ->
  mx mod my * 2 ^ fw = (sx * 2 ^ (ex - ey)) mod sy * 2 ^ (ey - 1 + fw).
Proof.
  intros Hmy Hsy He HmX HmY.
  rewrite <- Z.mul_mod_distr_r, <- HmX, <- HmY by (try apply Z.pow_nonzero; lia).
  rewrite <- Z.mul_mod_distr_r by (try apply Z.pow_nonzero; lia).
  f_equal. rewrite <- Z.mul_assoc, <- pow_split by lia. do 2 f_equal. lia.
Qed.

(** The conditional subtraction after the loop leaves the remainder itself. *)
Lemma last_subtraction u sy :
  normal sy -> 0 < u < 2 * sy ->
  let i := wrap w (u - sy) in
  (Z.shiftr i (w - 1) =? 0) && (i =? 0) = true /\ u mod sy = 0
  \/ (Z.shiftr i (w - 1) =? 0) && (i =? 0) = false
     /\ (if Z.shiftr i (w - 1) =? 0 then i else u) = u mod sy /\ 0 < u mod sy < sy.
Proof.
  intros HnY Hu. destruct (normal_small sy HnY) as (Hsy & Hsy2 & Hsy3). cbv zeta.
  destruct (wrap_sub_sign u sy ltac:(lia) ltac:(lia)) as [Hge Hlt].
  destruct (Z_le_gt_dec sy u) as [Hc|Hc].
  - destruct (Hge Hc) as [E1 E2]. rewrite E2, E1. cbn [andb].
    assert (u mod sy = u - sy) as -> by (symmetry; apply Z.mod_unique with 1; lia).
    destruct (Z.eqb_spec (u - sy) 0); [left; split; [done|lia]|right; repeat split; lia].
  - rewrite Hlt by lia. cbn [andb]. rewrite (Z.mod_small u) by lia. right; repeat split; lia.
Qed.

(** Renormalizing and packing a nonzero remainder of the significands. *)
Lemma pack_remainder r ey m sbits (b : bool) :
  0 < r < 2 ^ (fw + 1) -> 1 - fw <= ey < emax -> m * 2 ^ fw = r * 2 ^ (ey - 1 + fw) ->
  sbits = (if b then 2 ^ (w - 1) else 0) ->
  exists f,
    (let* (ux, ex) := renormalize_loop (Z.to_nat (fw + 1)) w fw r ey in
     Some (decode_float w fw
       (Z.lor (if 0 <? ex then Z.lor (wrap w (ux - Z.shiftl 1 fw)) (wrap w (Z.shiftl ex fw))
               else Z.shiftr ux (- ex + 1)) sbits))) = Some f /\ is_remainder m b f.
Proof.
  intros Hr Hey Hm Hsb. pose proof (pow_pos fw ltac:(lia)).
  assert (2 ^ (fw + 1) = 2 * 2 ^ fw) by (rewrite <- Z.pow_succ_r by lia; f_equal; lia).
  destruct (renormalize_loop_spec (Z.to_nat (fw + 1)) r ey) as (k & Hk & -> & Hnk).
  { lia. }
  { rewrite Z2Nat.id by lia. nia. }
  assert (k <= fw).
  { destruct (Z_le_gt_dec k fw); [done|]. exfalso. unfold normal in Hnk.
    assert (2 ^ (fw + 1) <= 2 ^ k) by (apply Z.pow_le_mono_r; lia). nia. }
  assert (sbits = 0 \/ sbits = 2 ^ (w - 1)) as Hs by (rewrite Hsb; case_match; auto).
  destruct (pack_spec (r * 2 ^ k) (ey - k) m sbits Hnk) as (R1 & R2 & R3); [lia|lia| |done|].
  { rewrite (Z.mul_comm 2 fw).
    replace (2 ^ (fw * 2)) with (2 ^ fw * 2 ^ fw) by (rewrite <- pow_split by lia; f_equal; lia).
    rewrite Z.mul_assoc, Hm, <- !Z.mul_assoc, <- !pow_split by lia. do 2 f_equal. lia. }
  eexists. split; [reflexivity|]. repeat split; [done..|]. rewrite R3, Hsb. pose proof (pow_pos (w - 1) ltac:(lia)).
  destruct b; [|done]. now destruct (Z.eqb_spec (2 ^ (w - 1)) 0); [lia|].
Qed.

Lemma fmod_gen_spec special zero_x x sbits ux uy :
  exp_field ux <> emax -> exp_field uy <> emax -> 0 < mag uy ->
  sbits = (if Z.testbit ux (w - 1) then 2 ^ (w - 1) else 0) ->
  x = decode_float w fw ux ->
  is_remainder 0 (Z.testbit ux (w - 1)) zero_x ->
  exists f, fmod_gen w fw special zero_x x sbits ux uy = Some f /\ is_remainder (mag ux mod mag uy) (Z.testbit ux (w - 1)) f.
Proof.
  intros Hex Hey Hmy Hsb Hx Hz. pose proof (exp_field_range ux). pose proof (exp_field_range uy).
  pose proof (frac_field_range uy) as Hfy. pose proof (pow_pos fw ltac:(lia)) as Hpf.
  unfold fmod_gen. fold (exp_field ux) (exp_field uy). rewrite !shifted_pattern.
  destruct (_ || _ || _) eqn:Especial.
  { exfalso. to_prop. rewrite unsigned_part in Especial. unfold mag in Hmy.
    destruct Especial as [[Hc|Hc]|Hc]; [destruct (Z.eqb_spec (exp_field uy) 0); nia| |lia].
    rewrite Z.shiftl_mul_pow2, Z.pow_add_r, Z.pow_1_r in Hc by lia. nia. }
  clear Especial.
  destruct (Z.leb_spec (2 * (ux mod 2 ^ (w - 1))) (2 * (uy mod 2 ^ (w - 1)))) as [Hle|Hgt].
  - eexists. split; [reflexivity|].
    destruct (Z.eqb_spec (2 * (ux mod 2 ^ (w - 1))) (2 * (uy mod 2 ^ (w - 1)))) as [Heq|Hne].
    + rewrite (mag_eq ux uy), Z.mod_same by lia. exact Hz.
    + rewrite Z.mod_small by (split; [apply mag_nonneg|apply mag_lt; lia]).
      subst x. destruct (decode_finite ux Hex) as (H1 & H2 & H3). repeat split; done.
  - assert (mag uy < mag ux) as Hlt by (apply mag_lt; lia).
    destruct (significand_spec ux ltac:(lia) Hex) as (sx & ex & -> & HnX & HeX & HmX).
    destruct (significand_spec uy Hmy Hey) as (sy & ey & -> & HnY & HeY & HmY).
    assert (ey <= ex) as Hee by (apply (exponents_ordered (mag ux) (mag uy) sx ex sy ey); try done; lia).
    destruct (normal_small sy HnY) as (Hsy & _). destruct (normal_small sx HnX) as (Hsx & _).
    pose proof (remainder_scaled (mag ux) (mag uy) sx ex sy ey Hmy Hsy ltac:(lia) HmX HmY) as Hmod.
    assert (2 ^ (fw + 1) = 2 * 2 ^ fw) as Hp1 by (rewrite <- Z.pow_succ_r by lia; f_equal; lia).
    pose proof (subtract_loop_spec sy ey HnY (S (Z.to_nat (ex - ey))) sx ex
      ltac:(unfold normal in *; lia) Hee ltac:(lia)) as HL.
    assert (Hzero : (sx * 2 ^ (ex - ey)) mod sy = 0 ->
      is_remainder (mag ux mod mag uy) (Z.testbit ux (w - 1)) zero_x).
    { intros E0. rewrite E0, Z.mul_0_l in Hmod. replace (mag ux mod mag uy) with 0 by nia. exact Hz. }
    destruct (subtract_loop _ _ _ _ _ _) as [[[u e]|]|]; [|eauto|done].
    destruct HL as (-> & Hu & Hum).
    destruct (last_subtraction u sy HnY Hu) as [[-> E0]|(-> & -> & Hrr)]; rewrite Hum in *; [eauto|].
    apply pack_remainder; [unfold normal in HnY; lia|lia|done|done].
Qed.

(** The test for operands without a remainder. *)
Lemma invalid_divisor_test uy :
  ((wrap w (Z.shiftl uy 1) =? 0) || (Z.shiftl emax (fw + 1) <? wrap w (Z.shiftl uy 1)))
  = match decode_float w fw uy with S754_zero _ | S754_nan => true | _ => false end.
Proof.
  pose proof (frac_field_range uy). pose proof (exp_field_range uy).
  pose proof (pow_pos fw ltac:(lia)).
  assert (4 <= 2 ^ ebits) by (change 4 with (2 ^ 2); apply Z.pow_le_mono_r; lia).
  rewrite shifted_pattern, unsigned_part, Z.shiftl_mul_pow2, Z.pow_add_r, Z.pow_1_r by lia.
  unfold decode_float. fold (exp_field uy). rewrite land_ones_mod by lia. fold (frac_field uy).
  destruct (Z.eqb_spec (exp_field uy) 0) as [->|E0].
  - destruct (frac_field uy) eqn:Ef; [rewrite (proj2 (Z.eqb_eq _ _)); [done|lia]| |lia].
    apply orb_false_iff. split; [apply Z.eqb_neq; lia|apply Z.ltb_ge; nia].
  - rewrite (proj2 (Z.eqb_neq _ _)) by nia. cbn [orb].
    destruct (Z.eqb_spec (exp_field uy) emax) as [->|E1].
    + destruct (Z.eqb_spec (frac_field uy) 0); [apply Z.ltb_ge|apply Z.ltb_lt]; nia.
    + destruct (2 ^ fw + frac_field uy) eqn:Ef; [lia| |lia]. apply Z.ltb_ge. nia.
Qed.

Lemma infinite_dividend_test ux :
  (exp_field ux =? emax)
  = match decode_float w fw ux with S754_infinity _ | S754_nan => true | _ => false end.
Proof.
  pose proof (frac_field_range ux). pose proof (pow_pos fw ltac:(lia)).
  assert (4 <= 2 ^ ebits) by (change 4 with (2 ^ 2); apply Z.pow_le_mono_r; lia).
  unfold decode_float. fold (exp_field ux). rewrite land_ones_mod by lia. fold (frac_field ux).
  destruct (Z.eqb_spec (exp_field ux) 0) as [->|E0].
  - rewrite (proj2 (Z.eqb_neq _ _)) by lia. destruct (frac_field ux) eqn:Ef; [done..|lia].
  - destruct (Z.eqb_spec (exp_field ux) emax); [now destruct (frac_field ux =? 0)|].
    destruct (2 ^ fw + frac_field ux) eqn:Ef; [lia|done|lia].
Qed.

(** A finite dividend is below an infinite divisor. *)
Lemma below_infinity ux uy s :
  finite (decode_float w fw ux) -> decode_float w fw uy = S754_infinity s ->
  ux mod 2 ^ (w - 1) < uy mod 2 ^ (w - 1).
Proof.
  intros Hx Hy. pose proof (infinite_dividend_test ux) as Ex.
  pose proof (infinite_dividend_test uy) as Ey. rewrite Hy in Ey.
  rewrite !unsigned_part. pose proof (frac_field_range ux). pose proof (frac_field_range uy).
  pose proof (exp_field_range ux). pose proof (pow_pos fw ltac:(lia)).
  assert ((exp_field ux =? emax) = false) as E by (rewrite Ex; destruct (decode_float w fw ux); done).
  to_prop. nia.
Qed.

Lemma fmod_gen_special special zero_x x sbits ux uy :
  let dx := decode_float w fw ux in
  let dy := decode_float w fw uy in
  (dy = S754_nan \/ (exists s, dy = S754_zero s) \/ ~ finite dx ->
   fmod_gen w fw special zero_x x sbits ux uy = Some special)
  /\ (finite dx -> (exists s, dy = S754_infinity s) ->
      fmod_gen w fw special zero_x x sbits ux uy = Some x).
Proof.
  cbv zeta. unfold fmod_gen. fold (exp_field ux). rewrite invalid_divisor_test, infinite_dividend_test.
  split.
  - intros [->|[[s ->]|Hx]]; [done..|]. destruct (decode_float w fw ux); cbn in Hx; try tauto;
      now rewrite orb_true_r.
  - intros Hx [s Hy]. pose proof (below_infinity ux uy s Hx Hy) as Hlt.
    rewrite Hy. destruct (decode_float w fw ux); try done; cbn [orb]; rewrite !shifted_pattern;
      rewrite (proj2 (Z.leb_le _ _)), (proj2 (Z.eqb_neq _ _)) by lia; done.
Qed.

End Generic.

(** ** The C functions *)

(** [(x * y) / (x * y)] is a NaN whenever an operand has no remainder. *)
Lemma invalid_is_nan prec emax x y :
  y = S754_nan \/ (exists s, y = S754_zero s) \/ ~ finite x ->
  SFdiv prec emax (SFmul prec emax x y) (SFmul prec emax x y) = S754_nan.
Proof. intros [->|[[s ->]|H]]; destruct x as [?|?| |? ? ?]; try done; cbn in H; try tauto; now destruct y. Qed.

Lemma exp_field_finite w fw u :
  1 <= fw -> fw + 3 <= w ->
  finite (decode_float w fw u) -> exp_field w fw u <> 2 ^ (w - 1 - fw) - 1.
Proof.
  intros Hfw Hw Hfin He.
  assert (4 <= 2 ^ (w - 1 - fw)) by (change 4 with (2 ^ 2); apply Z.pow_le_mono_r; lia).
  unfold decode_float in Hfin. fold (exp_field w fw u) in Hfin. rewrite He in Hfin.
  rewrite Z.eqb_refl in Hfin. destruct (Z.eqb_spec (2 ^ (w - 1 - fw) - 1) 0); [lia|].
  now case_match.
Qed.

Lemma sign_bits64 x : u64 (Z.shiftl (Z.shiftr x 63) 63) = if Z.testbit x 63 then 2 ^ 63 else 0.
Proof.
  rewrite <- land_pow2_testbit by lia. apply Z.bits_inj'. intros i Hi.
  unfold u64, wrap. rewrite Z.land_spec, Z.pow2_bits_eqb by lia.
  destruct (Z_lt_le_dec i 64).
  - rewrite Z.mod_pow2_bits_low by lia. rewrite Z.shiftl_spec by lia.
    destruct (Z.eqb_spec 63 i) as [<-|]; [rewrite Z.shiftr_spec by lia; now rewrite andb_true_r|].
    rewrite Z.testbit_neg_r by lia. now rewrite andb_false_r.
  - rewrite Z.mod_pow2_bits_high by lia. destruct (Z.eqb_spec 63 i); [lia|]. now rewrite andb_false_r.
Qed.

Lemma zero_times_finite prec emax x :
  finite x ->
  SFmul prec emax (S754_zero false) x = S754_zero (sign_of x).
Proof. destruct x as [s|?| |s m e]; intros []; cbn; now destruct s. Qed.

(** C39: [fmod] returns and is exact. For a finite dividend, zero and
    subnormals included, and a finite nonzero divisor, all its loops end, the
    result is finite, its magnitude is exactly the
    remainder of the magnitudes (in units of the smallest subnormal,
    [2^-1074]) and its sign is the dividend's, also for a zero result. *)
Theorem fmod_exact xbits ybits :
  let x := dyn_f64_value xbits in
  let y := dyn_f64_value ybits in
  finite x -> finite y -> 0 < magnitude (-1074) y ->
  exists r, fmod xbits ybits = Some r /\ finite r
  /\ magnitude (-1074) r = magnitude (-1074) x mod magnitude (-1074) y
  /\ sign_of r = sign_of x.
Proof.
  intros x y Hx Hy Hm.
  pose proof (exp_field_finite 64 52 xbits ltac:(lia) ltac:(lia) Hx) as Ex.
  pose proof (exp_field_finite 64 52 ybits ltac:(lia) ltac:(lia) Hy) as Ey.
  destruct (decode_finite 64 52 ltac:(lia) ltac:(lia) xbits Ex) as (_ & Mx & Sx).
  destruct (decode_finite 64 52 ltac:(lia) ltac:(lia) ybits Ey) as (_ & My & _).
  change (-1074) with (emin 64 52) in *.
  change (decode_float 64 52 xbits) with x in Mx, Sx. change (decode_float 64 52 ybits) with y in My.
  rewrite My in Hm.
  assert (is_remainder 64 52 0 (Z.testbit xbits (64 - 1)) (mul64 (S754_zero false) x)) as Hz.
  { unfold mul64. rewrite zero_times_finite, Sx by done. repeat split. }
  pose proof (fmod_gen_spec 64 52 ltac:(lia) ltac:(lia) (div64 (mul64 x y) (mul64 x y))
    (mul64 (S754_zero false) x) x (u64 (Z.shiftl (Z.shiftr xbits 63) 63)) xbits ybits
    Ex Ey Hm (sign_bits64 xbits) eq_refl Hz) as Hr.
  rewrite Mx, My, Sx, fmod_is_gen. exact Hr.
Qed.

Lemma fmod_exact_witness :
  (exists r, fmod 0xc014000000000000 0x4008000000000000 = Some r /\ magnitude (-1074) r = 2 ^ 1075 /\ sign_of r = true)
  /\ fmod 0x8000000000000000 1 = Some (S754_zero true).
Proof.
  split.
  - destruct (fmod_exact 0xc014000000000000 0x4008000000000000
      ltac:(vm_compute; exact I) ltac:(vm_compute; exact I) ltac:(vm_compute; reflexivity)) as (r & E & _ & Hm & Hs).
    exists r. split; [exact E|]. rewrite Hm, Hs. vm_compute. split; reflexivity.
  - destruct (fmod_exact 0x8000000000000000 1
      ltac:(vm_compute; exact I) ltac:(vm_compute; exact I) ltac:(vm_compute; reflexivity)) as (r & E & _ & _ & _).
    vm_compute in E. vm_compute. reflexivity.
Defined.

Lemma sign_bits32 x : Z.land x 0x80000000 = if Z.testbit x 31 then 2 ^ 31 else 0.
Proof. apply (land_pow2_testbit x 31). lia. Qed.

(** [fmodf] is exact in the same sense, in units of [2^-149]. *)
Theorem fmodf_exact xbits ybits :
  let x := dyn_f32_value xbits in
  let y := dyn_f32_value ybits in
  finite x -> finite y -> 0 < magnitude (-149) y ->
  exists r, fmodf xbits ybits = Some r /\ finite r
  /\ magnitude (-149) r = magnitude (-149) x mod magnitude (-149) y
  /\ sign_of r = sign_of x.
Proof.
  intros x y Hx Hy Hm.
  pose proof (exp_field_finite 32 23 xbits ltac:(lia) ltac:(lia) Hx) as Ex.
  pose proof (exp_field_finite 32 23 ybits ltac:(lia) ltac:(lia) Hy) as Ey.
  destruct (decode_finite 32 23 ltac:(lia) ltac:(lia) xbits Ex) as (_ & Mx & Sx).
  destruct (decode_finite 32 23 ltac:(lia) ltac:(lia) ybits Ey) as (_ & My & _).
  change (-149) with (emin 32 23) in *.
  change (decode_float 32 23 xbits) with x in Mx, Sx. change (decode_float 32 23 ybits) with y in My.
  rewrite My in Hm.
  assert (is_remainder 32 23 0 (Z.testbit xbits (32 - 1)) (mul32 (S754_zero false) x)) as Hz.
  { unfold mul32. rewrite zero_times_finite, Sx by done. repeat split. }
  pose proof (fmod_gen_spec 32 23 ltac:(lia) ltac:(lia) (div32 (mul32 x y) (mul32 x y))
    (mul32 (S754_zero false) x) x (Z.land xbits 0x80000000) xbits ybits
    Ex Ey Hm (sign_bits32 xbits) eq_refl Hz) as Hr.
  rewrite Mx, My, Sx, fmodf_is_gen. exact Hr.
Qed.

Lemma fmodf_exact_witness : exists r, fmodf 0x40a00000 0x40400000 = Some r /\ magnitude (-149) r = 2 ^ 150.
Proof.
  destruct (fmodf_exact 0x40a00000 0x40400000
    ltac:(vm_compute; exact I) ltac:(vm_compute; exact I) ltac:(vm_compute; reflexivity)) as (r & E & _ & Hm & _).
  exists r. split; [exact E|]. rewrite Hm. vm_compute. reflexivity.
Defined.

(** Outside the finite case, [fmod] and [fmodf] follow C: a NaN or zero
    divisor or an infinite or NaN dividend gives NaN, and a finite dividend
    with an infinite divisor is returned unchanged. *)
Theorem fmod_special_values xbits ybits :
  let special x y := y = S754_nan \/ (exists s, y = S754_zero s) \/ ~ finite x in
  (special (dyn_f64_value xbits) (dyn_f64_value ybits) -> fmod xbits ybits = Some S754_nan)
  /\ (special (dyn_f32_value xbits) (dyn_f32_value ybits) -> fmodf xbits ybits = Some S754_nan)
  /\ (finite (dyn_f64_value xbits) -> (exists s, dyn_f64_value ybits = S754_infinity s) ->
      fmod xbits ybits = Some (dyn_f64_value xbits))
  /\ (finite (dyn_f32_value xbits) -> (exists s, dyn_f32_value ybits = S754_infinity s) ->
      fmodf xbits ybits = Some (dyn_f32_value xbits)).
Proof.
  cbv zeta. rewrite fmod_is_gen, fmodf_is_gen.
  edestruct (fmod_gen_special 64 52) as [A64 B64]; [lia|lia|].
  edestruct (fmod_gen_special 32 23) as [A32 B32]; [lia|lia|].
  repeat split.
  - intros H. etransitivity; [exact (A64 H)|]. f_equal. now apply invalid_is_nan.
  - intros H. etransitivity; [exact (A32 H)|]. f_equal. now apply invalid_is_nan.
  - exact B64.
  - exact B32.
Qed.
