(* ===== verification/RuntimeWide.v ===== *)
(** * 128-bit multiplication

    [__multi3] of runtime/wasm_support.c, the library call behind checked
    64-bit multiplication on Wasm. *)

From S2P Require Import Prelude.

(** The two words of [union Wide]. *)
Definition wide_low (x : Z) : Z := x mod 2 ^ 64.
Definition wide_high (x : Z) : Z := x / 2 ^ 64.
Definition wide_value (low high : Z) : Z := low + high * 2 ^ 64.

Definition multi3 (left right : Z) : Z :=
  let al := wide_low left in let ah := wide_high left in
  let bl := wide_low right in let bh := wide_high right in
  let mask := 0xffffffff in
  let p0 := u64 (Z.land al mask * Z.land bl mask) in
  let p1 := u64 (Z.land al mask * Z.shiftr bl 32) in
  let p2 := u64 (Z.shiftr al 32 * Z.land bl mask) in
  let carry := u64 (u64 (Z.shiftr p0 32 + Z.land p1 mask) + Z.land p2 mask) in
  let low := Z.lor (Z.land p0 mask) (u64 (Z.shiftl carry 32)) in
  let high :=
    u64 (u64 (u64 (u64 (u64 (u64 (Z.shiftr al 32 * Z.shiftr bl 32)
      + Z.shiftr p1 32) + Z.shiftr p2 32) + Z.shiftr carry 32)
      + u64 (ah * bl)) + u64 (al * bh)) in
  wide_value low high.

(** Low and high halves of a 64-bit word. *)
Lemma half_low x : Z.land x 0xffffffff = x mod 2 ^ 32.
Proof. apply (land_ones_mod x 32). lia. Qed.
Lemma half_high x : Z.shiftr x 32 = x / 2 ^ 32.
Proof. apply Z.shiftr_div_pow2. lia. Qed.

Lemma u64_add_l x y : u64 (u64 x + y) = u64 (x + y).
Proof. apply Z.add_mod_idemp_l. lia. Qed.
Lemma u64_add_r x y : u64 (x + u64 y) = u64 (x + y).
Proof. apply Z.add_mod_idemp_r. lia. Qed.

Lemma halves_product a b :
  0 <= a < 2 ^ 32 -> 0 <= b < 2 ^ 32 -> 0 <= a * b <= (2 ^ 32 - 1) * (2 ^ 32 - 1).
Proof. intros. nia. Qed.

(** Schoolbook multiplication of two words from the four half products: the
    low word as computed, and the amount carried into the high word. *)
Lemma low_word p0 p1 p2 :
  0 <= p0 <= (2 ^ 32 - 1) * (2 ^ 32 - 1) -> 0 <= p1 <= (2 ^ 32 - 1) * (2 ^ 32 - 1) ->
  0 <= p2 <= (2 ^ 32 - 1) * (2 ^ 32 - 1) ->
  let carry := u64 (u64 (p0 / 2 ^ 32 + p1 mod 2 ^ 32) + p2 mod 2 ^ 32) in
  let low := Z.lor (p0 mod 2 ^ 32) (u64 (Z.shiftl carry 32)) in
  0 <= low < 2 ^ 64 /\
  low + (p1 / 2 ^ 32 + p2 / 2 ^ 32 + carry / 2 ^ 32) * 2 ^ 64 = (p1 + p2) * 2 ^ 32 + p0.
Proof.
  intros H0 H1 H2.
  pose proof (Z.div_mod p0 (2 ^ 32) ltac:(lia)). pose proof (Z.mod_pos_bound p0 (2 ^ 32) ltac:(lia)).
  pose proof (Z.div_mod p1 (2 ^ 32) ltac:(lia)). pose proof (Z.mod_pos_bound p1 (2 ^ 32) ltac:(lia)).
  pose proof (Z.div_mod p2 (2 ^ 32) ltac:(lia)). pose proof (Z.mod_pos_bound p2 (2 ^ 32) ltac:(lia)).
  rewrite u64_add_l, u64_small by lia. cbv zeta.
  set (carry := p0 / 2 ^ 32 + p1 mod 2 ^ 32 + p2 mod 2 ^ 32) in *.
  pose proof (Z.div_mod carry (2 ^ 32) ltac:(lia)). pose proof (Z.mod_pos_bound carry (2 ^ 32) ltac:(lia)).
  assert (u64 (Z.shiftl carry 32) = Z.shiftl (carry mod 2 ^ 32) 32) as ->.
  { rewrite !Z.shiftl_mul_pow2 by lia. unfold u64, wrap.
    change (2 ^ 64) with (2 ^ 32 * 2 ^ 32). rewrite Z.mul_mod_distr_r; lia. }
  rewrite lor_shift_add by lia. unfold carry in *. lia.
Qed.

(** C40: [__multi3] returns the product modulo [2^128], using only 32-bit by
    32-bit multiplies for the low half. *)
Theorem multi3_correct a b : multi3 a b = (a * b) mod 2 ^ 128.
Proof.
  unfold multi3, wide_value.
  set (al := wide_low a). set (ah := wide_high a). set (bl := wide_low b). set (bh := wide_high b).
  assert (a = 2 ^ 64 * ah + al) as Ea by (apply Z.div_mod; lia).
  assert (b = 2 ^ 64 * bh + bl) as Eb by (apply Z.div_mod; lia).
  assert (0 <= al < 2 ^ 64) as Hal by (apply Z.mod_pos_bound; lia).
  assert (0 <= bl < 2 ^ 64) as Hbl by (apply Z.mod_pos_bound; lia).
  clearbody al ah bl bh. rewrite !half_low, !half_high.
  pose proof (Z.div_mod al (2 ^ 32) ltac:(lia)) as Dal. pose proof (Z.div_mod bl (2 ^ 32) ltac:(lia)) as Dbl.
  pose proof (Z.mod_pos_bound al (2 ^ 32) ltac:(lia)) as Ral. pose proof (Z.mod_pos_bound bl (2 ^ 32) ltac:(lia)) as Rbl.
  set (a0 := al mod 2 ^ 32) in *. set (a1 := al / 2 ^ 32) in *.
  set (b0 := bl mod 2 ^ 32) in *. set (b1 := bl / 2 ^ 32) in *.
  assert (0 <= a1 < 2 ^ 32 /\ 0 <= b1 < 2 ^ 32) as [Ra1 Rb1] by lia. clearbody a0 a1 b0 b1.
  pose proof (halves_product a0 b0 ltac:(lia) ltac:(lia)) as P0.
  pose proof (halves_product a0 b1 ltac:(lia) ltac:(lia)) as P1.
  pose proof (halves_product a1 b0 ltac:(lia) ltac:(lia)) as P2.
  rewrite (u64_small (a0 * b0)), (u64_small (a0 * b1)), (u64_small (a1 * b0)) by lia.
  destruct (low_word (a0 * b0) (a0 * b1) (a1 * b0) P0 P1 P2) as [Rlow Elow].
  set (carry := u64 (u64 (a0 * b0 / 2 ^ 32 + _) + _)) in *. set (low := Z.lor _ _) in *.
  clearbody carry low. rewrite (u64_add_l (a1 * b1)), (u64_add_l (a1 * b1 + _)),
    (u64_add_l (a1 * b1 + _ + _)), (u64_add_l (a1 * b1 + _ + _ + _)), (u64_add_r (a1 * b1 + _ + _ + _)),
    (u64_add_l (a1 * b1 + _ + _ + _ + _)), u64_add_r.
  lazymatch goal with |- _ + u64 ?x * _ = _ => set (h := x) end. unfold u64, wrap.
  apply Z.mod_unique with (ah * bh + h / 2 ^ 64).
  - left. pose proof (Z.mod_pos_bound h (2 ^ 64) ltac:(lia)). lia.
  - pose proof (Z.div_mod h (2 ^ 64) ltac:(lia)) as Dh.
    replace (low + h mod 2 ^ 64 * 2 ^ 64) with (low + h * 2 ^ 64 - h / 2 ^ 64 * 2 ^ 128) by lia.
    assert (low = (a0 * b1 + a1 * b0) * 2 ^ 32 + a0 * b0
      - (a0 * b1 / 2 ^ 32 + a1 * b0 / 2 ^ 32 + carry / 2 ^ 32) * 2 ^ 64) as -> by lia.
    rewrite Ea, Eb. unfold h. clear h Dh. change (2 ^ 128) with (2 ^ 64 * 2 ^ 64).
    change (2 ^ 64) with (2 ^ 32 * 2 ^ 32). rewrite Dal, Dbl. ring.
Qed.
