(* ===== verification/RuntimePanic.v ===== *)
(** * Panic support of the runtime

    runtime/reference_support.c: the per-thread unwind slots and their frame
    lists ([dyn_unwind_link] ... [dyn_unwind_continue]), the message of a
    failed runtime check ([dyn_check_failed]) and the call trace kept by debug
    builds ([dyn_trace_push] ... [dyn_trace_dump]). *)

From S2P Require Import Prelude.

(** ** Unwind slots *)

Definition MESSAGE_CAPACITY : Z := 4096.
Definition SLOTS : nat := 64.

(** [DynUnwindSlot]. [message] points to [message_storage] or is null. *)
Record slot : Type := Slot {
  tid : Z;
  top : Z;
  has_message : bool;
  msg_length : Z;
  unwinding : bool;
  message_storage : bytes
}.

(** [unwind_slots], and [previous] of the [DynUnwind] frame at each address;
    address 0 is the null pointer. *)
Record unwind_state : Type := UnwindState {
  unwind_slots : list slot;
  previous : Z -> Z
}.

Definition with_tid (s : slot) (t : Z) : slot :=
  Slot t (top s) (has_message s) (msg_length s) (unwinding s) (message_storage s).
Definition with_top (s : slot) (f : Z) : slot :=
  Slot (tid s) f (has_message s) (msg_length s) (unwinding s) (message_storage s).

(** One pass of the scan in [unwind_slot]: the calling thread's own slot, or
    the first free one. *)
Fixpoint scan_slots (tids : list Z) (i : nat) (id : Z) (empty : option nat) : nat + option nat :=
  match tids with
  | [] => inr empty
  | seen :: rest =>
      if seen =? id then inl i
      else
        scan_slots rest (S i) id
          (match empty with None => if seen =? 0 then Some i else None | Some _ => empty end)
  end.

(** [unwind_slot] without interference from other threads, where the
    compare-and-exchange of a slot just seen free succeeds. *)
Definition unwind_slot (st : unwind_state) (id : Z) (claim : bool) : option nat * unwind_state :=
  match scan_slots (map tid (unwind_slots st)) 0 id None with
  | inl i => (Some i, st)
  | inr empty =>
      match claim, empty with
      | true, Some j =>
          (Some j, UnwindState (alter (fun s => with_tid s id) j (unwind_slots st)) (previous st))
      | _, _ => (None, st)
      end
  end.

(** How a runtime entry point leaves: it returns, transfers control to a
    frame, or calls [dyn_panic]. *)
Inductive outcome : Type :=
| Returned
| Jumped (frame : Z)
| Panicked (message : option bytes).

Definition capacity_message : bytes := str "runtime unwind thread capacity exceeded".

Definition dyn_unwind_link (st : unwind_state) (id frame : Z) : outcome * unwind_state :=
  match unwind_slot st id true with
  | (None, st) => (Panicked (Some capacity_message), st)
  | (Some i, st) =>
      match unwind_slots st !! i with
      | None => (Returned, st)
      | Some s =>
          (Returned,
           UnwindState (<[i := with_top s frame]> (unwind_slots st))
             (fun a => if a =? frame then top s else previous st a))
      end
  end.

Definition dyn_unwind_unlink (st : unwind_state) (id frame : Z) : unwind_state :=
  match unwind_slot st id false with
  | (None, st) => st
  | (Some i, st) =>
      match unwind_slots st !! i with
      | None => st
      | Some s =>
          if top s =? frame then
            let s := with_top s (previous st frame) in
            let s := if (top s =? 0) && negb (unwinding s) then with_tid s 0 else s in
            UnwindState (<[i := s]> (unwind_slots st)) (previous st)
          else st
      end
  end.

Definition truncated : bytes := str " [truncated]".

(** [while (copied && (message[copied] & 0xc0) == 0x80) --copied;] *)
Fixpoint utf8_boundary (message : bytes) (copied : nat) : nat :=
  match copied with
  | O => O
  | S c =>
      match message !! copied with
      | Some b => if Z.land b 0xc0 =? 0x80 then utf8_boundary message c else copied
      | None => copied
      end
  end.

(** Overwriting part of a fixed array. *)
Definition overwrite (storage : bytes) (at_ : nat) (data : bytes) : bytes :=
  take at_ storage ++ data ++ drop (at_ + length data) storage.

(** The stored message and its length, from [message_storage] and the
    argument of [dyn_unwind_begin]. *)
Definition copy_message (storage : bytes) (message : option bytes) : bytes * Z :=
  let text := match message with Some t => t | None => [] end in
  let len := Z.of_nat (length text) in
  let copied :=
    if MESSAGE_CAPACITY <? len
    then utf8_boundary text (Z.to_nat (MESSAGE_CAPACITY - Z.of_nat (length truncated)))
    else length text in
  let storage := overwrite storage 0 (take copied text) in
  if Z.of_nat copied <? len
  then (overwrite storage copied truncated, Z.of_nat copied + Z.of_nat (length truncated))
  else (storage, len).

Definition dyn_unwind_begin (st : unwind_state) (id : Z) (message : option bytes)
  : outcome * unwind_state :=
  match unwind_slot st id true with
  | (None, st) => (Returned, st)
  | (Some i, st) =>
      match unwind_slots st !! i with
      | None => (Returned, st)
      | Some s =>
          if unwinding s || (top s =? 0) then (Returned, st)
          else
            let '(storage, len) := copy_message (message_storage s) message in
            let frame := top s in
            (Jumped frame,
             UnwindState
               (<[i := Slot (tid s) (previous st frame) true len true storage]> (unwind_slots st))
               (previous st))
      end
  end.

Definition slot_message (s : slot) : option bytes :=
  if has_message s then Some (take (Z.to_nat (msg_length s)) (message_storage s)) else None.

Definition dyn_unwind_continue (st : unwind_state) (id : Z) : outcome * unwind_state :=
  match unwind_slot st id false with
  | (None, st) => (Panicked None, st)
  | (Some i, st) =>
      match unwind_slots st !! i with
      | None => (Panicked None, st)
      | Some s =>
          if top s =? 0 then (Panicked (slot_message s), st)
          else
            let frame := top s in
            (Jumped frame,
             UnwindState (<[i := with_top s (previous st frame)]> (unwind_slots st)) (previous st))
      end
  end.

(** ** Slot acquisition under interleaving

    [unwind_slot] again, one shared-memory access per step, with any number of
    threads. A thread is outside the function, scanning from slot [i] having
    remembered a free slot, or about to claim slot [j]. *)
Inductive pc : Type :=
| Outside
| Scanning (claim : bool) (i : nat) (empty : option nat)
| Claiming (claim : bool) (j : nat).

Record shared : Type := Shared { tids : list Z; pcs : Z -> pc }.

Definition set_pc (m : shared) (t : Z) (p : pc) : shared :=
  Shared (tids m) (fun u => if u =? t then p else pcs m u).
Definition set_tid (m : shared) (j : nat) (t : Z) : shared :=
  Shared (<[j := t]> (tids m)) (pcs m).

Inductive slot_step : shared -> shared -> Prop :=
| step_call m t claim :
    t <> 0 -> pcs m t = Outside ->
    slot_step m (set_pc m t (Scanning claim 0 None))
| step_found m t claim i empty :
    t <> 0 -> pcs m t = Scanning claim i empty -> tids m !! i = Some t ->
    slot_step m (set_pc m t Outside)
| step_next m t claim i empty seen :
    t <> 0 -> pcs m t = Scanning claim i empty -> tids m !! i = Some seen -> seen <> t ->
    slot_step m (set_pc m t (Scanning claim (S i)
      (match empty with None => if seen =? 0 then Some i else None | Some _ => empty end)))
| step_give_up m t claim i empty :
    t <> 0 -> pcs m t = Scanning claim i empty -> tids m !! i = None ->
    (claim = false \/ empty = None) ->
    slot_step m (set_pc m t Outside)
| step_to_claim m t i j :
    t <> 0 -> pcs m t = Scanning true i (Some j) -> tids m !! i = None ->
    slot_step m (set_pc m t (Claiming true j))
| step_cas_ok m t claim j :
    t <> 0 -> pcs m t = Claiming claim j -> tids m !! j = Some 0 ->
    slot_step m (set_tid (set_pc m t Outside) j t)
| step_cas_fail m t claim j seen :
    t <> 0 -> pcs m t = Claiming claim j -> tids m !! j = Some seen -> seen <> 0 ->
    slot_step m (set_pc m t (Scanning claim 0 None))
| step_release m t j :
    t <> 0 -> pcs m t = Outside -> tids m !! j = Some t ->
    slot_step m (set_tid m j 0).

Definition initial_slots : shared := Shared (replicate SLOTS 0) (fun _ => Outside).

Inductive slot_reachable : shared -> Prop :=
| reach_init : slot_reachable initial_slots
| reach_step m m' : slot_reachable m -> slot_step m m' -> slot_reachable m'.

(** ** Failed runtime checks *)

Definition check_kinds : list bytes :=
  [str "overflow.ok"; str "divide.ok"; str "division.overflow.ok"; str "shift.count.ok";
   str "function.nonnull.ok"; str "pointer.nonnull.ok"; str "pointer.aligned.ok"; str "index.ok";
   str "slice.order.ok"; str "slice.bounds.ok"; str "enum.cast.ok"; str "enum.tag.ok"].

(** [check_append] into the 1024-byte buffer; [None] is a store past it. *)
Definition CHECK_CAPACITY : nat := 1024.
Definition check_append (out : bytes) (text : bytes) : option bytes :=
  if bool_decide (length out + length text <= CHECK_CAPACITY)%nat then Some (out ++ text) else None.

(** The loop [for (i = 0; i < length && i < 800; ++i) message[used++] = name[i]]. *)
Fixpoint check_name (fuel : nat) (out name : bytes) (i len : Z) : option bytes :=
  match fuel with
  | O => Some out
  | S f =>
      if (i <? len) && (i <? 800) then
        let* c := get_at name i in
        let* out := check_append out [c] in
        check_name f out name (i + 1) len
      else Some out
  end.

(** The message passed to [dyn_panic]. *)
Definition dyn_check_failed (name : bytes) (packed : Z) : option bytes :=
  let kind := Z.shiftr packed 24 in
  let len := Z.land packed 0xffffff in
  let* out := check_append [] (str "runtime check failed (") in
  let* out := check_append out
    (if kind <? 12 then default [] (get_at check_kinds kind) else str "unknown") in
  let* out := check_append out (str ") in ") in
  check_name 801 out name 0 len.

(** ** Call traces of debug builds *)

Definition TRACE_SLOTS : nat := 64.
Definition TRACE_FRAMES : Z := 64.

(** [DynSlot]; [trace_frames] holds the frames stored so far, innermost last. *)
Record trace_slot_t : Type := TraceSlot { trace_tid : Z; count : Z; trace_frames : list bytes }.

Fixpoint trace_slot_from (slots : list trace_slot_t) (i : nat) (id : Z) (claim : bool)
  : option (nat * bool) :=
  match slots with
  | [] => None
  | s :: rest =>
      if trace_tid s =? id then Some (i, false)
      else if claim && (trace_tid s =? 0) then Some (i, true)
      else trace_slot_from rest (S i) id claim
  end.

(** [trace_slot]: the slot's index, and the slots with it claimed. *)
Definition trace_slot (slots : list trace_slot_t) (id : Z) (claim : bool)
  : option nat * list trace_slot_t :=
  match trace_slot_from slots 0 id claim with
  | None => (None, slots)
  | Some (i, false) => (Some i, slots)
  | Some (i, true) =>
      (Some i, alter (fun s => TraceSlot id (count s) (trace_frames s)) i slots)
  end.

Definition dyn_trace_push (slots : list trace_slot_t) (id : Z) (name : bytes) : list trace_slot_t :=
  match trace_slot slots id true with
  | (None, slots) => slots
  | (Some i, slots) =>
      alter (fun s =>
        TraceSlot (trace_tid s) (u64 (count s + 1))
          (if count s <? TRACE_FRAMES then take (Z.to_nat (count s)) (trace_frames s) ++ [name]
           else trace_frames s)) i slots
  end.

Definition dyn_trace_pop (slots : list trace_slot_t) (id : Z) : list trace_slot_t :=
  match trace_slot slots id false with
  | (None, slots) => slots
  | (Some i, slots) =>
      alter (fun s =>
        if count s =? 0 then s
        else
          let c := count s - 1 in
          TraceSlot (if c =? 0 then 0 else trace_tid s) c (trace_frames s)) i slots
  end.

(** The frames written by [dyn_trace_dump], innermost first. *)
Definition dyn_trace_dump (slots : list trace_slot_t) (id : Z) : list bytes :=
  match trace_slot slots id false with
  | (None, _) => []
  | (Some i, slots) =>
      match slots !! i with
      | None => []
      | Some s => reverse (take (Z.to_nat (Z.min (count s) TRACE_FRAMES)) (trace_frames s))
      end
  end.

Definition initial_trace : list trace_slot_t := replicate TRACE_SLOTS (TraceSlot 0 0 []).

(** ** Specifications *)

(** The frames reachable from [f] through [previous], innermost first. *)
Fixpoint chain (prev : Z -> Z) (f : Z) (fs : list Z) : Prop :=
  match fs with
  | [] => f = 0
  | g :: rest => f = g /\ g <> 0 /\ chain prev (prev g) rest
  end.

(** What is kept of a panic message. *)
Definition stored_message (message : option bytes) : bytes :=
  let text := default [] message in
  if bool_decide (length text <= Z.to_nat MESSAGE_CAPACITY)%nat then text
  else take (utf8_boundary text (Z.to_nat (MESSAGE_CAPACITY - Z.of_nat (length truncated)))) text
         ++ truncated.

(** Thread [id] owns slot [i], whose frames are [fs]. *)
Definition owns (st : unwind_state) (id : Z) (i : nat) (s : slot) (fs : list Z) : Prop :=
  scan_slots (map tid (unwind_slots st)) 0 id None = inl i
  /\ unwind_slots st !! i = Some s /\ chain (previous st) (top s) fs.

(** Thread [id] has no slot yet and [j] is the free slot it would claim. *)
Definition unowned (st : unwind_state) (id : Z) (j : nat) (s : slot) : Prop :=
  scan_slots (map tid (unwind_slots st)) 0 id None = inr (Some j)
  /\ unwind_slots st !! j = Some s /\ top s = 0 /\ unwinding s = false
  /\ length (message_storage s) = Z.to_nat MESSAGE_CAPACITY.

(** A panic: [dyn_unwind_begin] followed by [n] calls of [dyn_unwind_continue]. *)
Fixpoint continues (n : nat) (st : unwind_state) (id : Z) : list outcome :=
  match n with
  | O => []
  | S n' => let '(o, st) := dyn_unwind_continue st id in o :: continues n' st id
  end.
Definition panic_run (st : unwind_state) (id : Z) (message : option bytes) (n : nat) : list outcome :=
  let '(o, st) := dyn_unwind_begin st id message in o :: continues n st id.

(** ** Slots: at most one per thread *)

Definition slot_inv (m : shared) : Prop :=
  (forall t j k, t <> 0 -> tids m !! j = Some t -> tids m !! k = Some t -> j = k)
  /\ (forall t claim i empty, t <> 0 -> pcs m t = Scanning claim i empty ->
        forall k, (k < i)%nat -> tids m !! k <> Some t)
  /\ (forall t claim j, t <> 0 -> pcs m t = Claiming claim j -> forall k, tids m !! k <> Some t).

Lemma slot_inv_set_pc m t p :
  slot_inv m ->
  (forall claim i empty, p = Scanning claim i empty -> forall k, (k < i)%nat -> tids m !! k <> Some t) ->
  (forall claim j, p = Claiming claim j -> forall k, tids m !! k <> Some t) ->
  slot_inv (set_pc m t p).
Proof.
  intros (Hu & Hs & Hc) Hps Hpc. split; [exact Hu|]. cbn. split.
  - intros u claim i empty Hu0 Hp. destruct (Z.eqb_spec u t) as [->|]; eauto.
  - intros u claim j Hu0 Hp. destruct (Z.eqb_spec u t) as [->|]; eauto.
Qed.

Lemma slot_inv_set_tid m j v :
  slot_inv m ->
  (v = 0 \/ pcs m v = Outside /\ forall k, tids m !! k <> Some v) ->
  slot_inv (set_tid m j v).
Proof.
  intros (Hu & Hs & Hc) Hv.
  assert (Hne : forall t k, t <> 0 -> t <> v -> <[j := v]> (tids m) !! k = Some t -> tids m !! k = Some t).
  { intros t k H0 Htv H. rewrite list_lookup_insert in H. case_decide; [congruence|done]. }
  assert (Hself : forall k, v <> 0 -> <[j := v]> (tids m) !! k = Some v -> k = j).
  { intros k H0 H. rewrite list_lookup_insert in H. case_decide as E; [now destruct E|].
    destruct Hv as [|[_ Hv]]; [done|]. now apply Hv in H. }
  split; [|split]; cbn.
  - intros t j1 k1 H0 H1 H2. destruct (decide (t = v)) as [->|Htv].
    + apply Hself in H1; [|done]. apply Hself in H2; [|done]. congruence.
    + eauto.
  - intros t claim i empty H0 Hp k Hk H. destruct (decide (t = v)) as [->|Htv];
      [destruct Hv as [|[Hv _]]; congruence|].
    eapply Hs; eauto.
  - intros t claim i H0 Hp k H. destruct (decide (t = v)) as [->|Htv];
      [destruct Hv as [|[Hv _]]; congruence|].
    eapply Hc; eauto.
Qed.

Lemma slot_inv_step m m' : slot_inv m -> slot_step m m' -> slot_inv m'.
Proof.
  intros Hi Hstep. pose proof Hi as (Hu & Hs & Hc). inversion Hstep; subst.
  - apply slot_inv_set_pc; [done|intros ??? [= <- <- <-]; lia|done].
  - apply slot_inv_set_pc; done.
  - apply slot_inv_set_pc; [done| |done]. intros ??? [= <- <- <-] k Hk.
    destruct (decide (k = i)) as [->|]; [congruence|]. eapply Hs; eauto. lia.
  - apply slot_inv_set_pc; done.
  - apply slot_inv_set_pc; [done|done|]. intros ?? [= <- <-] k Hk.
    destruct (decide (k < i)%nat); [eapply Hs; eauto|].
    apply lookup_ge_None in H1. apply lookup_lt_Some in Hk. lia.
  - apply slot_inv_set_tid; [apply slot_inv_set_pc; done|]. right. cbn. rewrite Z.eqb_refl.
    split; [done|]. intros k. eapply Hc; eauto.
  - apply slot_inv_set_pc; [done|intros ??? [= <- <- <-]; lia|done].
  - apply slot_inv_set_tid; auto.
Qed.

Lemma slot_inv_reachable m : slot_reachable m -> slot_inv m.
Proof.
  induction 1 as [|m m' _ IH Hstep]; [|eapply slot_inv_step; eauto].
  split; [|split; done]. intros t j k Ht Hj. apply lookup_replicate in Hj as [-> _]. done.
Qed.

(** However the threads' scans, claims and releases interleave, no two
    unwind slots ever carry the same thread id. *)
Theorem unwind_slot_unique m t j k :
  slot_reachable m -> t <> 0 ->
  tids m !! j = Some t -> tids m !! k = Some t -> j = k.
Proof. intros Hr. destruct (slot_inv_reachable m Hr) as (Hu & _). apply Hu. Qed.

(** A lone thread scans every slot and finds the first one free. *)
Lemma lone_scan n :
  (n <= SLOTS)%nat ->
  exists m, slot_reachable m /\ tids m = replicate SLOTS 0
            /\ pcs m 7 = Scanning true n (if decide (n = 0%nat) then None else Some 0%nat).
Proof.
  induction n as [|n IH]; intros Hn.
  - exists (set_pc initial_slots 7 (Scanning true 0 None)). split; [|done].
    eapply reach_step; [apply reach_init|]. now apply step_call.
  - destruct IH as (m & Hr & Ht & Hp); [lia|].
    assert (Hl : tids m !! n = Some 0) by (rewrite Ht; apply lookup_replicate_2; lia).
    eexists. split; [eapply reach_step; [exact Hr|eapply step_next; eauto; lia]|].
    split; [exact Ht|]. cbn. destruct (decide (n = 0%nat)) as [->|]; done.
Qed.

Lemma unwind_slot_unique_witness :
  exists m, slot_reachable m /\ tids m !! 0%nat = Some 7
            /\ forall j, tids m !! j = Some 7 -> j = 0%nat.
Proof.
  destruct (lone_scan SLOTS (Nat.le_refl _)) as (m & Hr & Ht & Hp).
  set (m1 := set_pc m 7 (Claiming true 0)).
  assert (Hr1 : slot_reachable m1).
  { eapply reach_step; [exact Hr|]. eapply step_to_claim; [lia|exact Hp|]. rewrite Ht.
    apply lookup_ge_None. now rewrite length_replicate. }
  set (m2 := set_tid (set_pc m1 7 Outside) 0 7).
  assert (Hr2 : slot_reachable m2).
  { eapply reach_step; [exact Hr1|]. eapply step_cas_ok; [lia|reflexivity|]. cbn. now rewrite Ht. }
  assert (H0 : tids m2 !! 0%nat = Some 7) by (cbn; rewrite Ht; reflexivity).
  exists m2. split; [exact Hr2|]. split; [exact H0|]. intros j Hj.
  apply (unwind_slot_unique m2 7 j 0%nat Hr2); [lia|exact Hj|exact H0].
Defined.

(** ** Frames: last linked, first resumed *)

Lemma scan_slots_inl l i0 id e i :
  scan_slots l i0 id e = inl i ->
  exists k, i = (i0 + k)%nat /\ l !! k = Some id /\ (forall k', (k' < k)%nat -> l !! k' <> Some id).
Proof.
  revert i0 e. induction l as [|x l IH]; intros i0 e H; [done|]. cbn in H.
  destruct (Z.eqb_spec x id) as [->|Hne].
  - injection H as <-. exists 0%nat. split; [lia|]. split; [done|]. lia.
  - apply IH in H as (k & -> & Hk & Hlt). exists (S k). split; [lia|]. split; [done|].
    intros [|k'] Hk'; cbn; [congruence|apply Hlt; lia].
Qed.

Lemma scan_slots_first l : forall i0 e id k,
  l !! k = Some id -> (forall k', (k' < k)%nat -> l !! k' <> Some id) ->
  scan_slots l i0 id e = inl (i0 + k)%nat.
Proof.
  induction l as [|x l IH]; intros i0 e id [|k] Hk Hlt; try done; cbn in *.
  - injection Hk as ->. rewrite Z.eqb_refl. f_equal. lia.
  - destruct (Z.eqb_spec x id) as [->|]; [exfalso; apply (Hlt 0%nat); [lia|done]|].
    rewrite (IH (S i0) _ id k); [f_equal; lia|done|]. intros k' Hk'. apply (Hlt (S k')). lia.
Qed.

Lemma scan_slots_inr l : forall i0 e id r k,
  scan_slots l i0 id e = inr r -> l !! k <> Some id.
Proof.
  induction l as [|x l IH]; intros i0 e id r k H; [done|]. cbn in H.
  destruct (Z.eqb_spec x id) as [|Hne]; [done|].
  destruct k as [|k]; cbn; [congruence|]. eapply IH; eauto.
Qed.

(** Updating the owned slot without touching its thread id keeps ownership. *)
Lemma owned_update l i id (s s' : slot) :
  scan_slots (map tid l) 0 id None = inl i -> l !! i = Some s -> tid s' = tid s ->
  scan_slots (map tid (<[i := s']> l)) 0 id None = inl i.
Proof.
  intros Hs Hl Ht. rewrite <- Hs. f_equal. change (tid <$> <[i:=s']> l = tid <$> l).
  rewrite list_fmap_insert. apply list_insert_id. rewrite list_lookup_fmap, Hl. cbn. now rewrite Ht.
Qed.

Lemma chain_upd prev f v g fs :
  f ∉ fs -> chain prev g fs -> chain (fun a => if a =? f then v else prev a) g fs.
Proof.
  revert g. induction fs as [|h fs IH]; intros g Hf Hc; [done|]. cbn in *.
  destruct Hc as (-> & Hh & Hc). split; [done|]. split; [done|].
  apply not_elem_of_cons in Hf as [Hne Hf]. rewrite (proj2 (Z.eqb_neq h f)) by congruence. auto.
Qed.

(** Linking a frame to an owned slot. *)
Lemma link_owned st id i s fs frame :
  owns st id i s fs -> frame <> 0 -> frame ∉ fs ->
  fst (dyn_unwind_link st id frame) = Returned
  /\ owns (snd (dyn_unwind_link st id frame)) id i (with_top s frame) (frame :: fs).
Proof.
  intros (Hs & Hl & Hc) H0 Hf. unfold dyn_unwind_link, unwind_slot. rewrite Hs, Hl. split; [done|].
  split; [|split]; cbn.
  - eapply owned_update; eauto.
  - apply list_lookup_insert_eq. eapply lookup_lt_Some; eauto.
  - rewrite Z.eqb_refl. split; [done|]. split; [done|]. now apply chain_upd.
Qed.

(** Linking the first frame claims the free slot. *)
Lemma link_unowned st id j s frame :
  unowned st id j s -> frame <> 0 -> id <> 0 ->
  fst (dyn_unwind_link st id frame) = Returned
  /\ owns (snd (dyn_unwind_link st id frame)) id j (with_top (with_tid s id) frame) [frame].
Proof.
  intros (Hs & Hl & Ht & Hu & Hlen) H0 Hid. unfold dyn_unwind_link, unwind_slot. rewrite Hs. cbn.
  assert (Hl' : alter (fun s => with_tid s id) j (unwind_slots st) !! j = Some (with_tid s id))
    by (rewrite list_lookup_alter_eq, Hl; done).
  rewrite Hl'. split; [done|]. split; [|split]; cbn.
  - apply (owned_update _ j id (with_tid s id)); [|exact Hl'|done].
    apply (scan_slots_first _ 0 None id j).
    + rewrite list_lookup_fmap, Hl'. done.
    + intros k Hk Hc. rewrite list_lookup_fmap, list_lookup_alter_ne in Hc by lia.
      eapply (scan_slots_inr _ _ _ _ _ k Hs). rewrite list_lookup_fmap. exact Hc.
  - apply list_lookup_insert_eq. eapply lookup_lt_Some; eauto.
  - rewrite Z.eqb_refl. done.
Qed.

(** ** The stored message *)

Lemma utf8_boundary_le text n : (utf8_boundary text n <= n)%nat.
Proof. induction n as [|n IH]; cbn; [done|]. repeat case_match; lia. Qed.

(** The cut never leaves a continuation byte behind it. *)
Lemma utf8_boundary_stops text n b :
  text !! utf8_boundary text n = Some b -> utf8_boundary text n <> 0%nat -> Z.land b 0xc0 <> 0x80.
Proof.
  induction n as [|n IH]; cbn; [done|].
  destruct (text !! S n) as [c|] eqn:E; [|congruence].
  destruct (Z.eqb_spec (Z.land c 0xc0) 0x80); [exact IH|]. rewrite E. congruence.
Qed.

Lemma overwrite_length storage n data :
  (n + length data <= length storage)%nat -> length (overwrite storage n data) = length storage.
Proof. intros. unfold overwrite. rewrite !length_app, length_take, length_drop. lia. Qed.

Lemma overwrite_take storage n data :
  (n <= length storage)%nat ->
  take (n + length data) (overwrite storage n data) = take n storage ++ data.
Proof.
  intros. unfold overwrite. rewrite app_assoc, take_app_le by (rewrite length_app, length_take; lia).
  apply take_ge. rewrite length_app, length_take. lia.
Qed.

Lemma copy_message_spec storage message :
  length storage = Z.to_nat MESSAGE_CAPACITY ->
  let '(storage', len) := copy_message storage message in
  length storage' = Z.to_nat MESSAGE_CAPACITY /\ 0 <= len <= MESSAGE_CAPACITY
  /\ take (Z.to_nat len) storage' = stored_message message.
Proof.
  intros Hl. unfold copy_message, stored_message. cbv zeta.
  change (match message with Some t => t | None => [] end) with (default [] message).
  set (text := default [] message). unfold MESSAGE_CAPACITY in *.
  destruct (Z.ltb_spec 4096 (Z.of_nat (length text))) as [Hbig|Hsmall].
  - pose proof (utf8_boundary_le text (Z.to_nat (4096 - Z.of_nat (length truncated)))) as Hc.
    set (c := utf8_boundary _ _) in *. change (Z.of_nat (length truncated)) with 12 in *.
    rewrite bool_decide_eq_false_2 by lia. rewrite (proj2 (Z.ltb_lt _ _)) by lia.
    assert (length (take c text) = c) as Htc by (rewrite length_take; lia).
    assert (length (overwrite storage 0 (take c text)) = length storage) as Hl1
      by (apply overwrite_length; lia).
    assert (length truncated = 12%nat) as Hlt by reflexivity.
    split; [rewrite overwrite_length; lia|]. split; [lia|].
    replace (Z.to_nat (Z.of_nat c + 12)) with (c + length truncated)%nat by lia.
    rewrite overwrite_take by lia. f_equal.
    pose proof (overwrite_take storage 0 (take c text) ltac:(lia)) as H0.
    rewrite Htc in H0. exact H0.
  - rewrite bool_decide_eq_true_2 by lia. rewrite (proj2 (Z.ltb_ge _ _)) by lia.
    rewrite take_ge by lia. split; [rewrite overwrite_length; lia|]. split; [lia|].
    rewrite Nat2Z.id. exact (overwrite_take storage 0 text ltac:(lia)).
Qed.

Lemma begin_owned st id i s f fs message :
  owns st id i s (f :: fs) -> unwinding s = false ->
  length (message_storage s) = Z.to_nat MESSAGE_CAPACITY ->
  fst (dyn_unwind_begin st id message) = Jumped f
  /\ exists s', owns (snd (dyn_unwind_begin st id message)) id i s' fs
                /\ slot_message s' = Some (stored_message message).
Proof.
  intros (Hs & Hl & Hc) Hu Hlen. cbn in Hc. destruct Hc as (Hf & Hf0 & Hc).
  unfold dyn_unwind_begin, unwind_slot. rewrite Hs, Hl, Hu. cbn [orb].
  rewrite (proj2 (Z.eqb_neq (top s) 0)) by congruence.
  pose proof (copy_message_spec (message_storage s) message Hlen) as Hm.
  destruct (copy_message _ _) as [storage len]. destruct Hm as (_ & _ & Hm).
  cbn. split; [congruence|]. eexists. split; [split; [|split]|]; cbn.
  - eapply owned_update; eauto.
  - apply list_lookup_insert_eq. eapply lookup_lt_Some; eauto.
  - cbn. rewrite Hf. exact Hc.
  - unfold slot_message. cbn. now rewrite Hm.
Qed.

(** Each [dyn_unwind_continue] resumes the next frame; after the last, the
    stored message is printed. *)
Lemma continues_owned id i text : forall fs st s,
  owns st id i s fs -> slot_message s = Some text ->
  continues (S (length fs)) st id = map Jumped fs ++ [Panicked (Some text)].
Proof.
  induction fs as [|f fs IH]; intros st s (Hs & Hl & Hc) Hm; cbn [continues length];
    unfold dyn_unwind_continue, unwind_slot; rewrite Hs, Hl; cbn in Hc.
  - rewrite Hc, Z.eqb_refl, Hm. reflexivity.
  - destruct Hc as (Hf & Hf0 & Hc). rewrite (proj2 (Z.eqb_neq (top s) 0)) by congruence.
    rewrite Hf. cbn [map app]. f_equal.
    refine (IH _ (with_top s (previous st f)) _ Hm). split; [|split]; cbn.
    + eapply owned_update; eauto.
    + apply list_lookup_insert_eq. eapply lookup_lt_Some; eauto.
    + exact Hc.
Qed.

Definition link_all (st : unwind_state) (id : Z) (frames : list Z) : unwind_state :=
  fold_left (fun st f => snd (dyn_unwind_link st id f)) frames st.

Lemma link_all_owned id i : forall frames st s fs,
  owns st id i s fs -> NoDup (frames ++ fs) -> 0 ∉ frames ->
  exists s', owns (link_all st id frames) id i s' (reverse frames ++ fs)
             /\ unwinding s' = unwinding s /\ message_storage s' = message_storage s.
Proof.
  induction frames as [|f frames IH]; intros st s fs Ho Hnd H0; [by exists s|].
  apply not_elem_of_cons in H0 as [Hf0 H0]. cbn in Hnd. apply NoDup_cons in Hnd as [Hf Hnd].
  destruct (link_owned st id i s fs f Ho) as [_ Ho']; [congruence|set_solver|].
  cbn [link_all fold_left]. destruct (IH _ _ _ Ho') as (s' & Ho'' & Hu & Hm).
  - rewrite <- Permutation_middle. by constructor.
  - done.
  - exists s'. rewrite reverse_cons, <- app_assoc. done.
Qed.

(** A panic resumes exactly the frames its thread has linked, innermost
    first, each once, and then prints the stored message: the whole message
    when it fits, otherwise a prefix followed by the truncation mark. *)
Theorem unwind_lifo st id j s frame frames message :
  id <> 0 -> unowned st id j s -> NoDup (frame :: frames) -> 0 ∉ frame :: frames ->
  panic_run (link_all st id (frame :: frames)) id message (S (length frames))
  = map Jumped (reverse (frame :: frames)) ++ [Panicked (Some (stored_message message))].
Proof.
  intros Hid Hun Hnd H0. pose proof Hun as (_ & _ & _ & Hu & Hlen).
  apply not_elem_of_cons in H0 as [Hf0 H0]. apply NoDup_cons in Hnd as [Hf Hnd].
  destruct (link_unowned st id j s frame Hun) as [_ Ho]; [congruence|done|].
  destruct (link_all_owned id j frames _ _ _ Ho) as (s' & Ho' & Hu' & Hm'); [|done|].
  { apply NoDup_app. split; [done|]. split; [set_solver|apply NoDup_singleton]. }
  change (link_all st id (frame :: frames)) with (link_all (snd (dyn_unwind_link st id frame)) id frames).
  rewrite reverse_cons. destruct (reverse frames ++ [frame]) as [|g gs] eqn:E.
  { now destruct (reverse frames). }
  destruct (begin_owned _ _ _ _ _ _ message Ho') as (Hj & s'' & Ho'' & Hms).
  { rewrite Hu'. exact Hu. }
  { rewrite Hm'. exact Hlen. }
  unfold panic_run. destruct (dyn_unwind_begin _ _ _) as [o st']. cbn in Hj, Ho''. subst o.
  assert (length frames = length gs) as ->.
  { apply (f_equal length) in E. rewrite length_app, length_reverse in E. cbn in E. lia. }
  rewrite (continues_owned id j _ gs st' s'' Ho'' Hms). reflexivity.
Qed.

Definition fresh_slots : unwind_state :=
  UnwindState (replicate SLOTS (Slot 0 0 false 0 false (replicate (Z.to_nat MESSAGE_CAPACITY) 0)))
    (fun _ => 0).

Lemma unwind_lifo_witness :
  panic_run (link_all fresh_slots 7 [100; 200; 300]) 7 (Some (str "boom")) 3
  = [Jumped 300; Jumped 200; Jumped 100; Panicked (Some (str "boom"))].
Proof.
  etransitivity; [refine (unwind_lifo fresh_slots 7 0
    (Slot 0 0 false 0 false (replicate (Z.to_nat MESSAGE_CAPACITY) 0)) 100 [200; 300]
    (Some (str "boom")) _ _ _ _)|vm_compute; reflexivity].
  - lia.
  - repeat split; vm_compute; reflexivity.
  - apply (bool_decide_unpack _). vm_compute. exact I.
  - apply (bool_decide_unpack _). vm_compute. exact I.
Defined.

(** The copied panic message never overruns the 4096-byte storage; a
    longer message is cut before a byte that starts a character (or to
    nothing), so a valid UTF-8 message stays valid, and is marked truncated. *)
Theorem panic_message_bounded storage text :
  length storage = Z.to_nat MESSAGE_CAPACITY ->
  let '(storage', len) := copy_message storage (Some text) in
  length storage' = Z.to_nat MESSAGE_CAPACITY /\ 0 <= len <= MESSAGE_CAPACITY
  /\ (Z.of_nat (length text) <= MESSAGE_CAPACITY -> take (Z.to_nat len) storage' = text)
  /\ (MESSAGE_CAPACITY < Z.of_nat (length text) ->
      exists n, take (Z.to_nat len) storage' = take n text ++ truncated
        /\ (n = 0%nat \/ exists b, text !! n = Some b /\ Z.land b 0xc0 <> 0x80)).
Proof.
  intros Hl. pose proof (copy_message_spec storage (Some text) Hl) as H.
  destruct (copy_message storage (Some text)) as [storage' len]. destruct H as (H1 & H2 & H3).
  rewrite H3. unfold stored_message. change (default [] (Some text)) with text.
  cbv zeta. split; [done|]. split; [done|].
  split; intros Hlen.
  - rewrite bool_decide_eq_true_2; [done|]. cbn. lia.
  - rewrite bool_decide_eq_false_2 by (cbn; lia). eexists. split; [reflexivity|].
    set (n := utf8_boundary _ _).
    destruct (decide (n = 0%nat)) as [|Hn]; [auto|]. right.
    pose proof (utf8_boundary_le text (Z.to_nat (MESSAGE_CAPACITY - Z.of_nat (length truncated)))) as Hle.
    destruct (lookup_lt_is_Some_2 text n) as [b Hb].
    { subst n. unfold MESSAGE_CAPACITY in *. lia. }
    exists b. split; [done|]. eapply utf8_boundary_stops; eauto.
Qed.

Lemma panic_message_bounded_witness :
  length (fst (copy_message (replicate (Z.to_nat MESSAGE_CAPACITY) 0) (Some (replicate 5000 65))))
  = Z.to_nat MESSAGE_CAPACITY.
Proof.
  pose proof (panic_message_bounded (replicate (Z.to_nat MESSAGE_CAPACITY) 0) (replicate 5000 65)
    (length_replicate _ _)) as H.
  destruct (copy_message _ _) as [storage' len]. exact (proj1 H).
Defined.

(** ** Runtime checks *)

Lemma check_append_ok out text :
  (length out + length text <= CHECK_CAPACITY)%nat -> check_append out text = Some (out ++ text).
Proof. intros. unfold check_append. now rewrite bool_decide_eq_true_2. Qed.

Lemma check_name_spec fuel name len : forall out i,
  0 <= i <= 800 -> 0 <= len <= Z.of_nat (length name) ->
  800 - i < Z.of_nat fuel -> Z.of_nat (length out) + (800 - i) <= Z.of_nat CHECK_CAPACITY ->
  check_name fuel out name i len
  = Some (out ++ take (Z.to_nat (Z.min len 800) - Z.to_nat i) (drop (Z.to_nat i) name)).
Proof.
  induction fuel as [|f IH]; intros out i Hi Hlen Hf Hcap; [lia|]. cbn [check_name].
  destruct ((i <? len) && (i <? 800)) eqn:E; to_prop.
  - destruct (get_at_is_Some name i ltac:(lia)) as [c Hc]. rewrite Hc.
    apply get_at_Some in Hc as [_ Hc]. unfold CHECK_CAPACITY in *.
    rewrite check_append_ok by (unfold CHECK_CAPACITY; cbn; lia).
    rewrite IH by (rewrite ?length_app; cbn; lia).
    rewrite (drop_S name c (Z.to_nat i) Hc).
    replace (Z.to_nat (i + 1)) with (S (Z.to_nat i)) by lia.
    replace (Z.to_nat (Z.min len 800) - Z.to_nat i)%nat
      with (S (Z.to_nat (Z.min len 800) - S (Z.to_nat i))) by lia.
    cbn [take]. now rewrite <- app_assoc.
  - replace (Z.to_nat (Z.min len 800) - Z.to_nat i)%nat with 0%nat by lia.
    rewrite take_0. now rewrite app_nil_r.
Qed.

(** The message of a failed check fits its 1024-byte buffer for every
    kind and every name length, and reads
    "runtime check failed (kind) in name", the name cut at 800 bytes. *)
Theorem check_failed_message name packed :
  0 <= packed -> Z.land packed 0xffffff <= Z.of_nat (length name) ->
  dyn_check_failed name packed
  = Some (str "runtime check failed ("
          ++ default (str "unknown") (get_at check_kinds (Z.shiftr packed 24))
          ++ str ") in " ++ take (Z.to_nat (Z.min (Z.land packed 0xffffff) 800)) name).
Proof.
  intros Hp Hn. unfold dyn_check_failed.
  assert (0 <= Z.land packed 0xffffff) by (apply Z.land_nonneg; lia).
  assert (0 <= Z.shiftr packed 24) by (apply Z.shiftr_nonneg; lia).
  rewrite check_append_ok by (vm_compute; lia). cbn [app].
  set (kind := if _ <? 12 then _ else _).
  assert (kind = default (str "unknown") (get_at check_kinds (Z.shiftr packed 24))
          /\ (length kind <= 20)%nat) as [Hk Hlen].
  { unfold kind. destruct (Z.ltb_spec (Z.shiftr packed 24) 12) as [Hlt|Hge].
    - destruct (get_at_is_Some check_kinds (Z.shiftr packed 24)) as [k Ek]; [cbn; lia|].
      rewrite Ek. split; [done|]. apply get_at_Some in Ek as [_ Ek].
      assert (Forall (fun k => (length k <= 20)%nat) check_kinds) as Hall
        by (apply (bool_decide_unpack _); vm_compute; exact I).
      exact (proj1 (Forall_lookup _ _) Hall _ _ Ek).
    - unfold get_at. rewrite (proj2 (Z.ltb_ge (Z.shiftr packed 24) _)), andb_false_r by (cbn; lia).
      split; [done|cbn; lia]. }
  assert (length (str "runtime check failed (") = 22%nat) as L1 by reflexivity.
  assert (length (str ") in ") = 5%nat) as L2 by reflexivity.
  clearbody kind.
  rewrite check_append_ok by (unfold CHECK_CAPACITY; lia).
  rewrite check_append_ok by (unfold CHECK_CAPACITY; rewrite length_app; lia).
  rewrite check_name_spec by (rewrite ?length_app; unfold CHECK_CAPACITY; lia).
  rewrite Hk, <- !app_assoc. cbn [drop Z.to_nat]. now rewrite Nat.sub_0_r.
Qed.

Lemma check_failed_message_witness :
  dyn_check_failed (str "main") (Z.shiftl 7 24 + 4)
  = Some (str "runtime check failed (index.ok) in main").
Proof. rewrite (check_failed_message (str "main") (Z.shiftl 7 24 + 4)); [reflexivity|vm_compute; congruence..]. Defined.

(** ** Call traces *)

(** A trace can lose frames of a thread that is still running.
    Threads 1 and 2 push one frame each, thread 1 returns, and thread 2 calls
    on: the freed first slot is claimed although thread 2 owns the second, so
    the dump of thread 2 has lost its outer frame. *)
Theorem trace_slot_claims_twice :
  let s := dyn_trace_push initial_trace 1 (str "a") in
  let s := dyn_trace_push s 2 (str "outer") in
  let s := dyn_trace_pop s 1 in
  let s := dyn_trace_push s 2 (str "inner") in
  dyn_trace_dump s 2 = [str "inner"]
  /\ map trace_tid (take 2 s) = [2; 2].
Proof. vm_compute. split; reflexivity. Qed.
