(* ===== verification/WasmLeb.v ===== *)
(** * Readers and writers of the WebAssembly linker (link_wasm.c)

    The byte-level layer of src/src/link_wasm.c: the growing output buffer
    ([put], [byte], [uleb], [sleb], [string], [section]) and the bounded reader
    ([get], [number], [signed_number], [take], [name], [checked_count],
    [limits], [expression]).

    A [Buf] is its contents; growing its storage is not observable.  A [Read]
    is a position in the object's bytes and the end it may not pass.  The
    [longjmp] out of [fail] is the error case of the result.  Reading outside
    the object or a vector, which C leaves undefined, is the separate error
    [Undefined], so that memory safety is a theorem and not an assumption of
    the model. *)

From S2P Require Import Prelude.

(** ** Errors *)
Inductive error : Type :=
| Failed (message : string)   (* [fail(l, message, ...)] *)
| Undefined                   (* an access C leaves undefined *)
| Unfinished.                 (* the model's fuel ran out *)

Abbreviation out A := (res error A).
Definition fail {A} (message : string) : out A := Err (Failed message).

Definition SIZE_MAX : Z := 2 ^ 64 - 1.

(** ** Writing *)
Definition put (b p : bytes) : out bytes :=
  if SIZE_MAX - Z.of_nat (length b) <? Z.of_nat (length p) then fail "output too large"
  else Ok (b ++ p).

Definition byte (b : bytes) (v : Z) : out bytes := put b [u8 v].

(** [do ... while (n)]; five rounds are enough for 32 bits. *)
Fixpoint uleb_loop (fuel : nat) (b : bytes) (n : Z) : out bytes :=
  match fuel with
  | O => Err Unfinished
  | S f =>
      let c := Z.land n 127 in
      let n := Z.shiftr n 7 in
      let? b := byte b (Z.lor c (if n =? 0 then 0 else 128)) in
      if n =? 0 then Ok b else uleb_loop f b n
  end.
Definition uleb (b : bytes) (n : Z) : out bytes := uleb_loop 5 b n.

(** The sign-extending [n >>= 7] of [int32_t] is [Z.shiftr] on the signed
    value. *)
Fixpoint sleb_loop (fuel : nat) (b : bytes) (n : Z) : out bytes :=
  match fuel with
  | O => Err Unfinished
  | S f =>
      let c := Z.land n 127 in
      let n := Z.shiftr n 7 in
      let more := negb (((n =? 0) && (Z.land c 64 =? 0))
                        || ((n =? -1) && negb (Z.land c 64 =? 0))) in
      let? b := byte b (Z.lor c (if more then 128 else 0)) in
      if more then sleb_loop f b n else Ok b
  end.
Definition sleb (b : bytes) (n : Z) : out bytes := sleb_loop 5 b n.

(** A C string is its bytes without the terminator. *)
Definition string_ (b s : bytes) : out bytes :=
  let n := Z.of_nat (length s) in
  if UINT32_MAX <? n then fail "name too long"
  else let? b := uleb b n in put b s.

Definition section (b : bytes) (id : Z) (body : bytes) : out bytes :=
  if UINT32_MAX <? Z.of_nat (length body) then fail "section too large"
  else
    let? b := byte b id in
    let? b := uleb b (Z.of_nat (length body)) in
    put b body.

(** ** Reading

    A reading step takes the object's bytes, the end of the reader and its
    position, and gives a value and the new position. *)
Definition rd (A : Type) : Type := bytes -> Z -> Z -> out (A * Z).

Definition rd_ret {A} (a : A) : rd A := fun _ _ p => Ok (a, p).
Definition rd_fail {A} (message : string) : rd A := fun _ _ _ => fail message.
Definition rd_bind {A B} (c : rd A) (k : A -> rd B) : rd B := fun file end_ p =>
  match c file end_ p with
  | Ok (a, p') => k a file end_ p'
  | Err e => Err e
  end.
Notation "'do' x <- c ; k" := (rd_bind c (fun x => k))
  (at level 10, x name, c at level 100, k at level 200,
   format "'do'  x  <-  c ; '//' k") : dyn_scope.
Notation "'do_' c ; k" := (rd_bind c (fun _ => k))
  (at level 10, c at level 100, k at level 200, format "'do_'  c ; '//' k") : dyn_scope.

(** [r->p] and [r->end]. *)
Definition rd_here : rd Z := fun _ _ p => Ok (p, p).
Definition rd_end : rd Z := fun _ end_ p => Ok (end_, p).

(** The counted loop [for (i = 0; i < n; i++)] with a loop-carried state. *)
Fixpoint rd_loop {S} (n : nat) (body : S -> rd S) (s : S) : rd S :=
  match n with
  | O => rd_ret s
  | Datatypes.S n' => do s <- body s; rd_loop n' body s
  end.

Definition get : rd Z := fun file end_ p =>
  if p =? end_ then fail "truncated object"
  else match get_at file p with
       | Some c => Ok (c, p + 1)
       | None => Err Undefined
       end.

Fixpoint number_loop (fuel : nat) (i n : Z) : rd Z :=
  match fuel with
  | O => rd_fail "invalid LEB"
  | S f =>
      do c <- get;
      if (i =? 4) && negb (Z.land c 0x70 =? 0) then rd_fail "invalid u32 LEB"
      else
        let n := Z.lor n (u32 (Z.shiftl (Z.land c 127) (7 * i))) in
        if Z.land c 128 =? 0 then rd_ret n else number_loop f (i + 1) n
  end.
Definition number : rd Z := number_loop 5 0 0.

(** [do ... while (c & 128)]: at most six rounds, the sixth fails. *)
Fixpoint signed_loop (fuel : nat) (n shift : Z) : rd (Z * Z * Z) :=
  match fuel with
  | O => fun _ _ _ => Err Unfinished
  | S f =>
      if 35 <=? shift then rd_fail "invalid signed LEB"
      else
        do c <- get;
        let n := Z.lor n (u32 (Z.shiftl (Z.land c 127) shift)) in
        let shift := shift + 7 in
        if Z.land c 128 =? 0 then rd_ret (n, c, shift) else signed_loop f n shift
  end.
Definition signed_number : rd Z :=
  do r <- signed_loop 6 0 0;
  let '(n, c, shift) := r in
  let n := if (shift <? 32) && negb (Z.land c 64 =? 0)
           then Z.lor n (u32 (Z.shiftl UINT32_MAX shift)) else n in
  rd_ret (i32 n).

(** [take] gives the position of the bytes; the caller keeps the pointer. *)
Definition take_ (n : Z) : rd Z := fun file end_ p =>
  if end_ - p <? n then fail "truncated object" else Ok (p, p + n).

(** The [n] bytes at [p], as [memcpy] reads them. *)
Definition slice (file : bytes) (p n : Z) : option bytes :=
  if (0 <=? p) && (0 <=? n) && (p + n <=? Z.of_nat (length file))
  then Some (firstn (Z.to_nat n) (skipn (Z.to_nat p) file)) else None.
Definition rd_slice (p n : Z) : rd bytes := fun file _ q =>
  match slice file p n with
  | Some s => Ok (s, q)
  | None => Err Undefined
  end.

Definition name : rd bytes :=
  do n <- number;
  do p <- take_ n;
  do s <- rd_slice p n;
  if one_of 0 s then rd_fail "NUL in symbol name" else rd_ret s.

Definition checked_count (size : Z) : rd Z :=
  do n <- number;
  do p <- rd_here;
  do e <- rd_end;
  if (e - p + 1 <? n) || (SIZE_MAX / size <? n) then rd_fail "invalid vector count"
  else rd_ret n.

Definition limits : rd unit :=
  do flags <- number;
  if 1 <? flags then rd_fail "shared/memory64 limits unsupported"
  else
    do_ number;
    if Z.land flags 1 =? 0 then rd_ret tt else do_ number; rd_ret tt.

(** [while (get(l, r) & 128) if (++n > 9) fail(...)]. *)
Fixpoint constant_loop (fuel : nat) (n : Z) : rd unit :=
  match fuel with
  | O => fun _ _ _ => Err Unfinished
  | S f =>
      do c <- get;
      if Z.land c 128 =? 0 then rd_ret tt
      else if 9 <? n + 1 then rd_fail "invalid constant" else constant_loop f (n + 1)
  end.
Definition expression : rd unit :=
  do op <- get;
  do_ (if (op =? 0x41) || (op =? 0x42) then constant_loop 10 0
       else if op =? 0x43 then do_ take_ 4; rd_ret tt
       else if op =? 0x44 then do_ take_ 8; rd_ret tt
       else rd_fail "unsupported global initializer");
  do c <- get;
  if c =? 0xb then rd_ret tt else rd_fail "unsupported initializer expression".

(** The five (or four, raw) bytes [patch] writes for a relocated value. *)
Definition patch_raw (kind : Z) : bool :=
  (kind =? 2) || (kind =? 5) || (kind =? 13) || (kind =? 26).
Definition patch_bytes (kind value : Z) : bytes :=
  if patch_raw kind then
    map (fun i => u8 (Z.shiftr value (8 * i))) [0; 1; 2; 3]
  else
    let low := map (fun i => u8 (Z.lor (Z.land (Z.shiftr value (7 * i)) 127) 128)) [0; 1; 2; 3] in
    let p4 := u8 (Z.land (Z.shiftr value 28) 15) in
    let p4 := if ((kind =? 1) || (kind =? 4)) && negb (Z.land p4 8 =? 0)
              then Z.lor p4 0x70 else p4 in
    low ++ [p4].

(** ** Bit arithmetic of the encodings *)

Lemma lor_range w a b : 0 <= w -> 0 <= a < 2 ^ w -> 0 <= b < 2 ^ w -> 0 <= Z.lor a b < 2 ^ w.
Proof.
  intros Hw Ha Hb. split; [apply Z.lor_nonneg; lia|].
  assert (Z.lor a b mod 2 ^ w = Z.lor a b) as <-; [|apply Z.mod_pos_bound; lia].
  apply Z.bits_inj'; intros i Hi. destruct (Z_lt_le_dec i w).
  - now rewrite Z.mod_pow2_bits_low by lia.
  - rewrite Z.mod_pow2_bits_high by lia.
    now rewrite Z.lor_spec, !(testbit_high _ w) by lia.
Qed.

Lemma land127 x : Z.land x 127 = x mod 128.
Proof. apply (land_ones_mod x 7). lia. Qed.

Lemma lor128 c : 0 <= c < 128 -> Z.lor c 128 = c + 128.
Proof. intros. change 128 with (Z.shiftl 1 7) at 1. rewrite (lor_shift_add c 1 7); lia. Qed.

Lemma land_bit c i : 0 <= i -> (Z.land c (2 ^ i) =? 0) = negb (Z.testbit c i).
Proof.
  intros. rewrite land_pow2_testbit by lia. destruct (Z.testbit c i); [|done].
  apply Z.eqb_neq. pose proof (Z.pow_pos_nonneg 2 i). lia.
Qed.

Lemma land64 c : (Z.land c 64 =? 0) = negb (Z.testbit c 6).
Proof. apply (land_bit c 6). lia. Qed.

Lemma testbit6 c : 0 <= c < 128 -> Z.testbit c 6 = (64 <=? c).
Proof.
  intros. rewrite Z.testbit_eqb by lia. change (2 ^ 6) with 64.
  destruct (Z.leb_spec 64 c).
  - replace (c / 64) with 1; [done|]. apply Z.div_unique with (c - 64); lia.
  - rewrite Z.div_small by lia. done.
Qed.

Lemma testbit7 c : 0 <= c < 256 -> Z.testbit c 7 = (128 <=? c).
Proof.
  intros. rewrite Z.testbit_eqb by lia. change (2 ^ 7) with 128.
  destruct (Z.leb_spec 128 c).
  - replace (c / 128) with 1; [done|]. apply Z.div_unique with (c - 128); lia.
  - rewrite Z.div_small by lia. done.
Qed.

Lemma shiftr7 n : Z.shiftr n 7 = n / 128.
Proof. now rewrite Z.shiftr_div_pow2. Qed.

Lemma u32_mod x : u32 (u32 x) = u32 x.
Proof. unfold u32, wrap. now rewrite Z.mod_mod. Qed.

Lemma i32_mod x : i32 (u32 x) = i32 x.
Proof. unfold i32, to_signed. change (wrap 32 (u32 x)) with (u32 (u32 x)). now rewrite u32_mod. Qed.

Lemma i32_u32 n : - 2 ^ 31 <= n < 2 ^ 31 -> i32 (u32 n) = n.
Proof.
  intros Hn. unfold i32, to_signed. fold (u32 (u32 n)). rewrite u32_mod.
  unfold u32, wrap. change (2 ^ (32 - 1)) with (2 ^ 31).
  destruct (Z_lt_le_dec n 0).
  - replace (n mod 2 ^ 32) with (n + 2 ^ 32).
    + rewrite (proj2 (Z.ltb_ge _ _)) by lia. lia.
    + apply Z.mod_unique with (-1); lia.
  - rewrite Z.mod_small by lia. now rewrite (proj2 (Z.ltb_lt _ _)) by lia.
Qed.

(** ** What writers append *)

Lemma put_Ok b p b' : put b p = Ok b' -> b' = b ++ p.
Proof. unfold put, fail. split_if; congruence. Qed.

Lemma put_fits b p :
  Z.of_nat (length b) + Z.of_nat (length p) <= SIZE_MAX -> put b p = Ok (b ++ p).
Proof. intros. unfold put. now rewrite (proj2 (Z.ltb_ge _ _)) by lia. Qed.

(** The encodings as pure functions. *)
Fixpoint uleb_code (fuel : nat) (n : Z) : bytes :=
  match fuel with
  | O => []
  | S f => if n / 128 =? 0 then [n mod 128] else (n mod 128 + 128) :: uleb_code f (n / 128)
  end.

Definition sleb_last (n : Z) : bool :=
  ((n / 128 =? 0) && (n mod 128 <? 64)) || ((n / 128 =? -1) && (64 <=? n mod 128)).
Fixpoint sleb_code (fuel : nat) (n : Z) : bytes :=
  match fuel with
  | O => []
  | S f => if sleb_last n then [n mod 128] else (n mod 128 + 128) :: sleb_code f (n / 128)
  end.

Lemma uleb_loop_Ok f : forall b n b',
  uleb_loop f b n = Ok b' -> b' = b ++ uleb_code f n.
Proof.
  induction f as [|f IH]; intros b n b' H; [done|]. cbn [uleb_loop uleb_code] in *.
  rewrite land127, shiftr7 in H. pose proof (Z.mod_pos_bound n 128).
  destruct (byte b _) as [b1|] eqn:E; [|done]. apply put_Ok in E. subst b1.
  destruct (n / 128 =? 0).
  - simplify_eq. rewrite Z.lor_0_r, u8_small by lia. done.
  - apply IH in H. subst b'. rewrite lor128, u8_small by lia. now rewrite <- app_assoc.
Qed.

Lemma sleb_more n :
  negb (((n / 128 =? 0) && (Z.land (n mod 128) 64 =? 0))
        || ((n / 128 =? -1) && negb (Z.land (n mod 128) 64 =? 0))) = negb (sleb_last n).
Proof.
  pose proof (Z.mod_pos_bound n 128). rewrite land64, testbit6 by lia.
  unfold sleb_last. rewrite negb_involutive, <- Z.ltb_antisym. done.
Qed.

Lemma sleb_loop_Ok f : forall b n b',
  sleb_loop f b n = Ok b' -> b' = b ++ sleb_code f n.
Proof.
  induction f as [|f IH]; intros b n b' H; [done|]. cbn [sleb_loop sleb_code] in *.
  rewrite land127, shiftr7, sleb_more in H. pose proof (Z.mod_pos_bound n 128).
  destruct (byte b _) as [b1|] eqn:E; [|done]. apply put_Ok in E. subst b1.
  destruct (sleb_last n); cbn [negb] in H.
  - simplify_eq. rewrite Z.lor_0_r, u8_small by lia. done.
  - apply IH in H. subst b'. rewrite lor128, u8_small by lia. now rewrite <- app_assoc.
Qed.

Lemma uleb_code_length f n : (length (uleb_code f n) <= f)%nat.
Proof. revert n. induction f as [|f IH]; intros n; cbn; [lia|]. split_if; cbn; [lia|]. specialize (IH (n / 128)). lia. Qed.

Lemma uleb_loop_fits f : forall b n,
  0 <= n < 2 ^ (7 * Z.of_nat f) -> (0 < f)%nat -> Z.of_nat (length b + f) <= SIZE_MAX ->
  uleb_loop f b n = Ok (b ++ uleb_code f n).
Proof.
  induction f as [|f IH]; intros b n Hn Hf Hb; [lia|]. cbn [uleb_loop uleb_code].
  rewrite land127, shiftr7. pose proof (Z.mod_pos_bound n 128).
  unfold byte. rewrite put_fits by (cbn; lia).
  destruct (Z.eqb_spec (n / 128) 0).
  - rewrite Z.lor_0_r, u8_small by lia. done.
  - rewrite lor128, u8_small by lia.
    assert (n / 128 < 2 ^ (7 * Z.of_nat f)).
    { apply Z.div_lt_upper_bound; [lia|]. change 128 with (2 ^ 7). rewrite <- Z.pow_add_r by lia.
      replace (7 + 7 * Z.of_nat f) with (7 * Z.of_nat (S f)) by lia. lia. }
    assert (0 <= n / 128) by (apply Z.div_pos; lia).
    rewrite IH; [|lia| |rewrite length_app; cbn; lia].
    + now rewrite <- app_assoc.
    + destruct f; [|lia]. change (2 ^ (7 * Z.of_nat 0)) with 1 in *. lia.
Qed.

Lemma uleb_Ok b n b' : uleb b n = Ok b' -> b' = b ++ uleb_code 5 n.
Proof. apply uleb_loop_Ok. Qed.
Lemma sleb_Ok b n b' : sleb b n = Ok b' -> b' = b ++ sleb_code 5 n.
Proof. apply sleb_loop_Ok. Qed.
Lemma byte_Ok b v b' : byte b v = Ok b' -> b' = b ++ [u8 v].
Proof. apply put_Ok. Qed.
Lemma string_Ok b s b' :
  string_ b s = Ok b' ->
  Z.of_nat (length s) <= UINT32_MAX /\ b' = b ++ uleb_code 5 (Z.of_nat (length s)) ++ s.
Proof.
  unfold string_. intros H. split_if_in H; [done|]. to_prop.
  destruct (uleb b _) as [b1|] eqn:E; [|done]. apply uleb_Ok in E. apply put_Ok in H.
  subst. now rewrite app_assoc.
Qed.
Lemma section_Ok b id body b' :
  section b id body = Ok b' ->
  Z.of_nat (length body) <= UINT32_MAX
  /\ b' = b ++ [u8 id] ++ uleb_code 5 (Z.of_nat (length body)) ++ body.
Proof.
  unfold section. intros H. split_if_in H; [done|]. to_prop.
  destruct (byte b id) as [b1|] eqn:E; [|done]. apply byte_Ok in E.
  destruct (uleb b1 _) as [b2|] eqn:E2; [|done]. apply uleb_Ok in E2. apply put_Ok in H.
  subst. split; [done|]. now rewrite <- !app_assoc.
Qed.

(** ** What readers decode

    [decodes e c a]: wherever the bytes [e] stand in the object within the
    reader's end, [c] consumes exactly them and gives [a]. *)
Definition decodes {A} (e : bytes) (c : rd A) (a : A) : Prop :=
  forall file end_ p rest,
    0 <= p -> skipn (Z.to_nat p) file = e ++ rest -> p + Z.of_nat (length e) <= end_ ->
    c file end_ p = Ok (a, p + Z.of_nat (length e)).

Lemma decodes_ret {A} (a : A) : decodes [] (rd_ret a) a.
Proof. intros file end_ p rest _ _ _. unfold rd_ret. do 2 f_equal. cbn. lia. Qed.

Lemma decodes_bind {A B} e1 e2 (c : rd A) (k : A -> rd B) a b :
  decodes e1 c a -> decodes e2 (k a) b -> decodes (e1 ++ e2) (rd_bind c k) b.
Proof.
  intros H1 H2 file end_ p rest Hp Hs He. rewrite length_app in *. unfold rd_bind.
  rewrite (H1 file end_ p (e2 ++ rest)); [|done|now rewrite app_assoc|lia].
  rewrite (H2 file end_ _ rest); [do 2 f_equal; lia|lia| |lia].
  replace (Z.to_nat (p + Z.of_nat (length e1))) with (Z.to_nat p + length e1)%nat by lia.
  rewrite <- drop_drop, Hs, <- app_assoc. apply drop_app_length.
Qed.

Lemma decodes_get c : decodes [c] get c.
Proof.
  intros file end_ p rest Hp Hs He. cbn [length] in *. unfold get.
  rewrite (proj2 (Z.eqb_neq _ _)) by lia.
  assert (file !! Z.to_nat p = Some c) as Hc.
  { rewrite <- (Nat.add_0_r (Z.to_nat p)), <- lookup_drop, Hs. done. }
  rewrite (proj2 (get_at_Some file p c)); [do 2 f_equal; lia|].
  split; [|done]. apply lookup_lt_Some in Hc. lia.
Qed.

Lemma low7 x : 0 <= x < 128 -> Z.land (x + 128) 127 = x.
Proof. intros. rewrite land127, <- Z.add_mod_idemp_r, Z.mod_same, Z.add_0_r by lia. now apply Z.mod_small. Qed.
Lemma small7 x : 0 <= x < 128 -> Z.land x 127 = x.
Proof. intros. rewrite land127. now apply Z.mod_small. Qed.
Lemma more7 x : 0 <= x < 128 -> (Z.land (x + 128) 128 =? 0) = false.
Proof. intros. rewrite (land_bit _ 7), testbit7 by lia. now rewrite (proj2 (Z.leb_le _ _)) by lia. Qed.
Lemma last7 x : 0 <= x < 128 -> (Z.land x 128 =? 0) = true.
Proof. intros. rewrite (land_bit _ 7), testbit7 by lia. now rewrite (proj2 (Z.leb_gt _ _)) by lia. Qed.
Lemma high70 x : 0 <= x < 16 -> Z.land x 0x70 = 0.
Proof.
  intros. apply Z.bits_inj'; intros i Hi. rewrite Z.land_spec, Z.bits_0.
  destruct (Z_lt_le_dec i 4).
  - change 0x70 with (7 * 2 ^ 4). rewrite Z.mul_pow2_bits_low by lia. apply andb_false_r.
  - now rewrite (testbit_high x 4) by lia.
Qed.

Lemma or_field acc x i w :
  0 <= i -> 0 <= w -> 0 <= acc < 2 ^ i -> 0 <= x < 2 ^ w -> i + w <= 32 ->
  Z.lor acc (u32 (Z.shiftl x i)) = acc + x * 2 ^ i.
Proof.
  intros Hi Hw Ha Hx Hiw.
  assert (2 ^ i * 2 ^ w <= 2 ^ 32) by (rewrite <- Z.pow_add_r by lia; apply Z.pow_le_mono_r; lia).
  rewrite u32_small; [apply lor_shift_add; lia|]. rewrite Z.shiftl_mul_pow2 by lia. nia.
Qed.

Lemma decodes_number f : forall i acc n,
  1 <= Z.of_nat f -> i = 5 - Z.of_nat f -> 0 <= i -> 0 <= acc < 2 ^ (7 * i) ->
  0 <= n < 2 ^ (32 - 7 * i) ->
  decodes (uleb_code f n) (number_loop f i acc) (acc + n * 2 ^ (7 * i)).
Proof.
  induction f as [|f IH]; intros i acc n Hf Hi Hi0 Hacc Hn; [lia|]. cbn [uleb_code number_loop].
  pose proof (Z.mod_pos_bound n 128 ltac:(lia)) as Hm. pose proof (Z.div_mod n 128 ltac:(lia)) as Hd.
  destruct (Z.eqb_spec (n / 128) 0) as [E|E].
  - eapply (decodes_bind [_] []); [apply decodes_get|].
    assert (n mod 128 = n) as -> by lia.
    replace ((i =? 4) && negb (Z.land n 0x70 =? 0)) with false.
    2: { destruct (Z.eqb_spec i 4) as [->|]; [|done]. rewrite high70; [done|exact Hn]. }
    rewrite last7, small7 by lia. destruct (Z_le_gt_dec i 3) as [Hi3|Hi3].
    + rewrite (or_field acc n (7 * i) 7) by lia. apply decodes_ret.
    + assert (i = 4) as -> by lia. rewrite (or_field acc n (7 * 4) 4) by lia. apply decodes_ret.
  - assert (i <= 3).
    { destruct (Z_le_gt_dec i 3); [done|]. assert (i = 4) as -> by lia.
      change (2 ^ (32 - 7 * 4)) with 16 in Hn. rewrite Z.div_small in E; lia. }
    eapply (decodes_bind [_]); [apply decodes_get|].
    rewrite (proj2 (Z.eqb_neq i 4)) by lia. cbn [andb].
    rewrite more7, low7 by lia. rewrite (or_field acc _ (7 * i) 7) by lia.
    replace (acc + n * 2 ^ (7 * i)) with (acc + n mod 128 * 2 ^ (7 * i) + n / 128 * 2 ^ (7 * (i + 1))).
    2: { rewrite (Z.mul_add_distr_l 7 i 1), Z.pow_add_r by lia. change (2 ^ (7 * 1)) with 128. nia. }
    apply IH; [lia..| |].
    + rewrite (Z.mul_add_distr_l 7 i 1), Z.pow_add_r by lia. change (2 ^ (7 * 1)) with 128. nia.
    + split; [apply Z.div_pos; lia|]. apply Z.div_lt_upper_bound; [lia|].
      change 128 with (2 ^ 7). rewrite <- Z.pow_add_r by lia.
      replace (7 + (32 - 7 * (i + 1))) with (32 - 7 * i) by lia. lia.
Qed.

Lemma decodes_uleb n : 0 <= n < 2 ^ 32 -> decodes (uleb_code 5 n) number n.
Proof.
  intros Hn. replace n with (0 + n * 2 ^ (7 * 0)) at 2 by lia.
  apply decodes_number; cbn; lia.
Qed.

Definition signed_finish (r : Z * Z * Z) : rd Z :=
  let '(n, c, shift) := r in
  let n := if (shift <? 32) && negb (Z.land c 64 =? 0)
           then Z.lor n (u32 (Z.shiftl UINT32_MAX shift)) else n in
  rd_ret (i32 n).

(** The sign bits [signed_number] adds above [shift]. *)
Lemma sign_fill n shift :
  0 <= shift <= 32 -> 0 <= n < 2 ^ shift ->
  Z.lor n (u32 (Z.shiftl UINT32_MAX shift)) = u32 (n - 2 ^ shift).
Proof.
  intros Hs Hn. assert (2 ^ 32 = 2 ^ shift * 2 ^ (32 - shift)) as Hp
    by (rewrite <- Z.pow_add_r by lia; f_equal; lia).
  assert (0 < 2 ^ (32 - shift)) by (apply Z.pow_pos_nonneg; lia).
  replace (u32 (Z.shiftl UINT32_MAX shift)) with (Z.shiftl (2 ^ (32 - shift) - 1) shift).
  - rewrite lor_shift_add by lia. unfold u32, wrap. apply Z.mod_unique with (-1); nia.
  - unfold u32, wrap, UINT32_MAX. rewrite !Z.shiftl_mul_pow2 by lia.
    apply Z.mod_unique with (2 ^ shift - 1); nia.
Qed.

Lemma signed_last c acc shift :
  0 <= c < 128 -> 0 <= shift <= 21 \/ shift = 28 -> 0 <= acc < 2 ^ shift ->
  decodes [c] (do r <- signed_loop 1 acc shift; signed_finish r)
    (i32 (u32 (acc + (if c <? 64 then c else c - 128) * 2 ^ shift))).
Proof.
  intros Hc Hs Hacc file end_ p rest Hp Hf He. unfold rd_bind at 1. cbn [signed_loop].
  rewrite (proj2 (Z.leb_gt 35 shift)) by lia. unfold rd_bind at 1.
  rewrite (decodes_get c file end_ p rest Hp Hf He). rewrite last7, small7 by lia.
  cbn beta iota zeta delta [signed_finish rd_ret]. cbn [length].
  rewrite land64, testbit6, negb_involutive by lia. unfold rd_ret. do 2 f_equal.
  rewrite Z.leb_antisym.
  assert (2 ^ (shift + 7) = 2 ^ shift * 128) as Hp7 by (rewrite Z.pow_add_r by lia; done).
  assert (0 <= acc + c * 2 ^ shift < 2 ^ (shift + 7)) by nia.
  destruct (Z.ltb_spec (shift + 7) 32); cbn [andb].
  - rewrite (or_field acc c shift 7) by lia. destruct (c <? 64); cbn [negb].
    + now rewrite i32_mod.
    + rewrite sign_fill by lia. rewrite Hp7. do 2 f_equal. lia.
  - assert (shift = 28 \/ shift < 28) as [->|] by lia.
    + f_equal.
      assert (u32 (Z.shiftl c 28) = Z.shiftl (c mod 16) 28) as ->.
      { unfold u32, wrap. rewrite !Z.shiftl_mul_pow2 by lia. change (2 ^ 32) with (16 * 2 ^ 28).
        now rewrite Z.mul_mod_distr_r by lia. }
      rewrite lor_shift_add by lia. pose proof (Z.mod_pos_bound c 16 ltac:(lia)).
      unfold u32, wrap.
      pose proof (Z.div_mod c 16 ltac:(lia)). destruct (c <? 64).
      * apply Z.mod_unique with (c / 16); lia.
      * apply Z.mod_unique with (c / 16 - 8); lia.
    + lia.
Qed.

Lemma signed_step f c e acc shift a :
  0 <= c < 128 -> 0 <= shift <= 21 -> 0 <= acc < 2 ^ shift ->
  decodes e (do r <- signed_loop f (acc + c * 2 ^ shift) (shift + 7); signed_finish r) a ->
  decodes ((c + 128) :: e) (do r <- signed_loop (S f) acc shift; signed_finish r) a.
Proof.
  intros Hc Hs Hacc He file end_ p rest Hp Hf Hend.
  pose proof (decodes_bind [c + 128] e get
    (fun c => let n := Z.lor acc (u32 (Z.shiftl (Z.land c 127) shift)) in
              do r <- (if Z.land c 128 =? 0 then rd_ret (n, c, shift + 7)
                       else signed_loop f n (shift + 7)); signed_finish r) (c + 128) a
    (decodes_get _)) as H. cbn beta zeta in H.
  rewrite more7, low7, (or_field acc c shift 7) in H by lia.
  etransitivity; [|exact (H He file end_ p rest Hp Hf Hend)].
  unfold rd_bind. cbn [signed_loop].
  rewrite (proj2 (Z.leb_gt 35 shift)) by lia. unfold rd_bind.
  destruct (get file end_ p) as [[x q]|]; [|done]. cbv zeta. now destruct (Z.land x 128 =? 0).
Qed.

Lemma signed_more g f acc shift a e :
  decodes e (do r <- signed_loop f acc shift; signed_finish r) a ->
  decodes e (do r <- signed_loop (f + g) acc shift; signed_finish r) a.
Proof.
  intros H file end_ p rest Hp Hf He. specialize (H file end_ p rest Hp Hf He).
  rewrite <- H. unfold rd_bind.
  enough (forall f acc shift p r, signed_loop f acc shift file end_ p = Ok r ->
            signed_loop (f + g) acc shift file end_ p = Ok r) as Hm.
  { unfold rd_bind in H. destruct (signed_loop f acc shift file end_ p) as [r|] eqn:E; [|done].
    now rewrite (Hm _ _ _ _ _ E). }
  clear. induction f as [|f IH]; intros acc shift p r E; [done|]. cbn [signed_loop Nat.add] in *.
  split_if; [done|]. unfold rd_bind in *. destruct (get file end_ p) as [[x q]|]; [|done].
  cbv zeta in *. split_if; [done|]. now apply IH.
Qed.

Lemma sleb_last_value n :
  sleb_last n = true -> (if n mod 128 <? 64 then n mod 128 else n mod 128 - 128) = n.
Proof.
  intros H. pose proof (Z.div_mod n 128). unfold sleb_last in H. to_prop.
  destruct (Z.ltb_spec (n mod 128) 64); lia.
Qed.

Lemma decodes_signed g : forall acc shift n,
  1 <= Z.of_nat g -> shift = 35 - 7 * Z.of_nat g -> 0 <= shift -> 0 <= acc < 2 ^ shift ->
  - 2 ^ (31 - shift) <= n < 2 ^ (31 - shift) ->
  decodes (sleb_code g n) (do r <- signed_loop (S g) acc shift; signed_finish r)
    (i32 (u32 (acc + n * 2 ^ shift))).
Proof.
  induction g as [|g IH]; intros acc shift n Hg Hs Hs0 Hacc Hn; [lia|].
  pose proof (Z.mod_pos_bound n 128 ltac:(lia)) as Hm. pose proof (Z.div_mod n 128 ltac:(lia)) as Hd.
  cbn [sleb_code]. destruct (sleb_last n) eqn:E.
  - apply (signed_more (S g) 1). rewrite <- (sleb_last_value n E) at 2. apply signed_last; lia.
  - assert (shift <= 21).
    { destruct (Z_le_gt_dec shift 21); [done|]. assert (shift = 28) as -> by lia.
      change (2 ^ (31 - 28)) with 8 in Hn. unfold sleb_last in E. to_prop.
      assert (n / 128 = 0 \/ n / 128 = -1) as [|] by lia; lia. }
    apply signed_step; [lia..|].
    replace (acc + n * 2 ^ shift) with (acc + n mod 128 * 2 ^ shift + n / 128 * 2 ^ (shift + 7)).
    2: { rewrite Z.pow_add_r by lia. change (2 ^ 7) with 128. nia. }
    assert (2 ^ (31 - shift) = 128 * 2 ^ (31 - (shift + 7))).
    { change 128 with (2 ^ 7). rewrite <- Z.pow_add_r by lia. f_equal. lia. }
    apply IH; [lia..| |].
    + rewrite Z.pow_add_r by lia. change (2 ^ 7) with 128. nia.
    + split; [apply Z.div_le_lower_bound; lia|apply Z.div_lt_upper_bound; lia].
Qed.

Lemma decodes_sleb n : - 2 ^ 31 <= n < 2 ^ 31 -> decodes (sleb_code 5 n) signed_number n.
Proof.
  intros Hn. rewrite <- (i32_u32 n) at 2 by lia. replace n with (0 + n * 2 ^ 0) at 2 by lia.
  apply decodes_signed; cbn; lia.
Qed.

Lemma sleb_loop_fits f : forall b n,
  - 2 ^ (7 * Z.of_nat f - 1) <= n < 2 ^ (7 * Z.of_nat f - 1) -> (0 < f)%nat ->
  Z.of_nat (length b + f) <= SIZE_MAX -> sleb_loop f b n = Ok (b ++ sleb_code f n).
Proof.
  induction f as [|f IH]; intros b n Hn Hf Hb; [lia|]. cbn [sleb_loop sleb_code].
  rewrite land127, shiftr7, sleb_more. pose proof (Z.mod_pos_bound n 128).
  unfold byte. rewrite put_fits by (cbn; lia).
  destruct (sleb_last n) eqn:E; cbn [negb].
  - rewrite Z.lor_0_r, u8_small by lia. done.
  - rewrite lor128, u8_small by lia. pose proof (Z.div_mod n 128 ltac:(lia)).
    destruct f as [|f].
    { change (2 ^ (7 * Z.of_nat 1 - 1)) with 64 in Hn. unfold sleb_last in E. to_prop. lia. }
    assert (2 ^ (7 * Z.of_nat (S (S f)) - 1) = 128 * 2 ^ (7 * Z.of_nat (S f) - 1)).
    { change 128 with (2 ^ 7). rewrite <- Z.pow_add_r by lia. f_equal. lia. }
    rewrite IH; [now rewrite <- app_assoc| |lia|rewrite length_app; cbn; lia].
    split; [apply Z.div_le_lower_bound; lia|apply Z.div_lt_upper_bound; lia].
Qed.

(** ** Relocated values *)

(** The five 7-bit digits of a 32-bit value. *)
Lemma digits5 v :
  0 <= v < 2 ^ 32 ->
  let d i := v / 2 ^ (7 * i) mod 128 in
  v = d 0 + d 1 * 2 ^ 7 + d 2 * 2 ^ 14 + d 3 * 2 ^ 21 + v / 2 ^ 28 * 2 ^ 28.
Proof.
  intros Hv d. unfold d.
  assert (v / 2 ^ (7 * 2) = v / 2 ^ 7 / 128) as -> by now rewrite Z.div_div.
  assert (v / 2 ^ (7 * 3) = v / 2 ^ 7 / 128 / 128) as -> by now rewrite !Z.div_div.
  assert (v / 2 ^ 28 = v / 2 ^ 7 / 128 / 128 / 128) as -> by now rewrite !Z.div_div.
  change (2 ^ (7 * 0)) with 1. change (2 ^ (7 * 1)) with 128. change (2 ^ 7) with 128.
  rewrite Z.div_1_r. pose proof (Z.div_mod v 128). pose proof (Z.div_mod (v / 128) 128).
  pose proof (Z.div_mod (v / 128 / 128) 128). pose proof (Z.div_mod (v / 128 / 128 / 128) 128). lia.
Qed.

Lemma patch_low v i : u8 (Z.lor (Z.land (Z.shiftr v (7 * i)) 127) 128)
                      = Z.land (Z.shiftr v (7 * i)) 127 + 128.
Proof.
  rewrite land127. pose proof (Z.mod_pos_bound (Z.shiftr v (7 * i)) 128).
  rewrite lor128, u8_small by lia. done.
Qed.

(** The last byte of a padded LEB: the top four bits, sign extended or not. *)
Definition patch_top (signed : bool) (t : Z) : Z := if signed && (8 <=? t) then t + 0x70 else t.

Lemma patch_bytes_code kind v :
  0 <= v < 2 ^ 32 -> patch_raw kind = false ->
  let d i := v / 2 ^ (7 * i) mod 128 in
  patch_bytes kind v
  = [d 0 + 128; d 1 + 128; d 2 + 128; d 3 + 128;
     patch_top ((kind =? 1) || (kind =? 4)) (v / 2 ^ 28)].
Proof.
  intros Hv Hr d. unfold patch_bytes. rewrite Hr. cbn [map app].
  assert (0 <= v / 2 ^ 28 < 16) as Ht
    by (split; [apply Z.div_pos; lia|apply Z.div_lt_upper_bound; lia]).
  assert (u8 (Z.land (Z.shiftr v 28) 15) = v / 2 ^ 28) as ->.
  { rewrite Z.shiftr_div_pow2 by lia. change 15 with (2 ^ 4 - 1). rewrite land_ones_mod by lia.
    rewrite Z.mod_small, u8_small by lia. done. }
  rewrite !patch_low, !land127, !Z.shiftr_div_pow2 by lia. unfold d. do 4 f_equal.
  unfold patch_top. change (Z.land (v / 2 ^ 28) 8) with (Z.land (v / 2 ^ 28) (2 ^ 3)).
  rewrite land_bit, negb_involutive by lia.
  assert (Z.testbit (v / 2 ^ 28) 3 = (8 <=? v / 2 ^ 28)) as ->.
  { rewrite Z.testbit_eqb by lia. change (2 ^ 3) with 8. set (t := v / 2 ^ 28) in *.
    destruct (Z.leb_spec 8 t).
    - replace (t / 8) with 1; [done|]. apply Z.div_unique with (t - 8); lia.
    - rewrite Z.div_small by lia. done. }
  split_if; [|done]. change 0x70 with (Z.shiftl 7 4). rewrite (lor_shift_add _ 7 4) by lia. done.
Qed.

Lemma number_step f i acc c e a :
  0 <= c < 128 -> 0 <= i <= 3 -> 0 <= acc < 2 ^ (7 * i) ->
  decodes e (number_loop f (i + 1) (acc + c * 2 ^ (7 * i))) a ->
  decodes ((c + 128) :: e) (number_loop (S f) i acc) a.
Proof.
  intros Hc Hi Hacc He. eapply (decodes_bind [_]); [apply decodes_get|].
  rewrite (proj2 (Z.eqb_neq i 4)) by lia. cbn [andb].
  now rewrite more7, low7, (or_field acc c (7 * i) 7) by lia.
Qed.

Lemma number_last acc c :
  0 <= c < 16 -> 0 <= acc < 2 ^ 28 -> decodes [c] (number_loop 1 4 acc) (acc + c * 2 ^ 28).
Proof.
  intros Hc Hacc. eapply (decodes_bind [_] []); [apply decodes_get|].
  rewrite high70, last7, small7 by lia. cbn [Z.eqb Pos.eqb andb negb].
  rewrite (or_field acc c (7 * 4) 4) by lia. apply decodes_ret.
Qed.

Lemma patch_unsigned kind v :
  0 <= v < 2 ^ 32 -> patch_raw kind = false -> kind <> 1 -> kind <> 4 ->
  decodes (patch_bytes kind v) number v.
Proof.
  intros Hv Hr H1 H4. rewrite patch_bytes_code by done. cbv zeta.
  rewrite (proj2 (Z.eqb_neq kind 1)), (proj2 (Z.eqb_neq kind 4)) by done. cbn [orb patch_top andb].
  assert (0 <= v / 2 ^ 28 < 16) as Ht
    by (split; [apply Z.div_pos; lia|apply Z.div_lt_upper_bound; lia]).
  rewrite (digits5 v Hv) at 6. cbv zeta.
  pose proof (fun i => Z.mod_pos_bound (v / 2 ^ (7 * i)) 128 ltac:(lia)) as Hd.
  pose proof (Hd 0). pose proof (Hd 1). pose proof (Hd 2). pose proof (Hd 3). clear Hd.
  unfold number. do 4 (apply number_step; [lia|lia|lia|]).
  set (s := _ + _ * 2 ^ (7 * (0 + 1 + 1 + 1))).
  match goal with |- decodes _ _ ?x => replace x with (s + v / 2 ^ 28 * 2 ^ 28) by (subst s; lia) end.
  apply number_last; [lia|]. subst s. lia.
Qed.

Lemma patch_signed kind v :
  0 <= v < 2 ^ 32 -> kind = 1 \/ kind = 4 -> decodes (patch_bytes kind v) signed_number (i32 v).
Proof.
  intros Hv Hk. rewrite patch_bytes_code; [|done|by destruct Hk as [-> | ->]]. cbv zeta.
  replace ((kind =? 1) || (kind =? 4)) with true by (destruct Hk as [-> | ->]; done).
  assert (0 <= v / 2 ^ 28 < 16) as Ht
    by (split; [apply Z.div_pos; lia|apply Z.div_lt_upper_bound; lia]).
  pose proof (digits5 v Hv) as HD. cbv zeta in HD.
  pose proof (fun i => Z.mod_pos_bound (v / 2 ^ (7 * i)) 128 ltac:(lia)) as Hd.
  pose proof (Hd 0). pose proof (Hd 1). pose proof (Hd 2). pose proof (Hd 3). clear Hd.
  do 4 (apply (signed_step); [lia|lia|lia|]). apply (signed_more 1 1).
  set (s := _ + _ * 2 ^ (0 + 7 + 7 + 7)). change (0 + 7 + 7 + 7 + 7) with 28.
  set (t := v / 2 ^ 28) in *. set (c := patch_top true t).
  replace (i32 v) with (i32 (u32 (s + (if c <? 64 then c else c - 128) * 2 ^ 28))).
  - apply signed_last; [|by right|subst s; lia].
    unfold c, patch_top. cbn [andb]. split_if; to_prop; lia.
  - rewrite i32_mod. unfold c, patch_top. cbn [andb]. destruct (Z.leb_spec 8 t).
    + rewrite (proj2 (Z.ltb_ge _ _)) by lia. unfold i32, to_signed, wrap.
      replace ((s + (t + 112 - 128) * 2 ^ 28) mod 2 ^ 32) with (v mod 2 ^ 32); [done|].
      symmetry. rewrite (Z.mod_small v) by lia. symmetry.
      apply Z.mod_unique with (-1); subst s; lia.
    + rewrite (proj2 (Z.ltb_lt _ _)) by lia. f_equal. subst s. lia.
Qed.

(** ** Memory safety of readers

    [safe file end_ p c Q]: started at [p], the reader stays inside the object
    and before its end, fails only through [fail], and establishes [Q] of the
    value and the new position. *)
Definition safe {A} (file : bytes) (end_ p : Z) (c : rd A) (Q : A -> Z -> Prop) : Prop :=
  match c file end_ p with
  | Ok (a, p') => p <= p' <= end_ /\ Q a p'
  | Err (Failed _) => True
  | Err _ => False
  end.

Section Safety.
Context (file : bytes) (end_ : Z).
Context (Hbytes : Forall is_byte file) (Hend : end_ <= Z.of_nat (length file)).

Lemma safe_ret {A} (a : A) p (Q : A -> Z -> Prop) :
  p <= end_ -> Q a p -> safe file end_ p (rd_ret a) Q.
Proof. unfold safe, rd_ret. auto with lia. Qed.

Lemma safe_fail {A} m p (Q : A -> Z -> Prop) : safe file end_ p (rd_fail m) Q.
Proof. exact I. Qed.

Lemma safe_bind {A B} (c : rd A) (k : A -> rd B) p R Q :
  safe file end_ p c R ->
  (forall a p', p <= p' <= end_ -> R a p' -> safe file end_ p' (k a) Q) ->
  safe file end_ p (rd_bind c k) Q.
Proof.
  unfold safe, rd_bind. intros Hc Hk. destruct (c file end_ p) as [[a p']|[]]; [|done..].
  destruct Hc as [Hp HR]. specialize (Hk a p' Hp HR).
  destruct (k a file end_ p') as [[b q]|[]]; [|done..]. destruct Hk. split; [lia|done].
Qed.

Lemma safe_mono {A} (c : rd A) p (R Q : A -> Z -> Prop) :
  safe file end_ p c R -> (forall a p', p <= p' <= end_ -> R a p' -> Q a p') -> safe file end_ p c Q.
Proof.
  unfold safe. intros H HRQ. destruct (c file end_ p) as [[a p']|[]]; [|done..].
  destruct H as [Hp H]. eauto.
Qed.

Lemma safe_here p Q : p <= end_ -> Q p p -> safe file end_ p rd_here Q.
Proof. unfold safe, rd_here. auto with lia. Qed.
Lemma safe_end p Q : p <= end_ -> Q end_ p -> safe file end_ p rd_end Q.
Proof. unfold safe, rd_end. auto with lia. Qed.

Lemma safe_loop {S} (body : S -> rd S) (Inv : nat -> S -> Z -> Prop) n : forall s p,
  p <= end_ -> Inv n s p ->
  (forall m s p, p <= end_ -> Inv (Datatypes.S m) s p -> safe file end_ p (body s) (Inv m)) ->
  safe file end_ p (rd_loop n body s) (Inv O).
Proof.
  induction n as [|n IH]; intros s p Hp HI Hb; [now apply safe_ret|]. cbn [rd_loop].
  apply (safe_bind _ _ _ (Inv n)); [by apply Hb|]. intros s' p' Hp' HI'.
  apply IH; [lia|done|done].
Qed.

Lemma safe_get p : 0 <= p <= end_ -> safe file end_ p get (fun c p' => is_byte c /\ p' = p + 1).
Proof.
  intros Hp. unfold safe, get. destruct (Z.eqb_spec p end_); [done|].
  destruct (get_at_is_Some file p ltac:(lia)) as [c Hc]. rewrite Hc.
  apply get_at_Some in Hc as [_ Hc]. split; [lia|]. split; [|done].
  exact (proj1 (Forall_lookup _ _) Hbytes _ _ Hc).
Qed.

Lemma safe_take p n :
  0 <= p <= end_ -> 0 <= n -> safe file end_ p (take_ n) (fun q p' => q = p /\ p' = p + n).
Proof. intros Hp Hn. unfold safe, take_. destruct (Z.ltb_spec (end_ - p) n); [done|]. lia. Qed.

Lemma safe_slice q p n :
  0 <= q -> 0 <= n -> q + n <= end_ -> 0 <= p <= end_ ->
  safe file end_ p (rd_slice q n)
    (fun s p' => p' = p /\ Forall is_byte s /\ Z.of_nat (length s) = n).
Proof.
  intros Hq Hn Hqn Hp. unfold safe, rd_slice, slice.
  rewrite (proj2 (Z.leb_le 0 q)), (proj2 (Z.leb_le 0 n)), (proj2 (Z.leb_le (q + n) _)) by lia. cbn.
  split; [lia|]. split; [done|]. split; [by apply Forall_take, Forall_drop|].
  rewrite length_take, length_drop. lia.
Qed.

Lemma safe_number_loop f : forall i n p,
  0 <= p <= end_ -> 0 <= i -> 0 <= n < 2 ^ 32 ->
  safe file end_ p (number_loop f i n) (fun n' p' => 0 <= n' < 2 ^ 32 /\ p < p').
Proof.
  induction f as [|f IH]; intros i n p Hp Hi Hn; [exact I|]. cbn [number_loop].
  eapply safe_bind; [now apply safe_get|]. intros c p' Hp' [Hc ->]. cbn beta.
  split_if; [exact I|]. cbv zeta.
  assert (0 <= Z.lor n (u32 (Z.shiftl (Z.land c 127) (7 * i))) < 2 ^ 32).
  { apply (lor_range 32); [lia|lia|apply u32_range]. }
  split_if; [apply safe_ret; lia|].
  eapply safe_mono; [apply IH; lia|]. cbn. lia.
Qed.

Lemma safe_number p :
  0 <= p <= end_ -> safe file end_ p number (fun n p' => 0 <= n < 2 ^ 32 /\ p < p').
Proof. intros. apply safe_number_loop; lia. Qed.

Lemma safe_signed_loop f : forall n k p,
  0 <= p <= end_ -> 0 <= k <= 5 -> 5 - k < Z.of_nat f ->
  safe file end_ p (signed_loop f n (7 * k)) (fun _ p' => p < p').
Proof.
  induction f as [|f IH]; intros n k p Hp Hk Hf; [lia|].
  cbn [signed_loop]. destruct (Z.leb_spec 35 (7 * k)); [exact I|].
  eapply safe_bind; [now apply safe_get|]. intros c p' Hp' [Hc ->]. cbn beta zeta.
  split_if; [apply safe_ret; lia|]. replace (7 * k + 7) with (7 * (k + 1)) by lia.
  eapply safe_mono; [apply IH; lia|]. cbn. lia.
Qed.

Lemma i32_range x : - 2 ^ 31 <= i32 x < 2 ^ 31.
Proof.
  unfold i32, to_signed. pose proof (u32_range x). unfold u32 in *. change (32 - 1) with 31.
  destruct (Z.ltb_spec (wrap 32 x) (2 ^ 31)); lia.
Qed.

Lemma safe_signed_number p :
  0 <= p <= end_ ->
  safe file end_ p signed_number (fun n p' => - 2 ^ 31 <= n < 2 ^ 31 /\ p < p').
Proof.
  intros Hp. eapply safe_bind; [apply (safe_signed_loop 6 0 0); lia|].
  intros [[n c] shift] p' Hp' Hlt. apply safe_ret; [lia|]. split; [apply i32_range|lia].
Qed.

Lemma safe_name p : 0 <= p <= end_ ->
  safe file end_ p name (fun s p' => p < p' /\ 0 ∉ s).
Proof.
  intros Hp. eapply safe_bind; [now apply safe_number|]. intros n p1 Hp1 [Hn Hlt].
  eapply safe_bind; [apply safe_take; lia|]. intros q p2 Hp2 [-> ->].
  eapply safe_bind; [apply safe_slice; lia|]. intros s p3 Hp3 (-> & _ & _). cbn beta.
  destruct (one_of 0 s) eqn:E; [exact I|]. apply safe_ret; [lia|]. split; [lia|].
  intros Hin%list_elem_of_In. apply not_true_iff_false in E. apply E, existsb_exists.
  exists 0. split; [done|apply Z.eqb_refl].
Qed.

Lemma safe_checked_count size p : 0 <= p <= end_ -> 0 < size ->
  safe file end_ p (checked_count size)
    (fun n p' => 0 <= n < 2 ^ 32 /\ p < p' /\ n <= end_ - p' + 1).
Proof.
  intros Hp Hs. eapply safe_bind; [now apply safe_number|]. intros n p1 Hp1 [Hn Hlt].
  eapply safe_bind; [apply (safe_here p1 (fun q p' => q = p1 /\ p' = p1)); [lia|done]|].
  intros q p2 Hp2 [-> ->].
  eapply safe_bind; [apply (safe_end p1 (fun e p' => e = end_ /\ p' = p1)); [lia|done]|].
  intros e p3 Hp3 [-> ->]. cbn beta. split_if; [exact I|]. to_prop. apply safe_ret; lia.
Qed.

Lemma safe_limits p : 0 <= p <= end_ -> safe file end_ p limits (fun _ _ => True).
Proof.
  intros Hp. eapply safe_bind; [now apply safe_number|]. intros n p1 Hp1 [Hn Hlt]. cbn beta.
  split_if; [exact I|]. eapply safe_bind; [apply safe_number; lia|]. intros _ p2 Hp2 _.
  split_if; [apply safe_ret; [lia|done]|].
  eapply safe_bind; [apply safe_number; lia|]. intros _ p3 Hp3 _. apply safe_ret; [lia|done].
Qed.

Lemma safe_constant_loop f : forall n p,
  0 <= p <= end_ -> 0 <= n <= 9 -> 9 - n < Z.of_nat f ->
  safe file end_ p (constant_loop f n) (fun _ _ => True).
Proof.
  induction f as [|f IH]; intros n p Hp Hn Hf; [lia|]. cbn [constant_loop].
  eapply safe_bind; [now apply safe_get|]. intros c p' Hp' _. cbn beta.
  split_if; [apply safe_ret; [lia|done]|].
  destruct (Z.ltb_spec 9 (n + 1)); [exact I|]. apply IH; lia.
Qed.

Lemma safe_expression p : 0 <= p <= end_ -> safe file end_ p expression (fun _ _ => True).
Proof.
  intros Hp. eapply safe_bind; [now apply safe_get|]. intros op p1 Hp1 _. cbn beta.
  eapply (safe_bind _ _ _ (fun _ _ => True)).
  - split_if; [apply safe_constant_loop; lia|].
    split_if; [eapply safe_bind; [apply safe_take; lia|]; intros _ p2 Hp2 _; apply safe_ret; [lia|done]|].
    split_if; [eapply safe_bind; [apply safe_take; lia|]; intros _ p2 Hp2 _; apply safe_ret; [lia|done]|].
    exact I.
  - intros _ p2 Hp2 _. eapply safe_bind; [apply safe_get; lia|]. intros c p3 Hp3 _. cbn beta.
    split_if; [apply safe_ret; [lia|done]|exact I].
Qed.
End Safety.

(** ** Round trips *)

(** Every 32-bit value written by [uleb] is read back by [number], at any
    place of any object, and the read consumes exactly the bytes written. *)
Theorem uleb_number_roundtrip before n after :
  0 <= n < 2 ^ 32 -> Z.of_nat (length before) + 5 <= SIZE_MAX ->
  exists b, uleb before n = Ok b
    /\ forall end_, Z.of_nat (length b) <= end_ ->
       number (b ++ after) end_ (Z.of_nat (length before)) = Ok (n, Z.of_nat (length b)).
Proof.
  intros Hn Hb. exists (before ++ uleb_code 5 n). split.
  - apply uleb_loop_fits; lia.
  - intros end_ He. rewrite length_app in *. rewrite Nat2Z.inj_add in *.
    apply (decodes_uleb n Hn _ end_ _ after); [lia| |lia].
    rewrite Nat2Z.id, <- app_assoc. apply drop_app_length.
Qed.

Lemma uleb_number_roundtrip_witness :
  exists b, uleb [1; 2] 624485 = Ok b
    /\ forall end_, Z.of_nat (length b) <= end_ ->
       number (b ++ [9]) end_ 2 = Ok (624485, Z.of_nat (length b)).
Proof.
  apply (uleb_number_roundtrip [1; 2] 624485 [9]).
  - split; vm_compute; congruence.
  - vm_compute. congruence.
Defined.

(** Every signed 32-bit value written by [sleb] is read back by
    [signed_number]. *)
Theorem sleb_signed_roundtrip before n after :
  - 2 ^ 31 <= n < 2 ^ 31 -> Z.of_nat (length before) + 5 <= SIZE_MAX ->
  exists b, sleb before n = Ok b
    /\ forall end_, Z.of_nat (length b) <= end_ ->
       signed_number (b ++ after) end_ (Z.of_nat (length before)) = Ok (n, Z.of_nat (length b)).
Proof.
  intros Hn Hb. exists (before ++ sleb_code 5 n). split.
  - apply sleb_loop_fits; [cbn; lia|lia|lia].
  - intros end_ He. rewrite length_app in *. rewrite Nat2Z.inj_add in *.
    apply (decodes_sleb n Hn _ end_ _ after); [lia| |lia].
    rewrite Nat2Z.id, <- app_assoc. apply drop_app_length.
Qed.

Lemma sleb_signed_roundtrip_witness :
  exists b, sleb [] (-123456) = Ok b
    /\ forall end_, Z.of_nat (length b) <= end_ ->
       signed_number (b ++ []) end_ 0 = Ok (-123456, Z.of_nat (length b)).
Proof.
  apply (sleb_signed_roundtrip [] (-123456) []).
  - split; vm_compute; congruence.
  - vm_compute. congruence.
Defined.
