(* ===== verification/WasmObject.v ===== *)
(** * Reading WebAssembly objects (link_wasm.c, [parse])

    The object's structures and [parse] with all its loops: the section scan,
    the standard sections, the [linking] metadata (segments and symbols) and the
    final validation of symbol indices and types.

    Pointers into the object's bytes are positions in [o_file]; the vectors a
    count and a pointer describe are lists, so [nt], [nf], [ng], [nd], [ny],
    [ne], [ni] and [ns] are lengths.  [bodies] is [None] for [NULL].  Types are
    interned in the link's type table, which [parse] threads through. *)

From S2P Require Import Prelude WasmLeb.

(** ** Data *)
Record Section_ : Type := MkSection { s_id : Z; s_p : Z; s_n : Z }.
Record Import_ : Type := MkImport { im_module : bytes; im_name : bytes; im_kind : Z; im_type : Z }.
Record Symbol : Type := MkSymbol {
  y_name : option bytes; y_kind : Z; y_flags : Z;
  y_index : Z; y_offset : Z; y_size : Z; y_value : Z; y_type : Z
}.
Record Segment : Type := MkSegment { d_p : Z; d_n : Z; d_alignment : Z; d_address : Z }.
Record Export_ : Type := MkExport { e_name : bytes; e_kind : Z; e_index : Z }.
Record Object : Type := MkObject {
  o_file : bytes;
  o_sections : list Section_;
  o_imports : list Import_;
  o_nfimp : Z;
  o_ngimp : Z;
  o_types : list Z;
  o_functions : list Z;
  o_fmap : list Z;
  o_gmap : list Z;
  o_globals : list bytes;
  o_data : list Segment;
  o_symbols : list Symbol;
  o_exports : list Export_;
  o_bodies : option (list (Z * Z))    (* position and size of each body *)
}.

Definition len {A} (l : list A) : Z := Z.of_nat (length l).
Definition o_nf (o : Object) : Z := len (o_functions o).
Definition o_ng (o : Object) : Z := len (o_globals o).

(** [Object o = {0}] with its bytes. *)
Definition empty_object (data : bytes) : Object :=
  MkObject data [] [] 0 0 [] [] [] [] [] [] [] [] None.

Definition set_sections (o : Object) v :=
  MkObject (o_file o) v (o_imports o) (o_nfimp o) (o_ngimp o) (o_types o) (o_functions o)
    (o_fmap o) (o_gmap o) (o_globals o) (o_data o) (o_symbols o) (o_exports o) (o_bodies o).
Definition set_types (o : Object) v :=
  MkObject (o_file o) (o_sections o) (o_imports o) (o_nfimp o) (o_ngimp o) v (o_functions o)
    (o_fmap o) (o_gmap o) (o_globals o) (o_data o) (o_symbols o) (o_exports o) (o_bodies o).
Definition set_imports (o : Object) v nf ng :=
  MkObject (o_file o) (o_sections o) v nf ng (o_types o) (o_functions o)
    (o_fmap o) (o_gmap o) (o_globals o) (o_data o) (o_symbols o) (o_exports o) (o_bodies o).
Definition set_functions (o : Object) v :=
  MkObject (o_file o) (o_sections o) (o_imports o) (o_nfimp o) (o_ngimp o) (o_types o) v
    (o_fmap o) (o_gmap o) (o_globals o) (o_data o) (o_symbols o) (o_exports o) (o_bodies o).
Definition set_globals (o : Object) v :=
  MkObject (o_file o) (o_sections o) (o_imports o) (o_nfimp o) (o_ngimp o) (o_types o)
    (o_functions o) (o_fmap o) (o_gmap o) v (o_data o) (o_symbols o) (o_exports o) (o_bodies o).
Definition set_exports (o : Object) v :=
  MkObject (o_file o) (o_sections o) (o_imports o) (o_nfimp o) (o_ngimp o) (o_types o)
    (o_functions o) (o_fmap o) (o_gmap o) (o_globals o) (o_data o) (o_symbols o) v (o_bodies o).
Definition set_bodies (o : Object) v :=
  MkObject (o_file o) (o_sections o) (o_imports o) (o_nfimp o) (o_ngimp o) (o_types o)
    (o_functions o) (o_fmap o) (o_gmap o) (o_globals o) (o_data o) (o_symbols o) (o_exports o) v.
Definition set_data (o : Object) v :=
  MkObject (o_file o) (o_sections o) (o_imports o) (o_nfimp o) (o_ngimp o) (o_types o)
    (o_functions o) (o_fmap o) (o_gmap o) (o_globals o) v (o_symbols o) (o_exports o) (o_bodies o).
Definition set_symbols (o : Object) v :=
  MkObject (o_file o) (o_sections o) (o_imports o) (o_nfimp o) (o_ngimp o) (o_types o)
    (o_functions o) (o_fmap o) (o_gmap o) (o_globals o) (o_data o) v (o_exports o) (o_bodies o).
Definition set_maps (o : Object) fm gm :=
  MkObject (o_file o) (o_sections o) (o_imports o) (o_nfimp o) (o_ngimp o) (o_types o)
    (o_functions o) fm gm (o_globals o) (o_data o) (o_symbols o) (o_exports o) (o_bodies o).
Definition set_file (o : Object) v :=
  MkObject v (o_sections o) (o_imports o) (o_nfimp o) (o_ngimp o) (o_types o) (o_functions o)
    (o_fmap o) (o_gmap o) (o_globals o) (o_data o) (o_symbols o) (o_exports o) (o_bodies o).

Definition set_value (y : Symbol) v : Symbol :=
  MkSymbol (y_name y) (y_kind y) (y_flags y) (y_index y) (y_offset y) (y_size y) v (y_type y).
Definition set_type (y : Symbol) t : Symbol :=
  MkSymbol (y_name y) (y_kind y) (y_flags y) (y_index y) (y_offset y) (y_size y) (y_value y) t.
Definition set_alignment (d : Segment) a : Segment := MkSegment (d_p d) (d_n d) a (d_address d).
Definition set_address (d : Segment) a : Segment := MkSegment (d_p d) (d_n d) (d_alignment d) a.

(** [flags & mask] as a test. *)
Definition flag (flags mask : Z) : bool := negb (Z.land flags mask =? 0).
Definition is_local (flags : Z) : bool := Z.land flags 3 =? 2.

(** ** Readers at a place of the object *)

(** Runs [c] on the [n] bytes at [p]; the current reader does not move. *)
Definition rd_sub {A} (p n : Z) (c : rd A) : rd A := fun file _ q =>
  match c file (p + n) p with
  | Ok (a, _) => Ok (a, q)
  | Err e => Err e
  end.
(** [reader(s)] *)
Definition run_section {A} (file : bytes) (s : Section_) (c : rd A) : out A :=
  let? (a, _) := c file (s_p s + s_n s) (s_p s) in Ok a.

(** [while (r.p < r.end)]; each round reads at least one byte. *)
Fixpoint rd_while {S} (fuel : nat) (body : S -> rd S) (s : S) : rd S :=
  match fuel with
  | O => fun _ _ _ => Err Unfinished
  | Datatypes.S f =>
      do p <- rd_here;
      do e <- rd_end;
      if p <? e then do s <- body s; rd_while f body s else rd_ret s
  end.

(** ** The imports of an object *)
Fixpoint import_from (imports : list Import_) (kind index : Z) : out Import_ :=
  match imports with
  | [] => fail "invalid imported symbol index"
  | im :: rest =>
      if im_kind im =? kind then
        if index =? 0 then Ok im else import_from rest kind (index - 1)
      else import_from rest kind index
  end.
Definition import_at (o : Object) (kind index : Z) : out Import_ :=
  import_from (o_imports o) kind index.

Definition rd_lift {A} (c : out A) : rd A := fun _ _ p =>
  match c with Ok a => Ok (a, p) | Err e => Err e end.

(** ** The section scan *)
Definition parse_sections_body (cap : Z) (sections : list Section_) : rd (list Section_) :=
  do id <- get;
  do n <- number;
  do p <- take_ n;
  if len sections <? cap then rd_ret (sections ++ [MkSection id p n])
  else rd_lift (Err Undefined).

(** ** Standard sections *)
Fixpoint find_type (types : list bytes) (s : bytes) (at_ : Z) : Z :=
  match types with
  | [] => at_
  | t :: rest => if bytes_eqb t s then at_ else find_type rest s (at_ + 1)
  end.

Definition parse_type (st : list bytes * list Z) : rd (list bytes * list Z) :=
  let '(ltypes, types) := st in
  do start <- rd_here;
  do c <- get;
  if negb (c =? 0x60) then rd_fail "unsupported function type"
  else
    do k <- number;
    do_ take_ k;
    do k <- number;
    do_ take_ k;
    do p <- rd_here;
    do s <- rd_slice start (p - start);
    let at_ := find_type ltypes s 0 in
    let ltypes := if at_ =? len ltypes then ltypes ++ [s] else ltypes in
    rd_ret (ltypes, types ++ [at_]).

Definition parse_import (st : list Import_ * Z * Z) : rd (list Import_ * Z * Z) :=
  let '(imports, nfimp, ngimp) := st in
  do module <- name;
  do iname <- name;
  do kind <- get;
  if kind =? 0 then
    do type <- number;
    rd_ret (imports ++ [MkImport module iname kind type], u32 (nfimp + 1), ngimp)
  else if kind =? 1 then
    do c <- get;
    if negb (c =? 0x70) then rd_fail "unsupported table type"
    else do_ limits; rd_ret (imports ++ [MkImport module iname kind 0], nfimp, ngimp)
  else if kind =? 2 then
    do_ limits; rd_ret (imports ++ [MkImport module iname kind 0], nfimp, ngimp)
  else if kind =? 3 then
    do type <- get;
    do m <- get;
    if 1 <? m then rd_fail "invalid global mutability"
    else rd_ret (imports ++ [MkImport module iname kind type], nfimp, u32 (ngimp + 1))
  else rd_fail "unsupported import kind".

Definition parse_function (functions : list Z) : rd (list Z) :=
  do f <- number; rd_ret (functions ++ [f]).

Definition parse_global (globals : list bytes) : rd (list bytes) :=
  do p <- rd_here;
  do_ take_ 2;
  do_ expression;
  do q <- rd_here;
  do s <- rd_slice p (q - p);
  rd_ret (globals ++ [s]).

Definition parse_export (exports : list Export_) : rd (list Export_) :=
  do n <- name;
  do kind <- get;
  do index <- number;
  rd_ret (exports ++ [MkExport n kind index]).

Definition parse_body (bodies : list (Z * Z)) : rd (list (Z * Z)) :=
  do size <- number;
  do p <- take_ size;
  rd_ret (bodies ++ [(p, size)]).

Definition parse_segment (data : list Segment) : rd (list Segment) :=
  do flags <- number;
  do_ (if flags =? 2 then
         do m <- number;
         if m =? 0 then rd_ret tt else rd_fail "multiple memories unsupported"
       else if 1 <? flags then rd_fail "invalid data segment" else rd_ret tt);
  do_ (if flags =? 1 then rd_ret tt else expression);
  do n <- number;
  do p <- take_ n;
  rd_ret (data ++ [MkSegment p n 0 0]).

(** One standard section; the link's types and the object are the state. *)
Definition parse_section (st : list bytes * Object) (s : Section_) : out (list bytes * Object) :=
  let '(ltypes, o) := st in
  if (s_id s =? 0) || (s_id s =? 12) then Ok st
  else run_section (o_file o) s (
    do n <- checked_count 1;
    let count := Z.to_nat n in
    if s_id s =? 1 then
      do r <- rd_loop count parse_type (ltypes, []);
      rd_ret (fst r, set_types o (snd r))
    else if s_id s =? 2 then
      do r <- rd_loop count parse_import ([], o_nfimp o, o_ngimp o);
      let '(imports, nfimp, ngimp) := r in
      rd_ret (ltypes, set_imports o imports nfimp ngimp)
    else if s_id s =? 3 then
      do fs <- rd_loop count parse_function [];
      rd_ret (ltypes, set_functions o fs)
    else if s_id s =? 6 then
      do gs <- rd_loop count parse_global [];
      rd_ret (ltypes, set_globals o gs)
    else if s_id s =? 7 then
      do es <- rd_loop count parse_export [];
      rd_ret (ltypes, set_exports o es)
    else if s_id s =? 10 then
      if negb (n =? o_nf o) then rd_fail "function/code count mismatch"
      else
        do bs <- rd_loop count parse_body [];
        rd_ret (ltypes, set_bodies o (Some bs))
    else if s_id s =? 11 then
      do ds <- rd_loop count parse_segment [];
      rd_ret (ltypes, set_data o ds)
    else if (s_id s =? 8) || (s_id s =? 13) then
      rd_fail "start/tag sections unsupported in objects"
    else rd_ret (ltypes, o)).

Fixpoint parse_standard (st : list bytes * Object) (ss : list Section_) : out (list bytes * Object) :=
  match ss with
  | [] => Ok st
  | s :: rest => let? st := parse_section st s in parse_standard st rest
  end.

(** ** Linking metadata *)

(** One entry of the segment table (subsection 5): the state is the index of
    the segment and the segments. *)
Definition parse_segment_info (st : Z * list Segment) : rd (Z * list Segment) :=
  let '(i, data) := st in
  do_ name;
  do alignment <- number;
  match get_at data i with
  | None => rd_lift (Err Undefined)
  | Some d =>
      if 30 <? alignment then rd_fail "invalid segment alignment"
      else
        do flags <- number;
        if flag flags 2 then rd_fail "TLS unsupported"
        else rd_ret (i + 1, <[Z.to_nat i := set_alignment d alignment]> data)
  end.

(** One entry of the symbol table (subsection 8). *)
Definition parse_symbol (o : Object) (symbols : list Symbol) : rd (list Symbol) :=
  do kind <- get;
  do flags <- number;
  if (Z.land flags 3 =? 3) || flag flags 0x100 then rd_fail "common/TLS symbols unsupported"
  else if kind =? 1 then
    do n <- name;
    if flag flags 16 then rd_ret (symbols ++ [MkSymbol (Some n) kind flags 0 0 0 0 0])
    else
      do index <- number;
      do offset <- number;
      do size <- number;
      match get_at (o_data o) index with
      | None => rd_fail "invalid data symbol"
      | Some d =>
          if (d_n d <? offset) || (d_n d - offset <? size) then rd_fail "invalid data symbol"
          else rd_ret (symbols ++ [MkSymbol (Some n) kind flags index offset size 0 0])
      end
  else if kind =? 3 then
    do index <- number;
    rd_ret (symbols ++ [MkSymbol None kind flags index 0 0 0 0])
  else if (kind =? 0) || (kind =? 2) || (kind =? 5) then
    do index <- number;
    do n <- (if negb (flag flags 16) || flag flags 64 then name
             else do im <- rd_lift (import_at o (if kind =? 2 then 3 else if kind =? 5 then 1 else 0) index);
                  rd_ret (im_name im));
    rd_ret (symbols ++ [MkSymbol (Some n) kind flags index 0 0 0 0])
  else rd_fail "unsupported symbol kind".

(** [sizeof(Symbol)] on a 64-bit host. *)
Definition SYMBOL_SIZE : Z := 40.

(** One subsection of [linking]. *)
Definition parse_subsection (o : Object) : rd Object :=
  do kind <- get;
  do n <- number;
  do p <- take_ n;
  rd_sub p n (
    if kind =? 5 then
      do count <- number;
      if negb (count =? len (o_data o)) then rd_fail "segment metadata mismatch"
      else
        do r <- rd_loop (Z.to_nat count) parse_segment_info (0, o_data o);
        rd_ret (set_data o (snd r))
    else if kind =? 8 then
      do ny <- checked_count SYMBOL_SIZE;
      do ys <- rd_loop (Z.to_nat ny) (parse_symbol o) [];
      rd_ret (set_symbols o ys)
    else if kind =? 6 then
      do c <- number;
      if c =? 0 then rd_ret o
      else rd_fail "object constructor lists unsupported; emit explicit dyn_initialize"
    else rd_ret o).

(** One custom section; the state is the object and the flag [linking]. *)
Definition parse_custom (st : Object * bool) (s : Section_) : out (Object * bool) :=
  let '(o, linking) := st in
  if negb (s_id s =? 0) then Ok st
  else run_section (o_file o) s (
    do custom <- name;
    if negb (bytes_eqb custom (str "linking")) then rd_ret (o, linking)
    else
      do version <- number;
      if negb (version =? 2) then rd_fail "unsupported linking metadata version"
      else
        do o <- rd_while (S (length (o_file o))) parse_subsection o;
        rd_ret (o, true)).

Fixpoint parse_customs (st : Object * bool) (ss : list Section_) : out (Object * bool) :=
  match ss with
  | [] => Ok st
  | s :: rest => let? st := parse_custom st s in parse_customs st rest
  end.

(** The final check of one symbol, which also records the interned type of a
    function. *)
Definition check_symbol (o : Object) (y : Symbol) : out Symbol :=
  if (y_kind y =? 0) || (y_kind y =? 2) then
    let imports := if y_kind y =? 0 then o_nfimp o else o_ngimp o in
    let total := u32 (imports + (if y_kind y =? 0 then o_nf o else o_ng o)) in
    if (total <=? y_index y) || negb (Bool.eqb (flag (y_flags y) 16) (y_index y <? imports))
    then fail "invalid symbol index: %s"
    else if y_kind y =? 0 then
      let? type :=
        (if y_index y <? imports then let? im := import_at o 0 (y_index y) in Ok (im_type im)
         else match get_at (o_functions o) (y_index y - imports) with
              | Some t => Ok t
              | None => Err Undefined
              end) in
      if len (o_types o) <=? type then fail "invalid function type"
      else match get_at (o_types o) type with
           | Some t => Ok (set_type y t)
           | None => Err Undefined
           end
    else Ok y
  else Ok y.

Fixpoint check_symbols (o : Object) (ys : list Symbol) : out (list Symbol) :=
  match ys with
  | [] => Ok []
  | y :: rest =>
      let? y := check_symbol o y in
      let? rest := check_symbols o rest in
      Ok (y :: rest)
  end.

Definition MAGIC : bytes := [0; 97; 115; 109; 1; 0; 0; 0].

Definition parse (ltypes : list bytes) (data : bytes) : out (list bytes * Object) :=
  if (len data <? 8) || negb (bytes_eqb (firstn 8 data) MAGIC)
  then fail "%s is not a wasm32 linking object (bitcode unsupported)"
  else
    let cap := len data / 2 + 1 in
    let? (sections, _) := rd_while (S (length data)) (parse_sections_body cap) []
                            data (len data) 8 in
    let? (ltypes, o) := parse_standard (ltypes, set_sections (empty_object data) sections) sections in
    let? (o, linking) := parse_customs (o, false) sections in
    if negb (o_nf o =? 0) && (match o_bodies o with None => true | Some _ => false end)
    then fail "missing code section"
    else if negb linking then fail "%s lacks linking-v2 metadata"
    else
      let? ys := check_symbols o (o_symbols o) in
      let o := set_symbols o ys in
      Ok (ltypes, set_maps o (replicate (Z.to_nat (u32 (o_nfimp o + o_nf o))) 0)
                             (replicate (Z.to_nat (u32 (o_ngimp o + o_ng o))) 0)).

(** ** Well-formed objects *)
Definition in_file (file : bytes) (p n : Z) : Prop := 0 <= p /\ 0 <= n < 2 ^ 32 /\ p + n <= len file.

Definition segment_ok (file : bytes) (d : Segment) : Prop :=
  in_file file (d_p d) (d_n d) /\ 0 <= d_alignment d <= 30.

Definition defined (y : Symbol) : bool := negb (flag (y_flags y) 16).

(** What [parse] guarantees of a symbol before its final check. *)
Definition symbol_pre (data : list Segment) (y : Symbol) : Prop :=
  0 <= y_index y < 2 ^ 32
  /\ (y_kind y <> 3 -> is_Some (y_name y))
  /\ (y_kind y = 1 -> defined y = true ->
      exists d, get_at data (y_index y) = Some d
                /\ 0 <= y_offset y /\ 0 <= y_size y /\ y_offset y + y_size y <= d_n d).

Record object_wf (ntypes : Z) (o : Object) : Prop := {
  wf_bytes : Forall is_byte (o_file o);
  wf_sections : Forall (fun s => in_file (o_file o) (s_p s) (s_n s)) (o_sections o);
  wf_counts : 0 <= o_nfimp o < 2 ^ 32 /\ 0 <= o_ngimp o < 2 ^ 32;
  wf_imports : Forall (fun im => 0 <= im_type im < 2 ^ 32) (o_imports o);
  wf_types : Forall (fun t => 0 <= t < ntypes) (o_types o);
  wf_functions : Forall (fun f => 0 <= f < 2 ^ 32) (o_functions o);
  wf_data : Forall (segment_ok (o_file o)) (o_data o);
  wf_bodies : forall bs, o_bodies o = Some bs ->
              Forall (fun b => in_file (o_file o) (fst b) (snd b)) bs;
  wf_symbols : Forall (symbol_pre (o_data o)) (o_symbols o)
}.

(** What the final check adds: indices in range, imports where the flag says
    so, and an interned type for every function. *)
Definition symbol_checked (ntypes : Z) (o : Object) (y : Symbol) : Prop :=
  (y_kind y = 0 ->
     0 <= y_index y < u32 (o_nfimp o + o_nf o) /\ 0 <= y_type y < ntypes
     /\ flag (y_flags y) 16 = (y_index y <? o_nfimp o))
  /\ (y_kind y = 2 ->
     0 <= y_index y < u32 (o_ngimp o + o_ng o)
     /\ flag (y_flags y) 16 = (y_index y <? o_ngimp o)).

Definition types_ok (st : list bytes * list Z) : Prop :=
  Forall (fun t => 0 <= t < len (fst st)) (snd st).

Definition imports_ok (st : list Import_ * Z * Z) : Prop :=
  Forall (fun im => 0 <= im_type im < 2 ^ 32) (fst (fst st))
  /\ 0 <= snd (fst st) < 2 ^ 32 /\ 0 <= snd st < 2 ^ 32.

(** The error of a result is a reported one. *)
Definition reported {A} (r : out A) (Q : A -> Prop) : Prop :=
  match r with
  | Ok a => Q a
  | Err (Failed _) => True
  | Err _ => False
  end.

Lemma reported_bind {A B} (r : out A) (k : A -> out B) R Q :
  reported r R -> (forall a, R a -> reported (k a) Q) ->
  reported (match r with Ok a => k a | Err e => Err e end) Q.
Proof. destruct r as [a|[]]; cbn; auto. Qed.

Lemma reported_mono {A} (r : out A) (R Q : A -> Prop) :
  reported r R -> (forall a, R a -> Q a) -> reported r Q.
Proof. destruct r as [a|[]]; cbn; auto. Qed.

Lemma reported_section {A} file s (c : rd A) Q :
  safe file (s_p s + s_n s) (s_p s) c (fun a _ => Q a) -> reported (run_section file s c) Q.
Proof.
  unfold safe, run_section. destruct (c file _ _) as [[a p]|[]]; cbn; [|done..]. now intros [_ ?].
Qed.

Section Parsing.
Context (file : bytes) (end_ : Z).
Context (Hbytes : Forall is_byte file) (Hend : end_ <= Z.of_nat (length file)).

Lemma safe_loop_inv {S} (body : S -> rd S) (Inv : S -> Prop) n s p :
  0 <= p <= end_ -> Inv s ->
  (forall s p, 0 <= p <= end_ -> Inv s -> safe file end_ p (body s) (fun s' _ => Inv s')) ->
  safe file end_ p (rd_loop n body s) (fun s' _ => Inv s').
Proof.
  intros Hp HI Hb. eapply safe_mono.
  - apply (safe_loop file end_ body (fun _ s p => 0 <= p /\ Inv s) n s p); [lia|split; [lia|done]|].
    intros m s' p' Hp' [Hp0 HI']. eapply safe_mono; [apply Hb; [lia|done]|]. cbn. intros. split; [lia|done].
  - cbn. tauto.
Qed.

Lemma safe_while {S} (body : S -> rd S) (Inv : S -> Z -> Prop) fuel : forall s p,
  0 <= p <= end_ -> Inv s p -> end_ - p < Z.of_nat fuel ->
  (forall s p, 0 <= p < end_ -> Inv s p ->
     safe file end_ p (body s) (fun s' p' => Inv s' p' /\ p < p')) ->
  safe file end_ p (rd_while fuel body s) Inv.
Proof.
  induction fuel as [|f IH]; intros s p Hp HI Hf Hb; [lia|].
  assert (safe file end_ p (if p <? end_ then do s <- body s; rd_while f body s else rd_ret s) Inv);
    [|done].
  destruct (Z.ltb_spec p end_); [|split; [lia|done]].
  eapply safe_bind; [apply Hb; [lia|done]|].
  intros s' p' Hp' [HI' Hlt]. apply IH; [lia|done|lia|done].
Qed.

Lemma safe_here_eq p : 0 <= p <= end_ -> safe file end_ p rd_here (fun q p' => q = p /\ p' = p).
Proof. intros. apply safe_here; [lia|done]. Qed.

Ltac sb lem :=
  eapply safe_bind; [eapply lem; first [eassumption | lia]|cbn beta].
Ltac sret := apply safe_ret; [lia|].

Lemma safe_sections_body cap sections p :
  0 <= p < end_ -> 2 * len sections + 8 <= p -> end_ <= 2 * cap ->
  Forall (fun s => in_file file (s_p s) (s_n s)) sections ->
  safe file end_ p (parse_sections_body cap sections)
    (fun ss p' => (Forall (fun s => in_file file (s_p s) (s_n s)) ss /\ 2 * len ss + 8 <= p')
                  /\ p < p').
Proof.
  intros Hp Hlen Hcap HF. sb safe_get. intros id p1 Hp1 [_ ->].
  sb safe_number. intros n p2 Hp2 [Hn Hlt]. sb safe_take. intros q p3 Hp3 [-> ->].
  destruct (Z.ltb_spec (len sections) cap); [|lia].
  sret. split; [|lia]. unfold len in *. rewrite length_app. cbn. split; [|lia].
  apply Forall_app. split; [done|]. constructor; [|done]. unfold in_file, len. cbn. lia.
Qed.

Lemma safe_parse_type st p :
  0 <= p <= end_ -> types_ok st ->
  safe file end_ p (parse_type st) (fun st' _ => types_ok st' /\ prefix (fst st) (fst st')).
Proof.
  unfold types_ok. intros Hp Hst. destruct st as [ltypes types]. unfold parse_type.
  sb safe_here_eq. intros start p0 Hp0 [-> ->]. sb safe_get. intros c p1 Hp1 [_ ->].
  split_if; [exact I|]. sb safe_number. intros k p2 Hp2 [Hk Hlt]. sb safe_take. intros q p3 Hp3 [-> ->].
  sb safe_number. intros k2 p4 Hp4 [Hk2 Hlt2]. sb safe_take. intros q5 p5 Hp5 [-> ->].
  sb safe_here_eq. intros q6 p6 Hp6 [-> ->].
  eapply safe_bind; [apply (safe_slice file end_ Hbytes Hend p); lia|cbn beta].
  intros s p7 Hp7 (-> & _ & _). sret.
  assert (forall l a, a <= find_type l s a <= a + len l) as Hfind.
  { clear. induction l as [|t l IH]; intros a; cbn; [unfold len; cbn; lia|].
    split_if; [unfold len; cbn; lia|]. specialize (IH (a + 1)). unfold len in *. cbn. lia. }
  pose proof (Hfind ltypes 0). cbn in Hst. destruct (Z.eqb_spec (find_type ltypes s 0) (len ltypes)).
  - split; [|by exists [s]]. cbn. apply Forall_app. unfold len in *. rewrite length_app. cbn. split.
    + eapply Forall_impl; [exact Hst|]. cbn. lia.
    + constructor; [lia|done].
  - split; [|done]. cbn. apply Forall_app. split; [done|]. constructor; [lia|done].
Qed.

Lemma safe_parse_import st p :
  0 <= p <= end_ -> imports_ok st ->
  safe file end_ p (parse_import st) (fun st' _ => imports_ok st').
Proof.
  destruct st as [[imports nf] ng]. intros Hp (HF & Hnf & Hng). cbn in *. unfold parse_import.
  assert (forall im nf' ng', 0 <= im_type im < 2 ^ 32 -> 0 <= nf' < 2 ^ 32 -> 0 <= ng' < 2 ^ 32 ->
            imports_ok (imports ++ [im], nf', ng')) as Happ.
  { intros. split_and!; cbn; [|lia..]. apply Forall_app. split; [done|]. by constructor. }
  sb safe_name. intros m p1 Hp1 _. sb safe_name. intros iname p2 Hp2 _.
  sb safe_get. intros kind p3 Hp3 _.
  pose proof (u32_range (nf + 1)). pose proof (u32_range (ng + 1)).
  split_if; [sb safe_number; intros t p4 Hp4 [Ht _]; sret; apply Happ; cbn; lia|].
  split_if.
  { sb safe_get. intros c p4 Hp4 _. split_if; [exact I|].
    sb safe_limits. intros _ p5 Hp5 _. sret. apply Happ; cbn; lia. }
  split_if; [sb safe_limits; intros _ p5 Hp5 _; sret; apply Happ; cbn; lia|].
  split_if; [|exact I].
  sb safe_get. intros t p4 Hp4 [Ht _]. sb safe_get. intros c p5 Hp5 _. split_if; [exact I|].
  sret. unfold is_byte in Ht. apply Happ; cbn; lia.
Qed.

Lemma safe_parse_function fs p :
  0 <= p <= end_ -> Forall (fun f => 0 <= f < 2 ^ 32) fs ->
  safe file end_ p (parse_function fs) (fun fs' _ => Forall (fun f => 0 <= f < 2 ^ 32) fs').
Proof.
  intros Hp HF. sb safe_number. intros n p1 Hp1 [Hn _]. sret.
  apply Forall_app. split; [done|]. by constructor.
Qed.

Lemma safe_parse_global gs p :
  0 <= p <= end_ -> safe file end_ p (parse_global gs) (fun _ _ => True).
Proof.
  intros Hp. sb safe_here_eq. intros q p0 Hp0 [-> ->]. sb safe_take. intros q p1 Hp1 [-> ->].
  sb safe_expression. intros _ p2 Hp2 _. sb safe_here_eq. intros q p3 Hp3 [-> ->].
  eapply safe_bind; [apply (safe_slice file end_ Hbytes Hend p); lia|cbn beta].
  intros s p4 Hp4 _. now sret.
Qed.

Lemma safe_parse_export es p :
  0 <= p <= end_ -> safe file end_ p (parse_export es) (fun _ _ => True).
Proof.
  intros Hp. sb safe_name. intros n p1 Hp1 _. sb safe_get. intros k p2 Hp2 _.
  sb safe_number. intros i p3 Hp3 _. now sret.
Qed.

Lemma safe_parse_body bs p :
  0 <= p <= end_ -> Forall (fun b => in_file file (fst b) (snd b)) bs ->
  safe file end_ p (parse_body bs) (fun bs' _ => Forall (fun b => in_file file (fst b) (snd b)) bs').
Proof.
  intros Hp HF. sb safe_number. intros n p1 Hp1 [Hn _]. sb safe_take. intros q p2 Hp2 [-> ->]. sret.
  apply Forall_app. split; [done|]. constructor; [|done]. unfold in_file, len. cbn. lia.
Qed.

Lemma safe_parse_segment ds p :
  0 <= p <= end_ -> Forall (segment_ok file) ds ->
  safe file end_ p (parse_segment ds) (fun ds' _ => Forall (segment_ok file) ds').
Proof.
  intros Hp HF. sb safe_number. intros flags p1 Hp1 [Hn _].
  eapply (safe_bind _ _ _ _ _ (fun _ _ => True)); [|intros _ p2 Hp2 _].
  { split_if.
    - sb safe_number. intros m p2 Hp2 _. split_if; [now sret|exact I].
    - split_if; [exact I|now sret]. }
  eapply (safe_bind _ _ _ _ _ (fun _ _ => True)); [|intros _ p3 Hp3 _].
  { split_if; [now sret|]. apply safe_expression; first [assumption|lia]. }
  sb safe_number. intros n p4 Hp4 [Hn4 _]. sb safe_take. intros q p5 Hp5 [-> ->]. sret.
  apply Forall_app. split; [done|]. constructor; [|done].
  unfold segment_ok, in_file, len. cbn. lia.
Qed.

Lemma safe_segment_info data i p :
  0 <= p <= end_ -> 0 <= i < len data -> Forall (segment_ok file) data ->
  safe file end_ p (parse_segment_info (i, data))
    (fun st' _ => fst st' = i + 1 /\ Forall (segment_ok file) (snd st')
       /\ d_n <$> snd st' = d_n <$> data).
Proof.
  intros Hp Hi HF. unfold parse_segment_info. sb safe_name. intros n p1 Hp1 _.
  sb safe_number. intros a p2 Hp2 [Ha _].
  destruct (get_at_is_Some data i Hi) as [d Hd]. rewrite Hd. apply get_at_Some in Hd as [_ Hd].
  destruct (Z.ltb_spec 30 a); [exact I|]. sb safe_number. intros flags p3 Hp3 _.
  split_if; [exact I|]. sret. split; [done|].
  pose proof (proj1 (Forall_lookup _ _) HF _ _ Hd) as [Hin _]. split.
  - apply Forall_insert; [done|]. split; [done|]. cbn. lia.
  - cbn [snd]. rewrite list_fmap_insert.
    apply list_insert_id. now rewrite list_lookup_fmap, Hd.
Qed.

Lemma safe_parse_symbol o ys p :
  0 <= p <= end_ -> Forall (symbol_pre (o_data o)) ys ->
  safe file end_ p (parse_symbol o ys) (fun ys' _ => Forall (symbol_pre (o_data o)) ys').
Proof.
  intros Hp HF. unfold parse_symbol. sb safe_get. intros kind p1 Hp1 _.
  sb safe_number. intros flags p2 Hp2 _. split_if; [exact I|].
  assert (forall y, symbol_pre (o_data o) y -> Forall (symbol_pre (o_data o)) (ys ++ [y])) as Happ.
  { intros y Hy. apply Forall_app. split; [done|]. by constructor. }
  split_if; to_prop.
  { subst kind. sb safe_name. intros n p3 Hp3 _. split_if.
    - sret. apply Happ. repeat split; cbn; try lia; [done|]. unfold defined. cbn.
      intros _ Hu%negb_true_iff. congruence.
    - sb safe_number. intros index p4 Hp4 [Hi _]. sb safe_number. intros offset p5 Hp5 [Ho _].
      sb safe_number. intros size p6 Hp6 [Hs _].
      destruct (get_at (o_data o) index) as [d|] eqn:Hd; [|exact I]. split_if; [exact I|]. to_prop.
      sret. apply Happ. repeat split; cbn; [lia..|done|]. intros _ _. exists d. repeat split; [done|lia..]. }
  split_if; to_prop.
  { subst kind. sb safe_number. intros index p3 Hp3 [Hi _]. sret. apply Happ. by repeat split; cbn; try lia. }
  split_if; to_prop; [|exact I].
  sb safe_number. intros index p3 Hp3 [Hi _].
  eapply (safe_bind _ _ _ _ _ (fun _ _ => True)).
  - split_if; [eapply safe_mono; [apply safe_name; first [assumption|lia]|done]|].
    unfold safe, rd_bind, rd_lift. unfold import_at.
    enough (forall l k i, reported (import_from l k i) (fun _ => True)) as He.
    { specialize (He (o_imports o) (if kind =? 2 then 3 else if kind =? 5 then 1 else 0) index).
      destruct (import_from _ _ _) as [im|[]]; [|done..]. cbn. split; [lia|done]. }
    clear. induction l as [|im l IH]; intros k i; cbn; [done|]. repeat split_if; cbn; auto.
  - intros n p4 Hp4 _. sret. apply Happ. repeat split; cbn; [lia..|done|lia].
Qed.
End Parsing.

Lemma rd_sub_safe {A} file end_ q p n (c : rd A) (Q : A -> Prop) :
  0 <= q <= end_ -> safe file (p + n) p c (fun a _ => Q a) ->
  safe file end_ q (rd_sub p n c) (fun a p' => Q a /\ p' = q).
Proof.
  unfold safe, rd_sub. intros Hq. destruct (c file (p + n) p) as [[a p']|[]]; [|done..].
  intros [_ ?]. split; [lia|done].
Qed.

Lemma symbols_same_sizes data data' ys :
  d_n <$> data' = d_n <$> data -> Forall (symbol_pre data) ys -> Forall (symbol_pre data') ys.
Proof.
  intros Hm HF. eapply Forall_impl; [exact HF|]. intros y (Hi & Hn & Hd). repeat split; [lia..|done|].
  intros Hk Hdef. destruct (Hd Hk Hdef) as (d & Hg & Ho). apply get_at_Some in Hg as [Hr Hg].
  assert (length data' = length data) as Hl by (apply (f_equal length) in Hm; rewrite !length_fmap in Hm; done).
  destruct (lookup_lt_is_Some_2 data' (Z.to_nat (y_index y))) as [d' Hd']; [lia|].
  exists d'. split; [apply get_at_Some; split; [lia|done]|].
  replace (d_n d') with (d_n d); [done|].
  apply (f_equal (fun l => l !! Z.to_nat (y_index y))) in Hm.
  rewrite !list_lookup_fmap, Hg, Hd' in Hm. by injection Hm.
Qed.

(** The parts of an object that the second pass keeps. *)
Lemma wf_set_data n o ds :
  object_wf n o -> Forall (segment_ok (o_file o)) ds -> d_n <$> ds = d_n <$> o_data o ->
  object_wf n (set_data o ds).
Proof. intros [] Hds Hm. constructor; cbn; try done. by eapply symbols_same_sizes. Qed.

Lemma wf_set_symbols n o ys :
  object_wf n o -> Forall (symbol_pre (o_data o)) ys -> object_wf n (set_symbols o ys).
Proof. intros [] Hys. by constructor. Qed.

Definition same_input (o o' : Object) : Prop :=
  o_file o' = o_file o /\ o_sections o' = o_sections o.

Lemma safe_parse_subsection n end_ o p :
  object_wf n o -> end_ <= Z.of_nat (length (o_file o)) -> 0 <= p <= end_ ->
  safe (o_file o) end_ p (parse_subsection o)
    (fun o' p' => (object_wf n o' /\ same_input o o') /\ p < p').
Proof.
  intros Hwf Hend Hp. pose proof (wf_bytes _ _ Hwf) as Hb. unfold parse_subsection.
  eapply safe_bind; [by apply safe_get|]. intros kind p1 Hp1 [_ ->].
  eapply safe_bind; [apply safe_number; first [done|lia]|]. intros m p2 Hp2 [Hm _].
  eapply safe_bind; [apply safe_take; lia|]. intros q p3 Hp3 [-> ->].
  eapply safe_mono; [apply (rd_sub_safe _ _ _ _ _ _ (fun o' => object_wf n o' /\ same_input o o')); [lia|]|].
  2: { cbn. intros a p' Hp' [Ha ->]. split; [done|lia]. }
  assert (p2 + m <= Z.of_nat (length (o_file o))) as He by lia.
  split_if; [|split_if; [|split_if]].
  - eapply safe_bind; [apply safe_number; first [done|lia]|]. intros count p4 Hp4 [Hc _]. cbn beta.
    split_if; [exact I|]. to_prop.
    eapply safe_bind; [apply (safe_loop _ _ parse_segment_info (fun k st p => 0 <= p
        /\ (0 <= fst st /\ fst st = count - Z.of_nat k) /\ Forall (segment_ok (o_file o)) (snd st)
        /\ d_n <$> snd st = d_n <$> o_data o)); [lia| |]|].
    + split_and!; [lia|cbn; lia|cbn; lia|apply Hwf|done].
    + intros k [i data] p5 Hp5 (Hp5' & [Hi0 Hi] & HF & Hm5). cbn [fst snd] in *.
      assert (length data = length (o_data o)) as Hl by (apply (f_equal length) in Hm5; by rewrite !length_fmap in Hm5).
      eapply safe_mono; [apply safe_segment_info; try done; unfold len in *; lia|]. cbn.
      intros [i' d'] p6 Hp6 (Hi' & HF' & Hm'). cbn in *. split_and!; [lia|lia|lia|done|congruence].
    + intros [i data] p5 Hp5 (_ & _ & HF & Hm5). apply safe_ret; [lia|]. split; [|done]. by apply wf_set_data.
  - eapply safe_bind; [apply safe_checked_count; first [done|unfold SYMBOL_SIZE; lia]|].
    intros ny p4 Hp4 _. cbn beta.
    eapply safe_bind; [apply (safe_loop_inv _ _ (parse_symbol o) (Forall (symbol_pre (o_data o)))); [lia|done|]|].
    + intros ys p5 Hp5 HF. by apply safe_parse_symbol.
    + intros ys p5 Hp5 HF. apply safe_ret; [lia|]. split; [|done]. by apply wf_set_symbols.
  - eapply safe_bind; [apply safe_number; first [done|lia]|]. intros c p4 Hp4 _. cbn beta.
    split_if; [|exact I]. apply safe_ret; [lia|done].
  - apply safe_ret; [lia|done].
Qed.

Lemma reported_custom n o linking s :
  object_wf n o -> In s (o_sections o) ->
  reported (parse_custom (o, linking) s)
    (fun st => object_wf n (fst st) /\ same_input o (fst st)).
Proof.
  intros Hwf Hin. unfold parse_custom. split_if; [done|].
  pose proof (wf_sections _ _ Hwf) as HS. rewrite List.Forall_forall in HS.
  destruct (HS s Hin) as (Hs0 & Hsn & Hs). unfold len in Hs. pose proof (wf_bytes _ _ Hwf) as Hb.
  apply reported_section. eapply safe_bind; [apply safe_name; first [done|lia]|].
  intros custom p1 Hp1 _. cbn beta. split_if; [apply safe_ret; [lia|done]|].
  eapply safe_bind; [apply safe_number; first [done|lia]|]. intros v p2 Hp2 _. cbn beta.
  split_if; [exact I|].
  eapply safe_bind; [apply (safe_while _ _ parse_subsection
      (fun o' _ => object_wf n o' /\ same_input o o')); [lia|done|lia|]|].
  - intros o' p3 Hp3 [Hwf' [Hf Hs']]. rewrite <- Hf. eapply safe_mono;
      [apply (safe_parse_subsection n); [done|rewrite Hf; lia|lia]|].
    cbn. intros o2 p4 Hp4 [[? [Hf2 Hs2]] ?]. unfold same_input.
    split_and!; [done|congruence..|done].
  - intros o' p3 Hp3 [Hwf' Hf]. apply safe_ret; [lia|done].
Qed.

Lemma wf_mono n n' o : object_wf n o -> n <= n' -> object_wf n' o.
Proof. intros [] Hn. constructor; try done. eapply Forall_impl; [done|]. cbn. lia. Qed.

(** What the first pass keeps: a well-formed object without symbols, and the
    types interned before. *)
Definition standard_inv (file : bytes) (sections : list Section_) (ltypes0 : list bytes)
    (st : list bytes * Object) : Prop :=
  object_wf (len (fst st)) (snd st) /\ o_file (snd st) = file /\ o_sections (snd st) = sections
  /\ o_symbols (snd st) = [] /\ ltypes0 `prefix_of` fst st.

Lemma reported_standard_section file sections lt0 ltypes o s :
  standard_inv file sections lt0 (ltypes, o) -> In s sections ->
  reported (parse_section (ltypes, o) s) (standard_inv file sections lt0).
Proof.
  intros Hinv Hin. pose proof Hinv as (Hwf & Hf & Hs & Hy & Hpre). cbn [fst snd] in *.
  unfold parse_section. split_if; [done|]. rewrite Hf.
  pose proof (wf_bytes _ _ Hwf) as Hb. rewrite Hf in Hb.
  pose proof (wf_sections _ _ Hwf) as HS. rewrite Hs, Hf, List.Forall_forall in HS.
  destruct (HS s Hin) as (Hs0 & Hsn & Hse). unfold len in Hse.
  apply reported_section. eapply safe_bind; [apply safe_checked_count; first [done|lia]|].
  intros n p1 Hp1 (Hn & _ & _). cbn beta zeta.
  assert (forall o', object_wf (len ltypes) o' -> o_file o' = file -> o_sections o' = sections ->
            o_symbols o' = [] -> standard_inv file sections lt0 (ltypes, o')) as Hkeep.
  { intros. by split_and!. }
  destruct Hwf as [W1 W2 W3 W4 W5 W6 W7 W8 W9]. subst file. destruct (s_id s =? 1); [|destruct (s_id s =? 2);
    [|destruct (s_id s =? 3); [|destruct (s_id s =? 6); [|destruct (s_id s =? 7);
    [|destruct (s_id s =? 10); [|destruct (s_id s =? 11)]]]]]].
  - eapply safe_bind; [apply (safe_loop_inv _ _ parse_type
      (fun st => types_ok st /\ ltypes `prefix_of` fst st)); [lia| |]|].
    + split; [constructor|done].
    + intros st p2 Hp2 [Hok Hp]. eapply safe_mono; [by apply safe_parse_type|]. cbn.
      intros st' p3 Hp3 [Hok' Hp']. split; [done|]. by etrans.
    + intros [lt ts] p2 Hp2 [Hok Hp]. apply safe_ret; [lia|].
      split; [by constructor|]. split_and!; try done. all: cbn in *; by etrans.
  - eapply safe_bind; [apply (safe_loop_inv _ _ parse_import imports_ok); [lia|by split|]|].
    + intros. by apply safe_parse_import.
    + intros [[is_ nf] ng] p2 Hp2 (HF & Hnf & Hng). apply safe_ret; [lia|]. apply Hkeep; first [done|by constructor].
  - eapply safe_bind; [apply (safe_loop_inv _ _ parse_function (Forall (fun f => 0 <= f < 2 ^ 32))); [lia|done|]|].
    + intros. by apply safe_parse_function.
    + intros fs p2 Hp2 HF. apply safe_ret; [lia|]. apply Hkeep; first [done|by constructor].
  - eapply safe_bind; [apply (safe_loop_inv _ _ parse_global (fun _ => True)); [lia|done|]|].
    + intros. by apply safe_parse_global.
    + intros gs p2 Hp2 _. apply safe_ret; [lia|]. apply Hkeep; first [done|by constructor].
  - eapply safe_bind; [apply (safe_loop_inv _ _ parse_export (fun _ => True)); [lia|done|]|].
    + intros. by apply safe_parse_export.
    + intros es p2 Hp2 _. apply safe_ret; [lia|]. apply Hkeep; first [done|by constructor].
  - split_if; [exact I|]. eapply safe_bind; [apply (safe_loop_inv _ _ parse_body
      (Forall (fun b => in_file (o_file o) (fst b) (snd b)))); [lia|done|]|].
    + intros. by apply safe_parse_body.
    + intros bs p2 Hp2 HF. apply safe_ret; [lia|]. apply Hkeep; try done.
      constructor; try done. cbn. by intros ? [= <-].
  - eapply safe_bind; [apply (safe_loop_inv _ _ parse_segment (Forall (segment_ok (o_file o)))); [lia|done|]|].
    + intros. by apply safe_parse_segment.
    + intros ds p2 Hp2 HF. apply safe_ret; [lia|]. apply Hkeep; try done.
      constructor; try done. cbn. by rewrite Hy.
  - split_if; [exact I|]. apply safe_ret; [lia|]. apply Hkeep; first [done|by constructor].
Qed.

Lemma reported_standard file sections lt0 ss : forall st,
  standard_inv file sections lt0 st -> (forall s, In s ss -> In s sections) ->
  reported (parse_standard st ss) (standard_inv file sections lt0).
Proof.
  induction ss as [|s ss IH]; intros [lt o] Hinv Hin; [done|]. cbn [parse_standard].
  eapply reported_bind; [apply reported_standard_section; [done|apply Hin; by left]|].
  intros st Hst. apply IH; [done|]. intros. apply Hin. by right.
Qed.

Lemma reported_customs n ss : forall o linking,
  object_wf n o -> (forall s, In s ss -> In s (o_sections o)) ->
  reported (parse_customs (o, linking) ss)
    (fun st => object_wf n (fst st) /\ o_file (fst st) = o_file o).
Proof.
  induction ss as [|s ss IH]; intros o l Hwf Hin; [done|]. cbn [parse_customs].
  eapply reported_bind; [apply (reported_custom n); [done|apply Hin; by left]|].
  intros [o' l'] [Hwf' [Hf' Hs']]. cbn [fst] in *. rewrite <- Hf'.
  apply IH; [done|]. rewrite Hs'. intros. apply Hin. by right.
Qed.

Lemma import_type_reported n o i :
  object_wf n o -> reported (import_at o 0 i) (fun im => 0 <= im_type im).
Proof.
  intros Hwf. pose proof (wf_imports _ _ Hwf) as HF. unfold import_at. revert i HF.
  generalize (o_imports o). intros l.
  induction l as [|im l IH]; intros i HF; cbn; [done|]. inversion_clear HF as [|? ? Him HF'].
  repeat split_if; cbn; [lia|auto..].
Qed.

Lemma reported_check_symbol n o y :
  object_wf n o -> symbol_pre (o_data o) y ->
  reported (check_symbol o y)
    (fun y' => symbol_pre (o_data o) y' /\ symbol_checked n o y').
Proof.
  intros Hwf Hy. unfold check_symbol. destruct ((y_kind y =? 0) || (y_kind y =? 2)) eqn:Hk.
  2: { split; [done|]. split; intros; to_prop; lia. }
  cbv zeta. destruct (Z.eqb_spec (y_kind y) 0) as [E|E];
    (destruct (_ || negb _) eqn:Hbad; [exact I|]; apply orb_false_iff in Hbad as [Hi Hfl];
     apply Z.leb_gt in Hi; apply negb_false_iff, Bool.eqb_prop in Hfl).
  - eapply (reported_bind _ _ (fun t => 0 <= t)).
    + split_if.
      * eapply reported_bind; [by eapply import_type_reported|]. done.
      * to_prop. destruct (get_at_is_Some (o_functions o) (y_index y - o_nfimp o)) as [t Ht].
        { pose proof (wf_counts _ _ Hwf). destruct Hy as [Hy _]. unfold o_nf, len in Hi.
          pose proof (Z.mod_le (o_nfimp o + Z.of_nat (length (o_functions o))) (2 ^ 32)).
          unfold u32, wrap in Hi. lia. }
        rewrite Ht. apply get_at_Some in Ht as [_ Ht]. cbn.
        pose proof (proj1 (Forall_lookup _ _) (wf_functions _ _ Hwf) _ _ Ht). cbn in *. lia.
    + intros t Ht0. split_if; [exact I|]. to_prop.
      destruct (get_at_is_Some (o_types o) t) as [ty Ht]; [unfold len in *; lia|]. rewrite Ht.
      apply get_at_Some in Ht as [_ Ht].
      pose proof (proj1 (Forall_lookup _ _) (wf_types _ _ Hwf) _ _ Ht) as Hty. cbn beta in Hty.
      cbn. split; [exact Hy|]. split; cbn; [|lia]. intros _.
      split_and!; [apply Hy|done|lia|lia|done].
  - cbn. split; [done|]. split; [lia|]. intros _. split; [|done]. split; [apply Hy|done].
Qed.

Lemma reported_check_symbols n o ys :
  object_wf n o -> Forall (symbol_pre (o_data o)) ys ->
  reported (check_symbols o ys)
    (Forall (fun y => symbol_pre (o_data o) y /\ symbol_checked n o y)).
Proof.
  intros Hwf. induction ys as [|y ys IH]; intros HF; [by constructor|]. cbn [check_symbols].
  inversion_clear HF as [|? ? Hy HF']. eapply reported_bind; [by apply (reported_check_symbol n)|].
  intros y' Hy'. eapply reported_bind; [by apply IH|]. intros ys' Hys'. by constructor.
Qed.

Lemma safe_section_scan data :
  Forall is_byte data -> 8 <= len data ->
  safe data (len data) 8 (rd_while (S (length data)) (parse_sections_body (len data / 2 + 1)) [])
    (fun ss _ => Forall (fun s => in_file data (s_p s) (s_n s)) ss).
Proof.
  intros Hb Hlen. pose proof (Z.mul_succ_div_gt (len data) 2 ltac:(lia)) as Hcap.
  eapply safe_mono; [apply (safe_while _ _ _
    (fun ss p => Forall (fun s => in_file data (s_p s) (s_n s)) ss /\ 2 * len ss + 8 <= p))|].
  - lia.
  - by split.
  - unfold len. lia.
  - intros ss p Hp [HF Hl]. apply safe_sections_body; [done|unfold len; lia|lia|lia|lia|done].
  - by intros ss p _ [? _].
Qed.

Lemma len_replicate_u32 x : len (replicate (Z.to_nat (u32 x)) 0) = u32 x.
Proof. unfold len. rewrite length_replicate. pose proof (u32_range x). lia. Qed.

(** An object as [parse] returns it. *)
Definition parsed_object (ntypes : Z) (o : Object) : Prop :=
  object_wf ntypes o
  /\ Forall (symbol_checked ntypes o) (o_symbols o)
  /\ len (o_fmap o) = u32 (o_nfimp o + o_nf o) /\ len (o_gmap o) = u32 (o_ngimp o + o_ng o).

(** C21: for every byte sequence, [parse] stays inside the object and its
    vectors, terminates, and either reports an error or returns an object whose
    sections, bodies and segments lie inside the file, whose types are interned
    in the link's table, whose data symbols lie inside their segments and whose
    function and global symbols have indices in range. *)
Theorem parse_memory_safe ltypes data :
  Forall is_byte data ->
  reported (parse ltypes data)
    (fun r => parsed_object (len (fst r)) (snd r) /\ o_file (snd r) = data
              /\ ltypes `prefix_of` fst r).
Proof.
  intros Hb. unfold parse. destruct (_ || negb _) eqn:Hm; [exact I|].
  apply orb_false_iff in Hm as [Hlen _]. apply Z.ltb_ge in Hlen. cbv zeta.
  pose proof (safe_section_scan data Hb Hlen) as Hw. unfold safe in Hw.
  destruct (rd_while _ _ _ _ _ _) as [[sections q]|[]]; [|done..]. destruct Hw as [_ HS].
  eapply reported_bind.
  { apply (reported_standard data sections ltypes); [|done].
    split_and!; cbn; done. }
  intros [lt o] (Hwf & Hf & Hs & Hy & Hpre). cbn [fst snd] in *.
  eapply reported_bind; [apply (reported_customs (len lt)); [done|by rewrite Hs]|].
  intros [o' linking] [Hwf' Hf']. cbn [fst] in *.
  destruct (negb _ && _); [exact I|]. destruct linking; [|exact I]. cbn [negb].
  eapply reported_bind; [apply (reported_check_symbols (len lt)); [done|apply Hwf']|].
  intros ys Hys. cbn. apply Forall_and in Hys as [Hys1 Hys2].
  split; [split; [|split; [|split]]|split].
  - destruct Hwf'. by constructor.
  - exact Hys2.
  - apply len_replicate_u32.
  - apply len_replicate_u32.
  - cbn. congruence.
  - done.
Qed.

(** An object with one type, one function [main] with an empty body, and its
    symbol. *)
Definition sample_object : bytes :=
  MAGIC ++ [1; 4; 1; 0x60; 0; 0] ++ [3; 2; 1; 0] ++ [10; 4; 1; 2; 0; 0xb]
  ++ [0; 20; 7] ++ str "linking" ++ [2; 8; 9; 1; 0; 0; 0; 4] ++ str "main".

Lemma parse_memory_safe_witness :
  reported (parse [] sample_object)
    (fun r => parsed_object (len (fst r)) (snd r) /\ o_file (snd r) = sample_object
              /\ [] `prefix_of` fst r)
  /\ exists r, parse [] sample_object = Ok r.
Proof.
  split.
  - apply (parse_memory_safe [] sample_object). unfold is_byte. apply (bool_decide_unpack _). vm_compute. exact I.
  - eexists. vm_compute. reflexivity.
Defined.
