(* ===== verification/WasmLink.v ===== *)
(** * The WebAssembly linker (link_wasm.c)

    Symbol resolution, relocation, archive member selection, memory layout,
    index assignment and the emitted module: everything in
    src/src/link_wasm.c from [definition] to [dyn_link_wasm_objects].

    The link's objects are mutated in place by the C code; here the link is a
    value threaded through the phases, and a pointer to a symbol is its object
    and symbol index.  Input files are their contents, and the result is the
    bytes handed to [backend_write_object]. *)

From S2P Require Import Prelude WasmLeb WasmObject.

Record Link : Type := MkLink {
  l_objects : list Object;
  l_types : list bytes;
  l_imports : list Import_;
  l_allowed : list bytes;
  l_exports : list Export_
}.
Definition set_objects (l : Link) v := MkLink v (l_types l) (l_imports l) (l_allowed l) (l_exports l).
Definition set_ltypes (l : Link) v := MkLink (l_objects l) v (l_imports l) (l_allowed l) (l_exports l).
Definition set_limports (l : Link) v := MkLink (l_objects l) (l_types l) v (l_allowed l) (l_exports l).

(** An access to an element that must exist. *)
Definition at_ {A} (l : list A) (i : Z) : out A :=
  match get_at l i with Some x => Ok x | None => Err Undefined end.
Definition put_at {A} (l : list A) (i : Z) (x : A) : out (list A) :=
  match set_at l i x with Some l' => Ok l' | None => Err Undefined end.

(** [for (i = first; n rounds; i++)] *)
Fixpoint for_ {S} (n : nat) (i : Z) (body : Z -> S -> out S) (s : S) : out S :=
  match n with
  | O => Ok s
  | Datatypes.S n' => let? s := body i s in for_ n' (i + 1) body s
  end.

(** ** Symbols *)
Definition loc : Type := Z * Z.   (* object, symbol *)

Fixpoint index_symbols (k i : Z) (ys : list Symbol) : list (loc * Symbol) :=
  match ys with
  | [] => []
  | y :: rest => ((k, i), y) :: index_symbols k (i + 1) rest
  end.
Fixpoint index_objects (k : Z) (os : list Object) : list (loc * Symbol) :=
  match os with
  | [] => []
  | o :: rest => index_symbols k 0 (o_symbols o) ++ index_objects (k + 1) rest
  end.
(** Every symbol of the link, in the order of the two nested loops. *)
Definition all_symbols (l : Link) : list (loc * Symbol) := index_objects 0 (l_objects l).

Definition weak (y : Symbol) : bool := flag (y_flags y) 1.

(** The candidates [definition] does not skip. *)
Definition defines (n : bytes) (v : Symbol) : bool :=
  negb (flag (y_flags v) 16 || is_local (y_flags v))
  && match y_name v with Some m => bytes_eqb n m | None => false end.

Fixpoint definition_loop (n : bytes) (kind : Z) (vs : list (loc * Symbol))
    (best : option (loc * Symbol)) : out (option (loc * Symbol)) :=
  match vs with
  | [] => Ok best
  | (p, v) :: rest =>
      if negb (defines n v) then definition_loop n kind rest best
      else if negb (y_kind v =? kind) then fail "symbol kind mismatch: %s"
      else
        match best with
        | Some (_, b) =>
            if negb (weak b) && negb (weak v) then fail "duplicate symbol: %s"
            else definition_loop n kind rest (if negb (weak v) then Some (p, v) else best)
        | None => definition_loop n kind rest (Some (p, v))
        end
  end.
Definition definition (l : Link) (p : loc) (s : Symbol) : out (option (loc * Symbol)) :=
  match y_name s with
  | None => Ok (Some (p, s))
  | Some n =>
      if is_local (y_flags s) then Ok (Some (p, s))
      else definition_loop n (y_kind s) (all_symbols l) None
  end.

Definition mapped_type (o : Object) (i : Z) : out Z :=
  if len (o_types o) <=? i then fail "invalid type index" else at_ (o_types o) i.

Fixpoint find_import (is_ : list Import_) (im : Import_) (i : Z) : option (Z * Import_) :=
  match is_ with
  | [] => None
  | m :: rest =>
      if bytes_eqb (im_module im) (im_module m) && bytes_eqb (im_name im) (im_name m)
      then Some (i, m) else find_import rest im (i + 1)
  end.
Definition imported (l : Link) (o : Object) (y : Symbol) : out (Z * Link) :=
  let? im := import_at o 0 (y_index y) in
  match y_name y with
  | None => Err Undefined
  | Some n =>
      if negb (existsb (bytes_eqb n) (l_allowed l)) then fail "undefined symbol: %s"
      else
        let? type := mapped_type o (im_type im) in
        match find_import (l_imports l) im 0 with
        | Some (i, m) =>
            if negb (type =? im_type m) then fail "import type mismatch: %s" else Ok (i, l)
        | None =>
            Ok (len (l_imports l),
                set_limports l (l_imports l ++ [MkImport (im_module im) (im_name im) (im_kind im) type]))
        end
  end.

(** ** Relocation *)

(** The bytes at [p] replaced by [bs]. *)
Definition splice (file : bytes) (p : Z) (bs : bytes) : out bytes :=
  if (0 <=? p) && (p + len bs <=? len file)
  then Ok (firstn (Z.to_nat p) file ++ bs ++ skipn (Z.to_nat p + length bs) file)
  else Err Undefined.

Definition patch (file : bytes) (s : Section_) (off kind value : Z) : out bytes :=
  let n := if patch_raw kind then 4 else 5 in
  if (s_n s <? off) || (s_n s - off <? n) then fail "relocation outside section"
  else splice file (s_p s + off) (patch_bytes kind value).

Definition one_of_kinds (kind : Z) (kinds : list Z) : bool := existsb (Z.eqb kind) kinds.

(** The fields of one relocation entry: kind, offset, index and addend. *)
Definition read_relocation : rd (Z * Z * Z * Z) :=
  do kind <- get;
  do off <- number;
  do index <- number;
  if one_of_kinds kind [3; 4; 5; 8; 9]
  then do add <- signed_number; rd_ret (kind, off, index, add)
  else rd_ret (kind, off, index, 0).

Definition relocation_value (o : Object) (kind index : Z) : out Z :=
  if kind =? 6 then mapped_type o index
  else if len (o_symbols o) <=? index then fail "invalid relocation symbol"
  else
    let? y := at_ (o_symbols o) index in
    let value := y_value y in
    if one_of_kinds kind [0; 26] && negb (y_kind y =? 0) then fail "invalid function relocation"
    else if one_of_kinds kind [3; 4; 5] && negb (y_kind y =? 1) then fail "invalid memory relocation"
    else if one_of_kinds kind [7; 13] && negb (y_kind y =? 2) then fail "invalid global relocation"
    else if (kind =? 20) && negb (y_kind y =? 5) then fail "invalid table number relocation"
    else if one_of_kinds kind [1; 2] then
      if negb (y_kind y =? 0) then fail "invalid table relocation" else Ok (u32 (value + 1))
    else if negb (one_of_kinds kind [0; 3; 4; 5; 7; 13; 20; 26])
    then fail "unsupported relocation type %u"
    else Ok value.

(** The payload range of function or segment [j]. *)
Definition payload (o : Object) (dst : Section_) (j : Z) : out (Z * Z) :=
  if s_id dst =? 10 then
    match o_bodies o with Some bs => at_ bs j | None => Err Undefined end
  else let? d := at_ (o_data o) j in Ok (d_p d, d_n d).

Fixpoint contained_loop (n : nat) (o : Object) (dst : Section_) (off width j : Z) : out bool :=
  match n with
  | O => Ok false
  | S n' =>
      let? (start, size) := payload o dst j in
      let begin := u64 (start - s_p dst) in
      if (begin <=? off) && (off - begin <=? size) && (width <=? size - (off - begin))
      then Ok true else contained_loop n' o dst off width (j + 1)
  end.
Definition contained (o : Object) (dst : Section_) (off width : Z) : out bool :=
  contained_loop (if s_id dst =? 10 then length (o_functions o) else length (o_data o))
    o dst off width 0.

Definition apply_relocation (o : Object) (dst : Section_) (kind off index add : Z) : out Object :=
  let? value := relocation_value o kind index in
  let width := if patch_raw kind then 4 else 5 in
  let? inside := contained o dst off width in
  if negb inside then fail "relocation outside function/data payload"
  else
    let? file := patch (o_file o) dst off kind (u32 (value + u32 add)) in
    Ok (set_file o file).

(** The entries are read from the object's bytes as they are being patched. *)
Fixpoint relocate_entries (n : nat) (o : Object) (dst : Section_) (end_ p : Z) : out Object :=
  match n with
  | O => Ok o
  | S n' =>
      let? ((kind, off, index, add), p) := read_relocation (o_file o) end_ p in
      let? o := apply_relocation o dst kind off index add in
      relocate_entries n' o dst end_ p
  end.

Definition relocate_section (o : Object) (s : Section_) : out Object :=
  if negb (s_id s =? 0) then Ok o
  else
    let end_ := s_p s + s_n s in
    let? (custom, p) := name (o_file o) end_ (s_p s) in
    if negb (bytes_eqb (firstn 6 custom) (str "reloc.")) then Ok o
    else
      let? (target, p) := number (o_file o) end_ p in
      let? (n, p) := number (o_file o) end_ p in
      if len (o_sections o) <=? target then fail "invalid relocation section"
      else
        let? dst := at_ (o_sections o) target in
        if s_id dst =? 0 then Ok o
        else if negb (s_id dst =? 10) && negb (s_id dst =? 11)
        then fail "unsupported relocation target"
        else relocate_entries (Z.to_nat n) o dst end_ p.

Fixpoint relocate_sections (o : Object) (ss : list Section_) : out Object :=
  match ss with
  | [] => Ok o
  | s :: rest => let? o := relocate_section o s in relocate_sections o rest
  end.
Definition relocate (o : Object) : out Object := relocate_sections o (o_sections o).

(** ** Archives *)
Fixpoint all_spaces (p : bytes) : bool :=
  match p with [] => true | c :: rest => (c =? 32) && all_spaces rest end.
Fixpoint decimal_loop (p : bytes) (value : Z) (seen : bool) : out Z :=
  match p with
  | [] => if seen then Ok value else fail "invalid archive size"
  | c :: rest =>
      if c =? 32 then
        if all_spaces rest then if seen then Ok value else fail "invalid archive size"
        else fail "invalid archive size"
      else if (c <? 48) || (57 <? c) || ((SIZE_MAX - (c - 48)) / 10 <? value)
      then fail "invalid archive size"
      else decimal_loop rest (value * 10 + (c - 48)) true
  end.
Definition decimal (p : bytes) : out Z := decimal_loop p 0 false.

(** [sizeof(Object)] on a 64-bit host. *)
Definition OBJECT_SIZE : Z := 176.
Definition append_object (l : Link) (o : Object) : out Link :=
  if len (l_objects l) =? SIZE_MAX / OBJECT_SIZE then fail "too many input objects"
  else Ok (set_objects l (l_objects l ++ [o])).

Definition parse_into (l : Link) (data : bytes) : out (Link * Object) :=
  let? (types, o) := parse (l_types l) data in Ok (set_ltypes l types, o).

(** The [n] bytes at [p] of the file, which the caller has checked. *)
Definition bytes_at (data : bytes) (p n : Z) : out bytes :=
  match slice data p n with Some s => Ok s | None => Err Undefined end.

Definition ARCH : bytes := str "!<arch>" ++ [10].
Definition has_prefix (p s : bytes) : bool := bytes_eqb (firstn (length p) s) p.

(** One archive member: the state is the link, the candidates (in order) and
    the offset. *)
Definition archive_member (data : bytes) (l : Link) (candidates : list Object) (offset : Z)
    : out (Link * list Object * Z) :=
  let length_ := len data in
  if length_ - offset <? 60 then fail "invalid archive member in %s"
  else
    let? header := bytes_at data offset 60 in
    if negb (bytes_eqb (skipn 58 header) [96; 10]) then fail "invalid archive member in %s"
    else
      let? bytes_ := decimal (firstn 10 (skipn 48 header)) in
      let offset := offset + 60 in
      if length_ - offset <? bytes_ then fail "truncated archive %s"
      else
        let metadata :=
          ((cstr_get header =? 47) && ((cstr_get (skipn 1 header) =? 32) || (cstr_get (skipn 1 header) =? 47)))
          || has_prefix (str "__.SYMDEF") header || has_prefix (str "/SYM64/") header in
        let? (metadata, member, object_size) :=
          (if has_prefix (str "#1/") header then
             let? namesize := decimal (firstn 13 (skipn 3 header)) in
             if bytes_ <? namesize then fail "invalid BSD archive name"
             else
               let? m := (if 9 <=? namesize then
                            let? start := bytes_at data offset 9 in
                            Ok (metadata || bytes_eqb start (str "__.SYMDEF"))
                          else Ok metadata) in
               Ok (m, offset + namesize, bytes_ - namesize)
           else Ok (metadata, offset, bytes_)) in
        let? (l, candidates) :=
          (if negb metadata then
             let? object := bytes_at data member object_size in
             let? (l, o) := parse_into l object in
             Ok (l, candidates ++ [o])
           else Ok (l, candidates)) in
        let offset := offset + bytes_ in
        if Z.odd offset then
          if length_ <=? offset then fail "missing archive padding"
          else Ok (l, candidates, offset + 1)
        else Ok (l, candidates, offset).

(** [while (offset < length)]; a member takes at least sixty bytes. *)
Fixpoint archive_loop (fuel : nat) (data : bytes) (l : Link) (candidates : list Object) (offset : Z)
    : out (Link * list Object) :=
  match fuel with
  | O => Err Unfinished
  | S f =>
      if offset <? len data then
        let? (l, candidates, offset) := archive_member data l candidates offset in
        archive_loop f data l candidates offset
      else Ok (l, candidates)
  end.

(** One input file; [read_file] rejects files shorter than eight bytes. *)
Definition input (st : Link * list Object) (data : bytes) : out (Link * list Object) :=
  let '(l, candidates) := st in
  if len data <? 8 then fail "invalid object %s"
  else if negb (has_prefix ARCH data) then
    let? (l, o) := parse_into l data in
    let? l := append_object l o in
    Ok (l, candidates)
  else archive_loop (S (length data)) data l candidates 8.

Fixpoint read_inputs (st : Link * list Object) (files : list bytes) : out (Link * list Object) :=
  match files with
  | [] => Ok st
  | f :: rest => let? st := input st f in read_inputs st rest
  end.

(** Does candidate [c] define a name? *)
Definition candidate_defines (c : Object) (n : bytes) : bool :=
  existsb (defines n) (o_symbols c).

(** The nested loops that look for an unresolved symbol the candidate defines;
    they stop at the first. *)
Fixpoint needed_loop (l : Link) (c : Object) (vs : list (loc * Symbol)) : out bool :=
  match vs with
  | [] => Ok false
  | (p, y) :: rest =>
      match y_name y with
      | Some n =>
          if negb (flag (y_flags y) 16) then needed_loop l c rest
          else
            let? d := definition l p y in
            match d with
            | Some _ => needed_loop l c rest
            | None => if candidate_defines c n then Ok true else needed_loop l c rest
            end
      | None => needed_loop l c rest
      end
  end.
Definition needed (l : Link) (c : Object) : out bool := needed_loop l c (all_symbols l).

(** One round over the candidates; a candidate carries its [selected] flag. *)
Fixpoint select_round (l : Link) (cs : list (Object * bool)) : out (Link * list (Object * bool) * bool) :=
  match cs with
  | [] => Ok (l, [], false)
  | (c, selected) :: rest =>
      if selected then
        let? (l, rest, changed) := select_round l rest in Ok (l, (c, true) :: rest, changed)
      else
        let? need := needed l c in
        if need then
          let? l := append_object l c in
          let? (l, rest, _) := select_round l rest in Ok (l, (c, true) :: rest, true)
        else
          let? (l, rest, changed) := select_round l rest in Ok (l, (c, false) :: rest, changed)
  end.

(** [do ... while (changed)] *)
Fixpoint select_loop (fuel : nat) (l : Link) (cs : list (Object * bool))
    : out (Link * list (Object * bool)) :=
  match fuel with
  | O => Err Unfinished
  | S f =>
      let? (l, cs, changed) := select_round l cs in
      if changed then select_loop f l cs else Ok (l, cs)
  end.

Definition inputs (l : Link) (files : list bytes) : out (Link * list (Object * bool)) :=
  let? (l, candidates) := read_inputs (l, []) files in
  select_loop (S (length candidates)) l (map (fun c => (c, false)) candidates).

(** ** Layout: addresses of segments, values of defined data symbols, imports *)
Definition obj_at (l : Link) (k : Z) : out Object := at_ (l_objects l) k.
Definition put_obj (l : Link) (k : Z) (o : Object) : out Link :=
  let? os := put_at (l_objects l) k o in Ok (set_objects l os).
Definition put_sym (l : Link) (k i : Z) (y : Symbol) : out Link :=
  let? o := obj_at l k in
  let? ys := put_at (o_symbols o) i y in
  put_obj l k (set_symbols o ys).

Definition STACK_AND_GUARD : Z := 1048592.

Fixpoint place_segments (address : Z) (ds : list Segment) : out (Z * list Segment) :=
  match ds with
  | [] => Ok (address, [])
  | d :: rest =>
      let align := Z.shiftl 1 (d_alignment d) in
      let a := Z.land (address + align - 1) (Z.lnot (align - 1)) in
      if UINT32_MAX - STACK_AND_GUARD <? a + d_n d then fail "linear memory overflow"
      else
        let? (address, rest) := place_segments (u32 (u32 a + d_n d)) rest in
        Ok (address, set_address d (u32 a) :: rest)
  end.

Definition layout_symbol (k i : Z) (l : Link) : out Link :=
  let? o := obj_at l k in
  let? y := at_ (o_symbols o) i in
  let? d := definition l (k, i) y in
  if negb (flag (y_flags y) 16) then
    if y_kind y =? 1 then
      let? s := at_ (o_data o) (y_index y) in
      put_sym l k i (set_value y (u32 (d_address s + y_offset y)))
    else Ok l
  else
    match d with
    | None =>
        if y_kind y =? 0 then
          let? (v, l) := imported l o y in put_sym l k i (set_value y v)
        else Ok l
    | Some _ => Ok l
    end.

(** The state: address, [nf], [ng], [nd] and the link. *)
Definition layout_object (k : Z) (st : Z * Z * Z * Z * Link) : out (Z * Z * Z * Z * Link) :=
  let '(address, nf, ng, nd, l) := st in
  let? o := obj_at l k in
  let? (address, data) := place_segments address (o_data o) in
  let? l := put_obj l k (set_data o data) in
  let? l := for_ (length (o_symbols o)) 0 (layout_symbol k) l in
  Ok (address, u32 (nf + o_nf o), u32 (ng + o_ng o), u32 (nd + len (o_data o)), l).

Definition layout (l : Link) : out (Z * Z * Z * Z * Link) :=
  for_ (length (l_objects l)) 0 layout_object (1024, 0, 1, 0, l).

(** ** Function and global indices *)
Fixpoint number_from (n : nat) (map_ : list Z) (at_0 next : Z) : out (list Z * Z) :=
  match n with
  | O => Ok (map_, next)
  | S n' =>
      let? map_ := put_at map_ at_0 next in
      number_from n' map_ (at_0 + 1) (u32 (next + 1))
  end.

Definition index_symbol (k i : Z) (l : Link) : out Link :=
  let? o := obj_at l k in
  let? y := at_ (o_symbols o) i in
  if flag (y_flags y) 16 then Ok l
  else if y_kind y =? 0 then
    if u32 (o_nfimp o + o_nf o) <=? y_index y then fail "invalid function symbol"
    else let? v := at_ (o_fmap o) (y_index y) in put_sym l k i (set_value y v)
  else if y_kind y =? 2 then
    if u32 (o_ngimp o + o_ng o) <=? y_index y then fail "invalid global symbol"
    else let? v := at_ (o_gmap o) (y_index y) in put_sym l k i (set_value y v)
  else Ok l.

Definition index_object (k : Z) (st : Z * Z * Link) : out (Z * Z * Link) :=
  let '(fn, gn, l) := st in
  let? o := obj_at l k in
  let? (fmap_, fn) := number_from (length (o_functions o)) (o_fmap o) (o_nfimp o) fn in
  let? (gmap_, gn) := number_from (length (o_globals o)) (o_gmap o) (o_ngimp o) gn in
  let? l := put_obj l k (set_maps o fmap_ gmap_) in
  let? l := for_ (length (o_symbols o)) 0 (index_symbol k) l in
  Ok (fn, gn, l).

Definition assign_indices (l : Link) : out (Z * Z * Link) :=
  for_ (length (l_objects l)) 0 index_object (len (l_imports l), 1, l).

(** ** Resolution and relocation of every object *)
Definition special_value (y : Symbol) (n : bytes) (stack_low heap : Z) : out Z :=
  if (y_kind y =? 2) && bytes_eqb n (str "__stack_pointer") then Ok 0
  else if (y_kind y =? 1) && bytes_eqb n (str "__stack_low") then Ok stack_low
  else if (y_kind y =? 1) && bytes_eqb n (str "__heap_base") then Ok heap
  else if (y_kind y =? 5) && bytes_eqb n (str "__indirect_function_table") then Ok 0
  else if negb (y_kind y =? 0) then fail "undefined symbol: %s"
  else Ok (y_value y).

Definition resolve_symbol (stack_low heap k i : Z) (l : Link) : out Link :=
  let? o := obj_at l k in
  let? y := at_ (o_symbols o) i in
  match y_name y with
  | None => Ok l
  | Some n =>
      let? def := definition l (k, i) y in
      let? v := (match def with
                 | Some (_, d) =>
                     if (y_kind y =? 0) && negb (y_type y =? y_type d)
                     then fail "function type mismatch: %s" else Ok (y_value d)
                 | None => special_value y n stack_low heap
                 end) in
      let? l := put_sym l k i (set_value y v) in
      let? o := obj_at l k in
      if y_kind y =? 0 then
        let? fm := put_at (o_fmap o) (y_index y) v in put_obj l k (set_maps o fm (o_gmap o))
      else if y_kind y =? 2 then
        let? gm := put_at (o_gmap o) (y_index y) v in put_obj l k (set_maps o (o_fmap o) gm)
      else Ok l
  end.

Definition resolve_object (stack_low heap k : Z) (l : Link) : out Link :=
  let? o := obj_at l k in
  let? l := for_ (length (o_symbols o)) 0 (resolve_symbol stack_low heap k) l in
  let? o := obj_at l k in
  let? o := relocate o in
  put_obj l k o.

Definition resolve (stack_low heap : Z) (l : Link) : out Link :=
  for_ (length (l_objects l)) 0 (resolve_object stack_low heap) l.

(** ** The emitted module *)
Fixpoint each {A} (f : bytes -> A -> out bytes) (b : bytes) (xs : list A) : out bytes :=
  match xs with
  | [] => Ok b
  | x :: rest => let? b := f b x in each f b rest
  end.

Definition emit_types (l : Link) : out bytes :=
  let? b := uleb [] (len (l_types l)) in each put b (l_types l).

Definition emit_import (b : bytes) (im : Import_) : out bytes :=
  let? b := string_ b (im_module im) in
  let? b := string_ b (im_name im) in
  let? b := byte b 0 in
  uleb b (im_type im).
Definition emit_imports (l : Link) : out bytes :=
  let? b := uleb [] (len (l_imports l)) in each emit_import b (l_imports l).

Definition emit_functions (l : Link) (nf : Z) : out bytes :=
  let? b := uleb [] nf in
  each (fun b o => each (fun b f => let? t := mapped_type o f in uleb b t) b (o_functions o))
    b (l_objects l).

Definition emit_table (fn : Z) : out bytes :=
  let? b := uleb [] 1 in
  let? b := byte b 0x70 in
  let? b := byte b 0 in
  uleb b (u32 (fn + 1)).

Definition emit_memory (pages max_memory : Z) : out bytes :=
  if negb (max_memory =? 0) && ((max_memory <? pages * 65536) || negb (max_memory mod 65536 =? 0))
  then fail "maximum memory smaller than static data/stack or not page aligned"
  else
    let? b := uleb [] 1 in
    let? b := byte b (if max_memory =? 0 then 0 else 1) in
    let? b := uleb b pages in
    if max_memory =? 0 then Ok b else uleb b (max_memory / 65536).

Definition emit_globals (l : Link) (ng heap : Z) : out bytes :=
  let? b := uleb [] ng in
  let? b := byte b 0x7f in
  let? b := byte b 1 in
  let? b := byte b 0x41 in
  let? b := sleb b (i32 heap) in
  let? b := byte b 0xb in
  each (fun b o => each put b (o_globals o)) b (l_objects l).

(** [export_one]: the link's export table, the buffer and the count. *)
Fixpoint find_export (es : list Export_) (n : bytes) : option Export_ :=
  match es with
  | [] => None
  | e :: rest => if bytes_eqb (e_name e) n then Some e else find_export rest n
  end.
Definition export_state : Type := list Export_ * bytes * Z.
Definition export_one (st : export_state) (n : bytes) (kind index : Z) : out export_state :=
  let '(es, b, ne) := st in
  match find_export es n with
  | Some e =>
      if negb (e_kind e =? kind) || negb (e_index e =? index) then fail "duplicate export: %s"
      else Ok (es, b, ne)
  | None =>
      let? b := string_ b n in
      let? b := byte b kind in
      let? b := uleb b index in
      Ok (es ++ [MkExport n kind index], b, u32 (ne + 1))
  end.

Fixpoint export_entries (o : Object) (st : export_state) (es : list Export_) : out export_state :=
  match es with
  | [] => Ok st
  | e :: rest =>
      if (e_kind e =? 2) && bytes_eqb (e_name e) (str "memory") then export_entries o st rest
      else if negb (e_kind e =? 0) && negb (e_kind e =? 3) then fail "unsupported object export"
      else
        let limit := if e_kind e =? 0 then u32 (o_nfimp o + o_nf o) else u32 (o_ngimp o + o_ng o) in
        if limit <=? e_index e then fail "invalid export"
        else
          let? index := at_ (if e_kind e =? 0 then o_fmap o else o_gmap o) (e_index e) in
          let? st := export_one st (e_name e) (e_kind e) index in
          export_entries o st rest
  end.

Fixpoint export_symbols (o : Object) (st : export_state) (ys : list Symbol) : out export_state :=
  match ys with
  | [] => Ok st
  | y :: rest =>
      if negb (flag (y_flags y) 32) || negb (y_kind y =? 0) then export_symbols o st rest
      else
        match y_name y with
        | None => Err Undefined
        | Some n =>
            if existsb (fun e => bytes_eqb (e_name e) n) (o_exports o) then export_symbols o st rest
            else
              let? st := export_one st n 0 (y_value y) in
              export_symbols o st rest
        end
  end.

Fixpoint export_objects (st : export_state) (os : list Object) : out export_state :=
  match os with
  | [] => Ok st
  | o :: rest =>
      let? st := export_entries o st (o_exports o) in
      let? st := export_symbols o st (o_symbols o) in
      export_objects st rest
  end.

(** [ne] starts at 1 for the memory, whose own [export_one] is not counted. *)
Definition emit_exports (l : Link) : out bytes :=
  let? (es, ex, _) := export_one ([], [], 0) (str "memory") 2 0 in
  let? (_, ex, ne) := export_objects (es, ex, 1) (l_objects l) in
  let? b := uleb [] ne in
  put b ex.

Definition emit_elements (fn : Z) : out bytes :=
  let? b := uleb [] 1 in
  let? b := byte b 0 in
  let? b := byte b 0x41 in
  let? b := byte b 1 in
  let? b := byte b 0xb in
  let? b := uleb b fn in
  for_ (Z.to_nat fn) 0 (fun i b => uleb b i) b.

(** The body of function [i] as it stands in the patched object. *)
Definition emit_body (o : Object) (i : Z) (b : bytes) : out bytes :=
  match o_bodies o with
  | None => Err Undefined
  | Some bs =>
      let? (p, size) := at_ bs i in
      let? b := uleb b size in
      let? body := bytes_at (o_file o) p size in
      put b body
  end.
Definition emit_code (l : Link) (nf : Z) : out bytes :=
  let? b := uleb [] nf in
  each (fun b o => for_ (length (o_functions o)) 0 (emit_body o) b) b (l_objects l).

Definition emit_segment (o : Object) (b : bytes) (d : Segment) : out bytes :=
  let? b := byte b 0 in
  let? b := byte b 0x41 in
  let? b := sleb b (i32 (d_address d)) in
  let? b := byte b 0xb in
  let? b := uleb b (d_n d) in
  let? data := bytes_at (o_file o) (d_p d) (d_n d) in
  put b data.
Definition emit_data (l : Link) (nd : Z) : out bytes :=
  let? b := uleb [] nd in
  each (fun b o => each (emit_segment o) b (o_data o)) b (l_objects l).

Definition emit (l : Link) (nf ng nd fn heap max_memory : Z) : out bytes :=
  let? o := put [] MAGIC in
  let? b := emit_types l in
  let? o := section o 1 b in
  let? o := (if len (l_imports l) =? 0 then Ok o
             else let? b := emit_imports l in section o 2 b) in
  let? b := emit_functions l nf in
  let? o := section o 3 b in
  let? b := emit_table fn in
  let? o := section o 4 b in
  let pages := u32 ((heap + 65535) / 65536) in
  let? b := emit_memory pages max_memory in
  let? o := section o 5 b in
  let? b := emit_globals l ng heap in
  let? o := section o 6 b in
  let? b := emit_exports l in
  let? o := section o 7 b in
  let? o := (if fn =? 0 then Ok o else let? b := emit_elements fn in section o 9 b) in
  let? b := emit_code l nf in
  let? o := section o 10 b in
  if nd =? 0 then Ok o else let? b := emit_data l nd in section o 11 b.

(** The whole link: the bytes given to [backend_write_object]. *)
Definition dyn_link_wasm_objects (files allowed_imports : list bytes) (max_memory : Z) : out bytes :=
  let? (l, _) := inputs (MkLink [] [] [] allowed_imports []) files in
  let? (address, nf, ng, nd, l) := layout l in
  let stack_low := Z.land (u32 (address + 15)) (Z.lnot 15) in
  let heap := u32 (stack_low + 1048576) in
  let? (fn, gn, l) := assign_indices l in
  let? l := resolve stack_low heap l in
  emit l nf ng nd fn heap max_memory.

(** ** Symbol resolution *)

(** The definitions of a name among the symbols of the link, and the strong
    ones among them. *)
Definition definitions_of (n : bytes) (vs : list (loc * Symbol)) : list (loc * Symbol) :=
  List.filter (fun pv => defines n (snd pv)) vs.
Definition strong_of (vs : list (loc * Symbol)) : list (loc * Symbol) :=
  List.filter (fun pv => negb (weak (snd pv))) vs.
Definition same_kind (kind : Z) (vs : list (loc * Symbol)) : bool :=
  forallb (fun pv => y_kind (snd pv) =? kind) vs.

(** The definition that wins: the strong one, or the first weak one. *)
Definition winner (ds : list (loc * Symbol)) : option (loc * Symbol) :=
  match strong_of ds with d :: _ => Some d | [] => hd_error ds end.

(** Resolution with the best definition so far in front. *)
Definition with_best (best : option (loc * Symbol)) (ds : list (loc * Symbol)) :=
  match best with Some b => b :: ds | None => ds end.

Lemma definition_loop_filter n kind vs : forall best,
  definition_loop n kind vs best = definition_loop n kind (definitions_of n vs) best.
Proof.
  induction vs as [|[p v] vs IH]; intros best; [done|]. cbn [definition_loop definitions_of List.filter snd].
  destruct (defines n v) eqn:E; cbn [negb]; [|apply IH]. cbn [definition_loop]. rewrite E. cbn [negb].
  split_if; [done|]. destruct best as [[q b]|]; [|apply IH]. split_if; [done|]. apply IH.
Qed.

Definition resolution (kind : Z) (ds : list (loc * Symbol)) (r : out (option (loc * Symbol))) : Prop :=
  match r with
  | Ok w => same_kind kind ds = true /\ (length (strong_of ds) <= 1)%nat /\ w = winner ds
  | Err e => (e = Failed "symbol kind mismatch: %s" /\ same_kind kind ds = false)
             \/ (e = Failed "duplicate symbol: %s" /\ (2 <= length (strong_of ds))%nat)
  end.

Lemma definition_loop_spec n kind ds : forall best,
  Forall (fun pv => defines n (snd pv) = true) ds ->
  (forall b, best = Some b -> y_kind (snd b) = kind) ->
  resolution kind (with_best best ds) (definition_loop n kind ds best).
Proof.
  induction ds as [|[p v] ds IH]; intros best HF Hb; cbn [definition_loop].
  - destruct best as [[q b]|]; [|split; [done|split; [cbn; lia|done]]].
    pose proof (Hb _ eq_refl) as Hkb. cbn in *. rewrite Hkb, Z.eqb_refl. split; [done|].
    unfold winner. cbn. destruct (weak b); cbn; split; (lia || done).
  - inversion_clear HF as [|? ? Hv HF']. cbn [snd] in Hv. rewrite Hv. cbn [negb].
    destruct (Z.eqb_spec (y_kind v) kind) as [Hk|Hk]; cbn [negb].
    2: { left. split; [done|]. unfold same_kind. destruct best as [[q b]|]; cbn;
         rewrite (proj2 (Z.eqb_neq _ _) Hk), ?andb_false_r; done. }
    destruct best as [[q b]|].
    + pose proof (Hb _ eq_refl) as Hkb. cbn [snd] in Hkb.
      destruct (weak b) eqn:Wb, (weak v) eqn:Wv; cbn [negb andb].
      * specialize (IH (Some (q, b)) HF' Hb). revert IH.
        unfold resolution, with_best, same_kind, winner, strong_of. cbn. rewrite Wb, Wv, Hkb, Hk, Z.eqb_refl. cbn.
        destruct (definition_loop _ _ _ _); done.
      * specialize (IH (Some (p, v)) HF' ltac:(by intros ? [= <-])). revert IH.
        unfold resolution, with_best, same_kind, winner, strong_of. cbn. rewrite Wb, Wv, Hkb, Hk, Z.eqb_refl. cbn.
        destruct (definition_loop _ _ _ _); done.
      * specialize (IH (Some (q, b)) HF' Hb). revert IH.
        unfold resolution, with_best, same_kind, winner, strong_of. cbn. rewrite Wb, Wv, Hkb, Hk, Z.eqb_refl. cbn.
        destruct (definition_loop _ _ _ _); done.
      * right. split; [done|]. unfold with_best, strong_of. cbn. rewrite Wb, Wv. cbn. lia.
    + specialize (IH (Some (p, v)) HF'). apply IH. by intros ? [= <-].
Qed.

(** Resolving a global name succeeds exactly when its definitions have the
    kind of the reference and at most one of them is strong; the result is the
    strong definition, or the first weak one, or nothing.  Otherwise the error
    names the actual conflict. *)
Theorem definition_resolves l p s n :
  y_name s = Some n -> is_local (y_flags s) = false ->
  resolution (y_kind s) (definitions_of n (all_symbols l)) (definition l p s).
Proof.
  intros Hn Hl. unfold definition. rewrite Hn, Hl, definition_loop_filter.
  apply (definition_loop_spec n (y_kind s) _ None); [|done].
  apply List.Forall_forall. intros pv Hin. by apply filter_In in Hin as [_ ?].
Qed.

Definition fn_symbol (n : bytes) (flags index : Z) : Symbol := MkSymbol (Some n) 0 flags index 0 0 0 0.
Definition two_objects : Link :=
  MkLink [set_symbols (empty_object []) [fn_symbol (str "f") 1 0];
          set_symbols (empty_object []) [fn_symbol (str "f") 0 0; fn_symbol (str "g") 0 1]] [] [] [] [].

Lemma definition_resolves_witness :
  resolution 0 (definitions_of (str "f") (all_symbols two_objects))
    (definition two_objects (0, 0) (fn_symbol (str "f") 16 0))
  /\ definition two_objects (0, 0) (fn_symbol (str "f") 16 0)
     = Ok (Some ((1, 0), fn_symbol (str "f") 0 0)).
Proof.
  split; [|vm_compute; reflexivity].
  apply (definition_resolves two_objects (0, 0) (fn_symbol (str "f") 16 0) (str "f")); reflexivity.
Defined.

(** ** Archive members *)

Definition selected (cs : list (Object * bool)) : list Object := map fst (List.filter snd cs).
Definition unselected (cs : list (Object * bool)) : nat := length (List.filter (fun c => negb (snd c)) cs).

(** A symbol of the objects of the link. *)
Definition has_symbol (l : Link) (y : Symbol) : Prop := exists o, In o (l_objects l) /\ In y (o_symbols o).
(** A symbol other objects can bind the name [n] to: with a definition, and
    not local. *)
Definition provides (n : bytes) (v : Symbol) : Prop :=
  y_name v = Some n /\ Z.testbit (y_flags v) 4 = false /\ Z.land (y_flags v) 3 <> 2.
(** A symbol that asks other objects for the name [n]. *)
Definition asks (n : bytes) (y : Symbol) : Prop :=
  y_name y = Some n /\ Z.testbit (y_flags y) 4 = true /\ Z.land (y_flags y) 3 <> 2.
(** The member [c] provides a name the link asks for and nothing in it provides. *)
Definition wanted (l : Link) (c : Object) : Prop :=
  exists n y d, has_symbol l y /\ asks n y /\ (forall v, has_symbol l v -> ~ provides n v) /\ In d (o_symbols c) /\ provides n d.
(** Extraction of one wanted member. *)
Definition extract_step (cs : list Object) (l l' : Link) : Prop :=
  exists c, In c cs /\ wanted l c /\ l' = set_objects l (l_objects l ++ [c]).
(** A name the link asks for has definitions of another kind, or two strong
    definitions: the symbols at two places, neither of them weak. *)
Definition conflicting (l : Link) : Prop :=
  exists n y, has_symbol l y /\ asks n y /\
    ((exists v, has_symbol l v /\ provides n v /\ y_kind v <> y_kind y)
     \/ exists i j p q v w, i <> j /\ all_symbols l !! i = Some (p, v) /\ all_symbols l !! j = Some (q, w)
          /\ provides n v /\ provides n w /\ Z.testbit (y_flags v) 0 = false /\ Z.testbit (y_flags w) 0 = false).

Lemma flag_testbit f k : 0 <= k -> flag f (2 ^ k) = Z.testbit f k.
Proof.
  intros Hk. unfold flag. rewrite land_pow2_testbit by lia. destruct (Z.testbit f k); [|done].
  pose proof (Z.pow_pos_nonneg 2 k). by rewrite (proj2 (Z.eqb_neq _ _)) by lia.
Qed.
Lemma index_symbols_in ys y : forall k i, (exists p, In (p, y) (index_symbols k i ys)) <-> In y ys.
Proof.
  induction ys as [|z ys IH]; intros k i; cbn [index_symbols In]; [split; [by intros [p []]|done]|]. rewrite <- (IH k (i + 1)). split.
  - intros (p & [[= _ ->]|H]); [by left|right; eauto].
  - intros [->|[p H]]; eauto.
Qed.
Lemma all_symbols_in l y : (exists p, In (p, y) (all_symbols l)) <-> has_symbol l y.
Proof.
  unfold all_symbols, has_symbol. generalize 0. induction (l_objects l) as [|o os IH]; intros k; cbn [index_objects].
  - split; [by intros [p []]|by intros (o & [] & _)].
  - split.
    + intros [p [H|H]%in_app_iff]; [exists o; split; [by left|]; apply (index_symbols_in _ y k 0); eauto|].
      destruct (proj1 (IH (k + 1)) (ex_intro _ p H)) as (o' & Ho & Hy). exists o'. split; [by right|done].
    + intros (o' & [<-|Ho] & Hy).
      * destruct (proj2 (index_symbols_in _ y k 0) Hy) as [p Hp]. exists p. apply in_app_iff. by left.
      * destruct (proj2 (IH (k + 1)) (ex_intro _ o' (conj Ho Hy))) as [p Hp]. exists p. apply in_app_iff. by right.
Qed.
Lemma defines_provides n v : defines n v = true <-> provides n v.
Proof.
  unfold defines, provides, is_local. rewrite (flag_testbit _ 4) by lia. rewrite andb_true_iff, negb_true_iff, orb_false_iff, Z.eqb_neq.
  destruct (y_name v) as [m|]; [|split; [by intros [_ ?]|by intros [? _]]]. destruct (bytes_eqb_spec n m) as [->|Hn].
  - split; [intros [[? ?] _]; auto|intros (_ & ? & ?); auto].
  - split; [by intros [_ ?]|]. intros ([= ->] & _). done.
Qed.
Lemma candidate_provides c n : candidate_defines c n = true <-> exists d, In d (o_symbols c) /\ provides n d.
Proof. unfold candidate_defines. rewrite existsb_exists. by setoid_rewrite defines_provides. Qed.

(** Two strong definitions, at two places of the symbols. *)
Lemma filter_two {A} (f : A -> bool) (l : list A) : (2 <= length (List.filter f l))%nat ->
  exists i j x y, i <> j /\ l !! i = Some x /\ l !! j = Some y /\ f x = true /\ f y = true.
Proof.
  induction l as [|a l IH]; cbn; [lia|]. destruct (f a) eqn:Ea; cbn [length].
  - intros H. destruct (List.filter f l) as [|b r] eqn:Er; [cbn in H; lia|].
    assert (In b (List.filter f l)) as Hb by (rewrite Er; by left). apply filter_In in Hb as [Hb Hf].
    apply list_elem_of_In, list_elem_of_lookup in Hb as [i Hi]. exists 0%nat, (S i), a, b. auto.
  - intros H. destruct (IH H) as (i & j & x & y & Hij & Hx & Hy & Fx & Fy). exists (S i), (S j), x, y. split_and!; auto.
Qed.
Lemma two_strong l n : (2 <= length (strong_of (definitions_of n (all_symbols l))))%nat ->
  exists i j p q v w, i <> j /\ all_symbols l !! i = Some (p, v) /\ all_symbols l !! j = Some (q, w)
    /\ provides n v /\ provides n w /\ Z.testbit (y_flags v) 0 = false /\ Z.testbit (y_flags w) 0 = false.
Proof.
  unfold strong_of, definitions_of.
  assert (forall vs, List.filter (fun pv : loc * Symbol => negb (weak (snd pv))) (List.filter (fun pv => defines n (snd pv)) vs)
    = List.filter (fun pv => defines n (snd pv) && negb (weak (snd pv))) vs) as ->.
  { induction vs as [|v vs IH]; [done|]. cbn. destruct (defines n (snd v)); cbn; [destruct (weak (snd v)); cbn|]; by rewrite ?IH. }
  intros (i & j & [p v] & [q w] & Hij & Hi & Hj & Hv & Hw)%filter_two. exists i, j, p, q, v, w. cbn [snd] in *.
  rewrite !andb_true_iff, !negb_true_iff in Hv, Hw. unfold weak in Hv, Hw. change 1 with (2 ^ 0) in Hv, Hw. rewrite flag_testbit in Hv, Hw by lia.
  destruct Hv as [Hv1 Hv2], Hw as [Hw1 Hw2]. split_and!; auto; by apply defines_provides.
Qed.
Lemma Exists_not_all {A} (P : A -> Prop) `{!forall x, Decision (P x)} (l : list A) :
  ~ (forall x, In x l -> P x) -> List.Exists (fun x => ~ P x) l.
Proof.
  induction l as [|x l IH]; intros Hno; [by destruct Hno; intros x []|].
  destruct (decide (P x)) as [Hx|Hx]; [|by apply List.Exists_cons_hd].
  apply List.Exists_cons_tl, IH. intros Hl. apply Hno. intros y [<-|Hy]; auto.
Qed.

(** Resolving a name the link asks for. *)
Lemma definition_asked l p y n :
  has_symbol l y -> asks n y ->
  match definition l p y with
  | Ok None => forall v, has_symbol l v -> ~ provides n v
  | Ok (Some _) => exists v, has_symbol l v /\ provides n v
  | Err (Failed _) => conflicting l
  | Err _ => False
  end.
Proof.
  intros Hy Ha. pose proof Ha as (Hn & _ & Hloc).
  assert (is_local (y_flags y) = false) as Hl by (by apply Z.eqb_neq).
  pose proof (definition_loop_spec n (y_kind y) (definitions_of n (all_symbols l)) None) as Hr.
  unfold definition. rewrite Hn, Hl, definition_loop_filter.
  assert (forall q v, In (q, v) (definitions_of n (all_symbols l)) -> has_symbol l v /\ provides n v) as Hin.
  { intros q v [Hv Hd]%filter_In. split; [apply all_symbols_in; eauto|by apply defines_provides]. }
  specialize (Hr ltac:(apply List.Forall_forall; intros pv Hp; by apply filter_In in Hp as [_ ?]) ltac:(done)). cbn [with_best] in Hr.
  destruct (definition_loop _ _ _ _) as [[[q v]|]|e]; cbn [resolution] in Hr.
  - destruct Hr as (_ & _ & Hw). exists v. apply (Hin q v). unfold winner in Hw. destruct (strong_of _) as [|d ds] eqn:Es.
    + destruct (definitions_of n (all_symbols l)); [done|]. injection Hw as <-. by left.
    + injection Hw as <-. assert (In (q, v) (strong_of (definitions_of n (all_symbols l)))) as Hs by (rewrite Es; by left).
      by apply filter_In in Hs as [? _].
  - destruct Hr as (_ & _ & Hw). intros v [q Hq]%all_symbols_in Hp.
    assert (In (q, v) (definitions_of n (all_symbols l))) as Hd by (apply filter_In; split; [done|by apply defines_provides]).
    unfold winner in Hw. destruct (strong_of _); [|done]. by destruct (definitions_of n (all_symbols l)).
  - destruct Hr as [[-> Hk]|[-> Hk]]; exists n, y; (split; [done|]); (split; [done|]).
    + left. unfold same_kind in Hk. rewrite <- not_true_iff_false, forallb_forall in Hk.
      destruct (List.Exists_exists (fun pv => y_kind (snd pv) <> y_kind y) (definitions_of n (all_symbols l))) as [Hex _].
      destruct Hex as ([q v] & Hv & Hne); [|exists v; destruct (Hin q v Hv); auto].
      apply (Exists_not_all (fun pv : loc * Symbol => y_kind (snd pv) = y_kind y)). intros Hall. apply Hk. intros pv Hp. by apply Z.eqb_eq, Hall.
    + right. by apply two_strong.
Qed.

Lemma needed_iff l c :
  match needed l c with
  | Ok true => wanted l c
  | Ok false => ~ wanted l c
  | Err (Failed _) => conflicting l
  | Err _ => False
  end.
Proof.
  unfold needed.
  enough (forall vs, (forall p y, In (p, y) vs -> has_symbol l y) ->
    match needed_loop l c vs with
    | Ok true => wanted l c
    | Ok false => forall p y n, In (p, y) vs -> asks n y -> (exists v, has_symbol l v /\ provides n v) \/ candidate_defines c n = false
    | Err (Failed _) => conflicting l
    | Err _ => False
    end) as H.
  { specialize (H (all_symbols l) ltac:(intros p y Hy; apply all_symbols_in; eauto)).
    destruct (needed_loop l c (all_symbols l)) as [[]|[]]; try done. intros (n & y & d & Hy & Ha & Hno & Hd & Hp).
    apply all_symbols_in in Hy as [p Hy]. destruct (H p y n Hy Ha) as [(v & Hv & Hv')|Hc]; [by destruct (Hno v Hv)|].
    assert (candidate_defines c n = true) by (apply candidate_provides; eauto). congruence. }
  induction vs as [|[p y] vs IH]; intros Hvs; cbn [needed_loop]; [by intros ? ? ? []|].
  specialize (IH ltac:(intros q z Hz; eapply Hvs; by right)). pose proof (Hvs p y (or_introl eq_refl)) as Hy.
  assert (Hskip : (forall n, asks n y -> (exists v, has_symbol l v /\ provides n v) \/ candidate_defines c n = false) ->
    match needed_loop l c vs with
    | Ok true => wanted l c
    | Ok false => forall p' y' n, In (p', y') ((p, y) :: vs) -> asks n y' -> (exists v, has_symbol l v /\ provides n v) \/ candidate_defines c n = false
    | Err (Failed _) => conflicting l
    | Err _ => False
    end).
  { intros Hhead. destruct (needed_loop l c vs) as [[]|[]]; try done. intros p' y' n [[= <- <-]|Hin]; eauto. }
  destruct (y_name y) as [n|] eqn:En; [|apply Hskip; intros n (Hn & _); congruence].
  rewrite (flag_testbit _ 4) by lia. destruct (Z.testbit (y_flags y) 4) eqn:Eu; cbn [negb].
  2: { apply Hskip. intros m (_ & Hm & _). congruence. }
  destruct (is_local (y_flags y)) eqn:El.
  { unfold definition. rewrite En, El. apply Hskip. intros m (_ & _ & Hm). apply Z.eqb_eq in El. done. }
  assert (asks n y) as Ha by (split_and!; [done|done|by apply Z.eqb_neq]).
  assert (forall m, asks m y -> m = n) as Hm by (intros m (Hm & _); congruence).
  pose proof (definition_asked l p y n Hy Ha) as Hd. destruct (definition l p y) as [[d|]|[]]; try done.
  - apply Hskip. intros m Hm'%Hm. subst m. by left.
  - destruct (candidate_defines c n) eqn:Ec.
    + apply candidate_provides in Ec as (d & Hd1 & Hd2). by exists n, y, d.
    + apply Hskip. intros m Hm'%Hm. subst m. by right.
Qed.

(** The outcome of the selection from [l]: a result, or a report with a reason. *)
Definition full (l : Link) : Prop := len (l_objects l) = SIZE_MAX / OBJECT_SIZE.
Definition selects {A} (all : list Object) (l : Link) (r : out A) (Q : A -> Prop) : Prop :=
  match r with
  | Ok a => Q a
  | Err (Failed _) => exists l1, rtc (extract_step all) l l1 /\ (conflicting l1 \/ full l1)
  | Err _ => False
  end.
Lemma selects_bind {A B} all l (r : out A) (k : A -> out B) R Q :
  selects all l r R -> (forall a, R a -> selects all l (k a) Q) -> selects all l (match r with Ok a => k a | Err e => Err e end) Q.
Proof. destruct r as [a|[]]; cbn; auto. Qed.
Lemma selects_mono {A} all l (r : out A) (R Q : A -> Prop) : selects all l r R -> (forall a, R a -> Q a) -> selects all l r Q.
Proof. destruct r as [a|[]]; cbn; auto. Qed.
Lemma selects_later {A} all l l' (r : out A) Q : rtc (extract_step all) l l' -> selects all l' r Q -> selects all l r Q.
Proof. intros Hs. destruct r as [a|[]]; cbn; auto. intros (l1 & H1 & H2). exists l1. split; [by etrans|done]. Qed.
Lemma append_selects all l c :
  In c all -> wanted l c -> selects all l (append_object l c) (fun l' => extract_step all l l' /\ l_objects l' = l_objects l ++ [c]).
Proof.
  intros Hc Hw. unfold append_object. destruct (Z.eqb_spec (len (l_objects l)) (SIZE_MAX / OBJECT_SIZE)) as [Hf|Hf].
  - exists l. split; [constructor|by right].
  - cbn. split; [by exists c|done].
Qed.

(** The state after a round, related to the state before it. *)
Record round_post (all : list Object) (l : Link) (cs : list (Object * bool))
    (l' : Link) (cs' : list (Object * bool)) (changed : bool) : Prop := {
  rp_members : map fst cs' = map fst cs;
  rp_objects : l_objects l' ++ selected cs ≡ₚ l_objects l ++ selected cs';
  rp_steps : rtc (extract_step all) l l';
  rp_changed : changed = true -> (unselected cs' < unselected cs)%nat;
  rp_le : (unselected cs' <= unselected cs)%nat;
  rp_stable : changed = false -> l' = l /\ cs' = cs /\ forall c, In (c, false) cs -> ~ wanted l c
}.

Lemma select_round_post all cs : forall l,
  (forall c b, In (c, b) cs -> In c all) ->
  selects all l (select_round l cs) (fun r => round_post all l cs (fst (fst r)) (snd (fst r)) (snd r)).
Proof.
  induction cs as [|[c s] cs IH]; intros l Hall; cbn [select_round].
  { constructor; cbn; try done. }
  assert (forall c b, In (c, b) cs -> In c all) as Hall' by (intros; eapply Hall; by right).
  destruct s.
  - eapply selects_bind; [by apply IH|]. intros [[l' cs'] ch] [H1 H2 H3 H4 H5 H6]. cbn in *.
    constructor; cbn; try done.
    + by f_equal.
    + unfold selected in *. cbn. rewrite <- !Permutation_middle. by rewrite H2.
    + intros Hch. destruct (H6 Hch) as (-> & -> & Hn). split_and!; try done.
      intros c' [Heq|Hin]; [congruence|by apply Hn].
  - pose proof (needed_iff l c) as Hneed. destruct (needed l c) as [[]|[]]; try done.
    + eapply selects_bind; [apply append_selects; [by eapply Hall; left|done]|]. intros l1 [Hstep Hobj].
      apply (selects_later all l l1); [by apply rtc_once|].
      eapply selects_bind; [by apply IH|]. intros [[l' cs'] ch] [H1 H2 H3 H4 H5 H6]. cbn in *.
      constructor; cbn; try done.
      * by f_equal.
      * unfold selected in *. cbn. rewrite Hobj, <- app_assoc in H2. exact H2.
      * by eapply rtc_l.
      * unfold unselected in *. cbn. lia.
      * unfold unselected in *. cbn. lia.
    + eapply selects_bind; [by apply IH|]. intros [[l' cs'] ch] [H1 H2 H3 H4 H5 H6]. cbn in *.
      constructor; cbn; try done.
      * by f_equal.
      * unfold unselected in *. cbn. intros. specialize (H4 ltac:(done)). lia.
      * unfold unselected in *. cbn. lia.
      * intros Hch. destruct (H6 Hch) as (-> & -> & Hn). split_and!; try done.
        intros c' [Heq|Hin]; [congruence|by apply Hn].
    + exists l. split; [constructor|by left].
Qed.

Lemma selected_none cs : selected (map (fun c : Object => (c, false)) cs) = [].
Proof. induction cs; [done|]. exact IHcs. Qed.
Lemma unselected_all cs : unselected (map (fun c : Object => (c, false)) cs) = length cs.
Proof. induction cs; [done|]. cbn. by f_equal. Qed.

Lemma select_loop_post all fuel : forall l cs,
  (forall c b, In (c, b) cs -> In c all) -> (unselected cs < fuel)%nat ->
  selects all l (select_loop fuel l cs)
    (fun r => map fst (snd r) = map fst cs
       /\ l_objects (fst r) ++ selected cs ≡ₚ l_objects l ++ selected (snd r)
       /\ rtc (extract_step all) l (fst r)
       /\ forall c, In (c, false) (snd r) -> ~ wanted (fst r) c).
Proof.
  induction fuel as [|f IH]; intros l cs Hall Hf; [lia|]. cbn [select_loop].
  eapply selects_bind; [by apply (select_round_post all)|].
  intros [[l1 cs1] changed] [H1 H2 H3 H4 H5 H6]. cbn [fst snd] in *. destruct changed.
  - apply (selects_later all l l1); [done|]. eapply selects_mono; [apply IH|].
    + intros c b Hin. assert (In c (map fst cs)) as Hc.
      { rewrite <- H1. apply in_map_iff. by exists (c, b). }
      apply in_map_iff in Hc as ([c' b'] & <- & Hin'). by eapply Hall.
    + specialize (H4 eq_refl). lia.
    + intros [l' cs'] (G1 & G2 & G3 & G4). cbn [fst snd] in *. split_and!; [congruence| |by etrans|done].
      apply (Permutation_app_inv_l (selected cs1)).
      rewrite (Permutation_app_comm (selected cs1) (l_objects l' ++ selected cs)).
      rewrite <- app_assoc, (Permutation_app_comm (selected cs)), app_assoc, G2.
      rewrite <- app_assoc, (Permutation_app_comm (selected cs')), app_assoc, H2.
      rewrite <- app_assoc, app_assoc. rewrite (app_assoc (selected cs1)).
      by rewrite (Permutation_app_comm (selected cs1) (l_objects l)).
  - destruct (H6 eq_refl) as (-> & -> & Hn). by split_and!.
Qed.


Definition asking : Link := MkLink [set_symbols (empty_object []) [fn_symbol (str "f") 16 0]] [] [] [] [].
Definition member : Object := set_symbols (empty_object []) [fn_symbol (str "f") 0 0; fn_symbol (str "g") 0 1].
Definition spare : Object := set_symbols (empty_object []) [fn_symbol (str "f") 1 0].

(** ** Memory layout *)

(** Invariants of counted loops. *)
Lemma for_inv {S} (Inv : Z -> S -> Prop) (body : Z -> S -> out S) n : forall i s s',
  (forall j s s', i <= j < i + Z.of_nat n -> Inv j s -> body j s = Ok s' -> Inv (j + 1) s') ->
  Inv i s -> for_ n i body s = Ok s' -> Inv (i + Z.of_nat n) s'.
Proof.
  induction n as [|n IH]; intros i s s' Hb HI H; cbn [for_] in H.
  - simplify_eq. by rewrite Z.add_0_r.
  - destruct (body i s) as [s1|] eqn:E; [|done].
    replace (i + Z.of_nat (Datatypes.S n)) with (i + 1 + Z.of_nat n) by lia.
    apply (IH (i + 1) s1 s'); [|by apply (Hb i s s1); [lia|..]|done].
    intros j t t' Hj. apply Hb. lia.
Qed.

(** A relation kept by every round is kept by the loop. *)
Lemma for_preserves {S A} (f : S -> A) (body : Z -> S -> out S) n i s s' :
  (forall j s s', body j s = Ok s' -> f s' = f s) -> for_ n i body s = Ok s' -> f s' = f s.
Proof.
  intros Hb. apply (for_inv (fun _ t => f t = f s)); [|done].
  intros j t t' _ <- Hbody. by eapply Hb.
Qed.

(** The last address a segment may end at. *)
Definition MEMORY_LIMIT : Z := UINT32_MAX - STACK_AND_GUARD.

(** Consecutive, aligned, bounded segments from [start] to [finish]. *)
Fixpoint placed (start : Z) (ds : list Segment) (finish : Z) : Prop :=
  match ds with
  | [] => finish = start
  | d :: rest =>
      start <= d_address d /\ (2 ^ d_alignment d | d_address d)
      /\ d_address d + d_n d <= MEMORY_LIMIT /\ placed (d_address d + d_n d) rest finish
  end.

Definition placeable (d : Segment) : Prop := 0 <= d_alignment d <= 30 /\ 0 <= d_n d < 2 ^ 32.

Lemma place_segments_placed ds : forall address address' ds',
  0 <= address <= MEMORY_LIMIT -> Forall placeable ds ->
  place_segments address ds = Ok (address', ds') ->
  placed address ds' address' /\ Forall placeable ds' /\ address <= address' <= MEMORY_LIMIT.
Proof.
  induction ds as [|d ds IH]; intros a a' ds' Ha HF H; cbn [place_segments] in H.
  { simplify_eq. split_and!; (done || lia). }
  inversion_clear HF as [|? ? [Hal Hn] HF']. pose proof (align_up a (d_alignment d) ltac:(lia)) as Hup.
  cbv zeta in Hup, H. set (r := Z.land _ _) in *. destruct Hup as [Hr Hdiv].
  destruct (Z.ltb_spec (UINT32_MAX - STACK_AND_GUARD) (r + d_n d)) as [|Hle]; [done|].
  fold MEMORY_LIMIT in Hle. assert (MEMORY_LIMIT < 2 ^ 32) by (vm_compute; done).
  rewrite (u32_small r), (u32_small (r + d_n d)) in H by lia.
  destruct (place_segments (r + d_n d) ds) as [[a1 ds1]|] eqn:E; [|done].
  injection H as <- <-. apply IH in E as (Hp & HF1 & Ha1); [|lia|done].
  split; [split_and!; [apply Hr|done|done|done]|]. split; [|lia]. by constructor.
Qed.

Lemma placed_app start ds1 ds2 mid finish :
  placed start ds1 mid -> placed mid ds2 finish -> placed start (ds1 ++ ds2) finish.
Proof.
  revert start. induction ds1 as [|d ds1 IH]; intros start; cbn; [by intros ->|].
  intros (? & ? & ? & ?) ?. split_and!; try done. by apply IH.
Qed.

Lemma placed_le ds : forall start finish,
  Forall placeable ds -> placed start ds finish -> start <= finish.
Proof.
  induction ds as [|d ds IH]; intros start finish HF; cbn; [lia|].
  inversion_clear HF as [|? ? [_ Hn] HF']. intros (? & ? & ? & Hp). specialize (IH _ _ HF' Hp). lia.
Qed.

(** Placed segments do not overlap. *)
Lemma placed_disjoint ds : forall start finish i j d e,
  Forall placeable ds -> placed start ds finish -> (i < j)%nat -> ds !! i = Some d -> ds !! j = Some e ->
  start <= d_address d /\ d_address d + d_n d <= d_address e /\ d_address e + d_n e <= finish.
Proof.
  assert (forall ds start finish j e, Forall placeable ds -> placed start ds finish -> ds !! j = Some e ->
            start <= d_address e /\ d_address e + d_n e <= finish) as Hone.
  { induction ds0 as [|d ds0 IH]; intros start finish j e HF Hp Hj; [done|].
    inversion_clear HF as [|? ? [_ Hn] HF']. destruct Hp as (? & ? & ? & Hp).
    destruct j as [|j]; cbn in Hj.
    - injection Hj as ->. pose proof (placed_le _ _ _ HF' Hp). lia.
    - specialize (IH _ _ _ _ HF' Hp Hj). lia. }
  induction ds as [|x ds IH]; intros start finish i j d e HF Hp Hij Hi Hj; [done|].
  destruct j as [|j]; [lia|]. inversion_clear HF as [|? ? [_ Hn] HF']. destruct Hp as (? & ? & ? & Hp).
  cbn in Hj. destruct i as [|i]; cbn in Hi.
  - injection Hi as ->. specialize (Hone _ _ _ _ _ HF' Hp Hj). lia.
  - specialize (IH _ _ i j d e HF' Hp ltac:(lia) Hi Hj). lia.
Qed.

(** Which phases keep the segments. *)
Definition datas (l : Link) : list (list Segment) := o_data <$> l_objects l.

Lemma put_at_Ok {A} (l l' : list A) i x :
  put_at l i x = Ok l' -> 0 <= i < Z.of_nat (length l) /\ l' = <[Z.to_nat i := x]> l.
Proof.
  unfold put_at, set_at. intros H. split_if_in H; [|done]. to_prop. simplify_eq. split; [lia|done].
Qed.
Lemma at_Ok {A} (l : list A) i x :
  at_ l i = Ok x -> 0 <= i < Z.of_nat (length l) /\ l !! Z.to_nat i = Some x.
Proof.
  unfold at_. destruct (get_at l i) eqn:E; [|done]. intros [= ->]. by apply get_at_Some in E.
Qed.

Lemma put_obj_Ok l k o l' :
  put_obj l k o = Ok l' ->
  0 <= k < len (l_objects l) /\ l' = set_objects l (<[Z.to_nat k := o]> (l_objects l)).
Proof.
  unfold put_obj. destruct (put_at _ _ _) eqn:E; [|done]. apply put_at_Ok in E as [Hk ->]. by intros [= <-].
Qed.

(** Changing an object outside an observed part keeps the observation. *)
Lemma put_obj_same {A} (f : Object -> A) l k o o' l' :
  obj_at l k = Ok o -> f o' = f o -> put_obj l k o' = Ok l' -> f <$> l_objects l' = f <$> l_objects l.
Proof.
  intros Ho Hf Hp. apply put_obj_Ok in Hp as [_ ->]. apply at_Ok in Ho as [_ Ho]. cbn.
  rewrite list_fmap_insert, Hf. apply list_insert_id. by rewrite list_lookup_fmap, Ho.
Qed.

Lemma put_sym_same {A} (f : Object -> A) l k i y l' :
  (forall o ys, f (set_symbols o ys) = f o) -> put_sym l k i y = Ok l' ->
  f <$> l_objects l' = f <$> l_objects l.
Proof.
  intros Hf. unfold put_sym. destruct (obj_at l k) as [o|] eqn:Ho; [|done].
  destruct (put_at _ _ _) as [ys|]; [|done]. intros Hp. eapply put_obj_same; eauto.
Qed.

(** One successful step of a sequence in the goal's hypothesis. *)
Ltac step_in H x E :=
  match type of H with
  | match ?c with Ok _ => _ | Err _ => _ end = _ => destruct c as [x|] eqn:E; [|discriminate H]
  end.

Lemma imported_objects l o y v l' : imported l o y = Ok (v, l') -> l_objects l' = l_objects l.
Proof.
  unfold imported. intros H. step_in H im E. destruct (y_name y); [|done]. split_if_in H; [done|].
  step_in H t E2. destruct (find_import _ _ _) as [[? ?]|]; [|by simplify_eq].
  split_if_in H; by simplify_eq.
Qed.

(** [layout_symbol] changes nothing but symbols and the import table. *)
Lemma layout_symbol_same {A} (f : Object -> A) k i l l' :
  (forall o ys, f (set_symbols o ys) = f o) -> layout_symbol k i l = Ok l' ->
  f <$> l_objects l' = f <$> l_objects l.
Proof.
  intros Hf H. unfold layout_symbol in H. step_in H o E1. step_in H y E2. step_in H d E3.
  split_if_in H.
  - split_if_in H; [|by simplify_eq]. step_in H s E4. by eapply put_sym_same.
  - destruct d; [by simplify_eq|]. split_if_in H; [|by simplify_eq].
    destruct (imported l o y) as [[v l1]|] eqn:E4; [|done]. rewrite <- (imported_objects _ _ _ _ _ E4).
    by eapply put_sym_same.
Qed.

Definition layout_inv (l0 : Link) (k : Z) (st : Z * Z * Z * Z * Link) : Prop :=
  let '(address, _, _, _, l) := st in
  length (l_objects l) = length (l_objects l0)
  /\ placed 1024 (concat (take (Z.to_nat k) (datas l))) address
  /\ Forall (Forall placeable) (datas l)
  /\ 1024 <= address <= MEMORY_LIMIT.

Lemma layout_object_inv l0 k st st' :
  0 <= k -> layout_inv l0 k st -> layout_object k st = Ok st' -> layout_inv l0 (k + 1) st'.
Proof.
  destruct st as [[[[a nf] ng] nd] l]. intros Hk (Hlen & Hpl & HF & Ha) H. unfold layout_object in H.
  step_in H o Eo. destruct (place_segments a (o_data o)) as [[a1 data]|] eqn:Ep; [|done].
  step_in H l1 El1. step_in H l2 El2. injection H as <-.
  pose proof Eo as Eo'. apply at_Ok in Eo' as [Hkr Hko].
  assert (datas l !! Z.to_nat k = Some (o_data o)) as Hd by (unfold datas; by rewrite list_lookup_fmap, Hko).
  pose proof (proj1 (Forall_lookup _ _) HF _ _ Hd) as Hdo.
  apply place_segments_placed in Ep as (Hp1 & Hpl1 & Ha1); [|lia|done].
  assert (datas l2 = datas l1) as H21.
  { unfold datas. apply (for_preserves (fun l => o_data <$> l_objects l)) in El2; [done|].
    intros. by eapply layout_symbol_same. }
  apply put_obj_Ok in El1 as [_ ->].
  assert (datas l2 = <[Z.to_nat k := data]> (datas l)) as H2.
  { rewrite H21. unfold datas. cbn. by rewrite list_fmap_insert. }
  assert (length (datas l2) = length (datas l)) as Hl2 by (rewrite H2; apply length_insert).
  unfold layout_inv. rewrite H2. split_and!; [| | |lia..].
  - unfold datas in Hl2. rewrite !length_fmap in Hl2. congruence.
  - replace (Z.to_nat (k + 1)) with (S (Z.to_nat k)) by lia.
    rewrite (take_S_r _ _ data) by (apply list_lookup_insert_eq; unfold datas; rewrite length_fmap; lia).
    rewrite take_insert_ge by lia. rewrite concat_app. cbn. rewrite app_nil_r. by eapply placed_app.
  - by apply Forall_insert.
Qed.

(** The segments of all objects are laid out one after the other from
    address 1024, each at its alignment, none overlapping another, and the
    one-megabyte stack above them ends below 2^32 with a 16-byte aligned
    start: none of the 32-bit address computations wraps. *)
Theorem layout_disjoint l address nf ng nd l' :
  Forall (Forall placeable) (datas l) -> layout l = Ok (address, nf, ng, nd, l') ->
  let segments := concat (datas l') in
  let stack_low := Z.land (u32 (address + 15)) (Z.lnot 15) in
  placed 1024 segments address
  /\ (forall i j d e, (i < j)%nat -> segments !! i = Some d -> segments !! j = Some e ->
        d_address d + d_n d <= d_address e /\ d_address e + d_n e <= address)
  /\ address <= stack_low < address + 16 /\ (16 | stack_low) /\ stack_low + 1048576 < 2 ^ 32.
Proof.
  intros HF H. cbv zeta.
  apply (for_inv (fun k st => 0 <= k /\ layout_inv l k st)) in H as [_ (Hlen & Hp & HF' & Ha)].
  2: { intros j s s' Hj [Hj0 HI] Hb. split; [lia|]. eapply layout_object_inv; eauto. }
  2: { split; [lia|]. split_and!; try done. }
  rewrite take_ge in Hp by (unfold datas; rewrite length_fmap; lia).
  split; [done|]. split.
  { intros i j d e Hij Hi Hj. eapply placed_disjoint in Hp as (_ & ?); eauto. by apply Forall_concat. }
  pose proof (align_up address 4 ltac:(lia)) as [Hr Hdiv]. cbv zeta in *.
  assert (MEMORY_LIMIT + 1048592 = 2 ^ 32 - 1) by reflexivity.
  rewrite u32_small by lia.
  change (Z.shiftl 1 4) with 16 in *. change (2 ^ 4) with 16 in *.
  replace (address + 15) with (address + 16 - 1) by lia. split; [exact Hr|].
  split; [exact Hdiv|]. change (Z.lnot 15) with (Z.lnot (16 - 1)). lia.
Qed.

Definition two_segments : Link :=
  MkLink [set_data (empty_object []) [MkSegment 0 5 0 0; MkSegment 5 8 3 0];
          set_data (empty_object []) [MkSegment 0 3 4 0]] [] [] [] [].

Lemma layout_disjoint_witness :
  exists l', layout two_segments = Ok (1043, 0, 1, 3, l')
    /\ placed 1024 (concat (datas l')) 1043
    /\ map d_address (concat (datas l')) = [1024; 1032; 1040].
Proof.
  eexists. split; [vm_compute; reflexivity|]. split; [|reflexivity].
  eapply (proj1 (layout_disjoint two_segments 1043 0 1 3 _ _ _)).
  Unshelve.
  - unfold placeable. apply (bool_decide_unpack _). vm_compute. exact I.
  - vm_compute. reflexivity.
Defined.

(** ** Function indices *)

Lemma number_from_spec n : forall m a next m' next',
  0 <= next -> next + Z.of_nat n < 2 ^ 32 -> 0 <= a ->
  number_from n m a next = Ok (m', next') ->
  next' = next + Z.of_nat n
  /\ length m' = length m
  /\ (forall i, 0 <= i < Z.of_nat n -> get_at m' (a + i) = Some (next + i))
  /\ (forall j, j < a -> get_at m' j = get_at m j).
Proof.
  induction n as [|n IH]; intros m a next m' next' Hn Hb Ha H; cbn [number_from] in H.
  { simplify_eq. split_and!; [lia|done|intros; lia|done]. }
  step_in H m1 E. apply put_at_Ok in E as [Har ->]. rewrite u32_small in H by lia.
  apply IH in H as (-> & Hl & Hi & Hj); [|lia..]. rewrite length_insert in Hl.
  split_and!; [lia|done| |].
  - intros i Hir. destruct (Z.eq_dec i 0) as [->|].
    + rewrite Z.add_0_r, Hj by lia. apply get_at_Some. rewrite length_insert. split; [lia|].
      rewrite list_lookup_insert_eq by lia. f_equal. lia.
    + replace (a + i) with (a + 1 + (i - 1)) by lia. rewrite Hi by lia. f_equal. lia.
  - intros j Hja. rewrite Hj by lia. unfold get_at. rewrite length_insert. split_if; [|done].
    to_prop. rewrite list_lookup_insert_ne by lia. done.
Qed.

(** What index assignment does not change. *)
Definition shape (o : Object) : list Z * list bytes * Z * Z :=
  (o_functions o, o_globals o, o_nfimp o, o_ngimp o).
Definition shape_maps (o : Object) : list Z * list bytes * Z * Z * list Z * list Z :=
  (shape o, o_fmap o, o_gmap o).

Lemma index_symbol_same k i l l' :
  index_symbol k i l = Ok l' -> shape_maps <$> l_objects l' = shape_maps <$> l_objects l.
Proof.
  unfold index_symbol. intros H. step_in H o E1. step_in H y E2. split_if_in H; [by simplify_eq|].
  split_if_in H.
  - split_if_in H; [done|]. step_in H v E3. by eapply put_sym_same.
  - split_if_in H; [|by simplify_eq]. split_if_in H; [done|]. step_in H v E3. by eapply put_sym_same.
Qed.

(** The number of functions of the first [k] objects. *)
Definition functions_before (l : Link) (k : nat) : Z := len (concat (take k (o_functions <$> l_objects l))).

Definition index_inv (l0 : Link) (k : Z) (st : Z * Z * Link) : Prop :=
  let '(fn, gn, l) := st in
  shape <$> l_objects l = shape <$> l_objects l0
  /\ fn = len (l_imports l0) + functions_before l0 (Z.to_nat k)
  /\ forall j o i, (j < Z.to_nat k)%nat -> l_objects l !! j = Some o -> 0 <= i < o_nf o ->
       get_at (o_fmap o) (o_nfimp o + i)
       = Some (len (l_imports l0) + functions_before l0 j + i).

Lemma functions_before_S l k o :
  l_objects l !! k = Some o -> functions_before l (S k) = functions_before l k + o_nf o.
Proof.
  intros Ho. unfold functions_before, o_nf, len.
  rewrite (take_S_r _ _ (o_functions o)) by (by rewrite list_lookup_fmap, Ho).
  rewrite concat_app, length_app. cbn. rewrite app_nil_r. lia.
Qed.

Lemma functions_before_mono l k k' : (k <= k')%nat -> functions_before l k <= functions_before l k'.
Proof.
  intros Hk. unfold functions_before, len.
  rewrite <- (take_drop k (take k' (o_functions <$> l_objects l))), take_take, Nat.min_l by lia.
  rewrite concat_app, length_app. lia.
Qed.

Lemma index_object_inv l0 k st st' :
  0 <= k ->
  len (l_imports l0) + functions_before l0 (length (l_objects l0)) < 2 ^ 32 ->
  Forall (fun o => 0 <= o_nfimp o) (l_objects l0) ->
  index_inv l0 k st -> index_object k st = Ok st' -> index_inv l0 (k + 1) st'.
Proof.
  destruct st as [[fn gn] l]. intros Hk Hbound Hnf (Hs & Hfn & Hj) H. unfold index_object in H.
  step_in H o Eo. destruct (number_from _ (o_fmap o) _ _) as [[fm fn1]|] eqn:Ef; [|done].
  destruct (number_from _ (o_gmap o) _ _) as [[gm gn1]|] eqn:Eg; [|done].
  step_in H l1 El1. step_in H l2 El2. injection H as <-.
  pose proof Eo as Eo'. apply at_Ok in Eo' as [Hkr Hko].
  assert (length (l_objects l) = length (l_objects l0)) as Hlen
    by (apply (f_equal length) in Hs; by rewrite !length_fmap in Hs).
  assert (exists o0, l_objects l0 !! Z.to_nat k = Some o0 /\ shape o = shape o0) as (o0 & Ho0 & Hsh).
  { apply (f_equal (fun x => x !! Z.to_nat k)) in Hs. rewrite !list_lookup_fmap, Hko in Hs. cbn [fmap option_fmap option_map] in Hs.
    destruct (l_objects l0 !! Z.to_nat k) as [o0|]; [|done]. exists o0. split; [done|]. by apply (inj Some). }
  assert (o_functions o = o_functions o0 /\ o_nfimp o = o_nfimp o0) as [Hfo Hio]
    by (unfold shape in Hsh; split; congruence).
  pose proof (proj1 (Forall_lookup _ _) Hnf _ _ Ho0) as Hnf0. cbn in Hnf0.
  pose proof (functions_before_S l0 _ _ Ho0) as HS. unfold o_nf, len in HS. rewrite <- Hfo in HS.
  pose proof (functions_before_mono l0 (S (Z.to_nat k)) (length (l_objects l0)) ltac:(lia)).
  assert (0 <= functions_before l0 (Z.to_nat k)) by (unfold functions_before, len; lia).
  apply number_from_spec in Ef as (-> & _ & Hf & _); [|unfold len in *; lia..].
  assert (shape_maps <$> l_objects l2 = shape_maps <$> l_objects l1) as H21.
  { apply (for_preserves (fun l => shape_maps <$> l_objects l)) in El2; [done|].
    intros. by eapply index_symbol_same. }
  apply put_obj_Ok in El1 as [_ ->]. cbn in H21.
  assert (shape <$> l_objects l2 = shape <$> l_objects l) as Hs2.
  { apply (f_equal (fmap (fun s : _ * list Z * list Z => fst (fst s)))) in H21.
    rewrite <- !list_fmap_compose in H21. etrans; [exact H21|].
    rewrite list_fmap_insert. apply list_insert_id. by rewrite list_lookup_fmap, Hko. }
  split_and!; [congruence| |].
  - replace (Z.to_nat (k + 1)) with (S (Z.to_nat k)) by lia. rewrite HS. lia.
  - intros j oj i Hjk Hoj Hi.
    apply (f_equal (fun x => x !! j)) in H21. rewrite !list_lookup_fmap, Hoj in H21. cbn in H21.
    destruct (decide (j = Z.to_nat k)) as [->|Hne].
    + rewrite list_lookup_insert_eq in H21 by lia. cbn in H21. injection H21 as H1 H2 H3 H4 H5 H6.
      unfold o_nf in Hi. rewrite H1 in Hi. unfold o_nf, len in *. rewrite H5, H3.
      rewrite Hf by (unfold len; lia). f_equal. lia.
    + rewrite list_lookup_insert_ne in H21 by done.
      destruct (l_objects l !! j) as [o1|] eqn:E1; [|done]. cbn in H21. injection H21 as H1 H2 H3 H4 H5 H6.
      unfold o_nf in Hi. rewrite H1 in Hi. rewrite H5, H3. eapply Hj; [lia|done|done].
Qed.

Lemma functions_before_all l : functions_before l (length (l_objects l)) = len (concat (o_functions <$> l_objects l)).
Proof. unfold functions_before. by rewrite take_ge by (by rewrite length_fmap). Qed.

(** Function indices follow the imports and then the code section's own
    order: function [i] of object [k] gets the number of imports plus the
    number of functions of the objects before it plus [i], so no two functions
    share an index and [fn] counts them all. *)
Theorem function_indices_consecutive l fn gn l' :
  len (l_imports l) + len (concat (o_functions <$> l_objects l)) < 2 ^ 32 ->
  Forall (fun o => 0 <= o_nfimp o) (l_objects l) ->
  assign_indices l = Ok (fn, gn, l') ->
  fn = len (l_imports l) + len (concat (o_functions <$> l_objects l))
  /\ forall k o i, l_objects l' !! k = Some o -> 0 <= i < o_nf o ->
       get_at (o_fmap o) (o_nfimp o + i)
       = Some (len (l_imports l) + functions_before l k + i).
Proof.
  intros Hb Hnf H. rewrite <- functions_before_all in Hb.
  apply (for_inv (fun k st => 0 <= k /\ index_inv l k st)) in H as [_ (Hs & Hfn & Hj)].
  2: { intros j s s' Hr [Hj0 HI] Hbody. split; [lia|]. eapply index_object_inv; eauto. }
  2: { split; [lia|]. split_and!; [done| |intros; lia]. unfold functions_before. rewrite take_0. symmetry. apply Z.add_0_r. }
  split.
  - rewrite Hfn, <- functions_before_all. do 3 f_equal. lia.
  - intros k o i Ho Hi. apply (Hj k o i); [|done|done].
    apply lookup_lt_Some in Ho. apply (f_equal length) in Hs. rewrite !length_fmap in Hs. lia.
Qed.

Definition three_functions : Link :=
  MkLink [set_maps (set_functions (set_imports (empty_object []) [] 1 0) [0; 0]) [0; 0; 0] [];
          set_maps (set_functions (empty_object []) [0]) [0] []]
    [] [MkImport [] [] 0 0; MkImport [] [] 0 0] [] [].

Lemma function_indices_consecutive_witness :
  exists l', assign_indices three_functions = Ok (5, 1, l')
    /\ o_fmap <$> l_objects l' = [[0; 2; 3]; [4]]
    /\ 5 = len (l_imports three_functions)
            + len (concat (o_functions <$> l_objects three_functions)).
Proof.
  assert (exists l', assign_indices three_functions = Ok (5, 1, l')) as [l' E]
    by (eexists; vm_compute; reflexivity).
  exists l'. split; [exact E|]. split; [vm_compute in E; injection E as <-; reflexivity|].
  apply (proj1 (function_indices_consecutive three_functions 5 1 l'
    ltac:(vm_compute; reflexivity) ltac:(apply (bool_decide_unpack _); vm_compute; exact I) E)).
Defined.

(** ** Relocation *)

(** A little-endian value. *)
Definition le_value (bs : bytes) : Z := foldr (fun b acc => b + 256 * acc) 0 bs.

Lemma patch_raw_value kind v :
  0 <= v < 2 ^ 32 -> patch_raw kind = true -> le_value (patch_bytes kind v) = v.
Proof.
  intros Hv Hr. unfold patch_bytes. rewrite Hr. cbn [map le_value foldr].
  unfold u8, wrap. rewrite !Z.shiftr_div_pow2 by lia. change (2 ^ 8) with 256.
  change (2 ^ (8 * 0)) with 1. change (2 ^ (8 * 1)) with 256. rewrite Z.div_1_r.
  assert (v / 2 ^ (8 * 2) = v / 256 / 256) as -> by now rewrite Z.div_div.
  assert (v / 2 ^ (8 * 3) = v / 256 / 256 / 256) as -> by now rewrite !Z.div_div.
  assert (v / 256 / 256 / 256 < 256) by (rewrite !Z.div_div by lia; apply Z.div_lt_upper_bound; lia).
  assert (0 <= v / 256 / 256 / 256) by (rewrite !Z.div_div by lia; apply Z.div_pos; lia).
  rewrite (Z.mod_small (v / 256 / 256 / 256)) by lia.
  pose proof (Z.div_mod v 256). pose proof (Z.div_mod (v / 256) 256).
  pose proof (Z.div_mod (v / 256 / 256) 256). lia.
Qed.

Lemma patch_bytes_length kind v : length (patch_bytes kind v) = if patch_raw kind then 4%nat else 5%nat.
Proof. unfold patch_bytes. by destruct (patch_raw kind). Qed.

Lemma payload_in_file n o dst j start size :
  object_wf n o -> payload o dst j = Ok (start, size) -> in_file (o_file o) start size.
Proof.
  intros Hwf H. unfold payload in H. split_if_in H.
  - destruct (o_bodies o) as [bs|] eqn:Eb; [|done]. apply at_Ok in H as [_ H].
    exact (proj1 (Forall_lookup _ _) (wf_bodies _ _ Hwf _ Eb) _ _ H).
  - step_in H d E. simplify_eq. apply at_Ok in E as [_ E].
    by apply (proj1 (Forall_lookup _ _) (wf_data _ _ Hwf) _ _ E).
Qed.

(** How a relocation is written: an unsigned or a signed LEB128 number padded
    to five bytes, or a little-endian word. *)
Inductive reloc_form := Leb | Signed_leb | Word.
(** The relocations of the object format that name a symbol: the type of the
    relocation, how it is written, the kind of symbol it needs, and what is
    added to the value of the symbol: the slots of the function table start
    at one. *)
Definition symbol_relocations : list (Z * (reloc_form * Z * Z)) :=
  [(0, (Leb, 0, 0)); (26, (Word, 0, 0));                            (* index of a function *)
   (1, (Signed_leb, 0, 1)); (2, (Word, 0, 1));                      (* slot of a function *)
   (3, (Leb, 1, 0)); (4, (Signed_leb, 1, 0)); (5, (Word, 1, 0));    (* address of data *)
   (7, (Leb, 2, 0)); (13, (Word, 2, 0));                            (* index of a global *)
   (20, (Leb, 5, 0))].                                              (* index of a table *)
Inductive relocates (o : Object) (kind index : Z) : reloc_form -> Z -> Prop :=
| relocates_type t : kind = 6 -> get_at (o_types o) index = Some t -> relocates o kind index Leb t
| relocates_symbol form needs extra y :
    In (kind, (form, needs, extra)) symbol_relocations -> get_at (o_symbols o) index = Some y -> y_kind y = needs ->
    relocates o kind index form (y_value y + extra).
Definition is_word (form : reloc_form) : bool := match form with Word => true | _ => false end.
Definition is_signed (form : reloc_form) : bool := match form with Signed_leb => true | _ => false end.
Definition form_width (form : reloc_form) : Z := if is_word form then 4 else 5.
(** The [w] bytes at [p] lie in the section and in one of the functions or
    segments it holds. *)
Definition in_payload (o : Object) (dst : Section_) (p w : Z) : Prop :=
  p + w <= s_p dst + s_n dst /\
  exists start size,
    (if s_id dst =? 10 then exists bs, o_bodies o = Some bs /\ In (start, size) bs
     else exists d, In d (o_data o) /\ d_p d = start /\ d_n d = size)
    /\ s_p dst <= start <= p /\ p + w <= start + size.
(** The number LEB128 bytes stand for, the first the least significant. *)
Definition leb_value (bs : bytes) : Z := foldr (fun b acc => b mod 128 + 128 * acc) 0 bs.
(** The bytes [bs] write [v]: the continuation bit is set in all but the last
    byte of an LEB128 number, and bit 6 of the last is the sign of a signed one. *)
Definition encodes (form : reloc_form) (bs : bytes) (v : Z) : Prop :=
  match form with
  | Word => length bs = 4%nat /\ Forall is_byte bs /\ le_value bs = v
  | Leb => exists a b c d e, bs = [a; b; c; d; e] /\ Forall (fun x => 128 <= x < 256) [a; b; c; d] /\ 0 <= e < 128 /\ leb_value bs = v
  | Signed_leb => exists a b c d e, bs = [a; b; c; d; e] /\ Forall (fun x => 128 <= x < 256) [a; b; c; d] /\ 0 <= e < 128
                    /\ leb_value bs - (if 64 <=? e then 2 ^ 35 else 0) = i32 v
  end.

Lemma patch_encodes kind v form :
  0 <= v < 2 ^ 32 -> patch_raw kind = is_word form ->
  (kind =? 1) || (kind =? 4) = is_signed form -> encodes form (patch_bytes kind v) v.
Proof.
  intros Hv Hr Hs. destruct form; cbn [encodes].
  3: { split; [by rewrite patch_bytes_length, Hr|]. split; [|by apply patch_raw_value]. unfold patch_bytes. rewrite Hr. cbn [map].
       repeat constructor; unfold is_byte, u8, wrap; apply Z.mod_pos_bound; lia. }
  all: rewrite patch_bytes_code by done; cbv zeta; rewrite Hs; pose proof (digits5 v Hv) as HD; cbv zeta in HD;
    pose proof (fun i => Z.mod_pos_bound (v / 2 ^ (7 * i)) 128 ltac:(lia)) as Hd;
    assert (0 <= v / 2 ^ 28 < 16) as Ht by (split; [apply Z.div_pos; lia|apply Z.div_lt_upper_bound; lia]);
    pose proof (Hd 0); pose proof (Hd 1); pose proof (Hd 2); pose proof (Hd 3); unfold patch_top, leb_value; cbn [is_signed andb foldr];
    set (d0 := v / 2 ^ (7 * 0) mod 128) in *; set (d1 := v / 2 ^ (7 * 1) mod 128) in *; set (d2 := v / 2 ^ (7 * 2) mod 128) in *;
    set (d3 := v / 2 ^ (7 * 3) mod 128) in *; set (t := v / 2 ^ 28) in *; clearbody d0 d1 d2 d3 t.
  all: assert (forall x, 0 <= x < 128 -> (x + 128) mod 128 = x) as Hm
    by (intros x Hx; rewrite <- (Z.mul_1_l 128) at 1; rewrite Z_mod_plus_full; by apply Z.mod_small).
  all: eexists _, _, _, _, _; split; [reflexivity|]; (split; [repeat constructor; lia|]).
  - split; [lia|]. rewrite !Hm, (Z.mod_small t) by lia. lia.
  - destruct (Z.leb_spec 8 t); (split; [lia|]); rewrite !Hm, Z.mod_small by lia; unfold i32, to_signed, wrap; rewrite Z.mod_small by lia; zb; lia.
Qed.

(** The switch over the relocation types. *)
Definition value_meant (o : Object) (kind index : Z) (r : out Z) : Prop :=
  match r with
  | Ok v => exists form value, relocates o kind index form value /\ v mod 2 ^ 32 = value mod 2 ^ 32
              /\ patch_raw kind = is_word form
              /\ (kind =? 1) || (kind =? 4) = is_signed form
  | Err (Failed _) => forall form value, ~ relocates o kind index form value
  | Err _ => False
  end.
Definition reloc_kinds : list Z := map fst symbol_relocations.
Lemma relocation_known o kind index form needs extra y :
  In (kind, (form, needs, extra)) symbol_relocations -> get_at (o_symbols o) index = Some y ->
  value_meant o kind index (relocation_value o kind index).
Proof.
  intros Hin Hy. pose proof (proj1 (get_at_Some _ _ _) Hy) as [Hi _]. unfold relocation_value, at_. rewrite Hy.
  destruct (Z.leb_spec (len (o_symbols o)) index) as [Hl|_]; [unfold len in Hl; lia|].
  assert (forall form' value, relocates o kind index form' value -> y_kind y = needs).
  { intros form' value [t Hk _|form0 needs0 extra0 y0 Hin0 Hy0 Hk0].
    - exfalso. subst kind. cbn in Hin. repeat (destruct Hin as [Hin|Hin]; [discriminate Hin|]). done.
    - rewrite Hy0 in Hy. injection Hy as ->. rewrite Hk0. cbn in Hin, Hin0.
      repeat (destruct Hin as [Hin|Hin]; [injection Hin as <- <- <- <-; repeat (destruct Hin0 as [Hin0|Hin0]; [first [discriminate Hin0|by injection Hin0 as <- <- <-]|]); done|]). done. }
  destruct (Z.eqb_spec (y_kind y) needs) as [Hn|Hn].
  - assert (relocates o kind index form (y_value y + extra)) as Hr by (by eapply relocates_symbol).
    cbn in Hin. repeat (destruct Hin as [Hin|Hin]; [injection Hin as <- <- <- <-; cbn; rewrite Hn; cbn;
      eexists _, _; (split; [exact Hr|]); (split; [|split; reflexivity]); rewrite ?Z.add_0_r; unfold u32, wrap; rewrite ?Z.mod_mod by lia; reflexivity|]).
    done.
  - assert (forall form' value, ~ relocates o kind index form' value) as Hno by (intros form' value Hr; apply Hn; eauto).
    cbn in Hin. repeat (destruct Hin as [Hin|Hin]; [injection Hin as <- <- <- <-; cbn; rewrite (proj2 (Z.eqb_neq _ _) Hn); exact Hno|]). done.
Qed.
Lemma relocation_value_meant o kind index : 0 <= index -> value_meant o kind index (relocation_value o kind index).
Proof.
  intros Hi. destruct (Z.eq_dec kind 6) as [->|H6].
  { unfold relocation_value, mapped_type, at_. cbn [Z.eqb Pos.eqb]. destruct (Z.leb_spec (len (o_types o)) index) as [Hl|Hl].
    - intros form value [t _ Ht|form0 needs extra y Hin _ _].
      + apply get_at_Some in Ht as [Ht _]. unfold len in Hl. lia.
      + cbn in Hin. repeat (destruct Hin as [Hin|Hin]; [discriminate Hin|]). done.
    - destruct (get_at_is_Some (o_types o) index) as [t Ht]; [unfold len in Hl; lia|]. rewrite Ht. cbn. exists Leb, t. split_and!; try done.
      by apply relocates_type. }
  destruct (get_at (o_symbols o) index) as [y|] eqn:Hy.
  - destruct (in_dec Z.eq_dec kind reloc_kinds) as [Hk|Hk].
    + unfold reloc_kinds in Hk. apply in_map_iff in Hk as ([k [[form needs] extra]] & <- & Hin). by eapply relocation_known.
    + pose proof (proj1 (get_at_Some _ _ _) Hy) as [Hr _]. unfold relocation_value, at_. rewrite Hy, (proj2 (Z.eqb_neq kind 6)) by done.
      destruct (Z.leb_spec (len (o_symbols o)) index) as [Hl|_]; [unfold len in Hl; lia|].
      assert (forall c, In c reloc_kinds -> (kind =? c) = false) as Hne by (intros c Hc; apply Z.eqb_neq; by intros ->).
      cbn. rewrite !Hne by (cbn; tauto). cbn.
      intros form value [t ? _|form0 needs extra y0 Hin _ _]; [done|]. apply Hk, in_map_iff. by exists (kind, (form0, needs, extra)).
  - unfold relocation_value. rewrite (proj2 (Z.eqb_neq kind 6)) by done.
    destruct (Z.leb_spec (len (o_symbols o)) index) as [_|Hl].
    + intros form value [t ? _|form0 needs extra y0 _ Hy0 _]; [done|congruence].
    + destruct (get_at_is_Some (o_symbols o) index) as [y Hy']; [unfold len in Hl; lia|]. congruence.
Qed.

(** The search for the payload. *)
Definition payloads_known (o : Object) (dst : Section_) : Prop :=
  s_id dst = 10 -> exists bs, o_bodies o = Some bs /\ length bs = length (o_functions o).
Definition payload_list (o : Object) (dst : Section_) : list (Z * Z) :=
  if s_id dst =? 10 then default [] (o_bodies o) else map (fun d => (d_p d, d_n d)) (o_data o).
Lemma payload_lookup o dst j x : payload_list o dst !! j = Some x -> payload o dst (Z.of_nat j) = Ok x.
Proof.
  unfold payload_list, payload, at_. destruct (s_id dst =? 10).
  - destruct (o_bodies o) as [bs|]; [|done]. cbn. intros H. unfold get_at. pose proof (lookup_lt_Some _ _ _ H). zb. rewrite Nat2Z.id, H. done.
  - intros H. apply list_lookup_fmap_Some in H as (d & -> & H). unfold get_at. pose proof (lookup_lt_Some _ _ _ H). zb. rewrite Nat2Z.id, H. done.
Qed.
Lemma contained_loop_spec o dst off width : forall n j,
  (j + n = length (payload_list o dst))%nat ->
  exists b, contained_loop n o dst off width (Z.of_nat j) = Ok b
  /\ (b = true <-> exists i start size, (j <= i)%nat /\ payload_list o dst !! i = Some (start, size)
        /\ u64 (start - s_p dst) <= off /\ off - u64 (start - s_p dst) <= size /\ width <= size - (off - u64 (start - s_p dst))).
Proof.
  induction n as [|n IH]; intros j Hj; cbn [contained_loop].
  - exists false. split; [done|]. split; [done|]. intros (i & start & size & Hi & Hl & _). apply lookup_lt_Some in Hl. lia.
  - destruct (lookup_lt_is_Some_2 (payload_list o dst) j) as [[start size] Hl]; [lia|]. rewrite (payload_lookup _ _ _ _ Hl). cbv zeta.
    destruct (_ && _) eqn:Hb.
    + to_prop. exists true. split; [done|]. split; [|done]. intros _. exists j, start, size. split_and!; auto; lia.
    + destruct (IH (S j)) as (b & Hb' & Hiff); [lia|]. replace (Z.of_nat j + 1) with (Z.of_nat (S j)) by lia. exists b. split; [done|].
      rewrite Hiff. split; intros (i & s & z & Hi & Hp & H1 & H2 & H3); exists i, s, z; (split; [|done]); [lia|].
      destruct (Nat.eq_dec i j) as [->|]; [|lia]. rewrite Hl in Hp. injection Hp as <- <-. to_prop. lia.
Qed.
Lemma contained_spec n o dst off width :
  object_wf n o -> In dst (o_sections o) -> len (o_file o) < 2 ^ 63 -> 0 <= off < 2 ^ 32 -> payloads_known o dst ->
  exists b, contained o dst off width = Ok b
  /\ (b = true <-> exists start size, In (start, size) (payload_list o dst) /\ s_p dst <= start <= s_p dst + off /\ s_p dst + off + width <= start + size
       /\ s_p dst + off <= start + size).
Proof.
  intros Hwf Hin Hlen Hoff Hk. unfold contained.
  assert ((if s_id dst =? 10 then length (o_functions o) else length (o_data o)) = length (payload_list o dst)) as ->.
  { unfold payload_list. destruct (Z.eqb_spec (s_id dst) 10) as [E|E]; [|by rewrite length_map]. destruct (Hk E) as (bs & -> & <-). done. }
  destruct (contained_loop_spec o dst off width (length (payload_list o dst)) 0 ltac:(lia)) as (b & Hb & Hiff). exists b. split; [done|].
  rewrite Hiff. pose proof (wf_sections _ _ Hwf) as HS. rewrite List.Forall_forall in HS. destruct (HS dst Hin) as (Hd0 & Hdn & Hde).
  assert (forall i start size, payload_list o dst !! i = Some (start, size) -> in_file (o_file o) start size) as Hf
    by (intros i start size Hl%payload_lookup; by eapply payload_in_file).
  assert (forall start size, in_file (o_file o) start size ->
    u64 (start - s_p dst) = if start <? s_p dst then start - s_p dst + 2 ^ 64 else start - s_p dst) as Hu.
  { intros start size (Hs0 & Hsz & Hse). destruct (Z.ltb_spec start (s_p dst)); [|apply u64_small; lia].
    symmetry. apply (Z.mod_unique _ _ (-1)); lia. }
  split.
  - intros (i & start & size & _ & Hl & H1 & H2 & H3). exists start, size. pose proof (Hf _ _ _ Hl) as Hin'.
    split; [apply list_elem_of_In; by eapply list_elem_of_lookup_2|]. rewrite (Hu _ _ Hin') in *. destruct Hin' as (? & ? & ?).
    destruct (Z.ltb_spec start (s_p dst)); lia.
  - intros (start & size & Hl & H1 & H2 & H3). apply list_elem_of_In, list_elem_of_lookup in Hl as [i Hl]. exists i, start, size.
    pose proof (Hf _ _ _ Hl) as Hin'. rewrite (Hu _ _ Hin'). split_and!; try done; try lia; destruct (Z.ltb_spec start (s_p dst)); lia.
Qed.
Lemma relocates_width o kind index form value form' value' :
  relocates o kind index form value -> relocates o kind index form' value' -> form_width form' = form_width form.
Proof.
  intros [t -> Ht|f needs extra y Hin Hy Hn] [t' H6 Ht'|f' needs' extra' y' Hin' Hy' Hn']; [done| |subst kind|].
  - cbn in Hin'. repeat (destruct Hin' as [Hin'|Hin']; [discriminate Hin'|]). done.
  - cbn in Hin. repeat (destruct Hin as [Hin|Hin]; [discriminate Hin|]). done.
  - cbn in Hin, Hin'.
    repeat (destruct Hin as [Hin|Hin];
      [injection Hin as <- <- <- <-; repeat (destruct Hin' as [Hin'|Hin']; [first [discriminate Hin'|by injection Hin' as <- <- <-]|]); done|]). done.
Qed.
Lemma payload_list_in o dst start size :
  payloads_known o dst ->
  In (start, size) (payload_list o dst)
  <-> if s_id dst =? 10 then exists bs, o_bodies o = Some bs /\ In (start, size) bs
      else exists d, In d (o_data o) /\ d_p d = start /\ d_n d = size.
Proof.
  intros Hk. unfold payload_list. destruct (Z.eqb_spec (s_id dst) 10) as [E|E].
  - destruct (Hk E) as (bs & -> & _). cbn. split; [eauto|]. by intros (bs' & [= <-] & ?).
  - rewrite in_map_iff. split.
    + intros (d & [= <- <-] & Hd). eauto.
    + intros (d & Hd & <- & <-). eauto.
Qed.
(** C30: a relocation is applied exactly when its type is one the linker
    supports, it names a type of the object or a symbol of the kind that the type
    needs, and its four or five bytes lie in the section and in one function
    body or data segment; otherwise it is reported. Applied, it replaces exactly
    those bytes, by the number of the type, the value of the symbol or (for
    table slots) that value plus one, with the addend, modulo 2^32, written as
    the relocation type asks. For a code section every function has its body. *)
Theorem relocation_applied n o dst kind off index add :
  object_wf n o -> In dst (o_sections o) -> len (o_file o) < 2 ^ 63 -> 0 <= off < 2 ^ 32 -> 0 <= index -> payloads_known o dst ->
  let p := s_p dst + off in
  (exists o' form value bs,
     apply_relocation o dst kind off index add = Ok o' /\ relocates o kind index form value /\ in_payload o dst p (form_width form)
     /\ encodes form bs ((value + add) mod 2 ^ 32)
     /\ o' = set_file o (firstn (Z.to_nat p) (o_file o) ++ bs ++ skipn (Z.to_nat (p + form_width form)) (o_file o)))
  \/ (exists m, apply_relocation o dst kind off index add = Err (Failed m)
      /\ forall form value, relocates o kind index form value -> ~ in_payload o dst p (form_width form)).
Proof.
  intros Hwf Hin Hlen Hoff Hi Hk p. pose proof (relocation_value_meant o kind index Hi) as Hm. unfold apply_relocation.
  destruct (relocation_value o kind index) as [val|[m| |]]; cbn [value_meant] in Hm; try done.
  2: { right. exists m. split; [done|]. intros form value Hr. by destruct (Hm form value). }
  destruct Hm as (form & value & Hr & Hv & Hraw & Hsig).
  assert ((if patch_raw kind then 4 else 5) = form_width form) as Hw by (by rewrite Hraw).
  assert (forall form' value', relocates o kind index form' value' -> form_width form' = form_width form) as Hsame
    by (intros form' value' Hr'; eapply relocates_width; eauto).
  destruct (contained_spec n o dst off (form_width form) Hwf Hin Hlen Hoff Hk) as (b & Hb & Hiff). cbv zeta. rewrite Hw, Hb.
  assert (in_payload o dst p (form_width form) <-> b = true /\ off + form_width form <= s_n dst) as Hpay.
  { rewrite Hiff. unfold in_payload, p. setoid_rewrite <- (payload_list_in o dst _ _ Hk). assert (4 <= form_width form) by (unfold form_width; destruct (is_word form); lia).
    split; [intros (H1 & start & size & H2 & H3 & H4)|intros ((start & size & H2 & H3 & H4 & H5) & H1)]; split; try lia; exists start, size; split_and!; done || lia. }
  destruct b; cbn [negb].
  2: { right. eexists. split; [reflexivity|]. intros form' value' Hr' Hp. rewrite (Hsame _ _ Hr') in Hp. by apply Hpay in Hp as [? _]. }
  unfold patch. rewrite Hw. assert (4 <= form_width form <= 5) as Hw45 by (unfold form_width; destruct (is_word form); lia).
  destruct ((s_n dst <? off) || (s_n dst - off <? form_width form)) eqn:Hout.
  { right. eexists. split; [reflexivity|]. intros form' value' Hr' Hp. rewrite (Hsame _ _ Hr') in Hp. apply Hpay in Hp as [_ ?]. to_prop. lia. }
  left. to_prop. assert (in_payload o dst p (form_width form)) as Hp by (apply Hpay; split; [done|lia]).
  assert (u32 (val + u32 add) = (value + add) mod 2 ^ 32) as ->.
  { unfold u32, wrap. rewrite Z.add_mod_idemp_r by lia. rewrite <- (Z.add_mod_idemp_l val), Hv, Z.add_mod_idemp_l by lia. done. }
  pose proof (Z.mod_pos_bound (value + add) (2 ^ 32) ltac:(lia)) as Hv32. set (v := (value + add) mod 2 ^ 32) in *.
  pose proof (wf_sections _ _ Hwf) as HS. rewrite List.Forall_forall in HS. destruct (HS dst Hin) as (Hd0 & Hdn & Hde).
  assert (len (patch_bytes kind v) = form_width form) as Hpl by (unfold len; rewrite patch_bytes_length, <- Hw; by destruct (patch_raw kind)).
  unfold splice. rewrite (proj2 (Z.leb_le 0 (s_p dst + off))), (proj2 (Z.leb_le (s_p dst + off + _) _)) by (rewrite ?Hpl; lia). cbn [andb].
  eexists _, form, value, (patch_bytes kind v). split; [reflexivity|]. split; [done|]. split; [done|]. split; [by apply patch_encodes|].
  unfold p. do 4 f_equal. rewrite <- Hpl. unfold len. lia.
Qed.

Definition small_object : Object :=
  set_symbols (set_bodies (set_functions (set_sections (empty_object (replicate 20 0))
    [MkSection 10 0 20]) [0]) (Some [(2, 10)]))
    [MkSymbol (Some (str "f")) 0 0 0 0 0 300 0].

Lemma relocation_applied_witness :
  exists o' form value bs,
    apply_relocation small_object (MkSection 10 0 20) 1 4 0 0 = Ok o' /\ relocates small_object 1 0 form value
    /\ in_payload small_object (MkSection 10 0 20) 4 (form_width form)
    /\ encodes form bs ((value + 0) mod 2 ^ 32)
    /\ o' = set_file small_object (firstn 4 (o_file small_object) ++ bs ++ skipn (Z.to_nat (4 + form_width form)) (o_file small_object)).
Proof.
  destruct (relocation_applied 1 small_object (MkSection 10 0 20) 1 4 0 0) as [H|(m & H & _)].
  - constructor; cbn; unfold is_byte, in_file, segment_ok, symbol_pre, len; cbn;
      try (intros ? [= <-]); repeat constructor; cbn; lia || done.
  - by left.
  - vm_compute. reflexivity.
  - lia.
  - lia.
  - intros _. by exists [(2, 10)].
  - exact H.
  - vm_compute in H. discriminate H.
Defined.

(** ** The emitted module *)

Fixpoint encode_sections (secs : list (Z * bytes)) : bytes :=
  match secs with
  | [] => []
  | (id, b) :: rest => ([id] ++ uleb_code 5 (len b) ++ b) ++ encode_sections rest
  end.
(** Where the scan finds them. *)
Fixpoint sections_at (p : Z) (secs : list (Z * bytes)) : list Section_ :=
  match secs with
  | [] => []
  | (id, b) :: rest =>
      let q := p + 1 + len (uleb_code 5 (len b)) in
      MkSection id q (len b) :: sections_at (q + len b) rest
  end.

Lemma uleb_code_nonempty n : (1 <= length (uleb_code 5 n))%nat.
Proof. cbn [uleb_code]. destruct (n / 128 =? 0); cbn; lia. Qed.

Lemma scan_one cap acc id b :
  len b < 2 ^ 32 -> len acc < cap ->
  forall file end_ p rest,
    0 <= p -> skipn (Z.to_nat p) file = ([id] ++ uleb_code 5 (len b) ++ b) ++ rest ->
    p + 1 + len (uleb_code 5 (len b)) + len b <= end_ ->
    parse_sections_body cap acc file end_ p
    = Ok (acc ++ [MkSection id (p + 1 + len (uleb_code 5 (len b))) (len b)],
          p + 1 + len (uleb_code 5 (len b)) + len b).
Proof.
  intros Hb Hcap file end_ p rest Hp Hs He. unfold parse_sections_body, rd_bind.
  assert (0 <= len b) by (unfold len; lia).
  rewrite <- !app_assoc in Hs.
  rewrite (decodes_get id file end_ p _ Hp Hs) by (cbn; unfold len in *; lia).
  assert (skipn (Z.to_nat (p + Z.of_nat (length [id]))) file = uleb_code 5 (len b) ++ b ++ rest) as Hs1.
  { replace (Z.to_nat (p + Z.of_nat (length [id]))) with (Z.to_nat p + 1)%nat by (cbn; lia).
    rewrite <- drop_drop, Hs. done. }
  rewrite (decodes_uleb (len b) ltac:(lia) file end_ (p + Z.of_nat (length [id])) _ ltac:(cbn; lia) Hs1)
    by (cbn [length]; unfold len in *; lia).
  unfold take_. cbn [length]. change (Z.of_nat 1) with 1. fold (len (uleb_code 5 (len b))).
  rewrite (proj2 (Z.ltb_ge _ _)) by (unfold len in *; lia).
  by rewrite (proj2 (Z.ltb_lt _ _)) by done.
Qed.

Lemma scan_sections cap secs : forall acc file end_ p fuel,
  Forall (fun s => len (snd s) < 2 ^ 32) secs -> len acc + len secs <= cap ->
  0 <= p -> skipn (Z.to_nat p) file = encode_sections secs -> end_ = p + len (encode_sections secs) ->
  (length secs < fuel)%nat ->
  rd_while fuel (parse_sections_body cap) acc file end_ p = Ok (acc ++ sections_at p secs, end_).
Proof.
  induction secs as [|[id b] secs IH]; intros acc file end_ p fuel HF Hcap Hp Hs He Hf;
    destruct fuel as [|f]; try lia; cbn [rd_while]; unfold rd_bind at 1 2, rd_here, rd_end.
  - cbn in He. unfold len in He. cbn in He. rewrite (proj2 (Z.ltb_ge _ _)) by lia.
    unfold rd_ret. cbn. rewrite app_nil_r. do 2 f_equal. lia.
  - inversion_clear HF as [|? ? Hb HF']. cbn [snd] in Hb. cbn [encode_sections] in Hs, He.
    pose proof (uleb_code_nonempty (len b)). unfold len in He. rewrite !length_app in He. cbn [length] in He.
    rewrite (proj2 (Z.ltb_lt _ _)) by lia. unfold rd_bind.
    unfold len in Hcap at 1 2. cbn [length] in Hcap.
    rewrite (scan_one cap acc id b Hb) with (rest := encode_sections secs); [|unfold len; lia|done|done|unfold len; lia].
    rewrite IH; [by rewrite <- app_assoc|done| | | | |].
    + unfold len. rewrite length_app. cbn. lia.
    + unfold len. lia.
    + replace (Z.to_nat _) with (Z.to_nat p + length ([id] ++ uleb_code 5 (len b) ++ b))%nat.
      * rewrite <- drop_drop, Hs. apply drop_app_length.
      * rewrite !length_app. cbn [length]. unfold len. lia.
    + unfold len in *. lia.
    + cbn in Hf. lia.
Qed.

Lemma encode_sections_app a b : encode_sections (a ++ b) = encode_sections a ++ encode_sections b.
Proof. induction a as [|[id x] a IH]; [done|]. cbn [encode_sections app]. rewrite IH. by rewrite <- !app_assoc. Qed.

Lemma encode_sections_two secs : 2 * len secs <= len (encode_sections secs).
Proof.
  induction secs as [|[id b] secs IH]; [done|]. pose proof (uleb_code_nonempty (len b)).
  cbn [encode_sections]. unfold len in *. rewrite !length_app. cbn [length]. lia.
Qed.

(** The sections a link emits, in the order the format requires. *)
Definition emitted_ids (l : Link) (fn nd : Z) : list Z :=
  [1] ++ (if len (l_imports l) =? 0 then [] else [2]) ++ [3; 4; 5; 6; 7]
  ++ (if fn =? 0 then [] else [9]) ++ [10] ++ (if nd =? 0 then [] else [11]).
Definition section_body (l : Link) (nf ng nd fn heap max_memory id : Z) : out bytes :=
  if id =? 1 then emit_types l
  else if id =? 2 then emit_imports l
  else if id =? 3 then emit_functions l nf
  else if id =? 4 then emit_table fn
  else if id =? 5 then emit_memory (u32 ((heap + 65535) / 65536)) max_memory
  else if id =? 6 then emit_globals l ng heap
  else if id =? 7 then emit_exports l
  else if id =? 9 then emit_elements fn
  else if id =? 10 then emit_code l nf
  else emit_data l nd.

(** Output so far: the magic and the sections written. *)
Definition written (body : Z -> out bytes) (o : bytes) (ids : list Z) : Prop :=
  exists secs, o = MAGIC ++ encode_sections secs /\ map fst secs = ids
    /\ Forall (fun s => len (snd s) < 2 ^ 32 /\ body (fst s) = Ok (snd s)) secs.

Lemma written_section body o ids id b o' :
  written body o ids -> 0 <= id < 256 -> body id = Ok b -> section o id b = Ok o' ->
  written body o' (ids ++ [id]).
Proof.
  intros (secs & -> & <- & HF) Hid Hb Hs. apply section_Ok in Hs as [Hlen ->].
  rewrite u8_small by lia. exists (secs ++ [(id, b)]). split_and!.
  - rewrite encode_sections_app. cbn [encode_sections]. by rewrite app_nil_r, <- app_assoc.
  - by rewrite map_app.
  - apply Forall_app. split; [done|]. constructor; [|done]. cbn. unfold len, UINT32_MAX in *. split; [lia|done].
Qed.

(** The module a link emits is the header followed by the sections in the
    required order, each with a length that covers exactly its body; the
    linker's own section scan finds exactly these sections again and ends at
    the end of the module. *)
Theorem emitted_module_scans l nf ng nd fn heap max_memory o :
  emit l nf ng nd fn heap max_memory = Ok o ->
  exists secs,
    o = MAGIC ++ encode_sections secs
    /\ map fst secs = emitted_ids l fn nd
    /\ Forall (fun s => section_body l nf ng nd fn heap max_memory (fst s) = Ok (snd s)) secs
    /\ rd_while (S (length o)) (parse_sections_body (len o / 2 + 1)) [] o (len o) 8
       = Ok (sections_at 8 secs, len o).
Proof.
  intros H. enough (written (section_body l nf ng nd fn heap max_memory) o (emitted_ids l fn nd)) as Hw.
  { destruct Hw as (secs & -> & Hids & HF). exists secs. apply Forall_and in HF as [HF1 HF2].
    split_and!; try done. pose proof (encode_sections_two secs) as H2.
    assert (len (MAGIC ++ encode_sections secs) = 8 + len (encode_sections secs)) as Hl
      by (unfold len; rewrite length_app; change (length MAGIC) with 8%nat; lia).
    pose proof (Z.mul_succ_div_gt (len (MAGIC ++ encode_sections secs)) 2 ltac:(lia)).
    apply (scan_sections _ secs []); [done|change (len (@nil Section_)) with 0; lia|lia|done|lia|].
    unfold len in *. lia. }
  unfold emit in H. step_in H o0 E0. apply put_Ok in E0. cbn [app] in E0.
  set (body := section_body l nf ng nd fn heap max_memory).
  assert (written body o0 []) as W0 by (exists []; by rewrite app_nil_r).
  step_in H b1 B1. step_in H o1 E1. eapply written_section in E1; [|exact W0|lia|exact B1].
  clear W0 E0. step_in H o2 E2.
  assert (written body o2 ([1] ++ if len (l_imports l) =? 0 then [] else [2])) as W2.
  { split_if_in E2; [by simplify_eq|]. step_in E2 b2 B2.
    eapply written_section in E2; [exact E2|exact E1|lia|exact B2]. }
  step_in H b3 B3. step_in H o3 E3. eapply written_section in E3; [|exact W2|lia|exact B3].
  step_in H b4 B4. step_in H o4 E4. eapply written_section in E4; [|exact E3|lia|exact B4].
  cbv zeta in H.
  step_in H b5 B5. step_in H o5 E5. eapply written_section in E5; [|exact E4|lia|exact B5].
  step_in H b6 B6. step_in H o6 E6. eapply written_section in E6; [|exact E5|lia|exact B6].
  step_in H b7 B7. step_in H o7 E7. eapply written_section in E7; [|exact E6|lia|exact B7].
  rewrite <- !app_assoc in E7. step_in H o9 E9.
  assert (written body o9 ([1] ++ (if len (l_imports l) =? 0 then [] else [2]) ++ [3; 4; 5; 6; 7]
                           ++ if fn =? 0 then [] else [9])) as W9.
  { destruct (fn =? 0); [simplify_eq; by rewrite app_nil_r|]. step_in E9 b9 B9.
    eapply written_section in E9; [|exact E7|lia|exact B9]. by rewrite <- !app_assoc in E9. }
  step_in H b10 B10. step_in H o10 E10. eapply written_section in E10; [|exact W9|lia|exact B10].
  unfold emitted_ids. destruct (nd =? 0).
  - simplify_eq. by rewrite <- !app_assoc in E10.
  - step_in H b11 B11. eapply written_section in H; [|exact E10|lia|exact B11].
    by rewrite <- !app_assoc in H.
Qed.

Definition empty_link : Link := MkLink [] [] [] [] [].

Lemma emitted_module_scans_witness :
  exists o secs, emit empty_link 0 1 0 0 1049600 0 = Ok o
    /\ o = MAGIC ++ encode_sections secs /\ map fst secs = [1; 3; 4; 5; 6; 7; 10].
Proof.
  assert (exists o, emit empty_link 0 1 0 0 1049600 0 = Ok o) as [o E]
    by (eexists; vm_compute; reflexivity).
  destruct (emitted_module_scans empty_link 0 1 0 0 1049600 0 o E) as (secs & H1 & H2 & _).
  exists o, secs. split; [exact E|]. split; [exact H1|exact H2].
Defined.

(** ** Exports *)

Definition encode_export (e : Export_) : bytes :=
  uleb_code 5 (len (e_name e)) ++ e_name e ++ [u8 (e_kind e)] ++ uleb_code 5 (e_index e).
Definition export_inv (st : export_state) : Prop :=
  let '(es, b, ne) := st in
  es !! 0%nat = Some (MkExport (str "memory") 2 0) /\ NoDup (e_name <$> es) /\ ne = u32 (len es) /\ b = concat (encode_export <$> es).

Lemma find_export_None es n : find_export es n = None -> n ∉ e_name <$> es.
Proof.
  induction es as [|e es IH]; cbn; [intros _; apply not_elem_of_nil|].
  destruct (bytes_eqb_spec (e_name e) n) as [->|Hne]; [done|]. intros H.
  apply not_elem_of_cons. split; [congruence|by apply IH].
Qed.

Lemma export_one_inv st n kind index st' :
  export_inv st -> export_one st n kind index = Ok st' -> export_inv st'.
Proof.
  destruct st as [[es b] ne]. intros (Hm & Hnd & -> & ->) H. unfold export_one in H.
  destruct (find_export es n) eqn:Ef.
  - split_if_in H; [done|]. by simplify_eq.
  - step_in H b1 E1. step_in H b2 E2. step_in H b3 E3. simplify_eq.
    apply string_Ok in E1 as [_ ->]. apply byte_Ok in E2 as ->. apply uleb_Ok in E3 as ->.
    split_and!.
    + by apply lookup_app_l_Some.
    + rewrite fmap_app. cbn. apply NoDup_app. split; [done|]. split; [|apply NoDup_singleton].
      intros x Hx Hin. apply list_elem_of_singleton in Hin as ->. by eapply find_export_None.
    + unfold len. rewrite length_app. cbn [length]. unfold u32, wrap.
      rewrite Nat2Z.inj_add, <- (Z.add_mod_idemp_l (Z.of_nat (length es))) by lia. done.
    + rewrite fmap_app, concat_app. cbn. rewrite app_nil_r. unfold encode_export. cbn.
      by rewrite <- !app_assoc.
Qed.

Lemma export_objects_inv os : forall st st',
  export_inv st -> export_objects st os = Ok st' -> export_inv st'.
Proof.
  assert (forall o es st st', export_inv st -> export_entries o st es = Ok st' -> export_inv st') as He.
  { intros o es. induction es as [|e es IH]; intros st st' HI H; cbn [export_entries] in H;
      [by simplify_eq|]. destruct ((e_kind e =? 2) && _); [by eapply IH|].
    destruct (negb _ && negb _); [done|]. cbv zeta in H. destruct (_ <=? e_index e); [done|].
    step_in H i E1. step_in H st1 E2. eapply IH; [|exact H]. by eapply export_one_inv. }
  assert (forall o ys st st', export_inv st -> export_symbols o st ys = Ok st' -> export_inv st') as Hy.
  { intros o ys. induction ys as [|y ys IH]; intros st st' HI H; cbn [export_symbols] in H;
      [by simplify_eq|]. destruct (negb _ || negb _); [by eapply IH|].
    destruct (y_name y); [|done]. destruct (existsb _ _); [by eapply IH|].
    step_in H st1 E2. eapply IH; [|exact H]. by eapply export_one_inv. }
  induction os as [|o os IH]; intros st st' HI H; cbn [export_objects] in H; [by simplify_eq|].
  step_in H st1 E1. step_in H st2 E2. eapply IH; [|exact H]. eauto.
Qed.

(** The export section lists exactly the collected exports, [memory]
    first, its count is theirs (modulo 2^32), and no name is exported twice. *)
Theorem exports_unique l b :
  emit_exports l = Ok b ->
  exists es,
    es !! 0%nat = Some (MkExport (str "memory") 2 0)
    /\ NoDup (e_name <$> es)
    /\ b = uleb_code 5 (u32 (len es)) ++ concat (encode_export <$> es).
Proof.
  intros H. unfold emit_exports in H.
  destruct (export_one ([], [], 0) (str "memory") 2 0) as [[[es0 ex0] n0]|] eqn:E0; [|done].
  destruct (export_objects (es0, ex0, 1) (l_objects l)) as [[[es ex] ne]|] eqn:E1; [|done].
  step_in H b1 E2. apply uleb_Ok in E2. apply put_Ok in H. subst.
  assert (export_inv (es0, ex0, 1)) as HI.
  { vm_compute in E0. injection E0 as <- <- <-. split_and!; try done. apply NoDup_singleton. }
  apply export_objects_inv in E1 as (Hm & Hnd & -> & ->); [|done]. by exists es.
Qed.

Lemma exports_unique_witness :
  exists es, es !! 0%nat = Some (MkExport (str "memory") 2 0) /\ NoDup (e_name <$> es).
Proof.
  assert (exists b, emit_exports two_objects = Ok b) as [b E] by (eexists; vm_compute; reflexivity).
  destruct (exports_unique two_objects b E) as (es & H1 & H2 & _). by exists es.
Defined.

(** ** Archive sizes *)

Definition digits_value (ds : bytes) : Z := fold_left (fun v c => v * 10 + (c - 48)) ds 0.
Definition is_digit (c : Z) : Prop := 48 <= c <= 57.

Lemma decimal_digits ds : forall rest value seen,
  Forall is_digit ds -> 0 <= value ->
  fold_left (fun v c => v * 10 + (c - 48)) ds value <= SIZE_MAX ->
  decimal_loop (ds ++ rest) value seen
  = decimal_loop rest (fold_left (fun v c => v * 10 + (c - 48)) ds value)
      (match ds with [] => seen | _ => true end).
Proof.
  assert (forall ds v, Forall is_digit ds -> 0 <= v -> v <= fold_left (fun v c => v * 10 + (c - 48)) ds v) as Hm.
  { induction ds0 as [|d ds0 IH]; intros v HF Hv; cbn; [lia|]. inversion_clear HF as [|? ? Hd HF'].
    unfold is_digit in Hd. specialize (IH (v * 10 + (d - 48)) HF'). lia. }
  induction ds as [|d ds IH]; intros rest v seen HF Hv Hle; [done|]. inversion_clear HF as [|? ? Hd HF'].
  unfold is_digit in Hd. cbn [app decimal_loop fold_left] in *.
  specialize (Hm ds (v * 10 + (d - 48)) HF' ltac:(lia)).
  rewrite (proj2 (Z.eqb_neq d 32)), (proj2 (Z.ltb_ge d 48)), (proj2 (Z.ltb_ge 57 d)) by lia. cbn [orb].
  assert (v <= (SIZE_MAX - (d - 48)) / 10) by (apply Z.div_le_lower_bound; lia).
  rewrite (proj2 (Z.ltb_ge _ v)) by done. rewrite IH by (done || lia). by destruct ds.
Qed.

(** A size field of digits followed by spaces is read as its decimal
    value, for every value a [size_t] can hold: the overflow guard never
    rejects a representable size. *)
Theorem decimal_reads ds spaces :
  Forall is_digit ds -> ds <> [] -> digits_value ds <= SIZE_MAX ->
  decimal (ds ++ replicate spaces 32) = Ok (digits_value ds).
Proof.
  intros HF Hne Hle. unfold decimal. rewrite decimal_digits by (done || lia).
  fold (digits_value ds). destruct ds; [done|]. destruct spaces as [|n]; [done|].
  cbn [replicate decimal_loop]. change (32 =? 32) with true. cbn [negb].
  assert (all_spaces (replicate n 32) = true) as ->; [|done]. by induction n.
Qed.

Lemma decimal_reads_witness : decimal (str "18446744073709551615  ") = Ok (2 ^ 64 - 1).
Proof.
  refine (decimal_reads (str "18446744073709551615") 2 _ _ _).
  - unfold is_digit. apply (bool_decide_unpack _). vm_compute. exact I.
  - discriminate.
  - vm_compute. congruence.
Defined.

(** ** Objects whose code section precedes their function section *)

(** A code section with no bodies, before a function section with one
    function. *)
Definition code_before_functions : bytes :=
  MAGIC ++ [1; 4; 1; 0x60; 0; 0] ++ [10; 1; 0] ++ [3; 2; 1; 0]
  ++ [0; 20; 7] ++ str "linking" ++ [2; 8; 9; 1; 0; 0; 0; 4] ++ str "main".

(** The count check of the code section compares with the functions read
    so far; an object that has its function section later is accepted, and
    emitting the code reads a body that was never recorded. *)
Theorem code_section_order_unchecked :
  (exists r, parse [] code_before_functions = Ok r)
  /\ dyn_link_wasm_objects [code_before_functions] [] 0 = Err Undefined.
Proof. split; [eexists|]; vm_compute; reflexivity. Qed.
