(* ===== verification/ElfClass.v ===== *)
(** * ELF class conversion (elf_class.h)

    [dyn_elf_narrow] (ELF64 to ELF32) and [dyn_elf_widen] (ELF32 relocatable
    to ELF64) of src/src/elf_class.h, on byte buffers with checked accesses:
    [None] is a read or write outside a buffer, which C leaves undefined, and
    [Some None] the [return false] of the C code.  Allocation succeeds. *)

From S2P Require Import Prelude.

Definition SHT_SYMTAB : Z := 2.
Definition SHT_RELA : Z := 4.
Definition SHT_NOBITS : Z := 8.
Definition SHT_REL : Z := 9.
Definition SHT_DYNSYM : Z := 11.

(** ** Little-endian fields *)
Definition elf_class_read16 (b : bytes) (p : Z) : option Z :=
  let* x := get_at b p in
  let* y := get_at b (p + 1) in
  Some (Z.lor x (Z.shiftl y 8)).
Definition elf_class_read32 (b : bytes) (p : Z) : option Z :=
  let* x := elf_class_read16 b p in
  let* y := elf_class_read16 b (p + 2) in
  Some (Z.lor x (Z.shiftl y 16)).
Definition elf_class_read64 (b : bytes) (p : Z) : option Z :=
  let* x := elf_class_read32 b p in
  let* y := elf_class_read32 b (p + 4) in
  Some (Z.lor x (Z.shiftl y 32)).

Definition elf_class_write16 (o : bytes) (p v : Z) : option bytes :=
  let* o := set_at o p (u8 v) in
  set_at o (p + 1) (u8 (Z.shiftr v 8)).
Definition elf_class_write32 (o : bytes) (p v : Z) : option bytes :=
  let* o := elf_class_write16 o p v in
  elf_class_write16 o (p + 2) (Z.shiftr v 16).
Definition elf_class_write64 (o : bytes) (p v : Z) : option bytes :=
  let* o := elf_class_write32 o p v in
  elf_class_write32 o (p + 4) (Z.shiftr v 32).

Definition elf_class_inside (size offset length : Z) : bool :=
  (offset <=? size) && (length <=? size - offset).
Definition elf_class_fits (v : Z) : bool := v <=? UINT32_MAX.

(** [memcpy(o + p, in + from, n)] and [memset(o + p, 0, n)]. *)
Definition copy_bytes (o : bytes) (p : Z) (b : bytes) (from n : Z) : option bytes :=
  if (0 <=? n) && (0 <=? from) && (from + n <=? Z.of_nat (length b))
     && (0 <=? p) && (p + n <=? Z.of_nat (length o))
  then Some (firstn (Z.to_nat p) o ++ firstn (Z.to_nat n) (skipn (Z.to_nat from) b)
             ++ skipn (Z.to_nat (p + n)) o)
  else None.
Definition zero_bytes (o : bytes) (p n : Z) : option bytes :=
  if (0 <=? n) && (0 <=? p) && (p + n <=? Z.of_nat (length o))
  then Some (firstn (Z.to_nat p) o ++ replicate (Z.to_nat n) 0 ++ skipn (Z.to_nat (p + n)) o)
  else None.

(** [for (i = first; ok && n rounds; ++i)]; the state carries [ok]. *)
Fixpoint while_ok {S} (n : nat) (i : Z) (ok : S -> bool) (body : Z -> S -> option S) (s : S) : option S :=
  match n with
  | O => Some s
  | Datatypes.S n' =>
      if ok s then let* s := body i s in while_ok n' (i + 1) ok body s else Some s
  end.
Fixpoint for_each {S} (n : nat) (i : Z) (body : Z -> S -> option S) (s : S) : option S :=
  match n with
  | O => Some s
  | Datatypes.S n' => let* s := body i s in for_each n' (i + 1) body s
  end.

Definition ELF_MAGIC : bytes := [127; 69; 76; 70].

(** ** Narrowing *)

(** The state of the loops: [ok] and the output. *)
Definition narrow_state : Type := bool * bytes.

(** One round of the loop that finds the end of the sections' bytes. *)
Definition section_end (inp : bytes) (shoff i end_ : Z) : option Z :=
  let s := shoff + i * 64 in
  let* at_ := elf_class_read64 inp (s + 24) in
  let* length_ := elf_class_read64 inp (s + 32) in
  let* type := elf_class_read32 inp (s + 4) in
  Some (if negb (type =? SHT_NOBITS) && (end_ <? u64 (at_ + length_)) then u64 (at_ + length_) else end_).

Definition narrow_file_header (inp o : bytes) (phoff phnum shnum headers : Z) : option narrow_state :=
  let* o := zero_bytes o 0 64 in
  let* o := copy_bytes o 0 inp 0 16 in
  let* o := set_at o 4 1 in
  let* entry := elf_class_read64 inp 24 in
  let ok := elf_class_fits entry && elf_class_fits phoff in
  let* v := elf_class_read16 inp 16 in
  let* o := elf_class_write16 o 16 v in
  let* v := elf_class_read16 inp 18 in
  let* o := elf_class_write16 o 18 v in
  let* v := elf_class_read32 inp 20 in
  let* o := elf_class_write32 o 20 v in
  let* o := elf_class_write32 o 24 entry in
  let* o := elf_class_write32 o 28 (if phnum =? 0 then 0 else phoff) in
  let* o := elf_class_write32 o 32 (if shnum =? 0 then 0 else headers) in
  let* v := elf_class_read32 inp 48 in
  let* o := elf_class_write32 o 36 v in
  let* o := elf_class_write16 o 40 52 in
  let* o := elf_class_write16 o 42 (if phnum =? 0 then 0 else 32) in
  let* o := elf_class_write16 o 44 phnum in
  let* o := elf_class_write16 o 46 (if shnum =? 0 then 0 else 40) in
  let* o := elf_class_write16 o 48 shnum in
  let* v := elf_class_read16 inp 62 in
  let* o := elf_class_write16 o 50 v in
  Some (ok, o).

(** [ok = ok && elf_class_fits(read64(p + field))] for the six fields. *)
Definition fits_at (inp : bytes) (p : Z) (field : Z) (ok : bool) : option bool :=
  let* v := elf_class_read64 inp (p + field * 8) in Some (ok && elf_class_fits v).

Definition narrow_program_header (inp : bytes) (phoff i : Z) (st : narrow_state) : option narrow_state :=
  let '(ok, o) := st in
  let p := phoff + i * 56 in
  let q := phoff + i * 32 in
  let* ok := for_each 6 1 (fits_at inp p) ok in
  let* v := elf_class_read32 inp p in
  let* o := elf_class_write32 o q v in
  let* v := elf_class_read64 inp (p + 8) in
  let* o := elf_class_write32 o (q + 4) v in
  let* v := elf_class_read64 inp (p + 16) in
  let* o := elf_class_write32 o (q + 8) v in
  let* v := elf_class_read64 inp (p + 24) in
  let* o := elf_class_write32 o (q + 12) v in
  let* v := elf_class_read64 inp (p + 32) in
  let* o := elf_class_write32 o (q + 16) v in
  let* v := elf_class_read64 inp (p + 40) in
  let* o := elf_class_write32 o (q + 20) v in
  let* v := elf_class_read32 inp (p + 4) in
  let* o := elf_class_write32 o (q + 24) v in
  let* v := elf_class_read64 inp (p + 48) in
  let* o := elf_class_write32 o (q + 28) v in
  Some (ok, o).

Definition narrow_symbol (inp : bytes) (at_ k : Z) (st : narrow_state) : option narrow_state :=
  let '(ok, o) := st in
  let from := at_ + k * 24 in
  let to := at_ + k * 16 in
  let* value := elf_class_read64 inp (from + 8) in
  let* bytes_ := elf_class_read64 inp (from + 16) in
  let ok := ok && elf_class_fits value && elf_class_fits bytes_ in
  let* v := elf_class_read32 inp from in
  let* o := elf_class_write32 o to v in
  let* o := elf_class_write32 o (to + 4) value in
  let* o := elf_class_write32 o (to + 8) bytes_ in
  let* v := get_at inp (from + 4) in
  let* o := set_at o (to + 12) v in
  let* v := get_at inp (from + 5) in
  let* o := set_at o (to + 13) v in
  let* v := elf_class_read16 inp (from + 6) in
  let* o := elf_class_write16 o (to + 14) v in
  Some (ok, o).

Definition narrow_relocation (inp : bytes) (at_ entsize width : Z) (addend : bool) (k : Z)
    (st : narrow_state) : option narrow_state :=
  let '(ok, o) := st in
  let from := at_ + k * entsize in
  let to := at_ + k * width in
  let* offset := elf_class_read64 inp from in
  let* info := elf_class_read64 inp (from + 8) in
  let symbol := Z.shiftr info 32 in
  let kind := Z.land info 0xffffffff in
  let ok := ok && elf_class_fits offset && (symbol <? 2 ^ 24) && (kind <? 256) in
  let* o := elf_class_write32 o to offset in
  let* o := elf_class_write32 o (to + 4) (Z.lor (u64 (Z.shiftl symbol 8)) kind) in
  if addend then
    let* raw := elf_class_read64 inp (from + 16) in
    let value := i64 raw in
    let ok := ok && (- 2 ^ 31 <=? value) && (value <=? 2 ^ 31 - 1) in
    let* o := elf_class_write32 o (to + 8) (u32 value) in
    Some (ok, o)
  else Some (ok, o).

Definition is_symbols (type : Z) : bool := (type =? SHT_SYMTAB) || (type =? SHT_DYNSYM).

(** The table of one section; gives its narrowed length and entry size. *)
Definition narrow_table (inp : bytes) (type at_ length_ entsize : Z) (st : narrow_state)
    : option (narrow_state * Z * Z) :=
  let '(ok, o) := st in
  if is_symbols type && (entsize =? 24) then
    let count := length_ / 24 in
    let* o := zero_bytes o at_ length_ in
    let* st := for_each (Z.to_nat count) 0 (narrow_symbol inp at_) (ok, o) in
    Some (st, count * 16, 16)
  else if ((type =? SHT_RELA) && (entsize =? 24)) || ((type =? SHT_REL) && (entsize =? 16)) then
    let addend := type =? SHT_RELA in
    let count := length_ / entsize in
    let width := if addend then 12 else 8 in
    let* o := zero_bytes o at_ length_ in
    let* st := for_each (Z.to_nat count) 0 (narrow_relocation inp at_ entsize width addend) (ok, o) in
    Some (st, count * width, width)
  else Some (st, length_, entsize).

Definition narrow_section (inp : bytes) (shoff headers i : Z) (st : narrow_state) : option narrow_state :=
  let '(ok, o) := st in
  let s := shoff + i * 64 in
  let h := headers + i * 40 in
  let* type := elf_class_read32 inp (s + 4) in
  let* at_ := elf_class_read64 inp (s + 24) in
  let* length_ := elf_class_read64 inp (s + 32) in
  let* entsize := elf_class_read64 inp (s + 56) in
  if negb (type =? SHT_NOBITS) && negb (elf_class_inside (Z.of_nat (length inp)) at_ length_)
  then Some (false, o)
  else
    let* (st, narrowed, narrowed_entsize) := narrow_table inp type at_ length_ entsize st in
    let '(ok, o) := st in
    let* flags := elf_class_read64 inp (s + 8) in
    let* address := elf_class_read64 inp (s + 16) in
    let* align := elf_class_read64 inp (s + 48) in
    let ok := ok && elf_class_fits flags && elf_class_fits address && elf_class_fits at_
              && elf_class_fits narrowed && elf_class_fits align && elf_class_fits narrowed_entsize in
    let* v := elf_class_read32 inp s in
    let* o := elf_class_write32 o h v in
    let* o := elf_class_write32 o (h + 4) type in
    let* o := elf_class_write32 o (h + 8) flags in
    let* o := elf_class_write32 o (h + 12) address in
    let* o := elf_class_write32 o (h + 16) at_ in
    let* o := elf_class_write32 o (h + 20) narrowed in
    let* v := elf_class_read32 inp (s + 40) in
    let* o := elf_class_write32 o (h + 24) v in
    let* v := elf_class_read32 inp (s + 44) in
    let* o := elf_class_write32 o (h + 28) v in
    let* o := elf_class_write32 o (h + 32) align in
    let* o := elf_class_write32 o (h + 36) narrowed_entsize in
    Some (ok, o).

Definition dyn_elf_narrow (inp : bytes) : option (option bytes) :=
  let size := Z.of_nat (length inp) in
  if (size <? 64) || negb (bytes_eqb (firstn 4 inp) ELF_MAGIC) then Some None
  else
    let* class := get_at inp 4 in
    let* order := get_at inp 5 in
    if negb (class =? 2) || negb (order =? 1) then Some None
    else
      let* phoff := elf_class_read64 inp 32 in
      let* shoff := elf_class_read64 inp 40 in
      let* phnum := elf_class_read16 inp 56 in
      let* shnum := elf_class_read16 inp 60 in
      if (negb (phnum =? 0) && negb (elf_class_inside size phoff (phnum * 56)))
         || (negb (shnum =? 0) && negb (elf_class_inside size shoff (shnum * 64)))
      then Some None
      else
        let* end_ := for_each (Z.to_nat shnum) 0 (section_end inp shoff)
                       (if shnum =? 0 then size else shoff) in
        let headers := Z.land (u64 (end_ + 3)) (Z.lnot 3) in
        let total := u64 (headers + shnum * 40) in
        if negb (elf_class_fits total) || (total <? 52) then Some None
        else
          let o := replicate (Z.to_nat total) 0 in
          let* o := copy_bytes o 0 inp 0 (Z.min end_ size) in
          let* st := narrow_file_header inp o phoff phnum shnum headers in
          let* st := while_ok (Z.to_nat phnum) 0 fst (narrow_program_header inp phoff) st in
          let* st := (if phnum =? 0 then Some st
                      else let* o := zero_bytes (snd st) (phoff + phnum * 32) (phnum * 24) in
                           Some (fst st, o)) in
          let* st := while_ok (Z.to_nat shnum) 0 fst (narrow_section inp shoff headers) st in
          let '(ok, o) := st in
          Some (if ok then Some o else None).

(** ** Widening *)

(** First pass: the widened length and alignment of a section. *)
Definition widened_size (type length_ entsize align : Z) : Z * Z :=
  if is_symbols type && (entsize =? 16) then (length_ / 16 * 24, 8)
  else if (type =? SHT_RELA) && (entsize =? 12) then (length_ / 12 * 24, 8)
  else if (type =? SHT_REL) && (entsize =? 8) then (length_ / 8 * 16, 8)
  else (length_, align).

Definition has_bytes (type : Z) : bool := negb (type =? SHT_NOBITS) && negb (type =? 0).

(** [ok], the cursor, and the offsets and lengths so far. *)
Definition size_state : Type := bool * Z * list Z * list Z.
Definition size_section (inp : bytes) (shoff i : Z) (st : size_state) : option size_state :=
  let '(ok, cursor, offsets, lengths) := st in
  let s := shoff + i * 40 in
  let* type := elf_class_read32 inp (s + 4) in
  let* length_ := elf_class_read32 inp (s + 20) in
  let* entsize := elf_class_read32 inp (s + 36) in
  let* align := elf_class_read32 inp (s + 32) in
  let '(widened, align) := widened_size type length_ entsize align in
  let* at_ := elf_class_read32 inp (s + 16) in
  let ok := ok && negb (has_bytes type && negb (elf_class_inside (Z.of_nat (length inp)) at_ length_)) in
  let cursor := if 1 <? align then u64 (u64 (cursor + align - 1) / align * align) else cursor in
  let* lengths := set_at lengths i widened in
  if has_bytes type then
    let* offsets := set_at offsets i cursor in
    Some (ok, u64 (cursor + widened), offsets, lengths)
  else Some (ok, cursor, offsets, lengths).

Definition widen_symbol (inp : bytes) (at_ to k : Z) (o : bytes) : option bytes :=
  let from := at_ + k * 16 in
  let e := to + k * 24 in
  let* v := elf_class_read32 inp from in
  let* o := elf_class_write32 o e v in
  let* v := get_at inp (from + 12) in
  let* o := set_at o (e + 4) v in
  let* v := get_at inp (from + 13) in
  let* o := set_at o (e + 5) v in
  let* v := elf_class_read16 inp (from + 14) in
  let* o := elf_class_write16 o (e + 6) v in
  let* v := elf_class_read32 inp (from + 4) in
  let* o := elf_class_write64 o (e + 8) v in
  let* v := elf_class_read32 inp (from + 8) in
  elf_class_write64 o (e + 16) v.

Definition widen_relocation (inp : bytes) (at_ to entsize : Z) (addend : bool) (k : Z) (o : bytes)
    : option bytes :=
  let from := at_ + k * entsize in
  let e := to + k * (if addend then 24 else 16) in
  let* info := elf_class_read32 inp (from + 4) in
  let* v := elf_class_read32 inp from in
  let* o := elf_class_write64 o e v in
  let* o := elf_class_write64 o (e + 8) (Z.lor (Z.shiftl (Z.shiftr info 8) 32) (Z.land info 0xff)) in
  if addend then
    let* v := elf_class_read32 inp (from + 8) in
    elf_class_write64 o (e + 16) (u64 (i32 v))
  else Some o.

Definition widen_section (inp : bytes) (shoff headers : Z) (offsets lengths : list Z) (i : Z) (o : bytes)
    : option bytes :=
  let s := shoff + i * 40 in
  let h := headers + i * 64 in
  let* type := elf_class_read32 inp (s + 4) in
  let* at_ := elf_class_read32 inp (s + 16) in
  let* length_ := elf_class_read32 inp (s + 20) in
  let* entsize := elf_class_read32 inp (s + 36) in
  let* align := elf_class_read32 inp (s + 32) in
  let* to := get_at offsets i in
  let* (o, entsize, align) :=
    (if is_symbols type && (entsize =? 16) then
       let* o := for_each (Z.to_nat (length_ / 16)) 0 (widen_symbol inp at_ to) o in
       Some (o, 24, 8)
     else if ((type =? SHT_RELA) && (entsize =? 12)) || ((type =? SHT_REL) && (entsize =? 8)) then
       let addend := type =? SHT_RELA in
       let* o := for_each (Z.to_nat (length_ / entsize)) 0
                   (widen_relocation inp at_ to entsize addend) o in
       Some (o, if addend then 24 else 16, 8)
     else if has_bytes type && negb (length_ =? 0) then
       let* o := copy_bytes o to inp at_ length_ in Some (o, entsize, align)
     else Some (o, entsize, align)) in
  let* v := elf_class_read32 inp s in
  let* o := elf_class_write32 o h v in
  let* o := elf_class_write32 o (h + 4) type in
  let* v := elf_class_read32 inp (s + 8) in
  let* o := elf_class_write64 o (h + 8) v in
  let* v := elf_class_read32 inp (s + 12) in
  let* o := elf_class_write64 o (h + 16) v in
  let* o := elf_class_write64 o (h + 24) to in
  let* v := get_at lengths i in
  let* o := elf_class_write64 o (h + 32) v in
  let* v := elf_class_read32 inp (s + 24) in
  let* o := elf_class_write32 o (h + 40) v in
  let* v := elf_class_read32 inp (s + 28) in
  let* o := elf_class_write32 o (h + 44) v in
  let* o := elf_class_write64 o (h + 48) align in
  elf_class_write64 o (h + 56) entsize.

Definition widen_file_header (inp o : bytes) (headers shnum : Z) : option bytes :=
  let* o := copy_bytes o 0 inp 0 16 in
  let* o := set_at o 4 2 in
  let* v := elf_class_read16 inp 16 in
  let* o := elf_class_write16 o 16 v in
  let* v := elf_class_read16 inp 18 in
  let* o := elf_class_write16 o 18 v in
  let* v := elf_class_read32 inp 20 in
  let* o := elf_class_write32 o 20 v in
  let* v := elf_class_read32 inp 24 in
  let* o := elf_class_write64 o 24 v in
  let* o := elf_class_write64 o 40 headers in
  let* v := elf_class_read32 inp 36 in
  let* o := elf_class_write32 o 48 v in
  let* o := elf_class_write16 o 52 64 in
  let* o := elf_class_write16 o 58 64 in
  let* o := elf_class_write16 o 60 shnum in
  let* v := elf_class_read16 inp 50 in
  elf_class_write16 o 62 v.

Definition dyn_elf_widen (inp : bytes) : option (option bytes) :=
  let size := Z.of_nat (length inp) in
  if (size <? 52) || negb (bytes_eqb (firstn 4 inp) ELF_MAGIC) then Some None
  else
    let* class := get_at inp 4 in
    let* order := get_at inp 5 in
    let* kind := elf_class_read16 inp 16 in
    if negb (class =? 1) || negb (order =? 1) || negb (kind =? 1) then Some None
    else
      let* shoff := elf_class_read32 inp 32 in
      let* shnum := elf_class_read16 inp 48 in
      if (shnum =? 0) || negb (elf_class_inside size shoff (shnum * 40)) then Some None
      else
        let zeros := replicate (Z.to_nat shnum) 0 in
        let* (ok, cursor, offsets, lengths) :=
          while_ok (Z.to_nat shnum) 0 (fun st => fst (fst (fst st))) (size_section inp shoff)
            (true, 64, zeros, zeros) in
        let headers := Z.land (u64 (cursor + 7)) (Z.lnot 7) in
        let total := u64 (headers + shnum * 64) in
        if negb ok then Some None
        else
          let o := replicate (Z.to_nat total) 0 in
          let* o := widen_file_header inp o headers shnum in
          let* o := for_each (Z.to_nat shnum) 0 (widen_section inp shoff headers offsets lengths) o in
          Some (Some o).

(** ** Accesses in bounds

    [within c Q]: [c] performs no access outside a buffer, and its result
    satisfies [Q]. *)
Definition within {A} (c : option A) (Q : A -> Prop) : Prop :=
  match c with Some a => Q a | None => False end.

Lemma within_bind {A B} (c : option A) (k : A -> option B) (R : A -> Prop) Q :
  within c R -> (forall a, R a -> within (k a) Q) ->
  within (match c with Some a => k a | None => None end) Q.
Proof. destruct c; cbn; auto. Qed.

Lemma within_mono {A} (c : option A) (R Q : A -> Prop) :
  within c R -> (forall a, R a -> Q a) -> within c Q.
Proof. destruct c; cbn; auto. Qed.

Section Bounds.
Implicit Types (b o : bytes).

Lemma within_get b p :
  Forall is_byte b -> 0 <= p -> p + 1 <= Z.of_nat (length b) ->
  within (get_at b p) (fun v => 0 <= v < 2 ^ 8).
Proof.
  intros Hb H0 H1. destruct (get_at_is_Some b p ltac:(lia)) as [v Hv]. rewrite Hv. cbn.
  apply get_at_Some in Hv as [_ Hv]. exact (proj1 (Forall_lookup _ _) Hb _ _ Hv).
Qed.

Lemma lor_fields n x y :
  0 <= n -> 0 <= x < 2 ^ n -> 0 <= y < 2 ^ n -> Z.lor x (Z.shiftl y n) = x + y * 2 ^ n.
Proof. intros. by apply lor_shift_add. Qed.

Lemma within_read16 b p :
  Forall is_byte b -> 0 <= p -> p + 2 <= Z.of_nat (length b) ->
  within (elf_class_read16 b p) (fun v => 0 <= v < 2 ^ 16).
Proof.
  intros Hb H0 H1. unfold elf_class_read16.
  eapply within_bind; [apply within_get; [done|lia..]|]. intros x Hx.
  eapply within_bind; [apply within_get; [done|lia..]|]. intros y Hy. cbn beta in *. unfold within.
  rewrite (lor_fields 8) by lia. lia.
Qed.

Lemma within_read32 b p :
  Forall is_byte b -> 0 <= p -> p + 4 <= Z.of_nat (length b) ->
  within (elf_class_read32 b p) (fun v => 0 <= v < 2 ^ 32).
Proof.
  intros Hb H0 H1. unfold elf_class_read32.
  eapply within_bind; [apply within_read16; [done|lia..]|]. intros x Hx.
  eapply within_bind; [apply within_read16; [done|lia..]|]. intros y Hy. cbn beta in *. unfold within.
  rewrite (lor_fields 16) by lia. lia.
Qed.

Lemma within_read64 b p :
  Forall is_byte b -> 0 <= p -> p + 8 <= Z.of_nat (length b) ->
  within (elf_class_read64 b p) (fun v => 0 <= v < 2 ^ 64).
Proof.
  intros Hb H0 H1. unfold elf_class_read64.
  eapply within_bind; [apply within_read32; [done|lia..]|]. intros x Hx.
  eapply within_bind; [apply within_read32; [done|lia..]|]. intros y Hy. cbn beta in *. unfold within.
  rewrite (lor_fields 32) by lia. lia.
Qed.

Lemma within_set o p v :
  0 <= p -> p + 1 <= Z.of_nat (length o) ->
  within (set_at o p v) (fun o' => length o' = length o).
Proof.
  intros H0 H1. unfold set_at. rewrite (proj2 (Z.leb_le 0 p)), (proj2 (Z.ltb_lt p _)) by lia.
  apply length_insert.
Qed.

Lemma within_write16 o p v :
  0 <= p -> p + 2 <= Z.of_nat (length o) ->
  within (elf_class_write16 o p v) (fun o' => length o' = length o).
Proof.
  intros H0 H1. unfold elf_class_write16.
  eapply within_bind; [apply within_set; lia|]. cbn beta. intros o1 H.
  eapply within_mono; [apply within_set; lia|]. cbn beta. intros. lia.
Qed.
Lemma within_write32 o p v :
  0 <= p -> p + 4 <= Z.of_nat (length o) ->
  within (elf_class_write32 o p v) (fun o' => length o' = length o).
Proof.
  intros H0 H1. unfold elf_class_write32.
  eapply within_bind; [apply within_write16; lia|]. cbn beta. intros o1 H.
  eapply within_mono; [apply within_write16; lia|]. cbn beta. intros. lia.
Qed.
Lemma within_write64 o p v :
  0 <= p -> p + 8 <= Z.of_nat (length o) ->
  within (elf_class_write64 o p v) (fun o' => length o' = length o).
Proof.
  intros H0 H1. unfold elf_class_write64.
  eapply within_bind; [apply within_write32; lia|]. cbn beta. intros o1 H.
  eapply within_mono; [apply within_write32; lia|]. cbn beta. intros. lia.
Qed.

Lemma within_copy o p b from n :
  0 <= n -> 0 <= from -> from + n <= Z.of_nat (length b) -> 0 <= p -> p + n <= Z.of_nat (length o) ->
  within (copy_bytes o p b from n) (fun o' => length o' = length o).
Proof.
  intros. unfold copy_bytes.
  rewrite (proj2 (Z.leb_le 0 n)), (proj2 (Z.leb_le 0 from)), (proj2 (Z.leb_le (from + n) _)),
    (proj2 (Z.leb_le 0 p)), (proj2 (Z.leb_le (p + n) _)) by lia. cbn.
  rewrite !length_app, !length_take, !length_drop. lia.
Qed.
Lemma within_zero o p n :
  0 <= n -> 0 <= p -> p + n <= Z.of_nat (length o) ->
  within (zero_bytes o p n) (fun o' => length o' = length o).
Proof.
  intros. unfold zero_bytes.
  rewrite (proj2 (Z.leb_le 0 n)), (proj2 (Z.leb_le 0 p)), (proj2 (Z.leb_le (p + n) _)) by lia. cbn.
  rewrite !length_app, length_replicate, !length_take, !length_drop. lia.
Qed.
End Bounds.

Lemma within_for_each {S} (body : Z -> S -> option S) (Inv : Z -> S -> Prop) n : forall i s,
  Inv i s ->
  (forall j s, i <= j < i + Z.of_nat n -> Inv j s -> within (body j s) (Inv (j + 1))) ->
  within (for_each n i body s) (Inv (i + Z.of_nat n)).
Proof.
  induction n as [|n IH]; intros i s HI Hb; cbn [for_each].
  - cbn. by rewrite Z.add_0_r.
  - eapply within_bind; [apply Hb; [lia|done]|]. intros s' HI'.
    replace (i + Z.of_nat (Datatypes.S n)) with (i + 1 + Z.of_nat n) by lia.
    apply IH; [done|]. intros j t Hj. apply Hb. lia.
Qed.

Lemma within_while_ok {S} ok (body : Z -> S -> option S) (Inv : Z -> S -> Prop) n : forall i s,
  Inv i s ->
  (forall j s, i <= j < i + Z.of_nat n -> Inv j s -> ok s = true -> within (body j s) (Inv (j + 1))) ->
  within (while_ok n i ok body s) (fun s' => exists j, Inv j s' /\ (ok s' = true -> j = i + Z.of_nat n)).
Proof.
  induction n as [|n IH]; intros i s HI Hb; cbn [while_ok].
  - exists i. split; [done|lia].
  - destruct (ok s) eqn:E; [|exists i; split; [done|congruence]].
    eapply within_bind; [apply Hb; [lia|done|done]|]. intros s' HI'.
    eapply within_mono; [apply IH; [done|]|].
    + intros j t Hj. apply Hb. lia.
    + cbn. intros t (j & ? & Hj). exists j. split; [done|]. intros. rewrite Hj by done. lia.
Qed.

(** One access of a goal [within (let* x := access in k) Q]; bounds by [lia]
    with the lengths known so far. *)
Ltac wb1 lem := eapply within_bind; [apply lem; first [assumption | lia]|cbn beta; intros].
Ltac wb :=
  repeat match goal with
  | |- within (match ?c with Some _ => _ | None => None end) _ =>
      lazymatch c with
      | elf_class_read16 _ _ => wb1 within_read16
      | elf_class_read32 _ _ => wb1 within_read32
      | elf_class_read64 _ _ => wb1 within_read64
      | @get_at Z _ _ => wb1 within_get
      | @set_at Z _ _ _ => wb1 within_set
      | elf_class_write16 _ _ _ => wb1 within_write16
      | elf_class_write32 _ _ _ => wb1 within_write32
      | elf_class_write64 _ _ _ => wb1 within_write64
      | copy_bytes _ _ _ _ _ => wb1 within_copy
      | zero_bytes _ _ _ => wb1 within_zero
      end
  end.

Section WidenBounds.
Context (inp : bytes) (Hbytes : Forall is_byte inp).

Lemma within_widen_symbol at_ to k o :
  0 <= at_ -> at_ + k * 16 + 16 <= Z.of_nat (length inp) -> 0 <= to -> 0 <= k ->
  to + k * 24 + 24 <= Z.of_nat (length o) ->
  within (widen_symbol inp at_ to k o) (fun o' => length o' = length o).
Proof.
  intros. unfold widen_symbol. cbv zeta. wb. eapply within_mono; [apply within_write64; lia|].
  cbn. intros. lia.
Qed.

Lemma within_widen_relocation at_ to entsize (addend : bool) k o :
  0 <= at_ -> entsize = (if addend then 12 else 8) ->
  at_ + k * entsize + entsize <= Z.of_nat (length inp) -> 0 <= to -> 0 <= k ->
  to + k * (if addend then 24 else 16) + (if addend then 24 else 16) <= Z.of_nat (length o) ->
  within (widen_relocation inp at_ to entsize addend k o) (fun o' => length o' = length o).
Proof.
  intros. unfold widen_relocation. cbv zeta. destruct addend; subst entsize; wb.
  - eapply within_mono; [apply within_write64; lia|]. cbn. intros. lia.
  - cbn. lia.
Qed.

Context (shoff shnum : Z).
Context (Hshoff : 0 <= shoff) (Hshnum : 0 <= shnum < 2 ^ 16).
Context (Hheaders : shoff + shnum * 40 <= Z.of_nat (length inp)).
Abbreviation size := (Z.of_nat (length inp)).

(** What the first pass establishes of section [j]. *)
Definition section_sized (offsets lengths : list Z) (cursor j : Z) : Prop :=
  exists type at_ length_ entsize align off,
    let s := shoff + j * 40 in
    elf_class_read32 inp (s + 4) = Some type /\ elf_class_read32 inp (s + 16) = Some at_
    /\ elf_class_read32 inp (s + 20) = Some length_ /\ elf_class_read32 inp (s + 36) = Some entsize
    /\ elf_class_read32 inp (s + 32) = Some align
    /\ get_at offsets j = Some off /\ is_Some (get_at lengths j)
    /\ 0 <= at_ /\ 0 <= length_ /\ 0 <= off
    /\ (has_bytes type = true -> at_ + length_ <= size
        /\ off + fst (widened_size type length_ entsize align) <= cursor).

Definition sizes_inv (i : Z) (st : size_state) : Prop :=
  let '(ok, cursor, offsets, lengths) := st in
  Z.of_nat (length offsets) = shnum /\ Z.of_nat (length lengths) = shnum
  /\ 64 <= cursor <= 64 + i * 2 ^ 34
  /\ Forall (fun x => 0 <= x) offsets
  /\ (ok = true -> forall j, 0 <= j < i -> section_sized offsets lengths cursor j).

Lemma widened_bound type length_ entsize align :
  0 <= length_ < 2 ^ 32 -> 0 <= align < 2 ^ 32 ->
  0 <= fst (widened_size type length_ entsize align) < 2 ^ 33
  /\ 0 <= snd (widened_size type length_ entsize align) < 2 ^ 32.
Proof.
  intros Hl Ha. unfold widened_size.
  assert (forall d w, 0 < d -> 0 <= w <= 2 * d -> 0 <= length_ / d * w <= 2 * length_) as Hd.
  { intros d w Hd Hw. pose proof (Z.div_mod length_ d). pose proof (Z.mod_pos_bound length_ d).
    assert (0 <= length_ / d) by (apply Z.div_pos; lia). nia. }
  pose proof (Hd 16 24 ltac:(lia) ltac:(lia)). pose proof (Hd 12 24 ltac:(lia) ltac:(lia)).
  pose proof (Hd 8 16 ltac:(lia) ltac:(lia)). repeat split_if; cbn; lia.
Qed.

Lemma align_cursor cursor align :
  0 <= cursor < 2 ^ 60 -> 0 <= align < 2 ^ 32 ->
  let c := if 1 <? align then u64 (u64 (cursor + align - 1) / align * align) else cursor in
  cursor <= c <= cursor + align.
Proof.
  intros Hc Ha. cbv zeta. destruct (Z.ltb_spec 1 align); [|lia].
  pose proof (Z.div_mod (cursor + align - 1) align ltac:(lia)).
  pose proof (Z.mod_pos_bound (cursor + align - 1) align ltac:(lia)).
  rewrite (u64_small (cursor + align - 1)) by lia. rewrite u64_small by nia. nia.
Qed.

Lemma section_sized_mono offsets lengths cursor offsets' lengths' cursor' j i :
  0 <= j < i -> cursor <= cursor' ->
  (offsets' = offsets \/ exists x, offsets' = <[Z.to_nat i := x]> offsets) ->
  (exists x, lengths' = <[Z.to_nat i := x]> lengths) ->
  section_sized offsets lengths cursor j -> section_sized offsets' lengths' cursor' j.
Proof.
  intros Hj Hc Ho [y ->] (type & at_ & length_ & entsize & align & off & H).
  exists type, at_, length_, entsize, align, off. cbv zeta in *.
  destruct H as (H1 & H2 & H3 & H4 & H5 & H6 & H7 & H8 & H9 & H10 & H11).
  rewrite (get_at_insert_ne lengths) by lia.
  split_and!; try done.
  - destruct Ho as [->|[x ->]]; [done|]. by rewrite get_at_insert_ne by lia.
  - intros Hb. destruct (H11 Hb). split; [done|lia].
Qed.

Lemma read32_Some p :
  0 <= p -> p + 4 <= size -> exists v, elf_class_read32 inp p = Some v /\ 0 <= v < 2 ^ 32.
Proof.
  intros H0 H1. pose proof (within_read32 inp p Hbytes H0 H1) as H. unfold within in H.
  destruct (elf_class_read32 inp p) as [v|]; [by exists v|done].
Qed.

Lemma within_size_section i st :
  0 <= i < shnum -> sizes_inv i st -> fst (fst (fst st)) = true ->
  within (size_section inp shoff i st) (sizes_inv (i + 1)).
Proof.
  destruct st as [[[ok cursor] offsets] lengths]. intros Hi (Ho & Hl & Hc & HF & Hj) Hok. cbn in Hok.
  subst ok. unfold size_section. cbv zeta. set (s := shoff + i * 40).
  destruct (read32_Some (s + 4)) as (type & E1 & R1); [lia..|].
  destruct (read32_Some (s + 20)) as (length_ & E2 & R2); [lia..|].
  destruct (read32_Some (s + 36)) as (entsize & E3 & R3); [lia..|].
  destruct (read32_Some (s + 32)) as (align & E4 & R4); [lia..|].
  destruct (read32_Some (s + 16)) as (at_ & E5 & R5); [lia..|]. rewrite E1, E2, E3, E4.
  pose proof (widened_bound type length_ entsize align R2 R4) as [Hw Ha].
  destruct (widened_size type length_ entsize align) as [widened align'] eqn:Ew. cbn [fst snd] in *.
  rewrite E5. pose proof (align_cursor cursor align' ltac:(lia) Ha) as Hcur. cbv zeta in Hcur.
  set (c := if 1 <? align' then _ else _) in *.
  rewrite set_at_insert by lia.
  assert (forall offsets' cursor', (offsets' = offsets \/ exists x, offsets' = <[Z.to_nat i := x]> offsets) ->
            cursor <= cursor' -> forall j, 0 <= j < i -> section_sized offsets' (<[Z.to_nat i := widened]> lengths) cursor' j)
    as Hold.
  { intros offsets' cursor' Ho' Hc' j Hjr. eapply section_sized_mono; [exact Hjr|exact Hc'|exact Ho'|by eexists|].
    by apply Hj. }
  assert (is_Some (get_at (<[Z.to_nat i := widened]> lengths) i)) as Hlen
    by (rewrite get_at_insert_eq by lia; done).
  destruct (has_bytes type) eqn:Hb.
  - rewrite set_at_insert by lia. rewrite u64_small by lia. cbn [within sizes_inv].
    split_and!; rewrite ?length_insert; try lia; [apply Forall_insert; [done|lia]|].
    intros Hok j Hjr. destruct (Z.eq_dec j i) as [->|]; [|apply Hold; [right; by eexists|lia|lia]].
    exists type, at_, length_, entsize, align, c. cbv zeta. fold s. split_and!; try (done || lia).
    + apply get_at_insert_eq. lia.
    + intros _. rewrite Ew. cbn [fst]. cbn [andb] in Hok. apply negb_true_iff, negb_false_iff in Hok.
      unfold elf_class_inside in Hok. to_prop. lia.
  - cbn [within sizes_inv]. split_and!; rewrite ?length_insert; try lia; [done|].
    intros Hok j Hjr. destruct (Z.eq_dec j i) as [->|]; [|apply Hold; [by left|lia|lia]].
    destruct (get_at_is_Some offsets i ltac:(lia)) as [off Hoff].
    exists type, at_, length_, entsize, align, off. cbv zeta. fold s. split_and!; try (done || lia).
    + apply get_at_Some in Hoff as [_ Hoff]. exact (proj1 (Forall_lookup _ _) HF _ _ Hoff).
    + congruence.
Qed.

Lemma within_widen_section headers offsets lengths cursor i o :
  0 <= i < shnum -> section_sized offsets lengths cursor i -> 64 <= cursor <= headers ->
  headers + shnum * 64 <= Z.of_nat (length o) ->
  within (widen_section inp shoff headers offsets lengths i o) (fun o' => length o' = length o).
Proof.
  intros Hi (type & at_ & length_ & entsize & align & off & H) Hc Ho. cbv zeta in H.
  destruct H as (E1 & E2 & E3 & E4 & E5 & E6 & [l E7] & Hat & Hlen & Hoff & Hb).
  unfold widen_section. cbv zeta. rewrite E1, E2, E3, E4, E5, E6.
  eapply (within_bind _ _ (fun r => length (fst (fst r)) = length o)).
  - unfold is_symbols. destruct (((type =? SHT_SYMTAB) || (type =? SHT_DYNSYM)) && (entsize =? 16)) eqn:Es.
    { assert (has_bytes type = true) as Hh by (unfold has_bytes, SHT_SYMTAB, SHT_DYNSYM, SHT_NOBITS in *; to_prop; lia).
      destruct (Hb Hh) as [Hin Hout]. unfold widened_size, is_symbols in Hout. rewrite Es in Hout. cbn in Hout.
      pose proof (Z.div_mod length_ 16). pose proof (Z.mod_pos_bound length_ 16). to_prop.
      assert (0 <= length_ / 16) by (apply Z.div_pos; lia).
      eapply within_bind; [apply (within_for_each _ (fun _ o' => length o' = length o)); [done|]|done].
      intros j o' Hj Hl. eapply within_mono; [apply within_widen_symbol; lia|]. cbn. lia. }
    destruct (((type =? SHT_RELA) && (entsize =? 12)) || ((type =? SHT_REL) && (entsize =? 8))) eqn:Er.
    { assert (has_bytes type = true) as Hh by (unfold has_bytes, SHT_RELA, SHT_REL, SHT_NOBITS in *; to_prop; lia).
      destruct (Hb Hh) as [Hin Hout]. unfold widened_size, is_symbols in Hout. rewrite Es in Hout.
      set (w := if type =? SHT_RELA then 24 else 16).
      assert (w = 24 \/ w = 16) as Hw0 by (unfold w; destruct (type =? SHT_RELA); auto).
      assert (entsize = (if type =? SHT_RELA then 12 else 8) /\ off + length_ / entsize * w <= cursor) as [He Hw].
      { unfold w. destruct (Z.eqb_spec type SHT_RELA) as [->|].
        - assert (entsize = 12) as -> by (unfold SHT_RELA, SHT_REL in Er; to_prop; lia). cbn in Hout. lia.
        - to_prop. assert (type = SHT_REL /\ entsize = 8) as [-> ->] by lia. cbn in Hout. lia. }
      pose proof (Z.div_mod length_ entsize). pose proof (Z.mod_pos_bound length_ entsize).
      assert (0 < entsize) by (rewrite He; destruct (_ =? _); lia).
      assert (0 <= length_ / entsize) by (apply Z.div_pos; lia).
      eapply within_bind; [apply (within_for_each _ (fun _ o' => length o' = length o)); [done|]|done].
      intros j o' Hj Hl.
      eapply within_mono; [apply within_widen_relocation; [lia|done| |lia|lia|]|cbn; lia].
      + nia.
      + fold w. rewrite Hl. destruct Hw0 as [-> | ->]; lia. }
    destruct (has_bytes type && negb (length_ =? 0)) eqn:Ec; [|done]. apply andb_true_iff in Ec as [Hh _].
    destruct (Hb Hh) as [Hin Hout].
    assert (fst (widened_size type length_ entsize align) = length_) as Hw.
    { unfold widened_size, is_symbols. rewrite Es. apply orb_false_iff in Er as [-> ->]. done. }
    rewrite Hw in Hout. eapply within_bind; [apply within_copy; lia|]. done.
  - intros [[o1 e1] a1] Hl1. cbn [fst] in Hl1. wb. rewrite E7.
    wb. eapply within_mono; [apply within_write64; lia|]. cbn beta. intros. lia.
Qed.
End WidenBounds.

(** C36: whatever the input bytes, widening never reads or writes outside its
    buffers: it refuses the input or returns a complete ELF64 file. *)
Theorem widen_memory_safe inp :
  Forall is_byte inp ->
  within (dyn_elf_widen inp) (fun r =>
    match r with
    | Some o => exists shnum, elf_class_read16 inp 48 = Some shnum
                  /\ 64 + shnum * 64 <= Z.of_nat (length o)
    | None => True
    end).
Proof.
  intros Hb. unfold dyn_elf_widen. cbv zeta.
  destruct ((_ <? 52) || _) eqn:Hsize; [done|]. apply orb_false_iff in Hsize as [Hsize _].
  apply Z.ltb_ge in Hsize. wb. destruct (negb _ || _ || _); [done|].
  eapply within_bind; [apply within_read32; first [assumption | lia]|]. intros shoff Hsh. cbn beta in Hsh.
  pose proof (within_read16 inp 48 Hb ltac:(lia) ltac:(lia)) as Hn. unfold within in Hn.
  destruct (elf_class_read16 inp 48) as [shnum|]; [|done].
  destruct ((shnum =? 0) || _) eqn:Hin; [done|]. apply orb_false_iff in Hin as [_ Hin].
  apply negb_false_iff in Hin. unfold elf_class_inside in Hin. to_prop.
  eapply (within_bind _ _ (fun st => exists j, sizes_inv inp shoff shnum j st
            /\ (fst (fst (fst st)) = true -> j = 0 + Z.of_nat (Z.to_nat shnum)))).
  { apply within_while_ok.
    - split_and!; rewrite ?length_replicate; try lia.
      by apply Forall_replicate.
    - intros j s Hj HI Hok. apply within_size_section; try done; lia. }
  intros [[[ok cursor] offsets] lengths] (j & HI & Hj). cbn [fst] in Hj.
  destruct ok; [|done]. cbn [negb]. specialize (Hj eq_refl). subst j.
  destruct HI as (Ho & Hl & Hc & _ & Hsec). specialize (Hsec eq_refl).
  pose proof (align_up cursor 3 ltac:(lia)) as [Hal _]. cbv zeta in Hal.
  change (Z.shiftl 1 3) with 8 in Hal. replace (cursor + 8 - 1) with (cursor + 7) in Hal by lia.
  change (8 - 1) with 7 in Hal.
  rewrite (u64_small (cursor + 7)) by lia. set (headers := Z.land _ _) in *.
  rewrite (u64_small (headers + shnum * 64)) by lia.
  eapply (within_bind _ _ (fun o => Z.of_nat (length o) = headers + shnum * 64)).
  { unfold widen_file_header. set (o0 := replicate _ _).
    assert (Z.of_nat (length o0) = headers + shnum * 64) by (unfold o0; rewrite length_replicate; lia).
    clearbody o0. wb. eapply within_mono; [apply within_write16; lia|]. cbn beta. intros. lia. }
  intros o1 Ho1.
  eapply within_bind; [apply (within_for_each _ (fun _ o => Z.of_nat (length o) = headers + shnum * 64)); [done|]|].
  - intros j o Hj Hlo. eapply within_mono;
      [apply (within_widen_section inp Hb shoff shnum) with (cursor := cursor); try lia; apply Hsec; lia|].
    cbn beta. lia.
  - cbn. intros o2 Ho2. exists shnum. split; [done|lia].
Qed.

(** ** Entries survive narrowing and widening *)

Definition byte_of (v i : Z) : Z := u8 (Z.shiftr v (8 * i)).

(** A successful step of an [option] sequence. *)
Ltac ostep H x E :=
  match type of H with
  | match ?c with Some _ => _ | None => _ end = _ => destruct c as [x|] eqn:E; [|discriminate H]
  end.

Lemma byte_of_shift v k i : 0 <= k -> 0 <= i -> byte_of (Z.shiftr v (8 * k)) i = byte_of v (k + i).
Proof. intros. unfold byte_of. rewrite Z.shiftr_shiftr by lia. f_equal. f_equal. lia. Qed.

(** [writes w n]: the writer [w] stores the low [n] bytes of its value. *)
Definition writes (w : bytes -> Z -> Z -> option bytes) (n : Z) : Prop :=
  forall o p v o', w o p v = Some o' ->
  (forall i, 0 <= i < n -> get_at o' (p + i) = Some (byte_of v i))
  /\ (forall q, q < p \/ p + n <= q -> get_at o' q = get_at o q).

(** Two writers of [n] bytes in sequence write [2 * n]. *)
Lemma writes_twice w n :
  0 <= n -> writes w n ->
  writes (fun o p v => match w o p v with
                       | Some o => w o (p + n) (Z.shiftr v (8 * n))
                       | None => None
                       end) (2 * n).
Proof.
  intros Hn Hw o p v o' H. cbn beta in H. ostep H o1 E.
  destruct (Hw _ _ _ _ E) as [H1 H1']. destruct (Hw _ _ _ _ H) as [H2 H2']. split.
  - intros i Hi. destruct (Z_lt_le_dec i n).
    + rewrite H2' by lia. apply H1. lia.
    + replace (p + i) with (p + n + (i - n)) by lia. rewrite H2 by lia.
      rewrite byte_of_shift by lia. do 2 f_equal. lia.
  - intros q Hq. rewrite H2' by lia. apply H1'. lia.
Qed.

Lemma writes8 : writes (fun o p v => set_at o p (u8 v)) 1.
Proof.
  intros o p v o' H. cbn beta in H. split.
  - intros i Hi. assert (i = 0) as -> by lia. rewrite Z.add_0_r, (set_at_get _ _ _ _ _ H), Z.eqb_refl. done.
  - intros q Hq. rewrite (set_at_get _ _ _ _ _ H). by rewrite (proj2 (Z.eqb_neq _ _)) by lia.
Qed.
Lemma writes16 : writes elf_class_write16 2.
Proof. exact (writes_twice _ 1 ltac:(lia) writes8). Qed.
Lemma writes32 : writes elf_class_write32 4.
Proof. exact (writes_twice _ 2 ltac:(lia) writes16). Qed.
Lemma writes64 : writes elf_class_write64 8.
Proof. exact (writes_twice _ 4 ltac:(lia) writes32). Qed.

(** [reads r n]: the reader [r] gives the value of [n] bytes. *)
Definition reads (r : bytes -> Z -> option Z) (n : Z) : Prop :=
  forall b p v, Forall is_byte b -> r b p = Some v ->
  0 <= v < 2 ^ (8 * n) /\ forall i, 0 <= i < n -> get_at b (p + i) = Some (byte_of v i).

Lemma byte_of_low x y n i :
  0 <= n -> 0 <= x < 2 ^ (8 * n) -> 0 <= i < n -> byte_of (x + y * 2 ^ (8 * n)) i = byte_of x i.
Proof.
  intros Hn Hx Hi. unfold byte_of, u8, wrap. rewrite !Z.shiftr_div_pow2 by lia.
  replace (8 * n) with (8 * i + 8 + (8 * n - 8 * i - 8)) by lia. rewrite !Z.pow_add_r by lia.
  replace (y * (2 ^ (8 * i) * 2 ^ 8 * 2 ^ (8 * n - 8 * i - 8)))
    with (y * 2 ^ (8 * n - 8 * i - 8) * 2 ^ 8 * 2 ^ (8 * i)) by ring.
  rewrite Z.div_add by (pose proof (Z.pow_pos_nonneg 2 (8 * i)); lia). apply Z.mod_add. lia.
Qed.
Lemma byte_of_high x y n i :
  0 <= n -> 0 <= x < 2 ^ (8 * n) -> n <= i -> byte_of (x + y * 2 ^ (8 * n)) i = byte_of y (i - n).
Proof.
  intros Hn Hx Hi. replace i with (n + (i - n)) at 1 by lia. rewrite <- byte_of_shift by lia.
  f_equal. rewrite Z.shiftr_div_pow2 by lia. rewrite Z.div_add by (pose proof (Z.pow_pos_nonneg 2 (8 * n)); lia).
  rewrite Z.div_small by lia. done.
Qed.

Lemma reads_twice r n :
  0 <= n -> reads r n ->
  reads (fun b p => match r b p with
                    | Some x => match r b (p + n) with
                                | Some y => Some (Z.lor x (Z.shiftl y (8 * n)))
                                | None => None
                                end
                    | None => None
                    end) (2 * n).
Proof.
  intros Hn Hr b p v Hb H. cbn beta in H. ostep H x Ex. ostep H y Ey. simplify_eq.
  destruct (Hr _ _ _ Hb Ex) as [Rx Bx]. destruct (Hr _ _ _ Hb Ey) as [Ry By].
  rewrite lor_shift_add by lia. split.
  - replace (8 * (2 * n)) with (8 * n + 8 * n) by lia. rewrite Z.pow_add_r by lia. nia.
  - intros i Hi. destruct (Z_lt_le_dec i n).
    + rewrite byte_of_low by lia. apply Bx. lia.
    + rewrite byte_of_high by lia. replace (p + i) with (p + n + (i - n)) by lia. apply By. lia.
Qed.

Lemma reads8 : reads get_at 1.
Proof.
  intros b p v Hb H. pose proof H as H'. apply get_at_Some in H' as [_ Hv].
  pose proof (proj1 (Forall_lookup _ _) Hb _ _ Hv) as Hr. unfold is_byte in Hr. split; [cbn; lia|].
  intros i Hi. assert (i = 0) as -> by lia. rewrite Z.add_0_r, H. f_equal. symmetry.
  unfold byte_of. change (8 * 0) with 0. rewrite Z.shiftr_0_r. apply u8_small. lia.
Qed.
Lemma reads16 : reads elf_class_read16 2.
Proof. exact (reads_twice _ 1 ltac:(lia) reads8). Qed.
Lemma reads32 : reads elf_class_read32 4.
Proof. exact (reads_twice _ 2 ltac:(lia) reads16). Qed.
Lemma reads64 : reads elf_class_read64 8.
Proof. exact (reads_twice _ 4 ltac:(lia) reads32). Qed.

(** The bytes above a value's width are zero. *)
Lemma byte_of_zero v n i : 0 <= v < 2 ^ (8 * n) -> 0 <= n <= i -> byte_of v i = 0.
Proof.
  intros Hv Hi. unfold byte_of. rewrite Z.shiftr_div_pow2 by lia. rewrite Z.div_small; [done|].
  assert (2 ^ (8 * n) <= 2 ^ (8 * i)) by (apply Z.pow_le_mono_r; lia). lia.
Qed.

(** Values that agree on [n] bytes and fit them are equal. *)
Lemma bytes_value n v w : 0 <= n ->
  0 <= v < 2 ^ (8 * n) -> 0 <= w < 2 ^ (8 * n) -> (forall i, 0 <= i < n -> byte_of v i = byte_of w i) -> v = w.
Proof.
  intros Hn Hv Hw H. apply Z.bits_inj'. intros i Hi. destruct (Z_lt_le_dec i (8 * n)).
  - specialize (H (i / 8)). unfold byte_of, u8, wrap in H.
    pose proof (Z.div_mod i 8 ltac:(lia)). pose proof (Z.mod_pos_bound i 8 ltac:(lia)).
    assert (0 <= i / 8 < n) as Hr by (split; [apply Z.div_pos; lia|apply Z.div_lt_upper_bound; lia]).
    specialize (H Hr). apply (f_equal (fun x => Z.testbit x (i mod 8))) in H.
    rewrite !Z.mod_pow2_bits_low, !Z.shiftr_spec in H by lia. replace (i mod 8 + 8 * (i / 8)) with i in H by lia. done.
  - by rewrite !(testbit_high _ (8 * n)) by lia.
Qed.

Lemma set_at_bytes o p v o' : set_at o p v = Some o' -> is_byte v -> Forall is_byte o -> Forall is_byte o'.
Proof. unfold set_at. intros H Hv Ho. split_if_in H; [|done]. simplify_eq. by apply Forall_insert. Qed.
Lemma write16_bytes o p v o' : elf_class_write16 o p v = Some o' -> Forall is_byte o -> Forall is_byte o'.
Proof.
  intros H Ho. unfold elf_class_write16 in H. ostep H o1 E.
  eapply set_at_bytes; [exact H|apply u8_range|]. eapply set_at_bytes; [exact E|apply u8_range|done].
Qed.
Lemma write32_bytes o p v o' : elf_class_write32 o p v = Some o' -> Forall is_byte o -> Forall is_byte o'.
Proof. intros H Ho. unfold elf_class_write32 in H. ostep H o1 E. eauto using write16_bytes. Qed.

(** What a known write or read says of each byte. *)
Ltac facts :=
  repeat match goal with
  | H : elf_class_write16 _ _ _ = Some _ |- _ => apply writes16 in H as [? ?]
  | H : elf_class_write32 _ _ _ = Some _ |- _ => apply writes32 in H as [? ?]
  | H : elf_class_write64 _ _ _ = Some _ |- _ => apply writes64 in H as [? ?]
  | H : elf_class_read16 _ _ = Some _ |- _ => apply reads16 in H as [? ?]; [|done]
  | H : elf_class_read32 _ _ = Some _ |- _ => apply reads32 in H as [? ?]; [|done]
  | H : elf_class_read64 _ _ = Some _ |- _ => apply reads64 in H as [? ?]; [|done]
  end.

Lemma set_at_facts (o : bytes) p v o' :
  set_at o p v = Some o' ->
  (forall i, 0 <= i < 1 -> get_at o' (p + i) = Some v)
  /\ (forall q, q < p \/ p + 1 <= q -> get_at o' q = get_at o q).
Proof.
  intros H. split; intros q Hq; rewrite (set_at_get _ _ _ _ _ H).
  - by rewrite (proj2 (Z.eqb_eq _ _)) by lia.
  - by rewrite (proj2 (Z.eqb_neq _ _)) by lia.
Qed.

(** Follows a byte of a buffer to the write, or the field, that produced it. *)
Ltac chase :=
  repeat match goal with
  | H : forall q, q < _ \/ _ <= q -> get_at ?o q = _ |- context [get_at ?o ?p] => rewrite (H p) by lia
  | H : forall i, _ <= i < _ -> get_at ?o (?b + i) = _ |- context [get_at ?o ?p] =>
      let E := fresh in
      assert (E := H (p - b) ltac:(lia)); replace (b + (p - b)) with p in E by lia; rewrite E; clear E
  end.

Lemma fits_range v : elf_class_fits v = true -> 0 <= v -> 0 <= v < 2 ^ (8 * 4).
Proof. unfold elf_class_fits, UINT32_MAX. intros. to_prop. lia. Qed.

Section SymbolFields.
Context (inp o o' : bytes) (at_ k : Z).
Context (Hin : Forall is_byte inp) (Ho : Forall is_byte o).
Context (Hn : narrow_symbol inp at_ k (true, o) = Some (true, o')).

(** The fields of the narrowed symbol, as the bytes of the original. *)
Lemma narrowed_symbol :
  Forall is_byte o'
  /\ (forall i, 0 <= i < 4 -> get_at o' (at_ + k * 16 + i) = get_at inp (at_ + k * 24 + i))
  /\ (forall i, 0 <= i < 4 -> get_at o' (at_ + k * 16 + 4 + i) = get_at inp (at_ + k * 24 + 8 + i))
  /\ (forall i, 0 <= i < 4 -> get_at o' (at_ + k * 16 + 8 + i) = get_at inp (at_ + k * 24 + 16 + i))
  /\ (forall i, 0 <= i < 4 -> get_at o' (at_ + k * 16 + 12 + i) = get_at inp (at_ + k * 24 + 4 + i))
  /\ (forall i, 4 <= i < 8 -> get_at inp (at_ + k * 24 + 8 + i) = Some 0)
  /\ (forall i, 4 <= i < 8 -> get_at inp (at_ + k * 24 + 16 + i) = Some 0).
Proof.
  unfold narrow_symbol in Hn. cbv zeta in Hn. set (from := at_ + k * 24) in *. set (to := at_ + k * 16) in *.
  ostep Hn v8 Ev. ostep Hn v16 Es. ostep Hn nm En. ostep Hn o1 E1. ostep Hn o2 E2. ostep Hn o3 E3.
  ostep Hn i4 I4. ostep Hn o4 E4. ostep Hn i5 I5. ostep Hn o5 E5. ostep Hn i6 I6. ostep Hn o6 E6.
  injection Hn as Hok <-. apply andb_true_iff in Hok as [Hf1 Hf2]. cbn [andb] in Hf1.
  assert (Forall is_byte o6) as Hb.
  { pose proof (proj1 (reads8 _ _ _ Hin I4)). pose proof (proj1 (reads8 _ _ _ Hin I5)).
    eapply write16_bytes; [exact E6|]. eapply set_at_bytes; [exact E5|cbn in *; unfold is_byte; lia|].
    eapply set_at_bytes; [exact E4|cbn in *; unfold is_byte; lia|].
    repeat (eapply write32_bytes; [eassumption|]). done. }
  split; [done|].
  apply set_at_facts in E4 as [? ?], E5 as [? ?]. facts.
  repeat match goal with H : 0 <= ?v < 2 ^ (8 * 8), F : elf_class_fits ?v = true |- _ =>
    apply fits_range in F; [|lia] end.
  assert (forall i, 0 <= i < 4 -> get_at inp (from + 4 + i)
            = if i =? 0 then Some i4 else if i =? 1 then Some i5 else Some (byte_of i6 (i - 2))) as H46.
  { intros i Hi. destruct (Z.eqb_spec i 0) as [->|]; [by rewrite Z.add_0_r|].
    destruct (Z.eqb_spec i 1) as [->|]; [rewrite <- I5; f_equal; lia|]. chase. do 2 f_equal. lia. }
  split_and!; intros i Hi.
  - chase. do 2 f_equal. lia.
  - chase. do 2 f_equal. lia.
  - chase. do 2 f_equal. lia.
  - rewrite (H46 i Hi). destruct (Z.eqb_spec i 0) as [->|]; [by chase|].
    destruct (Z.eqb_spec i 1) as [->|]; [by chase|]. chase. do 2 f_equal. lia.
  - chase. f_equal. apply (byte_of_zero _ 4); [done|lia].
  - chase. f_equal. apply (byte_of_zero _ 4); [done|lia].
Qed.
End SymbolFields.

(** A symbol that narrows (its value and size fit 32 bits) and is widened
    again is, byte for byte, the original 24-byte symbol. *)
Theorem symbol_roundtrip inp at_ k o o' to e e' :
  Forall is_byte inp -> Forall is_byte o ->
  narrow_symbol inp at_ k (true, o) = Some (true, o') ->
  widen_symbol o' at_ to k e = Some e' ->
  forall j, 0 <= j < 24 -> get_at e' (to + k * 24 + j) = get_at inp (at_ + k * 24 + j).
Proof.
  intros Hin Ho Hn Hw. destruct (narrowed_symbol inp o o' at_ k Hin Ho Hn) as (Hb & F0 & F8 & F16 & F4 & Z8 & Z16).
  unfold widen_symbol in Hw. cbv zeta in Hw.
  set (from := at_ + k * 24) in *. set (mid := at_ + k * 16) in *. set (d := to + k * 24) in *.
  ostep Hw nm En. ostep Hw e1 E1. ostep Hw i12 I12. ostep Hw e2 E2. ostep Hw i13 I13. ostep Hw e3 E3.
  ostep Hw i14 I14. ostep Hw e4 E4. ostep Hw v4 V4. ostep Hw e5 E5. ostep Hw v8 V8.
  apply set_at_facts in E2 as [? ?], E3 as [? ?]. facts. intros j Hj.
  assert (j < 4 \/ j = 4 \/ j = 5 \/ 6 <= j < 8 \/ 8 <= j < 12 \/ 12 <= j < 16 \/ 16 <= j < 20 \/ 20 <= j)
    as [Hr|[->|[->|[Hr|[Hr|[Hr|[Hr|Hr]]]]]]] by lia.
  - specialize (F0 j ltac:(lia)). rewrite <- F0. chase. do 2 f_equal. lia.
  - specialize (F4 0 ltac:(lia)). rewrite Z.add_0_r in F4. replace (from + 4 + 0) with (from + 4) in F4 by lia.
    rewrite <- F4, I12. by chase.
  - specialize (F4 1 ltac:(lia)). replace (mid + 12 + 1) with (mid + 13) in F4 by lia.
    replace (from + 4 + 1) with (from + 5) in F4 by lia. rewrite <- F4, I13. by chase.
  - specialize (F4 (j - 4) ltac:(lia)). replace (from + 4 + (j - 4)) with (from + j) in F4 by lia.
    rewrite <- F4. chase. do 2 f_equal. lia.
  - specialize (F8 (j - 8) ltac:(lia)). replace (from + 8 + (j - 8)) with (from + j) in F8 by lia.
    rewrite <- F8. chase. do 2 f_equal. lia.
  - specialize (Z8 (j - 8) ltac:(lia)). replace (from + 8 + (j - 8)) with (from + j) in Z8 by lia.
    rewrite Z8. chase. f_equal. apply (byte_of_zero _ 4); [done|lia].
  - specialize (F16 (j - 16) ltac:(lia)). replace (from + 16 + (j - 16)) with (from + j) in F16 by lia.
    rewrite <- F16. chase. do 2 f_equal. lia.
  - specialize (Z16 (j - 16) ltac:(lia)). replace (from + 16 + (j - 16)) with (from + j) in Z16 by lia.
    rewrite Z16. chase. f_equal. apply (byte_of_zero _ 4); [done|lia].
Qed.

(** Equal fields from equal bytes. *)
Lemma same_field r n b p v w :
  0 <= n -> reads r n -> Forall is_byte b -> r b p = Some v -> 0 <= w < 2 ^ (8 * n) ->
  (forall i, 0 <= i < n -> get_at b (p + i) = Some (byte_of w i)) -> v = w.
Proof.
  intros Hn Hr Hb Hv Hw H. destruct (Hr _ _ _ Hb Hv) as [Rv Bv]. apply (bytes_value n); try done.
  intros i Hi. specialize (H i Hi). rewrite Bv in H by done. by injection H.
Qed.

Lemma byte_of_mod v n i : 0 <= i < n -> byte_of (v mod 2 ^ (8 * n)) i = byte_of v i.
Proof.
  intros Hi. unfold byte_of, u8, wrap. apply Z.bits_inj'. intros b Hb.
  destruct (Z_lt_le_dec b 8); [|by rewrite !Z.mod_pow2_bits_high by lia].
  rewrite !Z.mod_pow2_bits_low, !Z.shiftr_spec, Z.mod_pow2_bits_low by lia. done.
Qed.

(** The packed [info] word, there and back. *)
Lemma info_roundtrip info :
  0 <= info < 2 ^ 64 -> Z.shiftr info 32 < 2 ^ 24 -> Z.land info 0xffffffff < 256 ->
  let packed := Z.lor (u64 (Z.shiftl (Z.shiftr info 32) 8)) (Z.land info 0xffffffff) in
  0 <= packed < 2 ^ 32
  /\ Z.lor (Z.shiftl (Z.shiftr packed 8) 32) (Z.land packed 0xff) = info.
Proof.
  intros Hi Hs Hk. cbv zeta. change 0xffffffff with (2 ^ 32 - 1) in *. change 0xff with (2 ^ 8 - 1).
  rewrite !land_ones_mod in * by lia. rewrite !Z.shiftr_div_pow2 in * by lia.
  pose proof (Z.div_mod info (2 ^ 32) ltac:(lia)). pose proof (Z.mod_pos_bound info (2 ^ 32) ltac:(lia)).
  assert (0 <= info / 2 ^ 32) by (apply Z.div_pos; lia).
  set (sym := info / 2 ^ 32) in *. set (kind := info mod 2 ^ 32) in *.
  rewrite u64_small by (rewrite Z.shiftl_mul_pow2 by lia; lia).
  rewrite Z.lor_comm, lor_shift_add by lia. split; [lia|].
  replace ((kind + sym * 2 ^ 8) / 2 ^ 8) with sym by (rewrite Z.div_add, Z.div_small by lia; lia).
  replace ((kind + sym * 2 ^ 8) mod 2 ^ 8) with kind by (rewrite Z.mod_add, Z.mod_small by lia; lia).
  rewrite Z.lor_comm, lor_shift_add by lia. lia.
Qed.

Lemma addend_roundtrip raw :
  0 <= raw < 2 ^ 64 -> - 2 ^ 31 <= i64 raw <= 2 ^ 31 - 1 -> u64 (i32 (u32 (i64 raw))) = raw.
Proof.
  intros Hr Hi. unfold i64, to_signed in *. fold (u64 raw) in *. rewrite (u64_small raw) in * by lia.
  change (2 ^ (64 - 1)) with (2 ^ 63) in *. unfold i32, to_signed, u32, u64, wrap.
  change (2 ^ (32 - 1)) with (2 ^ 31). rewrite Z.mod_mod by lia.
  destruct (Z.ltb_spec raw (2 ^ 63)).
  - rewrite (Z.mod_small raw (2 ^ 32)) by lia. rewrite (proj2 (Z.ltb_lt _ _)) by lia. apply Z.mod_small. lia.
  - replace ((raw - 2 ^ 64) mod 2 ^ 32) with (raw - 2 ^ 64 + 2 ^ 32)
      by (apply (Z.mod_unique _ _ (-1)); lia).
    rewrite (proj2 (Z.ltb_ge _ _)) by lia. symmetry. apply (Z.mod_unique _ _ (-1)); lia.
Qed.

(** The offset and the packed word read back from a narrowed relocation. *)
Lemma narrowed_relocation inp o' from mid off info off' packed :
  Forall is_byte inp -> Forall is_byte o' ->
  elf_class_read64 inp from = Some off -> elf_class_read64 inp (from + 8) = Some info ->
  elf_class_fits off = true -> Z.shiftr info 32 < 2 ^ 24 -> Z.land info 0xffffffff < 256 ->
  (forall i, 0 <= i < 4 -> get_at o' (mid + i) = Some (byte_of off i)) ->
  (forall i, 0 <= i < 4 -> get_at o' (mid + 4 + i)
     = Some (byte_of (Z.lor (u64 (Z.shiftl (Z.shiftr info 32) 8)) (Z.land info 0xffffffff)) i)) ->
  elf_class_read32 o' mid = Some off' -> elf_class_read32 o' (mid + 4) = Some packed ->
  off' = off /\ Z.lor (Z.shiftl (Z.shiftr packed 8) 32) (Z.land packed 0xff) = info.
Proof.
  intros Hin Ho Eo Ei Hf Hs Hk B1 B2 R1 R2.
  pose proof (reads64 _ _ _ Hin Eo) as [Ro _]. pose proof (reads64 _ _ _ Hin Ei) as [Ri _].
  destruct (info_roundtrip info Ri Hs Hk) as [Hp Hi].
  apply fits_range in Hf; [|lia]. split.
  - by eapply (same_field _ 4 o' mid); [lia|apply reads32|..].
  - rewrite <- Hi. do 3 f_equal; by eapply (same_field _ 4 o' (mid + 4)); [lia|apply reads32|..].
Qed.

(** A relocation that narrows (offset, symbol, kind and addend fit) and is
    widened again is, byte for byte, the original, with or without an addend. *)
Theorem relocation_roundtrip inp at_ (addend : bool) k o o' to e e' :
  let wide := if addend then 24 else 16 in
  let narrow := if addend then 12 else 8 in
  Forall is_byte inp -> Forall is_byte o ->
  narrow_relocation inp at_ wide narrow addend k (true, o) = Some (true, o') ->
  widen_relocation o' at_ to narrow addend k e = Some e' ->
  forall j, 0 <= j < wide -> get_at e' (to + k * wide + j) = get_at inp (at_ + k * wide + j).
Proof.
  intros wide narrow Hin Ho Hn Hw. unfold narrow_relocation in Hn. unfold widen_relocation in Hw.
  cbv zeta in Hn, Hw. fold wide in Hw.
  set (from := at_ + k * wide) in *. set (mid := at_ + k * narrow) in *. set (d := to + k * wide) in *.
  ostep Hn off Eo. ostep Hn info Ei. ostep Hn o1 E1. ostep Hn o2 E2.
  ostep Hw packed Ep. ostep Hw off' Eo'. ostep Hw e1 W1. ostep Hw e2 W2.
  assert (Forall is_byte o2) as Hb2 by eauto using write32_bytes.
  pose proof (writes32 _ _ _ _ E1) as [B1 N1]. pose proof (writes32 _ _ _ _ E2) as [B2 N2].
  pose proof (proj2 (reads64 _ _ _ Hin Eo)) as Bo. pose proof (proj2 (reads64 _ _ _ Hin Ei)) as Bi.
  pose proof (writes64 _ _ _ _ W1) as [C1 M1]. pose proof (writes64 _ _ _ _ W2) as [C2 M2].
  destruct addend; subst wide narrow.
  - ostep Hn raw Er. ostep Hn o3 E3. injection Hn as Hok <-. ostep Hw v Ev.
    apply andb_true_iff in Hok as [Hok Hv2]. apply andb_true_iff in Hok as [Hok Hv1].
    apply andb_true_iff in Hok as [Hok Hk]. apply andb_true_iff in Hok as [Hf Hs]. cbn [andb] in Hf. to_prop.
    assert (Forall is_byte o3) as Hb3 by eauto using write32_bytes.
    pose proof (writes32 _ _ _ _ E3) as [B3 N3]. pose proof (writes64 _ _ _ _ Hw) as [C3 M3].
    pose proof (reads64 _ _ _ Hin Er) as [Rr Br].
    destruct (narrowed_relocation inp o3 from mid off info off' packed) as [-> Hinfo]; try done.
    { intros i Hi. chase. do 2 f_equal. lia. }
    { intros i Hi. rewrite N3 by lia. by apply B2. }
    assert (v = u32 (i64 raw)) as ->.
    { eapply (same_field _ 4 o3 (mid + 8)); [lia|apply reads32|done|done|apply u32_range|done]. }
    rewrite addend_roundtrip in C3 by (try exact Rr; lia).
    intros j Hj. assert (j < 8 \/ 8 <= j < 16 \/ 16 <= j) as [Hr|[Hr|Hr]] by lia.
    + chase. do 2 f_equal. lia.
    + rewrite M3 by lia. replace (d + j) with (d + 8 + (j - 8)) by lia. rewrite C2, Hinfo by lia.
      rewrite <- Bi by lia. f_equal. lia.
    + replace (d + j) with (d + 16 + (j - 16)) by lia. rewrite C3 by lia. rewrite <- Br by lia. f_equal. lia.
  - injection Hn as Hok <-. injection Hw as <-.
    apply andb_true_iff in Hok as [Hok Hk]. apply andb_true_iff in Hok as [Hf Hs]. cbn [andb] in Hf. to_prop.
    destruct (narrowed_relocation inp o2 from mid off info off' packed) as [-> Hinfo]; try done.
    { intros i Hi. chase. do 2 f_equal. lia. }
    intros j Hj. assert (j < 8 \/ 8 <= j) as [Hr|Hr] by lia.
    + chase. do 2 f_equal. lia.
    + replace (d + j) with (d + 8 + (j - 8)) by lia. rewrite C2, Hinfo by lia.
      rewrite <- Bi by lia. f_equal. lia.
Qed.

(** ** Bounds of narrowing *)

(** The layout [dyn_elf_narrow] computes: program headers, section headers,
    the end of the sections' bytes, the new place of the section headers and the
    size of the output. *)
Definition narrow_layout (inp : bytes) : option (Z * Z * Z * Z * Z * Z * Z) :=
  let size := Z.of_nat (length inp) in
  let* phoff := elf_class_read64 inp 32 in
  let* shoff := elf_class_read64 inp 40 in
  let* phnum := elf_class_read16 inp 56 in
  let* shnum := elf_class_read16 inp 60 in
  let* end_ := for_each (Z.to_nat shnum) 0 (section_end inp shoff)
                 (if shnum =? 0 then size else shoff) in
  let headers := Z.land (u64 (end_ + 3)) (Z.lnot 3) in
  Some (phoff, phnum, shoff, shnum, end_, headers, u64 (headers + shnum * 40)).

(** The layouts for which the output holds everything that is written. *)
Definition layout_fits (inp : bytes) : Prop :=
  forall phoff phnum shoff shnum end_ headers total,
  narrow_layout inp = Some (phoff, phnum, shoff, shnum, end_, headers, total) ->
  end_ <= headers /\ 64 <= total /\ (phnum <> 0 -> phoff + phnum * 56 <= total)
  /\ headers + shnum * 40 <= total.

Section NarrowBounds.
Context (inp : bytes) (Hbytes : Forall is_byte inp).
Context (Hsize : Z.of_nat (length inp) < 2 ^ 63).
Context (shoff shnum : Z) (Hshoff : 0 <= shoff) (Hshnum : 0 <= shnum < 2 ^ 16).
Context (Hsh : shnum = 0 \/ shoff + shnum * 64 <= Z.of_nat (length inp)).

(** The bytes of section [j] end before [end_]. *)
Definition section_before (end_ j : Z) : Prop :=
  forall type at_ length_,
    elf_class_read32 inp (shoff + j * 64 + 4) = Some type ->
    elf_class_read64 inp (shoff + j * 64 + 24) = Some at_ ->
    elf_class_read64 inp (shoff + j * 64 + 32) = Some length_ ->
    type <> SHT_NOBITS -> u64 (at_ + length_) <= end_.

Lemma within_section_ends start :
  within (for_each (Z.to_nat shnum) 0 (section_end inp shoff) start)
    (fun end_ => start <= end_ /\ forall j, 0 <= j < shnum -> section_before end_ j).
Proof.
  eapply within_mono; [apply (within_for_each _ (fun i end_ => start <= end_
      /\ forall j, 0 <= j < i -> section_before end_ j)); [split; [lia|intros; lia]|]|].
  - intros i end_ Hi [Hs Hj]. destruct Hsh as [->|Hsh']; [lia|]. unfold section_end. cbv zeta.
    pose proof (within_read64 inp (shoff + i * 64 + 24) Hbytes ltac:(lia) ltac:(lia)) as R1.
    pose proof (within_read64 inp (shoff + i * 64 + 32) Hbytes ltac:(lia) ltac:(lia)) as R2.
    pose proof (within_read32 inp (shoff + i * 64 + 4) Hbytes ltac:(lia) ltac:(lia)) as R3.
    unfold within in R1, R2, R3.
    destruct (elf_class_read64 inp (shoff + i * 64 + 24)) as [a|] eqn:E1; [|done].
    destruct (elf_class_read64 inp (shoff + i * 64 + 32)) as [l|] eqn:E2; [|done].
    destruct (elf_class_read32 inp (shoff + i * 64 + 4)) as [t|] eqn:E3; [|done]. cbn [within].
    set (end' := if _ && _ then _ else _).
    assert (end_ <= end' /\ (t <> SHT_NOBITS -> u64 (a + l) <= end')) as [He Ht].
    { unfold end'. destruct (Z.eqb_spec t SHT_NOBITS); cbn [negb andb]; [lia|].
      destruct (Z.ltb_spec end_ (u64 (a + l))); lia. }
    split; [lia|]. intros j Hjr. destruct (Z.eq_dec j i) as [->|].
    + intros type at_ length_ H1 H2 H3. rewrite E3 in H1. rewrite E1 in H2. rewrite E2 in H3. simplify_eq. done.
    + intros type at_ length_ H1 H2 H3 H4.
      pose proof (Hj j ltac:(lia) _ _ _ H1 H2 H3 H4). lia.
  - cbn beta. intros end_ [H1 H2]. split; [done|]. intros. apply H2. lia.
Qed.

Lemma within_narrow_program_header phoff i ok o :
  0 <= phoff -> 0 <= i -> phoff + i * 56 + 56 <= Z.of_nat (length inp) ->
  phoff + i * 56 + 56 <= Z.of_nat (length o) ->
  within (narrow_program_header inp phoff i (ok, o)) (fun st => length (snd st) = length o).
Proof.
  intros. unfold narrow_program_header. cbv zeta.
  eapply within_bind; [apply (within_for_each _ (fun _ _ => True)); [done|]|].
  { intros j b Hj _. unfold fits_at. wb. done. }
  intros ok' _. wb. cbn. lia.
Qed.

Lemma within_narrow_symbol at_ k ok o :
  0 <= at_ -> 0 <= k -> at_ + k * 24 + 24 <= Z.of_nat (length inp) ->
  at_ + k * 24 + 24 <= Z.of_nat (length o) ->
  within (narrow_symbol inp at_ k (ok, o)) (fun st => length (snd st) = length o).
Proof. intros. unfold narrow_symbol. cbv zeta. wb. cbn. lia. Qed.

Lemma within_narrow_relocation at_ (addend : bool) k ok o :
  let wide := if addend then 24 else 16 in
  0 <= at_ -> 0 <= k -> at_ + k * wide + wide <= Z.of_nat (length inp) ->
  at_ + k * wide + wide <= Z.of_nat (length o) ->
  within (narrow_relocation inp at_ wide (if addend then 12 else 8) addend k (ok, o))
    (fun st => length (snd st) = length o).
Proof.
  intros wide. subst wide. unfold narrow_relocation. cbv zeta. destruct addend; intros; wb; cbn; lia.
Qed.

Lemma within_narrow_table type at_ length_ entsize ok o :
  0 <= at_ -> 0 <= length_ ->
  (type <> SHT_NOBITS -> at_ + length_ <= Z.of_nat (length inp) /\ at_ + length_ <= Z.of_nat (length o)) ->
  within (narrow_table inp type at_ length_ entsize (ok, o)) (fun r => length (snd (fst (fst r))) = length o).
Proof.
  intros Hat Hlen Hin. unfold narrow_table, is_symbols.
  destruct (((type =? SHT_SYMTAB) || (type =? SHT_DYNSYM)) && (entsize =? 24)) eqn:Es.
  - destruct Hin as [H1 H2]; [unfold SHT_SYMTAB, SHT_DYNSYM, SHT_NOBITS in *; to_prop; lia|]. wb.
    pose proof (Z.div_mod length_ 24). pose proof (Z.mod_pos_bound length_ 24).
    assert (0 <= length_ / 24) by (apply Z.div_pos; lia).
    eapply within_bind; [apply (within_for_each _ (fun _ st => length (snd st) = length o)); [done|]|done].
    intros j [ok' o'] Hj Hl. cbn [snd] in Hl. eapply within_mono; [apply within_narrow_symbol; lia|].
    cbn. intros. congruence.
  - destruct (((type =? SHT_RELA) && (entsize =? 24)) || ((type =? SHT_REL) && (entsize =? 16))) eqn:Er; [|done].
    destruct Hin as [H1 H2]; [unfold SHT_RELA, SHT_REL, SHT_NOBITS in *; to_prop; lia|]. wb.
    assert (entsize = if type =? SHT_RELA then 24 else 16) as ->.
    { destruct (Z.eqb_spec type SHT_RELA) as [->|]; unfold SHT_RELA, SHT_REL in *; to_prop; lia. }
    set (w := if type =? SHT_RELA then 24 else 16).
    assert (w = 24 \/ w = 16) as Hw by (unfold w; destruct (type =? SHT_RELA); auto).
    pose proof (Z.div_mod length_ w ltac:(lia)). pose proof (Z.mod_pos_bound length_ w ltac:(lia)).
    assert (0 <= length_ / w) by (apply Z.div_pos; lia).
    eapply within_bind; [apply (within_for_each _ (fun _ st => length (snd st) = length o)); [done|]|done].
    intros j [ok' o'] Hj Hl. cbn [snd] in Hl.
    eapply within_mono; [apply within_narrow_relocation; fold w; [lia|lia|nia|nia]|].
    cbn. intros. congruence.
Qed.

Lemma within_narrow_section headers end_ i ok o :
  0 <= i < shnum -> section_before end_ i -> 0 <= end_ <= headers ->
  headers + shnum * 40 <= Z.of_nat (length o) ->
  within (narrow_section inp shoff headers i (ok, o)) (fun st => length (snd st) = length o).
Proof.
  intros Hi Hb He Ho. destruct Hsh as [->|Hsh']; [lia|]. unfold narrow_section. cbv zeta.
  set (s := shoff + i * 64).
  pose proof (within_read32 inp (s + 4) Hbytes ltac:(lia) ltac:(lia)) as R1.
  pose proof (within_read64 inp (s + 24) Hbytes ltac:(lia) ltac:(lia)) as R2.
  pose proof (within_read64 inp (s + 32) Hbytes ltac:(lia) ltac:(lia)) as R3.
  pose proof (within_read64 inp (s + 56) Hbytes ltac:(lia) ltac:(lia)) as R4.
  unfold within in R1, R2, R3, R4.
  destruct (elf_class_read32 inp (s + 4)) as [t|] eqn:E1; [|done].
  destruct (elf_class_read64 inp (s + 24)) as [a|] eqn:E2; [|done].
  destruct (elf_class_read64 inp (s + 32)) as [l|] eqn:E3; [|done].
  destruct (elf_class_read64 inp (s + 56)) as [es|]; [|done].
  destruct (negb (t =? SHT_NOBITS) && negb _) eqn:Hc; [done|].
  eapply within_bind.
  { apply within_narrow_table; [lia|lia|]. intros Ht. specialize (Hb _ _ _ E1 E2 E3 Ht).
    rewrite (proj2 (Z.eqb_neq _ _) Ht) in Hc. cbn in Hc. apply negb_false_iff in Hc.
    unfold elf_class_inside in Hc. to_prop. rewrite u64_small in Hb by lia. lia. }
  intros [[[ok1 o1] n1] ne1] Hl. cbn [fst snd] in Hl. wb. cbn [within snd]. lia.
Qed.
End NarrowBounds.

(** Room for the file header. *)
Lemma within_narrow_file_header inp o phoff phnum shnum headers :
  Forall is_byte inp -> 64 <= Z.of_nat (length inp) -> 64 <= Z.of_nat (length o) ->
  within (narrow_file_header inp o phoff phnum shnum headers) (fun st => length (snd st) = length o).
Proof. intros. unfold narrow_file_header. cbv zeta. wb. cbn [within snd]. lia. Qed.

(** Narrowing stays inside its buffers for every input whose layout leaves
    room: the sections' end does not wrap around, the output holds a 64-byte
    header, and the program headers lie before the end of the output. *)
Theorem narrow_memory_safe inp :
  Forall is_byte inp -> Z.of_nat (length inp) < 2 ^ 63 -> layout_fits inp ->
  within (dyn_elf_narrow inp) (fun _ => True).
Proof.
  intros Hb Hsize Hfit. unfold dyn_elf_narrow. cbv zeta.
  destruct ((_ <? 64) || _) eqn:Hs; [done|]. apply orb_false_iff in Hs as [Hs _]. apply Z.ltb_ge in Hs.
  wb1 within_get. wb1 within_get. destruct (negb _ || negb _); [done|].
  pose proof (within_read64 inp 32 Hb ltac:(lia) ltac:(lia)) as R1.
  pose proof (within_read64 inp 40 Hb ltac:(lia) ltac:(lia)) as R2.
  pose proof (within_read16 inp 56 Hb ltac:(lia) ltac:(lia)) as R3.
  pose proof (within_read16 inp 60 Hb ltac:(lia) ltac:(lia)) as R4. unfold within in R1, R2, R3, R4.
  unfold layout_fits, narrow_layout in Hfit.
  destruct (elf_class_read64 inp 32) as [phoff|]; [|done]. destruct (elf_class_read64 inp 40) as [shoff|]; [|done].
  destruct (elf_class_read16 inp 56) as [phnum|]; [|done]. destruct (elf_class_read16 inp 60) as [shnum|]; [|done].
  destruct ((negb (phnum =? 0) && _) || _) eqn:Hin; [done|]. apply orb_false_iff in Hin as [Hph Hsh].
  assert (phnum = 0 \/ phoff + phnum * 56 <= Z.of_nat (length inp)) as Hph'.
  { unfold elf_class_inside in Hph. to_prop. lia. }
  assert (shnum = 0 \/ shoff + shnum * 64 <= Z.of_nat (length inp)) as Hsh'.
  { unfold elf_class_inside in Hsh. to_prop. lia. }
  pose proof (within_section_ends inp Hb shoff shnum ltac:(lia) ltac:(lia) Hsh'
    (if shnum =? 0 then Z.of_nat (length inp) else shoff)) as Hends. unfold within in Hends.
  destruct (for_each _ _ (section_end inp shoff) _) as [end_|]; [|done]. destruct Hends as [Hst Hbef].
  specialize (Hfit _ _ _ _ _ _ _ eq_refl). destruct Hfit as (F1 & F2 & F3 & F4).
  assert (0 <= end_) as He0 by (destruct (shnum =? 0); lia).
  set (headers := Z.land (u64 (end_ + 3)) (Z.lnot 3)) in *. set (total := u64 (headers + shnum * 40)) in *.
  destruct (negb (elf_class_fits total) || _); [done|].
  set (o0 := replicate _ _).
  assert (Z.of_nat (length o0) = total) as Ho0 by (unfold o0; rewrite length_replicate; lia). clearbody o0.
  wb1 within_copy. rename a1 into o1.
  eapply within_bind; [apply within_narrow_file_header; [done|lia|lia]|]. intros [ok o2] Ho2. cbn [snd] in Ho2.
  eapply within_bind; [apply (within_while_ok _ _ (fun _ st => length (snd st) = length o0)); [cbn; lia|]|].
  { intros j [ok' o'] Hj Hl _. cbn [snd] in Hl. eapply within_mono;
      [apply within_narrow_program_header; try done; lia|]. cbn. lia. }
  intros [ok3 o3] (_ & Ho3 & _). cbn [snd] in Ho3.
  eapply (within_bind _ _ (fun st => length (snd st) = length o0)).
  { destruct (Z.eqb_spec phnum 0); [done|]. cbn [snd]. wb. cbn. lia. }
  intros [ok4 o4] Ho4. cbn [snd] in Ho4.
  eapply within_bind; [apply (within_while_ok _ _ (fun _ st => length (snd st) = length o0)); [done|]|].
  { intros j [ok' o'] Hj Hl _. cbn [snd] in Hl. eapply within_mono;
      [apply (within_narrow_section inp Hb Hsize shoff shnum) with (end_ := end_); try done; try lia|].
    - apply Hbef. lia.
    - cbn. lia. }
  intros [ok5 o5] _. done.
Qed.

(** A minimal ELF64 file: header, one section header at 64, one program header
    at [phoff], and padding to 184 bytes. *)
Definition little (n : nat) (v : Z) : bytes := map (fun i => byte_of v (Z.of_nat i)) (seq 0 n).
Definition elf64 (phoff section_at section_length : Z) : bytes :=
  ELF_MAGIC ++ [2; 1; 1] ++ replicate 9 0 ++ little 8 0 ++ little 8 0
  ++ little 8 phoff ++ little 8 64 ++ little 8 0
  ++ little 2 1 ++ little 2 64 ++ little 2 1 ++ little 2 0
  ++ (replicate 4 0 ++ little 4 1 ++ replicate 16 0 ++ little 8 section_at ++ little 8 section_length
      ++ replicate 24 0)
  ++ replicate 56 0.

Lemma narrow_memory_safe_witness : within (dyn_elf_narrow (elf64 64 0 184)) (fun _ => True).
Proof.
  apply (narrow_memory_safe (elf64 64 0 184)).
  - unfold is_byte. apply (bool_decide_unpack _). vm_compute. exact I.
  - vm_compute. reflexivity.
  - intros ? ? ? ? ? ? ? H. vm_compute in H. injection H as <- <- <- <- <- <- <-. vm_compute.
    split_and!; congruence.
Defined.

(** Without that room narrowing writes outside its output: the program
    headers of an input that has them after its section headers are written
    past the end, and a section whose end wraps around 2^64 makes the copy of
    the input overrun a too small output. *)
Theorem narrow_writes_out_of_bounds :
  dyn_elf_narrow (elf64 128 0 0) = None
  /\ dyn_elf_narrow (firstn 60 (elf64 128 0 0) ++ little 2 2 ++ little 2 0
                     ++ replicate 4 0 ++ little 4 1 ++ replicate 16 0 ++ little 8 (2 ^ 64 - 2)
                     ++ little 8 1 ++ replicate 88 0) = None.
Proof. split; vm_compute; reflexivity. Qed.

Definition elf32_object : bytes :=
  ELF_MAGIC ++ [1; 1; 1] ++ replicate 9 0 ++ little 2 1 ++ replicate 14 0
  ++ little 4 52 ++ replicate 12 0 ++ little 2 1 ++ replicate 42 0.

Lemma widen_memory_safe_witness :
  exists o, dyn_elf_widen elf32_object = Some (Some o) /\ 64 + 1 * 64 <= Z.of_nat (length o).
Proof.
  assert (Forall is_byte elf32_object) as Hb
    by (unfold is_byte; apply (bool_decide_unpack _); vm_compute; exact I).
  pose proof (widen_memory_safe elf32_object Hb) as H. unfold within in H.
  destruct (dyn_elf_widen elf32_object) as [[o|]|] eqn:E; [|vm_compute in E; discriminate E|done].
  exists o. split; [done|]. destruct H as (n & Hn & Hl). vm_compute in Hn. injection Hn as <-. exact Hl.
Defined.

Definition symbol64 : bytes := little 4 7 ++ [18; 0] ++ little 2 3 ++ little 8 0x8000 ++ little 8 32.

Lemma symbol_roundtrip_witness :
  exists o' e', narrow_symbol symbol64 0 0 (true, replicate 24 0) = Some (true, o')
    /\ widen_symbol o' 0 0 0 (replicate 24 1) = Some e'
    /\ forall j, 0 <= j < 24 -> get_at e' (0 + 0 * 24 + j) = get_at symbol64 (0 + 0 * 24 + j).
Proof.
  assert (exists o', narrow_symbol symbol64 0 0 (true, replicate 24 0) = Some (true, o')) as [o' E1]
    by (eexists; vm_compute; reflexivity).
  assert (exists e', widen_symbol o' 0 0 0 (replicate 24 1) = Some e') as [e' E2]
    by (vm_compute in E1; injection E1 as <-; eexists; vm_compute; reflexivity).
  exists o', e'. split; [exact E1|]. split; [exact E2|].
  apply (symbol_roundtrip symbol64 0 0 (replicate 24 0) o' 0 (replicate 24 1) e');
    [unfold is_byte; apply (bool_decide_unpack _); vm_compute; exact I..|exact E1|exact E2].
Defined.

Definition rela64 : bytes := little 8 0x1234 ++ little 8 (5 * 2 ^ 32 + 42) ++ little 8 (2 ^ 64 - 4).

Lemma relocation_roundtrip_witness :
  exists o' e', narrow_relocation rela64 0 24 12 true 0 (true, replicate 24 0) = Some (true, o')
    /\ widen_relocation o' 0 0 12 true 0 (replicate 24 1) = Some e'
    /\ forall j, 0 <= j < 24 -> get_at e' (0 + 0 * 24 + j) = get_at rela64 (0 + 0 * 24 + j).
Proof.
  assert (exists o', narrow_relocation rela64 0 24 12 true 0 (true, replicate 24 0) = Some (true, o')) as [o' E1]
    by (eexists; vm_compute; reflexivity).
  assert (exists e', widen_relocation o' 0 0 12 true 0 (replicate 24 1) = Some e') as [e' E2]
    by (vm_compute in E1; injection E1 as <-; eexists; vm_compute; reflexivity).
  exists o', e'. split; [exact E1|]. split; [exact E2|].
  apply (relocation_roundtrip rela64 0 true 0 (replicate 24 0) o' 0 (replicate 24 1) e');
    [unfold is_byte; apply (bool_decide_unpack _); vm_compute; exact I..|exact E1|exact E2].
Defined.
