(* ===== verification/ElfReloc.v ===== *)
(** The ELF linker's relocations (src/src/link_elf.c, from [fits_signed] to
    [relocate]): the words and instructions of one section are patched in the
    image of the output.

    The image is a list of bytes; a section starts at a position of its own,
    and a read or write outside the image has no result. Pointers between
    objects, sections and symbols are numbers of the linker's tables. *)

From S2P Require Import Prelude ElfClass.

(** ** Constants *)
Definition MACHINE_ARM : Z := 40.
Definition MACHINE_X86_64 : Z := 62.
Definition MACHINE_AARCH64 : Z := 183.
Definition MACHINE_RISCV : Z := 243.
Definition SHF_ALLOC : Z := 2.
Definition SHF_EXEC : Z := 4.
Definition STB_LOCAL : Z := 0.
Definition STT_TLS : Z := 6.
Definition STT_GNU_IFUNC : Z := 10.
Definition STV_DEFAULT : Z := 0.
Definition R_X86_64_NONE : Z := 0.
Definition R_X86_64_64 : Z := 1.
Definition R_X86_64_PC32 : Z := 2.
Definition R_X86_64_PLT32 : Z := 4.
Definition R_X86_64_GOTPCREL : Z := 9.
Definition R_X86_64_32 : Z := 10.
Definition R_X86_64_32S : Z := 11.
Definition R_X86_64_DTPOFF64 : Z := 17.
Definition R_X86_64_TPOFF64 : Z := 18.
Definition R_X86_64_TLSLD : Z := 20.
Definition R_X86_64_DTPOFF32 : Z := 21.
Definition R_X86_64_TPOFF32 : Z := 23.
Definition R_X86_64_PC64 : Z := 24.
Definition R_X86_64_SIZE32 : Z := 32.
Definition R_X86_64_SIZE64 : Z := 33.
Definition R_X86_64_GOTPCRELX : Z := 41.
Definition R_X86_64_REX_GOTPCRELX : Z := 42.
Definition R_AARCH64_NONE : Z := 256.
Definition R_AARCH64_ABS64 : Z := 257.
Definition R_AARCH64_ABS32 : Z := 258.
Definition R_AARCH64_ABS16 : Z := 259.
Definition R_AARCH64_PREL64 : Z := 260.
Definition R_AARCH64_PREL32 : Z := 261.
Definition R_AARCH64_PREL16 : Z := 262.
Definition R_AARCH64_MOVW_UABS_G0 : Z := 263.
Definition R_AARCH64_MOVW_UABS_G3 : Z := 269.
Definition R_AARCH64_LD_PREL_LO19 : Z := 273.
Definition R_AARCH64_ADR_PREL_LO21 : Z := 274.
Definition R_AARCH64_ADR_PREL_PG_HI21 : Z := 275.
Definition R_AARCH64_ADR_PREL_PG_HI21_NC : Z := 276.
Definition R_AARCH64_ADD_ABS_LO12_NC : Z := 277.
Definition R_AARCH64_LDST8_ABS_LO12_NC : Z := 278.
Definition R_AARCH64_TSTBR14 : Z := 279.
Definition R_AARCH64_CONDBR19 : Z := 280.
Definition R_AARCH64_JUMP26 : Z := 282.
Definition R_AARCH64_CALL26 : Z := 283.
Definition R_AARCH64_LDST16_ABS_LO12_NC : Z := 284.
Definition R_AARCH64_LDST32_ABS_LO12_NC : Z := 285.
Definition R_AARCH64_LDST64_ABS_LO12_NC : Z := 286.
Definition R_AARCH64_LDST128_ABS_LO12_NC : Z := 299.
Definition R_AARCH64_ADR_GOT_PAGE : Z := 311.
Definition R_AARCH64_LD64_GOT_LO12_NC : Z := 312.
Definition R_ARM_NONE : Z := 0.
Definition R_ARM_ABS32 : Z := 2.
Definition R_ARM_REL32 : Z := 3.
Definition R_ARM_THM_CALL : Z := 10.
Definition R_ARM_THM_JUMP24 : Z := 30.
Definition R_ARM_TARGET1 : Z := 38.
Definition R_ARM_V4BX : Z := 40.
Definition R_ARM_THM_MOVW_ABS_NC : Z := 47.
Definition R_ARM_THM_MOVT_ABS : Z := 48.
Definition R_RISCV_NONE : Z := 0.
Definition R_RISCV_32 : Z := 1.
Definition R_RISCV_64 : Z := 2.
Definition R_RISCV_BRANCH : Z := 16.
Definition R_RISCV_JAL : Z := 17.
Definition R_RISCV_CALL : Z := 18.
Definition R_RISCV_CALL_PLT : Z := 19.
Definition R_RISCV_GOT_HI20 : Z := 20.
Definition R_RISCV_PCREL_HI20 : Z := 23.
Definition R_RISCV_PCREL_LO12_I : Z := 24.
Definition R_RISCV_PCREL_LO12_S : Z := 25.
Definition R_RISCV_HI20 : Z := 26.
Definition R_RISCV_LO12_I : Z := 27.
Definition R_RISCV_LO12_S : Z := 28.
Definition R_RISCV_ADD8 : Z := 33.
Definition R_RISCV_ADD16 : Z := 34.
Definition R_RISCV_ADD32 : Z := 35.
Definition R_RISCV_ADD64 : Z := 36.
Definition R_RISCV_SUB8 : Z := 37.
Definition R_RISCV_SUB16 : Z := 38.
Definition R_RISCV_SUB32 : Z := 39.
Definition R_RISCV_SUB64 : Z := 40.
Definition R_RISCV_RELAX : Z := 51.
Definition R_RISCV_SUB6 : Z := 52.
Definition R_RISCV_SET6 : Z := 53.
Definition R_RISCV_SET8 : Z := 54.
Definition R_RISCV_SET16 : Z := 55.
Definition R_RISCV_SET32 : Z := 56.
Definition R_RISCV_32_PCREL : Z := 57.

(** ** Data

    The records hold the fields that relocation uses. *)
Record LinkRela := mkRela { r_offset : Z; r_addend : Z; r_type : Z; r_symbol : Z }.
(** [section] is a number of the linker's table; [shared] says that a shared
    library defines the symbol; [got] and [plt] are one-based slots. *)
Record LinkSymbol := mkLinkSymbol {
  y_section : option Z; y_value : Z; y_size : Z; y_binding : Z; y_type : Z; y_visibility : Z; y_defined : bool; y_absolute : bool;
  y_referenced : bool; y_strong_reference : bool; y_shared : bool; y_got : Z; y_plt : Z }.
(** [symbols] is the table of the section's object: symbols by their numbers
    in the object, [None] for the null symbol. *)
Record LinkSection := mkLinkSection {
  c_name : bytes; c_size : Z; c_flags : Z; c_address : Z; c_live : bool; c_relas : list LinkRela; c_symbols : list (option Z) }.
Record Linker := mkLinker {
  l_machine : Z; l_shared_output : bool; l_word_type : Z; l_got : Z; l_plt : Z; l_tls_index : Z; l_tdata_address : Z; l_tdata_align : Z;
  l_tbss_address : Z; l_tbss_size : Z; l_sections : list LinkSection; l_symbols : list LinkSymbol }.

(** ** Memory and errors

    A computation over the image ends with a result or with the format of an
    error ([refuse], the C function [fail]). *)
Definition R (A : Type) : Type := bytes -> option (res string A * bytes).
Definition done {A} (a : A) : R A := fun m => Some (Ok a, m).
Definition andthen {A B} (c : R A) (f : A -> R B) : R B := fun m =>
  match c m with
  | Some (Ok a, m') => f a m'
  | Some (Err e, m') => Some (Err e, m')
  | None => None
  end.
Definition refuse {A} (format : string) : R A := fun m => Some (Err format, m).
Definition deref {A} (o : option A) : R A := fun m => match o with Some a => Some (Ok a, m) | None => None end.
Declare Scope reloc_scope.
Notation "'let!' x ':=' c 'in' k" := (andthen c (fun x => k))
  (at level 10, x pattern, c at level 100, k at level 200, format "'let!'  x  ':='  c  'in' '//' k") : reloc_scope.
Notation "c ';;' k" := (andthen c (fun _ => k)) (at level 100, k at level 200, right associativity) : reloc_scope.
Local Open Scope reloc_scope.

(** The little-endian accesses of link_elf.c are those of elf_class.h. *)
Definition loads (r : bytes -> Z -> option Z) (p : Z) : R Z := fun m => match r m p with Some v => Some (Ok v, m) | None => None end.
Definition stores (w : bytes -> Z -> Z -> option bytes) (p v : Z) : R unit := fun m => match w m p v with Some m => Some (Ok tt, m) | None => None end.
Definition read8 : Z -> R Z := loads get_at.
Definition read16 : Z -> R Z := loads elf_class_read16.
Definition read32 : Z -> R Z := loads elf_class_read32.
Definition read64 : Z -> R Z := loads elf_class_read64.
Definition write8 : Z -> Z -> R unit := stores (fun o p v => set_at o p (u8 v)).
Definition write16 : Z -> Z -> R unit := stores elf_class_write16.
Definition write32 : Z -> Z -> R unit := stores elf_class_write32.
Definition write64 : Z -> Z -> R unit := stores elf_class_write64.
(** A word that depends on the word that was there. *)
Definition patch8 (p : Z) (f : Z -> Z) : R unit := let! w := read8 p in write8 p (f w).
Definition patch16 (p : Z) (f : Z -> Z) : R unit := let! w := read16 p in write16 p (f w).
Definition patch32 (p : Z) (f : Z -> Z) : R unit := let! w := read32 p in write32 p (f w).
Definition patch64 (p : Z) (f : Z -> Z) : R unit := let! w := read64 p in write64 p (f w).

(** ** Reading relocations

    The entries of a table of relocations: an entry names a symbol of the
    object and starts inside the section, or at its end. *)
Fixpoint load_relas (n : nat) (data : bytes) (p symbols size : Z) : option (res string (list LinkRela)) :=
  match n with
  | O => Some (Ok [])
  | S n =>
      let* info := elf_class_read64 data (p + 8) in
      let* offset := elf_class_read64 data p in
      let* addend := elf_class_read64 data (p + 16) in
      let r := mkRela offset addend (u32 info) (Z.shiftr info 32) in
      if (symbols <=? r_symbol r) || (size <? r_offset r) then Some (Err "'%s' has a malformed relocation%s")
      else
        let* rest := load_relas n data (p + 24) symbols size in
        Some (match rest with Ok l => Ok (r :: l) | Err e => Err e end)
  end.

(** ** Fields of instructions *)
Definition fits_signed (value bits : Z) : bool := (- 2 ^ (bits - 1) <=? value) && (value <? 2 ^ (bits - 1)).
Definition field (mask shift value word : Z) : Z :=
  Z.lor (Z.land word (Z.lxor (2 ^ 32 - 1) (Z.shiftl mask shift))) (Z.shiftl (Z.land (u32 value) mask) shift).
Definition set_bits (p mask shift value : Z) : R unit := patch32 p (field mask shift value).
Definition set_adr (p immediate : Z) : R unit := set_bits p 3 29 immediate ;; set_bits p 0x7ffff 5 (Z.shiftr immediate 2).
Definition page_of (address : Z) : Z := Z.land address (2 ^ 64 - 1 - 0xfff).
(** RISC-V: the upper immediate, and the immediates of loads, stores, jumps
    and branches. *)
Definition riscv_upper (relative word : Z) : Z := Z.lor (Z.land word 0xfff) (Z.land (u32 (relative + 0x800)) 0xfffff000).
Definition riscv_load (relative word : Z) : Z := Z.lor (Z.land word 0xfffff) (u32 (Z.shiftl (u32 relative) 20)).
Definition riscv_store (relative word : Z) : Z :=
  let r := u32 relative in
  Z.lor (Z.lor (Z.land word 0x01fff07f) (Z.shiftl (Z.land r 0xfe0) 20)) (Z.shiftl (Z.land r 31) 7).
Definition riscv_jump (relative word : Z) : Z :=
  let r := u32 relative in
  Z.lor (Z.lor (Z.lor (Z.lor (Z.land word 0xfff) (Z.shiftl (Z.land r 0x100000) 11)) (Z.shiftl (Z.land r 0x7fe) 20))
           (Z.shiftl (Z.land r 0x800) 9)) (Z.land r 0xff000).
Definition riscv_branch (relative word : Z) : Z :=
  let r := u32 relative in
  Z.lor (Z.lor (Z.lor (Z.lor (Z.land word 0x01fff07f) (Z.shiftl (Z.land r 0x1000) 19)) (Z.shiftl (Z.land r 0x7e0) 20))
           (Z.shiftl (Z.land r 0x1e) 7)) (Z.shiftr (Z.land r 0x800) 4).
(** Thumb: the two halves of a 16-bit immediate and of a branch. *)
Definition thumb_first (value first : Z) : Z :=
  Z.lor (Z.lor (Z.land first 0xfbf0) (Z.land (Z.shiftr value 12) 15)) (Z.shiftl (Z.land (Z.shiftr value 11) 1) 10).
Definition thumb_second (value second : Z) : Z :=
  Z.lor (Z.lor (Z.land second 0x8f00) (Z.shiftl (Z.land (Z.shiftr value 8) 7) 12)) (Z.land value 0xff).
Definition thumb_immediate16 (p value : Z) : R unit :=
  let! first := read16 p in
  let! second := read16 (p + 2) in
  write16 p (thumb_first value first) ;; write16 (p + 2) (thumb_second value second).
Definition branch_first (u : Z) : Z :=
  Z.lor (Z.lor 0xf000 (Z.shiftl (Z.land (Z.shiftr u 24) 1) 10)) (Z.land (Z.shiftr u 12) 0x3ff).
Definition branch_second (u second : Z) : Z :=
  let sign := Z.land (Z.shiftr u 24) 1 in
  let j k := Z.land (Z.lxor (Z.lxor (2 ^ 32 - 1) (Z.shiftr u k)) sign) 1 in
  Z.lor (Z.lor (Z.lor (Z.land second 0xd000) (Z.shiftl (j 23) 13)) (Z.shiftl (j 22) 11)) (Z.land (Z.shiftr u 1) 0x7ff).

(** ** Symbols *)
Definition symbol_section (symbol : LinkSymbol) : option Z := if y_defined symbol then y_section symbol else None.
Definition preemptible (l : Linker) (symbol : LinkSymbol) : bool :=
  if y_defined symbol then
    l_shared_output l && negb (y_binding symbol =? STB_LOCAL) && (y_visibility symbol =? STV_DEFAULT) && negb (y_absolute symbol)
  else (y_visibility symbol =? STV_DEFAULT) && (y_shared symbol || (l_shared_output l && y_referenced symbol)).
(** The address of a one-based slot of the PLT or of the GOT. *)
Definition plt_slot (l : Linker) (slot : Z) : Z := u64 (l_plt l + u32 (slot - 1) * 16).
Definition got_slot (l : Linker) (slot : Z) : Z := u64 (l_got l + u32 (slot - 1) * 8).
Definition symbol_address (l : Linker) (symbol : LinkSymbol) : option Z :=
  if negb (y_defined symbol) then Some (if y_plt symbol =? 0 then 0 else plt_slot l (y_plt symbol))
  else if y_absolute symbol then Some (y_value symbol)
  else match y_section symbol with
       | None => Some (y_value symbol)
       | Some c => let* c := get_at (l_sections l) c in Some (u64 (c_address c + y_value symbol))
       end.
(** The symbol of a relocation: [object->symbols[i]], [None] for NULL. *)
Definition symbol_of (l : Linker) (c : LinkSection) (i : Z) : option (option LinkSymbol) :=
  let* s := get_at (c_symbols c) i in
  match s with None => Some None | Some s => let* s := get_at (l_symbols l) s in Some (Some s) end.

(** ** Messages *)
Definition outside : string := "relocation outside its section in '%s'%s".
Definition out_of_range : string := "relocation to '%s' out of range in '%s'".
Definition unsupported : string := "unsupported relocation type %s in '%s'".

Section Relocate.
Variable l : Linker.
(** The section, and the position of its bytes in the image. *)
Variable c : LinkSection.
Variable out : Z.

Definition place_of (r : LinkRela) : Z := u64 (c_address c + r_offset r).

(** ** AArch64 *)
Definition pages_between (target place : Z) : Z := u64 (page_of target - page_of place).
Definition self_register (word rd : Z) : bool := (Z.land word 31 =? rd) && (Z.land (Z.shiftr word 5) 31 =? rd).
(** The last step: one instruction when the target is near. *)
Definition relax_pair (at_ place target rd : Z) : R bool :=
  let delta := i64 (target - (place + 4)) in
  if fits_signed delta 21 then
    write32 at_ 0xd503201f ;; write32 (at_ + 4) (Z.lor 0x10000000 rd) ;; set_adr (at_ + 4) (u64 delta) ;; done true
  else
    set_adr at_ (Z.shiftr (pages_between target place) 12) ;; set_bits (at_ + 4) 0xfff 10 target ;; done true.
Definition relax_aarch64 (i : nat) : R bool :=
  match c_relas c !! i, c_relas c !! S i with
  | Some first, Some second =>
      let! symbol := deref (symbol_of l c (r_symbol first)) in
      match symbol with
      | None => done false
      | Some symbol =>
          if negb (r_symbol first =? r_symbol second) || negb (r_offset second =? u64 (r_offset first + 4))
             || negb (r_addend first =? 0) || negb (r_addend second =? 0) || negb (y_defined symbol) || y_absolute symbol
             || preemptible l symbol || (y_type symbol =? STT_GNU_IFUNC)
          then done false
          else
            let at_ := out + r_offset first in
            let! adrp := read32 at_ in
            let! next := read32 (at_ + 4) in
            let rd := Z.land adrp 31 in
            if negb (Z.land adrp 0x9f000000 =? 0x90000000) then done false
            else
              let place := place_of first in
              let! value := deref (symbol_address l symbol) in
              let target := u64 (value + r_addend first) in
              if (r_type first =? R_AARCH64_ADR_GOT_PAGE) && (r_type second =? R_AARCH64_LD64_GOT_LO12_NC) then
                if negb (Z.land next 0xffc00000 =? 0xf9400000) || negb (self_register next rd) || negb (r_addend first =? 0) then done false
                else if negb (fits_signed (i64 (pages_between target place)) 33) then done false
                else
                  set_adr at_ (Z.shiftr (pages_between target place) 12) ;;
                  write32 (at_ + 4) (Z.lor (Z.lor (Z.lor 0x91000000 (Z.shiftl (Z.land target 0xfff) 10)) (Z.shiftl rd 5)) rd) ;;
                  relax_pair at_ place target rd
              else if negb ((r_type first =? R_AARCH64_ADR_PREL_PG_HI21) && (r_type second =? R_AARCH64_ADD_ABS_LO12_NC)) then done false
              else if negb (Z.land next 0xffc00000 =? 0x91000000) || negb (self_register next rd) then done false
              else relax_pair at_ place target rd
      end
  | _, _ => done false
  end.
(** The word at a relocation, and whether its value fits: [None] for a
    relocation without a range, [Some] with the test of the range. *)
Definition word_aarch64 (r : LinkRela) (symbol : option LinkSymbol) (at_ value : Z) : R (option bool) :=
  let place := place_of r in
  let target := u64 (value + r_addend r) in
  let got := match symbol with Some y => if y_got y =? 0 then 0 else got_slot l (y_got y) | None => 0 end in
  let relative := i64 (target - place) in
  let t := r_type r in
  let always c := c ;; done (Some true) in
  if (t =? 0) || (t =? R_AARCH64_NONE) then done None
  else if t =? R_AARCH64_ABS64 then write64 at_ target ;; done None
  else if t =? R_AARCH64_PREL64 then write64 at_ (u64 relative) ;; done None
  else if t =? R_AARCH64_ABS32 then write32 at_ target ;; done (Some (fits_signed (i64 target) 32 || (target <=? UINT32_MAX)))
  else if t =? R_AARCH64_PREL32 then write32 at_ relative ;; done (Some (fits_signed relative 32 || (u64 relative <=? UINT32_MAX)))
  else if t =? R_AARCH64_ABS16 then write16 at_ target ;; done (Some (fits_signed (i64 target) 16 || (target <=? 0xffff)))
  else if t =? R_AARCH64_PREL16 then write16 at_ relative ;; done (Some (fits_signed relative 16))
  else if (t =? R_AARCH64_ADR_PREL_PG_HI21) || (t =? R_AARCH64_ADR_PREL_PG_HI21_NC) then
    let pages := i64 (pages_between target place) in
    set_adr at_ (Z.shiftr (u64 pages) 12) ;; done (Some ((t =? R_AARCH64_ADR_PREL_PG_HI21_NC) || fits_signed pages 33))
  else if t =? R_AARCH64_ADR_PREL_LO21 then set_adr at_ (u64 relative) ;; done (Some (fits_signed relative 21))
  else if t =? R_AARCH64_ADD_ABS_LO12_NC then always (set_bits at_ 0xfff 10 target)
  else if t =? R_AARCH64_LDST8_ABS_LO12_NC then always (set_bits at_ 0xfff 10 (Z.land target 0xfff))
  else if t =? R_AARCH64_LDST16_ABS_LO12_NC then always (set_bits at_ 0xfff 10 (Z.shiftr (Z.land target 0xfff) 1))
  else if t =? R_AARCH64_LDST32_ABS_LO12_NC then always (set_bits at_ 0xfff 10 (Z.shiftr (Z.land target 0xfff) 2))
  else if t =? R_AARCH64_LDST64_ABS_LO12_NC then always (set_bits at_ 0xfff 10 (Z.shiftr (Z.land target 0xfff) 3))
  else if t =? R_AARCH64_LDST128_ABS_LO12_NC then always (set_bits at_ 0xfff 10 (Z.shiftr (Z.land target 0xfff) 4))
  else if (t =? R_AARCH64_CALL26) || (t =? R_AARCH64_JUMP26) then
    let relative := match symbol with
                    | Some y => if negb (y_plt y =? 0) then i64 (plt_slot l (y_plt y) + r_addend r - place)
                                else if negb (y_defined y) then 4 else relative
                    | None => relative
                    end in
    set_bits at_ 0x3ffffff 0 (Z.shiftr (u64 relative) 2) ;; done (Some (fits_signed relative 28))
  else if (t =? R_AARCH64_CONDBR19) || (t =? R_AARCH64_LD_PREL_LO19) then
    set_bits at_ 0x7ffff 5 (Z.shiftr (u64 relative) 2) ;; done (Some (fits_signed relative 21))
  else if t =? R_AARCH64_TSTBR14 then set_bits at_ 0x3fff 5 (Z.shiftr (u64 relative) 2) ;; done (Some (fits_signed relative 16))
  else if t =? R_AARCH64_ADR_GOT_PAGE then
    let pages := i64 (pages_between got place) in
    set_adr at_ (Z.shiftr (u64 pages) 12) ;; done (Some (fits_signed pages 33))
  else if t =? R_AARCH64_LD64_GOT_LO12_NC then always (set_bits at_ 0xfff 10 (Z.shiftr (Z.land got 0xfff) 3))
  else if (R_AARCH64_MOVW_UABS_G0 <=? t) && (t <=? R_AARCH64_MOVW_UABS_G3) then
    always (set_bits at_ 0xffff 5 (Z.shiftr target (16 * ((t - R_AARCH64_MOVW_UABS_G0) / 2))))
  else refuse unsupported.
Definition relocate_aarch64 (r : LinkRela) (symbol : option LinkSymbol) (at_ value : Z) (debug : bool) : R unit :=
  let t := r_type r in
  let width := if (t =? R_AARCH64_ABS64) || (t =? R_AARCH64_PREL64) then 8
               else if (t =? R_AARCH64_ABS16) || (t =? R_AARCH64_PREL16) then 2 else 4 in
  if c_size c <? u64 (r_offset r + width) then refuse outside
  else
    let! ok := word_aarch64 r symbol at_ value in
    match ok with Some false => if debug then done tt else refuse out_of_range | _ => done tt end.

(** ** RISC-V *)
(** A low half names the label of its high half: the relocation of the pair
    is the first one at the symbol's value in the symbol's section. *)
Definition is_high (value : Z) (r : LinkRela) : bool :=
  (r_offset r =? value) && ((r_type r =? R_RISCV_PCREL_HI20) || (r_type r =? R_RISCV_GOT_HI20)).
Definition riscv_low (symbol : option LinkSymbol) : R Z :=
  let! high := (match symbol with
                | None => done None
                | Some y => match symbol_section y with
                            | None => done None
                            | Some h => let! h := deref (get_at (l_sections l) h) in
                                        done (match list_find (is_high (y_value y)) (c_relas h) with Some (_, r) => Some (h, r) | None => None end)
                            end
                end) in
  match high with
  | None => refuse "missing RISC-V HI20 pair in '%s'%s"
  | Some (h, r) =>
      let! destination := deref (symbol_of l h (r_symbol r)) in
      let invalid := refuse "invalid RISC-V HI20 target in '%s'%s" in
      let through_got := r_type r =? R_RISCV_GOT_HI20 in
      match destination with
      | None => invalid
      | Some d =>
          if through_got && (y_got d =? 0) then invalid
          else
            let! address := (if through_got then done (got_slot l (y_got d)) else deref (symbol_address l d)) in
            done (i64 (address + r_addend r - (c_address h + r_offset r)))
      end
  end.
(** What a relocation is relative to its place. *)
Definition riscv_relative (r : LinkRela) (symbol : option LinkSymbol) (target : Z) : R Z :=
  let t := r_type r in
  let place := place_of r in
  if (t =? R_RISCV_PCREL_LO12_I) || (t =? R_RISCV_PCREL_LO12_S) then
    if negb (r_addend r =? 0) then refuse "nonzero RISC-V LO12 addend in '%s'%s" else riscv_low symbol
  else if t =? R_RISCV_GOT_HI20 then
    match symbol with
    | Some y => if y_got y =? 0 then refuse "invalid RISC-V GOT target in '%s'%s" else done (i64 (got_slot l (y_got y) + r_addend r - place))
    | None => refuse "invalid RISC-V GOT target in '%s'%s"
    end
  else
    done (match symbol with
          | Some y => if ((t =? R_RISCV_CALL) || (t =? R_RISCV_CALL_PLT) || (t =? R_RISCV_JAL)) && negb (y_plt y =? 0)
                      then i64 (plt_slot l (y_plt y) + r_addend r - place) else i64 (target - place)
          | None => i64 (target - place)
          end).
Definition riscv_width (t : Z) : Z :=
  if (t =? R_RISCV_ADD16) || (t =? R_RISCV_SUB16) || (t =? R_RISCV_SET16) then 2
  else if (t =? R_RISCV_ADD8) || (t =? R_RISCV_SUB8) || (t =? R_RISCV_SET8) || (t =? R_RISCV_SET6) || (t =? R_RISCV_SUB6) then 1
  else if (t =? R_RISCV_64) || (t =? R_RISCV_CALL) || (t =? R_RISCV_CALL_PLT) || (t =? R_RISCV_ADD64) || (t =? R_RISCV_SUB64) then 8
  else 4.
(** An upper immediate reaches the value. *)
Definition upper_fits (relative : Z) : bool := (relative <=? 2 ^ 63 - 1 - 0x800) && fits_signed (Z.shiftr (relative + 0x800) 12) 20.
Definition word_riscv (t at_ target relative : Z) (debug : bool) : R unit :=
  let range := refuse out_of_range in
  if t =? R_RISCV_64 then write64 at_ target
  else if t =? R_RISCV_32 then if negb debug && (UINT32_MAX <? target) then range else write32 at_ target
  else if t =? R_RISCV_32_PCREL then if negb debug && negb (fits_signed relative 32) then range else write32 at_ relative
  else if (t =? R_RISCV_HI20) || (t =? R_RISCV_PCREL_HI20) || (t =? R_RISCV_GOT_HI20) then
    let relative := if t =? R_RISCV_HI20 then i64 target else relative in
    if negb (upper_fits relative) then range else patch32 at_ (riscv_upper relative)
  else if (t =? R_RISCV_LO12_I) || (t =? R_RISCV_PCREL_LO12_I) then
    patch32 at_ (riscv_load (if t =? R_RISCV_LO12_I then i64 target else relative))
  else if (t =? R_RISCV_LO12_S) || (t =? R_RISCV_PCREL_LO12_S) then
    patch32 at_ (riscv_store (if t =? R_RISCV_LO12_S then i64 target else relative))
  else if (t =? R_RISCV_CALL) || (t =? R_RISCV_CALL_PLT) then
    if negb (upper_fits relative) then range else patch32 at_ (riscv_upper relative) ;; patch32 (at_ + 4) (riscv_load relative)
  else if t =? R_RISCV_JAL then if Z.odd relative || negb (fits_signed relative 21) then range else patch32 at_ (riscv_jump relative)
  else if t =? R_RISCV_BRANCH then if Z.odd relative || negb (fits_signed relative 13) then range else patch32 at_ (riscv_branch relative)
  else if t =? R_RISCV_ADD8 then patch8 at_ (fun w => w + target)
  else if t =? R_RISCV_ADD16 then patch16 at_ (fun w => w + target)
  else if t =? R_RISCV_ADD32 then patch32 at_ (fun w => w + target)
  else if t =? R_RISCV_ADD64 then patch64 at_ (fun w => w + target)
  else if t =? R_RISCV_SUB8 then patch8 at_ (fun w => w - target)
  else if t =? R_RISCV_SUB16 then patch16 at_ (fun w => w - target)
  else if t =? R_RISCV_SUB32 then patch32 at_ (fun w => w - target)
  else if t =? R_RISCV_SUB64 then patch64 at_ (fun w => w - target)
  else if t =? R_RISCV_SET6 then patch8 at_ (fun w => Z.lor (Z.land w 0xc0) (Z.land target 0x3f))
  else if t =? R_RISCV_SUB6 then patch8 at_ (fun w => Z.lor (Z.land w 0xc0) (Z.land (w - target) 0x3f))
  else if t =? R_RISCV_SET8 then write8 at_ target
  else if t =? R_RISCV_SET16 then write16 at_ target
  else if t =? R_RISCV_SET32 then write32 at_ target
  else refuse "unsupported RISC-V relocation %s in '%s'".
Definition relocate_riscv (r : LinkRela) (symbol : option LinkSymbol) (at_ value : Z) (debug : bool) : R unit :=
  let t := r_type r in
  if (t =? R_RISCV_NONE) || (t =? R_RISCV_RELAX) then done tt
  else if (c_size c <? r_offset r) || (c_size c - r_offset r <? riscv_width t) then refuse outside
  else
    let target := u64 (value + r_addend r) in
    let! relative := riscv_relative r symbol target in
    word_riscv t at_ target relative debug.

(** ** Arm *)
(** The subtraction of four overflows below the least 64-bit integer. *)
Definition minus_four (relative : Z) : option Z := if relative <? - 2 ^ 63 + 4 then None else Some (relative - 4).
(** Code addresses carry bit 0, except in debug information. *)
Definition arm_target (r : LinkRela) (thumb debug : bool) (value : Z) : Z :=
  if debug && thumb then Z.land (u64 (value + r_addend r)) (2 ^ 64 - 2) else Z.lor (u64 (value + r_addend r)) (if thumb then 1 else 0).
Definition relocate_arm (r : LinkRela) (symbol : option LinkSymbol) (at_ value : Z) (debug : bool) : R unit :=
  let t := r_type r in
  if (t =? R_ARM_NONE) || (t =? R_ARM_V4BX) then done tt
  else if (c_size c <? r_offset r) || (c_size c - r_offset r <? 4) then refuse outside
  else
    let! target_section := (match symbol with
                            | None => done None
                            | Some y => match symbol_section y with
                                        | None => done None
                                        | Some h => let! h := deref (get_at (l_sections l) h) in done (Some h)
                                        end
                            end) in
    let thumb := match target_section with Some h => negb (Z.land (c_flags h) SHF_EXEC =? 0) | None => false end in
    let target := arm_target r thumb debug value in
    let relative := i64 (target - place_of r) in
    if (t =? R_ARM_ABS32) || (t =? R_ARM_TARGET1) then
      if negb debug && (UINT32_MAX <? target) then refuse out_of_range else write32 at_ target
    else if t =? R_ARM_REL32 then write32 at_ relative
    else if t =? R_ARM_THM_MOVW_ABS_NC then thumb_immediate16 at_ (Z.land (u32 target) 0xffff)
    else if t =? R_ARM_THM_MOVT_ABS then thumb_immediate16 at_ (Z.land (u32 (Z.shiftr target 16)) 0xffff)
    else if (t =? R_ARM_THM_CALL) || (t =? R_ARM_THM_JUMP24) then
      let! relative := deref (minus_four relative) in
      if negb thumb || negb (fits_signed relative 25) then refuse out_of_range
      else write16 at_ (branch_first (u32 relative)) ;; patch16 (at_ + 2) (branch_second (u32 relative))
    else refuse "unsupported Arm relocation %s in '%s'".

(** ** x86-64 *)
Definition elf_align_up (value align : Z) : Z := if 1 <? align then Z.land (u64 (value + align - 1)) (2 ^ 64 - align) else value.
(** The value of a relocation, its width and whether it is signed; [None]
    for no relocation. *)
Definition value_x86 (r : LinkRela) (symbol : option LinkSymbol) (at_ value : Z) : R (option (Z * Z * bool)) :=
  let t := r_type r in
  let place := place_of r in
  let addend := r_addend r in
  let yields v width is_signed := done (Some (u64 v, width, is_signed)) in
  let tls := match symbol with Some y => y_type y =? STT_TLS | None => false end in
  let size := match symbol with Some y => y_size y | None => 0 end in
  if t =? R_X86_64_NONE then done None
  else if t =? R_X86_64_TLSLD then yields (l_tls_index l + addend - place) 32 true
  else if (t =? R_X86_64_DTPOFF32) || (t =? R_X86_64_DTPOFF64) then
    if negb tls then refuse "invalid TLS offset in '%s'%s"
    else yields (value - l_tdata_address l + addend) (if t =? R_X86_64_DTPOFF64 then 64 else 32) true
  else if (t =? R_X86_64_TPOFF32) || (t =? R_X86_64_TPOFF64) then
    if negb tls then refuse "invalid TLS offset in '%s'%s"
    else
      let start := l_tdata_address l in
      let size := elf_align_up (u64 (l_tbss_address l + l_tbss_size l - start)) (l_tdata_align l) in
      yields (value - start - size + addend) (if t =? R_X86_64_TPOFF64 then 64 else 32) true
  else if t =? R_X86_64_64 then yields (value + addend) 64 true
  else if t =? R_X86_64_32 then yields (value + addend) 32 false
  else if t =? R_X86_64_32S then yields (value + addend) 32 true
  else if t =? R_X86_64_PLT32 then
    let value := match symbol with Some y => if y_plt y =? 0 then value else plt_slot l (y_plt y) | None => value end in
    yields (value + addend - place) 32 true
  else if t =? R_X86_64_PC32 then yields (value + addend - place) 32 true
  else if t =? R_X86_64_PC64 then yields (value + addend - place) 64 true
  else if t =? R_X86_64_SIZE32 then yields (size + addend) 32 false
  else if t =? R_X86_64_SIZE64 then yields (size + addend) 64 true
  else if (t =? R_X86_64_GOTPCREL) || (t =? R_X86_64_GOTPCRELX) || (t =? R_X86_64_REX_GOTPCRELX) then
    let! y := deref symbol in
    let! load := (if negb (t =? R_X86_64_GOTPCREL) && y_defined y && negb (y_absolute y) && negb (preemptible l y) && (2 <=? r_offset r)
                  then let! b := read8 (at_ - 2) in done (b =? 0x8b) else done false) in
    if load : bool then write8 (at_ - 2) 0x8d ;; yields (value + addend - place) 32 true
    else yields (got_slot l (y_got y) + addend - place) 32 true
  else refuse unsupported.
Definition relocate_x86 (r : LinkRela) (symbol : option LinkSymbol) (at_ value : Z) (debug : bool) : R unit :=
  let! v := value_x86 r symbol at_ value in
  match v with
  | None => done tt
  | Some (result, width, is_signed) =>
      if c_size c <? u64 (r_offset r + width / 8) then refuse outside
      else if width =? 64 then write64 at_ result
      else if negb (if is_signed : bool then i64 result =? i32 (u32 result) else result <=? UINT32_MAX) && negb debug then refuse out_of_range
      else write32 at_ result
  end.

(** ** All relocations of a section *)
Definition debug_section : bool := Z.land (c_flags c) SHF_ALLOC =? 0.
Definition dead_word_type : Z :=
  if l_machine l =? MACHINE_RISCV then R_RISCV_32 else if l_machine l =? MACHINE_ARM then R_ARM_ABS32
  else if l_machine l =? MACHINE_AARCH64 then R_AARCH64_ABS32 else R_X86_64_32.
(** A description of discarded code points at nothing. *)
Definition relocate_dead (r : LinkRela) (at_ : Z) : R unit :=
  let ranges := bool_decide (c_name c = str ".debug_ranges") || bool_decide (c_name c = str ".debug_loc") in
  if r_type r =? l_word_type l then write64 at_ (if ranges then 1 else 0)
  else if r_type r =? dead_word_type then write32 at_ 0 else done tt.
(** The value of a symbol, and whether its section is discarded. *)
Definition symbol_value (symbol : option LinkSymbol) : R (Z * bool) :=
  match symbol with
  | None => done (0, false)
  | Some y =>
      let! dead := (match symbol_section y with
                    | None => done false
                    | Some h => let! h := deref (get_at (l_sections l) h) in done (negb (c_live h))
                    end) in
      if negb (y_defined y) && negb (y_shared y) && negb (l_shared_output l) && y_strong_reference y && negb debug_section
      then refuse "undefined symbol '%s' (referenced from %s)"
      else let! value := deref (symbol_address l y) in done (value, dead)
  end.
(** One relocation; the result says whether the next one is done as well. *)
Definition relocate_one (i : nat) (r : LinkRela) : R bool :=
  let! symbol := deref (symbol_of l c (r_symbol r)) in
  let at_ := out + r_offset r in
  let! (value, dead) := symbol_value symbol in
  let debug := debug_section in
  if dead && debug then relocate_dead r at_ ;; done false
  else if l_machine l =? MACHINE_ARM then relocate_arm r symbol at_ value debug ;; done false
  else if dead then refuse "'%s' references discarded section of '%s'"
  else if l_machine l =? MACHINE_RISCV then relocate_riscv r symbol at_ value debug ;; done false
  else if l_machine l =? MACHINE_AARCH64 then
    let! relaxed := (if debug then done false else relax_aarch64 i) in
    if relaxed : bool then done true else relocate_aarch64 r symbol at_ value debug ;; done false
  else relocate_x86 r symbol at_ value debug ;; done false.
Fixpoint relocate_from (i : nat) (relas : list LinkRela) (skip : bool) : R unit :=
  match relas with
  | [] => done tt
  | r :: relas =>
      if skip then relocate_from (S i) relas false
      else let! skip := relocate_one i r in relocate_from (S i) relas skip
  end.
Definition relocate : R unit := relocate_from 0 (c_relas c) false.
End Relocate.
