(* ===== verification/ElfReach.v ===== *)
(** What the instructions patched by [ElfReloc] do: the fields of the
    processors' encodings, branches and calls that reach their targets, and
    AArch64 pairs that load the same address after relaxation. *)

From S2P Require Import Prelude ElfClass ElfReloc.
Local Open Scope reloc_scope.

(** ** Fields of instructions, as the processors read them *)
Definition field_of (w lo n : Z) : Z := Z.land (Z.shiftr w lo) (2 ^ n - 1).
(** RISC-V: the offsets of [jal] and of branches, and the immediates of
    [auipc], of loads and [jalr], and of stores. *)
Definition jal_offset (w : Z) : Z :=
  to_signed 21 (Z.lor (Z.lor (Z.lor (Z.shiftl (field_of w 31 1) 20) (Z.shiftl (field_of w 21 10) 1)) (Z.shiftl (field_of w 20 1) 11))
                  (Z.shiftl (field_of w 12 8) 12)).
Definition branch_offset (w : Z) : Z :=
  to_signed 13 (Z.lor (Z.lor (Z.lor (Z.shiftl (field_of w 31 1) 12) (Z.shiftl (field_of w 25 6) 5)) (Z.shiftl (field_of w 8 4) 1))
                  (Z.shiftl (field_of w 7 1) 11)).
Definition upper_immediate (w : Z) : Z := to_signed 32 (Z.shiftl (field_of w 12 20) 12).
Definition load_immediate (w : Z) : Z := to_signed 12 (field_of w 20 12).
Definition store_immediate (w : Z) : Z := to_signed 12 (Z.lor (Z.shiftl (field_of w 25 7) 5) (field_of w 7 5)).
(** Thumb: the offset of [bl] and [b.w], from the two half words. *)
Definition thumb_offset (first second : Z) : Z :=
  let s := field_of first 10 1 in
  let i k := Z.lxor (Z.lxor (field_of second k 1) s) 1 in
  to_signed 25 (Z.lor (Z.lor (Z.lor (Z.lor (Z.shiftl s 24) (Z.shiftl (i 13) 23)) (Z.shiftl (i 11) 22)) (Z.shiftl (field_of first 0 10) 12))
                  (Z.shiftl (field_of second 0 11) 1)).
(** AArch64: the offset of [b] and [bl], and the immediates of [adr] and
    [adrp] and of [add]. *)
Definition b_offset (w : Z) : Z := to_signed 28 (Z.shiftl (field_of w 0 26) 2).
Definition adr_immediate (w : Z) : Z := to_signed 21 (Z.lor (Z.shiftl (field_of w 5 19) 2) (field_of w 29 2)).
Definition add_immediate (w : Z) : Z := field_of w 10 12.

Lemma to_signed_shift n x : 1 <= n -> to_signed n x = (x + 2 ^ (n - 1)) mod 2 ^ n - 2 ^ (n - 1).
Proof.
  intros Hn. unfold to_signed, wrap. assert (2 ^ n = 2 * 2 ^ (n - 1)) as E by (rewrite <- Z.pow_succ_r by lia; f_equal; lia).
  pose proof (Z.pow_pos_nonneg 2 (n - 1) ltac:(lia) ltac:(lia)). rewrite E. pose proof (Z.mod_pos_bound x (2 * 2 ^ (n - 1)) ltac:(lia)).
  pose proof (Z.div_mod x (2 * 2 ^ (n - 1)) ltac:(lia)) as Ex. cbv zeta. set (y := x mod _) in *. set (q := x / _) in *.
  replace (x + 2 ^ (n - 1)) with (y + 2 ^ (n - 1) + q * (2 * 2 ^ (n - 1))) by lia. rewrite Z.mod_add by lia.
  split_if; to_prop.
  - rewrite Z.mod_small; lia.
  - replace (y + 2 ^ (n - 1)) with (y - 2 ^ (n - 1) + 1 * (2 * 2 ^ (n - 1))) by lia. rewrite Z.mod_add, Z.mod_small; lia.
Qed.
Lemma to_signed_small n x : 1 <= n -> fits_signed x n = true -> to_signed n x = x.
Proof.
  intros Hn. unfold fits_signed. intros Hf. to_prop. rewrite to_signed_shift by lia.
  assert (2 ^ n = 2 * 2 ^ (n - 1)) as E by (rewrite <- Z.pow_succ_r by lia; f_equal; lia). rewrite Z.mod_small; lia.
Qed.
Lemma to_signed_bits n x y : 0 <= n -> (forall i, 0 <= i < n -> Z.testbit x i = Z.testbit y i) -> to_signed n x = to_signed n y.
Proof.
  intros Hn H. unfold to_signed, wrap. assert (x mod 2 ^ n = y mod 2 ^ n) as ->; [|done]. apply Z.bits_inj'. intros i Hi.
  destruct (Z_lt_le_dec i n); [rewrite !Z.mod_pow2_bits_low by lia; auto|by rewrite !Z.mod_pow2_bits_high by lia].
Qed.
(** A field of [n] bits holds a value that fits it. *)
Lemma signed_field n x y : 1 <= n -> fits_signed y n = true -> (forall i, 0 <= i < n -> Z.testbit x i = Z.testbit y i) -> to_signed n x = y.
Proof. intros Hn Hy Hb. rewrite (to_signed_bits n x y) by (lia || done). by apply to_signed_small. Qed.
Lemma testbit_wrap w x i : 0 <= w -> 0 <= i -> Z.testbit (wrap w x) i = (i <? w) && Z.testbit x i.
Proof.
  intros Hw Hi. unfold wrap. destruct (Z.ltb_spec i w); [by rewrite Z.mod_pow2_bits_low by lia|by rewrite Z.mod_pow2_bits_high by lia].
Qed.
Lemma testbit_field_of w lo n i : 0 <= i -> 0 <= lo -> 0 <= n -> Z.testbit (field_of w lo n) i = (i <? n) && Z.testbit w (i + lo).
Proof.
  intros. unfold field_of. rewrite land_ones_mod by lia. destruct (Z.ltb_spec i n).
  - by rewrite Z.mod_pow2_bits_low, Z.shiftr_spec by lia.
  - by rewrite Z.mod_pow2_bits_high by lia.
Qed.
(** The bit of an expression at a number: the operators are evaluated down to
    the bits of its variables. *)
Ltac norm_index :=
  repeat match goal with
  | |- context [Z.testbit ?x ?k] => lazymatch k with Z0 => fail | Zpos _ => fail | Zneg _ => fail | _ => idtac end;
      let k' := eval vm_compute in k in lazymatch k' with Z0 => idtac | Zpos _ => idtac | Zneg _ => idtac end; change (Z.testbit x k) with (Z.testbit x k')
  | |- context [Z.testbit ?x (Zneg ?p)] => rewrite (Z.testbit_neg_r x (Zneg p)) by reflexivity
  | |- context [Z.testbit (Zpos ?p) ?k] => let b := eval vm_compute in (Z.testbit (Zpos p) k) in change (Z.testbit (Zpos p) k) with b
  | |- context [?a <? ?b] => let r := eval vm_compute in (a <? b) in lazymatch r with true => idtac | false => idtac end; change (a <? b) with r
  end.
Ltac bit_at :=
  unfold u16, u32, u64;
  repeat (norm_index;
    first [rewrite Z.lor_spec | rewrite Z.land_spec | rewrite Z.lxor_spec | rewrite Z.shiftl_spec by done | rewrite Z.shiftr_spec by done
          | rewrite testbit_wrap by done | rewrite testbit_field_of by done]);
  norm_index; cbn [andb orb xorb negb];
  rewrite ?andb_false_r, ?andb_true_r, ?orb_false_r, ?orb_true_r; try reflexivity.
(** Every bit below a bound, one by one. *)
Lemma every_bit n (P : Z -> Prop) : Forall P (seqZ 0 n) -> forall i, 0 <= i < n -> P i.
Proof. intros H i Hi. rewrite Forall_forall in H. apply H, elem_of_seqZ. lia. Qed.
Ltac bit_by_bit :=
  apply every_bit;
  lazymatch goal with |- Forall ?P (seqZ ?a ?n) => let l := eval vm_compute in (seqZ a n) in change (Forall P l) end;
  repeat (apply Forall_cons; split); try apply Forall_nil; bit_at.

Lemma jal_reaches relative w : Z.odd relative = false -> fits_signed relative 21 = true -> jal_offset (u32 (riscv_jump relative w)) = relative.
Proof. intros Ho Hf. apply signed_field; [done..|]. unfold riscv_jump. cbv zeta. rewrite <- Z.bit0_odd in Ho. bit_by_bit. done. Qed.
Lemma branch_reaches relative w :
  Z.odd relative = false -> fits_signed relative 13 = true -> branch_offset (u32 (riscv_branch relative w)) = relative.
Proof. intros Ho Hf. apply signed_field; [done..|]. unfold riscv_branch. cbv zeta. rewrite <- Z.bit0_odd in Ho. bit_by_bit. done. Qed.
Lemma load_holds relative w : load_immediate (u32 (riscv_load relative w)) = to_signed 12 relative.
Proof. apply to_signed_bits; [done|]. unfold riscv_load. bit_by_bit. Qed.
Lemma store_holds relative w : store_immediate (u32 (riscv_store relative w)) = to_signed 12 relative.
Proof. apply to_signed_bits; [done|]. unfold riscv_store. cbv zeta. bit_by_bit. Qed.
Lemma upper_holds relative w : upper_immediate (u32 (riscv_upper relative w)) = to_signed 32 (Z.shiftl (Z.shiftr (relative + 0x800) 12) 12).
Proof. apply to_signed_bits; [done|]. unfold riscv_upper. bit_by_bit. Qed.
Lemma pair_reaches relative w w' :
  upper_fits relative = true -> upper_immediate (u32 (riscv_upper relative w)) + load_immediate (u32 (riscv_load relative w')) = relative.
Proof.
  unfold upper_fits, fits_signed. intros Hu. to_prop. rewrite upper_holds, load_holds, to_signed_small, to_signed_shift by (done || unfold fits_signed; rewrite Z.shiftl_mul_pow2 by done; lia).
  rewrite Z.shiftl_mul_pow2, Z.shiftr_div_pow2 by done. pose proof (Z.div_mod (relative + 2048) (2 ^ 12) ltac:(done)).
  change (2 ^ (12 - 1)) with 2048 in *. lia.
Qed.
(** A Thumb branch drops bit 0, which marks Thumb code. *)
Lemma thumb_reaches second relative : fits_signed relative 25 = true ->
  thumb_offset (u16 (branch_first (u32 relative))) (u16 (branch_second (u32 relative) second)) = Z.shiftl (Z.shiftr relative 1) 1.
Proof.
  unfold fits_signed. intros Hf. to_prop. apply signed_field; [done| |].
  - unfold fits_signed. rewrite Z.shiftl_mul_pow2, Z.shiftr_div_pow2 by done. pose proof (Z.div_mod relative (2 ^ 1) ltac:(done)).
    pose proof (Z.mod_pos_bound relative (2 ^ 1) ltac:(done)). change (2 ^ 1) with 2 in *. change (25 - 1) with 24 in *. to_prop. lia.
  - unfold branch_first, branch_second. cbv zeta. bit_by_bit. all: idtac.
    all: destruct (Z.testbit relative 24), (Z.testbit relative 23), (Z.testbit relative 22); reflexivity.
Qed.
(** An AArch64 branch drops the two bits below an instruction. *)
Lemma aarch64_reaches relative w : fits_signed relative 28 = true ->
  b_offset (u32 (field 0x3ffffff 0 (Z.shiftr (u64 relative) 2) w)) = Z.shiftl (Z.shiftr relative 2) 2.
Proof.
  unfold fits_signed. intros Hf. to_prop. apply signed_field; [done| |].
  - unfold fits_signed. rewrite Z.shiftl_mul_pow2, Z.shiftr_div_pow2 by done. pose proof (Z.div_mod relative (2 ^ 2) ltac:(done)).
    pose proof (Z.mod_pos_bound relative (2 ^ 2) ltac:(done)). change (2 ^ 2) with 4 in *. change (28 - 1) with 27 in *. to_prop. lia.
  - unfold field. bit_by_bit.
Qed.

(** ** Words of the image *)
Lemma reread r w n : 0 <= n -> reads r n -> writes w n ->
  (forall b p, Forall is_byte b -> 0 <= p -> p + n <= Z.of_nat (length b) -> within (r b p) (fun v => 0 <= v < 2 ^ (8 * n))) ->
  forall m p v m', 1 <= n -> Forall is_byte m' -> w m p v = Some m' -> r m' p = Some (wrap (8 * n) v).
Proof.
  intros Hn Hr Hw Hin m p v m' Hn1 Hm' E. apply Hw in E as [Hb _].
  pose proof (Hb 0 ltac:(lia)) as B0. pose proof (Hb (n - 1) ltac:(lia)) as B1. apply get_at_Some in B0 as [B0 _], B1 as [B1 _].
  specialize (Hin m' p Hm' ltac:(lia) ltac:(lia)). unfold within in Hin. destruct (r m' p) as [x|] eqn:Ex; [|done].
  destruct (Hr _ _ _ Hm' Ex) as [Hx Hxb]. f_equal. apply (bytes_value n); [done..|apply wrap_range; lia|]. intros i Hi.
  specialize (Hxb i Hi). rewrite Hb in Hxb by done. injection Hxb as <-. symmetry. by apply byte_of_mod.
Qed.
Lemma reread32 m p v m' : Forall is_byte m' -> elf_class_write32 m p v = Some m' -> elf_class_read32 m' p = Some (u32 v).
Proof. apply (reread _ _ 4); [done|apply reads32|apply writes32|apply within_read32|done]. Qed.
Lemma reread16 m p v m' : Forall is_byte m' -> elf_class_write16 m p v = Some m' -> elf_class_read16 m' p = Some (u16 v).
Proof. apply (reread _ _ 2); [done|apply reads16|apply writes16|apply within_read16|done]. Qed.
Lemma read32_same m m' p : (forall q, p <= q < p + 4 -> get_at m' q = get_at m q) -> elf_class_read32 m' p = elf_class_read32 m p.
Proof. intros H. unfold elf_class_read32, elf_class_read16. by rewrite !H by lia. Qed.
Lemma read16_same m m' p : (forall q, p <= q < p + 2 -> get_at m' q = get_at m q) -> elf_class_read16 m' p = elf_class_read16 m p.
Proof. intros H. unfold elf_class_read16. by rewrite !H by lia. Qed.

(** [m'] is [m] with the word [v] at [p]. *)
Definition put32 (m : bytes) (p v : Z) (m' : bytes) : Prop :=
  Forall is_byte m' /\ elf_class_read32 m' p = Some (u32 v) /\ forall q, q < p \/ p + 4 <= q -> get_at m' q = get_at m q.
Lemma write32_put m p v r m' : Forall is_byte m -> write32 p v m = Some (r, m') -> r = Ok tt /\ put32 m p v m'.
Proof.
  unfold write32, stores. intros Hm E. destruct (elf_class_write32 m p v) as [m1|] eqn:E1; [|done]. injection E as <- <-. split; [done|].
  pose proof (write32_bytes _ _ _ _ E1 Hm) as Hb. split; [done|]. split; [by eapply reread32|]. by apply writes32 in E1 as [_ ?].
Qed.
Lemma patch32_put m p f r m' : Forall is_byte m -> patch32 p f m = Some (r, m') ->
  r = Ok tt /\ exists w, elf_class_read32 m p = Some w /\ put32 m p (f w) m'.
Proof.
  unfold patch32, andthen, read32, loads. intros Hm E. destruct (elf_class_read32 m p) as [w|]; [|done].
  apply write32_put in E as [-> E]; [|done]. split; [done|]. by exists w.
Qed.
Lemma put32_other m p v m' q : put32 m p v m' -> q + 4 <= p \/ p + 4 <= q -> elf_class_read32 m' q = elf_class_read32 m q.
Proof. intros (_ & _ & H) Hq. apply read32_same. intros. apply H. lia. Qed.

Lemma andthen_ok {A B} (c : R A) (f : A -> R B) m b m' : andthen c f m = Some (Ok b, m') ->
  exists a m1, c m = Some (Ok a, m1) /\ f a m1 = Some (Ok b, m').
Proof. unfold andthen. destruct (c m) as [[[a|e] m1]|]; [|done..]. eauto. Qed.

(** Tests of types that are known. *)
Ltac known_types E :=
  repeat match type of E with
  | context [?a =? ?b] => let v := eval vm_compute in (a =? b) in match v with true => change (a =? b) with true in E | false => change (a =? b) with false in E end
  end; cbn [orb andb negb] in E.

(** ** Branches and calls *)
Definition riscv_reach (t : Z) (m : bytes) (p : Z) : option Z :=
  let* w := elf_class_read32 m p in
  if t =? R_RISCV_JAL then Some (jal_offset w)
  else if t =? R_RISCV_BRANCH then Some (branch_offset w)
  else let* w' := elf_class_read32 m (p + 4) in Some (upper_immediate w + load_immediate w').
Definition thumb_reach (m : bytes) (p : Z) : option Z :=
  let* first := elf_class_read16 m p in
  let* second := elf_class_read16 m (p + 2) in Some (4 + thumb_offset first second).
Definition aarch64_reach (m : bytes) (p : Z) : option Z := let* w := elf_class_read32 m p in Some (b_offset w).

Lemma word_riscv_reaches t p target relative debug m m' : Forall is_byte m ->
  In t [R_RISCV_JAL; R_RISCV_BRANCH; R_RISCV_CALL; R_RISCV_CALL_PLT] -> word_riscv t p target relative debug m = Some (Ok tt, m') ->
  riscv_reach t m' p = Some relative.
Proof.
  intros Hm Ht E. assert (Hpair : negb (upper_fits relative) = false ->
    (patch32 p (riscv_upper relative) ;; patch32 (p + 4) (riscv_load relative)) m = Some (Ok tt, m') ->
    (let* w := elf_class_read32 m' p in let* w' := elf_class_read32 m' (p + 4) in Some (upper_immediate w + load_immediate w')) = Some relative).
  { intros Hu E1. apply negb_false_iff in Hu. apply andthen_ok in E1 as ([] & m1 & E1 & E2).
    apply patch32_put in E1 as (_ & w & _ & P1); [|done]. apply patch32_put in E2 as (_ & w' & _ & P2); [|apply P1].
    rewrite (put32_other _ _ _ _ p P2) by lia. destruct P1 as (_ & -> & _), P2 as (_ & -> & _). by rewrite pair_reaches. }
  destruct Ht as [<-|[<-|[<-|[<-|[]]]]]; unfold word_riscv in E; cbv zeta in E; known_types E; unfold riscv_reach; cbn [Z.eqb Pos.eqb R_RISCV_JAL R_RISCV_BRANCH R_RISCV_CALL R_RISCV_CALL_PLT].
  all: match type of E with (if ?b then _ else _) _ = _ => destruct b eqn:T; [done|] end; auto.
  all: apply orb_false_iff in T as [Ho Hf]; apply negb_false_iff in Hf; apply patch32_put in E as (_ & w & _ & _ & -> & _); [|done].
  - by rewrite jal_reaches.
  - by rewrite branch_reaches.
Qed.
Lemma signed_address x y a : i64 (u64 x + y - a) = i64 (x + y - a).
Proof. unfold i64, to_signed, u64, wrap. by rewrite <- Zminus_mod_idemp_l, Zplus_mod_idemp_l, Zminus_mod_idemp_l. Qed.

(** Where a call goes: to the PLT slot of its symbol, or to its value. *)
Definition call_value (l : Linker) (symbol : option LinkSymbol) (value : Z) : Z :=
  match symbol with Some y => if y_plt y =? 0 then value else plt_slot l (y_plt y) | None => value end.
Lemma riscv_reaches l c r symbol p value debug m m' : Forall is_byte m ->
  In (r_type r) [R_RISCV_JAL; R_RISCV_BRANCH; R_RISCV_CALL; R_RISCV_CALL_PLT] -> relocate_riscv l c r symbol p value debug m = Some (Ok tt, m') ->
  riscv_reach (r_type r) m' p =
  Some (i64 ((if r_type r =? R_RISCV_BRANCH then value else call_value l symbol value) + r_addend r - place_of c r)).
Proof.
  intros Hm Ht E. unfold relocate_riscv in E. cbv zeta in E.
  match type of E with (if ?b then _ else _) _ = _ => replace b with false in E by (destruct Ht as [<-|[<-|[<-|[<-|[]]]]]; done) end.
  match type of E with (if ?b then _ else _) _ = _ => destruct b; [done|] end.
  apply andthen_ok in E as (relative & m1 & E1 & E2).
  assert (m1 = m /\ relative = i64 ((if r_type r =? R_RISCV_BRANCH then value else call_value l symbol value) + r_addend r - place_of c r)) as [-> ->].
  { pose proof (signed_address (value + r_addend r) 0 (place_of c r)) as Hs. rewrite !Z.add_0_r in Hs.
    unfold riscv_relative, call_value in *. cbv zeta in E1. destruct Ht as [Ht|[Ht|[Ht|[Ht|[]]]]]; rewrite <- Ht in *; known_types E1;
      injection E1 as <- <-; (split; [done|]); destruct symbol as [y|]; try done; destruct (y_plt y =? 0); done. }
  by eapply word_riscv_reaches.
Qed.
Lemma write16_put m p v r m' : Forall is_byte m -> write16 p v m = Some (r, m') ->
  Forall is_byte m' /\ elf_class_read16 m' p = Some (u16 v) /\ forall q, q < p \/ p + 2 <= q -> get_at m' q = get_at m q.
Proof.
  unfold write16, stores. intros Hm E. destruct (elf_class_write16 m p v) as [m1|] eqn:E1; [|done]. injection E as <- <-.
  pose proof (write16_bytes _ _ _ _ E1 Hm) as Hb. split; [done|]. split; [by eapply reread16|]. by apply writes16 in E1 as [_ ?].
Qed.
Lemma arm_reaches l c r symbol p value debug m m' : Forall is_byte m ->
  In (r_type r) [R_ARM_THM_CALL; R_ARM_THM_JUMP24] -> relocate_arm l c r symbol p value debug m = Some (Ok tt, m') ->
  thumb_reach m' p = Some (Z.shiftl (Z.shiftr (i64 (arm_target r true debug value - place_of c r)) 1) 1).
Proof.
  intros Hm Ht E. unfold relocate_arm in E. cbv zeta in E.
  match type of E with (if ?b then _ else _) _ = _ => replace b with false in E by (destruct Ht as [<-|[<-|[]]]; done) end.
  match type of E with (if ?b then _ else _) _ = _ => destruct b; [done|] end.
  apply andthen_ok in E as (h & m1 & E1 & E2).
  assert (m1 = m) as ->.
  { destruct symbol as [y|]; [|by injection E1]. destruct (symbol_section y) as [s|]; [|by injection E1]. unfold andthen, deref, done in E1.
    destruct (get_at (l_sections l) s); [by injection E1|done]. }
  set (thumb := match h with Some _ => _ | None => _ end) in E2. clear E1. set (relative := i64 (arm_target r true debug value - place_of c r)).
  assert (exists v, minus_four (i64 (arm_target r thumb debug value - place_of c r)) = Some v /\ negb thumb || negb (fits_signed v 25) = false /\
    (write16 p (branch_first (u32 v)) ;; patch16 (p + 2) (branch_second (u32 v))) m = Some (Ok tt, m')) as (v & Hv & Hok & E).
  { destruct Ht as [Ht|[Ht|[]]]; rewrite <- Ht in E2; known_types E2; apply andthen_ok in E2 as (v & m1 & E1 & E2); unfold deref in E1;
      destruct (minus_four _) as [v'|]; try done; injection E1 as -> <-; exists v; (split; [done|]);
      destruct (negb thumb || negb (fits_signed v 25)); done. }
  apply orb_false_iff in Hok as [Hthumb Hf]. apply negb_false_iff in Hthumb, Hf. rewrite Hthumb in Hv. fold relative in Hv.
  unfold minus_four in Hv. destruct (relative <? _); [done|]. injection Hv as <-.
  clear E2. apply andthen_ok in E as ([] & m1 & E1 & E2). apply write16_put in E1 as (Hb1 & R1 & _); [|done].
  unfold patch16 in E2. apply andthen_ok in E2 as (w & m2 & E2 & E3). unfold read16, loads in E2. destruct (elf_class_read16 m1 (p + 2)) as [w'|]; [|done].
  injection E2 as -> <-. apply write16_put in E3 as (_ & R2 & Hrest); [|done].
  unfold thumb_reach. rewrite (read16_same m1 m' p), R1, R2, thumb_reaches by (done || intros; apply Hrest; lia). f_equal.
  rewrite !Z.shiftl_mul_pow2, !Z.shiftr_div_pow2 by done. change (2 ^ 1) with 2. pose proof (Z.div_add relative (-2) 2 ltac:(done)) as Hd.
  replace (relative + -2 * 2) with (relative - 4) in Hd by lia. lia.
Qed.
Lemma aarch64_call_reaches l c r symbol p value m m' : Forall is_byte m ->
  In (r_type r) [R_AARCH64_CALL26; R_AARCH64_JUMP26] -> relocate_aarch64 l c r symbol p value false m = Some (Ok tt, m') ->
  aarch64_reach m' p =
  Some (Z.shiftl (Z.shiftr (match symbol with
                            | Some y => if (y_plt y =? 0) && negb (y_defined y) then 4 else i64 (call_value l symbol value + r_addend r - place_of c r)
                            | None => i64 (value + r_addend r - place_of c r)
                            end) 2) 2).
Proof.
  intros Hm Ht E. unfold relocate_aarch64 in E. cbv zeta in E.
  match type of E with (if ?b then _ else _) _ = _ => destruct b; [done|] end. apply andthen_ok in E as (ok & m1 & E1 & E2).
  set (relative := match symbol with Some _ => _ | None => _ end).
  pose proof (signed_address (value + r_addend r) 0 (place_of c r)) as Hs. rewrite !Z.add_0_r in Hs.
  assert ((set_bits p 0x3ffffff 0 (Z.shiftr (u64 relative) 2) ;; done (Some (fits_signed relative 28))) m = Some (Ok ok, m1)) as E.
  { destruct Ht as [Ht|[Ht|[]]]; unfold word_aarch64 in E1; rewrite <- Ht in E1; cbv zeta in E1; known_types E1; subst relative; unfold call_value;
      rewrite <- E1; clear E1; (destruct symbol as [y|]; [destruct (y_plt y =? 0), (y_defined y)|]; cbn [negb andb]; rewrite ?Hs; done). }
  apply andthen_ok in E as ([] & m2 & E3 & E4). injection E4 as <- <-. apply patch32_put in E3 as (_ & w & _ & _ & R1 & _); [|done].
  destruct (fits_signed relative 28) eqn:Hf; [|done]. injection E2 as <-. unfold aarch64_reach. rewrite R1. by rewrite aarch64_reaches.
Qed.

(** ** AArch64 pairs *)

(** Words that agree on the bits of a mask. *)
Lemma masked_same k a b : 0 <= k < 2 ^ 32 -> (forall i, 0 <= i < 32 -> Z.testbit (Z.land a k) i = Z.testbit (Z.land b k) i) ->
  Z.land a k = Z.land b k.
Proof.
  intros Hk H. apply Z.bits_inj'. intros i Hi. destruct (Z_lt_le_dec i 32); [auto|]. by rewrite !Z.land_spec, !(testbit_high k 32), !andb_false_r by lia.
Qed.
(** The word after [set_adr], and after [set_bits] of an [add]. *)
Definition with_adr (immediate w : Z) : Z := u32 (field 0x7ffff 5 (Z.shiftr immediate 2) (u32 (field 3 29 immediate w))).
Lemma with_adr_immediate immediate w : adr_immediate (with_adr immediate w) = to_signed 21 immediate.
Proof. apply to_signed_bits; [done|]. unfold with_adr, field. bit_by_bit. Qed.
Lemma with_adr_kept immediate w : Z.land (with_adr immediate w) 0x9f00001f = Z.land w 0x9f00001f.
Proof. apply masked_same; [done|]. unfold with_adr, field. bit_by_bit. Qed.
Lemma with_add_kept v w : Z.land (u32 (field 0xfff 10 v w)) 0xffc003ff = Z.land w 0xffc003ff.
Proof. apply masked_same; [done|]. unfold field. bit_by_bit. Qed.
Lemma field_same a b lo lo' n : 0 <= n -> (forall i, 0 <= i < n -> Z.testbit (Z.shiftr a lo) i = Z.testbit (Z.shiftr b lo') i) ->
  field_of a lo n = field_of b lo' n.
Proof.
  intros Hn H. unfold field_of. rewrite !land_ones_mod by lia. apply Z.bits_inj'. intros i Hi.
  destruct (Z_lt_le_dec i n); [rewrite !Z.mod_pow2_bits_low by lia; auto|by rewrite !Z.mod_pow2_bits_high by lia].
Qed.
Lemma with_add_immediate v w : add_immediate (u32 (field 0xfff 10 v w)) = v mod 2 ^ 12.
Proof.
  transitivity (field_of v 0 12); [|unfold field_of; by rewrite Z.shiftr_0_r, land_ones_mod by done].
  apply field_same; [done|]. unfold field. bit_by_bit.
Qed.
Lemma sub_mask k s a b : Z.land a k = Z.land b k -> Z.land k s = s -> Z.land a s = Z.land b s.
Proof. intros H Hs. rewrite <- Hs, !Z.land_assoc. by rewrite H. Qed.

(** The register that two instructions at [place] load, and its value:
    [nop; adr] or [adrp; add]. *)
Definition pair_result (place w0 w1 : Z) : option (Z * Z) :=
  if (w0 =? 0xd503201f) && (Z.land w1 0x9f000000 =? 0x10000000) then Some (Z.land w1 31, u64 (place + 4 + adr_immediate w1))
  else if (Z.land w0 0x9f000000 =? 0x90000000) && (Z.land w1 0xffc00000 =? 0x91000000) && self_register w1 (Z.land w0 31)
  then Some (Z.land w0 31, u64 (page_of place + Z.shiftl (adr_immediate w0) 12 + add_immediate w1))
  else None.

Lemma near_adr delta w0 : let w1 := with_adr delta (u32 (Z.lor 0x10000000 (Z.land w0 31))) in
  Z.land w1 0x9f000000 = 0x10000000 /\ Z.land w1 31 = Z.land w0 31.
Proof.
  cbv zeta. set (w := u32 _). pose proof (with_adr_kept delta w) as H. split.
  - rewrite (sub_mask _ 0x9f000000 _ _ H) by done. transitivity (Z.land 0x10000000 0x9f000000); [|done]. subst w.
    apply masked_same; [done|]. bit_by_bit.
  - rewrite (sub_mask _ 31 _ _ H) by done. subst w. apply masked_same; [done|]. bit_by_bit.
Qed.
Lemma set_adr_put m p immediate m' : Forall is_byte m -> set_adr p immediate m = Some (Ok tt, m') ->
  exists w, elf_class_read32 m p = Some w /\ Forall is_byte m' /\ elf_class_read32 m' p = Some (with_adr immediate w) /\
    forall q, q < p \/ p + 4 <= q -> get_at m' q = get_at m q.
Proof.
  intros Hm E. apply andthen_ok in E as ([] & m1 & E1 & E2). apply patch32_put in E1 as (_ & w & R1 & B1 & R1' & F1); [|done].
  apply patch32_put in E2 as (_ & w' & R2 & B2 & R2' & F2); [|done]. rewrite R1' in R2. injection R2 as <-. exists w.
  split; [done|]. split; [done|]. split; [done|]. intros q Hq. by rewrite F2, F1.
Qed.
Lemma page_split x : 0 <= x < 2 ^ 64 -> page_of x = x - x mod 2 ^ 12.
Proof.
  intros Hx. transitivity (Z.shiftl (Z.shiftr x 12) 12).
  - apply Z.bits_inj'. intros i Hi. destruct (Z_lt_le_dec i 64) as [H|].
    + assert (0 <= i < 64) as H64 by lia. clear Hi H. revert i H64. unfold page_of. bit_by_bit.
    + unfold page_of. rewrite Z.land_spec, Z.shiftl_spec, Z.shiftr_spec by lia. by rewrite !(testbit_high x 64) by lia.
  - rewrite Z.shiftl_mul_pow2, Z.shiftr_div_pow2 by done. pose proof (Z.div_mod x (2 ^ 12) ltac:(done)). lia.
Qed.
(** The page of [adrp] and the rest of [add] make the address. *)
Lemma pages_address target place : 0 <= target < 2 ^ 64 -> 0 <= place < 2 ^ 64 -> fits_signed (i64 (pages_between target place)) 33 = true ->
  u64 (page_of place + Z.shiftl (to_signed 21 (Z.shiftr (pages_between target place) 12)) 12 + target mod 2 ^ 12) = target.
Proof.
  intros Ht Hp Hf. unfold pages_between in *. rewrite !page_split in * by done.
  set (d := target - target mod 2 ^ 12 - (place - place mod 2 ^ 12)) in *.
  assert (exists k, d = k * 2 ^ 12) as [k Hk].
  { exists (target / 2 ^ 12 - place / 2 ^ 12). subst d. pose proof (Z.div_mod target (2 ^ 12) ltac:(done)). pose proof (Z.div_mod place (2 ^ 12) ltac:(done)). lia. }
  assert (i64 (u64 d) = i64 d) as Hi by (unfold i64, to_signed, u64, wrap; by rewrite Z.mod_mod). rewrite Hi in Hf.
  assert (exists q, i64 d = d + q * 2 ^ 64) as [q Hq].
  { unfold i64, to_signed, wrap. pose proof (Z.div_mod d (2 ^ 64) ltac:(done)). split_if; [exists (- (d / 2 ^ 64))|exists (- (d / 2 ^ 64) - 1)]; lia. }
  assert (exists q, u64 d = d + q * 2 ^ 64) as [q' Hq'] by (unfold u64, wrap; pose proof (Z.div_mod d (2 ^ 64) ltac:(done)); exists (- (d / 2 ^ 64)); lia).
  assert (Z.shiftr (u64 d) 12 = k + q' * 2 ^ 52) as ->.
  { rewrite Hq', Hk, Z.shiftr_div_pow2 by done. replace (k * 2 ^ 12 + q' * 2 ^ 64) with ((k + q' * 2 ^ 52) * 2 ^ 12) by lia. by apply Z.div_mul. }
  assert (to_signed 21 (k + q' * 2 ^ 52) = k + q * 2 ^ 52) as ->.
  { unfold fits_signed in Hf. rewrite Hq, Hk in Hf. to_prop. transitivity (to_signed 21 (k + q * 2 ^ 52)).
    - unfold to_signed, wrap. replace (k + q' * 2 ^ 52) with (k + q * 2 ^ 52 + ((q' - q) * 2 ^ 31) * 2 ^ 21) by lia. by rewrite Z.mod_add.
    - apply to_signed_small; [done|]. unfold fits_signed. change (33 - 1) with 32 in *. change (21 - 1) with 20. to_prop. lia. }
  rewrite Z.shiftl_mul_pow2 by done. unfold u64, wrap. subst d.
  replace (place - place mod 2 ^ 12 + (k + q * 2 ^ 52) * 2 ^ 12 + target mod 2 ^ 12) with (target + q * 2 ^ 64) by lia.
  rewrite Z.mod_add by done. by apply Z.mod_small.
Qed.

Lemma self_register_add v w rd : self_register (u32 (field 0xfff 10 v w)) rd = self_register w rd.
Proof.
  pose proof (with_add_kept v w) as H. unfold self_register. rewrite (sub_mask _ 31 _ _ H) by done. do 2 f_equal.
  pose proof (sub_mask _ 0x3e0 _ _ H eq_refl) as H5. apply (f_equal (fun x => Z.shiftr x 5)) in H5. by rewrite !Z.shiftr_land in H5.
Qed.
Lemma relax_pair_correct m p place target w0 w1 m' : Forall is_byte m ->
  elf_class_read32 m p = Some w0 -> elf_class_read32 m (p + 4) = Some w1 ->
  Z.land w0 0x9f000000 = 0x90000000 -> Z.land w1 0xffc00000 = 0x91000000 -> self_register w1 (Z.land w0 31) = true ->
  0 <= target < 2 ^ 64 -> 0 <= place < 2 ^ 64 -> fits_signed (i64 (pages_between target place)) 33 = true ->
  relax_pair p place target (Z.land w0 31) m = Some (Ok true, m') ->
  exists a b, elf_class_read32 m' p = Some a /\ elf_class_read32 m' (p + 4) = Some b /\ pair_result place a b = Some (Z.land w0 31, target).
Proof.
  intros Hm R0 R1 H0 H1 Hself Ht Hp Hpages E. unfold relax_pair in E. cbv zeta in E.
  match type of E with (if ?b then _ else _) _ = _ => destruct b eqn:Hd end.
  - apply andthen_ok in E as ([] & m1 & E1 & E). apply write32_put in E1 as (_ & P1); [|done].
    apply andthen_ok in E as ([] & m2 & E2 & E). apply write32_put in E2 as (_ & P2); [|apply P1].
    apply andthen_ok in E as ([] & m3 & E3 & E). injection E as <-. apply set_adr_put in E3 as (w & Rw & B3 & R3 & F3); [|apply P2].
    rewrite (proj1 (proj2 P2)) in Rw. injection Rw as <-. do 2 eexists. split; [|split; [exact R3|]].
    { rewrite (read32_same m2 m3) by (intros; apply F3; lia). rewrite (put32_other _ _ _ _ p P2) by lia. apply P1. }
    unfold pair_result. destruct (near_adr (u64 (i64 (target - (place + 4)))) w0) as [N1 N2]. rewrite N1, N2, with_adr_immediate. cbn [Z.eqb Pos.eqb].
    change (u32 3573751839 =? 3573751839) with true. cbn [andb]. do 2 f_equal.
    set (d := target - (place + 4)) in *. rewrite (to_signed_bits 21 (u64 (i64 d)) (i64 d)), to_signed_small; [|done..|].
    + unfold i64, to_signed. unfold u64, wrap. pose proof (Z.div_mod d (2 ^ 64) ltac:(done)). split_if.
      * replace (place + 4 + d mod 2 ^ 64) with (target + - (d / 2 ^ 64) * 2 ^ 64) by lia. rewrite Z.mod_add, Z.mod_small by (done || lia). done.
      * replace (place + 4 + (d mod 2 ^ 64 - 2 ^ 64)) with (target + (- (d / 2 ^ 64) - 1) * 2 ^ 64) by lia. rewrite Z.mod_add, Z.mod_small by (done || lia). done.
    + intros i Hi. unfold u64. rewrite testbit_wrap by lia. rewrite (proj2 (Z.ltb_lt i 64)) by lia. done.
  - apply andthen_ok in E as ([] & m1 & E1 & E). apply set_adr_put in E1 as (w & Rw & B1 & R1' & F1); [|done].
    apply andthen_ok in E as ([] & m2 & E2 & E). injection E as <-. apply patch32_put in E2 as (_ & w' & Rw' & P2); [|done].
    rewrite (read32_same m m1) in Rw' by (intros; apply F1; lia). rewrite R0 in Rw. rewrite R1 in Rw'. injection Rw as <-. injection Rw' as <-.
    do 2 eexists. split; [rewrite (put32_other _ _ _ _ p P2) by lia; exact R1'|]. split; [apply P2|].
    pose proof (with_adr_kept (Z.shiftr (pages_between target place) 12) w0) as K. set (a := with_adr _ w0) in *.
    unfold pair_result. assert ((a =? 0xd503201f) = false) as ->.
    { apply Z.eqb_neq. intros Ha. pose proof (sub_mask _ 0x9f000000 _ _ K eq_refl) as K'. rewrite Ha, H0 in K'. done. }
    cbn [andb]. rewrite (sub_mask _ 0x9f000000 _ _ K), (sub_mask _ 31 _ _ K), H0 by done.
    rewrite (sub_mask _ 0xffc00000 _ _ (with_add_kept target w1)), H1, self_register_add, Hself by done. cbn [Z.eqb Pos.eqb andb].
    subst a. rewrite with_adr_immediate, with_add_immediate. by rewrite pages_address.
Qed.
(** What makes a pair one that is relaxed. *)
Definition relaxable (l : Linker) (c : LinkSection) (i : nat) (first : LinkRela) (y : LinkSymbol) (value : Z) : Prop :=
  c_relas c !! i = Some first /\ symbol_of l c (r_symbol first) = Some (Some y) /\ symbol_address l y = Some value /\ r_addend first = 0.
(** The [add] that replaces the load of a GOT slot. *)
Lemma got_add target w0 : let rd := Z.land w0 31 in
  let w1 := u32 (Z.lor (Z.lor (Z.lor 0x91000000 (Z.shiftl (Z.land target 0xfff) 10)) (Z.shiftl rd 5)) rd) in
  Z.land w1 0xffc00000 = 0x91000000 /\ self_register w1 rd = true.
Proof.
  cbv zeta. split.
  - transitivity (Z.land 0x91000000 0xffc00000); [|done]. apply masked_same; [done|]. bit_by_bit.
  - unfold self_register. apply andb_true_intro. split; apply Z.eqb_eq; (apply masked_same; [done|]); bit_by_bit.
Qed.

(** C16: A relaxed pair of AArch64 instructions loads the same address into the
    same register: when [relax_aarch64] rewrites [adrp] and [add], or [adrp]
    and the load of a GOT slot, and the pages are in the range of [adrp], the
    two instructions that stand in the image afterwards put the symbol's
    address into the register of the [adrp]. *)
Theorem relax_keeps_address l c out i m m' : Forall is_byte m -> relax_aarch64 l c out i m = Some (Ok true, m') ->
  exists first y value adrp, relaxable l c i first y value /\ elf_class_read32 m (out + r_offset first) = Some adrp /\
  (fits_signed (i64 (pages_between (u64 value) (place_of c first))) 33 = true ->
   exists a b, elf_class_read32 m' (out + r_offset first) = Some a /\ elf_class_read32 m' (out + r_offset first + 4) = Some b /\
     pair_result (place_of c first) a b = Some (Z.land adrp 31, u64 value)).
Proof.
  intros Hm E. unfold relax_aarch64 in E. destruct (c_relas c !! i) as [first|] eqn:E1; [|done]. destruct (c_relas c !! S i) as [second|]; [|done].
  apply andthen_ok in E as (o & m1 & Eo & E). unfold deref in Eo. destruct (symbol_of l c (r_symbol first)) as [o'|] eqn:Es; [|done]. injection Eo as -> <-.
  destruct o as [y|]; [|done]. match type of E with (if ?b then _ else _) _ = _ => destruct b eqn:Hg; [done|] end.
  rewrite !orb_false_iff, !negb_false_iff in Hg. destruct Hg as [[[[[[[_ _] Ha] _] _] _] _] _]. apply Z.eqb_eq in Ha. cbv zeta in E.
  apply andthen_ok in E as (adrp & m1 & R0 & E). unfold read32, loads in R0. destruct (elf_class_read32 m (out + r_offset first)) as [w0|] eqn:Ew0; [|done].
  injection R0 as -> <-. apply andthen_ok in E as (next & m1 & R1 & E). unfold read32, loads in R1.
  destruct (elf_class_read32 m (out + r_offset first + 4)) as [w1|] eqn:Ew1; [|done]. injection R1 as -> <-.
  destruct (Z.land adrp 0x9f000000 =? 0x90000000) eqn:H0; [|done]. apply Z.eqb_eq in H0. cbn [negb] in E.
  apply andthen_ok in E as (value & m1 & Ev & E). unfold deref in Ev. destruct (symbol_address l y) as [value'|] eqn:Ea; [|done]. injection Ev as -> <-.
  exists first, y, value, adrp. split; [done|]. split; [done|]. intros Hf. rewrite Ha, Z.add_0_r in E.
  assert (0 <= u64 value < 2 ^ 64 /\ 0 <= place_of c first < 2 ^ 64) as [Ht Hp] by (split; apply u64_range).
  match type of E with (if ?b then _ else _) _ = _ => destruct b end.
  - repeat match type of E with (if ?b then _ else _) _ = _ => destruct b eqn:?; [done|] end.
    apply andthen_ok in E as ([] & m1 & S1 & E). apply set_adr_put in S1 as (w & Rw & B1 & R1 & F1); [|done].
    rewrite Ew0 in Rw. injection Rw as <-. apply andthen_ok in E as ([] & m2 & S2 & E). apply write32_put in S2 as (_ & P2); [|done].
    pose proof (with_adr_kept (Z.shiftr (pages_between (u64 value) (place_of c first)) 12) adrp) as K.
    pose proof (sub_mask _ 31 _ _ K eq_refl) as Krd. destruct (got_add (u64 value) adrp) as [G1 G2]. rewrite <- Krd. rewrite <- Krd in E.
    eapply relax_pair_correct; [apply P2| |apply P2|..|exact E]; try done.
    + rewrite (put32_other _ _ _ _ (out + r_offset first) P2) by lia. exact R1.
    + by rewrite (sub_mask _ 0x9f000000 _ _ K).
    + by rewrite Krd.
  - repeat match type of E with (if ?b then _ else _) _ = _ => destruct b eqn:?; [done|] end.
    apply orb_false_iff in Heqb0 as [H1 H2]. apply negb_false_iff in H1, H2. apply Z.eqb_eq in H1. by eapply relax_pair_correct.
Qed.

(** C15: A branch or call that is relocated without an error goes where its
    symbol is. For RISC-V [jal], branches and [auipc]/[jalr] pairs, for Thumb
    [bl] and [b.w] and for AArch64 [b] and [bl], the offset the processor
    reads from the patched instructions is the distance from the place of the
    relocation to the symbol's value, or to its PLT slot, plus the addend
    (an AArch64 call of an absent function goes to the next instruction; the
    bits below an instruction are dropped). *)
Theorem branches_reach l c r symbol p value debug m m' : Forall is_byte m ->
  (In (r_type r) [R_RISCV_JAL; R_RISCV_BRANCH; R_RISCV_CALL; R_RISCV_CALL_PLT] ->
   relocate_riscv l c r symbol p value debug m = Some (Ok tt, m') ->
   riscv_reach (r_type r) m' p =
   Some (i64 ((if r_type r =? R_RISCV_BRANCH then value else call_value l symbol value) + r_addend r - place_of c r))) /\
  (In (r_type r) [R_ARM_THM_CALL; R_ARM_THM_JUMP24] -> relocate_arm l c r symbol p value debug m = Some (Ok tt, m') ->
   thumb_reach m' p = Some (Z.shiftl (Z.shiftr (i64 (arm_target r true debug value - place_of c r)) 1) 1)) /\
  (In (r_type r) [R_AARCH64_CALL26; R_AARCH64_JUMP26] -> relocate_aarch64 l c r symbol p value false m = Some (Ok tt, m') ->
   aarch64_reach m' p =
   Some (Z.shiftl (Z.shiftr (match symbol with
                             | Some y => if (y_plt y =? 0) && negb (y_defined y) then 4 else i64 (call_value l symbol value + r_addend r - place_of c r)
                             | None => i64 (value + r_addend r - place_of c r)
                             end) 2) 2)).
Proof.
  intros Hm. split; [|split]; intros Ht E; [by eapply riscv_reaches|by eapply arm_reaches|by eapply aarch64_call_reaches].
Qed.

(** ** Examples: a call of a function at 0x200000 from 0x1000 *)
Definition callee (section : option Z) : LinkSymbol := mkLinkSymbol section 0 16 1 2 0 true false true true false 0 0.
Definition code (address : Z) (relas : list LinkRela) : LinkSection := mkLinkSection (str ".text") 8 6 address true relas [None; Some 0].
Definition linker (machine target : Z) (c : LinkSection) : Linker :=
  mkLinker machine false 2 0 0 0 0 0 0 0 [c; code target []] [callee (Some 1)].
Definition call_section : LinkSection := code 0x1000 [mkRela 0 0 R_RISCV_CALL 1].
(** [auipc ra, 0; jalr ra, ra, 0] *)
Definition call_code : bytes := [0x97; 0; 0; 0; 0xe7; 0x80; 0; 0].
Local Notation call_run :=
  (relocate_riscv (linker MACHINE_RISCV 0x200000 call_section) call_section (mkRela 0 0 R_RISCV_CALL 1) (Some (callee (Some 1))) 0 0x200000 false call_code).

Lemma call_relocated : exists m', call_run = Some (Ok tt, m').
Proof. vm_compute. by eexists. Qed.
Lemma call_code_bytes : Forall is_byte call_code.
Proof. repeat constructor; done. Qed.
Lemma branches_reach_witness : exists m', call_run = Some (Ok tt, m') /\ riscv_reach R_RISCV_CALL m' 0 = Some (0x200000 - 0x1000).
Proof.
  destruct call_relocated as [m' E]. exists m'. split; [exact E|].
  refine (proj1 (branches_reach _ call_section (mkRela 0 0 R_RISCV_CALL 1) (Some (callee (Some 1))) 0 0x200000 false call_code m' call_code_bytes) _ E).
  right; right; left; reflexivity.
Defined.

(** [adrp x0, 0; add x0, x0, 0], relocated to a symbol 2 MiB away. *)
Definition pair_section (address : Z) : LinkSection :=
  code address [mkRela 0 0 R_AARCH64_ADR_PREL_PG_HI21 1; mkRela 4 0 R_AARCH64_ADD_ABS_LO12_NC 1].
Definition pair_code : bytes := [0; 0; 0; 0x90; 0; 0; 0; 0x91].
Local Notation pair_run target := (relax_aarch64 (linker MACHINE_AARCH64 target (pair_section 0x1000)) (pair_section 0x1000) 0 0%nat pair_code).

Lemma pair_relaxed : exists m', pair_run 0x201234 = Some (Ok true, m').
Proof. vm_compute. by eexists. Qed.
Lemma pair_code_bytes : Forall is_byte pair_code.
Proof. repeat constructor; done. Qed.
Lemma relax_keeps_address_witness : exists m', pair_run 0x201234 = Some (Ok true, m') /\
  exists first y value adrp, relaxable (linker MACHINE_AARCH64 0x201234 (pair_section 0x1000)) (pair_section 0x1000) 0 first y value /\
    elf_class_read32 pair_code (0 + r_offset first) = Some adrp /\
    (fits_signed (i64 (pages_between (u64 value) (place_of (pair_section 0x1000) first))) 33 = true ->
     exists a b, elf_class_read32 m' (0 + r_offset first) = Some a /\ elf_class_read32 m' (0 + r_offset first + 4) = Some b /\
       pair_result (place_of (pair_section 0x1000) first) a b = Some (Z.land adrp 31, u64 value)).
Proof.
  destruct pair_relaxed as [m' E]. exists m'. split; [exact E|]. exact (relax_keeps_address _ _ _ _ _ _ pair_code_bytes E).
Defined.

(** A pair out of the range of [adrp] is relaxed without an error and loads
    another address (0, not 2^40); the first relocation alone is refused. *)
Lemma relax_out_of_range : exists m' m'' a b,
  relocate (linker MACHINE_AARCH64 (2 ^ 40) (pair_section 0x1000)) (pair_section 0x1000) 0 pair_code = Some (Ok tt, m') /\
  elf_class_read32 m' 0 = Some a /\ elf_class_read32 m' 4 = Some b /\ pair_result 0x1000 a b = Some (0, 0) /\
  relocate_aarch64 (linker MACHINE_AARCH64 (2 ^ 40) (pair_section 0x1000)) (pair_section 0x1000) (mkRela 0 0 R_AARCH64_ADR_PREL_PG_HI21 1)
    (Some (callee (Some 1))) 0 (2 ^ 40) false pair_code = Some (Err out_of_range, m'').
Proof. do 2 exists [224; 255; 255; 240; 0; 0; 0; 145]. exists 0xf0ffffe0, 0x91000000. repeat split; vm_compute; reflexivity. Qed.
