(* ===== verification/ElfRelocSpec.v ===== *)
(** What the relocations of [ElfReloc] guarantee: they touch the bytes of
    their section only, given room that reading the object does not check. *)

From S2P Require Import Prelude ElfClass ElfReloc ElfReach.
Local Open Scope reloc_scope.

(** ** Computations that stay between two positions of the image *)
Definition agree (lo hi : Z) (m m' : bytes) : Prop :=
  length m' = length m /\ Forall is_byte m' /\ forall q, q < lo \/ hi <= q -> get_at m' q = get_at m q.
Definition kept_inside {A} (lo hi : Z) (c : R A) : Prop :=
  forall m, Forall is_byte m -> hi <= Z.of_nat (length m) -> exists r m', c m = Some (r, m') /\ agree lo hi m m'.

Create HintDb reloc.

Section Inside.
Context (lo hi : Z) (Hlo : 0 <= lo).

Lemma agree_refl m : Forall is_byte m -> agree lo hi m m.
Proof. repeat split; auto. Qed.
Lemma agree_trans m m1 m2 : agree lo hi m m1 -> agree lo hi m1 m2 -> agree lo hi m m2.
Proof. intros (L1 & B1 & G1) (L2 & B2 & G2). split; [lia|]. split; [done|]. intros q Hq. by rewrite G2, G1. Qed.

Lemma inside_done {A} (a : A) : kept_inside lo hi (done a).
Proof. intros m Hm Hl. do 2 eexists. split; [reflexivity|by apply agree_refl]. Qed.
Lemma inside_fail {A} e : kept_inside lo hi (@refuse A e).
Proof. intros m Hm Hl. do 2 eexists. split; [reflexivity|by apply agree_refl]. Qed.
Lemma inside_bind {A B} (c : R A) (f : A -> R B) :
  kept_inside lo hi c -> (forall a m m', c m = Some (Ok a, m') -> kept_inside lo hi (f a)) -> kept_inside lo hi (andthen c f).
Proof.
  intros Hc Hf m Hm Hl. destruct (Hc m Hm Hl) as (r & m1 & E & Ha). unfold andthen. rewrite E. destruct r as [a|e].
  - pose proof Ha as (L & Hbytes & _). destruct (Hf a m m1 E m1 Hbytes ltac:(lia)) as (r2 & m2 & E2 & Ha2).
    exists r2, m2. split; [done|by eapply agree_trans].
  - do 2 eexists. split; [reflexivity|done].
Qed.
Lemma inside_deref {A} (o : option A) : is_Some o -> kept_inside lo hi (deref o).
Proof. intros [a ->]. apply inside_done. Qed.

Lemma inside_known {A B} (o : option A) a (f : A -> R B) : o = Some a -> kept_inside lo hi (f a) -> kept_inside lo hi (andthen (deref o) f).
Proof. by intros ->. Qed.
Lemma inside_value {A B} (c : R A) a (f : A -> R B) : (forall m, c m = Some (Ok a, m)) -> kept_inside lo hi (f a) -> kept_inside lo hi (andthen c f).
Proof. intros E Hf m Hm Hl. unfold andthen. rewrite E. by apply Hf. Qed.

(** A reader or writer of [n] bytes. *)
Definition reader (r : bytes -> Z -> option Z) (n : Z) : Prop :=
  forall b p, Forall is_byte b -> 0 <= p -> p + n <= Z.of_nat (length b) -> within (r b p) (fun v => 0 <= v < 2 ^ (8 * n)).
Lemma inside_loads r n p : reader r n -> lo <= p -> p + n <= hi -> kept_inside lo hi (loads r p).
Proof.
  intros Hr H1 H2 m Hm Hl. specialize (Hr m p Hm ltac:(lia) ltac:(lia)). unfold loads, within in *. destruct (r m p) as [v|]; [|done].
  do 2 eexists. split; [reflexivity|by apply agree_refl].
Qed.
Lemma inside_stores w n p v :
  writes w n -> (forall o q x, 0 <= q -> q + n <= Z.of_nat (length o) -> within (w o q x) (fun o' => length o' = length o)) ->
  (forall o q x o', w o q x = Some o' -> Forall is_byte o -> Forall is_byte o') ->
  lo <= p -> p + n <= hi -> kept_inside lo hi (stores w p v).
Proof.
  intros Hw Hin Hb H1 H2 m Hm Hl. specialize (Hin m p v ltac:(lia) ltac:(lia)). unfold stores, within in *.
  destruct (w m p v) as [m'|] eqn:E; [|done]. do 2 eexists. split; [reflexivity|]. split; [done|]. split; [by eapply Hb|].
  intros q Hq. apply (Hw _ _ _ _ E). lia.
Qed.
Lemma inside_read8 p : lo <= p -> p + 1 <= hi -> kept_inside lo hi (read8 p).
Proof. apply inside_loads. intros b q Hb H0 H1. by apply within_get. Qed.
Lemma inside_read16 p : lo <= p -> p + 2 <= hi -> kept_inside lo hi (read16 p).
Proof. apply inside_loads. intros b q Hb H0 H1. by apply within_read16. Qed.
Lemma inside_read32 p : lo <= p -> p + 4 <= hi -> kept_inside lo hi (read32 p).
Proof. apply inside_loads. intros b q Hb H0 H1. by apply within_read32. Qed.
Lemma inside_read64 p : lo <= p -> p + 8 <= hi -> kept_inside lo hi (read64 p).
Proof. apply inside_loads. intros b q Hb H0 H1. by apply within_read64. Qed.
Lemma inside_write8 p v : lo <= p -> p + 1 <= hi -> kept_inside lo hi (write8 p v).
Proof.
  apply inside_stores; [apply writes8| |].
  - intros o q x H0 H1. by apply within_set.
  - intros o q x o' E Hb. eapply set_at_bytes; [exact E|apply u8_range|done].
Qed.
Lemma inside_write16 p v : lo <= p -> p + 2 <= hi -> kept_inside lo hi (write16 p v).
Proof. apply inside_stores; [apply writes16| |apply write16_bytes]. intros o q x H0 H1. by apply within_write16. Qed.
Lemma inside_write32 p v : lo <= p -> p + 4 <= hi -> kept_inside lo hi (write32 p v).
Proof. apply inside_stores; [apply writes32| |apply write32_bytes]. intros o q x H0 H1. by apply within_write32. Qed.
Lemma write64_bytes o p v o' : elf_class_write64 o p v = Some o' -> Forall is_byte o -> Forall is_byte o'.
Proof. intros H Ho. unfold elf_class_write64 in H. ostep H o1 E. eauto using write32_bytes. Qed.
Lemma inside_write64 p v : lo <= p -> p + 8 <= hi -> kept_inside lo hi (write64 p v).
Proof. apply inside_stores; [apply writes64| |apply write64_bytes]. intros o q x H0 H1. by apply within_write64. Qed.

Lemma inside_patch8 p f : lo <= p -> p + 1 <= hi -> kept_inside lo hi (patch8 p f).
Proof. intros. eapply inside_bind; [by apply inside_read8|]. intros. by apply inside_write8. Qed.
Lemma inside_patch16 p f : lo <= p -> p + 2 <= hi -> kept_inside lo hi (patch16 p f).
Proof. intros. eapply inside_bind; [by apply inside_read16|]. intros. by apply inside_write16. Qed.
Lemma inside_patch32 p f : lo <= p -> p + 4 <= hi -> kept_inside lo hi (patch32 p f).
Proof. intros. eapply inside_bind; [by apply inside_read32|]. intros. by apply inside_write32. Qed.
Lemma inside_patch64 p f : lo <= p -> p + 8 <= hi -> kept_inside lo hi (patch64 p f).
Proof. intros. eapply inside_bind; [by apply inside_read64|]. intros. by apply inside_write64. Qed.
Lemma inside_set_bits p mask shift v : lo <= p -> p + 4 <= hi -> kept_inside lo hi (set_bits p mask shift v).
Proof. apply inside_patch32. Qed.
Lemma inside_set_adr p v : lo <= p -> p + 4 <= hi -> kept_inside lo hi (set_adr p v).
Proof. intros. apply inside_bind; intros; by apply inside_set_bits. Qed.
Lemma inside_thumb p v : lo <= p -> p + 4 <= hi -> kept_inside lo hi (thumb_immediate16 p v).
Proof.
  intros. eapply inside_bind; [apply inside_read16; lia|]. intros. eapply inside_bind; [apply inside_read16; lia|]. intros.
  apply inside_bind; intros; apply inside_write16; lia.
Qed.
End Inside.
#[export] Hint Resolve inside_read8 inside_read16 inside_read32 inside_read64 inside_write8 inside_write16 inside_write32 inside_write64
  inside_patch8 inside_patch16 inside_patch32 inside_patch64 inside_set_bits inside_set_adr inside_thumb : reloc.

(** One step of a computation that stays inside. *)
Ltac in_step :=
  lazymatch goal with
  | |- kept_inside _ _ (if ?b then _ else _) => let E := fresh "T" in destruct b eqn:E
  | |- kept_inside _ _ (match ?o with Some _ => _ | None => _ end) => let E := fresh "T" in destruct o eqn:E; try discriminate E
  | |- kept_inside _ _ (match ?o with pair _ _ => _ end) => let E := fresh "T" in destruct o eqn:E
  | |- kept_inside _ _ (andthen (done _) _) => eapply inside_value; [done|]
  | |- kept_inside _ _ (andthen _ _) => apply inside_bind; [|intros]
  | |- kept_inside _ _ (done _) => apply inside_done
  | |- kept_inside _ _ (refuse _) => apply inside_fail
  end.
Ltac in_all := cbv zeta; repeat (in_step; cbv zeta); try solve [eauto with reloc | apply inside_deref; eauto].
#[export] Hint Extern 1 (_ <= _) => lia : reloc.

(** ** What a relocation needs *)

(** Symbols name sections of the linker, relocations symbols of theirs. *)
Definition symbol_known (l : Linker) (y : LinkSymbol) : bool :=
  match y_section y with Some h => (0 <=? h) && (h <? Z.of_nat (length (l_sections l))) | None => true end.
Definition rela_known (l : Linker) (c : LinkSection) (r : LinkRela) : bool := bool_decide (is_Some (symbol_of l c (r_symbol r))).
Definition linked (l : Linker) (c : LinkSection) : bool :=
  forallb (symbol_known l) (l_symbols l) && forallb (fun h => forallb (rela_known l h) (c_relas h)) (c :: l_sections l).
(** Room for a relocation beyond what reading the object checks (its offset
    is at most the size of the section): for the words of discarded code, for
    the second instruction of an AArch64 pair, for the symbol of a GOT load
    and for the distance of a Thumb branch. *)
Definition arm_near (l : Linker) (c : LinkSection) (r : LinkRela) : bool :=
  forallb (fun thumb => forallb (fun debug =>
      match symbol_of l c (r_symbol r) with
      | Some None => - 2 ^ 63 + 4 <=? i64 (arm_target r thumb debug 0 - place_of c r)
      | Some (Some y) => match symbol_address l y with
                         | Some value => - 2 ^ 63 + 4 <=? i64 (arm_target r thumb debug value - place_of c r)
                         | None => true
                         end
      | None => true
      end) [true; false]) [true; false].
Definition is_got_load (t : Z) : bool := (t =? R_X86_64_GOTPCREL) || (t =? R_X86_64_GOTPCRELX) || (t =? R_X86_64_REX_GOTPCRELX).
Definition other_machine (l : Linker) : bool :=
  negb (l_machine l =? MACHINE_ARM) && negb (l_machine l =? MACHINE_RISCV) && negb (l_machine l =? MACHINE_AARCH64).
Definition room (l : Linker) (c : LinkSection) (r : LinkRela) : bool :=
  (0 <=? r_offset r) && (r_offset r <=? c_size c)
  && implb (debug_section c && (r_type r =? l_word_type l)) (r_offset r + 8 <=? c_size c)
  && implb (debug_section c && (r_type r =? dead_word_type l)) (r_offset r + 4 <=? c_size c)
  && implb ((l_machine l =? MACHINE_AARCH64) && negb (debug_section c)) (r_offset r + 4 <=? c_size c)
  && implb (other_machine l && is_got_load (r_type r)) (match symbol_of l c (r_symbol r) with Some (Some _) => true | _ => false end)
  && implb (l_machine l =? MACHINE_ARM) (arm_near l c r).

Section Safety.
Context (l : Linker) (c : LinkSection) (out : Z).
Hypothesis (Hout : 0 <= out) (Hsize : 0 <= c_size c < 2 ^ 62) (Hlinked : linked l c = true).
Notation inside := (kept_inside out (out + c_size c)).

Lemma section_known y s : get_at (l_symbols l) s = Some y -> forall h, y_section y = Some h -> is_Some (get_at (l_sections l) h).
Proof.
  intros Hy h Hh. unfold linked in Hlinked. apply andb_prop in Hlinked as [Hs _]. rewrite forallb_forall in Hs.
  apply get_at_Some in Hy as [_ Hy]. apply list_elem_of_lookup_2, list_elem_of_In in Hy. specialize (Hs _ Hy). unfold symbol_known in Hs.
  rewrite Hh in Hs. to_prop. destruct (get_at_is_Some (l_sections l) h); eauto.
Qed.
Lemma symbol_found h i y : symbol_of l h i = Some (Some y) -> exists s, get_at (l_symbols l) s = Some y.
Proof.
  unfold symbol_of. destruct (get_at (c_symbols h) i) as [[s|]|]; try done. destruct (get_at (l_symbols l) s) eqn:E; [|done].
  intros [= ->]. eauto.
Qed.
(** A symbol that some relocation names. *)
Definition named (o : option LinkSymbol) : Prop :=
  match o with Some y => forall h, y_section y = Some h -> is_Some (get_at (l_sections l) h) | None => True end.
Lemma symbol_of_named h i o : symbol_of l h i = Some o -> named o.
Proof. intros E. destruct o as [y|]; [|done]. apply symbol_found in E as [s Hs]. intros h' Hh. by eapply section_known. Qed.
Lemma address_known y : named (Some y) -> is_Some (symbol_address l y).
Proof.
  intros Hn. unfold symbol_address. destruct (negb (y_defined y)); [by eexists|]. destruct (y_absolute y); [by eexists|].
  destruct (y_section y) as [h|] eqn:E; [|by eexists]. destruct (Hn h E) as [x ->]. by eexists.
Qed.
Lemma symbol_section_known y h : named (Some y) -> symbol_section y = Some h -> is_Some (get_at (l_sections l) h).
Proof. intros Hn. unfold symbol_section. destruct (y_defined y); [apply Hn|done]. Qed.
Lemma rela_of_section h r : h = c \/ (exists i, get_at (l_sections l) i = Some h) -> r ∈ c_relas h -> is_Some (symbol_of l h (r_symbol r)).
Proof.
  intros Hh Hr. unfold linked in Hlinked. apply andb_prop in Hlinked as [_ Hs]. rewrite forallb_forall in Hs.
  specialize (Hs h). rewrite forallb_forall in Hs. apply list_elem_of_In in Hr.
  refine (bool_decide_unpack _ _). apply Is_true_eq_left, Hs; [|done]. destruct Hh as [->|[i Hi]]; [by left|]. right.
  apply get_at_Some in Hi as [_ Hi]. by apply list_elem_of_lookup_2, list_elem_of_In in Hi.
Qed.

Section One.
Context (r : LinkRela) (symbol : option LinkSymbol).
Hypothesis (Hnamed : named symbol) (Hlow : 0 <= r_offset r <= c_size c).
Notation at_ := (out + r_offset r).

Lemma offset_exact n : 0 <= n <= 8 -> u64 (r_offset r + n) = r_offset r + n.
Proof. intros. apply u64_small. lia. Qed.

Lemma inside_symbol_value : inside (symbol_value l c symbol).
Proof.
  unfold symbol_value. destruct symbol as [y|]; [|apply inside_done]. in_all.
  - apply inside_deref. by eapply symbol_section_known.
  - by apply inside_deref, address_known.
Qed.
Lemma inside_dead : (r_type r = l_word_type l -> r_offset r + 8 <= c_size c) -> (r_type r = dead_word_type l -> r_offset r + 4 <= c_size c) ->
  inside (relocate_dead l c r at_).
Proof. intros H8 H4. unfold relocate_dead. in_all; to_prop; apply inside_write64 || apply inside_write32; auto with lia. Qed.
(** The relocations of each machine. *)
Lemma inside_riscv_low : inside (riscv_low l symbol).
Proof.
  unfold riscv_low. destruct symbol as [y|]; [|in_all]. destruct (symbol_section y) as [h|] eqn:Eh; [|in_all].
  destruct (symbol_section_known y h Hnamed Eh) as [hs Ehs]. rewrite Ehs. eapply inside_value; [done|].
  destruct (list_find _ (c_relas hs)) as [[k hr]|] eqn:Ef; [|in_all]. apply list_find_Some in Ef as (Hk & _ & _).
  destruct (rela_of_section hs hr) as [d Ed]; [eauto|by eapply list_elem_of_lookup_2|]. rewrite Ed. eapply inside_known; [done|].
  pose proof (symbol_of_named _ _ _ Ed) as Hd. destruct d as [d|]; [|in_all]. in_all. by apply inside_deref, address_known.
Qed.
(** Case analysis on the type of a relocation: every type in turn, with its
    width evaluated in [Hw]. *)
Ltac by_type t Hw :=
  cbn [orb]; try lazymatch goal with
  | |- kept_inside _ _ (if ?b then _ else _) =>
      match b with context [t =? ?k] =>
        destruct (Z.eqb_spec t k) as [->|?]; [vm_compute in Hw; subst; cbn [orb]; in_all|by_type t Hw]
      end
  | |- _ => in_all
  end.
Lemma inside_word_riscv t w target relative debug : r_offset r + w <= c_size c -> riscv_width t = w -> inside (word_riscv t at_ target relative debug).
Proof. intros Hr Hw. unfold word_riscv. cbv zeta. by_type t Hw. Qed.
Lemma inside_riscv value debug : inside (relocate_riscv l c r symbol at_ value debug).
Proof.
  unfold relocate_riscv. cbv zeta. in_step; [in_all|]. in_step; [in_all|]. apply orb_false_iff in T0 as [T0 T1]. to_prop.
  apply inside_bind; [|intros; eapply inside_word_riscv; [|done]; lia]. unfold riscv_relative. in_all. apply inside_riscv_low.
Qed.
Lemma inside_word_aarch64 t w target value : r_type r = t ->
  r_offset r + w <= c_size c ->
  (if (t =? R_AARCH64_ABS64) || (t =? R_AARCH64_PREL64) then 8 else if (t =? R_AARCH64_ABS16) || (t =? R_AARCH64_PREL16) then 2 else 4) = w ->
  inside (word_aarch64 l c r target at_ value).
Proof. intros Et Hr Hw. unfold word_aarch64. cbv zeta. rewrite Et. clear Et. by_type t Hw.
  assert (w = 4) as -> by (rewrite <- Hw; repeat (rewrite (proj2 (Z.eqb_neq t _)) by eassumption); done). in_all.
Qed.
Lemma inside_aarch64 value debug : inside (relocate_aarch64 l c r symbol at_ value debug).
Proof.
  unfold relocate_aarch64. cbv zeta. in_step; [in_all|]. apply Z.ltb_ge in T. rewrite offset_exact in T by (repeat split_if; lia).
  apply inside_bind; [by eapply inside_word_aarch64|]. intros [[]|] _ _ _; in_all.
Qed.
Lemma inside_arm value debug :
  (forall thumb, - 2 ^ 63 + 4 <= i64 (arm_target r thumb debug value - place_of c r)) -> inside (relocate_arm l c r symbol at_ value debug).
Proof.
  intros Hnear. unfold relocate_arm. cbv zeta. in_step; [in_all|]. in_step; [in_all|]. apply orb_false_iff in T0 as [T0 T1]. to_prop.
  apply inside_bind.
  - in_all. apply inside_deref. subst. by eapply symbol_section_known.
  - intros h _ _ _. in_all. apply inside_deref. unfold minus_four. split_if; [|by eexists]. to_prop.
    match goal with H : i64 (arm_target r ?b debug value - _) < _ |- _ => specialize (Hnear b); lia end.
Qed.
Lemma inside_value_x86 value : (is_got_load (r_type r) = true -> is_Some symbol) -> inside (value_x86 l c r symbol at_ value).
Proof.
  intros Hs. unfold value_x86. cbv zeta. fold (is_got_load (r_type r)). destruct (is_got_load (r_type r)) eqn:Eg; [|in_all].
  destruct (Hs eq_refl) as [y Ey]. do 12 (in_step; [in_all|]). rewrite Ey. eapply inside_known; [done|].
  destruct (_ && (2 <=? r_offset r)) eqn:E2; [|in_all]. apply andb_prop in E2 as [_ E2]. apply Z.leb_le in E2. in_all.
Qed.
Lemma x86_width value m v w g m' : value_x86 l c r symbol at_ value m = Some (Ok (Some (v, w, g)), m') -> w = 32 \/ w = 64.
Proof.
  unfold value_x86. cbv zeta. repeat first [progress (unfold andthen, done, refuse, deref) | split_match; [..]]; intros; simplify_eq; auto.
Qed.
Lemma inside_x86 value debug : (is_got_load (r_type r) = true -> is_Some symbol) -> inside (relocate_x86 l c r symbol at_ value debug).
Proof.
  intros Hs. unfold relocate_x86. apply inside_bind; [by apply inside_value_x86|]. intros [[[v w] g]|] m m' E; [|in_all].
  assert (r_offset r + w / 8 <= c_size c -> inside (if w =? 64 then write64 at_ v else if negb (if g then i64 v =? i32 (u32 v) else v <=? UINT32_MAX) && negb debug then refuse out_of_range else write32 at_ v)) as Hin.
  { intros Hw. destruct (x86_width _ _ _ _ _ _ E) as [-> | ->]; [change (32 / 8) with 4 in Hw|change (64 / 8) with 8 in Hw]; in_all. }
  in_step; [in_all|]. apply Z.ltb_ge in T. rewrite offset_exact in T; [auto|]. destruct (x86_width _ _ _ _ _ _ E) as [-> | ->]; done.
Qed.
End One.

Hypothesis Hroom : forallb (room l c) (c_relas c) = true.
Lemma room_of r : r ∈ c_relas c -> room l c r = true.
Proof. intros Hr. apply list_elem_of_In in Hr. revert r Hr. by apply forallb_forall. Qed.
Lemma room_bounds r : r ∈ c_relas c -> 0 <= r_offset r <= c_size c.
Proof. intros Hr. apply room_of in Hr. unfold room in Hr. rewrite !andb_true_iff in Hr. lia. Qed.

Lemma inside_pair at_ place target rd : out <= at_ -> at_ + 8 <= out + c_size c -> inside (relax_pair at_ place target rd).
Proof. intros. unfold relax_pair. in_all. Qed.
Lemma inside_relax i : l_machine l = MACHINE_AARCH64 -> debug_section c = false -> inside (relax_aarch64 l c out i).
Proof.
  intros Em Ed. unfold relax_aarch64. destruct (c_relas c !! i) as [first|] eqn:E1; [|in_all].
  destruct (c_relas c !! S i) as [second|] eqn:E2; [|in_all].
  apply list_elem_of_lookup_2 in E1, E2. destruct (rela_of_section c first) as [o Eo]; [auto..|]. rewrite Eo. eapply inside_known; [done|].
  pose proof (symbol_of_named _ _ _ Eo) as Hn. destruct o as [y|]; [|in_all]. in_step; [in_all|].
  pose proof (room_bounds _ E1) as B1. apply room_of in E2. unfold room in E2. rewrite Em, Ed in E2. simpl in E2. rewrite !andb_true_iff in E2.
  rewrite !orb_false_iff, !negb_false_iff in T. destruct T as [[[[[[[_ To] _] _] _] _] _] _]. apply Z.eqb_eq in To.
  rewrite offset_exact in To by (done || lia). destruct (address_known y Hn) as [a Ea]. rewrite Ea.
  assert (out + r_offset first + 8 <= out + c_size c) by lia.
  cbv zeta. in_all; apply inside_pair; lia.
Qed.
Lemma symbol_value_is o value dead m m' : symbol_value l c o m = Some (Ok (value, dead), m') ->
  match o with None => value = 0 | Some y => symbol_address l y = Some value end.
Proof.
  unfold symbol_value. destruct o as [y|]; [|by intros [= <- <- <-]]. unfold andthen, deref, done, refuse. intros E.
  repeat (split_match_in E; [try discriminate|..]); by simplify_eq.
Qed.
Lemma arm_near_all r o value dead m m' thumb : arm_near l c r = true -> symbol_of l c (r_symbol r) = Some o ->
  symbol_value l c o m = Some (Ok (value, dead), m') -> - 2 ^ 63 + 4 <= i64 (arm_target r thumb (debug_section c) value - place_of c r).
Proof.
  intros Hn Eo Ev. apply symbol_value_is in Ev. unfold arm_near in Hn. rewrite Eo in Hn. apply Z.leb_le.
  destruct o as [y|]; [rewrite Ev in Hn|subst value]; cbn [forallb] in Hn; rewrite !andb_true_iff in Hn;
    destruct thumb, (debug_section c); apply Hn.
Qed.
Lemma inside_one i r : r ∈ c_relas c -> inside (relocate_one l c out i r).
Proof.
  intros Hr. pose proof (room_bounds _ Hr) as Hb. pose proof (room_of _ Hr) as Hroom1. unfold relocate_one.
  destruct (rela_of_section c r) as [o Eo]; [auto..|]. pose proof (symbol_of_named _ _ _ Eo) as Hn. rewrite Eo. eapply inside_known; [done|].
  unfold room in Hroom1. rewrite !andb_true_iff, !implb_true_iff, !andb_true_iff in Hroom1.
  destruct Hroom1 as [[[[[_ H8] H4] _] Hgot] Harm].
  apply inside_bind; [by apply inside_symbol_value|]. intros [value dead] m m' Ev. cbv zeta.
  in_step. { apply inside_bind; [|intros; in_all]. apply andb_prop in T as [_ Td]. apply inside_dead; [done|..]; intros E; apply Z.leb_le; [apply H8|apply H4]; split; done || by apply Z.eqb_eq. }
  in_step. { apply inside_bind; [|intros; in_all]. apply inside_arm; [done..|]. intros thumb. by eapply arm_near_all; eauto. }
  in_step; [in_all|]. in_step. { apply inside_bind; [|intros; in_all]. by apply inside_riscv. }
  in_step.
  { apply inside_bind; [|intros; in_step; [in_all|]; apply inside_bind; [by apply inside_aarch64|intros; in_all]].
    in_step; [in_all|]. apply inside_relax; [by apply Z.eqb_eq|done]. }
  apply inside_bind; [|intros; in_all]. apply inside_x86; [done..|]. intros Hg. rewrite Eo in Hgot. destruct o; [by eexists|]. exfalso.
  enough (false = true) by done. apply Hgot. split; [|done]. unfold other_machine. by rewrite T0, T2, T3.
Qed.
Lemma inside_from relas : forall i skip, (forall r, r ∈ relas -> r ∈ c_relas c) -> inside (relocate_from l c out i relas skip).
Proof.
  induction relas as [|r relas IH]; intros i skip Hin; cbn [relocate_from]; [in_all|].
  in_step; [apply IH; intros; apply Hin; by right|]. apply inside_bind; [apply inside_one, Hin; by left|].
  intros. apply IH. intros. apply Hin. by right.
Qed.
End Safety.

(** C17: Relocating a section ends, reads and writes nothing outside the image,
    and changes no byte outside the section, when relocations name known
    symbols and have room: the offset is inside the section and, for words of
    discarded code and for AArch64, so is the word; a GOT load names a
    symbol. *)
Theorem relocate_stays_inside l c out m :
  linked l c = true -> forallb (room l c) (c_relas c) = true -> 0 <= out -> 0 <= c_size c < 2 ^ 62 ->
  Forall is_byte m -> out + c_size c <= Z.of_nat (length m) ->
  exists r m', relocate l c out m = Some (r, m') /\ length m' = length m /\
    forall q, q < out \/ out + c_size c <= q -> get_at m' q = get_at m q.
Proof.
  intros Hl Hr H0 Hs Hm Hlen. destruct (inside_from l c out H0 Hs Hl Hr (c_relas c) 0%nat false ltac:(done) m Hm Hlen) as (r & m' & E & L & _ & G).
  by exists r, m'.
Qed.

Lemma relocate_stays_inside_witness :
  exists r m', relocate (linker MACHINE_RISCV 0x200000 call_section) call_section 1 (255 :: call_code ++ [255]) = Some (r, m') /\
    length m' = 10%nat /\ forall q, q < 1 \/ 9 <= q -> get_at m' q = get_at (255 :: call_code ++ [255]) q.
Proof.
  refine (relocate_stays_inside (linker MACHINE_RISCV 0x200000 call_section) call_section 1 (255 :: call_code ++ [255]) _ _ _ _ _ _);
    [reflexivity|reflexivity|done|done|repeat constructor; done|done].
Defined.

(** What reading the object checks of each relocation. *)
Lemma load_relas_checked n data symbols size : Forall is_byte data -> forall p relas,
  load_relas n data p symbols size = Some (Ok relas) ->
  Forall (fun r => 0 <= r_offset r <= size /\ 0 <= r_symbol r < symbols) relas.
Proof.
  intros Hd. induction n as [|n IH]; intros p relas E; cbn [load_relas] in E; [injection E as <-; constructor|].
  ostep E info Ei. ostep E offset Eo. ostep E addend Ea. cbv zeta in E. split_if_in E; [done|]. apply reads64 in Ei as [Hi _], Eo as [Ho _]; [|done..].
  ostep E rest Er. destruct rest as [rest|]; [|done]. injection E as <-. rewrite orb_false_iff in *. cbn [r_offset r_symbol] in *.
  constructor; [|by eapply IH]. cbn [r_offset r_symbol]. destruct_and?. to_prop. pose proof (proj2 (Z.shiftr_nonneg info 32) ltac:(lia)). lia.
Qed.

(** ** Discarded code

    A relocation at the very end of a debug section is read without
    complaint. *)
Definition debug_info : LinkSection :=
  mkLinkSection (str ".debug_info") 4 0 0 true [mkRela 4 0 R_X86_64_64 1] [None; Some 0].
Definition discarded : LinkSection := mkLinkSection (str ".text.f") 8 6 0x1000 false [] [].
Definition debug_linker : Linker := mkLinker MACHINE_X86_64 false R_X86_64_64 0 0 0 0 0 0 0 [debug_info; discarded] [callee (Some 1)].
Definition rela_entry : bytes := [4; 0; 0; 0; 0; 0; 0; 0; 1; 0; 0; 0; 1; 0; 0; 0; 0; 0; 0; 0; 0; 0; 0; 0].

(** A relocation at the end of a debug section that refers to discarded
    code passes the check of the object, and is then written without a check
    of bounds: eight bytes after the section become zero, and when the section
    ends the image the write is outside it. *)
Theorem dead_word_past_section :
  load_relas 1 rela_entry 0 2 (c_size debug_info) = Some (Ok (c_relas debug_info)) /\
  relocate debug_linker debug_info 0 ([1; 2; 3; 4] ++ replicate 8 255) = Some (Ok tt, [1; 2; 3; 4] ++ replicate 8 0) /\
  relocate debug_linker debug_info 0 [1; 2; 3; 4] = None.
Proof. repeat split; vm_compute; reflexivity. Qed.
