(* ===== verification/LspJson.v ===== *)
(** * JSON traversal of the language server (lsp_json.h)

    A message is a NUL-terminated string: the list of its bytes, none of them
    0, with [cstr_get] reading the terminator at the end.  A pointer into the
    message is the rest of the list, a [NULL] result is [None].

    The recognizer [lsp_json_end] is proved against a grammar of JSON texts
    (RFC 8259 with well-formed UTF-8 and at most 128 nested levels). *)

From S2P Require Import Prelude.

Definition is_space (c : Z) : bool := (c =? 32) || (c =? 9) || (c =? 13) || (c =? 10).
Fixpoint lsp_json_space (p : bytes) : bytes :=
  match p with
  | c :: q => if is_space c then lsp_json_space q else p
  | [] => []
  end.

Definition isdigit (c : Z) : bool := (48 <=? c) && (c <=? 57).
Definition isxdigit (c : Z) : bool :=
  isdigit c || ((65 <=? c) && (c <=? 70)) || ((97 <=? c) && (c <=? 102)).

(** [p[i]] within the string. *)
Definition char_at (p : bytes) (i : nat) : Z := nth i p 0.
Definition is_cont (c : Z) : bool := Z.land c 0xc0 =? 0x80.

Definition utf8_width (lead : Z) : nat :=
  if (0xc2 <=? lead) && (lead <=? 0xdf) then 2
  else if (0xe0 <=? lead) && (lead <=? 0xef) then 3
  else if (0xf0 <=? lead) && (lead <=? 0xf4) then 4
  else 0.

(** [for (i = 1; i < width; ++i) if (!p[i] || (p[i] & 0xc0) != 0x80) ...] *)
Fixpoint continuation_ok (n i : nat) (p : bytes) : bool :=
  match n with
  | O => true
  | S n' => negb (char_at p i =? 0) && is_cont (char_at p i) && continuation_ok n' (S i) p
  end.

Definition escapes : bytes := [34; 92; 47; 98; 102; 110; 114; 116].

(** The loop of a string after its opening quote; the result is after the
    closing one. *)
Fixpoint string_loop (fuel : nat) (p : bytes) : option bytes :=
  match fuel with
  | O => None
  | S f =>
      match p with
      | [] => None
      | c :: q =>
          if c =? 34 then Some q
          else if c <? 32 then None
          else if 0x80 <=? c then
            let width := utf8_width c in
            if (width =? 0)%nat then None
            else if negb (continuation_ok (width - 1) 1 p) then None
            else
              let second := char_at p 1 in
              if ((c =? 0xe0) && (second <? 0xa0)) || ((c =? 0xed) && (0xa0 <=? second))
                 || ((c =? 0xf0) && (second <? 0x90)) || ((c =? 0xf4) && (0x90 <=? second))
              then None
              else string_loop f (skipn width p)
          else if c =? 92 then
            match q with
            | [] => None
            | e :: r =>
                if e =? 117 then
                  if isxdigit (char_at r 0) && isxdigit (char_at r 1)
                     && isxdigit (char_at r 2) && isxdigit (char_at r 3)
                  then string_loop f (skipn 4 r) else None
                else if one_of e escapes then string_loop f r else None
            end
          else string_loop f q
      end
  end.

Definition starts (p : bytes) (prefix : bytes) : bool := bytes_eqb (firstn (length prefix) p) prefix.

(** [do ++p; while (isdigit( *p))] after a first digit. *)
Fixpoint digits (p : bytes) : bytes :=
  match p with
  | c :: q => if isdigit c then digits q else p
  | [] => []
  end.
Definition exponent (p : bytes) : option bytes :=
  if (cstr_get p =? 101) || (cstr_get p =? 69) then
    let p := tl p in
    let p := if (cstr_get p =? 43) || (cstr_get p =? 45) then tl p else p in
    if isdigit (cstr_get p) then Some (digits p) else None
  else Some p.
Definition fraction (p : bytes) : option bytes :=
  if cstr_get p =? 46 then
    let p := tl p in
    if isdigit (cstr_get p) then Some (digits p) else None
  else Some p.
Definition number_end (p : bytes) : option bytes :=
  let p := if cstr_get p =? 45 then tl p else p in
  let* p := (if cstr_get p =? 48 then Some (tl p)
             else if (cstr_get p <? 49) || (57 <? cstr_get p) then None
             else Some (digits p)) in
  let* p := fraction p in
  exponent p.

(** [lsp_json_end] and its member loop; [None] is [NULL], or no fuel. *)
Fixpoint json_end (fuel : nat) (p : bytes) (depth : Z) : option bytes :=
  match fuel with
  | O => None
  | S f =>
      let p := lsp_json_space p in
      if 128 <? depth then None
      else if cstr_get p =? 34 then string_loop (S (length p)) (tl p)
      else if (cstr_get p =? 123) || (cstr_get p =? 91) then
        let object := cstr_get p =? 123 in
        let close := if object then 125 else 93 in
        let p := lsp_json_space (tl p) in
        if cstr_get p =? close then Some (tl p) else json_members f object close p depth
      else if starts p (str "true") then Some (skipn 4 p)
      else if starts p (str "false") then Some (skipn 5 p)
      else if starts p (str "null") then Some (skipn 4 p)
      else number_end p
  end
with json_members (fuel : nat) (object : bool) (close : Z) (p : bytes) (depth : Z) : option bytes :=
  match fuel with
  | O => None
  | S f =>
      let* p :=
        (if object then
           if negb (cstr_get p =? 34) then None
           else
             let* p := json_end f p (depth + 1) in
             let p := lsp_json_space p in
             if negb (cstr_get p =? 58) then None else Some (tl p)
         else Some p) in
      let* p := json_end f p (depth + 1) in
      let p := lsp_json_space p in
      if cstr_get p =? close then Some (tl p)
      else if negb (cstr_get p =? 44) then None
      else json_members f object close (lsp_json_space (tl p)) depth
  end.

Definition lsp_json_end (p : bytes) (depth : Z) : option bytes :=
  json_end (2 * length p + 2) p depth.

Definition lsp_json_valid (p : bytes) : bool :=
  match lsp_json_end p 0 with
  | Some end_ => cstr_get (lsp_json_space end_) =? 0
  | None => false
  end.

(** ** Keys and members *)

Definition hex_value (c : Z) : Z :=
  if c <=? 57 then c - 48 else if c <=? 70 then c - 65 + 10 else c - 97 + 10.

(** The loop of [lsp_json_key_equal]: [start] is what is left before the
    closing quote, [key] the expected key up to its own closing quote. *)
Fixpoint key_loop (fuel : nat) (start key : bytes) : bool :=
  match fuel with
  | O => false
  | S f =>
      match start with
      | [] => cstr_get key =? 34
      | c :: rest =>
          if cstr_get key =? 34 then false
          else
            let '(value, rest) :=
              (if c =? 92 then
                 let e := cstr_get rest in
                 let rest := tl rest in
                 if e =? 117 then
                   (fold_left (fun v d => v * 16 + hex_value d) (firstn 4 rest) 0, skipn 4 rest)
                 else (e, rest)
               else (c, rest)) in
            if negb (value =? cstr_get key) then false else key_loop f rest (tl key)
      end
  end.
(** [p] is at the opening quote of a key, [end_] after its closing quote. *)
Definition lsp_json_key_equal (p end_ key : bytes) : bool :=
  let content := firstn (length p - length end_ - 2) (tl p) in
  key_loop (S (length content)) content (tl key).

Fixpoint member_loop (fuel : nat) (p key : bytes) : option bytes :=
  match fuel with
  | O => None
  | S f =>
      if cstr_get p =? 34 then
        let* end_ := lsp_json_end p 0 in
        let match_ := lsp_json_key_equal p end_ key in
        let p := lsp_json_space end_ in
        if negb (cstr_get p =? 58) then None
        else
          let p := lsp_json_space (tl p) in
          if match_ then Some p
          else
            let* p := lsp_json_end p 0 in
            let p := lsp_json_space p in
            if negb (cstr_get p =? 44) then None
            else member_loop f (lsp_json_space (tl p)) key
      else None
  end.
Definition lsp_json_member (p key : bytes) : option bytes :=
  let p := lsp_json_space p in
  if negb (cstr_get p =? 123) then None
  else member_loop (S (length p)) (lsp_json_space (tl p)) key.

(** [lsp_json_find]: the members of this object, then every nested value. *)
Fixpoint json_find (fuel : nat) (p key : bytes) : option bytes :=
  match fuel with
  | O => None
  | S f =>
      let p := lsp_json_space p in
      match lsp_json_member p key with
      | Some direct => Some direct
      | None =>
          let object := cstr_get p =? 123 in
          if negb object && negb (cstr_get p =? 91) then None
          else find_loop f object (lsp_json_space (tl p)) key
      end
  end
with find_loop (fuel : nat) (object : bool) (p key : bytes) : option bytes :=
  match fuel with
  | O => None
  | S f =>
      if (cstr_get p =? 0) || (cstr_get p =? 125) || (cstr_get p =? 93) then None
      else
        let* p :=
          (if object then
             let* p := lsp_json_end p 0 in
             let p := lsp_json_space p in
             if negb (cstr_get p =? 58) then None else Some (tl p)
           else Some p) in
        match json_find f p key with
        | Some found => Some found
        | None =>
            let* p := lsp_json_end p 0 in
            let p := lsp_json_space p in
            if negb (cstr_get p =? 44) then None
            else find_loop f object (lsp_json_space (tl p)) key
        end
  end.
Definition lsp_json_find (p key : bytes) : option bytes := json_find (2 * length p + 2) p key.

(** [strtoull] in base 10 on a text that starts with a digit: the value and
    the rest; [None] is [ERANGE]. *)
Fixpoint strtoull (p : bytes) (value : Z) : option Z * bytes :=
  match p with
  | c :: q => if isdigit c then strtoull q (value * 10 + (c - 48))
              else (if value <=? UINT64_MAX then Some value else None, p)
  | [] => (if value <=? UINT64_MAX then Some value else None, [])
  end.
Definition lsp_json_size (p : option bytes) : option Z :=
  match p with
  | None => None
  | Some p =>
      if negb (isdigit (cstr_get p)) then None
      else
        let '(number, end_) := strtoull p 0 in
        let* number := number in
        if negb (cstr_get end_ =? 0) && negb (one_of (cstr_get end_) [32; 44; 125; 13; 10; 9; 93])
        then None else Some number
  end.

(** ** The grammar *)

Definition spaces (t : bytes) : Prop := Forall (fun c => is_space c = true) t.

Inductive json_char : bytes -> Prop :=
| char_plain c : 32 <= c < 128 -> c <> 34 -> c <> 92 -> json_char [c]
| char_multi t : utf8_multi t -> json_char t
| char_escape e : In e escapes -> json_char [92; e]
| char_unicode a b c d :
    isxdigit a = true -> isxdigit b = true -> isxdigit c = true -> isxdigit d = true ->
    json_char [92; 117; a; b; c; d].
Inductive json_chars : bytes -> Prop :=
| chars_nil : json_chars []
| chars_cons a b : json_char a -> json_chars b -> json_chars (a ++ b).
Definition json_string (t : bytes) : Prop := exists body, json_chars body /\ t = [34] ++ body ++ [34].

Definition digit_text (t : bytes) : Prop := Forall (fun c => isdigit c = true) t.
Definition number_text (t : bytes) : Prop :=
  exists sign int frac expo, t = sign ++ int ++ frac ++ expo
  /\ (sign = [] \/ sign = [45])
  /\ (int = [48] \/ exists d ds, int = d :: ds /\ 49 <= d <= 57 /\ digit_text ds)
  /\ (frac = [] \/ exists d ds, frac = 46 :: d :: ds /\ digit_text (d :: ds))
  /\ (expo = [] \/ exists e sg d ds, expo = e :: sg ++ d :: ds /\ (e = 101 \/ e = 69)
        /\ (sg = [] \/ sg = [43] \/ sg = [45]) /\ digit_text (d :: ds)).

(** [value n t]: [t] is a value with at most [n] levels below it;
    [members n object t]: [t] is a non-empty list of members with the space
    after each. *)
Inductive value : nat -> bytes -> Prop :=
| value_string n t : json_string t -> value n t
| value_number n t : number_text t -> value n t
| value_true n : value n (str "true")
| value_false n : value n (str "false")
| value_null n : value n (str "null")
| value_empty n (object : bool) ws :
    spaces ws -> value n ([if object then 123 else 91] ++ ws ++ [if object then 125 else 93])
| value_container n (object : bool) ws t :
    spaces ws -> members n object t ->
    value (S n) ([if object then 123 else 91] ++ ws ++ t ++ [if object then 125 else 93])
with members : nat -> bool -> bytes -> Prop :=
| members_one n object t ws : member n object t -> spaces ws -> members n object (t ++ ws)
| members_more n object t ws ws' rest :
    member n object t -> spaces ws -> spaces ws' -> members n object rest ->
    members n object (t ++ ws ++ [44] ++ ws' ++ rest)
with member : nat -> bool -> bytes -> Prop :=
| member_element n t : value n t -> member n false t
| member_pair n k ws ws' t :
    json_string k -> spaces ws -> spaces ws' -> value n t ->
    member n true (k ++ ws ++ [58] ++ ws' ++ t).

Scheme value_ind' := Induction for value Sort Prop
  with members_ind' := Induction for members Sort Prop
  with member_ind' := Induction for member Sort Prop.
Combined Scheme json_ind from value_ind', members_ind', member_ind'.

Definition json_text (t : bytes) : Prop :=
  exists ws v ws', t = ws ++ v ++ ws' /\ spaces ws /\ value 128 v /\ spaces ws'.

(** Bytes of a C string. *)
Definition c_string (s : bytes) : Prop := Forall (fun c => 0 < c < 256) s.

(** ** Spaces and characters *)

Lemma is_cont_iff c : 0 <= c < 256 -> is_cont c = (0x80 <=? c) && (c <=? 0xbf).
Proof. apply land_cont. Qed.

Lemma space_split p : exists ws, p = ws ++ lsp_json_space p /\ spaces ws.
Proof.
  induction p as [|c p IH]; cbn; [exists []; split; [done|constructor]|].
  destruct (is_space c) eqn:E; [|exists []; split; [done|constructor]].
  destruct IH as (ws & Hp & Hws). exists (c :: ws). split; [cbn; congruence|by constructor].
Qed.
Lemma space_skip ws p : spaces ws -> lsp_json_space (ws ++ p) = lsp_json_space p.
Proof. induction 1 as [|c ws Hc _ IH]; cbn; [done|]. by rewrite Hc. Qed.
Lemma space_stop p : is_space (cstr_get p) = false -> lsp_json_space p = p.
Proof. destruct p as [|c p]; cbn; [done|]. by intros ->. Qed.
Lemma space_all ws : spaces ws -> lsp_json_space ws = [].
Proof. intros H. rewrite <- (app_nil_r ws). by rewrite space_skip. Qed.

Lemma c_string_app a b : c_string (a ++ b) <-> c_string a /\ c_string b.
Proof. apply Forall_app. Qed.

(** ** Strings *)

Lemma string_loop_complete body : json_chars body -> forall f r,
  c_string body -> (length body < f)%nat -> string_loop f (body ++ 34 :: r) = Some r.
Proof.
  induction 1 as [|a b Ha Hb IH]; intros f r Hc Hf.
  { destruct f; [lia|]. done. }
  rewrite <- app_assoc. apply c_string_app in Hc as [Hca Hcb]. rewrite length_app in Hf.
  destruct f as [|f]; [lia|]. unfold cont in *. destruct Ha as [c H1 H2 H3|t Ht|e He|a1 a2 a3 a4 H1 H2 H3 H4].
  - cbn [string_loop app]. zb. apply IH; [done|cbn in Hf; lia].
  - unfold c_string in Hca.
    destruct Ht as [x y Hx Hy|x y z Hx Hz|x y z w Hx Hz Hw]; unfold cont in *;
      repeat match goal with H : Forall _ (_ :: _) |- _ => inversion_clear H end;
      repeat match goal with H : _ \/ _ |- _ => destruct H end;
      cbn [string_loop app utf8_width]; unfold utf8_width; zb;
      cbn [Nat.eqb Nat.sub continuation_ok char_at nth]; rewrite !is_cont_iff by lia; zb;
      cbn [skipn]; rewrite ?drop_0; apply IH; (done || (cbn in Hf; lia)).
  - cbn [string_loop app]. zb. assert (e <> 117) by (intros ->; cbn in He; lia). zb.
    replace (one_of e escapes) with true; [apply IH; [done|cbn in Hf; lia]|].
    symmetry. apply existsb_exists. exists e. split; [done|apply Z.eqb_refl].
  - cbn [string_loop app]. zb. cbn [char_at nth]. rewrite H1, H2, H3, H4. cbn [andb skipn].
    apply IH; [done|cbn in Hf; lia].
Qed.

Lemma utf8_width_cases c :
  utf8_width c = 0%nat \/ (utf8_width c = 2%nat /\ 0xc2 <= c <= 0xdf)
  \/ (utf8_width c = 3%nat /\ 0xe0 <= c <= 0xef) \/ (utf8_width c = 4%nat /\ 0xf0 <= c <= 0xf4).
Proof.
  unfold utf8_width. destruct ((0xc2 <=? c) && (c <=? 0xdf)) eqn:E1; to_prop; [lia|].
  destruct ((0xe0 <=? c) && (c <=? 0xef)) eqn:E2; to_prop; [lia|].
  destruct ((0xf0 <=? c) && (c <=? 0xf4)) eqn:E3; to_prop; lia.
Qed.

(** The first character of a string the loop accepts. *)
Lemma multi_sound c q :
  c_string (c :: q) -> (utf8_width c =? 0)%nat = false ->
  continuation_ok (utf8_width c - 1) 1 (c :: q) = true ->
  ((c =? 0xe0) && (char_at (c :: q) 1 <? 0xa0)) || ((c =? 0xed) && (0xa0 <=? char_at (c :: q) 1))
  || ((c =? 0xf0) && (char_at (c :: q) 1 <? 0x90)) || ((c =? 0xf4) && (0x90 <=? char_at (c :: q) 1)) = false ->
  exists t r, c :: q = t ++ r /\ json_char t /\ r = skipn (utf8_width c) (c :: q) /\ (0 < length t)%nat.
Proof.
  intros Hc Hw Hk Hs. apply Nat.eqb_neq in Hw. inversion_clear Hc as [|? ? Hc0 Hq].
  destruct (utf8_width_cases c) as [?|[[E Hr]|[[E Hr]|[E Hr]]]]; [lia|..]; rewrite E in *;
    cbn [Nat.sub continuation_ok char_at nth] in Hk, Hs; repeat rewrite andb_true_iff in Hk.
  - destruct q as [|d q]; [cbn in Hk; destruct Hk as [[H _] _]; done|].
    inversion_clear Hq as [|? ? Hd Hq']. cbn [nth] in Hk. rewrite is_cont_iff in Hk by lia.
    exists [c; d], q. split_and!; try done; [|cbn; lia].
    apply char_multi, utf8_2; unfold cont; to_prop; lia.
  - destruct q as [|d [|e q]]; cbn [nth] in Hk, Hs;
      [destruct Hk as [[H _] _]; done|destruct Hk as [_ [[H _] _]]; done|].
    inversion_clear Hq as [|? ? Hd Hq']. inversion_clear Hq' as [|? ? He Hq''].
    rewrite !is_cont_iff in Hk by lia.
    exists [c; d; e], q. split_and!; try done; [|cbn; lia].
    apply char_multi, utf8_3; unfold cont; to_prop; lia.
  - destruct q as [|d [|e [|g q]]]; cbn [nth] in Hk, Hs;
      [destruct Hk as [[H _] _]; done|destruct Hk as [_ [[H _] _]]; done
      |destruct Hk as [_ [_ [[H _] _]]]; done|].
    inversion_clear Hq as [|? ? Hd Hq']. inversion_clear Hq' as [|? ? He Hq'']. inversion_clear Hq'' as [|? ? Hg Hq'].
    rewrite !is_cont_iff in Hk by lia.
    exists [c; d; e; g], q. split_and!; try done; [|cbn; lia].
    apply char_multi, utf8_4; unfold cont; to_prop; lia.
Qed.

Lemma isxdigit_nonzero p i : isxdigit (char_at p i) = true -> (i < length p)%nat.
Proof.
  intros H. destruct (Nat.lt_ge_cases i (length p)); [done|]. unfold char_at in H. by rewrite nth_overflow in H.
Qed.

Lemma string_loop_sound f : forall p r,
  c_string p -> string_loop f p = Some r -> exists body, json_chars body /\ p = body ++ 34 :: r.
Proof.
  induction f as [|f IH]; intros p r Hc H; [done|]. cbn [string_loop] in H.
  destruct p as [|c q]; [done|]. destruct (Z.eqb_spec c 34) as [->|Hne].
  { injection H as ->. exists []. split; [constructor|done]. }
  assert (forall t rest, c :: q = t ++ rest -> json_char t -> string_loop f rest = Some r ->
            exists body, json_chars body /\ c :: q = body ++ 34 :: r) as Hstep.
  { intros t rest Hp Ht Hl. rewrite Hp in Hc. apply c_string_app in Hc as [_ Hcr].
    destruct (IH rest r Hcr Hl) as (body & Hb & ->). exists (t ++ body).
    split; [by constructor|]. rewrite Hp. by rewrite <- app_assoc. }
  destruct (Z.ltb_spec c 32); [done|]. destruct (Z.leb_spec 128 c).
  - destruct (utf8_width c =? 0)%nat eqn:Ew; [done|].
    destruct (continuation_ok _ _ _) eqn:Ek; [|done]. cbn [negb] in H.
    destruct (_ || _ || _ || _) eqn:Es; [done|].
    destruct (multi_sound c q Hc Ew Ek Es) as (t & rest & Hp & Ht & -> & _). by eapply Hstep.
  - destruct (Z.eqb_spec c 92) as [->|].
    + destruct q as [|e q]; [done|]. destruct (Z.eqb_spec e 117) as [->|].
      * destruct (_ && _ && _ && _) eqn:Ex; [|done]. repeat rewrite andb_true_iff in Ex.
        destruct Ex as [[[X0 X1] X2] X3]. pose proof (isxdigit_nonzero _ _ X3).
        destruct q as [|a [|b [|g [|h q]]]]; cbn in *; try lia.
        by apply (Hstep [92; 117; a; b; g; h] q); [|apply char_unicode|].
      * destruct (one_of e escapes) eqn:Eo; [|done]. apply existsb_exists in Eo as (e' & Hin & ->%Z.eqb_eq).
        by apply (Hstep [92; e'] q); [|apply char_escape|].
    + apply (Hstep [c] q); [done|apply char_plain; lia|done].
Qed.

(** ** Numbers *)

Lemma digits_split p : exists ds, p = ds ++ digits p /\ digit_text ds.
Proof.
  induction p as [|c p IH]; cbn; [exists []; split; [done|constructor]|].
  destruct (isdigit c) eqn:E; [|exists []; split; [done|constructor]].
  destruct IH as (ds & Hp & Hd). exists (c :: ds). split; [cbn; congruence|by constructor].
Qed.
Lemma digits_skip ds p : digit_text ds -> isdigit (cstr_get p) = false -> digits (ds ++ p) = p.
Proof.
  induction 1 as [|c ds Hc _ IH]; intros Hp; cbn.
  - destruct p as [|c p]; cbn in *; [done|]. by rewrite Hp.
  - rewrite Hc. by apply IH.
Qed.

(** A first digit followed by the digit loop. *)
Lemma digits_one p :
  isdigit (cstr_get p) = true -> exists d ds, p = d :: ds ++ digits p /\ digit_text (d :: ds).
Proof.
  intros H. destruct p as [|d p]; [done|]. cbn in H. destruct (digits_split p) as (ds & Hp & Hd).
  exists d, ds. cbn [digits]. rewrite H. split; [by f_equal|by constructor].
Qed.

Lemma exponent_sound p r :
  exponent p = Some r -> exists expo, p = expo ++ r /\ (expo = [] \/ exists e sg d ds,
    expo = e :: sg ++ d :: ds /\ (e = 101 \/ e = 69) /\ (sg = [] \/ sg = [43] \/ sg = [45])
    /\ digit_text (d :: ds)).
Proof.
  unfold exponent. intros H. destruct ((cstr_get p =? 101) || _) eqn:E.
  2: { injection H as ->. exists []. by split; [|left]. }
  destruct p as [|e p]; [done|]. cbn [tl cstr_get] in *. to_prop.
  destruct ((cstr_get p =? 43) || (cstr_get p =? 45)) eqn:Es.
  - destruct p as [|sg p]; [done|]. cbn [tl cstr_get] in *.
    destruct (isdigit (cstr_get p)) eqn:Ed; [|done]. injection H as <-.
    destruct (digits_one p Ed) as (d & ds & Hp & Hd). exists (e :: [sg] ++ d :: ds). split.
    + cbn. by do 2 f_equal.
    + right. exists e, [sg], d, ds. split_and!; try done. to_prop. destruct Es as [-> | ->]; auto.
  - destruct (isdigit (cstr_get p)) eqn:Ed; [|done]. injection H as <-.
    destruct (digits_one p Ed) as (d & ds & Hp & Hd). exists (e :: [] ++ d :: ds). split.
    + cbn. by f_equal.
    + right. exists e, [], d, ds. split_and!; auto.
Qed.

Lemma fraction_sound p r :
  fraction p = Some r -> exists frac, p = frac ++ r
    /\ (frac = [] \/ exists d ds, frac = 46 :: d :: ds /\ digit_text (d :: ds)).
Proof.
  unfold fraction. intros H. destruct (cstr_get p =? 46) eqn:E.
  2: { injection H as ->. exists []. by split; [|left]. }
  destruct p as [|c p]; [done|]. cbn [tl cstr_get] in *. apply Z.eqb_eq in E as ->.
  destruct (isdigit (cstr_get p)) eqn:Ed; [|done]. injection H as <-.
  destruct (digits_one p Ed) as (d & ds & Hp & Hd). exists (46 :: d :: ds). split.
  - cbn. by f_equal.
  - right. by exists d, ds.
Qed.

Lemma number_sound p r : number_end p = Some r -> exists t, p = t ++ r /\ number_text t.
Proof.
  unfold number_end. intros H. set (p1 := if cstr_get p =? 45 then tl p else p) in H.
  assert (exists sign, p = sign ++ p1 /\ (sign = [] \/ sign = [45])) as (sign & Hp & Hsign).
  { unfold p1. destruct (cstr_get p =? 45) eqn:E; [|exists []; by split; [|left]].
    destruct p as [|c q]; [done|]. apply Z.eqb_eq in E. cbn in E. subst c. exists [45]. by split; [|right]. }
  cbv zeta in H. destruct (if cstr_get p1 =? 48 then _ else _) as [p2|] eqn:E2; [|done].
  destruct (fraction p2) as [p3|] eqn:E3; [|done].
  apply fraction_sound in E3 as (frac & -> & Hfrac). apply exponent_sound in H as (expo & -> & Hexpo).
  assert (exists int, p1 = int ++ frac ++ expo ++ r /\ (int = [48] \/ exists d ds, int = d :: ds
            /\ 49 <= d <= 57 /\ digit_text ds)) as (int & Hp1 & Hint).
  { destruct (Z.eqb_spec (cstr_get p1) 48) as [E|].
    - injection E2 as E2. destruct p1 as [|c q]; [done|]. cbn in E, E2. subst c q. exists [48]. auto.
    - destruct ((cstr_get p1 <? 49) || _) eqn:Er; [done|]. to_prop. injection E2 as E2.
      destruct (digits_one p1) as (d & ds & Hd & Hds).
      { unfold isdigit. zb. done. }
      rewrite E2 in Hd. rewrite Hd in Er. cbn in Er. exists (d :: ds). split; [exact Hd|].
      right. exists d, ds. split_and!; try lia; try done. by inversion_clear Hds. }
  exists (sign ++ int ++ frac ++ expo). split.
  - rewrite Hp, Hp1. by rewrite <- !app_assoc.
  - by exists sign, int, frac, expo.
Qed.

(** What may not follow a number. *)
Definition number_stop (r : bytes) : Prop :=
  isdigit (cstr_get r) = false /\ cstr_get r <> 46 /\ cstr_get r <> 101 /\ cstr_get r <> 69.

Lemma exponent_complete expo r :
  number_stop r ->
  (expo = [] \/ exists e sg d ds, expo = e :: sg ++ d :: ds /\ (e = 101 \/ e = 69)
     /\ (sg = [] \/ sg = [43] \/ sg = [45]) /\ digit_text (d :: ds)) ->
  exponent (expo ++ r) = Some r /\ isdigit (cstr_get (expo ++ r)) = false /\ cstr_get (expo ++ r) <> 46.
Proof.
  intros (Hr1 & Hr2 & Hr3 & Hr4) [->|(e & sg & d & ds & -> & He & Hsg & Hd)].
  - cbn [app]. split_and!; [|done..]. unfold exponent. by zb.
  - cbn [app cstr_get]. split; [|split; [destruct He as [-> | ->]; done|lia]].
    unfold exponent. cbn [cstr_get tl]. inversion_clear Hd as [|? ? Hd0 Hds].
    assert (48 <= d <= 57) by (unfold isdigit in Hd0; to_prop; lia).
    replace ((e =? 101) || (e =? 69)) with true by (destruct He as [-> | ->]; done).
    assert (digits ((d :: ds) ++ r) = r) as Hdig by (apply digits_skip; [by constructor|done]).
    destruct Hsg as [->|[-> | ->]]; cbn [app cstr_get tl]; zb; cbn [cstr_get tl]; rewrite Hd0; f_equal; exact Hdig.
Qed.

Lemma number_complete t r : number_text t -> number_stop r -> number_end (t ++ r) = Some r.
Proof.
  intros (sign & int & frac & expo & -> & Hs & Hi & Hf & He) Hr.
  destruct (exponent_complete expo r Hr He) as (E1 & E2 & E3).
  assert (fraction (frac ++ expo ++ r) = Some (expo ++ r)
          /\ isdigit (cstr_get (frac ++ expo ++ r)) = false) as [F1 F2].
  { destruct Hf as [->|(d & ds & -> & Hd)]; unfold fraction.
    - cbn [app]. by zb.
    - cbn [app cstr_get tl]. zb. inversion_clear Hd as [|? ? Hd0 Hds]. rewrite Hd0. split; [|done]. f_equal.
      apply (digits_skip (d :: ds)); [by constructor|done]. }
  rewrite <- !app_assoc. unfold number_end.
  set (p1 := if cstr_get _ =? 45 then _ else _).
  assert (p1 = int ++ frac ++ expo ++ r) as ->.
  { unfold p1. destruct Hs as [-> | ->]; [|done]. cbn [app].
    destruct Hi as [->|(d & ds & -> & Hd & _)]; [done|]. cbn [app cstr_get]. by zb. }
  cbv zeta. destruct Hi as [->|(d & ds & -> & Hd & Hds)].
  - cbn [app cstr_get tl]. zb. by rewrite F1.
  - cbn [app cstr_get]. zb.
    assert (digits ((d :: ds) ++ frac ++ expo ++ r) = frac ++ expo ++ r) as Hdig.
    { apply digits_skip; [|done]. constructor; [unfold isdigit; by zb|done]. }
    cbn [app] in Hdig. rewrite Hdig. by rewrite F1.
Qed.

(** ** Values *)

Lemma space_head p : is_space (cstr_get (lsp_json_space p)) = false.
Proof. induction p as [|c p IH]; cbn; [done|]. by destruct (is_space c) eqn:E. Qed.

Lemma starts_sound p pre : starts p pre = true -> exists r, p = pre ++ r /\ skipn (length pre) p = r.
Proof.
  unfold starts. destruct (bytes_eqb_spec (firstn (length pre) p) pre) as [E|]; [|done]. intros _.
  exists (skipn (length pre) p). split; [|done]. rewrite <- E at 1. by rewrite take_drop.
Qed.
Lemma starts_app pre r : starts (pre ++ r) pre = true /\ skipn (length pre) (pre ++ r) = r.
Proof.
  unfold starts. rewrite take_app_length, drop_app_length. by destruct (bytes_eqb_spec pre pre).
Qed.
Lemma starts_head p c pre : cstr_get p <> c -> starts p (c :: pre) = false.
Proof.
  intros H. unfold starts. destruct (bytes_eqb_spec (firstn (length (c :: pre)) p) (c :: pre)) as [E|]; [|done].
  destruct p as [|d p]; cbn in *; congruence.
Qed.

Lemma c_string_space p : c_string p -> c_string (lsp_json_space p).
Proof. intros H. destruct (space_split p) as (ws & E & _). rewrite E in H. by apply c_string_app in H as [_ ?]. Qed.
Lemma c_string_tl p : c_string p -> c_string (tl p).
Proof. intros H. destruct p; [done|]. by inversion_clear H. Qed.
Lemma cstr_head p c : cstr_get p = c -> c <> 0 -> p = c :: tl p.
Proof. intros <- H. by destruct p. Qed.

Lemma no_spaces ws t p : is_space (cstr_get p) = false -> p = ws ++ t -> spaces ws -> ws = [].
Proof. intros Hp -> Hws. destruct Hws as [|c ws Hc]; [done|]. cbn in Hp. congruence. Qed.

(** The levels left below [depth]. *)
Definition levels (depth : Z) : nat := Z.to_nat (128 - depth).

(** The induction hypotheses of the two loops. *)
Definition end_sound (f : nat) : Prop :=
  forall p depth r, c_string p -> 0 <= depth -> json_end f p depth = Some r ->
  exists ws t, p = ws ++ t ++ r /\ spaces ws /\ value (levels depth) t /\ depth <= 128
    /\ (cstr_get (lsp_json_space p) = 34 -> json_string t).
Definition members_sound (f : nat) : Prop :=
  forall object p depth r, c_string p -> 0 <= depth -> is_space (cstr_get p) = false ->
  json_members f object (if object then 125 else 93) p depth = Some r ->
  exists t, p = t ++ [if object then 125 else 93] ++ r /\ members (levels (depth + 1)) object t /\ depth + 1 <= 128.

Lemma end_sound_S f : members_sound f -> end_sound (S f).
Proof.
  intros IHm p depth r Hc Hd H. cbn [json_end] in H. cbv zeta in H.
  destruct (space_split p) as (ws & Hp & Hws). pose proof (c_string_space p Hc) as Hcs.
  set (q := lsp_json_space p) in *. destruct (Z.ltb_spec 128 depth); [done|].
  enough (exists t, q = t ++ r /\ value (levels depth) t /\ (cstr_get q = 34 -> json_string t)) as (t & Hq & Ht & Hk).
  { exists ws, t. split_and!; try done. congruence. }
  destruct (Z.eqb_spec (cstr_get q) 34) as [E|Ene].
  { apply cstr_head in E; [|lia]. rewrite E in Hcs. inversion_clear Hcs as [|? ? _ Hct].
    apply string_loop_sound in H as (body & Hb & Hq); [|done].
    assert (json_string ([34] ++ body ++ [34])) as Hj by (by exists body).
    exists ([34] ++ body ++ [34]). split; [|split; [by constructor|done]].
    rewrite E, Hq. cbn. by rewrite <- app_assoc. }
  assert (forall t, q = t ++ r -> value (levels depth) t -> exists t, q = t ++ r /\ value (levels depth) t
            /\ (cstr_get q = 34 -> json_string t)) as Hmk by (intros t ? ?; by exists t).
  destruct ((cstr_get q =? 123) || (cstr_get q =? 91)) eqn:Eo.
  { set (object := cstr_get q =? 123) in *.
    assert (q = (if object then 123 else 91) :: tl q) as Eq.
    { apply cstr_head; [|by destruct object]. unfold object in *.
      destruct (Z.eqb_spec (cstr_get q) 123); [done|]. cbn [orb] in Eo. by apply Z.eqb_eq. }
    destruct (space_split (tl q)) as (ws1 & Hq1 & Hws1).
    pose proof (c_string_space _ (c_string_tl _ Hcs)) as Hc1. pose proof (space_head (tl q)) as Hh1.
    set (q1 := lsp_json_space (tl q)) in *.
    destruct (Z.eqb_spec (cstr_get q1) (if object then 125 else 93)) as [Ec|].
    - injection H as <-. apply cstr_head in Ec; [|by destruct object].
      apply (Hmk ([if object then 123 else 91] ++ ws1 ++ [if object then 125 else 93])); [|by constructor].
      rewrite Eq, Hq1, Ec at 1. cbn. by rewrite <- app_assoc.
    - apply IHm in H as (t & Hq2 & Ht & Hd'); [|done..].
      apply (Hmk ([if object then 123 else 91] ++ ws1 ++ t ++ [if object then 125 else 93])).
      + rewrite Eq, Hq1, Hq2 at 1. cbn. by rewrite <- !app_assoc.
      + replace (levels depth) with (S (levels (depth + 1))) by (unfold levels; lia). by constructor. }
  destruct (starts q (str "true")) eqn:E1; [apply starts_sound in E1 as (x & -> & Hx);
    apply (Hmk (str "true")); [|constructor]; cbn in *; congruence|].
  destruct (starts q (str "false")) eqn:E2; [apply starts_sound in E2 as (x & -> & Hx);
    apply (Hmk (str "false")); [|constructor]; cbn in *; congruence|].
  destruct (starts q (str "null")) eqn:E3; [apply starts_sound in E3 as (x & -> & Hx);
    apply (Hmk (str "null")); [|constructor]; cbn in *; congruence|].
  apply number_sound in H as (t & Hq & Ht). apply (Hmk t); [done|by constructor].
Qed.
(** The first member of a list, and what the loop does after it. *)
Lemma first_member_sound f object close p depth r :
  end_sound f -> c_string p -> 0 <= depth -> is_space (cstr_get p) = false ->
  json_members (S f) object close p depth = Some r ->
  exists t p1, p = t ++ p1 /\ member (levels (depth + 1)) object t /\ c_string p1 /\ depth + 1 <= 128
  /\ (let p := lsp_json_space p1 in
      if cstr_get p =? close then Some (tl p)
      else if negb (cstr_get p =? 44) then None
      else json_members f object close (lsp_json_space (tl p)) depth) = Some r.
Proof.
  intros IHv Hc Hd Hh H. cbn [json_members] in H. cbv zeta in H.
  destruct object.
    - destruct (Z.eqb_spec (cstr_get p) 34) as [E34|]; [|done]. cbn [negb] in H.
      destruct (json_end f p (depth + 1)) as [p2|] eqn:E1; [|done].
      apply IHv in E1 as (ws1 & k & Hp & Hws1 & _ & Hd1 & Hk); [|done|lia].
      pose proof (no_spaces _ _ _ Hh Hp Hws1) as ->. cbn [app] in Hp.
      specialize (Hk ltac:(by rewrite space_stop)).
      assert (c_string p2) as Hc2 by (rewrite Hp in Hc; by apply c_string_app in Hc as [_ ?]).
      destruct (space_split p2) as (ws2 & Hp2 & Hws2). pose proof (c_string_space _ Hc2) as Hcq.
      set (q := lsp_json_space p2) in *.
      destruct (Z.eqb_spec (cstr_get q) 58) as [E58|]; [|done]. cbn [negb] in H. apply cstr_head in E58; [|lia].
      destruct (json_end f (tl q) (depth + 1)) as [p3|] eqn:E3; [|done].
      pose proof (c_string_tl _ Hcq) as Hctl.
      apply IHv in E3 as (ws3 & t & Hq & Hws3 & Ht & _ & _); [|done|lia].
      exists (k ++ ws2 ++ [58] ++ ws3 ++ t), p3. split_and!; [| |by rewrite Hq in Hctl; apply c_string_app in Hctl as [_ [_ ?]%c_string_app]|done|exact H].
      + rewrite Hp, Hp2, E58, Hq. cbn. rewrite <- !app_assoc. cbn. by rewrite <- !app_assoc.
      + by constructor.
    - destruct (json_end f p (depth + 1)) as [p2|] eqn:E1; [|done].
      apply IHv in E1 as (ws1 & t & Hp & Hws1 & Ht & Hd1 & _); [|done|lia].
      pose proof (no_spaces _ _ _ Hh Hp Hws1) as ->. cbn [app] in Hp.
      exists t, p2. split_and!; [done|by constructor| |done|exact H].
      rewrite Hp in Hc. by apply c_string_app in Hc as [_ ?].
Qed.
Lemma members_sound_S f : end_sound f -> members_sound f -> members_sound (S f).
Proof.
  intros IHv IHm object p depth r Hc Hd Hh H. set (close := if object then 125 else 93) in *.
  destruct (first_member_sound _ _ _ _ _ _ IHv Hc Hd Hh H) as (t & p1 & Hp & Ht & Hc1 & Hd1 & H1).
  cbv zeta in H1. destruct (space_split p1) as (ws & Hp1 & Hws).
  pose proof (c_string_space _ Hc1) as Hcs1. set (q := lsp_json_space p1) in *.
  destruct (Z.eqb_spec (cstr_get q) close) as [Ec|].
  + injection H1 as <-. apply cstr_head in Ec; [|unfold close; by destruct object].
    exists (t ++ ws). split_and!; [|by constructor|done].
    rewrite Hp, Hp1, Ec. cbn. by rewrite <- app_assoc.
  + destruct (Z.eqb_spec (cstr_get q) 44) as [Ec|]; [|done]. cbn [negb] in H1. apply cstr_head in Ec; [|lia].
    destruct (space_split (tl q)) as (ws' & Hq & Hws').
    apply IHm in H1 as (rest & Hr & Hrest & _); [|by apply c_string_space, c_string_tl|done|apply space_head].
    exists (t ++ ws ++ [44] ++ ws' ++ rest). split_and!; [|by constructor|done].
    rewrite Hp, Hp1, Ec, Hq, Hr. cbn. rewrite <- !app_assoc. cbn. by rewrite <- !app_assoc.
Qed.
Lemma json_sound f : end_sound f /\ members_sound f.
Proof.
  induction f as [|f [IHv IHm]]; [done|]. split; [by apply end_sound_S | by apply members_sound_S].
Qed.

(** The first byte of a value is not space and decides its form. *)
Definition opens (c : Z) : Prop :=
  c = 34 \/ c = 45 \/ 48 <= c <= 57 \/ c = 116 \/ c = 102 \/ c = 110 \/ c = 123 \/ c = 91.
Lemma opens_no_space c : opens c -> is_space c = false.
Proof. unfold opens, is_space. intros. by zb. Qed.

Lemma json_string_head t : json_string t -> exists r, t = 34 :: r.
Proof. intros (body & _ & ->). by eexists. Qed.
Lemma number_head t : number_text t -> exists c r, t = c :: r /\ (c = 45 \/ 48 <= c <= 57).
Proof.
  intros (sign & int & frac & expo & -> & Hs & Hi & _). destruct Hs as [-> | ->]; [|by eexists; eexists; split; [|left]].
  destruct Hi as [->|(d & ds & -> & Hd & _)]; eexists; eexists; (split; [reflexivity|lia]).
Qed.
Lemma value_head n t : value n t -> exists c r, t = c :: r /\ opens c.
Proof.
  destruct 1 as [n t H|n t H|n|n|n|n object ws H|n object ws t H H']; unfold opens.
  - apply json_string_head in H as [r ->]. eexists _, _. split; [done|auto].
  - apply number_head in H as (c & r & -> & Hc). eexists _, _. split; [done|lia].
  - exists 116, (tl (str "true")). split; [reflexivity|lia].
  - exists 102, (tl (str "false")). split; [reflexivity|lia].
  - exists 110, (tl (str "null")). split; [reflexivity|lia].
  - eexists _, _. split; [done|]. destruct object; lia.
  - eexists _, _. split; [done|]. destruct object; lia.
Qed.
Lemma member_head n object t : member n object t -> exists c r, t = c :: r /\ opens c.
Proof.
  destruct 1 as [n t H|n k ws ws' t Hk]; [by eapply value_head|].
  apply json_string_head in Hk as [r ->]. eexists _, _. split; [done|by left].
Qed.
Lemma members_head n object t : members n object t -> exists c r, t = c :: r /\ opens c.
Proof.
  destruct 1 as [n object t ws H|n object t ws ws' rest H]; apply member_head in H as (c & r & -> & Hc);
    by eexists _, _.
Qed.

(** What follows a value inside a container. *)
Lemma stop_after ws c r : spaces ws -> In c [44; 58; 125; 93] -> number_stop (ws ++ c :: r).
Proof.
  intros Hws Hc. assert (cstr_get (ws ++ c :: r) = c \/ is_space (cstr_get (ws ++ c :: r)) = true) as H
    by (destruct Hws; cbn; auto).
  unfold number_stop. destruct H as [->|H].
  - cbn in Hc. unfold isdigit. split; [|lia].
    destruct Hc as [<-|[<-|[<-|[<-|[]]]]]; done.
  - unfold is_space in H. unfold isdigit. to_prop. split; [|lia]. destruct (_ <=? _) eqn:E1; [|done].
    destruct (_ <=? 57) eqn:E2; [|done]. to_prop. lia.
Qed.

Lemma opens_skip ws c r : spaces ws -> opens c -> lsp_json_space (ws ++ c :: r) = c :: r.
Proof. intros Hws Hc. rewrite space_skip by done. apply space_stop. by apply opens_no_space. Qed.

Lemma json_end_string f ws t r depth :
  spaces ws -> json_string t -> c_string t -> depth <= 128 -> (0 < f)%nat ->
  json_end f (ws ++ t ++ r) depth = Some r.
Proof.
  intros Hws (body & Hb & ->) Hc Hd Hf. destruct f as [|f]; [lia|]. cbn [json_end].
  rewrite <- !app_assoc. cbn [app]. rewrite opens_skip by (done || by left). cbv zeta. zb.
  cbn [cstr_get tl Z.eqb Pos.eqb]. apply string_loop_complete; [done| |].
  - inversion_clear Hc as [|? ? _ Hc']. by apply c_string_app in Hc' as [? _].
  - cbn. rewrite length_app. cbn. lia.
Qed.

(** What the functions return on the grammar's texts, given enough fuel. *)
Definition end_complete (n : nat) (t : bytes) : Prop :=
  forall f ws r depth, spaces ws -> c_string t -> 0 <= depth -> Z.of_nat n + depth <= 128 -> number_stop r ->
  (2 * length t < f)%nat -> json_end f (ws ++ t ++ r) depth = Some r.
Definition members_complete (n : nat) (object : bool) (t : bytes) : Prop :=
  forall f r depth, c_string t -> 0 <= depth -> Z.of_nat n + (depth + 1) <= 128 -> (2 * length t + 1 < f)%nat ->
  json_members f object (if object then 125 else 93) (t ++ (if object then 125 else 93) :: r) depth = Some r.
Definition member_complete (n : nat) (object : bool) (t : bytes) : Prop :=
  forall f r depth, c_string t -> 0 <= depth -> Z.of_nat n + (depth + 1) <= 128 -> (2 * length t < f)%nat -> number_stop r ->
  (let* p := (if object then
        if negb (cstr_get (t ++ r) =? 34) then None
        else
          let* p := json_end f (t ++ r) (depth + 1) in
          let p := lsp_json_space p in
          if negb (cstr_get p =? 58) then None else Some (tl p)
      else Some (t ++ r)) in
   json_end f p (depth + 1)) = Some r.

Lemma number_end_complete n t : number_text t -> end_complete n t.
Proof.
  intros Ht f ws r depth Hws Hc Hd Hn Hr Hf. destruct f as [|f]; [lia|]. cbn [json_end].
  destruct (number_head t Ht) as (c & q & Et & Hcc).
  replace (lsp_json_space (ws ++ t ++ r)) with (t ++ r).
  2: { rewrite Et. cbn [app]. symmetry. apply opens_skip; [done|unfold opens; lia]. }
  cbv zeta. assert (cstr_get (t ++ r) = c) as Hh by (by rewrite Et). rewrite Hh. zb.
  rewrite (starts_head _ 116 (tl (str "true"))), (starts_head _ 102 (tl (str "false"))),
    (starts_head _ 110 (tl (str "null"))) by lia.
  by apply number_complete.
Qed.
(** The three words. *)
Lemma word_complete n c w :
  In (c :: w) [str "true"; str "false"; str "null"] -> end_complete n (c :: w).
Proof.
  intros Hw f ws r depth Hws _ Hd Hn Hr Hf. destruct f as [|f]; [lia|]. cbn [json_end].
  cbv in Hw. assert (Hc : opens c) by (unfold opens; destruct Hw as [[= <- _]|[[= <- _]|[[= <- _]|[]]]]; lia).
  replace (lsp_json_space (ws ++ (c :: w) ++ r)) with ((c :: w) ++ r) by (symmetry; by apply opens_skip).
  cbv zeta. destruct Hw as [[= <- <-]|[[= <- <-]|[[= <- <-]|[]]]]; by zb.
Qed.
Lemma empty_complete n (object : bool) ws' :
  spaces ws' -> end_complete n ([if object then 123 else 91] ++ ws' ++ [if object then 125 else 93]).
Proof.
  intros Hws' f ws r depth Hws Hc Hd Hn Hr Hf. destruct f as [|f]; [lia|]. cbn [json_end].
  rewrite <- !app_assoc. cbn [app].
  rewrite opens_skip by (try done; unfold opens; destruct object; lia). cbv zeta. cbn [cstr_get tl].
  destruct object; cbn [app]; zb; rewrite space_skip by done; rewrite space_stop by done; done.
Qed.
Lemma container_complete n object ws' t :
  spaces ws' -> members n object t -> members_complete n object t ->
  end_complete (S n) ([if object then 123 else 91] ++ ws' ++ t ++ [if object then 125 else 93]).
Proof.
  intros Hws' Ht IH f ws r depth Hws Hc Hd Hn Hr Hf. destruct f as [|f]; [lia|].
  cbn [json_end]. rewrite <- !app_assoc. cbn [app].
  rewrite opens_skip by (try done; unfold opens; destruct object; lia). cbv zeta. cbn [cstr_get tl].
  inversion_clear Hc as [|? ? _ Hc']. apply c_string_app in Hc' as [_ Hc']. apply c_string_app in Hc' as [Hc' _].
  destruct (members_head _ _ _ Ht) as (c & q & Et & Hcc).
  assert (lsp_json_space (ws' ++ t ++ (if object then 125 else 93) :: r)
          = t ++ (if object then 125 else 93) :: r) as Hsp.
  { rewrite Et. cbn [app]. by apply opens_skip. }
  specialize (IH f r depth Hc' Hd ltac:(lia)). rewrite !length_app in Hf. cbn in Hf.
  specialize (IH ltac:(lia)).
  assert (cstr_get (t ++ (if object then 125 else 93) :: r) = c) as Hh by (by rewrite Et).
  unfold opens in Hcc.
  destruct object; zb; rewrite Hsp, Hh; zb; exact IH.
Qed.
Lemma last_member_complete n object t ws :
  member_complete n object t -> spaces ws -> members_complete n object (t ++ ws).
Proof.
  intros IH Hws f r depth Hc Hd Hn Hf. destruct f as [|f]; [lia|]. cbn [json_members].
  rewrite <- app_assoc. apply c_string_app in Hc as [Hc _]. rewrite length_app in Hf.
  set (close := if object then 125 else 93).
  assert (number_stop (ws ++ close :: r)) as Hstop
    by (apply stop_after; [done|unfold close; destruct object; cbn; auto]).
  specialize (IH f (ws ++ close :: r) depth Hc Hd Hn ltac:(lia) Hstop).
  assert (is_space close = false) as Hcl by (unfold close; by destruct object). clearbody close.
  destruct (if object then _ else _) as [p1|] eqn:E1; [|done]. rewrite IH. cbv zeta.
  rewrite space_skip, space_stop by done. cbn [cstr_get tl].
  by rewrite Z.eqb_refl.
Qed.
Lemma more_members_complete n object t ws ws' rest :
  member_complete n object t -> spaces ws -> spaces ws' -> members n object rest -> members_complete n object rest ->
  members_complete n object (t ++ ws ++ [44] ++ ws' ++ rest).
Proof.
  intros IHt Hws Hws' Hrest IHr f r depth Hc Hd Hn Hf.
  destruct f as [|f]; [lia|]. cbn [json_members].
  rewrite !length_app in Hf. cbn in Hf.
  apply c_string_app in Hc as [Hct Hc]. apply c_string_app in Hc as [_ Hc].
  apply c_string_app in Hc as [_ Hc]. apply c_string_app in Hc as [_ Hcr].
  unfold members_complete in IHr.
  set (close := if object then 125 else 93) in *. rewrite <- !app_assoc.
  assert (number_stop (ws ++ [44] ++ ws' ++ rest ++ close :: r)) as Hstop
    by (apply stop_after; [done|cbn; auto]).
  specialize (IHt f _ depth Hct Hd Hn ltac:(lia) Hstop).
  assert ((44 =? close) = false) as Hcl by (unfold close; by destruct object).
  specialize (fun f r depth => IHr f r depth Hcr). clearbody close.
  destruct (if object then _ else _) as [p1|] eqn:E1; [|done]. rewrite IHt. cbv zeta.
  rewrite space_skip, space_stop by done. cbn [cstr_get tl app].
  rewrite Hcl. cbn [Z.eqb Pos.eqb negb].
  destruct (members_head _ _ _ Hrest) as (c & q & Er & Hcc).
  assert (lsp_json_space (ws' ++ rest ++ close :: r) = rest ++ close :: r) as ->
    by (rewrite Er; cbn [app]; by apply opens_skip).
  apply IHr; [done|done|lia].
Qed.
Lemma pair_complete n k ws ws' t :
  json_string k -> spaces ws -> spaces ws' -> end_complete n t -> member_complete n true (k ++ ws ++ [58] ++ ws' ++ t).
Proof.
  intros Hk Hws Hws' IH f r depth Hc Hd Hn Hf Hr.
  apply c_string_app in Hc as [Hck Hc]. apply c_string_app in Hc as [_ Hc].
  apply c_string_app in Hc as [_ Hc]. apply c_string_app in Hc as [_ Hct].
  rewrite !length_app in Hf. cbn in Hf. rewrite <- !app_assoc.
  destruct (json_string_head k Hk) as [q Eq].
  assert (cstr_get (k ++ ws ++ [58] ++ ws' ++ t ++ r) = 34) as -> by (by rewrite Eq).
  cbn [Z.eqb Pos.eqb negb].
  pose proof (json_end_string f [] k (ws ++ [58] ++ ws' ++ t ++ r) (depth + 1)) as E.
  cbn [app] in E |- *. rewrite E by (try done; try lia; constructor).
  cbv zeta. rewrite space_skip, space_stop by done. cbn [cstr_get tl Z.eqb Pos.eqb negb].
  apply IH; try done; lia.
Qed.
Lemma json_complete :
  (forall n t, value n t -> end_complete n t)
  /\ (forall n object t, members n object t -> members_complete n object t)
  /\ (forall n object t, member n object t -> member_complete n object t).
Proof.
  apply json_ind.
  - intros n t Ht f ws r depth Hws Hc Hd Hn Hr Hf. apply json_end_string; try done; lia.
  - apply number_end_complete.
  - intros n. apply word_complete. cbn; auto.
  - intros n. apply word_complete. cbn; auto.
  - intros n. apply word_complete. cbn; auto.
  - apply empty_complete.
  - intros n object ws t Hws Ht IH. by apply container_complete.
  - intros n object t ws _ IH Hws. by apply last_member_complete.
  - intros n object t ws ws' rest _ IH Hws Hws' Hr IHr. by apply more_members_complete.
  - intros n t _ IH f r depth Hc Hd Hn Hf Hr. apply (IH f [] r (depth + 1)); try done; try lia. constructor.
  - intros n k ws ws' t Hk Hws Hws' _ IH. by apply pair_complete.
Qed.

Lemma stop_spaces ws : spaces ws -> number_stop ws.
Proof.
  intros Hws. destruct Hws as [|c ws Hc Hws]; [split; [done|cbn; lia]|].
  unfold number_stop, is_space, isdigit in *. cbn [cstr_get]. to_prop.
  destruct Hc as [[[-> | ->] | ->] | ->]; (split; [done|lia]).
Qed.

(** C18: [lsp_json_valid] accepts exactly the JSON texts: one value, surrounded
    by space, with well-formed strings and numbers and at most 128 nested
    levels.  In particular the recursion and the loops always finish. *)
Theorem json_valid_iff s : c_string s -> lsp_json_valid s = true <-> json_text s.
Proof.
  intros Hc. unfold lsp_json_valid, lsp_json_end. split.
  - destruct (json_end _ s 0) as [e|] eqn:E; [|done]. intros H. apply Z.eqb_eq in H.
    apply (proj1 (json_sound _)) in E as (ws & t & Hs & Hws & Ht & _ & _); [|done|lia].
    destruct (space_split e) as (ws' & He & Hws').
    assert (c_string (lsp_json_space e)) as Hce.
    { apply c_string_space. rewrite Hs in Hc. apply c_string_app in Hc as [_ Hc]. by apply c_string_app in Hc as [_ ?]. }
    assert (lsp_json_space e = []) as Hnil.
    { destruct (lsp_json_space e) as [|c q]; [done|]. cbn in H. inversion_clear Hce. lia. }
    rewrite Hnil, app_nil_r in He. subst e. by exists ws, t, ws'.
  - intros (ws & v & ws' & -> & Hws & Hv & Hws').
    apply c_string_app in Hc as [_ Hc]. apply c_string_app in Hc as [Hcv _].
    rewrite (proj1 json_complete 128%nat v Hv); try done; try lia.
    + by rewrite space_all.
    + by apply stop_spaces.
    + rewrite !length_app. lia.
Qed.

Definition sample_json : bytes := str "{" ++ [34] ++ str "id" ++ [34] ++ str ": [1, -2.5e3, true]} ".

Lemma json_valid_iff_witness : json_text sample_json.
Proof.
  apply (json_valid_iff sample_json); [|vm_compute; reflexivity].
  apply (bool_decide_unpack _). vm_compute. exact I.
Defined.

(** ** Members *)

Lemma lsp_json_end_sound p r :
  c_string p -> is_space (cstr_get p) = false -> lsp_json_end p 0 = Some r ->
  exists t, p = t ++ r /\ value 128 t /\ c_string r /\ (cstr_get p = 34 -> json_string t).
Proof.
  intros Hc Hh H. apply (proj1 (json_sound _)) in H as (ws & t & Hp & Hws & Ht & _ & Hk); [|done|lia].
  pose proof (no_spaces _ _ _ Hh Hp Hws) as ->. cbn [app] in Hp. exists t. split_and!; try done.
  - rewrite Hp in Hc. by apply c_string_app in Hc as [_ ?].
  - intros E. apply Hk. by rewrite space_stop.
Qed.

Lemma member_loop_sound f key : forall p q,
  c_string p -> is_space (cstr_get p) = false -> member_loop f p key = Some q ->
  exists before k ws ws' after,
    p = before ++ k ++ after /\ after = ws ++ [58] ++ ws' ++ q /\ json_string k /\ spaces ws /\ spaces ws'
    /\ lsp_json_key_equal (k ++ after) after key = true.
Proof.
  induction f as [|f IH]; intros p q Hc Hh H; [done|]. cbn [member_loop] in H.
  destruct (Z.eqb_spec (cstr_get p) 34) as [E34|]; [|done].
  destruct (lsp_json_end p 0) as [e|] eqn:E1; [|done].
  apply lsp_json_end_sound in E1 as (k & Hp & _ & Hce & Hk); [|done..]. specialize (Hk E34). cbv zeta in H.
  destruct (space_split e) as (ws & He & Hws). pose proof (c_string_space _ Hce) as Hcq.
  set (x := lsp_json_space e) in *.
  destruct (Z.eqb_spec (cstr_get x) 58) as [E58|]; [|done]. cbn [negb] in H. apply cstr_head in E58; [|lia].
  destruct (space_split (tl x)) as (ws' & Hx & Hws'). pose proof (space_head (tl x)) as Hhx.
  pose proof (c_string_space _ (c_string_tl _ Hcq)) as Hcx. set (y := lsp_json_space (tl x)) in *.
  destruct (lsp_json_key_equal p e key) eqn:Ek.
  - injection H as <-. exists [], k, ws, ws', e. split_and!; try done.
    + rewrite He, E58, Hx. done.
    + by rewrite <- Hp.
  - destruct (lsp_json_end y 0) as [z|] eqn:E2; [|done].
    apply lsp_json_end_sound in E2 as (v & Hy & _ & Hcz & _); [|done..].
    destruct (space_split z) as (ws2 & Hz & _). pose proof (c_string_space _ Hcz) as Hcw.
    set (w := lsp_json_space z) in *.
    destruct (Z.eqb_spec (cstr_get w) 44) as [E44|]; [|done]. cbn [negb] in H. apply cstr_head in E44; [|lia].
    destruct (space_split (tl w)) as (ws3 & Hw & _).
    apply IH in H as (before & k' & ws4 & ws5 & after & Hr & H); [|by apply c_string_space, c_string_tl|apply space_head].
    exists (k ++ ws ++ [58] ++ ws' ++ v ++ ws2 ++ [44] ++ ws3 ++ before), k', ws4, ws5, after.
    split; [|exact H]. rewrite Hp, He, E58, Hx, Hy, Hz, E44, Hw, Hr. repeat (cbn; rewrite <- ?app_assoc). done.
Qed.

(** A member that is found is the value of a key of the object: the result
    stands after a well-formed key string, which equals the requested key, and
    its colon. *)
Theorem json_member_sound p key q :
  c_string p -> lsp_json_member p key = Some q ->
  exists before k ws ws' after,
    p = before ++ k ++ after /\ after = ws ++ [58] ++ ws' ++ q /\ json_string k /\ spaces ws /\ spaces ws'
    /\ lsp_json_key_equal (k ++ after) after key = true.
Proof.
  intros Hc H. unfold lsp_json_member in H. cbv zeta in H. destruct (space_split p) as (ws0 & Hp & _).
  pose proof (c_string_space _ Hc) as Hcs. set (x := lsp_json_space p) in *.
  destruct (Z.eqb_spec (cstr_get x) 123) as [E|]; [|done]. cbn [negb] in H. apply cstr_head in E; [|lia].
  destruct (space_split (tl x)) as (ws1 & Hx & _).
  apply member_loop_sound in H as (before & k & ws & ws' & after & Hr & H);
    [|by apply c_string_space, c_string_tl|apply space_head].
  exists (ws0 ++ [123] ++ ws1 ++ before), k, ws, ws', after. split; [|exact H].
  rewrite Hp, E, Hx, Hr. repeat (cbn; rewrite <- ?app_assoc). done.
Qed.

Definition quoted (s : bytes) : bytes := [34] ++ s ++ [34].

Lemma json_member_sound_witness :
  lsp_json_member sample_json (quoted (str "id")) = Some (str "[1, -2.5e3, true]} ")
  /\ exists before k ws ws' after,
       sample_json = before ++ k ++ after /\ after = ws ++ [58] ++ ws' ++ str "[1, -2.5e3, true]} "
       /\ json_string k /\ spaces ws /\ spaces ws'
       /\ lsp_json_key_equal (k ++ after) after (quoted (str "id")) = true.
Proof.
  split; [vm_compute; reflexivity|].
  apply (json_member_sound sample_json); [|vm_compute; reflexivity].
  apply (bool_decide_unpack _). vm_compute. exact I.
Defined.

(** Keys are compared with their escapes undone only for \u: the letter
    escapes compare as the letter itself, so the object whose key is
    "me<TAB>hod" (written with the escape for a tab) has a member "method". *)
Theorem json_key_letter_escapes :
  let text := str "{" ++ quoted (str "me\thod") ++ str ": 1}" in
  lsp_json_valid text = true
  /\ lsp_json_member text (quoted (str "method")) = Some (str "1}").
Proof. split; vm_compute; reflexivity. Qed.
