(* ===== verification/Lexer.v ===== *)
(** The lexer of the bounded parser (src/src/parser.c, lines 5 to 196).

    A parse is modelled by a state [St]: the fields of the C struct [Parser]
    that its copies own, and what all copies of one parse share through
    pointers (the tree, the work budget, the data of the work callback).
    The source text, the options and the allocator do not change during a
    parse and are the fields of the class [Source].

    Operations are functions [St -> option (A * St)]: [None] is an access out
    of the bounds of the text or of the tree, which C leaves undefined, or a
    loop that has not ended. The theorems show that neither happens. *)

From S2P Require Import Prelude.

(** ** Data *)

Definition NONE : Z := UINT32_MAX.
Definition MAX_DEPTH : Z := 1024.

Inductive TokenKind := END | NAME | NUMBER | STRING | CHARACTER | PUNCT | BAD.
#[export] Instance TokenKind_eq_dec : EqDecision TokenKind.
Proof. solve_decision. Defined.

Record Token := mkToken { start : Z; end_ : Z; kind : TokenKind }.
(** The zero-initialised token, [(Token){0}]. *)
Definition token0 : Token := mkToken 0 0 END.

Inductive ExpError := EXP_OK | EXP_SYNTAX_ERROR | EXP_ALLOCATION_ERROR | EXP_LIMIT_ERROR | EXP_CANCELLED.
#[export] Instance ExpError_eq_dec : EqDecision ExpError.
Proof. solve_decision. Defined.

Record ExpNode := mkNode {
  n_start : Z; n_end : Z; n_first : Z; n_next : Z; n_operator_start : Z; n_parent : Z;
  n_kind : Z; n_operator_length : Z; n_flags : Z; n_field : Z }.

(** [nodes] holds the entries below [count]; what an abandoned speculation
    leaves above it is dropped, so that reading it is an access out of
    bounds. *)
Record ExpTree := mkTree {
  nodes : list ExpNode; capacity : Z; root : Z;
  error_offset : Z; error : option string; error_expected : option string; error_kind : ExpError }.
Definition count (t : ExpTree) : Z := Z.of_nat (length (nodes t)).

Record ExpOptions (W : Type) := mkOptions {
  max_work : Z; max_depth : Z; work : option (W -> Z -> bool * W) }.
Arguments max_work {W} _.
Arguments max_depth {W} _.
Arguments work {W} _.

(** What a parse reads and does not change: [W] is the state the work
    callback and the allocator keep outside the parser. *)
Class Source := {
  W : Type;
  text : bytes;
  options : option (ExpOptions W);
  realloc : W -> Z -> bool * W }.

Record Parser := mkParser {
  offset : Z; depth : Z; block_brace : Z; scan_next : Z; token : Token }.

Section Lexer.
Context {S : Source}.

Record St := mkSt { parser : Parser; tree : ExpTree; work_remaining : Z; world : W }.

Definition len : Z := Z.of_nat (length text).

(** ** The state monad *)

Definition M (A : Type) : Type := St -> option (A * St).
Definition ret {A} (a : A) : M A := fun s => Some (a, s).
Definition bind {A B} (m : M A) (k : A -> M B) : M B :=
  fun s => match m s with Some (a, s') => k a s' | None => None end.
Definition undefined {A} : M A := fun _ => None.
Definition lift {A} (o : option A) : M A := fun s => match o with Some a => Some (a, s) | None => None end.
Definition gets {A} (f : St -> A) : M A := fun s => Some (f s, s).
Definition modify (f : St -> St) : M unit := fun s => Some (tt, f s).

End Lexer.

Notation "'let!' x ':=' c 'in' k" := (bind c (fun x => k))
  (at level 10, x pattern, c at level 100, k at level 200,
   format "'let!'  x  ':='  c  'in' '//' k") : dyn_scope.
Notation "c ';;' k" := (bind c (fun _ => k))
  (at level 100, k at level 200, right associativity, format "c  ';;' '//' k") : dyn_scope.

Section Operations.
Context {S : Source}.

(** ** Field updates *)

Definition with_parser (f : Parser -> Parser) (s : St) : St :=
  mkSt (f (parser s)) (tree s) (work_remaining s) (world s).
Definition with_tree (f : ExpTree -> ExpTree) (s : St) : St :=
  mkSt (parser s) (f (tree s)) (work_remaining s) (world s).
Definition with_work (w : Z) (s : St) : St := mkSt (parser s) (tree s) w (world s).
Definition with_world (w : W) (s : St) : St := mkSt (parser s) (tree s) (work_remaining s) w.
Definition set_scan_next (v : Z) (p : Parser) : Parser :=
  mkParser (offset p) (depth p) (block_brace p) v (token p).
Definition set_token (t : Token) (p : Parser) : Parser :=
  mkParser (offset p) (depth p) (block_brace p) (scan_next p) t.
Definition set_offset (v : Z) (p : Parser) : Parser :=
  mkParser v (depth p) (block_brace p) (scan_next p) (token p).
Definition set_error (e : option string) (expected : option string) (k : ExpError) (o : Z) (t : ExpTree) : ExpTree :=
  mkTree (nodes t) (capacity t) (root t) o e expected k.
Definition set_error_kind (k : ExpError) (t : ExpTree) : ExpTree :=
  mkTree (nodes t) (capacity t) (root t) (error_offset t) (error t) (error_expected t) k.

Definition failed (s : St) : bool := match error (tree s) with Some _ => true | None => false end.
Definition tok (s : St) : Token := token (parser s).

(** ** Character classes *)

Definition alpha (c : Z) : bool :=
  ((97 <=? c) && (c <=? 122)) || ((65 <=? c) && (c <=? 90)) || (c =? 95).
Definition digit (c : Z) : bool := (48 <=? c) && (c <=? 57).
Definition hex (c : Z) : bool := digit c || ((97 <=? c) && (c <=? 102)) || ((65 <=? c) && (c <=? 70)).
Definition space (c : Z) : bool :=
  (c =? 32) || (c =? 9) || (c =? 10) || (c =? 13) || (c =? 12) || (c =? 11).

(** ** Errors and the work budget *)

Definition fail_kind (message : string) : ExpError :=
  if String.eqb message "out of memory" then EXP_ALLOCATION_ERROR
  else if String.eqb message "tree too large"
          || match String.index 0 "limit exceeded" message with Some _ => true | None => false end
  then EXP_LIMIT_ERROR else EXP_SYNTAX_ERROR.
(** [fail]: the first error of a parse is the one it reports. *)
Definition fail_ (o : Z) (message : string) : M unit :=
  modify (fun s => if failed s then s
                   else with_tree (set_error (Some message) None (fail_kind message) o) s).
Definition propagate_error (from : ExpTree) : M unit :=
  modify (fun s => if failed s then s else
    match error from with
    | None => s
    | Some e => with_tree (set_error (Some e) (error_expected from) (error_kind from) (error_offset from)) s
    end).

(** The work callback of the options, if there is one. *)
Definition call_work (units : Z) : M bool := fun s =>
  match options with
  | Some o => match work o with
              | Some f => let '(ok, w) := f (world s) units in Some (ok, with_world w s)
              | None => Some (true, s)
              end
  | None => Some (true, s)
  end.

(** [charge]: both entry points of the parser set [work_remaining]. *)
Definition charge (units : Z) (o : Z) : M bool :=
  let! stop := gets failed in
  if stop then ret false
  else
    let! budget := gets work_remaining in
    if budget <? units then
      modify (with_work 0);; fail_ o "parse work limit exceeded";; ret false
    else
      modify (with_work (budget - units));;
      let! ok := call_work units in
      if ok then ret true
      else
        fail_ o "analysis work budget exceeded or cancelled";;
        modify (with_tree (set_error_kind EXP_CANCELLED));; ret false.

Definition scan_byte (o : Z) : M bool :=
  let! next := gets (fun s => scan_next (parser s)) in
  if (o <? 1024) || (o <? next) then ret true
  else modify (with_parser (set_scan_next (o + 1024)));; charge 1024 o.

Definition depth_limit : Z :=
  let requested := match options with Some o => max_depth o | None => 0 end in
  if negb (requested =? 0) && (requested <? MAX_DEPTH) then requested else MAX_DEPTH.

(** ** Reading the text *)

Definition rd (i : Z) : option Z := get_at text i.
Definition at_ (o : Z) (s : bytes) : bool :=
  let n := Z.of_nat (length s) in
  (o <=? len) && (n <=? len - o) && bytes_eqb (take (Z.to_nat n) (drop (Z.to_nat o) text)) s.
Definition token_is (t : Token) (s : bytes) : bool :=
  (Z.of_nat (length s) =? end_ t - start t) && at_ (start t) s.
Definition is_ (s : bytes) : M bool := gets (fun st => token_is (tok st) s).

(** [escape]: the index after the escape whose letter is at [i], with whether
    it is one; on failure, the index reached. *)
Fixpoint hex_run (fuel : nat) (first i : Z) : option Z :=
  match fuel with
  | O => None
  | Datatypes.S f =>
      if (i <? len) && (i - first <=? 6) then
        let* c := rd i in
        if hex c then hex_run f first (i + 1) else Some i
      else Some i
  end.
Definition escape (i : Z) : option (bool * Z) :=
  if i =? len then Some (false, i)
  else
    let* c := rd i in
    let i := i + 1 in
    if one_of c [110; 114; 116; 48; 92; 34; 39] then Some (true, i)
    else if c =? 120 then
      if len - i <? 2 then Some (false, i)
      else
        let* a := rd i in
        if negb (hex a) then Some (false, i)
        else
          let* b := rd (i + 1) in
          if negb (hex b) then Some (false, i) else Some (true, i + 2)
    else if (c =? 117) && (i <? len) then
      let* b := rd i in
      if b =? 123 then
        let first := i + 1 in
        let* i := hex_run 8 first first in
        if (i =? first) || (i - first >? 6) || (i =? len) then Some (false, i)
        else
          let* c := rd i in
          if negb (c =? 125) then Some (false, i) else Some (true, i + 1)
      else Some (false, i)
    else Some (false, i).

(** ** Scanning

    A scan ends with an index, or with [None] when [scan_byte] fails: [lex]
    then returns at once and leaves the token and the offset as they are. *)

Definition ebind {A B} (m : M (option A)) (k : A -> M (option B)) : M (option B) :=
  let! r := m in match r with Some a => k a | None => ret None end.

(** [while (i < p->length && go(i)) { if (!scan_byte(p, i)) return; ++i; }],
    with [go] a test of the bytes from [i] on. *)
Fixpoint scan_while (fuel : nat) (go : Z -> option bool) (i : Z) : M (option Z) :=
  match fuel with
  | O => undefined
  | Datatypes.S f =>
      if i <? len then
        let! c := lift (go i) in
        if c then
          let! ok := scan_byte i in
          if ok then scan_while f go (i + 1) else ret None
        else ret (Some i)
      else ret (Some i)
  end.
Definition fuel_at (i : Z) : nat := Datatypes.S (Z.to_nat (len - i)).
Definition scan (go : Z -> option bool) (i : Z) : M (option Z) := scan_while (fuel_at i) go i.
Definition byte_test (f : Z -> bool) (i : Z) : option bool := let* c := rd i in Some (f c).

End Operations.

Notation "'let?!' x ':=' c 'in' k" := (ebind c (fun x => k))
  (at level 10, x pattern, c at level 100, k at level 200,
   format "'let?!'  x  ':='  c  'in' '//' k") : dyn_scope.

Section Lex.
Context {S : Source}.

(** The white space before a token: whether a vertical tab follows the last
    comment decides [external_space]. *)
Fixpoint scan_space (fuel : nat) (i : Z) (external_space : bool) : M (option (Z * bool)) :=
  match fuel with
  | O => undefined
  | Datatypes.S f =>
      if i <? len then
        let! c := lift (rd i) in
        if space c then
          let! ok := scan_byte i in
          if ok then scan_space f (i + 1) (if c =? 11 then false else external_space) else ret None
        else ret (Some (i, external_space))
      else ret (Some (i, external_space))
  end.

(** The [for (;;)] loop over white space and comments. *)
Fixpoint skip_trivia (fuel : nat) (i : Z) (external_space : bool) : M (option (Z * bool)) :=
  match fuel with
  | O => undefined
  | Datatypes.S f =>
      let?! (i, external_space) := scan_space (fuel_at i) i external_space in
      if at_ i (str "//") then
        let?! i := scan (byte_test (fun c => negb (c =? 10))) (i + 2) in
        skip_trivia f i true
      else if at_ i (str "/*") then
        let first := i in
        let?! i := scan (fun i => Some (negb (at_ i (str "*/")))) (i + 2) in
        if i =? len then fail_ first "unterminated comment";; ret (Some (i, external_space))
        else skip_trivia f (i + 2) true
      else ret (Some (i, external_space))
  end.

Definition alnum (c : Z) : bool := alpha c || digit c.
Definition digit_ (c : Z) : bool := digit c || (c =? 95).
Definition base_digit (base : Z) (c : Z) : bool :=
  (c =? 95) || (if base =? 120 then hex c else (48 <=? c) && (c <=? (if base =? 98 then 49 else 55))).

(** [i < p->length && f(p->text[i])]. *)
Definition peek (f : Z -> bool) (i : Z) : option bool :=
  if i <? len then let* c := rd i in Some (f c) else Some false.

Definition scan_fraction (first i : Z) (external_space : bool) : M (option (Z * bool)) :=
  let! dot := lift (peek (Z.eqb 46) i) in
  if dot && negb (at_ i (str "..")) then
    let i := i + 1 in
    let after := i in
    let! d := lift (peek digit i) in
    let?! i := (if d then scan (byte_test digit_) (i + 1) else ret (Some i)) in
    let trailing_dot := after =? i in
    (if trailing_dot && negb external_space then fail_ first "unsupported trailing float whitespace" else ret tt);;
    ret (Some (i, trailing_dot))
  else ret (Some (i, false)).
Definition scan_exponent (i : Z) : M (option Z) :=
  let! e := lift (peek (fun c => (c =? 101) || (c =? 69)) i) in
  if e then
    let exponent := i in
    let i := i + 1 in
    let! sign := lift (peek (fun c => (c =? 43) || (c =? 45)) i) in
    let i := if sign then i + 1 else i in
    let! d := lift (peek digit i) in
    if negb d then ret (Some exponent) else scan (byte_test digit_) (i + 1)
  else ret (Some i).
Definition scan_number (first : Z) (external_space : bool) : M (option Z) :=
  let i := first in
  if at_ i (str "0x") || at_ i (str "0b") || at_ i (str "0o") then
    let! base := lift (rd (i + 1)) in
    let i := i + 2 in
    let digits := i in
    let?! i := scan (byte_test (base_digit base)) i in
    (if i =? digits then fail_ first "missing base digits" else ret tt);;
    ret (Some i)
  else
    let! c := lift (rd i) in
    let leading_dot := c =? 46 in
    let i := if leading_dot then i + 1 else i in
    let?! i := scan (byte_test digit_) i in
    let?! (i, trailing_dot) := (if negb leading_dot then scan_fraction first i external_space else ret (Some (i, false))) in
    if negb trailing_dot then scan_exponent i else ret (Some i).

(** One UTF-8 sequence of a literal: [Some i] continues the literal at [i],
    [None] is the [break]. *)
Definition utf8_extra (c : Z) : Z :=
  if c <? 0x80 then 0 else if (0xc2 <=? c) && (c <=? 0xdf) then 1
  else if (0xe0 <=? c) && (c <=? 0xef) then 2 else if (0xf0 <=? c) && (c <=? 0xf4) then 3 else 4.
Fixpoint continuation (n : nat) (i : Z) : M Z :=
  match n with
  | O => ret i
  | Datatypes.S n' =>
      let! c := lift (rd i) in
      (if negb (Z.land c 0xc0 =? 0x80) then fail_ i "invalid UTF-8" else ret tt);;
      continuation n' (i + 1)
  end.
Definition scan_utf8 (i : Z) : M (bool * Z) :=
  let! c := lift (rd i) in
  let i := i + 1 in
  let n := utf8_extra c in
  if (n =? 4) || (len - i <? n) then fail_ (i - 1) "invalid UTF-8";; ret (false, i)
  else
    (if n =? 0 then ret tt
     else
       let! b := lift (rd i) in
       if ((c =? 0xe0) && (b <? 0xa0)) || ((c =? 0xed) && (0xa0 <=? b))
          || ((c =? 0xf0) && (b <? 0x90)) || ((c =? 0xf4) && (0x90 <=? b))
       then fail_ (i - 1) "invalid UTF-8" else ret tt);;
    let! i := continuation (Z.to_nat n) i in
    ret (true, i).

(** The characters of a literal up to the quote, the end of its line or of
    the text, or the first malformed one; with how many were read. *)
Fixpoint scan_characters (fuel : nat) (quote i characters : Z) : M (option (Z * Z)) :=
  match fuel with
  | O => undefined
  | Datatypes.S f =>
      let! go := lift (peek (fun c => negb (c =? quote) && negb (c =? 10)) i) in
      if go then
        let! ok := scan_byte i in
        if negb ok then ret None
        else
          let characters := characters + 1 in
          let! c := lift (rd i) in
          if c =? 92 then
            let! (ok, i) := lift (escape (i + 1)) in
            if ok then scan_characters f quote i characters
            else fail_ i "invalid escape";; ret (Some (i, characters))
          else
            let! (ok, i) := scan_utf8 i in
            if ok then scan_characters f quote i characters else ret (Some (i, characters))
      else ret (Some (i, characters))
  end.
Definition scan_literal (first quote : Z) : M (option Z) :=
  let i := first + 1 in
  let?! (i, characters) := scan_characters (fuel_at i) quote i 0 in
  let! close := lift (peek (Z.eqb quote) i) in
  let! i := (if negb close then fail_ first "unterminated literal";; ret i else ret (i + 1)) in
  (if (quote =? 39) && negb (characters =? 1)
   then fail_ first "character literal requires one character" else ret tt);;
  ret (Some i).

Definition pair_operators : bytes := str ":+-*/%&|^!<>=".
Definition single_operators : bytes := str "()[]{}.,:+-*/%&|^!~<>=".
Definition is_pair (c next : Z) : bool :=
  ((c =? 46) && ((next =? 46) || (next =? 42)))
  || (((c =? 60) || (c =? 62)) && (next =? c))
  || (((c =? 38) || (c =? 124)) && (next =? c))
  || ((next =? 61) && one_of c pair_operators)
  || ((c =? 61) && (next =? 62)).
Definition scan_punct (first : Z) : M (option (Z * TokenKind)) :=
  let! c := lift (rd first) in
  let i := first + 1 in
  if c =? 36 then
    let! named := lift (peek alpha i) in
    (if negb named then fail_ first "expected type parameter" else ret tt);;
    let?! i := scan (byte_test alnum) i in
    ret (Some (i, PUNCT))
  else if c =? 35 then
    let?! i := scan (byte_test alpha) i in
    ret (Some (i, PUNCT))
  else
    let! next := (if i <? len then lift (rd i) else ret 0) in
    if is_pair c next then
      let i := i + 1 in
      let! third := (if ((c =? 46) && (next =? 46)) || (((c =? 60) || (c =? 62)) && (next =? c))
                     then lift (peek (Z.eqb 61) i) else ret false) in
      ret (Some (if third then i + 1 else i, PUNCT))
    else if negb (one_of c single_operators) then
      fail_ first "unexpected character";; ret (Some (i, BAD))
    else ret (Some (i, PUNCT)).

(** [p->text[i] == '.' && i + 1 < p->length && digit(p->text[i + 1])]. *)
Definition number_start (i c : Z) : option bool :=
  if digit c then Some true
  else if c =? 46 then peek digit (i + 1) else Some false.

Definition scan_token (first : Z) (external_space : bool) : M (option (Z * TokenKind)) :=
  if first =? len then ret (Some (first, END))
  else
    let! c := lift (rd first) in
    if alpha c then
      let?! i := scan (byte_test alnum) (first + 1) in
      ret (Some (i, NAME))
    else
      let! number := lift (number_start first c) in
      if number then
        let?! i := scan_number first external_space in
        ret (Some (i, NUMBER))
      else if (c =? 34) || (c =? 39) then
        let?! i := scan_literal first c in
        ret (Some (i, if c =? 34 then STRING else CHARACTER))
      else scan_punct first.

Definition lex : M unit :=
  let! o := gets (fun s => offset (parser s)) in
  let! ok := charge 1 o in
  if negb ok then modify (with_parser (set_token (mkToken o o END)))
  else
    let! r := (let?! (first, external_space) := skip_trivia (fuel_at o) o true in
               let?! (i, k) := scan_token first external_space in
               ret (Some (mkToken first i k))) in
    match r with
    | None => ret tt
    | Some t => modify (with_parser (fun p => set_offset (end_ t) (set_token t p)))
    end.

Definition take_ (s : bytes) : M bool :=
  let! yes := is_ s in
  if yes then lex;; ret true else ret false.
Definition expect (s : string) : M unit :=
  let! yes := take_ (str s) in
  let! stop := gets failed in
  if yes || stop then ret tt
  else
    let! t := gets tok in
    fail_ (start t) "unexpected token";;
    modify (with_tree (fun t => mkTree (nodes t) (capacity t) (root t) (error_offset t) (error t) (Some s) (error_kind t))).

End Lex.
