(* ===== verification/LexerSpec.v ===== *)
(** The lexer of src/src/parser.c: it reads no byte outside the text, ends,
    respects the work budget, and splits the text by the lexical grammar, which
    has one reading of every text. *)

From S2P Require Import Prelude Lexer.
From Stdlib Require Import FunctionalExtensionality.

(** ** Total correctness *)

Section Wp.
Context {S : Source}.

(** [wp m Q s]: run from [s], [m] is defined and its result satisfies [Q]. *)
Definition wp {A} (m : M A) (Q : A -> St -> Prop) (s : St) : Prop :=
  match m s with Some (a, s') => Q a s' | None => False end.

Lemma wp_bind {A B} (m : M A) (k : A -> M B) R Q s :
  wp m R s -> (forall a s1, R a s1 -> wp (k a) Q s1) -> wp (bind m k) Q s.
Proof. unfold wp, bind. destruct (m s) as [[a s1]|]; [|done]. intros H HQ. by apply HQ. Qed.
Lemma wp_mono {A} (m : M A) (R Q : A -> St -> Prop) s :
  wp m R s -> (forall a s1, R a s1 -> Q a s1) -> wp m Q s.
Proof. unfold wp. destruct (m s) as [[a s1]|]; [|done]. auto. Qed.
Lemma wp_ebind {A B} (m : M (option A)) (k : A -> M (option B)) R Q s :
  wp m R s -> (forall s1, R None s1 -> Q None s1) ->
  (forall a s1, R (Some a) s1 -> wp (k a) Q s1) -> wp (ebind m k) Q s.
Proof.
  intros Hm HN HS. unfold ebind. eapply wp_bind; [done|]. intros [a|] s1 HR; [by apply HS|]. by apply HN.
Qed.
Lemma wp_lift {A} (o : option A) (Q : A -> St -> Prop) s a : o = Some a -> Q a s -> wp (lift o) Q s.
Proof. by intros ->. Qed.

End Wp.

(** One step of a symbolic run: a specification for the first operation. *)
Tactic Notation "wp_step" uconstr(spec) "as" simple_intropattern_list(pat) :=
  eapply wp_bind; [eapply spec | intros pat; cbn beta iota in * ].
Ltac wp_pure := repeat first
  [ progress cbn beta iota
  | match goal with
    | |- wp (bind (gets _) _) _ _ => unfold bind at 1; unfold gets at 1; unfold wp; cbv beta iota; fold (@wp _ _)
    end ].

Section Effects.
Context {S : Source}.

(** What the operations that only charge work and report errors leave
    unchanged. *)
Record quiet (s s' : St) : Prop := {
  quiet_offset : offset (parser s') = offset (parser s);
  quiet_depth : depth (parser s') = depth (parser s);
  quiet_brace : block_brace (parser s') = block_brace (parser s);
  quiet_token : tok s' = tok s;
  quiet_nodes : nodes (tree s') = nodes (tree s);
  quiet_capacity : capacity (tree s') = capacity (tree s);
  quiet_root : root (tree s') = root (tree s);
  quiet_work : 0 <= work_remaining s -> 0 <= work_remaining s' <= work_remaining s;
  quiet_failed : failed s = true -> failed s' = true;
  quiet_kind : failed s' = false -> error_kind (tree s') = error_kind (tree s) }.

#[global] Instance quiet_preorder : PreOrder quiet.
Proof.
  split; [by constructor; auto; lia|].
  intros a b c [] []. constructor; try congruence; [|by auto|].
  - intros H. specialize (quiet_work0 H). destruct quiet_work0. specialize (quiet_work1 H0). lia.
  - intros H. rewrite quiet_kind1 by done. apply quiet_kind0. destruct (failed b); [by rewrite quiet_failed1 in H|done].
Qed.

Lemma failed_error s : failed s = false <-> error (tree s) = None.
Proof. unfold failed. by destruct (error (tree s)). Qed.

Lemma wp_fail o message s :
  wp (fail_ o message) (fun _ s' => quiet s s' /\ failed s' = true /\ work_remaining s' = work_remaining s) s.
Proof.
  unfold wp, fail_, modify. destruct (failed s) eqn:E.
  - split; [reflexivity|done].
  - split; [|done]. by constructor; auto; cbn; lia.
Qed.

Lemma wp_call_work units s :
  wp (call_work units) (fun _ s' => quiet s s' /\ work_remaining s' = work_remaining s /\ tree s' = tree s) s.
Proof.
  unfold wp, call_work. destruct options as [o|]; [|by split; [reflexivity|]].
  destruct (work o) as [f|]; [|by split; [reflexivity|]].
  destruct (f (world s) units) as [ok w]. split; [by constructor; auto; cbn; lia|done].
Qed.

Lemma wp_charge units o s :
  0 <= units ->
  wp (charge units o) (fun ok s' => quiet s s' /\
    if ok then work_remaining s' = work_remaining s - units /\ units <= work_remaining s /\ failed s' = false
    else failed s' = true) s.
Proof.
  intros Hu. unfold charge, wp, bind at 1, gets at 1. destruct (failed s) eqn:Ef.
  { cbn. split; [reflexivity|done]. }
  unfold bind at 1, gets at 1. destruct (Z.ltb_spec (work_remaining s) units).
  { unfold bind at 1, modify at 1. fold (@wp S bool).
    eapply wp_bind; [apply wp_fail|]. intros _ s1 (Hq & Hf & Hw). cbn in Hw. split; [|done].
    destruct Hq. cbn in *. constructor; auto; lia. }
  unfold bind at 1, modify at 1.
  pose proof (wp_call_work units (with_work (work_remaining s - units) s)) as Hc.
  unfold wp in Hc. unfold bind at 1.
  destruct (call_work units (with_work (work_remaining s - units) s)) as [[ok s1]|]; [|done].
  destruct Hc as (Hq & Hw & Ht). cbn in Hw, Ht.
  assert (quiet s s1) as Hq'.
  { destruct Hq. cbn in *. constructor; auto; lia. }
  assert (failed s1 = false) as Hf1. { unfold failed in *. by rewrite Ht. }
  destruct ok.
  { cbn. done. }
  unfold bind, fail_, modify, ret. rewrite Hf1. cbn. split; [|done].
  destruct Hq'. constructor; cbn; auto; lia.
Qed.

Lemma wp_scan_byte o s :
  wp (scan_byte o) (fun ok s' => quiet s s' /\ (ok = false -> failed s' = true)) s.
Proof.
  unfold scan_byte, wp, bind at 1, gets at 1.
  destruct ((o <? 1024) || (o <? scan_next (parser s))); [by split; [reflexivity|]|].
  unfold bind, modify. pose proof (wp_charge 1024 o (with_parser (set_scan_next (o + 1024)) s) ltac:(lia)) as Hc.
  unfold wp in Hc. destruct (charge 1024 o _) as [[ok s1]|]; [|done]. destruct Hc as [Hq Hf]. split.
  - destruct Hq. cbn in *. by constructor; auto.
  - by intros ->.
Qed.

(** ** Runs of bytes *)

Definition holds (f : Z -> bool) (i : Z) : Prop := peek f i = Some true.
Definition run (f : Z -> bool) (i j : Z) : Prop := i <= j /\ forall k, i <= k < j -> holds f k.
(** A maximal run: the byte at its end is not of the class. *)
Definition maximal (f : Z -> bool) (i j : Z) : Prop := run f i j /\ peek f j = Some false.

Lemma peek_total f i : 0 <= i -> exists b, peek f i = Some b.
Proof.
  intros Hi. unfold peek. destruct (Z.ltb_spec i len); [|eauto].
  destruct (get_at_is_Some text i) as [c Hc]; [unfold len in *; lia|]. unfold rd. rewrite Hc. eauto.
Qed.
Lemma peek_byte_test f i : i < len -> byte_test f i = peek f i.
Proof. intros Hi. unfold byte_test, peek. by rewrite (proj2 (Z.ltb_lt _ _) Hi). Qed.
Lemma holds_lt f i : holds f i -> i < len.
Proof. unfold holds, peek. destruct (Z.ltb_spec i len); [done|discriminate]. Qed.
Lemma rd_total i : 0 <= i < len -> exists c, rd i = Some c.
Proof. intros. apply get_at_is_Some. unfold len in *; lia. Qed.
Lemma peek_rd f i c : rd i = Some c -> peek f i = Some (f c).
Proof.
  intros H. pose proof H as H'. unfold rd in H'. apply get_at_Some in H' as [? _]. unfold peek.
  rewrite (proj2 (Z.ltb_lt _ _)) by (unfold len; lia). by rewrite H.
Qed.

Lemma at_len i s : at_ i s = true -> i + Z.of_nat (length s) <= len.
Proof. unfold at_. intros H. to_prop. lia. Qed.

Definition scanned (go : Z -> option bool) (i : Z) (s : St) (r : option Z) (s' : St) : Prop :=
  quiet s s' /\
  match r with
  | None => failed s' = true
  | Some j => i <= j <= len /\ (forall k, i <= k < j -> go k = Some true) /\ (j < len -> go j = Some false)
  end.

Lemma wp_scan_while go fuel i s :
  (forall k, i <= k < len -> exists b, go k = Some b) -> i <= len -> (Z.to_nat (len - i) < fuel)%nat ->
  wp (scan_while fuel go i) (scanned go i s) s.
Proof.
  revert i s. induction fuel as [|fuel IH]; intros i s Hgo Hi Hfuel; [lia|]. cbn [scan_while].
  destruct (Z.ltb_spec i len).
  2:{ split; [reflexivity|]. split; [lia|]. split; intros; lia. }
  destruct (Hgo i ltac:(lia)) as [b Hb].
  eapply wp_bind; [eapply (wp_lift _ (fun a s1 => a = b /\ s1 = s)); [exact Hb|done]|]. intros ? ? [-> ->]. destruct b.
  2:{ split; [reflexivity|]. split; [lia|]. split; [intros; lia|done]. }
  eapply wp_bind; [apply wp_scan_byte|]. intros ok s1 [Hq Hf]. destruct ok.
  2:{ split; [done|]. cbn. by apply Hf. }
  eapply wp_mono; [apply IH; [intros; apply Hgo; lia|lia|lia]|].
  intros r s2 [Hq2 Hr]. split; [by etransitivity|]. destruct r as [j|]; [|done].
  destruct Hr as (Hj & Hall & Hstop). split; [lia|]. split; [|done].
  intros k Hk. destruct (Z.eq_dec k i) as [->|]; [done|]. apply Hall. lia.
Qed.

Lemma wp_scan go i s :
  (forall k, i <= k < len -> exists b, go k = Some b) -> i <= len ->
  wp (scan go i) (scanned go i s) s.
Proof. intros. apply wp_scan_while; [done|done|unfold fuel_at; lia]. Qed.

Definition spanned (f : Z -> bool) (i : Z) (s : St) (r : option Z) (s' : St) : Prop :=
  quiet s s' /\ match r with None => failed s' = true | Some j => j <= len /\ maximal f i j end.

Lemma wp_scan_run f i s : 0 <= i <= len -> wp (scan (byte_test f) i) (spanned f i s) s.
Proof.
  intros Hi. eapply wp_mono; [apply wp_scan; [|lia]|].
  { intros k Hk. rewrite peek_byte_test by lia. apply peek_total. lia. }
  intros r s1 [Hq Hr]. split; [done|]. destruct r as [j|]; [|done]. destruct Hr as (Hj & Hall & Hstop).
  split; [lia|]. split.
  - split; [lia|]. intros k Hk. unfold holds. rewrite <- peek_byte_test by lia. apply Hall. lia.
  - destruct (Z_lt_le_dec j len).
    + rewrite <- peek_byte_test by lia. by apply Hstop.
    + unfold peek. by zb.
Qed.

End Effects.

(** ** The lexical grammar *)

(** The classes of characters the grammar is over, and the two sets of them that
    are shown to be the same: the tests of the source, and plain lists. *)
Class Classes := {
  letter : Z -> bool; figure : Z -> bool; hexadecimal : Z -> bool; octal : Z -> bool; binary : Z -> bool; blank : Z -> bool }.
Definition tested_classes : Classes :=
  {| letter := alpha; figure := digit; hexadecimal := hex; octal := fun c => (48 <=? c) && (c <=? 55);
     binary := fun c => (48 <=? c) && (c <=? 49); blank := space |}.
Definition listed_classes : Classes :=
  {| letter := fun c => one_of c (str "abcdefghijklmnopqrstuvwxyzABCDEFGHIJKLMNOPQRSTUVWXYZ_");
     figure := fun c => one_of c (str "0123456789"); hexadecimal := fun c => one_of c (str "0123456789abcdefABCDEF");
     octal := fun c => one_of c (str "01234567"); binary := fun c => one_of c (str "01");
     blank := fun c => one_of c [32; 9; 10; 11; 12; 13] |}.

Section Grammar.
Context {S : Source} {C : Classes}.

Definition slice (i j : Z) : bytes := take (Z.to_nat (j - i)) (drop (Z.to_nat i) text).
(** The text has [s] at [i]. *)
Definition here (i : Z) (s : bytes) : Prop := 0 <= i /\ take (length s) (drop (Z.to_nat i) text) = s.

(** White space and comments from [a] to [b]. *)
Inductive trivia : Z -> Z -> Prop :=
| trivia_nil a : trivia a a
| trivia_space a b : holds blank a -> trivia (a + 1) b -> trivia a b
| trivia_line a e b :
    here a (str "//") -> maximal (fun c => negb (c =? 10)) (a + 2) e -> trivia e b -> trivia a b
| trivia_block a e b :
    here a (str "/*") -> a + 2 <= e -> (forall k, a + 2 <= k < e -> ~ here k (str "*/")) ->
    here e (str "*/") -> trivia (e + 2) b -> trivia a b.
(** Neither white space nor a comment starts at [a]. *)
Definition bare (a : Z) : Prop := peek blank a = Some false /\ ~ here a (str "//") /\ ~ here a (str "/*").

Definition letter_or_figure (c : Z) : bool := letter c || figure c.
Definition figure_or_mark (c : Z) : bool := figure c || (c =? 95).
Definition name_span (a b : Z) : Prop := holds letter a /\ maximal letter_or_figure (a + 1) b.

(** Numbers: a base prefix and its digits, or digits, a fraction and an
    exponent; each part is there when it can be and as long as it can be. *)
Definition bases : list (Z * (Z -> bool)) := [(120, hexadecimal); (98, binary); (111, octal)].
Definition based_span (a b : Z) : Prop :=
  exists base digits, In (base, digits) bases /\ here a [48; base] /\ maximal (fun c => (c =? 95) || digits c) (a + 2) b /\ a + 2 < b.
Definition integer_span (a b : Z) : Prop :=
  (holds figure a /\ maximal figure_or_mark a b)
  \/ (holds (Z.eqb 46) a /\ holds figure (a + 1) /\ maximal figure_or_mark (a + 1) b).
Definition fraction_span (a b : Z) (trailing : bool) : Prop :=
  (b = a /\ trailing = false /\ (peek (Z.eqb 46) a = Some false \/ here a (str "..")))
  \/ (holds (Z.eqb 46) a /\ ~ here a (str "..")
      /\ (trailing = false /\ holds figure (a + 1) /\ maximal figure_or_mark (a + 2) b
          \/ trailing = true /\ peek figure (a + 1) = Some false /\ b = a + 1)).
(** The first digit of an exponent at [a] is at [d]. *)
Definition exponent_at (a d : Z) : Prop :=
  holds (fun c => (c =? 101) || (c =? 69)) a
  /\ (d = a + 1 \/ d = a + 2 /\ holds (fun c => (c =? 43) || (c =? 45)) (a + 1)) /\ holds figure d.
Definition exponent_span (a b : Z) : Prop :=
  (b = a /\ forall d, ~ exponent_at a d) \/ exists d, exponent_at a d /\ maximal figure_or_mark (d + 1) b.
Definition decimal_span (a b : Z) : Prop :=
  (forall base digits, In (base, digits) bases -> ~ here a [48; base])
  /\ exists i f trailing, integer_span a i
    /\ (if bool_decide (peek (Z.eqb 46) a = Some true) then f = i /\ trailing = false else fraction_span i f trailing)
    /\ (if trailing : bool then b = f else exponent_span f b).
Definition number_span (a b : Z) : Prop := based_span a b \/ decimal_span a b.

(** Literals. *)
Inductive escape_text : bytes -> Prop :=
| escape_letter c : one_of c [110; 114; 116; 48; 92; 34; 39] = true -> escape_text [c]
| escape_byte a b : hexadecimal a = true -> hexadecimal b = true -> escape_text [120; a; b]
| escape_unicode ds :
    (1 <= length ds <= 6)%nat -> Forall (fun c => hexadecimal c = true) ds -> escape_text ([117; 123] ++ ds ++ [125]).
Inductive character (quote : Z) : bytes -> Prop :=
| character_plain c : c < 128 -> c <> quote -> c <> 10 -> c <> 92 -> character quote [c]
| character_utf8 t : utf8_multi t -> character quote t
| character_escape t : escape_text t -> character quote (92 :: t).
Inductive characters (quote : Z) : Z -> Z -> Z -> Prop :=
| characters_nil i : characters quote i i 0
| characters_cons i j k n :
    i < j -> character quote (slice i j) -> characters quote j k n -> characters quote i k (n + 1).
Definition literal_span (quote a b : Z) : Prop :=
  exists n, holds (Z.eqb quote) a /\ characters quote (a + 1) (b - 1) n /\ holds (Z.eqb quote) (b - 1)
            /\ (quote = 39 -> n = 1).

(** Punctuation: the longest operator of the table, a type parameter or a
    directive; a dot before a digit is a number. *)
Definition operators : list bytes := map str
  ["..="; "<<="; ">>="; ".."; ".*"; "<<"; ">>"; "&&"; "||"; ":="; "+="; "-="; "*="; "/="; "%="; "&="; "|=";
   "^="; "!="; "<="; ">="; "=="; "=>"; "("; ")"; "["; "]"; "{"; "}"; "."; ","; ":"; "+"; "-"; "*"; "/"; "%";
   "&"; "|"; "^"; "!"; "~"; "<"; ">"; "="]%string.
Definition punct_span (a b : Z) : Prop :=
  ~ (holds (Z.eqb 46) a /\ holds figure (a + 1))
  /\ ((In (slice a b) operators /\ forall o, In o operators -> here a o -> Z.of_nat (length o) <= b - a)
      \/ (holds (Z.eqb 36) a /\ holds letter (a + 1) /\ maximal letter_or_figure (a + 1) b)
      \/ (holds (Z.eqb 35) a /\ maximal letter (a + 1) b)).

Definition token_span (t : Token) : Prop :=
  match kind t with
  | END => start t = len /\ end_ t = len
  | NAME => name_span (start t) (end_ t)
  | NUMBER => number_span (start t) (end_ t)
  | STRING => literal_span 34 (start t) (end_ t)
  | CHARACTER => literal_span 39 (start t) (end_ t)
  | PUNCT => punct_span (start t) (end_ t)
  | BAD => False
  end.
(** The token [t] is the next one from [o]: white space and comments up to where
    neither goes on, then a token of the grammar. *)
Definition next_at (o : Z) (t : Token) : Prop :=
  trivia o (start t) /\ bare (start t) /\ o <= start t <= end_ t /\ end_ t <= len /\ token_span t.

(** ** Slices *)

Lemma slice_nil i : slice i i = [].
Proof. unfold slice. rewrite Z.sub_diag. done. Qed.
Lemma slice_cons i j c : 0 <= i < j -> rd i = Some c -> slice i j = c :: slice (i + 1) j.
Proof.
  intros Hi Hc. unfold rd in Hc. apply get_at_Some in Hc as [Hl Hc]. unfold slice.
  rewrite (drop_S text c (Z.to_nat i)) by done.
  replace (Z.to_nat (j - i)) with (Datatypes.S (Z.to_nat (j - (i + 1)))) by lia. cbn [take firstn].
  do 2 f_equal. by replace (Z.to_nat (i + 1)) with (Datatypes.S (Z.to_nat i)) by lia.
Qed.
Lemma slice_app i j k : 0 <= i <= j -> j <= k -> slice i k = slice i j ++ slice j k.
Proof.
  intros. unfold slice. replace (Z.to_nat (k - i)) with (Z.to_nat (j - i) + Z.to_nat (k - j))%nat by lia.
  rewrite <- take_take_drop, drop_drop, <- Z2Nat.inj_add by lia. by replace (i + (j - i)) with j by lia.
Qed.
Lemma slice_length i j : 0 <= i <= j -> j <= len -> Z.of_nat (length (slice i j)) = j - i.
Proof. intros. unfold slice. rewrite length_take, length_drop. unfold len in *. lia. Qed.
Lemma at_here i s : 0 <= i -> s <> [] -> at_ i s = true <-> here i s.
Proof.
  intros Hi Hs. unfold at_, here. rewrite Nat2Z.id, !andb_true_iff, !Z.leb_le. destruct (bytes_eqb_spec (take (length s) (drop (Z.to_nat i) text)) s) as [E|E].
  - split; [done|]. intros _. apply (f_equal length) in E. rewrite length_take, length_drop in E.
    assert (0 < length s)%nat by (destruct s; [done|cbn; lia]). unfold len. split; [lia|done].
  - split; [by intros [_ ?]|by intros [_ ?]].
Qed.
Lemma not_here i s : 0 <= i -> s <> [] -> at_ i s = false -> ~ here i s.
Proof. intros Hi Hs Hf Hh. apply at_here in Hh; [congruence|done|done]. Qed.

End Grammar.

(** ** The scans follow the grammar *)

#[local] Existing Instance tested_classes.

Section Scans.
Context {S : Source}.
Context (text_bytes : Forall is_byte text).

Lemma rd_byte i c : rd i = Some c -> 0 <= c < 256.
Proof using text_bytes.
  intros H. unfold rd in H. apply get_at_Some in H as [_ H]. by eapply Forall_lookup_1 in text_bytes.
Qed.
Lemma quiet_ok s s' : quiet s s' -> failed s' = false -> failed s = false.
Proof. intros Hq Hf. destruct (failed s) eqn:E; [|done]. by rewrite (quiet_failed _ _ Hq E) in Hf. Qed.

Lemma wp_rd {B} i (k : Z -> M B) Q s :
  0 <= i < len -> (forall c, rd i = Some c -> wp (k c) Q s) -> wp (let! c := lift (rd i) in k c) Q s.
Proof. intros Hi Hk. destruct (rd_total i Hi) as [c Hc]. unfold wp, bind, lift. rewrite Hc. by apply Hk. Qed.
Lemma wp_peek {B} f i (k : bool -> M B) Q s :
  0 <= i -> (forall b, peek f i = Some b -> wp (k b) Q s) -> wp (let! b := lift (peek f i) in k b) Q s.
Proof. intros Hi Hk. destruct (peek_total f i Hi) as [b Hb]. unfold wp, bind, lift. rewrite Hb. by apply Hk. Qed.

(** A [fail] that does not end the scan. *)
Lemma wp_fail_if {B} (b : bool) o message (k : M B) Q s :
  (forall s1, quiet s s1 -> (failed s1 = false -> b = false) -> wp k Q s1) ->
  wp ((if b then fail_ o message else ret tt);; k) Q s.
Proof.
  intros Hk. destruct b.
  - eapply wp_bind; [apply wp_fail|]. cbn beta. intros _ s1 (Hq & Hf & _). apply Hk; [done|]. by rewrite Hf.
  - apply (Hk s); [reflexivity|done].
Qed.

(** *** White space and comments *)

Lemma wp_scan_space fuel i e s :
  0 <= i <= len -> (Z.to_nat (len - i) < fuel)%nat ->
  wp (scan_space fuel i e) (fun r s' => quiet s s' /\
    match r with
    | None => failed s' = true
    | Some (j, _) => i <= j <= len /\ peek blank j = Some false /\ forall b, trivia j b -> trivia i b
    end) s.
Proof.
  revert i e s. induction fuel as [|fuel IH]; intros i e s Hi Hfuel; [lia|]. cbn [scan_space].
  destruct (Z.ltb_spec i len); [|split; [reflexivity|]; split; [lia|]; split; [unfold peek; by zb|auto]].
  apply wp_rd; [lia|]. intros c Hc. destruct (space c) eqn:Hs.
  2: { split; [reflexivity|]. split; [lia|]. split; [|auto]. rewrite (peek_rd _ _ _ Hc). by f_equal. }
  eapply wp_bind; [apply wp_scan_byte|]. cbn beta. intros ok s1 [Hq Hf].
  destruct ok; [|by split; [done|]; apply Hf].
  eapply wp_mono; [apply IH; lia|]. cbn beta. intros r s2 [Hq2 Hr]. split; [by etransitivity|].
  destruct r as [[j e']|]; [|done]. destruct Hr as (Hj & Hbl & Ht). split; [lia|]. split; [done|]. intros b Hb.
  apply trivia_space; [|auto]. unfold holds. rewrite (peek_rd _ _ _ Hc). by f_equal.
Qed.

Lemma wp_skip_trivia fuel i e s :
  0 <= i <= len -> (Z.to_nat (len - i) < fuel)%nat ->
  wp (skip_trivia fuel i e) (fun r s' => quiet s s' /\
    match r with
    | None => failed s' = true
    | Some (j, _) => i <= j <= len /\ (failed s' = false -> trivia i j /\ bare j)
    end) s.
Proof.
  revert i e s. induction fuel as [|fuel IH]; intros i e s Hi Hfuel; [lia|]. cbn [skip_trivia].
  eapply wp_ebind; [apply wp_scan_space; [lia|unfold fuel_at; lia]|done|]. cbn beta iota.
  intros [j e1] s1 [Hq1 (Hj & Hbl & Ht)].
  destruct (at_ j (str "//")) eqn:Hline; [|destruct (at_ j (str "/*")) eqn:Hblock].
  - pose proof (at_len _ _ Hline) as Hl. change (Z.of_nat (length (str "//"))) with 2 in Hl.
    eapply wp_ebind; [apply wp_scan_run; lia| |]; cbn beta iota.
    { intros s2 [Hq2 Hf]. split; [by etransitivity|done]. }
    intros k s2 [Hq2 [Hk Hmax]]. assert (j + 2 <= k) by (destruct Hmax as [[]]; lia).
    eapply wp_mono; [apply IH; lia|]. cbn beta. intros r s3 [Hq3 Hr].
    split; [by do 2 (etransitivity; [eassumption|])|]. destruct r as [[m e']|]; [|done].
    destruct Hr as [Hm Htr]. split; [lia|]. intros Hok. destruct (Htr Hok) as [Htr1 Hbare]. split; [|done].
    apply Ht. apply at_here in Hline; [|lia|done]. by apply (trivia_line j k).
  - pose proof (at_len _ _ Hblock) as Hl. change (Z.of_nat (length (str "/*"))) with 2 in Hl.
    eapply wp_ebind; [apply wp_scan; [eauto|lia]| |]; cbn beta iota.
    { intros s2 [Hq2 Hf]. split; [by etransitivity|done]. }
    intros k s2 [Hq2 (Hk & Hall & Hstop)]. destruct (Z.eqb_spec k len).
    { eapply wp_bind; [apply wp_fail|]. cbn beta. intros _ s3 (Hq3 & Hf3 & _).
      split; [by do 2 (etransitivity; [eassumption|])|]. split; [lia|]. by rewrite Hf3. }
    assert (at_ k (str "*/") = true) as Hclose.
    { specialize (Hstop ltac:(lia)). injection Hstop as Hstop. by apply negb_false_iff in Hstop. }
    pose proof (at_len _ _ Hclose) as Hl2. change (Z.of_nat (length (str "*/"))) with 2 in Hl2.
    eapply wp_mono; [apply IH; lia|]. cbn beta. intros r s3 [Hq3 Hr].
    split; [by do 2 (etransitivity; [eassumption|])|]. destruct r as [[m e']|]; [|done].
    destruct Hr as [Hm Htr]. split; [lia|]. intros Hok. destruct (Htr Hok) as [Htr1 Hbare]. split; [|done].
    apply at_here in Hblock; [|lia|done]. apply at_here in Hclose; [|lia|done]. apply Ht. apply (trivia_block j k); auto; [lia|].
    intros k' Hk'. specialize (Hall k' Hk'). injection Hall as Hall. apply negb_true_iff in Hall. apply not_here; [lia|done|done].
  - split; [done|]. split; [lia|]. intros _. split; [apply Ht; constructor|]. split; [done|]. split; apply not_here; done || lia.
Qed.

(** *** Numbers *)

Lemma holds_peek f i : peek f i = Some true -> holds f i.
Proof. done. Qed.

Lemma wp_scan_fraction first i e s :
  0 <= i <= len ->
  wp (scan_fraction first i e) (fun r s' => quiet s s' /\
    match r with None => failed s' = true | Some (j, t) => i <= j <= len /\ fraction_span i j t end) s.
Proof.
  intros Hi. unfold scan_fraction. apply wp_peek; [lia|]. intros dot Hdot.
  destruct dot; cbn [andb]; [destruct (at_ i (str "..")) eqn:Hdots; cbn [negb]|].
  - split; [reflexivity|]. split; [lia|]. left. apply at_here in Hdots; [auto|lia|done].
  - apply not_here in Hdots; [|lia|done]. pose proof (holds_lt _ _ Hdot). apply wp_peek; [lia|]. intros d Hd. destruct d.
    + pose proof (holds_lt _ _ Hd). eapply wp_ebind; [apply wp_scan_run; lia|by auto|]. cbn beta iota.
      intros j s1 [Hq [Hj Hmax]]. assert (i + 2 <= j) by (destruct Hmax as [[]]; lia).
      apply wp_fail_if. intros s2 Hq2 _. split; [by etransitivity|]. rewrite (proj2 (Z.eqb_neq _ _)) by lia.
      split; [lia|]. right. split; [done|]. split; [done|]. left. split; [done|]. split; [done|].
      by replace (i + 2) with (i + 1 + 1) by lia.
    + eapply wp_ebind with (R := fun r s' => s' = s /\ r = Some (i + 1)); [done|by intros ? []|]. cbn beta iota.
      intros j s1 [-> [= ->]]. apply wp_fail_if. intros s2 Hq2 _. split; [done|]. rewrite Z.eqb_refl.
      split; [lia|]. right. split; [done|]. split; [done|]. right. done.
  - split; [reflexivity|]. split; [lia|]. left. auto.
Qed.

Lemma holds_rd f i : holds f i -> exists c, rd i = Some c /\ f c = true.
Proof using.
  unfold holds, peek. destruct (i <? len); [|done]. destruct (rd i) as [c|]; [|done]. intros [= H]. by exists c.
Qed.
Lemma holds_digit_sign i : holds digit i -> holds (fun c => (c =? 43) || (c =? 45)) i -> False.
Proof using.
  intros (c & Hc & Hd)%holds_rd (c' & Hc' & Hs)%holds_rd. rewrite Hc in Hc'. injection Hc' as <-. unfold digit in Hd. to_prop. lia.
Qed.
Lemma wp_scan_exponent i s :
  0 <= i <= len ->
  wp (scan_exponent i) (fun r s' => quiet s s' /\
    match r with None => failed s' = true | Some j => i <= j <= len /\ exponent_span i j end) s.
Proof.
  intros Hi. unfold scan_exponent. apply wp_peek; [lia|]. intros [] He.
  2:{ split; [reflexivity|]. split; [lia|]. left. split; [done|]. intros d [Hd _]. unfold holds in Hd. congruence. }
  pose proof (holds_lt _ _ He). apply wp_peek; [lia|]. intros sign Hsign. cbv zeta.
  set (d := if sign then i + 1 + 1 else i + 1). assert (i + 1 <= d <= i + 2) by (unfold d; destruct sign; lia).
  apply wp_peek; [lia|]. intros [] Hd; cbn [negb].
  2:{ split; [reflexivity|]. split; [lia|]. left. split; [done|]. intros d' (_ & Hd' & Hfig). change (holds digit d') in Hfig.
      unfold holds in *. subst d.
      destruct sign, Hd' as [->|[-> Hs]]; try congruence.
      - apply holds_digit_sign with (i + 1); done.
      - replace (i + 1 + 1) with (i + 2) in Hd by lia. congruence. }
  pose proof (holds_lt _ _ Hd). eapply wp_mono; [apply wp_scan_run; lia|].
  intros r s1 [Hq Hr]. split; [done|]. destruct r as [j|]; [|done]. destruct Hr as [Hj Hmax].
  assert (d + 1 <= j) by (destruct Hmax as [[]]; lia). split; [lia|]. right. exists d. split; [|done].
  split; [done|]. split; [|done]. subst d. destruct sign; [right|by left]. split; [lia|done].
Qed.

Lemma at_cons i c s : 0 <= i -> at_ i (c :: s) = true -> rd i = Some c /\ at_ (i + 1) s = true.
Proof.
  intros Hi H. pose proof (at_len _ _ H) as Hl. rewrite length_cons in Hl. unfold at_ in H. to_prop. destruct H as [_ H].
  destruct (rd_total (S := S) i ltac:(lia)) as [x Hx]. pose proof Hx as Hd. unfold rd in Hd. apply get_at_Some in Hd as [_ Hd].
  rewrite Nat2Z.id, (drop_S text x) in H by done. cbn [length take firstn] in H.
  destruct (bytes_eqb_spec (x :: take (length s) (drop (Datatypes.S (Z.to_nat i)) text)) (c :: s)) as [E|]; [|done].
  injection E as -> E. split; [done|]. unfold at_. rewrite Nat2Z.id.
  replace (Z.to_nat (i + 1)) with (Datatypes.S (Z.to_nat i)) by lia. zb.
  destruct (bytes_eqb_spec (take (length s) (drop (Datatypes.S (Z.to_nat i)) text)) s); done.
Qed.

Lemma base_digits base digits a b :
  In (base, digits) bases -> maximal (base_digit base) a b -> maximal (fun c => (c =? 95) || digits c) a b.
Proof using. cbn. intros [[= <- <-]|[[= <- <-]|[[= <- <-]|[]]]]; exact id. Qed.
Lemma wp_scan_based first base digits s :
  0 <= first -> In (base, digits) bases -> at_ first [48; base] = true ->
  wp (let! base := lift (rd (first + 1)) in
      let?! i := scan (byte_test (base_digit base)) (first + 2) in
      (if i =? first + 2 then fail_ first "missing base digits" else ret tt);; ret (Some i))
     (fun r s' => quiet s s' /\
       match r with None => failed s' = true
       | Some j => first < j <= len /\ (failed s' = false -> number_span first j) end) s.
Proof.
  intros Hf Hin Hat. pose proof (at_len _ _ Hat) as Hl. cbn [length] in Hl.
  destruct (at_cons _ _ _ Hf Hat) as [H0 Hat1]. destruct (at_cons (first + 1) _ _ ltac:(lia) Hat1) as [H1 _].
  apply wp_rd; [lia|]. intros b Hb. rewrite H1 in Hb. injection Hb as <-.
  eapply wp_ebind; [apply wp_scan_run; lia|done|]. cbn beta iota. intros j s1 [Hq [Hj Hmax]].
  assert (first + 2 <= j) by (destruct Hmax as [[]]; lia).
  apply wp_fail_if. intros s2 Hq2 Hne. split; [by etransitivity|]. split; [lia|]. intros Hok. specialize (Hne Hok).
  to_prop. left. exists base, digits. split_and!; [done|by apply at_here|by eapply base_digits|lia].
Qed.

Lemma wp_scan_number first e s :
  0 <= first < len -> (holds digit first \/ holds (Z.eqb 46) first /\ holds digit (first + 1)) ->
  wp (scan_number first e) (fun r s' => quiet s s' /\
    match r with None => failed s' = true
    | Some j => first < j <= len /\ (failed s' = false -> number_span first j) end) s.
Proof.
  intros Hi Hstart. unfold scan_number. cbv zeta.
  destruct (at_ first (str "0x")) eqn:Hx; cbn [orb].
  { apply (wp_scan_based first 120 hexadecimal); [lia|cbn; auto|done]. }
  destruct (at_ first (str "0b")) eqn:Hb; cbn [orb].
  { apply (wp_scan_based first 98 binary); [lia|cbn; auto|done]. }
  destruct (at_ first (str "0o")) eqn:Ho; cbn [orb].
  { apply (wp_scan_based first 111 octal); [lia|cbn; auto|done]. }
  assert (forall base digits, In (base, digits) bases -> ~ here first [48; base]) as Hnobase.
  { intros base digits [[= <- _]|[[= <- _]|[[= <- _]|[]]]]; apply not_here; done || lia. }
  clear Hx Hb Ho. apply wp_rd; [lia|]. intros c Hc.
  assert (peek (Z.eqb 46) first = Some (c =? 46)) as Hdot. { rewrite (peek_rd _ _ _ Hc). by rewrite Z.eqb_sym. }
  set (i := if c =? 46 then first + 1 else first). assert (first <= i <= len) by (unfold i; split_if; lia).
  eapply wp_ebind; [apply wp_scan_run; lia|done|]. cbn beta iota. intros j s1 [Hq [Hj Hmax]].
  assert (integer_span first j /\ first < j) as [Hint Hlt].
  { unfold i in *. destruct (c =? 46) eqn:Ec.
    - split; [|destruct Hmax as [[]]; lia]. right. split_and!; [done| |done].
      destruct Hstart as [Hs|[_ Hs]]; [|done]. unfold holds in Hs. rewrite (peek_rd _ _ _ Hc) in Hs.
      apply Z.eqb_eq in Ec as ->. done.
    - destruct Hstart as [Hs|[Hs _]]; [|unfold holds in Hs; congruence]. split; [by left|].
      destruct Hmax as [[Hle _] Hstop]. destruct (Z.eq_dec j first) as [->|]; [|lia].
      rewrite (peek_rd _ _ _ Hc) in Hstop. unfold holds in Hs. rewrite (peek_rd _ _ _ Hc) in Hs.
      injection Hs as Hs. injection Hstop as Hstop. unfold digit_ in Hstop. by rewrite Hs in Hstop. }
  eapply (wp_ebind _ _ (fun r s' => quiet s1 s' /\ match r with None => failed s' = true
    | Some (f, t) => j <= f <= len /\ (if bool_decide (peek (Z.eqb 46) first = Some true) then f = j /\ t = false else fraction_span j f t) end)).
  { rewrite Hdot. destruct (c =? 46) eqn:Ec; cbn [negb].
    - split; [reflexivity|]. rewrite bool_decide_eq_true_2 by done. split; [lia|done].
    - rewrite bool_decide_eq_false_2 by done. apply wp_scan_fraction. lia. }
  { cbn beta iota. intros s2 [Hq2 Hf]. split; [by etransitivity|done]. }
  cbn beta iota. intros [f t] s2 [Hq2 [Hf Hfrac]]. assert (quiet s s2) by by etransitivity. destruct t; cbn [negb].
  - split; [done|]. split; [lia|]. intros _. right. split; [done|]. exists j, f, true. done.
  - eapply wp_mono; [apply wp_scan_exponent; lia|]. cbn beta. intros r s3 [Hq3 Hr]. split; [by etransitivity|].
    destruct r as [k|]; [|done]. destruct Hr as [Hk He]. split; [lia|]. intros _. right. split; [done|]. exists j, f, false. done.
Qed.

(** *** Literals *)

Lemma hex_run_spec fuel first i :
  0 <= first <= i -> i <= len -> (Z.to_nat (7 - (i - first)) < fuel)%nat -> i - first <= 7 ->
  exists j, hex_run fuel first i = Some j /\ i <= j <= len /\ j - first <= 7 /\ Forall (fun c => hex c = true) (slice i j).
Proof.
  revert i. induction fuel as [|fuel IH]; intros i Hi Hl Hfuel H7; [lia|]. cbn [hex_run].
  destruct (Z.ltb_spec i len); cbn [andb]; [destruct (Z.leb_spec (i - first) 6)|];
    try (exists i; rewrite slice_nil; split_and!; [done|lia|lia|lia|constructor]).
  destruct (rd_total (S := S) i ltac:(lia)) as [c Hc]. rewrite Hc. destruct (hex c) eqn:Eh.
  2:{ exists i. rewrite slice_nil. split_and!; [done|lia|lia|lia|constructor]. }
  destruct (IH (i + 1)) as (j & Hr & Hj & Hj7 & Hall); [lia|lia|lia|lia|]. exists j.
  split_and!; [done|lia|lia|lia|]. rewrite (slice_cons i j c) by (done || lia). by constructor.
Qed.

Ltac no_escape j := exists false, j; split_and!; [done|lia|lia|done].
Lemma escape_spec i :
  0 <= i <= len ->
  exists ok j, escape i = Some (ok, j) /\ i <= j <= len /\ (ok = true -> i < j /\ escape_text (slice i j)).
Proof.
  intros Hi. unfold escape. destruct (Z.eqb_spec i len); [no_escape i|].
  destruct (rd_total (S := S) i ltac:(lia)) as [c Hc]. rewrite Hc.
  destruct (one_of c _) eqn:E1.
  { exists true, (i + 1). split_and!; [done|lia|lia|]. intros _. split; [lia|].
    rewrite (slice_cons i (i + 1) c), slice_nil by (done || lia). by constructor. }
  destruct (Z.eqb_spec c 120) as [->|].
  { destruct (Z.ltb_spec (len - (i + 1)) 2); [no_escape (i + 1)|].
    destruct (rd_total (S := S) (i + 1) ltac:(lia)) as [a Ha]. rewrite Ha.
    destruct (hex a) eqn:Eha; cbn [negb]; [|no_escape (i + 1)].
    destruct (rd_total (S := S) (i + 1 + 1) ltac:(lia)) as [b Hb]. rewrite Hb.
    destruct (hex b) eqn:Ehb; cbn [negb]; [|no_escape (i + 1)].
    exists true, (i + 1 + 2). split_and!; [done|lia|lia|]. intros _. split; [lia|].
    rewrite (slice_cons i _ 120), (slice_cons (i + 1) _ a), (slice_cons (i + 1 + 1) _ b) by (done || lia).
    replace (i + 1 + 2) with (i + 1 + 1 + 1) by lia. rewrite slice_nil. by constructor. }
  destruct (Z.eqb_spec c 117) as [->|]; cbn [andb]; [|no_escape (i + 1)].
  destruct (Z.ltb_spec (i + 1) len); [|no_escape (i + 1)].
  destruct (rd_total (S := S) (i + 1) ltac:(lia)) as [b Hb]. rewrite Hb.
  destruct (Z.eqb_spec b 123) as [->|]; [|no_escape (i + 1)].
  cbv zeta. destruct (hex_run_spec 8 (i + 1 + 1) (i + 1 + 1)) as (j & -> & Hj & Hj7 & Hall); [lia..|].
  destruct (Z.eqb_spec j (i + 1 + 1)); cbn [orb]; [no_escape j|].
  destruct (j - (i + 1 + 1) >? 6) eqn:E6; cbn [orb]; [no_escape j|].
  rewrite Z.gtb_ltb in E6. to_prop.
  destruct (Z.eqb_spec j len); [no_escape j|].
  destruct (rd_total (S := S) j ltac:(lia)) as [d Hd]. rewrite Hd.
  destruct (Z.eqb_spec d 125) as [->|]; cbn [negb]; [|no_escape j].
  exists true, (j + 1). split_and!; [done|lia|lia|]. intros _. split; [lia|].
  rewrite (slice_cons i _ 117), (slice_cons (i + 1) _ 123), (slice_app (i + 1 + 1) j) by (done || lia).
  rewrite (slice_cons j _ 125), slice_nil by (done || lia). apply (escape_unicode (slice (i + 1 + 1) j)); [|done].
  pose proof (slice_length (i + 1 + 1) j). lia.
Qed.

Lemma wp_continuation n i s :
  0 <= i -> i + Z.of_nat n <= len ->
  wp (continuation n i) (fun j s' => quiet s s' /\ j = i + Z.of_nat n
    /\ (failed s' = false -> Forall cont (slice i j) /\ length (slice i j) = n)) s.
Proof using text_bytes.
  revert i s. induction n as [|n IH]; intros i s Hi Hn; cbn [continuation].
  { split; [reflexivity|]. split; [lia|]. intros _. rewrite slice_nil. done. }
  apply wp_rd; [lia|]. intros c Hc. apply wp_fail_if. intros s1 Hq1 H1.
  eapply wp_mono; [apply IH; lia|]. cbn beta. intros j s2 (Hq2 & -> & Hrest).
  split; [by etransitivity|]. split; [lia|]. intros Hok. destruct (Hrest Hok) as [Hall Hl].
  rewrite (slice_cons i _ c) by (done || lia). cbn [length]. rewrite Hl. split; [|done]. constructor; [|done].
  specialize (H1 (quiet_ok _ _ Hq2 Hok)). apply negb_false_iff in H1.
  rewrite land_cont in H1 by by eapply rd_byte. unfold cont. to_prop. lia.
Qed.

Lemma utf8_text c b rest n :
  n = utf8_extra c -> n <> 0 -> n <> 4 ->
  ((c =? 0xe0) && (b <? 0xa0)) || ((c =? 0xed) && (0xa0 <=? b))
    || ((c =? 0xf0) && (b <? 0x90)) || ((c =? 0xf4) && (0x90 <=? b)) = false ->
  Forall cont (b :: rest) -> length (b :: rest) = Z.to_nat n -> utf8_multi (c :: b :: rest).
Proof using.
  intros En H0 H4 Hb Hall Hl. unfold utf8_extra in En. apply Forall_cons in Hall as [Hcb Hrest]. unfold cont in *.
  repeat split_if_in En; subst n; to_prop; try lia; destruct rest as [|d [|e [|? ?]]]; cbn in Hl; try lia;
    repeat (apply Forall_cons in Hrest as [? Hrest]); constructor; unfold cont; lia.
Qed.

Lemma wp_scan_utf8 quote i s :
  0 <= i -> holds (fun c => negb (c =? quote) && negb (c =? 10)) i -> (forall c, rd i = Some c -> c <> 92) ->
  wp (scan_utf8 i) (fun '(ok, j) s' => quiet s s' /\ i < j <= len /\
    if ok then failed s' = false -> character quote (slice i j) else failed s' = true) s.
Proof using text_bytes.
  intros Hi Hh H92. pose proof (holds_lt _ _ Hh). unfold scan_utf8. apply wp_rd; [lia|]. intros c Hc. cbv zeta.
  unfold holds in Hh. rewrite (peek_rd _ _ _ Hc) in Hh. injection Hh as Hh. to_prop. specialize (H92 c Hc).
  set (n := utf8_extra c). assert (0 <= n <= 4) by (unfold n, utf8_extra; repeat split_if; lia).
  destruct (Z.eqb_spec n 4); cbn [orb]; [|destruct (Z.ltb_spec (len - (i + 1)) n)].
  1,2: eapply wp_bind; [apply wp_fail|]; cbn beta; intros _ s1 (Hq & Hf & _); split_and!; [done|lia|lia|done].
  eapply (wp_bind _ _ (fun _ s1 => quiet s s1 /\ (failed s1 = false -> n <> 0 -> forall b, rd (i + 1) = Some b ->
    ((c =? 0xe0) && (b <? 0xa0)) || ((c =? 0xed) && (0xa0 <=? b))
    || ((c =? 0xf0) && (b <? 0x90)) || ((c =? 0xf4) && (0x90 <=? b)) = false))).
  { destruct (Z.eqb_spec n 0); [split; [reflexivity|done]|]. apply wp_rd; [lia|]. intros b Hb. split_if.
    - eapply wp_mono; [apply wp_fail|]. cbn beta. intros _ s1 (Hq & Hf & _). split; [done|]. by rewrite Hf.
    - split; [reflexivity|]. intros _ _ b' Hb'. congruence. }
  cbn beta. intros _ s1 [Hq1 Hsecond]. eapply wp_bind; [apply wp_continuation; lia|]. cbn beta.
  intros j s2 (Hq2 & -> & Hcont). split; [by etransitivity|]. split; [lia|]. intros Hok.
  destruct (Hcont Hok) as [Hall Hl]. specialize (Hsecond (quiet_ok _ _ Hq2 Hok)).
  rewrite (slice_cons i _ c) by (done || lia). destruct (Z.eq_dec n 0) as [En|].
  - rewrite En in *. rewrite Z.add_0_r, slice_nil. apply character_plain; try lia.
    unfold n, utf8_extra in En. destruct (Z.ltb_spec c 0x80); [lia|]. repeat split_if_in En; lia.
  - destruct (rd_total (S := S) (i + 1) ltac:(lia)) as [b Hb]. specialize (Hsecond ltac:(done) b Hb).
    rewrite (slice_cons (i + 1) _ b) in * by (done || lia). apply character_utf8.
    apply (utf8_text c b _ n); done.
Qed.

Lemma wp_scan_characters fuel quote i n s :
  0 <= i <= len -> (Z.to_nat (len - i) < fuel)%nat ->
  wp (scan_characters fuel quote i n) (fun r s' => quiet s s' /\
    match r with
    | None => failed s' = true
    | Some (j, m) => i <= j <= len /\ (failed s' = false -> characters quote i j (m - n))
    end) s.
Proof using text_bytes.
  revert i n s. induction fuel as [|fuel IH]; intros i n s Hi Hfuel; [lia|]. cbn [scan_characters].
  apply wp_peek; [lia|]. intros [] Hgo.
  2:{ split; [reflexivity|]. split; [lia|]. intros _. rewrite Z.sub_diag. constructor. }
  pose proof (holds_lt _ _ Hgo).
  eapply wp_bind; [apply wp_scan_byte|]. cbn beta. intros ok s1 [Hq1 Hf1]. destruct ok; cbn [negb].
  2:{ split; [done|]. cbn. by apply Hf1. }
  assert (forall j s2, quiet s s2 -> i < j <= len -> (failed s2 = false -> character quote (slice i j)) ->
    wp (scan_characters fuel quote j (n + 1)) (fun r s' => quiet s s' /\
    match r with
    | None => failed s' = true
    | Some (k, m) => i <= k <= len /\ (failed s' = false -> characters quote i k (m - n))
    end) s2) as Hnext.
  { intros j s2 Hq2 Hj Hch. eapply wp_mono; [apply IH; lia|]. cbn beta. intros r s3 [Hq3 Hr].
    split; [by etransitivity|]. destruct r as [[k m]|]; [|done]. destruct Hr as [Hk Hr]. split; [lia|].
    intros Hok. replace (m - n) with (m - (n + 1) + 1) by lia. apply (characters_cons _ _ j); [lia| |auto].
    apply Hch. by eapply quiet_ok. }
  apply wp_rd; [lia|]. intros c Hc. destruct (Z.eqb_spec c 92) as [->|Hne].
  - destruct (escape_spec (i + 1) ltac:(lia)) as (ok & j & He & Hj & Hok).
    eapply wp_bind; [eapply (wp_lift _ (fun a s2 => a = (ok, j) /\ s2 = s1)); done|].
    cbn beta. intros [? ?] ? [[= -> ->] ->]. destruct ok.
    + destruct (Hok eq_refl) as [Hlt Hesc]. apply Hnext; [done|lia|]. intros _.
      rewrite (slice_cons i _ 92) by (done || lia). by apply character_escape.
    + eapply wp_bind; [apply wp_fail|]. cbn beta. intros _ s2 (Hq2 & Hf2 & _).
      split; [by etransitivity|]. split; [lia|]. by rewrite Hf2.
  - eapply wp_bind; [apply (wp_scan_utf8 quote); [lia|done|intros; congruence]|]. cbn beta.
    intros [ok j] s2 (Hq2 & Hj & Hok). destruct ok; [apply Hnext; [by etransitivity|lia|done]|].
    split; [by etransitivity|]. split; [lia|]. by rewrite Hok.
Qed.

Lemma wp_scan_literal first quote s :
  0 <= first -> holds (Z.eqb quote) first ->
  wp (scan_literal first quote) (fun r s' => quiet s s' /\
    match r with None => failed s' = true
    | Some j => first < j <= len /\ (failed s' = false -> literal_span quote first j) end) s.
Proof using text_bytes.
  intros Hf Hq. pose proof (holds_lt _ _ Hq). unfold scan_literal. cbv zeta.
  eapply wp_ebind; [apply wp_scan_characters; [lia|unfold fuel_at; lia]|done|]. cbn beta iota.
  intros [i n] s1 [Hq1 [Hi Hch]]. apply wp_peek; [lia|]. intros close Hclose.
  eapply (wp_bind _ _ (fun j s2 => quiet s1 s2 /\ first < j <= len /\ (failed s2 = false -> close = true /\ j = i + 1))).
  { destruct close; cbn [negb].
    - pose proof (holds_lt _ _ Hclose). split; [reflexivity|]. split; [lia|done].
    - eapply wp_bind; [apply wp_fail|]. cbn beta. intros _ s2 (Hq2 & Hf2 & _). split; [done|]. split; [lia|].
      by rewrite Hf2. }
  cbn beta. intros j s2 (Hq2 & Hj & Hok2). apply wp_fail_if. intros s3 Hq3 Hone.
  split; [by do 2 (etransitivity; [eassumption|])|]. split; [lia|]. intros Hok.
  assert (failed s2 = false) as Hs2 by by eapply quiet_ok.
  destruct (Hok2 Hs2) as [-> ->]. specialize (Hone Hok). exists n. replace (i + 1 - 1) with i by lia.
  split_and!; [done| |done|].
  - rewrite <- (Z.sub_0_r n). apply Hch. by eapply quiet_ok.
  - intros ->. cbn in Hone. to_prop. lia.
Qed.

(** *** Punctuation *)

Definition triple_head (c next : Z) : bool :=
  ((c =? 46) && (next =? 46)) || (((c =? 60) || (c =? 62)) && (next =? c)).
(** What the tests of [scan_punct] say of each operator of the table. *)
Definition operator_shape (o : bytes) : bool :=
  match o with
  | [c] => negb (c =? 36) && negb (c =? 35) && one_of c single_operators
  | [c; next] => negb (c =? 36) && negb (c =? 35) && is_pair c next
  | [c; next; third] => is_pair c next && triple_head c next && (third =? 61)
  | _ => false
  end.
Lemma operators_shape o : In o operators -> operator_shape o = true.
Proof using. apply forallb_forall. vm_compute. reflexivity. Qed.

Lemma one_of_in c l : one_of c l = true -> In c l.
Proof using. unfold one_of. intros H. apply existsb_exists in H as (x & Hx & E). apply Z.eqb_eq in E. by subst. Qed.
Lemma single_operator c : one_of c single_operators = true -> In [c] operators.
Proof using.
  intros H%one_of_in. vm_compute in H. repeat destruct H as [<-|H]; try done; vm_compute; tauto.
Qed.
Lemma pair_operator c next :
  is_pair c next = true ->
  In [c; next] operators /\ (triple_head c next = true -> In [c; next; 61] operators).
Proof using.
  intros H. unfold is_pair in H. unfold triple_head. to_prop.
  destruct H as [[[[[-> [-> | ->]]|[[-> | ->] ->]]|[[-> | ->] ->]]|[-> H]]|[-> ->]];
    try (split; [|intros _]; vm_compute; tauto).
  - split; [vm_compute; tauto|]. cbn. done.
  - split; [vm_compute; tauto|]. cbn. done.
  - split; [vm_compute; tauto|]. cbn. done.
  - apply one_of_in in H. vm_compute in H. repeat destruct H as [<-|H]; try done; (split; [vm_compute; tauto|]); done.
  - split; [vm_compute; tauto|]. cbn. done.
Qed.

(** Every operator of the table at [a] is at most as long as the one read. *)
Lemma operator_longest a b c next :
  0 <= a < len -> rd a = Some c -> (if a + 1 <? len then rd (a + 1) else Some 0) = Some next ->
  a < b -> (b = a + 1 -> is_pair c next = false) ->
  (b = a + 2 -> triple_head c next = true -> peek (Z.eqb 61) (a + 2) = Some false) ->
  b <= a + 3 ->
  forall o, In o operators -> here a o -> Z.of_nat (length o) <= b - a.
Proof using.
  intros Ha Hc Hn Hab H1 H2 H3 o Ho Hat. pose proof (operators_shape o Ho) as Hs.
  apply at_here in Hat; [|lia|by intros ->].
  destruct o as [|x [|y [|z [|? ?]]]]; cbn [operator_shape length] in *; try done; [lia|..].
  - to_prop. destruct (at_cons a _ _ ltac:(lia) Hat) as [Hx Hat1].
    destruct (at_cons (a + 1) _ _ ltac:(lia) Hat1) as [Hy _]. apply at_len in Hat. cbn [length] in Hat.
    rewrite (proj2 (Z.ltb_lt _ _)) in Hn by lia. simplify_eq. destruct (Z.eq_dec b (a + 1)) as [->|]; [|lia].
    rewrite H1 in Hs by done. by destruct Hs.
  - to_prop. destruct Hs as [[Hp Ht] ->]. destruct (at_cons a _ _ ltac:(lia) Hat) as [Hx Hat1].
    destruct (at_cons (a + 1) _ _ ltac:(lia) Hat1) as [Hy Hat2].
    destruct (at_cons (a + 1 + 1) _ _ ltac:(lia) Hat2) as [Hz _]. apply at_len in Hat. cbn [length] in Hat.
    rewrite (proj2 (Z.ltb_lt _ _)) in Hn by lia. simplify_eq.
    destruct (Z.eq_dec b (a + 1)) as [->|]; [by rewrite H1 in Hp|].
    destruct (Z.eq_dec b (a + 2)) as [->|]; [|lia]. specialize (H2 eq_refl Ht).
    replace (a + 1 + 1) with (a + 2) in Hz by lia. by rewrite (peek_rd _ _ _ Hz) in H2.
Qed.

Lemma wp_scan_punct first s :
  0 <= first < len -> ~ (holds (Z.eqb 46) first /\ holds digit (first + 1)) ->
  wp (scan_punct first) (fun r s' => quiet s s' /\
    match r with
    | None => failed s' = true
    | Some (j, k) => first < j <= len /\ (failed s' = false -> k = PUNCT /\ punct_span first j)
    end) s.
Proof using.
  intros Hf Hnodot. unfold scan_punct. apply wp_rd; [lia|]. intros c Hc. cbv zeta.
  destruct (Z.eqb_spec c 36) as [->|H36].
  { apply wp_peek; [lia|]. intros named Hnamed. apply wp_fail_if. intros s1 Hq1 Hok1.
    eapply wp_ebind; [apply wp_scan_run; lia| |]; cbn beta iota.
    { intros s2 [Hq2 ?]. split; [by etransitivity|done]. }
    intros j s2 [Hq2 [Hj Hmax]]. split; [by etransitivity|]. split; [destruct Hmax as [[]]; lia|].
    intros Hok. split; [done|]. split; [done|]. right; left. unfold holds. rewrite (peek_rd _ _ _ Hc). split; [done|]. split; [|done].
    specialize (Hok1 (quiet_ok _ _ Hq2 Hok)). apply negb_false_iff in Hok1. by subst. }
  destruct (Z.eqb_spec c 35) as [->|H35].
  { eapply wp_ebind; [apply wp_scan_run; lia|done|]. cbn beta iota.
    intros j s1 [Hq1 [Hj Hmax]]. split; [done|]. split; [destruct Hmax as [[]]; lia|].
    intros Hok. split; [done|]. split; [done|]. right; right. unfold holds. by rewrite (peek_rd _ _ _ Hc). }
  eapply (wp_bind _ _ (fun next s' => s' = s /\ (if first + 1 <? len then rd (first + 1) else Some 0) = Some next)).
  { destruct (Z.ltb_spec (first + 1) len); [|done]. destruct (rd_total (S := S) (first + 1) ltac:(lia)) as [n Hn].
    eapply wp_lift; [exact Hn|done]. }
  cbn beta. intros next ? [-> Hn]. destruct (is_pair c next) eqn:Hp.
  - assert (rd (first + 1) = Some next /\ first + 1 < len) as [Hn' Hl].
    { destruct (Z.ltb_spec (first + 1) len); [done|]. injection Hn as <-. unfold is_pair in Hp. to_prop.
      assert (one_of 0 pair_operators = false) by reflexivity. intuition (try lia; try congruence).
      all: destruct (one_of_in _ _ H4). }
    destruct (pair_operator c next Hp) as [Hin Hin3].
    fold (triple_head c next).
    eapply (wp_bind _ _ (fun third s' => s' = s /\ (third = true -> triple_head c next = true /\ holds (Z.eqb 61) (first + 2))
      /\ (third = false -> triple_head c next = true -> peek (Z.eqb 61) (first + 2) = Some false))).
    { destruct (triple_head c next); [|done]. replace (first + 2) with (first + 1 + 1) by lia.
      destruct (peek_total (Z.eqb 61) (first + 1 + 1) ltac:(lia)) as [b Hb].
      eapply wp_lift; [exact Hb|]. split; [done|]. destruct b; done. }
    cbn beta. intros third ? (-> & H3t & H3f). split; [reflexivity|]. destruct third.
    + destruct (H3t eq_refl) as [Ht H61]. pose proof (holds_lt _ _ H61). split; [lia|]. intros _. split; [done|]. split; [done|]. left. split.
      * destruct (rd_total (S := S) (first + 2) ltac:(lia)) as [z Hz]. unfold holds in H61.
        rewrite (peek_rd _ _ _ Hz) in H61. assert ((61 =? z) = true) as E61 by congruence. apply Z.eqb_eq in E61 as <-.
        rewrite (slice_cons _ _ c), (slice_cons _ _ next) by (done || lia).
        replace (first + 1 + 1) with (first + 2) by lia. rewrite (slice_cons _ _ 61) by (done || lia).
        rewrite slice_nil. auto.
      * apply (operator_longest _ _ c next); try done; lia.
    + split; [lia|]. intros _. split; [done|]. split; [done|]. left. split.
      * rewrite (slice_cons _ _ c), (slice_cons _ _ next), slice_nil by (done || lia). done.
      * apply (operator_longest _ _ c next); try done; try lia. intros _. auto.
  - destruct (one_of c single_operators) eqn:H1; cbn [negb].
    + split; [reflexivity|]. split; [lia|]. intros _. split; [done|]. split; [done|]. left. split.
      * rewrite (slice_cons _ _ c), slice_nil by (done || lia). by apply single_operator.
      * apply (operator_longest _ _ c next); try done; lia.
    + eapply wp_bind; [apply wp_fail|]. cbn beta. intros _ s1 (Hq1 & Hf1 & _). split; [done|]. split; [lia|]. by rewrite Hf1.
Qed.

End Scans.

(** ** The lexer *)

Section LexSpec.
Context {S : Source}.
Context (text_bytes : Forall is_byte text).

Lemma wp_scan_token first e s :
  0 <= first <= len ->
  wp (scan_token first e) (fun r s' => quiet s s' /\
    match r with
    | None => failed s' = true
    | Some (j, k) => first <= j <= len /\ (k = END \/ first < j) /\ (failed s' = false -> token_span (mkToken first j k))
    end) s.
Proof using text_bytes.
  intros Hf. unfold scan_token. destruct (Z.eqb_spec first len) as [->|Hne].
  { split; [reflexivity|]. split; [lia|]. split; [by left|done]. }
  apply wp_rd; [lia|]. intros c Hc. destruct (alpha c) eqn:Ha.
  { eapply wp_ebind; [apply wp_scan_run; lia|done|]. cbn beta iota. intros j s1 [Hq [Hj Hmax]].
    assert (first + 1 <= j) by (destruct Hmax as [[]]; lia). split; [done|]. split; [lia|]. split; [right; lia|].
    intros _. unfold token_span, name_span, holds; cbn. by rewrite (peek_rd _ _ _ Hc), Ha. }
  assert (exists number, number_start first c = Some number
    /\ (number = true -> holds digit first \/ holds (Z.eqb 46) first /\ holds digit (first + 1))
    /\ (number = false -> ~ (holds (Z.eqb 46) first /\ holds digit (first + 1)))) as (number & Hnum & Hstart & Hnot).
  { unfold number_start. destruct (digit c) eqn:Hd.
    { exists true. split; [done|]. split; [|done]. left. unfold holds. by rewrite (peek_rd _ _ _ Hc), Hd. }
    destruct (Z.eqb_spec c 46) as [->|Hc46].
    2: { exists false. split_and!; [done|done|]. intros _ [H46 _]. unfold holds in H46. rewrite (peek_rd _ _ _ Hc) in H46.
         assert ((46 =? c) = true) as E46 by congruence. apply Z.eqb_eq in E46. congruence. }
    destruct (peek_total digit (first + 1) ltac:(lia)) as [b Hb]. exists b. split; [done|]. split; intros ->.
    - right. split; [|done]. unfold holds. by rewrite (peek_rd _ _ _ Hc).
    - intros [_ Hd1]. unfold holds in Hd1. congruence. }
  eapply wp_bind; [eapply (wp_lift _ (fun a s1 => a = number /\ s1 = s)); done|]. cbn beta. intros ? ? [-> ->].
  destruct number.
  { eapply wp_ebind; [apply wp_scan_number; [lia|auto]|done|]. cbn beta iota. intros j s1 [Hq [Hj Hsp]].
    split; [done|]. split; [lia|]. split; [right; lia|done]. }
  destruct ((c =? 34) || (c =? 39)) eqn:Hquote.
  { eapply wp_ebind; [apply (wp_scan_literal text_bytes); [lia|]|done|].
    { unfold holds. by rewrite (peek_rd _ _ _ Hc), Z.eqb_refl. }
    cbn beta iota. intros j s1 [Hq [Hj Hsp]]. split; [done|]. split; [lia|]. split; [right; lia|].
    intros Hok. specialize (Hsp Hok). to_prop. by destruct Hquote as [-> | ->]. }
  eapply wp_mono; [apply wp_scan_punct; [lia|auto]|]. cbn beta. intros r s1 [Hq Hr]. split; [done|].
  destruct r as [[j k]|]; [|done]. destruct Hr as [Hj Hsp]. split; [lia|]. split; [right; lia|].
  intros Hok. destruct (Hsp Hok) as [-> ?]. done.
Qed.

(** What holds between the calls of the lexer. *)
Record bounded (s : St) : Prop := {
  bounded_token : 0 <= start (tok s) <= end_ (tok s);
  bounded_offset : end_ (tok s) <= offset (parser s) <= len;
  bounded_work : 0 <= work_remaining s }.

(** What [lex] leaves unchanged. *)
Record lexed (s s' : St) : Prop := {
  lexed_depth : depth (parser s') = depth (parser s);
  lexed_brace : block_brace (parser s') = block_brace (parser s);
  lexed_nodes : nodes (tree s') = nodes (tree s);
  lexed_capacity : capacity (tree s') = capacity (tree s);
  lexed_root : root (tree s') = root (tree s);
  lexed_work : work_remaining s' <= work_remaining s;
  lexed_progress : failed s' = false -> work_remaining s' < work_remaining s;
  lexed_failed : failed s = true -> failed s' = true;
  lexed_kind : failed s' = false -> error_kind (tree s') = error_kind (tree s) }.

(** The next token, and the lexer behind it. *)
Definition next_token (s s' : St) : Prop := next_at (offset (parser s)) (tok s') /\ offset (parser s') = end_ (tok s').

Lemma wp_lex_at s :
  0 <= offset (parser s) <= len -> 0 <= work_remaining s ->
  wp lex (fun _ s' => (bounded s -> bounded s') /\ 0 <= work_remaining s' /\ lexed s s'
    /\ (failed s' = false -> next_token s s')) s.
Proof using text_bytes.
  intros Ho Hw. unfold lex. set (o := offset (parser s)) in *.
  eapply (wp_bind _ _ (fun a s1 => a = o /\ s1 = s)); [done|]. cbn beta. intros ? ? [-> ->].
  eapply (wp_bind (charge 1 o)); [apply wp_charge; lia|]. cbn beta. intros ok s1 [Hq1 Hok1].
  assert (0 <= work_remaining s1 <= work_remaining s) as Hw1 by by apply (quiet_work _ _ Hq1).
  pose proof (quiet_token _ _ Hq1) as Htok1. pose proof (quiet_offset _ _ Hq1) as Hoff1.
  destruct ok; cbn [negb].
  2:{ unfold wp, modify. destruct Hq1.
      split; [intros [Ht' Ho' _]; constructor; cbn; fold o in quiet_offset0, Ho'; lia|]. split; [cbn; lia|].
      split; [|intros Hf; unfold failed in *; cbn in Hf; congruence].
      constructor; cbn; auto; [lia|]. intros Hf. unfold failed in *. cbn in Hf. congruence. }
  destruct Hok1 as (Hw1' & _ & Hf1).
  eapply (wp_bind _ _ (fun r s2 => quiet s1 s2 /\ match r with
    | None => failed s2 = true
    | Some t => o <= start t <= end_ t /\ end_ t <= len /\ (kind t = END \/ start t < end_ t)
                /\ (failed s2 = false -> trivia o (start t) /\ bare (start t) /\ token_span t) end)).
  { eapply wp_ebind; [apply wp_skip_trivia; [lia|unfold fuel_at; lia]|done|]. cbn beta iota.
    intros [first e] s2 [Hq2 [Hfirst Htr]].
    eapply wp_ebind; [apply wp_scan_token; lia| |]; cbn beta iota.
    { intros s3 [Hq3 Hf3]. split; [by etransitivity|done]. }
    intros [j k] s3 [Hq3 (Hj & Hk & Hsp)]. split; [by etransitivity|]. cbn. split_and!; [lia|lia|lia|done|].
    intros Hok. destruct (Htr (quiet_ok _ _ Hq3 Hok)). auto. }
  cbn beta. intros r s2 [Hq2 Hr].
  assert (0 <= work_remaining s2 <= work_remaining s1) as Hw2 by (apply (quiet_work _ _ Hq2); lia).
  destruct r as [t|].
  - destruct Hr as (Hst & Hend & Hkind & Hsp). destruct Hq1, Hq2. unfold wp, modify. split; [intros _; constructor; cbn; lia|].
    split; [cbn; lia|]. split.
    + constructor; cbn; try congruence; [lia|lia|auto|]. intros Hok. rewrite quiet_kind1 by done. by apply quiet_kind0.
    + intros Hok. destruct (Hsp Hok) as (? & ? & ?). split; [|done]. cbn. fold o. split_and!; done || lia.
  - destruct Hq1, Hq2. unfold wp, ret. split.
    { intros [Ht' Ho' _]. fold o in Ho'. constructor; rewrite ?quiet_token1, ?Htok1, ?quiet_offset1, ?Hoff1; fold o; lia. }
    split; [lia|]. split.
    + constructor; first [congruence | lia | by auto | intros; congruence].
    + intros; congruence.
Qed.

Lemma wp_lex s :
  bounded s ->
  wp lex (fun _ s' => bounded s' /\ lexed s s' /\ (failed s' = false -> next_token s s')) s.
Proof using text_bytes.
  intros Hb. pose proof Hb as [Ht Ho Hw]. eapply wp_mono; [apply wp_lex_at; lia|]. cbn beta. intros _ s' (H1 & _ & H2 & H3). auto.
Qed.

End LexSpec.

(** ** The grammar has one reading *)

Section Unique.
Context {S : Source}.

Lemma maximal_unique f i j j' : maximal f i j -> maximal f i j' -> j = j'.
Proof.
  intros [[H1 H2] H3] [[H4 H5] H6]. destruct (Z.lt_trichotomy j j') as [H|[H|H]]; [|done|].
  - specialize (H5 j ltac:(lia)). unfold holds in H5. congruence.
  - specialize (H2 j' ltac:(lia)). unfold holds in H2. congruence.
Qed.
(** The byte two tests are true of. *)
Lemma holds_both f g i : holds f i -> holds g i -> exists c, rd i = Some c /\ f c = true /\ g c = true.
Proof. intros (c & Hc & Hf)%holds_rd (c' & Hc' & Hg)%holds_rd. exists c. split_and!; [done|done|congruence]. Qed.
Lemma here_head i c s : here i (c :: s) -> rd i = Some c /\ here (i + 1) s.
Proof.
  intros [Hi H]. destruct (drop (Z.to_nat i) text) as [|x l] eqn:E; [done|]. cbn in H. injection H as -> H.
  assert (text !! Z.to_nat i = Some c) as Hl by (rewrite <- (Nat.add_0_r (Z.to_nat i)), <- lookup_drop, E; done).
  split; [|split; [lia|]].
  - unfold rd. apply get_at_Some. split; [|done]. apply lookup_lt_Some in Hl. lia.
  - replace (Z.to_nat (i + 1)) with (Datatypes.S (Z.to_nat i)) by lia. rewrite (drop_S _ _ _ Hl) in E. by injection E as ->.
Qed.
Lemma here_holds i c s : here i (c :: s) -> holds (Z.eqb c) i.
Proof. intros [H _]%here_head. unfold holds. by rewrite (peek_rd _ _ _ H), Z.eqb_refl. Qed.
Lemma here_unique i a b c d : here i [a; b] -> here i [c; d] -> a = c /\ b = d.
Proof. intros [H1 [H2 _]%here_head]%here_head [H3 [H4 _]%here_head]%here_head. split; congruence. Qed.

Ltac both H1 H2 := destruct (holds_both _ _ _ H1 H2) as (? & _ & ? & ?); cbn [letter figure blank tested_classes] in *;
  unfold alpha, digit, space in *; to_prop; lia.

Lemma comment_head i : here i (str "//") \/ here i (str "/*") -> holds (Z.eqb 47) i.
Proof. by intros [H|H]; apply here_holds in H. Qed.
Lemma comment_kinds i : here i (str "//") -> here i (str "/*") -> False.
Proof. intros H1 H2. change (str "//") with [47; 47] in H1. change (str "/*") with [47; 42] in H2. by destruct (here_unique _ _ _ _ _ H1 H2). Qed.
Lemma trivia_unique o a b : trivia o a -> bare a -> trivia o b -> bare b -> a = b.
Proof.
  intros Ha (A1 & A2 & A3). revert b. induction Ha as [o|o a Hs _ IH|o e a Hl Hm _ IH|o e a Hl He Hno Hc _ IH];
    intros b Hb (B1 & B2 & B3); inversion Hb as [?|? ? Hs'|? e' ? Hl' Hm'|? e' ? Hl' He' Hno' Hc']; subst; try done.
  - unfold holds in *. congruence.
  - unfold holds in *. congruence.
  - by apply IH.
  - exfalso. pose proof (comment_head o (or_introl Hl')) as Hh. both Hs Hh.
  - exfalso. pose proof (comment_head o (or_intror Hl')) as Hh. both Hs Hh.
  - exfalso. pose proof (comment_head o (or_introl Hl)) as Hh. both Hs' Hh.
  - rewrite (maximal_unique _ _ _ _ Hm Hm') in *. by apply IH.
  - exfalso. by apply (comment_kinds o).
  - exfalso. pose proof (comment_head o (or_intror Hl)) as Hh. both Hs' Hh.
  - exfalso. by apply (comment_kinds o).
  - assert (e = e') as <-; [|by apply IH]. destruct (Z.lt_trichotomy e e') as [H'|[H'|H']]; [|done|].
    + by destruct (Hno' e ltac:(lia)).
    + by destruct (Hno e' ltac:(lia)).
Qed.

(** *** Numbers *)

Lemma fraction_unique a b t b' t' : fraction_span a b t -> fraction_span a b' t' -> b = b' /\ t = t'.
Proof.
  intros [(-> & -> & H1)|(H1 & H2 & H3)] [(-> & -> & H4)|(H4 & H5 & H6)].
  - done.
  - exfalso. destruct H1; [unfold holds in *; congruence|done].
  - exfalso. destruct H4; [unfold holds in *; congruence|done].
  - destruct H3 as [(-> & Hd & Hm)|(-> & Hd & ->)], H6 as [(-> & Hd' & Hm')|(-> & Hd' & ->)]; try (unfold holds in *; congruence); try done.
    split; [|done]. by eapply maximal_unique.
Qed.
Lemma exponent_at_unique a d d' : exponent_at a d -> exponent_at a d' -> d = d'.
Proof.
  intros (_ & H1 & H2) (_ & H3 & H4). destruct H1 as [->|[-> H1]], H3 as [->|[-> H3]]; try done; exfalso.
  - by apply (holds_digit_sign (a + 1)).
  - by apply (holds_digit_sign (a + 1)).
Qed.
Lemma exponent_unique a b b' : exponent_span a b -> exponent_span a b' -> b = b'.
Proof.
  intros [[-> H1]|(d & H1 & H2)] [[-> H3]|(d' & H3 & H4)]; [done|by destruct (H1 d')|by destruct (H3 d)|].
  rewrite (exponent_at_unique _ _ _ H1 H3) in *. by eapply maximal_unique.
Qed.
Lemma integer_unique a b b' : integer_span a b -> integer_span a b' -> b = b'.
Proof.
  intros [[H1 H2]|(H1 & H2 & H3)] [[H4 H5]|(H4 & H5 & H6)]; try (by eapply maximal_unique).
  - exfalso. both H1 H4.
  - exfalso. both H4 H1.
Qed.
Lemma number_unique a b b' : number_span a b -> number_span a b' -> b = b'.
Proof.
  intros [(base & ds & Hin & Hh & Hm & _)|[Hno (i & f & t & Hi & Hf & He)]]
         [(base' & ds' & Hin' & Hh' & Hm' & _)|[Hno' (i' & f' & t' & Hi' & Hf' & He')]].
  - destruct (here_unique _ _ _ _ _ Hh Hh') as [_ <-].
    assert (ds = ds') as <-; [|by eapply maximal_unique].
    destruct Hin as [[= <- <-]|[[= <- <-]|[[= <- <-]|[]]]], Hin' as [[= <-]|[[= <-]|[[= <-]|[]]]]; done.
  - by destruct (Hno' base ds Hin).
  - by destruct (Hno base' ds' Hin').
  - rewrite (integer_unique _ _ _ Hi' Hi) in *. assert (f = f' /\ t = t') as [<- <-].
    { destruct (bool_decide _); [by destruct Hf as [-> ->], Hf' as [-> ->]|by eapply fraction_unique]. }
    destruct t; [congruence|by eapply exponent_unique].
Qed.

(** *** Literals *)

(** No character is the start of another. *)
Lemma escape_prefix t t' r r' : escape_text t -> escape_text t' -> t ++ r = t' ++ r' -> t = t'.
Proof.
  assert (forall c, one_of c [110; 114; 116; 48; 92; 34; 39] = true -> c <> 120 /\ c <> 117) as Hl
    by (intros c Hc%one_of_in; cbn in Hc; lia).
  intros [c Hc|a b _ _|ds _ Hds] [c' Hc'|a' b' _ _|ds' _ Hds'] E; cbn in E; simplify_eq; try done;
    try (destruct (Hl _ Hc); done); try (destruct (Hl _ Hc'); done).
  f_equal. rewrite <- !app_assoc in E. cbn in E. f_equal. revert ds' Hds' E.
  induction Hds as [|d ds Hd _ IH]; intros [|d' ds'] Hds' E; cbn in E; simplify_eq; try done;
    apply Forall_cons in Hds' as [Hd' Hds']; [done|]. f_equal. by apply IH.
Qed.
Lemma character_prefix quote t t' r r' : character quote t -> character quote t' -> t ++ r = t' ++ r' -> t = t'.
Proof.
  intros [c H1 H2 H3 H4|t0 Hu|t0 He] [c' H1' H2' H3' H4'|t0' Hu'|t0' He'] E.
  - cbn in E. by simplify_eq.
  - exfalso. destruct Hu'; cbn in E; simplify_eq; lia.
  - exfalso. cbn in E. by simplify_eq.
  - exfalso. destruct Hu; cbn in E; simplify_eq; lia.
  - destruct Hu, Hu'; cbn in E; simplify_eq; try done; exfalso; lia.
  - exfalso. destruct Hu; cbn in E; simplify_eq; lia.
  - exfalso. cbn in E. by simplify_eq.
  - exfalso. destruct Hu'; cbn in E; simplify_eq; lia.
  - cbn in E. simplify_eq. f_equal. by eapply escape_prefix.
Qed.
Lemma slice_tail i j : 0 <= i <= j -> slice i j ++ drop (Z.to_nat j) text = drop (Z.to_nat i) text.
Proof.
  intros H. unfold slice. rewrite <- (take_drop (Z.to_nat (j - i)) (drop (Z.to_nat i) text)) at 2. f_equal. rewrite drop_drop. f_equal. lia.
Qed.
Lemma characters_le quote i j n : characters quote i j n -> i <= j.
Proof. induction 1; lia. Qed.
Lemma quote_no_character quote i k : quote = 34 \/ quote = 39 -> 0 <= i < k -> character quote (slice i k) -> holds (Z.eqb quote) i -> False.
Proof.
  intros Hq Hi Hc (c & Hrd & E)%holds_rd. apply Z.eqb_eq in E as <-. rewrite (slice_cons i k quote) in Hc by done.
  inversion Hc as [c H1 H2 H3 H4 E|t Hu E|t He E]; subst.
  - done.
  - inversion Hu; subst; lia.
  - lia.
Qed.
Lemma characters_unique quote i j j' n n' :
  quote = 34 \/ quote = 39 -> 0 <= i -> j <= len -> j' <= len ->
  characters quote i j n -> holds (Z.eqb quote) j -> characters quote i j' n' -> holds (Z.eqb quote) j' -> j = j'.
Proof.
  intros Hq Hi Hj Hj' Hc Hend. revert j' n' Hj'. induction Hc as [i|i k j n Hik Hch Hc IH]; intros j' n' Hj' Hc' Hend'.
  - destruct Hc' as [|i k j' n' Hik Hch _]; [done|exfalso]. by apply (quote_no_character quote i k).
  - destruct Hc' as [|i k' j' n' Hik' Hch' Hc']; [exfalso; by apply (quote_no_character quote i k)|].
    assert (k <= len) by (eapply characters_le in Hc; lia). assert (k' <= len) by (eapply characters_le in Hc'; lia).
    assert (slice i k = slice i k') as E.
    { eapply (character_prefix quote _ _ (drop (Z.to_nat k) text) (drop (Z.to_nat k') text)); [done|done|]. rewrite !slice_tail by lia. done. }
    apply (f_equal (fun l => Z.of_nat (length l))) in E. rewrite !slice_length in E by lia. assert (k = k') as <- by lia.
    eapply IH; eauto. lia.
Qed.
Lemma literal_unique quote a b b' :
  quote = 34 \/ quote = 39 -> 0 <= a -> b <= len -> b' <= len -> literal_span quote a b -> literal_span quote a b' -> b = b'.
Proof.
  intros Hq Ha Hb Hb' (n & _ & H1 & H2 & _) (n' & _ & H3 & H4 & _).
  assert (b - 1 = b' - 1); [|lia]. apply (characters_unique quote (a + 1) (b - 1) (b' - 1) n n'); done || lia.
Qed.

(** *** Tokens *)

Definition punct_head (c : Z) : bool := one_of c (single_operators ++ [36; 35]).
(** What a token starts with. *)
Definition head_of (k : TokenKind) (a : Z) : Prop :=
  match k with
  | END => a = len
  | NAME => holds alpha a
  | NUMBER => holds digit a \/ holds (Z.eqb 46) a /\ holds digit (a + 1)
  | STRING => holds (Z.eqb 34) a
  | CHARACTER => holds (Z.eqb 39) a
  | PUNCT => holds punct_head a /\ ~ (holds (Z.eqb 46) a /\ holds digit (a + 1))
  | BAD => False
  end.
Lemma slice_here a b o : 0 <= a <= b -> b <= len -> slice a b = o -> here a o.
Proof.
  intros Ha Hb <-. split; [lia|]. pose proof (slice_length a b Ha Hb). unfold slice at 2. f_equal. lia.
Qed.
Lemma operator_head a o : In o operators -> here a o -> holds punct_head a.
Proof.
  intros Ho Hh. assert (forallb (fun o => match o with c :: _ => punct_head c | [] => false end) operators = true) as Hall by reflexivity.
  rewrite forallb_forall in Hall. specialize (Hall o Ho). destruct o as [|c o]; [done|]. apply here_head in Hh as [Hc _].
  unfold holds. by rewrite (peek_rd _ _ _ Hc), Hall.
Qed.
Lemma number_start_char a b : number_span a b -> head_of NUMBER a.
Proof.
  intros [(base & ds & _ & Hh & _)|[_ (i & f & t & [[H _]|(H1 & H2 & _)] & _)]]; [|by left|by right].
  left. apply here_head in Hh as [Hc _]. unfold holds. by rewrite (peek_rd _ _ _ Hc).
Qed.
Lemma token_head t : 0 <= start t <= end_ t -> end_ t <= len -> token_span t -> head_of (kind t) (start t).
Proof.
  intros H1 H2. unfold token_span. destruct (kind t); cbn [head_of].
  - by intros [].
  - by intros [].
  - apply number_start_char.
  - by intros (n & ? & _).
  - by intros (n & ? & _).
  - intros [Hno Hp]. split; [|exact Hno]. destruct Hp as [[Ho _]|[[Hh _]|[Hh _]]].
    + eapply operator_head; [exact Ho|]. by eapply slice_here.
    + apply holds_rd in Hh as (c & Hc & Hcc). apply Z.eqb_eq in Hcc as <-. unfold holds. by rewrite (peek_rd _ _ _ Hc).
    + apply holds_rd in Hh as (c & Hc & Hcc). apply Z.eqb_eq in Hcc as <-. unfold holds. by rewrite (peek_rd _ _ _ Hc).
  - done.
Qed.
Lemma head_len k : head_of k len -> k = END.
Proof.
  destruct k; cbn; try done; [intros H|intros [H|[H _]]|intros H|intros H|intros [H _]]; apply holds_lt in H; lia.
Qed.
Lemma punct_byte f a : holds punct_head a -> holds f a -> exists c, In c (single_operators ++ [36; 35]) /\ f c = true.
Proof. intros H1 H2. destruct (holds_both _ _ _ H1 H2) as (c & _ & Hp & Hf). exists c. split; [by apply one_of_in|done]. Qed.
Lemma punct_not_word f a : f = alpha \/ f = digit \/ f = Z.eqb 34 \/ f = Z.eqb 39 -> holds punct_head a -> ~ holds f a.
Proof.
  intros Hf H1 H2. destruct (punct_byte f a H1 H2) as (c & Hin & Hc).
  assert (forallb (fun c => negb (f c)) (single_operators ++ [36; 35]) = true) as Hall by (destruct Hf as [->|[->|[->| ->]]]; reflexivity).
  rewrite forallb_forall in Hall. specialize (Hall c Hin). by rewrite Hc in Hall.
Qed.
Lemma head_unique k k' a : head_of k a -> head_of k' a -> k = k'.
Proof.
  assert (forall a, holds (Z.eqb 46) a -> holds punct_head a) as Hdot.
  { intros i (c & Hc & Hcc)%holds_rd. apply Z.eqb_eq in Hcc as <-. unfold holds. by rewrite (peek_rd _ _ _ Hc). }
  destruct (Z.eq_dec a len) as [->|Hne]; [intros H1%head_len H2%head_len; congruence|].
  destruct k, k'; cbn [head_of]; try done; intros H H'; exfalso;
    repeat match goal with H : _ \/ _ |- _ => destruct H as [H|H] | H : _ /\ _ |- _ => destruct H end;
    try tauto; try lia;
    try match goal with
    | H : holds punct_head ?a, H' : holds ?f ?a |- _ => exact (punct_not_word f a ltac:(tauto) H H')
    | H : holds (Z.eqb 46) ?a, H' : holds ?f ?a |- _ => exact (punct_not_word f a ltac:(tauto) (Hdot a H) H')
    end;
    match goal with H : holds ?f ?a, H' : holds ?g ?a |- _ => both H H' end.
Qed.
Lemma punct_unique a b b' : 0 <= a <= b -> a <= b' -> b <= len -> b' <= len -> punct_span a b -> punct_span a b' -> b = b'.
Proof.
  intros Ha Hab Hb Hb' [_ Hp] [_ Hp'].
  assert (forall c, (c = 36 \/ c = 35) -> forall o, In o operators -> here a o -> ~ holds (Z.eqb c) a) as Hno.
  { intros c Hc o Ho Hh Hx. assert (forallb (fun o => match o with x :: _ => negb (x =? 36) && negb (x =? 35) | [] => false end) operators = true) as Hall by reflexivity.
    rewrite forallb_forall in Hall. specialize (Hall o Ho). destruct o as [|x o]; [done|]. apply here_holds in Hh.
    destruct (holds_both _ _ _ Hh Hx) as (y & _ & E1 & E2). to_prop. lia. }
  pose proof (slice_here a b _ Ha Hb eq_refl) as Hh. pose proof (slice_here a b' _ ltac:(lia) Hb' eq_refl) as Hh'.
  destruct Hp as [[Ho Hl]|[(H36 & _ & Hm)|[H35 Hm]]], Hp' as [[Ho' Hl']|[(H36' & _ & Hm')|[H35' Hm']]];
    try (exfalso; eapply (Hno 36); eauto; fail); try (exfalso; eapply (Hno 35); eauto; fail);
    try (by eapply maximal_unique).
  - pose proof (Hl _ Ho' Hh') as L1. pose proof (Hl' _ Ho Hh) as L2.
    rewrite slice_length in L1, L2 by lia. lia.
  - exfalso. both H36 H35'.
  - exfalso. both H36' H35.
Qed.
Lemma token_unique t t' :
  start t = start t' -> 0 <= start t <= end_ t -> start t' <= end_ t' -> end_ t <= len -> end_ t' <= len ->
  token_span t -> token_span t' -> t = t'.
Proof.
  intros Hs H1 H2 H3 H4 Ht Ht'. pose proof (token_head t H1 H3 Ht) as Hh. pose proof (token_head t' ltac:(lia) H4 Ht') as Hh'.
  rewrite <- Hs in Hh'. pose proof (head_unique _ _ _ Hh Hh') as Hk. destruct t as [a b k], t' as [a' b' k']. cbn in *. subst a' k'. f_equal.
  unfold token_span in *. cbn in *. destruct k.
  - destruct Ht, Ht'. lia.
  - destruct Ht, Ht'. by eapply maximal_unique.
  - by eapply number_unique.
  - eapply (literal_unique 34); eauto; lia.
  - eapply (literal_unique 39); eauto; lia.
  - eapply punct_unique; eauto; lia.
  - done.
Qed.
Lemma next_at_unique o t t' : 0 <= o -> next_at o t -> next_at o t' -> t = t'.
Proof.
  intros Ho (T1 & B1 & S1 & L1 & P1) (T2 & B2 & S2 & L2 & P2). pose proof (trivia_unique _ _ _ T1 B1 T2 B2). by apply token_unique; try lia.
Qed.
End Unique.

(** The classes are the same. *)
Lemma classes_agree : tested_classes = listed_classes.
Proof.
  assert (forall (f : Z -> bool) (l : bytes), (forall c, f c = true -> 0 <= c < 256) -> forallb (fun c => (0 <=? c) && (c <? 256)) l = true ->
    forallb (fun c => eqb (f c) (one_of c l)) (map Z.of_nat (seq 0 256)) = true -> f = fun c => one_of c l) as Hext.
  { intros f l Hf Hl Hall. apply functional_extensionality. intros c. destruct (decide (0 <= c < 256)) as [Hc|Hc].
    - apply eqb_prop. exact (all_bytes (fun c => eqb (f c) (one_of c l)) Hall c Hc).
    - destruct (f c) eqn:Ef; [by apply Hf in Ef|]. destruct (one_of c l) eqn:Eo; [|done]. apply one_of_in in Eo.
      rewrite forallb_forall in Hl. specialize (Hl c Eo). to_prop. lia. }
  unfold tested_classes, listed_classes.
  f_equal; apply Hext; try (vm_compute; reflexivity); intros c; unfold alpha, hex, digit, space; intros H; to_prop; lia.
Qed.

(** ** The lexer as a whole *)

(** Texts for the examples: no options, and an allocator that never fails. *)
Definition sample (s : string) : Source :=
  {| W := unit; text := str s; options := None; realloc := fun w _ => (true, w) |}.

(** C19: the lexer reads no byte outside the text and ends: from every state
    between two tokens it gives a next state and spends at most the work that is
    left. Without an error it passes all white space and comments and then the
    one token the lexical grammar has there (names, numbers, literals of escapes
    and well-formed UTF-8, operators, each part as long as it can be), and goes
    on behind it. The grammar is over plain lists of characters and has no
    other reading of the text. *)
Theorem lex_correct {S : Source} (s : St) :
  Forall is_byte text -> bounded s ->
  exists s', lex s = Some (tt, s') /\ bounded s' /\ work_remaining s' <= work_remaining s
    /\ (failed s' = false ->
        next_at (C := listed_classes) (offset (parser s)) (tok s') /\ offset (parser s') = end_ (tok s')
        /\ forall t, next_at (C := listed_classes) (offset (parser s)) t -> t = tok s').
Proof.
  intros Ht Hb. pose proof (wp_lex Ht s Hb) as H. unfold wp in H. destruct (lex s) as [[[] s']|]; [|done].
  destruct H as (Hb' & [] & Hn). exists s'. split_and!; [done|done|done|]. rewrite <- classes_agree. intros Hok. destruct (Hn Hok) as [Hat Hoff].
  split_and!; [done|done|]. intros t Hat'. eapply next_at_unique; [|done|done]. destruct Hb. lia.
Qed.
Definition sample_state (s : string) : @St (sample s) :=
  @mkSt (sample s) (mkParser 0 0 0 0 token0) (mkTree [] 0 NONE 0 None None EXP_OK) 100 tt.
Lemma lex_correct_witness :
  exists s', @lex (sample " /*c*/ 1e3 // x") (sample_state " /*c*/ 1e3 // x") = Some (tt, s')
    /\ forall t, @next_at (sample " /*c*/ 1e3 // x") listed_classes 0 t -> t = mkToken 7 10 NUMBER.
Proof.
  destruct (lex_correct (S := sample " /*c*/ 1e3 // x") (sample_state " /*c*/ 1e3 // x")) as (s' & E & _ & _ & H).
  - apply str_bytes.
  - constructor; vm_compute; intuition congruence.
  - exists s'. split; [exact E|]. vm_compute in E. injection E as <-. exact (proj2 (proj2 (H eq_refl))).
Defined.
