(* ===== verification/Parser.v ===== *)
(** The expression parser of src/src/parser.c (lines 197 to 587), with the
    helpers it takes from src/src/parser_source.inc.

    The functions call each other recursively, so they are defined together
    by recursion on [fuel]; the C loops that call back into the parser are
    functions of their own (their names end in [_loop]). Without fuel they
    give [None]; ParserSpec shows that a bound computed from the work budget
    is always enough. *)

From S2P Require Import Prelude Lexer.

(** ** Node kinds, flags and roles (src/src/parser.h) *)

Inductive ExpKind :=
| EXP_NAME | EXP_NUMBER | EXP_BOOL | EXP_NIL | EXP_STRING | EXP_CHAR
| EXP_GROUP | EXP_PREFIX | EXP_BINARY | EXP_DEREF | EXP_FIELD | EXP_CALL
| EXP_INDEX | EXP_SLICE | EXP_WRAP | EXP_LEN | EXP_TYPE | EXP_TYPE_ARGUMENT
| EXP_PRIMITIVE | EXP_TYPE_PARAMETER | EXP_FIELD_TYPE | EXP_POINTER_TYPE | EXP_ARRAY_TYPE | EXP_FN_TYPE
| EXP_CAST | EXP_SIZE | EXP_ALIGN | EXP_OFFSET | EXP_TYPEOF | EXP_LOAD
| EXP_SYSCALL | EXP_STRUCT | EXP_MEMBER | EXP_ARRAY.
#[export] Instance ExpKind_eq_dec : EqDecision ExpKind.
Proof. solve_decision. Defined.
(** The value of the enumerator. *)
Definition kind_code (k : ExpKind) : Z :=
  match k with
  | EXP_NAME => 0 | EXP_NUMBER => 1 | EXP_BOOL => 2 | EXP_NIL => 3 | EXP_STRING => 4
  | EXP_CHAR => 5 | EXP_GROUP => 6 | EXP_PREFIX => 7 | EXP_BINARY => 8 | EXP_DEREF => 9
  | EXP_FIELD => 10 | EXP_CALL => 11 | EXP_INDEX => 12 | EXP_SLICE => 13 | EXP_WRAP => 14
  | EXP_LEN => 15 | EXP_TYPE => 16 | EXP_TYPE_ARGUMENT => 17 | EXP_PRIMITIVE => 18 | EXP_TYPE_PARAMETER => 19
  | EXP_FIELD_TYPE => 20 | EXP_POINTER_TYPE => 21 | EXP_ARRAY_TYPE => 22 | EXP_FN_TYPE => 23 | EXP_CAST => 24
  | EXP_SIZE => 25 | EXP_ALIGN => 26 | EXP_OFFSET => 27 | EXP_TYPEOF => 28 | EXP_LOAD => 29
  | EXP_SYSCALL => 30 | EXP_STRUCT => 31 | EXP_MEMBER => 32 | EXP_ARRAY => 33
  end.

Definition EXP_CONST : Z := 1.
Definition EXP_PRIMARY : Z := 128.
Definition EXP_BITCAST : Z := 256.
Definition EXP_ROLE_LENGTH : Z := 6.
Definition EXP_ROLE_CALL_ARGS : Z := 7.
Definition EXP_ROLE_RETURN : Z := 9.
Definition sizeof_ExpNode : Z := 32.

Section Nodes.
Context {S : Source}.

(** ** The tree *)

Definition set_nodes (l : list ExpNode) (t : ExpTree) : ExpTree :=
  mkTree l (capacity t) (root t) (error_offset t) (error t) (error_expected t) (error_kind t).
Definition set_capacity (c : Z) (t : ExpTree) : ExpTree :=
  mkTree (nodes t) c (root t) (error_offset t) (error t) (error_expected t) (error_kind t).
Definition set_root (r : Z) (t : ExpTree) : ExpTree :=
  mkTree (nodes t) (capacity t) r (error_offset t) (error t) (error_expected t) (error_kind t).
Definition with_next (v : Z) (n : ExpNode) : ExpNode :=
  mkNode (n_start n) (n_end n) (n_first n) v (n_operator_start n) (n_parent n) (n_kind n) (n_operator_length n) (n_flags n) (n_field n).
Definition with_parent (v : Z) (n : ExpNode) : ExpNode :=
  mkNode (n_start n) (n_end n) (n_first n) (n_next n) (n_operator_start n) v (n_kind n) (n_operator_length n) (n_flags n) (n_field n).
Definition with_flags (v : Z) (n : ExpNode) : ExpNode :=
  mkNode (n_start n) (n_end n) (n_first n) (n_next n) (n_operator_start n) (n_parent n) (n_kind n) (n_operator_length n) v (n_field n).
Definition with_field (v : Z) (n : ExpNode) : ExpNode :=
  mkNode (n_start n) (n_end n) (n_first n) (n_next n) (n_operator_start n) (n_parent n) (n_kind n) (n_operator_length n) (n_flags n) v.

(** [tree->nodes[id]], read and updated. *)
Definition get_node (id : Z) : M ExpNode := fun s =>
  match get_at (nodes (tree s)) id with Some n => Some (n, s) | None => None end.
Definition upd_node (id : Z) (f : ExpNode -> ExpNode) : M unit := fun s =>
  match get_at (nodes (tree s)) id with
  | Some n => Some (tt, with_tree (set_nodes (<[Z.to_nat id := f n]> (nodes (tree s)))) s)
  | None => None
  end.

Definition call_realloc (size : Z) : M bool := fun s =>
  let '(ok, w) := realloc (world s) size in Some (ok, with_world w s).

(** The growth of the node array: whether there is room for one more. *)
Definition grow (start : Z) : M bool :=
  let! t := gets tree in
  if count t =? capacity t then
    let new_capacity := if negb (capacity t =? 0) then u32 (capacity t * 2) else 64 in
    let size := u64 (new_capacity * sizeof_ExpNode) in
    if (new_capacity <? capacity t) || negb (size / sizeof_ExpNode =? new_capacity) then
      fail_ start "tree too large";; ret false
    else
      let! ok := call_realloc size in
      if negb ok then fail_ start "out of memory";; ret false
      else modify (with_tree (set_capacity new_capacity));; ret true
  else ret true.
Definition node (k : ExpKind) (start end_ first : Z) (op : Token) : M Z :=
  let! stop := gets failed in
  if stop then ret NONE
  else
    let! room := grow start in
    if negb room then ret NONE
    else
      let! t := gets tree in
      let id := count t in
      modify (with_tree (set_nodes (nodes t ++
        [mkNode start end_ first NONE (Lexer.start op) NONE (kind_code k)
                (u16 (Lexer.end_ op - Lexer.start op)) 0 0])));;
      ret id.
Definition mark (id flags : Z) : M Z :=
  (if negb (id =? NONE) then upd_node id (fun n => with_flags (Z.lor (n_flags n) flags) n) else ret tt);;
  ret id.
Definition set_next (id v : Z) : M unit := upd_node id (with_next v).

(** [append]: the list of children [first .. last]. *)
Definition append (l : Z * Z) (child : Z) : M (Z * Z) :=
  let '(first, last) := l in
  let! stop := gets failed in
  if (child =? NONE) || stop then ret (first, last)
  else if first =? NONE then ret (child, child)
  else set_next last child;; ret (first, child).

(** ** Tokens *)

Definition any_of (words : list string) : M bool := gets (fun s => existsb (fun w => token_is (tok s) (str w)) words).
Definition is_kind (k : TokenKind) : M bool := gets (fun s => bool_decide (kind (tok s) = k)).
(** [at(p, p->token.start, s)]. *)
Definition starts_with (w : string) : M bool := gets (fun s => at_ (start (tok s)) (str w)).

Definition level_of (n c next : Z) : Z :=
  if n =? 2 then
    if (next =? c) && (c =? 124) then 2
    else if (next =? c) && (c =? 38) then 3
    else if (next =? c) && ((c =? 60) || (c =? 62)) then 9
    else if (next =? 61) && ((c =? 61) || (c =? 33)) then 4
    else if (next =? 61) && ((c =? 60) || (c =? 62)) then 5
    else 0
  else if (c =? 60) || (c =? 62) then 5
  else if c =? 124 then 6
  else if c =? 94 then 7
  else if c =? 38 then 8
  else if (c =? 43) || (c =? 45) then 10
  else if (c =? 42) || (c =? 47) || (c =? 37) then 11
  else 0.
Definition precedence : M Z :=
  let! t := gets tok in
  let n := end_ t - start t in
  if (n =? 0) || (n >? 2) then ret 0
  else
    let! c := lift (rd (start t)) in
    let! next := (if n =? 2 then lift (rd (start t + 1)) else ret 0) in
    ret (level_of n c next).

Definition primitive_names : list string :=
  ["i8"; "i16"; "i32"; "i64"; "u8"; "u16"; "u32"; "u64"; "f32"; "f64"; "isize"; "usize"; "bool"; "rawptr"; "any"]%string.
Definition primitive : M bool := any_of primitive_names.

(** A copy of the parser that reports into a tree of its own: its charges
    count, its position and errors do not. *)
Definition tree0 : ExpTree := mkTree [] 0 0 0 None None EXP_OK.
Definition probing {A} (m : M A) : M (A * ExpTree) := fun s =>
  match m (mkSt (parser s) tree0 (work_remaining s) (world s)) with
  | Some (a, s1) => Some ((a, tree s1), mkSt (parser s) (tree s) (work_remaining s1) (world s1))
  | None => None
  end.
Definition has_error (t : ExpTree) : bool := match error t with Some _ => true | None => false end.

Definition src_peek : M Token :=
  let! stop := gets failed in
  if stop then gets (fun s => mkToken (offset (parser s)) (offset (parser s)) END)
  else
    let! (t, scratch) := probing (lex;; gets tok) in
    (if has_error scratch then propagate_error scratch else ret tt);;
    ret t.
Definition src_next_is (word : string) : M bool :=
  let! next := src_peek in
  ret ((end_ next - start next =? Z.of_nat (length (str word))) && at_ (start next) (str word)).
Definition src_distinct : M bool :=
  let! yes := any_of ["distinct"%string] in if yes then src_next_is "type" else ret false.
Definition src_packed : M bool :=
  let! yes := any_of ["packed"%string] in if yes then src_next_is "struct" else ret false.

Definition fn_type_start : M bool :=
  let! fn := any_of ["fn"%string] in
  let! t := gets tok in
  if fn then lift (peek (Z.eqb 40) (end_ t)) else ret false.
Definition declarations : list string :=
  ["fn"; "pub"; "use"; "const"; "type"; "struct"; "enum"; "extern"]%string.
Definition optional_type_start : M bool :=
  let! fn := fn_type_start in
  if fn then ret true
  else
    let! declaration := any_of declarations in
    if declaration then ret false
    else
      let! d := src_distinct in
      let! skip := (if d then ret true else src_packed) in
      if skip then ret false
      else
        let! named := is_kind NAME in
        let! other := any_of ["*"; "["]%string in
        let! parameter := starts_with "$" in
        ret (named || other || parameter).

Definition name : M Z :=
  let! t := gets tok in
  if negb (bool_decide (kind t = NAME)) then fail_ (start t) "expected identifier";; ret NONE
  else lex;; node EXP_NAME (start t) (end_ t) NONE token0.

(** [while (take(p, ".") && !p->tree->error) append(p, &first, &last, name(p));] *)
Fixpoint name_loop (fuel : nat) (l : Z * Z) : M (Z * Z) :=
  match fuel with
  | O => undefined
  | Datatypes.S f =>
      let! dot := take_ (str ".") in
      let! stop := gets failed in
      if dot && negb stop then
        let! id := name in
        let! l := append l id in
        name_loop f l
      else ret l
  end.

(** The probe of [struct_start]: [None] is its early [return false]. *)
Fixpoint struct_loop (fuel : nat) : M (option bool) :=
  match fuel with
  | O => undefined
  | Datatypes.S f =>
      let! dot := take_ (str ".") in
      let! stop := gets failed in
      if dot && negb stop then
        let! named := is_kind NAME in
        if negb named then ret None else lex;; struct_loop f
      else
        let! brace := any_of ["{"%string] in
        let! p := gets parser in
        ret (Some (brace && negb (start (token p) =? block_brace p)))
  end.
Definition struct_start (fuel : nat) : M bool :=
  let! stop := gets failed in
  let! dot := any_of ["."%string] in
  let! literal := any_of ["true"; "false"; "nil"]%string in
  let! named := is_kind NAME in
  if stop then ret false
  else if dot then ret true
  else if literal then ret false
  else if negb named then ret false
  else
    let! (r, scratch) := probing (lex;; struct_loop fuel) in
    match r with
    | None => ret false
    | Some yes => propagate_error scratch;; ret (negb (has_error scratch) && yes)
    end.

Definition resource_error : M bool := gets (fun s =>
  match error_kind (tree s) with
  | EXP_ALLOCATION_ERROR | EXP_LIMIT_ERROR | EXP_CANCELLED => true
  | EXP_OK | EXP_SYNTAX_ERROR => false
  end).
(** [*p = saved; p->tree->count = count; p->tree->error = NULL; ...] *)
Definition restore (saved : Parser) (n : Z) : M unit := modify (fun s =>
  mkSt saved
       (mkTree (take (Z.to_nat n) (nodes (tree s))) (capacity (tree s)) (root (tree s)) 0 None
               (error_expected (tree s)) EXP_OK)
       (work_remaining s) (world s)).
(** A copy of the parser, moved to [o], that reports into the same tree. *)
Definition lex_copy (o : Z) : M Token := fun s =>
  match lex (with_parser (fun p => set_scan_next 0 (set_offset o p)) s) with
  | Some (_, s1) => Some (tok s1, mkSt (parser s) (tree s1) (work_remaining s1) (world s1))
  | None => None
  end.

(** [++p->depth > depth_limit(p)]: [None] when the limit is exceeded. *)
Definition set_depth (d : Z) (p : Parser) : Parser :=
  mkParser (offset p) d (block_brace p) (scan_next p) (token p).
Definition deeper (m : M Z) : M Z :=
  let! p := gets parser in
  modify (with_parser (set_depth (depth p + 1)));;
  if depth p + 1 >? depth_limit then
    let! t := gets tok in
    fail_ (start t) "expression nesting limit exceeded";;
    modify (with_parser (fun p => set_depth (depth p - 1) p));; ret NONE
  else
    let! r := m in
    modify (with_parser (fun p => set_depth (depth p - 1) p));; ret r.

End Nodes.

(** ** The recursive parser *)

Section Recursive.
Context {S : Source}.

(** The words that decide [argument] and [parse]. *)
Definition delimiter : M bool := any_of [")"; ","]%string.

Fixpoint type_body (fuel : nat) : M Z :=
  match fuel with
  | O => undefined
  | Datatypes.S f =>
      let! stop := gets failed in
      if stop then ret NONE
      else
        let! token := gets tok in
        let! fn := fn_type_start in
        let! (k, flags, end_, first) :=
          (if fn then
             lex;; expect "(";;
             let! l := fn_params_loop f (NONE, NONE) in
             let! t := gets tok in
             let end_ := end_ t in
             expect ")";;
             let! returns := optional_type_start in
             let! (l, end_) :=
               (if returns then
                  let! id := type f in
                  let! l := append l id in
                  if negb (snd l =? NONE) then
                    upd_node (snd l) (with_field EXP_ROLE_RETURN);;
                    let! n := get_node (snd l) in
                    ret (l, n_end n)
                  else ret (l, end_)
                else ret (l, end_)) in
             let! first := node EXP_FN_TYPE (start token) end_ (fst l) token0 in
             ret (Some EXP_POINTER_TYPE, 0, end_, first)
           else
             let! star := take_ (str "*") in
             if star then
               let! const := take_ (str "const") in
               let! first := type f in
               let! end_ := (if negb (first =? NONE) then let! n := get_node first in ret (n_end n) else ret (Lexer.end_ token)) in
               ret (Some EXP_POINTER_TYPE, if const then EXP_CONST else 0, end_, first)
             else
               let! bracket := take_ (str "[") in
               if bracket then
                 let! empty := is_ (str "]") in
                 let! l := (if negb empty then let! id := expression f 0 in append (NONE, NONE) id else ret (NONE, NONE)) in
                 expect "]";;
                 let! const := take_ (str "const") in
                 let! id := type f in
                 let! l := append l id in
                 let! end_ := (if negb (snd l =? NONE) then let! n := get_node (snd l) in ret (n_end n) else ret (Lexer.end_ token)) in
                 ret (Some EXP_ARRAY_TYPE, if const then EXP_CONST else 0, end_, fst l)
               else
                 let! prim := primitive in
                 if prim then lex;; ret (Some EXP_PRIMITIVE, 0, Lexer.end_ token, NONE)
                 else if at_ (start token) (str "$") then lex;; ret (Some EXP_TYPE_PARAMETER, 0, Lexer.end_ token, NONE)
                 else if bool_decide (kind token = NAME) then
                   let! id := name in
                   let! l := append (NONE, NONE) id in
                   let! l := name_loop f l in
                   let! end_ := (if negb (snd l =? NONE) then let! n := get_node (snd l) in ret (n_end n) else ret (Lexer.end_ token)) in
                   ret (Some EXP_FIELD_TYPE, 0, end_, fst l)
                 else fail_ (start token) "expected type";; ret (None, 0, 0, NONE)) in
        match k with
        | None => ret NONE
        | Some k => let! id := node k (start token) end_ first token0 in mark id flags
        end
  end
(** The parameters of a function type. *)
with fn_params_loop (fuel : nat) (l : Z * Z) : M (Z * Z) :=
  match fuel with
  | O => undefined
  | Datatypes.S f =>
      let! close := is_ (str ")") in
      let! stop := gets failed in
      if close || stop then ret l
      else
        let! named := is_kind NAME in
        let! colon := (if named then src_next_is ":" else ret false) in
        (if colon then lex;; lex else ret tt);;
        let! id := type f in
        let! l := append l id in
        let! comma := take_ (str ",") in
        if negb comma then ret l else fn_params_loop f l
  end
with type (fuel : nat) : M Z :=
  match fuel with
  | O => undefined
  | Datatypes.S f =>
      let! stop := gets failed in
      if stop then ret NONE
      else
        let! token := gets tok in
        let! child := deeper (type_body f) in
        if child =? NONE then ret NONE
        else
          let! n := get_node child in
          node EXP_TYPE (start token) (n_end n) child token0
  end
with array_type_suffix (fuel : nat) (array : Z) (named : bool) : M Z :=
  match fuel with
  | O => undefined
  | Datatypes.S f =>
      let! a := get_node array in
      let first := n_first a in
      let! ok :=
        (if negb (first =? NONE) then
           let! n := get_node first in
           if negb (n_next n =? NONE) then
             let! t := gets tok in
             fail_ (start t) "array type requires one length";; ret false
           else
             let! closing := lex_copy (n_end n) in
             if negb (token_is closing (str "]")) then
               fail_ (start closing) "array type length cannot have a comma";; ret false
             else ret true
         else ret true) in
      if negb ok then ret NONE
      else
        let! is_const := take_ (str "const") in
        let! element := type f in
        if element =? NONE then ret NONE
        else
          (if negb (first =? NONE) then set_next first element else ret tt);;
          let first := if negb (first =? NONE) then first else element in
          let! a := get_node array in
          let! e := get_node element in
          let! child := node EXP_ARRAY_TYPE (n_start a) (n_end e) first token0 in
          let! child := mark child (if is_const then EXP_CONST else 0) in
          node (if named then EXP_TYPE else EXP_TYPE_ARGUMENT) (n_start a) (n_end e) child token0
  end
with argument (fuel : nat) (allow_named_type : bool) : M Z :=
  match fuel with
  | O => undefined
  | Datatypes.S f =>
      let! stop := gets failed in
      let! literal := any_of ["true"; "false"; "nil"]%string in
      let! bracket := is_ (str "[") in
      if stop then ret NONE
      else if literal then expression f 0
      else if bracket then
        let! array := aggregate f in
        if array =? NONE then ret NONE
        else
          let! saved := gets parser in
          let! n := gets (fun s => count (tree s)) in
          let! a := get_node array in
          let first := n_first a in
          let! sibling := (if first =? NONE then ret NONE else let! n := get_node first in ret (n_next n)) in
          let! r :=
            (if allow_named_type then
               let! candidate := array_type_suffix f array true in
               let! stop := gets failed in
               let! d := delimiter in
               if negb stop && d then ret (Some candidate)
               else
                 let! fatal := resource_error in
                 if fatal then ret (Some NONE)
                 else
                   restore saved n;;
                   (if negb (first =? NONE) then set_next first sibling else ret tt);;
                   ret None
             else ret None) in
          match r with
          | Some v => ret v
          | None =>
              let! value := expression_tail f array false 0 in
              let! stop := gets failed in
              let! d := delimiter in
              if negb stop && d then ret value
              else
                let! fatal := resource_error in
                if fatal then ret NONE
                else if allow_named_type then
                  let! t := gets tok in
                  fail_ (start t) "expected argument delimiter";; ret NONE
                else
                  restore saved n;; set_next array NONE;;
                  array_type_suffix f array false
          end
      else
        let! prim := primitive in
        let! star := is_ (str "*") in
        let! parameter := starts_with "$" in
        if allow_named_type || prim || star || parameter then
          let! fn := fn_type_start in
          let committed := prim || fn || star || parameter in
          let! saved := gets parser in
          let! n := gets (fun s => count (tree s)) in
          let! child := (if allow_named_type then type f else type_body f) in
          let! stop := gets failed in
          let! d := delimiter in
          if negb stop && (committed || d) then
            if allow_named_type then ret child
            else
              let! c := get_node child in
              node EXP_TYPE_ARGUMENT (n_start c) (n_end c) child token0
          else
            let! fatal := resource_error in
            if fatal then ret NONE
            else restore saved n;; expression f 0
        else expression f 0
  end
with aggregate (fuel : nat) : M Z :=
  match fuel with
  | O => undefined
  | Datatypes.S f =>
      let! t := gets tok in
      let! array := take_ (str "[") in
      let! l :=
        (if array then ret (NONE, NONE)
         else
           let! dot := take_ (str ".") in
           let! l :=
             (if dot then ret (NONE, NONE)
              else
                let! id := name in
                let! l := append (NONE, NONE) id in
                name_loop f l) in
           expect "{";; ret l) in
      let! l := aggregate_loop f array l in
      let! t' := gets tok in
      expect (if array then "]" else "}");;
      node (if array then EXP_ARRAY else EXP_STRUCT) (start t) (end_ t') (fst l) token0
  end
with aggregate_loop (fuel : nat) (array : bool) (l : Z * Z) : M (Z * Z) :=
  match fuel with
  | O => undefined
  | Datatypes.S f =>
      let! close := is_ (str (if array then "]" else "}")) in
      let! stop := gets failed in
      if close || stop then ret l
      else
        let! child :=
          (if array then let! id := expression f 0 in ret (Some id)
           else
             let! t := gets tok in
             let! field := name in
             expect ":";;
             let! value := expression f 0 in
             let! stop := gets failed in
             if stop then ret None
             else
               set_next field value;;
               let! v := get_node value in
               let! id := node EXP_MEMBER (start t) (n_end v) field token0 in
               ret (Some id)) in
        match child with
        | None => ret l
        | Some child =>
            let! l := append l child in
            let! comma := take_ (str ",") in
            if negb comma then ret l else aggregate_loop f array l
        end
  end
with parse (fuel : nat) (minimum : Z) : M Z :=
  match fuel with
  | O => undefined
  | Datatypes.S f =>
      let! token := gets tok in
      if bool_decide (kind token = NUMBER) || bool_decide (kind token = STRING) || bool_decide (kind token = CHARACTER) then
        lex;;
        let! lhs := node (if bool_decide (kind token = NUMBER) then EXP_NUMBER
                           else if bool_decide (kind token = STRING) then EXP_STRING else EXP_CHAR)
                          (start token) (end_ token) NONE token0 in
        expression_tail f lhs false minimum
      else
        let! (lhs, primary) := parse_head f token in
        (if primary then mark lhs EXP_PRIMARY;; ret tt else ret tt);;
        expression_tail f lhs primary minimum
  end
(** The operand of [parse], with whether it is a primary expression; the
    early [return NONE]s leave an error, at which [expression_tail] stops. *)
with parse_head (fuel : nat) (token : Token) : M (Z * bool) :=
  match fuel with
  | O => undefined
  | Datatypes.S f =>
      let! bracket := is_ (str "[") in
      let! struct := (if bracket then ret true else struct_start f) in
      if struct then let! lhs := aggregate f in ret (lhs, false)
      else
        let! paren := take_ (str "(") in
        if paren then
          let! child := expression f 0 in
          let! t := gets tok in
          expect ")";;
          let! lhs := node EXP_GROUP (start token) (end_ t) child token0 in
          ret (lhs, true)
        else
          let! prefix := any_of ["-"; "&"; "!"; "~"]%string in
          let! cast := any_of ["#cast"; "#bitcast"]%string in
          let! size := any_of ["#sizeof"; "#alignof"; "#typeof"; "#offsetof"]%string in
          let! load := any_of ["#load"; "#syscall"]%string in
          let! wrap := any_of ["#wrap"; "#len"]%string in
          if prefix then
            lex;;
            let! child := expression f 12 in
            if negb (child =? NONE) then
              let! n := get_node child in
              let! lhs := node EXP_PREFIX (start token) (n_end n) child token in
              ret (lhs, false)
            else ret (NONE, false)
          else if cast then
            lex;; expect "(";;
            let! target := type f in
            let! close := is_ (str ")") in
            let! t := gets tok in
            (if close then fail_ (start t) "use #cast(type, value) or #bitcast(type, value); prefix cast syntax is no longer supported"
             else ret tt);;
            expect ",";;
            let! value := expression f 0 in
            let! t := gets tok in
            expect ")";;
            let! stop := gets failed in
            if negb stop then
              set_next target value;;
              let! id := node EXP_CAST (start token) (end_ t) target token in
              let! lhs := mark id (if at_ (start token) (str "#bitcast") then EXP_BITCAST else 0) in
              ret (lhs, true)
            else ret (NONE, false)
          else if size then
            let! sizeof := is_ (str "#sizeof") in
            let! alignof := is_ (str "#alignof") in
            let! typeof := is_ (str "#typeof") in
            let k := if sizeof then EXP_SIZE else if alignof then EXP_ALIGN else if typeof then EXP_TYPEOF else EXP_OFFSET in
            lex;; expect "(";;
            let! child := (if bool_decide (k = EXP_OFFSET) then type f else argument f true) in
            (if bool_decide (k = EXP_OFFSET) then
               expect ",";;
               let! field := name in
               let! stop := gets failed in
               if negb stop then set_next child field else ret tt
             else ret tt);;
            let! t := gets tok in
            expect ")";;
            let! lhs := node k (start token) (end_ t) child token0 in
            ret (lhs, false)
          else if load then
            let! load := is_ (str "#load") in
            lex;; expect "(";;
            let! first :=
              (if load then
                 let! literal := gets tok in
                 if negb (bool_decide (kind literal = STRING)) then
                   fail_ (start literal) "expected string literal";; ret NONE
                 else lex;; node EXP_STRING (start literal) (end_ literal) NONE token0
               else let! l := syscall_loop f (NONE, NONE) in ret (fst l)) in
            let! t := gets tok in
            expect ")";;
            let! lhs := node (if load then EXP_LOAD else EXP_SYSCALL) (start token) (end_ t) first token0 in
            ret (lhs, false)
          else if wrap then
            let! wrap := is_ (str "#wrap") in
            lex;; expect "(";;
            let! child := expression f 0 in
            let! t := gets tok in
            expect ")";;
            let! lhs := node (if wrap then EXP_WRAP else EXP_LEN) (start token) (end_ t) child token0 in
            ret (lhs, false)
          else
            let! boolean := any_of ["true"; "false"]%string in
            let! is_nil := is_ (str "nil") in
            let! reverse := is_ (str "#reverse") in
            if bool_decide (kind token = NAME) then
              lex;;
              let! lhs := node (if boolean then EXP_BOOL else if is_nil then EXP_NIL else EXP_NAME)
                                (start token) (end_ token) NONE token0 in
              ret (lhs, negb (boolean || is_nil))
            else if reverse then
              fail_ (start token) "#reverse is valid only as a for-loop iterable";; ret (NONE, false)
            else
              fail_ (start token) "expected expression";; ret (NONE, false)
  end
with syscall_loop (fuel : nat) (l : Z * Z) : M (Z * Z) :=
  match fuel with
  | O => undefined
  | Datatypes.S f =>
      let! close := is_ (str ")") in
      let! stop := gets failed in
      if close || stop then ret l
      else
        let! id := expression f 0 in
        let! l := append l id in
        let! comma := take_ (str ",") in
        if negb comma then ret l else syscall_loop f l
  end
with expression_tail (fuel : nat) (lhs : Z) (primary : bool) (minimum : Z) : M Z :=
  match fuel with
  | O => undefined
  | Datatypes.S f =>
      let! stop := gets failed in
      if (lhs =? NONE) || stop then ret lhs
      else
        let! token := gets tok in
        let! l := get_node lhs in
        let start_ := n_start l in
        let! deref := take_ (str ".*") in
        if deref then
          let! id := node EXP_DEREF start_ (end_ token) lhs token in
          let! lhs := mark id EXP_PRIMARY in
          expression_tail f lhs true minimum
        else
          let! dot := (if primary then take_ (str ".") else ret false) in
          if dot then
            let! field := gets tok in
            if negb (bool_decide (kind field = NAME)) then
              fail_ (start field) "expected field name";; ret lhs
            else
              lex;;
              let! name := node EXP_NAME (start field) (end_ field) NONE token0 in
              if name =? NONE then ret lhs
              else
                set_next lhs name;;
                let! id := node EXP_FIELD start_ (end_ field) lhs token0 in
                let! lhs := mark id EXP_PRIMARY in
                expression_tail f lhs primary minimum
          else
            let! paren := (if primary then take_ (str "(") else ret false) in
            if paren then
              arguments_loop f lhs;;
              let! t := gets tok in
              expect ")";;
              let! id := node EXP_CALL start_ (end_ t) lhs token0 in
              let! lhs := mark id EXP_PRIMARY in
              expression_tail f lhs primary minimum
            else
              let! bracket := (if primary then take_ (str "[") else ret false) in
              if bracket then
                let! open := is_ (str "..") in
                let! low := (if negb open then expression f 0 else ret NONE) in
                let! range_token := gets tok in
                let! slice := take_ (str "..") in
                let! close := is_ (str "]") in
                let! high := (if slice && negb close then expression f 0 else ret NONE) in
                let! t := gets tok in
                let end_ := end_ t in
                expect "]";;
                let! stop := gets failed in
                if stop then ret lhs
                else
                  let! low := (if slice && (low =? NONE) then node EXP_GROUP (Lexer.end_ token) (Lexer.end_ token) NONE token0 else ret low) in
                  let! high := (if slice && (high =? NONE) then node EXP_GROUP (end_ - 1) (end_ - 1) NONE token0 else ret high) in
                  let! stop := gets failed in
                  if stop then ret lhs
                  else
                    set_next lhs low;;
                    (if slice then set_next low high else ret tt);;
                    let! id := node (if slice then EXP_SLICE else EXP_INDEX) start_ end_ lhs (if slice then range_token else token0) in
                    let! lhs := mark id EXP_PRIMARY in
                    expression_tail f lhs primary minimum
              else
                let! level := precedence in
                if (level =? 0) || (level <? minimum) then ret lhs
                else
                  lex;;
                  let! rhs := expression f (level + 1) in
                  if rhs =? NONE then ret lhs
                  else
                    set_next lhs rhs;;
                    let! r := get_node rhs in
                    let! lhs := node EXP_BINARY start_ (n_end r) lhs token in
                    expression_tail f lhs false minimum
  end
(** The arguments of a call, linked after [last]. *)
with arguments_loop (fuel : nat) (last : Z) : M unit :=
  match fuel with
  | O => undefined
  | Datatypes.S f =>
      let! close := is_ (str ")") in
      let! stop := gets failed in
      if close || stop then ret tt
      else
        let! arg := argument f false in
        if arg =? NONE then ret tt
        else
          set_next last arg;;
          let! comma := take_ (str ",") in
          if negb comma then ret tt else arguments_loop f arg
  end
with expression (fuel : nat) (minimum : Z) : M Z :=
  match fuel with
  | O => undefined
  | Datatypes.S f =>
      let! stop := gets failed in
      if stop then ret NONE else deeper (parse f minimum)
  end.

End Recursive.

(** ** The end of a parse *)

Section Finish.
Context {S : Source}.

Definition SRC_LINK : Z := 1004.
Definition SRC_IMPORT : Z := 1006.
Definition SRC_FN : Z := 1014.
Definition SRC_EXTERN_FN : Z := 1015.
Definition SRC_EXTERN_VARIABLE : Z := 1016.
Definition SRC_VARIADIC_PARAM : Z := 1018.
Definition EXP_ROLE_NAME : Z := 1.
Definition EXP_ROLE_LINK_NAME : Z := 2.
Definition EXP_ROLE_PATH : Z := 3.
Definition EXP_ROLE_ALIAS : Z := 4.
Definition EXP_ROLE_LIBRARY : Z := 5.
Definition EXP_ROLE_TYPE : Z := 8.

(** The role of a child [c] of a node of kind [k]. *)
Definition child_role (k : Z) (is_first : bool) (c : ExpNode) : Z :=
  if k =? kind_code EXP_CALL then if negb is_first then EXP_ROLE_CALL_ARGS else n_field c
  else if k =? kind_code EXP_ARRAY_TYPE then
    if negb (n_kind c =? kind_code EXP_TYPE) then EXP_ROLE_LENGTH else n_field c
  else if (k =? SRC_FN) || (k =? SRC_EXTERN_FN) || (k =? SRC_EXTERN_VARIABLE) then
    if is_first then EXP_ROLE_NAME
    else if n_kind c =? kind_code EXP_STRING then EXP_ROLE_LINK_NAME else n_field c
  else if k =? SRC_VARIADIC_PARAM then
    if is_first then EXP_ROLE_NAME
    else if n_kind c =? kind_code EXP_TYPE then EXP_ROLE_TYPE else n_field c
  else if k =? SRC_IMPORT then if is_first then EXP_ROLE_PATH else EXP_ROLE_ALIAS
  else if k =? SRC_LINK then EXP_ROLE_LIBRARY
  else n_field c.

Fixpoint finish_children (fuel : nat) (id kind first child : Z) : M bool :=
  match fuel with
  | O => undefined
  | Datatypes.S f =>
      if child =? NONE then ret true
      else
        let! c := get_node child in
        let! ok := charge 1 (n_start c) in
        if negb ok then ret false
        else
          upd_node child (fun c => with_field (child_role kind (child =? first) c) (with_parent id c));;
          let! c := get_node child in
          finish_children f id kind first (n_next c)
  end.
(** The way up: [None] when the budget is exceeded. *)
Fixpoint finish_up (fuel : nat) (root id : Z) : M (option Z) :=
  match fuel with
  | O => undefined
  | Datatypes.S f =>
      if id =? root then ret (Some id)
      else
        let! n := get_node id in
        if n_next n =? NONE then
          let! ok := charge 1 (n_start n) in
          if negb ok then ret None else finish_up f root (n_parent n)
        else ret (Some id)
  end.
Fixpoint finish_loop (fuel : nat) (root id : Z) : M bool :=
  match fuel with
  | O => undefined
  | Datatypes.S f =>
      let! n := get_node id in
      let! ok := charge 1 (n_start n) in
      if negb ok then ret false
      else
        let! ok := finish_children f id (n_kind n) (n_first n) (n_first n) in
        if negb ok then ret false
        else if negb (n_first n =? NONE) then finish_loop f root (n_first n)
        else
          let! r := finish_up f root id in
          match r with
          | None => ret false
          | Some id =>
              if id =? root then ret true
              else let! n := get_node id in finish_loop f root (n_next n)
          end
  end.
Definition finish_tree (fuel : nat) (root : Z) : M bool :=
  upd_node root (with_parent NONE);; finish_loop fuel root root.

(** [exp_parse_with_options] on the text of the source: the text is never
    absent, so only its length is checked. *)
Definition initial_work : Z :=
  let requested := match options with Some o => max_work o | None => 0 end in
  if negb (requested =? 0) then requested else len * 128 + 1024.
Definition start_state (t : ExpTree) (w : W) : St :=
  mkSt (mkParser 0 0 0 0 token0) (mkTree [] (capacity t) NONE 0 None None EXP_OK) initial_work w.
Definition exp_parse_with_options (fuel : nat) (t : ExpTree) (w : W) : option (bool * St) :=
  if len >? UINT32_MAX then
    Some (false, mkSt (parser (start_state t w))
                      (mkTree [] (capacity t) NONE 0 (Some "invalid source or source too large"%string) None EXP_LIMIT_ERROR)
                      initial_work w)
  else
    (let! ok := charge len 0 in
     if negb ok then ret false
     else
       lex;;
       let! root := expression fuel 0 in
       let! t := gets tok in
       (if negb (bool_decide (kind t = END)) then fail_ (start t) "unexpected trailing token" else ret tt);;
       let! stop := gets failed in
       if stop then ret false
       else
         let! ok := finish_tree fuel root in
         if negb ok then ret false
         else modify (with_tree (set_root root));; ret true) (start_state t w).

End Finish.
