(* ===== verification/ParserSpec.v ===== *)
(** The expression parser of src/src/parser.c: for every text it ends, reads
    no byte and no node out of bounds, keeps the nesting depth, and builds a
    tree whose links are sound. *)

From S2P Require Import Prelude Lexer LexerSpec Parser.

Section Invariant.
Context {S : Source}.

(** ** The invariant *)

Definition pos (s : St) : Z := start (tok s).

(** A node of a well-formed tree over the text before [q]: its span is in
    that text, its first child was made before it, and its next sibling
    starts where it ends or later. *)
Definition sibling_ok (l : list ExpNode) (n : ExpNode) (v : Z) : Prop :=
  v = NONE \/ exists m, get_at l v = Some m /\ n_end n <= n_start m.
Record node_ok (q : Z) (l : list ExpNode) (id : Z) (n : ExpNode) : Prop := {
  node_span : 0 <= n_start n <= n_end n /\ n_end n <= q;
  node_first : n_first n = NONE \/ 0 <= n_first n < id;
  node_next : sibling_ok l n (n_next n);
  node_parent : n_parent n = NONE }.
Definition wf_nodes (q : Z) (l : list ExpNode) : Prop := forall id n, get_at l id = Some n -> node_ok q l id n.
Lemma wf_nodes_mono q q' l : wf_nodes q l -> q <= q' -> wf_nodes q' l.
Proof using. intros H Hq id n Hn. destruct (H id n Hn). constructor; auto. lia. Qed.

Record inv (s : St) : Prop := {
  inv_bounded : bounded s;
  inv_depth : 0 <= depth (parser s) <= depth_limit;
  inv_count : count (tree s) <= capacity (tree s) < 2 ^ 32;
  inv_ok : failed s = false -> offset (parser s) = end_ (tok s) /\ wf_nodes (pos s) (nodes (tree s));
  inv_kind : failed s = false -> error_kind (tree s) = EXP_OK }.

(** The nodes below [b] are kept, but for the next sibling of node [x]. *)
Definition frame (b x : Z) (s s' : St) : Prop :=
  count (tree s) <= count (tree s') /\
  forall i n, 0 <= i < b -> get_at (nodes (tree s)) i = Some n ->
    exists n', get_at (nodes (tree s')) i = Some n' /\ (n' = n \/ i = x /\ with_next 0 n' = with_next 0 n).

(** What every operation of the parser does to the state. *)
Record step (b x : Z) (s s' : St) : Prop := {
  step_inv : inv s';
  step_depth : depth (parser s') = depth (parser s);
  step_work : work_remaining s' <= work_remaining s;
  step_failed : failed s = true -> failed s' = true;
  step_pos : failed s' = false -> pos s <= pos s';
  step_frame : frame b x s s' }.

(** Some work was done, or an error stops the parse. *)
Definition consumed (s s' : St) : Prop := failed s' = false -> work_remaining s' < work_remaining s.

(** The node [r] is the result of an operation: not below [lo], and without
    an error complete, starting at [p] or later. *)
Definition result (lo p r : Z) (s : St) : Prop :=
  (r <> NONE -> lo <= r < count (tree s)) /\
  (failed s = false -> r <> NONE /\ exists n, get_at (nodes (tree s)) r = Some n
     /\ p <= n_start n /\ n_end n <= pos s /\ n_next n = NONE).

(** A list of children under construction. *)
Definition children (lo p : Z) (l : Z * Z) (s : St) : Prop :=
  l = (NONE, NONE) \/
  (lo <= fst l <= snd l /\ snd l < count (tree s) /\
   (failed s = false -> exists n, get_at (nodes (tree s)) (snd l) = Some n /\ p <= n_start n /\ n_end n <= pos s)).

(** ** Fuel

    Each call needs fuel for the work that is left, for the nesting that is
    left, and for its rank among the calls that do neither. *)
Definition K2 : Z := 16.
Definition K1 : Z := 16 * 1026.
Definition need (s : St) : Z :=
  if failed s then 0 else K1 * work_remaining s + K2 * (depth_limit - depth (parser s)) + K2.
Definition fuel_ok (f : nat) (s : St) (rank : Z) : Prop := need s + rank <= Z.of_nat f.

Definition options_ok : Prop :=
  match options with Some o => 0 <= max_work o < 2 ^ 64 /\ 0 <= max_depth o < 2 ^ 32 | None => True end.
Context (options_fit : options_ok).

Lemma depth_limit_range : 0 <= depth_limit <= 1024.
Proof using options_fit.
  unfold options_ok in options_fit. unfold depth_limit, MAX_DEPTH. destruct options as [o|].
  - destruct options_fit. split_if; to_prop; lia.
  - cbn. lia.
Qed.

Lemma frame_refl b x s : frame b x s s.
Proof using. split; [lia|]. intros i n _ H. exists n. auto. Qed.
Lemma frame_trans b x s1 s2 s3 : frame b x s1 s2 -> frame b x s2 s3 -> frame b x s1 s3.
Proof using.
  intros [H1 F1] [H2 F2]. split; [lia|]. intros i n Hi Hn.
  destruct (F1 i n Hi Hn) as (n2 & Hn2 & E2). destruct (F2 i n2 Hi Hn2) as (n3 & Hn3 & E3).
  exists n3. split; [done|]. destruct E2 as [->|[-> E2]]; [done|]. right. split; [done|].
  destruct E3 as [->|[_ E3]]; congruence.
Qed.
Lemma frame_same b x s s' : nodes (tree s') = nodes (tree s) -> frame b x s s'.
Proof using. intros E. split; [unfold count; rewrite E; lia|]. rewrite E. intros i n _ H. exists n. auto. Qed.
Lemma frame_app b x s s' l :
  b <= count (tree s) -> nodes (tree s') = nodes (tree s) ++ l -> frame b x s s'.
Proof using.
  intros Hb E. split; [unfold count; rewrite E, length_app; lia|]. rewrite E. intros i n Hi Hn. exists n. split; [|auto].
  apply get_at_Some in Hn as [Hr Hn]. apply get_at_Some. rewrite length_app. split; [lia|]. by apply lookup_app_l_Some.
Qed.

Lemma step_refl b x s : inv s -> step b x s s.
Proof using. intros. constructor; auto; [lia|lia|apply frame_refl]. Qed.
Lemma step_trans b x s1 s2 s3 : step b x s1 s2 -> step b x s2 s3 -> step b x s1 s3.
Proof using.
  intros [] []. constructor; auto; try lia.
  - intros Hf. assert (failed s2 = false) by (destruct (failed s2); [by rewrite step_failed1 in Hf|done]).
    specialize (step_pos0 H). specialize (step_pos1 Hf). lia.
  - by eapply frame_trans.
Qed.
Lemma step_ok b x s s' : step b x s s' -> failed s' = false -> failed s = false.
Proof using. intros H Hf. destruct (failed s) eqn:E; [|done]. by rewrite (step_failed _ _ _ _ H E) in Hf. Qed.
Lemma consumed_step b x s s1 s2 : consumed s s1 -> step b x s1 s2 -> consumed s s2.
Proof using.
  intros Hc Hs Hf. specialize (Hc (step_ok _ _ _ _ Hs Hf)). pose proof (step_work _ _ _ _ Hs). lia.
Qed.
Lemma step_consumed b x s s1 s2 : step b x s s1 -> consumed s1 s2 -> consumed s s2.
Proof using. intros Hs Hc Hf. specialize (Hc Hf). pose proof (step_work _ _ _ _ Hs). lia. Qed.

(** A step that keeps all nodes, and one that may link node [x] to a next
    sibling. *)
Definition steps (s s' : St) : Prop := forall b x, b <= count (tree s) -> step b x s s'.
Definition steps_at (y : Z) (s s' : St) : Prop :=
  forall b x, b <= count (tree s) -> b <= y \/ x = y -> step b x s s'.
Lemma steps_refl s : inv s -> steps s s.
Proof using. intros H b x _. by apply step_refl. Qed.
Lemma steps_step s s' : steps s s' -> step 0 0 s s'.
Proof using. intros H. apply H. unfold count. lia. Qed.
Lemma steps_at_step y s s' : steps_at y s s' -> step 0 y s s'.
Proof using. intros H. apply H; [unfold count; lia|by right]. Qed.
Lemma steps_count s s' : steps s s' -> count (tree s) <= count (tree s').
Proof using. intros H. destruct (step_frame _ _ _ _ (steps_step _ _ H)). done. Qed.
Lemma steps_trans s1 s2 s3 : steps s1 s2 -> steps s2 s3 -> steps s1 s3.
Proof using.
  intros H1 H2 b x Hb. pose proof (steps_count _ _ H1). eapply step_trans; [by apply H1|apply H2; lia].
Qed.
Lemma steps_at_weaken y s s' : steps s s' -> steps_at y s s'.
Proof using. intros H b x Hb _. by apply H. Qed.
Lemma steps_at_trans y s1 s2 s3 : steps_at y s1 s2 -> steps_at y s2 s3 -> steps_at y s1 s3.
Proof using.
  intros H1 H2 b x Hb Hy. destruct (step_frame _ _ _ _ (steps_at_step _ _ _ H1)).
  eapply step_trans; [by apply H1|apply H2; [lia|done]].
Qed.
(** Linking a node made since is no change of the older ones. *)
Lemma steps_steps_at y s1 s2 s3 : steps s1 s2 -> count (tree s1) <= y -> steps_at y s2 s3 -> steps s1 s3.
Proof using.
  intros H1 Hy H2 b x Hb. pose proof (steps_count _ _ H1). eapply step_trans; [by apply H1|]. apply H2; [lia|left; lia].
Qed.

Lemma need_pos s : inv s -> 0 <= need s.
Proof using. intros [[] ? _ _ _]. unfold need, K1, K2. split_if; lia. Qed.
Lemma fuel_step b x f s s' r r' : fuel_ok (Datatypes.S f) s r -> step b x s s' -> r' < r -> fuel_ok f s' r'.
Proof using.
  unfold fuel_ok, need, K1, K2. intros Hf [] Hr. destruct step_inv0 as [[] ? _ _ _]. rewrite step_depth0 in *.
  destruct (failed s) eqn:E; [rewrite step_failed0 by done; lia|]. destruct (failed s'); lia.
Qed.
Lemma fuel_consumed b x f s s' r r' :
  fuel_ok (Datatypes.S f) s r -> failed s = false -> step b x s s' -> consumed s s' -> 1 <= r -> 0 <= r' <= 16 -> fuel_ok f s' r'.
Proof using options_fit.
  unfold fuel_ok, need, consumed, K1, K2. intros Hf Hok [] Hc Hr Hr'. rewrite Hok in Hf.
  pose proof depth_limit_range. destruct step_inv0 as [[] ? _ _ _]. rewrite step_depth0 in *.
  destruct (failed s'); [lia|]. specialize (Hc eq_refl). lia.
Qed.

(** ** Results *)

Lemma result_weaken lo lo' p p' r s :
  result lo p r s -> lo' <= lo -> (failed s = false -> p' <= p) -> result lo' p' r s.
Proof using.
  intros [H1 H2] Hlo Hp. split; [intros H; specialize (H1 H); lia|]. intros Hf. specialize (Hp Hf).
  destruct (H2 Hf) as (Hr & n & Hn & Hs & He & Hnx). split; [done|]. exists n. split_and!; auto. lia.
Qed.
(** A result made before is still complete after steps that do not touch it. *)
Lemma result_step b x lo p r s s' :
  result lo p r s -> step b x s s' -> 0 <= lo -> r < b -> x <> r -> result lo p r s'.
Proof using.
  intros [H1 H2] Hs Hlo Hb Hx. destruct (step_frame _ _ _ _ Hs) as [Hc Hfr]. split; [intros H; specialize (H1 H); lia|].
  intros Hf. destruct (H2 (step_ok _ _ _ _ Hs Hf)) as (Hr & n & Hn & Hst & He & Hnx). split; [done|].
  destruct (Hfr r n) as (n' & Hn' & [->|[? _]]); [specialize (H1 Hr); lia|done| |congruence].
  exists n. split_and!; auto. pose proof (step_pos _ _ _ _ Hs Hf). lia.
Qed.
Lemma children_step b x lo p l s s' :
  children lo p l s -> step b x s s' -> 0 <= lo -> snd l < b \/ snd l = NONE -> children lo p l s'.
Proof using.
  intros [->|(Hl & Hlast & Hn)] Hs Hlo Hb; [by left|]. destruct (step_frame _ _ _ _ Hs) as [Hc Hfr]. right.
  split; [done|]. split; [lia|]. intros Hf. destruct (Hn (step_ok _ _ _ _ Hs Hf)) as (n & Hget & Hst & He).
  pose proof (step_pos _ _ _ _ Hs Hf). destruct Hb as [Hb|Hb].
  - destruct (Hfr (snd l) n) as (n' & Hn' & E); [lia|done|]. exists n'. split; [done|].
    destruct E as [->|[_ E]]; [lia|]. pose proof (f_equal n_end E). pose proof (f_equal n_start E). cbn in *. lia.
  - apply get_at_Some in Hget as [Hr _]. unfold count in *. pose proof (inv_count _ (step_inv _ _ _ _ Hs)).
    unfold count, NONE, UINT32_MAX in *. lia.
Qed.
Lemma children_nil lo p s : children lo p (NONE, NONE) s.
Proof using. by left. Qed.
Lemma result_nat_ne r s : inv s -> r < count (tree s) -> r <> NONE.
Proof using. intros [_ _ Hc _ _] Hr. unfold NONE, UINT32_MAX. lia. Qed.

End Invariant.

(** ** The operations below the recursion *)

Section Basic.
Context {S : Source}.
Context (text_bytes : Forall is_byte text) (options_fit : options_ok).

Lemma quiet_step b x s s' : inv s -> quiet s s' -> step b x s s'.
Proof using.
  intros [Hb Hd Hc Hok Hkd] Hq. destruct Hb as [Ht Ho Hw]. destruct Hq. specialize (quiet_work Hw).
  constructor; auto; [|lia|unfold pos; rewrite quiet_token; lia|by apply frame_same].
  assert (failed s' = false -> failed s = false) as Hff.
  { intros Hf. destruct (failed s) eqn:E; [by rewrite quiet_failed in Hf|done]. }
  constructor; [constructor; rewrite ?quiet_token, ?quiet_offset; lia|rewrite quiet_depth; lia| | |].
  - unfold count in *. rewrite quiet_nodes, quiet_capacity. lia.
  - intros Hf. unfold pos. rewrite quiet_offset, quiet_token, quiet_nodes. by apply Hok, Hff.
  - intros Hf. rewrite quiet_kind by done. auto.
Qed.

(** A change of the tree's other fields. *)
Lemma parser_step b x s s' :
  inv s -> parser s' = parser s -> nodes (tree s') = nodes (tree s) ->
  count (tree s') <= capacity (tree s') < 2 ^ 32 -> 0 <= work_remaining s' <= work_remaining s ->
  (failed s = true -> failed s' = true) -> (failed s' = false -> error_kind (tree s') = EXP_OK) -> step b x s s'.
Proof using.
  intros [Hb Hd Hc Hok Hkd] Hp Hn Hcap Hw Hf Hkd'. destruct Hb. unfold tok in *.
  split; [|by rewrite Hp|lia|done|unfold pos, tok; rewrite Hp; lia|by apply frame_same].
  constructor; [constructor; unfold tok; rewrite ?Hp; lia|by rewrite Hp|done| |done].
  unfold pos, tok. rewrite Hp, Hn. intros Hf'. apply Hok. destruct (failed s); [by rewrite Hf in Hf'|done].
Qed.

Lemma wp_fail_step o m s :
  inv s -> wp (fail_ o m) (fun _ s' => steps s s' /\ failed s' = true) s.
Proof using.
  intros Hi. eapply wp_mono; [apply wp_fail|]. cbn beta. intros _ s1 (Hq & Hf & _). split; [|done]. intros b x _. by apply quiet_step.
Qed.

Lemma wp_lex_step s :
  inv s ->
  wp lex (fun _ s' => steps s s' /\ consumed s s' /\ (failed s' = false -> end_ (tok s) <= pos s')) s.
Proof using text_bytes.
  intros Hi. pose proof Hi as [Hb Hd Hc Hok Hkd]. eapply wp_mono; [by apply wp_lex|]. cbn beta.
  intros _ s' (Hb' & Hl & Hn). destruct Hl.
  assert (failed s' = false -> failed s = false) as Hff.
  { intros Hf. destruct (failed s) eqn:E; [by rewrite lexed_failed in Hf|done]. }
  assert (failed s' = false -> end_ (tok s) <= pos s') as Hpos.
  { intros Hf. destruct (Hok (Hff Hf)) as [<- _]. destruct (Hn Hf) as [(_ & _ & Hst & _) _]. unfold pos. lia. }
  split; [|done]. intros b x _. constructor; auto.
  - constructor; [done|by rewrite lexed_depth|unfold count in *; rewrite lexed_nodes, lexed_capacity; lia| |].
    + intros Hf. rewrite lexed_nodes. split; [by destruct (Hn Hf)|]. destruct (Hok (Hff Hf)) as [_ Hwf].
      eapply wf_nodes_mono; [done|]. specialize (Hpos Hf). destruct Hb. unfold pos in *. lia.
    + intros Hf. rewrite lexed_kind by done. auto.
  - intros Hf. specialize (Hpos Hf). destruct Hb. unfold pos in *. lia.
  - by apply frame_same.
Qed.

Lemma token_is_length t w : token_is t w = true -> end_ t - start t = Z.of_nat (length w).
Proof using. unfold token_is. intros H. to_prop. lia. Qed.

Lemma wp_take w s :
  inv s ->
  wp (take_ w) (fun yes s' => if yes : bool then steps s s' /\ consumed s s' /\ (failed s' = false -> end_ (tok s) <= pos s')
                                 /\ token_is (tok s) w = true
                              else s' = s) s.
Proof using text_bytes.
  intros Hi. unfold take_. eapply (wp_bind _ _ (fun yes s1 => s1 = s /\ yes = token_is (tok s) w)); [done|]. cbn beta.
  intros yes ? [-> ->]. destruct (token_is (tok s) w) eqn:E; [|done].
  eapply wp_bind; [by apply wp_lex_step|]. cbn beta. intros _ s1 (Hs & Hc & Hp). done.
Qed.

Lemma wp_expect w s :
  inv s ->
  wp (expect w) (fun _ s' => steps s s' /\
    (failed s' = false -> consumed s s' /\ end_ (tok s) <= pos s' /\ token_is (tok s) (str w) = true)) s.
Proof using text_bytes.
  intros Hi. unfold expect. eapply wp_bind; [by apply wp_take|]. cbn beta. intros yes s1 H1.
  eapply (wp_bind _ _ (fun stop s2 => s2 = s1 /\ stop = failed s1)); [done|]. cbn beta. intros ? ? [-> ->].
  destruct yes; cbn [orb].
  { destruct H1 as (Hs & Hc & Hp & Ht). split; [done|]. intros Hf. auto. }
  subst s1. destruct (failed s) eqn:Ef; [split; [by apply steps_refl|congruence]|].
  eapply (wp_bind _ _ (fun t s2 => s2 = s)); [done|]. cbn beta. intros t ? ->.
  eapply wp_bind; [by apply wp_fail_step|]. cbn beta. intros _ s2 [Hs Hf].
  split; [|intros Hf'; exfalso; unfold failed in Hf, Hf'; cbn in Hf'; congruence].
  eapply steps_trans; [done|]. intros b x _. pose proof (step_inv _ _ _ _ (steps_step _ _ Hs)) as Hi2.
  pose proof (bounded_work _ (inv_bounded _ Hi2)). apply parser_step; cbn; auto; [by destruct Hi2|lia|].
  intros Hf'. exfalso. unfold failed in Hf, Hf'. cbn in Hf'. congruence.
Qed.

(** *** Nodes *)

Lemma get_at_app_l {A} (l1 l2 : list A) i n : get_at l1 i = Some n -> get_at (l1 ++ l2) i = Some n.
Proof using.
  rewrite !get_at_Some, length_app. intros [Hi Hn]. split; [lia|]. by apply lookup_app_l_Some.
Qed.
Lemma get_at_snoc {A} (l : list A) i n m : get_at (l ++ [m]) i = Some n -> get_at l i = Some n \/ i = Z.of_nat (length l) /\ n = m.
Proof using.
  rewrite !get_at_Some, length_app. cbn [length]. intros [Hi Hn]. destruct (Z_lt_le_dec i (Z.of_nat (length l))).
  - left. split; [lia|]. by rewrite lookup_app_l in Hn by lia.
  - right. split; [lia|]. rewrite lookup_app_r in Hn by lia. replace (Z.to_nat i - length l)%nat with 0%nat in Hn by lia.
    by injection Hn.
Qed.
Lemma get_at_snoc_eq {A} (l : list A) m : get_at (l ++ [m]) (Z.of_nat (length l)) = Some m.
Proof using.
  apply get_at_Some. rewrite length_app. cbn [length]. split; [lia|]. rewrite Nat2Z.id, lookup_app_r by lia.
  by rewrite Nat.sub_diag.
Qed.

Lemma wf_snoc q l n : wf_nodes q l -> node_ok q (l ++ [n]) (Z.of_nat (length l)) n -> wf_nodes q (l ++ [n]).
Proof using.
  intros Hwf Hn id m Hm. apply get_at_snoc in Hm as [Hm|[-> ->]]; [|done].
  destruct (Hwf id m Hm). constructor; auto. destruct node_next0 as [E|(k & Hk & Hle)]; [by left|]. right. exists k.
  split; [by apply get_at_app_l|done].
Qed.

Lemma wp_grow o s :
  inv s -> failed s = false ->
  wp (grow o) (fun ok s' => steps s s' /\ pos s' = pos s /\ nodes (tree s') = nodes (tree s)
    /\ if ok : bool then failed s' = false /\ count (tree s') < capacity (tree s') else failed s' = true) s.
Proof using.
  intros Hi Hf. pose proof Hi as [Hb Hd Hc Hok Hkd]. pose proof (bounded_work _ Hb) as Hw. unfold grow.
  eapply (wp_bind _ _ (fun t s1 => s1 = s /\ t = tree s)); [done|]. cbn beta. intros ? ? [-> ->].
  destruct (Z.eqb_spec (count (tree s)) (capacity (tree s))) as [E|E].
  2:{ split; [by apply steps_refl|]. split_and!; try done. lia. }
  set (c := if negb (capacity (tree s) =? 0) then u32 (capacity (tree s) * 2) else 64). cbv zeta.
  assert (forall (s1 : St) m, steps s s1 -> pos s1 = pos s -> nodes (tree s1) = nodes (tree s) ->
    wp (fail_ o m;; ret false) (fun ok s' => steps s s' /\ pos s' = pos s /\ nodes (tree s') = nodes (tree s)
    /\ if ok : bool then failed s' = false /\ count (tree s') < capacity (tree s') else failed s' = true) s1) as Hfail.
  { intros s1 m Hs Hpos Hn. eapply wp_bind; [apply wp_fail|]. cbn beta. intros _ s2 (Hq & Hf2 & _).
    split; [eapply steps_trans; [done|]; intros b x _; apply quiet_step; [by destruct (steps_step _ _ Hs)|done]|].
    unfold pos. rewrite (quiet_token _ _ Hq), (quiet_nodes _ _ Hq). done. }
  split_if; [by apply Hfail; [apply steps_refl|..]|]. to_prop.
  eapply (wp_bind _ _ (fun ok s1 => parser s1 = parser s /\ tree s1 = tree s /\ work_remaining s1 = work_remaining s)).
  { unfold wp, call_realloc. by destruct (realloc (world s) _). }
  cbn beta. intros ok s1 (Hp & Ht & Hw1).
  assert (failed s1 = failed s) as Hf1 by (unfold failed; by rewrite Ht).
  destruct ok; cbn [negb].
  - unfold wp, bind, modify, ret. assert (count (tree s) < c < 2 ^ 32) as Hroom.
    { rewrite E in *. unfold c in *. pose proof (u32_range (capacity (tree s) * 2)). unfold count in E.
      destruct (Z.eqb_spec (capacity (tree s)) 0); cbn [negb] in *; [lia|]. split; [|lia].
      destruct (Z.eq_dec (u32 (capacity (tree s) * 2)) (capacity (tree s))) as [Eq|]; [|lia].
      unfold u32, wrap in Eq. pose proof (Z.div_mod (capacity (tree s) * 2) (2 ^ 32)). nia. }
    split; [intros b x _; apply parser_step; cbn; rewrite ?Ht; auto; unfold count in *; cbn; rewrite ?Ht; lia || (unfold failed; cbn; by rewrite Ht)|].
    unfold pos, tok, failed, count in *. cbn. rewrite Hp, Ht. split_and!; try done. lia.
  - apply Hfail.
    + intros b x _. apply parser_step; rewrite ?Ht; auto; [lia|by rewrite Hf1].
    + unfold pos, tok. by rewrite Hp.
    + by rewrite Ht.
Qed.

(** A new node: without an error its span and its first child must be sound. *)
Lemma wp_node k st en first op s :
  inv s ->
  (failed s = false -> 0 <= st <= en /\ en <= pos s /\ (first = NONE \/ 0 <= first < count (tree s))) ->
  wp (node k st en first op) (fun r s' => steps s s' /\ result (count (tree s)) st r s'
    /\ (failed s' = true -> r = NONE) /\ (r <> NONE -> forall n, get_at (nodes (tree s')) r = Some n -> n_first n = first /\ n_end n = en)) s.
Proof using.
  intros Hi Hpre. unfold node.
  eapply (wp_bind _ _ (fun stop s1 => s1 = s /\ stop = failed s)); [done|]. cbn beta. intros ? ? [-> ->].
  destruct (failed s) eqn:Ef.
  { split; [by apply steps_refl|]. split; [split; [done|congruence]|done]. }
  destruct (Hpre eq_refl) as (Hse & Hen & Hfirst).
  eapply wp_bind; [by apply wp_grow|]. cbn beta. intros room s1 (Hs & Hpos & Hn & Hr). destruct room; cbn [negb].
  2:{ split; [done|]. split; [split; [done|congruence]|done]. }
  destruct Hr as [Hf1 Hcap]. eapply (wp_bind _ _ (fun t s2 => s2 = s1 /\ t = tree s1)); [done|]. cbn beta.
  intros ? ? [-> ->]. unfold wp, bind, modify, ret. set (n := mkNode _ _ _ _ _ _ _ _ _ _).
  destruct (step_inv _ _ _ _ (steps_step _ _ Hs)) as [Hb1 Hd1 Hc1 Hok1 Hkd1]. destruct (Hok1 Hf1) as [Ho1 Hwf1].
  assert (count (tree s1) = count (tree s)) as Hcount by (unfold count; by rewrite Hn).
  assert (length (nodes (tree s1) ++ [n]) = Datatypes.S (length (nodes (tree s1)))) as Hlen by (rewrite length_app; cbn; lia).
  assert (pos s <= len) by (unfold pos in *; destruct (inv_bounded _ Hi); lia).
  split; [|split; [|split]].
  - eapply steps_trans; [done|]. intros b x Hb. constructor; cbn; auto; try lia.
    + constructor; cbn; [by destruct Hb1; constructor|done|unfold count in *; cbn; rewrite Hlen; lia| |done]. intros _. split; [done|].
      apply wf_snoc; [done|]. constructor; cbn; auto.
      * unfold pos, tok in *. cbn. lia.
      * unfold count in *. lia.
      * by left.
    + intros _. unfold pos, tok. cbn. lia.
    + eapply (frame_app _ _ _ _ [n]); cbn; [lia|done].
  - split.
    + intros _. unfold count in *. cbn. rewrite Hlen. lia.
    + intros _. split; [unfold count, NONE, UINT32_MAX in *; lia|]. exists n. cbn.
      split; [apply get_at_snoc_eq|]. split; [lia|]. split; [|done]. unfold pos, tok in *. cbn. lia.
  - intros Hf'. unfold failed in Hf1, Hf'. cbn in Hf'. congruence.
  - intros _ m Hm. cbn in Hm. unfold count in Hm. rewrite get_at_snoc_eq in Hm. by injection Hm as <-.
Qed.

(** *** Updates of one node *)

Definition steps_new (y : Z) (s s' : St) : Prop :=
  forall b x, b <= count (tree s) -> b <= y -> step b x s s'.
Lemma steps_new_trans y s1 s2 s3 : steps s1 s2 -> count (tree s1) <= y -> steps_new y s2 s3 -> steps s1 s3.
Proof using.
  intros H1 Hy H2 b x Hb. pose proof (steps_count _ _ H1). eapply step_trans; [by apply H1|apply H2; lia].
Qed.
Lemma steps_at_new y z s1 s2 s3 :
  steps_at y s1 s2 -> count (tree s1) <= z -> steps_new z s2 s3 -> steps_at y s1 s3.
Proof using.
  intros H1 Hz H2 b x Hb Hy. destruct (step_frame _ _ _ _ (steps_at_step _ _ _ H1)).
  eapply step_trans; [by apply H1|apply H2; lia].
Qed.

Record updated (id : Z) (s s' : St) : Prop := {
  updated_parser : parser s' = parser s;
  updated_failed : failed s' = failed s;
  updated_count : count (tree s') = count (tree s);
  updated_work : work_remaining s' = work_remaining s;
  updated_other : forall i, i <> id -> 0 <= i -> get_at (nodes (tree s')) i = get_at (nodes (tree s)) i }.

(** An update that keeps the span, the first child and the parent. *)
Definition keeps_node (f : ExpNode -> ExpNode) : Prop := forall n,
  n_start (f n) = n_start n /\ n_end (f n) = n_end n /\ n_first (f n) = n_first n /\ n_parent (f n) = n_parent n.

Lemma upd_inv f id n s :
  inv s -> get_at (nodes (tree s)) id = Some n -> keeps_node f ->
  (failed s = false -> sibling_ok (nodes (tree s)) n (n_next (f n))) ->
  let s' := with_tree (set_nodes (<[Z.to_nat id := f n]> (nodes (tree s)))) s in
  inv s' /\ updated id s s' /\ get_at (nodes (tree s')) id = Some (f n).
Proof using.
  intros [Hb Hd Hc Hok Hkd] Hn Hk Hnext s'. pose proof Hn as Hn'. apply get_at_Some in Hn' as [Hr _].
  assert (count (tree s') = count (tree s)) as Hcount by (unfold count, s'; cbn; by rewrite length_insert).
  assert (updated id s s') as Hu. { constructor; try done. intros i Hi Hi0. cbn. apply get_at_insert_ne; lia. }
  assert (get_at (nodes (tree s')) id = Some (f n)) as Hget by by apply get_at_insert_eq.
  split; [|done]. constructor; [by destruct Hb; constructor|done|by rewrite Hcount| |done].
  intros Hf. destruct (Hok Hf) as [Ho Hwf]. split; [done|]. intros i m Hm.
  pose proof Hm as Hm'. apply get_at_Some in Hm' as [Hi _]. fold (count (tree s')) in *.
  destruct (Hk n) as (E1 & E2 & E3 & E4).
  assert (forall k v, sibling_ok (nodes (tree s)) k v -> sibling_ok (nodes (tree s')) k v) as Hsib.
  { intros k v [->|(j & Hj & Hle)]; [by left|]. right. pose proof Hj as Hj'. apply get_at_Some in Hj' as [Hv _].
    destruct (Z.eq_dec v id) as [->|Hne]; [|exists j; rewrite (updated_other _ _ _ Hu) by lia; done].
    exists (f n). split; [done|]. rewrite Hn in Hj. injection Hj as <-. by rewrite E1. }
  destruct (Z.eq_dec i id) as [->|Hne].
  - rewrite Hget in Hm. injection Hm as <-. destruct (Hwf id n Hn).
    constructor; rewrite ?E1, ?E2, ?E3, ?E4; auto. destruct (Hsib _ _ (Hnext Hf)) as [E|(j & Hj & Hle)]; [by left|].
    right. exists j. by rewrite E2.
  - rewrite (updated_other _ _ _ Hu) in Hm by (done || lia). destruct (Hwf i m Hm). constructor; auto.
Qed.

Lemma wp_upd f id s :
  inv s -> 0 <= id < count (tree s) -> keeps_node f -> (forall n, n_next (f n) = n_next n) ->
  wp (upd_node id f) (fun _ s' => steps_new id s s' /\ updated id s s' /\
    forall n, get_at (nodes (tree s)) id = Some n -> get_at (nodes (tree s')) id = Some (f n)) s.
Proof using.
  intros Hi Hid Hk Hnext. destruct (get_at_is_Some (nodes (tree s)) id Hid) as [n Hn].
  unfold wp, upd_node. rewrite Hn. destruct (upd_inv f id n s Hi Hn Hk) as (Hi' & Hu & Hget).
  { intros Hf. rewrite Hnext. destruct (inv_ok _ Hi Hf) as [_ Hwf]. by destruct (Hwf id n Hn). }
  split; [|split; [done|congruence]]. intros b x Hb Hbid. constructor; auto; [done|done|].
  split; [rewrite (updated_count _ _ _ Hu); lia|]. intros i m Hi0 Hm. exists m. split; [|auto].
  rewrite (updated_other _ _ _ Hu) by lia. done.
Qed.

Lemma wp_set_next id v s :
  inv s -> 0 <= id < count (tree s) ->
  (failed s = false -> forall n, get_at (nodes (tree s)) id = Some n -> sibling_ok (nodes (tree s)) n v) ->
  wp (set_next id v) (fun _ s' => steps_at id s s' /\ updated id s s' /\
    forall n, get_at (nodes (tree s)) id = Some n -> get_at (nodes (tree s')) id = Some (with_next v n)) s.
Proof using.
  intros Hi Hid Hv. destruct (get_at_is_Some (nodes (tree s)) id Hid) as [n Hn].
  unfold wp, set_next, upd_node. rewrite Hn. destruct (upd_inv (with_next v) id n s Hi Hn) as (Hi' & Hu & Hget).
  { intros m. done. }
  { intros Hf. by apply Hv. }
  split; [|split; [done|congruence]]. intros b x Hb Hbid. constructor; auto; [done|done|].
  split; [rewrite (updated_count _ _ _ Hu); lia|]. intros i m Hi0 Hm.
  destruct (Z.eq_dec i id) as [->|]; [|exists m; rewrite (updated_other _ _ _ Hu) by lia; auto].
  destruct Hbid as [Hlt| ->]; [lia|]. rewrite Hn in Hm. injection Hm as <-. exists (with_next v n). split; [done|]. by right.
Qed.

Lemma updated_pos id s s' : updated id s s' -> pos s' = pos s.
Proof using. intros []. unfold pos, tok. by rewrite updated_parser0. Qed.
Lemma result_updated id lo p r s s' : updated id s s' -> result lo p r s -> 0 <= lo -> r <> id -> result lo p r s'.
Proof using.
  intros Hu [H1 H2] Hlo Hr. split; [rewrite (updated_count _ _ _ Hu); done|]. rewrite (updated_failed _ _ _ Hu).
  intros Hf. destruct (H2 Hf) as (HN & n & Hn). split; [done|]. exists n.
  rewrite (updated_other _ _ _ Hu), (updated_pos _ _ _ Hu); [done|done|]. specialize (H1 HN). lia.
Qed.

Lemma wp_mark lo p r flags s :
  inv s -> result lo p r s -> 0 <= lo ->
  wp (mark r flags) (fun r' s' => r' = r /\ steps_new r s s' /\ result lo p r s') s.
Proof using.
  intros Hi Hr Hlo. unfold mark. destruct (Z.eqb_spec r NONE) as [->|HN]; cbn [negb].
  { split; [done|]. split; [|done]. intros b x Hb _. by apply step_refl. }
  destruct Hr as [H1 H2]. specialize (H1 HN).
  eapply wp_bind; [apply wp_upd; [done|lia|by intros ?|done]|]. cbn beta. intros _ s1 (Hs & Hu & Hget).
  split; [done|]. split; [done|]. split; [intros _; rewrite (updated_count _ _ _ Hu); lia|].
  rewrite (updated_failed _ _ _ Hu). intros Hf. destruct (H2 Hf) as (_ & n & Hn & Hst & He & Hnx). split; [done|].
  exists (with_flags (Z.lor (n_flags n) flags) n). split; [by apply Hget|]. rewrite (updated_pos _ _ _ Hu). done.
Qed.

Lemma wp_get_node {B} id (k : ExpNode -> M B) Q s :
  0 <= id < count (tree s) -> (forall n, get_at (nodes (tree s)) id = Some n -> wp (k n) Q s) ->
  wp (let! n := get_node id in k n) Q s.
Proof using.
  intros Hid Hk. destruct (get_at_is_Some (nodes (tree s)) id Hid) as [n Hn]. unfold wp, bind, get_node. rewrite Hn. by apply Hk.
Qed.
Lemma wp_gets {A B} (f : St -> A) (k : A -> M B) Q s : wp (k (f s)) Q s -> wp (let! a := gets f in k a) Q s.
Proof using. done. Qed.

(** A child that is complete joins the list. *)
Lemma wp_append lo p l id s :
  inv s -> 0 <= lo -> children lo p l s -> result lo p id s -> snd l < id \/ snd l = NONE ->
  (failed s = false -> forall n m, get_at (nodes (tree s)) (snd l) = Some n -> get_at (nodes (tree s)) id = Some m -> n_end n <= n_start m) ->
  wp (append l id) (fun l' s' => steps_new lo s s' /\ children lo p l' s' /\ work_remaining s' = work_remaining s
    /\ failed s' = failed s) s.
Proof using.
  intros Hi Hlo Hl Hr Hlt Hsep. destruct l as [first last]. cbn [fst snd] in *. unfold append. apply wp_gets.
  assert (forall b x, b <= count (tree s) -> b <= lo -> step b x s s) as Hrefl by (intros; by apply step_refl).
  destruct (Z.eqb_spec id NONE) as [->|HN]; cbn [orb].
  { split; [|done]. intros b x ? ?. by apply Hrefl. }
  destruct (failed s) eqn:Ef.
  { split; [|done]. intros b x ? ?. by apply Hrefl. }
  destruct Hr as [H1 H2]. specialize (H1 HN). destruct (H2 Ef) as (_ & n & Hn & Hst & He & Hnx).
  destruct (Z.eqb_spec first NONE) as [->|HF].
  { split; [intros b x ? ?; by apply Hrefl|]. split; [|done]. right. cbn. split; [lia|]. split; [lia|]. intros _. by exists n. }
  destruct Hl as [[= -> ->]|(Hfl & Hlast & _)]; [done|]. cbn [fst snd] in *.
  assert (last < id) by (destruct Hlt as [|E]; [done|]; pose proof (result_nat_ne _ _ Hi Hlast); congruence).
  eapply wp_bind; [apply wp_set_next; [done|lia|intros _ k Hk; right; exists n; auto]|]. cbn beta. intros _ s1 (Hs & Hu & _).
  split; [intros b x ? ?; apply Hs; [done|left; lia]|]. split; [|by rewrite (updated_failed _ _ _ Hu), (updated_work _ _ _ Hu)].
  right. cbn. rewrite (updated_count _ _ _ Hu), (updated_failed _ _ _ Hu), (updated_pos _ _ _ Hu). split; [lia|]. split; [lia|].
  intros _. exists n. by rewrite (updated_other _ _ _ Hu) by lia.
Qed.

Lemma steps_inv s s' : steps s s' -> inv s'.
Proof using. intros H. by destruct (steps_step _ _ H). Qed.
Lemma steps_ok s s' : steps s s' -> failed s' = false -> failed s = false.
Proof using. intros H. apply (step_ok 0 0). by apply steps_step. Qed.
Lemma steps_pos s s' : steps s s' -> failed s' = false -> pos s <= pos s'.
Proof using. intros H. by destruct (steps_step _ _ H). Qed.
Lemma steps_new_step y s s' : 0 <= y -> steps_new y s s' -> step 0 0 s s'.
Proof using. intros Hy H. apply H; [unfold count; lia|done]. Qed.
Lemma steps_steps_new y s s' : steps s s' -> steps_new y s s'.
Proof using. intros H b x Hb _. by apply H. Qed.
Lemma steps_new_new y s1 s2 s3 : 0 <= y -> steps_new y s1 s2 -> steps_new y s2 s3 -> steps_new y s1 s3.
Proof using.
  intros Hy H1 H2 b x Hb Hby. destruct (step_frame _ _ _ _ (steps_new_step _ _ _ Hy H1)).
  eapply step_trans; [by apply H1|apply H2; lia].
Qed.
(** Only nodes below [y] count when [y] starts the new ones. *)
Lemma steps_new_all y s s' : count (tree s) <= y -> steps_new y s s' -> steps s s'.
Proof using. intros Hy H b x Hb. apply H; lia. Qed.

(** A node made before [s] ends before the token of [s]. *)
Lemma older_end b x id n s s' :
  inv s -> step b x s s' -> failed s' = false -> get_at (nodes (tree s')) id = Some n -> id < b -> b <= count (tree s) ->
  n_end n <= pos s.
Proof using.
  intros Hi Hs Hf Hn Hid Hb. destruct (step_frame _ _ _ _ Hs) as [_ Hfr].
  pose proof Hn as Hn'. apply get_at_Some in Hn' as [Hr _].
  destruct (get_at_is_Some (nodes (tree s)) id) as [m Hm]; [unfold count in *; lia|].
  destruct (inv_ok _ Hi (step_ok _ _ _ _ Hs Hf)) as [_ Hwf]. destruct (Hwf _ _ Hm) as [Hsp _ _ _].
  destruct (Hfr id m ltac:(lia) Hm) as (m' & Hm' & E). rewrite Hn in Hm'. injection Hm' as <-.
  destruct E as [->|[_ E]]; [lia|]. pose proof (f_equal n_end E) as E2. cbn in E2. lia.
Qed.

(** One parse after another. *)
Lemma steps_result lo p r s s' : steps s s' -> result lo p r s -> 0 <= lo -> result lo p r s'.
Proof using.
  intros Hs Hr Hlo. destruct (Z.eq_dec r NONE) as [->|HN].
  - split; [done|]. intros Hf. destruct Hr as [_ Hr]. by destruct (Hr (steps_ok _ _ Hs Hf)).
  - pose proof Hr as [Hr' _]. specialize (Hr' HN).
    eapply (result_step (count (tree s)) (-1)); [done|by apply Hs|done|lia|lia].
Qed.
Lemma steps_children lo p l s s' : steps s s' -> children lo p l s -> 0 <= lo -> children lo p l s'.
Proof using.
  intros Hs Hl Hlo. destruct Hl as [->|Hl]; [by left|].
  eapply (children_step (count (tree s)) (-1)); [right; done|by apply Hs|done|]. left. lia.
Qed.
(** The parse [parses] gives extends a list made before. *)
Lemma wp_append_parsed lo p l id s s' :
  inv s -> inv s' -> 0 <= lo <= count (tree s) -> (failed s = false -> p <= pos s) -> children lo p l s ->
  steps s s' -> result (count (tree s)) (pos s) id s' ->
  wp (append l id) (fun l' s2 => steps_new lo s s2 /\ children lo p l' s2 /\ steps_new lo s' s2) s'.
Proof using.
  intros Hi Hi' Hlo Hp Hl Hs Hr.
  eapply wp_mono; [apply (wp_append lo p); [done|lia|by apply (steps_children _ _ _ _ _ Hs); [done|lia]| | |]|].
  - eapply result_weaken; [done|lia|]. intros Hf. apply Hp. by apply (steps_ok _ _ Hs).
  - destruct Hl as [->|(Hl & Hlast & _)]; [by right|]. left. destruct (Z.eq_dec id NONE) as [->|HN].
    + pose proof (inv_count _ Hi). unfold NONE, UINT32_MAX. lia.
    + destruct Hr as [Hr _]. specialize (Hr HN). lia.
  - intros Hf n m Hn Hm. destruct (proj2 Hr Hf) as (HN & m' & Hm' & Hst & _). rewrite Hm in Hm'. injection Hm' as <-.
    destruct Hl as [->|(Hl & Hlast & _)].
    + cbn in Hn. apply get_at_Some in Hn as [Hr' _]. pose proof (inv_count _ Hi'). unfold count, NONE, UINT32_MAX in *. lia.
    + pose proof (older_end _ _ _ _ _ _ Hi (Hs (count (tree s)) (-1) ltac:(lia)) Hf Hn ltac:(lia) ltac:(lia)). lia.
  - cbn beta. intros l' s2 (Hn & Hl' & Hw & Hf). split; [|done].
    eapply steps_new_new; [lia|by apply steps_steps_new|done].
Qed.

(** *** Names *)

Lemma wp_name s :
  inv s -> wp name (fun r s' => steps s s' /\ result (count (tree s)) (pos s) r s' /\ consumed s s'
    /\ (failed s' = false -> end_ (tok s) <= pos s')) s.
Proof using text_bytes.
  intros Hi. unfold name. apply wp_gets. destruct (bool_decide (kind (tok s) = NAME)); cbn [negb].
  2:{ eapply wp_bind; [by apply wp_fail_step|]. cbn beta. intros _ s1 [Hs Hf]. split; [done|].
      split; [split; [done|congruence]|unfold consumed; split; congruence]. }
  eapply wp_bind; [by apply wp_lex_step|]. cbn beta. intros _ s1 (Hs & Hc & Hp).
  pose proof (inv_bounded _ Hi) as []. eapply wp_mono; [apply wp_node; [by eapply steps_inv|]|].
  { intros Hf. specialize (Hp Hf). split; [lia|]. split; [lia|by left]. }
  cbn beta. intros r s2 (Hs2 & Hr & _). split; [by eapply steps_trans|]. split.
  - eapply result_weaken; [done|by apply steps_count|unfold pos; lia].
  - split; [eapply consumed_step; [done|by apply steps_step]|]. intros Hf.
    specialize (Hp (steps_ok _ _ Hs2 Hf)). pose proof (steps_pos _ _ Hs2 Hf). lia.
Qed.

Lemma wp_name_loop fuel lo p l s :
  inv s -> fuel_ok fuel s 1 -> 0 <= lo <= count (tree s) -> (failed s = false -> p <= pos s) -> children lo p l s ->
  wp (name_loop fuel l) (fun l' s' => steps_new lo s s' /\ children lo p l' s') s.
Proof using text_bytes options_fit.
  revert l s. induction fuel as [|fuel IH]; intros l s Hi Hfuel Hlo Hp Hl.
  { unfold fuel_ok in Hfuel. pose proof (need_pos s Hi). lia. }
  cbn [name_loop]. eapply wp_bind; [by apply wp_take|]. cbn beta. intros dot s1 H1. apply wp_gets. destruct dot; cbn [andb].
  2:{ subst s1. split; [|done]. intros b x ? ?. by apply step_refl. }
  destruct H1 as (Hs1 & Hc1 & Hp1 & _). pose proof (steps_inv _ _ Hs1) as Hi1.
  assert (children lo p l s1) as Hl1.
  { destruct Hl as [->|Hl']; [by left|]. eapply (children_step (count (tree s)) 0); [right; done|by apply Hs1|lia|].
    left. lia. }
  destruct (failed s1) eqn:Ef1; cbn [negb]; [split; [by apply steps_steps_new|done]|].
  eapply wp_bind; [by apply wp_name|]. cbn beta. intros id s2 (Hs2 & Hr2 & Hc2 & _).
  pose proof (steps_count _ _ Hs1). pose proof (steps_count _ _ Hs2). pose proof (steps_pos _ _ Hs1 Ef1).
  specialize (Hp (steps_ok _ _ Hs1 Ef1)).
  eapply wp_bind; [apply (wp_append_parsed lo p l id s1); [done|by eapply steps_inv|lia|intros _; lia|done|done|done]|].
  cbn beta. intros l3 s3 (H13 & Hl3 & Hs3).
  assert (steps_new lo s s3) as Hs03.
  { eapply steps_new_new; [lia|apply steps_steps_new; by eapply steps_trans|done]. }
  pose proof (steps_new_step lo _ _ ltac:(lia) Hs03) as Hst.
  eapply wp_mono; [apply IH|].
  - by destruct Hst.
  - eapply (fuel_consumed options_fit 0 0 _ s); [done|by eapply steps_ok|done| |lia|lia].
    eapply consumed_step; [done|]. eapply step_trans; [by apply steps_step|].
    apply (steps_new_step lo); [lia|done].
  - destruct (step_frame _ _ _ _ Hst). lia.
  - intros Hf. pose proof (step_pos _ _ _ _ Hst Hf). pose proof (steps_pos _ _ Hs1 Ef1).
    assert (failed s = false) by by eapply step_ok. lia.
  - done.
  - cbn beta. intros l' s' [Hs' Hl']. split; [|done]. eapply steps_new_new; [lia|done|done].
Qed.

(** *** Probes *)

Definition scratch (s : St) : St := mkSt (parser s) tree0 (work_remaining s) (world s).
Lemma scratch_inv s : inv s -> failed s = false -> inv (scratch s).
Proof using.
  intros [Hb Hd Hc Hok Hkd] Hf. constructor; [by destruct Hb; constructor|done|split; vm_compute; congruence| |done]. intros _. split; [by apply Hok|].
  intros id n Hn. apply get_at_Some in Hn as [Hr _]. cbn in Hr. lia.
Qed.
Lemma wp_probing {A} (m : M A) s :
  inv s -> failed s = false -> wp m (fun _ s1 => steps (scratch s) s1) (scratch s) ->
  wp (probing m) (fun _ s' => steps s s' /\ parser s' = parser s /\ failed s' = failed s) s.
Proof using.
  intros Hi Hf Hm. unfold wp, probing in *. fold (scratch s). destruct (m (scratch s)) as [[a s1]|]; [|done].
  pose proof (steps_step _ _ Hm) as [Hi1 _ Hw _ _ _]. pose proof (bounded_work _ (inv_bounded _ Hi1)). split; [|done].
  intros b x _. apply parser_step; cbn in *; auto; [by destruct Hi|]. intros _. by apply (inv_kind _ Hi).
Qed.

Lemma wp_propagate t s :
  inv s -> wp (propagate_error t) (fun _ s' => steps s s' /\ parser s' = parser s) s.
Proof using.
  intros Hi. pose proof (bounded_work _ (inv_bounded _ Hi)). unfold wp, propagate_error, modify.
  destruct (failed s) eqn:E; [split; [by apply steps_refl|done]|].
  destruct (error t); [|split; [by apply steps_refl|done]]. split; [|done]. intros b x _.
  apply parser_step; cbn; auto; [by destruct Hi|lia|done].
Qed.

Lemma wp_src_peek s : inv s -> wp src_peek (fun _ s' => steps s s' /\ parser s' = parser s) s.
Proof using text_bytes.
  intros Hi. unfold src_peek. apply wp_gets. destruct (failed s) eqn:Ef; [split; [by apply steps_refl|done]|].
  eapply wp_bind; [apply wp_probing; [done|done|]|].
  { eapply wp_bind; [by apply wp_lex_step, scratch_inv|]. cbn beta. intros _ s1 (Hs & _). done. }
  cbn beta. intros [t sc] s1 (Hs & Hp & _). eapply (wp_bind _ _ (fun _ s2 => steps s1 s2 /\ parser s2 = parser s1)).
  { destruct (has_error sc); [apply wp_propagate; by eapply steps_inv|]. split; [by eapply steps_refl, steps_inv|done]. }
  cbn beta. intros _ s2 [Hs2 Hp2]. split; [by eapply steps_trans|congruence].
Qed.
Lemma wp_src_next_is w s : inv s -> wp (src_next_is w) (fun _ s' => steps s s' /\ parser s' = parser s) s.
Proof using text_bytes. intros Hi. unfold src_next_is. eapply wp_bind; [by apply wp_src_peek|]. done. Qed.

Lemma wp_fn_type_start s : inv s -> wp fn_type_start (fun _ s' => s' = s) s.
Proof using.
  intros Hi. unfold fn_type_start, any_of. do 2 apply wp_gets. split_if; [|done].
  destruct (inv_bounded _ Hi). destruct (peek_total (Z.eqb 40) (end_ (tok s)) ltac:(lia)) as [b Hb].
  by eapply wp_lift.
Qed.
Lemma wp_word_then w next s :
  inv s ->
  wp (let! yes := any_of [w] in if yes then src_next_is next else ret false) (fun _ s' => steps s s' /\ parser s' = parser s) s.
Proof using text_bytes.
  intros Hi. apply wp_gets. split_if; [by apply wp_src_next_is|]. split; [by apply steps_refl|done].
Qed.
Lemma wp_optional_type_start s :
  inv s -> wp optional_type_start (fun _ s' => steps s s' /\ parser s' = parser s) s.
Proof using text_bytes.
  intros Hi. unfold optional_type_start. assert (steps s s /\ parser s = parser s) as Hrefl by (split; [by apply steps_refl|done]).
  eapply wp_bind; [by apply wp_fn_type_start|]. cbn beta. intros fn ? ->. destruct fn; [done|].
  apply wp_gets. split_if; [done|].
  eapply wp_bind; [by apply wp_word_then|]. cbn beta. intros d s1 [Hs1 Hp1].
  eapply (wp_bind _ _ (fun _ s2 => steps s s2 /\ parser s2 = parser s)).
  { destruct d; [done|]. eapply wp_mono; [apply wp_word_then; by eapply steps_inv|]. cbn beta. intros _ s2 [Hs2 Hp2].
    split; [by eapply steps_trans|congruence]. }
  cbn beta. intros skip s2 [Hs2 Hp2]. destruct skip; done.
Qed.

Lemma wp_struct_loop fuel s :
  inv s -> fuel_ok fuel s 1 -> wp (struct_loop fuel) (fun _ s' => steps s s') s.
Proof using text_bytes options_fit.
  revert s. induction fuel as [|fuel IH]; intros s Hi Hfuel.
  { unfold fuel_ok in Hfuel. pose proof (need_pos s Hi). lia. }
  cbn [struct_loop]. eapply wp_bind; [by apply wp_take|]. cbn beta. intros dot s1 H1. apply wp_gets. destruct dot; cbn [andb].
  2:{ subst s1. do 2 apply wp_gets. by apply steps_refl. }
  destruct H1 as (Hs1 & Hc1 & _ & _). destruct (failed s1) eqn:Ef1; cbn [negb]; [done|].
  apply wp_gets. destruct (bool_decide _); cbn [negb]; [|done].
  eapply wp_bind; [apply wp_lex_step; by eapply steps_inv|]. cbn beta. intros _ s2 (Hs2 & Hc2 & _).
  assert (steps s s2) as Hs by by eapply steps_trans.
  eapply wp_mono; [apply IH; [by eapply steps_inv|]|].
  - eapply (fuel_consumed options_fit 0 0 _ s); [done|by apply (steps_ok _ _ Hs1)|by apply steps_step| |lia|lia].
    eapply consumed_step; [done|by apply steps_step].
  - cbn beta. intros _ s3 Hs3. by eapply steps_trans.
Qed.
Lemma wp_struct_start f s :
  inv s -> fuel_ok (Datatypes.S f) s 1 -> wp (struct_start f) (fun _ s' => steps s s' /\ parser s' = parser s) s.
Proof using text_bytes options_fit.
  intros Hi Hfuel. unfold struct_start. do 4 apply wp_gets.
  assert (steps s s /\ parser s = parser s) as Hrefl by (split; [by apply steps_refl|done]).
  destruct (failed s) eqn:Ef; [done|]. split_if; [done|]. split_if; [done|]. destruct (bool_decide _); cbn [negb]; [|done].
  pose proof (scratch_inv s Hi Ef) as Hsc.
  eapply wp_bind; [apply wp_probing; [done|done|]|].
  { eapply wp_bind; [by apply wp_lex_step|]. cbn beta. intros _ s1 (Hs & Hc & _).
    eapply wp_mono; [apply wp_struct_loop; [by eapply steps_inv|]|].
    - eapply (fuel_consumed options_fit 0 0 _ (scratch s) _ 1); [|done|by apply steps_step|done|lia|lia].
      unfold fuel_ok, need in *. by rewrite Ef in Hfuel.
    - cbn beta. intros _ s2 Hs2. by eapply steps_trans. }
  cbn beta. intros [r sc] s1 (Hs & Hp & _). destruct r as [yes|]; [|done].
  eapply wp_bind; [apply wp_propagate; by eapply steps_inv|]. cbn beta. intros _ s2 [Hs2 Hp2].
  split; [by eapply steps_trans|congruence].
Qed.

Lemma wp_precedence s : inv s -> wp precedence (fun _ s' => s' = s) s.
Proof using.
  intros Hi. destruct (inv_bounded _ Hi). unfold precedence. apply wp_gets.
  set (n := end_ (tok s) - start (tok s)). destruct (Z.eqb_spec n 0); cbn [orb]; [done|].
  destruct (n >? 2) eqn:E; [done|]. rewrite Z.gtb_ltb in E. to_prop.
  apply wp_rd; [lia|]. intros c Hc. destruct (Z.eqb_spec n 2).
  - apply wp_rd; [lia|]. done.
  - done.
Qed.

(** *** Speculation *)

Lemma get_at_ext {A} (l1 l2 : list A) :
  length l1 = length l2 -> (forall i x, get_at l1 i = Some x -> get_at l2 i = Some x) -> l1 = l2.
Proof using.
  intros Hl H. apply list_eq_same_length with (length l1); [done|done|]. intros i x y Hi Hx Hy.
  specialize (H (Z.of_nat i) x). rewrite !get_at_Some, Nat2Z.id in H. destruct H as [_ H]; [split; [lia|done]|].
  rewrite Hy in H. by injection H.
Qed.
Lemma get_at_take {A} (l : list A) n i x : get_at (take n l) i = Some x <-> i < Z.of_nat n /\ get_at l i = Some x.
Proof using.
  rewrite !get_at_Some, length_take. split.
  - intros [Hi Hx]. rewrite lookup_take_lt in Hx by lia. split_and!; [lia|lia|lia|done].
  - intros (Hn & Hi & Hx). split; [lia|]. by rewrite lookup_take_lt by lia.
Qed.

(** What is below [count] after the truncation. *)
Lemma frame_take s0 s1 :
  frame (count (tree s0)) (-1) s0 s1 -> take (Z.to_nat (count (tree s0))) (nodes (tree s1)) = nodes (tree s0).
Proof using.
  intros [Hc Hf]. unfold count in *. rewrite Nat2Z.id. symmetry. apply get_at_ext; [rewrite length_take; lia|].
  intros i x Hx. pose proof Hx as Hx'. apply get_at_Some in Hx' as [Hi _]. apply get_at_take. split; [lia|].
  destruct (Hf i x Hi Hx) as (n & Hn & [->|[? _]]); [done|lia].
Qed.
Lemma frame_take_at s0 s1 y n :
  frame (count (tree s0)) y s0 s1 -> get_at (nodes (tree s0)) y = Some n ->
  let l := take (Z.to_nat (count (tree s0))) (nodes (tree s1)) in
  exists n1, get_at l y = Some n1 /\ <[Z.to_nat y := with_next (n_next n) n1]> l = nodes (tree s0).
Proof using.
  intros [Hc Hf] Hn l. pose proof Hn as Hn'. apply get_at_Some in Hn' as [Hy _]. unfold count in *.
  destruct (Hf y n Hy Hn) as (n1 & Hn1 & E).
  assert (get_at l y = Some n1) as Hl by (apply get_at_take; split; [lia|done]).
  assert (with_next (n_next n) n1 = n) as En.
  { destruct E as [->|[_ E]]; [by destruct n|]. destruct n, n1. unfold with_next in *. cbn in *. congruence. }
  exists n1. split; [done|]. rewrite En. unfold l in *. clear l. rewrite Nat2Z.id in *. symmetry.
  apply get_at_ext; [rewrite length_insert, length_take; lia|].
  intros i x Hx. pose proof Hx as Hx'. apply get_at_Some in Hx' as [Hi _].
  destruct (Z.eq_dec i y) as [->|Hne].
  - rewrite get_at_insert_eq by (rewrite length_take; lia). congruence.
  - rewrite get_at_insert_ne by lia. apply get_at_take. split; [lia|].
    destruct (Hf i x Hi Hx) as (m & Hm & [->|[? _]]); [done|lia].
Qed.

(** Back at the state [s0]: less work is left, everything else is as it was. *)
Definition restored (s0 s' : St) : Prop :=
  steps s0 s' /\ parser s' = parser s0 /\ nodes (tree s') = nodes (tree s0) /\ failed s' = false.

Lemma wp_restore {B} (k : M B) Q s0 s1 :
  inv s0 -> failed s0 = false -> step (count (tree s0)) (-1) s0 s1 ->
  (forall s2, restored s0 s2 -> wp k Q s2) ->
  wp (restore (parser s0) (count (tree s0));; k) Q s1.
Proof using.
  intros Hi Hf Hs Hk. unfold wp, bind, restore, modify. apply Hk.
  destruct Hs as [Hi1 _ Hw _ _ Hfr]. pose proof (frame_take _ _ Hfr) as Et. destruct Hfr as [Hc _].
  pose proof (bounded_work _ (inv_bounded _ Hi1)). split; [|done].
  intros b x _. apply parser_step; cbn; auto; [|congruence]. unfold count in *. cbn. rewrite length_take, Nat2Z.id.
  pose proof (inv_count _ Hi1). unfold count in *. lia.
Qed.
Lemma wp_restore_link {B} (k : unit -> M B) Q s0 s1 y v n :
  inv s0 -> failed s0 = false -> step (count (tree s0)) y s0 s1 ->
  get_at (nodes (tree s0)) y = Some n -> v = n_next n ->
  (forall s2, restored s0 s2 -> wp (k tt) Q s2) ->
  wp (restore (parser s0) (count (tree s0));; bind (set_next y v) k) Q s1.
Proof using.
  intros Hi Hf Hs Hn -> Hk. destruct Hs as [Hi1 _ Hw _ _ Hfr]. destruct (frame_take_at _ _ _ _ Hfr Hn) as (n1 & Hn1 & El).
  unfold wp, bind, restore, modify, set_next, upd_node. cbn [tree nodes]. rewrite Hn1. apply Hk.
  destruct Hfr as [Hc _]. pose proof (bounded_work _ (inv_bounded _ Hi1)). split; [|done].
  intros b x _. apply parser_step; cbn; auto; [|congruence]. unfold count in *. cbn. rewrite El.
  pose proof (inv_count _ Hi1). unfold count in *. lia.
Qed.

Lemma wp_lex_copy o s :
  inv s -> 0 <= o <= len -> wp (lex_copy o) (fun _ s' => steps s s' /\ parser s' = parser s) s.
Proof using text_bytes.
  intros Hi Ho. pose proof Hi as [[Ht Hoff Hw] Hd Hc Hok Hkd]. unfold lex_copy.
  pose proof (wp_lex_at text_bytes (with_parser (fun p => set_scan_next 0 (set_offset o p)) s) Ho Hw) as Hl.
  unfold wp in *. destruct (lex _) as [[[] s1]|]; [|done]. destruct Hl as (_ & Hw1 & [] & _). cbn in *.
  split; [|done]. intros b x _. apply parser_step; cbn; auto; [unfold count in *; rewrite lexed_nodes, lexed_capacity; lia|].
  intros Hf. rewrite lexed_kind by done. apply Hkd. destruct (failed s) eqn:E; [|done].
  unfold failed in E, Hf, lexed_failed. cbn in *. rewrite lexed_failed in Hf; done.
Qed.

(** *** Nesting *)

Lemma fuel_deeper f s sd r r' :
  fuel_ok (Datatypes.S f) s r -> need sd = need s - K2 -> 1 <= r -> r' <= 16 -> fuel_ok f sd r'.
Proof using. unfold fuel_ok, K2. intros. lia. Qed.

Lemma wp_deeper (m : M Z) s :
  inv s -> failed s = false ->
  (forall sd, inv sd -> failed sd = false -> tree sd = tree s -> pos sd = pos s -> need sd = need s - K2 ->
     wp m (fun r s' => steps sd s' /\ result (count (tree sd)) (pos sd) r s') sd) ->
  wp (deeper m) (fun r s' => steps s s' /\ result (count (tree s)) (pos s) r s') s.
Proof using.
  intros Hi Hf Hm. unfold deeper. apply wp_gets. unfold bind at 1, modify at 1. unfold wp.
  set (sd := with_parser (set_depth (depth (parser s) + 1)) s). pose proof Hi as [[Ht Ho Hw] Hd Hc Hok Hkd].
  destruct (depth (parser s) + 1 >? depth_limit) eqn:Ed; rewrite Z.gtb_ltb in Ed; to_prop.
  - change (wp (let! t := gets tok in fail_ (start t) "expression nesting limit exceeded";;
      modify (with_parser (fun p => set_depth (depth p - 1) p));; ret NONE)
      (fun r s' => steps s s' /\ result (count (tree s)) (pos s) r s') sd).
    apply wp_gets. eapply wp_bind; [apply wp_fail|]. cbn beta. intros _ s1 (Hq & Hf1 & Hw1).
    unfold wp, bind, modify, ret. destruct Hq. cbn in *.
    assert (failed (with_parser (fun p => set_depth (depth p - 1) p) s1) = true) as Hf1' by exact Hf1.
    split; [|split; [done|congruence]]. intros b x _. constructor; cbn; auto; try lia; [|congruence|].
    + constructor; cbn; [|lia|unfold count in *; cbn; rewrite quiet_nodes, quiet_capacity; lia|congruence|congruence].
      constructor; unfold tok in *; cbn; rewrite ?quiet_token, ?quiet_offset; cbn; lia.
    + apply frame_same. cbn. by rewrite quiet_nodes.
  - assert (inv sd) as Hisd by (constructor; cbn; auto; [constructor; cbn; done|lia]).
    specialize (Hm sd Hisd Hf eq_refl eq_refl).
    change (wp (let! r := m in modify (with_parser (fun p => set_depth (depth p - 1) p));; ret r)
      (fun r s' => steps s s' /\ result (count (tree s)) (pos s) r s') sd).
    eapply wp_bind; [apply Hm; unfold need; change (failed sd) with (failed s); rewrite Hf; cbn; unfold K2; lia|]. cbn beta.
    intros r s1 [Hs Hr]. unfold wp, bind, modify, ret. split; [|done]. intros b x Hb.
    destruct (Hs b x Hb) as [[Hb1 Hd1 Hc1 Hok1 Hkd1] Hdep Hwk Hfl Hps Hfr]. cbn in Hdep.
    constructor; cbn; auto; [|lia]. constructor; cbn; auto; [by destruct Hb1; constructor|lia].
Qed.

End Basic.

(** ** The recursive functions *)

Section Specs.
Context {S : Source}.
Context (text_bytes : Forall is_byte text) (options_fit : options_ok).

(** [m] parses a node from [s]: it is defined, keeps the older nodes and
    gives a complete node or an error. *)
Definition parses (m : M Z) (s : St) : Prop :=
  wp m (fun r s' => steps s s' /\ result (count (tree s)) (pos s) r s') s.
(** An aggregate: an error leaves no node, and its children are new. *)
Definition aggregates (m : M Z) (s : St) : Prop :=
  wp m (fun r s' => steps s s' /\ result (count (tree s)) (pos s) r s' /\ (failed s' = true -> r = NONE)
    /\ (r <> NONE -> forall n, get_at (nodes (tree s')) r = Some n -> n_first n = NONE \/ count (tree s) <= n_first n)) s.
(** [m] extends the list [l] of children. *)
Definition extends (m : Z * Z -> M (Z * Z)) (lo p : Z) (l : Z * Z) (s : St) : Prop :=
  0 <= lo <= count (tree s) -> (failed s = false -> p <= pos s) -> children lo p l s ->
  wp (m l) (fun l' s' => steps_new lo s s' /\ children lo p l' s') s.

(** What the functions with fuel [f] satisfy. *)
Record specs (f : nat) : Prop := {
  sp_type_body : forall s, inv s -> fuel_ok f s 4 -> parses (type_body f) s;
  sp_fn_params : forall lo p l s, inv s -> fuel_ok f s 2 -> extends (fn_params_loop f) lo p l s;
  sp_type : forall s, inv s -> fuel_ok f s 1 -> parses (type f) s;
  sp_array_suffix : forall array named a s, inv s -> fuel_ok f s 2 -> failed s = false ->
    get_at (nodes (tree s)) array = Some a -> n_end a <= pos s ->
    wp (array_type_suffix f array named)
       (fun r s' => steps_at (n_first a) s s' /\ result (count (tree s)) (n_start a) r s') s;
  sp_argument : forall allow s, inv s -> fuel_ok f s 5 -> parses (argument f allow) s;
  sp_aggregate : forall s, inv s -> fuel_ok f s 3 -> aggregates (aggregate f) s;
  sp_aggregate_loop : forall array lo p l s, inv s -> fuel_ok f s 2 -> extends (aggregate_loop f array) lo p l s;
  sp_parse : forall minimum s, inv s -> fuel_ok f s 9 -> failed s = false -> parses (parse f minimum) s;
  sp_parse_head : forall s, inv s -> fuel_ok f s 8 -> failed s = false ->
    wp (parse_head f (tok s)) (fun '(r, _) s' => steps s s' /\ result (count (tree s)) (pos s) r s') s;
  sp_syscall_loop : forall lo p l s, inv s -> fuel_ok f s 2 -> extends (syscall_loop f) lo p l s;
  sp_tail : forall left primary minimum lo p s, inv s -> fuel_ok f s 2 -> 0 <= lo -> 0 <= p -> result lo p left s ->
    wp (expression_tail f left primary minimum) (fun r s' => steps_at left s s' /\ result lo p r s') s;
  sp_arguments : forall last s, inv s -> fuel_ok f s 6 -> 0 <= last < count (tree s) ->
    wp (arguments_loop f last) (fun _ s' => steps_at last s s') s;
  sp_expression : forall minimum s, inv s -> fuel_ok f s 1 -> parses (expression f minimum) s }.

Lemma no_fuel s r : inv s -> 1 <= r -> ~ fuel_ok 0 s r.
Proof using. intros Hi Hr Hf. unfold fuel_ok in Hf. pose proof (need_pos s Hi). lia. Qed.

Lemma specs_0 : specs 0.
Proof using.
  constructor; intros; exfalso; match goal with H : fuel_ok 0 ?s ?r |- _ => by apply (no_fuel s r) in H; [..|lia] end.
Qed.

Lemma steps_tok s : inv s -> failed s = false -> pos s <= end_ (tok s).
Proof using. intros [[] _ _ _ _] _. unfold pos. lia. Qed.

(** The shared tail of the loops over lists separated by commas. *)
Lemma wp_comma f lo p l s0 s m rank :
  inv s0 -> failed s0 = false -> fuel_ok (Datatypes.S f) s0 rank -> 1 <= rank ->
  0 <= lo <= count (tree s0) -> p <= pos s0 ->
  steps_new lo s0 s -> children lo p l s ->
  (forall l' s', inv s' -> fuel_ok f s' 2 -> extends m lo p l' s') ->
  wp (let! comma := take_ (str ",") in if negb comma then ret l else m l)
     (fun l' s' => steps_new lo s0 s' /\ children lo p l' s') s.
Proof using text_bytes options_fit.
  intros Hi0 Hf0 Hfuel Hrank Hlo Hp Hs Hl Hm. pose proof (steps_new_step lo _ _ ltac:(lia) Hs) as Hst.
  eapply wp_bind; [apply wp_take; by destruct Hst|]. cbn beta. intros comma s1 H1. destruct comma; cbn [negb].
  2:{ subst. done. }
  destruct H1 as (Hs1 & Hc1 & Hp1 & _).
  assert (steps_new lo s0 s1) as Hs01 by (eapply steps_new_new; [lia|done|by apply steps_steps_new]).
  pose proof (steps_new_step lo _ _ ltac:(lia) Hs01) as Hst1.
  eapply wp_mono; [apply Hm|].
  - by destruct Hst1.
  - eapply (fuel_consumed options_fit 0 0); [done|done|done|exact (step_consumed _ _ _ _ _ Hst Hc1)|done|lia].
  - destruct (step_frame _ _ _ _ Hst1). lia.
  - intros Hf. pose proof (step_pos _ _ _ _ Hst1 Hf). lia.
  - eapply steps_children; [done|done|lia].
  - cbn beta. intros l' s2 [Hs2 Hl2]. split; [|done]. eapply steps_new_new; [lia|done|done].
Qed.

Lemma spec_syscall_loop f : specs f -> forall lo p l s,
  inv s -> fuel_ok (Datatypes.S f) s 2 -> extends (syscall_loop (Datatypes.S f)) lo p l s.
Proof using text_bytes options_fit.
  intros IH lo p l s Hi Hfuel Hlo Hp Hl. cbn [syscall_loop]. do 2 apply wp_gets.
  assert (steps_new lo s s) as Hrefl by (apply steps_steps_new; by apply steps_refl).
  destruct (token_is _ _); cbn [orb]; [done|]. destruct (failed s) eqn:Ef; [done|].
  eapply wp_bind; [apply (sp_expression f IH); [done|eapply (fuel_step 0 0); [done|by apply step_refl|lia]]|].
  cbn beta. intros id s1 [Hs1 Hr1]. eapply wp_bind; [apply (wp_append_parsed lo p l id s); [done|by eapply steps_inv|done|auto|done|done|done]|].
  cbn beta. intros l2 s2 (Hs2 & Hl2 & _). eapply (wp_comma f lo p); [done|done|done|lia|done|auto|done|done|].
  intros l' s' Hi' Hf'. by apply (sp_syscall_loop f IH).
Qed.

Lemma spec_fn_params f : specs f -> forall lo p l s,
  inv s -> fuel_ok (Datatypes.S f) s 2 -> extends (fn_params_loop (Datatypes.S f)) lo p l s.
Proof using text_bytes options_fit.
  intros IH lo p l s Hi Hfuel Hlo Hp Hl. cbn [fn_params_loop]. do 2 apply wp_gets.
  assert (steps_new lo s s) as Hrefl by (apply steps_steps_new; by apply steps_refl).
  destruct (token_is _ _); cbn [orb]; [done|]. destruct (failed s) eqn:Ef; [done|]. apply wp_gets.
  eapply (wp_bind _ _ (fun _ s1 => steps s s1)).
  { destruct (bool_decide _); [|by apply steps_refl]. eapply wp_mono; [by apply wp_src_next_is|]. by intros ? ? []. }
  cbn beta. intros colon s1 Hs1. eapply (wp_bind _ _ (fun _ s2 => steps s s2)).
  { destruct colon; [|done]. eapply wp_bind; [apply (wp_lex_step text_bytes); by eapply steps_inv|]. cbn beta.
    intros _ s2 (Hs2 & _). eapply wp_mono; [apply (wp_lex_step text_bytes); by eapply steps_inv|]. cbn beta.
    intros _ s3 (Hs3 & _). eapply steps_trans; [done|]. by eapply steps_trans. }
  cbn beta. intros _ s2 Hs2. pose proof (steps_inv _ _ Hs2) as Hi2.
  eapply wp_bind; [apply (sp_type f IH); [done|eapply (fuel_step 0 0); [done|by apply steps_step|lia]]|].
  cbn beta. intros id s3 [Hs3 Hr3]. pose proof (steps_count _ _ Hs2).
  eapply wp_bind; [apply (wp_append_parsed lo p l id s2); [done|by eapply steps_inv|lia| |by eapply steps_children; [..|lia]|done|done]|].
  { intros Hf. pose proof (steps_pos _ _ Hs2 Hf). specialize (Hp eq_refl). lia. }
  cbn beta. intros l4 s4 (Hs4 & Hl4 & _). eapply (wp_comma f lo p); [done|done|done|lia|done|auto| |done|].
  - eapply steps_new_new; [lia|by apply steps_steps_new|done].
  - intros l' s' Hi' Hf'. by apply (sp_fn_params f IH).
Qed.

Lemma spec_aggregate_loop f : specs f -> forall array lo p l s,
  inv s -> fuel_ok (Datatypes.S f) s 2 -> extends (aggregate_loop (Datatypes.S f) array) lo p l s.
Proof using text_bytes options_fit.
  intros IH array lo p l s Hi Hfuel Hlo Hp Hl. cbn [aggregate_loop]. do 2 apply wp_gets.
  assert (steps_new lo s s) as Hrefl by (apply steps_steps_new; by apply steps_refl).
  destruct (token_is _ _); cbn [orb]; [done|]. destruct (failed s) eqn:Ef; [done|]. specialize (Hp eq_refl).
  eapply (wp_bind _ _ (fun r s1 => steps s s1 /\ match r with None => True | Some id => result (count (tree s)) (pos s) id s1 end)).
  { destruct array.
    { eapply wp_bind; [apply (sp_expression f IH); [done|eapply (fuel_step 0 0); [done|by apply step_refl|lia]]|]. done. }
    apply wp_gets. eapply wp_bind; [by apply wp_name|]. cbn beta. intros field s1 (Hs1 & Hr1 & _).
    eapply wp_bind; [apply (wp_expect text_bytes); by eapply steps_inv|]. cbn beta. intros _ s2 (Hs2 & _).
    assert (steps s s2) as Hs02 by by eapply steps_trans.
    eapply wp_bind; [apply (sp_expression f IH); [by eapply steps_inv|eapply (fuel_step 0 0); [done|by apply steps_step|lia]]|].
    cbn beta. intros value s3 (Hs3 & Hr3). apply wp_gets. assert (steps s s3) as Hs03 by by eapply steps_trans.
    destruct (failed s3) eqn:Ef3; [done|]. pose proof (steps_inv _ _ Hs3) as Hi3.
    destruct (proj2 Hr3 Ef3) as (HNv & nv & Hnv & Hstv & Hev & Hnxv). pose proof (proj1 Hr3 HNv) as Hv.
    pose proof (steps_ok _ _ Hs3 Ef3) as Ef2. pose proof (steps_ok _ _ Hs2 Ef2) as Ef1.
    destruct (proj2 Hr1 Ef1) as (HNf & _). pose proof (proj1 Hr1 HNf) as Hfd.
    pose proof (steps_count _ _ Hs2). pose proof (steps_count _ _ Hs3). pose proof (steps_count _ _ Hs1).
    eapply wp_bind; [apply wp_set_next; [done|unfold count in *; lia|]|].
    { intros _ k Hk. right. exists nv. split; [done|].
      pose proof (older_end _ _ _ _ _ _ (steps_inv _ _ Hs2) (Hs3 (count (tree s2)) (-1) ltac:(lia)) Ef3 Hk ltac:(lia) ltac:(lia)). lia. }
    cbn beta. intros _ s4 (Hs4 & Hu4 & _). assert (steps s s4) as Hs04 by (eapply (steps_steps_at field); [done|lia|done]).
    pose proof (updated_count _ _ _ Hu4). pose proof (inv_bounded _ Hi).
    apply wp_get_node; [unfold count in *; lia|]. rewrite (updated_other _ _ _ Hu4) by (unfold count in *; lia).
    intros n Hn. rewrite Hnv in Hn. injection Hn as <-.
    pose proof (steps_pos _ _ Hs02 Ef2) as Hps. destruct (inv_ok _ Hi3 Ef3) as [_ Hwf]. destruct (Hwf _ _ Hnv) as [Hsp _ _ _].
    eapply wp_bind; [apply wp_node; [by eapply steps_inv|]|].
    { intros _. rewrite (updated_pos _ _ _ Hu4). unfold pos in *. destruct (inv_bounded _ Hi).
      split; [lia|]. split; [lia|]. right. lia. }
    cbn beta. intros id s5 (Hs5 & Hr5 & _). split; [by eapply steps_trans|].
    eapply result_weaken; [done|by apply steps_count|done]. }
  cbn beta. intros r s1 [Hs1 Hr1]. destruct r as [id|].
  2:{ split; [by apply steps_steps_new|eapply steps_children; [done|done|lia]]. }
  eapply wp_bind; [apply (wp_append_parsed lo p l id s); [done|by eapply steps_inv|done|auto|done|done|done]|].
  cbn beta. intros l2 s2 (Hs2 & Hl2 & _). eapply (wp_comma f lo p); [done|done|done|lia|done|auto|done|done|].
  intros l' s' Hi' Hf'. by apply (sp_aggregate_loop f IH).
Qed.

Ltac fuel_below := eapply (fuel_step 0 0); [eassumption | first [apply steps_step; eassumption | by apply step_refl] | lia].

Lemma result_none lo p lo' p' s : result lo p NONE s -> result lo' p' NONE s.
Proof using. intros [_ H]. split; [done|]. intros Hf. by destruct (H Hf). Qed.
Lemma result_error lo p s : failed s = true -> result lo p NONE s.
Proof using. intros Hf. split; [done|congruence]. Qed.

Lemma spec_expression f : specs f -> forall minimum s,
  inv s -> fuel_ok (Datatypes.S f) s 1 -> parses (expression (Datatypes.S f) minimum) s.
Proof using text_bytes options_fit.
  intros IH minimum s Hi Hfuel. cbn [expression]. unfold parses. apply wp_gets.
  destruct (failed s) eqn:Ef; [split; [by apply steps_refl|by apply result_error]|].
  apply wp_deeper; [done|done|]. intros sd Hid Hfd _ _ Hneed. apply (sp_parse f IH); [done| |done].
  eapply fuel_deeper; [done|done|lia|lia].
Qed.

Lemma spec_type f : specs f -> forall s, inv s -> fuel_ok (Datatypes.S f) s 1 -> parses (type (Datatypes.S f)) s.
Proof using text_bytes options_fit.
  intros IH s Hi Hfuel. cbn [type]. unfold parses. apply wp_gets.
  destruct (failed s) eqn:Ef; [split; [by apply steps_refl|by apply result_error]|]. apply wp_gets.
  eapply wp_bind; [apply wp_deeper; [done|done|]|].
  { intros sd Hid Hfd _ _ Hneed. apply (sp_type_body f IH); [done|]. eapply fuel_deeper; [done|done|lia|lia]. }
  cbn beta. intros child s1 [Hs1 Hr1]. destruct (Z.eqb_spec child NONE) as [->|HN].
  { split; [done|]. by eapply result_none. }
  pose proof (proj1 Hr1 HN) as Hc. pose proof (steps_inv _ _ Hs1) as Hi1.
  apply wp_get_node; [unfold count in *; lia|]. intros n Hn.
  eapply wp_mono; [apply wp_node; [done|]|].
  { intros Hf. destruct (proj2 Hr1 Hf) as (_ & n' & Hn' & Hst & He & _). rewrite Hn in Hn'. injection Hn' as <-.
    destruct (inv_ok _ Hi1 Hf) as [_ Hwf]. destruct (Hwf _ _ Hn) as [Hsp _ _ _]. destruct (inv_bounded _ Hi).
    unfold pos in *. split; [lia|]. split; [lia|]. right. unfold count in *. lia. }
  cbn beta. intros r s2 (Hs2 & Hr2 & _). split; [by eapply steps_trans|].
  eapply result_weaken; [done|by apply steps_count|done].
Qed.

Lemma spec_arguments f : specs f -> forall last s,
  inv s -> fuel_ok (Datatypes.S f) s 6 -> 0 <= last < count (tree s) ->
  wp (arguments_loop (Datatypes.S f) last) (fun _ s' => steps_at last s s') s.
Proof using text_bytes options_fit.
  intros IH last s Hi Hfuel Hlast. cbn [arguments_loop]. do 2 apply wp_gets.
  assert (steps_at last s s) as Hrefl by (apply steps_at_weaken; by apply steps_refl).
  destruct (token_is _ _); cbn [orb]; [done|]. destruct (failed s) eqn:Ef; [done|].
  eapply wp_bind; [apply (sp_argument f IH); [done|fuel_below]|]. cbn beta. intros arg s1 [Hs1 Hr1].
  destruct (Z.eqb_spec arg NONE) as [->|HN]; [by apply steps_at_weaken|].
  pose proof (proj1 Hr1 HN) as Ha. pose proof (steps_count _ _ Hs1).
  eapply wp_bind; [apply wp_set_next; [by eapply steps_inv|lia|]|].
  { intros Hf k Hk. destruct (proj2 Hr1 Hf) as (_ & na & Hna & Hsta & _). right. exists na. split; [done|].
    pose proof (older_end _ _ _ _ _ _ Hi (Hs1 (count (tree s)) (-1) ltac:(lia)) Hf Hk ltac:(lia) ltac:(lia)). lia. }
  cbn beta. intros _ s2 (Hs2 & Hu2 & _). assert (steps_at last s s2) as Hs02.
  { eapply steps_at_trans; [by apply steps_at_weaken|done]. }
  pose proof (steps_at_step _ _ _ Hs02) as Hst2.
  eapply wp_bind; [apply (wp_take text_bytes); by destruct Hst2|]. cbn beta. intros comma s3 H3. destruct comma; cbn [negb].
  2:{ by subst s3. }
  destruct H3 as (Hs3 & Hc3 & _ & _).
  assert (steps_at last s s3) as Hs03 by (eapply steps_at_trans; [done|by apply steps_at_weaken]).
  pose proof (steps_at_step _ _ _ Hs03) as Hst3. pose proof (steps_count _ _ Hs3). pose proof (updated_count _ _ _ Hu2).
  eapply wp_mono; [apply (sp_arguments f IH); [by destruct Hst3| |unfold count in *; lia]|].
  - eapply (fuel_consumed options_fit 0 last); [done|done|done|exact (step_consumed _ _ _ _ _ Hst2 Hc3)|lia|lia].
  - cbn beta. intros _ s4 Hs4. eapply (steps_at_new last arg); [done|lia|].
    intros b x Hb Hba. apply Hs4; [done|by left].
Qed.

Lemma wp_node_end x e s :
  (x <> NONE -> 0 <= x < count (tree s)) ->
  wp (if negb (x =? NONE) then let! n := get_node x in ret (n_end n) else ret e)
     (fun e' s' => s' = s /\ ((x = NONE /\ e' = e) \/ exists n, get_at (nodes (tree s)) x = Some n /\ e' = n_end n)) s.
Proof using.
  intros Hx. destruct (Z.eqb_spec x NONE) as [->|HN]; cbn [negb]; [split; [done|by left]|].
  apply wp_get_node; [auto|]. intros n Hn. split; [done|]. right. by exists n.
Qed.
(** The end of the last child, or that of the first token. *)
Lemma wp_children_end lo p l e s :
  inv s -> 0 <= lo -> children lo p l s -> (failed s = false -> p <= e <= pos s) ->
  wp (if negb (snd l =? NONE) then let! n := get_node (snd l) in ret (n_end n) else ret e)
     (fun e' s' => s' = s /\ (failed s = false -> p <= e' <= pos s)) s.
Proof using.
  intros Hi Hlo Hl He. eapply wp_mono; [apply wp_node_end|].
  - intros HN. destruct Hl as [->|(Hl & Hlast & _)]; [done|]. lia.
  - cbn beta. intros e' s' [-> [[_ ->]|(n & Hn & ->)]]; (split; [done|]); intros Hf; [auto|].
    destruct Hl as [->|(Hl & Hlast & Hn')].
    + cbn in Hn. apply get_at_Some in Hn as [Hr _]. pose proof (inv_count _ Hi). unfold count, NONE, UINT32_MAX in *. lia.
    + destruct (Hn' Hf) as (m & Hm & Hst & Hem). rewrite Hn in Hm. injection Hm as <-.
      destruct (inv_ok _ Hi Hf) as [_ Hwf]. destruct (Hwf _ _ Hn) as [Hsp _ _ _]. lia.
Qed.
Lemma children_first lo p l s : 0 <= lo -> children lo p l s -> fst l = NONE \/ 0 <= fst l < count (tree s).
Proof using. intros Hlo [->|(Hl & Hlast & _)]; [by left|]. right. lia. Qed.

Lemma spec_aggregate f : specs f -> forall s,
  inv s -> fuel_ok (Datatypes.S f) s 3 -> aggregates (aggregate (Datatypes.S f)) s.
Proof using text_bytes options_fit.
  intros IH s Hi Hfuel. cbn [aggregate]. unfold aggregates. apply wp_gets. set (lo := count (tree s)). set (p := pos s).
  assert (0 <= lo) as Hlo by (unfold lo, count; lia).
  eapply wp_bind; [by apply wp_take|]. cbn beta. intros array s1 H1.
  assert (steps s s1) as Hs1 by (destruct array; [by destruct H1|subst; by apply steps_refl]). clear H1.
  eapply (wp_bind _ _ (fun l s2 => steps s s2 /\ children lo p l s2)).
  { destruct array; [split; [done|by left]|].
    eapply wp_bind; [apply (wp_take text_bytes); by eapply steps_inv|]. cbn beta. intros dot s2 H2.
    assert (steps s s2) as Hs2 by (destruct dot; [destruct H2; by eapply steps_trans|by subst]). clear H2.
    eapply (wp_bind _ _ (fun l s3 => steps s s3 /\ children lo p l s3)).
    { destruct dot; [split; [done|by left]|]. pose proof (steps_inv _ _ Hs2) as Hi2.
      eapply wp_bind; [by apply wp_name|]. cbn beta. intros id s3 (Hs3 & Hr3 & _). pose proof (steps_count _ _ Hs2).
      eapply wp_bind; [apply (wp_append_parsed lo p (NONE, NONE) id s2); [done|by eapply steps_inv|lia| |by left|done|done]|].
      { intros Hf. by apply steps_pos. }
      cbn beta. intros l s4 (Hs4 & Hl4 & _).
      assert (steps s s4) as Hs04 by (eapply (steps_new_trans lo); [done|lia|done]). pose proof (steps_count _ _ Hs04).
      eapply wp_mono; [apply (wp_name_loop text_bytes options_fit f lo p); [by eapply steps_inv|fuel_below|lia|by apply steps_pos|done]|].
      cbn beta. intros l5 s5 [Hs5 Hl5]. split; [|done]. eapply (steps_new_trans lo); [done|lia|done]. }
    cbn beta. intros l s3 [Hs3 Hl3].
    eapply wp_bind; [apply (wp_expect text_bytes); by eapply steps_inv|]. cbn beta. intros _ s4 (Hs4 & _).
    split; [by eapply steps_trans|]. by eapply steps_children. }
  cbn beta. intros l s2 [Hs2 Hl2]. pose proof (steps_count _ _ Hs2).
  eapply wp_bind; [apply (sp_aggregate_loop f IH array lo p); [by eapply steps_inv|fuel_below|lia|by apply steps_pos|done]|].
  cbn beta. intros l3 s3 [Hs3 Hl3].
  assert (steps s s3) as Hs03 by (eapply (steps_new_trans lo); [done|lia|done]). apply wp_gets.
  eapply wp_bind; [apply (wp_expect text_bytes); by eapply steps_inv|]. cbn beta. intros _ s4 (Hs4 & Ht4).
  assert (steps s s4) as Hs04 by by eapply steps_trans.
  eapply wp_mono; [apply wp_node; [by eapply steps_inv|]|].
  { intros Hf. destruct (Ht4 Hf) as (_ & He & _). pose proof (steps_pos _ _ Hs03 (steps_ok _ _ Hs4 Hf)).
    destruct (inv_bounded _ Hi), (inv_bounded _ (steps_inv _ _ Hs03)). unfold pos in *.
    split; [lia|]. split; [lia|]. apply (children_first lo p); [done|]. by apply (steps_children _ _ _ _ _ Hs4). }
  cbn beta. intros r s5 (Hs5 & Hr5 & HN5 & Hf5). split; [by eapply steps_trans|].
  split; [eapply result_weaken; [done|by apply steps_count|done]|]. split; [done|].
  intros HN n Hn. destruct (Hf5 HN n Hn) as [-> _]. destruct Hl3 as [->|(Hfl & _)]; [by left|]. right. unfold lo in *. lia.
Qed.

Lemma count_none s : inv s -> count (tree s) <= NONE.
Proof using. intros Hi. pose proof (inv_count _ Hi). unfold NONE, UINT32_MAX. lia. Qed.

Lemma wp_node_mark k st en first op flags s :
  inv s ->
  (failed s = false -> 0 <= st <= en /\ en <= pos s /\ (first = NONE \/ 0 <= first < count (tree s))) ->
  wp (let! id := node k st en first op in mark id flags)
     (fun r s' => steps s s' /\ result (count (tree s)) st r s') s.
Proof using.
  intros Hi Hpre. eapply wp_bind; [by apply wp_node|]. cbn beta. intros id s1 (Hs1 & Hr1 & _).
  assert (0 <= count (tree s)) by (unfold count; lia).
  eapply wp_mono; [apply (wp_mark (count (tree s)) st); [by eapply steps_inv|done|done]|].
  cbn beta. intros r s2 (-> & Hs2 & Hr2). split; [|done]. eapply (steps_new_trans id); [done| |done].
  destruct (Z.eq_dec id NONE) as [->|HN]; [by apply count_none|]. pose proof (proj1 Hr1 HN). lia.
Qed.
Lemma wp_node_mark_then {B} k st en first op flags (K : Z -> M B) Q s :
  inv s ->
  (failed s = false -> 0 <= st <= en /\ en <= pos s /\ (first = NONE \/ 0 <= first < count (tree s))) ->
  (forall r s', steps s s' -> result (count (tree s)) st r s' -> wp (K r) Q s') ->
  wp (let! id := node k st en first op in let! r := mark id flags in K r) Q s.
Proof using.
  intros Hi Hpre HK. pose proof (wp_node_mark k st en first op flags s Hi Hpre) as Hw. unfold wp, bind in *.
  destruct (node k st en first op s) as [[id s1]|]; [|done]. destruct (mark id flags s1) as [[r s2]|]; [|done].
  destruct Hw as [Hs Hr]. by apply HK.
Qed.

Lemma spec_array_suffix f : specs f -> forall array named a s,
  inv s -> fuel_ok (Datatypes.S f) s 2 -> failed s = false ->
  get_at (nodes (tree s)) array = Some a -> n_end a <= pos s ->
  wp (array_type_suffix (Datatypes.S f) array named)
     (fun r s' => steps_at (n_first a) s s' /\ result (count (tree s)) (n_start a) r s') s.
Proof using text_bytes options_fit.
  intros IH array named a s Hi Hfuel Ef Ha Hea. cbn [array_type_suffix].
  pose proof Ha as Har. apply get_at_Some in Har as [Har _]. fold (count (tree s)) in Har.
  destruct (inv_ok _ Hi Ef) as [_ Hwf]. destruct (Hwf _ _ Ha) as [Hsp Hfst _ _].
  apply wp_get_node; [done|]. intros a' Ha'. rewrite Ha in Ha'. injection Ha' as <-. cbv zeta.
  set (first := n_first a) in *. assert (0 <= count (tree s)) as Hc0 by (unfold count; lia).
  eapply (wp_bind _ _ (fun ok s1 => steps s s1 /\ (ok = false -> failed s1 = true))).
  { destruct (Z.eqb_spec first NONE) as [E|E]; cbn [negb]; [split; [by apply steps_refl|done]|].
    assert (0 <= first < array) as Hf by (destruct Hfst; [congruence|done]).
    apply wp_get_node; [lia|]. intros n Hn. destruct (n_next n =? NONE); cbn [negb].
    - destruct (Hwf _ _ Hn) as [Hspn _ _ _].
      eapply wp_bind; [apply (wp_lex_copy text_bytes); [done|destruct (inv_bounded _ Hi); unfold pos in *; lia]|]. cbn beta. intros closing s1 [Hs1 _].
      destruct (token_is closing _); cbn [negb]; [done|].
      eapply wp_bind; [apply wp_fail_step; by eapply steps_inv|]. cbn beta. intros _ s2 [Hs2 Hf2].
      split; [by eapply steps_trans|done].
    - apply wp_gets. eapply wp_bind; [by apply wp_fail_step|]. cbn beta. intros _ s2 [Hs2 Hf2]. done. }
  cbn beta. intros ok s1 [Hs1 Hok]. destruct ok; cbn [negb].
  2:{ split; [by apply steps_at_weaken|]. apply result_error. auto. }
  eapply wp_bind; [apply (wp_take text_bytes); by eapply steps_inv|]. cbn beta. intros const s2 H2.
  assert (steps s s2) as Hs2 by (destruct const; [destruct H2; by eapply steps_trans|by subst]). clear H2.
  eapply wp_bind; [apply (sp_type f IH); [by eapply steps_inv|fuel_below]|]. cbn beta. intros element s3 [Hs3 Hr3].
  assert (steps s s3) as Hs03 by by eapply steps_trans. pose proof (steps_inv _ _ Hs3) as Hi3.
  destruct (Z.eqb_spec element NONE) as [->|HN].
  { split; [by apply steps_at_weaken|by eapply result_none]. }
  pose proof (proj1 Hr3 HN) as He. pose proof (steps_count _ _ Hs2).
  eapply (wp_bind _ _ (fun _ s4 => steps_at first s3 s4 /\ updated first s3 s4)).
  { destruct (Z.eqb_spec first NONE) as [E|E]; cbn [negb].
    - split; [apply steps_at_weaken; by apply steps_refl|done].
    - assert (0 <= first < array) as Hf by (destruct Hfst; [congruence|done]).
      eapply wp_mono; [apply wp_set_next; [done|lia|]|].
      { intros Hf3 k Hk. destruct (proj2 Hr3 Hf3) as (_ & ne & Hne & Hste & _). right. exists ne. split; [done|].
        pose proof (older_end _ _ _ _ _ _ (steps_inv _ _ Hs2) (Hs3 (count (tree s2)) (-1) ltac:(lia)) Hf3 Hk ltac:(lia) ltac:(lia)). lia. }
      cbn beta. intros _ s4 (H4 & Hu & _). done. }
  cbn beta. intros _ s4 [Hs4 Hu4].
  assert (steps_at first s s4) as Hs04 by (eapply steps_at_trans; [by apply steps_at_weaken|done]).
  pose proof (updated_count _ _ _ Hu4) as Hc4. pose proof (steps_count _ _ Hs03).
  assert (first <> array /\ first <> element) as [Hne1 Hne2].
  { destruct Hfst as [->|Hf]; [|lia]. split; [pose proof (count_none _ Hi)|]; congruence || lia. }
  assert (get_at (nodes (tree s4)) array = Some a) as Ha4.
  { rewrite (updated_other _ _ _ Hu4) by (congruence || lia).
    destruct (step_frame _ _ _ _ (Hs03 (count (tree s)) (-1) ltac:(lia))) as [_ Hfr].
    destruct (Hfr array a Har Ha) as (a' & Ha' & [->|[? _]]); [done|lia]. }
  apply wp_get_node; [lia|]. rewrite Ha4. intros ? [= <-].
  apply wp_get_node; [lia|]. rewrite (updated_other _ _ _ Hu4) by (congruence || lia). intros e Hge.
  pose proof (step_inv _ _ _ _ (steps_at_step _ _ _ Hs04)) as Hi4.
  assert (failed s4 = false -> 0 <= n_start a <= n_end e /\ n_end e <= pos s4) as Hspan.
  { rewrite (updated_failed _ _ _ Hu4), (updated_pos _ _ _ Hu4). intros Hf.
    destruct (proj2 Hr3 Hf) as (_ & e' & He' & Hst & Hee & _). rewrite Hge in He'. injection He' as <-.
    destruct (inv_ok _ Hi3 Hf) as [_ Hwf3]. destruct (Hwf3 _ _ Hge) as [Hspe _ _ _].
    pose proof (steps_pos _ _ Hs2 (steps_ok _ _ Hs3 Hf)). lia. }
  apply wp_node_mark_then; [done| |].
  { intros Hf. destruct (Hspan Hf). split; [done|]. split; [done|]. right.
    destruct (Z.eqb_spec first NONE); cbn [negb]; [lia|]. destruct Hfst; [congruence|lia]. }
  intros child s5 Hs5 Hr5. pose proof (steps_count _ _ Hs5).
  assert (steps_at first s s5) as Hs05 by (eapply steps_at_trans; [done|by apply steps_at_weaken]).
  eapply wp_mono; [apply wp_node; [by eapply steps_inv|]|].
  { intros Hf. destruct (Hspan (steps_ok _ _ Hs5 Hf)). pose proof (steps_pos _ _ Hs5 Hf).
    split; [lia|]. split; [lia|]. right. destruct (proj2 Hr5 Hf) as [HNc _]. pose proof (proj1 Hr5 HNc). lia. }
  cbn beta. intros r s6 (Hs6 & Hr6 & _). split.
  - eapply steps_at_trans; [done|by apply steps_at_weaken].
  - eapply result_weaken; [done|lia|lia].
Qed.

(** The token of [s] has been passed. *)
Definition after_token (s s' : St) : Prop := failed s' = false -> end_ (tok s) <= pos s'.
Lemma after_token_step b x s s1 s2 : after_token s s1 -> step b x s1 s2 -> after_token s s2.
Proof using.
  intros Ha Hs Hf. specialize (Ha (step_ok _ _ _ _ Hs Hf)). pose proof (step_pos _ _ _ _ Hs Hf). lia.
Qed.

(** The branches of [type_body] give the kind, the end and the first child. *)
Definition body_parts (s : St) (r : option ExpKind * Z * Z * Z) (s' : St) : Prop :=
  let '(k, flags, en, first) := r in
  steps s s' /\ (failed s' = false -> k <> None /\ pos s <= en <= pos s' /\ (first = NONE \/ 0 <= first < count (tree s'))).

Lemma wp_body_fn f s : specs f -> inv s -> fuel_ok (Datatypes.S f) s 4 -> failed s = false ->
  wp (lex;; expect "(";;
      let! l := fn_params_loop f (NONE, NONE) in
      let! t := gets tok in
      let end_ := end_ t in
      expect ")";;
      let! returns := optional_type_start in
      let! (l, end_) :=
        (if returns then
           let! id := type f in
           let! l := append l id in
           if negb (snd l =? NONE) then
             upd_node (snd l) (with_field EXP_ROLE_RETURN);;
             let! n := get_node (snd l) in
             ret (l, n_end n)
           else ret (l, end_)
         else ret (l, end_)) in
      let! first := node EXP_FN_TYPE (start (tok s)) end_ (fst l) token0 in
      ret (Some EXP_POINTER_TYPE, 0, end_, first)) (body_parts s) s.
Proof using text_bytes options_fit.
  intros IH Hi Hfuel Ef. set (lo := count (tree s)). set (p := pos s). assert (0 <= lo) as Hlo by (unfold lo, count; lia).
  eapply wp_bind; [by apply wp_lex_step|]. cbn beta. intros _ s1 (Hs1 & _ & _).
  eapply wp_bind; [apply (wp_expect text_bytes); by eapply steps_inv|]. cbn beta. intros _ s2 (H2 & _).
  assert (steps s s2) as Hs2 by by eapply steps_trans. pose proof (steps_count _ _ Hs2).
  eapply wp_bind; [apply (sp_fn_params f IH lo p); [by eapply steps_inv|fuel_below|lia|by apply steps_pos|by left]|].
  cbn beta. intros l s3 [H3 Hl3]. assert (steps s s3) as Hs3 by (eapply (steps_new_trans lo); [done|lia|done]).
  apply wp_gets. cbv zeta. eapply wp_bind; [apply (wp_expect text_bytes); by eapply steps_inv|]. cbn beta. intros _ s4 (H4 & Ht4).
  assert (steps s s4) as Hs4 by by eapply steps_trans. assert (children lo p l s4) as Hl4 by by apply (steps_children _ _ _ _ _ H4).
  assert (failed s4 = false -> p <= end_ (tok s3) <= pos s4) as He4.
  { intros Hf. destruct (Ht4 Hf) as (_ & He & _). pose proof (steps_pos _ _ Hs3 (steps_ok _ _ H4 Hf)).
    destruct (inv_bounded _ (steps_inv _ _ Hs3)). unfold p, pos in *. lia. }
  eapply wp_bind; [apply (wp_optional_type_start text_bytes); by eapply steps_inv|]. cbn beta. intros returns s5 [H5 Hp5].
  assert (steps s s5) as Hs5 by by eapply steps_trans. assert (children lo p l s5) as Hl5 by by apply (steps_children _ _ _ _ _ H5).
  assert (failed s5 = false -> p <= end_ (tok s3) <= pos s5) as He5.
  { intros Hf. pose proof (steps_pos _ _ H5 Hf). specialize (He4 (steps_ok _ _ H5 Hf)). lia. }
  eapply (wp_bind _ _ (fun '(l, en) s6 => steps s s6 /\ children lo p l s6 /\ (failed s6 = false -> p <= en <= pos s6))).
  { destruct returns; [|done]. pose proof (steps_inv _ _ Hs5) as Hi5. pose proof (steps_count _ _ Hs5).
    eapply wp_bind; [apply (sp_type f IH); [done|fuel_below]|]. cbn beta. intros id s6 [H6 Hr6].
    eapply wp_bind; [apply (wp_append_parsed lo p l id s5); [done|by eapply steps_inv|lia|by apply steps_pos|done|done|done]|].
    cbn beta. intros l7 s7 (H7 & Hl7 & _). assert (steps s s7) as Hs7 by (eapply (steps_new_trans lo); [done|lia|done]).
    pose proof (steps_inv _ _ Hs7) as Hi7.
    assert (failed s7 = false -> p <= end_ (tok s3) <= pos s7) as He7.
    { intros Hf. pose proof (steps_new_step lo _ _ Hlo H7) as Hst. pose proof (step_pos _ _ _ _ Hst Hf).
      specialize (He5 (step_ok _ _ _ _ Hst Hf)). lia. }
    destruct (Z.eqb_spec (snd l7) NONE) as [E|E]; cbn [negb]; [done|].
    assert (lo <= snd l7 < count (tree s7)) as Hlast by (destruct Hl7 as [->|(? & ? & _)]; [done|lia]).
    eapply wp_bind; [apply wp_upd; [done|lia|by intros ?|done]|]. cbn beta. intros _ s8 (H8 & Hu8 & Hget8).
    assert (steps s s8) as Hs8 by (eapply (steps_new_trans (snd l7)); [done|lia|done]).
    pose proof (updated_count _ _ _ Hu8). apply wp_get_node; [lia|]. intros n Hn.
    destruct (get_at_is_Some (nodes (tree s7)) (snd l7)) as [m Hm]; [unfold count in *; lia|].
    rewrite (Hget8 m Hm) in Hn. injection Hn as <-. split; [done|].
    destruct Hl7 as [->|(Hfl & Hla & Hsp)]; [done|].
    assert (failed s8 = false -> n_start m <= n_end m /\ p <= n_start m /\ n_end m <= pos s8) as Hm8.
    { rewrite (updated_failed _ _ _ Hu8), (updated_pos _ _ _ Hu8). intros Hf.
      destruct (Hsp Hf) as (m' & Hm' & Hst & He). rewrite Hm in Hm'. injection Hm' as <-.
      destruct (inv_ok _ Hi7 Hf) as [_ Hwf]. destruct (Hwf _ _ Hm) as [Hspan _ _ _]. lia. }
    split; [|intros Hf; specialize (Hm8 Hf); cbn; lia]. right. split; [done|]. split; [lia|]. intros Hf.
    eexists. split; [by apply Hget8|]. specialize (Hm8 Hf). cbn. lia. }
  cbn beta. intros [l6 en] s6 (Hs6 & Hl6 & He6).
  eapply wp_bind; [apply wp_node; [by eapply steps_inv|]|].
  { intros Hf. specialize (He6 Hf). destruct (inv_bounded _ Hi). unfold p, pos in *. split; [lia|]. split; [lia|].
    by apply (children_first lo (start (tok s))). }
  cbn beta. intros first s7 (H7 & Hr7 & _). split; [by eapply steps_trans|]. intros Hf. split; [done|].
  specialize (He6 (steps_ok _ _ H7 Hf)). pose proof (steps_pos _ _ H7 Hf). unfold p in *. split; [lia|].
  right. destruct (proj2 Hr7 Hf) as [HN _]. pose proof (proj1 Hr7 HN). unfold count in *. lia.
Qed.

Lemma wp_body_pointer f s s1 : specs f -> inv s -> fuel_ok (Datatypes.S f) s 4 -> steps s s1 -> after_token s s1 ->
  wp (let! const := take_ (str "const") in
      let! first := type f in
      let! end_ := (if negb (first =? NONE) then let! n := get_node first in ret (n_end n) else ret (Lexer.end_ (tok s))) in
      ret (Some EXP_POINTER_TYPE, if const then EXP_CONST else 0, end_, first)) (body_parts s) s1.
Proof using text_bytes options_fit.
  intros IH Hi Hfuel Hs1 He1.
  set (lo := count (tree s)). set (p := pos s). assert (0 <= lo) as Hlo by (unfold lo, count; lia).
  destruct (inv_bounded _ Hi) as [Htok _ _].
  eapply wp_bind; [apply (wp_take text_bytes); by eapply steps_inv|]. cbn beta. intros const s2 H2.
  assert (steps s s2 /\ steps s1 s2) as [Hs2 Hs12].
  { destruct const; [destruct H2; split; [by eapply steps_trans|done]|]. subst. split; [done|]. by eapply steps_refl, steps_inv. }
  clear H2. eapply wp_bind; [apply (sp_type f IH); [by eapply steps_inv|fuel_below]|]. cbn beta. intros first s3 [H3 Hr3].
  assert (steps s s3) as Hs3 by by eapply steps_trans. pose proof (steps_count _ _ Hs2).
  eapply wp_bind; [apply wp_node_end; intros HN; pose proof (proj1 Hr3 HN); lia|]. cbn beta. intros en ? [-> Hen].
  split; [done|]. intros Hf. split; [done|]. destruct (proj2 Hr3 Hf) as (HN & n & Hn & Hst & He & _).
  destruct Hen as [[? _]|(n' & Hn' & ->)]; [done|]. rewrite Hn in Hn'. injection Hn' as <-.
  destruct (inv_ok _ (steps_inv _ _ Hs3) Hf) as [_ Hwf]. destruct (Hwf _ _ Hn) as [Hsp _ _ _].
  pose proof (steps_pos _ _ Hs2 (steps_ok _ _ H3 Hf)). pose proof (proj1 Hr3 HN). split; [lia|right; lia].
Qed.
Lemma wp_body_array f s s1 : specs f -> inv s -> fuel_ok (Datatypes.S f) s 4 -> steps s s1 -> after_token s s1 ->
  wp (let! empty := is_ (str "]") in
      let! l := (if negb empty then let! id := expression f 0 in append (NONE, NONE) id else ret (NONE, NONE)) in
      expect "]";;
      let! const := take_ (str "const") in
      let! id := type f in
      let! l := append l id in
      let! end_ := (if negb (snd l =? NONE) then let! n := get_node (snd l) in ret (n_end n) else ret (Lexer.end_ (tok s))) in
      ret (Some EXP_ARRAY_TYPE, if const then EXP_CONST else 0, end_, fst l)) (body_parts s) s1.
Proof using text_bytes options_fit.
  intros IH Hi Hfuel Hs1 He1.
  set (lo := count (tree s)). set (p := pos s). assert (0 <= lo) as Hlo by (unfold lo, count; lia).
  destruct (inv_bounded _ Hi) as [Htok _ _].
  apply wp_gets. pose proof (steps_count _ _ Hs1). pose proof (steps_inv _ _ Hs1) as Hi1.
  eapply (wp_bind _ _ (fun l s2 => steps s s2 /\ after_token s s2 /\ children lo p l s2)).
  { destruct (token_is _ _); cbn [negb]; [split_and!; [done|done|by left]|].
    eapply wp_bind; [apply (sp_expression f IH); [done|fuel_below]|]. cbn beta. intros id s2 [H2 Hr2].
    eapply wp_mono; [apply (wp_append_parsed lo p (NONE, NONE) id s1); [done|by eapply steps_inv|lia|by apply steps_pos|by left|done|done]|].
    cbn beta. intros l s3 (H3 & Hl3 & _). split; [eapply (steps_new_trans lo); [done|lia|done]|]. split; [|done].
    eapply after_token_step; [done|by apply (steps_new_step lo)]. }
  cbn beta. intros l s2 (Hs2 & Ha2 & Hl2).
  eapply wp_bind; [apply (wp_expect text_bytes); by eapply steps_inv|]. cbn beta. intros _ s3 (H3 & _).
  assert (steps s s3) as Hs3 by by eapply steps_trans. assert (children lo p l s3) as Hl3 by by apply (steps_children _ _ _ _ _ H3).
  eapply wp_bind; [apply (wp_take text_bytes); by eapply steps_inv|]. cbn beta. intros const s4 H4.
  assert (steps s s4 /\ children lo p l s4 /\ after_token s s4) as (Hs4 & Hl4 & Ha4).
  { assert (after_token s s3) as Ha3 by (eapply after_token_step; [done|by apply steps_step]).
    destruct const; [|by subst]. destruct H4 as [H4 _].
    split_and!; [by eapply steps_trans|by apply (steps_children _ _ _ _ _ H4)|]. eapply after_token_step; [done|by apply steps_step]. }
  clear H4. pose proof (steps_count _ _ Hs4). pose proof (steps_inv _ _ Hs4) as Hi4.
  eapply wp_bind; [apply (sp_type f IH); [done|fuel_below]|]. cbn beta. intros id s5 [H5 Hr5].
  eapply wp_bind; [apply (wp_append_parsed lo p l id s4); [done|by eapply steps_inv|lia|by apply steps_pos|done|done|done]|].
  cbn beta. intros l6 s6 (H6 & Hl6 & _). assert (steps s s6) as Hs6 by (eapply (steps_new_trans lo); [done|lia|done]).
  assert (after_token s s6) as Ha6 by (eapply after_token_step; [done|by apply (steps_new_step lo)]).
  eapply wp_bind; [apply (wp_children_end lo p); [by eapply steps_inv|done|done|]|].
  { intros Hf. specialize (Ha6 Hf). unfold p, pos in *. lia. }
  cbn beta. intros en ? [-> Hen]. split; [done|]. intros Hf. split; [done|]. split; [by apply Hen|].
  by apply (children_first lo p).
Qed.
Lemma wp_body_name f s : specs f -> inv s -> fuel_ok (Datatypes.S f) s 4 -> failed s = false -> kind (tok s) = NAME ->
  wp (let! id := name in
      let! l := append (NONE, NONE) id in
      let! l := name_loop f l in
      let! end_ := (if negb (snd l =? NONE) then let! n := get_node (snd l) in ret (n_end n) else ret (Lexer.end_ (tok s))) in
      ret (Some EXP_FIELD_TYPE, 0, end_, fst l)) (body_parts s) s.
Proof using text_bytes options_fit.
  intros IH Hi Hfuel Ef Ek.
  set (lo := count (tree s)). set (p := pos s). assert (0 <= lo) as Hlo by (unfold lo, count; lia).
  destruct (inv_bounded _ Hi) as [Htok _ _].
  eapply wp_bind; [by apply wp_name|]. cbn beta. intros id s1 (Hs1 & Hr1 & _ & Ha1).
  eapply wp_bind; [apply (wp_append_parsed lo p (NONE, NONE) id s); [done|by eapply steps_inv|lia|done|by left|done|done]|].
  cbn beta. intros l s2 (H2 & Hl2 & H12). assert (steps s s2) as Hs2 by (by apply (steps_new_all lo)).
  pose proof (steps_count _ _ Hs2).
  assert (after_token s s2) as Ha2. { eapply after_token_step; [exact Ha1|by apply (steps_new_step lo)]. }
  eapply wp_bind; [apply (wp_name_loop text_bytes options_fit f lo p); [by eapply steps_inv|fuel_below|lia|by apply steps_pos|done]|].
  cbn beta. intros l3 s3 [H3 Hl3]. assert (steps s s3) as Hs3 by (eapply (steps_new_trans lo); [done|lia|done]).
  assert (after_token s s3) as Ha3 by (eapply after_token_step; [done|by apply (steps_new_step lo)]).
  eapply wp_bind; [apply (wp_children_end lo p); [by eapply steps_inv|done|done|]|].
  { intros Hf. specialize (Ha3 Hf). unfold p, pos in *. lia. }
  cbn beta. intros en ? [-> Hen]. split; [done|]. intros Hf. split; [done|]. split; [by apply Hen|].
  by apply (children_first lo p).
Qed.
Lemma spec_type_body f : specs f -> forall s, inv s -> fuel_ok (Datatypes.S f) s 4 -> parses (type_body (Datatypes.S f)) s.
Proof using text_bytes options_fit.
  intros IH s Hi Hfuel. cbn [type_body]. unfold parses. apply wp_gets.
  destruct (failed s) eqn:Ef; [split; [by apply steps_refl|by apply result_error]|]. apply wp_gets.
  eapply wp_bind; [by apply wp_fn_type_start|]. cbn beta. intros fn ? ->.
  set (lo := count (tree s)). set (p := pos s). assert (0 <= lo) as Hlo by (unfold lo, count; lia).
  destruct (inv_bounded _ Hi) as [Htok _ _].
  eapply (wp_bind _ _ (body_parts s)).
  { destruct fn; [by apply wp_body_fn|].
    eapply wp_bind; [by apply wp_take|]. cbn beta. intros star s1 H1. destruct star.
    { destruct H1 as (Hs1 & _ & He1 & _). by apply wp_body_pointer. }
    subst s1. eapply wp_bind; [by apply wp_take|]. cbn beta. intros bracket s1 H1. destruct bracket.
    { destruct H1 as (Hs1 & _ & He1 & _). by apply wp_body_array. }
    subst s1. apply wp_gets. destruct (existsb _ _).
    { eapply wp_bind; [by apply wp_lex_step|]. cbn beta. intros _ s1 (Hs1 & _ & He1). split; [done|]. intros Hf.
      specialize (He1 Hf). unfold pos in *. split; [done|]. split; [lia|by left]. }
    destruct (at_ _ _).
    { eapply wp_bind; [by apply wp_lex_step|]. cbn beta. intros _ s1 (Hs1 & _ & He1). split; [done|]. intros Hf.
      specialize (He1 Hf). unfold pos in *. split; [done|]. split; [lia|by left]. }
    destruct (bool_decide (kind (tok s) = NAME)) eqn:Ek.
    { apply wp_body_name; try done. by apply bool_decide_eq_true in Ek. }
    eapply wp_bind; [by apply wp_fail_step|]. cbn beta. intros _ s1 [Hs1 Hf1]. split; [done|congruence]. }
  cbn beta. intros [[[k flags] en] first] s1 [Hs1 Hparts]. destruct k as [k|].
  2:{ split; [done|]. apply result_error. destruct (failed s1); [done|]. by destruct (Hparts eq_refl). }
  eapply wp_mono; [apply wp_node_mark; [by eapply steps_inv|]|].
  { intros Hf. destruct (Hparts Hf) as (_ & He & Hfirst). unfold p, pos in *. split; [lia|]. split; [lia|done]. }
  cbn beta. intros r s2 [H2 Hr2]. split; [by eapply steps_trans|]. eapply result_weaken; [done|by apply steps_count|done].
Qed.

Lemma restored_result lo p r s0 s' : restored s0 s' -> result lo p r s0 -> failed s0 = false -> result lo p r s'.
Proof using.
  intros (_ & Hp & Hn & Hf') [H1 H2] Hf. unfold result, count, pos, tok. rewrite Hn, Hp. split; [done|]. intros _. auto.
Qed.
Lemma restored_refl s : inv s -> failed s = false -> restored s s.
Proof using. intros Hi Hf. split; [by apply steps_refl|done]. Qed.

(** A speculation that is given up for lack of memory, work or time leaves an
    error. *)
Lemma resource_failed s : inv s ->
  (match error_kind (tree s) with EXP_ALLOCATION_ERROR | EXP_LIMIT_ERROR | EXP_CANCELLED => true
   | EXP_OK | EXP_SYNTAX_ERROR => false end) = true -> failed s = true.
Proof using.
  intros Hi. destruct (failed s) eqn:E; [done|]. by rewrite (inv_kind _ Hi E).
Qed.

Lemma spec_argument_array f (allow : bool) (s : St) : specs f ->
  inv s -> fuel_ok (Datatypes.S f) s 5 ->
  parses (let! array := aggregate f in
        if array =? NONE then ret NONE
        else
          let! saved := gets parser in
          let! n := gets (fun s => count (tree s)) in
          let! a := get_node array in
          let first := n_first a in
          let! sibling := (if first =? NONE then ret NONE else let! n := get_node first in ret (n_next n)) in
          let! r :=
            (if allow then
               let! candidate := array_type_suffix f array true in
               let! stop := gets failed in
               let! d := delimiter in
               if negb stop && d then ret (Some candidate)
               else
                 let! fatal := resource_error in
                 if fatal then ret (Some NONE)
                 else
                   restore saved n;;
                   (if negb (first =? NONE) then set_next first sibling else ret tt);;
                   ret None
             else ret None) in
          match r with
          | Some v => ret v
          | None =>
              let! value := expression_tail f array false 0 in
              let! stop := gets failed in
              let! d := delimiter in
              if negb stop && d then ret value
              else
                let! fatal := resource_error in
                if fatal then ret NONE
                else if allow then
                  let! t := gets tok in
                  fail_ (start t) "expected argument delimiter";; ret NONE
                else
                  restore saved n;; set_next array NONE;;
                  array_type_suffix f array false
          end) s.
Proof using text_bytes options_fit.
  intros IH Hi Hfuel. unfold parses. assert (0 <= count (tree s)) as Hc0 by (unfold count; lia).
  eapply wp_bind; [apply (sp_aggregate f IH); [done|fuel_below]|]. cbn beta. intros array s1 (Hs1 & Hr1 & HN1 & Hf1).
  destruct (Z.eqb_spec array NONE) as [->|HN]; [done|].
  assert (failed s1 = false) as Ef1 by (destruct (failed s1); [by destruct HN; auto|done]).
  pose proof (steps_inv _ _ Hs1) as Hi1. pose proof (proj1 Hr1 HN) as Har.
  destruct (proj2 Hr1 Ef1) as (_ & a & Ha & Hsta & Hea & Hnxa). specialize (Hf1 HN a Ha).
  do 2 apply wp_gets. apply wp_get_node; [lia|]. intros a' Ha'. rewrite Ha in Ha'. injection Ha' as <-. cbv zeta.
  destruct (inv_ok _ Hi1 Ef1) as [_ Hwf]. destruct (Hwf _ _ Ha) as [Hspa Hfst _ _]. set (first := n_first a) in *.
  assert (forall s' s'', steps s s' -> steps_at first s' s'' -> steps s s'') as Hat.
  { intros s' s'' H' H''. destruct Hf1 as [E|Hge]; [|by eapply (steps_steps_at first)].
    eapply (steps_steps_at first); [done| |done]. rewrite E. by apply count_none. }
  eapply (wp_bind _ _ (fun sibling s2 => s2 = s1 /\ (first <> NONE -> exists n, get_at (nodes (tree s1)) first = Some n /\ sibling = n_next n))).
  { destruct (Z.eqb_spec first NONE) as [E|E]; [done|]. assert (0 <= first < array) by (destruct Hfst; [congruence|done]).
    apply wp_get_node; [lia|]. intros n Hn. split; [done|]. intros _. by exists n. }
  cbn beta. intros sibling ? [-> Hsib].
  eapply (wp_bind _ _ (fun r s2 => match r with
    | Some v => steps s s2 /\ result (count (tree s)) (pos s) v s2 | None => restored s1 s2 end)).
  { destruct allow; [|by apply restored_refl].
    eapply wp_bind; [apply (sp_array_suffix f IH array true a); [done|fuel_below|done|done|lia]|]. cbn beta.
    intros candidate s2 [Hs2 Hr2]. do 2 apply wp_gets. assert (steps s s2) as Hs02 by by apply (Hat s1).
    pose proof (steps_inv _ _ Hs02) as Hi2. destruct (negb (failed s2) && _).
    { split; [done|]. eapply result_weaken; [done|by apply steps_count|lia]. }
    apply wp_gets. destruct (match error_kind (tree s2) with EXP_OK => _ | _ => _ end) eqn:Er.
    { split; [done|]. apply result_error. by apply resource_failed. }
    pose proof (count_none _ Hi1) as Hcn. destruct (Z.eqb_spec first NONE) as [E|E]; cbn [negb].
    - apply wp_restore; [done|done| |].
      + apply Hs2; [lia|left; lia].
      + intros s3 Hs3. done.
    - destruct (Hsib E) as (n & Hn & ->). eapply wp_restore_link; [done|done| |exact Hn|done|].
      + apply Hs2; [lia|by right].
      + intros s3 Hs3. done. }
  cbn beta. intros r s2 Hr2. destruct r as [v|]; [done|]. pose proof Hr2 as (Hs12 & Hp2 & Hn2 & Hf2).
  assert (steps s s2) as Hs02 by by eapply steps_trans. assert (pos s <= pos s1) as Hps by by apply steps_pos.
  destruct (inv_bounded _ Hi).
  eapply wp_bind; [apply (sp_tail f IH array false 0 (count (tree s)) (pos s));
    [by eapply steps_inv|fuel_below|done|unfold pos; lia|by eapply restored_result]|].
  cbn beta. intros value s3 [Hs3 Hr3]. do 2 apply wp_gets.
  assert (steps s s3) as Hs03 by (eapply (steps_steps_at array); [done|lia|done]). pose proof (steps_inv _ _ Hs03) as Hi3.
  destruct (negb (failed s3) && _); [done|]. apply wp_gets.
  destruct (match error_kind (tree s3) with EXP_OK => _ | _ => _ end) eqn:Er.
  { split; [done|]. apply result_error. by apply resource_failed. }
  destruct allow.
  { apply wp_gets. eapply wp_bind; [by apply wp_fail_step|]. cbn beta. intros _ s4 [Hs4 Hf4].
    split; [by eapply steps_trans|by apply result_error]. }
  eapply wp_restore_link; [done|done| |exact Ha|done|].
  { eapply step_trans; [apply Hs12; lia|]. apply Hs3; [unfold count; rewrite Hn2; lia|by right]. }
  intros s4 Hr4. pose proof Hr4 as (Hs14 & Hp4 & Hn4 & Hf4). assert (steps s s4) as Hs04 by exact (steps_trans _ _ _ Hs1 Hs14).
  eapply wp_mono; [apply (sp_array_suffix f IH array false a); [by eapply steps_inv|fuel_below|done|by rewrite Hn4|]|].
  { unfold pos, tok in *. by rewrite Hp4. }
  cbn beta. intros r s5 [Hs5 Hr5]. split; [by apply (Hat s4)|]. eapply result_weaken; [done|by apply steps_count|lia].
Qed.

Lemma spec_argument f : specs f -> forall allow s,
  inv s -> fuel_ok (Datatypes.S f) s 5 -> parses (argument (Datatypes.S f) allow) s.
Proof using text_bytes options_fit.
  intros IH allow s Hi Hfuel. cbn [argument]. unfold parses. do 3 apply wp_gets.
  destruct (failed s) eqn:Ef; [split; [by apply steps_refl|by apply result_error]|].
  destruct (existsb _ _); [apply (sp_expression f IH); [done|fuel_below]|].
  destruct (token_is _ _); [by apply spec_argument_array|]. do 3 apply wp_gets.
  destruct (allow || _ || _ || _); [|apply (sp_expression f IH); [done|fuel_below]].
  eapply wp_bind; [by apply wp_fn_type_start|]. cbn beta. intros fn ? ->. do 2 apply wp_gets.
  eapply (wp_bind _ _ (fun r s1 => steps s s1 /\ result (count (tree s)) (pos s) r s1)).
  { destruct allow; [apply (sp_type f IH)|apply (sp_type_body f IH)]; done || fuel_below. }
  cbn beta. intros child s1 [Hs1 Hr1]. do 2 apply wp_gets. pose proof (steps_inv _ _ Hs1) as Hi1.
  destruct (failed s1) eqn:Ef1; cbn [negb andb].
  2: destruct (_ || existsb _ [")"; ","]%string).
  { apply wp_gets. destruct (match error_kind (tree s1) with EXP_OK => _ | _ => _ end); [split; [done|by apply result_error]|].
    apply wp_restore; [done|done|apply Hs1; lia|]. intros s2 Hr2. pose proof Hr2 as (Hs2 & Hp2 & Hn2 & Hf2).
    eapply wp_mono; [apply (sp_expression f IH); [by eapply steps_inv|fuel_below]|]. cbn beta. intros r s3 [Hs3 Hr3].
    split; [by eapply steps_trans|]. unfold count, pos, tok in *. by rewrite Hn2, Hp2 in Hr3. }
  { destruct allow; [done|]. destruct (proj2 Hr1 Ef1) as (HN & n & Hn & Hst & He & _). pose proof (proj1 Hr1 HN).
    destruct (inv_bounded _ Hi). destruct (inv_ok _ Hi1 Ef1) as [_ Hwf]. destruct (Hwf _ _ Hn) as [Hsp _ _ _].
    apply wp_get_node; [unfold count in *; lia|]. intros n' Hn'. rewrite Hn in Hn'. injection Hn' as <-.
    eapply wp_mono; [apply wp_node; [done|]|].
    { intros _. split; [lia|]. split; [lia|]. right. unfold count in *. lia. }
    cbn beta. intros r s2 (Hs2 & Hr2 & _). split; [by eapply steps_trans|].
    eapply result_weaken; [done|by apply steps_count|lia]. }
  apply wp_gets. destruct (match error_kind (tree s1) with EXP_OK => _ | _ => _ end) eqn:Er.
  { split; [done|]. apply result_error. by apply resource_failed. }
  apply wp_restore; [done|done|apply Hs1; lia|]. intros s2 Hr2. pose proof Hr2 as (Hs2 & Hp2 & Hn2 & Hf2).
  eapply wp_mono; [apply (sp_expression f IH); [by eapply steps_inv|fuel_below]|]. cbn beta. intros r s3 [Hs3 Hr3].
  split; [by eapply steps_trans|]. unfold count, pos, tok in *. by rewrite Hn2, Hp2 in Hr3.
Qed.

(** *** The operators after an operand *)

Lemma result_failed lo p r s s' :
  result lo p r s -> count (tree s) <= count (tree s') -> failed s' = true -> result lo p r s'.
Proof using. intros [H _] Hc Hf. split; [intros HN; specialize (H HN); lia|congruence]. Qed.

Lemma wp_take_iff w s : inv s -> wp (take_ w) (fun yes s' => yes = token_is (tok s) w /\ steps s s') s.
Proof using text_bytes.
  intros Hi. unfold take_. apply wp_gets. destruct (token_is (tok s) w); [|split; [done|by apply steps_refl]].
  eapply wp_bind; [by apply wp_lex_step|]. cbn beta. intros _ s1 (Hs & _). done.
Qed.
Lemma wp_take_if b w s :
  inv s ->
  wp (if b : bool then take_ w else ret false)
     (fun yes s' => if yes : bool then steps s s' /\ consumed s s' /\ after_token s s' /\ token_is (tok s) w = true
                    else s' = s) s.
Proof using text_bytes. intros Hi. destruct b; [by apply wp_take|done]. Qed.

(** The state of [expression_tail] after its test: [l] is the operand. *)
Record operand (lo p lhs : Z) (l : ExpNode) (s : St) : Prop := {
  op_inv : inv s;
  op_ok : failed s = false;
  op_lo : 0 <= lo /\ 0 <= p;
  op_range : lhs <> NONE /\ lo <= lhs < count (tree s);
  op_node : get_at (nodes (tree s)) lhs = Some l;
  op_start : p <= n_start l /\ n_start l <= n_end l /\ n_end l <= pos s }.

(** The loop goes on with the new operand [r]. *)
Lemma tail_next f lo p lhs l primary minimum r s s' : specs f ->
  operand lo p lhs l s -> fuel_ok (Datatypes.S f) s 2 ->
  steps_at lhs s s' -> consumed s s' -> result (count (tree s)) (n_start l) r s' ->
  wp (expression_tail f r primary minimum) (fun r s'' => steps_at lhs s s'' /\ result lo p r s'') s'.
Proof using text_bytes options_fit.
  intros IH [Hi Hf Hlo [HN Hl] Hn Hst] Hfuel Hs Hc Hr. pose proof (steps_at_step _ _ _ Hs) as Hst'.
  eapply wp_mono; [apply (sp_tail f IH r primary minimum lo p); [by destruct Hst'| |lia|lia|]|].
  - eapply (fuel_consumed options_fit 0 lhs); [done|done|done|done|lia|lia].
  - eapply result_weaken; [done|lia|lia].
  - cbn beta. intros r' s'' [Hs'' Hr']. split; [|done]. eapply (steps_at_new lhs r); [done| |].
    + destruct (Z.eq_dec r NONE) as [->|HNr]; [by apply count_none|]. pose proof (proj1 Hr HNr). lia.
    + intros b x Hb Hbr. apply Hs''; [done|by left].
Qed.

(** What holds when the loop stops with an error. *)
Lemma tail_stop lo p lhs l s s' :
  operand lo p lhs l s -> steps_at lhs s s' -> failed s' = true -> steps_at lhs s s' /\ result lo p lhs s'.
Proof using.
  intros [Hi Hf Hlo [HN Hl] Hn Hst] Hs Hf'. split; [done|]. destruct (step_frame _ _ _ _ (steps_at_step _ _ _ Hs)) as [Hc _].
  split; [intros _; lia|congruence].
Qed.
(** The operand is made before the nodes parsed from [s] on. *)
Lemma operand_sibling lo p lhs l r s s' q :
  operand lo p lhs l s -> steps_at lhs s s' -> result (count (tree s)) q r s' -> pos s <= q ->
  failed s' = false -> forall n, get_at (nodes (tree s')) lhs = Some n -> sibling_ok (nodes (tree s')) n r.
Proof using.
  intros [Hi Hf Hlo [HN Hl] Hn Hst] Hs Hr Hq Hf' n Hn'. destruct (proj2 Hr Hf') as (_ & m & Hm & Hsm & _). right.
  exists m. split; [done|].
  pose proof (older_end _ _ _ _ _ _ Hi (Hs (count (tree s)) lhs ltac:(lia) ltac:(by right)) Hf' Hn' ltac:(lia) ltac:(lia)). lia.
Qed.

Section Tail.
Context (f : nat) (IH : specs f) (lo p lhs : Z) (l : ExpNode) (s : St) (primary : bool) (minimum : Z).
Context (Hop : operand lo p lhs l s) (Hfuel : fuel_ok (Datatypes.S f) s 2).
Let Q (r : Z) (s' : St) : Prop := steps_at lhs s s' /\ result lo p r s'.

Lemma tail_deref s1 :
  steps s s1 -> consumed s s1 -> after_token s s1 ->
  wp (let! id := node EXP_DEREF (n_start l) (end_ (tok s)) lhs (tok s) in
      let! lhs := mark id EXP_PRIMARY in expression_tail f lhs true minimum) Q s1.
Proof using All.
  intros Hs1 Hc1 Ha1. pose proof Hop as [Hi Hf Hlo [HN Hl] Hn Hst]. pose proof (steps_count _ _ Hs1).
  apply wp_node_mark_then; [by eapply steps_inv| |].
  { intros Hf1. specialize (Ha1 Hf1). pose proof (steps_tok _ Hi Hf). split; [lia|]. split; [lia|]. right. lia. }
  intros r s2 Hs2 Hr2. eapply tail_next; [done|done|done|apply steps_at_weaken; by eapply steps_trans| |].
  - eapply consumed_step; [done|by apply steps_step].
  - eapply result_weaken; [done|lia|done].
Qed.

Lemma tail_field s1 :
  steps s s1 -> consumed s s1 -> after_token s s1 ->
  wp (let! field := gets tok in
      if negb (bool_decide (kind field = NAME)) then
        fail_ (start field) "expected field name";; ret lhs
      else
        lex;;
        let! name := node EXP_NAME (start field) (end_ field) NONE token0 in
        if name =? NONE then ret lhs
        else
          set_next lhs name;;
          let! id := node EXP_FIELD (n_start l) (end_ field) lhs token0 in
          let! lhs := mark id EXP_PRIMARY in
          expression_tail f lhs primary minimum) Q s1.
Proof using All.
  intros Hs1 Hc1 Ha1. pose proof Hop as [Hi Hf Hlo [HN Hl] Hn Hst]. pose proof (steps_count _ _ Hs1).
  pose proof (steps_inv _ _ Hs1) as Hi1. apply wp_gets. destruct (bool_decide _); cbn [negb].
  2:{ eapply wp_bind; [by apply wp_fail_step|]. cbn beta. intros _ s2 [Hs2 Hf2].
      eapply tail_stop; [done|apply steps_at_weaken; by eapply steps_trans|done]. }
  eapply wp_bind; [by apply wp_lex_step|]. cbn beta. intros _ s2 (Hs2 & _ & Ha2). destruct (inv_bounded _ Hi1).
  eapply wp_bind; [apply wp_node; [by eapply steps_inv|]|].
  { intros Hf2. specialize (Ha2 Hf2). split; [lia|]. split; [lia|by left]. }
  cbn beta. intros name s3 (Hs3 & Hr3 & _). assert (steps s1 s3) as Hs13 by by eapply steps_trans.
  assert (steps s s3) as Hs03 by by eapply steps_trans. pose proof (steps_count _ _ Hs3). pose proof (steps_count _ _ Hs2).
  destruct (Z.eqb_spec name NONE) as [->|HNn].
  { eapply tail_stop; [done|by apply steps_at_weaken|]. destruct (failed s3) eqn:E; [done|]. by destruct (proj2 Hr3 E). }
  pose proof (proj1 Hr3 HNn). pose proof (steps_tok _ Hi Hf) as Htok.
  eapply wp_bind; [apply wp_set_next; [by eapply steps_inv|lia|]|].
  { intros Hf3. assert (pos s <= pos s1) by (apply steps_pos; [done|]; by apply (steps_ok _ _ Hs13)).
    apply (operand_sibling lo p lhs l name s s3 (start (tok s1))); [done|by apply steps_at_weaken| |done|done].
    eapply result_weaken; [done|lia|done]. }
  cbn beta. intros _ s4 (Hs4 & Hu4 & _). pose proof (updated_count _ _ _ Hu4).
  assert (steps_at lhs s s4) as Hs04 by (eapply steps_at_trans; [by apply steps_at_weaken|done]).
  apply wp_node_mark_then; [by destruct (steps_at_step _ _ _ Hs04)| |].
  { rewrite (updated_failed _ _ _ Hu4), (updated_pos _ _ _ Hu4). intros Hf3.
    pose proof (steps_ok _ _ Hs3 Hf3) as Hf2. pose proof (steps_ok _ _ Hs2 Hf2) as Hf1.
    specialize (Ha2 Hf2). pose proof (steps_pos _ _ Hs3 Hf3). pose proof (steps_pos _ _ Hs1 Hf1). unfold pos in *.
    split; [lia|]. split; [lia|]. right. lia. }
  intros r s5 Hs5 Hr5. eapply tail_next; [done|done|done| | |].
  - eapply steps_at_trans; [done|by apply steps_at_weaken].
  - eapply consumed_step; [done|]. eapply step_trans; [by apply (Hs13 0 lhs); unfold count; lia|].
    eapply step_trans; [apply Hs4; [unfold count; lia|by right]|apply Hs5; unfold count; lia].
  - eapply result_weaken; [done|lia|done].
Qed.

Lemma tail_call s1 :
  steps s s1 -> consumed s s1 -> after_token s s1 ->
  wp (arguments_loop f lhs;;
      let! t := gets tok in
      expect ")";;
      let! id := node EXP_CALL (n_start l) (end_ t) lhs token0 in
      let! lhs := mark id EXP_PRIMARY in
      expression_tail f lhs primary minimum) Q s1.
Proof using All.
  intros Hs1 Hc1 Ha1. pose proof Hop as [Hi Hf Hlo [HN Hl] Hn Hst]. pose proof (steps_count _ _ Hs1).
  eapply wp_bind; [apply (sp_arguments f IH); [by eapply steps_inv| |lia]|].
  { eapply (fuel_consumed options_fit 0 0); [done|done|by apply steps_step|done|lia|lia]. }
  cbn beta. intros _ s2 Hs2. assert (steps_at lhs s s2) as Hs02 by (eapply steps_at_trans; [by apply steps_at_weaken|done]).
  pose proof (steps_at_step _ _ _ Hs02) as Hst2. apply wp_gets.
  eapply wp_bind; [apply (wp_expect text_bytes); by destruct Hst2|]. cbn beta. intros _ s3 (Hs3 & Ht3).
  assert (steps_at lhs s s3) as Hs03 by (eapply steps_at_trans; [done|by apply steps_at_weaken]).
  destruct (step_frame _ _ _ _ (steps_at_step _ _ _ Hs03)) as [Hc3 _].
  apply wp_node_mark_then; [by eapply steps_inv| |].
  { intros Hf3. destruct (Ht3 Hf3) as (_ & He & _). pose proof (step_pos _ _ _ _ Hst2 (steps_ok _ _ Hs3 Hf3)).
    destruct (inv_bounded _ (step_inv _ _ _ _ Hst2)). unfold pos in *. split; [lia|]. split; [lia|]. right. lia. }
  intros r s4 Hs4 Hr4. eapply tail_next; [done|done|done| | |].
  - eapply steps_at_trans; [done|by apply steps_at_weaken].
  - eapply consumed_step; [done|]. eapply step_trans; [by apply steps_at_step|].
    eapply step_trans; [apply Hs3; unfold count; lia|apply Hs4; unfold count; lia].
  - eapply result_weaken; [done|lia|done].
Qed.

Lemma tail_binary level :
  wp (lex;;
      let! rhs := expression f (level + 1) in
      if rhs =? NONE then ret lhs
      else
        set_next lhs rhs;;
        let! r := get_node rhs in
        let! lhs := node EXP_BINARY (n_start l) (n_end r) lhs (tok s) in
        expression_tail f lhs false minimum) Q s.
Proof using All.
  pose proof Hop as [Hi Hf Hlo [HN Hl] Hn Hst].
  eapply wp_bind; [by apply wp_lex_step|]. cbn beta. intros _ s1 (Hs1 & Hc1 & Ha1). pose proof (steps_count _ _ Hs1).
  eapply wp_bind; [apply (sp_expression f IH); [by eapply steps_inv|fuel_below]|]. cbn beta. intros rhs s2 [Hs2 Hr2].
  assert (steps s s2) as Hs02 by by eapply steps_trans. pose proof (steps_count _ _ Hs2).
  destruct (Z.eqb_spec rhs NONE) as [->|HNr].
  { eapply tail_stop; [done|by apply steps_at_weaken|]. destruct (failed s2) eqn:E; [done|]. by destruct (proj2 Hr2 E). }
  pose proof (proj1 Hr2 HNr).
  eapply wp_bind; [apply wp_set_next; [by eapply steps_inv|lia|]|].
  { intros Hf2. apply (operand_sibling lo p lhs l rhs s s2 (pos s1)); [done|by apply steps_at_weaken| | |done].
    - eapply result_weaken; [done|lia|done].
    - apply steps_pos; [done|]. by apply (steps_ok _ _ Hs2). }
  cbn beta. intros _ s3 (Hs3 & Hu3 & _). pose proof (updated_count _ _ _ Hu3).
  assert (steps_at lhs s s3) as Hs03 by (eapply steps_at_trans; [by apply steps_at_weaken|done]).
  apply wp_get_node; [lia|]. rewrite (updated_other _ _ _ Hu3) by lia. intros r Hr.
  eapply wp_bind; [apply wp_node; [by destruct (steps_at_step _ _ _ Hs03)|]|].
  { rewrite (updated_failed _ _ _ Hu3), (updated_pos _ _ _ Hu3). intros Hf2.
    destruct (proj2 Hr2 Hf2) as (_ & r' & Hr' & Hst' & He & _). rewrite Hr in Hr'. injection Hr' as <-.
    destruct (inv_ok _ (steps_inv _ _ Hs02) Hf2) as [_ Hwf]. destruct (Hwf _ _ Hr) as [Hsp _ _ _].
    pose proof (steps_pos _ _ Hs1 (steps_ok _ _ Hs2 Hf2)). split; [lia|]. split; [lia|]. right. lia. }
  cbn beta. intros id s4 (Hs4 & Hr4 & _). eapply tail_next; [done|done|done| | |].
  - eapply steps_at_trans; [done|by apply steps_at_weaken].
  - eapply consumed_step; [done|]. eapply step_trans; [by apply (Hs2 0 lhs); unfold count; lia|].
    eapply step_trans; [apply Hs3; [unfold count; lia|by right]|apply Hs4; unfold count; lia].
  - eapply result_weaken; [done|lia|done].
Qed.

(** The bounds of an index or a slice, once they are nodes: the first starts
    after the bracket, the second after the first. *)
Lemma tail_bounds slice low high en op q s1 s2 :
  steps s s2 -> consumed s s2 -> failed s2 = false -> steps s s1 -> pos s <= q ->
  (exists nl, get_at (nodes (tree s2)) low = Some nl /\ q <= n_start nl /\ (slice = true -> n_end nl <= pos s1)) ->
  count (tree s) <= low < count (tree s2) ->
  (slice = true -> count (tree s) <= high < count (tree s2)
     /\ exists nh, get_at (nodes (tree s2)) high = Some nh /\ pos s1 <= n_start nh) ->
  n_start l <= en <= pos s2 ->
  wp (set_next lhs low;;
      (if slice : bool then set_next low high else ret tt);;
      let! id := node (if slice then EXP_SLICE else EXP_INDEX) (n_start l) en lhs op in
      let! lhs := mark id EXP_PRIMARY in
      expression_tail f lhs primary minimum) Q s2.
Proof using All.
  intros Hs2 Hc2 Hf2 Hs1 Hq (nl & Hnl & Hsl & Hel) Hlow Hhigh Hen. pose proof Hop as [Hi Hf Hlo [HN Hl] Hn Hst].
  eapply wp_bind; [apply wp_set_next; [by eapply steps_inv|lia|]|].
  { intros _ n Hn'. right. exists nl. split; [done|].
    pose proof (older_end _ _ _ _ _ _ Hi (Hs2 (count (tree s)) (-1) ltac:(lia)) Hf2 Hn' ltac:(lia) ltac:(lia)). lia. }
  cbn beta. intros _ s3 (Hs3 & Hu3 & _). pose proof (updated_count _ _ _ Hu3).
  assert (steps_at lhs s s3) as Hs03 by exact (steps_at_trans lhs s s2 s3 (steps_at_weaken _ _ _ Hs2) Hs3).
  pose proof (step_inv _ _ _ _ (steps_at_step _ _ _ Hs03)) as Hi3.
  eapply (wp_bind _ _ (fun _ s4 => steps_at lhs s s4 /\ updated low s3 s4)).
  { destruct slice; [|done]. destruct (Hhigh eq_refl) as (Hh & nh & Hnh & Hsh). specialize (Hel eq_refl).
    eapply wp_mono; [apply wp_set_next; [done|lia|]|].
    - intros _ n Hn'. rewrite (updated_other _ _ _ Hu3) in Hn' by lia. rewrite Hnl in Hn'. injection Hn' as <-.
      right. exists nh. rewrite (updated_other _ _ _ Hu3) by lia. split; [done|lia].
    - cbn beta. intros _ s4 (Hs4 & Hu4 & _). split; [|done]. eapply (steps_at_new lhs low); [done|lia|].
      intros b x Hb Hbl. apply Hs4; [done|by left]. }
  cbn beta. intros _ s4 [Hs4 Hu4]. pose proof (updated_count _ _ _ Hu4).
  apply wp_node_mark_then; [by destruct (steps_at_step _ _ _ Hs4)| |].
  { intros _. rewrite (updated_pos _ _ _ Hu4), (updated_pos _ _ _ Hu3). split; [lia|]. split; [lia|]. right. lia. }
  intros r s5 Hs5 Hr5. eapply tail_next; [done|done|done| | |].
  - eapply steps_at_trans; [done|by apply steps_at_weaken].
  - intros Hf5. specialize (Hc2 Hf2). pose proof (step_work _ _ _ _ (steps_step _ _ Hs5)).
    rewrite (updated_work _ _ _ Hu4), (updated_work _ _ _ Hu3) in *. lia.
  - eapply result_weaken; [done|lia|done].
Qed.

(** The end of an index or a slice: missing bounds become empty groups. *)
Lemma tail_index_end slice low high op s1 s3 s4 :
  steps s s1 -> consumed s s1 -> after_token s s1 -> steps s1 s3 -> steps s3 s4 ->
  (low = NONE /\ slice = true \/ result (count (tree s)) (pos s1) low s3) ->
  (slice = true -> high = NONE \/ result (count (tree s)) (pos s3) high s4) ->
  wp (expect "]";;
      let! stop := gets failed in
      if stop then ret lhs
      else
        let! low := (if slice && (low =? NONE) then node EXP_GROUP (end_ (tok s)) (end_ (tok s)) NONE token0 else ret low) in
        let! high := (if slice && (high =? NONE) then node EXP_GROUP (end_ (tok s4) - 1) (end_ (tok s4) - 1) NONE token0 else ret high) in
        let! stop := gets failed in
        if stop then ret lhs
        else
          set_next lhs low;;
          (if slice then set_next low high else ret tt);;
          let! id := node (if slice then EXP_SLICE else EXP_INDEX) (n_start l) (end_ (tok s4)) lhs op in
          let! lhs := mark id EXP_PRIMARY in
          expression_tail f lhs primary minimum) Q s4.
Proof using All.
  intros Hs1 Hc1 Ha1 Hs13 Hs34 Hlow Hhigh. pose proof Hop as [Hi Hf Hlo [HN Hl] Hn Hst]. pose proof (steps_tok _ Hi Hf) as Htok.
  assert (steps s s3) as Hs3 by exact (steps_trans _ _ _ Hs1 Hs13). assert (steps s s4) as Hs4 by exact (steps_trans _ _ _ Hs3 Hs34).
  pose proof (steps_count _ _ Hs3). pose proof (steps_count _ _ Hs34). pose proof (steps_inv _ _ Hs4) as Hi4.
  eapply wp_bind; [by apply wp_expect|]. cbn beta. intros _ s5 (Hs45 & Ht5). apply wp_gets.
  assert (steps s s5) as Hs5 by exact (steps_trans _ _ _ Hs4 Hs45).
  destruct (failed s5) eqn:Ef5; [eapply tail_stop; [done|by apply steps_at_weaken|done]|].
  destruct (Ht5 eq_refl) as (_ & He5 & Htk). apply token_is_length in Htk. change (Z.of_nat (length (str "]"))) with 1 in Htk.
  pose proof (steps_ok _ _ Hs45 Ef5) as Ef4. pose proof (steps_ok _ _ Hs34 Ef4) as Ef3. pose proof (steps_ok _ _ Hs13 Ef3) as Ef1.
  pose proof (steps_pos _ _ Hs1 Ef1). pose proof (steps_pos _ _ Hs13 Ef3). pose proof (steps_pos _ _ Hs34 Ef4).
  pose proof (steps_pos _ _ Hs45 Ef5). specialize (Ha1 Ef1). pose proof (steps_count _ _ Hs45).
  destruct (inv_bounded _ Hi), (inv_bounded _ Hi4).
  (* the lower bound *)
  eapply (wp_bind _ _ (fun low s6 => steps s5 s6 /\ (failed s6 = false -> count (tree s) <= low < count (tree s6)
    /\ exists n, get_at (nodes (tree s6)) low = Some n /\ end_ (tok s) <= n_start n /\ n_end n <= pos s3))).
  { destruct Hlow as [[-> ->]|Hlow].
    - rewrite Z.eqb_refl. cbn [andb]. eapply wp_mono; [apply wp_node; [by eapply steps_inv|]|].
      { intros _. split; [lia|]. split; [lia|by left]. }
      cbn beta. intros r s6 (Hs6 & Hr6 & _ & Hn6). split; [done|]. intros Hf6.
      destruct (proj2 Hr6 Hf6) as (HNr & n & Hgn & Hsn & _). pose proof (proj1 Hr6 HNr). split; [lia|].
      exists n. split; [done|]. destruct (Hn6 HNr n Hgn) as [_ ->]. lia.
    - destruct (proj2 Hlow Ef3) as (HNr & _). rewrite (proj2 (Z.eqb_neq _ _) HNr), andb_false_r.
      pose proof (proj1 Hlow HNr). split; [by eapply steps_refl, steps_inv|]. intros _. split; [lia|].
      assert (0 <= count (tree s)) as Hc0 by (unfold count; lia).
      pose proof (steps_trans _ _ _ Hs34 Hs45) as Hs35.
      destruct (proj2 (steps_result _ _ _ _ _ Hs35 Hlow Hc0) Ef5) as (_ & n & Hgn & Hsn & _). exists n. split; [done|].
      pose proof (older_end _ _ _ _ _ _ (steps_inv _ _ Hs3) (Hs35 (count (tree s3)) (-1) ltac:(lia)) Ef5 Hgn ltac:(lia) ltac:(lia)). lia. }
  cbn beta. clear low Hlow. intros low s6 [Hs56 Hlow]. assert (steps s s6) as Hs6 by exact (steps_trans _ _ _ Hs5 Hs56).
  (* the upper bound *)
  eapply (wp_bind _ _ (fun high s7 => steps s6 s7 /\ (slice = true -> failed s7 = false -> count (tree s) <= high < count (tree s7)
    /\ exists n, get_at (nodes (tree s7)) high = Some n /\ pos s3 <= n_start n))).
  { destruct slice; cbn [andb]; [|split; [by eapply steps_refl, steps_inv|done]]. pose proof (steps_count _ _ Hs6).
    destruct (Hhigh eq_refl) as [->|Hh].
    - rewrite Z.eqb_refl. eapply wp_mono; [apply wp_node; [by eapply steps_inv|]|].
      { intros Hf6. pose proof (steps_pos _ _ Hs56 Hf6). unfold pos in *. split; [lia|]. split; [lia|by left]. }
      cbn beta. intros r s7 (Hs7 & Hr7 & _). split; [done|]. intros _ Hf7.
      destruct (proj2 Hr7 Hf7) as (HNr & n & Hgn & Hsn & _). pose proof (proj1 Hr7 HNr). split; [lia|].
      exists n. split; [done|]. unfold pos in *. lia.
    - destruct (proj2 Hh Ef4) as (HNr & _). rewrite (proj2 (Z.eqb_neq _ _) HNr).
      split; [by eapply steps_refl, steps_inv|]. intros _ Hf6.
      assert (0 <= count (tree s)) as Hc0 by (unfold count; lia).
      pose proof (steps_result _ _ _ _ _ (steps_trans _ _ _ Hs45 Hs56) Hh Hc0) as Hh6.
      destruct (proj2 Hh6 Hf6) as (_ & n & Hgn & Hsn & _). pose proof (proj1 Hh6 HNr). split; [lia|]. by exists n. }
  cbn beta. clear high Hhigh. intros high s7 [Hs67 Hhigh]. assert (steps s s7) as Hs7 by exact (steps_trans _ _ _ Hs6 Hs67).
  apply wp_gets. destruct (failed s7) eqn:Ef7; [eapply tail_stop; [done|by apply steps_at_weaken|done]|].
  pose proof (steps_ok _ _ Hs67 Ef7) as Ef6. destruct (Hlow Ef6) as (Hlr & n & Hgn & Hsn & Hen).
  pose proof (steps_count _ _ Hs67). pose proof (steps_pos _ _ Hs67 Ef7). pose proof (steps_pos _ _ Hs56 Ef6).
  apply (tail_bounds slice low high _ _ (end_ (tok s)) s3 s7); try done.
  - eapply consumed_step; [done|]. apply (steps_step s1).
    eapply steps_trans; [exact Hs13|]. eapply steps_trans; [exact Hs34|]. eapply steps_trans; [exact Hs45|]. by eapply steps_trans.
  - destruct (step_frame _ _ _ _ (Hs67 (count (tree s6)) (-1) ltac:(lia))) as [_ Hfr].
    destruct (Hfr low n ltac:(unfold count in *; lia) Hgn) as (n' & Hn' & [->|[? _]]); [by exists n|unfold count in *; lia].
  - lia.
  - intros Es. by apply Hhigh.
  - unfold pos in *. lia.
Qed.

Lemma tail_index s1 :
  steps s s1 -> consumed s s1 -> after_token s s1 ->
  wp (let! open := is_ (str "..") in
      let! low := (if negb open then expression f 0 else ret NONE) in
      let! range_token := gets tok in
      let! slice := take_ (str "..") in
      let! close := is_ (str "]") in
      let! high := (if slice && negb close then expression f 0 else ret NONE) in
      let! t := gets tok in
      let end_ := end_ t in
      expect "]";;
      let! stop := gets failed in
      if stop then ret lhs
      else
        let! low := (if slice && (low =? NONE) then node EXP_GROUP (Lexer.end_ (tok s)) (Lexer.end_ (tok s)) NONE token0 else ret low) in
        let! high := (if slice && (high =? NONE) then node EXP_GROUP (end_ - 1) (end_ - 1) NONE token0 else ret high) in
        let! stop := gets failed in
        if stop then ret lhs
        else
          set_next lhs low;;
          (if slice then set_next low high else ret tt);;
          let! id := node (if slice then EXP_SLICE else EXP_INDEX) (n_start l) end_ lhs (if slice then range_token else token0) in
          let! lhs := mark id EXP_PRIMARY in
          expression_tail f lhs primary minimum) Q s1.
Proof using All.
  intros Hs1 Hc1 Ha1. pose proof Hop as [Hi Hf Hlo [HN Hl] Hn Hst]. pose proof (steps_count _ _ Hs1).
  pose proof (steps_inv _ _ Hs1) as Hi1. apply wp_gets. assert (0 <= count (tree s)) as Hc0 by (unfold count; lia).
  eapply (wp_bind _ _ (fun low s2 => steps s1 s2 /\ (low = NONE /\ token_is (tok s2) (str "..") = true
    \/ result (count (tree s)) (pos s1) low s2))).
  { destruct (token_is (tok s1) (str "..")) eqn:E; cbn [negb]; [split; [by apply steps_refl|by left]|].
    eapply wp_mono; [apply (sp_expression f IH); [done|fuel_below]|]. cbn beta. intros r s2 [Hs2 Hr2]. split; [done|]. right.
    eapply result_weaken; [done|done|done]. }
  cbn beta. intros low s2 [Hs12 Hlow]. apply wp_gets. pose proof (steps_inv _ _ Hs12) as Hi2.
  eapply wp_bind; [by apply wp_take_iff|]. cbn beta. intros slice s3 [Eslice Hs23]. apply wp_gets.
  pose proof (steps_trans _ _ _ Hs12 Hs23) as Hs13. pose proof (steps_inv _ _ Hs13) as Hi3.
  pose proof (steps_trans _ _ _ Hs1 Hs13) as Hs03. pose proof (steps_count _ _ Hs03).
  eapply (wp_bind _ _ (fun high s4 => steps s3 s4 /\ (slice = true -> high = NONE \/ result (count (tree s)) (pos s3) high s4))).
  { destruct (slice && _); [|split; [by apply steps_refl|by left]].
    eapply wp_mono; [apply (sp_expression f IH); [done|fuel_below]|]. cbn beta. intros r s4 [Hs4 Hr4]. split; [done|]. right.
    eapply result_weaken; [done|done|done]. }
  cbn beta. intros high s4 [Hs34 Hhigh]. apply wp_gets. cbv zeta.
  apply (tail_index_end slice low high _ s1 s3 s4); try done.
  destruct Hlow as [[-> E]|Hlow]; [left; split; [done|congruence]|right]. by apply (steps_result _ _ _ _ _ Hs23).
Qed.

End Tail.

Lemma spec_tail f : specs f -> forall left primary minimum lo p s,
  inv s -> fuel_ok (Datatypes.S f) s 2 -> 0 <= lo -> 0 <= p -> result lo p left s ->
  wp (expression_tail (Datatypes.S f) left primary minimum) (fun r s' => steps_at left s s' /\ result lo p r s') s.
Proof using text_bytes options_fit.
  intros IH left primary minimum lo p s Hi Hfuel Hlo Hp Hr. cbn [expression_tail]. apply wp_gets.
  assert (steps_at left s s) as Hrefl by (apply steps_at_weaken; by apply steps_refl).
  destruct (Z.eqb_spec left NONE) as [E|HN]; cbn [orb]; [done|]. destruct (failed s) eqn:Ef; [done|].
  pose proof (proj1 Hr HN) as Hl. destruct (proj2 Hr Ef) as (_ & l & Hn & Hst & He & Hnx).
  destruct (inv_ok _ Hi Ef) as [_ Hwf]. destruct (Hwf _ _ Hn) as [Hsp _ _ _].
  assert (operand lo p left l s) as Hop by (constructor; auto; lia).
  apply wp_gets. apply wp_get_node; [lia|]. intros l' Hn'. rewrite Hn in Hn'. injection Hn' as <-. cbv zeta.
  eapply wp_bind; [by apply wp_take|]. cbn beta. intros deref s1 H1. destruct deref.
  { destruct H1 as (Hs1 & Hc1 & Ha1 & _). by apply tail_deref. }
  subst s1. eapply wp_bind; [by apply wp_take_if|]. cbn beta. intros dot s1 H1. destruct dot.
  { destruct H1 as (Hs1 & Hc1 & Ha1 & _). by apply tail_field. }
  subst s1. eapply wp_bind; [by apply wp_take_if|]. cbn beta. intros paren s1 H1. destruct paren.
  { destruct H1 as (Hs1 & Hc1 & Ha1 & _). by apply tail_call. }
  subst s1. eapply wp_bind; [by apply wp_take_if|]. cbn beta. intros bracket s1 H1. destruct bracket.
  { destruct H1 as (Hs1 & Hc1 & Ha1 & _). by apply tail_index. }
  subst s1. eapply wp_bind; [by apply wp_precedence|]. cbn beta. intros level ? ->.
  destruct (_ || _); [done|]. by apply (tail_binary f IH lo p left l s primary minimum).
Qed.

(** *** Operands *)

(** The keyword [ ( ] of the directives: both tokens are passed. *)
Lemma wp_directive {B} (K : M B) R s :
  inv s -> (forall s', steps s s' -> wp K R s') -> wp (lex;; expect "(";; K) R s.
Proof using text_bytes.
  intros Hi HK. eapply wp_bind; [by apply wp_lex_step|]. cbn beta. intros _ s1 (Hs1 & _).
  eapply wp_bind; [apply (wp_expect text_bytes); by eapply steps_inv|]. cbn beta. intros _ s2 (Hs2 & _).
  apply HK. by eapply steps_trans.
Qed.
(** The closing parenthesis ends the node that starts at [s0]. *)
Lemma wp_close {B} k child op (K : Z -> M B) R s0 s :
  inv s0 -> steps s0 s -> (failed s = false -> child = NONE \/ 0 <= child < count (tree s)) ->
  (forall r s', steps s0 s' -> result (count (tree s0)) (pos s0) r s' -> wp (K r) R s') ->
  wp (let! t := gets tok in expect ")";; let! r := node k (start (tok s0)) (end_ t) child op in K r) R s.
Proof using text_bytes.
  intros Hi0 Hs Hch HK. apply wp_gets. eapply wp_bind; [apply (wp_expect text_bytes); by eapply steps_inv|]. cbn beta.
  intros _ s1 (Hs1 & Ht1). assert (steps s0 s1) as Hs01 by exact (steps_trans _ _ _ Hs Hs1). pose proof (steps_count _ _ Hs1).
  eapply wp_bind; [apply wp_node; [by eapply steps_inv|]|].
  { intros Hf. destruct (Ht1 Hf) as (_ & He & _). pose proof (steps_ok _ _ Hs1 Hf) as Hf'. pose proof (steps_pos _ _ Hs Hf').
    destruct (inv_bounded _ Hi0), (inv_bounded _ (steps_inv _ _ Hs)). unfold pos in *. split; [lia|]. split; [lia|].
    destruct (Hch Hf') as [->|?]; [by left|right; lia]. }
  cbn beta. intros r s2 (Hs2 & Hr2 & _). apply HK; [by eapply steps_trans|].
  eapply result_weaken; [done|by apply steps_count|done].
Qed.
Lemma result_child lo p r s s' : result lo p r s -> 0 <= lo -> steps s s' -> failed s' = false -> 0 <= r < count (tree s').
Proof using.
  intros Hr Hlo Hs Hf. destruct (proj2 Hr (steps_ok _ _ Hs Hf)) as [HN _]. pose proof (proj1 Hr HN).
  pose proof (steps_count _ _ Hs). lia.
Qed.

Section Head.
Context (f : nat) (IH : specs f) (s : St) (Hi : inv s) (Hfuel : fuel_ok (Datatypes.S f) s 8).
Let R : Z * bool -> St -> Prop := fun '(r, _) s' => steps s s' /\ result (count (tree s)) (pos s) r s'.

Lemma count_pos : 0 <= count (tree s).
Proof using. unfold count. lia. Qed.

Lemma head_prefix :
  wp (lex;;
      let! child := expression f 12 in
      if negb (child =? NONE) then
        let! n := get_node child in
        let! lhs := node EXP_PREFIX (start (tok s)) (n_end n) child (tok s) in
        ret (lhs, false)
      else ret (NONE, false)) R s.
Proof using All.
  eapply wp_bind; [by apply wp_lex_step|]. cbn beta. intros _ s1 (Hs1 & _ & Ha1). pose proof (steps_count _ _ Hs1).
  eapply wp_bind; [apply (sp_expression f IH); [by eapply steps_inv|fuel_below]|]. cbn beta. intros child s2 [Hs12 Hr2].
  assert (steps s s2) as Hs2 by by eapply steps_trans. pose proof count_pos.
  destruct (Z.eqb_spec child NONE) as [->|HN]; cbn [negb]; [split; [done|by eapply result_none]|].
  pose proof (proj1 Hr2 HN). apply wp_get_node; [lia|]. intros n Hn.
  eapply wp_bind; [apply wp_node; [by eapply steps_inv|]|].
  { intros Hf2. destruct (proj2 Hr2 Hf2) as (_ & n' & Hn' & Hst & He & _). rewrite Hn in Hn'. injection Hn' as <-.
    destruct (inv_ok _ (steps_inv _ _ Hs2) Hf2) as [_ Hwf]. destruct (Hwf _ _ Hn) as [Hsp _ _ _].
    pose proof (steps_pos _ _ Hs1 (steps_ok _ _ Hs12 Hf2)). destruct (inv_bounded _ Hi). unfold pos in *.
    split; [lia|]. split; [lia|]. right. lia. }
  cbn beta. intros r s3 (Hs3 & Hr3 & _). split; [by eapply steps_trans|].
  eapply result_weaken; [done|by apply steps_count|done].
Qed.

Lemma head_cast :
  wp (lex;; expect "(";;
      let! target := type f in
      let! close := is_ (str ")") in
      let! t := gets tok in
      (if close then fail_ (start t) "use #cast(type, value) or #bitcast(type, value); prefix cast syntax is no longer supported"
       else ret tt);;
      expect ",";;
      let! value := expression f 0 in
      let! t := gets tok in
      expect ")";;
      let! stop := gets failed in
      if negb stop then
        set_next target value;;
        let! id := node EXP_CAST (start (tok s)) (end_ t) target (tok s) in
        let! lhs := mark id (if at_ (start (tok s)) (str "#bitcast") then EXP_BITCAST else 0) in
        ret (lhs, true)
      else ret (NONE, false)) R s.
Proof using All.
  apply wp_directive; [done|]. intros s1 Hs1. pose proof (steps_count _ _ Hs1). pose proof count_pos.
  eapply wp_bind; [apply (sp_type f IH); [by eapply steps_inv|fuel_below]|]. cbn beta. intros target s2 [Hs12 Hr2].
  assert (steps s s2) as Hs2 by by eapply steps_trans. do 2 apply wp_gets.
  eapply (wp_bind _ _ (fun _ s3 => steps s2 s3)).
  { destruct (token_is _ _); [|by eapply steps_refl, steps_inv].
    eapply wp_mono; [apply wp_fail_step; by eapply steps_inv|]. by intros _ s3 []. }
  cbn beta. intros _ s3 Hs23. eapply wp_bind; [apply (wp_expect text_bytes); by eapply steps_inv|]. cbn beta. intros _ s4 (Hs34 & _).
  pose proof (steps_trans _ _ _ Hs23 Hs34) as Hs24. assert (steps s s4) as Hs4 by exact (steps_trans _ _ _ Hs2 Hs24).
  eapply wp_bind; [apply (sp_expression f IH); [by eapply steps_inv|fuel_below]|]. cbn beta. intros value s5 [Hs45 Hr5].
  assert (steps s s5) as Hs5 by exact (steps_trans _ _ _ Hs4 Hs45). apply wp_gets.
  eapply wp_bind; [apply (wp_expect text_bytes); by eapply steps_inv|]. cbn beta. intros _ s6 (Hs56 & Ht6). apply wp_gets.
  assert (steps s s6) as Hs6 by exact (steps_trans _ _ _ Hs5 Hs56).
  destruct (failed s6) eqn:Ef6; cbn [negb]; [split; [done|by apply result_error]|].
  pose proof (steps_ok _ _ Hs56 Ef6) as Ef5. pose proof (steps_ok _ _ Hs45 Ef5) as Ef4.
  pose proof (result_child _ _ _ _ _ Hr2 ltac:(lia) Hs24 Ef4) as Htarget. pose proof (steps_count _ _ Hs45). pose proof (steps_count _ _ Hs56).
  assert (0 <= count (tree s4)) as Hc4 by lia.
  destruct (proj2 (steps_result _ _ _ _ _ Hs56 Hr5 Hc4) Ef6) as (_ & nv & Hnv & Hsv & _).
  destruct (proj2 Hr2 (steps_ok _ _ Hs24 Ef4)) as [HNt _]. pose proof (proj1 Hr2 HNt).
  eapply wp_bind; [apply wp_set_next; [by eapply steps_inv|lia|]|].
  { intros _ n Hn. right. exists nv. split; [done|]. pose proof (steps_trans _ _ _ Hs45 Hs56) as Hs46.
    pose proof (older_end _ _ _ _ _ _ (steps_inv _ _ Hs4) (Hs46 (count (tree s4)) (-1) ltac:(lia)) Ef6 Hn ltac:(lia) ltac:(lia)). lia. }
  cbn beta. intros _ s7 (Hs67 & Hu7 & _). pose proof (updated_count _ _ _ Hu7).
  assert (steps s s7) as Hs7 by (eapply (steps_steps_at target); [exact Hs6|lia|done]).
  destruct (Ht6 eq_refl) as (_ & He6 & _). pose proof (steps_pos _ _ Hs5 Ef5).
  apply wp_node_mark_then; [by eapply steps_inv| |].
  { intros _. rewrite (updated_pos _ _ _ Hu7). destruct (inv_bounded _ Hi), (inv_bounded _ (steps_inv _ _ Hs5)).
    unfold pos in *. split; [lia|]. split; [lia|]. right. lia. }
  intros r s8 Hs8 Hr8. split; [by eapply steps_trans|]. eapply result_weaken; [done|by apply steps_count|done].
Qed.

Lemma head_size k :
  wp (lex;; expect "(";;
      let! child := (if bool_decide (k = EXP_OFFSET) then type f else argument f true) in
      (if bool_decide (k = EXP_OFFSET) then
         expect ",";;
         let! field := name in
         let! stop := gets failed in
         if negb stop then set_next child field else ret tt
       else ret tt);;
      let! t := gets tok in
      expect ")";;
      let! lhs := node k (start (tok s)) (end_ t) child token0 in
      ret (lhs, false)) R s.
Proof using All.
  apply wp_directive; [done|]. intros s1 Hs1. pose proof (steps_count _ _ Hs1). pose proof count_pos.
  eapply (wp_bind _ _ (fun r s2 => steps s1 s2 /\ result (count (tree s1)) (pos s1) r s2)).
  { case_bool_decide; [apply (sp_type f IH)|apply (sp_argument f IH)]; first [by eapply steps_inv|fuel_below]. }
  cbn beta. intros child s2 [Hs12 Hr2]. assert (steps s s2) as Hs2 by by eapply steps_trans.
  eapply (wp_bind _ _ (fun _ s3 => steps s s3 /\ (failed s3 = false -> 0 <= child < count (tree s3)))).
  { case_bool_decide.
    2:{ split; [done|]. intros Hf2. eapply result_child; [done|lia|by eapply steps_refl, steps_inv|done]. }
    eapply wp_bind; [apply (wp_expect text_bytes); by eapply steps_inv|]. cbn beta. intros _ s3 (Hs23 & _).
    assert (steps s s3) as Hs3 by exact (steps_trans _ _ _ Hs2 Hs23).
    eapply wp_bind; [apply (wp_name text_bytes); by eapply steps_inv|]. cbn beta. intros field s4 (Hs34 & Hr4 & _).
    assert (steps s s4) as Hs4 by exact (steps_trans _ _ _ Hs3 Hs34). apply wp_gets.
    destruct (failed s4) eqn:Ef4; cbn [negb]; [split; [done|congruence]|].
    pose proof (steps_ok _ _ Hs34 Ef4) as Ef3. pose proof (steps_ok _ _ Hs23 Ef3) as Ef2.
    destruct (proj2 Hr2 Ef2) as [HNc _]. pose proof (proj1 Hr2 HNc). pose proof (steps_count _ _ Hs23). pose proof (steps_count _ _ Hs34).
    destruct (proj2 Hr4 Ef4) as (_ & nf & Hnf & Hsf & _).
    eapply wp_mono; [apply wp_set_next; [by eapply steps_inv|lia|]|].
    { intros _ n Hn. right. exists nf. split; [done|].
      pose proof (older_end _ _ _ _ _ _ (steps_inv _ _ Hs3) (Hs34 (count (tree s3)) (-1) ltac:(lia)) Ef4 Hn ltac:(lia) ltac:(lia)). lia. }
    cbn beta. intros _ s5 (Hs45 & Hu5 & _). split; [eapply (steps_steps_at child); [exact Hs4|lia|done]|].
    intros _. rewrite (updated_count _ _ _ Hu5). lia. }
  cbn beta. intros _ s3 [Hs3 Hch]. apply wp_close; [done|done|intros Hf3; right; auto|]. by intros r s4 Hs4 Hr4.
Qed.

Lemma head_load (load : bool) :
  wp (lex;; expect "(";;
      let! first :=
        (if load then
           let! literal := gets tok in
           if negb (bool_decide (kind literal = STRING)) then
             fail_ (start literal) "expected string literal";; ret NONE
           else lex;; node EXP_STRING (start literal) (end_ literal) NONE token0
         else let! l := syscall_loop f (NONE, NONE) in ret (fst l)) in
      let! t := gets tok in
      expect ")";;
      let! lhs := node (if load then EXP_LOAD else EXP_SYSCALL) (start (tok s)) (end_ t) first token0 in
      ret (lhs, false)) R s.
Proof using All.
  apply wp_directive; [done|]. intros s1 Hs1. pose proof (steps_count _ _ Hs1). pose proof count_pos.
  pose proof (steps_inv _ _ Hs1) as Hi1.
  eapply (wp_bind _ _ (fun first s2 => steps s s2 /\ (failed s2 = false -> first = NONE \/ 0 <= first < count (tree s2)))).
  { destruct load.
    - apply wp_gets. destruct (bool_decide _); cbn [negb].
      + eapply wp_bind; [by apply wp_lex_step|]. cbn beta. intros _ s2 (Hs12 & _ & Ha2).
        eapply wp_mono; [apply wp_node; [by eapply steps_inv|]|].
        { intros Hf2. specialize (Ha2 Hf2). destruct (inv_bounded _ Hi1). split; [lia|]. split; [lia|by left]. }
        cbn beta. intros r s3 (Hs23 & Hr3 & _).
        split; [eapply steps_trans; [exact Hs1|]; by eapply steps_trans|]. intros Hf3. right.
        destruct (proj2 Hr3 Hf3) as [HN _]. pose proof (proj1 Hr3 HN). pose proof (steps_count _ _ Hs12). lia.
      + eapply wp_bind; [by apply wp_fail_step|]. cbn beta. intros _ s2 [Hs12 Hf2]. split; [by eapply steps_trans|by left].
    - eapply wp_bind; [apply (sp_syscall_loop f IH (count (tree s)) (pos s)); [done|fuel_below|lia|by apply steps_pos|by left]|].
      cbn beta. intros l s2 [Hs12 Hl2]. split; [eapply (steps_new_trans (count (tree s))); [exact Hs1|lia|done]|].
      intros _. by eapply children_first. }
  cbn beta. intros first s2 [Hs2 Hfirst]. apply wp_close; [done|done|done|]. by intros r s3 Hs3 Hr3.
Qed.

Lemma head_wrap k :
  wp (lex;; expect "(";;
      let! child := expression f 0 in
      let! t := gets tok in
      expect ")";;
      let! lhs := node k (start (tok s)) (end_ t) child token0 in
      ret (lhs, false)) R s.
Proof using All.
  apply wp_directive; [done|]. intros s1 Hs1. pose proof (steps_count _ _ Hs1). pose proof count_pos.
  eapply wp_bind; [apply (sp_expression f IH); [by eapply steps_inv|fuel_below]|]. cbn beta. intros child s2 [Hs12 Hr2].
  apply wp_close; [done|by eapply steps_trans| |by intros r s3 Hs3 Hr3].
  intros Hf2. right. eapply result_child; [done|lia|by eapply steps_refl, steps_inv|done].
Qed.

Lemma head_name k primary :
  wp (lex;; let! lhs := node k (start (tok s)) (end_ (tok s)) NONE token0 in ret (lhs, primary)) R s.
Proof using All.
  eapply wp_bind; [by apply wp_lex_step|]. cbn beta. intros _ s1 (Hs1 & _ & Ha1). destruct (inv_bounded _ Hi).
  eapply wp_bind; [apply wp_node; [by eapply steps_inv|]|].
  { intros Hf1. specialize (Ha1 Hf1). split; [lia|]. split; [lia|by left]. }
  cbn beta. intros r s2 (Hs2 & Hr2 & _). split; [by eapply steps_trans|]. eapply result_weaken; [done|by apply steps_count|done].
Qed.

End Head.

Lemma spec_parse_head f : specs f -> forall s,
  inv s -> fuel_ok (Datatypes.S f) s 8 -> failed s = false ->
  wp (parse_head (Datatypes.S f) (tok s)) (fun '(r, _) s' => steps s s' /\ result (count (tree s)) (pos s) r s') s.
Proof using text_bytes options_fit.
  intros IH s Hi Hfuel Ef. cbn [parse_head]. apply wp_gets.
  eapply (wp_bind _ _ (fun _ s1 => steps s s1 /\ parser s1 = parser s)).
  { destruct (token_is _ _); [split; [by apply steps_refl|done]|]. apply wp_struct_start; [done|done|done|].
    unfold fuel_ok in *. lia. }
  cbn beta. intros struct s1 [Hs1 Hp1].
  assert (tok s1 = tok s) as Ht by (unfold tok; by rewrite Hp1). assert (pos s1 = pos s) as Hps by (unfold pos; by rewrite Ht).
  pose proof (steps_inv _ _ Hs1) as Hi1. pose proof (steps_count _ _ Hs1) as Hc1.
  assert (fuel_ok (Datatypes.S f) s1 8) as Hfuel1.
  { unfold fuel_ok, need in *. pose proof (steps_step _ _ Hs1) as [_ Hd Hw _ _ _].
    pose proof (bounded_work _ (inv_bounded _ Hi1)). rewrite Ef in Hfuel. unfold K1, K2 in *.
    destruct (inv_depth _ Hi). destruct (failed s1); [lia|]. rewrite Hd. lia. }
  (* the rest of the head starts from [s1] *)
  apply (wp_mono _ (fun '(r, _) s' => steps s1 s' /\ result (count (tree s1)) (pos s1) r s')).
  2:{ intros [r b] s' [Hs' Hr']. split; [by eapply steps_trans|]. eapply result_weaken; [done|done|by rewrite Hps]. }
  destruct struct.
  { eapply wp_bind; [apply (sp_aggregate f IH); [done|fuel_below]|]. cbn beta. intros r s2 (Hs2 & Hr2 & _). done. }
  rewrite <- Ht. clear s Hi Hfuel Ef Hs1 Hp1 Ht Hps Hc1. rename s1 into s, Hi1 into Hi, Hfuel1 into Hfuel.
  eapply wp_bind; [by apply wp_take|]. cbn beta. intros paren s1 H1. destruct paren.
  { destruct H1 as (Hs1 & _). eapply wp_bind; [apply (sp_expression f IH); [by eapply steps_inv|fuel_below]|].
    cbn beta. intros child s2 [Hs12 Hr2]. assert (0 <= count (tree s1)) by (unfold count; lia).
    apply wp_close; [done|by eapply steps_trans| |by intros r s3 Hs3 Hr3].
    intros Hf2. right. eapply result_child; [done|lia|by eapply steps_refl, steps_inv|done]. }
  subst s1. do 5 apply wp_gets.
  destruct (existsb _ ["-"; "&"; "!"; "~"]%string); [by apply head_prefix|].
  destruct (existsb _ ["#cast"; "#bitcast"]%string); [by apply head_cast|].
  destruct (existsb _ ["#sizeof"; "#alignof"; "#typeof"; "#offsetof"]%string).
  { do 3 apply wp_gets. cbv zeta. by apply head_size. }
  destruct (existsb _ ["#load"; "#syscall"]%string).
  { apply wp_gets. by apply head_load. }
  destruct (existsb _ ["#wrap"; "#len"]%string).
  { apply wp_gets. by apply head_wrap. }
  do 3 apply wp_gets. destruct (bool_decide _); [by apply (head_name f IH s)|].
  destruct (token_is _ _); (eapply wp_bind; [by apply wp_fail_step|]; cbn beta; intros _ s1 [Hs1 Hf1];
    split; [done|by apply result_error]).
Qed.

Lemma spec_parse f : specs f -> forall minimum s,
  inv s -> fuel_ok (Datatypes.S f) s 9 -> failed s = false -> parses (parse (Datatypes.S f) minimum) s.
Proof using text_bytes options_fit.
  intros IH minimum s Hi Hfuel Ef. cbn [parse]. unfold parses. apply wp_gets. destruct (inv_bounded _ Hi).
  assert (0 <= count (tree s)) as Hc0 by (unfold count; lia).
  assert (forall r primary s1, steps s s1 -> result (count (tree s)) (pos s) r s1 ->
    wp (expression_tail f r primary minimum) (fun r s' => steps s s' /\ result (count (tree s)) (pos s) r s') s1) as Htail.
  { intros r primary s1 Hs1 Hr1.
    eapply wp_mono; [apply (sp_tail f IH r primary minimum (count (tree s)) (pos s)); [by eapply steps_inv|fuel_below|done|unfold pos; lia|done]|].
    cbn beta. intros r2 s2 [Hs2 Hr2]. split; [|done]. eapply (steps_steps_at r); [done| |done].
    destruct (Z.eq_dec r NONE) as [->|HN]; [by apply count_none|]. pose proof (proj1 Hr1 HN). lia. }
  destruct (_ || _ || _).
  { eapply wp_bind; [by apply wp_lex_step|]. cbn beta. intros _ s1 (Hs1 & _ & Ha1).
    eapply wp_bind; [apply wp_node; [by eapply steps_inv|]|].
    { intros Hf1. specialize (Ha1 Hf1). split; [lia|]. split; [lia|by left]. }
    cbn beta. intros r s2 (Hs2 & Hr2 & _). apply Htail; [by eapply steps_trans|].
    eapply result_weaken; [done|by apply steps_count|done]. }
  eapply wp_bind; [apply (sp_parse_head f IH); [done|fuel_below|done]|]. cbn beta. intros [r primary] s1 [Hs1 Hr1].
  eapply (wp_bind _ _ (fun _ s2 => steps s s2 /\ result (count (tree s)) (pos s) r s2)).
  { destruct primary; [|done].
    eapply wp_bind; [apply (wp_mark (count (tree s)) (pos s)); [by eapply steps_inv|done|done]|].
    cbn beta. intros ? s2 (-> & Hs2 & Hr2). split; [|done]. eapply (steps_new_trans r); [done| |done].
    destruct (Z.eq_dec r NONE) as [->|HN]; [by apply count_none|]. pose proof (proj1 Hr1 HN). lia. }
  cbn beta. intros _ s2 [Hs2 Hr2]. by apply Htail.
Qed.

(** Every function meets its specification, whatever the fuel. *)
Lemma all_specs f : specs f.
Proof using text_bytes options_fit.
  induction f as [|f IH]; [apply specs_0|]. constructor.
  - by apply spec_type_body.
  - by apply spec_fn_params.
  - by apply spec_type.
  - by apply spec_array_suffix.
  - by apply spec_argument.
  - by apply spec_aggregate.
  - by apply spec_aggregate_loop.
  - by apply spec_parse.
  - by apply spec_parse_head.
  - by apply spec_syscall_loop.
  - by apply spec_tail.
  - by apply spec_arguments.
  - by apply spec_expression.
Qed.

End Specs.

(** ** The end of a parse *)

Section FinishSpec.
Context {S : Source}.

Definition link_ok (l : list ExpNode) (v : Z) : Prop := v = NONE \/ 0 <= v < Z.of_nat (length l).
(** The parent of node [i] has been set. *)
Definition has_parent (l : list ExpNode) (i : Z) : Prop := exists n, get_at l i = Some n /\ n_parent n <> NONE.

(** What the walk over the tree keeps: the links are sound, a node with a
    parent is the root's child or has a grandparent, and so has its next
    sibling, unless that is the node [c] where the walk over the children
    is. *)
Record walk (root c : Z) (l : list ExpNode) : Prop := {
  walk_links : forall i n, get_at l i = Some n -> link_ok l (n_first n) /\ link_ok l (n_next n) /\ link_ok l (n_parent n);
  walk_up : forall i n, get_at l i = Some n -> n_parent n <> NONE -> n_parent n = root \/ has_parent l (n_parent n);
  walk_next : forall i n, get_at l i = Some n -> n_parent n <> NONE -> n_next n <> NONE ->
    has_parent l (n_next n) \/ n_next n = c }.

(** The node at [i] changes only in its parent and its role. *)
Definition same_shape (n n' : ExpNode) : Prop :=
  n_start n' = n_start n /\ n_end n' = n_end n /\ n_first n' = n_first n /\ n_next n' = n_next n /\ n_kind n' = n_kind n.
Definition shape (l l' : list ExpNode) : Prop :=
  length l' = length l /\ forall i n', get_at l' i = Some n' -> exists n, get_at l i = Some n /\ same_shape n n'.
#[local] Instance shape_preorder : PreOrder shape.
Proof using.
  split.
  - intros l. split; [done|]. intros i n Hn. exists n. done.
  - intros l1 l2 l3 [E1 H1] [E2 H2]. split; [congruence|]. intros i n3 Hn3. destruct (H2 i n3 Hn3) as (n2 & Hn2 & S2).
    destruct (H1 i n2 Hn2) as (n1 & Hn1 & S1). exists n1. split; [done|]. unfold same_shape in *. intuition congruence.
Qed.

(** The effect of one step of the walk. *)
Record walked (root c : Z) (s s' : St) : Prop := {
  walked_walk : walk root c (nodes (tree s'));
  walked_shape : shape (nodes (tree s)) (nodes (tree s'));
  walked_parents : forall i, has_parent (nodes (tree s)) i -> has_parent (nodes (tree s')) i;
  walked_work : 0 <= work_remaining s' <= work_remaining s }.
Lemma walked_trans root c1 c2 s1 s2 s3 : walked root c1 s1 s2 -> walked root c2 s2 s3 -> walked root c2 s1 s3.
Proof using. intros [] []. constructor; auto; [by etransitivity|lia]. Qed.
Lemma walked_quiet root c s s' : walk root c (nodes (tree s)) -> 0 <= work_remaining s -> quiet s s' -> walked root c s s'.
Proof using.
  intros Hw H0 []. specialize (quiet_work H0). constructor; rewrite ?quiet_nodes; auto. reflexivity.
Qed.

Lemma wp_charge_walk root c units o s :
  walk root c (nodes (tree s)) -> 0 <= work_remaining s -> 1 <= units -> failed s = false ->
  wp (charge units o) (fun ok s' => walked root c s s' /\ nodes (tree s') = nodes (tree s)
    /\ if ok : bool then failed s' = false /\ work_remaining s' < work_remaining s else failed s' = true) s.
Proof using.
  intros Hw H0 Hu Hf. eapply wp_mono; [apply wp_charge; lia|]. cbn beta. intros ok s' [Hq Hr].
  split; [by apply walked_quiet|]. split; [by destruct Hq|]. destruct ok; [|done]. destruct Hr as (-> & ? & ?). split; [done|lia].
Qed.

(** Setting the parent and the role of the child where the walk is. *)
Lemma walk_set root id c n role l :
  walk root c l -> get_at l c = Some n -> 0 <= id < Z.of_nat (length l) -> Z.of_nat (length l) <= NONE ->
  (id = root \/ has_parent l id) ->
  let l' := <[Z.to_nat c := with_field role (with_parent id n)]> l in
  walk root (n_next n) l' /\ shape l l' /\ (forall i, has_parent l i -> has_parent l' i) /\ has_parent l' c
  /\ get_at l' c = Some (with_field role (with_parent id n)).
Proof using.
  intros [Hlinks Hup Hnext] Hn Hid HN Hpar l'. pose proof Hn as Hr. apply get_at_Some in Hr as [Hr _].
  assert (length l' = length l) as Hlen by apply length_insert.
  assert (get_at l' c = Some (with_field role (with_parent id n))) as Hc by by apply get_at_insert_eq.
  assert (forall i, i <> c -> 0 <= i -> get_at l' i = get_at l i) as Hother.
  { intros i Hi Hi0. apply get_at_insert_ne; lia. }
  assert (id <> NONE) as HidN by lia.
  assert (has_parent l' c) as Hpc by (eexists; split; [exact Hc|done]).
  assert (forall i, has_parent l i -> has_parent l' i) as Hmono.
  { intros i (m & Hm & Hp). destruct (Z.eq_dec i c) as [->|Hne]; [done|]. exists m. split; [|done].
    rewrite Hother; [done|done|]. apply get_at_Some in Hm. lia. }
  assert (forall v, link_ok l v -> link_ok l' v) as Hlink by (unfold link_ok; by rewrite Hlen).
  split; [|split_and!; try done].
  - constructor; intros i m Hm; pose proof Hm as Hi; apply get_at_Some in Hi as [Hi _].
    + destruct (Z.eq_dec i c) as [->|Hne].
      * rewrite Hc in Hm. injection Hm as <-. cbn. destruct (Hlinks _ _ Hn) as (? & ? & ?). split_and!; auto. right. lia.
      * rewrite Hother in Hm by lia. destruct (Hlinks _ _ Hm) as (? & ? & ?). auto.
    + intros Hp. destruct (Z.eq_dec i c) as [->|Hne].
      * rewrite Hc in Hm. injection Hm as <-. cbn in *. destruct Hpar; auto.
      * rewrite Hother in Hm by lia. destruct (Hup _ _ Hm Hp); auto.
    + intros Hp HNx. destruct (Z.eq_dec i c) as [->|Hne].
      * rewrite Hc in Hm. injection Hm as <-. by right.
      * rewrite Hother in Hm by lia. destruct (Hnext _ _ Hm Hp HNx) as [?| ->]; auto.
  - split; [done|]. intros i m Hm. pose proof Hm as Hi. apply get_at_Some in Hi as [Hi _]. destruct (Z.eq_dec i c) as [->|Hne].
    + rewrite Hc in Hm. injection Hm as <-. exists n. done.
    + rewrite Hother in Hm by lia. exists m. done.
Qed.

Lemma wp_finish_children root fuel id kind first child s :
  failed s = false -> walk root child (nodes (tree s)) -> 0 <= work_remaining s ->
  link_ok (nodes (tree s)) child -> 0 <= id < count (tree s) -> count (tree s) <= NONE ->
  (id = root \/ has_parent (nodes (tree s)) id) -> work_remaining s < Z.of_nat fuel ->
  wp (finish_children fuel id kind first child) (fun ok s' =>
    if ok : bool then walked root NONE s s' /\ failed s' = false /\ (child <> NONE -> has_parent (nodes (tree s')) child)
    else failed s' = true) s.
Proof using.
  revert child s. induction fuel as [|fuel IH]; intros child s Hf Hw H0 Hlink Hid HN Hpar Hfuel; [lia|].
  cbn [finish_children]. destruct (Z.eqb_spec child NONE) as [->|Hc].
  { split; [|done]. constructor; auto; [reflexivity|lia]. }
  destruct Hlink as [|Hr]; [done|]. apply wp_get_node; [done|]. intros c Hgc.
  eapply wp_bind; [by apply (wp_charge_walk root child)|]. cbn beta. intros ok s1 (Hs1 & Hn1 & Hok).
  destruct ok; cbn [negb]; [|done]. destruct Hok as [Hf1 Hw1].
  unfold upd_node, bind at 1, wp. rewrite Hn1, Hgc. rewrite <- Hn1.
  set (role := child_role kind (child =? first) (with_parent id c)).
  destruct (walk_set root id child c role (nodes (tree s1))) as (Hw2 & Hsh2 & Hmono2 & Hpc & Hget2).
  { by destruct Hs1. }
  { by rewrite Hn1. }
  { rewrite Hn1. done. }
  { rewrite Hn1. done. }
  { rewrite Hn1. done. }
  set (l2 := <[Z.to_nat child := with_field role (with_parent id c)]> (nodes (tree s1))) in *.
  set (s2 := with_tree (set_nodes l2) s1).
  change (wp (let! c := get_node child in finish_children fuel id kind first (n_next c)) (fun ok s' =>
    if ok : bool then walked root NONE s s' /\ failed s' = false /\ (child <> NONE -> has_parent (nodes (tree s')) child)
    else failed s' = true) s2).
  assert (length l2 = length (nodes (tree s))) as Hl2 by (unfold l2; by rewrite length_insert, Hn1).
  assert (walked root (n_next c) s s2) as Hs2.
  { eapply walked_trans; [exact Hs1|]. constructor; cbn; auto. destruct Hs1. lia. }
  apply wp_get_node; [unfold count; cbn; lia|]. cbn [tree s2 with_tree set_nodes nodes]. intros c' Hc'.
  change (get_at l2 child = Some c') in Hc'. rewrite Hget2 in Hc'. injection Hc' as <-. cbn [n_next with_field with_parent].
  eapply wp_mono; [apply IH; cbn; auto|].
  - destruct Hs2. cbn in *. lia.
  - destruct (walk_links _ _ _ Hw _ _ Hgc) as (_ & Hnx & _). unfold link_ok in *. by rewrite Hl2.
  - unfold count in *. cbn. lia.
  - unfold count in *. cbn. lia.
  - destruct Hpar as [|Hp]; [by left|]. right. apply (walked_parents _ _ _ _ Hs2). done.
  - lia.
  - cbn beta. intros ok s3 H3. destruct ok; [|done]. destruct H3 as (Hs3 & Hf3 & _).
    split; [by eapply walked_trans|]. split; [done|]. intros _. by apply (walked_parents _ _ _ _ Hs3).
Qed.

Lemma wp_finish_up root fuel id s :
  failed s = false -> walk root NONE (nodes (tree s)) -> 0 <= work_remaining s -> 0 <= id < count (tree s) ->
  (id = root \/ has_parent (nodes (tree s)) id) -> work_remaining s < Z.of_nat fuel ->
  wp (finish_up fuel root id) (fun r s' =>
    match r with
    | None => failed s' = true
    | Some i => walked root NONE s s' /\ failed s' = false /\ nodes (tree s') = nodes (tree s) /\ 0 <= i < count (tree s)
        /\ (i = root \/ exists n, get_at (nodes (tree s)) i = Some n /\ n_next n <> NONE /\ has_parent (nodes (tree s)) (n_next n))
    end) s.
Proof using.
  revert id s. induction fuel as [|fuel IH]; intros id s Hf Hw H0 Hid Hpar Hfuel; [lia|].
  cbn [finish_up]. assert (walked root NONE s s) as Hrefl by (constructor; auto; [reflexivity|lia]).
  destruct (Z.eqb_spec id root) as [->|Hne]; [split_and!; auto; lia|].
  destruct Hpar as [|(n & Hn & Hp)]; [done|]. apply wp_get_node; [done|]. intros n' Hn'. rewrite Hn in Hn'. injection Hn' as <-.
  destruct (Z.eqb_spec (n_next n) NONE) as [E|E].
  2:{ split_and!; auto; try lia. right. exists n. split_and!; auto.
      by destruct (walk_next _ _ _ Hw _ _ Hn Hp E). }
  eapply wp_bind; [by apply (wp_charge_walk root NONE)|]. cbn beta. intros ok s1 (Hs1 & Hn1 & Hok).
  destruct ok; cbn [negb]; [|done]. destruct Hok as [Hf1 Hw1]. destruct (walk_links _ _ _ Hw _ _ Hn) as (_ & _ & [?|Hpr]); [done|].
  eapply wp_mono; [apply IH; auto|].
  - by rewrite Hn1.
  - by destruct Hs1 as [_ _ _ []].
  - unfold count. by rewrite Hn1.
  - rewrite Hn1. by apply (walk_up _ _ _ Hw _ _ Hn).
  - lia.
  - cbn beta. intros [i|] s2 H2; [|done]. unfold count in *. rewrite Hn1 in H2. destruct H2 as (Hs2 & H2).
    split; [by eapply walked_trans|done].
Qed.

Lemma wp_finish_loop root fuel id s :
  failed s = false -> walk root NONE (nodes (tree s)) -> 0 <= work_remaining s -> 0 <= id < count (tree s) ->
  count (tree s) <= NONE -> (id = root \/ has_parent (nodes (tree s)) id) -> work_remaining s < Z.of_nat fuel ->
  wp (finish_loop fuel root id) (fun ok s' => if ok : bool then walked root NONE s s' /\ failed s' = false else failed s' = true) s.
Proof using.
  revert id s. induction fuel as [|fuel IH]; intros id s Hf Hw H0 Hid HN Hpar Hfuel; [lia|].
  cbn [finish_loop]. apply wp_get_node; [done|]. intros n Hn.
  eapply wp_bind; [by apply (wp_charge_walk root NONE)|]. cbn beta. intros ok s1 (Hs1 & Hn1 & Hok).
  destruct ok; cbn [negb]; [|done]. destruct Hok as [Hf1 Hw1]. destruct (walk_links _ _ _ Hw _ _ Hn) as (Hfirst & _ & _).
  assert (count (tree s1) = count (tree s)) as Hc1 by (unfold count; by rewrite Hn1).
  assert (0 <= work_remaining s1) as H01 by by destruct Hs1 as [_ _ _ []].
  eapply wp_bind; [apply (wp_finish_children root); rewrite ?Hn1, ?Hc1; auto; [|lia]|].
  { constructor; [apply (walk_links _ _ _ Hw)|apply (walk_up _ _ _ Hw)|].
    intros i m Hm Hp HNx. destruct (walk_next _ _ _ Hw i m Hm Hp HNx); [by left|done]. }
  cbn beta. intros ok s2 H2. destruct ok; cbn [negb]; [|done]. destruct H2 as (Hs12 & Hf2 & Hpf).
  assert (walked root NONE s s2) as Hs2 by by eapply walked_trans.
  assert (count (tree s2) = count (tree s)) as Hc2 by (destruct Hs2 as [_ [E _] _ _]; unfold count; by rewrite E).
  assert (0 <= work_remaining s2 < work_remaining s) as H02 by (destruct Hs12 as [_ _ _ ?]; lia).
  assert (forall i s3, walked root NONE s s3 -> failed s3 = false -> 0 <= i < count (tree s3) -> has_parent (nodes (tree s3)) i ->
    work_remaining s3 < work_remaining s ->
    wp (finish_loop fuel root i) (fun ok s' => if ok : bool then walked root NONE s s' /\ failed s' = false else failed s' = true) s3) as Hgo.
  { intros i s3 Hs3 Hf3 Hi Hp Hw3. pose proof Hs3 as [W3 [E3 _] P3 R3].
    eapply wp_mono; [apply IH; auto; [lia|unfold count in *; lia|lia]|].
    cbn beta. intros [] s4 H4; [|done]. destruct H4 as [H4 Hf4]. split; [by eapply walked_trans|done]. }
  destruct (Z.eqb_spec (n_first n) NONE) as [E|E]; cbn [negb].
  2:{ apply Hgo; [done|done| |by apply Hpf|lia]. destruct Hfirst as [|Hr]; [done|]. rewrite Hc2. exact Hr. }
  eapply wp_bind; [apply (wp_finish_up root); [done|by destruct Hs2|lia|lia| |lia]|].
  { destruct Hpar as [|Hp]; [by left|]. right. by apply (walked_parents _ _ _ _ Hs2). }
  cbn beta. intros [i|] s3 H3; [|done]. destruct H3 as (Hs23 & Hf3 & Hn3 & Hi & Hcase).
  destruct (Z.eqb_spec i root) as [->|Hne]; [split; [by eapply walked_trans|done]|].
  destruct Hcase as [|(m & Hm & HNx & Hpx)]; [done|].
  assert (count (tree s3) = count (tree s2)) as Hc3 by (unfold count; by rewrite Hn3).
  apply wp_get_node; [lia|]. rewrite Hn3. intros m' Hm'. rewrite Hm in Hm'. injection Hm' as <-.
  apply Hgo; [by eapply walked_trans|done| |by rewrite Hn3|destruct Hs23 as [_ _ _ ?]; lia].
  destruct (walk_links _ _ _ (walked_walk _ _ _ _ Hs2) _ _ Hm) as (_ & [|Hr] & _); [done|]. rewrite Hc3. exact Hr.
Qed.

(** A well-formed tree is walked to its end, or the budget is exceeded. *)
Lemma wp_finish_tree root fuel s :
  inv s -> failed s = false -> 0 <= root < count (tree s) -> work_remaining s < Z.of_nat fuel ->
  wp (finish_tree fuel root) (fun ok s' =>
    if ok : bool then failed s' = false /\ shape (nodes (tree s)) (nodes (tree s'))
    else failed s' = true) s.
Proof using.
  intros Hi Hf Hr Hfuel. destruct (inv_ok _ Hi Hf) as [_ Hwf]. pose proof (bounded_work _ (inv_bounded _ Hi)).
  destruct (get_at_is_Some (nodes (tree s)) root Hr) as [n Hn]. unfold finish_tree.
  assert (forall i m, get_at (nodes (tree s)) i = Some m -> n_parent m = NONE) as Hnone.
  { intros i m Hm. by destruct (Hwf i m Hm). }
  assert (with_parent NONE n = n) as En by (specialize (Hnone _ _ Hn); destruct n; cbn in *; by subst).
  unfold upd_node, bind, wp. rewrite Hn, En. rewrite list_insert_id by (by apply get_at_Some in Hn as [_ ?]).
  set (s1 := with_tree (set_nodes (nodes (tree s))) s).
  assert (walk root NONE (nodes (tree s))) as Hw.
  { constructor.
    - intros i m Hm. destruct (Hwf i m Hm) as [_ Hfst Hnx Hp]. pose proof Hm as Him. apply get_at_Some in Him as [Him _].
      split_and!.
      + destruct Hfst; [by left|]. right. lia.
      + destruct Hnx as [|(k & Hk & _)]; [by left|]. right. apply get_at_Some in Hk. lia.
      + by left.
    - intros i m Hm Hp. by rewrite (Hnone _ _ Hm) in Hp.
    - intros i m Hm Hp. by rewrite (Hnone _ _ Hm) in Hp. }
  pose proof (wp_finish_loop root fuel root s1) as Hl. unfold wp in Hl.
  destruct (finish_loop fuel root root s1) as [[ok s2]|].
  - specialize (Hl Hf Hw ltac:(done) Hr (count_none s Hi) ltac:(by left) ltac:(done)).
    destruct ok; [|done]. destruct Hl as [[] ?]. done.
  - apply Hl; auto. exact (count_none s Hi).
Qed.

End FinishSpec.

(** ** The parser as a whole *)

Section Whole.
Context {S : Source}.

(** The tree a successful parse publishes. *)
Definition wf_tree (t : ExpTree) : Prop :=
  0 <= root t < count t /\
  forall id n, get_at (nodes t) id = Some n ->
    0 <= n_start n <= n_end n /\ n_end n <= len
    /\ (n_first n = NONE \/ 0 <= n_first n < id)
    /\ sibling_ok (nodes t) n (n_next n).

(** Enough fuel for the work budget and the nesting limit. *)
Definition parse_fuel : Z := K1 * initial_work + K2 * 1025 + 16.

Lemma start_inv t w : options_ok -> 0 <= capacity t < 2 ^ 32 -> inv (start_state t w) /\ failed (start_state t w) = false.
Proof using.
  intros Ho Hc. pose proof (depth_limit_range Ho) as Hd. split; [|done].
  assert (0 <= initial_work) as Hw.
  { unfold initial_work, options_ok in *. assert (0 <= len) by (unfold len; lia).
    destruct options as [o|]; [destruct Ho|]; cbn; try split_if; lia. }
  constructor; [constructor; cbn; try lia; unfold len; lia|split; [reflexivity|exact (proj1 Hd)]|split; [exact (proj1 Hc)|exact (proj2 Hc)]| |done].
  intros _. split; [done|]. intros id n Hn. apply get_at_Some in Hn as [Hr _]. cbn in Hr. lia.
Qed.

(** The body of the parse, after the check of the length. *)
Lemma wp_parse_body fuel t w :
  Forall is_byte text -> options_ok -> 0 <= capacity t < 2 ^ 32 -> parse_fuel <= Z.of_nat fuel ->
  wp (let! ok := charge len 0 in
      if negb ok then ret false
      else
        lex;;
        let! root := expression fuel 0 in
        let! t := gets tok in
        (if negb (bool_decide (kind t = END)) then fail_ (start t) "unexpected trailing token" else ret tt);;
        let! stop := gets failed in
        if stop then ret false
        else
          let! ok := finish_tree fuel root in
          if negb ok then ret false
          else modify (with_tree (set_root root));; ret true)
     (fun ok s' => if ok : bool then failed s' = false /\ wf_tree (tree s') else failed s' = true) (start_state t w).
Proof using.
  intros Ht Ho Hc Hfuel. destruct (start_inv t w Ho Hc) as [Hi Hf]. set (s := start_state t w) in *.
  assert (0 <= len) as Hlen by (unfold len; lia).
  eapply wp_bind; [by apply wp_charge|]. cbn beta. intros ok s1 [Hq1 Hok]. destruct ok; cbn [negb]; [|done].
  destruct Hok as (Hw1 & _ & Hf1). assert (steps s s1) as Hs1 by (intros b x _; by apply quiet_step).
  eapply wp_bind; [apply (wp_lex_step Ht); by eapply steps_inv|]. cbn beta. intros _ s2 (Hs12 & _).
  assert (steps s s2) as Hs2 by by eapply steps_trans. pose proof (steps_inv _ _ Hs2) as Hi2.
  pose proof (depth_limit_range Ho) as Hd. destruct (steps_step _ _ Hs2) as [_ Hdep Hwk _ _ _].
  change (work_remaining s) with initial_work in *. change (depth (parser s)) with 0 in *.
  eapply wp_bind; [apply (sp_expression fuel (all_specs Ht Ho fuel)); [done|]|].
  { unfold fuel_ok, need. unfold parse_fuel, K1, K2 in *. pose proof (bounded_work _ (inv_bounded _ Hi2)).
    destruct (failed s2); [lia|]. rewrite Hdep. lia. }
  cbn beta. intros root s3 [Hs23 Hr3]. apply wp_gets. assert (steps s s3) as Hs3 by by eapply steps_trans.
  eapply (wp_bind _ _ (fun _ s4 => steps s3 s4)).
  { destruct (bool_decide _); cbn [negb]; [by eapply steps_refl, steps_inv|].
    eapply wp_mono; [apply wp_fail_step; by eapply steps_inv|]. by intros _ s4 []. }
  cbn beta. intros _ s4 Hs34. apply wp_gets. destruct (failed s4) eqn:Ef4; [done|].
  assert (steps s s4) as Hs4 by exact (steps_trans _ _ _ Hs3 Hs34). pose proof (steps_inv _ _ Hs4) as Hi4.
  assert (0 <= root < count (tree s4)) as Hroot.
  { eapply result_child; [exact Hr3|unfold count; lia|done|done]. }
  destruct (steps_step _ _ Hs4) as [_ _ Hwk4 _ _ _]. change (work_remaining s) with initial_work in Hwk4.
  eapply wp_bind; [apply (wp_finish_tree root fuel); [done|done|done|]|].
  { pose proof (bounded_work _ (inv_bounded _ Hi4)). unfold parse_fuel, K1, K2 in *. lia. }
  cbn beta. intros ok s5 H5. destruct ok; cbn [negb]; [|done]. destruct H5 as [Hf5 [Hl5 Hsh]].
  split; [done|]. cbn. destruct (inv_ok _ Hi4 Ef4) as [_ Hwf]. destruct (inv_bounded _ Hi4).
  split; [unfold count in *; cbn; lia|]. cbn. intros id n Hn. destruct (Hsh id n Hn) as (m & Hm & E1 & E2 & E3 & E4 & _).
  destruct (Hwf id m Hm) as [Hsp Hfst Hnx _]. rewrite E1, E2, E3, E4. unfold pos in *. split_and!; [lia|lia|lia|done|].
  destruct Hnx as [E|(k & Hk & Hle)]; [by left|]. right.
  pose proof Hk as Hk'. apply get_at_Some in Hk' as [Hv _].
  destruct (get_at_is_Some (nodes (tree s5)) (n_next m)) as [k5 Hk5]; [lia|].
  destruct (Hsh _ _ Hk5) as (k' & Hk'' & E5 & _). exists k5. split; [done|]. rewrite Hk in Hk''. injection Hk'' as <-. lia.
Qed.

End Whole.

Definition empty_tree : ExpTree := mkTree [] 0 NONE 0 None None EXP_OK.

(** C11: The expression parser ends for every text, work callback and
    allocator: it never reads the text or the nodes out of bounds, and either
    publishes a tree whose nodes span the text, whose first children are older
    than their parents and whose siblings follow each other in the text, or
    reports an error. *)
Theorem parse_total {S : Source} (fuel : nat) (t : ExpTree) (w : W) :
  Forall is_byte text -> options_ok -> 0 <= capacity t < 2 ^ 32 -> parse_fuel <= Z.of_nat fuel ->
  exists ok s', exp_parse_with_options fuel t w = Some (ok, s')
    /\ if ok : bool then error (tree s') = None /\ wf_tree (tree s') else error (tree s') <> None.
Proof.
  intros Ht Ho Hc Hfuel. unfold exp_parse_with_options. destruct (len >? UINT32_MAX); [by eexists false, _|].
  pose proof (wp_parse_body fuel t w Ht Ho Hc Hfuel) as H. unfold wp in H.
  match goal with |- context [?m (start_state t w)] => destruct (m (start_state t w)) as [[ok s']|]; [|done] end.
  exists ok, s'. split; [done|]. destruct ok.
  - destruct H as [Hf Hw]. split; [by apply failed_error|done].
  - unfold failed in H. by destruct (error (tree s')).
Qed.
Lemma parse_total_witness :
  exists ok s', @exp_parse_with_options (sample "a[..n] + #sizeof([4]u8)") (Z.to_nat (parse_fuel (S := sample "a[..n] + #sizeof([4]u8)"))) empty_tree tt = Some (ok, s')
    /\ if ok : bool then error (tree s') = None /\ wf_tree (S := sample "a[..n] + #sizeof([4]u8)") (tree s') else error (tree s') <> None.
Proof.
  apply (parse_total (S := sample "a[..n] + #sizeof([4]u8)")).
  - apply str_bytes.
  - exact I.
  - split; [reflexivity|vm_compute; reflexivity].
  - rewrite Z2Nat.id; [reflexivity|]. vm_compute. congruence.
Defined.

(** The tree of a sum: the operands, then the operators by precedence. *)
Example parse_sum :
  match exp_parse_with_options (S := sample "a+b*c") 40 empty_tree tt with
  | Some (ok, s) => (ok, root (tree s), map (fun n => (n_start n, n_end n, n_first n, n_next n)) (nodes (tree s)))
  | None => (false, 0, [])
  end = (true, 4, [(0, 1, NONE, 3); (2, 3, NONE, 2); (4, 5, NONE, NONE); (2, 5, 1, NONE); (0, 5, 0, NONE)]).
Proof. vm_compute. reflexivity. Qed.

(** C22: Parsing an expression, speculation included, changes no node that was
    there before, leaves the nesting depth as it was and never goes back in
    the text; without an error it gives a new node. *)
Theorem expression_frame {S : Source} (fuel : nat) (minimum : Z) (s : St) :
  Forall is_byte text -> options_ok -> inv s -> fuel_ok fuel s 1 ->
  exists r s', expression fuel minimum s = Some (r, s')
    /\ depth (parser s') = depth (parser s) /\ work_remaining s' <= work_remaining s
    /\ (forall id n, get_at (nodes (tree s)) id = Some n -> get_at (nodes (tree s')) id = Some n)
    /\ (failed s' = false -> start (tok s) <= start (tok s') /\ count (tree s) <= r < count (tree s')).
Proof.
  intros Ht Ho Hi Hfuel. pose proof (sp_expression fuel (all_specs Ht Ho fuel) minimum s Hi Hfuel) as H.
  unfold parses, wp in H. destruct (expression fuel minimum s) as [[r s']|]; [|done]. destruct H as [Hs Hr].
  exists r, s'. split; [done|]. pose proof (steps_step _ _ Hs) as [_ Hd Hw _ _ _]. split; [done|]. split; [done|]. split.
  - intros id n Hn. destruct (step_frame _ _ _ _ (Hs (count (tree s)) (-1) ltac:(lia))) as [_ Hfr].
    pose proof Hn as Hr'. apply get_at_Some in Hr' as [Hid _].
    destruct (Hfr id n Hid Hn) as (n' & Hn' & [->|[? _]]); [done|lia].
  - intros Hf. split; [by apply (steps_pos _ _ Hs)|]. destruct (proj2 Hr Hf) as [HN _]. by apply Hr.
Qed.
Lemma expression_frame_witness :
  exists r s', @expression (sample "a") (Z.to_nat (parse_fuel (S := sample "a"))) 0 (start_state (S := sample "a") empty_tree tt) = Some (r, s')
    /\ depth (parser s') = 0 /\ work_remaining s' <= initial_work (S := sample "a")
    /\ (forall id n, get_at [] id = Some n -> get_at (nodes (tree s')) id = Some n)
    /\ (failed s' = false -> 0 <= start (tok s') /\ 0 <= r < count (tree s')).
Proof.
  apply (expression_frame (S := sample "a")).
  - apply str_bytes.
  - exact I.
  - apply start_inv; [exact I|]. split; [reflexivity|vm_compute; reflexivity].
  - unfold fuel_ok. rewrite Z2Nat.id; vm_compute; congruence.
Defined.
