(* ===== verification/Ir.v ===== *)
(** The IR of the compiler (src/src/dyn_ast.h, src/src/ir.h) as far as the
    passes of the development read it, and the structural validation of
    src/src/ir.c. The arrays of a program are lists, their counts the lengths
    of the lists. *)

From S2P Require Import Prelude.

(** ** Types and nodes *)

Definition DYN_NO_EXPR : Z := UINT32_MAX.
Definition DYN_TYPE_INFER : Z := 0.
Definition DYN_TYPE_ERROR : Z := 1.
Definition DYN_TYPE_VOID : Z := 2.
Definition DYN_TYPE_BOOL : Z := 3.
Definition DYN_TYPE_I8 : Z := 4.
Definition DYN_TYPE_I16 : Z := 5.
Definition DYN_TYPE_I32 : Z := 6.
Definition DYN_TYPE_I64 : Z := 7.
Definition DYN_TYPE_U8 : Z := 8.
Definition DYN_TYPE_U16 : Z := 9.
Definition DYN_TYPE_U32 : Z := 10.
Definition DYN_TYPE_U64 : Z := 11.
Definition DYN_TYPE_ISIZE : Z := 12.
Definition DYN_TYPE_USIZE : Z := 13.
Definition DYN_TYPE_ARRAY_BASE : Z := 131072.
Definition DYN_TYPE_SLICE_BASE : Z := 196608.
Definition DYN_TYPE_DISTINCT_BASE : Z := 327680.
Definition DYN_TYPE_PARAM_BASE : Z := 393216.
Definition dyn_type_is_array (t : Z) : bool := (DYN_TYPE_ARRAY_BASE <=? t) && (t <? DYN_TYPE_SLICE_BASE).
Definition dyn_type_is_distinct (t : Z) : bool := (DYN_TYPE_DISTINCT_BASE <=? t) && (t <? DYN_TYPE_PARAM_BASE).

Inductive DynExprKind :=
| DYN_EXPR_INT | DYN_EXPR_FLOAT | DYN_EXPR_BOOL | DYN_EXPR_CHAR | DYN_EXPR_STRING | DYN_EXPR_NAME
| DYN_EXPR_UNARY | DYN_EXPR_BINARY | DYN_EXPR_CONVERT | DYN_EXPR_STRUCT | DYN_EXPR_FIELD | DYN_EXPR_CALL
| DYN_EXPR_NIL | DYN_EXPR_ARRAY | DYN_EXPR_INDEX | DYN_EXPR_SLICE | DYN_EXPR_LEN | DYN_EXPR_ENUM
| DYN_EXPR_GLOBAL | DYN_EXPR_FUNCTION | DYN_EXPR_INDIRECT_CALL | DYN_EXPR_SIZE | DYN_EXPR_ALIGN
| DYN_EXPR_TYPEOF | DYN_EXPR_CAST | DYN_EXPR_BITCAST | DYN_EXPR_SYSCALL | DYN_EXPR_TYPE | DYN_EXPR_OFFSET.
Inductive DynStmtKind :=
| DYN_STMT_INVALID | DYN_STMT_LOCAL | DYN_STMT_ASSIGN | DYN_STMT_RETURN | DYN_STMT_EXPR | DYN_STMT_IF
| DYN_STMT_FOR | DYN_STMT_BREAK | DYN_STMT_CONTINUE | DYN_STMT_CASE | DYN_STMT_DEFER | DYN_STMT_PANIC.
Inductive DynOperator :=
| DYN_OP_NONE | DYN_OP_NEG | DYN_OP_NOT | DYN_OP_BIT_NOT | DYN_OP_ADDRESS | DYN_OP_DEREF
| DYN_OP_ADD | DYN_OP_SUB | DYN_OP_MUL | DYN_OP_DIV | DYN_OP_REM
| DYN_OP_EQ | DYN_OP_NE | DYN_OP_LT | DYN_OP_LE | DYN_OP_GT | DYN_OP_GE
| DYN_OP_LOGICAL_AND | DYN_OP_LOGICAL_OR | DYN_OP_BIT_AND | DYN_OP_BIT_OR | DYN_OP_BIT_XOR
| DYN_OP_SHL | DYN_OP_SHR.

#[export] Instance DynExprKind_eq_dec : EqDecision DynExprKind.
Proof. solve_decision. Defined.
#[export] Instance DynStmtKind_eq_dec : EqDecision DynStmtKind.
Proof. solve_decision. Defined.
#[export] Instance DynOperator_eq_dec : EqDecision DynOperator.
Proof. solve_decision. Defined.

Record DynIrExpr := mkExpr {
  e_kind : DynExprKind; e_type : Z; e_op : DynOperator; e_left : Z; e_right : Z; e_integer : Z;
  e_boolean : bool; e_item_start : Z; e_item_count : Z; e_wrap : bool }.
Record DynIrFunction := mkFunction {
  f_param_start : Z; f_param_count : Z; f_body_start : Z; f_body_count : Z; f_local_start : Z; f_local_count : Z;
  f_is_main : bool; f_foreign : bool; f_variadic : bool; f_is_public : bool; f_generic : bool }.
Record DynIrStmt := mkStmt {
  st_kind : DynStmtKind; st_expression : Z; st_target : Z; st_assignment_op : DynOperator; st_local_id : Z;
  st_body_start : Z; st_body_count : Z; st_else_start : Z; st_else_count : Z;
  st_loop_id : Z; st_target_loop_id : Z; st_case_arm_start : Z; st_case_arm_count : Z; st_for_range : bool }.
Record DynIrCaseArm := mkArm {
  arm_pattern_start : Z; arm_pattern_count : Z; arm_body_start : Z; arm_body_count : Z }.
Record DynIrParam := mkParam { p_type : Z; p_local_id : Z }.
Record DynIrArray := mkArray { a_element : Z; a_length : Z }.

(** The arrays of the program; [items] keeps the expressions of the items,
    [globals] the initializers, [locals] the types of the locals. *)
Record DynIrProgram := mkProgram {
  expressions : list DynIrExpr; items : list Z; params : list DynIrParam; statements : list DynIrStmt;
  ir_children : list Z; functions : list DynIrFunction; locals : list Z; arrays : list DynIrArray;
  globals : list Z; case_arms : list DynIrCaseArm; pattern_count : Z; fn_type_count : Z; struct_count : Z;
  unstable_locals : option (list bool); local_statements : option (list Z) }.

Definition count_of {A} (l : list A) : Z := Z.of_nat (length l).
Definition expression_count (p : DynIrProgram) : Z := count_of (expressions p).
Definition local_count (p : DynIrProgram) : Z := count_of (locals p).

(** ** Validation *)

Definition valid_expr_id (p : DynIrProgram) (id : Z) : bool :=
  (id =? DYN_NO_EXPR) || (id <? expression_count p).

Definition valid_expr (p : DynIrProgram) (e : DynIrExpr) : bool :=
  negb ((e_type e =? DYN_TYPE_INFER) || (e_type e =? DYN_TYPE_ERROR) || negb (valid_expr_id p (e_left e))
        || negb (valid_expr_id p (e_right e)) || (count_of (items p) <? e_item_start e + e_item_count e))
  && match e_kind e with
     | DYN_EXPR_NAME => e_integer e <? local_count p
     | DYN_EXPR_GLOBAL => e_integer e <? count_of (globals p)
     | DYN_EXPR_CALL | DYN_EXPR_FUNCTION => e_integer e <? count_of (functions p)
     | DYN_EXPR_INDIRECT_CALL => e_integer e <? fn_type_count p
     | DYN_EXPR_STRUCT => e_integer e <? struct_count p
     | _ => true
     end.
Definition valid_stmt (p : DynIrProgram) (st : DynIrStmt) : bool :=
  negb (negb (valid_expr_id p (st_expression st)) || negb (valid_expr_id p (st_target st))
        || (negb (bool_decide (st_assignment_op st = DYN_OP_NONE)) && (st_target st =? DYN_NO_EXPR))
        || (count_of (case_arms p) <? st_case_arm_start st + st_case_arm_count st))
  && match st_kind st with
     | DYN_STMT_BREAK | DYN_STMT_CONTINUE => st_target_loop_id st <? count_of (statements p)
     | DYN_STMT_FOR => st_loop_id st <? count_of (statements p)
     | _ => true
     end.
Definition valid_arm (p : DynIrProgram) (arm : DynIrCaseArm) : bool :=
  negb ((pattern_count p <? arm_pattern_start arm + arm_pattern_count arm)
        || (count_of (ir_children p) <? arm_body_start arm + arm_body_count arm)).

Definition validate_ir (p : DynIrProgram) : bool :=
  forallb (valid_expr p) (expressions p)
  && forallb (valid_expr_id p) (items p)
  && forallb (fun c => c <? count_of (statements p)) (ir_children p)
  && forallb (valid_stmt p) (statements p)
  && forallb (valid_arm p) (case_arms p).

(** The loop over [lower_type]'s aliases; [aliases] are their targets. *)
Fixpoint lower_type_loop (n : nat) (aliases : list Z) (t : Z) : option Z :=
  match n with
  | O => Some t
  | S n' =>
      if dyn_type_is_distinct t then
        let id := t - DYN_TYPE_DISTINCT_BASE in
        if count_of aliases <=? id then Some DYN_TYPE_ERROR
        else let* t := get_at aliases id in lower_type_loop n' aliases t
      else Some t
  end.
(** [guard++ <= alias_count] allows [alias_count + 1] rounds. *)
Definition lower_type (aliases : list Z) (t : Z) : option Z :=
  lower_type_loop (length aliases + 1) aliases t.

(** Lowering a type ends inside the aliases, and when an alias only refers to
    older ones nothing distinct is left. *)
Lemma lower_type_spec aliases t :
  (forall i t', get_at aliases i = Some t' -> dyn_type_is_distinct t' = true -> t' - DYN_TYPE_DISTINCT_BASE < i) ->
  exists t', lower_type aliases t = Some t' /\ dyn_type_is_distinct t' = false.
Proof.
  intros Hdec. unfold lower_type.
  assert (forall n t, (dyn_type_is_distinct t = true -> t - DYN_TYPE_DISTINCT_BASE < Z.of_nat n - 1 \/ count_of aliases <= t - DYN_TYPE_DISTINCT_BASE) ->
    (1 <= n)%nat -> exists t', lower_type_loop n aliases t = Some t' /\ dyn_type_is_distinct t' = false) as H.
  { clear t. induction n as [|n IH]; intros t Ht Hn; [lia|]. cbn [lower_type_loop].
    destruct (dyn_type_is_distinct t) eqn:Hd; [|by exists t]. specialize (Ht eq_refl). cbv zeta.
    destruct (Z.leb_spec (count_of aliases) (t - DYN_TYPE_DISTINCT_BASE)) as [|Hlt]; [by exists DYN_TYPE_ERROR|].
    pose proof Hd as Hd'. unfold dyn_type_is_distinct in Hd'. to_prop.
    destruct (get_at_is_Some aliases (t - DYN_TYPE_DISTINCT_BASE)) as [t1 Ht1]; [unfold count_of in Hlt; lia|]. rewrite Ht1.
    apply IH; [|lia]. intros Hd1. specialize (Hdec _ _ Ht1 Hd1). lia. }
  apply H; [|lia]. intros _. unfold count_of. lia.
Qed.

(** ** Concrete programs *)

Lemma get_at_indexed {A} (l : list A) i x : get_at l i = Some x -> (i, x) ∈ imap (fun k y => (Z.of_nat k, y)) l.
Proof.
  intros [Hr H]%get_at_Some. apply list_elem_of_lookup. exists (Z.to_nat i). rewrite list_lookup_imap, H. cbn. do 2 f_equal. lia.
Qed.
(** Enumerates the nodes of a concrete program. *)
Ltac enumerate H :=
  apply get_at_indexed in H; apply list_elem_of_In in H; vm_compute in H;
  repeat (destruct H as [H|H]; [injection H as <- <-|]); try (by destruct H).
