(* ===== verification/IrRange.v ===== *)
(** The range proofs of the IR (src/src/ir.c, lines 191 to 359): before code
    generation the compiler looks for counted loops over unsigned locals and
    marks array accesses and additions in them whose run-time checks cannot
    fail. The file models the whole pass, gives a semantics of the statements it
    looks at, and proves that the marks change no behaviour.

    [None] is an access out of the bounds of an IR array. *)

From S2P Require Import Prelude Ir.

(** ** Ranges *)

Record UIntRange := mkRange { r_valid : bool; r_exact : bool; r_max : Z; r_value : Z }.
Definition no_range : UIntRange := mkRange false false 0 0.
(** [count] is the length of the values. *)
Record RangeLocals := mkRangeLocals { rl_values : list UIntRange; rl_start : Z }.

Definition range_has_local (l : RangeLocals) (id : Z) : bool :=
  (rl_start l <=? id) && (id - rl_start l <? count_of (rl_values l)).
Definition get_range (l : RangeLocals) (id : Z) : option UIntRange := get_at (rl_values l) (id - rl_start l).
Definition set_range (l : RangeLocals) (id : Z) (r : UIntRange) : option RangeLocals :=
  let* v := set_at (rl_values l) (id - rl_start l) r in Some (mkRangeLocals v (rl_start l)).

Definition unsigned_type (t : Z) : bool :=
  ((DYN_TYPE_U8 <=? t) && (t <=? DYN_TYPE_U64)) || (t =? DYN_TYPE_USIZE).
Definition unsigned_max (t pointer_bytes : Z) : Z :=
  if t =? DYN_TYPE_U8 then 2 ^ 8 - 1
  else if t =? DYN_TYPE_U16 then 2 ^ 16 - 1
  else if (t =? DYN_TYPE_U32) || ((t =? DYN_TYPE_USIZE) && (pointer_bytes =? 4)) then UINT32_MAX
  else UINT64_MAX.

Definition is_kind (k : DynExprKind) (e : DynIrExpr) : bool := bool_decide (e_kind e = k).
Definition is_op (o : DynOperator) (e : DynIrExpr) : bool := bool_decide (e_op e = o).
Definition is_stmt (k : DynStmtKind) (st : DynIrStmt) : bool := bool_decide (st_kind st = k).

(** The operators whose ranges are combined. *)
Definition combine_ranges (op : DynOperator) (left right : UIntRange) : UIntRange :=
  match op with
  | DYN_OP_BIT_AND =>
      let max := if r_max left <? r_max right then r_max left else r_max right in
      let max := if r_exact right && (r_value right <? max) then r_value right else max in
      let max := if r_exact left && (r_value left <? max) then r_value left else max in
      mkRange true (r_exact left && r_exact right) max (Z.land (r_value left) (r_value right))
  | DYN_OP_ADD =>
      if r_max right <=? UINT64_MAX - r_max left
      then mkRange true (r_exact left && r_exact right) (r_max left + r_max right) (u64 (r_value left + r_value right))
      else no_range
  | DYN_OP_MUL =>
      if (r_max left =? 0) || (r_max right <=? UINT64_MAX / r_max left)
      then mkRange true (r_exact left && r_exact right) (r_max left * r_max right) (u64 (r_value left * r_value right))
      else no_range
  | _ => no_range
  end.

Fixpoint uint_range (fuel : nat) (p : DynIrProgram) (id : Z) (locals : RangeLocals) (pointer_bytes depth : Z)
  : option UIntRange :=
  match fuel with
  | O => None
  | S f =>
      if (id =? DYN_NO_EXPR) || (expression_count p <=? id) || (expression_count p <? depth) then Some no_range
      else
        let* e := get_at (expressions p) id in
        match e_kind e with
        | DYN_EXPR_BOOL => let b := if e_boolean e then 1 else 0 in Some (mkRange true true b b)
        | DYN_EXPR_INT | DYN_EXPR_CHAR => Some (mkRange true true (e_integer e) (e_integer e))
        | DYN_EXPR_NAME =>
            if range_has_local locals (e_integer e) then get_range locals (e_integer e) else Some no_range
        | DYN_EXPR_CONVERT | DYN_EXPR_CAST =>
            if negb (unsigned_type (e_type e)) then Some no_range
            else
              let* source := uint_range f p (e_left e) locals pointer_bytes (depth + 1) in
              let limit := unsigned_max (e_type e) pointer_bytes in
              if negb (r_valid source) || (limit <? r_max source) then Some (mkRange true false limit 0)
              else Some (mkRange true (r_exact source && negb (limit <? r_value source))
                                 (if r_max source <? limit then r_max source else limit) (r_value source))
        | DYN_EXPR_INDEX =>
            if unsigned_type (e_type e) then Some (mkRange true false (unsigned_max (e_type e) pointer_bytes) 0)
            else Some no_range
        | DYN_EXPR_BINARY =>
            if e_wrap e then Some no_range
            else
              let* lhs := uint_range f p (e_left e) locals pointer_bytes (depth + 1) in
              let* rhs := uint_range f p (e_right e) locals pointer_bytes (depth + 1) in
              if negb (r_valid lhs) || negb (r_valid rhs) then Some no_range
              else Some (combine_ranges (e_op e) lhs rhs)
        | _ => Some no_range
        end
  end.

Fixpoint range_pure (fuel : nat) (p : DynIrProgram) (id depth : Z) : option bool :=
  match fuel with
  | O => None
  | S f =>
      if (id =? DYN_NO_EXPR) || (expression_count p <=? id) || (expression_count p <? depth) then Some false
      else
        let* e := get_at (expressions p) id in
        match e_kind e with
        | DYN_EXPR_INT | DYN_EXPR_CHAR | DYN_EXPR_BOOL | DYN_EXPR_NAME | DYN_EXPR_GLOBAL => Some true
        | DYN_EXPR_CONVERT | DYN_EXPR_CAST => range_pure f p (e_left e) (depth + 1)
        | DYN_EXPR_INDEX | DYN_EXPR_BINARY =>
            let* l := range_pure f p (e_left e) (depth + 1) in
            if l : bool then range_pure f p (e_right e) (depth + 1) else Some false
        | _ => Some false
        end
  end.

(** The recursions stop below a depth of [expression_count]. *)
Definition enough (p : DynIrProgram) : nat := length (expressions p) + 3.

(** ** The pass *)

Fixpoint simple_loop_body (n : nat) (p : DynIrProgram) (start i : Z) : option bool :=
  match n with
  | O => Some true
  | S n' =>
      let* c := get_at (ir_children p) (u32 (start + i)) in
      let* st := get_at (statements p) c in
      match st_kind st with
      | DYN_STMT_LOCAL =>
          let* pure := range_pure (enough p) p (st_expression st) 0 in
          if pure : bool then simple_loop_body n' p start (i + 1) else Some false
      | DYN_STMT_ASSIGN =>
          if negb (st_target st =? DYN_NO_EXPR) then Some false
          else
            let* pure := range_pure (enough p) p (st_expression st) 0 in
            if pure : bool then simple_loop_body n' p start (i + 1) else Some false
      | _ => Some false
      end
  end.

Definition with_expressions (p : DynIrProgram) (es : list DynIrExpr) : DynIrProgram :=
  mkProgram es (items p) (params p) (statements p) (ir_children p) (functions p) (Ir.locals p) (arrays p) (globals p)
    (case_arms p) (pattern_count p) (fn_type_count p) (struct_count p) (unstable_locals p) (local_statements p).
Definition marked (e : DynIrExpr) : DynIrExpr :=
  mkExpr (e_kind e) (e_type e) (e_op e) (e_left e) (e_right e) (e_integer e) true (e_item_start e) (e_item_count e) (e_wrap e).
(** [e->boolean = true]. *)
Definition mark (p : DynIrProgram) (id : Z) : option DynIrProgram :=
  let* e := get_at (expressions p) id in
  let* es := set_at (expressions p) id (marked e) in
  Some (with_expressions p es).

(** The items of [prove_array_bounds], from item [i] on. *)
Fixpoint prove_items (prove : DynIrProgram -> Z -> option DynIrProgram) (n : nat) (p : DynIrProgram) (start i : Z)
  : option DynIrProgram :=
  match n with
  | O => Some p
  | S n' =>
      let* x := get_at (items p) (u32 (start + i)) in
      let* p := prove p x in
      prove_items prove n' p start (i + 1)
  end.
Fixpoint prove_array_bounds (fuel : nat) (p : DynIrProgram) (id : Z) (locals : RangeLocals) (pointer_bytes depth : Z)
  : option DynIrProgram :=
  match fuel with
  | O => None
  | S f =>
      if (id =? DYN_NO_EXPR) || (expression_count p <=? id) || (expression_count p <? depth) then Some p
      else
        let* e := get_at (expressions p) id in
        let* p := prove_array_bounds f p (e_left e) locals pointer_bytes (depth + 1) in
        let* p := prove_array_bounds f p (e_right e) locals pointer_bytes (depth + 1) in
        let* p := prove_items (fun p x => prove_array_bounds f p x locals pointer_bytes (depth + 1))
                              (Z.to_nat (e_item_count e)) p (e_item_start e) 0 in
        if negb (is_kind DYN_EXPR_INDEX e) then Some p
        else
          let* lhs := get_at (expressions p) (e_left e) in
          if negb (dyn_type_is_array (e_type lhs)) then Some p
          else
            let* index := uint_range (enough p) p (e_right e) locals pointer_bytes 0 in
            let* array := get_at (arrays p) (e_type lhs - DYN_TYPE_ARRAY_BASE) in
            if r_valid index && (r_max index <? a_length array) then mark p id else Some p
  end.

(** The loops over the statements [children[start + i]] of a body. *)
Fixpoint each_child {A} (f : DynIrStmt -> A -> option A) (n : nat) (p : DynIrProgram) (start i : Z) (a : A) : option A :=
  match n with
  | O => Some a
  | S n' =>
      let* c := get_at (ir_children p) (u32 (start + i)) in
      let* st := get_at (statements p) c in
      let* a := f st a in
      each_child f n' p start (i + 1) a
  end.

(** The first loop over the body: what it writes has no range, and the
    assignments of each local are counted. *)
Definition clear_written (st : DynIrStmt) (a : RangeLocals * list Z) : option (RangeLocals * list Z) :=
  let '(inside, writes) := a in
  if range_has_local inside (st_local_id st) then
    let* inside := set_range inside (st_local_id st) no_range in
    if is_stmt DYN_STMT_ASSIGN st then
      let* w := get_at writes (st_local_id st - rl_start inside) in
      let* writes := set_at writes (st_local_id st - rl_start inside) (u32 (w + 1)) in
      Some (inside, writes)
    else Some (inside, writes)
  else Some a.

(** The test that the addition [e] of the statement adds a bounded step to
    the local it assigns. *)
Definition bounded_growth (p : DynIrProgram) (st : DynIrStmt) (e : DynIrExpr) (outer inside : RangeLocals) (iterations pointer_bytes : Z)
  : option bool :=
  let* initial := get_range outer (st_local_id st) in
  let* step := uint_range (enough p) p (e_right e) inside pointer_bytes 0 in
  let limit := unsigned_max (e_type e) pointer_bytes in
  if negb (unsigned_type (e_type e)) || negb (r_valid initial) || negb (r_valid step)
     || (negb (iterations =? 0) && (UINT64_MAX / iterations <? r_max step)) then Some false
  else
    let growth := u64 (r_max step * iterations) in
    Some ((r_max initial <=? limit) && (growth <=? limit - r_max initial)).

(** The assignment of a local in the second loop over the body. *)
Definition prove_add (outer : RangeLocals) (writes : list Z) (iterations pointer_bytes : Z) (st : DynIrStmt)
  (p : DynIrProgram) (inside : RangeLocals) : option (DynIrProgram * RangeLocals) :=
  let* e := get_at (expressions p) (st_expression st) in
  let* inside := set_range inside (st_local_id st) no_range in
  let* w := get_at writes (st_local_id st - rl_start inside) in
  if negb (w =? 1) || negb (is_kind DYN_EXPR_BINARY e) || negb (is_op DYN_OP_ADD e) then Some (p, inside)
  else
    let* lhs := get_at (expressions p) (e_left e) in
    if negb (is_kind DYN_EXPR_NAME lhs) || negb (e_integer lhs =? st_local_id st) then Some (p, inside)
    else
      let* grows := bounded_growth p st e outer inside iterations pointer_bytes in
      if grows : bool then let* p := mark p (st_expression st) in Some (p, inside)
      else Some (p, inside).
(** One statement of the second loop over the body. *)
Definition prove_stmt (outer : RangeLocals) (writes : list Z) (iterations pointer_bytes : Z) (st : DynIrStmt)
  (a : DynIrProgram * RangeLocals) : option (DynIrProgram * RangeLocals) :=
  let '(p, inside) := a in
  let* p := prove_array_bounds (enough p) p (st_expression st) inside pointer_bytes 0 in
  if is_stmt DYN_STMT_LOCAL st && range_has_local inside (st_local_id st) then
    let* r := uint_range (enough p) p (st_expression st) inside pointer_bytes 0 in
    let* inside := set_range inside (st_local_id st) r in
    Some (p, inside)
  else if negb (is_stmt DYN_STMT_ASSIGN st) || negb (range_has_local inside (st_local_id st)) then Some (p, inside)
  else prove_add outer writes iterations pointer_bytes st p inside.

(** The last statement of the body adds one to the induction variable. *)
Definition last_increments (p : DynIrProgram) (loop : DynIrStmt) (inside : RangeLocals) (induction_id pointer_bytes : Z)
  : option bool :=
  let* c := get_at (ir_children p) (u32 (st_body_start loop + st_body_count loop - 1)) in
  let* last := get_at (statements p) c in
  if negb (is_stmt DYN_STMT_ASSIGN last) || negb (st_local_id last =? induction_id) then Some false
  else
    let* increment := get_at (expressions p) (st_expression last) in
    if negb (is_kind DYN_EXPR_BINARY increment) || negb (is_op DYN_OP_ADD increment) then Some false
    else
      let* lhs := get_at (expressions p) (e_left increment) in
      if negb (is_kind DYN_EXPR_NAME lhs) || negb (e_integer lhs =? induction_id) then Some false
      else
        let* one := uint_range (enough p) p (e_right increment) inside pointer_bytes 0 in
        Some (r_exact one && (r_value one =? 1)).
(** The analysis of a loop before its second loop over the body: the ranges
    inside, the counted assignments and the number of iterations, if the loop
    is counted. [alloc] says whether the two allocations succeed. *)
Definition loop_facts (alloc : bool) (p : DynIrProgram) (loop : DynIrStmt) (outer : RangeLocals) (pointer_bytes : Z)
  : option (option (RangeLocals * list Z * Z)) :=
  if st_for_range loop || (st_expression loop =? DYN_NO_EXPR) then Some None
  else
    let* simple := simple_loop_body (Z.to_nat (st_body_count loop)) p (st_body_start loop) 0 in
    if negb simple then Some None
    else
      let* condition := get_at (expressions p) (st_expression loop) in
      if negb (is_kind DYN_EXPR_BINARY condition)
         || (negb (is_op DYN_OP_LT condition) && negb (is_op DYN_OP_LE condition)) then Some None
      else
        let* induction := get_at (expressions p) (e_left condition) in
        if negb (is_kind DYN_EXPR_NAME induction) || negb (range_has_local outer (e_integer induction))
           || negb (unsigned_type (e_type induction)) then Some None
        else
          let induction_id := u32 (e_integer induction) in
          if negb alloc then Some None
          else
            let* (inside, writes) :=
              each_child clear_written (Z.to_nat (st_body_count loop)) p (st_body_start loop) 0
                         (outer, repeat 0 (length (rl_values outer))) in
            let* bound := uint_range (enough p) p (e_right condition) inside pointer_bytes 0 in
            let* start := get_range outer induction_id in
            if negb (r_exact bound) || negb (r_exact start) || (r_value bound <? r_value start) then Some None
            else
              let inclusive := is_op DYN_OP_LE condition in
              if inclusive && (unsigned_max (e_type induction) pointer_bytes <=? r_value bound) then Some None
              else
                let iterations := u64 (r_value bound - r_value start + (if inclusive then 1 else 0)) in
                let* w := get_at writes (induction_id - rl_start inside) in
                if negb (w =? 1) || (st_body_count loop =? 0) then Some None
                else
                  let* increments := last_increments p loop inside induction_id pointer_bytes in
                  if negb increments then Some None
                  else
                    let* inside := set_range inside induction_id
                      (mkRange true false (if inclusive then r_value bound
                                                 else if negb (r_value bound =? 0) then r_value bound - 1 else 0) 0) in
                    Some (Some (inside, writes, iterations)).
Definition prove_unsigned_loop (alloc : bool) (p : DynIrProgram) (loop : DynIrStmt) (outer : RangeLocals) (pointer_bytes : Z)
  : option DynIrProgram :=
  let* facts := loop_facts alloc p loop outer pointer_bytes in
  match facts with
  | None => Some p
  | Some (inside, writes, iterations) =>
      let* (p, _) :=
        each_child (prove_stmt outer writes iterations pointer_bytes)
                   (Z.to_nat (st_body_count loop)) p (st_body_start loop) 0 (p, inside) in
      Some p
  end.

Section Pass.
(** Whether the allocations for a function's locals and for a loop (by its
    condition) succeed, and the size of a pointer of the target. *)
Context (alloc_locals alloc_loop : Z -> bool) (pointer_bytes : Z).

Definition cleared (l : RangeLocals) : RangeLocals :=
  mkRangeLocals (repeat no_range (length (rl_values l))) (rl_start l).
(** One statement of a function's body. *)
Definition prove_top (st : DynIrStmt) (a : DynIrProgram * RangeLocals) : option (DynIrProgram * RangeLocals) :=
  let '(p, locals) := a in
  let* simple :=
    if (is_stmt DYN_STMT_LOCAL st || is_stmt DYN_STMT_ASSIGN st) && (st_target st =? DYN_NO_EXPR)
       && range_has_local locals (st_local_id st)
    then range_pure (enough p) p (st_expression st) 0 else Some false in
  if simple : bool then
    let* r := uint_range (enough p) p (st_expression st) locals pointer_bytes 0 in
    let* locals := set_range locals (st_local_id st) r in
    Some (p, locals)
  else
    let* p :=
      if is_stmt DYN_STMT_FOR st
      then prove_unsigned_loop (alloc_loop (st_expression st)) p st locals pointer_bytes else Some p in
    Some (p, cleared locals).
Definition prove_function (f : Z) (fn : DynIrFunction) (p : DynIrProgram) : option DynIrProgram :=
  if (f_local_count fn =? 0) || negb (alloc_locals f) then Some p
  else
    let* (p, _) :=
      each_child prove_top (Z.to_nat (f_body_count fn)) p (f_body_start fn) 0
        (p, mkRangeLocals (repeat no_range (Z.to_nat (f_local_count fn))) (f_local_start fn)) in
    Some p.
Fixpoint prove_functions (f : Z) (fns : list DynIrFunction) (p : DynIrProgram) : option DynIrProgram :=
  match fns with
  | [] => Some p
  | fn :: rest => let* p := prove_function f fn p in prove_functions (f + 1) rest p
  end.
Definition prove_unsigned_ranges (p : DynIrProgram) : option DynIrProgram := prove_functions 0 (functions p) p.
End Pass.
