(* ===== verification/IrRangeSpec.v ===== *)
(** Correctness of the range proofs of [IrRange]: a semantics of the
    statements the pass looks at, in which a marked node is not checked and
    undefined where its check would fail, and the proof that the program with
    the marks behaves as the one without them. *)

From S2P Require Import Prelude Ir IrRange.

(** ** Semantics *)

(** Integers are 64-bit words, sign-extended for signed types; every other
    value is opaque. *)
Inductive val := Word (z : Z) | Ref (tag : Z).
#[export] Instance val_eq_dec : EqDecision val.
Proof. solve_decision. Defined.
Inductive outcome (A : Type) := Value (a : A) | Panic | Undefined.
Arguments Value {A} _.
Arguments Panic {A}.
Arguments Undefined {A}.
Definition env := Z -> val.
Definition update (s : env) (x : Z) (v : val) : env := fun y => if y =? x then v else s y.

(** Where a statement leaves to: the next one, out of the loop, to its next
    test, or out of the function. *)
Inductive flow := Next | Break | Continue | Leave.
#[export] Instance flow_eq_dec : EqDecision flow.
Proof. solve_decision. Defined.

(** What the pass does not depend on: globals, memory behind arrays and
    slices (which may alias anything), the other operators and conversions
    ([None] is a failed check), and all other statements and conditions,
    which may write any local and leave anywhere. *)
Class Machine := {
  pointer_size : Z;
  global_value : env -> Z -> val;
  element : env -> val -> Z -> val;
  dynamic_length : env -> val -> Z;
  other_op : DynOperator -> Z -> bool -> val -> val -> option val;
  convert_traps : DynExprKind -> Z -> Z -> bool;
  convert : DynExprKind -> Z -> val -> option val;
  other_condition : Z -> env -> option (outcome (env * val));
  other_stmt : Z -> env -> option (outcome (env * flow)) }.

(** [let+] sequences evaluations: [None] is out of fuel. *)
Notation "'let+' x ':=' c 'in' k" :=
  (match c with Some (Value x) => k | Some Panic => Some Panic | Some Undefined => Some Undefined | None => None end)
  (at level 10, x pattern, c at level 100, k at level 200, format "'let+'  x  ':='  c  'in' '//' k") : dyn_scope.

Section Semantics.
Context {M : Machine}.

Definition umax (t : Z) : Z := unsigned_max t pointer_size.
Definition of_bool (b : bool) : Z := if b then 1 else 0.

Definition signed_width (t : Z) : option Z :=
  if t =? DYN_TYPE_I8 then Some 8 else if t =? DYN_TYPE_I16 then Some 16 else if t =? DYN_TYPE_I32 then Some 32
  else if t =? DYN_TYPE_I64 then Some 64 else if t =? DYN_TYPE_ISIZE then Some (8 * pointer_size) else None.
Definition exact_op (op : DynOperator) (a b : Z) : Z := if bool_decide (op = DYN_OP_MUL) then a * b else a + b.
(** The sum or product at type [t], when it is representable. *)
Definition arith (op : DynOperator) (t a b : Z) : option Z :=
  if unsigned_type t then let x := exact_op op a b in if (0 <=? x) && (x <=? umax t) then Some x else None
  else
    match signed_width t with
    | Some w =>
        let x := exact_op op (i64 a) (i64 b) in
        if (- 2 ^ (w - 1) <=? x) && (x <? 2 ^ (w - 1)) then Some (u64 x) else None
    | None => None
    end.
Definition wrap_to (t x : Z) : Z := x mod (umax t + 1).

(** A value of an unsigned type is truncated to it when it is read. *)
Definition load (t : Z) (v : val) : outcome val :=
  if unsigned_type t then match v with Word z => Value (Word (wrap_to t z)) | Ref _ => Undefined end else Value v.

Definition binop (e : DynIrExpr) (tl : Z) (l r : val) : outcome val :=
  let other := match other_op (e_op e) (e_type e) (e_wrap e) l r with Some v => load (e_type e) v | None => Panic end in
  match l, r with
  | Word a, Word b =>
      match e_op e with
      | DYN_OP_BIT_AND => Value (Word (Z.land a b))
      | DYN_OP_ADD | DYN_OP_MUL =>
          if e_wrap e then
            if unsigned_type (e_type e) then Value (Word (wrap_to (e_type e) (exact_op (e_op e) a b))) else other
          else
            match arith (e_op e) (e_type e) a b with
            | Some x => Value (Word x)
            | None => if e_boolean e then Undefined else Panic
            end
      | DYN_OP_LT => if unsigned_type tl then Value (Word (of_bool (a <? b))) else other
      | DYN_OP_LE => if unsigned_type tl then Value (Word (of_bool (a <=? b))) else other
      | _ => other
      end
  | _, _ => other
  end.

Definition convert_value (e : DynIrExpr) (v : val) : outcome val :=
  let slow := match convert (e_kind e) (e_type e) v with Some v => load (e_type e) v | None => Panic end in
  match v with
  | Word z =>
      if unsigned_type (e_type e) && (0 <=? z) && (z <=? umax (e_type e))
      then if convert_traps (e_kind e) (e_type e) z then Panic else Value v
      else slow
  | Ref _ => slow
  end.
Definition length_of (p : DynIrProgram) (s : env) (t : Z) (base : val) : Z :=
  if dyn_type_is_array t then
    match get_at (arrays p) (t - DYN_TYPE_ARRAY_BASE) with Some a => a_length a | None => 0 end
  else dynamic_length s base.
Definition index_value (p : DynIrProgram) (s : env) (e : DynIrExpr) (tl : Z) (base i : val) : outcome val :=
  match i with
  | Word n =>
      if (0 <=? n) && (n <? length_of p s tl base) then load (e_type e) (element s base n)
      else if e_boolean e then Undefined else Panic
  | Ref _ => Undefined
  end.

Definition type_of (p : DynIrProgram) (id : Z) : Z :=
  match get_at (expressions p) id with Some e => e_type e | None => 0 end.

(** The expressions that have no effect: constants, variables, conversions,
    accesses and operators, in a tree. The others are not evaluated here. *)
Fixpoint effect_free (fuel : nat) (p : DynIrProgram) (id : Z) : bool :=
  match fuel with
  | O => false
  | S f =>
      match get_at (expressions p) id with
      | None => false
      | Some e =>
          match e_kind e with
          | DYN_EXPR_INT | DYN_EXPR_CHAR | DYN_EXPR_BOOL | DYN_EXPR_NAME | DYN_EXPR_GLOBAL => true
          | DYN_EXPR_CONVERT | DYN_EXPR_CAST => effect_free f p (e_left e)
          | DYN_EXPR_INDEX | DYN_EXPR_BINARY => effect_free f p (e_left e) && effect_free f p (e_right e)
          | _ => false
          end
      end
  end.
(** A tree is not nested deeper than there are expressions. *)
Definition plain (p : DynIrProgram) (id : Z) : bool := effect_free (length (expressions p) + 4) p id.
Fixpoint eval (fuel : nat) (p : DynIrProgram) (s : env) (id : Z) : option (outcome val) :=
  match fuel with
  | O => None
  | S f =>
      match get_at (expressions p) id with
      | None => Some Undefined
      | Some e =>
          match e_kind e with
          | DYN_EXPR_INT | DYN_EXPR_CHAR => Some (Value (Word (e_integer e)))
          | DYN_EXPR_BOOL => Some (Value (Word (of_bool (e_boolean e))))
          | DYN_EXPR_NAME => Some (load (e_type e) (s (e_integer e)))
          | DYN_EXPR_GLOBAL => Some (load (e_type e) (global_value s (e_integer e)))
          | DYN_EXPR_CONVERT | DYN_EXPR_CAST => let+ v := eval f p s (e_left e) in Some (convert_value e v)
          | DYN_EXPR_INDEX =>
              let+ base := eval f p s (e_left e) in
              let+ i := eval f p s (e_right e) in
              Some (index_value p s e (type_of p (e_left e)) base i)
          | DYN_EXPR_BINARY =>
              let+ l := eval f p s (e_left e) in
              if bool_decide (e_op e = DYN_OP_LOGICAL_AND /\ l = Word 0 \/ e_op e = DYN_OP_LOGICAL_OR /\ l = Word 1)
              then Some (load (e_type e) l)
              else
                let+ r := eval f p s (e_right e) in
                Some (binop e (type_of p (e_left e)) l r)
          | _ => Some Undefined
          end
      end
  end.

Definition stmt_at (p : DynIrProgram) (c : Z) : option DynIrStmt := get_at (statements p) c.
(** The statements of a body. *)
Definition body (p : DynIrProgram) (start count : Z) : list Z :=
  take (Z.to_nat count) (drop (Z.to_nat start) (ir_children p)).
Definition loop_body (p : DynIrProgram) (loop : DynIrStmt) : list Z := body p (st_body_start loop) (st_body_count loop).
Definition fn_body (p : DynIrProgram) (fn : DynIrFunction) : list Z := body p (f_body_start fn) (f_body_count fn).

(** A declaration or an assignment of a local. *)
Definition writes_local (st : DynIrStmt) : bool :=
  is_stmt DYN_STMT_LOCAL st || (is_stmt DYN_STMT_ASSIGN st && (st_target st =? DYN_NO_EXPR)).
Definition local_stmt (p : DynIrProgram) (st : DynIrStmt) : bool := writes_local st && plain p (st_expression st).
Definition run_stmt (fuel : nat) (p : DynIrProgram) (s : env) (c : Z) : option (outcome (env * flow)) :=
  match stmt_at p c with
  | Some st =>
      if local_stmt p st
      then let+ v := eval fuel p s (st_expression st) in Some (Value (update s (st_local_id st) v, Next))
      else other_stmt c s
  | None => Some Undefined
  end.
Fixpoint run_body (fuel : nat) (p : DynIrProgram) (s : env) (cs : list Z) : option (outcome (env * flow)) :=
  match cs with
  | [] => Some (Value (s, Next))
  | c :: cs =>
      let+ (s, f) := run_stmt fuel p s c in
      match f with Next => run_body fuel p s cs | _ => Some (Value (s, f)) end
  end.
Definition run_condition (fuel : nat) (p : DynIrProgram) (s : env) (id : Z) : option (outcome (env * val)) :=
  if plain p id then let+ v := eval fuel p s id in Some (Value (s, v)) else other_condition id s.
Fixpoint run_loop (n fuel : nat) (p : DynIrProgram) (loop : DynIrStmt) (s : env) : option (outcome (env * flow)) :=
  match n with
  | O => None
  | S n =>
      let+ (s, c) := run_condition fuel p s (st_expression loop) in
      if bool_decide (c = Word 0) then Some (Value (s, Next))
      else
        let+ (s, f) := run_body fuel p s (loop_body p loop) in
        match f with
        | Next | Continue => run_loop n fuel p loop s
        | Break => Some (Value (s, Next))
        | Leave => Some (Value (s, Leave))
        end
  end.

(** A loop with a condition. *)
Definition while_loop (st : DynIrStmt) : bool :=
  is_stmt DYN_STMT_FOR st && negb (st_for_range st) && negb (st_expression st =? DYN_NO_EXPR).
(** One statement of a function. *)
Definition run_top (n fuel : nat) (p : DynIrProgram) (s : env) (c : Z) : option (outcome (env * flow)) :=
  match stmt_at p c with
  | Some st => if while_loop st then run_loop n fuel p st s else run_stmt fuel p s c
  | None => Some Undefined
  end.
Fixpoint run_function (n fuel : nat) (p : DynIrProgram) (s : env) (cs : list Z) : option (outcome (env * flow)) :=
  match cs with
  | [] => Some (Value (s, Next))
  | c :: cs =>
      let+ (s, f) := run_top n fuel p s c in
      match f with Next => run_function n fuel p s cs | _ => Some (Value (s, f)) end
  end.

(** ** Ranges hold what is evaluated *)

Definition in_range (r : UIntRange) (v : val) : Prop :=
  (r_exact r = true -> r_valid r = true)
  /\ (r_valid r = true -> exists z, v = Word z /\ 0 <= z <= r_max r /\ r_max r <= UINT64_MAX
                                    /\ (r_exact r = true -> z = r_value r)).
(** A value of the type the local [x] has where it is named. *)
Definition typed_local (p : DynIrProgram) (x : Z) (v : val) : Prop :=
  forall id e, get_at (expressions p) id = Some e -> e_kind e = DYN_EXPR_NAME -> e_integer e = x ->
  unsigned_type (e_type e) = true -> exists z, v = Word z /\ 0 <= z <= umax (e_type e).
Definition respects (p : DynIrProgram) (l : RangeLocals) (s : env) : Prop :=
  forall x r, range_has_local l x = true -> get_range l x = Some r ->
  in_range r (s x) /\ (r_valid r = true -> typed_local p x (s x)).
Definition words (p : DynIrProgram) : Prop :=
  forall id e, get_at (expressions p) id = Some e -> 0 <= e_integer e <= UINT64_MAX.

Lemma no_range_in v : in_range no_range v.
Proof. by split. Qed.
Lemma in_range_valid r z : r_valid r = true -> 0 <= z <= r_max r -> r_max r <= UINT64_MAX ->
  (r_exact r = true -> z = r_value r) -> in_range r (Word z).
Proof. intros. split; [done|]. intros _. exists z. done. Qed.
Lemma unsigned_max_range t pb : 255 <= unsigned_max t pb <= UINT64_MAX.
Proof. unfold unsigned_max, UINT64_MAX, UINT32_MAX. repeat split_if; lia. Qed.
Lemma wrap_to_range t x : 0 <= wrap_to t x <= umax t.
Proof. unfold wrap_to, umax. pose proof (unsigned_max_range t pointer_size). pose proof (Z.mod_pos_bound x (unsigned_max t pointer_size + 1)). lia. Qed.
#[local] Hint Resolve no_range_in : dyn.

Lemma to_signed_mod x : i64 x mod 2 ^ 64 = x mod 2 ^ 64.
Proof.
  unfold i64, to_signed, wrap. cbv zeta. split_if.
  - by rewrite Z.mod_mod.
  - rewrite <- (Z.mod_mod x (2 ^ 64)) at 2 by lia. rewrite <- (Z.mod_add (x mod 2 ^ 64 - 2 ^ 64) 1) by lia. f_equal. lia.
Qed.

(** A representable sum or product of words, whatever its type, is the sum
    or product of the words when that is a word. *)
Lemma arith_word op t a b x :
  0 <= exact_op op a b <= UINT64_MAX -> arith op t a b = Some x -> x = exact_op op a b.
Proof.
  intros Hr H. unfold arith in H. split_if_in H; [split_if_in H; by simplify_eq|].
  destruct (signed_width t) as [w|]; [|done]. split_if_in H; [|done]. simplify_eq.
  unfold u64, wrap. rewrite <- (Z.mod_small (exact_op op a b) (2 ^ 64)) by (unfold UINT64_MAX in Hr; lia).
  unfold exact_op. split_if.
  - by rewrite Zmult_mod, !to_signed_mod, <- Zmult_mod.
  - by rewrite Zplus_mod, !to_signed_mod, <- Zplus_mod.
Qed.

Lemma land_le a b : 0 <= a -> 0 <= Z.land a b <= a.
Proof.
  intros Ha. split; [apply Z.land_nonneg; lia|].
  rewrite <- (Z.add_0_r a) at 2. replace a with (Z.land a b + Z.ldiff a b) at 2.
  - pose proof (proj2 (Z.ldiff_nonneg a b)). lia.
  - rewrite Z.add_nocarry_lxor, Z.lxor_lor.
    + apply Z.bits_inj'. intros i Hi. rewrite Z.lor_spec, Z.land_spec, Z.ldiff_spec. by destruct (Z.testbit a i), (Z.testbit b i).
    + apply Z.bits_inj'. intros i Hi. rewrite !Z.land_spec, Z.ldiff_spec, Z.bits_0. by destruct (Z.testbit a i), (Z.testbit b i).
    + apply Z.bits_inj'. intros i Hi. rewrite !Z.land_spec, Z.ldiff_spec, Z.bits_0. by destruct (Z.testbit a i), (Z.testbit b i).
Qed.

Lemma combine_sound e tl rl rr l r v :
  e_wrap e = false -> r_valid rl = true -> r_valid rr = true -> in_range rl l -> in_range rr r ->
  binop e tl l r = Value v -> in_range (combine_ranges (e_op e) rl rr) v.
Proof.
  intros Hw Hl Hr [_ Hil] [_ Hir] Hv.
  destruct (Hil Hl) as (a & -> & Ha & Hma & Hea). destruct (Hir Hr) as (b & -> & Hb & Hmb & Heb).
  unfold binop in Hv. rewrite Hw in Hv. unfold combine_ranges. destruct (e_op e); try apply no_range_in.
  - split_if; [|apply no_range_in]. to_prop.
    destruct (arith _ _ _ _) as [x|] eqn:Hx; [|by destruct (e_boolean e)]. simplify_eq.
    apply arith_word in Hx; unfold exact_op in *; rewrite bool_decide_false in * by done; [|lia]. subst x.
    apply in_range_valid; cbn; [done|lia|lia|]. intros [Ea Eb]%andb_true_iff.
    rewrite <- Hea, <- Heb by done. symmetry. apply u64_small. unfold UINT64_MAX in *. lia.
  - destruct (_ || _) eqn:Hm; [|apply no_range_in].
    assert (r_max rl * r_max rr <= UINT64_MAX) as Hp.
    { to_prop. destruct Hm as [->|Hm]; [unfold UINT64_MAX; lia|].
      destruct (Z.eq_dec (r_max rl) 0) as [->|]; [unfold UINT64_MAX; lia|].
      pose proof (Z.mul_div_le UINT64_MAX (r_max rl)). nia. }
    destruct (arith _ _ _ _) as [x|] eqn:Hx; [|by destruct (e_boolean e)]. simplify_eq.
    apply arith_word in Hx; unfold exact_op in *; rewrite bool_decide_true in * by done; [|nia]. subst x.
    apply in_range_valid; cbn; [done|nia|done|]. intros [Ea Eb]%andb_true_iff.
    rewrite <- Hea, <- Heb by done. symmetry. apply u64_small. unfold UINT64_MAX in *. nia.
  - simplify_eq. pose proof (land_le a b). pose proof (land_le b a). rewrite (Z.land_comm b a) in *.
    destruct (r_exact rl) eqn:Ea, (r_exact rr) eqn:Eb; cbn [andb];
      try rewrite <- (Hea eq_refl); try rewrite <- (Heb eq_refl);
      apply in_range_valid; cbn; try done; repeat split_if; to_prop; lia.
Qed.

Lemma convert_sound e v v' :
  unsigned_type (e_type e) = true -> convert_value e v = Value v' ->
  exists z, v' = Word z /\ 0 <= z <= umax (e_type e) /\ (forall y, v = Word y -> 0 <= y <= umax (e_type e) -> z = y).
Proof.
  intros Hu H. unfold convert_value in H. rewrite Hu in H. cbn [andb] in H.
  assert (match convert (e_kind e) (e_type e) v with Some v => load (e_type e) v | None => Panic end = Value v' ->
          exists z, v' = Word z /\ 0 <= z <= umax (e_type e)) as Hslow.
  { destruct (convert _ _ _) as [w|]; [|done]. unfold load. rewrite Hu. destruct w as [z|]; [|done].
    intros [=<-]. eexists. split; [done|]. apply wrap_to_range. }
  destruct v as [z|].
  - destruct (_ && _) eqn:Hf.
    + to_prop. destruct (convert_traps _ _ _); [done|]. simplify_eq. exists z. split; [done|]. split; [lia|]. intros. by simplify_eq.
    + destruct (Hslow H) as (z' & -> & Hz). exists z'. split; [done|]. split; [lia|]. intros y [=<-] Hy.
      rewrite (proj2 (Z.leb_le _ _)), (proj2 (Z.leb_le _ _)) in Hf by lia. done.
  - destruct (Hslow H) as (z' & -> & Hz). exists z'. done.
Qed.

Lemma index_range p s e tl base i v :
  unsigned_type (e_type e) = true -> index_value p s e tl base i = Value v -> exists z, v = Word z /\ 0 <= z <= umax (e_type e).
Proof.
  intros Hu H. unfold index_value in H. destruct i as [n|]; [|done]. split_if_in H; [|by destruct (e_boolean e)].
  unfold load in H. rewrite Hu in H. destruct (element s base n) as [z|]; [|done]. simplify_eq.
  eexists. split; [done|]. apply wrap_to_range.
Qed.
Lemma convert_range e rl a v r :
  unsigned_type (e_type e) = true -> in_range rl a -> convert_value e a = Value v ->
  (if negb (r_valid rl) || (umax (e_type e) <? r_max rl) then Some (mkRange true false (umax (e_type e)) 0)
   else Some (mkRange true (r_exact rl && negb (umax (e_type e) <? r_value rl))
                      (if r_max rl <? umax (e_type e) then r_max rl else umax (e_type e)) (r_value rl))) = Some r ->
  in_range r v.
Proof.
  intros Hu [_ Ha] Hv H. apply convert_sound in Hv as (z & -> & Hz & Hsame); [|done].
  pose proof (unsigned_max_range (e_type e) pointer_size) as Hmax. fold (umax (e_type e)) in Hmax.
  destruct (_ || _) eqn:Hb; simplify_eq; [apply in_range_valid; cbn; (lia || done)|]. to_prop. destruct Hb as [Hval Hm].
  destruct (Ha Hval) as (y & -> & Hy & _ & Hex). pose proof (Hsame y eq_refl ltac:(lia)) as ->.
  apply in_range_valid; cbn; [done|split_if; to_prop; lia|split_if; to_prop; lia|].
  intros [He _]%andb_true_iff. by apply Hex.
Qed.

(** The range of an expression holds its value in every state the ranges of
    the locals hold in. *)
Lemma uint_range_sound p l s : words p -> respects p l s ->
  forall f id depth r g v, uint_range f p id l pointer_size depth = Some r -> eval g p s id = Some (Value v) -> in_range r v.
Proof.
  intros Hw Hs. induction f as [|f IH]; intros id depth r g v H Hv; [done|]. cbn [uint_range] in H.
  destruct (_ || _); [simplify_eq; apply no_range_in|]. destruct g as [|g]; [done|]. cbn [eval] in Hv.
  destruct (get_at (expressions p) id) as [e|] eqn:He; [|done]. pose proof (Hw _ _ He) as Hi.
  destruct (e_kind e) eqn:Hk; simplify_eq; try apply no_range_in.
  - apply in_range_valid; cbn; (done || lia).
  - apply in_range_valid; cbn; [done|unfold of_bool; destruct (e_boolean e); lia|destruct (e_boolean e); done|done].
  - apply in_range_valid; cbn; (done || lia).
  - split_if_in H; [|simplify_eq; apply no_range_in]. destruct (Hs _ _ Heqb H) as [[Hev Hin] Ht]. split; [done|].
    intros Hval. destruct (Hin Hval) as (z & Hz & Hzr). rewrite Hz in Hv. unfold load in Hv.
    destruct (unsigned_type (e_type e)) eqn:Hu; simplify_eq; [|by exists z].
    destruct (Ht Hval _ _ He Hk eq_refl Hu) as (y & Hy & Hyr). rewrite Hz in Hy. simplify_eq.
    exists y. split; [|done]. f_equal. apply Z.mod_small. lia.
  - destruct (e_wrap e) eqn:Hwr; [simplify_eq; apply no_range_in|].
    destruct (uint_range f p (e_left e) _ _ _) as [rl|] eqn:Hl; [|done].
    destruct (uint_range f p (e_right e) _ _ _) as [rr|] eqn:Hr; [|done].
    destruct (_ || _) eqn:Hval; [simplify_eq; apply no_range_in|]. to_prop. simplify_eq.
    destruct (eval g p s (e_left e)) as [[a| |]|] eqn:Hel; try done.
    destruct (bool_decide _) eqn:Hb.
    { apply bool_decide_eq_true in Hb. destruct Hb as [[-> _]|[-> _]]; apply no_range_in. }
    destruct (eval g p s (e_right e)) as [[b| |]|] eqn:Her; try done. injection Hv as Hv.
    eapply combine_sound; [done|apply Hval..|by eapply IH|by eapply IH|done].
  - destruct (unsigned_type (e_type e)) eqn:Hu; cbn [negb] in H; [|simplify_eq; apply no_range_in].
    destruct (uint_range f p (e_left e) _ _ _) as [rl|] eqn:Hl; [|done].
    destruct (eval g p s (e_left e)) as [[a| |]|] eqn:Hel; try done. injection Hv as Hv.
    apply (convert_range e rl a); [done| |done..]. by eapply IH.
  - destruct (eval g p s (e_left e)) as [[a| |]|] eqn:Hel; try done.
    destruct (eval g p s (e_right e)) as [[b| |]|] eqn:Her; try done. injection Hv as Hv.
    split_if_in H; simplify_eq; [|apply no_range_in]. apply index_range in Hv as (z & -> & Hz); [|done].
    pose proof (unsigned_max_range (e_type e) pointer_size). apply in_range_valid; cbn; (done || unfold umax in *; lia).
  - destruct (unsigned_type (e_type e)) eqn:Hu; cbn [negb] in H; [|simplify_eq; apply no_range_in].
    destruct (uint_range f p (e_left e) _ _ _) as [rl|] eqn:Hl; [|done].
    destruct (eval g p s (e_left e)) as [[a| |]|] eqn:Hel; try done. injection Hv as Hv.
    apply (convert_range e rl a); [done| |done..]. by eapply IH.
Qed.

Definition nonneg (r : UIntRange) : Prop := 0 <= r_max r /\ 0 <= r_value r <= UINT64_MAX.
Lemma combine_nonneg op l r : nonneg l -> nonneg r -> nonneg (combine_ranges op l r).
Proof.
  intros [Hl1 Hl2] [Hr1 Hr2]. unfold nonneg, combine_ranges.
  pose proof (land_le (r_value l) (r_value r)). pose proof (u64_range (r_value l + r_value r)).
  pose proof (u64_range (r_value l * r_value r)).
  destruct op; try done; repeat split_if; cbn; try done; unfold UINT64_MAX in *; split; try lia; nia.
Qed.
Definition ranges_nonneg (l : RangeLocals) : Prop := forall x r, get_range l x = Some r -> nonneg r.
Lemma uint_range_nonneg p l pb : words p -> ranges_nonneg l -> forall f id d r,
  uint_range f p id l pb d = Some r -> nonneg r.
Proof.
  intros Hw Hl. induction f as [|f IH]; intros id d r H; [done|]. cbn [uint_range] in H.
  destruct (_ || _); [by simplify_eq|]. destruct (get_at (expressions p) id) as [e|] eqn:He; [|done].
  pose proof (Hw _ _ He). pose proof (unsigned_max_range (e_type e) pb).
  assert (forall s, nonneg s -> (if negb (r_valid s) || (unsigned_max (e_type e) pb <? r_max s)
    then Some (mkRange true false (unsigned_max (e_type e) pb) 0)
    else Some (mkRange true (r_exact s && negb (unsigned_max (e_type e) pb <? r_value s))
                       (if r_max s <? unsigned_max (e_type e) pb then r_max s else unsigned_max (e_type e) pb) (r_value s))) = Some r ->
    nonneg r) as Hc.
  { intros s [? ?] Hs. split_if_in Hs; simplify_eq; split; cbn; try split_if; unfold UINT64_MAX in *; lia. }
  destruct (e_kind e); simplify_eq; try done; try (split; cbn; lia).
  - by destruct (e_boolean e).
  - split_if_in H; simplify_eq; [|done]. by eapply Hl.
  - split_if_in H; simplify_eq; [done|]. destruct (uint_range f p (e_left e) _ _ _) as [rl|] eqn:E1; [|done].
    destruct (uint_range f p (e_right e) _ _ _) as [rr|] eqn:E2; [|done].
    split_if_in H; simplify_eq; [done|]. apply combine_nonneg; eauto.
  - split_if_in H; simplify_eq; [done|]. destruct (uint_range f p (e_left e) _ _ _) as [rl|] eqn:E1; [|done]. eauto.
  - split_if_in H; simplify_eq; [|done]. split; cbn; unfold UINT64_MAX in *; lia.
  - split_if_in H; simplify_eq; [done|]. destruct (uint_range f p (e_left e) _ _ _) as [rl|] eqn:E1; [|done]. eauto.
Qed.

(** ** Typing *)

(** What the type checker ensures of the nodes the pass reads. *)
Record typed (p : DynIrProgram) : Prop := {
  ty_store : forall c st x id e, stmt_at p c = Some st -> writes_local st = true ->
    get_at (expressions p) (st_expression st) = Some x ->
    get_at (expressions p) id = Some e -> e_kind e = DYN_EXPR_NAME -> e_integer e = st_local_id st -> e_type x = e_type e;
  ty_arith : forall id e, get_at (expressions p) id = Some e -> e_kind e = DYN_EXPR_BINARY ->
    e_op e = DYN_OP_ADD \/ e_op e = DYN_OP_BIT_AND -> type_of p (e_left e) = e_type e;
  ty_compare : forall id e, get_at (expressions p) id = Some e -> e_kind e = DYN_EXPR_BINARY ->
    e_op e = DYN_OP_LT \/ e_op e = DYN_OP_LE -> type_of p (e_right e) = type_of p (e_left e);
  ty_literal : forall id e, get_at (expressions p) id = Some e -> e_kind e = DYN_EXPR_INT \/ e_kind e = DYN_EXPR_CHAR ->
    unsigned_type (e_type e) = true -> e_integer e <= umax (e_type e) }.

Definition unsigned_value (t : Z) (v : val) : Prop := exists z, v = Word z /\ 0 <= z <= umax t.

Lemma load_unsigned t v v' : unsigned_type t = true -> load t v = Value v' -> unsigned_value t v'.
Proof.
  unfold load. intros -> H. destruct v as [z|]; [|done]. simplify_eq. eexists. split; [done|]. apply wrap_to_range.
Qed.
Lemma bool_unsigned t b : unsigned_value t (Word (of_bool b)).
Proof. eexists. split; [done|]. unfold umax. pose proof (unsigned_max_range t pointer_size). unfold of_bool. destruct b; lia. Qed.
Lemma binop_unsigned e tl l r v :
  unsigned_type (e_type e) = true -> (e_op e = DYN_OP_BIT_AND -> unsigned_value (e_type e) l) ->
  binop e tl l r = Value v -> unsigned_value (e_type e) v.
Proof.
  intros Hu Hl H. unfold binop in H. rewrite Hu in H.
  assert (match other_op (e_op e) (e_type e) (e_wrap e) l r with Some v => load (e_type e) v | None => Panic end = Value v ->
          unsigned_value (e_type e) v) as Ho.
  { destruct (other_op _ _ _ _ _); [|done]. by apply load_unsigned. }
  assert (forall a b, (match arith (e_op e) (e_type e) a b with Some x => Value (Word x) | None => if e_boolean e then Undefined else Panic end)
                      = Value v -> unsigned_value (e_type e) v) as Ha.
  { intros a b. unfold arith. rewrite Hu. cbv zeta. destruct (_ && _) eqn:Hx; [|by destruct (e_boolean e)].
    intros [= <-]. to_prop. by eexists. }
  destruct l as [a|], r as [b|]; try (by apply Ho). destruct (e_op e); try (by apply Ho).
  1-2: destruct (e_wrap e); [|by eapply Ha]; simplify_eq; eexists; (split; [done|]); apply wrap_to_range.
  1-2: destruct (unsigned_type tl); [|by apply Ho]; simplify_eq; apply bool_unsigned.
  simplify_eq. destruct (Hl eq_refl) as (z & [= <-] & Hz). pose proof (land_le a b). eexists. split; [done|]. lia.
Qed.
(** Evaluation respects the types. *)
Lemma eval_typed p s : words p -> typed p -> forall g id v,
  eval g p s id = Some (Value v) -> unsigned_type (type_of p id) = true -> unsigned_value (type_of p id) v.
Proof.
  intros Hw Ht. induction g as [|g IH]; intros id v H Hu; [done|]. cbn [eval] in H. unfold type_of in Hu |- *.
  destruct (get_at (expressions p) id) as [e|] eqn:He; [|done]. pose proof (Hw _ _ He) as Hi.
  destruct (e_kind e) eqn:Hk; try done; try (injection H as H); try (by eapply load_unsigned).
  - subst v. eexists. split; [done|]. split; [lia|]. eapply ty_literal; eauto.
  - subst v. apply bool_unsigned.
  - subst v. eexists. split; [done|]. split; [lia|]. eapply ty_literal; eauto.
  - destruct (eval g p s (e_left e)) as [[l| |]|] eqn:Hl; try done.
    split_if_in H; [injection H as H; by eapply load_unsigned|].
    destruct (eval g p s (e_right e)) as [[r| |]|] eqn:Hr; try done. injection H as H.
    eapply binop_unsigned; [done| |done]. intros Hop. pose proof (ty_arith _ Ht _ _ He Hk (or_intror Hop)) as Et.
    rewrite <- Et. apply (IH _ _ Hl). by rewrite Et.
  - destruct (eval g p s (e_left e)) as [[l| |]|] eqn:Hl; try done. injection H as H.
    apply convert_sound in H as (z & -> & Hz & _); [|done]. by exists z.
  - destruct (eval g p s (e_left e)) as [[l| |]|] eqn:Hl; try done.
    destruct (eval g p s (e_right e)) as [[r| |]|] eqn:Hr; try done. injection H as H. by eapply index_range.
  - destruct (eval g p s (e_left e)) as [[l| |]|] eqn:Hl; try done. injection H as H.
    apply convert_sound in H as (z & -> & Hz & _); [|done]. by exists z.
Qed.

(** ** Marks *)

Definition node_le (e e' : DynIrExpr) : Prop :=
  e' = e \/ (e' = marked e /\ (e_kind e = DYN_EXPR_INDEX \/ e_kind e = DYN_EXPR_BINARY)).
(** [p'] is [p] with more accesses and arithmetic marked. *)
Definition le_marks (p p' : DynIrProgram) : Prop :=
  exists es, p' = with_expressions p es /\ Forall2 node_le (expressions p) es.
Definition new_mark (p p' : DynIrProgram) (id : Z) (e : DynIrExpr) : Prop :=
  get_at (expressions p) id = Some e /\ e_boolean e = false
  /\ exists e', get_at (expressions p') id = Some e' /\ e_boolean e' = true.

#[local] Instance node_le_preorder : PreOrder node_le.
Proof.
  split; [by left|]. intros e1 e2 e3 [->|[-> Hk]] [->|[-> Hk']]; [by left|by right|by right|by right].
Qed.
#[local] Instance le_marks_preorder : PreOrder le_marks.
Proof.
  split.
  - intros p. exists (expressions p). split; [by destruct p|]. apply Forall2_same_length_lookup_2; [done|].
    intros i x y Hx Hy. by simplify_eq.
  - intros p1 p2 p3 (es & -> & H1) (es' & -> & H2). exists es'. split; [done|]. cbn in H2.
    etrans; [exact H1|exact H2].
Qed.

Lemma le_count p p' : le_marks p p' -> expression_count p' = expression_count p.
Proof. intros (es & -> & H). unfold expression_count, count_of. cbn. by rewrite (Forall2_length _ _ _ H). Qed.
Lemma le_enough p p' : le_marks p p' -> enough p' = enough p.
Proof. intros (es & -> & H). unfold enough. cbn. by rewrite (Forall2_length _ _ _ H). Qed.
Lemma le_rest p p' : le_marks p p' ->
  items p' = items p /\ statements p' = statements p /\ ir_children p' = ir_children p /\ functions p' = functions p
  /\ arrays p' = arrays p.
Proof. by intros (es & -> & _). Qed.
Lemma le_get p p' id : le_marks p p' ->
  match get_at (expressions p) id, get_at (expressions p') id with
  | Some e, Some e' => node_le e e'
  | None, None => True
  | _, _ => False
  end.
Proof.
  intros (es & -> & H). cbn. unfold get_at. rewrite <- (Forall2_length _ _ _ H). split_if; [|done].
  destruct (expressions p !! Z.to_nat id) as [e|] eqn:He.
  - by destruct (Forall2_lookup_l _ _ _ _ _ H He) as (e' & -> & ?).
  - destruct (es !! Z.to_nat id) as [e'|] eqn:He'; [|done].
    destruct (Forall2_lookup_r _ _ _ _ _ H He') as (e & ? & ?). by simplify_eq.
Qed.
Lemma le_fields e e' : node_le e e' ->
  e_kind e' = e_kind e /\ e_type e' = e_type e /\ e_op e' = e_op e /\ e_left e' = e_left e /\ e_right e' = e_right e
  /\ e_integer e' = e_integer e /\ e_item_start e' = e_item_start e /\ e_item_count e' = e_item_count e
  /\ e_wrap e' = e_wrap e.
Proof. by intros [->|[-> _]]. Qed.
Lemma le_type p p' id : le_marks p p' -> type_of p' id = type_of p id.
Proof.
  intros H. pose proof (le_get p p' id H) as Hg. unfold type_of.
  destruct (get_at (expressions p) id), (get_at (expressions p') id); try done. by apply le_fields in Hg as (_ & -> & _).
Qed.

Lemma mark_le p id p' : mark p id = Some p' ->
  (forall e, get_at (expressions p) id = Some e -> e_kind e = DYN_EXPR_INDEX \/ e_kind e = DYN_EXPR_BINARY) ->
  le_marks p p' /\ forall id' e, new_mark p p' id' e -> id' = id.
Proof.
  unfold mark. intros H Hk. destruct (get_at (expressions p) id) as [e|] eqn:He; [|done].
  destruct (set_at _ _ _) as [es|] eqn:Hs; [|done]. simplify_eq. apply get_at_Some in He as [Hr He].
  rewrite set_at_insert in Hs by lia. simplify_eq. split.
  - eexists. split; [done|]. apply Forall2_same_length_lookup_2; [by rewrite length_insert|].
    intros i x y Hx Hy. destruct (decide (i = Z.to_nat id)) as [->|Hne].
    + rewrite list_lookup_insert_eq in Hy by lia. simplify_eq. right. split; [done|]. by apply Hk.
    + rewrite list_lookup_insert_ne in Hy by done. simplify_eq. by left.
  - intros id' x (Hx & Hb & x' & Hx' & Hb'). cbn in Hx'. destruct (Z.eq_dec id' id) as [|Hne]; [done|].
    apply get_at_Some in Hx as Hx2. destruct Hx2 as [Hr' _]. rewrite get_at_insert_ne in Hx' by lia. congruence.
Qed.

Lemma new_mark_trans p p1 p2 id e : le_marks p p1 -> le_marks p1 p2 ->
  new_mark p p2 id e -> new_mark p p1 id e \/ new_mark p1 p2 id e.
Proof.
  intros H1 H2 (He & Hb & e2 & He2 & Hb2). pose proof (le_get _ _ id H1) as Hg. rewrite He in Hg.
  destruct (get_at (expressions p1) id) as [e1|] eqn:He1; [|done]. destruct Hg as [->|[-> _]].
  - right. by split_and!; [..|eexists].
  - left. split_and!; [done..|]. by eexists.
Qed.
Lemma new_mark_irrefl p id e : ~ new_mark p p id e.
Proof. intros (He & Hb & e' & He' & Hb'). congruence. Qed.
(** A node newly marked later is the node of the first program. *)
Lemma new_mark_base p p1 p2 id e : le_marks p p1 -> new_mark p1 p2 id e -> get_at (expressions p) id = Some e.
Proof.
  intros H (He & Hb & _). pose proof (le_get _ _ id H) as Hg. rewrite He in Hg.
  destruct (get_at (expressions p) id) as [e0|]; [|done]. destruct Hg as [->|[-> _]]; [done|by cbn in Hb].
Qed.

Lemma uint_range_marks p p' : le_marks p p' ->
  forall f id l pb d, uint_range f p' id l pb d = uint_range f p id l pb d.
Proof.
  intros H. induction f as [|f IH]; intros id l pb d; [done|]. cbn [uint_range]. rewrite (le_count _ _ H).
  pose proof (le_get _ _ id H) as Hg. split_if; [done|].
  destruct (get_at (expressions p) id) as [e|], (get_at (expressions p') id) as [e'|]; try done.
  destruct Hg as [->|[-> Hk]].
  - destruct (e_kind e); try done; by rewrite ?IH.
  - cbn. destruct Hk as [-> | ->]; [done|]. by rewrite !IH.
Qed.
Lemma range_pure_marks p p' : le_marks p p' -> forall f id d, range_pure f p' id d = range_pure f p id d.
Proof.
  intros H. induction f as [|f IH]; intros id d; [done|]. cbn [range_pure]. rewrite (le_count _ _ H).
  pose proof (le_get _ _ id H) as Hg. split_if; [done|].
  destruct (get_at (expressions p) id) as [e|], (get_at (expressions p') id) as [e'|]; try done.
  apply le_fields in Hg as (-> & _ & _ & -> & -> & _). by rewrite !IH.
Qed.

Lemma effect_free_more p f g id : (f <= g)%nat -> effect_free f p id = true -> effect_free g p id = true.
Proof.
  revert g id. induction f as [|f IH]; intros [|g] id Hfg H; [done|done|lia|]. cbn [effect_free] in *.
  destruct (get_at (expressions p) id) as [e|]; [|done]. destruct (e_kind e); try done; try (apply IH; [lia|done]);
    apply andb_true_iff in H as [Hl Hr]; rewrite !IH by (done || lia); done.
Qed.
Lemma pure_effect_free p f id d : range_pure f p id d = Some true -> effect_free f p id = true.
Proof.
  revert id d. induction f as [|f IH]; intros id d H; [done|]. cbn [range_pure effect_free] in *. split_if_in H; [done|].
  destruct (get_at (expressions p) id) as [e|]; [|done].
  destruct (e_kind e); try done; try (by eapply IH);
    (destruct (range_pure f p (e_left e) (d + 1)) as [b|] eqn:Hl; [|done]; destruct b; [|done];
     by rewrite (IH _ _ Hl), (IH _ _ H)).
Qed.
Lemma pure_plain p id : range_pure (enough p) p id 0 = Some true -> plain p id = true.
Proof. intros H%pure_effect_free. eapply effect_free_more; [|exact H]. unfold enough. lia. Qed.
(** A bound that is known exactly has no effect. *)
Lemma combine_exact op l r : r_exact (combine_ranges op l r) = true -> r_exact l = true /\ r_exact r = true.
Proof. unfold combine_ranges. destruct op; cbn; try done; repeat split_if; cbn; try done; by intros [? ?]%andb_true_iff. Qed.
Lemma exact_effect_free p l pb f id d r : uint_range f p id l pb d = Some r -> r_exact r = true -> effect_free f p id = true.
Proof.
  revert id d r. induction f as [|f IH]; intros id d r H Hr; [done|]. cbn [uint_range effect_free] in *.
  split_if_in H; [by simplify_eq|]. destruct (get_at (expressions p) id) as [e|]; [|done].
  destruct (e_kind e); simplify_eq; try done.
  - split_if_in H; [by simplify_eq|]. destruct (uint_range f p (e_left e) _ _ _) as [rl|] eqn:El; [|done].
    destruct (uint_range f p (e_right e) _ _ _) as [rr|] eqn:Er; [|done]. split_if_in H; simplify_eq; try done.
    apply combine_exact in Hr as [Hl Hrr]. by rewrite (IH _ _ _ El Hl), (IH _ _ _ Er Hrr).
  - split_if_in H; [by simplify_eq|]. destruct (uint_range f p (e_left e) _ _ _) as [rl|] eqn:El; [|done].
    cbv zeta in H. split_if_in H; simplify_eq; try done. cbn in Hr. apply andb_true_iff in Hr as [Hr _]. by eapply IH.
  - split_if_in H; by simplify_eq.
  - split_if_in H; [by simplify_eq|]. destruct (uint_range f p (e_left e) _ _ _) as [rl|] eqn:El; [|done].
    cbv zeta in H. split_if_in H; simplify_eq; try done. cbn in Hr. apply andb_true_iff in Hr as [Hr _]. by eapply IH.
Qed.
Lemma plain_binary p id e lhs : get_at (expressions p) id = Some e -> e_kind e = DYN_EXPR_BINARY ->
  get_at (expressions p) (e_left e) = Some lhs -> e_kind lhs = DYN_EXPR_NAME ->
  effect_free (enough p) p (e_right e) = true -> plain p id = true.
Proof.
  intros He Hk Hl Hlk Hr. unfold plain. replace (length (expressions p) + 4)%nat with (S (enough p)) by (unfold enough; lia).
  set (f := enough p) in *. assert (effect_free f p (e_left e) = true) as Hle.
  { unfold f, enough. rewrite Nat.add_comm. cbn [Nat.add effect_free]. by rewrite Hl, Hlk. }
  clearbody f. cbn [effect_free]. by rewrite He, Hk, Hle, Hr.
Qed.
Lemma effect_free_marks p p' : le_marks p p' -> forall f id, effect_free f p' id = effect_free f p id.
Proof.
  intros H. induction f as [|f IH]; intros id; [done|]. cbn [effect_free]. pose proof (le_get _ _ id H) as Hg.
  destruct (get_at (expressions p) id) as [e|], (get_at (expressions p') id) as [e'|]; try done.
  apply le_fields in Hg as (-> & _ & _ & -> & -> & _). by rewrite !IH.
Qed.
Lemma plain_marks p p' id : le_marks p p' -> plain p' id = plain p id.
Proof.
  intros H. unfold plain. rewrite (effect_free_marks _ _ H). destruct H as (es & -> & HF). cbn.
  by rewrite (Forall2_length _ _ _ HF).
Qed.

(** *** Marks that change no evaluation *)

Definition mark_ok (p : DynIrProgram) (s : env) (e : DynIrExpr) : Prop :=
  match e_kind e with
  | DYN_EXPR_INDEX =>
      forall g base n, eval g p s (e_right e) = Some (Value (Word n)) -> 0 <= n < length_of p s (type_of p (e_left e)) base
  | DYN_EXPR_BINARY =>
      e_op e = DYN_OP_ADD
      /\ forall g a b, eval g p s (e_left e) = Some (Value (Word a)) -> eval g p s (e_right e) = Some (Value (Word b)) ->
         e_wrap e = true \/ arith DYN_OP_ADD (e_type e) a b <> None
  | _ => False
  end.

(** Every expression belongs to one statement, its operands to the same. *)
Definition owned (owner : Z -> Z) (p : DynIrProgram) : Prop :=
  (forall id e c, get_at (expressions p) id = Some e ->
     (c = e_left e \/ c = e_right e \/ exists i, 0 <= i < e_item_count e /\ get_at (items p) (u32 (e_item_start e + i)) = Some c) ->
     0 <= c < expression_count p -> owner c = owner id)
  /\ (forall c st, stmt_at p c = Some st -> 0 <= st_expression st < expression_count p -> owner (st_expression st) = c).

Lemma eval_marks owner p p' s o :
  le_marks p p' -> owned owner p -> (forall id e, new_mark p p' id e -> owner id = o -> mark_ok p s e) ->
  forall f id, (0 <= id < expression_count p -> owner id = o) -> eval f p' s id = eval f p s id.
Proof.
  intros Hle [Hown _] Hok. induction f as [|f IH]; intros id Hid; [done|]. cbn [eval].
  pose proof (le_get _ _ id Hle) as Hg.
  destruct (get_at (expressions p) id) as [e|] eqn:He, (get_at (expressions p') id) as [e'|] eqn:He'; try done.
  pose proof He as Hr. apply get_at_Some in Hr as [Hr _]. specialize (Hid Hr).
  assert (eval f p' s (e_left e) = eval f p s (e_left e)) as El.
  { apply IH. intros Hc. rewrite <- Hid. eapply Hown; eauto. }
  assert (eval f p' s (e_right e) = eval f p s (e_right e)) as Er.
  { apply IH. intros Hc. rewrite <- Hid. eapply Hown; eauto. }
  pose proof (le_fields _ _ Hg) as (Ek & Et & Eo & Ele & Eri & Ei & _ & _ & Ew).
  assert (e_boolean e' <> e_boolean e -> mark_ok p s e) as Hm.
  { intros Hb. apply (Hok id); [|done]. split; [done|]. destruct Hg as [->|[-> _]]; [done|]. cbn in Hb.
    split; [by destruct (e_boolean e)|]. by eexists. }
  destruct (decide (e_boolean e' = e_boolean e)) as [Eb|Hb].
  { assert (e' = e) as -> by (destruct Hg as [->|[-> _]]; [done|]; cbn in Eb; destruct e; cbn in *; by subst).
    rewrite El, Er, !(le_type _ _ _ Hle). destruct (le_rest _ _ Hle) as (_ & _ & _ & _ & Ea).
    unfold index_value, length_of. by rewrite Ea. }
  specialize (Hm Hb). unfold mark_ok in Hm. rewrite Ek, Ele, Eri, El, Er, Eo, !(le_type _ _ _ Hle).
  destruct (e_kind e); try done.
  - destruct Hm as [Hop Hm]. destruct (eval f p s (e_left e)) as [[l| |]|] eqn:Hl; try done. split_if; [by rewrite Et|].
    destruct (eval f p s (e_right e)) as [[r| |]|] eqn:Hrr; try done. f_equal. unfold binop.
    rewrite Eo, Et, Ew, Hop. destruct l as [a|], r as [b|]; try done.
    destruct (Hm f a b Hl Hrr) as [->|Hx]; [done|]. by destruct (arith _ _ _ _).
  - destruct (eval f p s (e_left e)) as [[l| |]|] eqn:Hl; try done.
    destruct (eval f p s (e_right e)) as [[r| |]|] eqn:Hrr; try done. f_equal. unfold index_value.
    destruct r as [n|]; [|done]. pose proof (Hm f l n Hrr) as Hn. destruct (le_rest _ _ Hle) as (_ & _ & _ & _ & Ea).
    unfold length_of in *. rewrite Ea, Et. rewrite (proj2 (Z.leb_le _ _)), (proj2 (Z.ltb_lt _ _)) by lia. done.
Qed.

(** ** The pass on one expression *)

(** What the checker and the lowering give the pass: valid references,
    operands where the kinds need them, bodies inside [children]. *)
Record well_formed (p : DynIrProgram) : Prop := {
  wf_expr : forall id e, get_at (expressions p) id = Some e ->
    0 <= e_left e /\ 0 <= e_right e /\ 0 <= e_integer e <= UINT64_MAX
    /\ 0 <= e_item_start e /\ 0 <= e_item_count e /\ e_item_start e + e_item_count e <= count_of (items p);
  wf_operands : forall id e, get_at (expressions p) id = Some e ->
    e_kind e = DYN_EXPR_INDEX \/ e_kind e = DYN_EXPR_BINARY -> e_left e < expression_count p;
  wf_array : forall id e, get_at (expressions p) id = Some e -> dyn_type_is_array (e_type e) = true ->
    e_type e - DYN_TYPE_ARRAY_BASE < count_of (arrays p);
  wf_sizes : count_of (items p) < 2 ^ 32 /\ count_of (ir_children p) < 2 ^ 32 /\ expression_count p <= UINT32_MAX;
  wf_items : forall i c, get_at (items p) i = Some c -> 0 <= c;
  wf_children : forall i c, get_at (ir_children p) i = Some c -> 0 <= c < count_of (statements p);
  wf_stmt : forall c st, stmt_at p c = Some st ->
    0 <= st_expression st /\ (st_expression st < expression_count p \/ st_expression st = DYN_NO_EXPR)
    /\ 0 <= st_body_start st /\ 0 <= st_body_count st /\ st_body_start st + st_body_count st <= count_of (ir_children p);
  wf_function : forall i fn, get_at (functions p) i = Some fn ->
    0 <= f_body_start fn /\ 0 <= f_body_count fn /\ f_body_start fn + f_body_count fn <= count_of (ir_children p)
    /\ 0 <= f_local_start fn /\ 0 <= f_local_count fn /\ f_local_start fn + f_local_count fn <= 2 ^ 32 }.

Lemma wf_words p : well_formed p -> words p.
Proof. intros H id e He. by destruct (wf_expr _ H _ _ He) as (_ & _ & ? & _). Qed.

Section Whole.
Context (p0 : DynIrProgram) (Hwf : well_formed p0) (Hty : typed p0) (owner : Z -> Z) (Hown : owned owner p0).

Lemma get_range_has l x : range_has_local l x = true -> exists r, get_range l x = Some r.
Proof. unfold range_has_local, get_range, count_of. intros H. to_prop. apply get_at_is_Some. lia. Qed.

Lemma uint_range_total l pb f id d :
  0 <= id -> 0 <= d <= expression_count p0 + 1 -> expression_count p0 + 1 - d < Z.of_nat f ->
  exists r, uint_range f p0 id l pb d = Some r.
Proof.
  revert id d. induction f as [|f IH]; intros id d Hid Hd Hf; [lia|]. cbn [uint_range].
  destruct (_ || _) eqn:Hb; [by eexists|]. to_prop.
  destruct (get_at_is_Some (expressions p0) id) as [e He]; [unfold expression_count, count_of in Hb; lia|]. rewrite He.
  destruct (wf_expr _ Hwf _ _ He) as (Hl & Hr & _).
  destruct (IH (e_left e) (d + 1)) as [rl Hrl]; [lia..|]. destruct (IH (e_right e) (d + 1)) as [rr Hrr]; [lia..|].
  rewrite Hrl, Hrr. destruct (e_kind e); try (by eexists); repeat (split_if; try by eexists).
  by apply get_range_has.
Qed.
Lemma uint_range_enough p l pb id : le_marks p0 p -> 0 <= id ->
  exists r, uint_range (enough p) p id l pb 0 = Some r /\ uint_range (enough p0) p0 id l pb 0 = Some r.
Proof.
  intros Hle Hid. rewrite (uint_range_marks _ _ Hle), (le_enough _ _ Hle).
  destruct (uint_range_total l pb (enough p0) id 0) as [r Hr]; [lia|unfold expression_count, count_of; lia| |by exists r].
  unfold enough, expression_count, count_of. lia.
Qed.
Lemma range_pure_total f id d :
  0 <= id -> 0 <= d <= expression_count p0 + 1 -> expression_count p0 + 1 - d < Z.of_nat f ->
  exists b, range_pure f p0 id d = Some b.
Proof.
  revert id d. induction f as [|f IH]; intros id d Hid Hd Hf; [lia|]. cbn [range_pure].
  destruct (_ || _) eqn:Hb; [by eexists|]. to_prop.
  destruct (get_at_is_Some (expressions p0) id) as [e He]; [unfold expression_count, count_of in Hb; lia|]. rewrite He.
  destruct (wf_expr _ Hwf _ _ He) as (Hl & Hr & _).
  destruct (IH (e_left e) (d + 1)) as [rl Hrl]; [lia..|]. destruct (IH (e_right e) (d + 1)) as [rr Hrr]; [lia..|].
  rewrite Hrl, Hrr. destruct (e_kind e); try (by eexists); by destruct rl; eexists.
Qed.
Lemma range_pure_enough p id : le_marks p0 p -> 0 <= id ->
  exists b, range_pure (enough p) p id 0 = Some b /\ range_pure (enough p0) p0 id 0 = Some b.
Proof.
  intros Hle Hid. rewrite (range_pure_marks _ _ Hle), (le_enough _ _ Hle).
  destruct (range_pure_total (enough p0) id 0) as [b Hb]; [lia|unfold expression_count, count_of; lia| |by exists b].
  unfold enough, expression_count, count_of. lia.
Qed.

Lemma pure_valid id : 0 <= id -> range_pure (enough p0) p0 id 0 = Some true -> 0 <= id < expression_count p0.
Proof.
  intros Hid H. unfold enough in H. rewrite Nat.add_comm in H. cbn [Nat.add range_pure] in H.
  destruct (_ || _) eqn:Hb; [done|]. to_prop. lia.
Qed.

(** An index whose range is below the length of the array. *)
Definition bounded_index (l : RangeLocals) (e : DynIrExpr) : Prop :=
  e_kind e = DYN_EXPR_INDEX /\ dyn_type_is_array (type_of p0 (e_left e)) = true
  /\ exists r array, uint_range (enough p0) p0 (e_right e) l pointer_size 0 = Some r
     /\ get_at (arrays p0) (type_of p0 (e_left e) - DYN_TYPE_ARRAY_BASE) = Some array
     /\ r_valid r = true /\ r_max r < a_length array.

Lemma bounded_index_ok l s e : respects p0 l s -> bounded_index l e -> mark_ok p0 s e.
Proof.
  intros Hs (Hk & Ht & r & array & Hr & Ha & Hv & Hm). unfold mark_ok. rewrite Hk. intros g base n Hn.
  destruct (uint_range_sound p0 l s (wf_words _ Hwf) Hs _ _ _ _ _ _ Hr Hn) as [_ Hin].
  destruct (Hin Hv) as (z & [= <-] & Hz & _). unfold length_of. rewrite Ht, Ha. lia.
Qed.

(** From [p] to [p'] only in-range accesses of statement [o] are marked. *)
Definition index_step (l : RangeLocals) (o : Z) (p p' : DynIrProgram) : Prop :=
  le_marks p p' /\ forall id e, new_mark p p' id e -> owner id = o /\ bounded_index l e.
#[local] Instance index_step_preorder l o : PreOrder (index_step l o).
Proof.
  split.
  - intros p. split; [reflexivity|]. intros id e H. by apply new_mark_irrefl in H.
  - intros p1 p2 p3 [H1 Hn1] [H2 Hn2]. split; [by etrans|]. intros id e H.
    destruct (new_mark_trans _ _ _ _ _ H1 H2 H) as [?|?]; eauto.
Qed.

Lemma prove_items_spec l o (prove : DynIrProgram -> Z -> option DynIrProgram) e id n :
  get_at (expressions p0) id = Some e -> owner id = o ->
  (forall p x, le_marks p0 p -> 0 <= x -> (0 <= x < expression_count p0 -> owner x = o) ->
     exists p', prove p x = Some p' /\ index_step l o p p') ->
  forall i p, le_marks p0 p -> 0 <= i -> i + Z.of_nat n = e_item_count e ->
  exists p', prove_items prove n p (e_item_start e) i = Some p' /\ index_step l o p p'.
Proof.
  intros He Ho Hp. destruct (wf_expr _ Hwf _ _ He) as (_ & _ & _ & Hs & Hc & Hend). destruct (wf_sizes _ Hwf) as (Hsz & _).
  induction n as [|n IH]; intros i p Hle Hi Hn; [by exists p|]. cbn [prove_items].
  destruct (le_rest _ _ Hle) as (Ei & _). rewrite Ei. rewrite u32_small by lia.
  destruct (get_at_is_Some (items p0) (e_item_start e + i)) as [x Hx]; [unfold count_of in *; lia|]. rewrite Hx.
  destruct (Hp p x) as (p1 & Hp1 & Hs1); [done|by eapply wf_items| |].
  { intros Hx'. rewrite <- Ho. eapply (proj1 Hown); [exact He| |done]. right. right. exists i.
    split; [lia|]. by rewrite u32_small by lia. }
  rewrite Hp1. destruct (IH (i + 1) p1) as (p2 & Hp2 & Hs2); [by etrans; [|apply Hs1]|lia..|].
  exists p2. split; [done|]. by etrans.
Qed.

Lemma prove_array_bounds_spec l o f p id d :
  le_marks p0 p -> 0 <= id -> 0 <= d <= expression_count p0 + 1 -> expression_count p0 + 1 - d < Z.of_nat f ->
  (0 <= id < expression_count p0 -> owner id = o) ->
  exists p', prove_array_bounds f p id l pointer_size d = Some p' /\ index_step l o p p'.
Proof.
  revert p id d. induction f as [|f IH]; intros p id d Hle Hid Hd Hf Ho; [lia|]. cbn [prove_array_bounds].
  rewrite (le_count _ _ Hle). destruct (_ || _) eqn:Hb; [by exists p|]. to_prop.
  assert (0 <= id < expression_count p0) as Hr by lia. specialize (Ho Hr).
  destruct (get_at_is_Some (expressions p0) id) as [e0 He0]; [done|].
  pose proof (le_get _ _ id Hle) as Hg. rewrite He0 in Hg. destruct (get_at (expressions p) id) as [e|] eqn:He; [|done].
  apply le_fields in Hg as (Ek & _ & _ & -> & -> & _ & -> & -> & _).
  destruct (wf_expr _ Hwf _ _ He0) as (Hl & Hrt & _ & _ & Hc & _).
  destruct (IH p (e_left e0) (d + 1)) as (p1 & -> & S1); [done|lia..| |].
  { intros Hx. rewrite <- Ho. eapply (proj1 Hown); eauto. }
  assert (le_marks p0 p1) as L1 by (etrans; [exact Hle|apply S1]).
  destruct (IH p1 (e_right e0) (d + 1)) as (p2 & -> & S2); [done|lia..| |].
  { intros Hx. rewrite <- Ho. eapply (proj1 Hown); eauto. }
  assert (le_marks p0 p2) as L2 by (etrans; [exact L1|apply S2]).
  destruct (prove_items_spec l o (fun p x => prove_array_bounds f p x l pointer_size (d + 1)) e0 id (Z.to_nat (e_item_count e0))
              He0 Ho) with (i := 0) (p := p2) as (p3 & -> & S3); [|done|lia|lia|].
  { intros q x Hq Hx Hxo. apply IH; (done || lia). }
  assert (le_marks p0 p3) as L3 by (etrans; [exact L2|apply S3]).
  assert (index_step l o p p3) as S by (etrans; [exact S1|]; etrans; [exact S2|exact S3]).
  unfold is_kind. rewrite Ek. case_bool_decide as Hk; cbn [negb]; [|by exists p3].
  pose proof (wf_operands _ Hwf _ _ He0 (or_introl Hk)) as Hlr.
  destruct (get_at_is_Some (expressions p0) (e_left e0)) as [lhs0 Hlhs0]; [unfold expression_count, count_of in Hlr; lia|].
  pose proof (le_get _ _ (e_left e0) L3) as Hg. rewrite Hlhs0 in Hg.
  destruct (get_at (expressions p3) (e_left e0)) as [lhs|] eqn:Hlhs; [|done].
  apply le_fields in Hg as (_ & -> & _). destruct (dyn_type_is_array (e_type lhs0)) eqn:Ht; cbn [negb]; [|by exists p3].
  destruct (uint_range_enough p3 l pointer_size (e_right e0) L3 Hrt) as (r & -> & Hur).
  destruct (le_rest _ _ L3) as (_ & _ & _ & _ & ->).
  pose proof (wf_array _ Hwf _ _ Hlhs0 Ht) as Hat. unfold dyn_type_is_array in Ht. to_prop.
  destruct (get_at_is_Some (arrays p0) (e_type lhs0 - DYN_TYPE_ARRAY_BASE)) as [array Harr]; [unfold count_of in Hat; lia|].
  rewrite Harr. split_if; [|by exists p3]. to_prop.
  pose proof (le_get _ _ id L3) as Hg3. rewrite He0 in Hg3. destruct (get_at (expressions p3) id) as [e3|] eqn:He3; [|done].
  apply le_fields in Hg3 as (Ek3 & _).
  assert (exists p4, mark p3 id = Some p4) as [p4 Hp4].
  { unfold mark. rewrite He3. apply get_at_Some in He3 as [? _]. rewrite set_at_insert by done. by eexists. }
  exists p4. split; [done|]. destruct (mark_le _ _ _ Hp4) as [L4 N4].
  { intros x Hx. simplify_eq. left. congruence. }
  etrans; [exact S|]. split; [done|]. intros id' x Hx. pose proof (N4 _ _ Hx) as ->. split; [done|].
  apply (new_mark_base _ _ _ _ _ L3) in Hx. simplify_eq. split; [done|]. unfold type_of. rewrite Hlhs0.
  split; [unfold dyn_type_is_array; apply andb_true_iff; rewrite Z.leb_le, Z.ltb_lt; lia|]. exists r, array. done.
Qed.

(** ** Bodies as lists of statements *)

Fixpoint fold_stmts {A} (f : DynIrStmt -> A -> option A) (cs : list Z) (a : A) : option A :=
  match cs with
  | [] => Some a
  | c :: cs => let* st := stmt_at p0 c in let* a := f st a in fold_stmts f cs a
  end.
Lemma drop_at {A} (l : list A) i : 0 <= i < count_of l ->
  exists x, get_at l i = Some x /\ drop (Z.to_nat i) l = x :: drop (Z.to_nat (i + 1)) l.
Proof.
  intros Hi. destruct (get_at_is_Some l i) as [x Hx]; [exact Hi|]. exists x. split; [done|].
  apply get_at_Some in Hx as [_ Hx]. rewrite (drop_S _ _ _ Hx). f_equal. f_equal. lia.
Qed.
Lemma each_child_list {A} (f : DynIrStmt -> A -> option A) p n start i a :
  le_marks p0 p -> 0 <= start -> 0 <= i -> start + i + Z.of_nat n <= count_of (ir_children p0) ->
  each_child f n p start i a = fold_stmts f (take n (drop (Z.to_nat (start + i)) (ir_children p0))) a.
Proof.
  intros Hle Hs. destruct (le_rest _ _ Hle) as (_ & Es & Ec & _). destruct (wf_sizes _ Hwf) as (_ & Hsz & _).
  revert i a. induction n as [|n IH]; intros i a Hi Hn; [done|]. cbn [each_child]. rewrite Ec, Es, u32_small by lia.
  destruct (drop_at (ir_children p0) (start + i)) as (c & -> & ->); [lia|]. cbn [take fold_stmts]. unfold stmt_at.
  destruct (get_at (statements p0) c) as [st|]; [|done]. destruct (f st a); [|done].
  rewrite IH by lia. by rewrite Z.add_assoc.
Qed.

Lemma writes_kind st : writes_local st = true -> st_kind st = DYN_STMT_LOCAL \/ st_kind st = DYN_STMT_ASSIGN.
Proof. unfold writes_local, is_stmt. intros [?%bool_decide_eq_true|[?%bool_decide_eq_true _]%andb_true_iff]%orb_true_iff; auto. Qed.
Lemma writes_declares st : st_kind st = DYN_STMT_LOCAL -> writes_local st = true.
Proof. unfold writes_local, is_stmt. intros ->. done. Qed.
Lemma writes_assigns st : st_kind st = DYN_STMT_ASSIGN -> st_target st = DYN_NO_EXPR -> writes_local st = true.
Proof. unfold writes_local, is_stmt. intros -> ->. done. Qed.
Definition simple_stmt (st : DynIrStmt) : Prop :=
  writes_local st = true /\ range_pure (enough p0) p0 (st_expression st) 0 = Some true.
Lemma simple_local st : simple_stmt st -> local_stmt p0 st = true.
Proof. intros [Hw Hp]. unfold local_stmt. by rewrite Hw, pure_plain. Qed.
Lemma stmt_total c : c ∈ ir_children p0 -> exists st, stmt_at p0 c = Some st.
Proof.
  intros (i & Hi)%list_elem_of_lookup. apply get_at_is_Some. apply (wf_children _ Hwf (Z.of_nat i)).
  apply get_at_Some. rewrite Nat2Z.id. split; [|done]. apply lookup_lt_Some in Hi. lia.
Qed.
Lemma body_total c start n : c ∈ take n (drop start (ir_children p0)) -> exists st, stmt_at p0 c = Some st.
Proof.
  intros Hc. apply stmt_total. rewrite <- (take_drop start). apply elem_of_app. right.
  rewrite <- (take_drop n (drop start _)). apply elem_of_app. by left.
Qed.

Lemma simple_body_spec p n start i :
  le_marks p0 p -> 0 <= start -> 0 <= i -> start + i + Z.of_nat n <= count_of (ir_children p0) ->
  exists b, simple_loop_body n p start i = Some b /\ simple_loop_body n p0 start i = Some b
    /\ (b = true -> Forall (fun c => exists st, stmt_at p0 c = Some st /\ simple_stmt st)
                           (take n (drop (Z.to_nat (start + i)) (ir_children p0)))).
Proof.
  intros Hle Hs. destruct (le_rest _ _ Hle) as (_ & Es & Ec & _). destruct (wf_sizes _ Hwf) as (_ & Hsz & _).
  revert i. induction n as [|n IH]; intros i Hi Hn; [by exists true|]. cbn [simple_loop_body]. rewrite Ec, Es, u32_small by lia.
  destruct (drop_at (ir_children p0) (start + i)) as (c & Hc & Hd); [lia|]. rewrite Hc, Hd.
  destruct (wf_children _ Hwf _ _ Hc) as [Hc0 Hc1]. destruct (get_at_is_Some (statements p0) c) as [st Hst]; [done|]. rewrite Hst.
  destruct (wf_stmt _ Hwf c st Hst) as (He & _).
  destruct (range_pure_enough p (st_expression st) Hle He) as (pure & Hp & Hp0). rewrite Hp, Hp0.
  destruct (IH (i + 1)) as (b & Hb & Hb0 & Hall); [lia..|]. rewrite Hb, Hb0, Z.add_assoc in *.
  destruct (st_kind st) eqn:Hk; try (by exists false).
  - destruct pure; [|by exists false]. exists b. split_and!; [done..|]. intros ->. cbn [take]. constructor; [|by apply Hall].
    exists st. split; [done|]. split; [by apply writes_declares|done].
  - destruct (Z.eqb_spec (st_target st) DYN_NO_EXPR); cbn [negb]; [|by exists false]. destruct pure; [|by exists false].
    exists b. split_and!; [done..|]. intros ->. cbn [take]. constructor; [|by apply Hall]. exists st. split; [done|].
    split; [by apply writes_assigns|done].
Qed.

(** ** Executions of a loop *)

(** A statement that evaluates and stores. *)
Definition store_stmt (fuel : nat) (s : env) (c : Z) : option (outcome env) :=
  match stmt_at p0 c with
  | Some st => let+ v := eval fuel p0 s (st_expression st) in Some (Value (update s (st_local_id st) v))
  | None => Some Undefined
  end.
(** A loop of such statements, with a condition that has no effect. *)
Definition simple_loop (loop : DynIrStmt) : Prop :=
  plain p0 (st_expression loop) = true
  /\ Forall (fun c => exists st, stmt_at p0 c = Some st /\ local_stmt p0 st = true) (loop_body p0 loop).

(** The states of a run of a simple [loop] from [s]: in iteration [k], at
    the test ([None]) or before statement [m] of the body. *)
Inductive loop_state (loop : DynIrStmt) (s0 : env) : nat -> option nat -> env -> Prop :=
| ls_enter : loop_state loop s0 0 None s0
| ls_test k s g c :
    loop_state loop s0 k None s -> eval g p0 s (st_expression loop) = Some (Value c) -> c <> Word 0 ->
    loop_state loop s0 k (Some 0%nat) s
| ls_step k m s g c s' :
    loop_state loop s0 k (Some m) s -> loop_body p0 loop !! m = Some c -> store_stmt g s c = Some (Value s') ->
    loop_state loop s0 k (Some (S m)) s'
| ls_back k s :
    loop_state loop s0 k (Some (length (loop_body p0 loop))) s -> loop_state loop s0 (S k) None s.

Lemma store_stmt_inv g s c s' : store_stmt g s c = Some (Value s') ->
  exists st v, stmt_at p0 c = Some st /\ eval g p0 s (st_expression st) = Some (Value v) /\ s' = update s (st_local_id st) v.
Proof.
  unfold store_stmt. intros H. destruct (stmt_at p0 c) as [st|] eqn:Hst; [|done].
  destruct (eval g p0 s (st_expression st)) as [[v| |]|] eqn:Hv; try done. simplify_eq. eauto.
Qed.

(** A local written only by statement [w]: before it in iteration [k] its
    value satisfies [Acc k], after it [Acc (k + 1)]. *)
Lemma single_write loop s0 x w (Acc : nat -> val -> Prop) (Test : nat -> Prop) :
  Acc 0%nat (s0 x) ->
  (forall m c st, loop_body p0 loop !! m = Some c -> stmt_at p0 c = Some st -> st_local_id st = x -> m = w) ->
  (forall c st, loop_body p0 loop !! w = Some c -> stmt_at p0 c = Some st -> st_local_id st = x)
    /\ (w < length (loop_body p0 loop))%nat \/ (forall k v, Acc k v -> Acc (S k) v) ->
  (forall k s g c, loop_state loop s0 k None s -> Acc k (s x) -> eval g p0 s (st_expression loop) = Some (Value c) ->
     c <> Word 0 -> Test k) ->
  (forall k s g c st v, loop_state loop s0 k (Some w) s -> Test k -> Acc k (s x) -> loop_body p0 loop !! w = Some c ->
     stmt_at p0 c = Some st -> st_local_id st = x -> eval g p0 s (st_expression st) = Some (Value v) -> Acc (S k) v) ->
  forall k pos s, loop_state loop s0 k pos s ->
  match pos with
  | None => Acc k (s x)
  | Some m => Test k /\ if decide (m <= w)%nat then Acc k (s x) else Acc (S k) (s x)
  end.
Proof.
  intros H0 Hw Halt Htest Hstep k pos s H. induction H as [|k s g c H IH Hc Hne|k m s g c s' H [IHt IH] Hc Hr|k s H [_ IH]].
  - done.
  - split; [by eapply Htest|]. by rewrite decide_True by lia.
  - split; [done|]. destruct (store_stmt_inv _ _ _ _ Hr) as (st & v & Hst & Hv & ->). unfold update.
    destruct (Z.eqb_spec x (st_local_id st)) as [E|Hne].
    + pose proof (Hw _ _ _ Hc Hst (eq_sym E)) as ->. rewrite decide_True in IH by lia. rewrite decide_False by lia.
      by eapply Hstep.
    + destruct (decide (m <= w)%nat) as [Hm|Hm]; destruct (decide (S m <= w)%nat) as [Hm'|Hm']; try done; [|lia].
      assert (m = w) as -> by lia. destruct Halt as [[Hwr _]|Hmono]; [|by apply Hmono]. by destruct Hne; rewrite (Hwr _ _ Hc Hst).
  - destruct (decide _) as [Hm|Hm]; [|done]. destruct Halt as [[_ Hl]|Hmono]; [lia|by apply Hmono].
Qed.
Lemma unwritten loop s0 x :
  (forall c st, c ∈ loop_body p0 loop -> stmt_at p0 c = Some st -> st_local_id st <> x) ->
  forall k pos s, loop_state loop s0 k pos s -> s x = s0 x.
Proof.
  intros Hx k pos s H.
  assert (forall m c st, loop_body p0 loop !! m = Some c -> stmt_at p0 c = Some st -> st_local_id st = x -> False) as Hx'.
  { intros m c st Hc. eapply Hx. by eapply list_elem_of_lookup_2. }
  pose proof (single_write loop s0 x (length (loop_body p0 loop)) (fun _ v => v = s0 x) (fun _ => True) eq_refl) as Hsw.
  ospecialize (Hsw _ _ _ _ k pos s H); [naive_solver|by right|done|naive_solver|].
  destruct pos as [m|]; [|done]. destruct Hsw as [_ Hsw]. by destruct (decide _).
Qed.

(** ** The first loop over a body *)

Definition same_shape (l l' : RangeLocals) : Prop :=
  rl_start l' = rl_start l /\ length (rl_values l') = length (rl_values l).
Lemma same_shape_has l l' x : same_shape l l' -> range_has_local l' x = range_has_local l x.
Proof. intros [E1 E2]. unfold range_has_local, count_of. by rewrite E1, E2. Qed.
Lemma has_get l x r : get_range l x = Some r -> range_has_local l x = true.
Proof.
  unfold get_range, range_has_local. intros [H _]%get_at_Some. unfold count_of.
  apply andb_true_iff. rewrite Z.leb_le, Z.ltb_lt. lia.
Qed.
Lemma set_range_spec l x r : range_has_local l x = true ->
  exists l', set_range l x r = Some l' /\ same_shape l l' /\ forall y, get_range l' y = if y =? x then Some r else get_range l y.
Proof.
  unfold range_has_local, set_range, get_range, count_of. intros H. to_prop. rewrite set_at_insert by lia.
  eexists. split; [done|]. split; [split; [done|apply length_insert]|]. intros y. cbn.
  destruct (Z.eqb_spec y x) as [->|Hne]; [apply get_at_insert_eq; lia|].
  unfold get_at. rewrite length_insert. split_if; [|done]. to_prop. apply list_lookup_insert_ne. lia.
Qed.

Definition assigns (x c : Z) : bool :=
  match stmt_at p0 c with Some st => is_stmt DYN_STMT_ASSIGN st && (st_local_id st =? x) | None => false end.
Definition writes_of (x : Z) (cs : list Z) : Z := count_of (filter (fun c => assigns x c = true) cs).

(** One statement of it. *)
Lemma clear_one c st cs l w : stmt_at p0 c = Some st ->
  length w = length (rl_values l) -> Forall (fun v => 0 <= v /\ v + count_of (c :: cs) < 2 ^ 32) w ->
  exists l1 w1, clear_written st (l, w) = Some (l1, w1) /\ same_shape l l1 /\ length w1 = length w
    /\ (forall x r, get_range l1 x = Some r -> r = no_range \/ (get_range l x = Some r /\ st_local_id st <> x))
    /\ (forall x v, get_at w1 (x - rl_start l) = Some v -> exists v0, get_at w (x - rl_start l) = Some v0
          /\ v = v0 + of_bool (assigns x c)) /\ Forall (fun v => 0 <= v /\ v + count_of cs < 2 ^ 32) w1.
Proof.
  intros Hc Hlen Hw.
  assert (Forall (fun v => 0 <= v /\ v + count_of cs < 2 ^ 32) w) as Hw'.
  { eapply Forall_impl; [exact Hw|]. unfold count_of. cbn [length]. intros v ?. lia. }
  unfold clear_written. destruct (range_has_local l (st_local_id st)) eqn:Hh.
  2: { exists l, w. split_and!; [done..| | |done].
       - intros x r Hr. right. split; [done|]. intros <-. apply has_get in Hr. congruence.
       - intros x v Hv. exists v. split; [done|]. unfold assigns. rewrite Hc.
         destruct (Z.eqb_spec (st_local_id st) x) as [E|]; [|rewrite andb_false_r; cbn; lia]. exfalso.
         unfold range_has_local, count_of in Hh. rewrite <- Hlen, E in Hh. apply get_at_Some in Hv as [Hv _].
         rewrite (proj2 (Z.leb_le _ _)), (proj2 (Z.ltb_lt _ _)) in Hh by lia. done. }
  destruct (set_range_spec l (st_local_id st) no_range Hh) as (l1 & -> & Hsh & Hg).
  assert (forall x r, get_range l1 x = Some r -> r = no_range \/ (get_range l x = Some r /\ st_local_id st <> x)) as Hr1.
  { intros x r Hr. rewrite Hg in Hr. destruct (Z.eqb_spec x (st_local_id st)); simplify_eq; [by left|]. by right. }
  unfold is_stmt. case_bool_decide as Hk.
  2: { exists l1, w. split_and!; try done. intros x v Hv. exists v. split; [done|]. unfold assigns. rewrite Hc.
       unfold is_stmt. rewrite bool_decide_false by done. cbn. lia. }
  destruct Hsh as [E1 E2]. rewrite E1. unfold range_has_local, count_of in Hh. to_prop.
  destruct (get_at_is_Some w (st_local_id st - rl_start l)) as [v0 Hv0]; [lia|]. rewrite Hv0.
  rewrite set_at_insert by lia. exists l1. eexists. split; [done|]. split; [done|]. rewrite length_insert. split; [done|].
  split; [done|]. pose proof Hv0 as [_ Hl0]%get_at_Some. pose proof (Forall_lookup_1 _ _ _ _ Hw Hl0) as [H0 H1].
  unfold count_of in H1. cbn [length] in H1. rewrite u32_small by lia. split.
  - intros x v Hv. unfold assigns. rewrite Hc. unfold is_stmt. rewrite bool_decide_true by done. cbn [andb].
    destruct (Z.eqb_spec (st_local_id st) x) as [<-|Hne].
    + rewrite get_at_insert_eq in Hv by lia. simplify_eq. by exists v0.
    + apply get_at_Some in Hv as Hv2. destruct Hv2 as [Hv2 _]. rewrite get_at_insert_ne in Hv by lia. exists v. split; [done|]. cbn. lia.
  - apply Forall_insert; [done|]. unfold count_of. lia.
Qed.
Lemma clear_written_spec cs : (forall c, c ∈ cs -> exists st, stmt_at p0 c = Some st) -> forall l w,
  length w = length (rl_values l) -> Forall (fun v => 0 <= v /\ v + count_of cs < 2 ^ 32) w ->
  exists l' w', fold_stmts clear_written cs (l, w) = Some (l', w') /\ same_shape l l' /\ length w' = length w
    /\ (forall x r, get_range l' x = Some r -> r = no_range \/
          (get_range l x = Some r /\ forall c st, c ∈ cs -> stmt_at p0 c = Some st -> st_local_id st <> x))
    /\ (forall x v, get_at w' (x - rl_start l) = Some v ->
          exists v0, get_at w (x - rl_start l) = Some v0 /\ v = v0 + writes_of x cs).
Proof.
  induction cs as [|c cs IH]; intros Hst l w Hlen Hw.
  { exists l, w. split; [done|]. split; [done|]. split; [done|]. split.
    - intros x r Hr. right. split; [done|]. intros c st Hc. by apply not_elem_of_nil in Hc.
    - intros x v Hv. exists v. split; [done|]. unfold writes_of, count_of. cbn. lia. }
  destruct (Hst c) as [st Hc]; [by left|].
  destruct (clear_one c st cs l w Hc Hlen Hw) as (l1 & w1 & Hf & Hsh & Hlen1 & Hr1 & Hw1 & Hb1).
  destruct (IH ltac:(intros; apply Hst; by right) l1 w1) as (l2 & w2 & Hf2 & Hsh2 & Hlen2 & Hr2 & Hw2);
    [destruct Hsh; congruence|done|].
  exists l2, w2. cbn [fold_stmts]. rewrite Hc, Hf. split; [done|]. destruct Hsh as [E1 E2]. destruct Hsh2 as [E3 E4].
  split; [split; congruence|]. split; [congruence|]. split.
  - intros x r Hr. destruct (Hr2 _ _ Hr) as [?|[Hl1 Hn]]; [by left|]. destruct (Hr1 _ _ Hl1) as [?|[Hl Hn1]]; [by left|].
    right. split; [done|]. intros c' st' [->|Hc']%elem_of_cons Hs'; [by simplify_eq|by eapply Hn].
  - intros x v Hv. rewrite <- E1 in Hv. destruct (Hw2 _ _ Hv) as (v1 & Hv1 & ->). rewrite E1 in Hv1.
    destruct (Hw1 _ _ Hv1) as (v0 & Hv0 & ->). exists v0. split; [done|]. unfold writes_of, count_of. rewrite filter_cons.
    destruct (assigns x c); [rewrite decide_True by done|rewrite decide_False by done]; cbn [length of_bool]; lia.
Qed.

(** One assignment: it is the only one. *)
Lemma one_write x cs m c m' c' :
  writes_of x cs = 1 -> cs !! m = Some c -> assigns x c = true -> cs !! m' = Some c' -> assigns x c' = true -> m' = m.
Proof.
  unfold writes_of, count_of. revert m m'. induction cs as [|c0 cs IH]; intros m m' Hn Hc Ha Hc' Ha'; [done|].
  rewrite filter_cons in Hn. destruct (decide (assigns x c0 = true)) as [H0|H0].
  - cbn [length] in Hn. assert (filter (fun c => assigns x c = true) cs = []) as Hf by (apply nil_length_inv; lia).
    assert (forall n y, cs !! n = Some y -> assigns x y = true -> False) as Hno.
    { intros n y Hy Hay. assert (y ∈ filter (fun c => assigns x c = true) cs) as Hin.
      { apply list_elem_of_filter. split; [done|]. by eapply list_elem_of_lookup_2. }
      rewrite Hf in Hin. by apply not_elem_of_nil in Hin. }
    destruct m, m'; cbn in *; [done|exfalso; eauto..].
  - destruct m, m'; cbn in *; simplify_eq; try done. f_equal. by eapply IH.
Qed.

(** ** Evaluation, inverted *)

Lemma eval_name g s id e v : get_at (expressions p0) id = Some e -> e_kind e = DYN_EXPR_NAME ->
  eval g p0 s id = Some (Value v) -> load (e_type e) (s (e_integer e)) = Value v.
Proof. intros He Hk H. destruct g as [|g]; [done|]. cbn [eval] in H. rewrite He, Hk in H. congruence. Qed.
Lemma eval_binary g s id e v : get_at (expressions p0) id = Some e -> e_kind e = DYN_EXPR_BINARY ->
  e_op e <> DYN_OP_LOGICAL_AND -> e_op e <> DYN_OP_LOGICAL_OR -> eval g p0 s id = Some (Value v) ->
  exists g' l r, eval g' p0 s (e_left e) = Some (Value l) /\ eval g' p0 s (e_right e) = Some (Value r)
                 /\ binop e (type_of p0 (e_left e)) l r = Value v.
Proof.
  intros He Hk Ha Ho H. destruct g as [|g]; [done|]. cbn [eval] in H. rewrite He, Hk in H.
  destruct (eval g p0 s (e_left e)) as [[l| |]|] eqn:Hl; try done.
  rewrite bool_decide_false in H by (intros [[? _]|[? _]]; done).
  destruct (eval g p0 s (e_right e)) as [[r| |]|] eqn:Hr; try done. injection H as H. eauto 10.
Qed.
Lemma load_word t z v : 0 <= z <= umax t -> load t (Word z) = Value v -> v = Word z.
Proof.
  intros Hz. unfold load. split_if; intros [= <-]; [|done]. f_equal. apply Z.mod_small. lia.
Qed.
(** An addition of words at an unsigned type. *)
Lemma binop_add e tl a b v : e_op e = DYN_OP_ADD -> unsigned_type (e_type e) = true -> 0 <= a -> 0 <= b ->
  binop e tl (Word a) (Word b) = Value v ->
  exists z, v = Word z /\ 0 <= z <= a + b /\ (a + b <= umax (e_type e) -> z = a + b).
Proof.
  intros Hop Hu Ha Hb H. unfold binop in H. rewrite Hop, Hu in H. unfold exact_op in H.
  rewrite bool_decide_false in H by done. destruct (e_wrap e).
  - simplify_eq. pose proof (unsigned_max_range (e_type e) pointer_size). eexists. split; [done|]. unfold wrap_to, umax in *.
    split; [split; [apply Z.mod_pos_bound; lia|apply Z.mod_le; lia]|]. intros Hle. apply Z.mod_small. lia.
  - unfold arith in H. rewrite Hu in H. unfold exact_op in H. rewrite bool_decide_false in H by done. cbv zeta in H.
    destruct (_ && _); [|by destruct (e_boolean e)]. simplify_eq. eexists. split; [done|]. lia.
Qed.

Lemma respects_update l l' x r s v :
  respects p0 l s -> same_shape l l' -> (forall y, get_range l' y = if y =? x then Some r else get_range l y) ->
  in_range r v -> (r_valid r = true -> typed_local p0 x v) -> respects p0 l' (update s x v).
Proof.
  intros Hs Hsh Hg Hr Ht y ry Hh Hy. rewrite (same_shape_has _ _ _ Hsh) in Hh. rewrite Hg in Hy. unfold update.
  destruct (Z.eqb_spec y x) as [->|Hne]; [by simplify_eq|]. by apply Hs.
Qed.
Lemma respects_weaken l l' x s :
  respects p0 l s -> same_shape l l' -> (forall y, get_range l' y = if y =? x then Some no_range else get_range l y) ->
  respects p0 l' s.
Proof.
  intros Hs Hsh Hg y ry Hh Hy. rewrite (same_shape_has _ _ _ Hsh) in Hh. rewrite Hg in Hy.
  destruct (Z.eqb_spec y x) as [->|Hne]; [simplify_eq; split; [apply no_range_in|done]|]. by apply Hs.
Qed.
Lemma stored_typed c st g s v :
  stmt_at p0 c = Some st -> writes_local st = true ->
  eval g p0 s (st_expression st) = Some (Value v) -> typed_local p0 (st_local_id st) v.
Proof.
  intros Hc Hk Hv id e He Hn Hi Hu. assert (exists x, get_at (expressions p0) (st_expression st) = Some x) as [x Hx].
  { destruct g; [done|]. cbn [eval] in Hv. destruct (get_at _ _) as [x|]; [by exists x|done]. }
  pose proof (ty_store _ Hty _ _ _ _ _ Hc Hk Hx He Hn Hi) as Et.
  assert (type_of p0 (st_expression st) = e_type e) as Et' by (unfold type_of; by rewrite Hx).
  rewrite <- Et'. apply (eval_typed p0 s (wf_words _ Hwf) Hty _ _ _ Hv). by rewrite Et'.
Qed.

(** ** Counted loops *)

Section Loop.
Context (loop : DynIrStmt) (outer : RangeLocals) (Pre : env -> Prop).
Context (Hpre : forall s, Pre s -> respects p0 outer s).
Context (Hsimple : Forall (fun c => exists st, stmt_at p0 c = Some st /\ simple_stmt st) (loop_body p0 loop)).
(** What the body declares is not known before the loop. *)
Context (Hfresh : forall c st r, c ∈ loop_body p0 loop -> stmt_at p0 c = Some st -> st_kind st = DYN_STMT_LOCAL ->
                  get_range outer (st_local_id st) = Some r -> r_valid r = false).
Abbreviation cs := (loop_body p0 loop).

(** A local with a range before the loop that one assignment writes is
    written by nothing else. *)
Lemma written_once x r m c :
  get_range outer x = Some r -> r_valid r = true -> writes_of x cs = 1 -> cs !! m = Some c -> assigns x c = true ->
  forall m' c' st, cs !! m' = Some c' -> stmt_at p0 c' = Some st -> st_local_id st = x -> m' = m.
Proof.
  intros Hr Hv Hone Hm Ha m' c' st Hm' Hst Hx. eapply one_write; [exact Hone|exact Hm|done|exact Hm'|].
  unfold assigns. rewrite Hst. pose proof (list_elem_of_lookup_2 _ _ _ Hm') as Hin.
  pose proof (proj1 (Forall_forall _ _) Hsimple _ Hin) as (st' & Hst' & [[Hk|Hk]%writes_kind _]); simplify_eq.
  - rewrite (Hfresh _ _ _ Hin Hst Hk Hr) in Hv. done.
  - unfold is_stmt. rewrite bool_decide_true by done. by rewrite Z.eqb_refl.
Qed.

(** What [prove_unsigned_loop] has found when it starts to mark. *)
Record counted (inside : RangeLocals) (i ty : Z) (start bound : Z) (inclusive : bool) : Prop := {
  co_shape : same_shape outer inside;
  co_inside : forall x r, get_range inside x = Some r -> r = no_range \/
    (get_range outer x = Some r /\ forall c st, c ∈ cs -> stmt_at p0 c = Some st -> st_local_id st <> x);
  co_condition : exists e ind, get_at (expressions p0) (st_expression loop) = Some e /\ e_kind e = DYN_EXPR_BINARY
    /\ e_op e = (if inclusive then DYN_OP_LE else DYN_OP_LT)
    /\ get_at (expressions p0) (e_left e) = Some ind /\ e_kind ind = DYN_EXPR_NAME /\ e_integer ind = i /\ e_type ind = ty
    /\ exists r, uint_range (enough p0) p0 (e_right e) inside pointer_size 0 = Some r /\ r_exact r = true /\ r_value r = bound;
  co_unsigned : unsigned_type ty = true;
  co_start : exists r, get_range outer i = Some r /\ r_exact r = true /\ r_value r = start;
  co_order : start <= bound;
  co_inclusive : inclusive = true -> bound < umax ty;
  co_once : writes_of i cs = 1;
  co_last : exists c st e lhs r, cs !! (length cs - 1)%nat = Some c /\ stmt_at p0 c = Some st
    /\ (st_kind st = DYN_STMT_ASSIGN /\ writes_local st = true) /\ st_local_id st = i
    /\ get_at (expressions p0) (st_expression st) = Some e /\ e_kind e = DYN_EXPR_BINARY /\ e_op e = DYN_OP_ADD
    /\ get_at (expressions p0) (e_left e) = Some lhs /\ e_kind lhs = DYN_EXPR_NAME /\ e_integer lhs = i
    /\ uint_range (enough p0) p0 (e_right e) inside pointer_size 0 = Some r /\ r_exact r = true /\ r_value r = 1 }.

Context (inside : RangeLocals) (i ty start bound : Z) (inclusive : bool).
Context (Hco : counted inside i ty start bound inclusive).
Definition iterations : Z := bound - start + of_bool inclusive.

(** What the body does not write keeps the range it had. *)
Lemma cleared_respects s0 k pos s : Pre s0 -> loop_state loop s0 k pos s -> respects p0 inside s.
Proof.
  intros H0 Hs x r Hh Hr. destruct (co_inside _ _ _ _ _ _ Hco _ _ Hr) as [->|[Ho Hn]]; [split; [apply no_range_in|done]|].
  rewrite (unwritten loop s0 x Hn _ _ _ Hs). apply (Hpre _ H0); [|done]. by eapply has_get.
Qed.

(** The test of iteration [k], when the induction variable is [start + k]. *)
Lemma test_passes s0 k s g c :
  Pre s0 -> loop_state loop s0 k None s -> s i = Word (start + Z.of_nat k) -> 0 <= start + Z.of_nat k <= umax ty ->
  eval g p0 s (st_expression loop) = Some (Value c) -> c <> Word 0 ->
  Z.of_nat k < iterations /\ start + Z.of_nat k + 1 <= umax ty.
Proof.
  intros H0 Hs Hi Hr Hc Hne. pose proof (cleared_respects _ _ _ _ H0 Hs) as Hres.
  destruct (co_condition _ _ _ _ _ _ Hco) as (e & ind & He & Hk & Hop & Hind & Hnk & Hni & Hnt & r & Hru & Hre & Hrv).
  apply (eval_binary _ _ _ _ _ He Hk) in Hc as (g' & l & rv & Hl & Hrr & Hb); [|by rewrite Hop; destruct inclusive..].
  assert (type_of p0 (e_left e) = ty) as Ety by (unfold type_of; by rewrite Hind).
  pose proof (eval_name _ _ _ _ _ Hind Hnk Hl) as Hl'. rewrite Hnt, Hni, Hi in Hl'. apply load_word in Hl' as ->; [|done].
  destruct (uint_range_sound p0 inside s (wf_words _ Hwf) Hres _ _ _ _ _ _ Hru Hrr) as [Hev Hin].
  destruct (Hin (Hev Hre)) as (z & -> & Hz & _ & Hex). rewrite (Hex Hre), Hrv in *.
  assert (0 <= bound <= umax ty) as Hbt.
  { assert (type_of p0 (e_right e) = ty) as Er.
    { rewrite <- Ety. eapply ty_compare; [exact Hty|exact He|done|]. rewrite Hop. destruct inclusive; auto. }
    destruct (eval_typed p0 s (wf_words _ Hwf) Hty _ _ _ Hrr) as (y & [= <-] & Hy).
    - rewrite Er. apply (co_unsigned _ _ _ _ _ _ Hco).
    - by rewrite Er in Hy. }
  unfold binop in Hb. rewrite Hop, Ety, (co_unsigned _ _ _ _ _ _ Hco) in Hb. unfold iterations.
  pose proof (co_inclusive _ _ _ _ _ _ Hco) as Hinc.
  destruct inclusive; injection Hb as <-; cbn [of_bool].
  - destruct (Z.leb_spec (start + Z.of_nat k) bound); [|done]. specialize (Hinc eq_refl). lia.
  - destruct (Z.ltb_spec (start + Z.of_nat k) bound); [|done]. lia.
Qed.
(** The last statement adds one to the induction variable. *)
Lemma increments s0 k s g c st v :
  Pre s0 -> loop_state loop s0 k (Some (length cs - 1)%nat) s -> s i = Word (start + Z.of_nat k) ->
  0 <= start + Z.of_nat k -> start + Z.of_nat k + 1 <= umax ty ->
  cs !! (length cs - 1)%nat = Some c -> stmt_at p0 c = Some st -> eval g p0 s (st_expression st) = Some (Value v) ->
  v = Word (start + Z.of_nat k + 1).
Proof.
  intros H0 Hs Hi Hk Hle Hc Hst Hv. pose proof (cleared_respects _ _ _ _ H0 Hs) as Hres.
  destruct (co_last _ _ _ _ _ _ Hco) as (c' & st' & e & lhs & r & Hc' & Hst' & Hsk & Hsx & He & Hek & Hop & Hlhs & Hlk & Hli & Hru & Hre & Hrv).
  simplify_eq. destruct (co_condition _ _ _ _ _ _ Hco) as (ce & ind & _ & _ & _ & Hind & Hnk & Hni & Hnt & _).
  assert (e_type ind = e_type e) as Et.
  { rewrite <- (ty_store _ Hty _ _ _ _ _ Hst (proj2 Hsk) He Hind Hnk) by congruence. done. }
  assert (e_type lhs = e_type e) as Etl.
  { by rewrite <- (ty_store _ Hty _ _ _ _ _ Hst (proj2 Hsk) He Hlhs Hlk Hli). }
  apply (eval_binary _ _ _ _ _ He Hek) in Hv as (g' & l & rv & Hl & Hrr & Hb); [|by rewrite Hop..].
  pose proof (eval_name _ _ _ _ _ Hlhs Hlk Hl) as Hl'. rewrite Hli, Hi in Hl'.
  apply load_word in Hl' as ->; [|rewrite Etl, <- Et, Hnt; lia].
  destruct (uint_range_sound p0 inside s (wf_words _ Hwf) Hres _ _ _ _ _ _ Hru Hrr) as [Hev Hin].
  destruct (Hin (Hev Hre)) as (z & -> & Hz & _ & Hex). rewrite (Hex Hre), Hrv in *.
  apply binop_add in Hb as (y & -> & _ & Hy); [|done| |lia|lia].
  - f_equal. apply Hy. rewrite <- Et, Hnt. lia.
  - rewrite <- Et, Hnt. apply (co_unsigned _ _ _ _ _ _ Hco).
Qed.
Lemma induction_value s0 k pos s : Pre s0 -> loop_state loop s0 k pos s ->
  match pos with
  | None => s i = Word (start + Z.of_nat k)
  | Some m => Z.of_nat k < iterations /\ start + Z.of_nat k <= umax ty /\ ((m < length cs)%nat -> s i = Word (start + Z.of_nat k))
  end.
Proof.
  intros H0 Hs. destruct (co_start _ _ _ _ _ _ Hco) as (r & Hr & Hre & Hrv).
  destruct (Hpre _ H0 i r (has_get _ _ _ Hr) Hr) as [[Hev Hin] Ht].
  destruct (Hin (Hev Hre)) as (z & Hz & Hzr & _ & Hex). pose proof (Hex Hre) as Ez. rewrite Hrv in Ez. subst z.
  destruct (co_condition _ _ _ _ _ _ Hco) as (ce & ind & _ & _ & _ & Hind & Hnk & Hni & Hnt & _).
  destruct (Ht (Hev Hre) _ _ Hind Hnk Hni) as (y & Hy & Hyr); [rewrite Hnt; apply (co_unsigned _ _ _ _ _ _ Hco)|].
  rewrite Hz in Hy. injection Hy as <-. rewrite Hnt in Hyr.
  destruct (co_last _ _ _ _ _ _ Hco) as (c' & st' & e & lhs & r' & Hc' & Hst' & Hsk & Hsx & _).
  pose proof (lookup_lt_Some _ _ _ Hc') as Hlen.
  pose proof (single_write loop s0 i (length cs - 1)%nat
    (fun k v => v = Word (start + Z.of_nat k) /\ 0 <= start + Z.of_nat k <= umax ty)
    (fun k => Z.of_nat k < iterations /\ start + Z.of_nat k + 1 <= umax ty)) as Hsw.
  ospecialize (Hsw _ _ _ _ _ k pos s Hs).
  - cbn. rewrite Hz, Z.add_0_r. split; [done|]. lia.
  - eapply written_once; [exact Hr|by apply Hev|apply (co_once _ _ _ _ _ _ Hco)|exact Hc'|].
    unfold assigns, is_stmt. rewrite Hst', bool_decide_true by apply Hsk. by rewrite Hsx, Z.eqb_refl.
  - left. split; [intros c st Hc Hst; by simplify_eq|lia].
  - intros k' s' g c Hs' [Hv' Hr'] Hc Hne. by eapply test_passes.
  - intros k' s' g c st v Hs' [Ht1 Ht2] [Hv' Hr'] Hc Hst Hx Hv.
    rewrite (increments _ _ _ _ _ _ _ H0 Hs' Hv' (proj1 Hr') Ht2 Hc Hst Hv). rewrite Nat2Z.inj_succ. split; [f_equal; lia|lia].
  - destruct pos as [m|]; [|apply Hsw]. destruct Hsw as [[Hit Hum] Hm]. split; [done|]. split; [lia|]. intros Hlt.
    rewrite decide_True in Hm by lia. apply Hm.
Qed.

(** The addition of a bounded step to a local, at most once per iteration,
    stays below the limit. *)
Lemma growth_ok m c st e lhs ins initial step :
  cs !! m = Some c -> stmt_at p0 c = Some st -> st_kind st = DYN_STMT_ASSIGN ->
  get_at (expressions p0) (st_expression st) = Some e -> e_kind e = DYN_EXPR_BINARY -> e_op e = DYN_OP_ADD ->
  get_at (expressions p0) (e_left e) = Some lhs -> e_kind lhs = DYN_EXPR_NAME -> e_integer lhs = st_local_id st ->
  writes_of (st_local_id st) cs = 1 -> get_range outer (st_local_id st) = Some initial ->
  uint_range (enough p0) p0 (e_right e) ins pointer_size 0 = Some step ->
  (forall s0 k s, Pre s0 -> loop_state loop s0 k (Some m) s -> respects p0 ins s) ->
  unsigned_type (e_type e) = true -> r_valid initial = true -> r_valid step = true ->
  r_max initial + iterations * r_max step <= umax (e_type e) ->
  forall s0 k s, Pre s0 -> loop_state loop s0 k (Some m) s -> mark_ok p0 s e.
Proof.
  intros Hm Hst Hsk He Hek Hop Hlhs Hlk Hli Hone Hini Hstep Hins Hu Hiv Hsv Hlim s0 k s H0 Hs.
  set (x := st_local_id st) in *.
  assert (forall k s g a b, loop_state loop s0 k (Some m) s -> (exists z, s x = Word z /\ 0 <= z <= r_max initial + Z.of_nat k * r_max step) ->
    eval g p0 s (e_left e) = Some (Value a) -> eval g p0 s (e_right e) = Some (Value b) ->
    exists y z, a = Word y /\ b = Word z /\ 0 <= y <= r_max initial + Z.of_nat k * r_max step /\ 0 <= z <= r_max step) as Hops.
  { intros k' s' g a b Hs' (z & Hz & Hzr) Ha Hb. pose proof (eval_name _ _ _ _ _ Hlhs Hlk Ha) as Hl. rewrite Hli, Hz in Hl.
    destruct (uint_range_sound p0 ins s' (wf_words _ Hwf) (Hins _ _ _ H0 Hs') _ _ _ _ _ _ Hstep Hb) as [_ Hin].
    destruct (Hin Hsv) as (y & -> & Hy & _). unfold load in Hl. split_if_in Hl; simplify_eq; [|by exists z, y].
    exists (wrap_to (e_type lhs) z), y. split_and!; [done..| | |lia|lia].
    - apply wrap_to_range.
    - pose proof (unsigned_max_range (e_type lhs) pointer_size). unfold wrap_to, umax.
      pose proof (Z.mod_le z (unsigned_max (e_type lhs) pointer_size + 1)). lia. }
  pose proof (single_write loop s0 x m (fun k v => exists z, v = Word z /\ 0 <= z <= r_max initial + Z.of_nat k * r_max step)
    (fun _ => True)) as Hsw.
  ospecialize (Hsw _ _ _ _ _ k (Some m) s Hs).
  - destruct (Hpre _ H0 x initial (has_get _ _ _ Hini) Hini) as [[_ Hin] _]. destruct (Hin Hiv) as (z & -> & Hz & _).
    exists z. split; [done|]. lia.
  - eapply written_once; [exact Hini|done|done|exact Hm|]. unfold assigns, is_stmt. rewrite Hst, bool_decide_true by done.
    by rewrite Z.eqb_refl.
  - left. split; [intros c' st' Hc' Hst'; by simplify_eq|]. by eapply lookup_lt_Some.
  - done.
  - intros k' s' g c' st' v Hs' _ Hacc Hc' Hst' _ Hv. simplify_eq.
    apply (eval_binary _ _ _ _ _ He Hek) in Hv as (g' & a & b & Ha & Hb & Hv); [|by rewrite Hop..].
    destruct (Hops _ _ _ _ _ Hs' Hacc Ha Hb) as (y & z & -> & -> & Hy & Hz).
    apply binop_add in Hv as (w & -> & Hw & _); [|done..|lia|lia]. exists w. split; [done|]. rewrite Nat2Z.inj_succ. lia.
  - destruct Hsw as [_ Hsw]. rewrite decide_True in Hsw by done. unfold mark_ok. rewrite Hek. split; [done|].
    intros g a b Ha Hb. right. destruct (Hops _ _ _ _ _ Hs Hsw Ha Hb) as (y & z & [= <-] & [= <-] & Hy & Hz).
    destruct (induction_value _ _ _ _ H0 Hs) as [Hk _]. unfold arith. rewrite Hu. unfold exact_op.
    rewrite bool_decide_false by done. cbv zeta. rewrite (proj2 (Z.leb_le _ _)), (proj2 (Z.leb_le _ _)); [done|nia|lia].
Qed.

(** The ranges the second loop over the body starts with. *)
Lemma inside_respects ins :
  same_shape inside ins -> bound <= UINT64_MAX ->
  (forall y, get_range ins y = if y =? i then Some (mkRange true false (if inclusive then bound else if negb (bound =? 0) then bound - 1 else 0) 0)
             else get_range inside y) ->
  forall s0 k s, Pre s0 -> loop_state loop s0 k (Some 0%nat) s -> respects p0 ins s.
Proof.
  intros Hsh Hb Hg s0 k s H0 Hs. destruct (induction_value _ _ _ _ H0 Hs) as (Hk & Hum & Hi).
  destruct (co_last _ _ _ _ _ _ Hco) as (c & st & e & _ & _ & Hc & Hst & Hsk & Hsx & He & _).
  pose proof (lookup_lt_Some _ _ _ Hc) as Hlen. specialize (Hi ltac:(lia)).
  destruct (co_start _ _ _ _ _ _ Hco) as (r & Hr & Hre & Hrv).
  destruct (Hpre _ H0 i r (has_get _ _ _ Hr) Hr) as [[Hev Hin] _]. destruct (Hin (Hev Hre)) as (z & _ & Hz & _ & Hex).
  specialize (Hex Hre). unfold iterations, of_bool in Hk.
  intros y ry Hh Hy. rewrite (same_shape_has _ _ _ Hsh) in Hh. rewrite Hg in Hy.
  destruct (Z.eqb_spec y i) as [Ey|Hne]; [|by apply (cleared_respects _ _ _ _ H0 Hs)]. injection Hy as <-. rewrite Ey, Hi. split.
  - apply in_range_valid; cbn; [done| | |done]; destruct inclusive; try (destruct (Z.eqb_spec bound 0)); cbn; lia.
  - intros _ id e' He' Hnk Hni Hu. eexists. split; [done|]. split; [lia|].
    destruct (co_condition _ _ _ _ _ _ Hco) as (ce & ind & _ & _ & _ & Hind & Hik & Hii & Hit & _).
    rewrite <- (ty_store _ Hty _ _ _ _ _ Hst (proj2 Hsk) He He' Hnk) by congruence.
    rewrite (ty_store _ Hty _ _ _ _ _ Hst (proj2 Hsk) He Hind Hik) by congruence. congruence.
Qed.

(** A mark that changes no evaluation of its statement, in any run. *)
Definition justified (id : Z) (e : DynIrExpr) : Prop :=
  exists m c, cs !! m = Some c /\ owner id = c
    /\ forall s0 k s, Pre s0 -> loop_state loop s0 k (Some m) s -> mark_ok p0 s e.
Definition loop_marks (p p' : DynIrProgram) : Prop := le_marks p p' /\ forall id e, new_mark p p' id e -> justified id e.
#[local] Instance loop_marks_preorder : PreOrder loop_marks.
Proof.
  split.
  - intros p. split; [reflexivity|]. intros id e H. by apply new_mark_irrefl in H.
  - intros p1 p2 p3 [H1 Hn1] [H2 Hn2]. split; [by etrans|]. intros id e H.
    destruct (new_mark_trans _ _ _ _ _ H1 H2 H) as [?|?]; eauto.
Qed.

Context (Hit : 0 <= iterations <= UINT64_MAX).
Context (writes : list Z).
Context (Hwr : forall x v, get_at writes (x - rl_start outer) = Some v -> v = writes_of x cs).
Context (Hwl : length writes = length (rl_values outer)).

(** What holds before statement [m] when the pass reaches it. *)
Record pass_inv (m : nat) (p : DynIrProgram) (ins : RangeLocals) : Prop := {
  pi_le : le_marks p0 p;
  pi_shape : same_shape outer ins;
  pi_nonneg : ranges_nonneg ins;
  pi_respects : forall s0 k s, Pre s0 -> loop_state loop s0 k (Some m) s -> respects p0 ins s }.

Lemma state_before m s0 k s : loop_state loop s0 k (Some (S m)) s ->
  exists c st g s1 v, loop_state loop s0 k (Some m) s1 /\ cs !! m = Some c /\ stmt_at p0 c = Some st
    /\ eval g p0 s1 (st_expression st) = Some (Value v) /\ s = update s1 (st_local_id st) v.
Proof.
  intros H. inversion H as [| |k' m' s1 g c s' H1 Hc Hr|]; subst. destruct (store_stmt_inv _ _ _ _ Hr) as (st & v & Hst & Hv & ->).
  exists c, st, g, s1, v. done.
Qed.
(** The ranges after a statement whose local gets the range [r]. *)
Lemma inv_set m p p' ins ins' c st r :
  pass_inv m p ins -> le_marks p p' -> cs !! m = Some c -> stmt_at p0 c = Some st ->
  same_shape ins ins' -> (forall y, get_range ins' y = if y =? st_local_id st then Some r else get_range ins y) -> nonneg r ->
  (forall s g v, respects p0 ins s -> eval g p0 s (st_expression st) = Some (Value v) -> in_range r v) ->
  pass_inv (S m) p' ins'.
Proof.
  intros [Hle [E1 E2] Hnn Hres] Hle' Hc Hst [E3 E4] Hg Hr Hin. split.
  - by etrans.
  - split; congruence.
  - intros y ry Hy. rewrite Hg in Hy. split_if_in Hy; [by simplify_eq|]. by eapply Hnn.
  - intros s0 k s H0 Hs. destruct (state_before _ _ _ _ Hs) as (c' & st' & g & s1 & v & Hs1 & Hc' & Hst' & Hv & ->). simplify_eq.
    eapply respects_update; [by eapply Hres|done|exact Hg| |].
    + eapply Hin; [by eapply Hres|done].
    + intros _. eapply stored_typed; [done| |done].
      pose proof (proj1 (Forall_forall _ _) Hsimple _ (list_elem_of_lookup_2 _ _ _ Hc)) as (st'' & ? & [? _]). by simplify_eq.
Qed.
Lemma inv_keep m p p' ins c st :
  pass_inv m p ins -> le_marks p p' -> cs !! m = Some c -> stmt_at p0 c = Some st ->
  range_has_local ins (st_local_id st) = false -> pass_inv (S m) p' ins.
Proof.
  intros [Hle Hsh Hnn Hres] Hle' Hc Hst Hno. split; [by etrans|done|done|].
  intros s0 k s H0 Hs. destruct (state_before _ _ _ _ Hs) as (c' & st' & g & s1 & v & Hs1 & Hc' & Hst' & Hv & ->). simplify_eq.
  intros y ry Hh Hy. unfold update. destruct (Z.eqb_spec y (st_local_id st)) as [->|]; [congruence|]. by eapply Hres.
Qed.

(** The test for an addition. *)
Lemma growth_test p st e ins b :
  le_marks p0 p -> ranges_nonneg ins -> bounded_growth p st e outer ins iterations pointer_size = Some b -> b = true ->
  exists initial step, get_range outer (st_local_id st) = Some initial
    /\ uint_range (enough p0) p0 (e_right e) ins pointer_size 0 = Some step /\ unsigned_type (e_type e) = true
    /\ r_valid initial = true /\ r_valid step = true /\ r_max initial + iterations * r_max step <= umax (e_type e).
Proof.
  intros Hle Hnn H ->. unfold bounded_growth in H. destruct (get_range outer _) as [initial|]; [|done].
  rewrite (uint_range_marks _ _ Hle), (le_enough _ _ Hle) in H.
  destruct (uint_range _ _ _ _ _ _) as [step|] eqn:Hs; [|done]. cbv zeta in H. destruct (_ || _) eqn:Hb; [done|].
  apply (uint_range_nonneg _ _ _ (wf_words _ Hwf) Hnn) in Hs as Hsn. destruct Hsn as [Hsn _].
  injection H as H. to_prop. destruct Hb as [[[Hu Hi] Hsv] Hov]. exists initial, step. split_and!; try done.
  assert (0 <= r_max step * iterations <= UINT64_MAX) as Hp.
  { destruct Hov as [->|Hov]; [unfold UINT64_MAX; lia|]. destruct (Z.eq_dec iterations 0) as [->|]; [unfold UINT64_MAX; lia|].
    pose proof (Z.mul_div_le UINT64_MAX iterations). nia. }
  rewrite u64_small in H by (unfold UINT64_MAX in Hp; lia). unfold umax. lia.
Qed.
Lemma bounded_growth_total p st e ins :
  le_marks p0 p -> 0 <= e_right e -> range_has_local outer (st_local_id st) = true ->
  exists b, bounded_growth p st e outer ins iterations pointer_size = Some b.
Proof.
  intros Hle Hr Hh. unfold bounded_growth. destruct (get_range_has _ _ Hh) as [initial ->].
  destruct (uint_range_enough p ins pointer_size (e_right e) Hle Hr) as (step & -> & _). cbv zeta. split_if; by eexists.
Qed.

Lemma prove_add_spec m c st p p1 ins :
  cs !! m = Some c -> stmt_at p0 c = Some st -> st_kind st = DYN_STMT_ASSIGN -> pass_inv m p ins -> le_marks p p1 ->
  0 <= st_expression st < expression_count p0 -> range_has_local ins (st_local_id st) = true ->
  exists p' ins', prove_add outer writes iterations pointer_size st p1 ins = Some (p', ins')
    /\ pass_inv (S m) p' ins' /\ loop_marks p1 p'.
Proof.
  intros Hc Hst Hk Hinv Hle1 Hr Hh. pose proof Hinv as [Hle Hsh Hnn Hres]. unfold prove_add.
  assert (le_marks p0 p1) as L1 by (by etrans).
  destruct (get_at_is_Some (expressions p0) (st_expression st)) as [e0 He0]; [done|].
  pose proof (le_get _ _ (st_expression st) L1) as Hg0. rewrite He0 in Hg0.
  destruct (get_at (expressions p1) (st_expression st)) as [e|] eqn:He; [|done].
  destruct (set_range_spec ins (st_local_id st) no_range Hh) as (ins' & -> & Hsh' & Hg).
  assert (forall p2, le_marks p1 p2 -> pass_inv (S m) p2 ins') as Hinv'.
  { intros p2 L2. eapply inv_set; [exact Hinv|by etrans|done..|intros; apply no_range_in]. }
  assert (exists p' ins'', Some (p1, ins') = Some (p', ins'') /\ pass_inv (S m) p' ins'' /\ loop_marks p1 p') as Hstop.
  { exists p1, ins'. split; [done|]. split; [by apply Hinv'|reflexivity]. }
  assert (same_shape outer ins') as [Es El] by (destruct Hsh, Hsh'; split; congruence). rewrite Es.
  rewrite (same_shape_has _ _ _ Hsh) in Hh. pose proof Hh as Hh'. unfold range_has_local, count_of in Hh'. to_prop.
  destruct (get_at_is_Some writes (st_local_id st - rl_start outer)) as [w Hw]; [lia|]. rewrite Hw.
  apply Hwr in Hw. pose proof (le_fields _ _ Hg0) as (Ek & Et & Eo & Eleft & Eright & _).
  destruct (_ || _) eqn:Hb; [exact Hstop|]. to_prop. unfold is_kind, is_op in Hb.
  destruct Hb as [[Hone Hek] Heo]. apply bool_decide_eq_true in Hek, Heo. rewrite Ek in Hek. rewrite Eo in Heo.
  pose proof (wf_operands _ Hwf _ _ He0 (or_intror Hek)) as Hlr. destruct (wf_expr _ Hwf _ _ He0) as (Hl0 & Hr0 & _).
  rewrite Eleft. destruct (get_at_is_Some (expressions p0) (e_left e0)) as [lhs0 Hlhs0]; [unfold expression_count, count_of in Hlr; lia|].
  pose proof (le_get _ _ (e_left e0) L1) as Hgl. rewrite Hlhs0 in Hgl.
  destruct (get_at (expressions p1) (e_left e0)) as [lhs|] eqn:Hlhs; [|done].
  apply le_fields in Hgl as (Elk & _ & _ & _ & _ & Eli & _).
  destruct (_ || _) eqn:Hb; [exact Hstop|]. to_prop. unfold is_kind in Hb.
  destruct Hb as [Hlk Hli]. apply bool_decide_eq_true in Hlk. rewrite Elk in Hlk. rewrite Eli in Hli.
  destruct (bounded_growth_total p1 st e ins' L1 ltac:(by rewrite Eright) Hh) as [b Hbg]. rewrite Hbg.
  destruct b; [|exact Hstop].
  destruct (growth_test p1 st e ins' true) as (initial & step & Hini & Hstep & Hu & Hiv & Hsv & Hlim);
    [done|apply (pi_nonneg _ _ _ (Hinv' p1 ltac:(reflexivity)))|done|done|].
  assert (exists p2, mark p1 (st_expression st) = Some p2) as [p2 Hp2].
  { unfold mark. rewrite He. pose proof He as [? _]%get_at_Some. rewrite set_at_insert by done. by eexists. }
  rewrite Hp2. destruct (mark_le _ _ _ Hp2) as [L2 N2]; [intros x Hx; simplify_eq; right; congruence|].
  exists p2, ins'. split; [done|]. split; [by apply Hinv'|]. split; [done|].
  intros id x Hx. pose proof (N2 _ _ Hx) as ->. apply (new_mark_base _ _ _ _ _ L1) in Hx. simplify_eq.
  exists m, c. split; [done|]. split; [by eapply (proj2 Hown)|]. rewrite Eright, Et in *.
  eapply growth_ok; [exact Hc|exact Hst|done|exact He0|done|done|exact Hlhs0|done|done|congruence|exact Hini|exact Hstep| |done..].
  intros s0 k s H0 Hs. eapply respects_weaken; [by eapply Hres|done|exact Hg].
Qed.
Lemma prove_stmt_spec m c st p ins :
  cs !! m = Some c -> stmt_at p0 c = Some st -> pass_inv m p ins ->
  exists p' ins', prove_stmt outer writes iterations pointer_size st (p, ins) = Some (p', ins')
    /\ pass_inv (S m) p' ins' /\ loop_marks p p'.
Proof.
  intros Hc Hst Hinv. pose proof Hinv as [Hle Hsh Hnn Hres]. unfold prove_stmt.
  destruct (wf_stmt _ Hwf _ _ Hst) as (Hex & _).
  pose proof (proj1 (Forall_forall _ _) Hsimple c (list_elem_of_lookup_2 _ _ _ Hc)) as (st' & Hst' & [Hk Hpure]). simplify_eq.
  destruct (prove_array_bounds_spec ins c (enough p) p (st_expression st) 0) as (p1 & -> & Hle1 & Hn1);
    [done|done|unfold expression_count, count_of; lia|rewrite (le_enough _ _ Hle); unfold enough, expression_count, count_of; lia
    |intros Hr; by eapply (proj2 Hown)|].
  assert (le_marks p0 p1) as L1 by (by etrans).
  assert (loop_marks p p1) as M1.
  { split; [done|]. intros id e Hn. destruct (Hn1 _ _ Hn) as [Ho Hb]. exists m, c. split_and!; [done..|].
    intros s0 k s H0 Hs. eapply bounded_index_ok; [by eapply Hres|done]. }
  destruct (range_has_local ins (st_local_id st)) eqn:Hh; cbn [negb andb orb].
  2: { rewrite andb_false_r, orb_true_r. exists p1, ins. split; [done|]. split; [|done]. by eapply inv_keep. }
  rewrite andb_true_r, orb_false_r. unfold is_stmt. case_bool_decide as Hlocal.
  { destruct (uint_range_enough p1 ins pointer_size (st_expression st) L1 Hex) as (r & -> & Hr).
    destruct (set_range_spec ins (st_local_id st) r Hh) as (ins' & -> & Hsh' & Hg). exists p1, ins'. split; [done|]. split; [|done].
    eapply inv_set; [done|done|done|done|done|exact Hg| |].
    - by eapply uint_range_nonneg; [apply wf_words| |exact Hr].
    - intros s g v Hs Hv. by eapply uint_range_sound; [apply wf_words|exact Hs|exact Hr|]. }
  apply writes_kind in Hk as [Hk|Hk]; [done|]. rewrite bool_decide_true by done. cbn [negb].
  destruct (prove_add_spec m c st p p1 ins) as (p2 & ins' & -> & Hinv' & M2); [done..|by apply pure_valid|done|].
  exists p2, ins'. split; [done|]. split; [done|]. by etrans.
Qed.
(** The second loop over the body. *)
Lemma prove_stmts_spec suffix m p ins :
  drop m cs = suffix -> pass_inv m p ins ->
  exists p' ins', fold_stmts (prove_stmt outer writes iterations pointer_size) suffix (p, ins) = Some (p', ins') /\ loop_marks p p'.
Proof.
  revert m p ins. induction suffix as [|c suffix IH]; intros m p ins Hd Hinv; [by exists p, ins|].
  assert (cs !! m = Some c) as Hc by (rewrite <- (Nat.add_0_r m), <- lookup_drop, Hd; done).
  pose proof (proj1 (Forall_forall _ _) Hsimple c (list_elem_of_lookup_2 _ _ _ Hc)) as (st & Hst & _).
  cbn [fold_stmts]. rewrite Hst. destruct (prove_stmt_spec m c st p ins Hc Hst Hinv) as (p1 & ins1 & -> & Hinv1 & M1).
  destruct (IH (S m) p1 ins1) as (p2 & ins2 & -> & M2); [|done|].
  - rewrite (drop_S _ _ _ Hc) in Hd. by injection Hd.
  - exists p2, ins2. split; [done|]. by etrans.
Qed.
End Loop.

(** ** The pass on a loop *)

Lemma body_length start count : 0 <= start -> 0 <= count -> start + count <= count_of (ir_children p0) ->
  count_of (body p0 start count) = count.
Proof. unfold body, count_of. intros. rewrite length_take, length_drop. lia. Qed.
Lemma body_lookup start count j c : 0 <= start -> 0 <= j < count -> get_at (ir_children p0) (start + j) = Some c ->
  body p0 start count !! Z.to_nat j = Some c.
Proof.
  unfold body. intros Hs Hj [Hr Hc]%get_at_Some. rewrite lookup_take_lt by lia. rewrite lookup_drop, <- Hc. f_equal. lia.
Qed.

Lemma read_node p id : le_marks p0 p -> 0 <= id < expression_count p0 ->
  exists e0 e, get_at (expressions p0) id = Some e0 /\ get_at (expressions p) id = Some e
    /\ (forall k, is_kind k e = is_kind k e0) /\ (forall o, is_op o e = is_op o e0) /\ e_left e = e_left e0
    /\ e_right e = e_right e0 /\ e_integer e = e_integer e0 /\ e_type e = e_type e0.
Proof.
  intros Hle Hr. destruct (get_at_is_Some (expressions p0) id Hr) as [e0 He0]. pose proof (le_get _ _ id Hle) as Hg.
  rewrite He0 in Hg. destruct (get_at (expressions p) id) as [e|]; [|done]. exists e0, e.
  unfold is_kind, is_op. by apply le_fields in Hg as (-> & -> & -> & -> & -> & -> & _).
Qed.
Lemma kind_true k e : is_kind k e = true -> e_kind e = k.
Proof. apply bool_decide_eq_true. Qed.
Lemma op_true o e : is_op o e = true -> e_op e = o.
Proof. apply bool_decide_eq_true. Qed.

(** What the analysis of a loop gives. *)
Definition facts_ok (loop : DynIrStmt) (outer : RangeLocals) (facts : option (RangeLocals * list Z * Z)) : Prop :=
  match facts with
  | None => True
  | Some (ins, writes, it) =>
      Forall (fun c => exists st, stmt_at p0 c = Some st /\ simple_stmt st) (loop_body p0 loop)
      /\ plain p0 (st_expression loop) = true /\ length writes = length (rl_values outer)
      /\ (forall x v, get_at writes (x - rl_start outer) = Some v -> v = writes_of x (loop_body p0 loop))
      /\ exists inside i ty start bound inclusive,
         counted loop outer inside i ty start bound inclusive /\ it = iterations start bound inclusive
         /\ 0 <= it <= UINT64_MAX /\ 0 <= bound <= UINT64_MAX /\ same_shape inside ins /\ ranges_nonneg inside
         /\ forall y, get_range ins y =
              if y =? i then Some (mkRange true false (if inclusive then bound else if negb (bound =? 0) then bound - 1 else 0) 0)
              else get_range inside y
  end.
(** The test of the last statement, and what it establishes. *)
Lemma last_increments_spec p loop c inside i :
  stmt_at p0 c = Some loop -> le_marks p0 p -> st_body_count loop <> 0 ->
  Forall (fun c => exists st, stmt_at p0 c = Some st /\ simple_stmt st) (loop_body p0 loop) ->
  exists b, last_increments p loop inside i pointer_size = Some b
  /\ (b = true -> exists c st e lhs r, loop_body p0 loop !! (length (loop_body p0 loop) - 1)%nat = Some c /\ stmt_at p0 c = Some st
      /\ (st_kind st = DYN_STMT_ASSIGN /\ writes_local st = true) /\ st_local_id st = i
      /\ get_at (expressions p0) (st_expression st) = Some e /\ e_kind e = DYN_EXPR_BINARY /\ e_op e = DYN_OP_ADD
      /\ get_at (expressions p0) (e_left e) = Some lhs /\ e_kind lhs = DYN_EXPR_NAME /\ e_integer lhs = i
      /\ uint_range (enough p0) p0 (e_right e) inside pointer_size 0 = Some r /\ r_exact r = true /\ r_value r = 1).
Proof.
  intros Hst Hle Hbc0 Hsimple. unfold last_increments.
  match goal with |- exists b, _ = Some b /\ (b = true -> ?P) =>
    assert (exists b, Some false = Some b /\ (b = true -> P)) as Hno_ by (by exists false) end.
  destruct (wf_stmt _ Hwf _ _ Hst) as (_ & _ & Hb0 & Hbc & Hbr). destruct (wf_sizes _ Hwf) as (_ & Hsz & _).
  pose proof (body_length (st_body_start loop) (st_body_count loop) Hb0 Hbc Hbr) as Hlen. fold (loop_body p0 loop) in Hlen.
  destruct (le_rest _ _ Hle) as (_ & -> & -> & _). rewrite u32_small by lia.
  destruct (get_at_is_Some (ir_children p0) (st_body_start loop + (st_body_count loop - 1))) as [cl Hcl']; [unfold count_of in *; lia|].
  replace (st_body_start loop + st_body_count loop - 1) with (st_body_start loop + (st_body_count loop - 1)) by lia. rewrite Hcl'.
  assert (loop_body p0 loop !! (length (loop_body p0 loop) - 1)%nat = Some cl) as Hlast.
  { replace (length (loop_body p0 loop) - 1)%nat with (Z.to_nat (st_body_count loop - 1)) by (unfold count_of in Hlen; lia).
    apply body_lookup; (lia || done). }
  destruct (proj1 (Forall_forall _ _) Hsimple cl (list_elem_of_lookup_2 _ _ _ Hlast)) as (last & Hlst & Hlk & Hlpure).
  unfold stmt_at in Hlst. rewrite Hlst. destruct (_ || negb (st_local_id last =? i)) eqn:Hl; [exact Hno_|]. to_prop.
  destruct Hl as [Hla Hlx]. apply bool_decide_eq_true in Hla. destruct (wf_stmt _ Hwf _ _ Hlst) as (Hlex & _).
  destruct (read_node p (st_expression last) Hle) as (inc & inc' & Hincr & -> & Kn & On & -> & -> & _); [by apply pure_valid|].
  rewrite Kn, On. destruct (negb (is_kind _ inc) || _) eqn:Hn; [exact Hno_|]. to_prop. destruct Hn as [Hnk Hno].
  apply kind_true in Hnk. apply op_true in Hno. destruct (wf_expr _ Hwf _ _ Hincr) as (Hnl & Hnr & _).
  pose proof (wf_operands _ Hwf _ _ Hincr (or_intror Hnk)) as Hnlr.
  destruct (read_node p (e_left inc) Hle) as (lhs & lhs' & Hlhs & -> & Kl & _ & _ & _ & -> & _); [lia|]. rewrite Kl.
  destruct (negb (is_kind _ lhs) || _) eqn:Hll; [exact Hno_|]. to_prop. destruct Hll as [Hllk Hlli]. apply kind_true in Hllk.
  destruct (uint_range_enough p inside pointer_size (e_right inc) Hle Hnr) as (one & -> & Hrone).
  eexists. split; [reflexivity|]. intros Hr1. to_prop. destruct Hr1 as [Hoe Hov].
  exists cl, last, inc, lhs, one. split_and!; done.
Qed.
Lemma loop_facts_spec alloc p loop c outer :
  stmt_at p0 c = Some loop -> le_marks p0 p -> ranges_nonneg outer ->
  0 <= rl_start outer -> rl_start outer + count_of (rl_values outer) <= 2 ^ 32 ->
  exists facts, loop_facts alloc p loop outer pointer_size = Some facts /\ facts_ok loop outer facts.
Proof.
  intros Hst Hle Hnn Hs0 Hs1. unfold loop_facts.
  assert (exists facts, Some None = Some facts /\ facts_ok loop outer facts) as Hstop by (by exists None).
  destruct (wf_stmt _ Hwf _ _ Hst) as (Hex & Hexr & Hb0 & Hbc & Hbr). destruct (wf_sizes _ Hwf) as (_ & Hsz & _).
  destruct (st_for_range loop || _) eqn:Hfr; [exact Hstop|]. apply orb_false_iff in Hfr as [Hfr Hne]. apply Z.eqb_neq in Hne.
  destruct (simple_body_spec p (Z.to_nat (st_body_count loop)) (st_body_start loop) 0 Hle) as (b & -> & Hsb & Hsimple); [lia..|].
  destruct b; cbn [negb]; [|exact Hstop]. specialize (Hsimple eq_refl). rewrite Z.add_0_r in Hsimple.
  fold (body p0 (st_body_start loop) (st_body_count loop)) in Hsimple. fold (loop_body p0 loop) in Hsimple.
  destruct (read_node p (st_expression loop) Hle) as (cond & cond' & Hcond & -> & Kc & Oc & -> & -> & _); [destruct Hexr; [lia|done]|].
  rewrite Kc, !Oc. destruct (negb (is_kind _ _) || _) eqn:Hck; [exact Hstop|]. to_prop. destruct Hck as [Hck Hco].
  apply kind_true in Hck. destruct (wf_expr _ Hwf _ _ Hcond) as (Hcl & Hcr & _).
  pose proof (wf_operands _ Hwf _ _ Hcond (or_intror Hck)) as Hclr.
  destruct (read_node p (e_left cond) Hle) as (ind & ind' & Hind & -> & Ki & _ & _ & _ & -> & ->); [lia|]. rewrite Ki.
  destruct (_ || negb (unsigned_type _)) eqn:Hik; [exact Hstop|]. to_prop. destruct Hik as [[Hik Hih] Hiu]. apply kind_true in Hik.
  destruct alloc; cbn [negb]; [|exact Hstop].
  set (i := e_integer ind) in *. pose proof Hih as Hir. unfold range_has_local in Hir. to_prop. rewrite u32_small by lia.
  rewrite (each_child_list _ _ _ _ _ _ Hle) by lia. rewrite Z.add_0_r.
  fold (body p0 (st_body_start loop) (st_body_count loop)). fold (loop_body p0 loop).
  pose proof (body_length (st_body_start loop) (st_body_count loop) Hb0 Hbc Hbr) as Hlen. fold (loop_body p0 loop) in Hlen.
  destruct (clear_written_spec (loop_body p0 loop)) with (l := outer) (w := repeat 0 (length (rl_values outer)))
    as (inside & writes & -> & Hsh & Hwl & Hin & Hwr).
  { intros c' Hc'. destruct (proj1 (Forall_forall _ _) Hsimple _ Hc') as (st & ? & _). by exists st. }
  { apply repeat_length. }
  { apply Forall_forall. intros v Hv%list_elem_of_In%repeat_spec. lia. }
  rewrite repeat_length in Hwl.
  assert (forall x v, get_at writes (x - rl_start outer) = Some v -> v = writes_of x (loop_body p0 loop)) as Hwr'.
  { intros x v Hv. destruct (Hwr _ _ Hv) as (v0 & [_ Hv0]%get_at_Some & ->).
    apply list_elem_of_lookup_2, list_elem_of_In, repeat_spec in Hv0. lia. }
  assert (ranges_nonneg inside) as Hnni.
  { intros x r Hr. destruct (Hin _ _ Hr) as [->|[Ho _]]; [by split|by eapply Hnn]. }
  destruct (uint_range_enough p inside pointer_size (e_right cond) Hle Hcr) as (bound & -> & Hbound).
  destruct (get_range_has _ _ Hih) as [start Hstart]. rewrite Hstart.
  destruct (uint_range_nonneg _ _ _ (wf_words _ Hwf) Hnni _ _ _ _ Hbound) as [_ Hbv]. destruct (Hnn _ _ Hstart) as [_ Hsv].
  destruct (_ || (r_value bound <? _)) eqn:Hbs; [exact Hstop|]. to_prop. destruct Hbs as [[Hbe Hse] Hord].
  destruct (is_op DYN_OP_LE cond && _) eqn:Hinc; [exact Hstop|]. destruct Hsh as [Es El]. rewrite Es.
  destruct (get_at_is_Some writes (i - rl_start outer)) as [w Hw]; [unfold count_of in *; lia|]. rewrite Hw. apply Hwr' in Hw.
  destruct (_ || (st_body_count loop =? 0)) eqn:Hone; [exact Hstop|]. to_prop. destruct Hone as [Hone Hbc0].
  destruct (last_increments_spec p loop c inside i Hst Hle Hbc0 Hsimple) as (b & -> & Hlast).
  destruct b; cbn [negb]; [|exact Hstop].
  destruct (set_range_spec inside i (mkRange true false (if is_op DYN_OP_LE cond then r_value bound
     else if negb (r_value bound =? 0) then r_value bound - 1 else 0) 0)) as (ins & -> & Hshi & Hgi);
    [by rewrite (same_shape_has outer inside)|].
  eexists. split; [done|]. cbn [facts_ok]. split; [done|]. split.
  { eapply plain_binary; [exact Hcond|done|exact Hind|done|]. by eapply exact_effect_free. }
  split; [done|]. split; [done|].
  exists inside, i, (e_type ind), (r_value start), (r_value bound), (is_op DYN_OP_LE cond).
  pose proof (unsigned_max_range (e_type ind) pointer_size) as Hum.
  assert (is_op DYN_OP_LE cond = true -> r_value bound < umax (e_type ind)) as Hincl.
  { intros E. rewrite E in Hinc. cbn [andb] in Hinc. to_prop. unfold umax. lia. }
  assert (0 <= iterations (r_value start) (r_value bound) (is_op DYN_OP_LE cond) <= UINT64_MAX) as Hit.
  { unfold iterations, of_bool. destruct (is_op DYN_OP_LE cond); [|lia]. specialize (Hincl eq_refl). unfold umax in Hincl. lia. }
  assert (u64 (r_value bound - r_value start + (if is_op DYN_OP_LE cond then 1 else 0))
          = iterations (r_value start) (r_value bound) (is_op DYN_OP_LE cond)) as ->.
  { unfold iterations, of_bool in *. apply u64_small. unfold UINT64_MAX in Hit. lia. }
  split_and!; try done; try lia. split; try done; eauto 10.
  - exists cond, ind. split_and!; try done; [|by exists bound].
    destruct (is_op DYN_OP_LE cond) eqn:E; [by apply op_true|]. apply op_true. destruct Hco as [Hco|Hco]; [done|congruence].
  - congruence.
Qed.

Lemma prove_unsigned_loop_spec alloc p loop c outer (Pre : env -> Prop) :
  stmt_at p0 c = Some loop -> le_marks p0 p -> ranges_nonneg outer -> (forall s, Pre s -> respects p0 outer s) ->
  0 <= rl_start outer -> rl_start outer + count_of (rl_values outer) <= 2 ^ 32 ->
  (forall c' st r, c' ∈ loop_body p0 loop -> stmt_at p0 c' = Some st -> st_kind st = DYN_STMT_LOCAL ->
     get_range outer (st_local_id st) = Some r -> r_valid r = false) ->
  exists p', prove_unsigned_loop alloc p loop outer pointer_size = Some p' /\ le_marks p p'
    /\ forall id e, new_mark p p' id e -> simple_loop loop /\ justified loop Pre id e.
Proof.
  intros Hst Hle Hnn Hpre Hs0 Hs1 Hfresh. unfold prove_unsigned_loop.
  destruct (loop_facts_spec alloc p loop c outer Hst Hle Hnn Hs0 Hs1) as (facts & -> & Hf).
  destruct facts as [[[ins writes] it]|].
  2: { exists p. split; [done|]. split; [reflexivity|]. intros id e Hn. by apply new_mark_irrefl in Hn. }
  destruct Hf as (Hsimple & Hplain & Hwl & Hwr & inside & i & ty & start & bound & inclusive & Hco & -> & Hit & Hb & Hsh & Hnni & Hg).
  destruct (wf_stmt _ Hwf _ _ Hst) as (_ & _ & Hb0 & Hbc & Hbr).
  rewrite (each_child_list _ _ _ _ _ _ Hle) by lia. rewrite Z.add_0_r.
  fold (body p0 (st_body_start loop) (st_body_count loop)). fold (loop_body p0 loop).
  destruct (prove_stmts_spec loop outer Pre Hpre Hsimple Hfresh inside i ty start bound inclusive Hco Hit writes Hwr Hwl
              (loop_body p0 loop) 0 p ins eq_refl) as (p' & ins' & -> & Hle' & Hn).
  { destruct Hsh as [E1 E2]. destruct (co_shape _ _ _ _ _ _ _ _ Hco) as [E3 E4]. split; [done|split; congruence| |].
    - intros x r Hr. rewrite Hg in Hr. split_if_in Hr; [simplify_eq; split; cbn; unfold UINT64_MAX; destruct inclusive; try split_if; to_prop; lia|by eapply Hnni].
    - eapply inside_respects; (done || lia). }
  exists p'. split; [done|]. split; [done|]. intros id e Hm. split; [|by apply Hn]. split; [done|].
  eapply Forall_impl; [exact Hsimple|]. intros c' (st' & Hst' & Hs'). exists st'. split; [done|]. by apply simple_local.
Qed.

(** ** The pass on a function *)

(** The states of a run of a function before its statement [m]. *)
Inductive top_state (cs : list Z) : nat -> env -> Prop :=
| ts_enter s : top_state cs 0 s
| ts_step m s n g c s' :
    top_state cs m s -> cs !! m = Some c -> run_top n g p0 s c = Some (Value (s', Next)) -> top_state cs (S m) s'.

(** Statements are nested as in the source: each is in one body, once, and a
    loop's body declares no local that its function writes outside. *)
Record nested (parent : Z -> Z + Z) : Prop := {
  ne_fn : forall i fn c, get_at (functions p0) i = Some fn -> c ∈ fn_body p0 fn -> parent c = inl i;
  ne_loop : forall l st c, stmt_at p0 l = Some st -> st_kind st = DYN_STMT_FOR -> c ∈ loop_body p0 st -> parent c = inr l;
  ne_fn_once : forall i fn, get_at (functions p0) i = Some fn -> NoDup (fn_body p0 fn);
  ne_loop_once : forall l st, stmt_at p0 l = Some st -> st_kind st = DYN_STMT_FOR -> NoDup (loop_body p0 st);
  ne_scope : forall i fn l loop c st c' st', get_at (functions p0) i = Some fn ->
    l ∈ fn_body p0 fn -> stmt_at p0 l = Some loop -> st_kind loop = DYN_STMT_FOR ->
    c ∈ loop_body p0 loop -> stmt_at p0 c = Some st -> st_kind st = DYN_STMT_LOCAL ->
    c' ∈ fn_body p0 fn -> stmt_at p0 c' = Some st' -> writes_local st' = true ->
    st_local_id st <> st_local_id st' }.

Context (parent : Z -> Z + Z) (Hnest : nested parent).

(** Every mark is justified in the loop that its statement is in. *)
Definition good (p : DynIrProgram) : Prop :=
  le_marks p0 p /\ forall id e, new_mark p0 p id e ->
  exists i fn m c loop, get_at (functions p0) i = Some fn /\ fn_body p0 fn !! m = Some c /\ stmt_at p0 c = Some loop
    /\ st_kind loop = DYN_STMT_FOR /\ simple_loop loop /\ justified loop (top_state (fn_body p0 fn) m) id e.

Section Function.
Context (i : Z) (fn : DynIrFunction) (Hfn : get_at (functions p0) i = Some fn).
Abbreviation cs := (fn_body p0 fn).
Context (alloc_loop : Z -> bool).

Record top_inv (m : nat) (p : DynIrProgram) (l : RangeLocals) : Prop := {
  ti_good : good p;
  ti_start : rl_start l = f_local_start fn;
  ti_length : count_of (rl_values l) = f_local_count fn;
  ti_nonneg : ranges_nonneg l;
  ti_respects : forall s, top_state cs m s -> respects p0 l s;
  ti_written : forall x r, get_range l x = Some r -> r_valid r = true -> exists c st, c ∈ cs /\ stmt_at p0 c = Some st
    /\ writes_local st = true /\ st_local_id st = x }.

Lemma cleared_none l x r : get_range (cleared l) x = Some r -> r = no_range.
Proof.
  unfold get_range, cleared. cbn. intros [_ H]%get_at_Some. by apply list_elem_of_lookup_2, list_elem_of_In, repeat_spec in H.
Qed.
Lemma top_inv_cleared m m' p p' l : top_inv m p l -> good p' -> top_inv m' p' (cleared l).
Proof.
  intros H Hg. destruct H as [_ Hs Hl _ _ _]. split; [done|done| | | |].
  - unfold count_of, cleared in *. cbn. by rewrite repeat_length.
  - intros x r ->%cleared_none. by split.
  - intros s _ x r _ ->%cleared_none. split; [apply no_range_in|done].
  - by intros x r ->%cleared_none.
Qed.

Lemma prove_top_spec m c st p l :
  cs !! m = Some c -> stmt_at p0 c = Some st -> top_inv m p l ->
  exists p' l', prove_top alloc_loop pointer_size st (p, l) = Some (p', l') /\ top_inv (S m) p' l'.
Proof.
  intros Hc Hst Hinv. pose proof Hinv as [[Hle Hgood] Hs Hl Hnn Hres Hwr]. unfold prove_top.
  pose proof (list_elem_of_lookup_2 _ _ _ Hc) as Hin. destruct (wf_stmt _ Hwf _ _ Hst) as (Hex & _).
  destruct (range_pure_enough p (st_expression st) Hle Hex) as (pure_ & -> & Hpure).
  destruct (wf_function _ Hwf _ _ Hfn) as (_ & _ & _ & Hls & Hlc & Hll).
  destruct (_ && range_has_local l (st_local_id st)) eqn:Hsim; [destruct pure_|].
  - to_prop. destruct Hsim as [[Hk Htg] Hh].
    destruct (uint_range_enough p l pointer_size (st_expression st) Hle Hex) as (r & -> & Hr).
    destruct (set_range_spec l (st_local_id st) r Hh) as (l' & -> & [E1 E2] & Hg). exists p, l'. split; [done|].
    assert (writes_local st = true) as Hk'.
    { unfold is_stmt in Hk. destruct Hk as [H%bool_decide_eq_true|H%bool_decide_eq_true];
        [by apply writes_declares|by apply writes_assigns]. }
    assert (while_loop st = false) as Hnf.
    { unfold while_loop, is_stmt. rewrite bool_decide_false; [done|]. by destruct (writes_kind _ Hk') as [-> | ->]. }
    split; [done|congruence|unfold count_of in *; congruence|..].
    + intros y ry Hy. rewrite Hg in Hy. split_if_in Hy; [simplify_eq|by eapply Hnn].
      by eapply uint_range_nonneg; [apply wf_words| |exact Hr].
    + intros s Hst'. inversion Hst' as [|m' s1 n g c' s' Hs1 Hc' Hrun]; subst. simplify_eq.
      unfold run_top in Hrun. rewrite Hst in Hrun. rewrite Hnf in Hrun. unfold run_stmt, local_stmt in Hrun.
      rewrite Hst, Hk', (pure_plain _ _ Hpure) in Hrun. cbn [andb] in Hrun.
      destruct (eval g p0 s1 (st_expression st)) as [[v| |]|] eqn:Hv; try done. simplify_eq.
      eapply respects_update; [by apply Hres|by split|exact Hg| |].
      * by eapply uint_range_sound; [apply wf_words|by apply Hres|exact Hr|].
      * intros _. by eapply stored_typed.
    + intros x ry Hy Hv. rewrite Hg in Hy. destruct (Z.eqb_spec x (st_local_id st)) as [->|]; [by exists c, st|by eapply Hwr].
  - unfold is_stmt in *. to_prop. rewrite bool_decide_false; [|intros E; rewrite E in Hsim; by destruct Hsim as [[[?|?] _] _]].
    exists p, (cleared l). split; [done|]. by eapply top_inv_cleared.
  - unfold is_stmt. case_bool_decide as Hfor; [|exists p, (cleared l); split; [done|]; by eapply top_inv_cleared].
    destruct (prove_unsigned_loop_spec (alloc_loop (st_expression st)) p st c l (top_state cs m))
      as (p' & -> & Hle' & Hn); try done; try lia.
    { intros c' st' r Hc' Hst' Hk' Hr. destruct (r_valid r) eqn:Hv; [|done]. destruct (Hwr _ _ Hr Hv) as (c2 & st2 & Hc2 & Hst2 & Hk2 & Hx2).
      exfalso. eapply (ne_scope _ Hnest i fn c st c' st' c2 st2); done. }
    exists p', (cleared l). split; [done|]. eapply top_inv_cleared; [done|]. split; [by etrans|].
    intros id e Hm. destruct (new_mark_trans _ _ _ _ _ Hle Hle' Hm) as [Hm'|Hm']; [by apply Hgood|].
    destruct (Hn _ _ Hm') as [Hsl Hj]. exists i, fn, m, c, st. done.
Qed.
Lemma prove_tops_spec suffix m p l :
  drop m cs = suffix -> top_inv m p l ->
  exists p' l', fold_stmts (prove_top alloc_loop pointer_size) suffix (p, l) = Some (p', l') /\ good p'.
Proof.
  revert m p l. induction suffix as [|c suffix IH]; intros m p l Hd Hinv; [exists p, l; split; [done|apply Hinv]|].
  assert (cs !! m = Some c) as Hc by (rewrite <- (Nat.add_0_r m), <- lookup_drop, Hd; done).
  destruct (body_total c _ _ (list_elem_of_lookup_2 _ _ _ Hc)) as [st Hst].
  cbn [fold_stmts]. rewrite Hst. destruct (prove_top_spec m c st p l Hc Hst Hinv) as (p1 & l1 & -> & Hinv1).
  apply (IH (S m)); [|done]. rewrite (drop_S _ _ _ Hc) in Hd. by injection Hd.
Qed.
Lemma prove_function_spec alloc_locals p : good p ->
  exists p', prove_function alloc_locals alloc_loop pointer_size i fn p = Some p' /\ good p'.
Proof.
  intros Hg. unfold prove_function. split_if; [by exists p|]. destruct (wf_function _ Hwf _ _ Hfn) as (Hb0 & Hbc & Hbr & Hls & Hlc & Hll).
  rewrite (each_child_list _ _ _ _ _ _ (proj1 Hg)) by lia. rewrite Z.add_0_r.
  fold (body p0 (f_body_start fn) (f_body_count fn)). fold cs.
  set (l := mkRangeLocals _ _). assert (forall x r, get_range l x = Some r -> r = no_range) as Hl.
  { unfold get_range, l. cbn. intros x r [_ H]%get_at_Some. by apply list_elem_of_lookup_2, list_elem_of_In, repeat_spec in H. }
  destruct (prove_tops_spec cs 0 p l eq_refl) as (p' & l' & -> & Hg').
  - split; [done|done|unfold count_of, l; cbn; rewrite repeat_length; lia| | |].
    + intros x r ->%Hl. by split.
    + intros s _ x r _ ->%Hl. split; [apply no_range_in|done].
    + by intros x r ->%Hl.
  - by exists p'.
Qed.
End Function.

Lemma prove_functions_spec alloc_locals alloc_loop k fns p :
  drop k (functions p0) = fns -> good p ->
  exists p', prove_functions alloc_locals alloc_loop pointer_size (Z.of_nat k) fns p = Some p' /\ good p'.
Proof.
  revert k p. induction fns as [|fn fns IH]; intros k p Hd Hg; [by exists p|]. cbn [prove_functions].
  assert (functions p0 !! k = Some fn) as Hk by (rewrite <- (Nat.add_0_r k), <- lookup_drop, Hd; done).
  assert (get_at (functions p0) (Z.of_nat k) = Some fn) as Hfn.
  { apply get_at_Some. rewrite Nat2Z.id. split; [|done]. apply lookup_lt_Some in Hk. lia. }
  destruct (prove_function_spec (Z.of_nat k) fn Hfn alloc_loop alloc_locals p Hg) as (p1 & -> & Hg1).
  replace (Z.of_nat k + 1) with (Z.of_nat (S k)) by lia. apply IH; [|done].
  rewrite (drop_S _ _ _ Hk) in Hd. by injection Hd.
Qed.

(** ** Runs with and without the marks *)

Section Runs.
Context (p : DynIrProgram) (Hgood : good p).

Lemma stmt_same c : stmt_at p c = stmt_at p0 c.
Proof. unfold stmt_at. by destruct (le_rest _ _ (proj1 Hgood)) as (_ & -> & _). Qed.
Lemma body_same start count : body p start count = body p0 start count.
Proof. unfold body. by destruct (le_rest _ _ (proj1 Hgood)) as (_ & _ & -> & _). Qed.

(** No mark is outside the loops. *)
Lemma top_eval i fn c st fuel s :
  get_at (functions p0) i = Some fn -> c ∈ fn_body p0 fn -> stmt_at p0 c = Some st ->
  eval fuel p s (st_expression st) = eval fuel p0 s (st_expression st).
Proof.
  intros Hfn Hc Hst. apply (eval_marks owner p0 p s c (proj1 Hgood) Hown).
  - intros id e Hm Ho. destruct (proj2 Hgood _ _ Hm) as (i' & fn' & m & l & loop & _ & _ & Hl & Hk & _ & m' & c' & Hc' & Ho' & _).
    pose proof (ne_fn _ Hnest _ _ _ Hfn Hc) as E1.
    pose proof (ne_loop _ Hnest _ _ _ Hl Hk (list_elem_of_lookup_2 _ _ _ Hc')) as E2. congruence.
  - intros Hr. by eapply (proj2 Hown).
Qed.

Section InLoop.
Context (i : Z) (fn : DynIrFunction) (Hfn : get_at (functions p0) i = Some fn).
Context (m : nat) (l : Z) (Hl : fn_body p0 fn !! m = Some l).
Context (loop : DynIrStmt) (Hst : stmt_at p0 l = Some loop) (Hk : st_kind loop = DYN_STMT_FOR).
Context (s0 : env) (Hs0 : top_state (fn_body p0 fn) m s0).

(** The loop a mark in this loop's body was made for. *)
Lemma mark_loop id e m' c : new_mark p0 p id e -> loop_body p0 loop !! m' = Some c -> owner id = c ->
  simple_loop loop /\ forall k s, loop_state loop s0 k (Some m') s -> mark_ok p0 s e.
Proof.
  intros Hm Hc Ho.
  destruct (proj2 Hgood _ _ Hm) as (i2 & fn2 & m2 & l2 & loop2 & Hfn2 & Hl2 & Hst2 & Hk2 & Hsl & m3 & c3 & Hc3 & Ho3 & Hok).
  assert (c3 = c) as -> by congruence.
  pose proof (ne_loop _ Hnest _ _ _ Hst Hk (list_elem_of_lookup_2 _ _ _ Hc)) as E1.
  pose proof (ne_loop _ Hnest _ _ _ Hst2 Hk2 (list_elem_of_lookup_2 _ _ _ Hc3)) as E2.
  assert (l2 = l) as -> by congruence. assert (loop2 = loop) as -> by congruence.
  pose proof (ne_fn _ Hnest _ _ _ Hfn (list_elem_of_lookup_2 _ _ _ Hl)) as E3.
  pose proof (ne_fn _ Hnest _ _ _ Hfn2 (list_elem_of_lookup_2 _ _ _ Hl2)) as E4.
  assert (i2 = i) as -> by congruence. assert (fn2 = fn) as -> by congruence.
  pose proof (NoDup_lookup _ _ _ _ (ne_fn_once _ Hnest _ _ Hfn) Hl Hl2) as <-.
  pose proof (NoDup_lookup _ _ _ _ (ne_loop_once _ Hnest _ _ Hst Hk) Hc Hc3) as <-.
  split; [done|]. intros k s Hs. by eapply Hok.
Qed.
(** A loop is simple, and then the state is one of its run, or it is not and
    nothing in it is marked. *)
Definition tracked (k : nat) (pos : option nat) (s : env) : Prop := simple_loop loop -> loop_state loop s0 k pos s.
Lemma inner_eval k m' c st fuel s :
  tracked k (Some m') s -> loop_body p0 loop !! m' = Some c -> stmt_at p0 c = Some st ->
  eval fuel p s (st_expression st) = eval fuel p0 s (st_expression st).
Proof.
  intros Hs Hc Hcs. apply (eval_marks owner p0 p s c (proj1 Hgood) Hown).
  - intros id e Hm Ho. destruct (mark_loop _ _ _ _ Hm Hc Ho) as [Hsl Hok]. eapply Hok. by apply Hs.
  - intros Hr. by eapply (proj2 Hown).
Qed.
Lemma position_le k pos s : loop_state loop s0 k pos s ->
  match pos with Some m' => (m' <= length (loop_body p0 loop))%nat | None => True end.
Proof. induction 1 as [| |k m' s g c s' H IH Hc Hr|]; try done; [lia|]. apply lookup_lt_Some in Hc. lia. Qed.
Lemma local_same st : local_stmt p st = local_stmt p0 st.
Proof. unfold local_stmt. by rewrite (plain_marks _ _ _ (proj1 Hgood)). Qed.
(** A simple loop stores and goes on. *)
Lemma step_tracked fuel k m' c s s' f :
  tracked k (Some m') s -> loop_body p0 loop !! m' = Some c -> run_stmt fuel p0 s c = Some (Value (s', f)) ->
  tracked k (Some (S m')) s' /\ (simple_loop loop -> f = Next).
Proof.
  intros Hs Hc Hr. assert (simple_loop loop -> f = Next /\ store_stmt fuel s c = Some (Value s')) as Hsl.
  { intros [_ Hall]. destruct (proj1 (Forall_forall _ _) Hall c (list_elem_of_lookup_2 _ _ _ Hc)) as (st & Hcs & Hloc).
    unfold run_stmt in Hr. unfold store_stmt. rewrite Hcs in *. rewrite Hloc in Hr.
    destruct (eval _ _ _ _) as [[v| |]|]; try done. by simplify_eq. }
  split; [|intros H; by apply Hsl]. intros H. eapply ls_step; [by apply Hs|done|by apply Hsl].
Qed.
Lemma run_body_same fuel suffix k m' s :
  drop m' (loop_body p0 loop) = suffix -> tracked k (Some m') s ->
  run_body fuel p s suffix = run_body fuel p0 s suffix
  /\ forall s' f, run_body fuel p0 s suffix = Some (Value (s', f)) -> tracked (S k) None s'.
Proof.
  revert m' s. induction suffix as [|c suffix IH]; intros m' s Hd Hs.
  - split; [done|]. cbn. intros s' f [= <- <-] Hsl. specialize (Hs Hsl). apply ls_back.
    apply (f_equal length) in Hd. rewrite length_drop in Hd. cbn in Hd.
    pose proof (position_le _ _ _ Hs) as Hp. cbn in Hp. by replace (length (loop_body p0 loop)) with m' by lia.
  - assert (loop_body p0 loop !! m' = Some c) as Hc by (rewrite <- (Nat.add_0_r m'), <- lookup_drop, Hd; done).
    cbn [run_body]. assert (run_stmt fuel p s c = run_stmt fuel p0 s c) as ->.
    { unfold run_stmt. rewrite stmt_same. destruct (stmt_at p0 c) as [st|] eqn:Hcs; [|done].
      by rewrite local_same, (inner_eval _ _ _ _ _ _ Hs Hc Hcs). }
    destruct (run_stmt fuel p0 s c) as [[[s1 f1]| |]|] eqn:Hr; try done.
    destruct (step_tracked _ _ _ _ _ _ _ Hs Hc Hr) as [Hs1 Hf1].
    destruct f1; [|split; [done|]; intros s' f [= <- <-] Hsl; by discriminate (Hf1 Hsl)..].
    apply (IH (S m')); [rewrite (drop_S _ _ _ Hc) in Hd; by injection Hd|done].
Qed.
Lemma run_loop_same n fuel k s : tracked k None s -> run_loop n fuel p loop s = run_loop n fuel p0 loop s.
Proof.
  revert k s. induction n as [|n IH]; intros k s Hs; [done|]. cbn [run_loop].
  assert (run_condition fuel p s (st_expression loop) = run_condition fuel p0 s (st_expression loop)) as ->.
  { unfold run_condition. rewrite (plain_marks _ _ _ (proj1 Hgood)).
    by rewrite (top_eval i fn l loop fuel s Hfn (list_elem_of_lookup_2 _ _ _ Hl) Hst). }
  destruct (run_condition fuel p0 s (st_expression loop)) as [[[s1 c]| |]|] eqn:Hc; try done. case_bool_decide as Hz; [done|].
  unfold loop_body at 1. rewrite body_same. fold (loop_body p0 loop).
  destruct (run_body_same fuel (loop_body p0 loop) k 0 s1 eq_refl) as [-> Hnext].
  { intros Hsl. unfold run_condition in Hc. rewrite (proj1 Hsl) in Hc.
    destruct (eval _ _ _ _) as [[v| |]|] eqn:Hv; try done. simplify_eq. by eapply ls_test; [apply Hs| |]. }
  destruct (run_body fuel p0 s1 (loop_body p0 loop)) as [[[s2 f]| |]|]; try done.
  destruct f; try done; apply (IH (S k)); by eapply Hnext.
Qed.
End InLoop.

Lemma run_function_same n fuel i fn m s suffix :
  get_at (functions p0) i = Some fn -> top_state (fn_body p0 fn) m s -> drop m (fn_body p0 fn) = suffix ->
  run_function n fuel p s suffix = run_function n fuel p0 s suffix.
Proof.
  intros Hfn. revert m s. induction suffix as [|c suffix IH]; intros m s Hs Hd; [done|]. cbn [run_function].
  assert (fn_body p0 fn !! m = Some c) as Hc by (rewrite <- (Nat.add_0_r m), <- lookup_drop, Hd; done).
  assert (run_top n fuel p s c = run_top n fuel p0 s c) as ->.
  { unfold run_top. rewrite stmt_same. destruct (stmt_at p0 c) as [st|] eqn:Hst; [|done].
    destruct (while_loop st) eqn:Hf.
    - unfold while_loop in Hf. to_prop. destruct Hf as [[Hk _] _]. apply bool_decide_eq_true in Hk.
      eapply run_loop_same; [exact Hfn|exact Hc|exact Hst|done|exact Hs|]. intros _. constructor.
    - unfold run_stmt. rewrite stmt_same, Hst, local_same.
      by rewrite (top_eval i fn c st fuel s Hfn (list_elem_of_lookup_2 _ _ _ Hc) Hst). }
  destruct (run_top n fuel p0 s c) as [[[s1 f]| |]|] eqn:Hr; try done. destruct f; try done.
  apply (IH (S m)); [by eapply ts_step|]. rewrite (drop_S _ _ _ Hc) in Hd. by injection Hd.
Qed.
(** Every mark is in a statement that stores into a local. *)
Lemma marks_local id e : new_mark p0 p id e ->
  exists st, stmt_at p0 (owner id) = Some st /\ local_stmt p0 st = true.
Proof.
  intros Hm. destruct (proj2 Hgood _ _ Hm) as (i & fn & m & l & loop & _ & _ & _ & _ & [_ Hall] & m' & c & Hc & -> & _).
  exact (proj1 (Forall_forall _ _) Hall c (list_elem_of_lookup_2 _ _ _ Hc)).
Qed.
End Runs.
End Whole.

(** C1: Range proofs are sound. Let the program have the shape lowering
    gives it: references inside the tables ([well_formed]), the types of the
    checker on stores, operators and literals ([typed]), expressions that
    belong to one statement each ([owned]) and statements nested as in the
    source ([nested]). Then the pass reads no IR array out of bounds, marks
    only accesses and additions of statements that evaluate an expression
    without effects into a local, and whatever the allocations, the other
    statements and the conditions with effects do, the marked program, which
    skips the checks of the marked nodes, runs every function from every
    state exactly as the program with the checks. *)
Theorem prove_unsigned_ranges_sound alloc_locals alloc_loop p owner parent :
  well_formed p -> typed p -> owned owner p -> nested p parent ->
  exists p', prove_unsigned_ranges alloc_locals alloc_loop pointer_size p = Some p' /\ le_marks p p'
    /\ (forall id e, new_mark p p' id e -> exists st, stmt_at p (owner id) = Some st /\ local_stmt p st = true)
    /\ forall n fuel i fn s, get_at (functions p) i = Some fn ->
       run_function n fuel p' s (fn_body p' fn) = run_function n fuel p s (fn_body p fn).
Proof.
  intros Hwf Hty Hown Hnest. unfold prove_unsigned_ranges.
  destruct (prove_functions_spec p Hwf Hty owner Hown parent Hnest alloc_locals alloc_loop 0 (functions p) p)
    as (p' & Hp & Hgood); [done| |].
  { split; [reflexivity|]. intros id e Hm. by apply new_mark_irrefl in Hm. }
  exists p'. split; [done|]. split; [apply Hgood|]. split; [by eapply marks_local|]. intros n fuel i fn s Hfn.
  unfold fn_body at 1. rewrite (body_same p owner p' Hgood). fold (fn_body p fn).
  by eapply (run_function_same p owner Hown parent Hnest p' Hgood n fuel i fn 0); [..|constructor|].
Qed.
End Semantics.

(** ** An example: an array [a] without a value, then
    [for i < 10 { s = s + u32(a[i]); i = i + 1 }] *)

#[local] Instance sample_machine : Machine := {|
  pointer_size := 8;
  global_value := fun _ _ => Word 0;
  element := fun _ _ n => Word (3 * n);
  dynamic_length := fun _ _ => 0;
  other_op := fun _ _ _ _ _ => None;
  convert_traps := fun _ _ _ => false;
  convert := fun _ _ v => Some v;
  other_condition := fun _ _ => Some Panic;
  other_stmt := fun _ s => Some (Value (s, Next)) |}.
Definition leaf (k : DynExprKind) (t n : Z) : DynIrExpr := mkExpr k t DYN_OP_NONE DYN_NO_EXPR DYN_NO_EXPR n false 0 0 false.
Definition node (k : DynExprKind) (t : Z) (o : DynOperator) (l r : Z) : DynIrExpr := mkExpr k t o l r 0 false 0 0 false.
Definition store (k : DynStmtKind) (e x : Z) : DynIrStmt := mkStmt k e DYN_NO_EXPR DYN_OP_NONE x 0 0 0 0 0 0 0 0 false.
Definition sample : DynIrProgram :=
  mkProgram
    [leaf DYN_EXPR_INT DYN_TYPE_U32 0; leaf DYN_EXPR_INT DYN_TYPE_USIZE 0;
     leaf DYN_EXPR_NAME DYN_TYPE_USIZE 0; leaf DYN_EXPR_INT DYN_TYPE_USIZE 10; node DYN_EXPR_BINARY DYN_TYPE_BOOL DYN_OP_LT 2 3;
     leaf DYN_EXPR_NAME DYN_TYPE_U32 2; leaf DYN_EXPR_NAME DYN_TYPE_ARRAY_BASE 1; leaf DYN_EXPR_NAME DYN_TYPE_USIZE 0;
     node DYN_EXPR_INDEX DYN_TYPE_U8 DYN_OP_NONE 6 7; node DYN_EXPR_CONVERT DYN_TYPE_U32 DYN_OP_NONE 8 DYN_NO_EXPR;
     node DYN_EXPR_BINARY DYN_TYPE_U32 DYN_OP_ADD 5 9;
     leaf DYN_EXPR_NAME DYN_TYPE_USIZE 0; leaf DYN_EXPR_INT DYN_TYPE_USIZE 1; node DYN_EXPR_BINARY DYN_TYPE_USIZE DYN_OP_ADD 11 12]
    [] []
    [store DYN_STMT_LOCAL 0 2; store DYN_STMT_LOCAL 1 0;
     mkStmt DYN_STMT_FOR 4 DYN_NO_EXPR DYN_OP_NONE 0 4 2 0 0 0 0 0 0 false;
     store DYN_STMT_ASSIGN 10 2; store DYN_STMT_ASSIGN 13 0; store DYN_STMT_LOCAL DYN_NO_EXPR 1]
    [5; 0; 1; 2; 3; 4] [mkFunction 0 0 0 4 0 3 true false false false false]
    [DYN_TYPE_USIZE; DYN_TYPE_ARRAY_BASE; DYN_TYPE_U32] [mkArray DYN_TYPE_U8 10] [] [] 0 0 0 None None.

(** The access and both additions lose their checks. *)
Example sample_marks :
  option_map (fun p => map e_boolean (expressions p)) (prove_unsigned_ranges (fun _ => true) (fun _ => true) 8 sample)
  = Some [false; false; false; false; false; false; false; false; true; false; true; false; false; true].
Proof. vm_compute. reflexivity. Qed.
(** With an array of nine elements the access keeps its check. *)
Example short_array_kept :
  option_map (fun p => map e_boolean (expressions p))
    (prove_unsigned_ranges (fun _ => true) (fun _ => true) 8
       (mkProgram (expressions sample) [] [] (statements sample) (ir_children sample) (functions sample) (Ir.locals sample)
                  [mkArray DYN_TYPE_U8 9] [] [] 0 0 0 None None))
  = Some [false; false; false; false; false; false; false; false; false; false; true; false; false; true].
Proof. vm_compute. reflexivity. Qed.

Definition sample_owner (id : Z) : Z :=
  if id <=? 0 then 0 else if id <=? 1 then 1 else if id <=? 4 then 2 else if id <=? 10 then 3 else 4.
Definition sample_parent (c : Z) : Z + Z := if (c <=? 2) || (c =? 5) then inl 0 else inr 2.

Lemma sample_well_formed : well_formed sample.
Proof.
  split.
  - intros id e H. enumerate H; vm_compute; intuition congruence.
  - intros id e H. enumerate H; vm_compute; intuition congruence.
  - intros id e H. enumerate H; vm_compute; intuition congruence.
  - vm_compute. intuition congruence.
  - intros i c H. enumerate H.
  - intros i c H. enumerate H; vm_compute; intuition congruence.
  - intros c st H. enumerate H; vm_compute; intuition congruence.
  - intros i fn H. enumerate H; vm_compute; intuition congruence.
Qed.
Lemma sample_typed : typed sample.
Proof.
  split.
  - intros c st x id e Hc Hk Hx He Hn Hi. enumerate Hc; try (by vm_compute in Hx); vm_compute in Hx;
      try (injection Hx as <-); enumerate He; vm_compute in Hn, Hi |- *; congruence.
  - intros id e He Hk Ho. enumerate He; vm_compute in Hk, Ho |- *; intuition congruence.
  - intros id e He Hk Ho. enumerate He; vm_compute in Hk, Ho |- *; intuition congruence.
  - intros id e He Hk Ho. enumerate He; vm_compute in Hk, Ho |- *; intuition congruence.
Qed.
Lemma sample_owned : owned sample_owner sample.
Proof.
  split.
  - intros id e c He Hc Hr. assert (e_item_count e = 0) as Hz by (clear Hc; enumerate He; done).
    destruct Hc as [->|[->|(i & Hi & _)]]; [..|lia]; clear Hz; enumerate He; vm_compute in Hr |- *; intuition congruence.
  - intros c st Hc Hr. enumerate Hc; vm_compute in Hr |- *; intuition congruence.
Qed.
Lemma sample_nested : nested sample sample_parent.
Proof.
  split.
  - intros i fn c Hf Hc. enumerate Hf; apply list_elem_of_In in Hc; vm_compute in Hc; intuition (subst; done).
  - intros l st c Hl Hk Hc. enumerate Hl; try done; apply list_elem_of_In in Hc; vm_compute in Hc; intuition (subst; done).
  - intros i fn Hf. enumerate Hf. apply (bool_decide_eq_true_1 (NoDup _)). vm_compute. done.
  - intros l st Hl Hk. enumerate Hl; try done. apply (bool_decide_eq_true_1 (NoDup _)). vm_compute. done.
  - intros i fn l loop c st c' st' _ _ Hl Hk Hc Hst Hsk. exfalso. enumerate Hl; try done.
    apply list_elem_of_In in Hc. vm_compute in Hc. destruct Hc as [<-|[<-|[]]]; vm_compute in Hst; injection Hst as <-; done.
Qed.
Lemma prove_unsigned_ranges_sound_witness :
  exists p', prove_unsigned_ranges (fun _ => true) (fun _ => true) 8 sample = Some p' /\ le_marks sample p'
    /\ (forall id e, new_mark sample p' id e ->
          exists st, stmt_at sample (sample_owner id) = Some st /\ local_stmt sample st = true)
    /\ forall n fuel i fn s, get_at (functions sample) i = Some fn ->
       run_function n fuel p' s (fn_body p' fn) = run_function n fuel sample s (fn_body sample fn).
Proof.
  apply (prove_unsigned_ranges_sound (M := sample_machine) (fun _ => true) (fun _ => true) sample sample_owner sample_parent).
  - exact sample_well_formed.
  - exact sample_typed.
  - exact sample_owned.
  - exact sample_nested.
Defined.
(** The run of the example adds the elements. *)
Example sample_run :
  match run_function 20 20 sample (fun _ => Word 0) (fn_body sample (mkFunction 0 0 0 4 0 3 true false false false false)) with
  | Some (Value (s, _)) => (s 0, s 2) = (Word 10, Word 135)
  | _ => False
  end.
Proof. vm_compute. reflexivity. Qed.
