(* ===== verification/IrReach.v ===== *)
(** Reachable functions of a program (src/src/ir_reachability.inc and
    [dyn_ir_prune_functions] of src/src/ir.c): a depth-first walk of expressions and
    blocks, and a queue of functions. The marks after a successful walk are
    exactly the expressions, statements and functions that can be reached.

    [None] is an access out of the bounds of an array, the queue included. *)

From S2P Require Import Prelude Ir.

(** ** The walk *)

(** The marks and the queue; the arrays have the sizes of the program's. *)
Record Reachability := mkReach {
  live : list bool; seen_expressions : list bool; seen_statements : list bool; queue : list Z }.
(** A function of the walk: it gives up with [false]. *)
Definition walk := Reachability -> option (bool * Reachability).
Definition done_ : walk := fun r => Some (true, r).
Definition fail_ : walk := fun r => Some (false, r).
Definition and_then (m k : walk) : walk := fun r =>
  let* (ok, r) := m r in if ok : bool then k r else Some (false, r).
Notation "m ;& k" := (and_then m k) (at level 50, left associativity) : dyn_scope.
(** [for (i = from; i < from + n; ++i) if (!f(i)) return false;] *)
Fixpoint each (n : nat) (from : Z) (f : Z -> walk) : walk :=
  match n with
  | O => done_
  | S n' => f from ;& each n' (from + 1) f
  end.

Definition set_live (r : Reachability) (l : list bool) (q : list Z) : Reachability :=
  mkReach l (seen_expressions r) (seen_statements r) q.
Definition set_seen_expressions (r : Reachability) (l : list bool) : Reachability :=
  mkReach (live r) l (seen_statements r) (queue r).
Definition set_seen_statements (r : Reachability) (l : list bool) : Reachability :=
  mkReach (live r) (seen_expressions r) l (queue r).

Section Walk.
Context (p : DynIrProgram).

Definition reachable_function (id : Z) : walk := fun r =>
  if count_of (functions p) <=? id then Some (false, r)
  else
    let* l := get_at (live r) id in
    let* fn := get_at (functions p) id in
    if negb l && negb (f_generic fn) then
      let* live' := set_at (live r) id true in
      if count_of (functions p) <=? count_of (queue r) then None
      else Some (true, set_live r live' (queue r ++ [u32 id]))
    else Some (true, r).

Definition leaf_kind (k : DynExprKind) : bool :=
  match k with
  | DYN_EXPR_INT | DYN_EXPR_FLOAT | DYN_EXPR_BOOL | DYN_EXPR_CHAR | DYN_EXPR_STRING | DYN_EXPR_NIL
  | DYN_EXPR_GLOBAL | DYN_EXPR_NAME => true
  | _ => false
  end.
Fixpoint reachable_expression (fuel : nat) (id depth : Z) : walk := fun r =>
  match fuel with
  | O => None
  | S f =>
      if id =? DYN_NO_EXPR then Some (true, r)
      else if (expression_count p <=? id) || (1024 <? depth) then Some (false, r)
      else
        let* seen := get_at (seen_expressions r) id in
        if seen : bool then Some (true, r)
        else
          let* l := set_at (seen_expressions r) id true in
          let* e := get_at (expressions p) id in
          let r := set_seen_expressions r l in
          if bool_decide (e_kind e = DYN_EXPR_FUNCTION) then reachable_function (e_integer e) r
          else if leaf_kind (e_kind e) then Some (true, r)
          else
            ((if bool_decide (e_kind e = DYN_EXPR_CALL) then reachable_function (e_integer e) else done_)
             ;& reachable_expression f (e_left e) (depth + 1)
             ;& reachable_expression f (e_right e) (depth + 1)
             ;& (if bool_decide (e_kind e = DYN_EXPR_SLICE) then reachable_expression f (u32 (e_integer e)) (depth + 1) else done_)
             ;& (if count_of (items p) <? e_item_start e + e_item_count e then fail_
                  else each (Z.to_nat (e_item_count e)) 0 (fun i r =>
                         let* x := get_at (items p) (u32 (e_item_start e + i)) in reachable_expression f x (depth + 1) r))) r
  end.
(** The recursion stops below a depth of 1024. *)
Definition depth_fuel : nat := 1026.

Fixpoint reachable_block (fuel : nat) (start count depth : Z) : walk := fun r =>
  match fuel with
  | O => None
  | S f =>
      if (1024 <? depth) || (count_of (ir_children p) <? start + count) then Some (false, r)
      else
        each (Z.to_nat count) 0 (fun i r =>
          let* id := get_at (ir_children p) (u32 (start + i)) in
          if count_of (statements p) <=? id then Some (false, r)
          else
            let* seen := get_at (seen_statements r) id in
            if seen : bool then Some (true, r)
            else
              let* l := set_at (seen_statements r) id true in
              let* s := get_at (statements p) id in
              let r := set_seen_statements r l in
              (reachable_expression depth_fuel (st_expression s) 0
               ;& reachable_expression depth_fuel (st_target s) 0
               ;& reachable_block f (st_body_start s) (st_body_count s) (depth + 1)
               ;& reachable_block f (st_else_start s) (st_else_count s) (depth + 1)
               ;& (if count_of (case_arms p) <? st_case_arm_start s + st_case_arm_count s then fail_
                    else each (Z.to_nat (st_case_arm_count s)) 0 (fun a r =>
                           let* arm := get_at (case_arms p) (u32 (st_case_arm_start s + a)) in
                           reachable_block f (arm_body_start arm) (arm_body_count arm) (depth + 1) r))) r) r
  end.

Definition is_root (public_roots all_roots : bool) (fn : DynIrFunction) : bool :=
  f_is_main fn || (public_roots && f_is_public fn) || f_foreign fn || all_roots.
(** [for (at = 0; at < p->count; ++at)]: the queue grows. *)
Fixpoint drain (fuel : nat) (at_ : Z) : walk := fun r =>
  match fuel with
  | O => None
  | S f =>
      if at_ <? count_of (queue r) then
        let* id := get_at (queue r) at_ in
        let* fn := get_at (functions p) id in
        ((if negb (f_foreign fn) then reachable_block depth_fuel (f_body_start fn) (f_body_count fn) 0 else done_)
         ;& drain f (at_ + 1)) r
      else Some (true, r)
  end.
Definition reachable_collect (public_roots all_roots : bool) : walk :=
  each (length (functions p)) 0 (fun i r =>
    let* fn := get_at (functions p) i in
    if is_root public_roots all_roots fn then reachable_function i r else Some (true, r))
  ;& each (length (globals p)) 0 (fun i r =>
    let* x := get_at (globals p) i in reachable_expression depth_fuel x 0 r)
  ;& drain (length (functions p) + 1) 0.

(** [calloc]. *)
Definition reach_init : Reachability :=
  mkReach (repeat false (length (functions p))) (repeat false (length (expressions p))) (repeat false (length (statements p))) [].

(** [dyn_ir_prune_functions]: [alloc] says whether the four allocations
    succeed; the result is the new liveness. *)
Definition dyn_ir_prune_functions (alloc : bool) : option (option (list bool * list bool * list bool)) :=
  if negb alloc then Some None
  else
    let* (ok, r) := reachable_collect false false reach_init in
    Some (if ok : bool then Some (live r, seen_expressions r, seen_statements r) else None).

(** ** What is reachable *)

Definition refers (e : DynIrExpr) : Prop := e_kind e = DYN_EXPR_FUNCTION \/ e_kind e = DYN_EXPR_CALL.
(** The operands of a node. *)
Definition operand (e : DynIrExpr) (x : Z) : Prop :=
  e_kind e <> DYN_EXPR_FUNCTION /\ leaf_kind (e_kind e) = false
  /\ (x = e_left e \/ x = e_right e \/ (e_kind e = DYN_EXPR_SLICE /\ x = u32 (e_integer e))
      \/ exists i, 0 <= i < e_item_count e /\ get_at (items p) (e_item_start e + i) = Some x).
Definition in_block (start count c : Z) : Prop := exists i, 0 <= i < count /\ get_at (ir_children p) (start + i) = Some c.
Definition substatement (s : DynIrStmt) (c : Z) : Prop :=
  in_block (st_body_start s) (st_body_count s) c \/ in_block (st_else_start s) (st_else_count s) c
  \/ exists a arm, 0 <= a < st_case_arm_count s /\ get_at (case_arms p) (st_case_arm_start s + a) = Some arm
     /\ in_block (arm_body_start arm) (arm_body_count arm) c.

Section Reachable.
Context (public_roots all_roots : bool).
Inductive reach_function : Z -> Prop :=
| rf_root f fn : get_at (functions p) f = Some fn -> f_generic fn = false -> is_root public_roots all_roots fn = true ->
    reach_function f
| rf_refers x e f fn : reach_expr x -> get_at (expressions p) x = Some e -> refers e -> f = e_integer e ->
    get_at (functions p) f = Some fn -> f_generic fn = false -> reach_function f
with reach_expr : Z -> Prop :=
| re_global i x : get_at (globals p) i = Some x -> x <> DYN_NO_EXPR -> reach_expr x
| re_stmt c s x : reach_stmt c -> get_at (statements p) c = Some s -> x = st_expression s \/ x = st_target s ->
    x <> DYN_NO_EXPR -> reach_expr x
| re_operand y e x : reach_expr y -> get_at (expressions p) y = Some e -> operand e x -> x <> DYN_NO_EXPR -> reach_expr x
with reach_stmt : Z -> Prop :=
| rs_body f fn c : reach_function f -> get_at (functions p) f = Some fn -> f_foreign fn = false ->
    in_block (f_body_start fn) (f_body_count fn) c -> reach_stmt c
| rs_sub s st c : reach_stmt s -> get_at (statements p) s = Some st -> substatement st c -> reach_stmt c.
End Reachable.

(** ** The marks are exact *)

(** Unsigned fields, and arrays shorter than 2^32. *)
Record fields_ok : Prop := {
  fo_expr : forall x e, get_at (expressions p) x = Some e ->
    0 <= e_left e /\ 0 <= e_right e /\ 0 <= e_integer e /\ 0 <= e_item_start e /\ 0 <= e_item_count e;
  fo_stmt : forall c s, get_at (statements p) c = Some s ->
    0 <= st_expression s /\ 0 <= st_target s /\ 0 <= st_body_start s /\ 0 <= st_body_count s
    /\ 0 <= st_else_start s /\ 0 <= st_else_count s /\ 0 <= st_case_arm_start s /\ 0 <= st_case_arm_count s;
  fo_arm : forall a arm, get_at (case_arms p) a = Some arm -> 0 <= arm_body_start arm /\ 0 <= arm_body_count arm;
  fo_function : forall f fn, get_at (functions p) f = Some fn -> 0 <= f_body_start fn /\ 0 <= f_body_count fn;
  fo_item : forall i x, get_at (items p) i = Some x -> 0 <= x;
  fo_child : forall i c, get_at (ir_children p) i = Some c -> 0 <= c;
  fo_global : forall i x, get_at (globals p) i = Some x -> 0 <= x;
  fo_sizes : count_of (items p) < 2 ^ 32 /\ count_of (ir_children p) < 2 ^ 32 /\ count_of (case_arms p) < 2 ^ 32
             /\ count_of (functions p) < 2 ^ 32 }.

Definition set_in (l : list bool) (x : Z) : Prop := get_at l x = Some true.
Definition expr_seen (r : Reachability) (x : Z) : Prop := x = DYN_NO_EXPR \/ set_in (seen_expressions r) x.
Definition fn_seen (r : Reachability) (f : Z) : Prop :=
  exists fn, get_at (functions p) f = Some fn /\ (f_generic fn = false -> set_in (live r) f).
Definition block_seen (start count : Z) (r : Reachability) : Prop := forall c, in_block start count c -> set_in (seen_statements r) c.

Record le (r r' : Reachability) : Prop := {
  le_live : forall x, set_in (live r) x -> set_in (live r') x;
  le_expr : forall x, set_in (seen_expressions r) x -> set_in (seen_expressions r') x;
  le_stmt : forall x, set_in (seen_statements r) x -> set_in (seen_statements r') x;
  le_queue : queue r `prefix_of` queue r' }.
#[local] Instance le_preorder : PreOrder le.
Proof.
  split; [by split|]. intros r1 r2 r3 [H1 H2 H3 H4] [G1 G2 G3 G4].
  split; [auto..|]. by etrans.
Qed.

(** What a node's visit leaves marked. *)
Definition expr_done (r : Reachability) (e : DynIrExpr) : Prop :=
  (refers e -> fn_seen r (e_integer e)) /\ forall y, operand e y -> expr_seen r y.
Definition stmt_done (r : Reachability) (s : DynIrStmt) : Prop :=
  expr_seen r (st_expression s) /\ expr_seen r (st_target s) /\ forall c, substatement s c -> set_in (seen_statements r) c.
(** What is marked from [r] to [r'] is visited in [r']. *)
Definition visited (r r' : Reachability) : Prop :=
  (forall x e, set_in (seen_expressions r') x -> ~ set_in (seen_expressions r) x -> get_at (expressions p) x = Some e -> expr_done r' e)
  /\ (forall c s, set_in (seen_statements r') c -> ~ set_in (seen_statements r) c -> get_at (statements p) c = Some s -> stmt_done r' s).

Lemma expr_seen_le r r' x : le r r' -> expr_seen r x -> expr_seen r' x.
Proof. intros [_ H _ _] [?|?]; [by left|right; auto]. Qed.
Lemma fn_seen_le r r' f : le r r' -> fn_seen r f -> fn_seen r' f.
Proof. intros [H _ _ _] (fn & Hf & Hl). exists fn. auto. Qed.
Lemma block_seen_le r r' start count : le r r' -> block_seen start count r -> block_seen start count r'.
Proof. intros [_ _ H _] Hb c Hc. auto. Qed.
Lemma expr_done_le r r' e : le r r' -> expr_done r e -> expr_done r' e.
Proof. intros H [H1 H2]. split; eauto using fn_seen_le, expr_seen_le. Qed.
Lemma stmt_done_le r r' s : le r r' -> stmt_done r s -> stmt_done r' s.
Proof. intros H (H1 & H2 & H3). split_and!; eauto using expr_seen_le, le_stmt. Qed.
#[local] Instance set_in_dec l x : Decision (set_in l x).
Proof. unfold set_in. apply _. Defined.
Lemma visited_refl r : visited r r.
Proof. by split. Qed.
Lemma visited_trans r1 r2 r3 : le r2 r3 -> visited r1 r2 -> visited r2 r3 -> visited r1 r3.
Proof.
  intros Hle [H1 H2] [G1 G2]. split.
  - intros x e H3 Hn He. destruct (decide (set_in (seen_expressions r2) x)); [|by eapply G1].
    eapply expr_done_le; [done|]. by eapply H1.
  - intros c s H3 Hn He. destruct (decide (set_in (seen_statements r2) c)); [|by eapply G2].
    eapply stmt_done_le; [done|]. by eapply H2.
Qed.

(** A program whose references are valid and whose nesting is bounded:
    [erank] and [srank] are the depths below an expression and a statement. *)
Record valid_program (erank srank : Z -> Z) : Prop := {
  va_refers : forall x e, get_at (expressions p) x = Some e -> refers e -> e_integer e < count_of (functions p);
  va_items : forall x e, get_at (expressions p) x = Some e -> e_item_start e + e_item_count e <= count_of (items p);
  va_operand : forall x e y, get_at (expressions p) x = Some e -> operand e y -> y <> DYN_NO_EXPR ->
    y < expression_count p /\ erank y < erank x;
  va_erank : forall x, 0 <= erank x <= 1024;
  va_stmt : forall c s x, get_at (statements p) c = Some s -> x = st_expression s \/ x = st_target s ->
    x = DYN_NO_EXPR \/ x < expression_count p;
  va_blocks : forall c s, get_at (statements p) c = Some s ->
    st_body_start s + st_body_count s <= count_of (ir_children p) /\ st_else_start s + st_else_count s <= count_of (ir_children p)
    /\ st_case_arm_start s + st_case_arm_count s <= count_of (case_arms p);
  va_arm : forall a arm, get_at (case_arms p) a = Some arm -> arm_body_start arm + arm_body_count arm <= count_of (ir_children p);
  va_child : forall i c, get_at (ir_children p) i = Some c -> c < count_of (statements p);
  va_sub : forall c s c', get_at (statements p) c = Some s -> substatement s c' -> srank c' < srank c;
  va_srank : forall c, 0 <= srank c <= 1023;
  va_function : forall f fn, get_at (functions p) f = Some fn -> f_body_start fn + f_body_count fn <= count_of (ir_children p);
  va_global : forall i x, get_at (globals p) i = Some x -> x = DYN_NO_EXPR \/ x < expression_count p }.

Section Exact.
Context (Hf : fields_ok) (public_roots all_roots : bool).
Abbreviation rfn := (reach_function public_roots all_roots).
Abbreviation rex := (reach_expr public_roots all_roots).
Abbreviation rst := (reach_stmt public_roots all_roots).
Context (erank srank : Z -> Z).
Abbreviation valid := (valid_program erank srank).

Record inv (r : Reachability) : Prop := {
  in_live : length (live r) = length (functions p);
  in_expr : length (seen_expressions r) = length (expressions p);
  in_stmt : length (seen_statements r) = length (statements p);
  in_once : NoDup (queue r);
  in_queue : forall f, f ∈ queue r <-> set_in (live r) f;
  in_fn : forall f, set_in (live r) f -> rfn f;
  in_ex : forall x, set_in (seen_expressions r) x -> rex x;
  in_st : forall c, set_in (seen_statements r) c -> rst c }.

(** A walk from a state that satisfies [inv] ends in one; when it does not
    give up, what it marked is visited and [P] holds. It does not give up on a
    valid program. *)
Definition spec (m : walk) (P : Reachability -> Prop) : Prop :=
  forall r, inv r -> exists ok r', m r = Some (ok, r') /\ inv r' /\ le r r' /\ (ok = true -> visited r r' /\ P r') /\ (valid -> ok = true).

Lemma spec_done P : (forall r, inv r -> P r) -> spec done_ P.
Proof. intros HP r Hr. exists true, r. split; [done|]. split; [done|]. split; [reflexivity|]. split; [|done]. intros _. split; [apply visited_refl|auto]. Qed.
Lemma spec_fail P : (valid -> False) -> spec fail_ P.
Proof. intros HP r Hr. exists false, r. split; [done|]. split; [done|]. split; [reflexivity|]. split; [done|]. intros Hv. by apply HP in Hv. Qed.
Lemma spec_weaken m (P Q : Reachability -> Prop) : (forall r, P r -> Q r) -> spec m P -> spec m Q.
Proof. intros H Hm r Hr. destruct (Hm r Hr) as (ok & r' & ? & ? & ? & Hok & ?). exists ok, r'. split_and!; try done. intros E. destruct (Hok E). auto. Qed.
Lemma spec_seq m k (P Q : Reachability -> Prop) :
  (forall r r', le r r' -> P r -> P r') -> spec m P -> spec k Q -> spec (m ;& k) (fun r => P r /\ Q r).
Proof.
  intros Hmono Hm Hk r Hr. unfold and_then. destruct (Hm r Hr) as (ok & r1 & -> & Hi1 & Hle1 & Hok1 & Hv1).
  destruct ok; [|exists false, r1; split_and!; try done; intros Hv; by apply Hv1 in Hv].
  destruct (Hk r1 Hi1) as (ok2 & r2 & -> & Hi2 & Hle2 & Hok2 & Hv2). destruct (Hok1 eq_refl) as [Hvis HP].
  exists ok2, r2. split_and!; try done; [by etrans|]. intros E. destruct (Hok2 E) as [Hvis2 HQ].
  split; [by eapply visited_trans|]. split; [by eapply Hmono|done].
Qed.
Lemma spec_each n from f (P : Z -> Reachability -> Prop) :
  (forall i r r', le r r' -> P i r -> P i r') -> (forall i, from <= i < from + Z.of_nat n -> spec (f i) (P i)) ->
  spec (each n from f) (fun r => forall i, from <= i < from + Z.of_nat n -> P i r).
Proof.
  intros Hmono. revert from. induction n as [|n IH]; intros from Hs; [apply spec_done; intros; lia|]. cbn [each].
  eapply spec_weaken; [|apply (spec_seq _ _ (P from) (fun r => forall i, from + 1 <= i < from + 1 + Z.of_nat n -> P i r))].
  - intros r [H1 H2] i Hi. destruct (Z.eq_dec i from) as [->|]; [done|]. apply H2. lia.
  - apply Hmono.
  - apply Hs. lia.
  - apply IH. intros i Hi. apply Hs. lia.
Qed.

Lemma nodup_bound (l : list Z) n : 0 <= n -> NoDup l -> (forall x, x ∈ l -> 0 <= x < n) -> count_of l <= n.
Proof.
  intros Hn Hl Hb. assert (length l <= length (seqZ 0 n))%nat as H.
  { apply submseteq_length, NoDup_submseteq; [done|]. intros x Hx. apply elem_of_seqZ. specialize (Hb _ Hx). lia. }
  rewrite length_seqZ in H. unfold count_of. lia.
Qed.
Lemma set_in_insert l x y : 0 <= x < count_of l -> set_in (<[Z.to_nat x := true]> l) y <-> y = x \/ set_in l y.
Proof.
  unfold count_of. intros Hx. unfold set_in. destruct (Z.eq_dec y x) as [->|Hne].
  - rewrite get_at_insert_eq by lia. by split; [left|].
  - destruct (Z_le_gt_dec 0 y).
    + rewrite get_at_insert_ne by lia. split; [by right|by intros [?|?]].
    + split; [intros [? _]%get_at_Some; lia|]. intros [?|[? _]%get_at_Some]; lia.
Qed.
Lemma reachable_function_spec id :
  0 <= id -> (forall fn, get_at (functions p) id = Some fn -> f_generic fn = false -> rfn id) ->
  (valid -> id < count_of (functions p)) -> spec (reachable_function id) (fun r => fn_seen r id).
Proof.
  intros Hid Hreach Hv r Hr. unfold reachable_function. destruct (Z.leb_spec (count_of (functions p)) id) as [Hge|Hlt].
  { exists false, r. split; [done|]. split; [done|]. split; [reflexivity|]. split; [done|]. intros H%Hv. lia. }
  destruct (get_at_is_Some (live r) id) as [b Hb]; [rewrite (in_live _ Hr); unfold count_of in Hlt; lia|]. rewrite Hb.
  destruct (get_at_is_Some (functions p) id) as [fn Hfn]; [unfold count_of in Hlt; lia|]. rewrite Hfn.
  destruct (negb b && negb (f_generic fn)) eqn:Hn.
  2: { exists true, r. split; [done|]. split; [done|]. split; [reflexivity|]. split; [|done]. intros _. split; [apply visited_refl|].
       exists fn. split; [done|]. intros Hg. rewrite Hg in Hn. destruct b; done. }
  to_prop. destruct Hn as [-> Hg]. rewrite set_at_insert by (rewrite (in_live _ Hr); unfold count_of in Hlt; lia).
  assert (id ∉ queue r) as Hnq by (rewrite (in_queue _ Hr); unfold set_in; congruence).
  rewrite u32_small by (pose proof (fo_sizes Hf); lia).
  assert (count_of (queue r) < count_of (functions p)) as Hq.
  { pose proof (nodup_bound (id :: queue r) (count_of (functions p))) as Hle. unfold count_of at 1 in Hle. cbn [length] in Hle.
    assert (Z.of_nat (S (length (queue r))) <= count_of (functions p)); [|unfold count_of in *; lia].
    apply Hle; [unfold count_of; lia|constructor; [done|apply (in_once _ Hr)]|].
    intros f Hin. apply elem_of_cons in Hin as [->|Hin]; [lia|]. apply (in_queue _ Hr), get_at_Some in Hin as [Hin _].
    by rewrite (in_live _ Hr) in Hin. }
  destruct (Z.leb_spec (count_of (functions p)) (count_of (queue r))) as [|_]; [lia|].
  set (r' := set_live r (<[Z.to_nat id := true]> (live r)) (queue r ++ [id])).
  assert (forall f, set_in (live r') f <-> f = id \/ set_in (live r) f) as Hl.
  { intros f. apply set_in_insert. unfold count_of in *. rewrite (in_live _ Hr). lia. }
  exists true, r'. split; [done|]. split; [|split; [|split; [|done]]].
  - destruct Hr as [H1 H2 H3 H4 H5 H6 H7 H8]. split; try done.
    + cbn. by rewrite length_insert.
    + cbn. apply NoDup_app. split_and!; [done| |apply NoDup_singleton]. intros f Hfq ->%list_elem_of_singleton. done.
    + intros f. rewrite Hl. cbn. rewrite elem_of_app, list_elem_of_singleton, H5. tauto.
    + intros f [->|?]%Hl; [by eapply Hreach|auto].
  - split; try done; [intros f Hfl; apply Hl; by right|]. cbn. by eexists.
  - intros _. split; [by split|]. exists fn. split; [done|]. intros _. apply Hl. by left.
Qed.

(** The states that only differ in one mark. *)
Lemma mark_expr r x : inv r -> 0 <= x < expression_count p -> rex x ->
  let r1 := set_seen_expressions r (<[Z.to_nat x := true]> (seen_expressions r)) in
  inv r1 /\ le r r1 /\ (forall y, set_in (seen_expressions r1) y <-> y = x \/ set_in (seen_expressions r) y).
Proof.
  intros Hr Hx Hrx r1. assert (forall y, set_in (seen_expressions r1) y <-> y = x \/ set_in (seen_expressions r) y) as Hs.
  { intros y. apply set_in_insert. unfold expression_count, count_of in *. rewrite (in_expr _ Hr). lia. }
  split_and!; [|split; try done; intros y Hy; apply Hs; by right|done].
  destruct Hr as [H1 H2 H3 H4 H5 H6 H7 H8]. split; try done; [cbn; by rewrite length_insert|].
  intros y [->|?]%Hs; auto.
Qed.
Lemma mark_stmt r c : inv r -> 0 <= c < count_of (statements p) -> rst c ->
  let r1 := set_seen_statements r (<[Z.to_nat c := true]> (seen_statements r)) in
  inv r1 /\ le r r1 /\ (forall y, set_in (seen_statements r1) y <-> y = c \/ set_in (seen_statements r) y).
Proof.
  intros Hr Hx Hrx r1. assert (forall y, set_in (seen_statements r1) y <-> y = c \/ set_in (seen_statements r) y) as Hs.
  { intros y. apply set_in_insert. unfold count_of in *. rewrite (in_stmt _ Hr). lia. }
  split_and!; [|split; try done; intros y Hy; apply Hs; by right|done].
  destruct Hr as [H1 H2 H3 H4 H5 H6 H7 H8]. split; try done; [cbn; by rewrite length_insert|].
  intros y [->|?]%Hs; auto.
Qed.

(** The operands of a node, walked one after the other. *)
Lemma operands_spec f e d x :
  get_at (expressions p) x = Some e -> rex x -> bool_decide (e_kind e = DYN_EXPR_FUNCTION) = false -> leaf_kind (e_kind e) = false ->
  (forall y, 0 <= y -> operand e y -> spec (reachable_expression f y d) (fun r => expr_seen r y)) ->
  spec ((if bool_decide (e_kind e = DYN_EXPR_CALL) then reachable_function (e_integer e) else done_)
        ;& reachable_expression f (e_left e) d ;& reachable_expression f (e_right e) d
        ;& (if bool_decide (e_kind e = DYN_EXPR_SLICE) then reachable_expression f (u32 (e_integer e)) d else done_)
        ;& (if count_of (items p) <? e_item_start e + e_item_count e then fail_
            else each (Z.to_nat (e_item_count e)) 0 (fun i r =>
                   let* x := get_at (items p) (u32 (e_item_start e + i)) in reachable_expression f x d r)))
       (fun r => expr_done r e).
Proof.
  intros He Hx Hnf Hleaf Hop. apply bool_decide_eq_false in Hnf. destruct (fo_expr Hf _ _ He) as (Hl & Hr & Hi & Hs & Hc).
  destruct (fo_sizes Hf) as (Hsz & _).
  apply (spec_weaken _ (fun r => ((((e_kind e = DYN_EXPR_CALL -> fn_seen r (e_integer e)) /\ expr_seen r (e_left e))
    /\ expr_seen r (e_right e)) /\ (e_kind e = DYN_EXPR_SLICE -> expr_seen r (u32 (e_integer e))))
    /\ forall i, 0 <= i < 0 + Z.of_nat (Z.to_nat (e_item_count e)) -> forall y, get_at (items p) (e_item_start e + i) = Some y -> expr_seen r y)).
  { intros r ((((H1 & H2) & H3) & H4) & H5). split.
    - intros [?|Hk]; [done|]. exact (H1 Hk).
    - intros y (_ & _ & [->|[->|[[Hk ->]|(i & Hi' & Hy)]]]); [done|done|exact (H4 Hk)|]. apply (H5 i); [lia|done]. }
  apply spec_seq; [intros r r' Hle [[[? ?] ?] ?]; split_and!; eauto using fn_seen_le, expr_seen_le| |].
  { apply spec_seq; [intros r r' Hle [[? ?] ?]; split_and!; eauto using fn_seen_le, expr_seen_le| |].
    { apply spec_seq; [intros r r' Hle [? ?]; split_and!; eauto using fn_seen_le, expr_seen_le| |].
      { apply spec_seq; [intros r r' Hle ? ?; eauto using fn_seen_le| |].
        - case_bool_decide as Hk; [|by apply spec_done]. eapply spec_weaken; [intros r H _; exact H|]. apply reachable_function_spec; [done| |].
          + intros fn Hfn Hg. eapply rf_refers; [exact Hx|exact He|by right|done|exact Hfn|done].
          + intros Hv. eapply va_refers; [exact Hv|exact He|by right].
        - apply Hop; [done|]. split_and!; auto. }
      apply Hop; [done|]. split_and!; auto. }
    case_bool_decide as Hk; [|by apply spec_done]. eapply spec_weaken; [intros r H _; exact H|].
    apply Hop; [apply u32_range|]. split_and!; auto. }
  destruct (Z.ltb_spec (count_of (items p)) (e_item_start e + e_item_count e)) as [Hlt|Hge].
  { apply spec_fail. intros Hv. pose proof (va_items _ _ Hv _ _ He). lia. }
  apply spec_each; [intros i r r' Hle H y Hy; eauto using expr_seen_le|]. intros i Hi'.
  destruct (get_at_is_Some (items p) (e_item_start e + i)) as [y Hy]; [unfold count_of in *; lia|].
  rewrite u32_small by lia. rewrite Hy. eapply spec_weaken; [intros r H y' [= <-]; exact H|].
  apply Hop; [by eapply fo_item|]. split_and!; [done..|]. do 3 right. exists i. split; [lia|done].
Qed.

Lemma reachable_expression_spec f id depth :
  0 <= id -> 0 <= depth <= 1025 -> 1025 - depth < Z.of_nat f -> (id <> DYN_NO_EXPR -> rex id) ->
  (valid -> id = DYN_NO_EXPR \/ id < expression_count p /\ depth + erank id <= 1024) ->
  spec (reachable_expression f id depth) (fun r => expr_seen r id).
Proof.
  revert id depth. induction f as [|f IH]; intros id depth Hid Hd Hfuel Hre Hv r Hr; [lia|]. cbn [reachable_expression].
  destruct (Z.eqb_spec id DYN_NO_EXPR) as [E|Hne].
  { apply (spec_done (fun r => expr_seen r id)); [by left|done]. }
  specialize (Hre Hne). destruct (_ || _) eqn:Hb.
  { apply (spec_fail (fun r => expr_seen r id)); [|done]. intros Hval. pose proof (va_erank _ _ Hval id). specialize (Hv Hval). to_prop. lia. }
  to_prop. assert (0 <= id < expression_count p) as Hin by lia.
  destruct (get_at_is_Some (seen_expressions r) id) as [b Hs]; [rewrite (in_expr _ Hr); exact Hin|]. rewrite Hs.
  destruct b.
  { exists true, r. split; [done|]. split; [done|]. split; [reflexivity|]. split; [|done]. intros _. split; [apply visited_refl|by right]. }
  rewrite set_at_insert by (rewrite (in_expr _ Hr); exact Hin).
  destruct (get_at_is_Some (expressions p) id Hin) as [e He]. rewrite He.
  destruct (mark_expr r id Hr Hin Hre) as (Hi1 & Hle1 & Hm). set (r1 := set_seen_expressions r _) in *.
  (* The visit of the node, from the state in which it is marked. *)
  assert (forall m : walk, spec m (fun r => expr_done r e) ->
    exists ok r', m r1 = Some (ok, r') /\ inv r' /\ le r r' /\ (ok = true -> visited r r' /\ expr_seen r' id) /\ (valid -> ok = true)) as Hvisit.
  { intros m Hsp. destruct (Hsp r1 Hi1) as (ok & r' & Hrun & Hi' & Hle' & Hok & Hvok). exists ok, r'. split; [done|]. split; [done|].
    split; [by etrans|]. split; [|done]. intros E. destruct (Hok E) as [[Hve Hvs] Hdone].
    split; [split|].
    - intros x e' Hx Hnx He'. destruct (Z.eq_dec x id) as [->|Hnid]; [by simplify_eq|].
      eapply Hve; [done| |done]. rewrite Hm. by intros [?|?].
    - intros c s Hc Hnc. by apply Hvs.
    - right. apply Hle'. apply Hm. by left. }
  case_bool_decide as Hk.
  { apply Hvisit. eapply spec_weaken; [|apply reachable_function_spec].
    - intros r' Hfs. split; [done|]. intros y (? & _). done.
    - by destruct (fo_expr Hf _ _ He) as (_ & _ & ? & _).
    - intros fn Hfn Hg. eapply rf_refers; [exact Hre|exact He|by left|done|exact Hfn|done].
    - intros Hval. eapply va_refers; [exact Hval|exact He|by left]. }
  destruct (leaf_kind (e_kind e)) eqn:Hleaf.
  { apply (Hvisit done_), spec_done. intros r' _. split; [|by intros y (_ & ? & _); congruence].
    intros [?|E]; [done|]. by rewrite E in Hleaf. }
  apply Hvisit. eapply operands_spec; [exact He|done|by apply bool_decide_eq_false|done|].
  intros y Hy Hop. apply IH; [done|lia|lia|by intros Hny; eapply re_operand|].
  intros Hval. destruct (Z.eq_dec y DYN_NO_EXPR) as [|Hny]; [by left|right].
  destruct (va_operand _ _ Hval _ _ _ He Hop Hny) as [? ?]. specialize (Hv Hval). lia.
Qed.

Lemma stmt_expr_spec c s x : get_at (statements p) c = Some s -> rst c -> x = st_expression s \/ x = st_target s ->
  spec (reachable_expression depth_fuel x 0) (fun r => expr_seen r x).
Proof.
  intros Hc Hr Hx. destruct (fo_stmt Hf _ _ Hc) as (H1 & H2 & _).
  apply reachable_expression_spec; [destruct Hx; lia|lia|unfold depth_fuel; lia|by intros ?; eapply re_stmt|].
  intros Hv. destruct (va_stmt _ _ Hv _ _ _ Hc Hx) as [|]; [by left|right]. pose proof (va_erank _ _ Hv x). lia.
Qed.
(** The parts of a statement. *)
Lemma stmt_parts_spec f c s d :
  get_at (statements p) c = Some s -> rst c ->
  (forall start count, 0 <= start -> 0 <= count -> (forall c', in_block start count c' -> substatement s c') ->
     (valid -> start + count <= count_of (ir_children p)) ->
     spec (reachable_block f start count d) (block_seen start count)) ->
  spec (reachable_expression depth_fuel (st_expression s) 0
        ;& reachable_expression depth_fuel (st_target s) 0
        ;& reachable_block f (st_body_start s) (st_body_count s) d
        ;& reachable_block f (st_else_start s) (st_else_count s) d
        ;& (if count_of (case_arms p) <? st_case_arm_start s + st_case_arm_count s then fail_
            else each (Z.to_nat (st_case_arm_count s)) 0 (fun a r =>
                   let* arm := get_at (case_arms p) (u32 (st_case_arm_start s + a)) in
                   reachable_block f (arm_body_start arm) (arm_body_count arm) d r)))
       (fun r => stmt_done r s).
Proof.
  intros Hc Hr Hblock. destruct (fo_stmt Hf _ _ Hc) as (_ & _ & Hb1 & Hb2 & He1 & He2 & Ha1 & Ha2). destruct (fo_sizes Hf) as (_ & _ & Hsz & _).
  apply (spec_weaken _ (fun r => (((expr_seen r (st_expression s) /\ expr_seen r (st_target s))
    /\ block_seen (st_body_start s) (st_body_count s) r) /\ block_seen (st_else_start s) (st_else_count s) r)
    /\ forall a, 0 <= a < 0 + Z.of_nat (Z.to_nat (st_case_arm_count s)) -> forall arm, get_at (case_arms p) (st_case_arm_start s + a) = Some arm ->
       block_seen (arm_body_start arm) (arm_body_count arm) r)).
  { intros r ((((H1 & H2) & H3) & H4) & H5). split_and!; [done..|]. intros c' [H|[H|(a & arm & Ha & Harm & H)]]; [auto..|].
    eapply (H5 a); [lia|exact Harm|done]. }
  apply spec_seq; [intros r r' Hle [[[? ?] ?] ?]; split_and!; eauto using expr_seen_le, block_seen_le| |].
  { apply spec_seq; [intros r r' Hle [[? ?] ?]; split_and!; eauto using expr_seen_le, block_seen_le| |].
    { apply spec_seq; [intros r r' Hle [? ?]; split_and!; eauto using expr_seen_le| |].
      { apply spec_seq; [intros r r' Hle ?; eauto using expr_seen_le|eapply stmt_expr_spec; eauto..]. }
      apply Hblock; [done..|by left|]. intros Hv. by destruct (va_blocks _ _ Hv _ _ Hc) as (? & _). }
    apply Hblock; [done..|by right; left|]. intros Hv. by destruct (va_blocks _ _ Hv _ _ Hc) as (_ & ? & _). }
  destruct (Z.ltb_spec (count_of (case_arms p)) (st_case_arm_start s + st_case_arm_count s)) as [Hlt|Hge].
  { apply spec_fail. intros Hv. destruct (va_blocks _ _ Hv _ _ Hc) as (_ & _ & ?). lia. }
  apply spec_each; [intros i r r' Hle H arm Harm; eauto using block_seen_le|]. intros a Ha.
  destruct (get_at_is_Some (case_arms p) (st_case_arm_start s + a)) as [arm Harm]; [unfold count_of in *; lia|].
  rewrite u32_small by lia. rewrite Harm. eapply spec_weaken; [intros r H arm' [= <-]; exact H|].
  destruct (fo_arm Hf _ _ Harm). apply Hblock; [done..| |by intros Hv; eapply va_arm].
  intros c' H'. right. right. exists a, arm. split; [lia|done].
Qed.
(** The visit of statement [c]. *)
Lemma visit_stmt_spec c s (m : walk) : get_at (statements p) c = Some s -> rst c -> spec m (fun r => stmt_done r s) ->
  spec (fun r => let* seen := get_at (seen_statements r) c in
                 if seen : bool then Some (true, r)
                 else let* l := set_at (seen_statements r) c true in m (set_seen_statements r l))
       (fun r => set_in (seen_statements r) c).
Proof.
  intros Hc Hrc Hm r Hr. pose proof Hc as [Hin _]%get_at_Some.
  destruct (get_at_is_Some (seen_statements r) c) as [b Hs]; [by rewrite (in_stmt _ Hr)|]. rewrite Hs. destruct b.
  { exists true, r. split; [done|]. split; [done|]. split; [reflexivity|]. split; [|done]. intros _. by split; [apply visited_refl|]. }
  rewrite set_at_insert by (by rewrite (in_stmt _ Hr)).
  destruct (mark_stmt r c Hr Hin Hrc) as (Hi1 & Hle1 & Hmk). set (r1 := set_seen_statements r _) in *.
  destruct (Hm r1 Hi1) as (ok & r' & Hrun & Hi' & Hle' & Hok & Hvok). exists ok, r'. split; [done|]. split; [done|].
  split; [by etrans|]. split; [|done]. intros E. destruct (Hok E) as [[Hve Hvs] Hdone]. split; [split|].
  - intros x e Hx Hnx. by apply Hve.
  - intros c' s' Hc' Hnc' Hs'. destruct (Z.eq_dec c' c) as [->|Hne]; [by simplify_eq|].
    eapply Hvs; [done| |done]. rewrite Hmk. by intros [?|?].
  - apply Hle'. apply Hmk. by left.
Qed.
Lemma reachable_block_spec f start count depth :
  0 <= start -> 0 <= count -> 0 <= depth <= 1025 -> 1025 - depth < Z.of_nat f ->
  (forall c, in_block start count c -> rst c) ->
  (valid -> depth <= 1024 /\ start + count <= count_of (ir_children p) /\ forall c, in_block start count c -> depth + srank c <= 1023) ->
  spec (reachable_block f start count depth) (block_seen start count).
Proof.
  revert start count depth. induction f as [|f IH]; intros start count depth Hs Hc Hd Hfuel Hreach Hv; [lia|]. cbn [reachable_block].
  destruct (_ || _) eqn:Hb.
  { apply spec_fail. intros Hval. specialize (Hv Hval). to_prop. lia. }
  to_prop. destruct (fo_sizes Hf) as (_ & Hsz & _).
  apply (spec_weaken _ (fun r => forall i, 0 <= i < 0 + Z.of_nat (Z.to_nat count) -> forall c, get_at (ir_children p) (start + i) = Some c -> set_in (seen_statements r) c)).
  { intros r H c (i & Hi & Hci). apply (H i); [lia|done]. }
  apply spec_each; [intros i r r' Hle H c Hci; eapply le_stmt; eauto|]. intros i Hi.
  destruct (get_at_is_Some (ir_children p) (start + i)) as [c Hci]; [unfold count_of in *; lia|]. rewrite u32_small by lia. rewrite Hci.
  assert (in_block start count c) as Hin by (exists i; split; [lia|done]). pose proof (fo_child Hf _ _ Hci) as Hc0.
  apply (spec_weaken _ (fun r => set_in (seen_statements r) c)); [by intros r H c' [= <-]|].
  destruct (Z.leb_spec (count_of (statements p)) c) as [Hge|Hlt].
  { apply spec_fail. intros Hval. pose proof (va_child _ _ Hval _ _ Hci). lia. }
  destruct (get_at_is_Some (statements p) c) as [s Hst]; [done|]. rewrite Hst.
  apply (visit_stmt_spec c s); [done|by apply Hreach|]. apply stmt_parts_spec with (c := c); [done|by apply Hreach|].
  intros start' count' Hs' Hc' Hsub Hv'. apply IH; [done|done|lia|lia|intros c' H'; eapply rs_sub; eauto|].
  intros Hval. destruct (Hv Hval) as (Hd' & _ & Hrank). pose proof (va_srank _ _ Hval c). specialize (Hrank _ Hin).
  split; [lia|]. split; [auto|]. intros c' H'. pose proof (va_sub _ _ Hval _ _ _ Hst (Hsub _ H')). lia.
Qed.

(** ** The queue *)

Definition body_seen (r : Reachability) (f : Z) : Prop :=
  forall fn, get_at (functions p) f = Some fn -> f_foreign fn = false -> block_seen (f_body_start fn) (f_body_count fn) r.
Definition processed (at_ : Z) (r : Reachability) : Prop :=
  forall j f, 0 <= j < at_ -> get_at (queue r) j = Some f -> body_seen r f.
Lemma body_seen_le r r' f : le r r' -> body_seen r f -> body_seen r' f.
Proof. intros Hle H fn Hfn Hfo. eauto using block_seen_le. Qed.
Lemma queue_le r r' j f : le r r' -> get_at (queue r) j = Some f -> get_at (queue r') j = Some f.
Proof.
  intros [_ _ _ [k Hk]] [Hj Hf']%get_at_Some. apply get_at_Some. rewrite Hk, length_app. split; [lia|]. by apply lookup_app_l_Some.
Qed.
Lemma queue_short r : inv r -> count_of (queue r) <= count_of (functions p).
Proof.
  intros Hr. apply nodup_bound; [unfold count_of; lia|apply (in_once _ Hr)|].
  intros f [Hq _]%(in_queue _ Hr)%get_at_Some. by rewrite (in_live _ Hr) in Hq.
Qed.

Lemma drain_spec fuel at_ r :
  inv r -> 0 <= at_ <= count_of (queue r) -> count_of (functions p) - at_ < Z.of_nat fuel -> processed at_ r ->
  exists ok r', drain fuel at_ r = Some (ok, r') /\ inv r' /\ le r r'
    /\ (ok = true -> visited r r' /\ forall f, f ∈ queue r' -> body_seen r' f) /\ (valid -> ok = true).
Proof.
  revert at_ r. induction fuel as [|fuel IH]; intros at_ r Hr Hat Hfuel Hp.
  { pose proof (queue_short r Hr). lia. }
  cbn [drain]. destruct (Z.ltb_spec at_ (count_of (queue r))) as [Hlt|Hge].
  2: { exists true, r. split; [done|]. split; [done|]. split; [reflexivity|]. split; [|done]. intros _. split; [apply visited_refl|].
       intros f (j & Hj)%list_elem_of_lookup. apply (Hp (Z.of_nat j)); [apply lookup_lt_Some in Hj; unfold count_of in Hge; lia|].
       apply get_at_Some. rewrite Nat2Z.id. split; [apply lookup_lt_Some in Hj; lia|done]. }
  destruct (get_at_is_Some (queue r) at_) as [f Hf']; [unfold count_of in Hlt; lia|]. rewrite Hf'.
  assert (set_in (live r) f) as Hlive.
  { apply (in_queue _ Hr). apply get_at_Some in Hf' as [_ Hf']. by eapply list_elem_of_lookup_2. }
  pose proof Hlive as [Hfr _]%get_at_Some. rewrite (in_live _ Hr) in Hfr.
  destruct (get_at_is_Some (functions p) f Hfr) as [fn Hfn]. rewrite Hfn.
  assert (spec (if negb (f_foreign fn) then reachable_block depth_fuel (f_body_start fn) (f_body_count fn) 0 else done_) (fun r => body_seen r f)) as Hbody.
  { destruct (fo_function Hf _ _ Hfn). destruct (f_foreign fn) eqn:Hfo; cbn [negb].
    - apply spec_done. intros r' _ fn' Hfn' Hfo'. congruence.
    - apply (spec_weaken _ (block_seen (f_body_start fn) (f_body_count fn))); [by intros r' H' fn' Hfn' _; simplify_eq|].
      apply reachable_block_spec; [done|done|lia|unfold depth_fuel; lia| |].
      + intros c Hc. eapply rs_body; [by eapply in_fn|done|done|done].
      + intros Hv. split; [lia|]. split; [by eapply va_function|]. intros c _. pose proof (va_srank _ _ Hv c). lia. }
  unfold and_then. destruct (Hbody r Hr) as (ok & r1 & -> & Hi1 & Hle1 & Hok1 & Hv1).
  destruct ok; [|exists false, r1; split_and!; try done; intros Hv; by apply Hv1 in Hv]. destruct (Hok1 eq_refl) as [Hvis Hb].
  assert (count_of (queue r) <= count_of (queue r1)) as Hgrow by (destruct Hle1 as [_ _ _ Hpre]; apply prefix_length in Hpre; unfold count_of; lia).
  destruct (IH (at_ + 1) r1 Hi1) as (ok2 & r2 & -> & Hi2 & Hle2 & Hok2 & Hv2); [lia|lia| |].
  { intros j g Hj Hg. destruct (get_at_is_Some (queue r) j) as [g' Hg']; [unfold count_of in Hlt; lia|].
    pose proof (queue_le _ _ _ _ Hle1 Hg') as Hg2. simplify_eq. destruct (Z.eq_dec j at_) as [->|Hne]; [by simplify_eq|].
    eapply body_seen_le; [done|]. apply (Hp j); [lia|done]. }
  exists ok2, r2. split_and!; try done; [by etrans|]. intros E. destruct (Hok2 E) as [Hvis2 Hall]. split; [by eapply visited_trans|done].
Qed.

(** ** The whole walk *)

Lemma get_repeat n x : ~ set_in (repeat false n) x.
Proof. unfold set_in. intros [_ H]%get_at_Some. by apply list_elem_of_lookup_2, list_elem_of_In, repeat_spec in H. Qed.
Lemma init_inv : inv reach_init.
Proof.
  split; try (apply repeat_length); try (intros x H; by apply get_repeat in H); [constructor|].
  intros f. split; [by intros ?%not_elem_of_nil|by intros ?%get_repeat].
Qed.

(** What the walk marks when it does not give up. *)
Record closed (r : Reachability) : Prop := {
  cl_roots : forall f fn, get_at (functions p) f = Some fn -> is_root public_roots all_roots fn = true -> fn_seen r f;
  cl_globals : forall i x, get_at (globals p) i = Some x -> expr_seen r x;
  cl_expr : forall x e, set_in (seen_expressions r) x -> get_at (expressions p) x = Some e -> expr_done r e;
  cl_stmt : forall c s, set_in (seen_statements r) c -> get_at (statements p) c = Some s -> stmt_done r s;
  cl_fn : forall f, set_in (live r) f -> body_seen r f }.

Lemma reachable_collect_spec : exists ok r,
  reachable_collect public_roots all_roots reach_init = Some (ok, r) /\ inv r /\ (ok = true -> closed r) /\ (valid -> ok = true).
Proof.
  unfold reachable_collect.
  pose proof (spec_each (length (functions p)) 0 (fun i r =>
    let* fn := get_at (functions p) i in
    if is_root public_roots all_roots fn then reachable_function i r else Some (true, r))
    (fun i r => forall fn, get_at (functions p) i = Some fn -> is_root public_roots all_roots fn = true -> fn_seen r i)) as Hroots.
  ospecialize (Hroots _ _); [intros i r r' Hle H fn Hfn Hro; eauto using fn_seen_le| |].
  { intros i Hi. destruct (get_at_is_Some (functions p) i) as [fn Hfn]; [lia|]. rewrite Hfn. destruct (is_root _ _ fn) eqn:Hro.
    - eapply spec_weaken; [intros r H fn' _ _; exact H|]. apply reachable_function_spec; [lia| |unfold count_of; lia].
      intros fn' Hfn' Hg. simplify_eq. by eapply rf_root.
    - apply spec_done. intros r _ fn' Hfn' Hro'. congruence. }
  pose proof (spec_each (length (globals p)) 0 (fun i r =>
    let* x := get_at (globals p) i in reachable_expression depth_fuel x 0 r)
    (fun i r => forall x, get_at (globals p) i = Some x -> expr_seen r x)) as Hglobals.
  ospecialize (Hglobals _ _); [intros i r r' Hle H x Hx; eauto using expr_seen_le| |].
  { intros i Hi. destruct (get_at_is_Some (globals p) i) as [x Hx]; [lia|]. rewrite Hx.
    eapply spec_weaken; [intros r H x' [= <-]; exact H|].
    apply reachable_expression_spec; [by eapply fo_global|lia|unfold depth_fuel; lia|by intros ?; eapply re_global|].
    intros Hv. destruct (va_global _ _ Hv _ _ Hx) as [|]; [by left|right]. pose proof (va_erank _ _ Hv x). lia. }
  opose proof (spec_seq _ _ _ _ _ Hroots Hglobals) as Hboth; [intros r r' Hle H i Hi fn Hfn Hro; eauto using fn_seen_le|].
  unfold and_then at 1. destruct (Hboth reach_init init_inv) as (ok & r1 & -> & Hi1 & Hle1 & Hok1 & Hv1).
  destruct ok; [|exists false, r1; split_and!; try done; intros Hv; by apply Hv1 in Hv]. destruct (Hok1 eq_refl) as [Hvis1 [HR HG]].
  destruct (drain_spec (length (functions p) + 1) 0 r1 Hi1) as (ok2 & r2 & -> & Hi2 & Hle2 & Hok2 & Hv2);
    [unfold count_of; lia|unfold count_of; lia|intros j f Hj; lia|].
  exists ok2, r2. split_and!; try done. intros E. destruct (Hok2 E) as [Hvis2 Hq].
  destruct (visited_trans _ _ _ Hle2 Hvis1 Hvis2) as [Hve Hvs]. split.
  - intros f fn Hfn Hro. eapply fn_seen_le; [done|]. pose proof Hfn as [Hr _]%get_at_Some. eapply HR; [|done|done]. lia.
  - intros i x Hx. eapply expr_seen_le; [done|]. pose proof Hx as [Hr _]%get_at_Some. eapply (HG i); [lia|done].
  - intros x e Hx He. eapply Hve; [done|apply get_repeat|done].
  - intros c s Hc Hs. eapply Hvs; [done|apply get_repeat|done].
  - intros f Hl. apply Hq. by apply (in_queue _ Hi2).
Qed.

Scheme reach_function_mut := Minimality for reach_function Sort Prop
  with reach_expr_mut := Minimality for reach_expr Sort Prop
  with reach_stmt_mut := Minimality for reach_stmt Sort Prop.
Combined Scheme reach_mut from reach_function_mut, reach_expr_mut, reach_stmt_mut.

Lemma closed_complete r : closed r ->
  (forall f, rfn f -> set_in (live r) f) /\ (forall x, rex x -> set_in (seen_expressions r) x)
  /\ (forall c, rst c -> set_in (seen_statements r) c).
Proof.
  intros Hc. apply reach_mut.
  - intros f fn Hfn Hg Hro. destruct (cl_roots _ Hc _ _ Hfn Hro) as (fn' & Hfn' & H). simplify_eq. auto.
  - intros x e f fn _ Hx He Hre -> Hfn Hg. destruct (proj1 (cl_expr _ Hc _ _ Hx He) Hre) as (fn' & Hfn' & H). simplify_eq. auto.
  - intros i x Hx Hn. by destruct (cl_globals _ Hc _ _ Hx).
  - intros c s x _ Hs Hst Hx Hn. destruct (cl_stmt _ Hc _ _ Hs Hst) as (H1 & H2 & _).
    destruct Hx as [->| ->]; [by destruct H1|by destruct H2].
  - intros y e x _ Hy He Hop Hn. by destruct (proj2 (cl_expr _ Hc _ _ Hy He) _ Hop).
  - intros f fn c _ Hl Hfn Hfo Hin. by eapply (cl_fn _ Hc).
  - intros s st c _ Hs Hst Hsub. by apply (cl_stmt _ Hc _ _ Hs Hst).
Qed.
End Exact.
End Walk.

(** What [validate_ir] ensures for the walk. *)
Lemma validated_references p x e :
  validate_ir p = true -> get_at (expressions p) x = Some e ->
  (e_left e = DYN_NO_EXPR \/ e_left e < expression_count p) /\ (e_right e = DYN_NO_EXPR \/ e_right e < expression_count p)
  /\ e_item_start e + e_item_count e <= count_of (items p) /\ (refers e -> e_integer e < count_of (functions p)).
Proof.
  intros Hv [_ He]%get_at_Some. unfold validate_ir in Hv. to_prop. destruct Hv as [[[[Hv _] _] _] _].
  rewrite forallb_forall in Hv. specialize (Hv e). rewrite <- list_elem_of_In in Hv.
  specialize (Hv (list_elem_of_lookup_2 _ _ _ He)). unfold valid_expr, valid_expr_id in Hv. to_prop.
  destruct Hv as [[[[_ Hl] Hr] Hi] Hk]. split_and!; [done|done|lia|]. intros [E|E]; rewrite E in Hk; by apply Z.ltb_lt.
Qed.

(** C20: The walk over the IR reads no array and fills no queue out of bounds
    and always ends. When it does not give up, the functions, expressions and
    statements it marks are exactly those reachable from the roots and the
    initializers of the globals; and it does not give up when all references
    are valid and nothing is nested deeper than its limit of 1024. *)
Theorem reachable_collect_exact p public_roots all_roots :
  fields_ok p ->
  exists ok r, reachable_collect p public_roots all_roots (reach_init p) = Some (ok, r)
    /\ (ok = true ->
        (forall f, set_in (live r) f <-> reach_function p public_roots all_roots f)
        /\ (forall x, set_in (seen_expressions r) x <-> reach_expr p public_roots all_roots x)
        /\ (forall c, set_in (seen_statements r) c <-> reach_stmt p public_roots all_roots c))
    /\ forall erank srank, valid_program p erank srank -> ok = true.
Proof.
  intros Hf. destruct (reachable_collect_spec p Hf public_roots all_roots (fun _ => 0) (fun _ => 0)) as (ok & r & Hrun & Hi & Hok & _).
  exists ok, r. split; [done|]. split.
  - intros E. destruct (closed_complete p public_roots all_roots r (Hok E)) as (H1 & H2 & H3).
    split_and!; intros y; split; auto; apply Hi.
  - intros erank srank Hv.
    destruct (reachable_collect_spec p Hf public_roots all_roots erank srank) as (ok' & r' & Hrun' & _ & _ & Hv'). simplify_eq. auto.
Qed.

(** The example: [main] calls [helper], which has a slice of a global; [unused]
    calls [helper] too. *)
Definition sample : DynIrProgram :=
  let fn start count main := mkFunction 0 0 start count 0 0 main false false false false in
  let leaf k n := mkExpr k DYN_TYPE_I32 DYN_OP_NONE DYN_NO_EXPR DYN_NO_EXPR n false 0 0 false in
  let stmt e := mkStmt DYN_STMT_EXPR e DYN_NO_EXPR DYN_OP_NONE 0 0 0 0 0 0 0 0 0 false in
  mkProgram
    [mkExpr DYN_EXPR_CALL DYN_TYPE_I32 DYN_OP_NONE DYN_NO_EXPR DYN_NO_EXPR 1 false 0 1 false; leaf DYN_EXPR_INT 7;
     leaf DYN_EXPR_GLOBAL 0; mkExpr DYN_EXPR_SLICE DYN_TYPE_SLICE_BASE DYN_OP_NONE 2 1 DYN_NO_EXPR false 0 0 false;
     mkExpr DYN_EXPR_CALL DYN_TYPE_I32 DYN_OP_NONE DYN_NO_EXPR DYN_NO_EXPR 1 false 0 0 false]
    [1] [] [stmt 0; stmt 3; stmt 4] [0; 1; 2] [fn 0 1 true; fn 1 1 false; fn 2 1 false] [] [] [1] [] 0 0 1 None None.
Example sample_live :
  dyn_ir_prune_functions sample true
  = Some (Some ([true; true; false], [true; true; true; true; false], [true; true; false])).
Proof. vm_compute. reflexivity. Qed.
Lemma sample_fields : fields_ok sample.
Proof.
  split; [intros x e H|intros c s H|intros a arm H|intros f fn H|intros i x H|intros i c H|intros i x H|];
    try (enumerate H); vm_compute; intuition congruence.
Qed.
Lemma reachable_collect_exact_witness :
  exists ok r, reachable_collect sample false false (reach_init sample) = Some (ok, r)
    /\ (ok = true ->
        (forall f, set_in (live r) f <-> reach_function sample false false f)
        /\ (forall x, set_in (seen_expressions r) x <-> reach_expr sample false false x)
        /\ (forall c, set_in (seen_statements r) c <-> reach_stmt sample false false c))
    /\ forall erank srank, valid_program sample erank srank -> ok = true.
Proof. apply (reachable_collect_exact sample false false). exact sample_fields. Defined.

(** Pruning keeps exactly what is reachable from [main], foreign functions and
    the globals. *)
Lemma prune_exact p l es ss :
  fields_ok p -> dyn_ir_prune_functions p true = Some (Some (l, es, ss)) -> forall f, set_in l f <-> reach_function p false false f.
Proof.
  intros Hf H. unfold dyn_ir_prune_functions in H. cbn [negb] in H.
  destruct (reachable_collect_spec p Hf false false (fun _ => 0) (fun _ => 0)) as (ok & r & Hrun & Hi & Hok & _).
  rewrite Hrun in H. destruct ok; [|done]. simplify_eq. intros f. split; [apply Hi|].
  by apply (closed_complete p false false r (Hok eq_refl)).
Qed.
