(* ===== verification/ConstEval.v ===== *)
(** The constant evaluator of the native optimiser (src/src/native_opt.c,
    lines 9 to 198): [value] computes an IR expression at compile time, or
    gives up and leaves it to run time with its checks.

    Values are 64-bit words; a value of a signed type is sign-extended. The
    model returns [None] for an access out of the bounds of an IR array (or
    without fuel), and otherwise the optional value with the work left. *)

From S2P Require Import Prelude Ir.

(** ** State *)

Record Eval := mkEval {
  ir : DynIrProgram; level : Z; pointer_bits : Z;
  function : option DynIrFunction; arguments : list Z; samples : option (list Z) }.

(** ** Words *)

Definition width (c : Eval) (t : Z) : Z :=
  if t =? DYN_TYPE_BOOL then 1
  else if (t =? DYN_TYPE_I8) || (t =? DYN_TYPE_U8) then 8
  else if (t =? DYN_TYPE_I16) || (t =? DYN_TYPE_U16) then 16
  else if (t =? DYN_TYPE_I32) || (t =? DYN_TYPE_U32) then 32
  else if (t =? DYN_TYPE_I64) || (t =? DYN_TYPE_U64) then 64
  else if (t =? DYN_TYPE_ISIZE) || (t =? DYN_TYPE_USIZE) then pointer_bits c
  else 0.
Definition signed_type (t : Z) : bool :=
  ((DYN_TYPE_I8 <=? t) && (t <=? DYN_TYPE_I64)) || (t =? DYN_TYPE_ISIZE).
Definition mask_of (bits : Z) : Z := Z.shiftr UINT64_MAX (64 - bits).
Definition high_of (bits : Z) : Z := u64 (Z.shiftl 1 (bits - 1)).
Definition not64 (x : Z) : Z := u64 (Z.lnot x).
Definition normalize (x bits : Z) (sign : bool) : Z :=
  let mask := mask_of bits in
  let high := high_of bits in
  let x := Z.land x mask in
  if sign && negb (Z.land x high =? 0) then Z.lor x (not64 mask) else x.
Definition of_bool (b : bool) : Z := if b then 1 else 0.

(** The unary operators on the operand [a]: [None] leaves the expression. *)
Definition unary (op : DynOperator) (wraps : bool) (bits : Z) (sign : bool) (a : Z) : option Z :=
  let mask := mask_of bits in
  let high := high_of bits in
  let a := Z.land a mask in
  match op with
  | DYN_OP_NOT => Some (of_bool (a =? 0))
  | DYN_OP_BIT_NOT => Some (not64 a)
  | DYN_OP_NEG =>
      if negb wraps && (if sign then a =? high else negb (a =? 0)) then None else Some (u64 (0 - a))
  | _ => None
  end.

(** The switch over the binary operators: the result and whether it
    overflows. [bits] and [sign] are of the result, [obits] and [osign] of the
    operands. *)
Definition binary (op : DynOperator) (wraps : bool) (bits : Z) (sign : bool) (obits : Z) (osign : bool) (a b : Z) : option Z :=
  let mask := mask_of bits in
  let high := high_of bits in
  let omask := mask_of obits in
  let ohigh := high_of obits in
  let a := Z.land a omask in
  let b := Z.land b omask in
  let key x := if osign then Z.lxor x ohigh else x in
  let plain r := Some (r, false) in
  let* (r, overflow) :=
    match op with
    | DYN_OP_ADD =>
        let r := Z.land (u64 (a + b)) mask in
        Some (r, if sign then negb (Z.land (Z.land (not64 (Z.lxor a b)) (Z.lxor a r)) high =? 0) else u64 (mask - a) <? b)
    | DYN_OP_SUB =>
        let r := Z.land (u64 (a - b)) mask in
        Some (r, if sign then negb (Z.land (Z.land (Z.lxor a b) (Z.lxor a r)) high =? 0) else a <? b)
    | DYN_OP_MUL =>
        let r := Z.land (u64 (a * b)) mask in
        let aa := if sign && negb (Z.land a high =? 0) then Z.land (u64 (0 - a)) mask else a in
        let bb := if sign && negb (Z.land b high =? 0) then Z.land (u64 (0 - b)) mask else b in
        let limit := if sign then if negb (Z.land (Z.lxor a b) high =? 0) then high else high - 1 else mask in
        Some (r, negb (bb =? 0) && (limit / bb <? aa))
    | DYN_OP_BIT_AND => plain (Z.land a b)
    | DYN_OP_BIT_OR => plain (Z.lor a b)
    | DYN_OP_BIT_XOR => plain (Z.lxor a b)
    | DYN_OP_EQ => plain (of_bool (a =? b))
    | DYN_OP_NE => plain (of_bool (negb (a =? b)))
    | DYN_OP_LT => plain (of_bool (key a <? key b))
    | DYN_OP_LE => plain (of_bool (key a <=? key b))
    | DYN_OP_GT => plain (of_bool (key b <? key a))
    | DYN_OP_GE => plain (of_bool (key b <=? key a))
    | DYN_OP_LOGICAL_AND => plain (of_bool (negb (a =? 0) && negb (b =? 0)))
    | DYN_OP_LOGICAL_OR => plain (of_bool (negb (a =? 0) || negb (b =? 0)))
    | _ => None
    end in
  if overflow && negb wraps then None else Some r.

(** ** The evaluator *)

(** The index of the parameter whose local is [id]. *)
Fixpoint find_param (n : nat) (c : Eval) (first i id : Z) : option (option Z) :=
  match n with
  | O => Some None
  | S n' =>
      let* p := get_at (params (ir c)) (first + i) in
      if p_local_id p =? id then Some (Some i) else find_param n' c first (i + 1) id
  end.

Definition result : Type := option (option Z * Z).
Definition no (remaining : Z) : result := Some (None, remaining).

Fixpoint value (fuel : nat) (c : Eval) (remaining id depth : Z) : result :=
  match fuel with
  | O => None
  | S f =>
      if (depth >? 64) || (remaining =? 0) || (Z.of_nat (length (expressions (ir c))) <=? id) then no remaining
      else
        let remaining := remaining - 1 in
        let* e := get_at (expressions (ir c)) id in
        let bits := width c (e_type e) in
        if bits =? 0 then no remaining
        else
          let sign := signed_type (e_type e) in
          let done r remaining := Some (Some (normalize r bits sign), remaining) in
          match e_kind e with
          | DYN_EXPR_INT | DYN_EXPR_CHAR => done (e_integer e) remaining
          | DYN_EXPR_BOOL => done (of_bool (e_boolean e)) remaining
          | DYN_EXPR_NAME =>
              match function c with
              | Some g =>
                  let* i := find_param (Z.to_nat (f_param_count g)) c (f_param_start g) 0 (e_integer e) in
                  match i with
                  | Some i => let* a := get_at (arguments c) i in Some (Some a, remaining)
                  | None => no remaining
                  end
              | None =>
                  if (level c <? 2) || (local_count (ir c) <=? e_integer e) then no remaining
                  else
                    match unstable_locals (ir c) with
                    | None => no remaining
                    | Some unstable =>
                        let* u := get_at unstable (e_integer e) in
                        if u : bool then no remaining
                        else
                          match local_statements (ir c) with
                          | None => no remaining
                          | Some locals =>
                              let* st := get_at locals (e_integer e) in
                              if (st =? 0) || (Z.of_nat (length (statements (ir c))) <? st) then no remaining
                              else
                                let* s := get_at (statements (ir c)) (st - 1) in
                                value f c remaining (st_expression s) (depth + 1)
                          end
                    end
              end
          | DYN_EXPR_CALL =>
              if (3 <=? level c) && negb (match function c with Some _ => true | None => false end)
                 && (e_integer e <? Z.of_nat (length (functions (ir c)))) then
                let* g := get_at (functions (ir c)) (e_integer e) in
                if f_foreign g || f_variadic g || negb (f_body_count g =? 1) || (32 <? f_param_count g)
                   || negb (f_param_count g =? e_item_count e) || (Z.of_nat (length (ir_children (ir c))) <=? f_body_start g)
                then no remaining
                else
                  let* s := get_at (ir_children (ir c)) (f_body_start g) in
                  let* s := get_at (statements (ir c)) s in
                  if negb (bool_decide (st_kind s = DYN_STMT_RETURN)) then no remaining
                  else
                    let* (args, remaining) := call_args f c remaining (e_item_start e) 0 (Z.to_nat (f_param_count g)) depth in
                    match args with
                    | None => no remaining
                    | Some args =>
                        let* budget := match samples c with
                                       | Some l => let* n := get_at l (e_integer e) in Some (if 100 <=? n then 1024 else 16)
                                       | None => Some remaining
                                       end in
                        let nested := mkEval (ir c) (level c) (pointer_bits c) (Some g) args (samples c) in
                        let* (r, _) := value f nested budget (st_expression s) (depth + 1) in
                        Some (r, remaining)
                    end
              else no remaining
          | DYN_EXPR_UNARY =>
              let* (a, remaining) := value f c remaining (e_left e) (depth + 1) in
              match a with
              | None => no remaining
              | Some a =>
                  match unary (e_op e) (e_wrap e) bits sign a with
                  | None => no remaining
                  | Some r => done r remaining
                  end
              end
          | DYN_EXPR_BINARY =>
              let* (a, remaining) := value f c remaining (e_left e) (depth + 1) in
              match a with
              | None => no remaining
              | Some a =>
                  match e_op e, a =? 0 with
                  | DYN_OP_LOGICAL_AND, true => Some (Some 0, remaining)
                  | DYN_OP_LOGICAL_OR, false => Some (Some 1, remaining)
                  | _, _ =>
                      let* (b, remaining) := value f c remaining (e_right e) (depth + 1) in
                      match b with
                      | None => no remaining
                      | Some b =>
                          let* l := get_at (expressions (ir c)) (e_left e) in
                          let* r := get_at (expressions (ir c)) (e_right e) in
                          let operand_bits := width c (e_type l) in
                          if (operand_bits =? 0) || negb (e_type l =? e_type r) then no remaining
                          else
                            match binary (e_op e) (e_wrap e) bits sign operand_bits (signed_type (e_type l)) a b with
                            | None => no remaining
                            | Some r => done r remaining
                            end
                      end
                  end
              end
          | _ => no remaining
          end
  end
(** The arguments of a call, from the [i]-th on: [None] when one is not
    constant. *)
with call_args (fuel : nat) (c : Eval) (remaining first i : Z) (n : nat) (depth : Z) : option (option (list Z) * Z) :=
  match fuel with
  | O => None
  | S f =>
      match n with
      | O => Some (Some [], remaining)
      | S n' =>
          let* id := get_at (items (ir c)) (first + i) in
          let* (a, remaining) := value f c remaining id (depth + 1) in
          match a with
          | None => Some (None, remaining)
          | Some a =>
              let* (l, remaining) := call_args f c remaining first (i + 1) n' depth in
              Some (match l with Some l => Some (a :: l) | None => None end, remaining)
          end
      end
  end.

(** ** The words of mathematical integers *)

(** The integer a word stands for in a type, and the integers of a type. *)
Definition reading (bits : Z) (sign : bool) (x : Z) : Z := if sign then to_signed bits x else wrap bits x.
Definition fits (bits : Z) (sign : bool) (v : Z) : bool :=
  if sign then (- 2 ^ (bits - 1) <=? v) && (v <? 2 ^ (bits - 1)) else (0 <=? v) && (v <? 2 ^ bits).

Section Words.
Variable bits : Z.
Hypothesis Hbits : 1 <= bits <= 64.
Abbreviation M := (2 ^ (bits - 1)).

Lemma pow_bits : 2 ^ bits = 2 * M.
Proof. replace bits with (Z.succ (bits - 1)) at 1 by lia. rewrite Z.pow_succ_r by lia. done. Qed.
Lemma half_pos : 0 < M.
Proof. apply Z.pow_pos_nonneg; lia. Qed.
Lemma pow_64 : 2 ^ 64 = 2 ^ bits * 2 ^ (64 - bits).
Proof. rewrite <- Z.pow_add_r by lia. f_equal. lia. Qed.
Lemma pow_le_64 : 2 ^ bits <= 2 ^ 64.
Proof. apply Z.pow_le_mono_r; lia. Qed.

Lemma mask_of_eq : mask_of bits = 2 ^ bits - 1.
Proof.
  unfold mask_of, UINT64_MAX. rewrite Z.shiftr_div_pow2 by lia. rewrite pow_64.
  symmetry. apply (Z.div_unique _ _ _ (2 ^ (64 - bits) - 1)); [|lia].
  pose proof (Z.pow_pos_nonneg 2 (64 - bits)). lia.
Qed.
Lemma high_of_eq : high_of bits = M.
Proof.
  unfold high_of. rewrite Z.shiftl_1_l. apply u64_small. pose proof half_pos. split; [lia|].
  apply Z.pow_lt_mono_r; lia.
Qed.
Lemma land_mask x : Z.land x (mask_of bits) = x mod 2 ^ bits.
Proof. rewrite mask_of_eq. apply land_ones_mod. lia. Qed.
Lemma u64_mod x : u64 x mod 2 ^ bits = x mod 2 ^ bits.
Proof.
  unfold u64, wrap. rewrite pow_64. rewrite Z.rem_mul_r by (try apply Z.pow_nonzero; lia).
  rewrite (Z.mul_comm (2 ^ bits) (_ mod _)), Z_mod_plus_full. apply Z.mod_mod, Z.pow_nonzero; lia.
Qed.

Lemma top_bit y : 0 <= y < 2 ^ bits -> Z.testbit y (bits - 1) = (M <=? y).
Proof.
  intros Hy. rewrite Z.testbit_odd, Z.shiftr_div_pow2 by lia. rewrite pow_bits in Hy. pose proof half_pos.
  destruct (Z.leb_spec M y).
  - by rewrite <- (Z.div_unique y M 1 (y - M)) by lia.
  - by rewrite Z.div_small by lia.
Qed.
(** The test of the C code for the sign bit. *)
Lemma high_test x : negb (Z.land x (high_of bits) =? 0) = Z.testbit x (bits - 1).
Proof.
  rewrite high_of_eq, land_pow2_testbit by lia. pose proof half_pos.
  destruct (Z.testbit _ _); [by zb | done].
Qed.
Lemma not64_testbit x i : 0 <= i < 64 -> Z.testbit (not64 x) i = negb (Z.testbit x i).
Proof. intros. unfold not64, u64, wrap. rewrite Z.mod_pow2_bits_low by lia. by rewrite Z.lnot_spec by lia. Qed.

Lemma reading_fits sign x : fits bits sign (reading bits sign x) = true.
Proof.
  unfold fits, reading, to_signed, wrap. pose proof half_pos. pose proof pow_bits.
  pose proof (Z.mod_pos_bound x (2 ^ bits)). destruct sign; [destruct (Z.ltb_spec (x mod 2 ^ bits) M)|]; by zb.
Qed.
Lemma reading_mod sign x : reading bits sign x mod 2 ^ bits = x mod 2 ^ bits.
Proof.
  unfold reading, to_signed, wrap. destruct sign; [split_if|]; try by rewrite Z.mod_mod by (apply Z.pow_nonzero; lia).
  replace (x mod 2 ^ bits - 2 ^ bits) with (x mod 2 ^ bits + (-1) * 2 ^ bits) by lia.
  rewrite Z_mod_plus_full. apply Z.mod_mod, Z.pow_nonzero; lia.
Qed.
(** [reading] depends on the low bits only. *)
Lemma reading_congr sign x y : x mod 2 ^ bits = y mod 2 ^ bits -> reading bits sign x = reading bits sign y.
Proof. unfold reading, to_signed, wrap. by intros ->. Qed.
(** The word of an integer of the type, cut to the width. *)
Lemma fits_mod sign v :
  fits bits sign v = true -> v mod 2 ^ bits = if sign && (v <? 0) then v + 2 * M else v.
Proof.
  unfold fits. rewrite pow_bits. pose proof half_pos as Hp. intros H.
  destruct sign; to_prop; cbn [andb]; [|apply Z.mod_small; lia].
  destruct (Z.ltb_spec v 0); [|apply Z.mod_small; lia].
  symmetry. apply (Z.mod_unique _ _ (-1)); lia.
Qed.
Lemma reading_of_fits sign v : fits bits sign v = true -> reading bits sign v = v.
Proof.
  intros H. unfold reading, to_signed, wrap. rewrite (fits_mod sign) by done. unfold fits in H. pose proof half_pos.
  pose proof pow_bits. destruct sign; cbn [andb]; to_prop; [|done]. destruct (Z.ltb_spec v 0); zb; lia.
Qed.

Lemma normalize_eq x sign : normalize x bits sign = u64 (reading bits sign x).
Proof.
  unfold normalize, reading, to_signed, wrap. rewrite land_mask, high_test. pose proof (Z.mod_pos_bound x (2 ^ bits)).
  pose proof half_pos. pose proof pow_bits. pose proof pow_le_64.
  destruct sign; cbn [andb]; [|symmetry; apply u64_small; lia].
  rewrite top_bit by lia. rewrite Z.leb_antisym. destruct (Z.ltb_spec (x mod 2 ^ bits) M); cbn [negb].
  - symmetry. apply u64_small. lia.
  - replace (not64 (mask_of bits)) with (Z.shiftl (2 ^ (64 - bits) - 1) bits).
    + rewrite lor_shift_add by lia. unfold u64, wrap. rewrite pow_64 in *.
      apply (Z.mod_unique _ _ (-1)); lia.
    + unfold not64, u64, wrap. rewrite Z.shiftl_mul_pow2, mask_of_eq by lia.
      apply (Z.mod_unique _ _ (-1)); unfold Z.lnot; rewrite pow_64; [|lia].
      pose proof (Z.pow_pos_nonneg 2 (64 - bits)). nia.
Qed.
End Words.

(** ** The operators on mathematical integers *)

Definition exact_unary (op : DynOperator) (a : Z) : option Z :=
  match op with
  | DYN_OP_NOT => Some (of_bool (a =? 0))
  | DYN_OP_BIT_NOT => Some (Z.lnot a)
  | DYN_OP_NEG => Some (- a)
  | _ => None
  end.
Definition exact_binary (op : DynOperator) (a b : Z) : option Z :=
  match op with
  | DYN_OP_ADD => Some (a + b)
  | DYN_OP_SUB => Some (a - b)
  | DYN_OP_MUL => Some (a * b)
  | DYN_OP_BIT_AND => Some (Z.land a b)
  | DYN_OP_BIT_OR => Some (Z.lor a b)
  | DYN_OP_BIT_XOR => Some (Z.lxor a b)
  | DYN_OP_EQ => Some (of_bool (a =? b))
  | DYN_OP_NE => Some (of_bool (negb (a =? b)))
  | DYN_OP_LT => Some (of_bool (a <? b))
  | DYN_OP_LE => Some (of_bool (a <=? b))
  | DYN_OP_GT => Some (of_bool (b <? a))
  | DYN_OP_GE => Some (of_bool (b <=? a))
  | DYN_OP_LOGICAL_AND => Some (of_bool (negb (a =? 0) && negb (b =? 0)))
  | DYN_OP_LOGICAL_OR => Some (of_bool (negb (a =? 0) || negb (b =? 0)))
  | _ => None
  end.
(** The operators with a run-time overflow check, and those whose result has
    the type of the operands. *)
Definition checked (op : DynOperator) : bool :=
  match op with DYN_OP_NEG | DYN_OP_ADD | DYN_OP_SUB | DYN_OP_MUL => true | _ => false end.
Definition arithmetic (op : DynOperator) : bool :=
  match op with
  | DYN_OP_ADD | DYN_OP_SUB | DYN_OP_MUL | DYN_OP_BIT_AND | DYN_OP_BIT_OR | DYN_OP_BIT_XOR => true
  | _ => false
  end.
(** The comparisons and the logical operators, whose result is a [bool]. *)
Definition truth (op : DynOperator) : bool :=
  match op with
  | DYN_OP_EQ | DYN_OP_NE | DYN_OP_LT | DYN_OP_LE | DYN_OP_GT | DYN_OP_GE | DYN_OP_LOGICAL_AND | DYN_OP_LOGICAL_OR => true
  | _ => false
  end.
(** The unary operators on scalars, whose result has the type of the operand. *)
Definition exact_in_type (op : DynOperator) : bool :=
  match op with DYN_OP_NEG | DYN_OP_NOT | DYN_OP_BIT_NOT => true | _ => false end.
(** The value of an operation of the type, [None] where it traps. *)
Definition outcome (op : DynOperator) (wraps : bool) (bits : Z) (sign : bool) (exact : option Z) : option Z :=
  match exact with
  | Some v => if checked op && negb wraps && negb (fits bits sign v) then None else Some (reading bits sign v)
  | None => None
  end.

Lemma lnot_sub x : Z.lnot x = -1 - x.
Proof. unfold Z.lnot. lia. Qed.

Section Operators.
Context (bits : Z) (sign : bool).
Hypothesis Hbits : 1 <= bits <= 64.
Abbreviation M := (2 ^ (bits - 1)).

Lemma normalize_mod r v : r mod 2 ^ bits = v mod 2 ^ bits -> normalize r bits sign = u64 (reading bits sign v).
Proof. intros H. rewrite normalize_eq by done. f_equal. by apply reading_congr. Qed.
Lemma word_land v : fits bits sign v = true -> Z.land (u64 v) (mask_of bits) = if sign && (v <? 0) then v + 2 * M else v.
Proof. intros H. rewrite land_mask, u64_mod by done. by apply fits_mod. Qed.
Lemma word_land_mod v : Z.land (u64 v) (mask_of bits) = v mod 2 ^ bits.
Proof. by rewrite land_mask, u64_mod. Qed.
Lemma word_zero v : fits bits sign v = true -> (Z.land (u64 v) (mask_of bits) =? 0) = (v =? 0).
Proof.
  intros H. rewrite word_land by done. unfold fits in H. pose proof (half_pos bits Hbits).
  destruct sign; cbn [andb]; [|done]. to_prop. destruct (Z.ltb_spec v 0); [|done]. by zb.
Qed.

(** The unary operators give the exact result read in the type, or nothing
    exactly where the run-time check would trap. *)
Lemma unary_exact op wraps v :
  fits bits sign v = true ->
  (fun r => normalize r bits sign) <$> unary op wraps bits sign (u64 v)
  = u64 <$> outcome op wraps bits sign (exact_unary op v).
Proof.
  intros Hv. unfold unary, outcome, exact_unary.
  destruct op; try done; cbn [checked andb fmap option_fmap option_map].
  - pose proof (fits_mod bits Hbits sign v Hv) as Hm. pose proof (half_pos bits Hbits) as Hp.
    rewrite word_land_mod. rewrite high_of_eq by done.
    assert ((if sign then v mod 2 ^ bits =? M else negb (v mod 2 ^ bits =? 0)) = negb (fits bits sign (- v))) as ->.
    { rewrite Hm. unfold fits in *. rewrite pow_bits in * by done.
      destruct sign; cbn [andb] in *; to_prop; [destruct (Z.ltb_spec v 0)|];
        repeat match goal with |- context [?a =? ?b] => destruct (Z.eqb_spec a b) end; zb; try done; lia. }
    destruct (negb wraps && _); [done|]. cbn. f_equal. apply normalize_mod.
    rewrite u64_mod by done. by rewrite Zminus_mod_idemp_r, Z.sub_0_l.
  - f_equal. apply normalize_mod. by rewrite word_zero.
  - f_equal. apply normalize_mod. unfold not64. rewrite u64_mod, word_land_mod by done.
    by rewrite !lnot_sub, Zminus_mod_idemp_r.
Qed.

(** The sign bit of a sum or difference of two words, as the overflow tests
    of the C code read it. *)
Lemma sign_of v : fits bits true v = true -> Z.testbit (v mod 2 ^ bits) (bits - 1) = (v <? 0).
Proof.
  intros H. rewrite top_bit by (done || (apply Z.mod_pos_bound, Z.pow_pos_nonneg; lia)).
  rewrite (fits_mod bits Hbits true) by done. unfold fits in H. to_prop. cbn [andb].
  destruct (Z.ltb_spec v 0); by zb.
Qed.
(** A value between [-2M] and [2M] read through its low bits changes sign
    exactly when it does not fit. *)
Lemma sign_of_sum s : - 2 ^ bits <= s < 2 ^ bits ->
  Z.testbit (s mod 2 ^ bits) (bits - 1) = if fits bits true s then s <? 0 else negb (s <? 0).
Proof.
  intros Hs. rewrite top_bit by (done || (apply Z.mod_pos_bound, Z.pow_pos_nonneg; lia)).
  unfold fits. pose proof (half_pos bits Hbits). rewrite (pow_bits bits Hbits). rewrite (pow_bits bits Hbits) in Hs.
  assert (s mod (2 * M) = if s <? 0 then s + 2 * M else s) as ->.
  { destruct (Z.ltb_spec s 0); [symmetry; apply (Z.mod_unique _ _ (-1)); lia | apply Z.mod_small; lia]. }
  destruct (Z.ltb_spec s 0), (Z.leb_spec (- M) s), (Z.ltb_spec s M); zb; try done; lia.
Qed.

Lemma add_overflow a b :
  fits bits sign a = true -> fits bits sign b = true ->
  let A := a mod 2 ^ bits in let B := b mod 2 ^ bits in let r := (a + b) mod 2 ^ bits in
  (if sign then negb (Z.land (Z.land (not64 (Z.lxor A B)) (Z.lxor A r)) (high_of bits) =? 0)
   else u64 (mask_of bits - A) <? B) = negb (fits bits sign (a + b)).
Proof.
  intros Ha Hb. cbv zeta. pose proof (half_pos bits Hbits). pose proof (pow_bits bits Hbits). pose proof (pow_le_64 bits Hbits).
  destruct sign.
  - rewrite high_test, !Z.land_spec, not64_testbit, !Z.lxor_spec, !sign_of by (done || lia).
    unfold fits in Ha, Hb. to_prop. rewrite sign_of_sum by lia. unfold fits.
    destruct (Z.ltb_spec a 0), (Z.ltb_spec b 0), (Z.ltb_spec (a + b) 0), (Z.leb_spec (- M) (a + b)), (Z.ltb_spec (a + b) M);
      try done; lia.
  - rewrite mask_of_eq by done. unfold fits in *. to_prop. rewrite !Z.mod_small by lia. rewrite u64_small by lia.
    destruct (Z.ltb_spec (2 ^ bits - 1 - a) b); by zb.
Qed.
Lemma sub_overflow a b :
  fits bits sign a = true -> fits bits sign b = true ->
  let A := a mod 2 ^ bits in let B := b mod 2 ^ bits in let r := (a - b) mod 2 ^ bits in
  (if sign then negb (Z.land (Z.land (Z.lxor A B) (Z.lxor A r)) (high_of bits) =? 0) else A <? B)
  = negb (fits bits sign (a - b)).
Proof.
  intros Ha Hb. cbv zeta. pose proof (half_pos bits Hbits). pose proof (pow_bits bits Hbits).
  destruct sign.
  - rewrite high_test, !Z.land_spec, !Z.lxor_spec, !sign_of by (done || lia).
    unfold fits in Ha, Hb. to_prop. rewrite sign_of_sum by lia. unfold fits.
    destruct (Z.ltb_spec a 0), (Z.ltb_spec b 0), (Z.ltb_spec (a - b) 0), (Z.leb_spec (- M) (a - b)), (Z.ltb_spec (a - b) M);
      try done; lia.
  - unfold fits in *. to_prop. rewrite !Z.mod_small by lia.
    destruct (Z.ltb_spec a b); by zb.
Qed.

(** The magnitude of a word of a signed type. *)
Lemma magnitude a :
  fits bits sign a = true ->
  (if sign && negb (Z.land (a mod 2 ^ bits) (high_of bits) =? 0) then Z.land (u64 (0 - a mod 2 ^ bits)) (mask_of bits)
   else a mod 2 ^ bits) = Z.abs a.
Proof.
  intros Ha. pose proof (half_pos bits Hbits). pose proof (pow_bits bits Hbits).
  pose proof (fits_mod bits Hbits sign a Ha) as Hm. rewrite high_test by done. rewrite word_land_mod.
  rewrite Zminus_mod_idemp_r, Z.sub_0_l. revert Ha Hm. destruct sign; cbn [andb]; intros Ha Hm.
  - rewrite sign_of by done. unfold fits in Ha. to_prop. destruct (Z.ltb_spec a 0); [|lia].
    rewrite Z.mod_small by lia. lia.
  - unfold fits in Ha. to_prop. lia.
Qed.
Lemma quotient_test l a b : 0 <= l -> 0 <= a -> 0 <= b -> negb (b =? 0) && (l / b <? a) = (l <? a * b).
Proof.
  intros. destruct (Z.eqb_spec b 0) as [->|Hb]; cbn [negb andb]; [zb; done|].
  destruct (Z.ltb_spec (l / b) a) as [Hl|Hl]; symmetry.
  - apply Z.ltb_lt. pose proof (Z.mul_succ_div_gt l b). nia.
  - apply Z.ltb_ge. pose proof (Z.mul_div_le l b). nia.
Qed.
Lemma mul_overflow a b :
  fits bits sign a = true -> fits bits sign b = true ->
  let A := a mod 2 ^ bits in let B := b mod 2 ^ bits in
  let aa := if sign && negb (Z.land A (high_of bits) =? 0) then Z.land (u64 (0 - A)) (mask_of bits) else A in
  let bb := if sign && negb (Z.land B (high_of bits) =? 0) then Z.land (u64 (0 - B)) (mask_of bits) else B in
  let limit := if sign then if negb (Z.land (Z.lxor A B) (high_of bits) =? 0) then high_of bits else high_of bits - 1
               else mask_of bits in
  negb (bb =? 0) && (limit / bb <? aa) = negb (fits bits sign (a * b)).
Proof.
  intros Ha Hb. cbv zeta. rewrite !magnitude by done. pose proof (half_pos bits Hbits). pose proof (pow_bits bits Hbits).
  rewrite quotient_test by (try lia; rewrite high_of_eq, mask_of_eq by done; repeat split_if; lia).
  rewrite <- Z.abs_mul. destruct sign.
  - rewrite high_test, !Z.lxor_spec, !sign_of, high_of_eq by done. unfold fits.
    destruct (Z.ltb_spec a 0), (Z.ltb_spec b 0); cbn [xorb];
      match goal with |- (?l <? ?x) = _ => destruct (Z.ltb_spec l x) end; symmetry.
    all: destruct (Z.leb_spec (- M) (a * b)), (Z.ltb_spec (a * b) M); try done; nia.
  - rewrite mask_of_eq by done. unfold fits in *. to_prop. destruct (Z.ltb_spec (2 ^ bits - 1) (Z.abs (a * b))); symmetry.
    all: destruct (Z.leb_spec 0 (a * b)), (Z.ltb_spec (a * b) (2 ^ bits)); try done; nia.
Qed.

Lemma lxor_high y : 0 <= y < 2 ^ bits -> Z.lxor y M = if M <=? y then y - M else y + M.
Proof.
  intros Hy. assert (forall x, 0 <= x < M -> Z.lxor x M = x + M) as Hx.
  { intros x Hx. symmetry. apply Z.add_nocarry_lxor. rewrite land_pow2_testbit by lia.
    by rewrite (testbit_high x (bits - 1)) by lia. }
  rewrite (pow_bits bits Hbits) in Hy. destruct (Z.leb_spec M y); [|apply Hx; lia].
  replace y with (y - M + M) at 1 by lia. rewrite <- Hx by lia.
  by rewrite Z.lxor_assoc, Z.lxor_nilpotent, Z.lxor_0_r.
Qed.
(** The order of the words the comparisons use is the order of the values. *)
Definition key (x : Z) : Z := if sign then Z.lxor x (high_of bits) else x.
Lemma key_eq a : fits bits sign a = true -> key (a mod 2 ^ bits) = if sign then a + M else a.
Proof.
  intros Ha. unfold key. pose proof (fits_mod bits Hbits sign a Ha) as Hm. pose proof (half_pos bits Hbits).
  revert Ha Hm. destruct sign; intros Ha Hm; [|by rewrite Hm].
  rewrite high_of_eq, lxor_high, Hm by (done || (apply Z.mod_pos_bound, Z.pow_pos_nonneg; lia)).
  unfold fits in Ha. to_prop. cbn [andb]. destruct (Z.ltb_spec a 0); zb; lia.
Qed.
Lemma word_eqb a b :
  fits bits sign a = true -> fits bits sign b = true -> (a mod 2 ^ bits =? b mod 2 ^ bits) = (a =? b).
Proof.
  intros Ha Hb. rewrite !(fits_mod bits Hbits sign) by done. unfold fits in *. pose proof (half_pos bits Hbits).
  destruct sign; cbn [andb]; [|done]. to_prop. destruct (Z.ltb_spec a 0), (Z.ltb_spec b 0), (Z.eqb_spec a b); zb; lia || done.
Qed.

(** The arithmetic operators, whose operands have the type of the result. *)
Lemma arithmetic_exact op wraps a b :
  arithmetic op = true -> fits bits sign a = true -> fits bits sign b = true ->
  (fun r => normalize r bits sign) <$> binary op wraps bits sign bits sign (u64 a) (u64 b)
  = u64 <$> outcome op wraps bits sign (exact_binary op a b).
Proof.
  intros Ho Ha Hb. unfold binary, outcome, exact_binary. rewrite (word_land_mod a), (word_land_mod b).
  assert (forall x r, r mod 2 ^ bits = x mod 2 ^ bits ->
            (fun r => normalize r bits sign) <$> Some r = u64 <$> Some (reading bits sign x)) as Hp.
  { intros x r Hr. cbn. f_equal. by apply normalize_mod. }
  destruct op; try done; cbn [checked andb].
  4-6: apply Hp; rewrite <- !Z.land_ones by lia; apply Z.bits_inj'; intros i Hi;
    repeat rewrite Z.land_spec || rewrite Z.lor_spec || rewrite Z.lxor_spec; destruct (Z.testbit a i), (Z.testbit b i), (Z.testbit (Z.ones bits) i); done.
  1: rewrite word_land_mod, <- Zplus_mod, add_overflow by done.
  2: rewrite word_land_mod, <- Zminus_mod, sub_overflow by done.
  3: rewrite (word_land_mod (_ * _)), <- Zmult_mod, mul_overflow by done.
  all: rewrite (andb_comm (negb wraps)); destruct (negb (fits _ _ _) && negb wraps) eqn:He; [done|];
    apply Hp, Z.mod_mod, Z.pow_nonzero; lia.
Qed.
End Operators.

(** The other operators give a boolean. *)
Lemma comparison_exact op wraps obits osign a b :
  1 <= obits <= 64 -> arithmetic op = false -> fits obits osign a = true -> fits obits osign b = true ->
  (fun r => normalize r 1 false) <$> binary op wraps 1 false obits osign (u64 a) (u64 b)
  = u64 <$> outcome op wraps 1 false (exact_binary op a b).
Proof.
  intros Hobits Ho Ha Hb. unfold binary, outcome, exact_binary.
  pose proof (word_zero obits osign Hobits a Ha) as Hza. pose proof (word_zero obits osign Hobits b Hb) as Hzb.
  rewrite !word_land_mod in * by done.
  pose proof (key_eq obits osign Hobits a Ha) as Hka. pose proof (key_eq obits osign Hobits b Hb) as Hkb. unfold key in *.
  assert (forall r v, r = v -> (fun r => normalize r 1 false) <$> Some r = u64 <$> Some (reading 1 false v)) as Hp.
  { intros r v ->. cbn [fmap option_fmap option_map]. by rewrite normalize_eq. }
  destruct op; try done; cbn [checked andb]; apply Hp; f_equal; rewrite ?Hza, ?Hzb; rewrite ?Hka, ?Hkb;
    rewrite ?(word_eqb obits osign Hobits) by done; try done.
  all: destruct osign; try done.
  all: match goal with |- (?a <? ?b) = _ => destruct (Z.ltb_spec a b) | |- (?a <=? ?b) = _ => destruct (Z.leb_spec a b) end; by zb.
Qed.

(** ** Well-formed programs

    What the checker and the lowering guarantee of the arrays the evaluator
    reads: indices in range, and the types of operands, arguments, initialisers
    and returned expressions. Only expressions of a scalar type are
    constrained, operators without a rule in the evaluator (division, remainder,
    shifts, addresses, dereferences) only by their operands being indices, and
    only functions the evaluator enters ([inlinable]) by their parameters. *)
Definition has_type (c : Eval) (id t : Z) : bool :=
  (0 <=? id) && match get_at (expressions (ir c)) id with Some e => e_type e =? t | None => true end.
Definition arg_ok (c : Eval) (g : DynIrFunction) (e : DynIrExpr) (i : nat) : bool :=
  match get_at (items (ir c)) (e_item_start e + Z.of_nat i), get_at (params (ir c)) (f_param_start g + Z.of_nat i) with
  | Some a, Some p => has_type c a (p_type p)
  | _, _ => false
  end.
Definition body_ok (c : Eval) (g : DynIrFunction) (t : Z) : bool :=
  match get_at (ir_children (ir c)) (f_body_start g) with
  | Some k =>
      match get_at (statements (ir c)) k with
      | Some s => negb (bool_decide (st_kind s = DYN_STMT_RETURN)) || has_type c (st_expression s) t
      | None => false
      end
  | None => true
  end.
Definition init_ok (c : Eval) (id t : Z) : bool :=
  match local_statements (ir c) with
  | Some l =>
      match get_at l id with
      | Some st => match get_at (statements (ir c)) (st - 1) with Some s => has_type c (st_expression s) t | None => true end
      | None => true
      end
  | None => true
  end.
(** A function whose call the evaluator follows, but for the arguments. *)
Definition inlinable (g : DynIrFunction) : bool :=
  negb (f_foreign g || f_variadic g || negb (f_body_count g =? 1) || (32 <? f_param_count g)).
(** The parameter [i] of [g], where it is the local [id], has type [t]. *)
Definition param_ok (c : Eval) (id t : Z) (g : DynIrFunction) (i : nat) : bool :=
  match get_at (params (ir c)) (f_param_start g + Z.of_nat i) with
  | Some p => negb (p_local_id p =? id) || (p_type p =? t)
  | None => true
  end.
Definition same_type (c : Eval) (l r : Z) : bool :=
  match get_at (expressions (ir c)) l, get_at (expressions (ir c)) r with
  | Some l, Some r => e_type l =? e_type r
  | _, _ => false
  end.
Definition scalar_ok (c : Eval) (e : DynIrExpr) : bool :=
  (0 <=? e_integer e) &&
  match e_kind e with
  | DYN_EXPR_NAME =>
      forallb (fun g => negb (inlinable g) || forallb (param_ok c (e_integer e) (e_type e) g) (seq 0 (Z.to_nat (f_param_count g))))
        (functions (ir c))
      && init_ok c (e_integer e) (e_type e)
  | DYN_EXPR_CALL =>
      match get_at (functions (ir c)) (e_integer e) with
      | Some g =>
          negb (inlinable g) || negb (f_param_count g =? e_item_count e)
          || (forallb (arg_ok c g e) (seq 0 (Z.to_nat (f_param_count g))) && body_ok c g (e_type e))
      | None => true
      end
  | DYN_EXPR_UNARY => (0 <=? e_left e) && (negb (exact_in_type (e_op e)) || has_type c (e_left e) (e_type e))
  | DYN_EXPR_BINARY =>
      (0 <=? e_left e) && (0 <=? e_right e)
      && (negb (arithmetic (e_op e)) || negb (same_type c (e_left e) (e_right e)) || has_type c (e_left e) (e_type e))
      && (negb (truth (e_op e)) || (e_type e =? DYN_TYPE_BOOL))
  | _ => true
  end.
Definition expr_ok (c : Eval) (e : DynIrExpr) : bool := (width c (e_type e) =? 0) || scalar_ok c e.
Definition function_ok (c : Eval) (g : DynIrFunction) : bool :=
  (0 <=? f_param_count g) && (0 <=? f_param_start g) && (0 <=? f_body_start g)
  && (f_param_start g + f_param_count g <=? Z.of_nat (length (params (ir c)))).
Definition locals_ok {A} (c : Eval) (l : option (list A)) : bool :=
  match l with Some l => local_count (ir c) =? Z.of_nat (length l) | None => true end.
Definition well_formed (c : Eval) : bool :=
  (1 <=? pointer_bits c) && (pointer_bits c <=? 64)
  && forallb (expr_ok c) (expressions (ir c)) && forallb (function_ok c) (functions (ir c))
  && locals_ok c (unstable_locals (ir c)) && locals_ok c (local_statements (ir c))
  && match local_statements (ir c) with Some l => forallb (Z.leb 0) l | None => true end
  && match samples c with Some l => Z.of_nat (length l) =? Z.of_nat (length (functions (ir c))) | None => true end.

(** ** The semantics of the expressions, on mathematical integers *)

Definition fits_type (c : Eval) (t v : Z) : bool := fits (width c t) (signed_type t) v.
(** Parameter [i] of [g] is the first with the local [id]. *)
Definition is_param (c : Eval) (g : DynIrFunction) (id i : Z) : Prop :=
  (exists p, get_at (params (ir c)) (f_param_start g + i) = Some p /\ p_local_id p = id)
  /\ forall j p, 0 <= j < i -> get_at (params (ir c)) (f_param_start g + j) = Some p -> p_local_id p <> id.

Definition frame : Type := option (DynIrFunction * list Z).
Inductive sem (c : Eval) : frame -> Z -> Z -> Prop :=
| sem_literal m id e :
    get_at (expressions (ir c)) id = Some e -> e_kind e = DYN_EXPR_INT \/ e_kind e = DYN_EXPR_CHAR ->
    sem c m id (reading (width c (e_type e)) (signed_type (e_type e)) (e_integer e))
| sem_bool m id e :
    get_at (expressions (ir c)) id = Some e -> e_kind e = DYN_EXPR_BOOL ->
    sem c m id (reading (width c (e_type e)) (signed_type (e_type e)) (of_bool (e_boolean e)))
| sem_param g args id e i v :
    get_at (expressions (ir c)) id = Some e -> e_kind e = DYN_EXPR_NAME ->
    is_param c g (e_integer e) i -> get_at args i = Some v -> sem c (Some (g, args)) id v
| sem_local id e unstable locals st s v :
    get_at (expressions (ir c)) id = Some e -> e_kind e = DYN_EXPR_NAME ->
    unstable_locals (ir c) = Some unstable -> get_at unstable (e_integer e) = Some false ->
    local_statements (ir c) = Some locals -> get_at locals (e_integer e) = Some st ->
    get_at (statements (ir c)) (st - 1) = Some s -> sem c None (st_expression s) v -> sem c None id v
| sem_call id e g k s args v :
    get_at (expressions (ir c)) id = Some e -> e_kind e = DYN_EXPR_CALL ->
    get_at (functions (ir c)) (e_integer e) = Some g -> f_foreign g = false -> f_body_count g = 1 ->
    get_at (ir_children (ir c)) (f_body_start g) = Some k -> get_at (statements (ir c)) k = Some s ->
    st_kind s = DYN_STMT_RETURN -> sem_args c (e_item_start e) 0 (Z.to_nat (f_param_count g)) args ->
    sem c (Some (g, args)) (st_expression s) v -> sem c None id v
| sem_unary m id e a v :
    get_at (expressions (ir c)) id = Some e -> e_kind e = DYN_EXPR_UNARY -> sem c m (e_left e) a ->
    outcome (e_op e) (e_wrap e) (width c (e_type e)) (signed_type (e_type e)) (exact_unary (e_op e) a) = Some v ->
    sem c m id v
| sem_and m id e :
    get_at (expressions (ir c)) id = Some e -> e_kind e = DYN_EXPR_BINARY -> e_op e = DYN_OP_LOGICAL_AND ->
    sem c m (e_left e) 0 -> sem c m id 0
| sem_or m id e a :
    get_at (expressions (ir c)) id = Some e -> e_kind e = DYN_EXPR_BINARY -> e_op e = DYN_OP_LOGICAL_OR ->
    sem c m (e_left e) a -> a <> 0 -> sem c m id 1
| sem_binary m id e a b v :
    get_at (expressions (ir c)) id = Some e -> e_kind e = DYN_EXPR_BINARY ->
    sem c m (e_left e) a -> sem c m (e_right e) b ->
    outcome (e_op e) (e_wrap e) (width c (e_type e)) (signed_type (e_type e)) (exact_binary (e_op e) a b) = Some v ->
    sem c m id v
with sem_args (c : Eval) : Z -> Z -> nat -> list Z -> Prop :=
| sem_no_args first i : sem_args c first i 0 []
| sem_arg first i n id v vs :
    get_at (items (ir c)) (first + i) = Some id -> sem c None id v -> sem_args c first (i + 1) n vs ->
    sem_args c first i (S n) (v :: vs).

(** ** Soundness and termination of the evaluator *)

(** The part of the context the semantics reads. *)
Definition base (c : Eval) : Eval := mkEval (ir c) 0 (pointer_bits c) None [] None.
Definition sound (c : Eval) (m : frame) (id : Z) (r : option Z) : Prop :=
  match r with
  | None => True
  | Some u =>
      exists e v, get_at (expressions (ir c)) id = Some e /\ width c (e_type e) <> 0 /\ sem (base c) m id v
                  /\ fits_type c (e_type e) v = true /\ u = u64 v
  end.
Definition returns (c : Eval) (m : frame) (id : Z) (o : result) (remaining : Z) : Prop :=
  exists r rest, o = Some (r, rest) /\ 0 <= rest <= remaining /\ sound c m id r.
Definition frame_ok (c : Eval) (m : frame) : Prop :=
  match function c, m with
  | None, None => True
  | Some g, Some (g', args) =>
      g' = g /\ arguments c = map u64 args /\ Z.of_nat (length args) = f_param_count g /\ function_ok c g = true
      /\ In g (functions (ir c)) /\ inlinable g = true
      /\ forall i v p, get_at args i = Some v -> get_at (params (ir c)) (f_param_start g + i) = Some p ->
                       fits_type c (p_type p) v = true
  | _, _ => False
  end.
(** Enough fuel at a depth: the recursion is cut at depth 65, and a call has at
    most 32 arguments. *)
Definition need (depth : Z) : Z := 35 * Z.max 0 (65 - depth) + 1.

Lemma well_formed_spec c :
  well_formed c = true ->
  1 <= pointer_bits c <= 64
  /\ (forall id e, get_at (expressions (ir c)) id = Some e -> expr_ok c e = true)
  /\ (forall i g, get_at (functions (ir c)) i = Some g -> function_ok c g = true)
  /\ locals_ok c (unstable_locals (ir c)) = true /\ locals_ok c (local_statements (ir c)) = true
  /\ (forall l i st, local_statements (ir c) = Some l -> get_at l i = Some st -> 0 <= st)
  /\ (forall l, samples c = Some l -> length l = length (functions (ir c))).
Proof.
  unfold well_formed. rewrite !andb_true_iff, !forallb_forall, !Z.leb_le. intros [[[[[[[H1 H2] H3] H4] H5] H6] H7] H8].
  assert (forall A (l : list A) i x, get_at l i = Some x -> In x l) as Hin.
  { intros A l i x Hx. apply get_at_Some in Hx as [_ Hx]. apply list_elem_of_In. by eapply list_elem_of_lookup_2. }
  split; [lia|]. split; [eauto|]. split; [eauto|]. do 2 (split; [done|]). split.
  - intros l i st Hl Hst. rewrite Hl in H7. rewrite forallb_forall in H7. apply Hin, H7 in Hst. by apply Z.leb_le.
  - intros l Hl. rewrite Hl in H8. apply Z.eqb_eq in H8. lia.
Qed.

Lemma width_bits c t : 1 <= pointer_bits c <= 64 -> width c t <> 0 -> 1 <= width c t <= 64.
Proof. unfold width. intros. repeat split_if; lia. Qed.

Lemma word_is_zero c t v :
  1 <= pointer_bits c <= 64 -> width c t <> 0 -> fits_type c t v = true -> (u64 v =? 0) = (v =? 0).
Proof.
  intros Hp Hw Hv. pose proof (width_bits c t Hp Hw) as Hb. unfold fits_type, fits in Hv.
  pose proof (pow_le_64 _ Hb). pose proof (pow_bits _ Hb). pose proof (half_pos _ Hb).
  unfold u64, wrap. destruct (Z.ltb_spec v 0).
  - rewrite <- (Z.mod_unique v (2 ^ 64) (-1) (v + 2 ^ 64)); destruct (signed_type t); to_prop; zb; lia || done.
  - rewrite Z.mod_small; [done|]. destruct (signed_type t); to_prop; lia.
Qed.

(** The operators of the code on the words of typed operands. *)
Lemma done_sound c (m : frame) id e (o r : option Z) (rest remaining : Z) :
  well_formed c = true -> get_at (expressions (ir c)) id = Some e -> width c (e_type e) <> 0 ->
  (fun r => normalize r (width c (e_type e)) (signed_type (e_type e))) <$> r = u64 <$> o ->
  (forall v, o = Some v -> sem (base c) m id v /\ fits_type c (e_type e) v = true) ->
  0 <= rest <= remaining ->
  returns c m id
    match r with
    | None => no rest
    | Some r => Some (Some (normalize r (width c (e_type e)) (signed_type (e_type e))), rest)
    end remaining.
Proof.
  intros Hc He Hw Hr Ho Hl. destruct r as [r|], o as [v|]; try done; [|by eexists None, rest].
  destruct (Ho v eq_refl) as [Hs Hf]. cbn in Hr. injection Hr as Hr.
  eexists (Some _), rest. split; [done|]. split; [done|]. exists e, v. auto.
Qed.
Lemma outcome_fits op wraps bits sign x v :
  1 <= bits <= 64 -> outcome op wraps bits sign x = Some v -> fits bits sign v = true.
Proof.
  intros Hb Ho. unfold outcome in Ho. destruct x; [|done]. split_if_in Ho; [done|]. simplify_eq. by apply reading_fits.
Qed.

Lemma find_param_spec c g id n i :
  function_ok c g = true -> 0 <= i -> Z.of_nat n = f_param_count g - i ->
  (forall j p, 0 <= j < i -> get_at (params (ir c)) (f_param_start g + j) = Some p -> p_local_id p <> id) ->
  exists o, find_param n c (f_param_start g) i id = Some o
            /\ forall k, o = Some k -> 0 <= k < f_param_count g /\ is_param c g id k.
Proof.
  intros Hg. unfold function_ok in Hg. to_prop. revert i. induction n as [|n IH]; intros i Hi Hn Hj; [by exists None|].
  cbn [find_param]. destruct (get_at_is_Some (params (ir c)) (f_param_start g + i)) as [p Hp]; [lia|]. rewrite Hp.
  destruct (Z.eqb_spec (p_local_id p) id) as [He|He].
  - exists (Some i). split; [done|]. intros k [= <-]. split; [lia|]. split; [by exists p | done].
  - apply IH; [lia|lia|]. intros j q Hjr Hq. destruct (Z.eq_dec j i) as [->|]; [congruence|]. eapply Hj; [|done]. lia.
Qed.

Lemma expr_ok_scalar c e : width c (e_type e) <> 0 -> expr_ok c e = true -> scalar_ok c e = true.
Proof. unfold expr_ok. intros Hw. by rewrite (proj2 (Z.eqb_neq _ _) Hw). Qed.
(** Operators without a rule are left by the code and have no exact value. *)
Lemma unary_no_rule op wraps bits sign a x : exact_in_type op = false -> unary op wraps bits sign a = None /\ exact_unary op x = None.
Proof. by destruct op. Qed.
Lemma binary_no_rule op wraps bits sign obits osign a b x y :
  arithmetic op = false -> truth op = false -> binary op wraps bits sign obits osign a b = None /\ exact_binary op x y = None.
Proof. by destruct op. Qed.
Lemma forallb_seq_lookup (P : nat -> bool) a n i :
  forallb P (seq a n) = true -> (a <= i < a + n)%nat -> P i = true.
Proof. rewrite forallb_forall. intros H Hi. apply H, in_seq. lia. Qed.

(** One unfolding of the evaluator, under the claim for the smaller fuel. *)
Section Step.
Variable f : nat.
Hypothesis IHv : forall c m remaining id depth,
  well_formed c = true -> frame_ok c m -> 0 <= remaining -> 0 <= id -> 0 <= depth -> need depth <= Z.of_nat f ->
  returns c m id (value f c remaining id depth) remaining.
Variables (c : Eval) (m : frame) (remaining id depth : Z) (e : DynIrExpr).
Hypothesis Hc : well_formed c = true.
Hypothesis Hm : frame_ok c m.
Hypothesis Hr : 0 <= remaining.
Hypothesis Hd : 0 <= depth.
Hypothesis He : get_at (expressions (ir c)) id = Some e.
Hypothesis Hw : width c (e_type e) <> 0.
Hypothesis Hf : need (depth + 1) <= Z.of_nat f.
Let Hbits : 1 <= width c (e_type e) <= 64.
Proof. apply width_bits; [|done]. by apply well_formed_spec. Qed.
Let Hok : scalar_ok c e = true.
Proof. apply well_formed_spec in Hc as (_ & H & _). by eapply expr_ok_scalar, H. Qed.

Lemma none_returns rest : 0 <= rest <= remaining -> returns c m id (no rest) remaining.
Proof. intros. by exists None, rest. Qed.

Lemma unary_step :
  e_kind e = DYN_EXPR_UNARY ->
  returns c m id
    (let* (a, rest) := value f c remaining (e_left e) (depth + 1) in
     match a with
     | None => no rest
     | Some a =>
         match unary (e_op e) (e_wrap e) (width c (e_type e)) (signed_type (e_type e)) a with
         | None => no rest
         | Some r => Some (Some (normalize r (width c (e_type e)) (signed_type (e_type e))), rest)
         end
     end) remaining.
Proof.
  intros Hk. unfold scalar_ok in Hok. rewrite Hk in Hok. rewrite !andb_true_iff, !Z.leb_le in Hok. destruct Hok as [_ [Hl Ht]].
  destruct (IHv c m remaining (e_left e) (depth + 1)) as (r & rest & -> & Hleft & Hs); [done|done|lia..|].
  destruct r as [a|]; [|by apply none_returns]. destruct Hs as (l & va & Hle & _ & Hsem & Hfit & ->).
  destruct (exact_in_type (e_op e)) eqn:Hop; cbn [negb orb] in Ht.
  2: { destruct (unary_no_rule (e_op e) (e_wrap e) (width c (e_type e)) (signed_type (e_type e)) (u64 va) 0 Hop) as [-> _]. by apply none_returns. }
  unfold has_type in Ht. to_prop. destruct Ht as [_ Ht]. rewrite Hle, Z.eqb_eq in Ht. rewrite Ht in Hfit.
  eapply done_sound; [done..|by apply unary_exact| |done].
  intros v Hv. split; [by eapply sem_unary | by eapply outcome_fits].
Qed.

Lemma operands_exact l r a b :
  e_kind e = DYN_EXPR_BINARY -> get_at (expressions (ir c)) (e_left e) = Some l -> get_at (expressions (ir c)) (e_right e) = Some r ->
  width c (e_type l) <> 0 ->
  e_type l = e_type r -> fits_type c (e_type l) a = true -> fits_type c (e_type r) b = true ->
  (fun r => normalize r (width c (e_type e)) (signed_type (e_type e)))
    <$> binary (e_op e) (e_wrap e) (width c (e_type e)) (signed_type (e_type e)) (width c (e_type l)) (signed_type (e_type l)) (u64 a) (u64 b)
  = u64 <$> outcome (e_op e) (e_wrap e) (width c (e_type e)) (signed_type (e_type e)) (exact_binary (e_op e) a b).
Proof.
  intros Hk Hl Hr' Hwl Ht Ha Hb. rewrite <- Ht in Hb. unfold scalar_ok in Hok. rewrite Hk, !andb_true_iff in Hok.
  destruct Hok as [_ [[_ Har] Htr]]. destruct (arithmetic (e_op e)) eqn:Ho; [|destruct (truth (e_op e)) eqn:Hto].
  - unfold same_type, has_type in Har. rewrite Hl, Hr', Ht, Z.eqb_refl in Har. cbn [negb orb] in Har. to_prop. destruct Har as [_ Hty].
    rewrite Ht, Hty in *. by apply arithmetic_exact.
  - cbn [negb orb] in Htr. to_prop. rewrite Htr. apply comparison_exact; [|done..]. apply width_bits; [|done]. by apply well_formed_spec.
  - unfold outcome. by destruct (binary_no_rule (e_op e) (e_wrap e) (width c (e_type e)) (signed_type (e_type e)) (width c (e_type l))
      (signed_type (e_type l)) (u64 a) (u64 b) a b Ho Hto) as [-> ->].
Qed.

Lemma binary_step :
  e_kind e = DYN_EXPR_BINARY ->
  returns c m id
    (let* (a, rest) := value f c remaining (e_left e) (depth + 1) in
     match a with
     | None => no rest
     | Some a =>
         match e_op e, a =? 0 with
         | DYN_OP_LOGICAL_AND, true => Some (Some 0, rest)
         | DYN_OP_LOGICAL_OR, false => Some (Some 1, rest)
         | _, _ =>
             let* (b, rest) := value f c rest (e_right e) (depth + 1) in
             match b with
             | None => no rest
             | Some b =>
                 let* l := get_at (expressions (ir c)) (e_left e) in
                 let* r := get_at (expressions (ir c)) (e_right e) in
                 let operand_bits := width c (e_type l) in
                 if (operand_bits =? 0) || negb (e_type l =? e_type r) then no rest
                 else
                   match binary (e_op e) (e_wrap e) (width c (e_type e)) (signed_type (e_type e)) operand_bits (signed_type (e_type l)) a b with
                   | None => no rest
                   | Some r => Some (Some (normalize r (width c (e_type e)) (signed_type (e_type e))), rest)
                   end
             end
         end
     end) remaining.
Proof.
  intros Hk. pose proof Hok as Hok'. unfold scalar_ok in Hok'. rewrite Hk, !andb_true_iff, !Z.leb_le in Hok'. destruct Hok' as [_ [[[Hl Hri] _] Hty]].
  destruct (IHv c m remaining (e_left e) (depth + 1)) as (r & rest & -> & Hleft & Hs); [done|done|lia..|].
  destruct r as [a|]; [|by apply none_returns]. destruct Hs as (l & va & Hle & Hwl & Hsem & Hfit & ->).
  rewrite (word_is_zero c (e_type l)) by (done || by apply well_formed_spec).
  assert (returns c m id
    (let* (b, rest) := value f c rest (e_right e) (depth + 1) in
     match b with
     | None => no rest
     | Some b =>
         let* l := get_at (expressions (ir c)) (e_left e) in
         let* r := get_at (expressions (ir c)) (e_right e) in
         let operand_bits := width c (e_type l) in
         if (operand_bits =? 0) || negb (e_type l =? e_type r) then no rest
         else
           match binary (e_op e) (e_wrap e) (width c (e_type e)) (signed_type (e_type e)) operand_bits (signed_type (e_type l)) (u64 va) b with
           | None => no rest
           | Some r => Some (Some (normalize r (width c (e_type e)) (signed_type (e_type e))), rest)
           end
     end) remaining) as Hgo.
  { destruct (IHv c m rest (e_right e) (depth + 1)) as (rr & rest' & -> & Hleft' & Hs); [done|done|lia..|].
    destruct rr as [b|]; [|apply none_returns; lia]. destruct Hs as (re & vb & Hre & _ & Hsem' & Hfit' & ->).
    rewrite Hle, Hre. cbv zeta. destruct ((width c (e_type l) =? 0) || _) eqn:Ht; [apply none_returns; lia|]. to_prop. destruct Ht as [_ Ht].
    eapply done_sound; [done..|by apply (operands_exact l re)| |lia].
    intros v Hv. split; [by eapply (sem_binary (base c)) | by eapply outcome_fits]. }
  destruct (e_op e) eqn:Ho; try exact Hgo; destruct (Z.eqb_spec va 0) as [Hz|Hz]; try exact Hgo.
  all: eexists (Some _), rest; split; [done|]; split; [lia|]; cbn in Hty; apply Z.eqb_eq in Hty.
  - exists e, 0. rewrite Hz in Hsem. split; [done|]. split; [done|]. split; [by eapply (sem_and (base c))|]. by rewrite Hty.
  - exists e, 1. split; [done|]. split; [done|]. split; [by eapply (sem_or (base c))|]. by rewrite Hty.
Qed.

Lemma param_step g :
  e_kind e = DYN_EXPR_NAME -> function c = Some g ->
  returns c m id
    (let* i := find_param (Z.to_nat (f_param_count g)) c (f_param_start g) 0 (e_integer e) in
     match i with
     | Some i => let* a := get_at (arguments c) i in Some (Some a, remaining)
     | None => no remaining
     end) remaining.
Proof.
  intros Hk Hg. unfold frame_ok in Hm. rewrite Hg in Hm. destruct m as [[g' args]|]; [|done].
  destruct Hm as (-> & Ha & Hn & Hgok & Hin & Hinl & Hfit).
  assert (0 <= f_param_count g) as Hcount by (unfold function_ok in Hgok; to_prop; lia).
  destruct (find_param_spec c g (e_integer e) (Z.to_nat (f_param_count g)) 0) as (o & -> & Ho); [done|lia|lia|lia|].
  destruct o as [i|]; [|by exists None, remaining]. destruct (Ho i eq_refl) as [Hi Hp].
  destruct (get_at_is_Some args i) as [v Hv]; [lia|].
  rewrite Ha. replace (get_at (map u64 args) i) with (Some (u64 v)).
  2: { apply get_at_Some in Hv as [Hir Hv]. symmetry. apply get_at_Some. rewrite length_map. split; [done|].
       rewrite list_lookup_fmap. by rewrite Hv. }
  eexists (Some _), remaining. split; [done|]. split; [lia|]. exists e, v. split; [done|]. split; [done|].
  split; [by eapply (sem_param (base c))|]. split; [|done].
  destruct Hp as [(p & Hp & Hpi) _]. unfold scalar_ok in Hok. rewrite Hk, !andb_true_iff in Hok. destruct Hok as [_ [Hty _]].
  rewrite forallb_forall in Hty. specialize (Hty g Hin). rewrite Hinl in Hty. cbn [negb orb] in Hty.
  eapply (forallb_seq_lookup _ _ _ (Z.to_nat i)) in Hty; [|lia]. unfold param_ok in Hty.
  rewrite Z2Nat.id, Hp, Hpi, Z.eqb_refl in Hty by lia. cbn [negb orb] in Hty. apply Z.eqb_eq in Hty.
  rewrite <- Hty. by eapply Hfit.
Qed.

Lemma local_step :
  e_kind e = DYN_EXPR_NAME -> function c = None ->
  returns c m id
    (if (level c <? 2) || (local_count (ir c) <=? e_integer e) then no remaining
     else
       match unstable_locals (ir c) with
       | None => no remaining
       | Some unstable =>
           let* u := get_at unstable (e_integer e) in
           if u : bool then no remaining
           else
             match local_statements (ir c) with
             | None => no remaining
             | Some locals =>
                 let* st := get_at locals (e_integer e) in
                 if (st =? 0) || (Z.of_nat (length (statements (ir c))) <? st) then no remaining
                 else
                   let* s := get_at (statements (ir c)) (st - 1) in
                   value f c remaining (st_expression s) (depth + 1)
             end
       end) remaining.
Proof.
  intros Hk Hg. assert (m = None) as -> by (unfold frame_ok in Hm; rewrite Hg in Hm; by destruct m).
  pose proof (well_formed_spec c Hc) as (_ & _ & _ & Hu & Hl & Hst & _).
  pose proof Hok as Ho. unfold scalar_ok in Ho. rewrite Hk, !andb_true_iff, Z.leb_le in Ho. destruct Ho as [Hint [_ Hinit]].
  destruct (_ || _) eqn:Hlv; [by exists None, remaining; repeat split|]. to_prop.
  destruct (unstable_locals (ir c)) as [unstable|] eqn:Hun; [|by exists None, remaining; repeat split].
  unfold locals_ok in Hu, Hl. apply Z.eqb_eq in Hu.
  destruct (get_at_is_Some unstable (e_integer e)) as [u Hui]; [lia|]. rewrite Hui.
  destruct u; [by exists None, remaining; repeat split|].
  unfold init_ok in Hinit.
  destruct (local_statements (ir c)) as [locals|] eqn:Hlo; [|by exists None, remaining; repeat split]. apply Z.eqb_eq in Hl.
  destruct (get_at_is_Some locals (e_integer e)) as [st Hsti]; [lia|]. rewrite Hsti in *.
  destruct (_ || _) eqn:Hz; [by exists None, remaining; repeat split|]. to_prop. specialize (Hst _ _ _ eq_refl Hsti).
  destruct (get_at_is_Some (statements (ir c)) (st - 1)) as [s Hs]; [lia|]. rewrite Hs in *.
  unfold has_type in Hinit. to_prop. destruct Hinit as [Hnn Hty].
  destruct (IHv c None remaining (st_expression s) (depth + 1)) as (r & rest & -> & Hrest & Hsnd); [done|done|lia..|].
  exists r, rest. split; [done|]. split; [done|]. destruct r as [u|]; [|done].
  destruct Hsnd as (e' & v & He' & _ & Hsem & Hfit & ->). rewrite He', Z.eqb_eq in Hty. rewrite Hty in Hfit.
  exists e, v. split; [done|]. split; [done|]. split; [|done]. by eapply (sem_local (base c)).
Qed.
End Step.

(** The arguments of a call evaluate to the arguments of its semantics. *)
Lemma call_args_correct f :
  (forall c m remaining id depth,
    well_formed c = true -> frame_ok c m -> 0 <= remaining -> 0 <= id -> 0 <= depth -> need depth < Z.of_nat f ->
    forall f', (f' < f)%nat -> need depth <= Z.of_nat f' ->
    returns c m id (value f' c remaining id depth) remaining) ->
  forall n c remaining e g i depth,
    well_formed c = true -> function c = None -> 0 <= remaining -> 0 <= depth ->
    Z.of_nat n + need (depth + 1) < Z.of_nat f ->
    (forall j, (i <= j < i + n)%nat -> arg_ok c g e j = true) ->
    exists o rest, call_args f c remaining (e_item_start e) (Z.of_nat i) n depth = Some (o, rest) /\ 0 <= rest <= remaining
      /\ forall us, o = Some us ->
         exists vs, us = map u64 vs /\ length vs = n /\ sem_args (base c) (e_item_start e) (Z.of_nat i) n vs
           /\ forall j v p, get_at vs j = Some v -> get_at (params (ir c)) (f_param_start g + Z.of_nat i + j) = Some p ->
                            fits_type c (p_type p) v = true.
Proof.
  intros IHv n. revert f IHv. induction n as [|n IH]; intros f IHv c remaining e g i depth Hc Hg Hr Hd Hf Harg.
  - destruct f as [|f]; [unfold need in Hf; lia|]. exists (Some []), remaining. split; [done|]. split; [lia|].
    intros us [= <-]. exists []. split; [done|]. split; [done|]. split; [constructor|].
    intros j v p Hj. apply get_at_Some in Hj as [Hj _]. cbn in Hj. lia.
  - destruct f as [|f]; [unfold need in Hf; lia|]. cbn [call_args].
    pose proof (Harg i ltac:(lia)) as Ha. unfold arg_ok in Ha.
    destruct (get_at (items (ir c)) _) as [id|] eqn:Hid; [|done]. destruct (get_at (params (ir c)) _) as [p|] eqn:Hp; [|done].
    unfold has_type in Ha. to_prop. destruct Ha as [Hnn Hty].
    destruct (IHv c None remaining id (depth + 1)) with (f' := f) as (r & rest & -> & Hrest & Hs);
      [done|unfold frame_ok; by rewrite Hg|lia..|].
    destruct r as [u|]; [|exists None, rest; done]. destruct Hs as (e' & v & He' & _ & Hsem & Hfit & ->).
    rewrite He', Z.eqb_eq in Hty. rewrite Hty in Hfit.
    destruct (IH f) with (c := c) (remaining := rest) (e := e) (g := g) (i := S i) (depth := depth)
      as (o & rest' & Hcall & Hrest' & Ho).
    { intros. apply (IHv c0 m remaining0 id0 depth0); try done; lia. }
    { done. } { done. } { lia. } { done. } { lia. } { intros j Hj. apply Harg. lia. }
    replace (Z.of_nat i + 1) with (Z.of_nat (S i)) by lia. rewrite Hcall.
    eexists _, rest'. split; [done|]. split; [lia|]. destruct o as [us|]; [|done]. intros us' [= <-].
    destruct (Ho us eq_refl) as (vs & -> & Hlen & Hsems & Hfits). exists (v :: vs). split; [done|].
    split; [cbn; lia|]. split.
    { econstructor; [done..|]. by replace (Z.of_nat i + 1) with (Z.of_nat (S i)) by lia. }
    intros j v' p' Hj Hpj. destruct (Z.eq_dec j 0) as [->|Hj0].
    + apply get_at_Some in Hj as [_ Hj]. cbn in Hj. injection Hj as <-. rewrite Z.add_0_r in Hpj. by simplify_eq.
    + apply (Hfits (j - 1) v' p').
      * apply get_at_Some in Hj as [Hjr Hj]. cbn [length] in Hjr. apply get_at_Some. split; [lia|].
        replace (Z.to_nat j) with (S (Z.to_nat (j - 1))) in Hj by lia. done.
      * rewrite <- Hpj. f_equal. lia.
Qed.

(** The claim for one fuel; the theorem is that it holds for all. *)
Definition value_at (f : nat) : Prop :=
  forall c m remaining id depth,
    well_formed c = true -> frame_ok c m -> 0 <= remaining -> 0 <= id -> 0 <= depth -> need depth <= Z.of_nat f ->
    returns c m id (value f c remaining id depth) remaining.

Section Call.
Variables (f : nat) (c : Eval) (remaining id depth : Z) (e : DynIrExpr) (g : DynIrFunction).
Hypothesis IH : forall f', (f' <= f)%nat -> value_at f'.
Hypothesis Hc : well_formed c = true.
Hypothesis Hg : function c = None.
Hypothesis Hr : 0 <= remaining.
Hypothesis Hd : 0 <= depth.
Hypothesis He : get_at (expressions (ir c)) id = Some e.
Hypothesis Hw : width c (e_type e) <> 0.
Hypothesis Hk : e_kind e = DYN_EXPR_CALL.
Hypothesis Hf : 34 + need (depth + 1) <= Z.of_nat f.

Lemma budget_total fallback :
  0 <= fallback -> 0 <= e_integer e < Z.of_nat (length (functions (ir c))) ->
  exists budget, (match samples c with
                  | Some l => let* n := get_at l (e_integer e) in Some (if 100 <=? n then 1024 else 16)
                  | None => Some fallback
                  end) = Some budget /\ 0 <= budget.
Proof.
  intros Hb Hi. destruct (samples c) as [l|] eqn:Hl; [|eauto].
  pose proof (well_formed_spec c Hc) as (_ & _ & _ & _ & _ & _ & Hs). specialize (Hs l Hl).
  destruct (get_at_is_Some l (e_integer e)) as [n ->]; [lia|]. eexists. split; [done|]. split_if; lia.
Qed.

Lemma call_step :
  get_at (functions (ir c)) (e_integer e) = Some g ->
  f_foreign g || f_variadic g || negb (f_body_count g =? 1) || (32 <? f_param_count g)
    || negb (f_param_count g =? e_item_count e) || (Z.of_nat (length (ir_children (ir c))) <=? f_body_start g) = false ->
  returns c None id
    (let* s := get_at (ir_children (ir c)) (f_body_start g) in
     let* s := get_at (statements (ir c)) s in
     if negb (bool_decide (st_kind s = DYN_STMT_RETURN)) then no remaining
     else
       let* (args, rest) := call_args f c remaining (e_item_start e) 0 (Z.to_nat (f_param_count g)) depth in
       match args with
       | None => no rest
       | Some args =>
           let* budget := match samples c with
                          | Some l => let* n := get_at l (e_integer e) in Some (if 100 <=? n then 1024 else 16)
                          | None => Some rest
                          end in
           let nested := mkEval (ir c) (level c) (pointer_bits c) (Some g) args (samples c) in
           let* (r, _) := value f nested budget (st_expression s) (depth + 1) in
           Some (r, rest)
       end) remaining.
Proof.
  intros Hfn Hguard. rewrite !orb_false_iff in Hguard. destruct Hguard as [[Hinl Hcnt] Hch].
  assert (inlinable g = true) as Hin by (unfold inlinable; apply negb_true_iff; by rewrite !orb_false_iff).
  to_prop. destruct Hinl as [[[Hfo Hva] Hbo] H32].
  pose proof (well_formed_spec c Hc) as (_ & Hexp & Hfun & _). specialize (expr_ok_scalar _ _ Hw (Hexp _ _ He)). clear Hexp. intros Hexp.
  specialize (Hfun _ _ Hfn).
  unfold scalar_ok in Hexp. rewrite Hk, Hfn, Hin, Hcnt, Z.eqb_refl in Hexp. cbn [negb orb] in Hexp. to_prop.
  destruct Hexp as [Hint [Hargs Hbody]]. pose proof Hfun as Hfun'. unfold function_ok in Hfun'. to_prop.
  unfold body_ok in Hbody. destruct (get_at_is_Some (ir_children (ir c)) (f_body_start g)) as [k Hki]; [lia|].
  rewrite Hki in *. destruct (get_at (statements (ir c)) k) as [s|] eqn:Hs; [|done].
  case_bool_decide as Hret; cbn [negb orb] in *; [|by exists None, remaining].
  unfold has_type in Hbody. to_prop. destruct Hbody as [Hnn Hty].
  destruct (call_args_correct f) with (n := Z.to_nat (f_param_count g)) (c := c) (remaining := remaining) (e := e) (g := g)
    (i := 0%nat) (depth := depth) as (o & rest & Hcall & Hrest & Ho); try done; try lia.
  { intros c' m r' i' d' Hc' Hm' Hr' Hi' Hd' _ f' Hf' Hn'. apply IH; [lia|done..]. }
  { rewrite <- Hcnt in Hargs. intros j Hj. eapply forallb_seq_lookup in Hargs; [done|lia]. }
  change (Z.of_nat 0) with 0 in *. rewrite Hcall. destruct o as [us|]; [|by exists None, rest].
  destruct (Ho us eq_refl) as (vs & -> & Hlen & Hsems & Hfits).
  destruct (budget_total rest) as (budget & -> & Hb); [lia| |].
  { apply get_at_Some in Hfn. lia. }
  cbv zeta.
  destruct (IH f ltac:(lia) (mkEval (ir c) (level c) (pointer_bits c) (Some g) (map u64 vs) (samples c)) (Some (g, vs))
             budget (st_expression s) (depth + 1)) as (r & rest' & -> & _ & Hsnd); try done; try lia.
  { cbn. split; [done|]. split; [done|]. split; [lia|]. split; [done|].
    split; [apply get_at_Some in Hfn as [_ Hfn']; apply list_elem_of_In; by eapply list_elem_of_lookup_2|]. split; [done|]. intros i v p Hi Hp. eapply (Hfits i v p); [done|].
    by rewrite Z.add_0_r. }
  exists r, rest. split; [done|]. split; [lia|]. destruct r as [u|]; [|done].
  destruct Hsnd as (e' & v & He' & _ & Hsem & Hfit & ->). cbn in He'. rewrite He', Z.eqb_eq in Hty. rewrite Hty in Hfit.
  exists e, v. split; [done|]. split; [done|]. split; [|done]. by eapply (sem_call (base c)).
Qed.
End Call.

Lemma value_all f : value_at f.
Proof.
  induction f as [f IH] using lt_wf_ind. intros c m remaining id depth Hc Hm Hr Hi Hd Hf.
  destruct f as [|f]; [unfold need in Hf; lia|]. cbn [value].
  destruct (_ || _) eqn:Hg; [by exists None, remaining|]. rewrite !orb_false_iff in Hg. destruct Hg as [[Hdep Hrem] Hlen].
  rewrite Z.gtb_ltb in Hdep. to_prop.
  destruct (get_at_is_Some (expressions (ir c)) id) as [e He]; [lia|]. rewrite He. cbv zeta.
  destruct (Z.eqb_spec (width c (e_type e)) 0) as [|Hw]; [exists None, (remaining - 1); by repeat split; try lia|].
  assert (34 + need (depth + 1) <= Z.of_nat f) as Hf' by (unfold need in *; lia).
  assert (returns c m id (no (remaining - 1)) remaining) as Hno by (exists None, (remaining - 1); by repeat split; try lia).
  assert (forall o, returns c m id o (remaining - 1) -> returns c m id o remaining) as Hweak.
  { intros o (r & rest & Ho & Hrest & Hs). exists r, rest. repeat split; [done|lia..|done]. }
  assert (Hlit : forall r v, normalize r (width c (e_type e)) (signed_type (e_type e)) = u64 v ->
            sem (base c) m id v -> fits_type c (e_type e) v = true ->
            returns c m id (Some (Some (normalize r (width c (e_type e)) (signed_type (e_type e))), remaining - 1)) remaining).
  { intros r v Hv Hs Hft. eexists (Some _), _. split; [done|]. split; [lia|]. exists e, v. auto. }
  pose proof (well_formed_spec c Hc) as (Hpb & Hexp & _). pose proof (width_bits c _ Hpb Hw) as Hbits.
  destruct (e_kind e) eqn:Hk; try exact Hno.
  - eapply Hlit; [by apply normalize_eq| |by apply reading_fits]. apply (sem_literal (base c)); auto.
  - eapply Hlit; [by apply normalize_eq| |by apply reading_fits]. by apply (sem_bool (base c)).
  - eapply Hlit; [by apply normalize_eq| |by apply reading_fits]. apply (sem_literal (base c)); auto.
  - destruct (function c) as [g|] eqn:Hfn; apply Hweak.
    + eapply param_step; try done; lia.
    + eapply local_step; try done; try lia. apply IH; lia.
  - apply Hweak. eapply unary_step; try done; try lia. apply IH; lia.
  - apply Hweak. eapply binary_step; try done; try lia. apply IH; lia.
  - destruct (function c) as [g|] eqn:Hfn; [rewrite andb_false_r; exact Hno|].
    destruct (_ && _) eqn:Hgo; [|exact Hno]. to_prop. specialize (expr_ok_scalar _ _ Hw (Hexp _ _ He)). clear Hexp. intros Hexp.
    unfold scalar_ok in Hexp. rewrite andb_true_iff, Z.leb_le in Hexp. destruct Hexp as [Hexp _].
    assert (m = None) as -> by (unfold frame_ok in Hm; rewrite Hfn in Hm; by destruct m).
    destruct (get_at_is_Some (functions (ir c)) (e_integer e)) as [g Hget]; [lia|]. rewrite Hget.
    destruct (_ || _) eqn:Hguard; [exact Hno|]. apply Hweak. eapply call_step; try done; try lia.
    intros f' Hf''. apply IH. lia.
Qed.

(** The operators of the constant evaluator are exact. For operands of
    the types the checker gives them, the word they compute, normalised to the
    result type, is the word of the mathematical result read in that type; they
    give up exactly for the operators without a rule and where checked
    arithmetic would trap because the result does not fit. *)
Theorem binary_exact op wraps bits sign obits osign a b :
  1 <= bits <= 64 -> 1 <= obits <= 64 ->
  (if arithmetic op then obits = bits /\ osign = sign else bits = 1 /\ sign = false) ->
  fits obits osign a = true -> fits obits osign b = true ->
  (fun r => normalize r bits sign) <$> binary op wraps bits sign obits osign (u64 a) (u64 b)
  = u64 <$> outcome op wraps bits sign (exact_binary op a b).
Proof.
  intros Hb Hob Ht Ha Hb'. destruct (arithmetic op) eqn:Ho; destruct Ht as [-> ->].
  - by apply arithmetic_exact.
  - by apply comparison_exact.
Qed.
Lemma binary_exact_witness :
  (fun r => normalize r 8 true) <$> binary DYN_OP_MUL false 8 true 8 true (u64 (-16)) (u64 8)
  = u64 <$> outcome DYN_OP_MUL false 8 true (exact_binary DYN_OP_MUL (-16) 8).
Proof. apply (binary_exact DYN_OP_MUL false 8 true 8 true (-16) 8); [lia|lia|by split|reflexivity|reflexivity]. Defined.

(** C27: the constant evaluator terminates, never reads outside the arrays of
    the program, and is sound: on a well-formed program, from any depth, with
    fuel 35 per remaining level it returns, with no more work left than before,
    and a value it returns is the 64-bit word of an integer of the expression's
    type that the semantics on mathematical integers gives the expression, with
    every overflow check passed. A well-formed program has the operands,
    arguments, initialisers and returned values of its scalar expressions in
    range and of the types the checker requires; it may hold any operator. *)
Theorem value_correct c remaining id depth fuel :
  well_formed c = true -> function c = None -> 0 <= remaining -> 0 <= id -> 0 <= depth -> need depth <= Z.of_nat fuel ->
  exists r rest, value fuel c remaining id depth = Some (r, rest) /\ 0 <= rest <= remaining /\ sound c None id r.
Proof. intros Hc Hg Hr Hi Hd Hf. apply value_all; try done. unfold frame_ok. by rewrite Hg. Qed.

(** [-(double(20) * 2)] on [i32], where [double(x)] returns [x + x]; the
    program also divides, shifts and takes an address, and declares a foreign
    function. *)
Definition sample_ir : DynIrProgram :=
  let i32 := DYN_TYPE_I32 in
  mkProgram
    [mkExpr DYN_EXPR_INT i32 DYN_OP_NONE 0 0 20 false 0 0 false;
     mkExpr DYN_EXPR_CALL i32 DYN_OP_NONE 0 0 0 false 0 1 false;
     mkExpr DYN_EXPR_INT i32 DYN_OP_NONE 0 0 2 false 0 0 false;
     mkExpr DYN_EXPR_BINARY i32 DYN_OP_MUL 1 2 0 false 0 0 false;
     mkExpr DYN_EXPR_UNARY i32 DYN_OP_NEG 3 0 0 false 0 0 false;
     mkExpr DYN_EXPR_NAME i32 DYN_OP_NONE 0 0 0 false 0 0 false;
     mkExpr DYN_EXPR_BINARY i32 DYN_OP_ADD 5 5 0 false 0 0 false;
     mkExpr DYN_EXPR_BINARY i32 DYN_OP_DIV 1 2 0 false 0 0 false;
     mkExpr DYN_EXPR_BINARY i32 DYN_OP_SHL 7 2 0 false 0 0 false;
     mkExpr DYN_EXPR_UNARY 65536 DYN_OP_ADDRESS 5 0 0 false 0 0 false;
     mkExpr DYN_EXPR_UNARY i32 DYN_OP_DEREF 9 0 0 false 0 0 false]
    [0] [mkParam i32 0; mkParam DYN_TYPE_BOOL 0] [mkStmt DYN_STMT_RETURN 6 DYN_NO_EXPR DYN_OP_NONE 0 0 0 0 0 0 0 0 0 false] [0]
    [mkFunction 0 1 0 1 0 1 false false false false false;
     mkFunction 1 1 0 0 0 0 false true false false false] [i32] [] [] [] 0 0 0 None None.
Definition sample_eval : Eval := mkEval sample_ir 3 64 None [] None.
Example sample_value : value 3000 sample_eval 100 4 0 = Some (Some (u64 (-80)), 95).
Proof. vm_compute. reflexivity. Qed.
Lemma value_correct_witness :
  exists r rest, value 3000 sample_eval 100 4 0 = Some (r, rest) /\ 0 <= rest <= 100 /\ sound sample_eval None 4 r.
Proof.
  apply (value_correct sample_eval 100 4 0 3000); [vm_compute; reflexivity|reflexivity|lia|lia|lia|vm_compute; discriminate].
Defined.
