(* ===== verification/Target.v ===== *)
(** Compilation targets (src/src/target.c, src/src/dyn.h): the table of
    targets, the properties [#target] conditions test, the portable system
    call numbers and the pointer size. *)

From S2P Require Import Prelude.

Record DynTarget := mkTarget {
  t_name : bytes; t_triple : bytes; t_dynamic_linker : option bytes; t_arch : bytes; t_kernel : bytes;
  t_abi : bytes; t_libc : bytes; t_endian : bytes; t_pointer_bits : bytes; t_executable_link : bool }.

Definition targets : list DynTarget :=
  [
   mkTarget (str "wasm32-wasi") (str "wasm32-unknown-wasi") None (str "wasm32") (str "wasi") (str "wasm") (str "none") (str "little") (str "32") true;
   mkTarget (str "wasm32-browser") (str "wasm32-unknown-unknown") None (str "wasm32") (str "browser") (str "wasm") (str "none") (str "little") (str "32") true;
   mkTarget (str "x86_64-linux") (str "x86_64-unknown-linux-gnu") (Some (str "/lib64/ld-linux-x86-64.so.2")) (str "x86_64") (str "linux") (str "sysv") (str "none") (str "little") (str "64") true;
   mkTarget (str "aarch64-linux") (str "aarch64-unknown-linux-gnu") (Some (str "/lib/ld-linux-aarch64.so.1")) (str "aarch64") (str "linux") (str "sysv") (str "none") (str "little") (str "64") true;
   mkTarget (str "riscv64-linux") (str "riscv64-unknown-linux-gnu") (Some (str "/lib/ld-linux-riscv64-lp64d.so.1")) (str "riscv64") (str "linux") (str "lp64d") (str "none") (str "little") (str "64") true;
   mkTarget (str "riscv64-none") (str "riscv64-unknown-none-elf") None (str "riscv64") (str "none") (str "lp64d") (str "none") (str "little") (str "64") true;
   mkTarget (str "riscv32-none") (str "riscv32-unknown-none-elf") None (str "riscv32") (str "none") (str "ilp32d") (str "none") (str "little") (str "32") true;
   mkTarget (str "riscv32-none-soft") (str "riscv32-unknown-none-elf") None (str "riscv32") (str "none") (str "ilp32") (str "none") (str "little") (str "32") true;
   mkTarget (str "thumbv7em-none") (str "thumbv7em-none-eabihf") None (str "thumbv7em") (str "none") (str "aapcs") (str "none") (str "little") (str "32") true;
   mkTarget (str "thumbv7em-none-soft") (str "thumbv7em-none-eabi") None (str "thumbv7em") (str "none") (str "aapcs-soft") (str "none") (str "little") (str "32") true;
   mkTarget (str "thumbv7em-none-nucleo-h753zi") (str "thumbv7em-none-eabihf") None (str "thumbv7em") (str "none") (str "aapcs") (str "none") (str "little") (str "32") true;
   mkTarget (str "x86_64-macos") (str "x86_64-apple-macosx") None (str "x86_64") (str "darwin") (str "sysv") (str "system") (str "little") (str "64") true;
   mkTarget (str "aarch64-macos") (str "arm64-apple-macosx") None (str "aarch64") (str "darwin") (str "aapcs") (str "system") (str "little") (str "64") true;
   mkTarget (str "aarch64-windows") (str "aarch64-pc-windows-msvc") None (str "aarch64") (str "windows") (str "aapcs") (str "system") (str "little") (str "64") true;
   mkTarget (str "x86_64-windows") (str "x86_64-pc-windows-msvc") None (str "x86_64") (str "windows") (str "win64") (str "system") (str "little") (str "64") true].

Fixpoint find_target (l : list DynTarget) (name : bytes) : option DynTarget :=
  match l with
  | [] => None
  | t :: l' => if bytes_eqb name (t_name t) then Some t else find_target l' name
  end.
Definition dyn_target_find (name : bytes) : option DynTarget := find_target targets name.

Definition dyn_target_property (target : DynTarget) (key : bytes) : option bytes :=
  if bytes_eqb key (str "arch") then Some (t_arch target)
  else if bytes_eqb key (str "kernel") then Some (t_kernel target)
  else if bytes_eqb key (str "abi") then Some (t_abi target)
  else if bytes_eqb key (str "libc") then Some (t_libc target)
  else if bytes_eqb key (str "endian") then Some (t_endian target)
  else if bytes_eqb key (str "pointer_bits") then Some (t_pointer_bits target)
  else None.

(** Pairs of a portable (x86-64) system call number and the one of the other
    Linux targets. *)
Definition syscall_map : list (Z * Z) :=
  [
   (0, 63); (1, 64); (3, 57); (8, 62); (9, 222); (11, 215); (13, 134); (14, 135); (16, 29); (28, 233); (24,
   124); (32, 23); (33, 24); (35, 101); (39, 172); (41, 198); (42, 203); (43, 202); (44, 206); (45, 207); (48,
   210); (49, 200); (50, 201); (51, 204); (52, 205); (54, 208); (55, 209); (56, 220); (59, 221); (60, 93);
   (61, 260); (62, 129); (72, 25); (73, 32); (74, 82); (76, 45); (77, 46); (79, 17); (80, 49); (90, 52); (109,
   154); (110, 173); (160, 261); (186, 178); (202, 98); (217, 61); (228, 113); (231, 94); (232, 22); (233,
   21); (254, 27); (289, 74); (255, 28); (257, 56); (258, 34); (263, 35); (264, 38); (265, 37); (266, 36);
   (267, 78); (271, 73); (291, 20); (293, 59); (294, 26); (318, 278); (332, 291); (437, 437)].
Fixpoint find_syscall (l : list (Z * Z)) (source : Z) : option Z :=
  match l with
  | [] => None
  | (portable, native) :: l' => if portable =? source then Some native else find_syscall l' source
  end.
Definition dyn_target_syscall_number (target : DynTarget) (source : Z) : option Z :=
  if negb (bytes_eqb (t_kernel target) (str "linux")) then None
  else if bytes_eqb (t_arch target) (str "x86_64") then Some source
  else find_syscall syscall_map source.

Definition dyn_target_pointer_bytes (target : DynTarget) : Z :=
  if bytes_eqb (t_pointer_bits target) (str "32") then 4 else 8.
