(* ===== verification/Source.v ===== *)
(** Source files (src/src/source.c, src/src/dyn_location.h): the [#target]
    gate, merging the files of a module into one text, and mapping a byte of
    the merged text back to a file, line and column, with and without line
    tables.

    A text is the list of its bytes; the C functions that treat it as a string
    see the bytes before the first NUL. Pointers to texts are compared only for
    identity, so a text carries an identity: 0 for the source's own text and
    [i + 1] for that of its map [i]. Allocations succeed as a parameter
    [alloc] says, by their number. *)

From S2P Require Import Prelude Target.

Definition SIZE_MAX : Z := 2 ^ 64 - 1.
Definition DYN_MAX_MODULE_BYTES : Z := 256 * 1024 * 1024.

Record DynSourceSpan := mkSpan { generated_start : Z; generated_end : Z; original_start : Z; original_end : Z }.
Record DynSourceMap := mkMap {
  m_path : bytes; m_start : Z; m_end : Z; m_original_text : bytes; m_spans : list DynSourceSpan }.
Record DynSource := mkSource {
  s_path : bytes; s_text : bytes; s_original_text : option bytes; s_spans : list DynSourceSpan;
  s_target : option DynTarget; s_compact_reflection : bool; s_needs_reflection : bool; s_maps : list DynSourceMap }.

Definition zlen {A} (l : list A) : Z := Z.of_nat (length l).

(** ** Characters and C strings *)
Definition isspace (c : Z) : bool := (c =? 32) || ((9 <=? c) && (c <=? 13)).
Definition isalnum (c : Z) : bool :=
  ((48 <=? c) && (c <=? 57)) || ((65 <=? c) && (c <=? 90)) || ((97 <=? c) && (c <=? 122)).
Definition word_char (c : Z) : bool := (c =? 95) || isalnum c.

(** The string at a pointer: the bytes before the terminator. *)
Fixpoint cstring (t : bytes) : bytes :=
  match t with
  | [] => []
  | c :: t' => if c =? 0 then [] else c :: cstring t'
  end.
Definition starts_with (word p : bytes) : bool := bytes_eqb (firstn (length word) p) word.
Fixpoint strstr (p word : bytes) : bool :=
  starts_with word p || match p with [] => false | _ :: q => strstr q word end.

(** ** Paths; [alloc] is whether the allocation succeeds *)
Definition dyn_path_join (alloc : bool) (a b : bytes) : option bytes :=
  let slash := match rev a with [] => false | c :: _ => negb (c =? ch "/") end in
  if alloc then Some (a ++ (if slash then [ch "/"] else []) ++ b) else None.

(** Cuts the path, given in reverse, at its last slash. *)
Fixpoint to_slash (r : bytes) : bytes :=
  match r with
  | [] => []
  | c :: r' => if c =? ch "/" then [] else c :: to_slash r'
  end.
Fixpoint after_slash (r : bytes) : option bytes :=
  match r with
  | [] => None
  | c :: r' => if c =? ch "/" then Some r' else after_slash r'
  end.
(** Drops the trailing slashes, but never the only character. *)
Fixpoint strip_slashes (r : bytes) : bytes :=
  match r with
  | c :: ((_ :: _) as r') => if c =? ch "/" then strip_slashes r' else r
  | _ => r
  end.
(** [cwd] is what [getcwd] gives, if it fits. *)
Definition dyn_path_basename (cwd : option bytes) (alloc : bool) (path : bytes) : option bytes :=
  let path :=
    match cwd with
    | Some resolved =>
        if bytes_eqb path (str ".") then resolved
        else if bytes_eqb path (str "..") then
          match after_slash (rev resolved) with
          | Some (c :: r) => rev (c :: r)
          | _ => resolved
          end
        else path
    | None => path
    end in
  if alloc then Some (rev (to_slash (strip_slashes (rev path)))) else None.

(** ** The target gate *)
Fixpoint skip_spaces (p : bytes) : bytes :=
  match p with
  | c :: q => if isspace c then skip_spaces q else p
  | [] => []
  end.
Fixpoint skip_line (p : bytes) : bytes :=
  match p with
  | c :: q => if c =? 10 then p else skip_line q
  | [] => []
  end.
Fixpoint skip_block (p : bytes) : bytes :=
  match p with
  | c :: q => if (c =? ch "*") && (cstr_get q =? ch "/") then tl q else skip_block q
  | [] => []
  end.
Fixpoint trivia (fuel : nat) (p : bytes) : bytes :=
  match fuel with
  | O => p
  | S f =>
      let p := skip_spaces p in
      if (cstr_get p =? ch "/") && (cstr_get (tl p) =? ch "/") then trivia f (skip_line (skipn 2 p))
      else if (cstr_get p =? ch "/") && (cstr_get (tl p) =? ch "*") then trivia f (skip_block (skipn 2 p))
      else p
  end.
Definition source_skip_trivia (p : bytes) : bytes := trivia (S (length p)) p.

(** After the opening quote of a literal, to after the closing one. *)
Fixpoint skip_literal (quote : Z) (p : bytes) : bytes :=
  match p with
  | [] => []
  | c :: q =>
      if c =? quote then q
      else if (c =? 92) then match q with [] => [] | _ :: r => skip_literal quote r end
      else skip_literal quote q
  end.
Fixpoint directive (fuel : nat) (p : bytes) : option bytes :=
  match fuel with
  | O => None
  | S f =>
      match source_skip_trivia p with
      | [] => None
      | c :: q =>
          if (c =? 34) || (c =? 39) then directive f (skip_literal c q)
          else if starts_with (str "#target") (c :: q) && negb (word_char (cstr_get (skipn 7 (c :: q))))
          then Some (skipn 7 (c :: q))
          else directive f q
      end
  end.
Definition source_target_directive (p : bytes) : option bytes := directive (S (length p)) p.

(** Up to [n] word characters, and the rest. *)
Fixpoint read_word (n : nat) (p : bytes) : bytes * bytes :=
  match n, p with
  | S n', c :: q => if word_char c then let (w, r) := read_word n' q in (c :: w, r) else ([], p)
  | _, _ => ([], p)
  end.
Fixpoint conditions (fuel : nat) (target : DynTarget) (p : bytes) : Z :=
  match fuel with
  | O => -1
  | S f =>
      if (cstr_get p =? 0) || (cstr_get p =? ch ")") then if cstr_get p =? ch ")" then 1 else -1
      else
        let p := source_skip_trivia p in
        let p := if cstr_get p =? ch "," then source_skip_trivia (tl p) else p in
        let (key, p) := read_word 31 p in
        let p := source_skip_trivia p in
        if negb (cstr_get p =? ch ":") then -1
        else
          let p := source_skip_trivia (tl p) in
          let (value, p) := read_word 31 p in
          match dyn_target_property target key with
          | None => -1
          | Some want => if bytes_eqb value want then conditions f target (source_skip_trivia p) else 0
          end
  end.
(** The gate without its fast path, on the string of the source. *)
Definition target_gate (target : DynTarget) (text : bytes) : Z :=
  match source_target_directive text with
  | None => 1
  | Some p =>
      let p := source_skip_trivia p in
      if negb (cstr_get p =? ch "(") then -1 else conditions (S (length p)) target (tl p)
  end.

Section Host.
(** The target of the host, [dyn_target_find(DYN_HOST_TARGET)]. *)
Variable host : DynTarget.
Definition dyn_context_target (context : option DynTarget) : DynTarget :=
  match context with Some t => t | None => host end.
Definition dyn_source_target_enabled (s : DynSource) : Z :=
  let text := cstring (s_text s) in
  if negb (strstr text (str "#target")) then 1 else target_gate (dyn_context_target (s_target s)) text.

(** ** Merging the sources of a module *)
Definition reflection_prelude : bytes :=
  str "enum TypeKind { Invalid, Void, Bool, Integer, Float, Pointer, Array, Slice, Struct, Enum, Function }" ++ [10] ++
  str "struct TypeMember { name: []const u8, type_id: u64 }" ++ [10] ++
  str "struct TypeInfo { id: u64, kind: TypeKind, name: []const u8, size: usize, alignment: usize, element_id: u64, length: usize, member_count: usize, parameter_count: usize, result_id: u64, fields: []const TypeMember, variants: []const TypeMember, arguments: []const TypeMember }" ++ [10].

Definition dyn_source_reflection (s : DynSource) : bool := s_needs_reflection s || s_compact_reflection s.

(** The size of the merged text and whether reflection is used; the error is
    the exit code. *)
Fixpoint merge_total (sources : list DynSource) (total : Z) (reflection : bool) : res Z (Z * bool) :=
  match sources with
  | [] => Ok (total, reflection)
  | s :: rest =>
      let enabled := dyn_source_target_enabled s in
      if enabled <? 0 then Err 1
      else if enabled =? 0 then merge_total rest total reflection
      else
        let reflection := reflection || s_needs_reflection s in
        let reflection := if reflection then true else dyn_source_reflection s in
        if SIZE_MAX - total <? u64 (zlen (s_text s) + 1) then Err 2
        else
          let total := u64 (total + zlen (s_text s) + 1) in
          if DYN_MAX_MODULE_BYTES <? total then Err 1 else merge_total rest total reflection
  end.

(** The original text of a source. *)
Definition original (s : DynSource) : bytes := match s_original_text s with Some t => t | None => s_text s end.

Variable alloc : nat -> bool.
(** Copies the enabled sources behind [text], the bytes written so far. *)
Fixpoint merge_copy (sources : list DynSource) (k : nat) (text : bytes) (maps : list DynSourceMap) : res Z (bytes * list DynSourceMap) :=
  match sources with
  | [] => Ok (text, maps)
  | s :: rest =>
      if dyn_source_target_enabled s =? 0 then merge_copy rest k text maps
      else if negb (alloc k && alloc (S k)) then Err 2
      else if negb (zlen (s_spans s) =? 0) && negb (alloc (S (S k))) then Err 2
      else
        let at_ := zlen text in
        let map := mkMap (s_path s) at_ (at_ + zlen (s_text s)) (original s) (s_spans s) in
        merge_copy rest (S (S (S k))) (text ++ s_text s ++ [10]) (maps ++ [map])
  end.
Definition dyn_sources_merge (sources : list DynSource) (module_name : option bytes) : res Z DynSource :=
  let? (total, reflection) := merge_total sources 0 false in
  let prelude := if reflection : bool then zlen reflection_prelude else 0 in
  if SIZE_MAX - total <? prelude then Err 2
  else if negb (alloc 0 && alloc 1 && ((zlen sources =? 0) || alloc 2)) then Err 2
  else
    let? (text, maps) := merge_copy sources 3 (if reflection then reflection_prelude else []) [] in
    Ok (mkSource (match module_name with Some n => n | None => str "<module>" end) text None []
                 (match sources with s :: _ => s_target s | [] => None end) false false maps).
End Host.

(** ** Positions *)

(** The offset in the original text of a byte inside a span; the outer
    [None] is an access out of bounds. *)
Definition source_span_offset (spans : list DynSourceSpan) (local : Z) : option (option Z) :=
  let count := zlen spans in
  let* lo := bsearch (S (length spans)) (fun mid => let* s := get_at spans mid in Some (generated_end s <? local)) 0 count in
  if lo =? count then Some None
  else
    let* p := get_at spans lo in
    if local <? generated_start p then Some None
    else
      let gn := u64 (generated_end p - generated_start p) in
      let on := u64 (original_end p - original_start p) in
      Some (Some (u64 (original_start p + if gn =? 0 then 0 else u64 (u64 (local - generated_start p) * on) / gn))).

(** A position: the path, the text with its identity, and the offset. *)
Record Position := mkPosition { p_path : bytes; p_text : bytes; p_text_id : Z; p_offset : Z }.
Definition span_or (spans : list DynSourceSpan) (local : Z) : option Z :=
  let* o := source_span_offset spans local in Some (match o with Some x => x | None => local end).
Definition dyn_source_position (s : DynSource) (byte : Z) : option Position :=
  let count := zlen (s_maps s) in
  let own := mkPosition (s_path s) (original s) 0 byte in
  let* lo := bsearch (S (length (s_maps s))) (fun mid => let* m := get_at (s_maps s) mid in Some (m_end m <? byte)) 0 count in
  let* at_map :=
    (if lo <? count then
       let* m := get_at (s_maps s) lo in
       if m_start m <=? byte then
         let* offset := span_or (m_spans m) (byte - m_start m) in
         Some (Some (mkPosition (m_path m) (m_original_text m) (lo + 1) offset))
       else Some None
     else Some None) in
  let position := match at_map with Some p => p | None => own end in
  if (count =? 0) && negb (zlen (s_spans s) =? 0) then
    let* o := source_span_offset (s_spans s) byte in
    Some (match o with Some x => mkPosition (p_path position) (p_text position) (p_text_id position) x | None => position end)
  else Some position.

(** The text after the first newline of [p], as [memchr] finds it. *)
Fixpoint after_newline (p : bytes) : option bytes :=
  match p with
  | [] => None
  | c :: q => if c =? 10 then Some q else after_newline q
  end.
Fixpoint count_lines (fuel : nat) (start : bytes) (lines : Z) : option (Z * Z) :=
  match fuel with
  | O => None
  | S f =>
      match after_newline start with
      | Some next => count_lines f next (u32 (lines + 1))
      | None => Some (lines, u32 (u32 (zlen start) + 1))
      end
  end.
(** The path, line and column of a byte. *)
Definition clamp (p : Position) : Z := if zlen (p_text p) <? p_offset p then zlen (p_text p) else p_offset p.
Definition dyn_source_location (s : DynSource) (byte : Z) : option (bytes * Z * Z) :=
  let* p := dyn_source_position s byte in
  let text := firstn (Z.to_nat (clamp p)) (p_text p) in
  let* (line, column) := count_lines (S (length text)) text 1 in
  Some (p_path p, line, column).

(** ** Line tables (src/src/dyn_location.h) *)
Record DynLocationFile := mkFile { file_text : Z; file_lines : list Z }.

Fixpoint newline_count (text : bytes) (count : Z) : Z :=
  match text with
  | [] => count
  | c :: t => newline_count t (u64 (count + if c =? 10 then 1 else 0))
  end.
Fixpoint line_starts (text : bytes) (j : Z) : list Z :=
  match text with
  | [] => []
  | c :: t => if c =? 10 then j + 1 :: line_starts t (j + 1) else line_starts t (j + 1)
  end.
Fixpoint location_files (alloc : nat -> bool) (texts : list bytes) (i : nat) : option (list DynLocationFile) :=
  match texts with
  | [] => Some []
  | text :: rest =>
      if SIZE_MAX / 8 <? newline_count text 1 then None
      else if negb (alloc (S i)) then None
      else
        let* files := location_files alloc rest (S i) in
        Some (mkFile (Z.of_nat i) (0 :: line_starts text 0) :: files)
  end.
Definition dyn_location_build (alloc : nat -> bool) (s : DynSource) : option (list DynLocationFile) :=
  if negb (alloc 0%nat) then None else location_files alloc (original s :: map m_original_text (s_maps s)) 0.

Fixpoint find_file (files : list DynLocationFile) (text : Z) : option DynLocationFile :=
  match files with
  | [] => None
  | f :: rest => if file_text f =? text then Some f else find_file rest text
  end.
Definition dyn_location_get (index : list DynLocationFile) (s : DynSource) (byte : Z) : option (bytes * Z * Z) :=
  let* p := dyn_source_position s byte in
  let offset := clamp p in
  match find_file index (p_text_id p) with
  | Some file =>
      let* first := bsearch (S (length (file_lines file)))
                      (fun mid => let* l := get_at (file_lines file) mid in Some (l <=? offset)) 0 (zlen (file_lines file)) in
      let* l := get_at (file_lines file) (first - 1) in
      Some (p_path p, u32 first, u32 (offset - l + 1))
  | None => dyn_source_location s byte
  end.

(** * Theorems *)

(** ** Joined paths *)
Lemma strip_plain r : cstr_get r <> ch "/" -> strip_slashes r = r.
Proof.
  intros H. destruct r as [|c [|d r]]; [done|done|]. cbn [strip_slashes cstr_get] in *.
  by rewrite (proj2 (Z.eqb_neq _ _) H).
Qed.
Lemma to_slash_app r q : ~ In (ch "/") r -> to_slash (r ++ ch "/" :: q) = r.
Proof.
  induction r as [|c r IH]; intros H; cbn [app to_slash]; [by rewrite Z.eqb_refl|].
  rewrite (proj2 (Z.eqb_neq c (ch "/"))), IH by (cbn in H; intuition). done.
Qed.

(** The last component of a joined path is the name that was joined. *)
Lemma basename_join cwd dir name path :
  dyn_path_join true dir name = Some path -> dir <> [] -> name <> [] -> ~ In (ch "/") name ->
  dyn_path_basename cwd true path = Some name.
Proof.
  intros Hj Hd Hn Hs. unfold dyn_path_join in Hj. injection Hj as Hj.
  assert (exists pre, path = pre ++ [ch "/"] ++ name) as [pre ->].
  { subst path. destruct dir as [|c dir'] using rev_ind; [done|]. rewrite rev_app_distr. cbn [rev app].
    destruct (Z.eqb_spec c (ch "/")) as [->|]; cbn [negb app]; [exists dir'; by rewrite <- app_assoc|by exists (dir' ++ [c])]. }
  unfold dyn_path_basename.
  assert (forall w, (length w <= 2)%nat -> ~ In (ch "/") w -> bytes_eqb (pre ++ [ch "/"] ++ name) w = false) as Hne.
  { intros w _ Hw. destruct (bytes_eqb_spec (pre ++ [ch "/"] ++ name) w) as [<-|]; [|done]. destruct Hw.
    apply in_or_app. right. by left. }
  rewrite (Hne (str ".")), (Hne (str "..")) by (cbn; (lia || intuition discriminate)).
  f_equal. assert (match cwd with Some _ => pre ++ [ch "/"] ++ name | None => pre ++ [ch "/"] ++ name end = pre ++ [ch "/"] ++ name) as ->
    by (by destruct cwd).
  rewrite !rev_app_distr. cbn [rev app]. rewrite strip_plain.
  - rewrite <- app_assoc. cbn [app]. rewrite to_slash_app by (by rewrite <- in_rev). apply rev_involutive.
  - destruct name as [|c name] using rev_ind; [done|]. rewrite rev_app_distr. cbn. intros ->. destruct Hs. apply in_or_app. right. by left.
Qed.

(** ** Lines *)

(** The start of the last line of [t], which starts at offset [j]. *)
Definition last_line (t : bytes) (j : Z) : Z := List.last (line_starts t j) j.

Lemma zlen_app {A} (l l' : list A) : zlen (l ++ l') = zlen l + zlen l'.
Proof. unfold zlen. rewrite length_app. lia. Qed.
Lemma zlen_cons {A} (x : A) l : zlen (x :: l) = zlen l + 1.
Proof. unfold zlen. cbn [length]. lia. Qed.

Lemma line_starts_app a b j : line_starts (a ++ b) j = line_starts a j ++ line_starts b (j + zlen a).
Proof.
  revert j. induction a as [|c a IH]; intros j; cbn [line_starts app]; [by rewrite Z.add_0_r|].
  rewrite IH, zlen_cons. replace (j + 1 + zlen a) with (j + (zlen a + 1)) by lia. by destruct (c =? 10).
Qed.
Lemma line_starts_range t j x : In x (line_starts t j) -> j < x <= j + zlen t.
Proof.
  revert j. induction t as [|c t IH]; intros j; cbn [line_starts]; [done|]. rewrite zlen_cons.
  assert (0 <= zlen t) as Hnn by (unfold zlen; lia).
  destruct (c =? 10); [intros [<-|H]; [lia|]|intros H]; apply IH in H; lia.
Qed.

Lemma last_cons_line {A} (x : A) l j : List.last (x :: l) j = List.last l x.
Proof.
  revert x j. induction l as [|y l IH]; intros; [done|]. change (List.last (y :: l) j = List.last (y :: l) x).
  by rewrite !IH.
Qed.

Lemma after_newline_None t j : after_newline t = None -> line_starts t j = [].
Proof. revert j. induction t as [|c t IH]; intros j H; cbn in *; [done|]. destruct (c =? 10); [done|auto]. Qed.
Lemma after_newline_Some t q j :
  after_newline t = Some q ->
  let j' := j + zlen t - zlen q in line_starts t j = j' :: line_starts q j' /\ (length q < length t)%nat.
Proof.
  revert j. induction t as [|c t IH]; intros j H; cbn [after_newline line_starts] in *; [done|].
  destruct (c =? 10).
  - injection H as ->. rewrite zlen_cons. replace (j + (zlen q + 1) - zlen q) with (j + 1) by lia.
    split; [done|cbn; lia].
  - destruct (IH (j + 1) H) as [-> Hl]. rewrite zlen_cons.
    replace (j + 1 + zlen t - zlen q) with (j + (zlen t + 1) - zlen q) by lia. split; [done|cbn; lia].
Qed.

Lemma u32_add x y : u32 (u32 x + y) = u32 (x + y).
Proof. unfold u32, wrap. apply Zplus_mod_idemp_l. Qed.

(** Counting lines gives the number of line starts and the distance to the
    last. *)
Lemma count_lines_spec fuel t lines j :
  (length t < fuel)%nat -> 0 <= lines < 2 ^ 32 ->
  count_lines fuel t lines
  = Some (u32 (lines + zlen (line_starts t j)), u32 (j + zlen t - last_line t j + 1)).
Proof.
  revert t lines j. induction fuel as [|f IH]; intros t lines j Hf Hl; [lia|]. cbn [count_lines]. unfold last_line.
  destruct (after_newline t) as [q|] eqn:Hq.
  - destruct (after_newline_Some t q j Hq) as [-> Hlen]. rewrite last_cons_line.
    rewrite (IH q _ (j + zlen t - zlen q)) by (lia || apply u32_range). f_equal. unfold last_line.
    rewrite u32_add, zlen_cons. f_equal; f_equal; lia.
  - rewrite (after_newline_None t j) by done. cbn [List.last]. change (@zlen Z []) with 0.
    rewrite u32_add, (Z.add_0_r lines), (u32_small lines) by done. repeat f_equal; lia.
Qed.

Lemma zget_app_l {A} (l l' : list A) i : i < zlen l -> get_at (l ++ l') i = get_at l i.
Proof.
  intros Hi. unfold get_at, zlen in *. rewrite length_app. destruct (Z.leb_spec 0 i); [|done]. zb.
  apply lookup_app_l. lia.
Qed.
Lemma zget_app_r {A} (l l' : list A) i : zlen l <= i -> get_at (l ++ l') i = get_at l' (i - zlen l).
Proof.
  intros Hi. unfold get_at, zlen in *. rewrite length_app.
  destruct (Z.ltb_spec i (Z.of_nat (length l + length l'))); zb; [|done]. rewrite lookup_app_r by lia. f_equal. lia.
Qed.
Lemma get_at_In {A} (l : list A) i x : get_at l i = Some x -> In x l.
Proof. intros H. apply get_at_Some in H as [_ H]. apply list_elem_of_In. by eapply list_elem_of_lookup_2. Qed.
Lemma get_at_last {A} (l : list A) (x : A) : get_at (x :: l) (zlen l) = Some (List.last l x).
Proof.
  revert x. induction l as [|y l IH]; intros x; [done|]. rewrite last_cons_line, <- IH.
  change (x :: y :: l) with ([x] ++ (y :: l)). rewrite zget_app_r; rewrite zlen_cons; unfold zlen in *; cbn [length];
    [f_equal; lia|lia].
Qed.

(** The binary search in a line table counts the line starts up to the
    offset, and ends on the last of them. *)
Lemma line_search text offset :
  0 <= offset <= zlen text ->
  let lines := 0 :: line_starts text 0 in
  let before := firstn (Z.to_nat offset) text in
  bsearch (S (length lines)) (fun mid => let* l := get_at lines mid in Some (l <=? offset)) 0 (zlen lines)
  = Some (1 + zlen (line_starts before 0))
  /\ get_at lines (1 + zlen (line_starts before 0) - 1) = Some (last_line before 0).
Proof.
  intros Ho lines before. set (after := skipn (Z.to_nat offset) text).
  assert (zlen before = offset) as Hb by (unfold before, zlen in *; rewrite length_firstn; lia).
  assert (lines = (0 :: line_starts before 0) ++ line_starts after offset) as Hsplit.
  { unfold lines. rewrite <- (firstn_skipn (Z.to_nat offset) text) at 1. fold before after.
    rewrite line_starts_app, Hb. done. }
  assert (0 <= zlen (line_starts before 0) /\ 0 <= zlen (line_starts after offset)) as Hnn by (unfold zlen; lia).
  assert (Hlen : zlen lines = 1 + zlen (line_starts before 0) + zlen (line_starts after offset))
    by (rewrite Hsplit, zlen_app, zlen_cons; lia).
  split.
  - destruct (bsearch_spec (fun mid => let* l := get_at lines mid in Some (l <=? offset))
                (fun i => i <? 1 + zlen (line_starts before 0)) (S (length lines)) 0 (zlen lines)) as (r & Hr & Hrr & Hlo & Hhi).
    + lia.
    + unfold zlen. lia.
    + intros i Hi. destruct (get_at_is_Some lines i) as [l Hl]; [unfold zlen in *; lia|]. rewrite Hl. f_equal.
      rewrite Hsplit in Hl. destruct (Z.ltb_spec i (1 + zlen (line_starts before 0))).
      * rewrite zget_app_l in Hl by (rewrite zlen_cons; lia). apply get_at_In in Hl as [<-|Hl]; [by zb|].
        apply line_starts_range in Hl. by zb.
      * rewrite zget_app_r in Hl by (rewrite zlen_cons; lia). apply get_at_In, line_starts_range in Hl. by zb.
    + intros i j Hij Hj Hp. to_prop. apply Z.ltb_lt. lia.
    + rewrite Hr. f_equal. destruct (Z.eq_dec r (1 + zlen (line_starts before 0))) as [|Hne]; [done|].
      destruct (Z_lt_le_dec r (1 + zlen (line_starts before 0))).
      * specialize (Hhi r ltac:(lia)). to_prop. lia.
      * specialize (Hlo (r - 1) ltac:(lia)). to_prop. lia.
  - replace (1 + zlen (line_starts before 0) - 1) with (zlen (line_starts before 0)) by lia.
    rewrite Hsplit, zget_app_l by (rewrite zlen_cons; lia). apply get_at_last.
Qed.

(** ** Positions are total *)
Lemma bsearch_get_total {A} (l : list A) (f : A -> bool) :
  exists r, bsearch (S (length l)) (fun mid => let* x := get_at l mid in Some (f x)) 0 (zlen l) = Some r /\ 0 <= r <= zlen l.
Proof.
  apply bsearch_total; [unfold zlen; lia..|]. intros i Hi. destruct (get_at_is_Some l i) as [x ->]; [unfold zlen in *; lia|]. eauto.
Qed.
Lemma span_offset_total spans local :
  exists o, source_span_offset spans local = Some o /\ forall x, o = Some x -> 0 <= x.
Proof.
  unfold source_span_offset. destruct (bsearch_get_total spans (fun s => generated_end s <? local)) as (lo & -> & Hlo).
  destruct (Z.eqb_spec lo (zlen spans)); [by exists None|].
  destruct (get_at_is_Some spans lo) as [p ->]; [unfold zlen in *; lia|]. destruct (_ <? _); [by exists None|].
  eexists. split; [done|]. intros x [= <-]. apply u64_range.
Qed.

Definition source_texts (s : DynSource) : list bytes := original s :: map m_original_text (s_maps s).
Lemma position_total s byte :
  0 <= byte ->
  exists p, dyn_source_position s byte = Some p /\ get_at (source_texts s) (p_text_id p) = Some (p_text p) /\ 0 <= p_offset p.
Proof.
  intros Hb. unfold dyn_source_position. destruct (bsearch_get_total (s_maps s) (fun m => m_end m <? byte)) as (lo & -> & Hlo).
  assert (forall p, get_at (source_texts s) (p_text_id p) = Some (p_text p) -> 0 <= p_offset p ->
            exists q, (if (zlen (s_maps s) =? 0) && negb (zlen (s_spans s) =? 0) then
                         let* o := source_span_offset (s_spans s) byte in
                         Some (match o with Some x => mkPosition (p_path p) (p_text p) (p_text_id p) x | None => p end)
                       else Some p) = Some q
                      /\ get_at (source_texts s) (p_text_id q) = Some (p_text q) /\ 0 <= p_offset q) as Hend.
  { intros p Hp Ho. destruct (_ && _); [|eauto]. destruct (span_offset_total (s_spans s) byte) as (o & -> & Hx).
    eexists. split; [done|]. destruct o as [x|]; cbn; auto. }
  assert (get_at (source_texts s) 0 = Some (original s)) as Hown by done.
  destruct (Z.ltb_spec lo (zlen (s_maps s))) as [Hlt|]; [|by apply Hend].
  destruct (get_at_is_Some (s_maps s) lo) as [m Hm]; [unfold zlen in *; lia|]. rewrite Hm.
  destruct (Z.leb_spec (m_start m) byte); [|by apply Hend].
  unfold span_or. destruct (span_offset_total (m_spans m) (byte - m_start m)) as (o & -> & Hx). apply Hend; cbn.
  - change (source_texts s) with ([original s] ++ map m_original_text (s_maps s)).
    rewrite zget_app_r by (unfold zlen; cbn; lia). replace (lo + 1 - zlen [original s]) with lo by (unfold zlen; cbn; lia).
    apply get_at_Some in Hm as [Hr Hm]. apply get_at_Some. rewrite length_map. split; [done|].
    rewrite list_lookup_fmap. by rewrite Hm.
  - destruct o as [x|]; [by apply Hx|lia].
Qed.

(** The line tables of a source: one per text, in order. *)
Lemma location_files_spec alloc texts i files :
  location_files alloc texts i = Some files ->
  forall id text, get_at texts (id - Z.of_nat i) = Some text ->
  find_file files id = Some (mkFile id (0 :: line_starts text 0)).
Proof.
  revert i files. induction texts as [|t texts IH]; intros i files H id text Hid.
  - apply get_at_Some in Hid as [Hid _]. cbn in Hid. lia.
  - cbn [location_files] in H. do 2 (split_if_in H; [done|]).
    destruct (location_files alloc texts (S i)) as [rest|] eqn:Hrest; [|done]. injection H as <-. cbn [find_file file_text].
    destruct (Z.eqb_spec (Z.of_nat i) id) as [<-|Hne].
    + rewrite Z.sub_diag in Hid. apply get_at_Some in Hid as [_ Hid]. cbn in Hid. injection Hid as ->. done.
    + apply (IH (S i) rest Hrest). apply get_at_Some in Hid as [Hr Hid]. cbn [length] in Hr.
      apply get_at_Some. split; [lia|]. replace (Z.to_nat (id - Z.of_nat i)) with (S (Z.to_nat (id - Z.of_nat (S i)))) in Hid by lia.
      done.
Qed.

(** Line tables are only an optimisation. For the index built from a
    source, looking a byte up by binary search in the line table of its text
    gives the path, line and column that counting the newlines before it gives,
    for every byte, and neither reads outside a table or a text. *)
Theorem location_index_agrees alloc s index byte :
  dyn_location_build alloc s = Some index -> 0 <= byte ->
  exists r, dyn_location_get index s byte = Some r /\ dyn_source_location s byte = Some r.
Proof.
  unfold dyn_location_build. intros Hi Hb. split_if_in Hi; [done|].
  destruct (position_total s byte Hb) as (p & Hp & Hid & Ho).
  assert (0 <= clamp p <= zlen (p_text p)) as Hc.
  { unfold clamp. destruct (Z.ltb_spec (zlen (p_text p)) (p_offset p)); unfold zlen in *; lia. }
  destruct (line_search (p_text p) (clamp p) Hc) as [Hs Hg].
  assert (zlen (firstn (Z.to_nat (clamp p)) (p_text p)) = clamp p) as Hlen by (unfold zlen in *; rewrite length_firstn; lia).
  eexists. split.
  - unfold dyn_location_get. rewrite Hp.
    rewrite (location_files_spec _ _ _ _ Hi (p_text_id p) (p_text p)) by (by rewrite Z.sub_0_r).
    cbn [file_lines]. rewrite Hs, Hg. reflexivity.
  - unfold dyn_source_location. rewrite Hp. rewrite (count_lines_spec _ _ _ 0) by lia.
    rewrite Hlen. done.
Qed.

Definition sample_span_source : DynSource :=
  mkSource (str "<module>") (str "fn a()" ++ [10]) None [] None false false
    [mkMap (str "a.dyn") 0 4 (str "x" ++ [10] ++ str "yz") []; mkMap (str "b.dyn") 5 6 (str "b") [mkSpan 0 1 0 1]].
Lemma location_index_agrees_witness :
  exists r, dyn_location_get [mkFile 0 [0; 7]; mkFile 1 [0; 2]; mkFile 2 [0]] sample_span_source 3 = Some r
            /\ dyn_source_location sample_span_source 3 = Some r.
Proof. apply (location_index_agrees (fun _ => true)); [vm_compute; reflexivity | lia]. Defined.

(** ** Merged modules *)
Section Merge.
Variables (host : DynTarget) (alloc : nat -> bool).

(** The maps ascend without overlap and end before [limit]. *)
Definition ascending (maps : list DynSourceMap) (limit : Z) : Prop :=
  (forall j m, maps !! j = Some m -> 0 <= m_start m <= m_end m /\ m_end m < limit)
  /\ forall j k m m', (j < k)%nat -> maps !! j = Some m -> maps !! k = Some m' -> m_end m < m_start m'.
(** Map [m] describes source [s], copied into [text]. *)
Definition describes (text : bytes) (m : DynSourceMap) (s : DynSource) : Prop :=
  m = mkMap (s_path s) (m_start m) (m_start m + zlen (s_text s)) (original s) (s_spans s)
  /\ 0 <= m_start m /\ exists pre post, text = pre ++ s_text s ++ post /\ zlen pre = m_start m.

Lemma ascending_snoc maps limit m limit' :
  ascending maps limit -> limit <= m_start m -> 0 <= m_start m <= m_end m -> m_end m < limit' ->
  ascending (maps ++ [m]) limit'.
Proof.
  intros [H1 H2] Hs Hr Hl. split.
  - intros j m' Hj. apply lookup_app_Some in Hj as [Hj|[_ Hj]].
    + apply H1 in Hj. lia.
    + apply list_lookup_singleton_Some in Hj as [_ <-]. lia.
  - intros j k m1 m2 Hjk Hj Hk. apply lookup_app_Some in Hk as [Hk|[Hk' Hk]].
    + apply lookup_app_Some in Hj as [Hj|[Hj' _]]; [by eapply H2|]. apply lookup_lt_Some in Hk. lia.
    + apply list_lookup_singleton_Some in Hk as [Hk0 <-]. apply lookup_app_Some in Hj as [Hj|[Hj' _]]; [|lia].
      apply H1 in Hj. lia.
Qed.

Lemma merge_copy_spec sources k text maps text' maps' :
  merge_copy host alloc sources k text maps = Ok (text', maps') -> ascending maps (zlen text) ->
  ascending maps' (zlen text') /\ (exists suffix, text' = text ++ suffix)
  /\ (exists more, maps' = maps ++ more)
  /\ forall i s, sources !! i = Some s -> dyn_source_target_enabled host s <> 0 ->
                 exists j m, maps' !! j = Some m /\ describes text' m s.
Proof.
  revert k text maps. induction sources as [|s sources IH]; intros k text maps H Ha; cbn [merge_copy] in H.
  - injection H as -> ->. split; [done|]. split; [exists []; by rewrite app_nil_r|].
    split; [exists []; by rewrite app_nil_r|done].
  - destruct (Z.eqb_spec (dyn_source_target_enabled host s) 0) as [Hz|Hz].
    + destruct (IH _ _ _ H Ha) as (H1 & H2 & H3 & H4). do 3 (split; [done|]).
      intros [|i] s' Hs Hen; [|by eapply H4]. cbn in Hs. by simplify_eq.
    + do 2 (split_if_in H; [done|]).
      assert (0 <= zlen text /\ 0 <= zlen (s_text s)) as Hnn by (unfold zlen; lia).
      eapply IH in H as (H1 & [suffix H2] & [more H3] & H4).
      2: { eapply ascending_snoc; [done|cbn [m_start m_end]..]; rewrite ?zlen_app, ?zlen_cons; unfold zlen in *; cbn [length]; lia. }
      split; [done|]. split; [exists ((s_text s ++ [10]) ++ suffix); by rewrite H2, <- !app_assoc|].
      split; [eexists; rewrite H3, <- app_assoc; done|].
      intros [|i] s' Hs Hen; [|by eapply H4]. cbn in Hs. injection Hs as <-.
      eexists (length maps), _. split; [rewrite H3, lookup_app_l, lookup_app_r, Nat.sub_diag by (rewrite ?length_app; cbn; lia); done|].
      split; [done|]. split; [cbn; lia|]. exists text, ([10] ++ suffix). split; [|done]. by rewrite H2, <- !app_assoc.
Qed.

(** The lookup of a byte of a map finds the map. *)
Lemma position_of_map s j m byte :
  ascending (s_maps s) (zlen (s_text s)) -> s_maps s !! j = Some m -> m_start m <= byte <= m_end m ->
  dyn_source_position s byte
  = (let* offset := span_or (m_spans m) (byte - m_start m) in
     Some (mkPosition (m_path m) (m_original_text m) (Z.of_nat j + 1) offset)).
Proof.
  intros [Hr Ha] Hj Hb. unfold dyn_source_position. pose proof (lookup_lt_Some _ _ _ Hj) as Hlt.
  set (less := fun mid => let* m := get_at (s_maps s) mid in Some (m_end m <? byte)).
  assert (Hless : forall i, 0 <= i < zlen (s_maps s) -> less i = Some (i <? Z.of_nat j)).
  { intros i Hi. unfold less. destruct (get_at_is_Some (s_maps s) i) as [m' Hm']; [unfold zlen in *; lia|]. rewrite Hm'. f_equal.
    apply get_at_Some in Hm' as [_ Hm']. destruct (Z.ltb_spec i (Z.of_nat j)).
    - assert (m_end m' < m_start m) by (eapply (Ha (Z.to_nat i) j); [lia|done..]). by zb.
    - destruct (Z.eq_dec i (Z.of_nat j)) as [->|].
      + rewrite Nat2Z.id in Hm'. simplify_eq. by zb.
      + assert (m_end m < m_start m') by (eapply (Ha j (Z.to_nat i)); [lia|done..]).
        pose proof (Hr _ _ Hm'). by zb. }
  destruct (bsearch_spec less (fun i => i <? Z.of_nat j) (S (length (s_maps s))) 0 (zlen (s_maps s))) as (r & -> & Hrr & Hlo & Hhi).
  { unfold zlen. lia. } { unfold zlen. lia. } { done. } { intros i i' Hi Hi' Hp. to_prop. apply Z.ltb_lt. lia. }
  assert (r = Z.of_nat j) as ->.
  { destruct (Z.eq_dec r (Z.of_nat j)); [done|]. destruct (Z_lt_le_dec r (Z.of_nat j)).
    - specialize (Hhi r ltac:(unfold zlen; lia)). to_prop. lia.
    - specialize (Hlo (Z.of_nat j) ltac:(lia)). to_prop. lia. }
  rewrite (proj2 (Z.ltb_lt _ _)) by (unfold zlen; lia).
  rewrite (proj2 (get_at_Some _ _ m)) by (rewrite Nat2Z.id; split; [unfold zlen in *; lia|done]).
  rewrite (proj2 (Z.leb_le _ _)) by lia. rewrite (proj2 (Z.eqb_neq (zlen _) 0)) by (unfold zlen; lia).
  cbn [andb]. by destruct (span_or _ _).
Qed.
End Merge.

(** Merging a module keeps every byte traceable. When the sources of a
    module merge, the text of every enabled source stands in the merged text,
    and the position of each of its bytes there (and of its end) is found: the
    file's path and original text, and the offset its own spans give the byte,
    which is the byte's offset in the file where no span covers it. *)
Theorem merge_positions host alloc sources name out i s local :
  dyn_sources_merge host alloc sources name = Ok out -> sources !! i = Some s ->
  dyn_source_target_enabled host s <> 0 -> 0 <= local <= zlen (s_text s) ->
  exists start id offset,
    firstn (length (s_text s)) (skipn (Z.to_nat start) (s_text out)) = s_text s
    /\ source_span_offset (s_spans s) local = Some offset
    /\ dyn_source_position out (start + local)
       = Some (mkPosition (s_path s) (original s) id (match offset with Some x => x | None => local end)).
Proof.
  unfold dyn_sources_merge. intros H Hi Hen Hl. destruct (merge_total host sources 0 false) as [[total reflection]|]; [|done].
  destruct (SIZE_MAX - total <? _); [done|]. destruct (negb _); [done|].
  destruct (merge_copy _ _ _ _ _ _) as [[text maps]|] eqn:Hc; [|done]. injection H as <-. cbn [s_text].
  apply merge_copy_spec in Hc as (Ha & _ & _ & Hd); [|by split; intros ? *].
  destruct (Hd i s Hi Hen) as (j & m & Hj & Hm & Hm0 & pre & post & -> & Hpre).
  destruct (span_offset_total (s_spans s) local) as (o & Ho & _).
  destruct m as [mp ms me mo msp]. cbn [m_start] in *. injection Hm as -> -> -> ->.
  exists ms, (Z.of_nat j + 1), o. split; [|split; [done|]].
  - rewrite <- Hpre. unfold zlen. rewrite Nat2Z.id, skipn_app, skipn_all, Nat.sub_diag.
    change (firstn (length (s_text s)) (s_text s ++ post) = s_text s). apply take_app_length.
  - erewrite (position_of_map _ j); [|done|done|cbn [m_start m_end]; lia].
    cbn [m_spans m_path m_original_text m_start]. unfold span_or.
    replace (ms + local - ms) with local by lia. by rewrite Ho.
Qed.

Definition linux : DynTarget := mkTarget (str "x86_64-linux") (str "x86_64-unknown-linux-gnu") None (str "x86_64") (str "linux")
  (str "sysv") (str "none") (str "little") (str "64") true.
Definition sample_sources : list DynSource :=
  [mkSource (str "a.dyn") (str "fn a()") None [] None false false [];
   mkSource (str "w.dyn") (str "#target(kernel: windows)") None [] None false false [];
   mkSource (str "b.dyn") (str "#target(kernel: linux)") None [] None true false []].
Lemma merge_positions_witness :
  exists out, dyn_sources_merge linux (fun _ => true) sample_sources None = Ok out
    /\ exists start id offset,
         firstn 22 (skipn (Z.to_nat start) (s_text out)) = str "#target(kernel: linux)"
         /\ source_span_offset [] 3 = Some offset
         /\ dyn_source_position out (start + 3)
            = Some (mkPosition (str "b.dyn") (str "#target(kernel: linux)") id (match offset with Some x => x | None => 3 end)).
Proof.
  eexists. split; [vm_compute; reflexivity|].
  apply (merge_positions linux (fun _ => true) sample_sources None _ 2
           (mkSource (str "b.dyn") (str "#target(kernel: linux)") None [] None true false []) 3);
    [vm_compute; reflexivity|reflexivity|vm_compute; discriminate|vm_compute; split; discriminate].
Defined.
