(* ===== verification/TargetGate.v ===== *)
(** The [#target] gate of a source file (src/src/source.c): which directive it
    finds, past comments and literals, and what it decides. *)

From S2P Require Import Prelude Target Source.

(** ** Fuel *)
Lemma skip_spaces_length p : (length (skip_spaces p) <= length p)%nat.
Proof. induction p as [|c p IH]; cbn; [lia|]. split_if; cbn; lia. Qed.
Lemma skip_line_length p : (length (skip_line p) <= length p)%nat.
Proof. induction p as [|c p IH]; cbn; [lia|]. split_if; cbn; lia. Qed.
Lemma skip_block_length p : (length (skip_block p) <= length p)%nat.
Proof. induction p as [|c p IH]; cbn; [lia|]. split_if; [destruct p; cbn; lia|lia]. Qed.
Lemma skip_literal_length quote p : (length (skip_literal quote p) <= length p)%nat.
Proof.
  induction p as [p IH] using (induction_ltof1 _ (@length Z)). unfold ltof in IH.
  destruct p as [|c q]; cbn; [lia|]. split_if; [lia|]. split_if.
  - destruct q as [|d r]; cbn; [lia|]. specialize (IH r). cbn in IH. lia.
  - specialize (IH q). cbn in IH. lia.
Qed.

Definition comment_start (p : bytes) : bool :=
  (cstr_get p =? ch "/") && ((cstr_get (tl p) =? ch "/") || (cstr_get (tl p) =? ch "*")).

Lemma trivia_fuel f f' p : (length p < f)%nat -> (length p < f')%nat -> trivia f p = trivia f' p.
Proof.
  revert f' p. induction f as [|f IH]; intros f' p Hf Hf'; [lia|]. destruct f' as [|f']; [lia|]. cbn [trivia].
  pose proof (skip_spaces_length p) as Hs.
  destruct (skip_spaces p) as [|c [|d q]]; cbn [length] in Hs; cbn [cstr_get tl]; rewrite ?andb_false_r; [done|done|].
  change (skipn 2 (c :: d :: q)) with q.
  pose proof (skip_line_length q). pose proof (skip_block_length q).
  split_if; [apply IH; lia|]. split_if; [apply IH; lia|]. done.
Qed.
Lemma skip_trivia_eq p :
  source_skip_trivia p =
  let p := skip_spaces p in
  if (cstr_get p =? ch "/") && (cstr_get (tl p) =? ch "/") then source_skip_trivia (skip_line (skipn 2 p))
  else if (cstr_get p =? ch "/") && (cstr_get (tl p) =? ch "*") then source_skip_trivia (skip_block (skipn 2 p))
  else p.
Proof.
  unfold source_skip_trivia at 1. cbn [trivia]. cbv zeta. pose proof (skip_spaces_length p) as Hs.
  destruct (skip_spaces p) as [|c [|d q]]; cbn [length] in Hs; cbn [cstr_get tl]; rewrite ?andb_false_r; [done|done|].
  change (skipn 2 (c :: d :: q)) with q.
  pose proof (skip_line_length q). pose proof (skip_block_length q).
  split_if; [apply trivia_fuel; lia|]. split_if; [apply trivia_fuel; lia|]. done.
Qed.

(** Trivia is skipped from its start, and nothing else is. *)
Lemma skip_trivia_stop p : isspace (cstr_get p) = false -> comment_start p = false -> source_skip_trivia p = p.
Proof.
  intros Hs Hc. rewrite skip_trivia_eq. assert (skip_spaces p = p) as ->.
  { destruct p as [|c q]; [done|]. cbn in Hs |- *. by rewrite Hs. }
  unfold comment_start in Hc. cbv zeta. destruct (cstr_get p =? ch "/"); [|done]. cbn [andb] in *. to_prop.
  destruct Hc as [H1 H2]. by zb.
Qed.
Lemma skip_trivia_space c q : isspace c = true -> source_skip_trivia (c :: q) = source_skip_trivia q.
Proof. intros H. rewrite skip_trivia_eq, (skip_trivia_eq q). cbn [skip_spaces]. by rewrite H. Qed.
Lemma skip_trivia_line q : source_skip_trivia (47 :: 47 :: q) = source_skip_trivia (skip_line q).
Proof. by rewrite skip_trivia_eq. Qed.
Lemma skip_trivia_block q : source_skip_trivia (47 :: 42 :: q) = source_skip_trivia (skip_block q).
Proof. by rewrite skip_trivia_eq. Qed.

(** ** The directive, by a grammar *)
Definition directive_at (p : bytes) : bool :=
  starts_with (str "#target") p && negb (word_char (cstr_get (skipn 7 p))).
Definition is_quote (c : Z) : bool := (c =? 34) || (c =? 39).

(** The contents of a literal: no bare quote, escapes in pairs. *)
Inductive literal_body (quote : Z) : bytes -> Prop :=
| body_nil : literal_body quote []
| body_char c b : c <> quote -> c <> 92 -> literal_body quote b -> literal_body quote (c :: b)
| body_escape c b : literal_body quote b -> literal_body quote (92 :: c :: b).
(** The contents of a block comment: no end before its end. *)
Definition block_body (b : bytes) : Prop := forall x y, b ++ [42] <> x ++ [42; 47] ++ y.

(** [finds p r]: the first directive of [p] outside comments and literals is
    followed by [r]. *)
Inductive finds : bytes -> bytes -> Prop :=
| finds_here p : directive_at p = true -> finds p (skipn 7 p)
| finds_space c q r : isspace c = true -> finds q r -> finds (c :: q) r
| finds_line b q r : ~ In 10 b -> finds (10 :: q) r -> finds (47 :: 47 :: b ++ 10 :: q) r
| finds_block b q r : block_body b -> finds q r -> finds (47 :: 42 :: b ++ 42 :: 47 :: q) r
| finds_literal quote b q r :
    is_quote quote = true -> literal_body quote b -> finds q r -> finds (quote :: b ++ quote :: q) r
| finds_other c q r :
    isspace c = false -> is_quote c = false -> comment_start (c :: q) = false -> directive_at (c :: q) = false ->
    finds q r -> finds (c :: q) r.

Lemma skip_line_body b q : ~ In 10 b -> skip_line (b ++ 10 :: q) = 10 :: q.
Proof.
  induction b as [|c b IH]; cbn; intros H; [done|]. rewrite (proj2 (Z.eqb_neq c 10)) by intuition. apply IH. intuition.
Qed.
Lemma skip_line_inv p : skip_line p = [] \/ exists b q, ~ In 10 b /\ p = b ++ 10 :: q /\ skip_line p = 10 :: q.
Proof.
  induction p as [|c p IH]; cbn; [by left|]. destruct (Z.eqb_spec c 10) as [->|Hc].
  - right. exists [], p. split; [intros []|by split].
  - destruct IH as [H|(b & q & Hb & -> & H)]; [by left|]. right. exists (c :: b), q. split; [cbn; intuition|]. done.
Qed.

Lemma block_body_tail c b : block_body (c :: b) -> block_body b.
Proof. intros H x y Hxy. apply (H (c :: x) y). cbn. by rewrite Hxy. Qed.
Lemma skip_block_body b q : block_body b -> skip_block (b ++ 42 :: 47 :: q) = q.
Proof.
  induction b as [|c b IH]; intros Hb; [done|]. cbn [app skip_block].
  destruct ((c =? ch "*") && _) eqn:Ht; [|by apply IH, block_body_tail with c].
  to_prop. destruct Ht as [Hc Hd]. change (ch "*") with 42 in Hc. change (ch "/") with 47 in Hd. subst c.
  destruct b as [|d b]; cbn in Hd; [done|]. subst d. by destruct (Hb [] (b ++ [42])).
Qed.
Lemma skip_block_inv p : skip_block p = [] \/ exists b, block_body b /\ p = b ++ 42 :: 47 :: skip_block p.
Proof.
  induction p as [|c p IH]; cbn [skip_block]; [by left|].
  destruct ((c =? ch "*") && _) eqn:Ht.
  - to_prop. destruct Ht as [Hc Hd]. change (ch "*") with 42 in Hc. change (ch "/") with 47 in Hd. subst c.
    destruct p as [|d p]; [done|]. cbn in Hd. subst d. right. exists []. split; [|done].
    intros x y H. by destruct x as [|? [|? x]].
  - destruct IH as [H|(b & Hb & Hp)]; [by left|]. right. exists (c :: b). split; [|cbn; by rewrite <- Hp].
    intros [|x0 x] y H; cbn in H.
    + injection H as -> H. rewrite Hp in Ht. destruct b as [|d b]; cbn in H; [done|]. by injection H as -> _.
    + injection H as -> H. by apply (Hb x y).
Qed.

Lemma skip_literal_body quote b q : quote <> 92 -> literal_body quote b -> skip_literal quote (b ++ quote :: q) = q.
Proof.
  intros Hq. induction 1 as [|c b Hc1 Hc2 _ IH|c b _ IH]; cbn [app skip_literal].
  - by rewrite Z.eqb_refl.
  - by rewrite (proj2 (Z.eqb_neq c quote)), (proj2 (Z.eqb_neq c 92)).
  - by rewrite (proj2 (Z.eqb_neq 92 quote)) by congruence.
Qed.
Lemma skip_literal_inv quote p :
  skip_literal quote p = [] \/ exists b, literal_body quote b /\ p = b ++ quote :: skip_literal quote p.
Proof.
  induction p as [p IH] using (induction_ltof1 _ (@length Z)). unfold ltof in IH.
  destruct p as [|c q]; cbn [skip_literal]; [by left|]. destruct (Z.eqb_spec c quote) as [->|Hc].
  { right. exists []. split; [constructor|done]. }
  destruct (Z.eqb_spec c 92) as [->|Hc2].
  - destruct q as [|d r]; [by left|]. destruct (IH r) as [H|(b & Hb & Hp)]; [cbn; lia|by left|].
    right. exists (92 :: d :: b). split; [by constructor|]. cbn. by rewrite <- Hp.
  - destruct (IH q) as [H|(b & Hb & Hp)]; [cbn; lia|by left|]. right. exists (c :: b). split; [by constructor|].
    cbn. by rewrite <- Hp.
Qed.

Lemma finds_nil r : ~ finds [] r.
Proof. inversion 1; subst; done. Qed.
Lemma directive_head c q : directive_at (c :: q) = true -> c = 35.
Proof.
  unfold directive_at, starts_with. intros H. to_prop. destruct H as [H _]. unfold bytes_eqb in H.
  apply bool_decide_eq_true in H. cbn in H. by injection H as -> _.
Qed.
Lemma stops c q : isspace c = false -> comment_start (c :: q) = false -> source_skip_trivia (c :: q) = c :: q.
Proof. intros. by apply skip_trivia_stop. Qed.
Lemma quote_stops c q : is_quote c = true -> isspace c = false /\ comment_start (c :: q) = false.
Proof. unfold is_quote. intros H. to_prop. by destruct H as [->| ->]. Qed.

(** Skipping trivia does not change what is found. *)
Lemma finds_skip p r : finds p r -> finds (source_skip_trivia p) r.
Proof.
  induction 1 as [p Hp|c q r Hc _ IH|b q r Hb _ IH|b q r Hb _ IH|quote b q r Hq Hb H IH|c q r Hs Hq Hc Hd H IH].
  - destruct p as [|c q]; [done|]. pose proof (directive_head c q Hp) as ->. rewrite stops by done. by constructor.
  - by rewrite skip_trivia_space.
  - by rewrite skip_trivia_line, skip_line_body.
  - by rewrite skip_trivia_block, skip_block_body.
  - destruct (quote_stops quote (b ++ quote :: q) Hq). rewrite stops by done. by constructor.
  - rewrite stops by done. by apply finds_other.
Qed.
Lemma skip_finds p r : finds (source_skip_trivia p) r -> finds p r.
Proof.
  induction p as [p IH] using (induction_ltof1 _ (@length Z)). unfold ltof in IH. intros H.
  destruct p as [|c q]; [done|]. destruct (isspace c) eqn:Hs.
  { rewrite skip_trivia_space in H by done. apply finds_space; [done|]. apply IH; [cbn; lia|done]. }
  destruct (comment_start (c :: q)) eqn:Hc; [|by rewrite stops in H].
  unfold comment_start in Hc. to_prop. change (ch "/") with 47 in Hc. change (ch "*") with 42 in Hc.
  cbn [cstr_get tl] in Hc. destruct Hc as [-> Hc]. destruct q as [|d q]; [by destruct Hc|]. cbn [cstr_get] in Hc.
  destruct Hc as [-> | ->].
  - rewrite skip_trivia_line in H. pose proof (skip_line_length q). destruct (skip_line_inv q) as [He|(b & q' & Hb & -> & He)].
    + rewrite He in H. by apply finds_nil in H.
    + constructor; [done|]. rewrite He in *. apply IH; [cbn in *; rewrite ?length_app in *; cbn in *; lia|done].
  - rewrite skip_trivia_block in H. pose proof (skip_block_length q). destruct (skip_block_inv q) as [He|(b & Hb & Hq)].
    + rewrite He in H. by apply finds_nil in H.
    + rewrite Hq. constructor; [done|]. apply IH; [cbn; lia|done].
Qed.

(** After trivia there is neither a space nor a comment. *)
Lemma skip_trivia_done p : isspace (cstr_get (source_skip_trivia p)) = false /\ comment_start (source_skip_trivia p) = false.
Proof.
  induction p as [p IH] using (induction_ltof1 _ (@length Z)). unfold ltof in IH.
  destruct p as [|c q]; [done|]. destruct (isspace c) eqn:Hs.
  { rewrite skip_trivia_space by done. apply IH. cbn. lia. }
  destruct (comment_start (c :: q)) eqn:Hc; [|by rewrite stops].
  unfold comment_start in Hc. to_prop. change (ch "/") with 47 in Hc. change (ch "*") with 42 in Hc.
  cbn [cstr_get tl] in Hc. destruct Hc as [-> Hc]. destruct q as [|d q]; [by destruct Hc|]. cbn [cstr_get] in Hc.
  destruct Hc as [-> | ->]; [rewrite skip_trivia_line|rewrite skip_trivia_block]; apply IH; cbn.
  - pose proof (skip_line_length q). lia.
  - pose proof (skip_block_length q). lia.
Qed.
Lemma skip_trivia_length p : (length (source_skip_trivia p) <= length p)%nat.
Proof.
  induction p as [p IH] using (induction_ltof1 _ (@length Z)). unfold ltof in IH.
  rewrite skip_trivia_eq. cbv zeta. pose proof (skip_spaces_length p) as Hs.
  destruct (skip_spaces p) as [|c [|d q]]; cbn [length] in Hs; cbn [cstr_get tl]; rewrite ?andb_false_r; [cbn; lia|cbn; lia|].
  change (skipn 2 (c :: d :: q)) with q. pose proof (skip_line_length q). pose proof (skip_block_length q).
  split_if; [specialize (IH (skip_line q)); lia|]. split_if; [specialize (IH (skip_block q)); lia|cbn; lia].
Qed.

Lemma directive_iff fuel p r : (length p < fuel)%nat -> directive fuel p = Some r <-> finds p r.
Proof.
  revert p r. induction fuel as [|f IH]; intros p r Hf; [lia|]. cbn [directive].
  pose proof (skip_trivia_length p) as Hl. destruct (skip_trivia_done p) as [Hs Hc].
  assert (finds p r <-> finds (source_skip_trivia p) r) as -> by (split; [apply finds_skip|apply skip_finds]).
  destruct (source_skip_trivia p) as [|c q]; cbn [length cstr_get] in *.
  { split; [done|]. intros H. by apply finds_nil in H. }
  change ((c =? 34) || (c =? 39)) with (is_quote c). destruct (is_quote c) eqn:Hq.
  - pose proof (skip_literal_length c q). rewrite IH by lia. split.
    + intros H'. destruct (skip_literal_inv c q) as [He|(b & Hb & Hq')]; [rewrite He in H'; by apply finds_nil in H'|].
      rewrite Hq'. by constructor.
    + assert (c <> 92) as H92 by (intros ->; done).
      inversion 1; subst; try done.
      * assert (c = 35) as -> by (by eapply directive_head). done.
      * destruct (quote_stops c q Hq). congruence.
      * by rewrite skip_literal_body.
      * congruence.
  - fold (directive_at (c :: q)). destruct (directive_at (c :: q)) eqn:Hd.
    + split; [intros [= <-]; by constructor|]. pose proof (directive_head c q Hd) as ->.
      inversion 1; subst; try done. congruence.
    + rewrite IH by lia. split; [by apply finds_other|]. inversion 1; subst; try done; congruence.
Qed.

(** The substring test of the fast path never rejects a directive. *)
Lemma strstr_app a b w : strstr b w = true -> strstr (a ++ b) w = true.
Proof. intros H. induction a as [|c a IH]; [done|]. cbn [app strstr]. rewrite IH. apply orb_true_r. Qed.
Lemma finds_strstr p r : finds p r -> strstr p (str "#target") = true.
Proof.
  induction 1 as [p Hp|c q r Hc _ IH|b q r Hb _ IH|b q r Hb _ IH|quote b q r Hq Hb H IH|c q r Hs Hq Hc Hd H IH].
  - unfold directive_at in Hp. to_prop. destruct Hp as [Hp _]. destruct p; cbn [strstr]; by rewrite Hp.
  - by apply (strstr_app [c]).
  - by apply (strstr_app (47 :: 47 :: b)).
  - replace (47 :: 42 :: b ++ 42 :: 47 :: q) with ((47 :: 42 :: b ++ [42; 47]) ++ q) by (cbn; by rewrite <- app_assoc).
    by apply strstr_app.
  - replace (quote :: b ++ quote :: q) with ((quote :: b ++ [quote]) ++ q) by (cbn; by rewrite <- app_assoc). by apply strstr_app.
  - by apply (strstr_app [c]).
Qed.

(** ** The conditions *)

(** A key or a value: word characters, within the 31 the buffer holds. *)
Definition is_word (w : bytes) : Prop := forallb word_char w = true /\ (1 <= length w <= 31)%nat.
(** What may stand between two tokens: white space and comments. *)
Inductive gap : bytes -> Prop :=
| gap_none : gap []
| gap_space c g : isspace c = true -> gap g -> gap (c :: g)
| gap_line b g : ~ In 10 b -> gap g -> gap (47 :: 47 :: b ++ 10 :: g)
| gap_block b g : block_body b -> gap g -> gap (47 :: 42 :: b ++ 42 :: 47 :: g).
(** A key, a colon and a value, with gaps around each. *)
Inductive condition (k v : bytes) : bytes -> Prop :=
| condition_text g1 g2 g3 g4 : is_word k -> is_word v -> gap g1 -> gap g2 -> gap g3 -> gap g4 ->
    condition k v (g1 ++ k ++ g2 ++ str ":" ++ g3 ++ v ++ g4).
(** Conditions after the first, each with its comma, and the closing parenthesis. *)
Inductive more_conditions : list (bytes * bytes) -> bytes -> Prop :=
| more_end : more_conditions [] (str ")")
| more_condition k v t l r : condition k v t -> more_conditions l r -> more_conditions ((k, v) :: l) (str "," ++ t ++ r).
(** The text of a list of conditions after its opening parenthesis. *)
Inductive conditions_text : list (bytes * bytes) -> bytes -> Prop :=
| conditions_empty : conditions_text [] (str ")")
| conditions_list k v t l r : condition k v t -> more_conditions l r -> conditions_text ((k, v) :: l) (t ++ r).
(** The properties a condition can name. *)
Definition properties (target : DynTarget) : list (bytes * bytes) :=
  [(str "arch", t_arch target); (str "kernel", t_kernel target); (str "abi", t_abi target); (str "libc", t_libc target);
   (str "endian", t_endian target); (str "pointer_bits", t_pointer_bits target)].
(** What the conditions mean for a target: the file is enabled (1) when each of
    them names a property and its value, and the first that does not decides:
    an unknown property is an error (-1), another value disables the file (0). *)
Inductive gate_value (target : DynTarget) : list (bytes * bytes) -> Z -> Prop :=
| gate_enabled : gate_value target [] 1
| gate_holds k v l z : In (k, v) (properties target) -> gate_value target l z -> gate_value target ((k, v) :: l) z
| gate_other k v w l : In (k, w) (properties target) -> v <> w -> gate_value target ((k, v) :: l) 0
| gate_unknown k v l : ~ In k (map fst (properties target)) -> gate_value target ((k, v) :: l) (-1).

Lemma target_property_in target k w : dyn_target_property target k = Some w <-> In (k, w) (properties target).
Proof.
  split.
  - unfold dyn_target_property. intros H.
    repeat (match type of H with context [bytes_eqb k ?w] => destruct (bytes_eqb_spec k w) as [->|_] end; [injection H as <-; cbn; tauto|]). done.
  - cbn [properties In]. intros H. repeat (destruct H as [H|H]; [injection H as <- <-; reflexivity|]). done.
Qed.
Lemma target_property_known target k : dyn_target_property target k = None <-> ~ In k (map fst (properties target)).
Proof.
  rewrite in_map_iff. split.
  - intros H ((k' & w) & <- & Hw%target_property_in). cbn in H. congruence.
  - intros H. destruct (dyn_target_property target k) as [w|] eqn:E; [|done]. destruct H. exists (k, w). by apply target_property_in in E.
Qed.

Lemma skip_gap g p : gap g -> source_skip_trivia (g ++ p) = source_skip_trivia p.
Proof.
  induction 1 as [|c g Hc _ IH|b g Hb _ IH|b g Hb _ IH]; [done|..].
  - cbn [app]. by rewrite skip_trivia_space.
  - cbn [app]. rewrite <- app_assoc. cbn [app]. rewrite skip_trivia_line, skip_line_body by done. by rewrite skip_trivia_space.
  - cbn [app]. rewrite <- app_assoc. cbn [app]. by rewrite skip_trivia_block, skip_block_body.
Qed.
Lemma word_char_plain c : word_char c = true -> isspace c = false /\ c <> 47 /\ c <> 44 /\ c <> 41 /\ c <> 0.
Proof. unfold word_char, isalnum, isspace. intros H. repeat split; [|intros ->; done..]. apply not_true_iff_false. intros H'. to_prop. lia. Qed.
Lemma skip_word w p : is_word w -> source_skip_trivia (w ++ p) = w ++ p /\ cstr_get (w ++ p) <> 44.
Proof.
  intros [Hw Hl]. destruct w as [|c w]; [cbn in Hl; lia|]. cbn in Hw. to_prop. destruct Hw as [Hc _].
  apply word_char_plain in Hc as (Hs & H47 & H44 & _). split; [|done]. apply skip_trivia_stop; [done|].
  unfold comment_start. cbn [app cstr_get]. by rewrite (proj2 (Z.eqb_neq c (ch "/"))).
Qed.
Lemma gap_head g c p : gap g -> word_char c = false -> word_char (cstr_get (g ++ c :: p)) = false.
Proof.
  intros [|d g' Hd _|b g' _ _|b g' _ _] Hc; [done| |done|done]. cbn. destruct (word_char d) eqn:Hw; [|done].
  apply word_char_plain in Hw as [Hw _]. congruence.
Qed.
Lemma read_word_spec n w p :
  forallb word_char w = true -> (length w <= n)%nat -> word_char (cstr_get p) = false -> read_word n (w ++ p) = (w, p).
Proof.
  revert n. induction w as [|c w IH]; intros n Hw Hl Hp; cbn [app].
  - destruct n, p; cbn in Hp |- *; try done. by rewrite Hp.
  - cbn in Hw, Hl. to_prop. destruct Hw as [Hc Hw]. destruct n as [|n]; [lia|]. cbn [read_word]. rewrite Hc.
    by rewrite IH by (done || lia).
Qed.
Lemma skip_punct c p : c = 44 \/ c = 41 \/ c = 58 -> source_skip_trivia (c :: p) = c :: p.
Proof. intros H. apply skip_trivia_stop; [|unfold comment_start]; destruct H as [->|[-> | ->]]; done. Qed.

Lemma more_head l t rest : more_conditions l t -> exists c p, t ++ rest = c :: p /\ (c = 44 \/ c = 41) /\ word_char c = false.
Proof. intros [|]; cbn; eauto 6. Qed.
(** The text of a condition starts with a gap or a word. *)
Lemma condition_head k v t rest : condition k v t -> (cstr_get (t ++ rest) =? 0) || (cstr_get (t ++ rest) =? ch ")") = false.
Proof.
  intros [g1 g2 g3 g4 Hk _ Hg _ _ _]. change (ch ")") with 41. destruct Hg as [|c g Hc _|b g _ _|b g _ _]; [|cbn [app cstr_get]|done|done].
  - destruct Hk as [Hkw Hkl]. destruct k as [|c k]; [cbn in Hkl; lia|]. cbn in Hkw. to_prop. destruct Hkw as [Hc _].
    apply word_char_plain in Hc as (_ & _ & _ & ? & ?). cbn. by zb.
  - unfold isspace in Hc. to_prop. apply not_true_iff_false. intros H. to_prop. lia.
Qed.

(** One condition, with or without the comma before it. *)
Lemma condition_step f target k v t l r rest p :
  condition k v t -> more_conditions l r ->
  p = t ++ r ++ rest \/ p = 44 :: t ++ r ++ rest ->
  conditions (S f) target p
  = match dyn_target_property target k with
    | None => -1
    | Some want => if bytes_eqb v want then conditions f target (r ++ rest) else 0
    end.
Proof.
  intros Ht Hr Hp.
  assert ((cstr_get p =? 0) || (cstr_get p =? ch ")") = false) as Hz.
  { destruct Hp as [->| ->]; [by eapply condition_head|done]. }
  cbn [conditions]. rewrite Hz. clear Hz. destruct Ht as [g1 g2 g3 g4 Hk Hv H1 H2 H3 H4]. rewrite <- !app_assoc in Hp.
  assert ((let q := source_skip_trivia p in if cstr_get q =? ch "," then source_skip_trivia (tl q) else q)
    = k ++ g2 ++ str ":" ++ g3 ++ v ++ g4 ++ r ++ rest) as Hq.
  { destruct (skip_word k (g2 ++ str ":" ++ g3 ++ v ++ g4 ++ r ++ rest) Hk) as [Hs Hc]. cbv zeta. destruct Hp as [->| ->].
    - rewrite skip_gap, Hs by done. change (ch ",") with 44. by rewrite (proj2 (Z.eqb_neq _ _) Hc).
    - rewrite skip_punct by auto. change (cstr_get (44 :: _) =? ch ",") with true. cbn [tl]. by rewrite skip_gap. }
  cbv zeta in Hq |- *. rewrite Hq. destruct (more_head l r rest Hr) as (c & p' & Hm & Hc & Hcw).
  destruct Hk as [Hkw Hkl]. rewrite read_word_spec; [|done|lia|by apply gap_head].
  rewrite skip_gap by done. change (str ":") with [58]. cbn [app]. rewrite skip_punct by auto.
  change (negb (cstr_get (58 :: g3 ++ v ++ g4 ++ r ++ rest) =? ch ":")) with false.
  cbn [tl]. rewrite skip_gap, (proj1 (skip_word v _ Hv)) by done. destruct Hv as [Hvw Hvl].
  rewrite read_word_spec; [|done|lia|rewrite Hm; by apply gap_head].
  rewrite skip_gap, Hm, skip_punct by tauto. done.
Qed.
Lemma gate_step target k v (next : Z) l :
  gate_value target l next ->
  gate_value target ((k, v) :: l)
    match dyn_target_property target k with None => -1 | Some want => if bytes_eqb v want then next else 0 end.
Proof.
  intros Hn. destruct (dyn_target_property target k) as [w|] eqn:E; [|apply gate_unknown; by apply target_property_known].
  apply target_property_in in E. destruct (bytes_eqb_spec v w) as [->|Hne]; [by apply gate_holds | by eapply gate_other].
Qed.
Lemma more_conditions_read l r fuel target rest :
  more_conditions l r -> (length l < fuel)%nat -> gate_value target l (conditions fuel target (r ++ rest)).
Proof.
  intros Hr. revert fuel. induction Hr as [|k v t l r Ht Hr IH]; intros [|f] Hf; cbn in Hf; try lia; [constructor|].
  rewrite (condition_step f target k v t l r rest); [|done|done|right; rewrite <- !app_assoc; reflexivity]. apply gate_step, IH. lia.
Qed.
Lemma conditions_read l t fuel target rest :
  conditions_text l t -> (length l < fuel)%nat -> gate_value target l (conditions fuel target (t ++ rest)).
Proof.
  intros [|k v t' l' r Ht Hr] Hf; destruct fuel as [|f]; cbn in Hf; try lia; [constructor|].
  rewrite (condition_step f target k v t' l' r rest); [|done|done|left; by rewrite <- app_assoc].
  apply gate_step, more_conditions_read; [done|lia].
Qed.
Lemma more_conditions_length l r : more_conditions l r -> (length l <= length r)%nat.
Proof. induction 1 as [|k v t l r Ht Hr IH]; cbn [length]; [lia|]. cbn. rewrite length_app. lia. Qed.
Lemma conditions_text_length l t : conditions_text l t -> (length l <= length t)%nat.
Proof.
  intros [|k v t' l' r [g1 g2 g3 g4 Hk Hv _ _ _ _] Hr]; cbn [length]; [lia|]. pose proof (more_conditions_length _ _ Hr).
  rewrite !length_app. cbn. lia.
Qed.
Lemma enabled_gate host s :
  dyn_source_target_enabled host s = target_gate (dyn_context_target host (s_target s)) (cstring (s_text s)).
Proof.
  unfold dyn_source_target_enabled. destruct (strstr _ _) eqn:Hs; [done|]. cbn [negb]. unfold target_gate, source_target_directive.
  destruct (directive _ _) as [r|] eqn:Hd; [|done]. apply directive_iff in Hd; [|lia]. apply finds_strstr in Hd. congruence.
Qed.

(** C31: the target gate decides by the first directive outside comments and
    literals. A file without one is enabled; one whose directive has no list is
    an error (-1); and a well-formed list of conditions, with any white space and
    comments between its tokens, enables the file exactly when every
    condition names a property of the target and its value: the first unknown
    property is an error, the first other value disables the file (0). The
    substring fast path changes nothing. *)
Theorem target_enabled_correct host s :
  let text := cstring (s_text s) in
  ((forall r, ~ finds text r) -> dyn_source_target_enabled host s = 1)
  /\ (forall g r, gap g -> finds text (g ++ r) -> isspace (cstr_get r) = false -> comment_start r = false -> cstr_get r <> ch "(" ->
        dyn_source_target_enabled host s = -1)
  /\ (forall g l t rest, gap g -> conditions_text l t -> finds text (g ++ str "(" ++ t ++ rest) ->
        gate_value (dyn_context_target host (s_target s)) l (dyn_source_target_enabled host s)).
Proof.
  intros text. rewrite enabled_gate. fold text. unfold target_gate, source_target_directive. repeat split.
  - intros H. destruct (directive _ _) as [r|] eqn:Hd; [|done]. apply directive_iff in Hd; [|lia]. by apply H in Hd.
  - intros g r Hg H Hs Hc Hp. rewrite (proj2 (directive_iff (S (length text)) text _ ltac:(lia)) H). cbv zeta.
    rewrite skip_gap, skip_trivia_stop by done. by rewrite (proj2 (Z.eqb_neq _ _) Hp).
  - intros g l t rest Hg Hl H. rewrite (proj2 (directive_iff (S (length text)) text _ ltac:(lia)) H). cbv zeta. rewrite skip_gap by done.
    change (str "(") with [40]. cbn [app]. rewrite skip_trivia_stop by done.
    change (negb (cstr_get (40 :: _) =? ch "(")) with false. cbn [tl]. apply conditions_read; [done|].
    cbn [length]. rewrite length_app. pose proof (conditions_text_length _ _ Hl). lia.
Qed.

Definition sample_target : DynTarget :=
  mkTarget (str "x86_64-windows") (str "x86_64-pc-windows-msvc") None (str "x86_64") (str "windows") (str "win64") (str "system")
    (str "little") (str "64") true.
Definition sample_gate : DynSource :=
  mkSource (str "w.dyn") (str "// #target(arch: none)" ++ [10] ++ str "#target(kernel: windows, arch: x86_64)") None [] None
    false false [].
Lemma target_enabled_correct_witness :
  gate_value sample_target [(str "kernel", str "windows"); (str "arch", str "x86_64")] (dyn_source_target_enabled sample_target sample_gate).
Proof.
  assert (gap (str " ")) as Hs by (apply gap_space; [reflexivity|constructor]).
  apply (proj2 (proj2 (target_enabled_correct sample_target sample_gate)) [] _ (str "kernel: windows, arch: x86_64)") []).
  - constructor.
  - apply (conditions_list (str "kernel") (str "windows") (str "kernel: windows") _ (str ", arch: x86_64)")).
    + apply (condition_text (str "kernel") (str "windows") [] [] (str " ") []); repeat first [constructor | exact Hs | cbn; lia].
    + apply (more_condition (str "arch") (str "x86_64") (str " arch: x86_64") [] (str ")")); [|constructor].
      apply (condition_text (str "arch") (str "x86_64") (str " ") [] (str " ") []); repeat first [constructor | exact Hs | cbn; lia].
  - apply (directive_iff 200); [vm_compute; lia | vm_compute; reflexivity].
Defined.
