(* ===== verification/Work.v ===== *)
(** The cooperative work budget of an analysis (src/src/dyn.h, [DynWork] and
    [dyn_work_step]). The cancellation callback and the clock keep a state of
    their own, the world. *)

From S2P Require Import Prelude.

Inductive DynWorkStatus := DYN_WORK_RUNNING | DYN_WORK_LIMIT | DYN_WORK_CANCELLED.
#[export] Instance DynWorkStatus_eq_dec : EqDecision DynWorkStatus.
Proof. solve_decision. Defined.

(** What a budget needs from outside: [cancelled] is the callback, when there
    is one. *)
Class Host := {
  World : Type;
  cancelled : option (World -> bool * World);
  clock : World -> Z * World;
  allocate : World -> Z -> bool * World }.

Record DynWork := mkWork { remaining : Z; until_poll : Z; deadline : Z; status : DynWorkStatus }.

Section Work.
Context {H : Host}.

Definition running (w : DynWork) : bool := bool_decide (status w = DYN_WORK_RUNNING).
(** The poll every 1024 units: the callback, else the deadline. *)
Definition poll (w : DynWork) (world : World) : DynWorkStatus * World :=
  let '(stop, world) := match cancelled with Some f => f world | None => (false, world) end in
  if stop : bool then (DYN_WORK_CANCELLED, world)
  else if negb (deadline w =? 0) then
    let '(now, world) := clock world in
    (if deadline w <=? now then DYN_WORK_LIMIT else status w, world)
  else (status w, world).
Definition dyn_work_step (work : option DynWork) (units : Z) (world : World) : bool * option DynWork * World :=
  match work with
  | None => (true, None, world)
  | Some w =>
      if negb (running w) then (false, work, world)
      else if remaining w <? units then (false, Some (mkWork (remaining w) (until_poll w) (deadline w) DYN_WORK_LIMIT), world)
      else
        let left_ := remaining w - units in
        if units <? until_poll w then (true, Some (mkWork left_ (until_poll w - units) (deadline w) (status w)), world)
        else
          let '(st, world) := poll w world in
          let w' := mkWork left_ 1024 (deadline w) st in
          (running w', Some w', world)
  end.

(** The units a stopped or running budget can still give. *)
Definition budget (work : option DynWork) : Z :=
  match work with Some w => if running w then remaining w else 0 | None => 0 end.

(** A granted step costs its units; a refused one ends the budget for good. *)
Lemma work_step_spec w units world ok w' world' :
  0 <= units -> 0 <= remaining w -> dyn_work_step (Some w) units world = (ok, w', world') ->
  exists v, w' = Some v /\ 0 <= remaining v <= remaining w /\ ok = running v /\
            (ok = true -> running w = true /\ remaining v = remaining w - units).
Proof.
  intros Hu Hr. unfold dyn_work_step. destruct (running w) eqn:Hw; cbn [negb].
  2: { intros [= <- <- <-]. exists w. split; [done|]. split; [lia|]. split; [by rewrite Hw|done]. }
  destruct (Z.ltb_spec (remaining w) units) as [Hlt|Hge].
  { intros [= <- <- <-]. eexists. split; [done|]. split; [cbn; lia|]. by split. }
  destruct (units <? until_poll w).
  - intros [= <- <- <-]. eexists. split; [done|]. split; [cbn; lia|]. split; [by rewrite <- Hw|done].
  - destruct (poll w world) as [st world1]. intros [= <- <- <-]. eexists. split; [done|]. split; [cbn; lia|]. by split.
Qed.
End Work.
