(* ===== verification/Scope.v ===== *)
(** The scope index of the language server (src/src/dyn_scope.h): which names
    are bound locally at a byte. The traversal of a syntax tree collects one
    binding per name and visibility interval; the index sorts them and answers
    by one binary search.

    Operations are functions on the index under construction, the work budget
    and the world; [None] is an access out of bounds or a loop that has not
    ended. *)

From stdpp Require Import sorting.
From S2P Require Import Prelude Lexer Parser Work.

(** ** Node kinds (src/src/parser.h) *)
Definition SRC_FILE : Z := 1000.
Definition SRC_VARIABLE : Z := 1007.
Definition SRC_CONST : Z := 1008.

Definition SRC_FN_PARAM : Z := 1017.
Definition SRC_BLOCK : Z := 1020.
Definition SRC_CASE_ARM : Z := 1027.
Definition SRC_TYPE_PATTERN : Z := 1029.
Definition SRC_FOR : Z := 1030.
Definition SRC_FOR_CONDITION : Z := 1031.
Definition EXP_ITERATION : Z := 64.

Record DynScopeBinding := mkBinding { b_name : bytes; b_start : Z; b_end : Z; b_prefix_end : Z }.
Definition sizeof_DynScopeBinding : Z := 32.

(** ** Names *)

(** The sign of [memcmp] on the first [n] bytes. *)
Fixpoint memcmp (n : nat) (a b : bytes) : Z :=
  match n, a, b with
  | S n', x :: a', y :: b' => if x <? y then -1 else if y <? x then 1 else memcmp n' a' b'
  | _, _, _ => 0
  end.
Definition dyn_scope_name_compare (a b : bytes) : Z :=
  let order := memcmp (Nat.min (length a) (length b)) a b in
  if order =? 0 then (if (length b <? length a)%nat then 1 else 0) - (if (length a <? length b)%nat then 1 else 0) else order.
Definition dyn_scope_compare (a b : DynScopeBinding) : Z :=
  let order := dyn_scope_name_compare (b_name a) (b_name b) in
  if order =? 0 then (if b_start b <? b_start a then 1 else 0) - (if b_start a <? b_start b then 1 else 0) else order.

Section Collect.
Context {H : Host}.

(** The index, its capacity, the budget and the world. *)
Record ScopeSt := mkScopeSt { items : list DynScopeBinding; sc_capacity : Z; sc_work : option DynWork; sc_world : World }.
Definition SM (A : Type) : Type := ScopeSt -> option (A * ScopeSt).
Definition sret {A} (a : A) : SM A := fun s => Some (a, s).
Definition sbind {A B} (m : SM A) (k : A -> SM B) : SM B :=
  fun s => match m s with Some (a, s') => k a s' | None => None end.
Definition sundefined {A} : SM A := fun _ => None.
Definition slift {A} (o : option A) : SM A := fun s => match o with Some a => Some (a, s) | None => None end.

Declare Scope scope_monad.
Notation "'let!' x ':=' c 'in' k" := (sbind c (fun x => k))
  (at level 10, x pattern, c at level 100, k at level 200) : scope_monad.
Local Open Scope scope_monad.
(** [c] and then [k], when [c] is true. *)
Definition and_then (c k : SM bool) : SM bool := let! ok := c in if ok : bool then k else sret false.

Definition work_step (units : Z) : SM bool := fun s =>
  let '(ok, w, world) := dyn_work_step (sc_work s) units (sc_world s) in
  Some (ok, mkScopeSt (items s) (sc_capacity s) w world).

Definition push (b : DynScopeBinding) : SM bool := fun s =>
  Some (true, mkScopeSt (items s ++ [b]) (sc_capacity s) (sc_work s) (sc_world s)).
(** Room for one more binding. *)
Definition scope_grow : SM bool := fun s =>
  if Z.of_nat (length (items s)) =? sc_capacity s then
    let capacity := if sc_capacity s =? 0 then 32 else u64 (sc_capacity s * 2) in
    if (capacity <? sc_capacity s) || (UINT64_MAX / sizeof_DynScopeBinding <? capacity) then Some (false, s)
    else
      let '(ok, world) := allocate (sc_world s) (capacity * sizeof_DynScopeBinding) in
      if ok : bool then Some (true, mkScopeSt (items s) capacity (sc_work s) world)
      else Some (false, mkScopeSt (items s) (sc_capacity s) (sc_work s) world)
  else Some (true, s).
Definition dyn_scope_add_text (name : bytes) (start end_ : Z) : SM bool :=
  if end_ <=? start then sret true else and_then scope_grow (push (mkBinding name start end_ end_)).

(** ** The traversal *)
Variable text : bytes.
Variable tree : list ExpNode.

Definition node_at (id : Z) : SM ExpNode := slift (get_at tree id).
(** The bytes of a node, [None] when they are not in the text. *)
Definition node_text (n : ExpNode) : option bytes :=
  if (0 <=? n_start n) && (n_start n <=? n_end n) && (n_end n <=? Z.of_nat (length text))
  then Some (firstn (Z.to_nat (n_end n - n_start n)) (skipn (Z.to_nat (n_start n)) text)) else None.
Definition dyn_scope_compact_add (name start end_ : Z) : SM bool :=
  if name =? NONE then sret true
  else
    let! node := node_at name in
    if negb (n_kind node =? kind_code EXP_NAME) then sret true
    else let! t := slift (node_text node) in dyn_scope_add_text t start end_.

(** The first block among the siblings from [body] on: [None] when the budget
    ends. *)
Fixpoint find_block (fuel : nat) (body : Z) : SM (option Z) :=
  match fuel with
  | O => sundefined
  | S f =>
      if body =? NONE then sret (Some NONE)
      else
        let! ok := work_step 1 in
        if negb ok then sret None
        else
          let! n := node_at body in
          if n_kind n =? SRC_BLOCK then sret (Some body) else find_block f (n_next n)
  end.
Fixpoint unwrap_const (fuel : nat) (node : Z) : SM Z :=
  match fuel with
  | O => sundefined
  | S f =>
      if node =? NONE then sret NONE
      else let! n := node_at node in if n_kind n =? SRC_CONST then unwrap_const f (n_first n) else sret node
  end.
Fixpoint add_names (fuel : nat) (name start end_ : Z) : SM bool :=
  match fuel with
  | O => sundefined
  | S f =>
      if name =? NONE then sret true
      else
        and_then (work_step 1) (and_then (dyn_scope_compact_add name start end_)
          (let! n := node_at name in add_names f (n_next n) start end_))
  end.
(** The last of the siblings from [node] on: [None] when the budget ends. *)
Fixpoint last_sibling (fuel : nat) (node : Z) : SM (option Z) :=
  match fuel with
  | O => sundefined
  | S f =>
      if node =? NONE then sret (Some NONE)
      else
        let! n := node_at node in
        if n_next n =? NONE then sret (Some node)
        else let! ok := work_step 1 in if negb ok then sret None else last_sibling f (n_next n)
  end.

Inductive ScopeKind := BLOCK | FUNCTION | LOOP | ARM.
Definition scope_kind (kind : Z) : option ScopeKind :=
  if kind =? SRC_BLOCK then Some BLOCK else if kind =? SRC_FN then Some FUNCTION
  else if kind =? SRC_FOR then Some LOOP else if kind =? SRC_CASE_ARM then Some ARM else None.

(** What one child of a scope binds in [start, end). *)
Definition collect_child (fuel : nat) (k : ScopeKind) (child start end_ : Z) : SM bool :=
  let! n := node_at child in
  match k with
  | BLOCK =>
      let! node := unwrap_const fuel child in
      if node =? NONE then sret true
      else
        let! v := node_at node in
        if n_kind v =? SRC_VARIABLE then dyn_scope_compact_add (n_first v) (n_end n) end_ else sret true
  | FUNCTION =>
      if negb (n_kind n =? SRC_FN_PARAM) && negb (n_kind n =? SRC_VARIADIC_PARAM) then sret true
      else add_names fuel (n_first n) start end_
  | LOOP =>
      if (n_kind n =? SRC_FOR_CONDITION) && negb (Z.land (n_flags n) EXP_ITERATION =? 0)
      then dyn_scope_compact_add (n_first n) start end_ else sret true
  | ARM =>
      if n_kind n =? SRC_TYPE_PATTERN then
        let! node := last_sibling fuel (n_first n) in
        match node with None => sret false | Some node => dyn_scope_compact_add node start end_ end
      else dyn_scope_compact_add child start end_
  end.
Fixpoint collect_children (fuel : nat) (k : ScopeKind) (child start end_ : Z) : SM bool :=
  match fuel with
  | O => sundefined
  | S f =>
      if child =? NONE then sret true
      else
        and_then (work_step 1) (and_then (collect_child f k child start end_)
          (let! n := node_at child in collect_children f k (n_next n) start end_))
  end.
Definition dyn_scope_compact_collect (fuel : nat) (id : Z) : SM bool :=
  let! scope := node_at id in
  match scope_kind (n_kind scope) with
  | None => sret true
  | Some k =>
      match k with
      | BLOCK | FUNCTION => collect_children fuel k (n_first scope) (n_start scope) (n_end scope)
      | LOOP | ARM =>
          let! body := find_block fuel (n_first scope) in
          match body with
          | None => sret false
          | Some body =>
              if body =? NONE then sret true
              else let! b := node_at body in collect_children fuel k (n_first scope) (n_start b) (n_end b)
          end
      end
  end.

(** Up to an ancestor with a next sibling. *)
Fixpoint scope_up (fuel : nat) (node : Z) : SM Z :=
  match fuel with
  | O => sundefined
  | S f =>
      if node =? NONE then sret NONE
      else let! n := node_at node in if n_next n =? NONE then scope_up f (n_parent n) else sret node
  end.
Fixpoint dyn_scope_compact_build (fuel : nat) (node : Z) : SM bool :=
  match fuel with
  | O => sundefined
  | S f =>
      if node =? NONE then sret true
      else
        and_then (work_step 1) (and_then (dyn_scope_compact_collect f node)
          (let! n := node_at node in
           if (SRC_FILE <=? n_kind n) && negb (n_first n =? NONE) then dyn_scope_compact_build f (n_first n)
           else
             let! up := scope_up f node in
             if up =? NONE then sret true
             else let! n := node_at up in dyn_scope_compact_build f (n_next n)))
  end.
End Collect.

(** ** The finished index *)

(** The prefix maximum of the ends, over the entries of one name. *)
Fixpoint prefix_ends (previous : DynScopeBinding) (l : list DynScopeBinding) : list DynScopeBinding :=
  match l with
  | [] => []
  | b :: l' =>
      let b' := if (dyn_scope_name_compare (b_name previous) (b_name b) =? 0) && (b_prefix_end b <? b_prefix_end previous)
                then mkBinding (b_name b) (b_start b) (b_end b) (b_prefix_end previous) else b in
      b' :: prefix_ends b' l'
  end.
Definition dyn_scope_finish (qsort : list DynScopeBinding -> list DynScopeBinding) (l : list DynScopeBinding) : list DynScopeBinding :=
  match qsort l with
  | [] => []
  | b :: l' => b :: prefix_ends b l'
  end.
Definition dyn_scope_build {H : Host} (qsort : list DynScopeBinding -> list DynScopeBinding) (fuel : nat)
    (text : bytes) (tree : option (list ExpNode * Z)) (work : option DynWork) (world : World)
    : option (option (list DynScopeBinding) * option DynWork * World) :=
  match tree with
  | None => Some (None, work, world)
  | Some (nodes, root) =>
      let* (ok, s) := dyn_scope_compact_build text nodes fuel root (mkScopeSt [] 0 work world) in
      Some (if ok : bool then Some (dyn_scope_finish qsort (items s)) else None, sc_work s, sc_world s)
  end.

Definition dyn_scope_local_at (index : list DynScopeBinding) (byte : Z) (name : bytes) : option bool :=
  let less mid :=
    let* b := get_at index mid in
    let order := dyn_scope_name_compare (b_name b) name in
    Some ((order <? 0) || ((order =? 0) && (b_start b <=? byte))) in
  let* first := bsearch (S (length index)) less 0 (Z.of_nat (length index)) in
  if first =? 0 then Some false
  else
    let* b := get_at index (first - 1) in
    Some ((dyn_scope_name_compare (b_name b) name =? 0) && (byte <? b_prefix_end b)).

(** ** The order of names *)
Lemma name_compare_cons x a y b :
  dyn_scope_name_compare (x :: a) (y :: b) = if x <? y then -1 else if y <? x then 1 else dyn_scope_name_compare a b.
Proof.
  unfold dyn_scope_name_compare. cbn [length Nat.min memcmp]. destruct (x <? y); [done|]. destruct (y <? x); [done|]. done.
Qed.
Lemma name_compare_nil_l y b : dyn_scope_name_compare [] (y :: b) = -1.
Proof. done. Qed.
Lemma name_compare_nil_r x a : dyn_scope_name_compare (x :: a) [] = 1.
Proof. done. Qed.
Create Rewrite HintDb names.
#[local] Hint Rewrite name_compare_cons name_compare_nil_l name_compare_nil_r : names.

Lemma name_compare_eq a b : dyn_scope_name_compare a b = 0 <-> a = b.
Proof.
  revert b. induction a as [|x a IH]; intros [|y b]; autorewrite with names; try done.
  destruct (Z.ltb_spec x y); [split; [done|intros [= -> ->]; lia]|]. destruct (Z.ltb_spec y x); [split; [done|intros [= -> ->]; lia]|].
  rewrite IH. split; [intros ->; f_equal; lia|by intros [= -> ->]].
Qed.
Lemma name_compare_opp a b : dyn_scope_name_compare a b = - dyn_scope_name_compare b a.
Proof.
  revert b. induction a as [|x a IH]; intros [|y b]; autorewrite with names; try done.
  destruct (Z.ltb_spec x y), (Z.ltb_spec y x); try done; lia || auto.
Qed.
Lemma name_compare_trans a b c :
  dyn_scope_name_compare a b <= 0 -> dyn_scope_name_compare b c <= 0 ->
  dyn_scope_name_compare a c <= 0 /\ (dyn_scope_name_compare a b < 0 \/ dyn_scope_name_compare b c < 0 -> dyn_scope_name_compare a c < 0).
Proof.
  revert b c. induction a as [|x a IH]; intros [|y b] [|z c]; autorewrite with names; try lia.
  destruct (Z.ltb_spec x y), (Z.ltb_spec y x), (Z.ltb_spec y z), (Z.ltb_spec z y), (Z.ltb_spec x z), (Z.ltb_spec z x); try lia.
  apply IH.
Qed.

(** ** The lookup *)
Definition hit (byte : Z) (name : bytes) (b : DynScopeBinding) : bool :=
  bytes_eqb (b_name b) name && (b_start b <=? byte) && (byte <? b_end b).

Section Lookup.
Variable s : list DynScopeBinding.
Hypothesis Hends : Forall (fun b => b_prefix_end b = b_end b) s.
Hypothesis Hsorted : forall i j a b, (i < j)%nat -> s !! i = Some a -> s !! j = Some b -> dyn_scope_compare a b <= 0.
Definition finished : list DynScopeBinding := match s with [] => [] | b :: l => b :: prefix_ends b l end.

Lemma sorted_names i j a b :
  (i <= j)%nat -> s !! i = Some a -> s !! j = Some b ->
  dyn_scope_name_compare (b_name a) (b_name b) < 0 \/ (b_name a = b_name b /\ b_start a <= b_start b).
Proof.
  intros Hij Ha Hb. destruct (Nat.eq_dec i j) as [->|]; [simplify_eq; right; split; [done|lia]|].
  specialize (Hsorted i j a b ltac:(lia) Ha Hb). unfold dyn_scope_compare in Hsorted.
  destruct (Z.eqb_spec (dyn_scope_name_compare (b_name a) (b_name b)) 0) as [He|]; [|left; lia].
  right. split; [by apply name_compare_eq|]. destruct (Z.ltb_spec (b_start b) (b_start a)), (Z.ltb_spec (b_start a) (b_start b)); lia.
Qed.

Definition step (a b : DynScopeBinding) : DynScopeBinding :=
  if (dyn_scope_name_compare (b_name a) (b_name b) =? 0) && (b_prefix_end b <? b_prefix_end a)
  then mkBinding (b_name b) (b_start b) (b_end b) (b_prefix_end a) else b.
Lemma prefix_step prev l i a b :
  (prev :: prefix_ends prev l) !! i = Some a -> l !! i = Some b -> prefix_ends prev l !! i = Some (step a b).
Proof.
  revert prev i. induction l as [|c l IH]; intros prev [|i] Ha Hb; cbn in *; try done.
  - by simplify_eq.
  - by apply IH.
Qed.
Lemma finished_step i a b : finished !! i = Some a -> s !! S i = Some b -> finished !! S i = Some (step a b).
Proof. unfold finished. destruct s as [|c l]; [done|]. cbn. apply prefix_step. Qed.
Lemma finished_first b : s !! 0%nat = Some b -> finished !! 0%nat = Some b.
Proof. unfold finished. destruct s; [done|]. cbn. done. Qed.
Lemma step_fields a b : b_name (step a b) = b_name b /\ b_start (step a b) = b_start b.
Proof. unfold step. by split_if. Qed.

(** An entry's prefix end covers a byte when some entry of its name up to it
    ends after the byte. *)
Lemma prefix_covers i b :
  s !! i = Some b ->
  exists b', finished !! i = Some b' /\ b_name b' = b_name b /\ b_start b' = b_start b
    /\ forall byte, byte < b_prefix_end b' <->
                   exists j c, (j <= i)%nat /\ s !! j = Some c /\ b_name c = b_name b /\ byte < b_end c.
Proof.
  assert (Hend : forall k c, s !! k = Some c -> b_prefix_end c = b_end c)
    by (intros k c Hc; by apply (proj1 (Forall_lookup _ _) Hends k c)).
  revert b. induction i as [|i IH]; intros b Hb.
  - exists b. split; [by apply finished_first|]. split; [done|]. split; [done|]. intros byte. rewrite (Hend 0%nat b Hb).
    split; [intros; by exists 0%nat, b|]. intros (j & c & Hj & Hc & _ & Hbyte). replace j with 0%nat in Hc by lia. by simplify_eq.
  - destruct (lookup_lt_is_Some_2 s i) as [a Ha]; [apply lookup_lt_Some in Hb; lia|].
    destruct (IH a Ha) as (a' & Ha' & Hna & _ & Hcov). exists (step a' b). split; [by apply finished_step|].
    destruct (step_fields a' b) as [-> ->]. split; [done|]. split; [done|]. intros byte.
    assert (byte < b_prefix_end (step a' b) <-> byte < b_end b \/ (b_name a = b_name b /\ byte < b_prefix_end a')) as ->.
    { unfold step. rewrite (Hend (S i) b Hb). rewrite Hna.
      pose proof (name_compare_eq (b_name a) (b_name b)) as Hn.
      destruct (Z.eqb_spec (dyn_scope_name_compare (b_name a) (b_name b)) 0) as [He|He]; cbn [andb].
      - destruct (Z.ltb_spec (b_end b) (b_prefix_end a')); cbn [b_prefix_end]; rewrite ?(Hend (S i) b Hb); intuition lia.
      - rewrite (Hend (S i) b Hb). intuition. }
    rewrite Hcov. split.
    + intros [Hb'|(Hn & j & c & Hj & Hc & Hnc & Hbyte)]; [by exists (S i), b|]. exists j, c. split; [lia|]. split; [done|]. split; congruence.
    + intros (j & c & Hj & Hc & Hnc & Hbyte). destruct (Nat.eq_dec j (S i)) as [->|]; [left; by simplify_eq|]. right.
      assert (b_name a = b_name b) as Hab; [|split; [done|]; exists j, c; split; [lia|]; split; [done|]; split; [congruence|done]].
      destruct (sorted_names j i c a) as [Hlt|[He _]]; [lia|done|done| |congruence].
      destruct (sorted_names i (S i) a b) as [Hlt'|[He' _]]; [lia|done|done| |done].
      rewrite Hnc in Hlt. pose proof (name_compare_trans (b_name b) (b_name a) (b_name b)) as Ht.
      rewrite (proj2 (name_compare_eq (b_name b) (b_name b)) eq_refl) in Ht. lia.
Qed.

Lemma finished_length : length finished = length s.
Proof.
  clear Hends Hsorted. unfold finished. destruct s as [|b l]; [done|]. cbn [length]. f_equal. revert b.
  induction l as [|c l IH]; intros b; cbn [prefix_ends length]; [done|]. by rewrite IH.
Qed.

Variables (byte : Z) (name : bytes).
(** Whether an entry is at or before the byte, in the order of the index. *)
Definition before (b : DynScopeBinding) : bool :=
  let order := dyn_scope_name_compare (b_name b) name in (order <? 0) || ((order =? 0) && (b_start b <=? byte)).
Lemma before_iff b :
  before b = true <-> dyn_scope_name_compare (b_name b) name < 0 \/ (b_name b = name /\ b_start b <= byte).
Proof. unfold before. rewrite orb_true_iff, andb_true_iff, Z.ltb_lt, Z.eqb_eq, Z.leb_le, name_compare_eq. done. Qed.
Lemma before_mono i j a b : (i <= j)%nat -> s !! i = Some a -> s !! j = Some b -> before b = true -> before a = true.
Proof.
  intros Hij Ha Hb Hbef. apply before_iff in Hbef. apply before_iff.
  destruct (sorted_names i j a b Hij Ha Hb) as [Hlt|[He Hst]].
  - left. pose proof (name_compare_trans (b_name a) (b_name b) name) as Ht.
    assert (dyn_scope_name_compare (b_name b) name <= 0); [|lia].
    destruct Hbef as [|[-> _]]; [lia|]. by rewrite (proj2 (name_compare_eq name name) eq_refl).
  - rewrite He. destruct Hbef as [|[Hn Hb']]; [by left|]. right. split; [done|lia].
Qed.

Lemma local_at_finished : dyn_scope_local_at finished byte name = Some (existsb (hit byte name) s).
Proof.
  set (p := fun i => match s !! Z.to_nat i with Some b => before b | None => false end).
  unfold dyn_scope_local_at. cbv zeta. rewrite finished_length.
  destruct (bsearch_spec (fun mid => let* b := get_at finished mid in
              Some ((dyn_scope_name_compare (b_name b) name <? 0)
                    || ((dyn_scope_name_compare (b_name b) name =? 0) && (b_start b <=? byte)))) p (S (length s)) 0 (Z.of_nat (length s)))
    as (r & Hr & Hrr & Hlo & Hhi); [lia|lia| | |].
  - intros i Hi. destruct (lookup_lt_is_Some_2 s (Z.to_nat i)) as [b Hb]; [lia|].
    destruct (prefix_covers _ _ Hb) as (b' & Hb' & Hn & Hst & _).
    rewrite (proj2 (get_at_Some finished i b')) by (rewrite finished_length; split; [lia|done]).
    subst p. cbn beta. rewrite Hb. unfold before. by rewrite Hn, Hst.
  - intros i j Hij Hj. subst p. cbn beta. destruct (lookup_lt_is_Some_2 s (Z.to_nat i)) as [a Ha]; [lia|].
    destruct (lookup_lt_is_Some_2 s (Z.to_nat j)) as [b Hb]; [lia|]. rewrite Ha, Hb. eapply before_mono; [|done..]. lia.
  - rewrite Hr.
    assert (Hhit : forall j c, s !! j = Some c -> hit byte name c = true -> Z.of_nat j < r).
    { intros j c Hc Hh. unfold hit in Hh. to_prop. destruct Hh as [[Hn Hst] _].
      destruct (bytes_eqb_spec (b_name c) name) as [Heq|]; [|done].
      destruct (Z_lt_le_dec (Z.of_nat j) r) as [|Hge]; [done|]. apply lookup_lt_Some in Hc as Hlt.
      specialize (Hhi (Z.of_nat j) ltac:(lia)). subst p. cbn beta in Hhi. rewrite Nat2Z.id, Hc in Hhi.
      assert (before c = true) by (apply before_iff; by right). congruence. }
    destruct (Z.eqb_spec r 0) as [->|Hr0].
    { f_equal. symmetry. apply not_true_iff_false. rewrite existsb_exists. intros (c & Hin & Hh).
      apply list_elem_of_In, list_elem_of_lookup in Hin as [j Hj]. specialize (Hhit j c Hj Hh). lia. }
    destruct (lookup_lt_is_Some_2 s (Z.to_nat (r - 1))) as [b Hb]; [lia|].
    destruct (prefix_covers _ _ Hb) as (b' & Hb' & Hn & Hst & Hcov).
    rewrite (proj2 (get_at_Some finished (r - 1) b')) by (rewrite finished_length; split; [lia|done]).
    f_equal. rewrite Hn. apply eq_true_iff_eq. rewrite andb_true_iff, Z.eqb_eq, name_compare_eq, Z.ltb_lt, Hcov, existsb_exists.
    specialize (Hlo (r - 1) ltac:(lia)) as Hbef. subst p. cbn beta in Hbef, Hlo. rewrite Hb in Hbef. split.
    + intros (Hbn & j & c & Hj & Hc & Hcn & Hbyte). exists c. split; [apply list_elem_of_In; by eapply list_elem_of_lookup_2|].
      specialize (Hlo (Z.of_nat j) ltac:(lia)). rewrite Nat2Z.id, Hc in Hlo. apply before_iff in Hlo.
      unfold hit. rewrite Hcn, Hbn in *. destruct (bytes_eqb_spec name name); [|done]. cbn [andb].
      rewrite (proj2 (name_compare_eq name name) eq_refl) in Hlo. destruct Hlo as [|[_ Hle]]; [lia|]. by zb.
    + intros (c & Hin & Hh). apply list_elem_of_In, list_elem_of_lookup in Hin as [j Hj]. specialize (Hhit j c Hj Hh).
      unfold hit in Hh. to_prop. destruct Hh as [[Hcn Hcs] Hce]. destruct (bytes_eqb_spec (b_name c) name) as [Heq|]; [|done].
      assert (b_name b = name) as Hbn.
      { destruct (sorted_names j (Z.to_nat (r - 1)) c b) as [Hlt|[He _]]; [lia|done|done| |congruence].
        apply before_iff in Hbef as [Hlt'|[? _]]; [|done]. rewrite Heq in Hlt.
        pose proof (name_compare_trans name (b_name b) name) as Ht. rewrite (proj2 (name_compare_eq name name) eq_refl) in Ht. lia. }
      split; [done|]. exists j, c. split; [lia|]. split; [done|]. split; congruence.
Qed.
End Lookup.

(** The order of the index is total and transitive, so that sorting by it is
    well defined. *)
Definition scope_le (a b : DynScopeBinding) : Prop := dyn_scope_compare a b <= 0.
#[export] Instance scope_le_dec : RelDecision scope_le.
Proof. intros a b. unfold scope_le. apply _. Defined.
Lemma scope_le_iff a b :
  scope_le a b <-> dyn_scope_name_compare (b_name a) (b_name b) < 0 \/ (b_name a = b_name b /\ b_start a <= b_start b).
Proof.
  unfold scope_le, dyn_scope_compare. rewrite <- name_compare_eq.
  destruct (Z.eqb_spec (dyn_scope_name_compare (b_name a) (b_name b)) 0), (Z.ltb_spec (b_start b) (b_start a)), (Z.ltb_spec (b_start a) (b_start b)); lia.
Qed.
#[export] Instance scope_le_total : Total scope_le.
Proof.
  intros a b. rewrite !scope_le_iff. rewrite (name_compare_opp (b_name b) (b_name a)).
  pose proof (name_compare_eq (b_name a) (b_name b)) as He.
  destruct (Z.lt_trichotomy (dyn_scope_name_compare (b_name a) (b_name b)) 0) as [|[H0|]]; [lia| |lia].
  apply He in H0. destruct (Z.le_ge_cases (b_start a) (b_start b)); [left|right]; right; split; (congruence || lia).
Qed.
#[export] Instance scope_le_trans : Transitive scope_le.
Proof.
  intros a b c. rewrite !scope_le_iff. pose proof (name_compare_trans (b_name a) (b_name b) (b_name c)) as Ht.
  intros [H1|[H1 H1']] [H2|[H2 H2']].
  - left. lia.
  - left. by rewrite <- H2.
  - left. by rewrite H1.
  - right. split; [congruence|lia].
Qed.

(** The lookup in a finished index. *)
Lemma finish_lookup qsort l byte name :
  Permutation (qsort l) l -> StronglySorted scope_le (qsort l) ->
  Forall (fun b => b_prefix_end b = b_end b) l ->
  dyn_scope_local_at (dyn_scope_finish qsort l) byte name = Some (existsb (hit byte name) l).
Proof.
  intros Hperm Hsort Hends. change (dyn_scope_finish qsort l) with (finished (qsort l)). rewrite local_at_finished.
  - f_equal. apply eq_true_iff_eq. rewrite !existsb_exists. split; intros (b & Hin & Hh); exists b; split; try done.
    + by apply (Permutation_in b Hperm).
    + by apply (Permutation_in b (Permutation_sym Hperm)).
  - by rewrite Hperm.
  - intros i j a b Hij Ha Hb. apply (StronglySorted_app_1_elem_of scope_le (take (S i) (qsort l)) (drop (S i) (qsort l)) a b).
    + by rewrite take_drop.
    + apply list_elem_of_lookup. exists i. by rewrite lookup_take_lt by lia.
    + apply list_elem_of_lookup. exists (j - S i)%nat. rewrite lookup_drop. by replace (S i + (j - S i))%nat with j by lia.
Qed.

(** C34: A lookup in the scope index is exact. For any bindings collected, and
    any sort by the index's order, the binary search and the prefix maximum
    answer whether some binding of the name has an interval that contains the
    byte, without scanning the intervals and without reading outside the
    index. *)
Theorem scope_lookup_correct qsort l byte name :
  Permutation (qsort l) l -> StronglySorted scope_le (qsort l) ->
  Forall (fun b => b_prefix_end b = b_end b) l ->
  dyn_scope_local_at (dyn_scope_finish qsort l) byte name = Some (existsb (hit byte name) l).
Proof. apply finish_lookup. Qed.

Definition sample_bindings : list DynScopeBinding :=
  [mkBinding (str "x") 10 40 40; mkBinding (str "y") 12 40 40; mkBinding (str "x") 20 30 30; mkBinding (str "x") 50 60 60].
Lemma scope_lookup_correct_witness :
  dyn_scope_local_at (dyn_scope_finish (merge_sort scope_le) sample_bindings) 35 (str "x")
  = Some (existsb (hit 35 (str "x")) sample_bindings).
Proof.
  apply (scope_lookup_correct (merge_sort scope_le)).
  - apply merge_sort_Permutation.
  - apply StronglySorted_merge_sort; apply _.
  - repeat constructor.
Defined.

(** ** What the traversal collects *)
Section Invariant.
Context {H : Host}.
Variables (text : bytes) (tree : list ExpNode).

(** Bindings are not empty, not yet prefixed, and within the capacity. *)
Definition index_ok (s : ScopeSt) : Prop :=
  Forall (fun b => b_prefix_end b = b_end b /\ b_start b < b_end b) (items s)
  /\ 0 <= Z.of_nat (length (items s)) <= sc_capacity s.
Definition keeps {A} (m : SM A) : Prop := forall s r s', m s = Some (r, s') -> index_ok s -> index_ok s'.

Lemma keeps_ret {A} (a : A) : keeps (sret a).
Proof. by intros s r s' [= <- <-]. Qed.
Lemma keeps_undefined {A} : keeps (@sundefined _ A).
Proof. done. Qed.
Lemma keeps_lift {A} (o : option A) : keeps (slift o).
Proof. intros s r s'. unfold slift. destruct o; [by intros [= <- <-]|done]. Qed.
Lemma keeps_bind {A B} (m : SM A) (k : A -> SM B) : keeps m -> (forall a, keeps (k a)) -> keeps (sbind m k).
Proof.
  intros Hm Hk s r s'. unfold sbind. destruct (m s) as [[a s1]|] eqn:Hms; [|done]. intros Hks Hs.
  eapply Hk; [done|]. by eapply Hm.
Qed.
Lemma keeps_and c k : keeps c -> keeps k -> keeps (and_then c k).
Proof. intros Hc Hk. apply keeps_bind; [done|]. intros []; [done|apply keeps_ret]. Qed.
Lemma keeps_work units : keeps (work_step units).
Proof. intros s r s'. unfold work_step. destruct (dyn_work_step _ _ _) as [[ok w] world]. by intros [= <- <-]. Qed.

Lemma keeps_add_text name start end_ : keeps (dyn_scope_add_text name start end_).
Proof.
  unfold dyn_scope_add_text. destruct (Z.leb_spec end_ start) as [|Hlt]; [apply keeps_ret|].
  intros s r s'. unfold and_then, sbind. intros Hrun Hs.
  assert (forall ok s1, scope_grow s = Some (ok, s1) ->
            items s1 = items s /\ index_ok s1 /\ (ok = true -> Z.of_nat (length (items s1)) < sc_capacity s1)) as Hg.
  { intros ok s1. unfold scope_grow. destruct Hs as [Hf Hc].
    destruct (Z.eqb_spec (Z.of_nat (length (items s))) (sc_capacity s)) as [He|He].
    2: { intros [= <- <-]. split; [done|]. split; [done|lia]. }
    destruct (_ || _) eqn:Ho; [by intros [= <- <-]|]. to_prop. destruct Ho as [Ho _].
    destruct (allocate _ _) as [[] world]; intros [= <- <-]; (split; [done|]).
    - cbn [items sc_capacity]. assert (sc_capacity s < (if sc_capacity s =? 0 then 32 else u64 (sc_capacity s * 2))) as Hcap.
      { destruct (Z.eqb_spec (sc_capacity s) 0); [lia|]. unfold u64, wrap in *.
        destruct (Z.eq_dec (sc_capacity s) ((sc_capacity s * 2) mod 2 ^ 64)) as [Heq|]; [|lia].
        pose proof (Z.mod_pos_bound (sc_capacity s * 2) (2 ^ 64)). pose proof (Z.div_mod (sc_capacity s * 2) (2 ^ 64)). lia. }
      split; [|intros; lia]. split; [done|]. cbn. lia.
    - split; [by split|done]. }
  destruct (scope_grow s) as [[ok s1]|]; [|done]. destruct (Hg ok s1 eq_refl) as (Hi & [Hf Hc] & Hroom).
  destruct ok; [|injection Hrun as <- <-; by split]. unfold push in Hrun. injection Hrun as <- <-. specialize (Hroom eq_refl). split; cbn [items sc_capacity].
  - apply Forall_app. split; [done|]. by repeat constructor.
  - rewrite length_app. cbn. lia.
Qed.
Lemma keeps_add name start end_ : keeps (dyn_scope_compact_add text tree name start end_).
Proof.
  unfold dyn_scope_compact_add. destruct (_ =? _); [apply keeps_ret|]. apply keeps_bind; [apply keeps_lift|]. intros n.
  destruct (negb _); [apply keeps_ret|]. apply keeps_bind; [apply keeps_lift|]. intros t. apply keeps_add_text.
Qed.

(** Splits a traversal into the operations it is made of. *)
Ltac keep :=
  repeat first
    [ apply keeps_ret | apply keeps_undefined | apply keeps_lift | apply keeps_work | apply keeps_add | done
    | apply keeps_and | apply keeps_bind; [|intros ?] | split_if | split_match ].

Lemma keeps_find_block f body : keeps (find_block tree f body).
Proof. revert body. induction f as [|f IH]; intros body; cbn [find_block]; keep. Qed.
Lemma keeps_unwrap f node : keeps (unwrap_const tree f node).
Proof. revert node. induction f as [|f IH]; intros node; cbn [unwrap_const]; keep. Qed.
Lemma keeps_add_names f name start end_ : keeps (add_names text tree f name start end_).
Proof. revert name. induction f as [|f IH]; intros name; cbn [add_names]; keep. Qed.
Lemma keeps_last f node : keeps (last_sibling tree f node).
Proof. revert node. induction f as [|f IH]; intros node; cbn [last_sibling]; keep. Qed.
Lemma keeps_child f k child start end_ : keeps (collect_child text tree f k child start end_).
Proof.
  unfold collect_child. apply keeps_bind; [apply keeps_lift|]. intros n.
  destruct k; keep; auto using keeps_unwrap, keeps_add_names, keeps_last.
Qed.
Lemma keeps_children f k child start end_ : keeps (collect_children text tree f k child start end_).
Proof.
  revert child. induction f as [|f IH]; intros child; cbn [collect_children]; [keep|].
  destruct (_ =? _); [keep|]. apply keeps_and; [keep|]. apply keeps_and; [apply keeps_child|keep].
Qed.
Lemma keeps_up f node : keeps (scope_up tree f node).
Proof. revert node. induction f as [|f IH]; intros node; cbn [scope_up]; keep. Qed.
Lemma keeps_collect f id : keeps (dyn_scope_compact_collect text tree f id).
Proof.
  unfold dyn_scope_compact_collect. apply keeps_bind; [keep|]. intros n. destruct (scope_kind _) as [[]|]; [| | | |keep].
  1-2: apply keeps_children.
  all: apply keeps_bind; [apply keeps_find_block|]; intros [b|]; [|keep]; destruct (_ =? _); [keep|].
  all: apply keeps_bind; [keep|]; intros ?; apply keeps_children.
Qed.
Lemma keeps_build f node : keeps (dyn_scope_compact_build text tree f node).
Proof.
  revert node. induction f as [|f IH]; intros node; cbn [dyn_scope_compact_build]; [keep|].
  destruct (_ =? _); [keep|]. apply keeps_and; [keep|]. apply keeps_and; [apply keeps_collect|].
  apply keeps_bind; [keep|]. intros n. destruct (_ && _); [done|]. apply keeps_bind; [apply keeps_up|]. intros up. keep.
Qed.
End Invariant.

(** A built index answers for the bindings the traversal collected. *)
Lemma scope_build_lookup {H : Host} qsort fuel text tree work world index work' world' :
  (forall l, Permutation (qsort l) l /\ StronglySorted scope_le (qsort l)) ->
  dyn_scope_build qsort fuel text (Some tree) work world = Some (Some index, work', world') ->
  exists l, Forall (fun b => b_start b < b_end b) l
            /\ forall byte name, dyn_scope_local_at index byte name = Some (existsb (hit byte name) l).
Proof.
  intros Hq. unfold dyn_scope_build. destruct tree as [nodes root].
  destruct (dyn_scope_compact_build _ _ _ _ _) as [[ok s]|] eqn:Hb; [|done]. destruct ok; [|done]. intros [= <- _ _].
  destruct (keeps_build _ _ _ _ _ _ _ Hb) as [Hf _]; [by split|]. exists (items s). split; [eapply Forall_impl; [exact Hf|by intros b [_ ?]]|].
  intros byte name. destruct (Hq (items s)). apply finish_lookup; [done..|]. eapply Forall_impl; [exact Hf|by intros b [? _]].
Qed.
