(* ===== verification/Snapshot.v ===== *)
(** Immutable source snapshots (src/src/snapshot.c, src/src/snapshot.h):
    creation, which copies the text under the work budget it shares with the
    parser, and the reference count that threads share.

    The parser of whole files, [exp_parse_source_with_options], is a parameter
    of creation: it maps a text, a work limit and the world to a tree or an
    error. *)

From S2P Require Import Prelude Lexer Work.

Record ExpSyntaxError := mkSyntaxError { e_offset : Z; e_message : string; e_expected : option string }.
Record ExpSnapshotTree := mkView { v_nodes : list ExpNode; v_root : Z; v_errors : list ExpSyntaxError }.
Record ExpSnapshotError := mkError { se_kind : ExpError; se_message : option string; se_offset : Z; se_expected : option string }.
(** What the parser leaves in the tree's storage. *)
Record Parsed := mkParsed { p_view : ExpSnapshotTree; p_capacity : Z }.
Record ExpSnapshot := mkSnapshot { references : Z; sn_text : bytes; sn_view : ExpSnapshotTree }.

(** The size of the C structure on a 64-bit host. *)
Definition sizeof_ExpSnapshot : Z := 120.
Definition no_error : ExpSnapshotError := mkError EXP_OK None 0 None.
Definition snapshot_error (kind : ExpError) (message : string) (offset : Z) : ExpSnapshotError :=
  mkError kind (Some message) offset None.

Section Create.
Context {H : Host}.
Record CreateOptions := mkCreateOptions { c_max_work : Z; c_max_depth : Z; c_work : option (World -> Z -> bool * World); c_recover : bool }.
Variable exp_parse_source_with_options : bytes -> CreateOptions -> World -> res ExpSnapshotError Parsed * World.

Definition call_work (o : CreateOptions) (units : Z) (world : World) : bool * World :=
  match c_work o with Some f => f world units | None => (true, world) end.
Definition limit_error (offset : Z) : ExpSnapshotError := snapshot_error EXP_LIMIT_ERROR "parse work limit exceeded" (u32 offset).
Definition cancelled_error (offset : Z) : ExpSnapshotError :=
  snapshot_error EXP_CANCELLED "analysis work budget exceeded or cancelled" (u32 offset).
Definition memory_error : ExpSnapshotError := snapshot_error EXP_ALLOCATION_ERROR "out of memory" 0.

(** The copy in pieces of at most 1024 bytes, each charged before it is
    copied; [copied] is the text written so far. [None] is a loop that has not
    ended. *)
Fixpoint copy_text (fuel : nat) (o : CreateOptions) (text copied : bytes) (remaining : Z) (world : World)
    : option (res ExpSnapshotError (bytes * Z) * World) :=
  match fuel with
  | O => None
  | S f =>
      let offset := Z.of_nat (length copied) in
      let length_ := Z.of_nat (length text) in
      if offset <? length_ then
        let bytes_ := if 1024 <? length_ - offset then 1024 else length_ - offset in
        if remaining <? bytes_ then Some (Err (limit_error offset), world)
        else
          let '(ok, world) := call_work o bytes_ world in
          if negb ok then Some (Err (cancelled_error offset), world)
          else copy_text f o text (copied ++ firstn (Z.to_nat bytes_) (skipn (length copied) text)) (remaining - bytes_) world
      else Some (Ok (copied, remaining), world)
  end.

(** Gives the growth slack of the parser back. *)
Definition shrink (p : Parsed) (world : World) : bool * World :=
  let count := Z.of_nat (length (v_nodes (p_view p))) in
  if p_capacity p =? count then (true, world) else allocate world (count * 32).

Definition exp_snapshot_create (text : bytes) (options : option CreateOptions) (world : World)
    : option (res ExpSnapshotError ExpSnapshot * World) :=
  let length_ := Z.of_nat (length text) in
  if UINT32_MAX <? length_ then Some (Err (snapshot_error EXP_LIMIT_ERROR "invalid source or source too large" 0), world)
  else
    let o := match options with Some o => o | None => mkCreateOptions 0 0 None false end in
    let remaining := if c_max_work o =? 0 then length_ * 128 + 1024 else c_max_work o in
    let '(ok, world) := call_work o 0 world in
    if negb ok then Some (Err (cancelled_error 0), world)
    else if remaining <? length_ then Some (Err (limit_error 0), world)
    else
      let '(ok, world) := allocate world sizeof_ExpSnapshot in
      if negb ok then Some (Err memory_error, world)
      else
        let '(ok, world) := allocate world (length_ + 1) in
        if negb ok then Some (Err memory_error, world)
        else
          let* (r, world) := copy_text (S (length text)) o text [] remaining world in
          match r with
          | Err e => Some (Err e, world)
          | Ok (copied, remaining) =>
              if remaining =? 0 then Some (Err (limit_error length_), world)
              else
                let '(r, world) := exp_parse_source_with_options copied (mkCreateOptions remaining (c_max_depth o) (c_work o) (c_recover o)) world in
                match r with
                | Err e => Some (Err e, world)
                | Ok p =>
                    let '(ok, world) := shrink p world in
                    if negb ok then Some (Err memory_error, world) else Some (Ok (mkSnapshot 1 copied (p_view p)), world)
                end
          end.

(** A snapshot of a tree the caller built. *)
Definition exp_snapshot_adopt (text : bytes) (nodes : list ExpNode) (root : Z) (world : World) : option ExpSnapshot * World :=
  let length_ := Z.of_nat (length text) in
  if negb (length_ <? UINT32_MAX) then (None, world)
  else
    let '(ok, world) := allocate world sizeof_ExpSnapshot in
    if negb ok then (None, world)
    else
      let '(ok, world) := allocate world (length_ + 1) in
      if negb ok then (None, world) else (Some (mkSnapshot 1 text (mkView nodes root [])), world).

(** Copying is total, and what it copies is the text. *)
Lemma copy_text_spec fuel o text copied remaining world :
  (length text - length copied < fuel)%nat -> (exists rest, text = copied ++ rest) -> 0 <= remaining ->
  exists r world', copy_text fuel o text copied remaining world = Some (r, world')
    /\ match r with
       | Ok (c, left_) => c = text /\ 0 <= left_ /\ left_ = remaining - Z.of_nat (length text - length copied)
       | Err e => se_kind e = EXP_LIMIT_ERROR \/ se_kind e = EXP_CANCELLED
       end.
Proof.
  revert copied remaining world. induction fuel as [|f IH]; intros copied remaining world Hf [rest Hrest] Hr; [lia|].
  cbn [copy_text]. cbv zeta. subst text. rewrite length_app in *. destruct (Z.ltb_spec (Z.of_nat (length copied)) (Z.of_nat (length copied + length rest))) as [Hlt|Hge].
  2: { exists (Ok (copied, remaining)), world. destruct rest; [|cbn in Hge; lia]. rewrite app_nil_r.
       cbn [length]. split; [done|]. split; [done|]. split; [done|]. lia. }
  set (n := if 1024 <? _ then _ else _). assert (1 <= n <= Z.of_nat (length rest)) as Hn.
  { subst n. destruct (Z.ltb_spec 1024 (Z.of_nat (length copied + length rest) - Z.of_nat (length copied))); lia. }
  destruct (Z.ltb_spec remaining n); [eexists _, _; split; [done|]; by left|].
  destruct (call_work o n world) as [[] world1]; cbn [negb]; [|eexists _, _; split; [done|]; by right].
  rewrite drop_app_length. destruct (IH (copied ++ firstn (Z.to_nat n) rest) (remaining - n) world1) as (r & w & Hr' & Hs).
  - rewrite length_app, length_firstn. lia.
  - exists (skipn (Z.to_nat n) rest). rewrite <- app_assoc. by rewrite firstn_skipn.
  - lia.
  - exists r, w. split; [done|]. destruct r as [[c l]|]; [|done]. rewrite length_app, length_firstn in Hs.
    destruct Hs as (Hc & Hl & Hleft). split; [done|]. split; [done|]. lia.
Qed.

(** The outcome of a creation. *)
Lemma create_spec text options world :
  (forall t o w e w', exp_parse_source_with_options t o w = (Err e, w') -> se_kind e <> EXP_OK) ->
  let o := match options with Some o => o | None => mkCreateOptions 0 0 None false end in
  0 <= c_max_work o ->
  let limit := if c_max_work o =? 0 then Z.of_nat (length text) * 128 + 1024 else c_max_work o in
  exists r world', exp_snapshot_create text options world = Some (r, world')
    /\ match r with
       | Err e => se_kind e <> EXP_OK
       | Ok s =>
           references s = 1 /\ sn_text s = text
           /\ exists p w w', exp_parse_source_with_options text
                               (mkCreateOptions (limit - Z.of_nat (length text)) (c_max_depth o) (c_work o) (c_recover o)) w = (Ok p, w')
                           /\ sn_view s = p_view p /\ 0 < limit - Z.of_nat (length text)
       end.
Proof.
  intros Hparse o Hmax limit. unfold exp_snapshot_create. fold o. cbv zeta. fold limit.
  destruct (Z.ltb_spec UINT32_MAX (Z.of_nat (length text))); [by eexists _, _|].
  destruct (call_work o 0 world) as [[] w1]; cbn [negb]; [|by eexists _, _].
  destruct (Z.ltb_spec limit (Z.of_nat (length text))) as [|Hlim]; [by eexists _, _|].
  destruct (allocate w1 sizeof_ExpSnapshot) as [[] w2]; cbn [negb]; [|by eexists _, _].
  destruct (allocate w2 _) as [[] w3]; cbn [negb]; [|by eexists _, _].
  destruct (copy_text_spec (S (length text)) o text [] limit w3) as (r & w4 & -> & Hr);
    [cbn; lia|by exists text|subst limit; lia|].
  destruct r as [[copied left_]|e]; [|eexists _, _; split; [done|]; by destruct Hr as [-> | ->]].
  destruct Hr as (-> & Hl & Hleft). cbn [length] in Hleft. rewrite Nat.sub_0_r in Hleft.
  destruct (Z.eqb_spec left_ 0); [by eexists _, _|]. subst left_.
  destruct (exp_parse_source_with_options text _ w4) as [[p|e] w5] eqn:Hp; [|eexists _, _; split; [done|]; by eapply Hparse].
  destruct (shrink p w5) as [[] w6]; cbn [negb]; [|by eexists _, _].
  eexists _, _. split; [done|]. split; [done|]. split; [done|]. eexists p, w4, w5. split; [done|]. split; [done|]. lia.
Qed.

(** Creating a snapshot is total, and charges the text against the limit
    it shares with the parser. It returns an error, of a kind other than OK
    (given that the parser's own errors are), or a snapshot with one reference
    whose text is exactly the source and whose tree is the one the parser gave
    for that text with the work that was left: the limit less one unit per byte,
    and never zero, which the parser would read as no limit. *)
Theorem snapshot_create_correct text options world :
  (forall t o w e w', exp_parse_source_with_options t o w = (Err e, w') -> se_kind e <> EXP_OK) ->
  let o := match options with Some o => o | None => mkCreateOptions 0 0 None false end in
  0 <= c_max_work o ->
  let limit := if c_max_work o =? 0 then Z.of_nat (length text) * 128 + 1024 else c_max_work o in
  exists r world', exp_snapshot_create text options world = Some (r, world')
    /\ match r with
       | Err e => se_kind e <> EXP_OK
       | Ok s =>
           references s = 1 /\ sn_text s = text
           /\ exists p w w', exp_parse_source_with_options text
                               (mkCreateOptions (limit - Z.of_nat (length text)) (c_max_depth o) (c_work o) (c_recover o)) w = (Ok p, w')
                           /\ sn_view s = p_view p /\ 0 < limit - Z.of_nat (length text)
       end.
Proof. apply create_spec. Qed.
End Create.

#[local] Instance quiet_host : Host := {| World := unit; cancelled := None; clock w := (0, w); allocate w _ := (true, w) |}.
Definition leaf_parser (t : bytes) (o : CreateOptions) (w : World) : res ExpSnapshotError Parsed * World :=
  (Ok (mkParsed (mkView [mkNode 0 (Z.of_nat (length t)) NONE NONE 0 NONE 1000 0 0 0] 0 []) 4), w).
Lemma snapshot_create_correct_witness :
  exists r world', exp_snapshot_create leaf_parser (str "fn f() {}") None tt = Some (r, world')
    /\ match r with
       | Err e => se_kind e <> EXP_OK
       | Ok s =>
           references s = 1 /\ sn_text s = str "fn f() {}"
           /\ exists p w w', leaf_parser (str "fn f() {}") (mkCreateOptions (9 * 128 + 1024 - 9) 0 None false) w = (Ok p, w')
                             /\ sn_view s = p_view p /\ 0 < 9 * 128 + 1024 - 9
       end.
Proof. apply (snapshot_create_correct leaf_parser (str "fn f() {}") None tt); [done | cbn; lia]. Defined.

(** ** The reference count under concurrency

    Threads retain and release references of one snapshot. A thread owns a
    number of references; [Retaining] is a thread inside
    [exp_snapshot_retain] that has read the count [seen]. Each atomic operation
    of the C code is one step; a weak exchange may fail for no reason. *)
Definition SIZE_MAX_ : Z := 2 ^ 64 - 1.
Inductive Thread := Idle (owned : nat) | Retaining (owned : nat) (seen : Z).
Record Shared := mkShared { counter : Z; freed : bool; threads : list Thread }.

Definition owned (t : Thread) : Z := match t with Idle n | Retaining n _ => Z.of_nat n end.
Definition total_owned (l : list Thread) : Z := fold_right (fun t n => owned t + n) 0 l.

Inductive step : Shared -> Shared -> Prop :=
(** [atomic_load]: a thread that owns a reference starts to retain. *)
| step_load c fr ts i n :
    ts !! i = Some (Idle (S n)) -> step (mkShared c fr ts) (mkShared c fr (<[i := Retaining (S n) c]> ts))
(** The loop ends without a reference at 0 and at SIZE_MAX. *)
| step_refuse c fr ts i n seen :
    ts !! i = Some (Retaining n seen) -> seen = 0 \/ seen = SIZE_MAX_ ->
    step (mkShared c fr ts) (mkShared c fr (<[i := Idle n]> ts))
(** [atomic_compare_exchange_weak] succeeds, or reads the count again. *)
| step_exchange c fr ts i n seen :
    ts !! i = Some (Retaining n seen) -> seen <> 0 -> seen <> SIZE_MAX_ -> c = seen ->
    step (mkShared c fr ts) (mkShared (seen + 1) fr (<[i := Idle (S n)]> ts))
| step_reload c fr ts i n seen :
    ts !! i = Some (Retaining n seen) -> seen <> 0 -> seen <> SIZE_MAX_ ->
    step (mkShared c fr ts) (mkShared c fr (<[i := Retaining n c]> ts))
(** [atomic_fetch_sub]; the last reference frees the snapshot. *)
| step_release c fr ts i n :
    ts !! i = Some (Idle (S n)) ->
    step (mkShared c fr ts) (mkShared (u64 (c - 1)) (fr || (c =? 1)) (<[i := Idle n]> ts))
(** A thread hands a reference to another. *)
| step_hand c fr ts i j n m :
    ts !! i = Some (Idle (S n)) -> ts !! j = Some (Idle m) -> i <> j ->
    step (mkShared c fr ts) (mkShared c fr (<[j := Idle (S m)]> (<[i := Idle n]> ts))).
(** The accesses of a step to the snapshot's memory: everything a retain or a
    release does while the thread runs it. *)
Inductive accesses : Shared -> nat -> Prop :=
| access_load s i n : threads s !! i = Some (Idle (S n)) -> accesses s i
| access_loop s i n seen : threads s !! i = Some (Retaining n seen) -> accesses s i.

(** A new snapshot: one thread owns its only reference. *)
Inductive reachable : Shared -> Prop :=
| reach_new ts i : ts !! i = Some (Idle 1) -> (forall j, j <> i -> ts !! j = None \/ ts !! j = Some (Idle 0)) ->
    reachable (mkShared 1 false ts)
| reach_step s s' : reachable s -> step s s' -> reachable s'.

Lemma owned_nonneg t : 0 <= owned t.
Proof. destruct t; cbn; lia. Qed.
Lemma total_cons t l : total_owned (t :: l) = owned t + total_owned l.
Proof. done. Qed.
Lemma total_nonneg l : 0 <= total_owned l.
Proof. induction l as [|t l IH]; [done|]. rewrite total_cons. pose proof (owned_nonneg t). lia. Qed.
Lemma total_insert l i t u :
  l !! i = Some t -> total_owned (<[i := u]> l) = total_owned l - owned t + owned u.
Proof.
  revert i. induction l as [|x l IH]; intros [|i] Hi; try done.
  - cbn in Hi. simplify_eq. change (<[0%nat := u]> (t :: l)) with (u :: l). rewrite !total_cons. lia.
  - cbn in Hi. change (<[S i := u]> (x :: l)) with (x :: <[i := u]> l). rewrite !total_cons, (IH i Hi). lia.
Qed.
Lemma total_lookup l i t : l !! i = Some t -> owned t <= total_owned l.
Proof.
  revert i. induction l as [|x l IH]; intros [|i] Hi; try done; cbn in Hi; rewrite total_cons.
  - simplify_eq. pose proof (total_nonneg l). lia.
  - pose proof (IH i Hi). pose proof (owned_nonneg x). lia.
Qed.

(** The invariant: the count is the number of owned references, the snapshot
    is freed exactly when there are none, and a thread inside retain owns one. *)
Definition sound_count (s : Shared) : Prop :=
  counter s = total_owned (threads s) /\ counter s <= SIZE_MAX_ /\ freed s = (counter s =? 0)
  /\ forall i n seen, threads s !! i = Some (Retaining n seen) -> (0 < n)%nat.

Lemma total_single ts i :
  ts !! i = Some (Idle 1) -> (forall j, j <> i -> ts !! j = None \/ ts !! j = Some (Idle 0)) -> total_owned ts = 1.
Proof.
  assert (forall l, (forall j, l !! j = None \/ l !! j = Some (Idle 0)) -> total_owned l = 0) as Hz.
  { induction l as [|x l IH]; intros Hl; [done|]. rewrite total_cons, IH by (intros j; apply (Hl (S j))).
    destruct (Hl 0%nat) as [?|Hx]; [done|]. cbn in Hx. by simplify_eq. }
  revert i. induction ts as [|x ts IH]; intros [|i] Hi Hj; try done; cbn in Hi; rewrite total_cons.
  - simplify_eq. rewrite Hz; [done|]. intros j. apply (Hj (S j)). lia.
  - rewrite (IH i Hi) by (intros j Hne; apply (Hj (S j)); lia).
    destruct (Hj 0%nat) as [?|Hx]; [lia|done|]. cbn in Hx. by simplify_eq.
Qed.

Lemma step_sound s s' : sound_count s -> step s s' -> sound_count s'.
Proof.
  intros (Hc & Hm & Hf & Hr). destruct 1 as [c fr ts i n Hi|c fr ts i n seen Hi Hs|c fr ts i n seen Hi H0 Hmax ->|c fr ts i n seen Hi H0 Hmax|c fr ts i n Hi|c fr ts i j n m Hi Hj Hne].
  all: unfold sound_count in *; cbn [counter freed threads] in *.
  all: assert (Hkeep : forall t, (forall k seen, t = Retaining k seen -> (0 < k)%nat) ->
         forall j k seen, <[i := t]> ts !! j = Some (Retaining k seen) -> (0 < k)%nat)
       by (intros t Ht j0 k sn Hj'; apply list_lookup_insert_Some in Hj' as [(_ & Heq & _)|[_ Hj']]; [by eapply Ht|by eapply Hr]).
  - rewrite (total_insert ts i _ _ Hi). cbn [owned]. split; [lia|]. split; [done|]. split; [done|].
    apply Hkeep. intros ? ? [= <- <-]. lia.
  - rewrite (total_insert ts i _ _ Hi). cbn [owned]. split; [lia|]. split; [done|]. split; [done|]. by apply Hkeep.
  - rewrite (total_insert ts i _ _ Hi). cbn [owned]. split; [lia|]. split; [lia|]. split; [|by apply Hkeep].
    pose proof (total_nonneg ts). rewrite Hf. zb. by zb.
  - rewrite (total_insert ts i _ _ Hi). cbn [owned]. split; [lia|]. split; [done|]. split; [done|].
    apply Hkeep. intros ? ? [= <- <-]. by eapply Hr.
  - rewrite (total_insert ts i _ _ Hi). cbn [owned]. pose proof (total_lookup _ _ _ Hi) as Ho. cbn [owned] in Ho.
    unfold SIZE_MAX_ in *. rewrite u64_small by lia. split; [lia|]. split; [lia|]. split; [|by apply Hkeep].
    rewrite Hf. destruct (Z.eqb_spec c 0), (Z.eqb_spec c 1), (Z.eqb_spec (c - 1) 0); lia || done.
  - rewrite (total_insert _ j (Idle m)) by (by rewrite list_lookup_insert_ne).
    rewrite (total_insert ts i _ _ Hi). cbn [owned]. split; [lia|]. split; [done|]. split; [done|].
    intros j' k sn Hj'. apply list_lookup_insert_Some in Hj' as [(_ & Heq & _)|[_ Hj']]; [done|]. by eapply (Hkeep (Idle n)).
Qed.
Lemma reachable_sound s : reachable s -> sound_count s.
Proof.
  induction 1 as [ts i Hi Hj|s s' _ IH Hs]; [|by eapply step_sound].
  unfold sound_count. cbn [counter freed threads]. rewrite (total_single ts i) by done. repeat split; [unfold SIZE_MAX_; lia|].
  intros k n seen Hk. destruct (Nat.eq_dec k i) as [->|Hne]; [by simplify_eq|]. destruct (Hj k Hne); by simplify_eq.
Qed.

(** C33: the reference count is safe under every interleaving of atomic
    operations. In every reachable state the count is the number of references
    the threads own, it never exceeds SIZE_MAX, and the snapshot has been freed
    exactly when no reference is left: so a retain or release never touches a
    freed snapshot, a retain never revives one, and it is freed only once, by
    the release that ends the last reference. *)
Theorem references_safe s :
  reachable s ->
  counter s = total_owned (threads s) /\ counter s <= SIZE_MAX_ /\ (freed s = true <-> total_owned (threads s) = 0)
  /\ (forall i, accesses s i -> freed s = false)
  /\ (forall s', step s s' -> freed s = true -> freed s' = true /\ counter s' = 0).
Proof.
  intros Hr. pose proof (reachable_sound s Hr) as (Hc & Hm & Hf & Hret).
  assert (Hacc : forall i t, threads s !! i = Some t -> 0 < owned t -> freed s = false).
  { intros i t Hi Ho. apply total_lookup in Hi. rewrite Hf. apply Z.eqb_neq. lia. }
  split; [done|]. split; [done|]. split; [rewrite Hf, Z.eqb_eq; lia|]. split.
  - intros i Ha. destruct Ha as [s i n Hi|s i n seen Hi]; apply (Hacc i _ Hi); cbn [owned]; [lia|]. apply Hret in Hi. lia.
  - intros s' Hs Hfr. assert (sound_count s') as (Hc' & _ & Hf' & _) by (eapply step_sound; [by repeat split|done]).
    assert (counter s = 0) as H0 by (rewrite Hf, Z.eqb_eq in Hfr; done).
    destruct Hs as [c fr ts i n Hi|c fr ts i n seen Hi Hs|c fr ts i n seen Hi Hz Hmax ->|c fr ts i n seen Hi Hz Hmax|c fr ts i n Hi|c fr ts i j n m Hi Hj Hne];
      cbn [counter freed threads] in *; try done; specialize (Hacc i _ Hi); cbn [owned] in Hacc.
    rewrite Hacc in Hfr by lia. done.
Qed.
Lemma references_safe_witness :
  let s := mkShared 1 false [Idle 1; Idle 0] in
  counter s = total_owned (threads s) /\ counter s <= SIZE_MAX_ /\ (freed s = true <-> total_owned (threads s) = 0)
  /\ (forall i, accesses s i -> freed s = false)
  /\ (forall s', step s s' -> freed s = true -> freed s' = true /\ counter s' = 0).
Proof.
  apply (references_safe (mkShared 1 false [Idle 1; Idle 0])). apply (reach_new _ 0); [reflexivity|].
  intros [|[|j]] Hj; [done|right; reflexivity|left; reflexivity].
Defined.
