(* ===== verification/SyntaxCache.v ===== *)
(** The cache of parsed sources (src/src/source_tree.c, src/src/dyn.h): a
    bounded list of snapshots in order of use, shared by reference count.

    Snapshots live in a heap, by identity; using one that is not there is an
    access to freed memory, and [None]. The release of import-rewritten
    revisions is not modelled. *)

From S2P Require Import Prelude Lexer Work Snapshot.

Definition DYN_SYNTAX_CACHE_ENTRIES : Z := 4096.
Definition DYN_SYNTAX_CACHE_BYTES : Z := 128 * 1024 * 1024.
Definition sizeof_DynSyntaxCacheEntry : Z := 48.
Definition sizeof_ExpSyntaxError : Z := 24.

Record DynSyntaxCacheEntry := mkEntry { en_path : bytes; en_text : bytes; en_charge : Z; en_snapshot : Z }.
Record DynSyntaxCache := mkCache {
  entries : list DynSyntaxCacheEntry; cc_count : Z; cc_bytes : Z; hits : Z; misses : Z; entry_limit : Z; byte_limit : Z }.
Definition set_entries (l : list DynSyntaxCacheEntry) (count bytes_ : Z) (c : DynSyntaxCache) : DynSyntaxCache :=
  mkCache l count bytes_ (hits c) (misses c) (entry_limit c) (byte_limit c).

Abbreviation Heap := (gmap Z ExpSnapshot).

(** ** References of the heap *)
Definition exp_snapshot_retain (id : Z) (h : Heap) : option (bool * Heap) :=
  match h !! id with
  | None => None
  | Some s =>
      if negb (references s =? 0) && negb (references s =? SIZE_MAX_)
      then Some (true, <[id := mkSnapshot (references s + 1) (sn_text s) (sn_view s)]> h) else Some (false, h)
  end.
Definition exp_snapshot_release (id : Z) (h : Heap) : option Heap :=
  match h !! id with
  | None => None
  | Some s =>
      if negb (references s =? 1) then Some (<[id := mkSnapshot (u64 (references s - 1)) (sn_text s) (sn_view s)]> h)
      else Some (delete id h)
  end.

(** ** The cache *)

(** Drops the entry at position [i]. *)
Definition syntax_cache_drop (c : DynSyntaxCache) (i : nat) (h : Heap) : option (DynSyntaxCache * Heap) :=
  match entries c !! i with
  | None => None
  | Some e =>
      let* h := exp_snapshot_release (en_snapshot e) h in
      Some (set_entries (delete i (entries c)) (u64 (cc_count c - 1)) (u64 (cc_bytes c - en_charge e)) c, h)
  end.
Fixpoint clear_entries (fuel : nat) (c : DynSyntaxCache) (h : Heap) : option (DynSyntaxCache * Heap) :=
  match entries c, fuel with
  | [], _ => Some (c, h)
  | _ :: _, O => None
  | _ :: _, S f => let* (c, h) := syntax_cache_drop c 0 h in clear_entries f c h
  end.
Definition dyn_syntax_cache_clear (c : DynSyntaxCache) (h : Heap) : option (DynSyntaxCache * Heap) :=
  clear_entries (length (entries c)) c h.

Definition limit_of (c : DynSyntaxCache) : Z := if byte_limit c =? 0 then DYN_SYNTAX_CACHE_BYTES else byte_limit c.
Definition entries_of (c : DynSyntaxCache) : Z := if entry_limit c =? 0 then DYN_SYNTAX_CACHE_ENTRIES else entry_limit c.

(** The charge of a source and its snapshot: [None] when it does not fit. *)
Definition cache_charge (limit : Z) (path text : bytes) (v : ExpSnapshotTree) : option Z :=
  let length_ := Z.of_nat (length text) in
  let path_bytes := Z.of_nat (length path) + 1 in
  let count := Z.of_nat (length (v_nodes v)) in
  let charge := u64 (2 * (length_ + 1) + sizeof_DynSyntaxCacheEntry) in
  if (limit <? length_) || (limit <? charge) || (limit - charge <? path_bytes) then None
  else
    let charge := charge + path_bytes in
    if (limit - charge) / 32 <? count then None
    else
      let charge := u64 (charge + count * 32 + Z.of_nat (length (v_errors v)) * sizeof_ExpSyntaxError) in
      if limit <? charge then None else Some charge.

(** Drops the least recently used entries until there is room. *)
Fixpoint evict (fuel : nat) (limit max charge : Z) (c : DynSyntaxCache) (h : Heap) : option (DynSyntaxCache * Heap) :=
  match entries c with
  | [] => Some (c, h)
  | _ :: _ =>
      if (max <=? cc_count c) || (u64 (limit - cc_bytes c) <? charge) then
        match fuel with
        | O => None
        | S f => let* (c, h) := syntax_cache_drop c (pred (length (entries c))) h in evict f limit max charge c h
        end
      else Some (c, h)
  end.

Section Cache.
Context {H : Host}.

Definition syntax_cache_store (c : DynSyntaxCache) (path text : bytes) (id : Z) (h : Heap) (world : World)
    : option (DynSyntaxCache * Heap * World) :=
  let limit := limit_of c in
  let* s := h !! id in
  match cache_charge limit path text (sn_view s) with
  | None => Some (c, h, world)
  | Some charge =>
      let '(ok, world) := allocate world sizeof_DynSyntaxCacheEntry in
      if negb ok then Some (c, h, world)
      else
        let '(path_ok, world) := allocate world (Z.of_nat (length path) + 1) in
        let '(text_ok, world) := allocate world (Z.of_nat (length text) + 1) in
        if negb (path_ok && text_ok) then Some (c, h, world)
        else
          let* (kept, h) := exp_snapshot_retain id h in
          if negb kept then Some (c, h, world)
          else
            let* (c, h) := evict (length (entries c)) limit (entries_of c) charge c h in
            Some (set_entries (mkEntry path text charge id :: entries c) (u64 (cc_count c + 1)) (u64 (cc_bytes c + charge)) c, h, world)
  end.

(** The first entry of a path. *)
Fixpoint find_entry (l : list DynSyntaxCacheEntry) (path : bytes) (i : nat) : option (nat * DynSyntaxCacheEntry) :=
  match l with
  | [] => None
  | e :: l' => if bytes_eqb (en_path e) path then Some (i, e) else find_entry l' path (S i)
  end.
Definition count_hit (c : DynSyntaxCache) : DynSyntaxCache :=
  mkCache (entries c) (cc_count c) (cc_bytes c) (u64 (hits c + 1)) (misses c) (entry_limit c) (byte_limit c).
Definition count_miss (c : DynSyntaxCache) : DynSyntaxCache :=
  mkCache (entries c) (cc_count c) (cc_bytes c) (hits c) (u64 (misses c + 1)) (entry_limit c) (byte_limit c).

(** The look-up: a snapshot with a new reference, or a miss that drops the
    stale entry. *)
Definition cache_find (c : DynSyntaxCache) (path text : bytes) (h : Heap) : option (option Z * DynSyntaxCache * Heap) :=
  match find_entry (entries c) path 0 with
  | None => Some (None, count_miss c, h)
  | Some (i, e) =>
      let* (hit, h) := (if bytes_eqb (en_text e) text then exp_snapshot_retain (en_snapshot e) h else Some (false, h)) in
      if hit : bool then
        Some (Some (en_snapshot e), count_hit (set_entries (e :: delete i (entries c)) (cc_count c) (cc_bytes c) c), h)
      else let* (c, h) := syntax_cache_drop c i h in Some (None, count_miss c, h)
  end.

Variable exp_parse_source_with_options : bytes -> CreateOptions -> World -> res ExpSnapshotError Parsed * World.

(** Parses a source through the cache, if there is one; [next] is an identity
    no snapshot has had. *)
Definition source_parse (cache : option DynSyntaxCache) (path text : bytes) (work : option (World -> Z -> bool * World))
    (next : Z) (h : Heap) (world : World) : option (res ExpSnapshotError Z * option DynSyntaxCache * Heap * World) :=
  let create cache h world :=
    let* (r, world) := exp_snapshot_create exp_parse_source_with_options text (Some (mkCreateOptions 0 0 work true)) world in
    match r with
    | Err e => Some (Err e, cache, h, world)
    | Ok s =>
        let h := <[next := s]> h in
        match cache with
        | None => Some (Ok next, None, h, world)
        | Some c => let* (c, h, world) := syntax_cache_store c path text next h world in Some (Ok next, Some c, h, world)
        end
    end in
  match cache with
  | None => create None h world
  | Some c =>
      let* (found, c, h) := cache_find c path text h in
      match found with
      | Some id => Some (Ok id, Some c, h, world)
      | None => create (Some c) h world
      end
  end.
End Cache.

(** ** Ownership *)
Fixpoint sum_by {A} (f : A -> Z) (l : list A) : Z := match l with [] => 0 | x :: l' => f x + sum_by f l' end.
Lemma sum_by_delete {A} (f : A -> Z) l i x : l !! i = Some x -> sum_by f (delete i l) = sum_by f l - f x.
Proof.
  revert i. induction l as [|y l IH]; intros [|i] Hi; try done; cbn in Hi.
  - simplify_eq. change (delete 0%nat (x :: l)) with l. cbn. lia.
  - change (delete (S i) (y :: l)) with (y :: delete i l). cbn [sum_by]. rewrite (IH i Hi). lia.
Qed.
Lemma sum_by_nonneg {A} (f : A -> Z) l : (forall x, In x l -> 0 <= f x) -> 0 <= sum_by f l.
Proof.
  induction l as [|x l IH]; intros Hf; cbn; [lia|]. pose proof (Hf x (or_introl eq_refl)).
  specialize (IH (fun y Hy => Hf y (or_intror Hy))). lia.
Qed.
Lemma sum_by_lookup {A} (f : A -> Z) l i x : (forall x, In x l -> 0 <= f x) -> l !! i = Some x -> f x <= sum_by f l.
Proof.
  intros Hf Hi. pose proof (sum_by_delete f l i x Hi). assert (0 <= sum_by f (delete i l)); [|lia].
  apply sum_by_nonneg. intros y Hy. apply Hf. apply list_elem_of_In. apply list_elem_of_In in Hy.
  eapply elem_of_submseteq; [exact Hy|]. apply sublist_submseteq, sublist_delete.
Qed.

Definition one (id id' : Z) : Z := if id =? id' then 1 else 0.
(** The references the cache owns. *)
Definition occ (l : list DynSyntaxCacheEntry) (id : Z) : Z := sum_by (fun e => one (en_snapshot e) id) l.

(** The heap holds exactly the snapshots somebody owns, with that many
    references. *)
Definition live (h : Heap) (own : Z -> Z) : Prop :=
  forall id, (own id = 0 /\ h !! id = None)
             \/ (0 < own id <= SIZE_MAX_ /\ exists s, h !! id = Some s /\ references s = own id).
(** Every snapshot of [h'] is one of [h], but for its references. *)
Definition same_snapshots (h h' : Heap) : Prop :=
  forall id s', h' !! id = Some s' -> exists s, h !! id = Some s /\ sn_text s' = sn_text s /\ sn_view s' = sn_view s.

Lemma same_refl h : same_snapshots h h.
Proof. intros id s Hs. eauto. Qed.
Lemma same_trans h1 h2 h3 : same_snapshots h1 h2 -> same_snapshots h2 h3 -> same_snapshots h1 h3.
Proof.
  intros H12 H23 id s Hs. destruct (H23 id s Hs) as (s2 & Hs2 & -> & ->). by apply H12.
Qed.
Lemma same_insert h id s s' :
  h !! id = Some s -> sn_text s' = sn_text s -> sn_view s' = sn_view s -> same_snapshots h (<[id := s']> h).
Proof.
  intros Hs Ht Hv i x Hx. destruct (Z.eq_dec id i) as [<-|Hne].
  - rewrite lookup_insert_eq in Hx. simplify_eq. by exists s.
  - rewrite lookup_insert_ne in Hx by done. eauto.
Qed.

Lemma live_ext h own own' : (forall id, own id = own' id) -> live h own -> live h own'.
Proof. intros He Hl id. rewrite <- He. apply Hl. Qed.
Lemma live_update h own own' id s :
  live h own -> (forall i, i <> id -> own' i = own i) -> 0 < own' id <= SIZE_MAX_ -> references s = own' id ->
  live (<[id := s]> h) own'.
Proof.
  intros Hl Ho Hr Hs i. destruct (Z.eq_dec id i) as [<-|Hne].
  - right. split; [done|]. exists s. by rewrite lookup_insert_eq.
  - rewrite lookup_insert_ne, Ho by done. apply Hl.
Qed.

Lemma retain_live h own id :
  live h own -> own id <> 0 ->
  exists ok h', exp_snapshot_retain id h = Some (ok, h') /\ same_snapshots h h'
    /\ (if ok : bool then live h' (fun i => own i + one id i) else h' = h).
Proof.
  intros Hl Ho. unfold exp_snapshot_retain. destruct (Hl id) as [[? _]|(Hr & s & Hs & Href)]; [done|]. rewrite Hs.
  destruct (negb _ && _) eqn:Hg; [|exists false, h; split; [done|]; split; [apply same_refl|done]].
  to_prop. destruct Hg as [_ Hmax]. exists true. eexists. split; [done|]. split; [by apply (same_insert h id s)|].
  apply (live_update h own); [done|intros i Hi; unfold one; zb; lia|unfold one; rewrite Z.eqb_refl; lia|].
  unfold one. rewrite Z.eqb_refl. cbn. lia.
Qed.
Lemma release_live h own id :
  live h own -> own id <> 0 ->
  exists h', exp_snapshot_release id h = Some h' /\ same_snapshots h h' /\ live h' (fun i => own i - one id i).
Proof.
  intros Hl Ho. unfold exp_snapshot_release. destruct (Hl id) as [[? _]|(Hr & s & Hs & Href)]; [done|]. rewrite Hs.
  destruct (Z.eqb_spec (references s) 1) as [H1|H1]; cbn [negb]; eexists; (split; [done|]).
  - split.
    + intros i x Hx. apply lookup_delete_Some in Hx as [_ Hx]. eauto.
    + intros i. unfold one. destruct (Z.eqb_spec id i) as [<-|Hne].
      * left. split; [lia|]. apply lookup_delete_eq.
      * rewrite lookup_delete_ne by done. rewrite Z.sub_0_r. apply Hl.
  - split; [by apply (same_insert h id s)|].
    apply (live_update h own); [done|intros i Hi; unfold one; zb; lia|unfold one; rewrite Z.eqb_refl; lia|].
    unfold one. rewrite Z.eqb_refl. cbn. unfold SIZE_MAX_ in *. rewrite u64_small; lia.
Qed.

(** ** The invariant *)
Section Invariant.
Context {H : Host}.
Variable exp_parse_source_with_options : bytes -> CreateOptions -> World -> res ExpSnapshotError Parsed * World.

(** A snapshot's tree is one the parser gave for its text. *)
Definition genuine (s : ExpSnapshot) : Prop :=
  exists o w p w', exp_parse_source_with_options (sn_text s) o w = (Ok p, w') /\ sn_view s = p_view p.

(** [ext] are the references owned outside the cache. *)
Record cache_ok (ext : Z -> Z) (c : DynSyntaxCache) (h : Heap) : Prop := {
  ok_live : live h (fun id => ext id + occ (entries c) id);
  ok_ext : forall id, 0 <= ext id;
  ok_count : cc_count c = Z.of_nat (length (entries c));
  ok_bytes : cc_bytes c = sum_by en_charge (entries c);
  ok_charge : forall e, In e (entries c) -> 0 <= en_charge e;
  ok_entries : cc_count c <= entries_of c;
  ok_limit : cc_bytes c <= limit_of c;
  ok_sizes : 0 <= byte_limit c < 2 ^ 64 /\ 0 <= entry_limit c < 2 ^ 64;
  ok_texts : forall e s, In e (entries c) -> h !! en_snapshot e = Some s -> sn_text s = en_text e;
  ok_genuine : forall id s, h !! id = Some s -> genuine s }.

Lemma limits_range c : 0 <= byte_limit c < 2 ^ 64 -> 0 <= entry_limit c < 2 ^ 64 ->
  0 < limit_of c < 2 ^ 64 /\ 0 < entries_of c < 2 ^ 64.
Proof.
  intros Hb He. unfold limit_of, entries_of, DYN_SYNTAX_CACHE_BYTES, DYN_SYNTAX_CACHE_ENTRIES.
  destruct (Z.eqb_spec (byte_limit c) 0), (Z.eqb_spec (entry_limit c) 0); lia.
Qed.
Lemma occ_nonneg l id : 0 <= occ l id.
Proof. apply sum_by_nonneg. intros e _. unfold one. split_if; lia. Qed.
Lemma occ_lookup l i e : l !! i = Some e -> 1 <= occ l (en_snapshot e).
Proof.
  intros Hi. pose proof (sum_by_lookup (fun x => one (en_snapshot x) (en_snapshot e)) l i e) as Hs.
  unfold occ. unfold one at 2 in Hs. rewrite Z.eqb_refl in Hs. apply Hs; [|done]. intros x _. unfold one. split_if; lia.
Qed.
Lemma in_delete {A} (l : list A) i x : In x (delete i l) -> In x l.
Proof.
  rewrite <- !list_elem_of_In. intros Hx. eapply elem_of_submseteq; [exact Hx|]. apply sublist_submseteq, sublist_delete.
Qed.
Lemma genuine_same h h' : same_snapshots h h' -> (forall id s, h !! id = Some s -> genuine s) -> forall id s, h' !! id = Some s -> genuine s.
Proof.
  intros Hs Hg id s Hx. destruct (Hs id s Hx) as (s0 & Hs0 & Ht & Hv). destruct (Hg id s0 Hs0) as (o & w & p & w' & Hp & Hpv).
  exists o, w, p, w'. by rewrite Ht, Hv.
Qed.
Lemma texts_same h h' (l l' : list DynSyntaxCacheEntry) :
  same_snapshots h h' -> (forall e, In e l' -> In e l) ->
  (forall e s, In e l -> h !! en_snapshot e = Some s -> sn_text s = en_text e) ->
  forall e s, In e l' -> h' !! en_snapshot e = Some s -> sn_text s = en_text e.
Proof. intros Hs Hin Ht e s He Hx. destruct (Hs _ _ Hx) as (s0 & Hs0 & -> & _). by apply Ht; [apply Hin|]. Qed.

(** Dropping an entry keeps the invariant and gives its charge back. *)
Lemma drop_ok ext c h i e :
  cache_ok ext c h -> entries c !! i = Some e ->
  exists c' h', syntax_cache_drop c i h = Some (c', h') /\ cache_ok ext c' h' /\ entries c' = delete i (entries c)
    /\ byte_limit c' = byte_limit c /\ entry_limit c' = entry_limit c /\ same_snapshots h h'.
Proof.
  intros [Hl He Hc Hb Hch Hen Hli Hsz Ht Hg] Hi. unfold syntax_cache_drop. rewrite Hi.
  pose proof (occ_lookup _ _ _ Hi). destruct (release_live h _ (en_snapshot e) Hl) as (h' & -> & Hsame & Hl').
  { specialize (He (en_snapshot e)). lia. }
  eexists _, h'. split; [done|]. split; [|done]. destruct (limits_range c) as [Hlr Her]; [tauto|tauto|].
  pose proof (sum_by_lookup en_charge _ _ _ Hch Hi). pose proof (Hch e) as He0. apply lookup_lt_Some in Hi as Hlen.
  assert (0 <= en_charge e) by (apply He0, list_elem_of_In; by eapply list_elem_of_lookup_2).
  split; cbn [entries cc_count cc_bytes set_entries byte_limit entry_limit] in *; try done.
  - eapply live_ext; [|exact Hl']. intros id. cbn. unfold occ. rewrite (sum_by_delete _ _ _ _ Hi). lia.
  - rewrite length_delete by (by eexists). rewrite u64_small; lia.
  - rewrite (sum_by_delete _ _ _ _ Hi). rewrite u64_small; lia.
  - intros x Hx. by apply Hch, (in_delete _ i).
  - unfold entries_of in *. cbn. rewrite u64_small; lia.
  - unfold limit_of in *. cbn. rewrite u64_small; lia.
  - eapply (texts_same h h' (entries c)); [done|apply in_delete|done].
  - by eapply genuine_same.
Qed.

(** Clearing the cache gives every reference back. *)
Lemma clear_ok ext c h :
  cache_ok ext c h ->
  exists c' h', dyn_syntax_cache_clear c h = Some (c', h') /\ entries c' = [] /\ cc_bytes c' = 0 /\ cc_count c' = 0 /\ live h' ext.
Proof.
  unfold dyn_syntax_cache_clear. remember (length (entries c)) as n eqn:Hn. revert c h Hn.
  induction n as [|n IH]; intros c h Hn Hok.
  - destruct (entries c) as [|e l] eqn:He; [|done]. cbn. rewrite He. eexists c, h. split; [done|]. split; [done|].
    destruct Hok as [Hl _ Hc Hb _ _ _ _ _ _]. rewrite He in *. split; [done|]. split; [done|].
    eapply live_ext; [|exact Hl]. intros id. cbn. lia.
  - destruct (entries c) as [|e l] eqn:He; [done|]. cbn [clear_entries]. rewrite He.
    destruct (drop_ok ext c h 0 e Hok) as (c' & h' & -> & Hok' & He' & _); [by rewrite He|].
    apply IH; [|done]. rewrite He', He. cbn in *. lia.
Qed.

(** Eviction ends with room for the charge. *)
Lemma evict_ok ext fuel charge c h :
  cache_ok ext c h -> (length (entries c) <= fuel)%nat -> 0 <= charge <= limit_of c ->
  exists c' h', evict fuel (limit_of c) (entries_of c) charge c h = Some (c', h') /\ cache_ok ext c' h'
    /\ byte_limit c' = byte_limit c /\ entry_limit c' = entry_limit c
    /\ cc_count c' < entries_of c /\ cc_bytes c' + charge <= limit_of c /\ same_snapshots h h'.
Proof.
  assert (Hroom : forall c h, cache_ok ext c h -> 0 <= charge <= limit_of c ->
            entries c = [] \/ (cc_count c < entries_of c /\ charge <= limit_of c - cc_bytes c) ->
            cache_ok ext c h /\ byte_limit c = byte_limit c /\ entry_limit c = entry_limit c
            /\ cc_count c < entries_of c /\ cc_bytes c + charge <= limit_of c /\ same_snapshots h h).
  { intros c0 h0 Hok Hch Hc. split; [done|]. split; [done|]. split; [done|]. destruct Hok as [_ _ Hcnt Hb _ _ _ Hsz _ _].
    destruct (limits_range c0) as [Hlr Her]; [tauto|tauto|]. destruct Hc as [He|[]].
    - rewrite He in Hcnt, Hb. cbn in Hcnt, Hb. split; [lia|]. split; [lia|apply same_refl].
    - split; [lia|]. split; [lia|apply same_refl]. }
  revert c h. induction fuel as [|f IH]; intros c h Hok Hf Hch; cbn [evict].
  - destruct (entries c) as [|e l] eqn:He; [|cbn in Hf; lia]. exists c, h. split; [done|]. apply Hroom; auto.
  - destruct (entries c) as [|e l] eqn:He; [exists c, h; split; [done|]; apply Hroom; auto|]. rewrite <- He in *.
    destruct (_ || _) eqn:Hcond.
    + destruct (lookup_lt_is_Some_2 (entries c) (pred (length (entries c)))) as [x Hx]; [rewrite He; cbn; lia|].
      destruct (drop_ok ext c h _ x Hok Hx) as (c' & h' & -> & Hok' & He' & Hbl & Hel & Hs).
      assert (limit_of c' = limit_of c) as Hlim by (unfold limit_of; by rewrite Hbl).
      assert (entries_of c' = entries_of c) as Hent by (unfold entries_of; by rewrite Hel).
      destruct (IH c' h') as (c2 & h2 & Hev & Hok2 & Hb2 & He2 & Hc2 & Hby2 & Hs2); [done| |by rewrite Hlim|].
      { rewrite He', length_delete by (by eexists). rewrite He in *. cbn in *. lia. }
      rewrite Hlim, Hent in *. exists c2, h2. split; [done|]. split; [done|]. split; [congruence|]. split; [congruence|].
      split; [done|]. split; [done|]. by eapply same_trans.
    + exists c, h. split; [done|]. apply Hroom; [done|done|]. right. to_prop.
      destruct Hok as [_ _ Hcnt Hb Hch' _ Hli Hsz _ _]. destruct (limits_range c) as [Hlr Her]; [tauto|tauto|].
      pose proof (sum_by_nonneg en_charge _ Hch'). rewrite u64_small in Hcond by lia. lia.
Qed.

(** A new reference of an owned snapshot, for the caller. *)
Lemma retain_ok ext c h id :
  cache_ok ext c h -> 0 < ext id + occ (entries c) id ->
  exists ok h', exp_snapshot_retain id h = Some (ok, h') /\ same_snapshots h h'
    /\ (if ok : bool then cache_ok (fun i => ext i + one id i) c h' else h' = h).
Proof.
  intros [Hl He Hc Hb Hch Hen Hli Hsz Ht Hg] Hown. destruct (retain_live h _ id Hl) as (ok & h' & Hr & Hs & Hok); [lia|].
  exists ok, h'. split; [done|]. split; [done|]. destruct ok; [|done]. split; try done.
  - eapply live_ext; [|exact Hok]. intros i. cbn. lia.
  - intros i. specialize (He i). unfold one. split_if; lia.
  - by eapply (texts_same h h' (entries c)).
  - by eapply genuine_same.
Qed.
Lemma front_ok ext c h i e :
  cache_ok ext c h -> entries c !! i = Some e ->
  cache_ok ext (set_entries (e :: delete i (entries c)) (cc_count c) (cc_bytes c) c) h.
Proof.
  intros [Hl He Hc Hb Hch Hen Hli Hsz Ht Hg] Hi. apply lookup_lt_Some in Hi as Hlen.
  assert (Hin : forall x, In x (e :: delete i (entries c)) -> In x (entries c)).
  { intros x [<-|Hx]; [apply list_elem_of_In; by eapply list_elem_of_lookup_2|by eapply in_delete]. }
  split; cbn [entries cc_count cc_bytes set_entries byte_limit entry_limit] in *; try done.
  - eapply live_ext; [|exact Hl]. intros id. cbn. unfold occ. cbn [sum_by]. rewrite (sum_by_delete _ _ _ _ Hi). lia.
  - cbn [length]. rewrite length_delete by (by eexists). lia.
  - cbn [sum_by]. rewrite (sum_by_delete _ _ _ _ Hi). lia.
  - intros x Hx. by apply Hch, Hin.
  - intros x s Hx. by apply Ht, Hin.
Qed.
Lemma counters_ok ext c h : cache_ok ext c h -> cache_ok ext (count_hit c) h /\ cache_ok ext (count_miss c) h.
Proof. intros [Hl He Hc Hb Hch Hen Hli Hsz Ht Hg]. by split. Qed.

Lemma charge_range limit path text v charge :
  0 <= limit < 2 ^ 64 -> cache_charge limit path text v = Some charge -> 0 <= charge <= limit.
Proof.
  unfold cache_charge. intros Hl Hc. destruct (_ || _); [done|]. destruct (_ <? _); [done|].
  match type of Hc with (if limit <? ?x then _ else _) = _ => destruct (Z.ltb_spec limit x); [done|] end.
  injection Hc as <-. split; [apply u64_range|lia].
Qed.

Lemma store_ok ext c path text id h world s :
  cache_ok ext c h -> h !! id = Some s -> sn_text s = text -> 0 < ext id ->
  exists c' h' world', syntax_cache_store c path text id h world = Some (c', h', world')
    /\ cache_ok ext c' h' /\ same_snapshots h h'.
Proof.
  intros Hok Hs Ht He. unfold syntax_cache_store. rewrite Hs.
  pose proof Hok as [_ _ _ _ _ _ _ Hsz _ _]. destruct (limits_range c) as [Hlr Her]; [tauto|tauto|].
  destruct (cache_charge (limit_of c) path text (sn_view s)) as [charge|] eqn:Hch; [|eexists _, _, _; split; [done|]; by split; [|apply same_refl]].
  apply charge_range in Hch; [|lia].
  destruct (allocate world _) as [[] w1]; cbn [negb]; [|eexists _, _, _; split; [done|]; by split; [|apply same_refl]].
  destruct (allocate w1 _) as [ok1 w2]. destruct (allocate w2 _) as [ok2 w3].
  destruct (negb (ok1 && ok2)); [eexists _, _, _; split; [done|]; by split; [|apply same_refl]|].
  destruct (retain_ok ext c h id Hok) as (ok & h1 & -> & Hs1 & Hok1); [pose proof (occ_nonneg (entries c) id); lia|].
  destruct ok; cbn [negb]; [|subst h1; eexists _, _, _; split; [done|]; by split; [|apply same_refl]].
  destruct (evict_ok _ (length (entries c)) charge c h1 Hok1) as (c2 & h2 & -> & Hok2 & Hbl & Hel & Hcnt & Hby & Hs2); [lia|lia|].
  eexists _, h2, _. split; [done|]. split; [|by eapply same_trans].
  destruct Hok2 as [Hl He2 Hc Hb Hch2 Hen Hli Hsz2 Ht2 Hg].
  pose proof (sum_by_nonneg en_charge _ Hch2).
  split; cbn [entries cc_count cc_bytes set_entries byte_limit entry_limit] in *; try done.
  - eapply live_ext; [|exact Hl]. intros i. cbn. unfold occ. cbn [sum_by en_snapshot]. lia.
  - intros i. specialize (He2 i). destruct Hok as [_ He0 _ _ _ _ _ _ _ _]. apply He0.
  - cbn [length]. rewrite u64_small; lia.
  - cbn [sum_by en_charge]. rewrite u64_small; lia.
  - intros x [<-|Hx]; [cbn; lia|by apply Hch2].
  - unfold entries_of in *. cbn [entry_limit set_entries]. rewrite Hel. rewrite u64_small; lia.
  - unfold limit_of in *. cbn [byte_limit set_entries]. rewrite Hbl. rewrite u64_small; lia.
  - intros x s' [<-|Hx] Hx'; [|by apply Ht2]. cbn in *. destruct (same_trans _ _ _ Hs1 Hs2 _ _ Hx') as (s0 & Hs0 & -> & _).
    rewrite Hs in Hs0. injection Hs0 as <-. done.
Qed.

Lemma find_entry_spec l path i k e : find_entry l path i = Some (k, e) -> (i <= k)%nat /\ l !! (k - i)%nat = Some e.
Proof.
  revert i. induction l as [|x l IH]; intros i Hf; cbn in Hf; [done|]. destruct (bytes_eqb _ _).
  - simplify_eq. split; [lia|]. by rewrite Nat.sub_diag.
  - apply IH in Hf as [Hle Hx]. split; [lia|]. by replace (k - i)%nat with (S (k - S i)) by lia.
Qed.
Lemma find_ok ext c path text h :
  cache_ok ext c h ->
  exists found c' h', cache_find c path text h = Some (found, c', h') /\ same_snapshots h h'
    /\ match found with
       | Some id => cache_ok (fun i => ext i + one id i) c' h' /\ exists s, h' !! id = Some s /\ sn_text s = text
       | None => cache_ok ext c' h'
       end.
Proof.
  intros Hok. unfold cache_find. destruct (find_entry (entries c) path 0) as [[i e]|] eqn:Hf.
  2: { eexists _, _, h. split; [done|]. split; [apply same_refl|]. by apply counters_ok. }
  apply find_entry_spec in Hf as [_ Hi]. rewrite Nat.sub_0_r in Hi.
  assert (Hdrop : forall h0, h0 = h -> exists found c' h', (let* (c1, h1) := syntax_cache_drop c i h0 in Some (None, count_miss c1, h1)) = Some (found, c', h')
            /\ same_snapshots h h' /\ match found with Some id => cache_ok (fun i => ext i + one id i) c' h' /\ exists s, h' !! id = Some s /\ sn_text s = text | None => cache_ok ext c' h' end).
  { intros h0 ->. destruct (drop_ok ext c h i e Hok Hi) as (c' & h' & -> & Hok' & _ & _ & _ & Hs). eexists _, _, h'. split; [done|].
    split; [done|]. by apply counters_ok. }
  destruct (bytes_eqb_spec (en_text e) text) as [Heq|]; [|by apply Hdrop].
  destruct (retain_ok ext c h (en_snapshot e) Hok) as (ok & h1 & -> & Hs1 & Hok1).
  { pose proof (occ_lookup _ _ _ Hi). destruct Hok as [_ He _ _ _ _ _ _ _ _]. specialize (He (en_snapshot e)). lia. }
  destruct ok; [|by apply Hdrop]. eexists _, _, h1. split; [done|]. split; [done|]. split.
  - by apply counters_ok, front_ok.
  - destruct Hok1 as [Hl He _ _ _ _ _ _ Ht _]. destruct (Hl (en_snapshot e)) as [[H0 _]|(_ & s & Hs & _)].
    + specialize (He (en_snapshot e)). pose proof (occ_lookup _ _ _ Hi). cbn in H0, He. lia.
    + exists s. split; [done|]. rewrite <- Heq. apply Ht; [|done]. apply list_elem_of_In. by eapply list_elem_of_lookup_2.
Qed.
End Invariant.

Section Parse.
Context {H : Host}.
Variable exp_parse_source_with_options : bytes -> CreateOptions -> World -> res ExpSnapshotError Parsed * World.

Lemma create_insert_ok ext c h next s :
  cache_ok exp_parse_source_with_options ext c h -> h !! next = None -> references s = 1 -> genuine exp_parse_source_with_options s ->
  cache_ok exp_parse_source_with_options (fun i => ext i + one next i) c (<[next := s]> h).
Proof.
  intros [Hl He Hc Hb Hch Hen Hli Hsz Ht Hg] Hn Hr Hs.
  assert (ext next + occ (entries c) next = 0) as H0 by (destruct (Hl next) as [[? _]|(_ & s' & Hs' & _)]; congruence).
  split; try done.
  - eapply live_update; [exact Hl|intros i Hi; unfold one; zb; lia|unfold one; rewrite Z.eqb_refl; unfold SIZE_MAX_; lia|].
    unfold one. rewrite Z.eqb_refl. lia.
  - intros i. specialize (He i). unfold one. split_if; lia.
  - intros e s' Hin Hx. destruct (Z.eq_dec next (en_snapshot e)) as [Hne|Hne].
    + apply list_elem_of_In, list_elem_of_lookup in Hin as [i Hi]. apply occ_lookup in Hi. rewrite <- Hne in Hi.
      specialize (He next). lia.
    + rewrite lookup_insert_ne in Hx by done. by apply Ht.
  - intros i s' Hx. destruct (Z.eq_dec next i) as [<-|]; [rewrite lookup_insert_eq in Hx; by simplify_eq|].
    rewrite lookup_insert_ne in Hx by done. by eapply Hg.
Qed.

(** C32: the syntax cache is transparent and keeps its books. From any state
    in which its counts, its byte charge and the reference counts agree, parsing
    a source through the cache returns (without touching a freed snapshot) an
    error of the parse, or a snapshot of exactly the source's bytes whose tree
    the parser gave for those bytes, with a reference for the caller; and the
    state still agrees: the entries stay within both limits, the charge is the
    sum of theirs, and every snapshot is alive with as many references as
    owners. *)
Theorem source_parse_correct ext c path text work next h world :
  (forall t o w e w', exp_parse_source_with_options t o w = (Err e, w') -> se_kind e <> EXP_OK) ->
  cache_ok exp_parse_source_with_options ext c h -> h !! next = None ->
  exists r c' h' world',
    source_parse exp_parse_source_with_options (Some c) path text work next h world = Some (r, Some c', h', world')
    /\ match r with
       | Err e => se_kind e <> EXP_OK /\ cache_ok exp_parse_source_with_options ext c' h'
       | Ok id =>
           cache_ok exp_parse_source_with_options (fun i => ext i + one id i) c' h'
           /\ exists s, h' !! id = Some s /\ sn_text s = text /\ genuine exp_parse_source_with_options s
       end.
Proof.
  intros Hparse Hok Hn. unfold source_parse.
  destruct (find_ok exp_parse_source_with_options ext c path text h Hok) as (found & c1 & h1 & -> & Hs1 & Hf). destruct found as [id|].
  - eexists (Ok id), c1, h1, world. split; [done|]. destruct Hf as [Hok1 (s & Hs & Ht)]. split; [done|]. exists s.
    split; [done|]. split; [done|]. by eapply ok_genuine.
  - destruct (create_spec exp_parse_source_with_options text (Some (mkCreateOptions 0 0 work true)) world Hparse) as (r & w1 & -> & Hr);
      [cbn; lia|].
    destruct r as [s|e]; [|by eexists (Err e), c1, h1, w1].
    destruct Hr as (Href & Ht & p & w & w' & Hp & Hv & _).
    assert (genuine exp_parse_source_with_options s) as Hg by (unfold genuine; rewrite Ht; eauto 10).
    assert (h1 !! next = None) as Hn1.
    { destruct (h1 !! next) as [s1|] eqn:Hx; [|done]. destruct (Hs1 _ _ Hx) as (s0 & Hs0 & _). congruence. }
    pose proof (create_insert_ok ext c1 h1 next s Hf Hn1 Href Hg) as Hok2.
    destruct (store_ok _ _ c1 path text next (<[next := s]> h1) w1 s Hok2) as (c2 & h2 & w2 & -> & Hok3 & Hs2);
      [by rewrite lookup_insert_eq|done| |].
    { unfold one. rewrite Z.eqb_refl. destruct Hf as [_ He _ _ _ _ _ _ _ _]. specialize (He next). lia. }
    eexists (Ok next), c2, h2, w2. split; [done|]. split; [done|].
    destruct Hok3 as [Hl He _ _ _ _ _ _ _ Hgen]. destruct (Hl next) as [[H0 _]|(_ & s2 & Hx & _)].
    + exfalso. specialize (He next). pose proof (occ_nonneg (entries c2) next). destruct Hf as [_ He1 _ _ _ _ _ _ _ _].
      specialize (He1 next). cbn in H0. unfold one in H0. rewrite Z.eqb_refl in H0. lia.
    + exists s2. split; [done|]. destruct (Hs2 _ _ Hx) as (s0 & Hs0 & Htx & _). rewrite lookup_insert_eq in Hs0. simplify_eq.
      split; [congruence|]. by eapply Hgen.
Qed.
End Parse.

#[local] Existing Instance quiet_host.
Definition empty_cache : DynSyntaxCache := mkCache [] 0 0 0 0 2 4096.
Lemma source_parse_correct_witness :
  exists r c' h' world',
    source_parse leaf_parser (Some empty_cache) (str "a.dyn") (str "x := 1") None 7 ∅ tt = Some (r, Some c', h', world')
    /\ match r with
       | Err e => se_kind e <> EXP_OK /\ cache_ok leaf_parser (fun _ => 0) c' h'
       | Ok id => cache_ok leaf_parser (fun i => 0 + one id i) c' h'
                  /\ exists s, h' !! id = Some s /\ sn_text s = str "x := 1" /\ genuine leaf_parser s
       end.
Proof.
  apply (source_parse_correct leaf_parser (fun _ => 0)); [done| |reflexivity].
  split; cbn; try done; try lia. intros id. left. split; [reflexivity|apply lookup_empty].
Defined.
