(* ===== verification/Ast.v ===== *)
(** The typed syntax tree of a program (src/src/dyn_ast.h) and the state of
    semantic analysis (the [Sema] of src/src/sema.c): the tables, how they grow,
    and the monad in which the analysis is written.

    A table is the list of its rows with its capacity. The tables of a program
    are a family indexed by their names, so that reading one after writing
    another is one lemma. *)

From S2P Require Import Prelude Target Source Work Ir.
From Stdlib Require Import Floats.SpecFloat.

(** ** Types *)
Definition DYN_TYPE_F32 : Z := 14.
Definition DYN_TYPE_F64 : Z := 15.
Definition DYN_TYPE_STRING : Z := 16.
Definition DYN_TYPE_RAWPTR : Z := 17.
Definition DYN_TYPE_ANY : Z := 18.
Definition DYN_TYPE_STRUCT_BASE : Z := 256.
Definition DYN_TYPE_ENUM_BASE : Z := 32768.
Definition DYN_TYPE_POINTER_BASE : Z := 65536.
Definition DYN_TYPE_FN_BASE : Z := 262144.
Definition DYN_MAX_TYPE_PARAMS : Z := 8.
Definition DYN_MAX_INSTANCE_DEPTH : Z := 32.
Definition dyn_type_is_struct (t : Z) : bool := (DYN_TYPE_STRUCT_BASE <=? t) && (t <? DYN_TYPE_ENUM_BASE).
Definition dyn_type_is_enum (t : Z) : bool := (DYN_TYPE_ENUM_BASE <=? t) && (t <? DYN_TYPE_POINTER_BASE).
Definition dyn_type_is_pointer (t : Z) : bool := (DYN_TYPE_POINTER_BASE <=? t) && (t <? DYN_TYPE_ARRAY_BASE).
Definition dyn_type_is_slice (t : Z) : bool := (DYN_TYPE_SLICE_BASE <=? t) && (t <? DYN_TYPE_FN_BASE).
Definition dyn_type_is_function (t : Z) : bool := (DYN_TYPE_FN_BASE <=? t) && (t <? DYN_TYPE_DISTINCT_BASE).
Definition dyn_type_is_param (t : Z) : bool :=
  (DYN_TYPE_PARAM_BASE <=? t) && (t <? DYN_TYPE_PARAM_BASE + DYN_MAX_TYPE_PARAMS).

(** ** Rows *)
Record DynSpan := mkDynSpan { start_byte : Z; end_byte : Z }.
(** A hash index of names, with the number of names in it. *)
Record DynNameIndex := mkNameIndex { ni_buckets : list Z; ni_next : list Z; ni_count : Z; ni_capacity : Z }.
Definition empty_index : DynNameIndex := mkNameIndex [] [] 0 0.
Record DynAstExpr := mkAstExpr {
  x_kind : DynExprKind; x_type : Z; x_span : DynSpan; x_op : DynOperator; x_left : Z; x_right : Z; x_integer : Z;
  x_floating : spec_float; x_boolean : bool; x_item_start : Z; x_item_count : Z; x_wrap : bool }.
Record DynAstItem := mkItem { it_name : DynSpan; it_expression : Z; it_field_index : Z }.
Record DynAstField := mkField { fd_name : DynSpan; fd_type : Z; fd_default : Z; fd_offset : Z }.
Record DynAstStruct := mkStruct {
  sr_span : DynSpan; sr_name : DynSpan; sr_packed : bool; sr_field_start : Z; sr_field_count : Z;
  sr_size : Z; sr_alignment : Z; sr_field_names : DynNameIndex }.
Record DynAstVariant := mkVariant { va_name : DynSpan; va_payload_type : Z; va_tag : Z }.
Record DynAstEnum := mkEnum {
  en_name : DynSpan; en_tag_type : Z; en_variant_start : Z; en_variant_count : Z; en_size : Z; en_alignment : Z;
  en_payload_size : Z; en_payload_alignment : Z; en_has_payload : bool;
  en_variant_names : DynNameIndex }.
Record DynAstParam := mkAstParam { pa_name : DynSpan; pa_type : Z; pa_local_id : Z }.
Record DynAstGlobal := mkGlobal {
  gl_name : DynSpan; gl_link_name : DynSpan; gl_type : Z; gl_initializer : Z; gl_is_const : bool; gl_foreign : bool }.
Record DynAstAssert := mkAssert { as_span : DynSpan; as_message : DynSpan; as_condition : Z }.
Record DynAstPointer := mkPointer { po_pointee : Z; po_is_const : bool }.
Record DynAstArray := mkAstArray { ar_element : Z; ar_length : Z }.
Record DynAstSlice := mkSlice { sl_element : Z; sl_is_const : bool }.
Record DynAstFnType := mkFnType { ft_return_type : Z; ft_param_start : Z; ft_param_count : Z; ft_variadic : bool }.
Record DynAstAlias := mkAlias { al_name : DynSpan; al_target : Z; al_distinct : bool; al_state : Z }.
Record DynAstFn := mkFn {
  fn_span : DynSpan; fn_name : DynSpan; fn_link_name : DynSpan; fn_variadic_name : DynSpan; fn_return_type : Z;
  fn_param_start : Z; fn_param_count : Z; fn_body_start : Z; fn_body_count : Z; fn_local_start : Z; fn_local_count : Z;
  fn_is_main : bool; fn_foreign : bool; fn_variadic : bool; fn_interface_only : bool;
  fn_is_generic : bool; fn_is_instance : bool; fn_body_pending : bool; fn_generic : Z; fn_instance : Z;
  fn_variadic_type : Z; fn_variadic_local_id : Z }.
Record DynAstGenericParam := mkGenericParam { gp_name : DynSpan; gp_pattern : Z; gp_is_type : bool }.
Record DynAstGeneric := mkGeneric {
  ge_function : Z; ge_param_start : Z; ge_param_count : Z; ge_type_param_count : Z; ge_return_pattern : Z;
  ge_type_names : list DynSpan }.
Record DynAstInstance := mkInstance {
  in_generic : Z; in_function : Z; in_depth : Z; in_args : list Z; in_call : DynSpan; in_hash : Z }.
Record DynAstStmt := mkAstStmt {
  s_kind : DynStmtKind; s_span : DynSpan; s_name : DynSpan; s_label : DynSpan; s_control_label : DynSpan;
  s_declared_type : Z; s_expression : Z; s_target_ : Z; s_assignment_op : DynOperator; s_local_id : Z;
  s_body_start : Z; s_body_count : Z; s_else_start : Z; s_else_count : Z; s_loop_id : Z; s_target_loop_id : Z;
  s_case_arm_start : Z; s_case_arm_count : Z; s_for_pointer : bool; s_for_const : bool; s_is_const : bool;
  s_for_range : bool }.
Record DynAstLocal := mkLocal {
  lo_name : DynSpan; lo_type : Z; lo_active : bool; lo_is_const : bool; lo_owner_function : Z }.
Record DynAstPattern := mkPattern {
  pt_span : DynSpan; pt_first : Z; pt_last : Z; pt_type : Z; pt_first_value : Z; pt_last_value : Z; pt_variant : Z;
  pt_range : bool; pt_inclusive : bool; pt_is_enum : bool; pt_is_signed : bool; pt_is_type : bool }.
Record DynAstCaseArm := mkCaseArm {
  ca_span : DynSpan; ca_binding : DynSpan; ca_pattern_start : Z; ca_pattern_count : Z; ca_body_start : Z;
  ca_body_count : Z; ca_local_id : Z; ca_wildcard : bool; ca_pointer_binding : bool }.

(** ** Tables *)
Record table (A : Type) := mkTable { rows : list A; room : Z }.
Arguments mkTable {A}. Arguments rows {A}. Arguments room {A}.
Definition empty_table {A} : table A := mkTable [] 0.

Inductive Tab :=
| EXPRESSIONS | ITEMS | FIELDS | STRUCTS | ENUMS | VARIANTS | PARAMS | FUNCTIONS | GLOBALS | ASSERTS | POINTERS | ARRAYS
| SLICES | FN_TYPES | FN_TYPE_PARAMS | ALIASES | STRINGS | STATEMENTS | PATTERNS | CASE_ARMS | CHILDREN | LOCALS
| GENERICS | GENERIC_PARAMS | INSTANCES.
#[export] Instance Tab_eq_dec : EqDecision Tab.
Proof. solve_decision. Defined.
Definition row (k : Tab) : Type :=
  match k with
  | EXPRESSIONS => DynAstExpr | ITEMS => DynAstItem | FIELDS => DynAstField | STRUCTS => DynAstStruct
  | ENUMS => DynAstEnum | VARIANTS => DynAstVariant | PARAMS => DynAstParam | FUNCTIONS => DynAstFn
  | GLOBALS => DynAstGlobal | ASSERTS => DynAstAssert | POINTERS => DynAstPointer | ARRAYS => DynAstArray
  | SLICES => DynAstSlice | FN_TYPES => DynAstFnType | FN_TYPE_PARAMS => Z | ALIASES => DynAstAlias
  | STRINGS => bytes | STATEMENTS => DynAstStmt | PATTERNS => DynAstPattern | CASE_ARMS => DynAstCaseArm
  | CHILDREN => Z | LOCALS => DynAstLocal | GENERICS => DynAstGeneric | GENERIC_PARAMS => DynAstGenericParam
  | INSTANCES => DynAstInstance
  end.

Record DynAstProgram := mkAst {
  tables : forall k : Tab, table (row k); allocation_failed : bool; type_capacity_exceeded : bool;
  struct_names : DynNameIndex; enum_names : DynNameIndex; alias_names : DynNameIndex }.
Definition tab (a : DynAstProgram) (k : Tab) : list (row k) := rows (tables a k).
Definition tcount (a : DynAstProgram) (k : Tab) : Z := zlen (tab a k).
Definition set_table (k : Tab) (t : table (row k)) (a : DynAstProgram) : DynAstProgram :=
  mkAst (fun k' => match decide (k = k') with
                   | left E => eq_rect k (fun k => table (row k)) t k' E
                   | right _ => tables a k' end)
        (allocation_failed a) (type_capacity_exceeded a) (struct_names a) (enum_names a) (alias_names a).
Definition empty_ast : DynAstProgram := mkAst (fun _ => empty_table) false false empty_index empty_index empty_index.

Lemma tables_set_same k t a : tables (set_table k t a) k = t.
Proof. cbn. destruct (decide (k = k)) as [E|]; [|done]. by rewrite (proof_irrel E eq_refl). Qed.
Lemma tables_set_other k k' t a : k <> k' -> tables (set_table k t a) k' = tables a k'.
Proof. intros. cbn. by destruct (decide (k = k')). Qed.

(** ** The state of the analysis

    [SemaNames] is the hash index of functions or globals, [local_index] that
    of the locals of the current function. The loops are the
    statements' numbers, innermost first. A diagnostic is the span and
    the text (for a formatted text, its format) of one [error_span]; the length
    of the list is [*errors]. *)
Record SemaNames := mkNames { buckets : list Z; chain : list Z }.
Record Sema := mkSema {
  pointer_bytes : Z; fn_index : SemaNames; gl_index : SemaNames; current_function : Z; current_return_type : Z;
  active_loops : list Z; active_loop_capacity : Z; local_index : DynNameIndex }.
Definition Diagnostic : Type := DynSpan * string.

Section State.
Context {H : Host}.

Record St := mkSt {
  prog : DynAstProgram; sema : Sema; diags : list Diagnostic; work : option DynWork; world : World }.
Definition M (A : Type) : Type := St -> option (A * St).
Definition mret {A} (a : A) : M A := fun s => Some (a, s).
Definition mbind {A B} (m : M A) (f : A -> M B) : M B :=
  fun s => match m s with Some (a, s') => f a s' | None => None end.
Definition undefined {A} : M A := fun _ => None.
Definition ast : M DynAstProgram := fun s => Some (prog s, s).
Definition the_sema : M Sema := fun s => Some (sema s, s).
Definition set_prog (a : DynAstProgram) (s : St) : St := mkSt a (sema s) (diags s) (work s) (world s).
Definition set_sema (x : Sema) : M unit := fun s => Some (tt, mkSt (prog s) x (diags s) (work s) (world s)).
Definition lift {A} (o : option A) : M A := fun s => match o with Some a => Some (a, s) | None => None end.

(** Reading and writing a row; an index out of range is undefined. *)
Definition read (k : Tab) (i : Z) : M (row k) := fun s =>
  match get_at (tab (prog s) k) i with Some x => Some (x, s) | None => None end.
Definition write (k : Tab) (i : Z) (x : row k) : M unit := fun s =>
  match set_at (tab (prog s) k) i x with
  | Some l => Some (tt, set_prog (set_table k (mkTable l (room (tables (prog s) k))) (prog s)) s)
  | None => None
  end.

(** Room for [extra] more rows: [capacity ? capacity * 2 : initial] rows are
    requested when it is exhausted, doubled until they are enough. *)
Fixpoint doubled (fuel : nat) (c needed : Z) : Z :=
  match fuel with O => c | S f => if c <? needed then doubled f (c * 2) needed else c end.
Definition fail_allocation (s : St) : St :=
  set_prog (mkAst (tables (prog s)) true (type_capacity_exceeded (prog s)) (struct_names (prog s)) (enum_names (prog s)) (alias_names (prog s))) s.
Definition reserve_rows (k : Tab) (initial extra : Z) : M bool := fun s =>
  let t := tables (prog s) k in
  let needed := zlen (rows t) + extra in
  if needed <=? room t then Some (true, s)
  else
    let c := doubled (Z.to_nat needed) (if room t =? 0 then initial else room t * 2) needed in
    let '(ok, w) := allocate (world s) c in
    let s := mkSt (prog s) (sema s) (diags s) (work s) w in
    if ok : bool then Some (true, set_prog (set_table k (mkTable (rows t) c) (prog s)) s)
    else Some (false, fail_allocation s).
Definition reserve (k : Tab) (initial : Z) : M bool := reserve_rows k initial 1.
(** Memory that is not a table. *)
Definition allocate_bytes (n : Z) : M bool := fun s =>
  let '(ok, w) := allocate (world s) n in Some (ok, mkSt (prog s) (sema s) (diags s) (work s) w).
Definition reserve_expr : M bool := reserve EXPRESSIONS 32.
Definition reserve_stmt : M bool := reserve STATEMENTS 16.
Definition reserve_pattern : M bool := reserve PATTERNS 16.
Definition reserve_case_arm : M bool := reserve CASE_ARMS 8.
Definition reserve_child : M bool := reserve CHILDREN 32.
Definition reserve_item : M bool := reserve ITEMS 32.
Definition reserve_field : M bool := reserve FIELDS 32.
Definition reserve_struct : M bool := reserve STRUCTS 8.
Definition reserve_enum : M bool := reserve ENUMS 8.
Definition reserve_variant : M bool := reserve VARIANTS 16.
Definition reserve_param : M bool := reserve PARAMS 16.
Definition reserve_function : M bool := reserve FUNCTIONS 8.
Definition reserve_global : M bool := reserve GLOBALS 8.
Definition reserve_pointer : M bool := reserve POINTERS 8.
Definition reserve_array : M bool := reserve ARRAYS 8.
Definition reserve_slice : M bool := reserve SLICES 8.
Definition reserve_string : M bool := reserve STRINGS 8.
Definition reserve_fn_type : M bool := reserve FN_TYPES 8.
Definition reserve_fn_type_params (extra : Z) : M bool := reserve_rows FN_TYPE_PARAMS 16 extra.
Definition reserve_alias : M bool := reserve ALIASES 8.
Definition reserve_local : M bool := reserve LOCALS 16.
(** Appending a row after [reserve]; the new row's index. *)
Definition push (k : Tab) (x : row k) : M Z := fun s =>
  let t := tables (prog s) k in
  Some (zlen (rows t), set_prog (set_table k (mkTable (rows t ++ [x]) (room t)) (prog s)) s).

Definition exceed_capacity : M unit := fun s =>
  Some (tt, set_prog (mkAst (tables (prog s)) (allocation_failed (prog s)) true (struct_names (prog s)) (enum_names (prog s)) (alias_names (prog s))) s).
Definition fail_memory : M unit := fun s => Some (tt, fail_allocation s).

Definition error_span (span : DynSpan) (message : string) : M unit := fun s =>
  Some (tt, mkSt (prog s) (sema s) ((span, message) :: diags s) (work s) (world s)).
Definition step_work (units : Z) : M bool := fun s =>
  let '(ok, w, world) := dyn_work_step (work s) units (world s) in
  Some (ok, mkSt (prog s) (sema s) (diags s) w world).
Definition error_count (s : St) : Z := zlen (diags s).
End State.
Arguments M : clear implicits.
Arguments M {_}.

Declare Scope ast_scope.
Delimit Scope ast_scope with ast.
Notation "'let!' x ':=' c 'in' k" := (mbind c (fun x => k))
  (at level 10, x pattern, c at level 100, k at level 200, format "'let!'  x  ':='  c  'in' '//' k") : ast_scope.
Notation "c ';;' k" := (mbind c (fun _ => k)) (at level 100, k at level 200, right associativity, format "c  ';;' '//' k") : ast_scope.
#[global] Open Scope ast_scope.

(** ** Lemmas on the tables *)
Lemma tab_set_same k t a : tab (set_table k t a) k = rows t.
Proof. unfold tab. by rewrite tables_set_same. Qed.
Lemma tab_set_other k k' t a : k <> k' -> tab (set_table k t a) k' = tab a k'.
Proof. intros. unfold tab. by rewrite tables_set_other. Qed.
#[export] Hint Rewrite tab_set_same : dyn.
#[export] Hint Rewrite tab_set_other using discriminate : dyn.

(** ** What the operations leave alone

    [same_rows] relates states whose tables hold the same rows, [extends]
    those in which rows were only added. *)
Definition types_failed (a : DynAstProgram) : bool := allocation_failed a || type_capacity_exceeded a.
Definition same_rows (a a' : DynAstProgram) : Prop := forall k, tab a' k = tab a k.
Definition extends (a a' : DynAstProgram) : Prop := forall k, exists l, tab a' k = tab a k ++ l.
Lemma same_rows_refl a : same_rows a a.
Proof. by intros k. Qed.
Lemma same_rows_trans a b c : same_rows a b -> same_rows b c -> same_rows a c.
Proof. intros H1 H2 k. by rewrite H2, H1. Qed.
Lemma extends_refl a : extends a a.
Proof. intros k. exists []. by rewrite app_nil_r. Qed.
Lemma extends_trans a b c : extends a b -> extends b c -> extends a c.
Proof. intros H1 H2 k. destruct (H1 k) as [l1 E1], (H2 k) as [l2 E2]. exists (l1 ++ l2). by rewrite E2, E1, app_assoc. Qed.
Lemma same_rows_extends a a' : same_rows a a' -> extends a a'.
Proof. intros E k. exists []. by rewrite E, app_nil_r. Qed.
Lemma extends_get a a' k i x : extends a a' -> get_at (tab a k) i = Some x -> get_at (tab a' k) i = Some x.
Proof.
  intros E [Hi Hx]%get_at_Some. destruct (E k) as [l ->]. apply get_at_Some. rewrite length_app. split; [lia|].
  by apply lookup_app_l_Some.
Qed.
Lemma extends_count a a' k : extends a a' -> tcount a k <= tcount a' k.
Proof. intros E. destruct (E k) as [l El]. unfold tcount, zlen. rewrite El, length_app. lia. Qed.
#[export] Hint Resolve same_rows_refl extends_refl same_rows_extends : dyn.

Section Frame.
Context {H : Host}.

(** Only the program and the outside changed. *)
Definition same_analysis (s s' : St) : Prop := sema s' = sema s /\ diags s' = diags s /\ work s' = work s.
Lemma same_analysis_refl s : same_analysis s s.
Proof. done. Qed.
Lemma same_analysis_trans s1 s2 s3 : same_analysis s1 s2 -> same_analysis s2 s3 -> same_analysis s1 s3.
Proof. intros (E1 & E2 & E3) (E4 & E5 & E6). repeat split; congruence. Qed.

Lemma reserve_rows_spec k initial extra s :
  exists ok s', reserve_rows k initial extra s = Some (ok, s') /\ same_analysis s s'
    /\ same_rows (prog s) (prog s') /\ (ok = false -> types_failed (prog s') = true)
    /\ (ok = true -> types_failed (prog s') = types_failed (prog s)).
Proof.
  unfold reserve_rows. destruct (_ <=? _); [by eexists _, _; repeat split|].
  destruct (allocate (world s) _) as [[] w]; eexists _, _; (split; [reflexivity|]); repeat split; try done.
  intros k'. cbn. destruct (decide (k = k')) as [<-|]; [|by rewrite tab_set_other by done]. by rewrite tab_set_same.
Qed.
End Frame.

(** A host without callback whose allocations succeed, for the examples. *)
Definition willing_host : Host := {| World := unit; cancelled := None; clock w := (0, w); allocate w _ := (true, w) |}.

(** A node with the fields that differ from a zeroed one, and a program with
    given expressions; used by the examples. *)
Definition no_span : DynSpan := mkDynSpan 0 0.
Definition plain_expr (kind : DynExprKind) (op : DynOperator) (left_ right_ integer_ : Z) : DynAstExpr :=
  mkAstExpr kind DYN_TYPE_INFER no_span op left_ right_ integer_ (S754_zero false) false 0 0 false.
Definition with_rows (k : Tab) (l : list (row k)) (a : DynAstProgram) : DynAstProgram :=
  set_table k (mkTable l (zlen l)) a.
Lemma tab_with_same k l a : tab (with_rows k l a) k = l.
Proof. apply tab_set_same. Qed.
Lemma tab_with_other k k' l a : k <> k' -> tab (with_rows k l a) k' = tab a k'.
Proof. apply tab_set_other. Qed.
