(* ===== verification/AstTypes.v ===== *)
(** Interned types (the [intern_*] functions of src/src/ast.c and their copies
    in src/src/sema.c) and the types they denote.

    A compound type is an index into a table. The analysis compares types by
    comparing these integers, which is sound because a table never holds the
    same row twice: [types_canonical] is that argument. *)

From S2P Require Import Prelude Target Source Work Ir Ast.

(** The first row that satisfies a test. *)
Fixpoint find_index {A} (p : A -> bool) (l : list A) : option Z :=
  match l with
  | [] => None
  | x :: l' => if p x then Some 0 else match find_index p l' with Some i => Some (i + 1) | None => None end
  end.
(** [count] elements of an array from [start]. *)
Definition slice_at {A} (l : list A) (start count : Z) : list A := firstn (Z.to_nat count) (skipn (Z.to_nat start) l).

Section Intern.
Context {H : Host}.

(** Common shape of the four functions: a linear search, a limit on the
    identifiers, room for one row. *)
Definition intern_row (k : Tab) (base limit initial : Z) (same : row k -> bool) (x : row k) : M Z :=
  let! a := ast in
  match find_index same (tab a k) with
  | Some i => mret (base + i)
  | None =>
      if limit - base <=? tcount a k then exceed_capacity ;; mret DYN_TYPE_ERROR
      else
        let! ok := reserve k initial in
        if negb ok then mret DYN_TYPE_ERROR
        else let! i := push k x in mret (base + i)
  end.
Definition intern_pointer (pointee : Z) (is_const : bool) : M Z :=
  intern_row POINTERS DYN_TYPE_POINTER_BASE DYN_TYPE_ARRAY_BASE 8
    (fun p => (po_pointee p =? pointee) && eqb (po_is_const p) is_const) (mkPointer pointee is_const).
Definition intern_array (element length : Z) : M Z :=
  intern_row ARRAYS DYN_TYPE_ARRAY_BASE DYN_TYPE_SLICE_BASE 8
    (fun p => (ar_element p =? element) && (ar_length p =? length)) (mkAstArray element length).
Definition intern_slice (element : Z) (is_const : bool) : M Z :=
  intern_row SLICES DYN_TYPE_SLICE_BASE DYN_TYPE_FN_BASE 8
    (fun p => (sl_element p =? element) && eqb (sl_is_const p) is_const) (mkSlice element is_const).

(** The parameters of a signature. *)
Definition fn_params (a : DynAstProgram) (f : DynAstFnType) : list Z :=
  slice_at (tab a FN_TYPE_PARAMS) (ft_param_start f) (ft_param_count f).
Definition same_signature (a : DynAstProgram) (ps : list Z) (result : Z) (variadic : bool) (f : DynAstFnType) : bool :=
  (ft_return_type f =? result) && (ft_param_count f =? zlen ps) && eqb (ft_variadic f) variadic
  && bool_decide (fn_params a f = ps).
Fixpoint push_params (ps : list Z) : M unit :=
  match ps with [] => mret tt | p :: ps' => push FN_TYPE_PARAMS p ;; push_params ps' end.
Definition intern_fn_type_ex (ps : list Z) (result : Z) (variadic : bool) : M Z :=
  let! a := ast in
  match find_index (same_signature a ps result variadic) (tab a FN_TYPES) with
  | Some i => mret (DYN_TYPE_FN_BASE + i)
  | None =>
      if DYN_TYPE_DISTINCT_BASE - DYN_TYPE_FN_BASE <=? tcount a FN_TYPES then exceed_capacity ;; mret DYN_TYPE_ERROR
      else
        let! ok := reserve_fn_type in
        if negb ok then mret DYN_TYPE_ERROR
        else
          let! ok := reserve_fn_type_params (zlen ps) in
          if negb ok then mret DYN_TYPE_ERROR
          else
            let! a := ast in
            let start := tcount a FN_TYPE_PARAMS in
            push_params ps ;;
            let! i := push FN_TYPES (mkFnType result (u32 start) (zlen ps) variadic) in
            mret (DYN_TYPE_FN_BASE + i)
  end.
Definition intern_fn_type (ps : list Z) (result : Z) : M Z := intern_fn_type_ex ps result false.

(** The analysis has its own copies. *)
Definition sema_intern_pointer (pointee : Z) (is_const : bool) : M Z := intern_pointer pointee is_const.
Definition sema_intern_array (element length : Z) : M Z := intern_array element length.
Definition sema_intern_slice (element : Z) (is_const : bool) : M Z := intern_slice element is_const.
Definition sema_intern_fn_type_ex (ps : list Z) (result : Z) (variadic : bool) : M Z := intern_fn_type_ex ps result variadic.
Definition sema_intern_fn_type (ps : list Z) (result : Z) : M Z := sema_intern_fn_type_ex ps result false.
(** The type of a function's name, and of the function itself. *)
Definition param_types (f : DynAstFn) : M (list Z) :=
  let! a := ast in mret (map pa_type (slice_at (tab a PARAMS) (fn_param_start f) (fn_param_count f))).
Definition function_pointer_type (id : Z) : M Z :=
  let! f := read FUNCTIONS id in
  let! ok := allocate_bytes (fn_param_count f * 4) in
  if negb (fn_param_count f =? 0) && negb ok then mret DYN_TYPE_ERROR
  else
    let! ps := param_types f in
    let! signature := sema_intern_fn_type_ex ps (fn_return_type f) (fn_foreign f && fn_variadic f) in
    if signature =? DYN_TYPE_ERROR then mret signature else sema_intern_pointer signature false.
Definition function_signature_type (id : Z) : M Z :=
  let! f := read FUNCTIONS id in
  let! ok := allocate_bytes (fn_param_count f * 4) in
  if negb (fn_param_count f =? 0) && negb ok then mret DYN_TYPE_ERROR
  else let! ps := param_types f in sema_intern_fn_type ps (fn_return_type f).
End Intern.

(** ** Substitution of type parameters *)
Section Substitute.
Context {H : Host}.

(** The loop over the parameters of a signature: the new ones, and whether
    any differs. *)
Fixpoint substitute_params (sub : Z -> M Z) (count : nat) (at_ : Z) : M (list Z * bool) :=
  match count with
  | O => mret ([], false)
  | S c =>
      let! old := read FN_TYPE_PARAMS at_ in
      let! p := sub old in
      let! (ps, changed) := substitute_params sub c (at_ + 1) in
      mret (p :: ps, negb (p =? old) || changed)
  end.
Fixpoint dyn_ast_substitute (fuel : nat) (t : Z) (args : list Z) : M Z :=
  match fuel with
  | O => undefined
  | S n =>
      if dyn_type_is_param t then lift (get_at args (t - DYN_TYPE_PARAM_BASE))
      else if dyn_type_is_pointer t then
        let! p := read POINTERS (t - DYN_TYPE_POINTER_BASE) in
        let! pointee := dyn_ast_substitute n (po_pointee p) args in
        if pointee =? po_pointee p then mret t else intern_pointer pointee (po_is_const p)
      else if dyn_type_is_slice t then
        let! p := read SLICES (t - DYN_TYPE_SLICE_BASE) in
        let! element := dyn_ast_substitute n (sl_element p) args in
        if element =? sl_element p then mret t else intern_slice element (sl_is_const p)
      else if dyn_type_is_array t then
        let! p := read ARRAYS (t - DYN_TYPE_ARRAY_BASE) in
        let! element := dyn_ast_substitute n (ar_element p) args in
        if element =? ar_element p then mret t else intern_array element (ar_length p)
      else if dyn_type_is_function t then
        let! f := read FN_TYPES (t - DYN_TYPE_FN_BASE) in
        if (64 <? ft_param_count f) || ft_variadic f then mret t
        else
          let! (ps, changed) :=
            substitute_params (fun old => dyn_ast_substitute n old args) (Z.to_nat (ft_param_count f)) (ft_param_start f) in
          let! result := dyn_ast_substitute n (ft_return_type f) args in
          if negb changed && (result =? ft_return_type f) then mret t else intern_fn_type ps result
      else mret t
  end.
End Substitute.

(** ** The types that identifiers denote *)
Inductive ty :=
| TBase (t : Z)
| TPointer (T : ty) (is_const : bool)
| TArray (T : ty) (length : Z)
| TSlice (T : ty) (is_const : bool)
| TFunction (ps : list ty) (result : ty) (variadic : bool).

Section TyInd.
Context (P : ty -> Prop) (HB : forall t, P (TBase t)) (HP : forall T c, P T -> P (TPointer T c))
  (HA : forall T n, P T -> P (TArray T n)) (HS : forall T c, P T -> P (TSlice T c))
  (HF : forall ps r v, Forall P ps -> P r -> P (TFunction ps r v)).
Fixpoint ty_ind' (T : ty) : P T :=
  match T with
  | TBase t => HB t
  | TPointer T c => HP T c (ty_ind' T)
  | TArray T n => HA T n (ty_ind' T)
  | TSlice T c => HS T c (ty_ind' T)
  | TFunction ps r v =>
      HF ps r v ((fix go l : Forall P l := match l with [] => Forall_nil_2 P | T :: l' => Forall_cons_2 P T l' (ty_ind' T) (go l') end) ps)
         (ty_ind' r)
  end.
End TyInd.

Definition is_compound (t : Z) : bool :=
  dyn_type_is_pointer t || dyn_type_is_array t || dyn_type_is_slice t || dyn_type_is_function t.

Inductive denotes (a : DynAstProgram) : Z -> ty -> Prop :=
| d_base t : is_compound t = false -> denotes a t (TBase t)
| d_pointer i p T :
    get_at (tab a POINTERS) i = Some p -> denotes a (po_pointee p) T ->
    denotes a (DYN_TYPE_POINTER_BASE + i) (TPointer T (po_is_const p))
| d_array i p T :
    get_at (tab a ARRAYS) i = Some p -> denotes a (ar_element p) T ->
    denotes a (DYN_TYPE_ARRAY_BASE + i) (TArray T (ar_length p))
| d_slice i p T :
    get_at (tab a SLICES) i = Some p -> denotes a (sl_element p) T ->
    denotes a (DYN_TYPE_SLICE_BASE + i) (TSlice T (sl_is_const p))
| d_function i f ps r :
    get_at (tab a FN_TYPES) i = Some f -> Forall2 (denotes a) (fn_params a f) ps -> denotes a (ft_return_type f) r ->
    denotes a (DYN_TYPE_FN_BASE + i) (TFunction ps r (ft_variadic f)).

(** The invariant of the tables: identifiers stay in their ranges, no row is
    repeated, the parameters of a signature lie in their array, whose positions
    are 32-bit while signatures have at most 65535 parameters. *)
Definition signature (a : DynAstProgram) (f : DynAstFnType) : list Z * Z * bool :=
  (fn_params a f, ft_return_type f, ft_variadic f).
Record types_ok (a : DynAstProgram) : Prop := {
  ok_pointers : NoDup (tab a POINTERS);
  ok_arrays : NoDup (tab a ARRAYS);
  ok_slices : NoDup (tab a SLICES);
  ok_fns : NoDup (map (signature a) (tab a FN_TYPES));
  ok_pointer_limit : tcount a POINTERS <= 65536;
  ok_array_limit : tcount a ARRAYS <= 65536;
  ok_slice_limit : tcount a SLICES <= 65536;
  ok_fn_limit : tcount a FN_TYPES <= 65536;
  ok_fn_room : tcount a FN_TYPE_PARAMS + 65535 * (65536 - tcount a FN_TYPES) <= 2 ^ 32;
  ok_fn_params : Forall (fun f => 0 <= ft_param_start f /\ 0 <= ft_param_count f /\
                                  ft_param_start f + ft_param_count f <= tcount a FN_TYPE_PARAMS) (tab a FN_TYPES) }.

(** ** Identifiers and types correspond *)
Lemma get_at_range {A} (l : list A) i x : get_at l i = Some x -> 0 <= i < zlen l.
Proof. intros [Hi _]%get_at_Some. done. Qed.
Lemma get_at_elem {A} (l : list A) i x : get_at l i = Some x -> x ∈ l.
Proof. intros [_ Hx]%get_at_Some. by eapply list_elem_of_lookup_2. Qed.
Lemma get_at_inj {A} (l : list A) i j x : NoDup l -> get_at l i = Some x -> get_at l j = Some x -> i = j.
Proof.
  intros Hnd [Hi Hx]%get_at_Some [Hj Hy]%get_at_Some.
  pose proof (NoDup_lookup _ _ _ _ Hnd Hx Hy). lia.
Qed.
Lemma get_at_map {A B} (f : A -> B) (l : list A) i x : get_at l i = Some x -> get_at (map f l) i = Some (f x).
Proof.
  intros [Hi Hx]%get_at_Some. apply get_at_Some. rewrite length_map. split; [done|]. by rewrite list_lookup_fmap, Hx.
Qed.
Lemma get_at_map_inj {A B} (f : A -> B) (l : list A) i j x y :
  NoDup (map f l) -> get_at l i = Some x -> get_at l j = Some y -> f x = f y -> i = j.
Proof.
  intros Hnd Hi%(get_at_map f) Hj%(get_at_map f) E. rewrite E in Hi. by eapply get_at_inj.
Qed.

Lemma is_compound_range t :
  is_compound t = (DYN_TYPE_POINTER_BASE <=? t) && (t <? DYN_TYPE_DISTINCT_BASE).
Proof.
  unfold is_compound, dyn_type_is_pointer, dyn_type_is_array, dyn_type_is_slice, dyn_type_is_function,
    DYN_TYPE_POINTER_BASE, DYN_TYPE_ARRAY_BASE, DYN_TYPE_SLICE_BASE, DYN_TYPE_FN_BASE, DYN_TYPE_DISTINCT_BASE.
  destruct (65536 <=? t) eqn:?, (t <? 131072) eqn:?, (131072 <=? t) eqn:?, (t <? 196608) eqn:?, (196608 <=? t) eqn:?,
    (t <? 262144) eqn:?, (262144 <=? t) eqn:?, (t <? 327680) eqn:?; to_prop; (reflexivity || lia).
Qed.

Ltac type_bases :=
  unfold DYN_TYPE_POINTER_BASE, DYN_TYPE_ARRAY_BASE, DYN_TYPE_SLICE_BASE, DYN_TYPE_FN_BASE, DYN_TYPE_DISTINCT_BASE,
    DYN_TYPE_STRUCT_BASE, DYN_TYPE_ENUM_BASE, DYN_TYPE_PARAM_BASE, DYN_TYPE_ERROR in *.

(** The tables have room only for identifiers of their own range. *)
Ltac type_ranges Hok :=
  pose proof (ok_pointer_limit _ Hok); pose proof (ok_array_limit _ Hok); pose proof (ok_slice_limit _ Hok);
  pose proof (ok_fn_limit _ Hok);
  unfold tcount in *;
  repeat match goal with
  | h : is_compound _ = _ |- _ => rewrite is_compound_range in h
  | h : get_at _ _ = Some _ |- _ => pose proof (get_at_range _ _ _ h); revert h
  end; intros; type_bases; to_prop.

(** Reading a type off its identifier. *)
Lemma denotes_base a t U : types_ok a -> is_compound t = false -> denotes a t U -> U = TBase t.
Proof. intros Hok Ht Hu. inversion Hu; subst; try done; type_ranges Hok; lia. Qed.
Lemma denotes_pointer a i p U :
  types_ok a -> get_at (tab a POINTERS) i = Some p -> denotes a (DYN_TYPE_POINTER_BASE + i) U ->
  exists T, U = TPointer T (po_is_const p) /\ denotes a (po_pointee p) T.
Proof.
  intros Hok Hi Hu. inversion Hu; subst; try (exfalso; type_ranges Hok; lia).
  assert (i0 = i) as -> by lia. simplify_eq. eauto.
Qed.
Lemma denotes_array a i p U :
  types_ok a -> get_at (tab a ARRAYS) i = Some p -> denotes a (DYN_TYPE_ARRAY_BASE + i) U ->
  exists T, U = TArray T (ar_length p) /\ denotes a (ar_element p) T.
Proof.
  intros Hok Hi Hu. inversion Hu; subst; try (exfalso; type_ranges Hok; lia).
  assert (i0 = i) as -> by lia. simplify_eq. eauto.
Qed.
Lemma denotes_slice a i p U :
  types_ok a -> get_at (tab a SLICES) i = Some p -> denotes a (DYN_TYPE_SLICE_BASE + i) U ->
  exists T, U = TSlice T (sl_is_const p) /\ denotes a (sl_element p) T.
Proof.
  intros Hok Hi Hu. inversion Hu; subst; try (exfalso; type_ranges Hok; lia).
  assert (i0 = i) as -> by lia. simplify_eq. eauto.
Qed.
Lemma denotes_function a i f U :
  types_ok a -> get_at (tab a FN_TYPES) i = Some f -> denotes a (DYN_TYPE_FN_BASE + i) U ->
  exists ps r, U = TFunction ps r (ft_variadic f) /\ Forall2 (denotes a) (fn_params a f) ps
               /\ denotes a (ft_return_type f) r.
Proof.
  intros Hok Hi Hu. inversion Hu; subst; try (exfalso; type_ranges Hok; lia).
  assert (i0 = i) as -> by lia. simplify_eq. eauto 6.
Qed.

(** Two identifiers of one type are equal. *)
Lemma denotes_unique a T : types_ok a -> forall t u, denotes a t T -> denotes a u T -> t = u.
Proof.
  intros Hok. induction T as [b|T c IH|T n IH|T c IH|ps r v IHps IHr] using ty_ind'; intros t u Ht Hu;
    inversion Ht; inversion Hu; subst; try done; f_equal.
  1-3: eapply get_at_inj; [|eassumption|]; [by apply Hok|];
    match goal with h : get_at _ ?j = Some ?q |- get_at _ ?j = Some ?p =>
      replace p with q; [done|destruct p, q; cbn in *; f_equal; eauto] end.
  eapply get_at_map_inj; [|eassumption..|]; [apply Hok|]. unfold signature. f_equal; [f_equal|done]; [|by eauto].
  match goal with h1 : Forall2 _ ?x ps, h2 : Forall2 _ ?y ps |- ?x = ?y => revert h1 h2; generalize x y end.
  clear -IHps. induction IHps as [|T ps HT Hps IH]; intros l l0 F F0; inversion F; inversion F0; subst; f_equal; eauto.
Qed.

(** An identifier has at most one type. *)
Lemma denotes_functional a t T U : types_ok a -> denotes a t T -> denotes a t U -> T = U.
Proof.
  intros Hok. revert t U. induction T as [b|T c IH|T n IH|T c IH|ps r v IHps IHr] using ty_ind'; intros t U Ht Hu;
    inversion Ht; subst.
  - by symmetry; apply (denotes_base a).
  - eapply denotes_pointer in Hu as (T' & -> & HT'); [|eassumption..]. f_equal. by eauto.
  - eapply denotes_array in Hu as (T' & -> & HT'); [|eassumption..]. f_equal. by eauto.
  - eapply denotes_slice in Hu as (T' & -> & HT'); [|eassumption..]. f_equal. by eauto.
  - eapply denotes_function in Hu as (ps' & r' & -> & Hps' & Hr'); [|eassumption..]. f_equal; [|by eauto].
    match goal with h1 : Forall2 _ ?x ps |- _ => revert h1 Hps'; generalize x end.
    clear -IHps. intros l F. revert ps'. induction F as [|x T l ps Hx F IH]; intros ps' F'; inversion F'; subst; [done|].
    inversion IHps; subst. f_equal; eauto.
Qed.

(** ** Interning keeps the invariant *)
Lemma find_index_Some {A} (p : A -> bool) l i :
  find_index p l = Some i -> exists x, get_at l i = Some x /\ p x = true.
Proof.
  revert i. induction l as [|y l IH]; intros i; cbn [find_index]; [done|]. destruct (p y) eqn:Hy.
  - intros [= <-]. exists y. by split.
  - destruct (find_index p l) as [j|]; [|done]. intros [= <-]. destruct (IH j eq_refl) as (x & Hx & Hp).
    exists x. split; [|done]. apply get_at_Some in Hx as [Hj Hx]. apply get_at_Some. cbn [length].
    split; [lia|]. by replace (Z.to_nat (j + 1)) with (S (Z.to_nat j)) by lia.
Qed.
Lemma find_index_None {A} (p : A -> bool) l : find_index p l = None -> Forall (fun x => p x = false) l.
Proof.
  induction l as [|y l IH]; cbn [find_index]; [constructor|]. destruct (p y) eqn:Hy; [done|].
  destruct (find_index p l); [done|]. constructor; auto.
Qed.

Section Interning.
Context {H : Host}.

(** Either the row was there, or it was appended, or memory or identifiers ran
    out, which is recorded. *)
Definition row_found (k : Tab) (base : Z) (same : row k -> bool) (s s' : St) (r : Z) : Prop :=
  same_rows (prog s) (prog s') /\
  exists i x, get_at (tab (prog s) k) i = Some x /\ same x = true /\ r = base + i.
Definition row_refused (s s' : St) (r : Z) : Prop :=
  same_rows (prog s) (prog s') /\ r = DYN_TYPE_ERROR /\ types_failed (prog s') = true.
Definition row_pushed (k : Tab) (base limit : Z) (same : row k -> bool) (x : row k) (s s' : St) (r : Z) : Prop :=
  tab (prog s') k = tab (prog s) k ++ [x] /\ (forall k', k <> k' -> tab (prog s') k' = tab (prog s) k')
  /\ r = base + tcount (prog s) k /\ tcount (prog s) k < limit - base
  /\ Forall (fun y => same y = false) (tab (prog s) k).

Lemma push_spec k x (s : St) :
  exists s', push k x s = Some (tcount (prog s) k, s') /\ same_analysis s s'
    /\ tab (prog s') k = tab (prog s) k ++ [x] /\ (forall k', k <> k' -> tab (prog s') k' = tab (prog s) k')
    /\ types_failed (prog s') = types_failed (prog s).
Proof.
  eexists. split; [reflexivity|]. split; [done|]. cbn. split; [by rewrite tab_set_same|].
  split; [|done]. intros. by rewrite tab_set_other.
Qed.

Lemma intern_row_spec k base limit initial same x (s : St) :
  exists r s', intern_row k base limit initial same x s = Some (r, s') /\ same_analysis s s'
    /\ (row_found k base same s s' r \/ row_refused s s' r \/ row_pushed k base limit same x s s' r)
    /\ (types_failed (prog s) = true -> types_failed (prog s') = true).
Proof.
  unfold intern_row, mbind at 1, ast. destruct (find_index _ _) as [i|] eqn:Hf.
  - apply find_index_Some in Hf as (y & Hy & Hs). eexists _, s. split; [reflexivity|].
    split; [done|]. split; [|done]. left. split; [done|]. eauto.
  - apply find_index_None in Hf. destruct (Z.leb_spec (limit - base) (tcount (prog s) k)) as [Hle|Hlt].
    + eexists _, _. split; [reflexivity|]. split; [done|]. split; [right; left|]; unfold row_refused, types_failed; cbn;
        by rewrite orb_true_r.
    + unfold mbind at 1, reserve. destruct (reserve_rows_spec k initial 1 s) as (ok & s1 & -> & Ha & Hr & Hfail & Hsame).
      destruct ok; cbn [negb].
      * unfold mbind. destruct (push_spec k x s1) as (s2 & -> & Ha2 & Hk & Hother & Hf2).
        eexists _, s2. split; [reflexivity|]. split; [by eapply same_analysis_trans|]. split.
        -- right; right. unfold row_pushed, tcount in *. rewrite Hk, Hr. repeat split; try done. intros. by rewrite Hother, Hr.
        -- rewrite Hf2, Hsame by done. done.
      * eexists _, s1. split; [reflexivity|]. split; [done|]. split; [|auto]. right; left. split; auto.
Qed.
End Interning.

(** ** Transport along growth *)
Lemma slice_at_app {A} (l l' : list A) start count :
  0 <= start -> 0 <= count -> start + count <= zlen l -> slice_at (l ++ l') start count = slice_at l start count.
Proof.
  intros Hs Hc Hle. unfold slice_at, zlen in *. rewrite skipn_app, firstn_app, length_skipn.
  replace (Z.to_nat count - (length l - Z.to_nat start))%nat with O by lia. by rewrite firstn_O, app_nil_r.
Qed.
Lemma fn_params_extends a a' f :
  types_ok a -> extends a a' -> f ∈ tab a FN_TYPES -> fn_params a' f = fn_params a f.
Proof.
  intros Hok E Hf. destruct (proj1 (Forall_forall _ _) (ok_fn_params a Hok) f Hf) as (? & ? & ?).
  destruct (E FN_TYPE_PARAMS) as [l El]. unfold fn_params. rewrite El. by apply slice_at_app.
Qed.
Lemma denotes_extends a a' T : types_ok a -> extends a a' -> forall t, denotes a t T -> denotes a' t T.
Proof.
  intros Hok E. induction T as [b|T c IH|T n IH|T c IH|ps r v IHps IHr] using ty_ind'; intros t Ht; inversion Ht; subst.
  - by constructor.
  - constructor; [by eapply extends_get|auto].
  - constructor; [by eapply extends_get|auto].
  - constructor; [by eapply extends_get|auto].
  - constructor; [by eapply extends_get| |auto].
    rewrite (fn_params_extends a) by (done || by eapply get_at_elem).
    match goal with h : Forall2 _ _ _ |- _ => revert h end. generalize (fn_params a f). clear -IHps.
    induction IHps as [|T ps HT Hps IH]; intros l F; inversion F; subst; constructor; auto.
Qed.

(** The invariant only looks at the five tables of types. *)
Lemma types_ok_same a a' :
  (forall k, k ∈ [POINTERS; ARRAYS; SLICES; FN_TYPES; FN_TYPE_PARAMS] -> tab a' k = tab a k) -> types_ok a -> types_ok a'.
Proof.
  intros E [H1 H2 H3 H4 H5 H6 H7 H8 Hr H9].
  assert (forall f, signature a' f = signature a f) as Es.
  { intros f. unfold signature, fn_params. by rewrite E by set_solver. }
  split; unfold tcount in *; rewrite ?E by set_solver; try done.
  by erewrite map_ext.
Qed.
Lemma types_ok_same_rows a a' : same_rows a a' -> types_ok a -> types_ok a'.
Proof. intros E. by apply types_ok_same. Qed.

Section Outcome.
Context {H : Host}.

(** What interning promises about the type it was asked for. *)
Record outcome (s s' : St) (r : Z) (T : ty) : Prop := {
  o_analysis : same_analysis s s';
  o_extends : extends (prog s) (prog s');
  o_ok : types_ok (prog s');
  o_failed : types_failed (prog s) = true -> types_failed (prog s') = true;
  o_denotes : types_failed (prog s') = false -> denotes (prog s') r T }.

Lemma row_pushed_extends k base limit same x s s' r :
  row_pushed k base limit same x s s' r -> extends (prog s) (prog s').
Proof.
  intros (Hk & Ho & _) k'. destruct (decide (k = k')) as [<-|Hne]; [by exists [x]|]. exists []. by rewrite Ho, app_nil_r.
Qed.
Lemma row_pushed_fresh k base limit same x s s' r :
  same x = true -> row_pushed k base limit same x s s' r -> NoDup (tab (prog s) k) ->
  NoDup (tab (prog s') k) /\ get_at (tab (prog s') k) (tcount (prog s) k) = Some x /\ tcount (prog s') k <= limit - base.
Proof.
  intros Hx (Hk & _ & _ & Hlt & Hall) Hnd. unfold tcount, zlen in *. rewrite Hk. split; [|split].
  - apply NoDup_app. split; [done|]. split; [|apply NoDup_singleton]. intros y Hy ->%list_elem_of_singleton.
    rewrite Forall_forall in Hall. specialize (Hall x Hy). congruence.
  - apply get_at_Some. rewrite length_app. cbn. split; [lia|]. rewrite Nat2Z.id. by apply list_lookup_middle.
  - rewrite length_app. cbn. lia.
Qed.
End Outcome.

Section InternOk.
Context {H : Host}.

Lemma types_ok_pushed k base limit same x (s s' : St) r :
  k ∈ [POINTERS; ARRAYS; SLICES] -> limit - base = 65536 -> same x = true ->
  row_pushed k base limit same x s s' r -> types_ok (prog s) -> types_ok (prog s').
Proof.
  intros Hk Hl Hx Hp Hok. pose proof Hok as [H1 H2 H3 H4 H5 H6 H7 H8 Hr H9]. pose proof Hp as (_ & Ho & _).
  assert (forall f, signature (prog s') f = signature (prog s) f) as Es.
  { intros f. unfold signature, fn_params. rewrite Ho; [done|]. set_solver. }
  assert (k = POINTERS \/ k = ARRAYS \/ k = SLICES) as [->|[->| ->]] by set_solver;
    destruct (row_pushed_fresh _ _ _ _ _ _ _ _ Hx Hp ltac:(assumption)) as (Hnd & _ & Hle);
    split; unfold tcount in *; rewrite ?Ho by discriminate; try done; try lia; by erewrite map_ext.
Qed.

Lemma intern_row_ok k base limit initial same x (s : St) T :
  k ∈ [POINTERS; ARRAYS; SLICES] -> limit - base = 65536 -> types_ok (prog s) ->
  (forall y, same y = true <-> y = x) ->
  (types_failed (prog s) = false ->
   forall a' i, extends (prog s) a' -> get_at (tab a' k) i = Some x -> denotes a' (base + i) T) ->
  exists r s', intern_row k base limit initial same x s = Some (r, s') /\ outcome s s' r T.
Proof.
  intros Hk Hl Hok Hx Hden. pose proof (proj2 (Hx x) eq_refl) as Hxx.
  destruct (intern_row_spec k base limit initial same x s) as (r & s' & E & Ha & Hcase & Hf).
  exists r, s'. split; [done|]. destruct Hcase as [(Hr & i & y & Hi & Hy & ->)|[(Hr & -> & Hfail)|Hp]].
  - apply Hx in Hy as ->. split; [done|by apply same_rows_extends|by eapply types_ok_same_rows|done|].
    intros Hn. apply Hden; [by destruct (types_failed (prog s)); [rewrite Hf in Hn|]|by apply same_rows_extends|]. by rewrite Hr.
  - split; [done|by apply same_rows_extends|by eapply types_ok_same_rows|done|congruence].
  - split; [done|by eapply row_pushed_extends|by eapply types_ok_pushed|done|]. intros Hn.
    pose proof Hp as (_ & _ & -> & _). apply Hden; [by destruct (types_failed (prog s)); [rewrite Hf in Hn|]|by eapply row_pushed_extends|].
    eapply row_pushed_fresh; [done..|]. assert (k = POINTERS \/ k = ARRAYS \/ k = SLICES) as [->|[->| ->]] by set_solver; apply Hok.
Qed.

Lemma intern_pointer_ok pointee c (s : St) T :
  types_ok (prog s) -> (types_failed (prog s) = false -> denotes (prog s) pointee T) ->
  exists r s', intern_pointer pointee c s = Some (r, s') /\ outcome s s' r (TPointer T c).
Proof.
  intros Hok HT. apply intern_row_ok; [set_solver|done|done| |].
  - intros [q d]. cbn. rewrite andb_true_iff, Z.eqb_eq, eqb_true_iff. naive_solver.
  - intros Hn a' i E Hi. apply (d_pointer a' i (mkPointer pointee c)); [done|]. eapply denotes_extends; eauto.
Qed.
Lemma intern_array_ok element n (s : St) T :
  types_ok (prog s) -> (types_failed (prog s) = false -> denotes (prog s) element T) ->
  exists r s', intern_array element n s = Some (r, s') /\ outcome s s' r (TArray T n).
Proof.
  intros Hok HT. apply intern_row_ok; [set_solver|done|done| |].
  - intros [q d]. cbn. rewrite andb_true_iff, !Z.eqb_eq. naive_solver.
  - intros Hn a' i E Hi. apply (d_array a' i (mkAstArray element n)); [done|]. eapply denotes_extends; eauto.
Qed.
Lemma intern_slice_ok element c (s : St) T :
  types_ok (prog s) -> (types_failed (prog s) = false -> denotes (prog s) element T) ->
  exists r s', intern_slice element c s = Some (r, s') /\ outcome s s' r (TSlice T c).
Proof.
  intros Hok HT. apply intern_row_ok; [set_solver|done|done| |].
  - intros [q d]. cbn. rewrite andb_true_iff, Z.eqb_eq, eqb_true_iff. naive_solver.
  - intros Hn a' i E Hi. apply (d_slice a' i (mkSlice element c)); [done|]. eapply denotes_extends; eauto.
Qed.

Lemma push_params_spec ps (s : St) :
  exists s', push_params ps s = Some (tt, s') /\ same_analysis s s'
    /\ tab (prog s') FN_TYPE_PARAMS = tab (prog s) FN_TYPE_PARAMS ++ ps
    /\ (forall k', FN_TYPE_PARAMS <> k' -> tab (prog s') k' = tab (prog s) k')
    /\ types_failed (prog s') = types_failed (prog s).
Proof.
  revert s. induction ps as [|p ps IH]; intros s; cbn [push_params].
  { exists s. rewrite app_nil_r. done. }
  unfold mbind. destruct (push_spec FN_TYPE_PARAMS p s) as (s1 & -> & Ha & Hk & Ho & Hf).
  destruct (IH s1) as (s2 & -> & Ha2 & Hk2 & Ho2 & Hf2). exists s2. split; [done|].
  split; [by eapply same_analysis_trans|]. rewrite Hk2, Hk, <- app_assoc. split; [done|].
  split; [|congruence]. intros k' Hne. by rewrite Ho2, Ho.
Qed.

(** The tables after a new signature. *)
Lemma types_ok_new_fn (a a' : DynAstProgram) ps result variadic :
  types_ok a -> zlen ps <= 65535 -> tcount a FN_TYPES < 65536 ->
  Forall (fun f => same_signature a ps result variadic f = false) (tab a FN_TYPES) ->
  tab a' FN_TYPE_PARAMS = tab a FN_TYPE_PARAMS ++ ps ->
  tab a' FN_TYPES = tab a FN_TYPES ++ [mkFnType result (u32 (tcount a FN_TYPE_PARAMS)) (zlen ps) variadic] ->
  (forall k, k <> FN_TYPES -> k <> FN_TYPE_PARAMS -> tab a' k = tab a k) ->
  types_ok a' /\ extends a a' /\ fn_params a' (mkFnType result (u32 (tcount a FN_TYPE_PARAMS)) (zlen ps) variadic) = ps.
Proof.
  intros Hok Hps Hlt Hnew Ep Ef Eo. set (f := mkFnType _ _ _ _) in *.
  pose proof (ok_fn_room a Hok) as Hroom. unfold tcount, zlen in *.
  assert (u32 (Z.of_nat (length (tab a FN_TYPE_PARAMS))) = Z.of_nat (length (tab a FN_TYPE_PARAMS))) as Eu by (apply u32_small; lia).
  assert (extends a a') as Ex.
  { intros k. destruct (decide (k = FN_TYPES)) as [->|]; [by eexists|].
    destruct (decide (k = FN_TYPE_PARAMS)) as [->|]; [by eexists|]. exists []. by rewrite Eo, app_nil_r. }
  assert (fn_params a' f = ps) as Eps.
  { unfold fn_params, slice_at. subst f. cbn [ft_param_start ft_param_count]. rewrite Ep, Eu, !Nat2Z.id, skipn_app, skipn_all, Nat.sub_diag. cbn.
    by rewrite firstn_all. }
  split; [|done]. pose proof Hok as [H1 H2 H3 H4 H5 H6 H7 H8 _ H9].
  split; unfold tcount, zlen in *; rewrite ?Ef, ?Ep, ?(Eo POINTERS), ?(Eo ARRAYS), ?(Eo SLICES) by discriminate; try done;
    rewrite ?length_app; cbn [length]; try lia.
  - rewrite map_app. apply NoDup_app. split; [|split; [|apply NoDup_singleton]].
    + erewrite map_ext_in; [exact H4|]. intros g Hg%list_elem_of_In. unfold signature. by rewrite (fn_params_extends a).
    + intros g Hg E%list_elem_of_singleton. apply list_elem_of_fmap in Hg as (g' & -> & Hg').
      rewrite Forall_forall in Hnew. specialize (Hnew g' Hg').
      unfold signature in E. rewrite Eps, (fn_params_extends a) in E by done. injection E as E1 E2 E3.
      unfold same_signature in Hnew. rewrite E1, E2, E3, bool_decide_true, Z.eqb_refl, eqb_reflx in Hnew by done.
      cbn in Hnew. rewrite !andb_true_r in Hnew. apply Z.eqb_neq in Hnew. destruct (proj1 (Forall_forall _ _) H9 g' Hg') as (? & ? & ?).
      apply Hnew. rewrite <- E1. unfold zlen, fn_params, slice_at. rewrite length_firstn, length_skipn. lia.
  - change (@length (row FN_TYPE_PARAMS) ps) with (@length Z ps). lia.
  - change (@length (row FN_TYPE_PARAMS) ps) with (@length Z ps). apply Forall_app.
    split; [eapply Forall_impl; [exact H9|]; cbn; lia|]. constructor; [|constructor]. subst f. cbn [ft_param_start ft_param_count]. lia.
Qed.

Lemma intern_fn_type_ok ps result variadic (s : St) Ps R :
  types_ok (prog s) -> zlen ps <= 65535 ->
  (types_failed (prog s) = false -> Forall2 (denotes (prog s)) ps Ps /\ denotes (prog s) result R) ->
  exists r s', intern_fn_type_ex ps result variadic s = Some (r, s') /\ outcome s s' r (TFunction Ps R variadic).
Proof.
  intros Hok Hps Hden. unfold intern_fn_type_ex, mbind at 1, ast.
  destruct (find_index _ _) as [i|] eqn:Hf.
  { apply find_index_Some in Hf as (f & Hi & Hs). eexists _, s. split; [reflexivity|]. split; auto with dyn; [done|].
    intros [HPs HR]%Hden. unfold same_signature in Hs. rewrite !andb_true_iff, bool_decide_eq_true, Z.eqb_eq, eqb_true_iff in Hs.
    destruct Hs as (((<- & _) & <-) & <-). by econstructor. }
  apply find_index_None in Hf. destruct (Z.leb_spec (DYN_TYPE_DISTINCT_BASE - DYN_TYPE_FN_BASE) (tcount (prog s) FN_TYPES)) as [|Hlt].
  { eexists _, _. split; [reflexivity|]. split; [done|by apply same_rows_extends|by apply (types_ok_same_rows (prog s))|..];
      unfold types_failed; cbn; by rewrite orb_true_r. }
  unfold mbind at 1, reserve_fn_type, reserve_fn_type_params, reserve. destruct (reserve_rows_spec FN_TYPES 8 1 s) as (ok & s1 & -> & Ha1 & Hr1 & Hfail1 & Hsame1).
  destruct ok; cbn [negb].
  2: { eexists _, s1. split; [reflexivity|]. split; auto with dyn; [by eapply types_ok_same_rows|]. intros. rewrite Hfail1 in *; done. }
  unfold mbind at 1. destruct (reserve_rows_spec FN_TYPE_PARAMS 16 (zlen ps) s1) as (ok & s2 & -> & Ha2 & Hr2 & Hfail2 & Hsame2).
  pose proof (same_analysis_trans _ _ _ Ha1 Ha2) as Ha. pose proof (same_rows_trans _ _ _ Hr1 Hr2) as Hr.
  destruct ok; cbn [negb].
  2: { eexists _, s2. split; [reflexivity|]. split; auto with dyn; [by eapply types_ok_same_rows|]. intros. rewrite Hfail2 in *; done. }
  unfold mbind at 1 2, ast. destruct (push_params_spec ps s2) as (s3 & -> & Ha3 & Hk3 & Ho3 & Hf3).
  unfold mbind. destruct (push_spec FN_TYPES (mkFnType result (u32 (tcount (prog s2) FN_TYPE_PARAMS)) (zlen ps) variadic) s3)
    as (s4 & -> & Ha4 & Hk4 & Ho4 & Hf4). eexists _, s4. split; [reflexivity|].
  unfold tcount in *. rewrite Hr in *. rewrite Ho3, Hr in Hk4 by done. rewrite (Ho3 FN_TYPES), Hr by done.
  destruct (types_ok_new_fn (prog s) (prog s4) ps result variadic Hok Hps) as (Hok4 & Hex & Hpar); try done.
  { rewrite Ho4 by done. by rewrite Hk3. }
  { intros k Hne Hne'. by rewrite Ho4, Ho3, Hr by done. }
  split; [|done|done|by rewrite Hf4, Hf3, Hsame2, Hsame1|].
  { eapply same_analysis_trans; [exact Ha|]. by eapply same_analysis_trans. }
  intros Hn. rewrite Hf4, Hf3, Hsame2, Hsame1 in Hn by done. destruct (Hden Hn) as [HPs HR].
  apply (d_function _ _ (mkFnType result (u32 (tcount (prog s) FN_TYPE_PARAMS)) (zlen ps) variadic)).
  - apply get_at_Some. unfold tcount. rewrite Hk4, length_app. cbn. unfold zlen. split; [lia|]. rewrite Nat2Z.id. by apply list_lookup_middle.
  - rewrite Hpar. eapply Forall2_impl; [exact HPs|]. intros. by apply (denotes_extends (prog s)).
  - by apply (denotes_extends (prog s)).
Qed.
End InternOk.

(** ** Substitution is substitution *)
Fixpoint ty_subst (As : list ty) (T : ty) : ty :=
  match T with
  | TBase t => if dyn_type_is_param t then match get_at As (t - DYN_TYPE_PARAM_BASE) with Some A => A | None => T end else T
  | TPointer T c => TPointer (ty_subst As T) c
  | TArray T n => TArray (ty_subst As T) n
  | TSlice T c => TSlice (ty_subst As T) c
  | TFunction ps r v =>
      if (64 <? zlen ps) || v then T else TFunction (map (ty_subst As) ps) (ty_subst As r) v
  end.
Fixpoint height (T : ty) : nat :=
  match T with
  | TBase _ => 0
  | TPointer T _ | TArray T _ | TSlice T _ => S (height T)
  | TFunction ps r _ => S (max (list_max (map height ps)) (height r))
  end.

Section Substitution.
Context {H : Host} (args : list Z) (As : list ty).

Lemma outcome_refl (s : St) r T :
  types_ok (prog s) -> (types_failed (prog s) = false -> denotes (prog s) r T) -> outcome s s r T.
Proof. intros Hok Hd. split; auto with dyn; done. Qed.
Lemma outcome_step (s s1 s2 : St) r1 T1 r2 T2 : outcome s s1 r1 T1 -> outcome s1 s2 r2 T2 -> outcome s s2 r2 T2.
Proof.
  intros [A1 E1 O1 F1 D1] [A2 E2 O2 F2 D2]. split; auto.
  - by eapply same_analysis_trans.
  - by eapply extends_trans.
Qed.
(** A type of an earlier state, unless that failed. *)
Lemma outcome_denotes (s s1 s2 : St) r1 T1 r2 T2 :
  outcome s s1 r1 T1 -> outcome s1 s2 r2 T2 -> types_failed (prog s2) = false -> denotes (prog s2) r1 T1.
Proof.
  intros [A1 E1 O1 F1 D1] [A2 E2 O2 F2 D2] Hn. apply (denotes_extends (prog s1)); [done..|]. apply D1.
  destruct (types_failed (prog s1)); [|done]. rewrite F2 in Hn; done.
Qed.

(** Substitution on an identifier of [T], in any state with these arguments. *)
Definition substitutes (sub : Z -> M Z) (T : ty) : Prop :=
  forall (s : St) t, types_ok (prog s) -> denotes (prog s) t T -> Forall2 (denotes (prog s)) args As ->
  exists r s', sub t s = Some (r, s') /\ outcome s s' r (ty_subst As T).

Lemma args_extend (a a' : DynAstProgram) :
  types_ok a -> extends a a' -> Forall2 (denotes a) args As -> Forall2 (denotes a') args As.
Proof. intros. eapply Forall2_impl; [done|]. intros. by apply (denotes_extends a). Qed.

Lemma substitute_params_ok sub Ts (olds : list Z) at_ (s : St) :
  Forall (substitutes sub) Ts -> types_ok (prog s) -> Forall2 (denotes (prog s)) args As ->
  Forall2 (denotes (prog s)) olds Ts ->
  (forall j old, get_at olds j = Some old -> get_at (tab (prog s) FN_TYPE_PARAMS) (at_ + j) = Some old) ->
  exists ps changed s', substitute_params sub (length olds) at_ s = Some ((ps, changed), s')
    /\ same_analysis s s' /\ extends (prog s) (prog s') /\ types_ok (prog s')
    /\ (types_failed (prog s) = true -> types_failed (prog s') = true) /\ length ps = length olds
    /\ (types_failed (prog s') = false -> Forall2 (denotes (prog s')) ps (map (ty_subst As) Ts))
    /\ (changed = false -> ps = olds).
Proof.
  revert Ts at_ s. induction olds as [|old olds IH]; intros Ts at_ s HTs Hok Hargs Holds Hat; inversion Holds; subst.
  { exists [], false, s. split; [done|]. split; [done|]. split; [auto with dyn|]. do 3 (split; [done|]). split; [constructor|done]. }
  inversion HTs; subst. cbn [length substitute_params]. unfold mbind at 1, read.
  pose proof (Hat 0 old ltac:(reflexivity)) as E0. rewrite Z.add_0_r in E0. rewrite E0.
  edestruct (H3 s old) as (r & s1 & E1 & O1); [done..|]. unfold mbind at 1. rewrite E1.
  destruct O1 as [A1 X1 K1 F1 D1].
  destruct (IH l' (at_ + 1) s1) as (ps & changed & s2 & E2 & A2 & X2 & K2 & F2 & Hlen & D2 & C2); try done.
  - by apply (args_extend (prog s)).
  - eapply Forall2_impl; [done|]. intros. by apply (denotes_extends (prog s)).
  - intros j o Hj. eapply extends_get; [exact X1|]. replace (at_ + 1 + j) with (at_ + (j + 1)) by lia. apply Hat.
    apply get_at_Some in Hj as [Hr Hj]. apply get_at_Some. cbn [length]. split; [lia|].
    by replace (Z.to_nat (j + 1)) with (S (Z.to_nat j)) by lia.
  - unfold mbind. rewrite E2. eexists _, _, s2. split; [reflexivity|].
    split; [by eapply same_analysis_trans|]. split; [by eapply extends_trans|]. split; [done|]. split; [auto|].
    split; [cbn; lia|]. split.
    + intros Hn. constructor; [|auto]. apply (denotes_extends (prog s1)); [done..|]. apply D1.
      destruct (types_failed (prog s1)); [|done]. rewrite F2 in Hn; done.
    + intros [Hr Hc]%orb_false_iff. apply negb_false_iff, Z.eqb_eq in Hr. rewrite Hr, (C2 Hc). done.
Qed.
End Substitution.

(** Decides the kind tests of an identifier whose range is known. *)
Ltac type_tests :=
  unfold dyn_type_is_param, dyn_type_is_pointer, dyn_type_is_slice, dyn_type_is_array, dyn_type_is_function,
    dyn_type_is_struct, dyn_type_is_enum, dyn_type_is_distinct, DYN_MAX_TYPE_PARAMS; type_bases; zb; cbn [andb orb].

Section SubstituteOk.
Context {H : Host} (args : list Z) (As : list ty).

(** The end of a compound type: [t] again when its part did not change, else
    the new part is interned. *)
Lemma substitute_part (s s1 : St) t old r T T1 (wrap_ : ty -> ty) (again : M Z) :
  types_ok (prog s) -> denotes (prog s) old T -> denotes (prog s) t (wrap_ T) -> outcome s s1 r T1 ->
  (exists r' s', again s1 = Some (r', s') /\ outcome s1 s' r' (wrap_ T1)) ->
  exists r' s', (if r =? old then mret t else again) s1 = Some (r', s') /\ outcome s s' r' (wrap_ T1).
Proof.
  intros Hok Hold Ht O1 (r' & s' & E & O'). destruct (Z.eqb_spec r old) as [->|].
  - exists t, s1. split; [done|]. destruct O1 as [A1 X1 K1 F1 D1]. split; auto.
    intros Hn. rewrite (denotes_functional _ _ T1 T K1 (D1 Hn)); by apply (denotes_extends (prog s)).
  - exists r', s'. split; [done|]. by eapply outcome_step.
Qed.

Lemma denotes_param_range (a : DynAstProgram) t T : types_ok a -> denotes a t T -> dyn_type_is_param t = true -> T = TBase t.
Proof.
  intros Hok HT Hp. apply (denotes_base a); [done| |done]. rewrite is_compound_range. unfold dyn_type_is_param in Hp.
  type_bases. to_prop. by zb.
Qed.

Lemma slice_at_get {A} (l : list A) start count j x :
  0 <= start -> get_at (slice_at l start count) j = Some x -> get_at l (start + j) = Some x.
Proof.
  intros Hs [Hj Hx]%get_at_Some. unfold slice_at in *. rewrite length_firstn, length_skipn in Hj.
  rewrite lookup_take_lt, lookup_drop in Hx by lia. apply get_at_Some. split; [lia|].
  by replace (Z.to_nat (start + j)) with (Z.to_nat start + Z.to_nat j)%nat by lia.
Qed.

Lemma substitute_function (sub : Z -> M Z) (s : St) i f ps R :
  types_ok (prog s) -> Forall2 (denotes (prog s)) args As -> get_at (tab (prog s) FN_TYPES) i = Some f ->
  Forall2 (denotes (prog s)) (fn_params (prog s) f) ps -> denotes (prog s) (ft_return_type f) R ->
  Forall (substitutes args As sub) ps -> substitutes args As sub R -> (64 <? ft_param_count f) || ft_variadic f = false ->
  exists r s',
    (let! (qs, changed) := substitute_params sub (Z.to_nat (ft_param_count f)) (ft_param_start f) in
     let! result := sub (ft_return_type f) in
     if negb changed && (result =? ft_return_type f) then mret (DYN_TYPE_FN_BASE + i) else intern_fn_type qs result) s
    = Some (r, s') /\ outcome s s' r (TFunction (map (ty_subst As) ps) (ty_subst As R) false).
Proof.
  intros Hok Hargs Hi Hps HR Sps SR Hsmall. apply orb_false_iff in Hsmall as [Hc Hv].
  destruct (proj1 (Forall_forall _ _) (ok_fn_params _ Hok) f (get_at_elem _ _ _ Hi)) as (? & ? & ?).
  assert (length (fn_params (prog s) f) = Z.to_nat (ft_param_count f)) as Hlen.
  { unfold fn_params, slice_at. rewrite length_firstn, length_skipn. unfold tcount, zlen in *. lia. }
  destruct (substitute_params_ok args As sub ps (fn_params (prog s) f) (ft_param_start f) s)
    as (qs & changed & s1 & E1 & A1 & X1 & K1 & F1 & L1 & D1 & C1); try done.
  { intros j old. by apply slice_at_get. }
  unfold mbind at 1. rewrite Hlen in E1. rewrite E1.
  destruct (SR s1 (ft_return_type f)) as (r & s2 & E2 & [A2 X2 K2 F2 D2]); [done| | |].
  { by apply (denotes_extends (prog s)). }
  { by apply (args_extend args As (prog s)). }
  assert (types_failed (prog s2) = false -> Forall2 (denotes (prog s2)) qs (map (ty_subst As) ps)) as D1'.
  { intros Hn. eapply Forall2_impl; [apply D1|by intros; apply (denotes_extends (prog s1))].
    destruct (types_failed (prog s1)); [|done]. rewrite F2 in Hn; done. }
  unfold mbind. rewrite E2.
  assert (outcome s s2 r (ty_subst As R)) as O2.
  { split; auto; [by eapply same_analysis_trans|by eapply extends_trans]. }
  destruct (negb changed && (r =? ft_return_type f)) eqn:Ht.
  - apply andb_true_iff in Ht as [Hch%negb_true_iff Hr%Z.eqb_eq]. rewrite (C1 Hch) in *. subst r.
    eexists _, s2. split; [reflexivity|]. destruct O2 as [A X K F D]. split; auto. intros Hn. rewrite <- Hv.
    apply (d_function _ _ f); [by eapply extends_get| |auto]. rewrite (fn_params_extends (prog s)); [auto|done..|by eapply get_at_elem].
  - unfold intern_fn_type. destruct (intern_fn_type_ok qs r false s2 (map (ty_subst As) ps) (ty_subst As R)) as (r' & s3 & -> & O3); [done| |auto|].
    { unfold zlen. rewrite L1, Hlen. to_prop. lia. }
    eexists _, _. split; [reflexivity|]. by eapply outcome_step.
Qed.

(** A parameter becomes its argument, another simple type stays. *)
Lemma substitute_base n (s : St) t :
  length args = 8%nat -> types_ok (prog s) -> is_compound t = false -> Forall2 (denotes (prog s)) args As ->
  exists r s', dyn_ast_substitute (S n) t args s = Some (r, s') /\ outcome s s' r (ty_subst As (TBase t)).
Proof.
  intros Hlen Hok Hb Hargs. cbn [dyn_ast_substitute ty_subst]. destruct (dyn_type_is_param t) eqn:Hp.
  - unfold lift. unfold dyn_type_is_param, DYN_MAX_TYPE_PARAMS in Hp. to_prop.
    destruct (get_at_is_Some args (t - DYN_TYPE_PARAM_BASE)) as [x Hx]; [lia|]. rewrite Hx.
    apply get_at_Some in Hx as [Hr Hx]. destruct (Forall2_lookup_l _ _ _ _ _ Hargs Hx) as (A & HA & Hd).
    rewrite (proj2 (get_at_Some As _ A)).
    2: { split; [|done]. rewrite <- (Forall2_length _ _ _ Hargs). done. }
    eexists _, s. split; [reflexivity|]. by apply outcome_refl.
  - pose proof Hb as Hb'. unfold is_compound in Hb'. rewrite !orb_false_iff in Hb'.
    destruct Hb' as (((-> & ->) & ->) & ->). eexists _, s. split; [reflexivity|]. apply outcome_refl; [done|]. by constructor.
Qed.

Lemma substitute_ok fuel T :
  length args = 8%nat -> (height T < fuel)%nat -> substitutes args As (fun t => dyn_ast_substitute fuel t args) T.
Proof.
  intros Hlen. revert T. induction fuel as [|n IH]; intros T Hh s t Hok HT Hargs; [lia|]. cbn [dyn_ast_substitute].
  inversion HT as [t' Hb|i p T' Hi HT'|i p T' Hi HT'|i p T' Hi HT'|i f ps R Hi Hps HR]; subst; cbn [height] in Hh.
  - by apply (substitute_base n).
  - pose proof (get_at_range _ _ _ Hi). pose proof (ok_pointer_limit _ Hok). unfold tcount in *.
    assert (dyn_type_is_param (DYN_TYPE_POINTER_BASE + i) = false /\ dyn_type_is_pointer (DYN_TYPE_POINTER_BASE + i) = true)
      as [-> ->] by (split; by type_tests).
    unfold mbind at 1, read. replace (DYN_TYPE_POINTER_BASE + i - DYN_TYPE_POINTER_BASE) with i by lia. rewrite Hi.
    destruct (IH T' ltac:(lia) s _ Hok HT' Hargs) as (r & s1 & E1 & O1). unfold mbind. rewrite E1. cbn [ty_subst].
    apply (substitute_part s s1 _ _ r T' _ (fun T => TPointer T (po_is_const p))); try done.
    apply intern_pointer_ok; apply O1.
  - pose proof (get_at_range _ _ _ Hi). pose proof (ok_array_limit _ Hok). unfold tcount in *.
    assert (dyn_type_is_param (DYN_TYPE_ARRAY_BASE + i) = false /\ dyn_type_is_pointer (DYN_TYPE_ARRAY_BASE + i) = false
            /\ dyn_type_is_slice (DYN_TYPE_ARRAY_BASE + i) = false /\ dyn_type_is_array (DYN_TYPE_ARRAY_BASE + i) = true)
      as (-> & -> & -> & ->) by (repeat split; by type_tests).
    unfold mbind at 1, read. replace (DYN_TYPE_ARRAY_BASE + i - DYN_TYPE_ARRAY_BASE) with i by lia. rewrite Hi.
    destruct (IH T' ltac:(lia) s _ Hok HT' Hargs) as (r & s1 & E1 & O1). unfold mbind. rewrite E1. cbn [ty_subst].
    apply (substitute_part s s1 _ _ r T' _ (fun T => TArray T (ar_length p))); try done.
    apply intern_array_ok; apply O1.
  - pose proof (get_at_range _ _ _ Hi). pose proof (ok_slice_limit _ Hok). unfold tcount in *.
    assert (dyn_type_is_param (DYN_TYPE_SLICE_BASE + i) = false /\ dyn_type_is_pointer (DYN_TYPE_SLICE_BASE + i) = false
            /\ dyn_type_is_slice (DYN_TYPE_SLICE_BASE + i) = true) as (-> & -> & ->) by (repeat split; by type_tests).
    unfold mbind at 1, read. replace (DYN_TYPE_SLICE_BASE + i - DYN_TYPE_SLICE_BASE) with i by lia. rewrite Hi.
    destruct (IH T' ltac:(lia) s _ Hok HT' Hargs) as (r & s1 & E1 & O1). unfold mbind. rewrite E1. cbn [ty_subst].
    apply (substitute_part s s1 _ _ r T' _ (fun T => TSlice T (sl_is_const p))); try done.
    apply intern_slice_ok; apply O1.
  - pose proof (get_at_range _ _ _ Hi). pose proof (ok_fn_limit _ Hok). unfold tcount in *.
    assert (dyn_type_is_param (DYN_TYPE_FN_BASE + i) = false /\ dyn_type_is_pointer (DYN_TYPE_FN_BASE + i) = false
            /\ dyn_type_is_slice (DYN_TYPE_FN_BASE + i) = false /\ dyn_type_is_array (DYN_TYPE_FN_BASE + i) = false
            /\ dyn_type_is_function (DYN_TYPE_FN_BASE + i) = true) as (-> & -> & -> & -> & ->) by (repeat split; by type_tests).
    unfold mbind at 1, read. replace (DYN_TYPE_FN_BASE + i - DYN_TYPE_FN_BASE) with i by lia. rewrite Hi.
    assert (zlen ps = ft_param_count f) as Hn.
    { destruct (proj1 (Forall_forall _ _) (ok_fn_params _ Hok) f (get_at_elem _ _ _ Hi)) as (? & ? & ?).
      unfold zlen. rewrite <- (Forall2_length _ _ _ Hps). unfold fn_params, slice_at.
      rewrite length_firstn, length_skipn. unfold tcount, zlen in *. lia. }
    cbn [ty_subst]. rewrite Hn. destruct ((64 <? ft_param_count f) || ft_variadic f) eqn:Hsmall.
    + eexists _, s. split; [reflexivity|]. by apply outcome_refl.
    + pose proof (proj2 (proj1 (orb_false_iff _ _) Hsmall)) as ->. eapply (substitute_function); try done.
      * apply Forall_forall. intros T HTin. apply IH. apply list_elem_of_In, (in_map height) in HTin.
        pose proof (proj1 (list_max_le _ _) (Nat.le_refl (list_max (map height ps)))) as Hall. rewrite Forall_forall in Hall.
        apply list_elem_of_In, Hall in HTin. lia.
      * apply IH. lia.
Qed.
End SubstituteOk.

(** Every allocation succeeds and no table of types is full. *)
Definition room_left {H : Host} (s : St) : Prop :=
  (forall w n, fst (allocate w n) = true) /\ forall k, k ∈ [POINTERS; ARRAYS; SLICES; FN_TYPES] -> tcount (prog s) k < 65536.
(** The operation gives the one identifier of [T], keeps the meaning of the
    others, and fails only for lack of memory or of identifiers. *)
Definition interns {H : Host} (s : St) (op : M Z) (T : ty) : Prop :=
  exists r s', op s = Some (r, s') /\ types_ok (prog s') /\ (forall u U, denotes (prog s) u U -> denotes (prog s') u U)
    /\ (types_failed (prog s') = false -> denotes (prog s') r T /\ forall u U, denotes (prog s') u U -> u = r <-> U = T)
    /\ (room_left s -> types_failed (prog s') = types_failed (prog s)).
Lemma outcome_interns {H : Host} (s : St) (op : M Z) T :
  types_ok (prog s) -> (exists r s', op s = Some (r, s') /\ outcome s s' r T) ->
  (forall r s', room_left s -> op s = Some (r, s') -> types_failed (prog s') = types_failed (prog s)) -> interns s op T.
Proof.
  intros Hok (r & s' & E & [A X K F D]) Hroom. exists r, s'. split; [done|]. split; [done|].
  split; [intros u U HU; exact (denotes_extends _ _ _ Hok X _ HU)|]. split; [|intros Hr; exact (Hroom _ _ Hr E)]. intros Hn. specialize (D Hn).
  split; [done|]. intros u U HU. split; intros ->; [by eapply denotes_functional|by eapply denotes_unique].
Qed.
Lemma reserve_willing {H : Host} k initial extra (s s' : St) b : (forall w n, fst (allocate w n) = true) ->
  reserve_rows k initial extra s = Some (b, s') -> b = true /\ types_failed (prog s') = types_failed (prog s).
Proof.
  intros Hw. unfold reserve_rows. destruct (_ <=? _); [by intros [= <- <-]|]. cbv zeta.
  specialize (Hw (world s)). destruct (allocate (world s) _) as [got w] eqn:E.
  specialize (Hw (doubled (Z.to_nat (zlen (rows (tables (prog s) k)) + extra)) (if room (tables (prog s) k) =? 0 then initial
    else room (tables (prog s) k) * 2) (zlen (rows (tables (prog s) k)) + extra))). rewrite E in Hw. cbn in Hw. subst got.
  by intros [= <- <-].
Qed.
Lemma intern_row_room {H : Host} k base limit initial same x (s s' : St) r :
  room_left s -> k ∈ [POINTERS; ARRAYS; SLICES] -> limit - base = 65536 ->
  intern_row k base limit initial same x s = Some (r, s') -> types_failed (prog s') = types_failed (prog s).
Proof.
  intros [Hw Hroom] Hk Hl. unfold intern_row, mbind at 1, ast. destruct (find_index _ _); [by intros [= <- <-]|].
  pose proof (Hroom k ltac:(set_solver)). rewrite (proj2 (Z.leb_gt _ _)) by lia. unfold mbind at 1, reserve.
  destruct (reserve_rows k initial 1 s) as [[b s1]|] eqn:E; [|done].
  destruct (reserve_willing _ _ _ _ _ _ Hw E) as [-> <-]. cbn [negb]. unfold mbind, push. by intros [= <- <-].
Qed.
Lemma intern_fn_room {H : Host} ps result variadic (s s' : St) r :
  room_left s -> intern_fn_type_ex ps result variadic s = Some (r, s') -> types_failed (prog s') = types_failed (prog s).
Proof.
  intros [Hw Hroom]. unfold intern_fn_type_ex, mbind at 1, ast. destruct (find_index _ _); [by intros [= <- <-]|].
  pose proof (Hroom FN_TYPES ltac:(set_solver)).
  rewrite (proj2 (Z.leb_gt _ _)) by (change (DYN_TYPE_DISTINCT_BASE - DYN_TYPE_FN_BASE) with 65536; lia).
  unfold mbind at 1, reserve_fn_type, reserve. destruct (reserve_rows FN_TYPES 8 1 s) as [[b s1]|] eqn:E; [|done].
  destruct (reserve_willing _ _ _ _ _ _ Hw E) as [-> <-]. cbn [negb].
  unfold mbind at 1, reserve_fn_type_params. destruct (reserve_rows FN_TYPE_PARAMS 16 (zlen ps) s1) as [[b s2]|] eqn:E2; [|done].
  destruct (reserve_willing _ _ _ _ _ _ Hw E2) as [-> <-]. cbn [negb].
  unfold mbind at 1 2. destruct (push_params_spec ps s2) as (s3 & -> & _ & _ & _ & <-). unfold mbind, push. by intros [= <- <-].
Qed.

(** C3: the tables intern types: pointers, arrays, slices and signatures of
    interned types, nested to any depth, get an identifier that denotes the
    requested type; no other identifier denotes it, so the analysis may compare
    types by comparing numbers. Identifiers keep what they denote, the tables
    stay canonical, and the request fails only when memory or identifiers run
    out. *)
Theorem types_canonical {H : Host} (s : St) t T ps Ps n c :
  types_ok (prog s) -> denotes (prog s) t T -> Forall2 (denotes (prog s)) ps Ps -> zlen ps <= 65535 ->
  interns s (intern_pointer t c) (TPointer T c) /\ interns s (intern_array t n) (TArray T n)
  /\ interns s (intern_slice t c) (TSlice T c) /\ interns s (intern_fn_type_ex ps t c) (TFunction Ps T c).
Proof.
  intros Hok HT HPs Hn. split_and!; apply outcome_interns;
    [done|by apply intern_pointer_ok| |done|by apply intern_array_ok| |done|by apply intern_slice_ok| |done|by apply intern_fn_type_ok|];
    intros r s' Hroom E; first [exact (intern_fn_room _ _ _ _ _ _ Hroom E)|refine (intern_row_room _ _ _ _ _ _ _ _ _ Hroom _ _ E); [set_solver|reflexivity]].
Qed.
(** [^i32], [^const ^i32] and [[4]^i32]. *)
Definition sample_types : DynAstProgram :=
  with_rows ARRAYS [mkAstArray 65536 4] (with_rows POINTERS [mkPointer DYN_TYPE_I32 false; mkPointer 65536 true] empty_ast).
Lemma sample_types_ok : types_ok sample_types.
Proof.
  split; try by vm_compute.
  - change (NoDup [mkPointer DYN_TYPE_I32 false; mkPointer 65536 true]). apply NoDup_cons. split; [|apply NoDup_singleton].
    by intros E%list_elem_of_singleton.
  - apply NoDup_singleton.
  - constructor.
  - constructor.
Qed.
Lemma sample_pointer : denotes sample_types 65536 (TPointer (TBase DYN_TYPE_I32) false).
Proof. apply (d_pointer sample_types 0 (mkPointer DYN_TYPE_I32 false)); [done|]. by apply d_base. Qed.
Definition state_of (a : DynAstProgram) : @St willing_host :=
  @mkSt willing_host a (mkSema 8 (mkNames [] []) (mkNames [] []) UINT32_MAX 0 [] 0 empty_index) [] None tt.
Lemma types_canonical_witness :
  interns (state_of sample_types) (intern_pointer 65536 true) (TPointer (TPointer (TBase DYN_TYPE_I32) false) true)
  /\ interns (state_of sample_types) (intern_array 65536 7) (TArray (TPointer (TBase DYN_TYPE_I32) false) 7)
  /\ interns (state_of sample_types) (intern_slice 65536 true) (TSlice (TPointer (TBase DYN_TYPE_I32) false) true)
  /\ interns (state_of sample_types) (intern_fn_type_ex [65536; DYN_TYPE_I32] 65536 true)
       (TFunction [TPointer (TBase DYN_TYPE_I32) false; TBase DYN_TYPE_I32] (TPointer (TBase DYN_TYPE_I32) false) true).
Proof.
  apply (@types_canonical willing_host (state_of sample_types)).
  - apply sample_types_ok.
  - apply sample_pointer.
  - repeat constructor. apply sample_pointer.
  - vm_compute. discriminate.
Defined.

(** [[4]^T0] with [u8] for the parameter. *)
Definition sample_pattern : DynAstProgram :=
  with_rows ARRAYS [mkAstArray 65536 4] (with_rows POINTERS [mkPointer DYN_TYPE_PARAM_BASE false] empty_ast).
Lemma sample_pattern_ok : types_ok sample_pattern.
Proof. split; try by vm_compute. all: first [apply NoDup_singleton|constructor]. Qed.
