(* ===== verification/SemaTypes.v ===== *)
(** Predicates and conversions of types (src/src/sema.c): integer widths,
    literals, lossless conversion, the C ABI, and layouts read off the tables.

    An integer type is a range of mathematical integers ([holds]); a literal
    fits and a conversion is lossless exactly when the ranges say so. *)

From S2P Require Import Prelude Target Source Work Ir Ast AstTypes.

Definition INT64_MAX : Z := 2 ^ 63 - 1.
Definition INT64_MIN : Z := - 2 ^ 63.

(** ** Underlying types *)
Definition alias_targets (a : DynAstProgram) : list Z := map al_target (tab a ALIASES).
Fixpoint underlying_loop (rounds : nat) (targets : list Z) (t : Z) : Z :=
  match rounds with
  | O => t
  | S n =>
      if dyn_type_is_distinct t then
        match get_at targets (t - DYN_TYPE_DISTINCT_BASE) with Some t' => underlying_loop n targets t' | None => DYN_TYPE_ERROR end
      else t
  end.
(** [guard++ <= alias_count] allows [alias_count + 1] rounds. *)
Definition underlying_type (a : DynAstProgram) (t : Z) : Z := underlying_loop (length (tab a ALIASES) + 1) (alias_targets a) t.

(** [integer], [signed_int] and [numeric] of the code. *)
Definition is_integer (a : DynAstProgram) (t : Z) : bool :=
  let t := underlying_type a t in (DYN_TYPE_I8 <=? t) && (t <=? DYN_TYPE_USIZE).
Definition signed_int (a : DynAstProgram) (t : Z) : bool :=
  let t := underlying_type a t in ((DYN_TYPE_I8 <=? t) && (t <=? DYN_TYPE_I64)) || (t =? DYN_TYPE_ISIZE).
Definition numeric (a : DynAstProgram) (t : Z) : bool :=
  let t := underlying_type a t in is_integer a t || (t =? DYN_TYPE_F32) || (t =? DYN_TYPE_F64).

Section Width.
Context (pb : Z) (a : DynAstProgram).

Definition bits (t : Z) : Z :=
  let t := underlying_type a t in
  if (t =? DYN_TYPE_USIZE) || (t =? DYN_TYPE_ISIZE) then pb * 8
  else if (t =? DYN_TYPE_I8) || (t =? DYN_TYPE_U8) then 8
  else if (t =? DYN_TYPE_I16) || (t =? DYN_TYPE_U16) then 16
  else if (t =? DYN_TYPE_I32) || (t =? DYN_TYPE_U32) || (t =? DYN_TYPE_F32) then 32
  else 64.

Definition literal_fits (v t : Z) : bool :=
  let b := bits t in
  if signed_int a t then if b =? 64 then v <=? INT64_MAX else v <=? Z.shiftl 1 (b - 1) - 1
  else is_integer a t && ((b =? 64) || (v <=? Z.shiftl 1 b - 1)).
(** [v] is an [int64_t]. *)
Definition constant_fits_type (v t : Z) : bool :=
  let b := bits t in
  if signed_int a t then
    if b =? 64 then true
    else (- Z.shiftl 1 (b - 1) <=? v) && (v <=? Z.shiftl 1 (b - 1) - 1)
  else if negb (is_integer a t) || (v <? 0) then false
  else (b =? 64) || (v <=? Z.shiftl 1 b - 1).

Definition lossless (from to : Z) : bool :=
  if from =? to then true
  else if dyn_type_is_distinct from || dyn_type_is_distinct to then false
  else if is_integer a from && is_integer a to then
    let f := bits from in let t := bits to in
    if eqb (signed_int a from) (signed_int a to) then f <? t
    else if negb (signed_int a from) && signed_int a to then f <? t
    else false
  else if (from =? DYN_TYPE_F32) && (to =? DYN_TYPE_F64) then true
  else if is_integer a from && ((to =? DYN_TYPE_F32) || (to =? DYN_TYPE_F64)) then
    let precision := if to =? DYN_TYPE_F32 then 24 else 53 in
    let needed := bits from - (if signed_int a from then 1 else 0) in
    needed <=? precision
  else false.
End Width.

(** ** Rows of compound types *)
Definition pointer_info (a : DynAstProgram) (t : Z) : option DynAstPointer :=
  if dyn_type_is_pointer t then get_at (tab a POINTERS) (t - DYN_TYPE_POINTER_BASE) else None.
Definition array_info (a : DynAstProgram) (t : Z) : option DynAstArray :=
  if dyn_type_is_array t then get_at (tab a ARRAYS) (t - DYN_TYPE_ARRAY_BASE) else None.
Definition slice_info (a : DynAstProgram) (t : Z) : option DynAstSlice :=
  if dyn_type_is_slice t then get_at (tab a SLICES) (t - DYN_TYPE_SLICE_BASE) else None.
Definition fn_type_info (a : DynAstProgram) (t : Z) : option DynAstFnType :=
  if dyn_type_is_function t then get_at (tab a FN_TYPES) (t - DYN_TYPE_FN_BASE) else None.

Definition can_convert (pb : Z) (a : DynAstProgram) (from to : Z) : bool :=
  if (to =? DYN_TYPE_ANY) && negb (from =? DYN_TYPE_VOID) && negb (from =? DYN_TYPE_ERROR) then true
  else if lossless pb a from to then true
  else
    let slices :=
      match slice_info a from, slice_info a to with
      | Some fs, Some ts => (sl_element fs =? sl_element ts) && negb (sl_is_const fs) && sl_is_const ts
      | _, _ => false
      end in
    match pointer_info a from, pointer_info a to with
    | Some f, t =>
        if to =? DYN_TYPE_RAWPTR then negb (po_is_const f)
        else match t with
             | Some t => (po_pointee f =? po_pointee t) && negb (po_is_const f) && po_is_const t
             | None => slices
             end
    | None, _ => slices
    end.

(** ** Layout of a type, once structs and enums have theirs *)
Fixpoint sema_type_layout (fuel : nat) (pb : Z) (a : DynAstProgram) (t : Z) (alignment : bool) : option Z :=
  match fuel with
  | O => None
  | S n =>
      let t := underlying_type a t in
      if (t =? DYN_TYPE_BOOL) || (t =? DYN_TYPE_I8) || (t =? DYN_TYPE_U8) then Some 1
      else if (t =? DYN_TYPE_I16) || (t =? DYN_TYPE_U16) then Some 2
      else if (t =? DYN_TYPE_I32) || (t =? DYN_TYPE_U32) || (t =? DYN_TYPE_F32) then Some 4
      else if (t =? DYN_TYPE_ISIZE) || (t =? DYN_TYPE_USIZE) || (t =? DYN_TYPE_RAWPTR)
              || dyn_type_is_pointer t || dyn_type_is_function t then Some pb
      else if (t =? DYN_TYPE_I64) || (t =? DYN_TYPE_U64) || (t =? DYN_TYPE_F64) then Some 8
      else if dyn_type_is_struct t then
        let* st := get_at (tab a STRUCTS) (t - DYN_TYPE_STRUCT_BASE) in
        Some (if alignment then sr_alignment st else sr_size st)
      else if dyn_type_is_enum t then
        let* en := get_at (tab a ENUMS) (t - DYN_TYPE_ENUM_BASE) in
        Some (if alignment then en_alignment en else en_size en)
      else if dyn_type_is_array t then
        let* ar := get_at (tab a ARRAYS) (t - DYN_TYPE_ARRAY_BASE) in
        let* element := sema_type_layout n pb a (ar_element ar) alignment in
        let limit := if pb =? 4 then UINT32_MAX else UINT64_MAX in
        if negb alignment && negb (element =? 0) && (limit / element <? ar_length ar) then Some 0
        else Some (if alignment then element else u64 (element * ar_length ar))
      else if dyn_type_is_slice t || (t =? DYN_TYPE_STRING) then Some (if alignment then pb else 2 * pb)
      else if t =? DYN_TYPE_ANY then Some (if alignment then 8 else 16)
      else Some 0
  end.

(** ** Types with a C representation; nesting beyond 128 has none *)
Fixpoint sema_c_abi_type (fuel : nat) (a : DynAstProgram) (type depth : Z) : option bool :=
  match fuel with
  | O => None
  | S n =>
      let type := underlying_type a type in
      if 128 <? depth then Some false
      else if (type =? DYN_TYPE_STRING) || (type =? DYN_TYPE_ANY) || dyn_type_is_slice type then Some false
      else
        let all := fix all (l : list Z) : option bool :=
          match l with
          | [] => Some true
          | t :: l' => let* ok := sema_c_abi_type n a t (depth + 1) in if ok : bool then all l' else Some false
          end in
        if dyn_type_is_struct type then
          let* st := get_at (tab a STRUCTS) (type - DYN_TYPE_STRUCT_BASE) in
          if sr_field_count st =? 0 then Some false
          else all (map fd_type (slice_at (tab a FIELDS) (sr_field_start st) (sr_field_count st)))
        else if dyn_type_is_array type then
          let* array := get_at (tab a ARRAYS) (type - DYN_TYPE_ARRAY_BASE) in
          if ar_length array =? 0 then Some false else sema_c_abi_type n a (ar_element array) (depth + 1)
        else if dyn_type_is_enum type then
          let* en := get_at (tab a ENUMS) (type - DYN_TYPE_ENUM_BASE) in Some (negb (en_has_payload en))
        else if dyn_type_is_pointer type then
          let* p := get_at (tab a POINTERS) (type - DYN_TYPE_POINTER_BASE) in
          let pointee := underlying_type a (po_pointee p) in
          if negb (dyn_type_is_function pointee) then Some true else sema_c_abi_type n a pointee (depth + 1)
        else if dyn_type_is_function type then
          let* f := get_at (tab a FN_TYPES) (type - DYN_TYPE_FN_BASE) in
          (fix check (l : list Z) : option bool :=
             match l with
             | [] => Some true
             | t :: l' =>
                 if dyn_type_is_array (underlying_type a t) then Some false
                 else let* ok := sema_c_abi_type n a t (depth + 1) in if ok : bool then check l' else Some false
             end) (ft_return_type f :: fn_params a f)
        else Some true
  end.
(** A depth above 128 ends the recursion. *)
Definition c_abi_type (a : DynAstProgram) (t : Z) : option bool := sema_c_abi_type 130 a t 0.
Fixpoint c_abi_types (a : DynAstProgram) (l : list Z) : option bool :=
  match l with
  | [] => Some true
  | t :: l' =>
      if dyn_type_is_array (underlying_type a t) then Some false
      else let* ok := c_abi_type a t in if ok : bool then c_abi_types a l' else Some false
  end.
Definition sema_c_abi_function (a : DynAstProgram) (fn : DynAstFn) : option bool :=
  if negb (fn_foreign fn) then Some true
  else c_abi_types a (fn_return_type fn :: map pa_type (slice_at (tab a PARAMS) (fn_param_start fn) (fn_param_count fn))).

(** ** What the predicates mean *)

(** The values of an integer type. *)
Definition type_min (pb : Z) (a : DynAstProgram) (t : Z) : Z := if signed_int a t then - 2 ^ (bits pb a t - 1) else 0.
Definition type_max (pb : Z) (a : DynAstProgram) (t : Z) : Z :=
  if signed_int a t then 2 ^ (bits pb a t - 1) - 1 else 2 ^ bits pb a t - 1.
Definition holds (pb : Z) (a : DynAstProgram) (t v : Z) : Prop :=
  is_integer a t = true /\ type_min pb a t <= v <= type_max pb a t.
(** The integers a binary float with a significand of [p] bits represents. *)
Definition representable (p v : Z) : Prop := exists m e, 0 <= e /\ Z.abs m < 2 ^ p /\ v = m * 2 ^ e.

(** Computes the constants of a known width. *)
Ltac width_constants :=
  repeat match goal with
  | |- context [Z.shiftl 1 ?n] => let v := eval vm_compute in (Z.shiftl 1 n) in progress change (Z.shiftl 1 n) with v
  | |- context [2 ^ ?n] => let v := eval vm_compute in (2 ^ n) in progress change (2 ^ n) with v
  | |- context [?x =? ?y] => let v := eval vm_compute in (x =? y) in
      lazymatch v with true => idtac | false => idtac end; change (x =? y) with v
  | |- context [?x <? ?y] => let v := eval vm_compute in (x <? y) in
      lazymatch v with true => idtac | false => idtac end; change (x <? y) with v
  end; cbn [andb orb negb].

Section Meaning.
Context (pb : Z) (a : DynAstProgram) (Hpb : pb = 4 \/ pb = 8).

Lemma bits_cases t : bits pb a t = 8 \/ bits pb a t = 16 \/ bits pb a t = 32 \/ bits pb a t = 64.
Proof. unfold bits. repeat split_if; lia. Qed.

Lemma signed_integer t : signed_int a t = true -> is_integer a t = true.
Proof.
  unfold signed_int, is_integer, DYN_TYPE_I8, DYN_TYPE_I64, DYN_TYPE_ISIZE, DYN_TYPE_USIZE.
  intros [Ht|Ht]%orb_true_iff; to_prop; rewrite ?Ht; [|done]. apply andb_true_iff. rewrite !Z.leb_le. lia.
Qed.

Lemma literal_fits_iff v t : 0 <= v < 2 ^ 64 -> literal_fits pb a v t = true <-> holds pb a t v.
Proof.
  intros Hv. unfold literal_fits, holds, type_min, type_max, INT64_MAX. destruct (signed_int a t) eqn:Hs.
  - rewrite (signed_integer t Hs). destruct (bits_cases t) as [->|[->|[->| ->]]]; width_constants; rewrite Z.leb_le;
      (split; [intros; split; [done|lia]|intros [_ ?]; lia]).
  - destruct (is_integer a t); cbn [andb]; [|split; [done|by intros [? _]]].
    destruct (bits_cases t) as [->|[->|[->| ->]]]; width_constants; rewrite ?Z.leb_le;
      (split; [intros; split; [done|lia]|intros [_ ?]; first [done|lia]]).
Qed.

Lemma constant_fits_iff v t : INT64_MIN <= v <= INT64_MAX -> constant_fits_type pb a v t = true <-> holds pb a t v.
Proof.
  unfold INT64_MIN, INT64_MAX. intros Hv. unfold constant_fits_type, holds, type_min, type_max. destruct (signed_int a t) eqn:Hs.
  - rewrite (signed_integer t Hs).
    destruct (bits_cases t) as [->|[->|[->| ->]]]; width_constants; rewrite ?andb_true_iff, ?Z.leb_le;
      (split; [intros; split; [done|lia]|intros [_ ?]; first [done|lia]]).
  - destruct (is_integer a t); cbn [negb orb]; [|split; [done|by intros [? _]]].
    destruct (Z.ltb_spec v 0); [split; [done|intros [_ ?]; lia]|].
    destruct (bits_cases t) as [->|[->|[->| ->]]]; width_constants; rewrite ?Z.leb_le;
      (split; [intros; split; [done|lia]|intros [_ ?]; first [done|lia]]).
Qed.

(** A strictly larger range, by its ends. *)
Lemma holds_strict from to :
  is_integer a from = true -> is_integer a to = true ->
  ((forall v, holds pb a from v -> holds pb a to v) /\ exists v, holds pb a to v /\ ~ holds pb a from v)
  <-> type_min pb a to <= type_min pb a from /\ type_max pb a from <= type_max pb a to
      /\ (type_min pb a to < type_min pb a from \/ type_max pb a from < type_max pb a to).
Proof.
  intros Hf Ht. unfold holds. rewrite Hf, Ht.
  assert (type_min pb a from <= type_max pb a from /\ type_min pb a to <= type_max pb a to) as [Hn Hn'].
  { unfold type_min, type_max. split; split_if;
      match goal with |- context [bits pb a ?t] => destruct (bits_cases t) as [->|[->|[->| ->]]] end; lia. }
  split.
  - intros [Hall (w & [_ Hw] & Hnw)].
    destruct (Hall (type_min pb a from)) as [_ ?]; [split; [done|lia]|].
    destruct (Hall (type_max pb a from)) as [_ ?]; [split; [done|lia]|].
    split; [lia|]. split; [lia|]. destruct (Z_lt_le_dec w (type_min pb a from)); [lia|].
    destruct (Z_lt_le_dec (type_max pb a from) w); [lia|]. exfalso. apply Hnw. split; [done|lia].
  - intros (H1 & H2 & H3). split; [intros v [_ ?]; split; [done|lia]|]. destruct H3.
    + exists (type_min pb a to). split; [split; [done|lia]|]. intros [_ ?]. lia.
    + exists (type_max pb a to). split; [split; [done|lia]|]. intros [_ ?]. lia.
Qed.

Lemma lossless_integer from to :
  from <> to -> dyn_type_is_distinct from = false -> dyn_type_is_distinct to = false ->
  is_integer a from = true -> is_integer a to = true ->
  lossless pb a from to = true <->
  (forall v, holds pb a from v -> holds pb a to v) /\ exists v, holds pb a to v /\ ~ holds pb a from v.
Proof.
  intros Hne Hdf Hdt Hf Ht. rewrite holds_strict by done. unfold lossless, type_min, type_max.
  rewrite (proj2 (Z.eqb_neq _ _) Hne), Hdf, Hdt, Hf, Ht. cbn [orb andb].
  destruct (signed_int a from) eqn:Hsf, (signed_int a to) eqn:Hst; cbn [eqb negb andb];
    destruct (bits_cases from) as [->|[->|[->| ->]]], (bits_cases to) as [->|[->|[->| ->]]]; width_constants;
    (split; intros; first [discriminate|lia]).
Qed.

Lemma representable_small p v : 0 <= p -> Z.abs v < 2 ^ p -> representable p v.
Proof. intros Hp Hv. exists v, 0. split; [lia|]. split; [done|]. lia. Qed.
Lemma representable_pow p k : 0 < p -> 0 <= k -> representable p (- 2 ^ k).
Proof. intros Hp Hk. exists (-1), k. split; [done|]. split; [|lia]. cbn. apply Z.pow_gt_1; lia. Qed.
Lemma not_representable p : 0 < p -> ~ representable p (2 ^ p + 1).
Proof.
  intros Hp (m & e & He & Hm & E). destruct (Z.eq_dec e 0) as [->|Hne]; [rewrite Z.mul_1_r in E; lia|].
  replace p with (Z.succ (p - 1)) in E by lia. replace e with (Z.succ (e - 1)) in E by lia.
  rewrite !Z.pow_succ_r in E by lia. lia.
Qed.

(** To a float: every value is exact. *)
Lemma lossless_float from to :
  dyn_type_is_distinct from = false -> is_integer a from = true -> to = DYN_TYPE_F32 \/ to = DYN_TYPE_F64 ->
  is_integer a to = false ->
  lossless pb a from to = true <->
  forall v, holds pb a from v -> representable (if to =? DYN_TYPE_F32 then 24 else 53) v.
Proof.
  intros Hd Hf Hto Hnt.
  assert (from <> to) as Hne by (intros ->; congruence).
  unfold lossless. rewrite (proj2 (Z.eqb_neq _ _) Hne), Hd, Hf, Hnt. cbn [orb andb].
  replace (dyn_type_is_distinct to) with false by (by destruct Hto as [-> | ->]).
  replace ((from =? DYN_TYPE_F32) && (to =? DYN_TYPE_F64)) with false.
  2: { symmetry. apply andb_false_iff. destruct (Z.eqb_spec from DYN_TYPE_F32) as [->|]; [|by left].
       right. destruct Hto as [->| ->]; [done|]. exfalso. revert Hf. unfold is_integer, underlying_type.
       replace (length (tab a ALIASES) + 1)%nat with (S (length (tab a ALIASES))) by lia. done. }
  replace ((to =? DYN_TYPE_F32) || (to =? DYN_TYPE_F64)) with true by (by destruct Hto as [-> | ->]).
  set (p := if to =? DYN_TYPE_F32 then 24 else 53). assert (p = 24 \/ p = 53) as Hp by (subst p; split_if; lia).
  clearbody p. unfold holds, type_min, type_max. rewrite Hf, Z.leb_le. split.
  - intros Hle v [_ Hv]. destruct (signed_int a from).
    + destruct (Z.eq_dec v (- 2 ^ (bits pb a from - 1))) as [->|].
      { apply representable_pow; [lia|]. destruct (bits_cases from) as [->|[->|[->| ->]]]; lia. }
      apply representable_small; [lia|]. eapply Z.lt_le_trans; [|apply Z.pow_le_mono_r; [lia|exact Hle]].
      lia.
    + apply representable_small; [lia|]. eapply Z.lt_le_trans; [|apply Z.pow_le_mono_r; [lia|exact Hle]].
      rewrite Z.sub_0_r. lia.
  - intros Hall. destruct (Z_le_gt_dec (bits pb a from - (if signed_int a from then 1 else 0)) p) as [|Hgt]; [done|].
    exfalso. apply (not_representable p); [lia|]. apply Hall. split; [done|].
    destruct (signed_int a from), Hp as [->| ->], (bits_cases from) as [E|[E|[E|E]]]; rewrite E in *; lia.
Qed.
End Meaning.

(** An implicit conversion between numbers never loses a value: between
    two different integer types it is allowed exactly when the target holds
    every value of the source and more, and from an integer to a float exactly
    when every value is represented exactly; aliases of distinct types never
    convert. *)
Theorem lossless_exact pb a from to :
  pb = 4 \/ pb = 8 -> from <> to -> is_integer a from = true ->
  (is_integer a to = true \/ to = DYN_TYPE_F32 \/ to = DYN_TYPE_F64) ->
  lossless pb a from to = true <->
  dyn_type_is_distinct from = false /\ dyn_type_is_distinct to = false /\
  if is_integer a to then (forall v, holds pb a from v -> holds pb a to v) /\ exists v, holds pb a to v /\ ~ holds pb a from v
  else forall v, holds pb a from v -> representable (if to =? DYN_TYPE_F32 then 24 else 53) v.
Proof.
  intros Hpb Hne Hf Hto. destruct (dyn_type_is_distinct from) eqn:Hd1.
  { unfold lossless. rewrite (proj2 (Z.eqb_neq _ _) Hne), Hd1. cbn. naive_solver. }
  destruct (dyn_type_is_distinct to) eqn:Hd2.
  { unfold lossless. rewrite (proj2 (Z.eqb_neq _ _) Hne), Hd1, Hd2. cbn. naive_solver. }
  destruct (is_integer a to) eqn:Ht.
  - rewrite lossless_integer by done. naive_solver.
  - rewrite lossless_float by (first [done|naive_solver]). naive_solver.
Qed.
Lemma lossless_exact_witness :
  (lossless 8 empty_ast DYN_TYPE_I32 DYN_TYPE_F64 = true <->
   dyn_type_is_distinct DYN_TYPE_I32 = false /\ dyn_type_is_distinct DYN_TYPE_F64 = false /\
   forall v, holds 8 empty_ast DYN_TYPE_I32 v -> representable 53 v)
  /\ (lossless 8 empty_ast DYN_TYPE_U32 DYN_TYPE_I32 = true <->
   dyn_type_is_distinct DYN_TYPE_U32 = false /\ dyn_type_is_distinct DYN_TYPE_I32 = false /\
   ((forall v, holds 8 empty_ast DYN_TYPE_U32 v -> holds 8 empty_ast DYN_TYPE_I32 v)
    /\ exists v, holds 8 empty_ast DYN_TYPE_I32 v /\ ~ holds 8 empty_ast DYN_TYPE_U32 v)).
Proof.
  split; (apply lossless_exact; [right; reflexivity|discriminate|reflexivity|]); [right; right; reflexivity|left; reflexivity].
Defined.
