(* ===== verification/SemaConst.v ===== *)
(** Constants of semantic analysis (src/src/sema.c): signed and unsigned
    folding with overflow detection, [#assert] conditions, and which expressions
    are known at compile time.

    The overflow tests avoid the overflow they look for; [constant_int_exact]
    shows that they are the test "the exact result leaves the 64-bit range", for
    every operator. *)

From S2P Require Import Prelude Target Source Work Ir Ast AstTypes SemaTypes.

Record Constant := mkConstant { c_valid : bool; c_overflow : bool; c_value : Z }.
Definition not_constant : Constant := mkConstant false false 0.
Definition overflowed : Constant := mkConstant false true 0.
Definition constant (v : Z) : Constant := mkConstant true false v.

Definition is_kind (e : DynAstExpr) (k : DynExprKind) : bool := bool_decide (x_kind e = k).
Definition is_op (e : DynAstExpr) (o : DynOperator) : bool := bool_decide (x_op e = o).

(** ** Signed folding *)

(** The operators on two [int64_t] values: the value, or an overflow. *)
Definition signed_binary (op : DynOperator) (l r : Z) : Constant :=
  let result (overflow : bool) (v : Z) := mkConstant (negb overflow) overflow (if overflow then 0 else v) in
  match op with
  | DYN_OP_ADD =>
      result (((0 <? r) && (INT64_MAX - r <? l)) || ((r <? 0) && (l <? INT64_MIN - r))) (l + r)
  | DYN_OP_SUB =>
      result (((r <? 0) && (INT64_MAX + r <? l)) || ((0 <? r) && (l <? INT64_MIN + r))) (l - r)
  | DYN_OP_MUL =>
      if (l =? 0) || (r =? 0) then constant 0
      else result (((0 <? l) && (0 <? r) && (Z.quot INT64_MAX r <? l))
                   || ((0 <? l) && (r <? 0) && (r <? Z.quot INT64_MIN l))
                   || ((l <? 0) && (0 <? r) && (l <? Z.quot INT64_MIN r))
                   || ((l <? 0) && (r <? 0) && (l <? Z.quot INT64_MAX r))) (l * r)
  | DYN_OP_DIV | DYN_OP_REM =>
      if r =? 0 then not_constant
      else result ((l =? INT64_MIN) && (r =? -1)) (if bool_decide (op = DYN_OP_DIV) then Z.quot l r else Z.rem l r)
  | DYN_OP_SHL =>
      if (r <? 0) || (64 <=? r) then overflowed
      else if (l <? 0) || (Z.shiftr INT64_MAX r <? l) then overflowed
      else constant (Z.shiftl l r)
  | DYN_OP_SHR => if (r <? 0) || (64 <=? r) then overflowed else constant (Z.shiftr l r)
  | _ => not_constant
  end.

(** A constant global, when folding may follow one. *)
Definition constant_global (a : DynAstProgram) (e : DynAstExpr) : option Z :=
  if is_kind e DYN_EXPR_GLOBAL then
    match get_at (tab a GLOBALS) (x_integer e) with
    | Some g => if gl_is_const g then Some (gl_initializer g) else None
    | None => None
    end
  else None.

(** Where folding goes on through a conversion or a constant name. *)
Definition followed (a : DynAstProgram) (e : DynAstExpr) (follow : nat) : option (Z * nat) :=
  match follow with
  | O => None
  | S f =>
      if is_kind e DYN_EXPR_CONVERT then Some (x_left e, f)
      else match constant_global a e with Some init => Some (init, f) | None => None end
  end.
(** A negative literal whose magnitude was checked against its type. *)
Definition negated_literal (a : DynAstProgram) (e : DynAstExpr) : option (option Z) :=
  if is_op e DYN_OP_NEG && x_boolean e then
    let* left_ := get_at (tab a EXPRESSIONS) (x_left e) in
    Some (if is_kind left_ DYN_EXPR_INT then Some (x_integer left_) else None)
  else Some None.

Fixpoint constant_int_at (fuel : nat) (a : DynAstProgram) (id : Z) (follow : nat) : option Constant :=
  match fuel with
  | O => None
  | S n =>
      if id =? DYN_NO_EXPR then Some not_constant
      else
        let* e := get_at (tab a EXPRESSIONS) id in
        if x_wrap e then Some not_constant
        else
          match followed a e follow with
          | Some (id', f) => constant_int_at n a id' f
          | None =>
              if is_kind e DYN_EXPR_INT || is_kind e DYN_EXPR_CHAR then
                Some (if INT64_MAX <? x_integer e then overflowed else constant (x_integer e))
              else if is_kind e DYN_EXPR_UNARY then
                let* literal := negated_literal a e in
                match literal with
                | Some magnitude => Some (constant (if magnitude =? 2 ^ 63 then INT64_MIN else i64 (- i64 magnitude)))
                | None =>
                  let* x := constant_int_at n a (x_left e) follow in
                  if negb (c_valid x) then Some x
                  else if is_op e DYN_OP_NEG then
                    Some (if c_value x =? INT64_MIN then overflowed else constant (- c_value x))
                  else if is_op e DYN_OP_BIT_NOT then Some (mkConstant (c_valid x) (c_overflow x) (Z.lnot (c_value x)))
                  else Some (mkConstant false (c_overflow x) (c_value x))
                end
              else if negb (is_kind e DYN_EXPR_BINARY) then Some not_constant
              else
                let* l := constant_int_at n a (x_left e) follow in
                let* r := constant_int_at n a (x_right e) follow in
                if negb (c_valid l) || negb (c_valid r) then Some (mkConstant false (c_overflow l || c_overflow r) 0)
                else Some (signed_binary (x_op e) (c_value l) (c_value r))
          end
  end.
Definition constant_int (fuel : nat) (a : DynAstProgram) (id : Z) : option Constant := constant_int_at fuel a id 0.

(** ** Unsigned folding *)
Definition unsigned_binary (op : DynOperator) (l r : Z) : Constant :=
  let result (overflow : bool) (v : Z) := mkConstant (negb overflow) overflow (if overflow then 0 else v) in
  match op with
  | DYN_OP_ADD => result (UINT64_MAX - r <? l) (l + r)
  | DYN_OP_SUB => result (l <? r) (l - r)
  | DYN_OP_MUL => result (negb (l =? 0) && (UINT64_MAX / l <? r)) (l * r)
  | DYN_OP_DIV | DYN_OP_REM =>
      if r =? 0 then not_constant else constant (if bool_decide (op = DYN_OP_DIV) then l / r else l mod r)
  | DYN_OP_SHL => result ((64 <=? r) || (Z.shiftr UINT64_MAX r <? l)) (Z.shiftl l r)
  | DYN_OP_SHR => result (64 <=? r) (Z.shiftr l r)
  | _ => not_constant
  end.
Fixpoint constant_uint_at (fuel : nat) (a : DynAstProgram) (id : Z) (follow : nat) : option Constant :=
  match fuel with
  | O => None
  | S n =>
      if id =? DYN_NO_EXPR then Some not_constant
      else
        let* e := get_at (tab a EXPRESSIONS) id in
        if x_wrap e then Some not_constant
        else
          match followed a e follow with
          | Some (id', f) => constant_uint_at n a id' f
          | None =>
              if is_kind e DYN_EXPR_INT || is_kind e DYN_EXPR_CHAR then Some (constant (x_integer e))
              else if is_kind e DYN_EXPR_UNARY then
                let* x := constant_uint_at n a (x_left e) follow in
                if negb (c_valid x) then Some x
                else if is_op e DYN_OP_BIT_NOT then Some (mkConstant true (c_overflow x) (u64 (Z.lnot (c_value x))))
                else if is_op e DYN_OP_NEG then
                  Some (if negb (c_value x =? 0) then mkConstant true true (c_value x) else mkConstant true (c_overflow x) 0)
                else Some (mkConstant false (c_overflow x) (c_value x))
              else if negb (is_kind e DYN_EXPR_BINARY) then Some not_constant
              else
                let* l := constant_uint_at n a (x_left e) follow in
                let* r := constant_uint_at n a (x_right e) follow in
                if negb (c_valid l) || negb (c_valid r) then Some (mkConstant false (c_overflow l || c_overflow r) 0)
                else Some (unsigned_binary (x_op e) (c_value l) (c_value r))
          end
  end.
Definition constant_uint (fuel : nat) (a : DynAstProgram) (id : Z) : option Constant := constant_uint_at fuel a id 0.

(** ** What folding computes

    The exact result of an operator on integers, [None] where it has none; the
    quotient of a remainder must be in range too. *)
Definition exact_binary (lo hi : Z) (op : DynOperator) (l r : Z) : option Z :=
  match op with
  | DYN_OP_ADD => Some (l + r)
  | DYN_OP_SUB => Some (l - r)
  | DYN_OP_MUL => Some (l * r)
  | DYN_OP_DIV => if r =? 0 then None else Some (Z.quot l r)
  | DYN_OP_REM => if (r =? 0) || (Z.quot l r <? lo) || (hi <? Z.quot l r) then None else Some (Z.rem l r)
  | DYN_OP_SHL => if (0 <=? r) && (r <? 64) && (0 <=? l) then Some (l * 2 ^ r) else None
  | DYN_OP_SHR => if (0 <=? r) && (r <? 64) then Some (l / 2 ^ r) else None
  | _ => None
  end.
Definition in_range (lo hi : Z) (o : option Z) (v : Z) : Prop := o = Some v /\ lo <= v <= hi.

Lemma div_lt_iff x y z : 0 < y -> x / y < z <-> x < z * y.
Proof.
  intros Hy. split; intros Hlt.
  - pose proof (Z.div_mod x y ltac:(lia)). pose proof (Z.mod_pos_bound x y Hy). nia.
  - apply Z.div_lt_upper_bound; lia.
Qed.
Lemma quot_opp_pos x y : 0 <= x -> 0 < y -> Z.quot (- x) y = - (x / y).
Proof. intros. rewrite Z.quot_opp_l, Z.quot_div_nonneg by lia. done. Qed.
Lemma quot_pos_neg x y : 0 <= x -> y < 0 -> Z.quot x y = - (x / (- y)).
Proof. intros. rewrite <- (Z.opp_involutive y) at 1. rewrite Z.quot_opp_r, Z.quot_div_nonneg by lia. done. Qed.

(** The test of the multiplication, by the signs of its operands. *)
Lemma mul_overflow_iff l r :
  l <> 0 -> r <> 0 ->
  ((0 <? l) && (0 <? r) && (Z.quot INT64_MAX r <? l)) || ((0 <? l) && (r <? 0) && (r <? Z.quot INT64_MIN l))
  || ((l <? 0) && (0 <? r) && (l <? Z.quot INT64_MIN r)) || ((l <? 0) && (r <? 0) && (l <? Z.quot INT64_MAX r)) = true
  <-> l * r < INT64_MIN \/ INT64_MAX < l * r.
Proof.
  intros Hl Hr. unfold INT64_MIN, INT64_MAX.
  destruct (Z_lt_le_dec 0 l), (Z_lt_le_dec 0 r); repeat (zb; cbn [andb orb]); rewrite ?orb_false_r, Z.ltb_lt.
  - rewrite Z.quot_div_nonneg, div_lt_iff by lia. split; [lia|]. intros [|]; nia.
  - rewrite quot_opp_pos by lia.
    assert (r < - (2 ^ 63 / l) <-> 2 ^ 63 / l < - r) as -> by lia. rewrite div_lt_iff by lia. split; [nia|]. intros [|]; nia.
  - rewrite quot_opp_pos by lia.
    assert (l < - (2 ^ 63 / r) <-> 2 ^ 63 / r < - l) as -> by lia. rewrite div_lt_iff by lia. split; [nia|]. intros [|]; nia.
  - rewrite quot_pos_neg by lia.
    assert (l < - ((2 ^ 63 - 1) / - r) <-> (2 ^ 63 - 1) / - r < - l) as -> by lia. rewrite div_lt_iff by lia.
    split; [nia|]. intros [|]; nia.
Qed.

(** The result of an operator is the exact one, when it is in range. *)
Definition folds (c : Constant) (v : Z) : Prop := c_valid c = true /\ c_value c = v.

Lemma result_folds (overflow : bool) x v :
  folds (mkConstant (negb overflow) overflow (if overflow then 0 else x)) v <-> overflow = false /\ x = v.
Proof. unfold folds. destruct overflow; cbn; naive_solver. Qed.
Lemma constant_folds x v : folds (constant x) v <-> x = v.
Proof. unfold folds. cbn. naive_solver. Qed.
Lemma not_constant_folds v : folds not_constant v <-> False.
Proof. unfold folds. cbn. naive_solver. Qed.
Lemma overflowed_folds v : folds overflowed v <-> False.
Proof. unfold folds. cbn. naive_solver. Qed.

Lemma in_range_Some lo hi x v : in_range lo hi (Some x) v <-> lo <= x <= hi /\ x = v.
Proof. unfold in_range. naive_solver. Qed.
Lemma in_range_None lo hi v : in_range lo hi None v <-> False.
Proof. unfold in_range. naive_solver. Qed.
Create Rewrite HintDb folds.
#[export] Hint Rewrite result_folds constant_folds not_constant_folds overflowed_folds in_range_Some in_range_None : folds.

Lemma shiftr_lt_iff x n y : 0 <= n -> Z.shiftr x n < y <-> x < y * 2 ^ n.
Proof. intros. rewrite Z.shiftr_div_pow2 by lia. apply div_lt_iff. lia. Qed.

(** Reflects an overflow test into the range of the exact result. *)
Lemma test_range (b : bool) (x v : Z) (P : Prop) :
  (b = true <-> ~ P) -> Decision P -> (b = false /\ x = v <-> P /\ x = v).
Proof. intros Hb HP. destruct b, (decide P); naive_solver. Qed.

(** Only the least value over -1 has a quotient out of range. *)
Lemma quot_range l r :
  INT64_MIN <= l <= INT64_MAX -> r <> 0 ->
  ((l =? INT64_MIN) && (r =? -1)) = true <-> ~ INT64_MIN <= Z.quot l r <= INT64_MAX.
Proof.
  intros Hl Hr. rewrite andb_true_iff, !Z.eqb_eq. unfold INT64_MIN, INT64_MAX in *. split.
  - intros [-> ->]. vm_compute. intuition discriminate.
  - intros Hq. destruct (Z.eq_dec r (-1)) as [->|]; [|destruct (Z.eq_dec r 1) as [->|]].
    + rewrite <- (Z.opp_involutive (-1)), Z.quot_opp_r, Z.quot_1_r in Hq by lia. lia.
    + rewrite Z.quot_1_r in Hq. lia.
    + exfalso. apply Hq. pose proof (Z.quot_abs l r Hr) as E. rewrite Z.quot_div_nonneg in E by lia.
      pose proof (Z.div_le_upper_bound (Z.abs l) (Z.abs r) (2 ^ 62) ltac:(lia)). nia.
Qed.

Lemma signed_binary_exact op l r v :
  INT64_MIN <= l <= INT64_MAX -> INT64_MIN <= r <= INT64_MAX ->
  folds (signed_binary op l r) v <-> in_range INT64_MIN INT64_MAX (exact_binary INT64_MIN INT64_MAX op l r) v.
Proof.
  intros Hl Hr. destruct op; cbn [signed_binary exact_binary]; autorewrite with folds; try done.
  - apply test_range; [|apply _]. rewrite orb_true_iff, !andb_true_iff, !Z.ltb_lt. unfold INT64_MIN, INT64_MAX in *. lia.
  - apply test_range; [|apply _]. rewrite orb_true_iff, !andb_true_iff, !Z.ltb_lt. unfold INT64_MIN, INT64_MAX in *. lia.
  - destruct ((l =? 0) || (r =? 0)) eqn:Hz; autorewrite with folds.
    + apply orb_true_iff in Hz as [->%Z.eqb_eq| ->%Z.eqb_eq]; rewrite ?Z.mul_0_r; cbn; unfold INT64_MIN, INT64_MAX; intuition lia.
    + apply orb_false_iff in Hz as [Hl0%Z.eqb_neq Hr0%Z.eqb_neq]. apply test_range; [|apply _].
      rewrite mul_overflow_iff by done. lia.
  - destruct (Z.eqb_spec r 0); autorewrite with folds; [done|]. rewrite bool_decide_true by done.
    apply test_range; [|apply _]. by apply quot_range.
  - destruct (Z.eqb_spec r 0) as [|Hr0]; cbn [orb]; autorewrite with folds; [done|]. rewrite bool_decide_false by done.
    pose proof (quot_range l r Hl Hr0) as Hq. pose proof (Z.rem_bound_abs l r Hr0).
    destruct ((l =? INT64_MIN) && (r =? -1)); destruct ((Z.quot l r <? INT64_MIN) || (INT64_MAX <? Z.quot l r)) eqn:Hb;
      autorewrite with folds; to_prop; unfold INT64_MIN, INT64_MAX in *; intuition (try lia; try discriminate).
  - destruct (Z.ltb_spec r 0), (Z.leb_spec 64 r); cbn [orb]; autorewrite with folds; zb; cbn [andb]; autorewrite with folds; try done; try lia.
    destruct (Z.ltb_spec l 0); cbn [orb]; zb; autorewrite with folds; [done|]. rewrite Z.shiftl_mul_pow2 by lia.
    pose proof (shiftr_lt_iff INT64_MAX r l ltac:(lia)) as Hs. unfold INT64_MIN in *.
    destruct (Z.ltb_spec (Z.shiftr INT64_MAX r) l); autorewrite with folds; intuition lia.
  - destruct (Z.ltb_spec r 0), (Z.leb_spec 64 r); cbn [orb]; zb; cbn [andb]; autorewrite with folds; try done; try lia.
    rewrite Z.shiftr_div_pow2 by lia. unfold INT64_MIN, INT64_MAX in *. pose proof (Z.pow_pos_nonneg 2 r ltac:(lia) ltac:(lia)).
    assert (- 2 ^ 63 <= l / 2 ^ r <= 2 ^ 63 - 1); [|intuition lia].
    split; [apply Z.div_le_lower_bound; nia|apply Z.div_le_upper_bound; nia].
Qed.

Lemma unsigned_binary_exact op l r v :
  0 <= l <= UINT64_MAX -> 0 <= r <= UINT64_MAX ->
  folds (unsigned_binary op l r) v <-> in_range 0 UINT64_MAX (exact_binary 0 UINT64_MAX op l r) v.
Proof.
  intros Hl Hr. destruct op; cbn [unsigned_binary exact_binary]; autorewrite with folds; try done.
  - apply test_range; [|apply _]. rewrite Z.ltb_lt. lia.
  - apply test_range; [|apply _]. rewrite Z.ltb_lt. lia.
  - apply test_range; [|apply _]. rewrite andb_true_iff, negb_true_iff, Z.eqb_neq, Z.ltb_lt.
    destruct (Z.eq_dec l 0) as [->|]; [lia|]. rewrite div_lt_iff by lia. unfold UINT64_MAX in *. nia.
  - destruct (Z.eqb_spec r 0); autorewrite with folds; [done|]. rewrite bool_decide_true by done. rewrite Z.quot_div_nonneg by lia.
    pose proof (Z.div_pos l r). pose proof (Z.div_le_upper_bound l r UINT64_MAX). unfold UINT64_MAX in *. intuition nia.
  - destruct (Z.eqb_spec r 0); cbn [orb]; autorewrite with folds; [done|]. rewrite bool_decide_false by done.
    rewrite Z.quot_div_nonneg, Z.rem_mod_nonneg by lia. pose proof (Z.div_pos l r).
    pose proof (Z.div_le_upper_bound l r UINT64_MAX). pose proof (Z.mod_pos_bound l r).
    rewrite (proj2 (Z.ltb_ge _ 0)), (proj2 (Z.ltb_ge UINT64_MAX _)) by (unfold UINT64_MAX in *; nia).
    cbn. autorewrite with folds. intuition lia.
  - destruct (Z.leb_spec 64 r); zb; cbn [orb andb]; autorewrite with folds; [intuition done|].
    rewrite Z.shiftl_mul_pow2 by lia. apply test_range; [|apply _]. rewrite Z.ltb_lt, shiftr_lt_iff by lia.
    pose proof (Z.pow_pos_nonneg 2 r ltac:(lia) ltac:(lia)). nia.
  - destruct (Z.leb_spec 64 r); zb; cbn [orb andb]; autorewrite with folds; [intuition done|].
    rewrite Z.shiftr_div_pow2 by lia. pose proof (Z.pow_pos_nonneg 2 r ltac:(lia) ltac:(lia)).
    pose proof (Z.div_pos l (2 ^ r)). pose proof (Z.div_le_upper_bound l (2 ^ r) UINT64_MAX). unfold UINT64_MAX in *. intuition nia.
Qed.

(** ** Folding an expression

    [ranged follow id v]: the expression has the value [v], and the exact value
    of every part lies between [lo] and [hi]. Conversions and constant globals
    are followed at most [follow] times. *)
Definition node (a : DynAstProgram) (id : Z) (e : DynAstExpr) : Prop :=
  id <> DYN_NO_EXPR /\ get_at (tab a EXPRESSIONS) id = Some e /\ x_wrap e = false.

Lemma constant_global_kind a e init : constant_global a e = Some init -> x_kind e = DYN_EXPR_GLOBAL.
Proof. unfold constant_global, is_kind. by case_bool_decide. Qed.

Section Ranged.
Context (lo hi : Z) (complement : Z -> Z) (literal : DynAstExpr -> option (option Z)) (a : DynAstProgram).
Inductive ranged : nat -> Z -> Z -> Prop :=
| r_literal f id e :
    node a id e -> x_kind e = DYN_EXPR_INT \/ x_kind e = DYN_EXPR_CHAR -> lo <= x_integer e <= hi -> ranged f id (x_integer e)
| r_convert f id e v : node a id e -> x_kind e = DYN_EXPR_CONVERT -> ranged f (x_left e) v -> ranged (S f) id v
| r_global f id e init v :
    node a id e -> constant_global a e = Some init -> ranged f init v -> ranged (S f) id v
| r_negative f id e m :
    node a id e -> x_kind e = DYN_EXPR_UNARY -> literal e = Some (Some m) -> lo <= - m <= hi -> ranged f id (- m)
| r_neg f id e v :
    node a id e -> x_kind e = DYN_EXPR_UNARY -> x_op e = DYN_OP_NEG -> literal e = Some None ->
    ranged f (x_left e) v -> lo <= - v <= hi -> ranged f id (- v)
| r_not f id e v :
    node a id e -> x_kind e = DYN_EXPR_UNARY -> x_op e = DYN_OP_BIT_NOT -> literal e = Some None ->
    ranged f (x_left e) v -> ranged f id (complement v)
| r_binary f id e l r v :
    node a id e -> x_kind e = DYN_EXPR_BINARY -> ranged f (x_left e) l -> ranged f (x_right e) r ->
    in_range lo hi (exact_binary lo hi (x_op e) l r) v -> ranged f id v.

(** The rules read off the kind of a node. *)
Lemma ranged_node f id v e :
  node a id e -> ranged f id v <->
  match x_kind e with
  | DYN_EXPR_INT | DYN_EXPR_CHAR => v = x_integer e /\ lo <= x_integer e <= hi
  | DYN_EXPR_CONVERT => exists f', f = S f' /\ ranged f' (x_left e) v
  | DYN_EXPR_GLOBAL => exists f' init, f = S f' /\ constant_global a e = Some init /\ ranged f' init v
  | DYN_EXPR_UNARY =>
      (exists m, literal e = Some (Some m) /\ v = - m /\ lo <= - m <= hi)
      \/ literal e = Some None /\ exists w, ranged f (x_left e) w /\
         (x_op e = DYN_OP_NEG /\ v = - w /\ lo <= - w <= hi \/ x_op e = DYN_OP_BIT_NOT /\ v = complement w)
  | DYN_EXPR_BINARY =>
      exists l r, ranged f (x_left e) l /\ ranged f (x_right e) r /\ in_range lo hi (exact_binary lo hi (x_op e) l r) v
  | _ => False
  end.
Proof.
  intros He. split.
  - intros Hv. destruct Hv as [f id e' He'|f id e' v He'|f id e' init v He' Hg|f id e' m He'|f id e' v He'|f id e' v He'|f id e' l r v He'];
      assert (e' = e) as -> by (destruct He as (_ & ? & _), He' as (_ & ? & _); congruence);
      try (rewrite (constant_global_kind _ _ _ Hg)); repeat match goal with h : x_kind e = _ |- _ => rewrite h end; try naive_solver.
    destruct H as [-> | ->]; done.
  - destruct (x_kind e) eqn:Hk; try done.
    + intros [-> ?]. apply r_literal; auto.
    + intros [-> ?]. apply r_literal; auto.
    + intros [(m & ? & -> & ?)|(? & w & ? & [(? & -> & ?)|(? & ->)])]; [by eapply r_negative|by eapply r_neg|by eapply r_not].
    + intros (l & r & ? & ? & ?). by eapply r_binary.
    + intros (f' & -> & ?). by eapply r_convert.
    + intros (f' & init & -> & ? & ?). by eapply r_global.
Qed.
Lemma ranged_only_nodes f id v : ranged f id v -> exists e, node a id e.
Proof. destruct 1; eauto. Qed.
Context (Hcomplement : forall v, lo <= v <= hi -> lo <= complement v <= hi).
Lemma ranged_bounds f id v : ranged f id v -> lo <= v <= hi.
Proof. induction 1; try done; [auto|]. match goal with h : in_range _ _ _ _ |- _ => by destruct h end. Qed.
End Ranged.

(** Literals are 64-bit, and a checked negative literal has a magnitude of at
    most 2^63, as [check_expr] leaves them. *)
Definition literals_ok (a : DynAstProgram) : Prop :=
  Forall (fun e => 0 <= x_integer e < 2 ^ 64 /\
                   (forall m, negated_literal a e = Some (Some m) -> 0 <= m <= 2 ^ 63)) (tab a EXPRESSIONS).

Ltac kind_tests :=
  unfold is_kind, is_op in *;
  repeat match goal with
  | h : ?x = ?k |- context [bool_decide (?x = ?k)] => rewrite (bool_decide_true _ h)
  | h : ?x = ?k |- context [bool_decide (?x = ?k')] => rewrite (bool_decide_false (x = k')) by (rewrite h; discriminate)
  end; cbn [orb andb negb].

Definition signed_ranged (a : DynAstProgram) : nat -> Z -> Z -> Prop := ranged INT64_MIN INT64_MAX Z.lnot (negated_literal a) a.

Lemma negated_i64 m : 0 <= m <= 2 ^ 63 -> (if m =? 2 ^ 63 then INT64_MIN else i64 (- i64 m)) = - m.
Proof.
  intros Hm. destruct (Z.eqb_spec m (2 ^ 63)) as [->|]; [done|]. unfold i64, to_signed, wrap.
  rewrite (Z.mod_small m) by lia. rewrite (proj2 (Z.ltb_lt m _)) by lia. destruct (Z.eq_dec m 0) as [->|]; [done|].
  rewrite <- (Z.mod_add (- m) 1), Z.mod_small by lia. rewrite (proj2 (Z.ltb_ge _ _)) by lia. lia.
Qed.

Lemma followed_None a e follow :
  x_kind e <> DYN_EXPR_CONVERT -> x_kind e <> DYN_EXPR_GLOBAL -> followed a e follow = None.
Proof.
  intros Hc Hg. unfold followed, constant_global, is_kind. destruct follow; [done|].
  by rewrite (bool_decide_false _ Hc), (bool_decide_false _ Hg).
Qed.

(** Unary operators of the signed folding. *)
Lemma signed_unary_folds a e x c v f :
  (forall w, folds x w <-> signed_ranged a f (x_left e) w) -> negated_literal a e = Some None ->
  (if negb (c_valid x) then Some x
   else if is_op e DYN_OP_NEG then Some (if c_value x =? INT64_MIN then overflowed else constant (- c_value x))
   else if is_op e DYN_OP_BIT_NOT then Some (mkConstant (c_valid x) (c_overflow x) (Z.lnot (c_value x)))
   else Some (mkConstant false (c_overflow x) (c_value x))) = Some c ->
  folds c v <->
  exists w, signed_ranged a f (x_left e) w /\
    (x_op e = DYN_OP_NEG /\ v = - w /\ INT64_MIN <= - w <= INT64_MAX \/ x_op e = DYN_OP_BIT_NOT /\ v = Z.lnot w).
Proof.
  intros Hx Hlit Hc. assert (forall w, signed_ranged a f (x_left e) w -> INT64_MIN <= w <= INT64_MAX) as Hb.
  { intros w. apply ranged_bounds. unfold Z.lnot, INT64_MIN, INT64_MAX. lia. }
  destruct x as [[] o w]; cbn [c_valid c_value c_overflow negb] in Hc.
  - assert (folds (mkConstant true o w) w) as Hw by done. apply Hx in Hw as Hr. pose proof (Hb w Hr).
    assert (forall w', signed_ranged a f (x_left e) w' -> w' = w) as Hu by (intros w' [_ ?]%Hx; done).
    unfold is_op in Hc. unfold INT64_MIN, INT64_MAX in *. case_bool_decide as Ho; [|case_bool_decide as Ho'].
    + injection Hc as <-. destruct (Z.eqb_spec w (- 2 ^ 63)) as [->|]; autorewrite with folds.
      * split; [done|]. intros (w' & ->%Hu & [(_ & _ & ?)|(? & _)]); [lia|congruence].
      * split; [intros <-; exists w; split; [done|left; lia + (split; [done|lia])]|].
        intros (w' & ->%Hu & [(_ & -> & _)|(? & _)]); [done|congruence].
    + injection Hc as <-. unfold folds. cbn. split; [intros [_ <-]; exists w; auto|].
      intros (w' & ->%Hu & [(? & _)|(_ & ->)]); [congruence|done].
    + injection Hc as <-. unfold folds. cbn. split; [by intros [? _]|]. intros (w' & _ & [(? & _)|(? & _)]); congruence.
  - injection Hc as <-. unfold folds at 1. cbn. split; [by intros [? _]|]. intros (w' & [? _]%Hx & _). done.
Qed.

(** Binary operators, for any exact folding of the operands. *)
Lemma binary_folds (lo hi : Z) (R : Z -> Z -> Prop) binary l r left_ right_ op c v :
  (forall x, folds l x <-> R left_ x) -> (forall x, folds r x <-> R right_ x) ->
  (forall id x, R id x -> lo <= x <= hi) ->
  (forall x y, lo <= x <= hi -> lo <= y <= hi -> folds (binary op x y) v <-> in_range lo hi (exact_binary lo hi op x y) v) ->
  (if negb (c_valid l) || negb (c_valid r) then Some (mkConstant false (c_overflow l || c_overflow r) 0)
   else Some (binary op (c_value l) (c_value r))) = Some c ->
  folds c v <-> exists x y, R left_ x /\ R right_ y /\ in_range lo hi (exact_binary lo hi op x y) v.
Proof.
  intros Hl Hr Hb Hop Hc. destruct l as [[] lo_ lv], r as [[] ro rv]; cbn [c_valid c_value negb orb] in Hc; injection Hc as <-.
  - assert (R left_ lv /\ R right_ rv) as [Rl Rr] by (split; [by apply Hl|by apply Hr]).
    rewrite (Hop lv rv) by eauto. split; [eauto|]. intros (x & y & [_ Ex]%Hl & [_ Ey]%Hr & ?). cbn in *. by subst.
  - unfold folds at 1. cbn. split; [by intros [? _]|]. intros (x & y & _ & [? _]%Hr & _). done.
  - unfold folds at 1. cbn. split; [by intros [? _]|]. intros (x & y & [? _]%Hl & _). done.
  - unfold folds at 1. cbn. split; [by intros [? _]|]. intros (x & y & [? _]%Hl & _). done.
Qed.

Lemma constant_int_folds fuel a id follow c :
  literals_ok a -> constant_int_at fuel a id follow = Some c -> forall v, folds c v <-> signed_ranged a follow id v.
Proof.
  intros Hok. revert id follow c. induction fuel as [|n IH]; intros id follow c; [done|]. cbn [constant_int_at].
  destruct (Z.eqb_spec id DYN_NO_EXPR) as [Hno|Hno].
  { intros [= <-] v. autorewrite with folds. split; [done|]. by intros (? & ? & _)%ranged_only_nodes. }
  destruct (get_at (tab a EXPRESSIONS) id) as [e|] eqn:He; [|done].
  destruct (x_wrap e) eqn:Hw.
  { intros [= <-] v. autorewrite with folds. split; [done|]. intros (? & _ & ? & ?)%ranged_only_nodes. congruence. }
  assert (node a id e) as Hn by done. destruct (proj1 (Forall_forall _ _) Hok e (get_at_elem _ _ _ He)) as [Hu Hm].
  intros Hc v. unfold signed_ranged. rewrite (ranged_node _ _ _ _ _ _ _ _ e Hn). revert Hc.
  destruct (x_kind e) eqn:Hk; try (rewrite followed_None by congruence); kind_tests;
    try (intros [= <-]; autorewrite with folds; done).
  - destruct (Z.ltb_spec INT64_MAX (x_integer e)); intros [= <-]; autorewrite with folds; unfold INT64_MIN in *; intuition lia.
  - destruct (Z.ltb_spec INT64_MAX (x_integer e)); intros [= <-]; autorewrite with folds; unfold INT64_MIN in *; intuition lia.
  - destruct (negated_literal a e) as [[m|]|] eqn:Hlit; [..|done].
    + intros [= <-]. specialize (Hm m eq_refl). rewrite negated_i64 by done. autorewrite with folds.
      unfold INT64_MIN, INT64_MAX in *. split; [intros <-; left; exists m; split; [done|lia]|].
      intros [(m' & [= <-] & -> & _)|[? _]]; done.
    + destruct (constant_int_at n a (x_left e) follow) as [x|] eqn:Hx; [|done]. intros Hc.
      rewrite (signed_unary_folds a e x c v follow (IH _ _ _ Hx) Hlit Hc). split; [auto|]. intros [(? & ? & _)|[_ ?]]; done.
  - destruct (constant_int_at n a (x_left e) follow) as [l|] eqn:Hl; [|done].
    destruct (constant_int_at n a (x_right e) follow) as [r|] eqn:Hr; [|done]. intros Hc.
    apply (binary_folds INT64_MIN INT64_MAX (signed_ranged a follow) signed_binary l r _ _ _ _ _ (IH _ _ _ Hl) (IH _ _ _ Hr)); [| |done].
    + intros i x. apply ranged_bounds. unfold Z.lnot, INT64_MIN, INT64_MAX. lia.
    + intros. by apply signed_binary_exact.
  - unfold followed. destruct follow as [|f]; kind_tests.
    + intros [= <-]. autorewrite with folds. split; [done|]. by intros (? & ? & _).
    + intros Hc. rewrite (IH _ _ _ Hc). split; [eauto|]. by intros (? & [= <-] & ?).
  - unfold followed. destruct follow as [|f]; kind_tests.
    + intros [= <-]. autorewrite with folds. split; [done|]. by intros (? & ? & ? & _).
    + destruct (constant_global a e) as [init|] eqn:Hg.
      * intros Hc. rewrite (IH _ _ _ Hc). split; [eauto 6|]. by intros (? & ? & [= <-] & [= <-] & ?).
      * intros [= <-]. autorewrite with folds. split; [done|]. by intros (? & ? & _ & ? & _).
Qed.

(** ** Unsigned folding is exact without unary minus *)
Definition unsigned_ranged (a : DynAstProgram) : nat -> Z -> Z -> Prop :=
  ranged 0 UINT64_MAX (fun v => UINT64_MAX - v) (fun _ => Some None) a.
Definition no_negation (a : DynAstProgram) : Prop :=
  Forall (fun e => 0 <= x_integer e <= UINT64_MAX /\ ~ (x_kind e = DYN_EXPR_UNARY /\ x_op e = DYN_OP_NEG)) (tab a EXPRESSIONS).

Lemma u64_lnot v : 0 <= v <= UINT64_MAX -> u64 (Z.lnot v) = UINT64_MAX - v.
Proof.
  intros Hv. unfold u64, wrap, UINT64_MAX in *. rewrite <- (Z.mod_add _ 1) by lia. unfold Z.lnot. rewrite Z.mod_small; lia.
Qed.

Lemma constant_uint_folds fuel a id follow c :
  no_negation a -> constant_uint_at fuel a id follow = Some c -> forall v, folds c v <-> unsigned_ranged a follow id v.
Proof.
  intros Hok. assert (forall f i x, unsigned_ranged a f i x -> 0 <= x <= UINT64_MAX) as Hb.
  { intros f i x. apply ranged_bounds. lia. }
  revert id follow c. induction fuel as [|n IH]; intros id follow c; [done|]. cbn [constant_uint_at].
  destruct (Z.eqb_spec id DYN_NO_EXPR) as [Hno|Hno].
  { intros [= <-] v. autorewrite with folds. split; [done|]. by intros (? & ? & _)%ranged_only_nodes. }
  destruct (get_at (tab a EXPRESSIONS) id) as [e|] eqn:He; [|done].
  destruct (x_wrap e) eqn:Hw.
  { intros [= <-] v. autorewrite with folds. split; [done|]. intros (? & _ & ? & ?)%ranged_only_nodes. congruence. }
  assert (node a id e) as Hn by done. destruct (proj1 (Forall_forall _ _) Hok e (get_at_elem _ _ _ He)) as [Hu Hneg].
  intros Hc v. unfold unsigned_ranged. rewrite (ranged_node _ _ _ _ _ _ _ _ e Hn). revert Hc.
  destruct (x_kind e) eqn:Hk; try (rewrite followed_None by congruence); kind_tests;
    try (intros [= <-]; autorewrite with folds; first [done|intuition lia]).
  - destruct (constant_uint_at n a (x_left e) follow) as [x|] eqn:Hx; [|done]. pose proof (IH _ _ _ Hx) as Hf.
    assert (x_op e <> DYN_OP_NEG) as Hop by naive_solver. rewrite (bool_decide_false _ Hop).
    destruct x as [[] o w]; cbn [c_valid c_value c_overflow negb].
    + assert (unsigned_ranged a follow (x_left e) w) as Hr by by apply Hf.
      assert (forall w', unsigned_ranged a follow (x_left e) w' -> w' = w) as Huniq by (intros w' [_ ?]%Hf; done).
      case_bool_decide as Ho; intros [= <-]; unfold folds at 1; cbn.
      * rewrite u64_lnot by eauto. split; [intros [_ <-]; right; split; [done|]; exists w; auto|].
        intros [(? & ? & _)|(_ & w' & ->%Huniq & [(? & _)|(_ & ->)])]; done.
      * split; [by intros [? _]|]. intros [(? & ? & _)|(_ & w' & _ & [(? & _)|(? & _)])]; done.
    + intros [= <-]. unfold folds at 1. cbn. split; [by intros [? _]|].
      intros [(? & ? & _)|(_ & w' & [? _]%Hf & _)]; done.
  - destruct (constant_uint_at n a (x_left e) follow) as [l|] eqn:Hl; [|done].
    destruct (constant_uint_at n a (x_right e) follow) as [r|] eqn:Hr; [|done]. intros Hc.
    apply (binary_folds 0 UINT64_MAX (unsigned_ranged a follow) unsigned_binary l r _ _ _ _ _ (IH _ _ _ Hl) (IH _ _ _ Hr)); [by apply Hb| |done].
    intros. by apply unsigned_binary_exact.
  - unfold followed. destruct follow as [|f]; kind_tests.
    + intros [= <-]. autorewrite with folds. split; [done|]. by intros (? & ? & _).
    + intros Hc. rewrite (IH _ _ _ Hc). split; [eauto|]. by intros (? & [= <-] & ?).
  - unfold followed. destruct follow as [|f]; kind_tests.
    + intros [= <-]. autorewrite with folds. split; [done|]. by intros (? & ? & ? & _).
    + destruct (constant_global a e) as [init|] eqn:Hg.
      * intros Hc. rewrite (IH _ _ _ Hc). split; [eauto 6|]. by intros (? & ? & [= <-] & [= <-] & ?).
      * intros [= <-]. autorewrite with folds. split; [done|]. by intros (? & ? & _ & ? & _).
Qed.

(** ** Folding ends

    Operands have a smaller rank than their operator (the trees are finite);
    conversions and initializers lie in the table. *)
Definition present (a : DynAstProgram) (id : Z) : Prop := id = DYN_NO_EXPR \/ 0 <= id < tcount a EXPRESSIONS.
Record ranks (a : DynAstProgram) (rank : Z -> nat) (top : nat) : Prop := {
  rank_top : forall id, (rank id <= top)%nat;
  rank_unary : forall id e, get_at (tab a EXPRESSIONS) id = Some e -> x_kind e = DYN_EXPR_UNARY ->
    0 <= x_left e < tcount a EXPRESSIONS /\ (rank (x_left e) < rank id)%nat;
  rank_binary : forall id e, get_at (tab a EXPRESSIONS) id = Some e -> x_kind e = DYN_EXPR_BINARY ->
    0 <= x_left e < tcount a EXPRESSIONS /\ 0 <= x_right e < tcount a EXPRESSIONS /\
    (rank (x_left e) < rank id)%nat /\ (rank (x_right e) < rank id)%nat;
  rank_convert : forall id e, get_at (tab a EXPRESSIONS) id = Some e -> x_kind e = DYN_EXPR_CONVERT -> present a (x_left e);
  rank_initializer : forall i g, get_at (tab a GLOBALS) i = Some g -> present a (gl_initializer g) }.
Definition folding_fuel (top follow : nat) : nat := S follow * S top.

Section Total.
Context (a : DynAstProgram) (rank : Z -> nat) (top : nat) (Hr : ranks a rank top).

Lemma followed_present e id follow id' f :
  get_at (tab a EXPRESSIONS) id = Some e -> followed a e follow = Some (id', f) -> follow = S f /\ present a id'.
Proof.
  intros He. unfold followed, is_kind. destruct follow as [|f']; [done|]. case_bool_decide as Hk.
  - intros [= <- <-]. split; [done|]. by eapply rank_convert.
  - unfold constant_global. destruct (is_kind e DYN_EXPR_GLOBAL); [|done].
    destruct (get_at (tab a GLOBALS) (x_integer e)) as [g|] eqn:Hg; [|done]. destruct (gl_is_const g); [|done].
    intros [= <- <-]. split; [done|]. by eapply rank_initializer.
Qed.
Lemma negated_literal_total e id :
  get_at (tab a EXPRESSIONS) id = Some e -> x_kind e = DYN_EXPR_UNARY -> exists l, negated_literal a e = Some l.
Proof.
  intros He Hk. unfold negated_literal. destruct (_ && _); [|by eexists].
  destruct (rank_unary _ _ _ Hr id e He Hk) as [Hl _]. destruct (get_at_is_Some (tab a EXPRESSIONS) (x_left e) Hl) as [x ->].
  by eexists.
Qed.

Lemma constant_int_total fuel id follow :
  (follow * S top + rank id < fuel)%nat -> present a id -> exists c, constant_int_at fuel a id follow = Some c.
Proof.
  revert id follow. induction fuel as [|n IH]; intros id follow Hf Hid; [lia|]. cbn [constant_int_at].
  destruct (Z.eqb_spec id DYN_NO_EXPR) as [|Hno]; [by eexists|]. destruct Hid as [|Hid]; [done|].
  destruct (get_at_is_Some (tab a EXPRESSIONS) id Hid) as [e He]. rewrite He. destruct (x_wrap e); [by eexists|].
  destruct (followed a e follow) as [[id' f]|] eqn:Hfo.
  { destruct (followed_present _ _ _ _ _ He Hfo) as [-> ?]. apply IH; [|done]. pose proof (rank_top _ _ _ Hr id'). lia. }
  unfold is_kind. case_bool_decide; [by eexists|]. case_bool_decide; [by eexists|]. cbn [orb]. case_bool_decide as Hu.
  { destruct (negated_literal_total e id He Hu) as [[m|] ->]; [by eexists|].
    destruct (rank_unary _ _ _ Hr id e He Hu) as [Hl Hlt]. destruct (IH (x_left e) follow) as [x ->]; [lia|by right|].
    repeat split_if; by eexists. }
  case_bool_decide as Hb; cbn [negb]; [|by eexists]. destruct (rank_binary _ _ _ Hr id e He Hb) as (Hl & Hri & Hlt & Hrt).
  destruct (IH (x_left e) follow) as [l ->]; [lia|by right|]. destruct (IH (x_right e) follow) as [r ->]; [lia|by right|].
  split_if; by eexists.
Qed.
Lemma constant_uint_total fuel id follow :
  (follow * S top + rank id < fuel)%nat -> present a id -> exists c, constant_uint_at fuel a id follow = Some c.
Proof.
  revert id follow. induction fuel as [|n IH]; intros id follow Hf Hid; [lia|]. cbn [constant_uint_at].
  destruct (Z.eqb_spec id DYN_NO_EXPR) as [|Hno]; [by eexists|]. destruct Hid as [|Hid]; [done|].
  destruct (get_at_is_Some (tab a EXPRESSIONS) id Hid) as [e He]. rewrite He. destruct (x_wrap e); [by eexists|].
  destruct (followed a e follow) as [[id' f]|] eqn:Hfo.
  { destruct (followed_present _ _ _ _ _ He Hfo) as [-> ?]. apply IH; [|done]. pose proof (rank_top _ _ _ Hr id'). lia. }
  unfold is_kind. case_bool_decide; [by eexists|]. case_bool_decide; [by eexists|]. cbn [orb]. case_bool_decide as Hu.
  { destruct (rank_unary _ _ _ Hr id e He Hu) as [Hl Hlt]. destruct (IH (x_left e) follow) as [x ->]; [lia|by right|].
    repeat split_if; by eexists. }
  case_bool_decide as Hb; cbn [negb]; [|by eexists]. destruct (rank_binary _ _ _ Hr id e He Hb) as (Hl & Hri & Hlt & Hrt).
  destruct (IH (x_left e) follow) as [l ->]; [lia|by right|]. destruct (IH (x_right e) follow) as [r ->]; [lia|by right|].
  split_if; by eexists.
Qed.
End Total.


(** [-(1 + 2)] and [-(1 + 2) + 4]. *)
Definition negated_sum : DynAstProgram :=
  with_rows EXPRESSIONS
    [plain_expr DYN_EXPR_INT DYN_OP_NONE DYN_NO_EXPR DYN_NO_EXPR 1;
     plain_expr DYN_EXPR_INT DYN_OP_NONE DYN_NO_EXPR DYN_NO_EXPR 2;
     plain_expr DYN_EXPR_BINARY DYN_OP_ADD 0 1 0;
     plain_expr DYN_EXPR_UNARY DYN_OP_NEG 2 DYN_NO_EXPR 0;
     plain_expr DYN_EXPR_INT DYN_OP_NONE DYN_NO_EXPR DYN_NO_EXPR 4;
     plain_expr DYN_EXPR_BINARY DYN_OP_ADD 3 4 0] empty_ast.
Definition sample_rank (id : Z) : nat := Z.to_nat (Z.min id 5).

(** Case analysis on a row of a concrete table. *)
Ltac each_row h :=
  apply get_at_Some in h as [? h]; cbn [length] in *;
  match type of h with _ !! Z.to_nat ?i = _ => 
    destruct (Z.to_nat i) as [|[|[|[|[|[|]]]]]] eqn:?; cbn in h; try done; injection h as <- end.

Lemma negated_sum_ranks : ranks negated_sum sample_rank 5.
Proof.
  split.
  - unfold sample_rank. lia.
  - unfold negated_sum, tcount. rewrite tab_with_same. intros id e He. each_row He; cbn; unfold zlen, sample_rank; cbn; try discriminate; lia.
  - unfold negated_sum, tcount. rewrite tab_with_same. intros id e He. each_row He; cbn; unfold zlen, sample_rank; cbn; try discriminate; lia.
  - unfold negated_sum. rewrite tab_with_same. intros id e He. each_row He; discriminate.
  - intros i g Hg. exfalso. apply get_at_range in Hg. change (0 <= i < 0) in Hg. lia.
Qed.

(** Unsigned folding accepts a negated expression that is not a literal: it
    marks the overflow but keeps the value valid, so [-(1 + 2)] folds to 3 and
    [-(1 + 2) + 4] to 7 with no overflow left, though neither has a value among
    the unsigned integers; the callers that test only [valid], as case patterns
    do, take 3. *)
Theorem unsigned_negation_folds :
  constant_uint 10 negated_sum 3 = Some (mkConstant true true 3)
  /\ constant_uint 10 negated_sum 5 = Some (constant 7)
  /\ ~ (exists v, unsigned_ranged negated_sum 0 3 v) /\ ~ (exists v, unsigned_ranged negated_sum 0 5 v).
Proof.
  assert (forall id e, get_at (tab negated_sum EXPRESSIONS) id = Some e -> id <> DYN_NO_EXPR -> x_wrap e = false -> node negated_sum id e) as Hnode by done.
  assert (~ (exists v, unsigned_ranged negated_sum 0 3 v)) as H3.
  { intros [v Hv]. unfold unsigned_ranged in Hv.
    rewrite (ranged_node _ _ _ _ _ _ _ _ _ (Hnode 3 _ ltac:(reflexivity) ltac:(discriminate) ltac:(reflexivity))) in Hv. cbn in Hv.
    destruct Hv as [(? & ? & _)|(_ & w & Hw & [(_ & -> & Hr)|(? & _)])]; [done| |done].
    rewrite (ranged_node _ _ _ _ _ _ _ _ _ (Hnode 2 _ ltac:(reflexivity) ltac:(discriminate) ltac:(reflexivity))) in Hw. cbn in Hw.
    destruct Hw as (l & r & Hl & Hr' & [[= <-] ?]).
    rewrite (ranged_node _ _ _ _ _ _ _ _ _ (Hnode 0 _ ltac:(reflexivity) ltac:(discriminate) ltac:(reflexivity))) in Hl. cbn in Hl.
    rewrite (ranged_node _ _ _ _ _ _ _ _ _ (Hnode 1 _ ltac:(reflexivity) ltac:(discriminate) ltac:(reflexivity))) in Hr'. cbn in Hr'.
    lia. }
  split; [vm_compute; reflexivity|]. split; [vm_compute; reflexivity|]. split; [done|].
  intros [v Hv]. unfold unsigned_ranged in Hv.
  rewrite (ranged_node _ _ _ _ _ _ _ _ _ (Hnode 5 _ ltac:(reflexivity) ltac:(discriminate) ltac:(reflexivity))) in Hv. cbn in Hv.
  destruct Hv as (l & r & Hl & _). apply H3. by exists l.
Qed.

(** ** [#assert] conditions

    The inner [None] is the answer -1: not a compile-time constant. *)
Definition assert_signed (t : Z) : bool := ((DYN_TYPE_I8 <=? t) && (t <=? DYN_TYPE_I64)) || (t =? DYN_TYPE_ISIZE).
Fixpoint assert_operand_loop (rounds : nat) (a : DynAstProgram) (id : Z) : option Z :=
  match rounds with
  | O => Some DYN_NO_EXPR
  | S n =>
      if id =? DYN_NO_EXPR then Some DYN_NO_EXPR
      else
        let* e := get_at (tab a EXPRESSIONS) id in
        if is_kind e DYN_EXPR_CONVERT then assert_operand_loop n a (x_left e)
        else match constant_global a e with Some init => assert_operand_loop n a init | None => Some id end
  end.
Definition assert_operand (a : DynAstProgram) (id : Z) : option Z := assert_operand_loop 64 a id.
Definition compare_holds (op : DynOperator) (l r : Z) : bool :=
  match op with
  | DYN_OP_EQ => l =? r
  | DYN_OP_NE => negb (l =? r)
  | DYN_OP_LT => l <? r
  | DYN_OP_LE => l <=? r
  | DYN_OP_GT => r <? l
  | _ => r <=? l
  end.
Definition is_comparison (op : DynOperator) : bool :=
  match op with DYN_OP_EQ | DYN_OP_NE | DYN_OP_LT | DYN_OP_LE | DYN_OP_GT | DYN_OP_GE => true | _ => false end.
Fixpoint assert_value (fuel cfuel : nat) (a : DynAstProgram) (id depth : Z) : option (option bool) :=
  match fuel with
  | O => None
  | S n =>
      let* id := assert_operand a id in
      if (id =? DYN_NO_EXPR) || (64 <? depth) then Some None
      else
        let* e := get_at (tab a EXPRESSIONS) id in
        if is_kind e DYN_EXPR_BOOL then Some (Some (x_boolean e))
        else if is_kind e DYN_EXPR_UNARY && is_op e DYN_OP_NOT then
          let* x := assert_value n cfuel a (x_left e) (depth + 1) in Some (option_map negb x)
        else if negb (is_kind e DYN_EXPR_BINARY) then Some None
        else if is_op e DYN_OP_LOGICAL_AND || is_op e DYN_OP_LOGICAL_OR then
          let* l := assert_value n cfuel a (x_left e) (depth + 1) in
          let* r := assert_value n cfuel a (x_right e) (depth + 1) in
          Some (match l, r with
                | Some l, Some r => Some (if is_op e DYN_OP_LOGICAL_AND then l && r else l || r)
                | _, _ => None
                end)
        else if negb (is_comparison (x_op e)) then Some None
        else
          let* left_ := assert_operand a (x_left e) in
          let* right_ := assert_operand a (x_right e) in
          if (left_ =? DYN_NO_EXPR) || (right_ =? DYN_NO_EXPR) then Some None
          else
            let* el := get_at (tab a EXPRESSIONS) (x_left e) in
            let* er := get_at (tab a EXPRESSIONS) (x_right e) in
            let fold := if assert_signed (x_type el) || assert_signed (x_type er) then constant_int_at else constant_uint_at in
            let* l := fold cfuel a left_ 64%nat in
            let* r := fold cfuel a right_ 64%nat in
            if negb (c_valid l) || negb (c_valid r) then Some None
            else Some (Some (compare_holds (x_op e) (c_value l) (c_value r)))
  end.

(** ** Literals *)
Definition range_bound_literal (a : DynAstProgram) (id : Z) : option bool :=
  let* e := get_at (tab a EXPRESSIONS) id in
  let* e := (if is_kind e DYN_EXPR_UNARY && is_op e DYN_OP_NEG then get_at (tab a EXPRESSIONS) (x_left e) else Some e) in
  Some (is_kind e DYN_EXPR_INT).
Fixpoint untyped_numeric_literal (fuel : nat) (a : DynAstProgram) (id : Z) : option bool :=
  match fuel with
  | O => None
  | S n =>
      let* e := get_at (tab a EXPRESSIONS) id in
      if is_kind e DYN_EXPR_UNARY && (is_op e DYN_OP_NEG || is_op e DYN_OP_BIT_NOT) then untyped_numeric_literal n a (x_left e)
      else Some (is_kind e DYN_EXPR_INT || is_kind e DYN_EXPR_FLOAT)
  end.
(** An untyped literal takes its type from the parameter once T is known. *)
Fixpoint untyped_literal (fuel : nat) (a : DynAstProgram) (id : Z) : option bool :=
  match fuel with
  | O => None
  | S n =>
      if id =? DYN_NO_EXPR then Some false
      else
        let* e := get_at (tab a EXPRESSIONS) id in
        if is_kind e DYN_EXPR_UNARY && is_op e DYN_OP_NEG then untyped_literal n a (x_left e)
        else Some (is_kind e DYN_EXPR_INT || is_kind e DYN_EXPR_FLOAT)
  end.
