(* ===== verification/SemaCase.v ===== *)
(** Coverage of an integer [case] (src/src/sema.c): overlap of two patterns
    and whether the patterns cover the type of the subject.

    A pattern is an interval of 64-bit words, read as signed or unsigned by the
    type of the subject. *)

From S2P Require Import Prelude Target Source Work Ir Ast AstTypes SemaTypes.

Definition interval_overlap (p q : DynAstPattern) : bool :=
  if pt_is_signed p then
    (i64 (pt_first_value p) <=? i64 (pt_last_value q)) && (i64 (pt_first_value q) <=? i64 (pt_last_value p))
  else (pt_first_value p <=? pt_last_value q) && (pt_first_value q <=? pt_last_value p).

(** The patterns of a statement in the order of its arms. *)
Definition arm_patterns (a : DynAstProgram) (arm : DynAstCaseArm) : list DynAstPattern :=
  slice_at (tab a PATTERNS) (ca_pattern_start arm) (ca_pattern_count arm).
Definition case_patterns (a : DynAstProgram) (st : DynAstStmt) : list DynAstPattern :=
  concat (map (arm_patterns a) (slice_at (tab a CASE_ARMS) (s_case_arm_start st) (s_case_arm_count st))).

(** The ends of a type as 64-bit words. *)
Definition case_min (pb : Z) (a : DynAstProgram) (type : Z) : Z :=
  let width := bits pb a type in
  if signed_int a type then u64 (if width =? 64 then INT64_MIN else - Z.shiftl 1 (width - 1)) else 0.
Definition case_max (pb : Z) (a : DynAstProgram) (type : Z) : Z :=
  let width := bits pb a type in
  if signed_int a type then u64 (if width =? 64 then INT64_MAX else Z.shiftl 1 (width - 1) - 1)
  else if width =? 64 then UINT64_MAX else Z.shiftl 1 width - 1.
Fixpoint cover_loop (fuel : nat) (sign : bool) (ps : list DynAstPattern) (max_ cursor : Z) : option bool :=
  match fuel with
  | O => None
  | S n =>
      match List.find (fun p => pt_first_value p =? cursor) ps with
      | None => Some false
      | Some p =>
          if pt_last_value p =? max_ then Some true
          else if sign && (i64 (pt_last_value p) =? INT64_MAX) then Some false
          else if negb sign && (pt_last_value p =? UINT64_MAX) then Some false
          else cover_loop n sign ps max_ (u64 (pt_last_value p + 1))
      end
  end.
Definition integer_case_complete (fuel : nat) (pb : Z) (a : DynAstProgram) (st : DynAstStmt) (type : Z) : option bool :=
  cover_loop fuel (signed_int a type) (case_patterns a st) (case_max pb a type) (case_min pb a type).

(** ** What it decides *)

(** A word as the subject's type reads it. *)
Definition word (sign : bool) (x : Z) : Z := if sign then i64 x else x.
Definition covers (sign : bool) (p : DynAstPattern) (v : Z) : Prop :=
  word sign (pt_first_value p) <= v <= word sign (pt_last_value p).
(** Patterns that analysis accepted: in the type, not empty, without overlap. *)
Record patterns_ok (sign : bool) (lo hi : Z) (ps : list DynAstPattern) : Prop := {
  p_words : Forall (fun p => 0 <= pt_first_value p < 2 ^ 64 /\ 0 <= pt_last_value p < 2 ^ 64 /\ pt_is_signed p = sign) ps;
  p_range : Forall (fun p => lo <= word sign (pt_first_value p) /\ word sign (pt_last_value p) <= hi) ps;
  p_ordered : Forall (fun p => word sign (pt_first_value p) <= word sign (pt_last_value p)) ps;
  p_disjoint : forall i j p q v, ps !! i = Some p -> ps !! j = Some q -> covers sign p v -> covers sign q v -> i = j }.

Lemma i64_u64 x : INT64_MIN <= x <= INT64_MAX -> i64 (u64 x) = x.
Proof.
  intros Hx. unfold i64, to_signed, u64, wrap, INT64_MIN, INT64_MAX in *. rewrite Zmod_mod.
  destruct (Z_lt_le_dec x 0).
  - rewrite <- (Z.mod_add x 1), Z.mod_small by lia. rewrite (proj2 (Z.ltb_ge _ _)) by lia. lia.
  - rewrite Z.mod_small by lia. by rewrite (proj2 (Z.ltb_lt _ _)) by lia.
Qed.
Lemma i64_range x : INT64_MIN <= i64 x <= INT64_MAX.
Proof.
  unfold i64, to_signed, wrap, INT64_MIN, INT64_MAX. pose proof (Z.mod_pos_bound x (2 ^ 64) ltac:(lia)). split_if; to_prop; lia.
Qed.
Lemma u64_i64 x : 0 <= x < 2 ^ 64 -> u64 (i64 x) = x.
Proof.
  intros Hx. unfold i64, to_signed, u64, wrap. rewrite (Z.mod_small x) by lia. split_if; to_prop.
  - by rewrite Z.mod_small by lia.
  - rewrite <- (Z.mod_add _ 1), Z.mod_small by lia. lia.
Qed.
Lemma word_inj sign x y : 0 <= x < 2 ^ 64 -> 0 <= y < 2 ^ 64 -> word sign x = word sign y -> x = y.
Proof. destruct sign; cbn; [|done]. intros Hx Hy E. rewrite <- (u64_i64 x), <- (u64_i64 y), E by done. done. Qed.
(** The next word is the next value, below the greatest. *)
Lemma word_succ sign x :
  0 <= x < 2 ^ 64 -> word sign x < word sign (if sign then INT64_MAX else UINT64_MAX) -> word sign (u64 (x + 1)) = word sign x + 1.
Proof.
  destruct sign; cbn; intros Hx Hlt.
  - replace (x + 1) with (i64 x + 1 + (if i64 x <? 0 then 1 else 0) * 2 ^ 64).
    + replace (u64 (i64 x + 1 + (if i64 x <? 0 then 1 else 0) * 2 ^ 64)) with (u64 (i64 x + 1)).
      * apply i64_u64. pose proof (i64_range x). change (i64 INT64_MAX) with INT64_MAX in Hlt. lia.
      * unfold u64, wrap. by rewrite Z.mod_add by lia.
    + unfold i64, to_signed, wrap. rewrite Z.mod_small by lia. destruct (Z.ltb_spec x (2 ^ (64 - 1))); zb; lia.
  - apply u64_small. unfold UINT64_MAX in *. lia.
Qed.

(** Two patterns that are not empty overlap when they share a value. *)
Lemma overlap_iff sign p q :
  pt_is_signed p = sign -> word sign (pt_first_value p) <= word sign (pt_last_value p) ->
  word sign (pt_first_value q) <= word sign (pt_last_value q) ->
  interval_overlap p q = true <-> exists v, covers sign p v /\ covers sign q v.
Proof.
  intros <- Hp Hq. unfold interval_overlap, covers, word in *. destruct (pt_is_signed p); rewrite andb_true_iff, !Z.leb_le; split.
  - intros. exists (Z.max (i64 (pt_first_value p)) (i64 (pt_first_value q))). lia.
  - intros (v & ? & ?). lia.
  - intros. exists (Z.max (pt_first_value p) (pt_first_value q)). lia.
  - intros (v & ? & ?). lia.
Qed.

Lemma filter_shorter {A} (P Q : A -> bool) l x :
  (forall y, Q y = true -> P y = true) -> x ∈ l -> P x = true -> Q x = false ->
  (length (List.filter Q l) < length (List.filter P l))%nat.
Proof.
  intros HQP Hx HP HQ.
  assert (forall l, length (List.filter Q l) <= length (List.filter P l))%nat as Hle.
  { clear -HQP. induction l as [|y l IH]; cbn; [lia|]. destruct (Q y) eqn:E; [rewrite (HQP y E); cbn; lia|]. destruct (P y); cbn; lia. }
  induction Hx as [x l0|x y l0 _ IH]; cbn.
  - rewrite HP, HQ. cbn. pose proof (Hle l0). lia.
  - specialize (IH HP HQ). destruct (Q y) eqn:E; [rewrite (HQP y E); cbn; lia|]. destruct (P y); cbn; lia.
Qed.

Section Cover.
Context (sign : bool) (lo hi max_ : Z) (ps : list DynAstPattern) (Hok : patterns_ok sign lo hi ps)
  (Hmax : 0 <= max_ < 2 ^ 64) (Hhi : word sign max_ = hi) (Htop : hi <= word sign (if sign then INT64_MAX else UINT64_MAX)).

Definition covered (v : Z) : Prop := exists p, p ∈ ps /\ covers sign p v.
(** The patterns that the cursor has not reached. *)
Definition ahead (c : Z) : nat := length (List.filter (fun p => c <=? word sign (pt_first_value p)) ps).

Lemma found_at_cursor c :
  lo <= c -> c = lo \/ (exists q, q ∈ ps /\ word sign (pt_last_value q) = c - 1) ->
  covered c -> exists p, p ∈ ps /\ word sign (pt_first_value p) = c.
Proof.
  intros Hlo Hprev (p & Hp & Hfirst & Hlast). exists p. split; [done|].
  pose proof (proj1 (Forall_forall _ _) (p_range _ _ _ _ Hok) p Hp) as Hr. cbn in Hr. destruct Hprev as [->|(q & Hq & Eq)]; [lia|].
  destruct (Z.eq_dec (word sign (pt_first_value p)) c) as [|Hne]; [done|]. exfalso.
  pose proof (proj1 (Forall_forall _ _) (p_ordered _ _ _ _ Hok) q Hq) as Ho. cbn in Ho.
  apply list_elem_of_lookup in Hp as [i Hi]. apply list_elem_of_lookup in Hq as [j Hj].
  assert (i = j) as <-; [|simplify_eq; lia].
  apply (p_disjoint _ _ _ _ Hok i j p q (c - 1) Hi Hj); unfold covers; lia.
Qed.

Lemma cover_loop_spec fuel cursor :
  0 <= cursor < 2 ^ 64 -> lo <= word sign cursor <= hi -> (ahead (word sign cursor) < fuel)%nat ->
  (forall v, lo <= v < word sign cursor -> covered v) ->
  word sign cursor = lo \/ (exists q, q ∈ ps /\ word sign (pt_last_value q) = word sign cursor - 1) ->
  exists b, cover_loop fuel sign ps max_ cursor = Some b /\ (b = true <-> forall v, lo <= v <= hi -> covered v).
Proof.
  revert cursor. induction fuel as [|n IH]; intros cursor Hc Hr Hf Hbefore Hprev; [lia|]. cbn [cover_loop].
  destruct (List.find (fun p => pt_first_value p =? cursor) ps) as [p|] eqn:Hfind.
  2: { exists false. split; [done|]. split; [done|]. intros Hall. exfalso.
       destruct (found_at_cursor (word sign cursor)) as (p & Hp & Ep); [lia|done|apply Hall; lia|].
       destruct (proj1 (Forall_forall _ _) (p_words _ _ _ _ Hok) p Hp) as (? & _).
       apply word_inj in Ep; [|lia..]. eapply List.find_none in Hfind; [|by apply list_elem_of_In]. apply Z.eqb_neq in Hfind. done. }
  apply List.find_some in Hfind as [Hp%list_elem_of_In <-%Z.eqb_eq]. set (c := word sign (pt_first_value p)) in *.
  destruct (proj1 (Forall_forall _ _) (p_words _ _ _ _ Hok) p Hp) as (_ & Hw & _).
  pose proof (proj1 (Forall_forall _ _) (p_ordered _ _ _ _ Hok) p Hp) as Ho.
  pose proof (proj1 (Forall_forall _ _) (p_range _ _ _ _ Hok) p Hp) as Hpr. cbn in Ho, Hpr. fold c in Ho, Hpr.
  assert (forall v, lo <= v <= word sign (pt_last_value p) -> covered v) as Hnext.
  { intros v Hv. destruct (Z_lt_le_dec v c); [apply Hbefore; lia|]. exists p. split; [done|]. unfold covers. fold c. lia. }
  destruct (Z.eqb_spec (pt_last_value p) max_) as [Em|Hne].
  { exists true. split; [done|]. split; [|done]. intros _ v Hv. apply Hnext. rewrite Em, Hhi. lia. }
  assert (word sign (pt_last_value p) <> hi) as Hlt by (intros E; apply Hne, (word_inj sign); (done || congruence)).
  assert (word sign (pt_last_value p) < word sign (if sign then INT64_MAX else UINT64_MAX)) as Hlt' by lia.
  replace (sign && (i64 (pt_last_value p) =? INT64_MAX)) with false.
  2: { symmetry. destruct sign; [|done]. cbn [andb]. apply Z.eqb_neq. cbn in Hlt'. change (i64 INT64_MAX) with INT64_MAX in Hlt'. lia. }
  replace (negb sign && (pt_last_value p =? UINT64_MAX)) with false.
  2: { symmetry. destruct sign; [done|]. cbn [andb negb]. apply Z.eqb_neq. cbn in Hlt'. lia. }
  pose proof (word_succ sign _ Hw Hlt') as Es.
  apply IH; rewrite ?Es.
  - apply u64_range.
  - lia.
  - assert (ahead (word sign (pt_last_value p) + 1) < ahead c)%nat; [|lia].
    apply (filter_shorter _ _ _ p); [|done|..]; fold c; intros; to_prop; rewrite ?Z.leb_le, ?Z.leb_gt; lia.
  - intros v Hv. apply Hnext. lia.
  - right. exists p. split; [done|]. lia.
Qed.
End Cover.

Section Complete.
Context (pb : Z) (a : DynAstProgram) (type : Z) (Hpb : pb = 4 \/ pb = 8).

Lemma case_min_word : 0 <= case_min pb a type < 2 ^ 64 /\ word (signed_int a type) (case_min pb a type) = type_min pb a type.
Proof.
  unfold case_min, type_min, word. destruct (signed_int a type); [|lia].
  destruct (bits_cases pb a Hpb type) as [->|[->|[->| ->]]]; width_constants; (split; [apply u64_range|]); apply i64_u64; vm_compute; split; discriminate.
Qed.
Lemma case_max_word :
  0 <= case_max pb a type < 2 ^ 64 /\ word (signed_int a type) (case_max pb a type) = type_max pb a type
  /\ type_max pb a type <= word (signed_int a type) (if signed_int a type then INT64_MAX else UINT64_MAX).
Proof.
  unfold case_max, type_max, word. destruct (signed_int a type);
  destruct (bits_cases pb a Hpb type) as [->|[->|[->| ->]]]; width_constants;
    (split; [first [apply u64_range|vm_compute; split; [discriminate|reflexivity]]|]);
    (split; [first [reflexivity|apply i64_u64; vm_compute; split; discriminate]|vm_compute; discriminate]).
Qed.
End Complete.


(** A [case] on a [u8] with the patterns [0] and [1..=255]. *)
Definition byte_case (patterns : list (Z * Z)) : DynAstProgram * DynAstStmt :=
  (with_rows PATTERNS
     (map (fun '(first, last) => mkPattern no_span DYN_NO_EXPR DYN_NO_EXPR DYN_TYPE_INFER first last 0 true true false false false) patterns)
     (with_rows CASE_ARMS [mkCaseArm no_span no_span 0 (zlen patterns) 0 0 UINT32_MAX false false] empty_ast),
   mkAstStmt DYN_STMT_CASE no_span no_span no_span no_span DYN_TYPE_INFER 0 DYN_NO_EXPR DYN_OP_NONE 0 0 0 0 0 0 0 0 1
     false false false false).

(** The exclusive range [1..1] is reported as empty but keeps the ends 1
    and 0; when a pattern ends at 0, the search then moves its cursor from 1 back
    to 1 for ever, so the analysis of a [case] with the patterns [0] and [1..1]
    never returns. *)
Theorem empty_range_never_ends :
  forall fuel, integer_case_complete fuel 8 (fst (byte_case [(0, 0); (1, 0)])) (snd (byte_case [(0, 0); (1, 0)])) DYN_TYPE_U8 = None.
Proof.
  assert (case_patterns (fst (byte_case [(0, 0); (1, 0)])) (snd (byte_case [(0, 0); (1, 0)])) =
    map (fun '(first, last) => mkPattern no_span DYN_NO_EXPR DYN_NO_EXPR DYN_TYPE_INFER first last 0 true true false false false) [(0, 0); (1, 0)])
    as Ep by (vm_compute; reflexivity).
  assert (forall fuel, cover_loop fuel false (case_patterns (fst (byte_case [(0, 0); (1, 0)])) (snd (byte_case [(0, 0); (1, 0)]))) 255 1 = None) as Hloop.
  { rewrite Ep. induction fuel as [|n IH]; [done|]. cbn. exact IH. }
  intros [|n]; [done|]. unfold integer_case_complete.
  change (signed_int _ DYN_TYPE_U8) with false. change (case_max _ _ DYN_TYPE_U8) with 255. change (case_min _ _ DYN_TYPE_U8) with 0.
  cbn [cover_loop]. rewrite Ep at 1. cbn. apply Hloop.
Qed.
