(* ===== verification/AstNames.v ===== *)
(** Names and their indexes (src/src/ast.c, src/src/sema.c): equality of
    spans, visibility between modules, and the three hash indexes (declarations,
    built while names are appended; functions and globals, built once; locals,
    built when a function has many). Each answers like a linear search. *)

From stdpp Require Import sorting.
From S2P Require Import Prelude Target Source Work Ir Ast AstTypes.

(** ** Text of a span *)
Definition span_text (s : DynSource) (p : DynSpan) : bytes := slice_at (s_text s) (start_byte p) (end_byte p - start_byte p).
Definition dyn_span_text_equal (p q : DynSpan) (s : DynSource) : bool :=
  (end_byte p - start_byte p =? end_byte q - start_byte q) && bytes_eqb (span_text s p) (span_text s q).
Definition span_present (p : DynSpan) : bool := start_byte p <? end_byte p.
Definition span_is (p : DynSpan) (s : DynSource) (name : bytes) : bool :=
  (end_byte p - start_byte p =? zlen name) && bytes_eqb (span_text s p) name.
Definition discard_name (n : DynSpan) (s : DynSource) : bool :=
  (end_byte n - start_byte n =? 1) && bool_decide (get_at (s_text s) (start_byte n) = Some 95).
(** The span after the last dot. *)
Fixpoint after_dot (t : bytes) (at_ last : Z) : Z :=
  match t with [] => last | c :: t' => after_dot t' (at_ + 1) (if c =? 46 then at_ + 1 else last) end.
Definition unqualified_span (n : DynSpan) (s : DynSource) : DynSpan :=
  mkDynSpan (after_dot (span_text s n) (start_byte n) (start_byte n)) (end_byte n).

(** ** Modules *)
Fixpoint source_path_loop (fuel : nat) (s : DynSource) (offset first end_ : Z) : option bytes :=
  match fuel with
  | O => None
  | S n =>
      if first <? end_ then
        let middle := first + (end_ - first) / 2 in
        let* m := get_at (s_maps s) middle in
        if offset <? m_start m then source_path_loop n s offset first middle
        else if m_end m <? offset then source_path_loop n s offset (middle + 1) end_
        else Some (m_path m)
      else Some (s_path s)
  end.
Definition module_source_path (s : DynSource) (offset : Z) : option bytes :=
  source_path_loop (S (length (s_maps s))) s offset 0 (zlen (s_maps s)).
(** The part before the last slash. *)
Fixpoint directory (path : bytes) : option bytes :=
  match path with
  | [] => None
  | c :: p' => match directory p' with Some d => Some (c :: d) | None => if c =? 47 then Some [] else None end
  end.
Definition directory_of (path : bytes) : bytes := match directory path with Some d => d | None => [] end.
Definition dyn_module_name_equal (use declaration : DynSpan) (s : DynSource) : option bool :=
  if negb (dyn_span_text_equal use declaration s) then Some false
  else if match s_maps s with m :: _ => start_byte declaration <? m_start m | [] => false end then Some true
  else if (5 <=? end_byte use - start_byte use) && starts_with (str "dyn_m") (span_text s use) then Some true
  else
    let* p := module_source_path s (start_byte use) in
    let* q := module_source_path s (start_byte declaration) in
    Some (bytes_eqb (directory_of p) (directory_of q)).

Lemma module_source_path_total s offset : exists p, module_source_path s offset = Some p.
Proof.
  unfold module_source_path.
  assert (forall fuel first end_, 0 <= first <= end_ -> end_ <= zlen (s_maps s) -> end_ - first < Z.of_nat fuel ->
            exists p, source_path_loop fuel s offset first end_ = Some p) as Hgen; [|apply Hgen; unfold zlen; lia].
  induction fuel as [|n IH]; intros first end_ H1 H2 H3; [lia|]. cbn [source_path_loop].
  destruct (Z.ltb_spec first end_) as [Hlt|]; [|by eexists].
  pose proof (Z.div_pos (end_ - first) 2). pose proof (Z.div_lt (end_ - first) 2).
  destruct (get_at_is_Some (s_maps s) (first + (end_ - first) / 2)) as [m ->]; [unfold zlen in *; lia|].
  repeat split_if; [apply IH; lia..|by eexists].
Qed.
(** Equality between modules is decided, and only holds for equal texts. *)
Lemma module_name_equal_total use declaration s :
  exists b, dyn_module_name_equal use declaration s = Some b
            /\ (b = true -> span_text s use = span_text s declaration).
Proof.
  unfold dyn_module_name_equal. destruct (dyn_span_text_equal use declaration s) eqn:E; cbn [negb]; [|by exists false].
  assert (span_text s use = span_text s declaration) as Ht.
  { unfold dyn_span_text_equal in E. apply andb_true_iff in E as [_ E]. by destruct (bytes_eqb_spec (span_text s use) (span_text s declaration)). }
  destruct (match s_maps s with [] => false | m :: _ => _ end); [by exists true|]. split_if; [by exists true|].
  destruct (module_source_path_total s (start_byte use)) as [p ->], (module_source_path_total s (start_byte declaration)) as [q ->].
  by eexists.
Qed.

(** ** Hash chains

    [buckets] holds the first entry of each chain and [next] the following one
    of each name; an entry is the number of a name plus one. *)
Definition fnv (t : bytes) : Z := fold_left (fun h c => u64 (Z.lxor h c * 1099511628211)) t 14695981039346656037.
Definition sema_name_hash (name : DynSpan) (s : DynSource) : Z := fnv (span_text s name).
Definition insert_name (hash mask i : Z) (bs ns : list Z) : option (list Z * list Z) :=
  let bucket := Z.land hash mask in
  let* head := get_at bs bucket in
  let* ns := set_at ns i head in
  let* bs := set_at bs bucket (u32 (u32 i + 1)) in
  Some (bs, ns).
(** The loop that keeps the least match; entry [e] stands for name [base + e - 1]. *)
Fixpoint least_match (fuel : nat) (matches : Z -> option bool) (base : Z) (ns : list Z) (entry found : Z) : option Z :=
  match fuel with
  | O => None
  | S n =>
      if entry =? 0 then Some found
      else
        let id := u32 (base + entry - 1) in
        let* ok := matches id in
        let* next := get_at ns (entry - 1) in
        least_match n matches base ns next (if ok && (id <? found) then id else found)
  end.
(** The loop that stops at the first match. *)
Fixpoint chain_match (fuel : nat) (matches : Z -> option bool) (ns : list Z) (entry : Z) : option Z :=
  match fuel with
  | O => None
  | S n =>
      if entry =? 0 then Some UINT32_MAX
      else
        let* ok := matches (entry - 1) in
        if ok : bool then Some (entry - 1)
        else let* next := get_at ns (entry - 1) in chain_match n matches ns next
  end.
(** The search the indexes stand for. *)
Fixpoint linear_match (matches : Z -> option bool) (i : Z) (count : nat) : option Z :=
  match count with
  | O => Some UINT32_MAX
  | S n => let* ok := matches i in if ok : bool then Some i else linear_match matches (i + 1) n
  end.

(** ** What the chains hold *)
Inductive chained (ns : list Z) : Z -> list Z -> Prop :=
| ch_end : chained ns 0 []
| ch_link i e l : 0 <= i -> get_at ns i = Some e -> chained ns e l -> chained ns (i + 1) (i :: l).

Lemma chained_insert ns i x entry l : 0 <= i -> i ∉ l -> chained ns entry l -> chained (<[Z.to_nat i := x]> ns) entry l.
Proof.
  intros Hi Hn Hc. induction Hc as [|j e l Hj Hg Hc IH]; [constructor|].
  apply not_elem_of_cons in Hn as [Hne Hn]. apply (ch_link _ j e); [done| |auto]. by rewrite get_at_insert_ne by lia.
Qed.

(** [order]: the names of the index, the latest inserted first. *)
Record indexed (hash : Z -> Z) (k : Z) (order : list Z) (bs ns : list Z) : Prop := {
  ix_k : 0 <= k <= 64;
  ix_buckets : zlen bs = 2 ^ k;
  ix_chain : forall b, 0 <= b < 2 ^ k ->
    exists e, get_at bs b = Some e /\ chained ns e (List.filter (fun i => Z.land (hash i) (2 ^ k - 1) =? b) order) }.

Lemma indexed_empty hash k ns : 0 <= k <= 64 -> indexed hash k [] (replicate (Z.to_nat (2 ^ k)) 0) ns.
Proof.
  intros Hk. split; [done|unfold zlen; rewrite length_replicate; lia|]. intros b Hb. exists 0. split; [|constructor].
  apply get_at_Some. rewrite length_replicate. split; [lia|]. apply lookup_replicate_2. lia.
Qed.
Lemma bucket_range h k : 0 <= k -> 0 <= Z.land h (2 ^ k - 1) < 2 ^ k.
Proof. intros Hk. rewrite land_ones_mod by done. apply Z.mod_pos_bound. lia. Qed.

Lemma insert_indexed hash k order bs ns i :
  indexed hash k order bs ns -> 0 <= i < zlen ns -> i < 2 ^ 32 - 1 -> i ∉ order ->
  exists bs' ns', insert_name (hash i) (2 ^ k - 1) i bs ns = Some (bs', ns') /\ zlen ns' = zlen ns
                  /\ indexed hash k (i :: order) bs' ns'.
Proof.
  intros [Hk Hb Hc] Hi H32 Hn. unfold insert_name. pose proof (bucket_range (hash i) k ltac:(lia)) as Hbr.
  destruct (Hc _ Hbr) as (e & He & Hch). rewrite He. unfold zlen in *. rewrite !set_at_insert by lia.
  eexists _, _. split; [reflexivity|]. split; [by rewrite length_insert|].
  assert (u32 (u32 i + 1) = i + 1) as -> by (rewrite (u32_small i), u32_small; lia).
  split; [done|unfold zlen; by rewrite length_insert|]. intros b Hbb. cbn [List.filter].
  destruct (Z.eqb_spec (Z.land (hash i) (2 ^ k - 1)) b) as [<-|Hne].
  - exists (i + 1). split; [apply get_at_insert_eq; lia|]. apply (ch_link _ i e); [lia|apply get_at_insert_eq; lia|].
    apply chained_insert; [lia| |done]. intros Hin%list_elem_of_In%filter_In. apply Hn, list_elem_of_In, Hin.
  - destruct (Hc b Hbb) as (e' & He' & Hch'). exists e'. split; [by rewrite get_at_insert_ne by lia|].
    apply chained_insert; [lia| |done]. intros Hin%list_elem_of_In%filter_In. apply Hn, list_elem_of_In, Hin.
Qed.

(** ** Searching a chain *)
Definition least (matches : Z -> option bool) (base : Z) (l : list Z) (found r : Z) : Prop :=
  r <= found /\ (r = found \/ r - base ∈ l /\ matches r = Some true)
  /\ forall i, i ∈ l -> matches (base + i) = Some true -> r <= base + i.
Lemma least_match_spec matches base ns entry l fuel found :
  chained ns entry l -> (forall i, i ∈ l -> 0 <= base + i < 2 ^ 32 /\ exists b, matches (base + i) = Some b) ->
  (length l < fuel)%nat ->
  exists r, least_match fuel matches base ns entry found = Some r /\ least matches base l found r.
Proof.
  intros Hc. revert fuel found. induction Hc as [|i e l Hi Hg Hc IH]; intros fuel found Hm Hf; destruct fuel as [|n]; cbn in Hf; try lia; cbn [least_match].
  - exists found. split; [done|]. split; [lia|]. split; [by left|]. intros i Hi. by apply not_elem_of_nil in Hi.
  - rewrite (proj2 (Z.eqb_neq (i + 1) 0)) by lia. replace (i + 1 - 1) with i by lia. replace (base + (i + 1) - 1) with (base + i) by lia.
    destruct (Hm i) as [Hr32 [b Hb]]; [set_solver|]. rewrite u32_small, Hb, Hg by done.
    destruct (IH n (if b && (base + i <? found) then base + i else found)) as (r & Hr & Hle & Hin & Hleast); [set_solver|lia|].
    exists r. split; [done|]. destruct (b && (base + i <? found)) eqn:Hbf.
    + apply andb_true_iff in Hbf as [-> Hlt%Z.ltb_lt]. split; [lia|]. split.
      * right. destruct Hin as [->|[? ?]]; split; try done; [replace (base + i - base) with i by lia|]; set_solver.
      * intros j [->|Hj]%elem_of_cons Hm'; [done|auto].
    + split; [done|]. split; [set_solver|]. intros j [->|Hj]%elem_of_cons Hm'; [|auto].
      apply andb_false_iff in Hbf as [->|Hge%Z.ltb_ge]; [congruence|lia].
Qed.
Lemma chain_match_spec matches ns entry l fuel :
  chained ns entry l -> (forall i, i ∈ l -> exists b, matches i = Some b) -> (length l < fuel)%nat ->
  exists r, chain_match fuel matches ns entry = Some r /\
    ((r = UINT32_MAX /\ forall i, i ∈ l -> matches i = Some false) \/
     exists l1 l2, l = l1 ++ r :: l2 /\ matches r = Some true /\ forall i, i ∈ l1 -> matches i = Some false).
Proof.
  intros Hc. revert fuel. induction Hc as [|i e l Hi Hg Hc IH]; intros fuel Hm Hf; destruct fuel as [|n]; cbn in Hf; try lia; cbn [chain_match].
  - exists UINT32_MAX. split; [done|]. left. split; [done|]. intros i Hi. by apply not_elem_of_nil in Hi.
  - rewrite (proj2 (Z.eqb_neq (i + 1) 0)) by lia. replace (i + 1 - 1) with i by lia.
    destruct (Hm i) as [[] Hb]; [set_solver|..]; rewrite Hb.
    + exists i. split; [done|]. right. exists [], l. split; [done|]. split; [done|]. intros j Hj. by apply not_elem_of_nil in Hj.
    + rewrite Hg. destruct (IH n) as (r & Hr & Hcase); [set_solver|lia|]. exists r. split; [done|].
      destruct Hcase as [[-> Hno]|(l1 & l2 & -> & Hr' & Hno)].
      * left. split; [done|]. intros j [->|Hj]%elem_of_cons; auto.
      * right. exists (i :: l1), l2. split; [done|]. split; [done|]. intros j [->|Hj]%elem_of_cons; auto.
Qed.
(** The linear search finds the least match. *)
Lemma linear_match_spec matches i n :
  (forall j, i <= j < i + Z.of_nat n -> exists b, matches j = Some b) ->
  exists r, linear_match matches i n = Some r /\
    ((r = UINT32_MAX /\ forall j, i <= j < i + Z.of_nat n -> matches j = Some false) \/
     (i <= r < i + Z.of_nat n /\ matches r = Some true /\ forall j, i <= j < r -> matches j = Some false)).
Proof.
  revert i. induction n as [|n IH]; intros i Hm; cbn [linear_match].
  - exists UINT32_MAX. split; [done|]. left. split; [done|]. lia.
  - destruct (Hm i) as [[] Hb]; [lia|..]; rewrite Hb.
    + exists i. split; [done|]. right. split; [lia|]. split; [done|]. lia.
    + destruct (IH (i + 1)) as (r & Hr & Hcase); [intros; apply Hm; lia|]. exists r. split; [done|].
      destruct Hcase as [[-> Hno]|(Hr' & Hm' & Hno)].
      * left. split; [done|]. intros j Hj. destruct (Z.eq_dec j i) as [->|]; [done|]. apply Hno. lia.
      * right. split; [lia|]. split; [done|]. intros j Hj. destruct (Z.eq_dec j i) as [->|]; [done|]. apply Hno. lia.
Qed.

(** ** Building an index *)
Fixpoint insert_each (hash : Z -> option Z) (mask : Z) (is_ : list Z) (bs ns : list Z) : option (list Z * list Z) :=
  match is_ with
  | [] => Some (bs, ns)
  | i :: is' =>
      let* h := hash i in
      let* r := insert_name h mask i bs ns in
      insert_each hash mask is' (fst r) (snd r)
  end.
(** [while (capacity / 2 < count && capacity <= SIZE_MAX / 2) capacity *= 2]. *)
Fixpoint index_capacity (fuel : nat) (capacity count : Z) : Z :=
  match fuel with
  | O => capacity
  | S n => if (capacity / 2 <? count) && (capacity <=? (2 ^ 64 - 1) / 2) then index_capacity n (u64 (capacity * 2)) count else capacity
  end.
(** The contents of memory that was not cleared. *)
Definition malloc_words (garbage : Z -> Z) (n : Z) : list Z := map garbage (seqZ 0 n).
Definition name_hash (names : list DynSpan) (s : DynSource) (i : Z) : option Z :=
  let* n := get_at names i in Some (sema_name_hash n s).
Definition name_matches (module : bool) (names : list DynSpan) (name : DynSpan) (s : DynSource) (i : Z) : option bool :=
  let* d := get_at names i in
  if module then dyn_module_name_equal name d s else Some (dyn_span_text_equal name d s).

Lemma name_hash_total names s i : 0 <= i < zlen names -> exists h, name_hash names s i = Some h.
Proof. intros Hi. unfold name_hash. destruct (get_at_is_Some names i) as [n ->]; [done|]. by eexists. Qed.
Lemma name_matches_total module names name s i : 0 <= i < zlen names -> exists b, name_matches module names name s i = Some b.
Proof.
  intros Hi. unfold name_matches. destruct (get_at_is_Some names i) as [n ->]; [done|].
  destruct module; [|by eexists]. destruct (module_name_equal_total name n s) as (b & -> & _). by exists b.
Qed.
(** A match has the hash of the name that is looked up. *)
Lemma name_matches_hash module names name s i :
  name_matches module names name s i = Some true -> name_hash names s i = Some (sema_name_hash name s).
Proof.
  unfold name_matches, name_hash, sema_name_hash. destruct (get_at names i) as [n|]; [|done]. intros Hm.
  assert (span_text s name = span_text s n) as ->; [|done]. destruct module.
  - destruct (module_name_equal_total name n s) as (b & Hb & Ht). apply Ht. congruence.
  - injection Hm as Hm%andb_true_iff. destruct Hm as [_ Hm]. by destruct (bytes_eqb_spec (span_text s name) (span_text s n)).
Qed.
Definition hash_at (names : list DynSpan) (s : DynSource) (i : Z) : Z := match name_hash names s i with Some h => h | None => 0 end.

Lemma indexed_ext hash hash' k order bs ns :
  (forall i, i ∈ order -> hash i = hash' i) -> indexed hash k order bs ns -> indexed hash' k order bs ns.
Proof.
  intros He [Hk Hb Hc]. split; [done..|]. intros b Hbb. destruct (Hc b Hbb) as (e & He' & Hch). exists e. split; [done|].
  erewrite filter_ext_in; [exact Hch|]. intros i Hi%list_elem_of_In. cbn. by rewrite He.
Qed.
Lemma insert_each_indexed hash names s k is_ order bs ns :
  (forall i, i ∈ is_ -> name_hash names s i = Some (hash i)) -> indexed hash k order bs ns ->
  (forall i, i ∈ is_ -> 0 <= i < zlen ns /\ i < 2 ^ 32 - 1) -> NoDup is_ -> (forall i, i ∈ is_ -> i ∉ order) ->
  exists bs' ns', insert_each (name_hash names s) (2 ^ k - 1) is_ bs ns = Some (bs', ns') /\ zlen ns' = zlen ns
                  /\ indexed hash k (rev is_ ++ order) bs' ns'.
Proof.
  revert order bs ns. induction is_ as [|i l IH]; intros order bs ns Hh Hix Hr Hnd Hn; cbn [insert_each rev].
  - by exists bs, ns.
  - apply NoDup_cons in Hnd as [Hil Hnd]. rewrite Hh by set_solver. pose proof (Hr i ltac:(set_solver)) as Hri.
    destruct (insert_indexed hash k order bs ns i) as (bs' & ns' & -> & Hl & Hix'); [done|lia|lia|set_solver|]. cbn [fst snd].
    destruct (IH (i :: order) bs' ns') as (bs'' & ns'' & E & Hl' & Hix''); [set_solver|done|intros; rewrite Hl; apply Hr; set_solver|done|set_solver|].
    exists bs'', ns''. split; [done|]. split; [congruence|]. by rewrite <- app_assoc.
Qed.

Lemma index_capacity_spec fuel k count :
  1 <= k -> 0 <= count < 2 ^ 32 -> (k <= 33) -> 34 - k <= Z.of_nat fuel ->
  exists k', k <= k' <= 33 /\ index_capacity fuel (2 ^ k) count = 2 ^ k' /\ count <= 2 ^ (k' - 1).
Proof.
  revert k. induction fuel as [|n IH]; intros k Hk Hc H33 Hf; [lia|]. cbn [index_capacity].
  assert (2 ^ k / 2 = 2 ^ (k - 1)) as -> by (replace k with (k - 1 + 1) at 1 by lia; rewrite Z.pow_add_r by lia; apply Z.div_mul; lia).
  assert (2 ^ k <= 2 ^ 33) by (apply Z.pow_le_mono_r; lia).
  destruct (Z.ltb_spec (2 ^ (k - 1)) count) as [Hlt|Hge]; cbn [andb]; [|exists k; lia].
  rewrite (proj2 (Z.leb_le (2 ^ k) _)) by (change ((2 ^ 64 - 1) / 2) with 9223372036854775807; lia). assert (k < 33).
  { assert (k - 1 < 32); [|lia]. apply (Z.pow_lt_mono_r_iff 2); lia. }
  rewrite u64_small by lia. replace (2 ^ k * 2) with (2 ^ (k + 1)) by (rewrite Z.pow_add_r; lia).
  destruct (IH (k + 1)) as (k' & Hk' & -> & Hc'); [lia..|]. exists k'. split; [lia|done].
Qed.

(** ** The index of declarations ([DynNameIndex]) *)

Section Index.
Context {H : Host}.
Variable garbage : Z -> Z.

(** Larger arrays when the names outgrow the index; the names are inserted
    again by the caller. [None] for "no memory". *)
Definition grow_index (count : Z) (w : World) : option DynNameIndex * World :=
  let capacity := index_capacity 64 64 count in
  if (capacity / 2 <? count) || ((2 ^ 64 - 1) / 4 <? capacity) then (None, w)
  else
    let '(bs, w) := allocate w (capacity * 4) in
    let '(ns, w) := allocate w (capacity / 2 * 4) in
    (if bs && ns then Some (mkNameIndex (replicate (Z.to_nat capacity) 0) (malloc_words garbage (capacity / 2)) 0 capacity)
     else None, w).
(** The names the index lacks, then the search. *)
Definition index_search (ix : DynNameIndex) (names : list DynSpan) (name : DynSpan) (s : DynSource) (module : bool) : option (Z * DynNameIndex) :=
  let mask := ni_capacity ix - 1 in
  let* r := insert_each (name_hash names s) mask (seqZ (ni_count ix) (zlen names - ni_count ix)) (ni_buckets ix) (ni_next ix) in
  let* entry := get_at (fst r) (Z.land (sema_name_hash name s) mask) in
  let* found := least_match (S (length names)) (name_matches module names name s) 0 (snd r) entry UINT32_MAX in
  Some (found, mkNameIndex (fst r) (snd r) (zlen names) (ni_capacity ix)).
Definition dyn_name_index_find (ix : DynNameIndex) (names : list DynSpan) (name : DynSpan) (s : DynSource) (module failed : bool)
    (w : World) : option (Z * DynNameIndex * bool * World) :=
  let count := zlen names in
  let linear failed w := let* r := linear_match (name_matches module names name s) 0 (length names) in Some (r, ix, failed, w) in
  if (32 <=? count) && negb failed then
    let '(grown, w) := if ni_capacity ix / 2 <? count then grow_index count w else (Some ix, w) in
    match grown with
    | None => linear true w
    | Some ix => let* r := index_search ix names name s module in Some (fst r, snd r, failed, w)
    end
  else linear failed w.

(** The index holds the first [ni_count] names. *)
Definition index_ok (s : DynSource) (names : list DynSpan) (ix : DynNameIndex) : Prop :=
  0 <= ni_count ix <= zlen names /\
  (ix = empty_index \/
   exists k, 1 <= k <= 63 /\ ni_capacity ix = 2 ^ k /\ zlen (ni_next ix) = 2 ^ (k - 1) /\ ni_count ix <= 2 ^ (k - 1)
     /\ indexed (hash_at names s) k (rev (seqZ 0 (ni_count ix))) (ni_buckets ix) (ni_next ix)).

Lemma index_ok_empty s names : index_ok s names empty_index.
Proof. split; [cbn; unfold zlen; lia|by left]. Qed.
Lemma elem_of_rev_seqZ i n : i ∈ rev (seqZ 0 n) <-> 0 <= i < n.
Proof. rewrite list_elem_of_In, <- in_rev, <- list_elem_of_In, elem_of_seqZ. lia. Qed.
Lemma length_rev_seqZ n : 0 <= n -> length (rev (seqZ 0 n)) = Z.to_nat n.
Proof. intros. by rewrite length_rev, length_seqZ. Qed.
(** Names that were appended since leave the index sound. *)
Lemma index_ok_app s names more ix : index_ok s names ix -> index_ok s (names ++ more) ix.
Proof.
  intros [Hc Hix]. split; [unfold zlen in *; rewrite length_app; lia|].
  destruct Hix as [|(k & Hk & Hcap & Hn & Hle & Hix)]; [by left|right]. exists k. repeat split_and; try done; try apply Hk.
  eapply indexed_ext; [|exact Hix]. intros i Hi%elem_of_rev_seqZ. unfold hash_at, name_hash.
  destruct (get_at_is_Some names i) as [x Hx]; [unfold zlen in *; lia|]. rewrite Hx.
  assert (get_at (names ++ more) i = Some x) as ->; [|done].
  apply get_at_Some in Hx as [? ?]. apply get_at_Some. rewrite length_app. split; [lia|by apply lookup_app_l_Some].
Qed.

(** The least match of a full chain is the first of the linear search. *)
Lemma least_is_linear matches l base (n : nat) r hash k h :
  (forall i, base <= i < base + Z.of_nat n -> exists b, matches i = Some b) -> base + Z.of_nat n <= UINT32_MAX -> 0 <= base ->
  (forall i, base <= i < base + Z.of_nat n -> matches i = Some true -> hash (i - base) = h) ->
  (forall i, i ∈ l <-> 0 <= i < Z.of_nat n) ->
  least matches base (List.filter (fun i => Z.land (hash i) (2 ^ k - 1) =? Z.land h (2 ^ k - 1)) l) UINT32_MAX r ->
  linear_match matches base n = Some r.
Proof.
  intros Hm H32 Hb Hh Hl (Hle & Hin & Hleast).
  destruct (linear_match_spec matches base n Hm) as (r' & -> & Hr'). f_equal.
  assert (forall i, 0 <= i < Z.of_nat n -> matches (base + i) = Some true -> r <= base + i) as Hall.
  { intros i Hi Ht. apply Hleast; [|done]. apply list_elem_of_In, filter_In. split; [by apply list_elem_of_In, Hl|].
    apply Z.eqb_eq. f_equal. rewrite <- (Hh (base + i)) by (try done; lia). f_equal. lia. }
  destruct Hr' as [[-> Hno]|(Hr' & Ht & Hno)].
  - destruct Hin as [->|[Hin Ht]]; [done|]. apply list_elem_of_In, filter_In in Hin as [Hin%list_elem_of_In%Hl _].
    pose proof (Hno r ltac:(lia)). congruence.
  - specialize (Hall (r' - base) ltac:(lia)). replace (base + (r' - base)) with r' in Hall by lia. specialize (Hall Ht).
    destruct Hin as [->|[Hin Ht']]; [lia|]. apply list_elem_of_In, filter_In in Hin as [Hin%list_elem_of_In%Hl _].
    destruct (Z.eq_dec r r') as [|Hne]; [done|]. pose proof (Hno r ltac:(lia)). congruence.
Qed.

Lemma grow_index_spec s names w :
  zlen names < UINT32_MAX ->
  match fst (grow_index (zlen names) w) with
  | Some ix => index_ok s names ix /\ zlen names <= ni_capacity ix / 2
  | None => True
  end.
Proof.
  intros Hn. unfold grow_index. change (index_capacity 64 64) with (index_capacity 64 (2 ^ 6)). change UINT32_MAX with 4294967295 in Hn.
  destruct (index_capacity_spec 64 6 (zlen names)) as (k & Hk & -> & Hc); [unfold zlen in *; lia..|].
  destruct (_ || _); [done|]. destruct (allocate w _) as [bs w1]. destruct (allocate w1 _) as [ns w2]. cbn [fst].
  destruct (bs && ns); [|done]. cbn [ni_capacity].
  assert (2 ^ k / 2 = 2 ^ (k - 1)) as -> by (replace k with (k - 1 + 1) at 1 by lia; rewrite Z.pow_add_r by lia; apply Z.div_mul; lia).
  split; [|lia]. split; [cbn; unfold zlen; lia|]. right. exists k. cbn. repeat split_and; try lia.
  - unfold zlen, malloc_words. rewrite length_map, length_seqZ. lia.
  - apply indexed_empty. lia.
Qed.

(** Inserting the names an index of sufficient capacity lacks. *)
Lemma fill_index s names ix :
  index_ok s names ix -> 32 <= zlen names < UINT32_MAX -> zlen names <= ni_capacity ix / 2 ->
  exists k bs ns, 1 <= k <= 63 /\ ni_capacity ix = 2 ^ k
    /\ insert_each (name_hash names s) (2 ^ k - 1) (seqZ (ni_count ix) (zlen names - ni_count ix)) (ni_buckets ix) (ni_next ix) = Some (bs, ns)
    /\ indexed (hash_at names s) k (rev (seqZ 0 (zlen names))) bs ns
    /\ index_ok s names (mkNameIndex bs ns (zlen names) (2 ^ k)).
Proof.
  intros [Hc [->|(k & Hk & Hcap & Hns & Hle & Hix)]] Hn Hhalf; [change (ni_capacity empty_index / 2) with 0 in Hhalf; lia|].
  assert (2 ^ k / 2 = 2 ^ (k - 1)) as E2 by (replace k with (k - 1 + 1) at 1 by lia; rewrite Z.pow_add_r by lia; apply Z.div_mul; lia).
  rewrite Hcap, E2 in Hhalf. change UINT32_MAX with 4294967295 in Hn.
  destruct (insert_each_indexed (hash_at names s) names s k (seqZ (ni_count ix) (zlen names - ni_count ix))
              (rev (seqZ 0 (ni_count ix))) (ni_buckets ix) (ni_next ix)) as (bs & ns & E & Hl & Hix').
  - intros i Hi%elem_of_seqZ. unfold hash_at. destruct (name_hash_total names s i) as [h ->]; [lia|done].
  - done.
  - intros i Hi%elem_of_seqZ. lia.
  - apply NoDup_seqZ.
  - intros i Hi%elem_of_seqZ. rewrite elem_of_rev_seqZ. lia.
  - rewrite <- rev_app_distr, <- seqZ_app in Hix' by lia. replace (ni_count ix + (zlen names - ni_count ix)) with (zlen names) in Hix' by lia.
    exists k, bs, ns. split_and!; try done; [lia..|]. split; [cbn; unfold zlen; lia|]. right. exists k. cbn. split_and!; try lia; done.
Qed.

(** The search of a full index is the linear one; entry [e] stands for [base + e - 1]. *)
Lemma full_index_search s names name matches base k bs ns :
  1 <= k <= 63 -> indexed (hash_at names s) k (rev (seqZ 0 (zlen names))) bs ns -> 0 <= base -> base + zlen names <= UINT32_MAX ->
  (forall i, base <= i < base + zlen names -> exists b, matches i = Some b) ->
  (forall i, base <= i < base + zlen names -> matches i = Some true -> hash_at names s (i - base) = sema_name_hash name s) ->
  exists entry r, get_at bs (Z.land (sema_name_hash name s) (2 ^ k - 1)) = Some entry
    /\ least_match (S (length names)) matches base ns entry UINT32_MAX = Some r
    /\ linear_match matches base (length names) = Some r.
Proof.
  intros Hk Hix Hb H32 Hm Hh. destruct (ix_chain _ _ _ _ _ Hix _ (bucket_range (sema_name_hash name s) k ltac:(lia))) as (e & He & Hch).
  exists e. destruct (least_match_spec matches base ns e _ (S (length names)) UINT32_MAX Hch) as (r & Hr & Hleast).
  - intros i Hi%list_elem_of_In%filter_In. destruct Hi as [Hi%list_elem_of_In%elem_of_rev_seqZ _].
    change UINT32_MAX with 4294967295 in H32. split; [lia|]. apply Hm. lia.
  - eapply Nat.le_lt_trans; [apply List.filter_length_le|]. rewrite length_rev_seqZ; unfold zlen; lia.
  - exists r. split; [done|]. split; [done|]. eapply least_is_linear with (l := rev (seqZ 0 (zlen names))); [..|exact Hleast]; try done.
    intros i. rewrite elem_of_rev_seqZ. unfold zlen. done.
Qed.
Lemma index_search_spec s names name module ix :
  index_ok s names ix -> 32 <= zlen names < UINT32_MAX -> zlen names <= ni_capacity ix / 2 ->
  exists r ix', index_search ix names name s module = Some (r, ix') /\ index_ok s names ix'
    /\ linear_match (name_matches module names name s) 0 (length names) = Some r.
Proof.
  intros Hix Hn Hhalf. destruct (fill_index s names ix Hix Hn Hhalf) as (k & bs & ns & Hk & Hcap & E & Hfull & Hok).
  unfold index_search. rewrite Hcap, E. cbn [fst snd].
  destruct (full_index_search s names name (name_matches module names name s) 0 k bs ns) as (e & r & -> & -> & Hlin); try done; try lia.
  - intros i Hi. by apply name_matches_total.
  - intros i _ Ht%name_matches_hash. rewrite Z.sub_0_r. unfold hash_at. by rewrite Ht.
  - by eexists _, _.
Qed.

(** C13: looking a name up among declarations (structs, enums, aliases, fields,
    variants) gives the first declaration that matches, exactly as the linear
    search does, whether the index is used, has to grow, or cannot be
    allocated; and the index stays sound while declarations are appended
    between the searches. *)
Theorem name_index_find_correct s names more name module ix failed w :
  index_ok s names ix -> zlen (names ++ more) < UINT32_MAX ->
  exists r ix' failed' w',
    dyn_name_index_find ix (names ++ more) name s module failed w = Some (r, ix', failed', w')
    /\ index_ok s (names ++ more) ix'
    /\ linear_match (name_matches module (names ++ more) name s) 0 (length (names ++ more)) = Some r.
Proof.
  intros Hix%(index_ok_app s names more) Hn. set (all := names ++ more) in *. unfold dyn_name_index_find.
  assert (exists r, linear_match (name_matches module all name s) 0 (length all) = Some r) as [r0 Hr0].
  { destruct (linear_match_spec (name_matches module all name s) 0 (length all)) as (r & Hr & _); [|by exists r].
    intros j Hj. apply name_matches_total. done. }
  rewrite Hr0. destruct (Z.leb_spec 32 (zlen all)), failed; cbn [andb negb]; try by eexists _, _, _, _.
  destruct (Z.ltb_spec (ni_capacity ix / 2) (zlen all)).
  - pose proof (grow_index_spec s all w Hn) as Hg. destruct (grow_index (zlen all) w) as [[ix'|] w']; cbn [fst] in Hg; [|by eexists _, _, _, _].
    destruct Hg as [Hg1 Hg2]. destruct (index_search_spec s all name module ix' Hg1) as (r & ix2 & -> & Hok & Hlin); [lia|done|].
    eexists _, _, _, _. split; [reflexivity|]. split; [done|]. cbn. congruence.
  - destruct (index_search_spec s all name module ix Hix) as (r & ix2 & -> & Hok & Hlin); [lia|lia|].
    eexists _, _, _, _. split; [reflexivity|]. split; [done|]. cbn. congruence.
Qed.
End Index.

(** Forty names over the letters [a] to [t], each twice. *)
Definition sample_source : DynSource :=
  mkSource (str "a.dyn") (str "abcdefghijklmnopqrstabcdefghijklmnopqrst") None [] None false false [].
Definition sample_names (n : nat) : list DynSpan := map (fun i => mkDynSpan i (i + 1)) (seqZ 0 (Z.of_nat n)).
Lemma name_index_find_witness :
  exists r ix' failed' w',
    @dyn_name_index_find willing_host (fun _ => 7) empty_index (sample_names 30 ++ map (fun i => mkDynSpan i (i + 1)) (seqZ 30 10)) (mkDynSpan 25 26) sample_source true false tt
      = Some (r, ix', failed', w')
    /\ index_ok sample_source (sample_names 30 ++ map (fun i => mkDynSpan i (i + 1)) (seqZ 30 10)) ix'
    /\ linear_match (name_matches true (sample_names 30 ++ map (fun i => mkDynSpan i (i + 1)) (seqZ 30 10)) (mkDynSpan 25 26) sample_source) 0 40 = Some r.
Proof.
  apply (@name_index_find_correct willing_host (fun _ => 7) sample_source (sample_names 30) (map (fun i => mkDynSpan i (i + 1)) (seqZ 30 10)) (mkDynSpan 25 26) true empty_index false tt).
  - apply index_ok_empty.
  - vm_compute. reflexivity.
Defined.
(** The index answers with the first of the two. *)
Example name_index_find_first :
  option_map (fun r => fst (fst (fst r))) (@dyn_name_index_find willing_host (fun _ => 7) empty_index (sample_names 40) (mkDynSpan 25 26) sample_source true false tt) = Some 5.
Proof. vm_compute. reflexivity. Qed.

(** ** The indexes of functions and globals

    Built once, backwards, so that the first match of a chain is the first
    declaration. *)
Fixpoint names_capacity (fuel : nat) (capacity count : Z) : Z :=
  match fuel with O => capacity | S n => if capacity <? count * 2 then names_capacity n (capacity * 2) count else capacity end.
Definition declared (a : DynAstProgram) (functions : bool) : list DynSpan :=
  if functions then map fn_name (tab a FUNCTIONS) else map gl_name (tab a GLOBALS).
Section Names.
Context {H : Host}.

(** The outer [None] is undefined behaviour, the inner one "no memory". *)
Definition sema_names_build (a : DynAstProgram) (s : DynSource) (functions : bool) (w : World) : option (option SemaNames * World) :=
  let names := declared a functions in
  if zlen names =? 0 then Some (Some (mkNames [] []), w)
  else
    let capacity := names_capacity 64 16 (zlen names) in
    let '(bs, w) := allocate w (capacity * 4) in
    let '(ns, w) := allocate w (zlen names * 4) in
    if bs && ns then
      let* r := insert_each (name_hash names s) (capacity - 1) (rev (seqZ 0 (zlen names)))
                  (replicate (Z.to_nat capacity) 0) (replicate (length names) 0) in
      Some (Some (mkNames (fst r) (snd r)), w)
    else Some (None, w).
End Names.
Definition sema_name_lookup (ix : SemaNames) (a : DynAstProgram) (name : DynSpan) (s : DynSource) (functions : bool) : option Z :=
  match buckets ix with
  | [] => Some UINT32_MAX
  | _ =>
      let names := declared a functions in
      let* entry := get_at (buckets ix) (Z.land (sema_name_hash name s) (zlen (buckets ix) - 1)) in
      chain_match (S (length names)) (name_matches true names name s) (chain ix) entry
  end.
Definition sema_find_global_name (gl : SemaNames) (a : DynAstProgram) (name : DynSpan) (s : DynSource) : option Z :=
  sema_name_lookup gl a name s false.

Lemma names_capacity_spec fuel k count :
  1 <= k -> 0 <= count < 2 ^ 32 -> k <= 33 -> 34 - k <= Z.of_nat fuel ->
  exists k', k <= k' <= 33 /\ names_capacity fuel (2 ^ k) count = 2 ^ k'.
Proof.
  revert k. induction fuel as [|n IH]; intros k Hk Hc H33 Hf; [lia|]. cbn [names_capacity].
  destruct (Z.ltb_spec (2 ^ k) (count * 2)) as [Hlt|Hge]; [|exists k; lia].
  assert (k < 33) by (apply (Z.pow_lt_mono_r_iff 2); lia).
  replace (2 ^ k * 2) with (2 ^ (k + 1)) by (rewrite Z.pow_add_r; lia).
  destruct (IH (k + 1)) as (k' & Hk' & ->); [lia..|]. exists k'. split; [lia|done].
Qed.

Lemma sorted_seqZ m (n : nat) : StronglySorted Z.lt (seqZ m (Z.of_nat n)).
Proof.
  revert m. induction n as [|n IH]; intros m; [constructor|]. rewrite seqZ_cons by lia.
  replace (Z.pred (Z.of_nat (S n))) with (Z.of_nat n) by lia. constructor; [apply IH|].
  apply Forall_forall. intros i Hi%elem_of_seqZ. lia.
Qed.
Lemma sorted_filter f (l : list Z) : StronglySorted Z.lt l -> StronglySorted Z.lt (List.filter f l).
Proof.
  induction 1 as [|x l Hs IH Hall]; cbn; [constructor|]. destruct (f x); [|done]. constructor; [done|].
  rewrite Forall_forall in *. intros i Hi%list_elem_of_In%filter_In. apply Hall, list_elem_of_In, Hi.
Qed.
(** The first match along increasing positions is the least one. *)
Lemma chain_is_linear matches (n : nat) r hash k h :
  (forall i, 0 <= i < Z.of_nat n -> exists b, matches i = Some b) ->
  (forall i, matches i = Some true -> hash i = h) ->
  let l := List.filter (fun i => Z.land (hash i) (2 ^ k - 1) =? Z.land h (2 ^ k - 1)) (seqZ 0 (Z.of_nat n)) in
  (r = UINT32_MAX /\ (forall i, i ∈ l -> matches i = Some false) \/
   exists l1 l2, l = l1 ++ r :: l2 /\ matches r = Some true /\ (forall i, i ∈ l1 -> matches i = Some false)) ->
  linear_match matches 0 n = Some r.
Proof.
  intros Hm Hh l Hcase. assert (forall i, 0 <= i < Z.of_nat n -> matches i = Some true -> i ∈ l) as Hin.
  { intros i Hi Ht. apply list_elem_of_In, filter_In. rewrite (Hh _ Ht), Z.eqb_refl. split; [|done].
    apply list_elem_of_In, elem_of_seqZ. lia. }
  destruct (linear_match_spec matches 0 n) as (r' & -> & Hr'); [intros; apply Hm; lia|]. f_equal.
  assert (forall i, i ∈ l -> 0 <= i < Z.of_nat n) as Hrange.
  { intros i Hi%list_elem_of_In%filter_In. destruct Hi as [Hi%list_elem_of_In%elem_of_seqZ _]. lia. }
  destruct Hcase as [[-> Hno]|(l1 & l2 & El & Ht & Hno)], Hr' as [[-> Hno']|(Hr' & Ht' & Hno')]; [done|..].
  - pose proof (Hno r' (Hin r' ltac:(lia) Ht')). congruence.
  - pose proof (Hrange r ltac:(rewrite El; set_solver)). pose proof (Hno' r ltac:(lia)). congruence.
  - destruct (Z.lt_trichotomy r r') as [Hlt|[->|Hlt]]; [|done|].
    + pose proof (Hrange r ltac:(rewrite El; set_solver)). pose proof (Hno' r ltac:(lia)). congruence.
    + exfalso. pose proof (Hin r' ltac:(lia) Ht') as Hr. rewrite El in Hr.
      apply elem_of_app in Hr as [Hr|[->|Hr]%elem_of_cons]; [pose proof (Hno r' Hr); congruence|lia|].
      assert (StronglySorted Z.lt l) as Hs by apply sorted_filter, sorted_seqZ. rewrite El in Hs.
      apply StronglySorted_app_1_r in Hs. inversion Hs as [|? ? _ Hall]; subst. rewrite Forall_forall in Hall. specialize (Hall _ Hr). lia.
Qed.

(** What a built index holds: every declaration, in the order of the source. *)
Definition names_ok (s : DynSource) (names : list DynSpan) (ix : SemaNames) : Prop :=
  (names = [] /\ buckets ix = []) \/ exists k, indexed (hash_at names s) k (seqZ 0 (zlen names)) (buckets ix) (chain ix).

Lemma sema_names_build_spec {H : Host} a s functions w :
  zlen (declared a functions) < UINT32_MAX ->
  exists r w', sema_names_build a s functions w = Some (r, w')
    /\ match r with Some ix => names_ok s (declared a functions) ix | None => True end.
Proof.
  intros Hn. unfold sema_names_build. set (names := declared a functions) in *. change UINT32_MAX with 4294967295 in Hn.
  destruct (Z.eqb_spec (zlen names) 0) as [E0|].
  { eexists _, _. split; [reflexivity|]. left. split; [|done]. destruct names; [done|discriminate E0]. }
  change (names_capacity 64 16) with (names_capacity 64 (2 ^ 4)).
  destruct (names_capacity_spec 64 4 (zlen names)) as (k & Hk & ->); [unfold zlen in *; lia..|].
  destruct (allocate w _) as [[] w1], (allocate w1 _) as [[] w2]; cbn [andb]; try by eexists _, _.
  destruct (insert_each_indexed (hash_at names s) names s k (rev (seqZ 0 (zlen names))) [] (replicate (Z.to_nat (2 ^ k)) 0)
              (replicate (length names) 0)) as (bs & ns & -> & Hl & Hix').
  - intros i Hi%elem_of_rev_seqZ. unfold hash_at. destruct (name_hash_total names s i) as [h ->]; [lia|done].
  - apply indexed_empty. lia.
  - intros i Hi%elem_of_rev_seqZ. unfold zlen in *. rewrite length_replicate. lia.
  - apply NoDup_ListNoDup, List.NoDup_rev, NoDup_ListNoDup, NoDup_seqZ.
  - set_solver.
  - eexists _, _. split; [reflexivity|]. right. exists k. cbn. by rewrite rev_involutive, app_nil_r in Hix'.
Qed.

(** What a lookup in a built index finds. *)
Lemma names_lookup a' s functions name names ix more :
  names_ok s names ix -> declared a' functions = names ++ more ->
  sema_name_lookup ix a' name s functions = linear_match (name_matches true names name s) 0 (length names).
Proof.
  intros Hok Hext. unfold sema_name_lookup. rewrite Hext.
  destruct Hok as [[-> ->]|(k & Hix)]; [done|]. destruct Hix as [Hk Hbl Hch].
  destruct (buckets ix) as [|b0 bs] eqn:Ebs; [exfalso; unfold zlen in Hbl; cbn in Hbl; lia|]. rewrite <- Ebs in *.
  rewrite Hbl. destruct (Hch _ (bucket_range (sema_name_hash name s) k ltac:(lia))) as (e & -> & Hc).
  assert (forall i, 0 <= i < zlen names -> name_matches true (names ++ more) name s i = name_matches true names name s i) as Hsame.
  { intros i Hi. unfold name_matches. destruct (get_at_is_Some names i Hi) as [x Hx]. rewrite Hx.
    apply get_at_Some in Hx as [? ?]. assert (get_at (names ++ more) i = Some x) as ->; [|done].
    apply get_at_Some. rewrite length_app. split; [lia|by apply lookup_app_l_Some]. }
  destruct (chain_match_spec (name_matches true (names ++ more) name s) (chain ix) e _ (S (length (names ++ more))) Hc) as (r & -> & Hr).
  - intros i Hi%list_elem_of_In%filter_In. destruct Hi as [Hi%list_elem_of_In%elem_of_seqZ _].
    apply name_matches_total. unfold zlen in *. rewrite length_app. lia.
  - eapply Nat.le_lt_trans; [apply List.filter_length_le|]. rewrite length_seqZ, length_app. unfold zlen. lia.
  - symmetry. eapply (chain_is_linear _ _ _ (hash_at names s) k (sema_name_hash name s)).
    + intros i Hi. by apply name_matches_total.
    + intros i Ht%name_matches_hash. unfold hash_at. by rewrite Ht.
    + assert (forall i, i ∈ List.filter (fun i => Z.land (hash_at names s i) (2 ^ k - 1) =? Z.land (sema_name_hash name s) (2 ^ k - 1)) (seqZ 0 (zlen names)) -> 0 <= i < zlen names) as Hrange.
      { intros i Hi%list_elem_of_In%filter_In. destruct Hi as [Hi%list_elem_of_In%elem_of_seqZ _]. lia. }
      destruct Hr as [[-> Hno]|(l1 & l2 & El & Ht & Hno)].
      * left. split; [done|]. intros i Hi. rewrite <- Hsame by auto. auto.
      * right. exists l1, l2. split; [done|]. rewrite El in Hrange. split; [rewrite <- Hsame by (apply Hrange; set_solver); done|].
        intros i Hi. rewrite <- Hsame by (apply Hrange; set_solver). auto.
Qed.

(** A function or global is looked up by its name with the result of the
    linear search over the declarations present when the index was built, the
    first of duplicates winning; declarations appended since (the instances of
    generic functions) are not found. *)
Theorem sema_name_lookup_correct {H : Host} a a' s functions name w ix w' more :
  sema_names_build a s functions w = Some (Some ix, w') -> declared a' functions = declared a functions ++ more ->
  zlen (declared a functions) < UINT32_MAX ->
  sema_name_lookup ix a' name s functions
    = linear_match (name_matches true (declared a functions) name s) 0 (length (declared a functions)).
Proof.
  intros Hb Hext Hn. destruct (sema_names_build_spec a s functions w Hn) as (r & w1 & Hb' & Hok). rewrite Hb in Hb'. simplify_eq.
  by eapply names_lookup.
Qed.

(** ** The index of the locals of the current function

    Its entries count from the function's first local; [ni_capacity] is
    [mask + 1] and [ni_count] is [indexed_locals]. *)
Definition local_matches (a : DynAstProgram) (name : DynSpan) (s : DynSource) (active_only : bool) (i : Z) : option bool :=
  let* l := get_at (tab a LOCALS) i in
  Some ((negb active_only || lo_active l) && dyn_span_text_equal name (lo_name l) s).
Definition local_names (a : DynAstProgram) (first : Z) : list DynSpan := map lo_name (drop (Z.to_nat first) (tab a LOCALS)).
Section Locals.
Context {H : Host}.
Variable garbage : Z -> Z.

Definition sema_locals_sync (ix : DynNameIndex) (names : list DynSpan) (s : DynSource) (w : World)
    : option (option DynNameIndex * World) :=
  let count := zlen names in
  let '(grown, w) := if (ni_capacity ix =? 0) || (ni_capacity ix / 2 <? count) then grow_index garbage count w else (Some ix, w) in
  match grown with
  | None => Some (None, w)
  | Some ix =>
      let* r := insert_each (name_hash names s) (ni_capacity ix - 1) (seqZ (ni_count ix) (count - ni_count ix)) (ni_buckets ix) (ni_next ix) in
      Some (Some (mkNameIndex (fst r) (snd r) (Z.max (ni_count ix) count) (ni_capacity ix)), w)
  end.
(** The result, the index, whether memory ran out. *)
Definition sema_local_lookup (ix : DynNameIndex) (a : DynAstProgram) (current : Z) (name : DynSpan) (s : DynSource)
    (active_only : bool) (w : World) : option (Z * DynNameIndex * bool * World) :=
  if current =? UINT32_MAX then Some (UINT32_MAX, ix, false, w)
  else
    let* f := get_at (tab a FUNCTIONS) current in
    let first := fn_local_start f in
    let names := local_names a first in
    let matches := local_matches a name s active_only in
    let linear ix failed w := let* r := linear_match matches first (length names) in Some (r, ix, failed, w) in
    if 32 <=? zlen names then
      let* synced := sema_locals_sync ix names s w in
      let '(synced, w) := synced in
      match synced with
      | None => linear ix true w
      | Some ix =>
          let* entry := get_at (ni_buckets ix) (Z.land (sema_name_hash name s) (ni_capacity ix - 1)) in
          let* found := least_match (S (length names)) matches first (ni_next ix) entry UINT32_MAX in
          Some (found, ix, false, w)
      end
    else linear ix false w.
Definition find_local (ix : DynNameIndex) (a : DynAstProgram) (current : Z) (name : DynSpan) (s : DynSource) (w : World)
    : option (Z * DynNameIndex * bool * World) := sema_local_lookup ix a current name s true w.

Lemma locals_sync_spec ix names s w :
  index_ok s names ix -> 32 <= zlen names < UINT32_MAX ->
  exists r w', sema_locals_sync ix names s w = Some (r, w')
    /\ match r with
       | None => True
       | Some ix' => index_ok s names ix' /\ exists k, 1 <= k <= 63 /\ ni_capacity ix' = 2 ^ k
           /\ indexed (hash_at names s) k (rev (seqZ 0 (zlen names))) (ni_buckets ix') (ni_next ix')
       end.
Proof.
  intros Hix Hn. unfold sema_locals_sync.
  assert (match fst (if (ni_capacity ix =? 0) || (ni_capacity ix / 2 <? zlen names) then grow_index garbage (zlen names) w else (Some ix, w)) with
          | Some ix => index_ok s names ix /\ zlen names <= ni_capacity ix / 2 | None => True end) as Hg.
  { destruct (_ || _) eqn:E; [apply grow_index_spec; lia|]. apply orb_false_iff in E as [_ E%Z.ltb_ge]. done. }
  destruct (if _ || _ then _ else _) as [[ix'|] w']; cbn [fst] in Hg; [|by eexists _, _]. destruct Hg as [Hok Hhalf].
  pose proof Hok as [Hc _]. destruct (fill_index s names ix' Hok Hn Hhalf) as (k & bs & ns & Hk & -> & -> & Hfull & Hok').
  eexists _, _. split; [reflexivity|]. rewrite Z.max_r by lia. split; [done|]. by exists k.
Qed.
Lemma local_names_get a first i l :
  0 <= first <= i -> get_at (tab a LOCALS) i = Some l -> get_at (local_names a first) (i - first) = Some (lo_name l).
Proof.
  intros Hf [Hi Hl]%get_at_Some. unfold local_names. change (row LOCALS) with DynAstLocal in *. apply get_at_Some. rewrite length_map, length_drop.
  split; [lia|]. rewrite list_lookup_fmap, lookup_drop. replace (Z.to_nat first + Z.to_nat (i - first))%nat with (Z.to_nat i) by lia.
  by rewrite Hl.
Qed.

(** The lookup gives the result of the linear search. *)
Lemma local_lookup_linear ix a current f name s active_only w :
  get_at (tab a FUNCTIONS) current = Some f -> 0 <= fn_local_start f <= tcount a LOCALS -> tcount a LOCALS < UINT32_MAX ->
  current < UINT32_MAX -> index_ok s (local_names a (fn_local_start f)) ix ->
  exists r ix' failed w', sema_local_lookup ix a current name s active_only w = Some (r, ix', failed, w')
    /\ index_ok s (local_names a (fn_local_start f)) ix'
    /\ linear_match (local_matches a name s active_only) (fn_local_start f) (length (local_names a (fn_local_start f))) = Some r.
Proof.
  intros Hf Hfirst Hcount Hcur Hix. unfold sema_local_lookup. rewrite (proj2 (Z.eqb_neq current _)), Hf by lia.
  set (first := fn_local_start f) in *. set (names := local_names a first) in *. set (matches := local_matches a name s active_only).
  assert (first + zlen names = tcount a LOCALS) as Hlen.
  { unfold tcount, zlen, names, local_names in *. change (row LOCALS) with DynAstLocal in *. rewrite length_map, length_drop. lia. }
  assert (forall i, first <= i < first + zlen names -> exists b, matches i = Some b) as Hm.
  { intros i Hi. unfold matches, local_matches. destruct (get_at_is_Some (tab a LOCALS) i) as [l ->]; [unfold tcount, zlen in *; lia|]. by eexists. }
  destruct (linear_match_spec matches first (length names) Hm) as (r0 & Hr0 & Hcase). rewrite Hr0.
  destruct (Z.leb_spec 32 (zlen names)); [|by eexists _, _, _, _].
  destruct (locals_sync_spec ix names s w Hix) as (r & w' & -> & Hr); [lia|]. destruct r as [ix'|]; [|by eexists _, _, _, _].
  destruct Hr as [Hok (k & Hk & -> & Hfull)].
  destruct (full_index_search s names name matches first k (ni_buckets ix') (ni_next ix')) as (e & r & -> & -> & Hlin); try done; try lia.
  - intros i Hi Ht. unfold matches, local_matches in Ht. destruct (get_at (tab a LOCALS) i) as [l|] eqn:El; [|done].
    injection Ht as Ht. apply andb_true_iff in Ht as [_ Ht]. apply andb_true_iff in Ht as [_ Ht].
    unfold hash_at, name_hash. unfold names. rewrite (local_names_get a first i l) by (try done; lia). unfold sema_name_hash.
    by destruct (bytes_eqb_spec (span_text s name) (span_text s (lo_name l))) as [->|].
  - eexists _, _, _, _. split; [reflexivity|]. split; [done|]. congruence.
Qed.

(** The locals a lookup means: those of the name, and only the ones in scope
    when asked. *)
Definition local_named (name : DynSpan) (s : DynSource) (active_only : bool) (l : DynAstLocal) : Prop :=
  (active_only = true -> lo_active l = true) /\ end_byte name - start_byte name = end_byte (lo_name l) - start_byte (lo_name l)
  /\ span_text s name = span_text s (lo_name l).
Lemma local_matches_named a name s active_only i l :
  get_at (tab a LOCALS) i = Some l ->
  exists b, local_matches a name s active_only i = Some b /\ (b = true <-> local_named name s active_only l).
Proof.
  intros Hl. unfold local_matches. rewrite Hl. eexists. split; [done|]. unfold dyn_span_text_equal, local_named.
  rewrite !andb_true_iff, orb_true_iff, negb_true_iff, Z.eqb_eq.
  destruct active_only, (bytes_eqb_spec (span_text s name) (span_text s (lo_name l))); naive_solver.
Qed.

(** C14: A lookup among the locals of the current function gives the first of them
    that has the name (of those in scope, when asked), or none when none has,
    whether the function is small, the index is used, or memory for it runs
    out; the index stays sound. *)
Theorem sema_local_lookup_correct ix a current f name s active_only w :
  get_at (tab a FUNCTIONS) current = Some f -> 0 <= fn_local_start f <= tcount a LOCALS -> tcount a LOCALS < UINT32_MAX ->
  current < UINT32_MAX -> index_ok s (local_names a (fn_local_start f)) ix ->
  exists r ix' failed w', sema_local_lookup ix a current name s active_only w = Some (r, ix', failed, w')
    /\ index_ok s (local_names a (fn_local_start f)) ix'
    /\ ((r = UINT32_MAX /\ forall i l, fn_local_start f <= i -> get_at (tab a LOCALS) i = Some l -> ~ local_named name s active_only l)
        \/ (fn_local_start f <= r /\ (exists l, get_at (tab a LOCALS) r = Some l /\ local_named name s active_only l)
            /\ forall i l, fn_local_start f <= i < r -> get_at (tab a LOCALS) i = Some l -> ~ local_named name s active_only l)).
Proof.
  intros Hf Hfirst Hcount Hcur Hix.
  destruct (local_lookup_linear ix a current f name s active_only w Hf Hfirst Hcount Hcur Hix) as (r & ix' & failed & w' & E & Hok & Hlin).
  exists r, ix', failed, w'. split; [done|]. split; [done|]. set (first := fn_local_start f) in *.
  assert (first + zlen (local_names a first) = tcount a LOCALS) as Hlen.
  { unfold tcount, zlen, local_names in *. change (row LOCALS) with DynAstLocal in *. rewrite length_map, length_drop. lia. }
  assert (forall i l, local_matches a name s active_only i = Some false -> get_at (tab a LOCALS) i = Some l -> ~ local_named name s active_only l) as Hno.
  { intros i l Hi Hl Hn. destruct (local_matches_named a name s active_only i l Hl) as (b & Hb & Hiff). apply Hiff in Hn. congruence. }
  destruct (linear_match_spec (local_matches a name s active_only) first (length (local_names a first))) as (r' & Hr' & Hcase).
  { intros j Hj. destruct (get_at_is_Some (tab a LOCALS) j) as [l Hl]; [unfold tcount, zlen in *; lia|].
    destruct (local_matches_named a name s active_only j l Hl) as (b & Hb & _). by exists b. }
  assert (r' = r) as -> by congruence. destruct Hcase as [[-> Hall]|(Hr & Ht & Hall)]; [left|right].
  - split; [done|]. intros i l Hi Hl. apply (Hno i); [|done]. apply Hall. apply get_at_Some in Hl as [? _]. unfold tcount, zlen in *. lia.
  - split; [lia|]. split; [|intros i l Hi Hl; by apply (Hno i); [apply Hall|]].
    destruct (get_at_is_Some (tab a LOCALS) r) as [l Hl]; [unfold tcount, zlen in *; lia|]. exists l. split; [done|].
    destruct (local_matches_named a name s active_only r l Hl) as (b & Hb & Hiff). apply Hiff. congruence.
Qed.
End Locals.

(** A function with forty locals, the first twenty inactive. *)
Definition sample_function : DynAstFn :=
  mkFn no_span no_span no_span no_span DYN_TYPE_VOID 0 0 0 0 0 40 false false false false false false false 0 0 0 0.
Definition sample_locals : DynAstProgram :=
  with_rows LOCALS (map (fun i => mkLocal (mkDynSpan i (i + 1)) DYN_TYPE_I32 (20 <=? i) false 0) (seqZ 0 40))
    (with_rows FUNCTIONS [sample_function] empty_ast).
Lemma sema_local_lookup_witness :
  let name := mkDynSpan 5 6 in
  exists r ix' failed w', @sema_local_lookup willing_host (fun _ => 7) empty_index sample_locals 0 name sample_source true tt = Some (r, ix', failed, w')
    /\ index_ok sample_source (local_names sample_locals 0) ix'
    /\ ((r = UINT32_MAX /\ forall i l, 0 <= i -> get_at (tab sample_locals LOCALS) i = Some l -> ~ local_named name sample_source true l)
        \/ (0 <= r /\ (exists l, get_at (tab sample_locals LOCALS) r = Some l /\ local_named name sample_source true l)
            /\ forall i l, 0 <= i < r -> get_at (tab sample_locals LOCALS) i = Some l -> ~ local_named name sample_source true l)).
Proof.
  apply (@sema_local_lookup_correct willing_host (fun _ => 7) empty_index sample_locals 0 sample_function (mkDynSpan 5 6) sample_source true tt).
  - vm_compute. reflexivity.
  - vm_compute. split; discriminate.
  - vm_compute. reflexivity.
  - vm_compute. reflexivity.
  - apply index_ok_empty.
Defined.
(** The active local of that name is the 25th. *)
Example sema_local_lookup_active :
  option_map (fun r => fst (fst (fst r))) (@sema_local_lookup willing_host (fun _ => 7) empty_index sample_locals 0 (mkDynSpan 5 6) sample_source true tt) = Some 25.
Proof. vm_compute. reflexivity. Qed.

(** ** Shadowing

    A module's globals carry the prefix [dyn_m<key>_] of 22 bytes, which the
    functions of the module share. *)
Definition shadows_module_global (gl : SemaNames) (a : DynAstProgram) (current : Z) (name : DynSpan) (s : DynSource) : option bool :=
  if (current =? UINT32_MAX) || bool_decide (buckets gl = []) then Some false
  else
    let* f := get_at (tab a FUNCTIONS) current in
    let owner := span_text s (fn_name f) in
    if (end_byte (fn_name f) - start_byte (fn_name f) <=? 22) || negb (starts_with (str "dyn_m") owner)
       || negb (bool_decide (get_at owner 21 = Some 95)) then Some false
    else
      let wanted := take 22 owner ++ span_text s name in
      let matches i :=
        let* d := get_at (declared a false) i in
        Some ((end_byte d - start_byte d =? 22 + (end_byte name - start_byte name)) && bytes_eqb (span_text s d) wanted) in
      let* entry := get_at (buckets gl) (Z.land (fnv wanted) (zlen (buckets gl) - 1)) in
      let* r := chain_match (S (length (declared a false))) matches (chain gl) entry in
      Some (negb (r =? UINT32_MAX)).
Definition shadows_global (gl : SemaNames) (a : DynAstProgram) (current : Z) (name : DynSpan) (s : DynSource) : option bool :=
  let* g := sema_find_global_name gl a name s in
  if negb (g =? UINT32_MAX) then Some true else shadows_module_global gl a current name s.

(** ** Loops *)
Section Loops.
Context {H : Host}.
Variable s : DynSource.

(** Whether an enclosing loop bears the label. *)
Fixpoint label_active (label : DynSpan) (loops : list Z) : M bool :=
  match loops with
  | [] => mret false
  | l :: loops' =>
      let! st := read STATEMENTS l in
      if span_present (s_label st) && dyn_span_text_equal label (s_label st) s then mret true else label_active label loops'
  end.
Definition push_loop (id : Z) : M bool :=
  let! st := read STATEMENTS id in
  let! x := the_sema in
  let! dup := (if span_present (s_label st) then label_active (s_label st) (active_loops x) else mret false) in
  (if dup : bool then error_span (s_label st) "duplicate active loop label" else mret tt) ;;
  let enter c := set_sema (mkSema (pointer_bytes x) (fn_index x) (gl_index x) (current_function x) (current_return_type x) (id :: active_loops x) c (local_index x)) ;; mret true in
  if zlen (active_loops x) =? active_loop_capacity x then
    let c := if active_loop_capacity x =? 0 then 8 else active_loop_capacity x * 2 in
    let! ok := allocate_bytes (c * 8) in
    if ok : bool then enter c else error_span (s_span st) "out of memory" ;; mret false
  else enter (active_loop_capacity x).
Definition pop_loop : M unit :=
  let! x := the_sema in
  set_sema (mkSema (pointer_bytes x) (fn_index x) (gl_index x) (current_function x) (current_return_type x) (tail (active_loops x)) (active_loop_capacity x) (local_index x)).

Definition set_target_loop (st : DynAstStmt) (loop_id : Z) : DynAstStmt :=
  mkAstStmt (s_kind st) (s_span st) (s_name st) (s_label st) (s_control_label st) (s_declared_type st) (s_expression st)
    (s_target_ st) (s_assignment_op st) (s_local_id st) (s_body_start st) (s_body_count st) (s_else_start st) (s_else_count st)
    (s_loop_id st) loop_id (s_case_arm_start st) (s_case_arm_count st) (s_for_pointer st) (s_for_const st) (s_is_const st) (s_for_range st).
Fixpoint labelled_loop (label : DynSpan) (loops : list Z) : M (option DynAstStmt) :=
  match loops with
  | [] => mret None
  | l :: loops' =>
      let! st := read STATEMENTS l in
      if span_present (s_label st) && dyn_span_text_equal label (s_label st) s then mret (Some st) else labelled_loop label loops'
  end.
Definition resolve_loop_control (id : Z) : M bool :=
  let! st := read STATEMENTS id in
  let! x := the_sema in
  match active_loops x with
  | [] =>
      error_span (s_span st) (if bool_decide (s_kind st = DYN_STMT_BREAK) then "break requires enclosing loop" else "continue requires enclosing loop") ;;
      mret false
  | inner :: _ =>
      if negb (span_present (s_control_label st)) then
        let! l := read STATEMENTS inner in
        write STATEMENTS id (set_target_loop st (s_loop_id l)) ;; mret true
      else
        let! found := labelled_loop (s_control_label st) (active_loops x) in
        match found with
        | Some l => write STATEMENTS id (set_target_loop st (s_loop_id l)) ;; mret true
        | None => error_span (s_control_label st) "unknown active loop label" ;; mret false
        end
  end.

Definition labelled (label : DynSpan) (st : DynAstStmt) : bool := span_present (s_label st) && dyn_span_text_equal label (s_label st) s.
Lemma labelled_loop_spec label loops st :
  (forall l, l ∈ loops -> exists x, get_at (tab (prog st) STATEMENTS) l = Some x) ->
  exists r, labelled_loop label loops st = Some (r, st) /\
    match r with
    | None => forall l x, l ∈ loops -> get_at (tab (prog st) STATEMENTS) l = Some x -> labelled label x = false
    | Some x => exists outer l inner, loops = inner ++ l :: outer /\ get_at (tab (prog st) STATEMENTS) l = Some x /\ labelled label x = true
        /\ forall l' y, l' ∈ inner -> get_at (tab (prog st) STATEMENTS) l' = Some y -> labelled label y = false
    end.
Proof.
  induction loops as [|l loops IH]; intros Hin; cbn [labelled_loop].
  - exists None. split; [done|]. intros l x Hl. by apply not_elem_of_nil in Hl.
  - destruct (Hin l) as [x Hx]; [set_solver|]. unfold mbind, read. rewrite Hx. fold (labelled label x).
    destruct (labelled label x) eqn:Elab.
    + exists (Some x). split; [done|]. exists loops, l, []. split_and!; try done. intros l' y Hl. by apply not_elem_of_nil in Hl.
    + destruct IH as (r & -> & Hr); [set_solver|]. exists r. split; [done|]. destruct r as [y|].
      * destruct Hr as (outer & l' & inner & -> & Hy & Hly & Hno). exists outer, l', (l :: inner). split_and!; try done.
        intros l2 z [->|Hl2]%elem_of_cons Hz; [congruence|eauto].
      * intros l2 z [->|Hl2]%elem_of_cons Hz; [congruence|eauto].
Qed.

(** A [break] or [continue] that names a label targets the innermost enclosing
    loop with that label, and is otherwise reported once and left alone; outside
    any loop it is always reported. *)
Theorem loop_control_innermost id st x :
  get_at (tab (prog st) STATEMENTS) id = Some x ->
  (forall l, l ∈ active_loops (sema st) -> exists y, get_at (tab (prog st) STATEMENTS) l = Some y) ->
  exists ok st', resolve_loop_control id st = Some (ok, st') /\
    if ok then diags st' = diags st /\ exists outer l inner y,
        active_loops (sema st) = inner ++ l :: outer /\ get_at (tab (prog st) STATEMENTS) l = Some y
        /\ get_at (tab (prog st') STATEMENTS) id = Some (set_target_loop x (s_loop_id y))
        /\ (if span_present (s_control_label x) then labelled (s_control_label x) y = true else inner = [])
        /\ forall l' z, l' ∈ inner -> get_at (tab (prog st) STATEMENTS) l' = Some z -> labelled (s_control_label x) z = false
    else prog st' = prog st /\ length (diags st') = S (length (diags st)).
Proof.
  intros Hx Hin. unfold resolve_loop_control, mbind at 1, read. rewrite Hx. unfold the_sema, mbind at 1.
  assert (forall l y, get_at (tab (prog st) STATEMENTS) l = Some y ->
    exists st', (write STATEMENTS id (set_target_loop x (s_loop_id y)) ;; mret true) st = Some (true, st')
      /\ diags st' = diags st /\ get_at (tab (prog st') STATEMENTS) id = Some (set_target_loop x (s_loop_id y))) as Hw.
  { intros l y _. apply get_at_Some in Hx as [Hid _]. unfold mbind, write. rewrite set_at_insert by done. eexists. split; [reflexivity|].
    split; [done|]. cbn [prog set_prog]. rewrite tab_set_same. by apply get_at_insert_eq. }
  destruct (active_loops (sema st)) as [|inner outer] eqn:El.
  - eexists _, _. split; [reflexivity|]. by split.
  - destruct (span_present (s_control_label x)) eqn:Ec; cbn [negb].
    + destruct (labelled_loop_spec (s_control_label x) (inner :: outer) st Hin) as (r & Hr & Hcase). unfold mbind at 1. rewrite Hr.
      destruct r as [y|]; [|eexists _, _; split; [reflexivity|]; by split].
      destruct Hcase as (o & l & i & E & Hy & Hlab & Hno). destruct (Hw l y Hy) as (st' & Hst & Hd & Hg).
      eexists _, _. split; [exact Hst|]. split; [done|]. exists o, l, i, y. by split_and!.
    + destruct (Hin inner) as [y Hy]; [set_solver|]. unfold mbind at 1. rewrite Hy. destruct (Hw inner y Hy) as (st' & Hst & Hd & Hg).
      eexists _, _. split; [exact Hst|]. split; [done|]. exists outer, inner, [], y. split_and!; try done.
      intros l' z Hl. by apply not_elem_of_nil in Hl.
Qed.
End Loops.

(** ** Suggestions

    The rows of the dynamic program, for the first [i] characters of the
    unknown name; the entries stay below 194, so [unsigned] does not wrap. *)
Fixpoint distance_row (c : Z) (candidate : bytes) (previous : list Z) (left_ diagonal : Z) : list Z :=
  match candidate, previous with
  | y :: candidate', up :: previous' =>
      let v := Z.min (Z.min (left_ + 1) (up + 1)) (diagonal + if c =? y then 0 else 1) in
      v :: distance_row c candidate' previous' v up
  | _, _ => []
  end.
Fixpoint distance_rows (unknown candidate : bytes) (i : Z) (previous : list Z) : list Z :=
  match unknown with
  | [] => previous
  | c :: unknown' => distance_rows unknown' candidate (i + 1) (i :: distance_row c candidate (tail previous) i (List.hd 0 previous))
  end.
Fixpoint word_prefix (t : bytes) : bytes :=
  match t with c :: t' => if word_char c then c :: word_prefix t' else [] | [] => [] end.
Definition UINT_MAX_ : Z := 2 ^ 32 - 1.
Definition name_distance (unknown candidate : DynSpan) (s : DynSource) : Z :=
  let a := word_prefix (span_text s unknown) in
  let b := span_text s candidate in
  if (96 <? zlen a) || (96 <? end_byte candidate - start_byte candidate) then UINT_MAX_
  else List.last (distance_rows a b 1 (seqZ 0 (zlen b + 1))) 0.
(** The nearest name so far. *)
Definition nearer (unknown : DynSpan) (s : DynSource) (acc : DynSpan * Z) (name : DynSpan) : DynSpan * Z :=
  let d := name_distance unknown name s in if d <? snd acc then (name, d) else acc.
Definition suggest_name (a : DynAstProgram) (unknown : DynSpan) (s : DynSource) (functions : bool) (capacity : Z) : option bytes :=
  let candidates :=
    if functions then map fn_name (tab a FUNCTIONS)
    else map lo_name (List.filter lo_active (tab a LOCALS)) ++ map gl_name (tab a GLOBALS) in
  let '(best, distance) := fold_left (nearer unknown s) candidates (mkDynSpan 0 0, UINT_MAX_) in
  if (end_byte best - start_byte best =? 0) || (2 <? distance) then None
  else Some (take (Z.to_nat (capacity - 1))
    (str "unknown " ++ str (if functions then "function" else "name") ++ str "; did you mean '" ++ span_text s best ++ str "'?")).

(** The edit distance, on reversed words. *)
Fixpoint edit_distance (a : bytes) : bytes -> Z :=
  match a with
  | [] => fun b => zlen b
  | x :: a' =>
      fix inner (b : bytes) : Z :=
        match b with
        | [] => zlen (x :: a')
        | y :: b' => Z.min (Z.min (inner b' + 1) (edit_distance a' (y :: b') + 1)) (edit_distance a' b' + if x =? y then 0 else 1)
        end
  end.
Fixpoint edit_row (a done_ b : bytes) : list Z :=
  match b with [] => [] | y :: b' => edit_distance a (y :: done_) :: edit_row a (y :: done_) b' end.
Lemma edit_row_seqZ done_ b : edit_row [] done_ b = seqZ (zlen done_ + 1) (zlen b).
Proof.
  revert done_. induction b as [|y b IH]; intros done_; [done|]. cbn [edit_row]. rewrite IH. rewrite (seqZ_cons (zlen done_ + 1) (zlen (y :: b))) by (unfold zlen; cbn; lia).
  unfold zlen. cbn [length edit_distance]. unfold zlen. cbn [length]. repeat f_equal; lia.
Qed.
Lemma distance_row_spec c a done_ b :
  distance_row c b (edit_row a done_ b) (edit_distance (c :: a) done_) (edit_distance a done_) = edit_row (c :: a) done_ b.
Proof. revert done_. induction b as [|y b IH]; intros done_; [done|]. cbn [distance_row edit_row]. f_equal. apply IH. Qed.
Lemma distance_rows_spec unknown a b :
  distance_rows unknown b (zlen a + 1) (zlen a :: edit_row a [] b) = (zlen a + zlen unknown) :: edit_row (rev unknown ++ a) [] b.
Proof.
  revert a. induction unknown as [|c u IH]; intros a; cbn [distance_rows]; [change (zlen (@nil Z)) with 0; by rewrite Z.add_0_r|].
  cbn [tail List.hd]. assert (edit_distance a [] = zlen a) as Ea by by destruct a.
  assert (edit_distance (c :: a) [] = zlen a + 1) as Eca by (cbn; unfold zlen; cbn; lia).
  pose proof (distance_row_spec c a [] b) as Hrow. rewrite Eca, Ea in Hrow. rewrite Hrow. specialize (IH (c :: a)).
  replace (zlen a + 1) with (zlen (c :: a)) by (unfold zlen; cbn; lia). rewrite IH. cbn [rev]. rewrite <- app_assoc. f_equal. unfold zlen. cbn. lia.
Qed.
Lemma last_edit_row a done_ b x : List.last (x :: edit_row a done_ b) 0 = if decide (b = []) then x else edit_distance a (rev b ++ done_).
Proof.
  revert done_ x. induction b as [|y b IH]; intros done_ x; [done|]. cbn [edit_row]. rewrite (decide_False (P := y :: b = [])) by done.
  change (List.last (x :: ?l :: ?r) 0) with (List.last (l :: r) 0). rewrite IH. cbn [rev]. rewrite <- app_assoc. by destruct (decide (b = [])) as [->|].
Qed.
(** The suggestion ranks names by the edit distance of the texts. *)
Lemma name_distance_spec unknown candidate s :
  let a := word_prefix (span_text s unknown) in let b := span_text s candidate in
  zlen a <= 96 -> end_byte candidate - start_byte candidate <= 96 -> name_distance unknown candidate s = edit_distance (rev a) (rev b).
Proof.
  intros a b Ha Hb. unfold name_distance. fold a b. rewrite (proj2 (Z.ltb_ge 96 (zlen a))), (proj2 (Z.ltb_ge 96 (_ - _))) by lia. cbn [orb].
  rewrite seqZ_cons by (unfold zlen; lia). replace (Z.pred (zlen b + 1)) with (zlen b) by lia. change (Z.succ 0) with (zlen (@nil Z) + 1). rewrite <- edit_row_seqZ.
  change 1 with (zlen (@nil Z) + 1). change 0 with (zlen (@nil Z)) at 2. rewrite distance_rows_spec, last_edit_row, !app_nil_r.
  destruct (decide (b = [])) as [->|]; [|done]. cbn [rev]. assert (zlen (rev a) = zlen a) as E by (unfold zlen; by rewrite length_rev).
  change (zlen []) with 0. destruct (rev a) eqn:Er; rewrite <- E; reflexivity.
Qed.
