(* ===== verification/AstGeneric.v ===== *)
(** Generic functions: inference of type arguments ([bind_pattern] of
    src/src/sema.c), instances ([dyn_ast_instantiate] of src/src/ast.c) and the
    hash that names them in object files ([instance_hash]).

    Inference finds the arguments that make the pattern the argument's type,
    and an instance's parameters are the patterns with those arguments. *)

From S2P Require Import Prelude Target Source Work Ir Ast AstTypes AstNames.

(** ** Inference

    The result is the conflicting parameter, if any, and the arguments. *)
Fixpoint bind_pattern (fuel : nat) (a : DynAstProgram) (pattern actual : Z) (args : list Z) : option (option Z * list Z) :=
  match fuel with
  | O => None
  | S n =>
      if actual =? DYN_TYPE_ERROR then Some (None, args)
      else if dyn_type_is_param pattern then
        let k := pattern - DYN_TYPE_PARAM_BASE in
        let* old := get_at args k in
        if old =? DYN_TYPE_INFER then let* args := set_at args k actual in Some (None, args)
        else if negb (old =? actual) then Some (Some k, args)
        else Some (None, args)
      else if dyn_type_is_pointer pattern && dyn_type_is_pointer actual then
        let* p := get_at (tab a POINTERS) (pattern - DYN_TYPE_POINTER_BASE) in
        let* v := get_at (tab a POINTERS) (actual - DYN_TYPE_POINTER_BASE) in
        if po_is_const p || negb (po_is_const v) then bind_pattern n a (po_pointee p) (po_pointee v) args else Some (None, args)
      else if dyn_type_is_slice pattern && dyn_type_is_slice actual then
        let* p := get_at (tab a SLICES) (pattern - DYN_TYPE_SLICE_BASE) in
        let* v := get_at (tab a SLICES) (actual - DYN_TYPE_SLICE_BASE) in
        if sl_is_const p || negb (sl_is_const v) then bind_pattern n a (sl_element p) (sl_element v) args else Some (None, args)
      else if dyn_type_is_array pattern && dyn_type_is_array actual then
        let* p := get_at (tab a ARRAYS) (pattern - DYN_TYPE_ARRAY_BASE) in
        let* v := get_at (tab a ARRAYS) (actual - DYN_TYPE_ARRAY_BASE) in
        if ar_length p =? ar_length v then bind_pattern n a (ar_element p) (ar_element v) args else Some (None, args)
      else Some (None, args)
  end.

(** ** Instances *)
Section Instances.
Context {H : Host}.

(** The value parameters of an instance; [None] when memory runs out. *)
Fixpoint instantiate_params (fuel : nat) (gps : list DynAstGenericParam) (args : list Z) (count : Z) : M (option Z) :=
  match gps with
  | [] => mret (Some count)
  | p :: gps' =>
      if gp_is_type p then instantiate_params fuel gps' args count
      else
        let! ok := reserve_param in
        if negb ok then mret None
        else
          let! t := dyn_ast_substitute fuel (gp_pattern p) args in
          push PARAMS (mkAstParam (gp_name p) t UINT32_MAX) ;;
          instantiate_params fuel gps' args (count + 1)
  end.
Definition instance_function (fn : DynAstFn) (instance param_start param_count return_type : Z) : DynAstFn :=
  mkFn (fn_span fn) (fn_name fn) (fn_link_name fn) (fn_variadic_name fn) return_type param_start param_count (fn_body_start fn)
    (fn_body_count fn) (fn_local_start fn) (fn_local_count fn) (fn_is_main fn) (fn_foreign fn) (fn_variadic fn) false false true true
    (fn_generic fn) instance (fn_variadic_type fn) (fn_variadic_local_id fn).
(** [memcpy] into a zeroed array of [DYN_MAX_TYPE_PARAMS]. *)
Definition instance_args (g : DynAstGeneric) (args : list Z) : list Z :=
  let used := take (Z.to_nat (ge_type_param_count g)) args in
  used ++ replicate (Z.to_nat DYN_MAX_TYPE_PARAMS - length used) 0.
Definition dyn_ast_instantiate (fuel : nat) (generic : Z) (args : list Z) (depth : Z) (call : DynSpan) (hash : Z) : M Z :=
  let! g := read GENERICS generic in
  let! ok := reserve INSTANCES 16 in
  if negb ok then mret UINT32_MAX
  else
    let! ok := reserve_function in
    if negb ok then mret UINT32_MAX
    else
      let! fn := read FUNCTIONS (ge_function g) in
      let! a := ast in
      let start := u32 (tcount a PARAMS) in
      let instance := u32 (tcount a INSTANCES) in
      let! return_type := dyn_ast_substitute fuel (ge_return_pattern g) args in
      let! a := ast in
      let! count := instantiate_params fuel (slice_at (tab a GENERIC_PARAMS) (ge_param_start g) (ge_param_count g)) args 0 in
      match count with
      | None => mret UINT32_MAX
      | Some count =>
          let! a := ast in
          push INSTANCES (mkInstance generic (u32 (tcount a FUNCTIONS)) depth (instance_args g args) call hash) ;;
          let! f := push FUNCTIONS (instance_function fn instance start count return_type) in
          mret (u32 f)
      end.
(** The part of [check_generic_call] that finds or creates the instance. *)
Definition find_instance (a : DynAstProgram) (g : DynAstGeneric) (generic : Z) (args : list Z) : option DynAstInstance :=
  List.find (fun i => (in_generic i =? generic)
                 && bool_decide (take (Z.to_nat (ge_type_param_count g)) (in_args i) = take (Z.to_nat (ge_type_param_count g)) args))
    (tab a INSTANCES).
Definition find_or_instantiate (fuel : nat) (generic : Z) (args : list Z) (call : DynSpan) (hash : Z) : M Z :=
  let! g := read GENERICS generic in
  let! x := the_sema in
  let! depth :=
    (if current_function x =? UINT32_MAX then mret 0
     else let! f := read FUNCTIONS (current_function x) in
          if fn_is_instance f then let! i := read INSTANCES (fn_instance f) in mret (u32 (in_depth i + 1)) else mret 0) in
  let! a := ast in
  match find_instance a g generic args with
  | Some i => mret (in_function i)
  | None =>
      if DYN_MAX_INSTANCE_DEPTH <=? depth then
        error_span call "generic instances nest too deeply (limit 32)" ;; mret UINT32_MAX
      else
        let! f := dyn_ast_instantiate fuel generic args depth call hash in
        (if f =? UINT32_MAX then error_span call "out of memory" else mret tt) ;; mret f
  end.
End Instances.

(** ** The hash of an instance *)
Definition hash_byte (hash c : Z) : Z := u64 (Z.lxor hash c * 1099511628211).
Fixpoint hash_word_loop (n : nat) (hash value : Z) : Z :=
  match n with O => hash | S n => hash_word_loop n (hash_byte hash (Z.land value 255)) (Z.shiftr value 8) end.
Definition instance_hash_word (hash value : Z) : Z := hash_word_loop 8 hash value.
Definition instance_hash_name (s : DynSource) (name : DynSpan) (hash : Z) : Z :=
  fold_left hash_byte (span_text s name) (instance_hash_word hash (end_byte name - start_byte name)).
Fixpoint instance_hash_list (f : Z -> Z -> option Z) (l : list Z) (hash : Z) : option Z :=
  match l with [] => Some hash | t :: l' => let* hash := f t hash in instance_hash_list f l' hash end.
Fixpoint instance_hash_type (fuel : nat) (a : DynAstProgram) (s : DynSource) (type hash : Z) : option Z :=
  match fuel with
  | O => None
  | S n =>
      if dyn_type_is_struct type then
        let* r := get_at (tab a STRUCTS) (type - DYN_TYPE_STRUCT_BASE) in
        Some (instance_hash_name s (sr_name r) (instance_hash_word hash DYN_TYPE_STRUCT_BASE))
      else if dyn_type_is_enum type then
        let* r := get_at (tab a ENUMS) (type - DYN_TYPE_ENUM_BASE) in
        Some (instance_hash_name s (en_name r) (instance_hash_word hash DYN_TYPE_ENUM_BASE))
      else if dyn_type_is_distinct type then
        let* r := get_at (tab a ALIASES) (type - DYN_TYPE_DISTINCT_BASE) in
        Some (instance_hash_name s (al_name r) (instance_hash_word hash DYN_TYPE_DISTINCT_BASE))
      else if dyn_type_is_pointer type then
        let* p := get_at (tab a POINTERS) (type - DYN_TYPE_POINTER_BASE) in
        instance_hash_type n a s (po_pointee p) (instance_hash_word (instance_hash_word hash DYN_TYPE_POINTER_BASE) (Z.b2z (po_is_const p)))
      else if dyn_type_is_array type then
        let* p := get_at (tab a ARRAYS) (type - DYN_TYPE_ARRAY_BASE) in
        instance_hash_type n a s (ar_element p) (instance_hash_word (instance_hash_word hash DYN_TYPE_ARRAY_BASE) (ar_length p))
      else if dyn_type_is_slice type then
        let* p := get_at (tab a SLICES) (type - DYN_TYPE_SLICE_BASE) in
        instance_hash_type n a s (sl_element p) (instance_hash_word (instance_hash_word hash DYN_TYPE_SLICE_BASE) (Z.b2z (sl_is_const p)))
      else if dyn_type_is_function type then
        let* f := get_at (tab a FN_TYPES) (type - DYN_TYPE_FN_BASE) in
        let hash := instance_hash_word (instance_hash_word (instance_hash_word hash DYN_TYPE_FN_BASE) (Z.b2z (ft_variadic f))) (ft_param_count f) in
        let* hash := instance_hash_type n a s (ft_return_type f) hash in
        instance_hash_list (instance_hash_type n a s) (fn_params a f) hash
      else Some (instance_hash_word hash type)
  end.
Definition instance_hash (fuel : nat) (a : DynAstProgram) (s : DynSource) (args : list Z) (count : Z) : option Z :=
  instance_hash_list (instance_hash_type fuel a s) (take (Z.to_nat count) args) (instance_hash_word 1469598103934665603 count).

(** ** Inference is complete *)

(** The parameters that inference reaches. *)
Fixpoint binds (P : ty) (k : Z) : Prop :=
  match P with
  | TBase t => t = DYN_TYPE_PARAM_BASE + k /\ 0 <= k < 8
  | TPointer T _ | TArray T _ | TSlice T _ => binds T k
  | TFunction _ _ _ => False
  end.
(** The parameters a pattern contains, and the patterns without signatures. *)
Fixpoint occurs (P : ty) (k : Z) : Prop :=
  match P with
  | TBase t => t = DYN_TYPE_PARAM_BASE + k /\ 0 <= k < 8
  | TPointer T _ | TArray T _ | TSlice T _ => occurs T k
  | TFunction Ps R _ => fold_right (fun T Q => occurs T k \/ Q) (occurs R k) Ps
  end.
Fixpoint signature_free (P : ty) : Prop :=
  match P with TBase _ => True | TPointer T _ | TArray T _ | TSlice T _ => signature_free T | TFunction _ _ _ => False end.
Lemma occurs_binds P k : signature_free P -> occurs P k -> binds P k.
Proof. induction P; cbn; auto. Qed.
(** Arguments found so far, as part of the arguments [As]. *)
Definition consistent (a : DynAstProgram) (args : list Z) (As : list ty) : Prop :=
  Forall2 (fun t A => t = DYN_TYPE_INFER \/ denotes a t A) args As.
Definition concrete (A : ty) : Prop := A <> TBase DYN_TYPE_INFER /\ A <> TBase DYN_TYPE_ERROR.
Definition extended (args args' : list Z) : Prop :=
  forall k x, get_at args k = Some x -> x <> DYN_TYPE_INFER -> get_at args' k = Some x.
Definition inferred (a : DynAstProgram) (As : list ty) (P : ty) (args : list Z) (r : option (option Z * list Z)) : Prop :=
  exists args', r = Some (None, args') /\ consistent a args' As /\ extended args args'
    /\ forall k, binds P k -> exists x, get_at args' k = Some x /\ x <> DYN_TYPE_INFER.

Lemma extended_refl args : extended args args.
Proof. by intros k x. Qed.
(** A compound type is recognised by its identifier. *)
Lemma denotes_kind a t T : types_ok a -> denotes a t T ->
  dyn_type_is_param t = (match T with TBase u => dyn_type_is_param u | _ => false end)
  /\ dyn_type_is_pointer t = (match T with TPointer _ _ => true | _ => false end)
  /\ dyn_type_is_slice t = (match T with TSlice _ _ => true | _ => false end)
  /\ dyn_type_is_array t = (match T with TArray _ _ => true | _ => false end)
  /\ (t =? DYN_TYPE_ERROR) = (match T with TBase u => u =? DYN_TYPE_ERROR | _ => false end).
Proof.
  intros Hok HT. destruct HT as [t Hb|i p T Hi HT|i p T Hi HT|i p T Hi HT|i f ps R Hi Hps HR].
  - unfold is_compound in Hb. rewrite !orb_false_iff in Hb. destruct Hb as (((-> & ->) & ->) & _). done.
  - pose proof (get_at_range _ _ _ Hi). pose proof (ok_pointer_limit _ Hok). unfold tcount in *. unfold DYN_TYPE_ERROR. split_and!; by type_tests.
  - pose proof (get_at_range _ _ _ Hi). pose proof (ok_array_limit _ Hok). unfold tcount in *. unfold DYN_TYPE_ERROR. split_and!; by type_tests.
  - pose proof (get_at_range _ _ _ Hi). pose proof (ok_slice_limit _ Hok). unfold tcount in *. unfold DYN_TYPE_ERROR. split_and!; by type_tests.
  - pose proof (get_at_range _ _ _ Hi). pose proof (ok_fn_limit _ Hok). unfold tcount in *. unfold DYN_TYPE_ERROR. split_and!; by type_tests.
Qed.

(** A parameter takes the type, or already has it. *)
Lemma bind_param n a k t args As A :
  types_ok a -> length args = 8%nat -> consistent a args As -> 0 <= k < 8 -> get_at As k = Some A -> concrete A -> denotes a t A ->
  inferred a As (TBase (DYN_TYPE_PARAM_BASE + k)) args (bind_pattern (S n) a (DYN_TYPE_PARAM_BASE + k) t args).
Proof.
  intros Hok Hlen Hc Hk HA [HI HE] Ht. cbn [bind_pattern]. destruct (denotes_kind _ _ _ Hok Ht) as (_ & _ & _ & _ & ->).
  replace (match A with TBase u => u =? DYN_TYPE_ERROR | _ => false end) with false.
  2: { destruct A; try done. symmetry. apply Z.eqb_neq. by intros ->. }
  replace (dyn_type_is_param (DYN_TYPE_PARAM_BASE + k)) with true.
  2: { unfold dyn_type_is_param, DYN_MAX_TYPE_PARAMS. type_bases. by zb. }
  replace (DYN_TYPE_PARAM_BASE + k - DYN_TYPE_PARAM_BASE) with k by lia.
  destruct (get_at_is_Some args k) as [old Hold]; [lia|]. rewrite Hold.
  assert (t <> DYN_TYPE_INFER) as HtI. { intros ->. apply HI. by apply (denotes_functional a DYN_TYPE_INFER A (TBase DYN_TYPE_INFER) Hok Ht), d_base. }
  apply get_at_Some in HA as [_ HA]. pose proof Hold as [_ Hold']%get_at_Some.
  assert (forall args', get_at args' k = Some t -> forall k', binds (TBase (DYN_TYPE_PARAM_BASE + k)) k' ->
            exists x, get_at args' k' = Some x /\ x <> DYN_TYPE_INFER) as Hbound.
  { intros args' Hk' k' [E _]. exists t. replace k' with k by lia. done. }
  destruct (Z.eqb_spec old DYN_TYPE_INFER) as [->|Hn].
  - rewrite set_at_insert by lia. eexists. split; [reflexivity|]. split; [|split].
    + unfold consistent in *. rewrite <- (list_insert_id As (Z.to_nat k) A HA). by apply Forall2_insert; [|right].
    + intros k' x Hx Hn. destruct (Z.eq_dec k k') as [<-|]; [congruence|]. apply get_at_Some in Hx as Hr. by rewrite get_at_insert_ne by lia.
    + apply Hbound, get_at_insert_eq. lia.
  - destruct (Forall2_lookup_l _ _ _ _ _ Hc Hold') as (A' & HA' & [?|Hd]); [done|].
    assert (A' = A) as -> by congruence. assert (old = t) as -> by (by eapply denotes_unique). rewrite Z.eqb_refl. cbn [negb].
    exists args. split; [done|]. split; [done|]. split; [apply extended_refl|]. by apply Hbound.
Qed.

Lemma inferred_nothing a As P args : consistent a args As -> (forall k, ~ binds P k) -> inferred a As P args (Some (None, args)).
Proof. intros Hc Hn. exists args. split; [done|]. split; [done|]. split; [apply extended_refl|]. intros k Hk. by destruct (Hn k). Qed.

Lemma bind_pattern_complete fuel a p t P args As :
  types_ok a -> denotes a p P -> denotes a t (ty_subst As P) -> length args = 8%nat -> consistent a args As ->
  Forall concrete As -> (height P < fuel)%nat ->
  inferred a As P args (bind_pattern fuel a p t args).
Proof.
  intros Hok. revert p t P args. induction fuel as [|n IH]; intros p t P args HP Ht Hlen Hc Hconc Hf; [lia|].
  pose proof (denotes_kind _ _ _ Hok HP) as (Kp & Kq & Ks & Ka & _). pose proof (denotes_kind _ _ _ Hok Ht) as (_ & Jq & Js & Ja & Je).
  destruct HP as [b Hb|i q T Hi HT|i q T Hi HT|i q T Hi HT|i f ps R Hi Hps HR]; cbn [height] in Hf.
  - destruct (dyn_type_is_param b) eqn:Hp.
    + pose proof Hp as Hp'. unfold dyn_type_is_param, DYN_MAX_TYPE_PARAMS in Hp. to_prop. destruct (get_at_is_Some As (b - DYN_TYPE_PARAM_BASE)) as [A HA].
      { rewrite <- (Forall2_length _ _ _ Hc). lia. }
      cbn [ty_subst] in Ht. rewrite Hp' in Ht. replace b with (DYN_TYPE_PARAM_BASE + (b - DYN_TYPE_PARAM_BASE)) in * by lia.
      replace (DYN_TYPE_PARAM_BASE + (b - DYN_TYPE_PARAM_BASE) - DYN_TYPE_PARAM_BASE) with (b - DYN_TYPE_PARAM_BASE) in * by lia.
      rewrite HA in Ht. apply bind_param with (A := A); try done; try lia.
      rewrite Forall_forall in Hconc. apply Hconc. by eapply get_at_elem.
    + cbn [bind_pattern]. rewrite Kq, Ks, Ka, Hp. cbn [andb]. destruct (t =? _); apply inferred_nothing; try done;
        intros k [-> Hk]; unfold dyn_type_is_param, DYN_MAX_TYPE_PARAMS in Hp; revert Hp; type_bases; by zb.
  - cbn [ty_subst] in Ht, Jq, Je. cbn [bind_pattern]. rewrite Je, Kp, Kq, Jq. cbn [andb].
    inversion Ht as [? Hb|i' q' T' Hi' HT' E1 E2| | |]; subst.
    replace (DYN_TYPE_POINTER_BASE + i - DYN_TYPE_POINTER_BASE) with i by lia. replace (DYN_TYPE_POINTER_BASE + i' - DYN_TYPE_POINTER_BASE) with i' by lia.
    rewrite Hi, Hi'. replace (po_is_const q || negb (po_is_const q')) with true by (destruct (po_is_const q), (po_is_const q'); try done; congruence).
    apply (IH _ _ T); try done; lia.
  - cbn [ty_subst] in Ht, Jq, Js, Ja, Je. cbn [bind_pattern]. rewrite Je, Kp, Kq, Ks, Ka, Ja. cbn [andb].
    inversion Ht as [? Hb| |i' q' T' Hi' HT' E1 E2| |]; subst.
    replace (DYN_TYPE_ARRAY_BASE + i - DYN_TYPE_ARRAY_BASE) with i by lia. replace (DYN_TYPE_ARRAY_BASE + i' - DYN_TYPE_ARRAY_BASE) with i' by lia.
    rewrite Hi, Hi'. match goal with H : ar_length _ = ar_length _ |- _ => rewrite H end. rewrite Z.eqb_refl. apply (IH _ _ T); try done; lia.
  - cbn [ty_subst] in Ht, Jq, Js, Je. cbn [bind_pattern]. rewrite Je, Kp, Kq, Ks, Js. cbn [andb].
    inversion Ht as [? Hb| | |i' q' T' Hi' HT' E1 E2|]; subst.
    replace (DYN_TYPE_SLICE_BASE + i - DYN_TYPE_SLICE_BASE) with i by lia. replace (DYN_TYPE_SLICE_BASE + i' - DYN_TYPE_SLICE_BASE) with i' by lia.
    rewrite Hi, Hi'. replace (sl_is_const q || negb (sl_is_const q')) with true by (destruct (sl_is_const q), (sl_is_const q'); try done; congruence).
    apply (IH _ _ T); try done; lia.
  - cbn [bind_pattern]. rewrite Kp, Kq, Ks, Ka. cbn [andb]. destruct (t =? _); (apply inferred_nothing; [done|by intros k []]).
Qed.

(** The pattern [[4]^T0] against [[4]^u8]. *)
Definition sample_call : DynAstProgram :=
  with_rows ARRAYS [mkAstArray 65536 4; mkAstArray 65537 4]
    (with_rows POINTERS [mkPointer DYN_TYPE_PARAM_BASE false; mkPointer DYN_TYPE_U8 false] empty_ast).
Lemma sample_call_ok : types_ok sample_call.
Proof.
  split; try by vm_compute; try by constructor.
  - change (NoDup [mkPointer DYN_TYPE_PARAM_BASE false; mkPointer DYN_TYPE_U8 false]). apply NoDup_cons. split; [|apply NoDup_singleton].
    by intros E%list_elem_of_singleton.
  - change (NoDup [mkAstArray 65536 4; mkAstArray 65537 4]). apply NoDup_cons. split; [|apply NoDup_singleton].
    by intros E%list_elem_of_singleton.
Qed.

(** The pattern [fn($T0) void] against [fn(u8) void]: the guide says that a
    parameter type that contains [$T] infers it from the argument, but nothing
    is bound inside a signature, and the call is then refused. *)
Definition signature_call : DynAstProgram :=
  with_rows FN_TYPES [mkFnType DYN_TYPE_VOID 0 1 false; mkFnType DYN_TYPE_VOID 1 1 false]
    (with_rows FN_TYPE_PARAMS [DYN_TYPE_PARAM_BASE; DYN_TYPE_U8] empty_ast).
Example signature_not_inferred :
  occurs (TFunction [TBase DYN_TYPE_PARAM_BASE] (TBase DYN_TYPE_VOID) false) 0
  /\ bind_pattern 5 signature_call DYN_TYPE_FN_BASE (DYN_TYPE_FN_BASE + 1) (repeat DYN_TYPE_INFER 8)
     = Some (None, repeat DYN_TYPE_INFER 8).
Proof. split; [left; vm_compute; intuition congruence|reflexivity]. Qed.

(** ** Instances are the substituted function *)

(** Computations that only write tables of types. *)
Definition type_tables : list Tab := [POINTERS; ARRAYS; SLICES; FN_TYPES; FN_TYPE_PARAMS].
Definition only_types {H : Host} {A} (m : M A) : Prop :=
  forall s r s', m s = Some (r, s') -> forall k, k ∉ type_tables -> tab (prog s') k = tab (prog s) k.

Section OnlyTypes.
Context {H : Host}.

Lemma only_types_ret {A} (x : A) : only_types (mret x).
Proof. intros s r s' E. unfold mret in E. by simplify_eq. Qed.
Lemma only_types_bind {A B} (m : M A) (f : A -> M B) : only_types m -> (forall x, only_types (f x)) -> only_types (mbind m f).
Proof.
  intros Hm Hf s r s' E. unfold mbind in E. destruct (m s) as [[x s1]|] eqn:E1; [|done]. intros k Hk.
  by rewrite (Hf x s1 r s' E k Hk), (Hm s x s1 E1 k Hk).
Qed.
Lemma only_types_if {A} (b : bool) (m1 m2 : M A) : only_types m1 -> only_types m2 -> only_types (if b then m1 else m2).
Proof. by destruct b. Qed.
Lemma only_types_ast : only_types ast.
Proof. intros s r s' E. unfold ast in E. by simplify_eq. Qed.
Lemma only_types_undefined {A} : only_types (undefined (A := A)).
Proof. intros s r s' E. done. Qed.
Lemma only_types_lift {A} (o : option A) : only_types (lift o).
Proof. intros s r s' E. unfold lift in E. destruct o; by simplify_eq. Qed.
Lemma only_types_read k i : only_types (read k i).
Proof. intros s r s' E. unfold read in E. destruct (get_at _ _); by simplify_eq. Qed.
Lemma only_types_exceed : only_types exceed_capacity.
Proof. intros s r s' E. unfold exceed_capacity in E. by simplify_eq. Qed.
Lemma only_types_reserve k initial extra : only_types (reserve_rows k initial extra).
Proof. intros s r s' E k' _. destruct (reserve_rows_spec k initial extra s) as (ok & s1 & E1 & _ & Hr & _). rewrite E1 in E. simplify_eq. apply Hr. Qed.
Lemma only_types_push k x : k ∈ type_tables -> only_types (push k x).
Proof. intros Hk s r s' E k' Hk'. destruct (push_spec k x s) as (s1 & E1 & _ & _ & Ho & _). rewrite E1 in E. simplify_eq. apply Ho. by intros ->. Qed.
End OnlyTypes.
Create HintDb only_types.
#[export] Hint Resolve only_types_ret only_types_ast only_types_undefined only_types_lift only_types_read only_types_exceed only_types_reserve : only_types.
Ltac only_types :=
  repeat match goal with
  | |- only_types (mbind _ _) => apply only_types_bind; [|intros ?]
  | |- only_types (if _ then _ else _) => apply only_types_if
  | |- only_types (push _ _) => apply only_types_push; set_solver
  | |- only_types (match ?x with _ => _ end) => destruct x
  | |- only_types _ => progress (auto with only_types)
  end.

Section Instantiate.
Context {H : Host}.

Lemma only_types_row k base limit initial same x : k ∈ type_tables -> only_types (intern_row k base limit initial same x).
Proof. intros Hk. unfold intern_row, reserve. only_types. Qed.
Lemma only_types_fn ps result v : only_types (intern_fn_type_ex ps result v).
Proof.
  assert (only_types (push_params ps)) by (induction ps; cbn [push_params]; only_types; done).
  unfold intern_fn_type_ex, reserve_fn_type, reserve_fn_type_params, reserve. only_types.
Qed.
Lemma only_types_params sub count at_ : (forall t, only_types (sub t)) -> only_types (substitute_params sub count at_).
Proof. intros Hs. revert at_. induction count as [|c IH]; intros at_; cbn [substitute_params]; only_types; auto. Qed.
Lemma only_types_substitute fuel t args : only_types (dyn_ast_substitute fuel t args).
Proof.
  revert t. induction fuel as [|n IH]; intros t; cbn [dyn_ast_substitute]; only_types;
    try (by apply only_types_row; set_solver); [apply only_types_params; auto|apply only_types_fn].
Qed.

(** What every step of an instantiation keeps. *)
Record kept (ks : list Tab) (s s' : St) : Prop := {
  kt_analysis : same_analysis s s';
  kt_extends : extends (prog s) (prog s');
  kt_ok : types_ok (prog s');
  kt_failed : types_failed (prog s) = true -> types_failed (prog s') = true;
  kt_tables : forall k, k ∉ type_tables -> k ∉ ks -> tab (prog s') k = tab (prog s) k }.
Lemma kept_trans ks s1 s2 s3 : kept ks s1 s2 -> kept ks s2 s3 -> kept ks s1 s3.
Proof.
  intros [A1 X1 O1 F1 T1] [A2 X2 O2 F2 T2]. split; auto; [by eapply same_analysis_trans|by eapply extends_trans|].
  intros k Hk Hks. by rewrite T2, T1.
Qed.
Lemma kept_weaken ks ks' s s' : ks ⊆ ks' -> kept ks s s' -> kept ks' s s'.
Proof. intros Hs [A X O F T]. split; try done. intros k Hk Hn. apply T; [done|]. set_solver. Qed.
Lemma kept_not_failed ks s s' : kept ks s s' -> types_failed (prog s') = false -> types_failed (prog s) = false.
Proof. intros [A X O F T] Hn. destruct (types_failed (prog s)); [|done]. by rewrite F in Hn. Qed.
Lemma reserve_kept k initial s : types_ok (prog s) ->
  exists ok s', reserve k initial s = Some (ok, s') /\ kept [] s s' /\ same_rows (prog s) (prog s') /\ (ok = false -> types_failed (prog s') = true).
Proof.
  intros Hok. unfold reserve. destruct (reserve_rows_spec k initial 1 s) as (ok & s' & E & A & R & Hf & Hs). exists ok, s'. split; [done|].
  split; [|done]. split; [done|by apply same_rows_extends|by eapply types_ok_same_rows| |]; [|intros k' _ _; apply R].
  intros Hn. destruct ok; [by rewrite Hs|auto].
Qed.
Lemma push_kept k x s : types_ok (prog s) -> k ∉ type_tables ->
  exists s', push k x s = Some (tcount (prog s) k, s') /\ kept [k] s s' /\ tab (prog s') k = tab (prog s) k ++ [x]
             /\ types_failed (prog s') = types_failed (prog s).
Proof.
  intros Hok Hk. destruct (push_spec k x s) as (s' & E & A & Hx & Ho & Hf). exists s'. split; [done|]. split; [|done].
  split; [done| | |congruence|].
  - intros k'. destruct (decide (k = k')) as [<-|]; [by eexists|]. exists []. by rewrite Ho, app_nil_r.
  - eapply types_ok_same; [|done]. intros k' Hk'. apply Ho. intros ->. by apply Hk.
  - intros k' _ Hn. apply Ho. set_solver.
Qed.
Lemma substitute_kept fuel s t T args As :
  types_ok (prog s) -> denotes (prog s) t T -> length args = 8%nat -> Forall2 (denotes (prog s)) args As -> (height T < fuel)%nat ->
  exists r s', dyn_ast_substitute fuel t args s = Some (r, s') /\ kept [] s s'
    /\ (types_failed (prog s') = false -> denotes (prog s') r (ty_subst As T)).
Proof.
  intros Hok HT Hl Hargs Hf. destruct (substitute_ok args As fuel T Hl Hf s t Hok HT Hargs) as (r & s' & E & [A X K F D]).
  exists r, s'. split; [done|]. split; [|done]. split; try done. intros k Hk _. by eapply only_types_substitute.
Qed.

Lemma push_instance i f s : types_ok (prog s) ->
  exists s', (push INSTANCES i ;; let! n := push FUNCTIONS f in mret (u32 n)) s = Some (u32 (tcount (prog s) FUNCTIONS), s')
    /\ kept [INSTANCES; FUNCTIONS] s s' /\ tab (prog s') INSTANCES = tab (prog s) INSTANCES ++ [i]
    /\ tab (prog s') FUNCTIONS = tab (prog s) FUNCTIONS ++ [f] /\ types_failed (prog s') = types_failed (prog s).
Proof.
  intros Hok. unfold mbind. destruct (push_kept INSTANCES i s Hok) as (s1 & -> & K1 & E1 & F1); [set_solver|].
  destruct (push_kept FUNCTIONS f s1) as (s2 & -> & K2 & E2 & F2); [apply K1|set_solver|]. exists s2.
  unfold tcount. rewrite E2, F2, F1, (kt_tables _ _ _ K1 FUNCTIONS), (kt_tables _ _ _ K2 INSTANCES), E1 by set_solver. split_and!; try done.
  eapply kept_trans; eapply kept_weaken; try eassumption; set_solver.
Qed.

Definition value_params (gps : list DynAstGenericParam) : list DynAstGenericParam := List.filter (fun p => negb (gp_is_type p)) gps.
Lemma instantiate_params_ok fuel gps Ps args As count s :
  types_ok (prog s) -> length args = 8%nat -> Forall2 (denotes (prog s)) args As ->
  Forall2 (fun p P => denotes (prog s) (gp_pattern p) P) (value_params gps) Ps -> Forall (fun P => (height P < fuel)%nat) Ps ->
  exists r s', instantiate_params fuel gps args count s = Some (r, s') /\ kept [PARAMS] s s' /\
    match r with
    | None => types_failed (prog s') = true
    | Some c => exists ps, tab (prog s') PARAMS = tab (prog s) PARAMS ++ ps /\ c = count + zlen ps
        /\ map pa_name ps = map gp_name (value_params gps)
        /\ (types_failed (prog s') = false -> Forall2 (denotes (prog s')) (map pa_type ps) (map (ty_subst As) Ps))
    end.
Proof.
  revert Ps count s. induction gps as [|p gps IH]; intros Ps count s Hok Hl Hargs HPs Hh; cbn [instantiate_params value_params List.filter] in *.
  { inversion HPs; subst. exists (Some count), s. split; [done|]. split; [by split; auto with dyn|].
    exists []. rewrite app_nil_r. split; [done|]. split; [unfold zlen; cbn; lia|]. split; [done|]. constructor. }
  destruct (gp_is_type p); cbn [negb] in *; [by apply IH|].
  inversion HPs as [|p' P l' Ps' HP HPs']; subst. apply Forall_cons in Hh as [Hh Hhs]. unfold mbind at 1, reserve_param.
  destruct (reserve_kept PARAMS 16 s Hok) as (ok & s1 & -> & K1 & R1 & Hf1).
  destruct ok; cbn [negb]. 2: { exists None, s1. split; [done|]. split; [by apply (kept_weaken []); [set_solver|]|auto]. }
  destruct (substitute_kept fuel s1 (gp_pattern p) P args As) as (t & s2 & E2 & K2 & D2); try done; [apply K1|..].
  { by apply (denotes_extends (prog s)); [|apply K1|]. }
  { by apply (args_extend args As (prog s)); [|apply K1|]. }
  unfold mbind at 1. rewrite E2. unfold mbind at 1.
  destruct (push_kept PARAMS (mkAstParam (gp_name p) t UINT32_MAX) s2) as (s3 & -> & K3 & Hp3 & Hf3); [apply K2|set_solver|].
  assert (kept [PARAMS] s s3) as K13.
  { eapply kept_trans; [|exact K3]. apply (kept_weaken []); [set_solver|]. by eapply kept_trans. }
  destruct (IH Ps' (count + 1) s3) as (r & s4 & -> & K4 & Hr); try done; [apply K13| | |].
  { by apply (args_extend args As (prog s)); [|apply K13|]. }
  { eapply Forall2_impl; [exact HPs'|]. intros q Q HQ. by apply (denotes_extends (prog s)); [|apply K13|]. }
  exists r, s4. split; [done|]. split; [by eapply kept_trans|]. destruct r as [c|]; [|done].
  destruct Hr as (ps & Hps & -> & Hnames & Hd). exists (mkAstParam (gp_name p) t UINT32_MAX :: ps).
  split; [rewrite Hps, Hp3, (kt_tables _ _ _ K2 PARAMS), R1, <- app_assoc by set_solver; done|].
  split; [unfold zlen; cbn; lia|]. split; [cbn; f_equal; done|]. intros Hn. cbn [map]. constructor; [|auto].
  apply (denotes_extends (prog s2)); [apply K2|eapply extends_trans; [apply K3|apply K4]|]. cbn [pa_type]. apply D2.
  eapply kept_not_failed; [exact K3|]. by eapply kept_not_failed.
Qed.
End Instantiate.

(** C4: instantiating a generic function always ends; the types stay interned
    and no existing row changes. It either fails for lack of memory, which is
    recorded, or appends one function and one instance: the function has the
    generic's name and flags, is no longer generic, waits for its body, and its
    parameters and result are the patterns with the type arguments in place of
    the parameters, the type parameters themselves dropped. *)
Theorem instantiate_correct {H : Host} (s : St) fuel generic g fn gps Ps R args As depth call hash :
  types_ok (prog s) -> get_at (tab (prog s) GENERICS) generic = Some g -> get_at (tab (prog s) FUNCTIONS) (ge_function g) = Some fn ->
  gps = slice_at (tab (prog s) GENERIC_PARAMS) (ge_param_start g) (ge_param_count g) ->
  length args = 8%nat -> Forall2 (denotes (prog s)) args As -> denotes (prog s) (ge_return_pattern g) R ->
  Forall2 (fun p P => denotes (prog s) (gp_pattern p) P) (value_params gps) Ps ->
  (height R < fuel)%nat -> Forall (fun P => (height P < fuel)%nat) Ps ->
  tcount (prog s) FUNCTIONS < UINT32_MAX -> tcount (prog s) INSTANCES < UINT32_MAX -> tcount (prog s) PARAMS < UINT32_MAX ->
  exists r s', dyn_ast_instantiate fuel generic args depth call hash s = Some (r, s')
    /\ types_ok (prog s') /\ extends (prog s) (prog s') /\
    if r =? UINT32_MAX then types_failed (prog s') = true
    else exists ps t,
      let f := instance_function fn (tcount (prog s) INSTANCES) (tcount (prog s) PARAMS) (zlen ps) t in
      r = tcount (prog s) FUNCTIONS /\ tab (prog s') FUNCTIONS = tab (prog s) FUNCTIONS ++ [f]
      /\ tab (prog s') INSTANCES = tab (prog s) INSTANCES ++ [mkInstance generic r depth (instance_args g args) call hash]
      /\ tab (prog s') PARAMS = tab (prog s) PARAMS ++ ps /\ map pa_name ps = map gp_name (value_params gps)
      /\ (types_failed (prog s') = false ->
          denotes (prog s') t (ty_subst As R) /\ Forall2 (denotes (prog s')) (map pa_type ps) (map (ty_subst As) Ps)).
Proof.
  intros Hok Hg Hfn -> Hl Hargs HR HPs HhR HhPs HF HI HP. unfold dyn_ast_instantiate. unfold mbind at 1, read. rewrite Hg. unfold mbind at 1.
  change UINT32_MAX with 4294967295 in HF, HI, HP.
  destruct (reserve_kept INSTANCES 16 s Hok) as ([] & s1 & -> & K1 & R1 & F1); cbn [negb]; [|exists UINT32_MAX, s1; split_and!; [done|apply K1|apply K1|by apply F1]].
  unfold mbind at 1, reserve_function.
  destruct (reserve_kept FUNCTIONS 8 s1 (kt_ok _ _ _ K1)) as ([] & s2 & -> & K2 & R2 & F2); cbn [negb].
  2: { pose proof (kept_trans _ _ _ _ K1 K2). exists UINT32_MAX, s2; split_and!; [done|apply K2|eapply kt_extends; eassumption|by apply F2]. }
  pose proof (kept_trans _ _ _ _ K1 K2) as K12. pose proof (same_rows_trans _ _ _ R1 R2) as R12.
  unfold mbind at 1. rewrite R12, Hfn. unfold mbind at 1, ast at 1. unfold mbind at 1.
  destruct (substitute_kept fuel s2 (ge_return_pattern g) R args As) as (t & s3 & -> & K3 & D3); try done; [apply K12| | |].
  { by apply (denotes_extends (prog s)); [|apply K12|]. }
  { by apply (args_extend args As (prog s)); [|apply K12|]. }
  pose proof (kept_trans _ _ _ _ K12 K3) as K13. unfold mbind at 1, ast at 1. unfold mbind at 1.
  assert (tab (prog s3) GENERIC_PARAMS = tab (prog s) GENERIC_PARAMS) as -> by (apply K13; set_solver).
  set (gps := slice_at (tab (prog s) GENERIC_PARAMS) (ge_param_start g) (ge_param_count g)) in *.
  destruct (instantiate_params_ok fuel gps Ps args As 0 s3) as (r & s4 & -> & K4 & Hr); try done; [apply K13| | |].
  { by apply (args_extend args As (prog s)); [|apply K13|]. }
  { eapply Forall2_impl; [exact HPs|]. intros q Q HQ. by apply (denotes_extends (prog s)); [|apply K13|]. }
  pose proof (kept_trans _ _ _ _ (kept_weaken [] [PARAMS] _ _ ltac:(set_solver) K13) K4) as K14.
  destruct r as [c|]; [|exists UINT32_MAX, s4; split_and!; [done|apply K4|eapply kt_extends; eassumption|done]].
  destruct Hr as (ps & Hps & -> & Hnames & Hd). unfold mbind at 1, ast at 1.
  destruct (push_instance (mkInstance generic (u32 (tcount (prog s4) FUNCTIONS)) depth (instance_args g args) call hash)
              (instance_function fn (u32 (tcount (prog s2) INSTANCES)) (u32 (tcount (prog s2) PARAMS)) (0 + zlen ps) t) s4)
    as (s6 & -> & K6 & H5 & H6 & F6); [apply K4|].
  assert (tab (prog s6) PARAMS = tab (prog s) PARAMS ++ ps) as E6.
  { rewrite (kt_tables _ _ _ K6), Hps, (kt_tables _ _ _ K13) by set_solver. done. }
  unfold tcount in *. rewrite (kt_tables _ _ _ K14) in H5, H6 by set_solver. rewrite (kt_tables _ _ _ K14) by set_solver.
  rewrite (kt_tables _ _ _ K14) in H5 by set_solver. rewrite !R12, !u32_small in H6 by (unfold zlen in *; lia).
  rewrite u32_small in H5 by (unfold zlen in *; lia). rewrite u32_small by (unfold zlen in *; lia).
  exists (zlen (tab (prog s) FUNCTIONS)), s6. split; [done|]. split; [apply K6|].
  split; [eapply extends_trans; [apply K14|apply K6]|].
  rewrite (proj2 (Z.eqb_neq _ UINT32_MAX)) by (change UINT32_MAX with 4294967295; lia).
  exists ps, t. rewrite Z.add_0_l in *. split_and!; try done. intros Hn.
  pose proof Hn as Hn4. rewrite F6 in Hn4. split.
  - apply (denotes_extends (prog s3)); [apply K3| |apply D3; by eapply kept_not_failed].
    eapply extends_trans; [apply K4|apply K6].
  - eapply Forall2_impl; [by apply Hd|]. intros u U HU. by apply (denotes_extends (prog s4)); [apply K4|apply K6|].
Qed.

(** [fn f(T0, x: ^T0): T0], instantiated with [u8]. *)
Definition sample_generic : DynAstProgram :=
  with_rows GENERICS [mkGeneric 0 0 2 1 DYN_TYPE_PARAM_BASE [no_span]]
  (with_rows GENERIC_PARAMS [mkGenericParam no_span DYN_TYPE_PARAM_BASE true; mkGenericParam (mkDynSpan 4 5) 65536 false]
  (with_rows FUNCTIONS [mkFn no_span (mkDynSpan 0 1) no_span no_span 0 0 0 0 0 0 0 false false false false true false false 0 0 0 0]
  (with_rows POINTERS [mkPointer DYN_TYPE_PARAM_BASE false] empty_ast))).
Lemma sample_generic_ok : types_ok sample_generic.
Proof. split; try by vm_compute. all: first [apply NoDup_singleton|constructor]. Qed.
Lemma instantiate_correct_witness :
  exists r s', dyn_ast_instantiate 3 0 (repeat DYN_TYPE_U8 8) 0 no_span 7 (state_of sample_generic) = Some (r, s')
    /\ types_ok (prog s') /\ extends sample_generic (prog s') /\
    if r =? UINT32_MAX then types_failed (prog s') = true
    else exists ps t,
      let f := instance_function (mkFn no_span (mkDynSpan 0 1) no_span no_span 0 0 0 0 0 0 0 false false false false true false false 0 0 0 0) 0 0 (zlen ps) t in
      r = 1 /\ tab (prog s') FUNCTIONS = tab sample_generic FUNCTIONS ++ [f]
      /\ tab (prog s') INSTANCES = [mkInstance 0 r 0 (instance_args (mkGeneric 0 0 2 1 DYN_TYPE_PARAM_BASE [no_span]) (repeat DYN_TYPE_U8 8)) no_span 7]
      /\ tab (prog s') PARAMS = ps /\ map pa_name ps = [mkDynSpan 4 5]
      /\ (types_failed (prog s') = false ->
          denotes (prog s') t (TBase DYN_TYPE_U8) /\ Forall2 (denotes (prog s')) (map pa_type ps) [TPointer (TBase DYN_TYPE_U8) false]).
Proof.
  apply (@instantiate_correct willing_host (state_of sample_generic) 3 0 (mkGeneric 0 0 2 1 DYN_TYPE_PARAM_BASE [no_span])
    (mkFn no_span (mkDynSpan 0 1) no_span no_span 0 0 0 0 0 0 0 false false false false true false false 0 0 0 0)
    [mkGenericParam no_span DYN_TYPE_PARAM_BASE true; mkGenericParam (mkDynSpan 4 5) 65536 false] [TPointer (TBase DYN_TYPE_PARAM_BASE) false]
    (TBase DYN_TYPE_PARAM_BASE) (repeat DYN_TYPE_U8 8) (repeat (TBase DYN_TYPE_U8) 8) 0 no_span 7); try reflexivity.
  - apply sample_generic_ok.
  - repeat constructor.
  - apply d_base. reflexivity.
  - constructor; [|constructor]. apply (d_pointer sample_generic 0 (mkPointer DYN_TYPE_PARAM_BASE false)); [reflexivity|]. apply d_base. reflexivity.
  - cbn. lia.
  - constructor; [cbn; lia|constructor].
Defined.

(** ** One instance for each list of arguments *)
Definition instance_key (i : DynAstInstance) : Z * list Z := (in_generic i, in_args i).
Definition instances_distinct (a : DynAstProgram) : Prop := NoDup (map instance_key (tab a INSTANCES)).

Section Distinct.
Context {H : Host}.

Definition untouched (k : Tab) {A} (m : M A) : Prop := forall s r s', m s = Some (r, s') -> tab (prog s') k = tab (prog s) k.
Lemma only_types_untouched k {A} (m : M A) : k ∉ type_tables -> only_types m -> untouched k m.
Proof. intros Hk Hm s r s' E. by eapply Hm. Qed.
Lemma params_untouched fuel gps args count : untouched INSTANCES (instantiate_params fuel gps args count).
Proof.
  revert count. induction gps as [|p gps IH]; intros count s r s' E; cbn [instantiate_params] in E; [by unfold mret in E; simplify_eq|].
  destruct (gp_is_type p); [by eapply IH|]. unfold mbind at 1, reserve_param, reserve in E.
  destruct (reserve_rows_spec PARAMS 16 1 s) as (ok & s1 & E1 & _ & R1 & _). rewrite E1 in E. destruct ok; cbn [negb] in E; [|unfold mret in E; simplify_eq; apply R1].
  unfold mbind at 1 in E. destruct (dyn_ast_substitute fuel (gp_pattern p) args s1) as [[t s2]|] eqn:E2; [|done].
  unfold mbind at 1 in E. destruct (push_spec PARAMS (mkAstParam (gp_name p) t UINT32_MAX) s2) as (s3 & E3 & _ & _ & Ho & _). rewrite E3 in E.
  rewrite (IH _ _ _ _ E), Ho, (only_types_substitute fuel (gp_pattern p) args _ _ _ E2), R1; done || set_solver.
Qed.
Lemma instantiate_adds_one fuel generic g args depth call hash s r s' :
  get_at (tab (prog s) GENERICS) generic = Some g -> dyn_ast_instantiate fuel generic args depth call hash s = Some (r, s') ->
  tab (prog s') INSTANCES = tab (prog s) INSTANCES
  \/ exists f, tab (prog s') INSTANCES = tab (prog s) INSTANCES ++ [mkInstance generic f depth (instance_args g args) call hash].
Proof.
  intros Hg E. unfold dyn_ast_instantiate in E. unfold mbind at 1, read in E. rewrite Hg in E. unfold mbind at 1, reserve in E.
  destruct (reserve_rows_spec INSTANCES 16 1 s) as (ok & s1 & E1 & _ & R1 & _). rewrite E1 in E.
  destruct ok; cbn [negb] in E; [|left; unfold mret in E; simplify_eq; apply R1]. unfold mbind at 1, reserve_function, reserve in E.
  destruct (reserve_rows_spec FUNCTIONS 8 1 s1) as (ok & s2 & E2 & _ & R2 & _). rewrite E2 in E.
  destruct ok; cbn [negb] in E; [|left; unfold mret in E; simplify_eq; by rewrite R2, R1].
  unfold mbind at 1 in E. destruct (get_at (tab (prog s2) FUNCTIONS) (ge_function g)) as [fn|]; [|done].
  unfold mbind at 1, ast at 1 in E. unfold mbind at 1 in E.
  destruct (dyn_ast_substitute fuel (ge_return_pattern g) args s2) as [[t s3]|] eqn:E3; [|done]. unfold mbind at 1, ast at 1 in E.
  unfold mbind at 1 in E. destruct (instantiate_params fuel _ args 0 s3) as [[c s4]|] eqn:E4; [|done].
  assert (tab (prog s4) INSTANCES = tab (prog s) INSTANCES) as E5.
  { rewrite (params_untouched _ _ _ _ _ _ _ E4), (only_types_substitute fuel _ args _ _ _ E3), R2, R1; done || set_solver. }
  destruct c as [c|]; [|left; unfold mret in E; by simplify_eq]. right. unfold mbind at 1, ast at 1 in E. unfold mbind at 1 in E.
  match type of E with context [push INSTANCES ?i s4] => destruct (push_spec INSTANCES i s4) as (s5 & E6 & _ & Hx & _ & _) end.
  rewrite E6 in E. unfold mbind in E.
  match type of E with context [push FUNCTIONS ?f s5] => destruct (push_spec FUNCTIONS f s5) as (s6 & E7 & _ & _ & Hy & _) end.
  rewrite E7 in E. unfold mret in E. simplify_eq. eexists. by rewrite Hy, Hx, E5.
Qed.
Lemma instance_args_take g args : take (Z.to_nat (ge_type_param_count g)) (instance_args g args) = take (Z.to_nat (ge_type_param_count g)) args
  \/ (length args < Z.to_nat (ge_type_param_count g))%nat.
Proof.
  destruct (le_lt_dec (Z.to_nat (ge_type_param_count g)) (length args)); [left|by right]. unfold instance_args.
  rewrite take_app_le, take_take, Nat.min_id by (rewrite length_take; lia). done.
Qed.

(** A generic function is compiled once for each list of type arguments:
    finding or creating an instance never adds a second instance of the same
    generic with the same arguments, whatever the outcome. *)
Theorem instances_unique fuel generic args call hash s r s' g :
  get_at (tab (prog s) GENERICS) generic = Some g -> ge_type_param_count g <= zlen args -> instances_distinct (prog s) ->
  find_or_instantiate fuel generic args call hash s = Some (r, s') -> instances_distinct (prog s').
Proof.
  intros Hg Hn Hd E. unfold find_or_instantiate in E. unfold mbind at 1, read at 1 in E. rewrite Hg in E. unfold mbind at 1, the_sema in E.
  unfold mbind at 1 in E. destruct ((if current_function (sema s) =? UINT32_MAX then mret 0 else _) s) as [[depth s1]|] eqn:E1; [|done].
  assert (s1 = s) as ->.
  { destruct (_ =? UINT32_MAX); [by unfold mret in E1; simplify_eq|]. unfold mbind at 1, read at 1 in E1.
    destruct (get_at (tab (prog s) FUNCTIONS) _) as [f|]; [|done]. destruct (fn_is_instance f); [|by unfold mret in E1; simplify_eq].
    unfold mbind, read in E1. destruct (get_at (tab (prog s) INSTANCES) _); [|done]. by unfold mret in E1; simplify_eq. }
  unfold mbind at 1, ast at 1 in E. destruct (find_instance (prog s) g generic args) as [i|] eqn:Ef; [by unfold mret in E; simplify_eq|].
  destruct (_ <=? depth); [unfold mbind, error_span, mret in E; by simplify_eq|]. unfold mbind at 1 in E.
  destruct (dyn_ast_instantiate fuel generic args depth call hash s) as [[f s2]|] eqn:E2; [|done].
  assert (prog s' = prog s2) as -> by (unfold mbind, error_span, mret in E; destruct (f =? UINT32_MAX); by simplify_eq).
  destruct (instantiate_adds_one _ _ _ _ _ _ _ _ _ _ Hg E2) as [Hi|[f' Hi]]; unfold instances_distinct; rewrite Hi; [done|].
  rewrite map_app. apply NoDup_app. split; [done|]. split; [|apply NoDup_singleton].
  intros k Hk Hin%list_elem_of_singleton. apply list_elem_of_fmap in Hk as (i & -> & Hi'). injection Hin as Eg Ea.
  pose proof (find_none _ _ Ef i (proj1 (list_elem_of_In _ _) Hi')) as Hno. cbn in Hno. rewrite Eg, Z.eqb_refl, Ea in Hno. cbn [andb] in Hno.
  apply bool_decide_eq_false in Hno. destruct (instance_args_take g args) as [|]; [done|]. unfold zlen in Hn. lia.
Qed.
End Distinct.

Lemma instances_unique_witness :
  match find_or_instantiate 3 0 (repeat DYN_TYPE_U8 8) no_span 7 (state_of sample_generic) with
  | Some (r, s') => instances_distinct (prog s')
  | None => False
  end.
Proof.
  destruct (find_or_instantiate 3 0 (repeat DYN_TYPE_U8 8) no_span 7 (state_of sample_generic)) as [[r s']|] eqn:E.
  - apply (@instances_unique willing_host 3 0 (repeat DYN_TYPE_U8 8) no_span 7 (state_of sample_generic) r s' (mkGeneric 0 0 2 1 DYN_TYPE_PARAM_BASE [no_span])).
    + reflexivity.
    + vm_compute. discriminate.
    + constructor.
    + exact E.
  - vm_compute in E. discriminate E.
Defined.
