(* ===== verification/AstLayout.v ===== *)
(** Layouts of structs and enums (src/src/ast.c, [layout_struct],
    [type_layout], [layout_enum], [compute_layouts_v2]).

    The computation recurs through the fields with a mark on each declaration
    (0 not visited, 1 under way, 2 done); [layouts_correct] is the invariant:
    a finished declaration has its fields at the least aligned offsets, and
    nothing writes it again. *)

From S2P Require Import Prelude Target Source Work Ir Ast AstTypes SemaTypes.

(** ** Tags *)
Definition tag_width (t : Z) : Z :=
  if (t =? DYN_TYPE_I8) || (t =? DYN_TYPE_U8) then 8
  else if (t =? DYN_TYPE_I16) || (t =? DYN_TYPE_U16) then 16
  else if (t =? DYN_TYPE_I32) || (t =? DYN_TYPE_U32) then 32 else 64.
Definition tag_fits (t bits_ : Z) (negative : bool) : bool :=
  let width := tag_width t in
  let sign := (t =? DYN_TYPE_I8) || (t =? DYN_TYPE_I16) || (t =? DYN_TYPE_I32) || (t =? DYN_TYPE_I64) || (t =? DYN_TYPE_ISIZE) in
  if negb sign then negb negative && ((width =? 64) || (bits_ <? Z.shiftl 1 width))
  else
    let value := i64 bits_ in
    if negb (eqb negative (value <? 0)) then false
    else (width =? 64) || ((- Z.shiftl 1 (width - 1) <=? value) && (value <? Z.shiftl 1 (width - 1))).

(** ** Layouts *)
Definition address_limit (pb : Z) : Z := if pb =? 4 then UINT32_MAX else UINT64_MAX.
Definition scalar_size (t : Z) : Z :=
  if (t =? DYN_TYPE_BOOL) || (t =? DYN_TYPE_I8) || (t =? DYN_TYPE_U8) then 1
  else if (t =? DYN_TYPE_I16) || (t =? DYN_TYPE_U16) then 2
  else if (t =? DYN_TYPE_I32) || (t =? DYN_TYPE_U32) || (t =? DYN_TYPE_F32) then 4 else 8.
Definition round_up (x align : Z) : Z := (x + align - 1) / align * align.

Definition set_offset (f : DynAstField) (offset : Z) : DynAstField := mkField (fd_name f) (fd_type f) (fd_default f) offset.
Definition set_struct (st : DynAstStruct) (size alignment : Z) : DynAstStruct :=
  mkStruct (sr_span st) (sr_name st) (sr_packed st) (sr_field_start st) (sr_field_count st) size alignment (sr_field_names st).
Definition set_enum (en : DynAstEnum) (size alignment payload_size payload_alignment : Z) : DynAstEnum :=
  mkEnum (en_name en) (en_tag_type en) (en_variant_start en) (en_variant_count en) size alignment payload_size payload_alignment (en_has_payload en) (en_variant_names en).

Inductive Placed := PLACE_FAILED | PLACE_OVERSIZED | PLACE_DONE (size max_align : Z).

Section Layout.
Context {H : Host}.
Variable pb : Z.

(** The fields from the [i]th; the tests exclude overflow. *)
Fixpoint layout_fields (layout : Z -> bool -> list Z -> M (Z * list Z)) (st : DynAstStruct) (n : nat) (i size max_align : Z)
    (state : list Z) : M (Placed * list Z) :=
  match n with
  | O => mret (PLACE_DONE size max_align, state)
  | S n =>
      let limit := address_limit pb in
      let! f := read FIELDS (sr_field_start st + i) in
      let! (align, state) := (if sr_packed st then mret (1, state) else layout (fd_type f) true state) in
      let! (field_size, state) := layout (fd_type f) false state in
      if (align =? 0) || (field_size =? 0) then mret (PLACE_FAILED, state)
      else
        let max_align := if max_align <? align then align else max_align in
        if limit - (align - 1) <? size then mret (PLACE_OVERSIZED, state)
        else
          let size := round_up size align in
          write FIELDS (sr_field_start st + i) (set_offset f size) ;;
          if limit - size <? field_size then mret (PLACE_OVERSIZED, state)
          else layout_fields layout st n (i + 1) (size + field_size) max_align state
  end.
Definition layout_struct (layout : Z -> bool -> list Z -> M (Z * list Z)) (id : Z) (state : list Z) : M (bool * list Z) :=
  let! mark := lift (get_at state id) in
  let! st := read STRUCTS id in
  if mark =? 2 then mret (true, state)
  else if mark =? 1 then error_span (sr_span st) "struct contains itself by value" ;; mret (false, state)
  else
    let! state := lift (set_at state id 1) in
    if sr_field_count st =? 0 then
      write STRUCTS id (set_struct st 1 1) ;;
      let! state := lift (set_at state id 2) in
      mret (true, state)
    else
      let! (placed, state) := layout_fields layout st (Z.to_nat (sr_field_count st)) 0 0 1 state in
      let oversized := error_span (sr_span st) "struct layout exceeds target address space" ;; mret (false, state) in
      match placed with
      | PLACE_FAILED => mret (false, state)
      | PLACE_OVERSIZED => oversized
      | PLACE_DONE size max_align =>
          if address_limit pb - (max_align - 1) <? size then oversized
          else
            write STRUCTS id (set_struct st (round_up size max_align) max_align) ;;
            let! state := lift (set_at state id 2) in
            mret (true, state)
      end.

(** The largest payload; a payload without a layout is reported and skipped. *)
Fixpoint layout_variants (layout : Z -> bool -> list Z -> M (Z * list Z)) (en : DynAstEnum) (n : nat) (j size align : Z)
    (state : list Z) : M (Z * Z * list Z) :=
  match n with
  | O => mret (size, align, state)
  | S n =>
      let! v := read VARIANTS (en_variant_start en + j) in
      let p := va_payload_type v in
      if p =? DYN_TYPE_VOID then layout_variants layout en n (j + 1) size align state
      else if dyn_type_is_enum p then
        error_span (va_name v) "enum payload cannot contain enum directly" ;;
        layout_variants layout en n (j + 1) size align state
      else
        let! (pa, state) := layout p true state in
        let! (ps, state) := layout p false state in
        if (pa =? 0) || (ps =? 0) then
          error_span (va_name v) "recursive or incomplete enum payload layout" ;;
          layout_variants layout en n (j + 1) size align state
        else
          layout_variants layout en n (j + 1) (if size <? ps then ps else size) (if align <? pa then pa else align) state
  end.
(** The row is written when the payload is known, and again with the size. *)
Definition layout_enum (layout : Z -> bool -> list Z -> M (Z * list Z)) (id : Z) (state : list Z) : M (bool * list Z) :=
  let! a := ast in
  let slot := tcount a STRUCTS + id in
  let! mark := lift (get_at state slot) in
  let! en := read ENUMS id in
  if mark =? 2 then mret (true, state)
  else if mark =? 1 then error_span (en_name en) "enum contains itself by value" ;; mret (false, state)
  else
    let! state := lift (set_at state slot 1) in
    let! (tag_size, state) := layout (en_tag_type en) false state in
    let! (tag_align, state) := layout (en_tag_type en) true state in
    let! (payload_size, payload_alignment, state) := layout_variants layout en (Z.to_nat (en_variant_count en)) 0 0 1 state in
    let alignment := if payload_alignment <? tag_align then tag_align else payload_alignment in
    let offset := round_up tag_size payload_alignment in
    write ENUMS id (set_enum en (en_size en) alignment payload_size payload_alignment) ;;
    if (address_limit pb - offset <? payload_size) || (address_limit pb - (alignment - 1) <? offset + payload_size) then
      error_span (en_name en) "enum layout exceeds target address space" ;; mret (false, state)
    else
      write ENUMS id (set_enum en (round_up (offset + payload_size) alignment) alignment payload_size payload_alignment) ;;
      let! state := lift (set_at state slot 2) in
      mret (true, state).

Fixpoint type_layout (fuel : nat) (t : Z) (alignment : bool) (state : list Z) : M (Z * list Z) :=
  match fuel with
  | O => undefined
  | S n =>
      let! a := ast in
      if dyn_type_is_distinct t then
        let id := t - DYN_TYPE_DISTINCT_BASE in
        if tcount a ALIASES <=? id then mret (0, state)
        else let! al := read ALIASES id in type_layout n (al_target al) alignment state
      else if dyn_type_is_struct t then
        let id := t - DYN_TYPE_STRUCT_BASE in
        if tcount a STRUCTS <=? id then mret (0, state)
        else
          let! (ok, state) := layout_struct (type_layout n) id state in
          if negb ok then mret (0, state)
          else let! st := read STRUCTS id in mret (if alignment then sr_alignment st else sr_size st, state)
      else if dyn_type_is_enum t then
        let id := t - DYN_TYPE_ENUM_BASE in
        if tcount a ENUMS <=? id then mret (0, state)
        else
          let! (ok, state) := layout_enum (type_layout n) id state in
          if negb ok then mret (0, state)
          else let! en := read ENUMS id in mret (if alignment then en_alignment en else en_size en, state)
      else if dyn_type_is_array t then
        let! x := read ARRAYS (t - DYN_TYPE_ARRAY_BASE) in
        let! (unit, state) := type_layout n (ar_element x) alignment state in
        if negb alignment && negb (unit =? 0) && (address_limit pb / unit <? ar_length x) then
          error_span (mkDynSpan 0 0) "array layout exceeds target address space" ;; mret (0, state)
        else mret (if alignment then unit else unit * ar_length x, state)
      else if dyn_type_is_slice t || (t =? DYN_TYPE_STRING) then mret (if alignment then pb else 2 * pb, state)
      else if t =? DYN_TYPE_ANY then mret (if alignment then 8 else 16, state)
      else if dyn_type_is_pointer t || dyn_type_is_function t || (t =? DYN_TYPE_RAWPTR) || (t =? DYN_TYPE_USIZE) || (t =? DYN_TYPE_ISIZE)
        then mret (pb, state)
      else mret (scalar_size t, state)
  end.

Fixpoint layout_all (one : Z -> list Z -> M (bool * list Z)) (n : nat) (i : Z) (state : list Z) : M (list Z) :=
  match n with
  | O => mret state
  | S n => let! (_, state) := one i state in layout_all one n (i + 1) state
  end.
Definition compute_layouts_v2 (fuel : nat) : M bool :=
  let! a := ast in
  let count := tcount a STRUCTS + tcount a ENUMS in
  let! ok := allocate_bytes count in
  if negb (count =? 0) && negb ok then fail_memory ;; mret false
  else
    let! state := layout_all (layout_enum (type_layout fuel)) (Z.to_nat (tcount a ENUMS)) 0 (replicate (Z.to_nat count) 0) in
    let! _ := layout_all (layout_struct (type_layout fuel)) (Z.to_nat (tcount a STRUCTS)) 0 state in
    mret true.
End Layout.
