(* ===== verification/AstLayoutSpec.v ===== *)
(** Correctness of the layouts of AstLayout: the computation ends, reports
    every declaration it cannot lay out, and gives each other one the least
    aligned offsets for its fields. *)

From S2P Require Import Prelude Target Source Work Ir Ast AstTypes SemaTypes AstLayout.

Definition alignment_ok (al : Z) : Prop := al = 1 \/ al = 2 \/ al = 4 \/ al = 8.
(** A type that is not looked up in a table of declarations or elements. *)
Definition simple (t : Z) : bool :=
  negb (dyn_type_is_distinct t || dyn_type_is_struct t || dyn_type_is_enum t || dyn_type_is_array t).
Definition simple_layout (pb t : Z) (alignment : bool) : Z :=
  if dyn_type_is_slice t || (t =? DYN_TYPE_STRING) then if alignment then pb else 2 * pb
  else if t =? DYN_TYPE_ANY then if alignment then 8 else 16
  else if dyn_type_is_pointer t || dyn_type_is_function t || (t =? DYN_TYPE_RAWPTR) || (t =? DYN_TYPE_USIZE) || (t =? DYN_TYPE_ISIZE) then pb
  else scalar_size t.

(** ** What a layout is *)
Section Spec.
Variable pb : Z.

(** [laid a state t size align]: the layout of [t], read off finished
    declarations. *)
Inductive laid (a : DynAstProgram) (state : list Z) : Z -> Z -> Z -> Prop :=
| laid_simple t : simple t = true -> laid a state t (simple_layout pb t false) (simple_layout pb t true)
| laid_alias t x size align :
    dyn_type_is_distinct t = true -> get_at (tab a ALIASES) (t - DYN_TYPE_DISTINCT_BASE) = Some x ->
    laid a state (al_target x) size align -> laid a state t size align
| laid_struct t st :
    dyn_type_is_struct t = true -> get_at (tab a STRUCTS) (t - DYN_TYPE_STRUCT_BASE) = Some st ->
    get_at state (t - DYN_TYPE_STRUCT_BASE) = Some 2 -> laid a state t (sr_size st) (sr_alignment st)
| laid_enum t en :
    dyn_type_is_enum t = true -> get_at (tab a ENUMS) (t - DYN_TYPE_ENUM_BASE) = Some en ->
    get_at state (tcount a STRUCTS + (t - DYN_TYPE_ENUM_BASE)) = Some 2 -> laid a state t (en_size en) (en_alignment en)
| laid_array t x unit align :
    dyn_type_is_array t = true -> get_at (tab a ARRAYS) (t - DYN_TYPE_ARRAY_BASE) = Some x ->
    laid a state (ar_element x) unit align -> 0 < ar_length x ->
    laid a state t (unit * ar_length x) align.

(** Fields after [e] bytes with alignment [m] so far: each at the least
    multiple of its alignment that is free, the whole in the address space. *)
Inductive placed (a : DynAstProgram) (state : list Z) (packed : bool) : list DynAstField -> Z -> Z -> Z -> Z -> Prop :=
| placed_nil e m : placed a state packed [] e m e m
| placed_cons f fs e m size align e' m' :
    laid a state (fd_type f) size align ->
    let al := if packed then 1 else align in
    fd_offset f = round_up e al -> fd_offset f + size <= address_limit pb ->
    placed a state packed fs (fd_offset f + size) (Z.max m al) e' m' ->
    placed a state packed (f :: fs) e m e' m'.
Definition fields_of (a : DynAstProgram) (st : DynAstStruct) : list DynAstField :=
  slice_at (tab a FIELDS) (sr_field_start st) (sr_field_count st).
Definition struct_ok (a : DynAstProgram) (state : list Z) (st : DynAstStruct) : Prop :=
  alignment_ok (sr_alignment st) /\ 1 <= sr_size st <= address_limit pb /\
  if sr_field_count st =? 0 then sr_size st = 1 /\ sr_alignment st = 1
  else exists e, placed a state (sr_packed st) (fields_of a st) 0 1 e (sr_alignment st) /\ sr_size st = round_up e (sr_alignment st).

Definition payload_ok (a : DynAstProgram) (state : list Z) (ds : list Diagnostic) (size align : Z) (v : DynAstVariant) : Prop :=
  va_payload_type v = DYN_TYPE_VOID
  \/ (exists sz al, laid a state (va_payload_type v) sz al /\ sz <= size /\ al <= align)
  \/ exists message, (va_name v, message) ∈ ds.
Definition variants_of (a : DynAstProgram) (en : DynAstEnum) : list DynAstVariant :=
  slice_at (tab a VARIANTS) (en_variant_start en) (en_variant_count en).
Definition enum_ok (a : DynAstProgram) (state : list Z) (ds : list Diagnostic) (en : DynAstEnum) : Prop :=
  let tag_size := simple_layout pb (en_tag_type en) false in
  let tag_align := simple_layout pb (en_tag_type en) true in
  alignment_ok (en_alignment en) /\ 1 <= en_size en <= address_limit pb
  /\ en_alignment en = Z.max tag_align (en_payload_alignment en) /\ alignment_ok (en_payload_alignment en)
  /\ en_size en = round_up (round_up tag_size (en_payload_alignment en) + en_payload_size en) (en_alignment en)
  /\ Forall (payload_ok a state ds (en_payload_size en) (en_payload_alignment en)) (variants_of a en).

(** ** Programs with layouts

    [sized a t h]: the type is complete; [h] counts the arrays and aliases
    around a declaration. *)
Inductive sized (a : DynAstProgram) : Z -> nat -> Prop :=
| sized_simple t h : simple t = true -> sized a t h
| sized_alias t x h : dyn_type_is_distinct t = true -> get_at (tab a ALIASES) (t - DYN_TYPE_DISTINCT_BASE) = Some x ->
    sized a (al_target x) h -> sized a t (S h)
| sized_struct t h : dyn_type_is_struct t = true -> t - DYN_TYPE_STRUCT_BASE < tcount a STRUCTS -> sized a t h
| sized_enum t h : dyn_type_is_enum t = true -> t - DYN_TYPE_ENUM_BASE < tcount a ENUMS -> sized a t h
| sized_array t x h : dyn_type_is_array t = true -> get_at (tab a ARRAYS) (t - DYN_TYPE_ARRAY_BASE) = Some x -> 0 < ar_length x ->
    sized a (ar_element x) h -> sized a t (S h).
Record layable (a : DynAstProgram) (depth : nat) : Prop := {
  la_fields : forall id st, get_at (tab a STRUCTS) id = Some st ->
    0 <= sr_field_start st /\ 0 <= sr_field_count st /\ sr_field_start st + sr_field_count st <= tcount a FIELDS;
  la_apart : forall i j x y, i <> j -> get_at (tab a STRUCTS) i = Some x -> get_at (tab a STRUCTS) j = Some y ->
    sr_field_start x + sr_field_count x <= sr_field_start y \/ sr_field_start y + sr_field_count y <= sr_field_start x
    \/ sr_field_count x = 0 \/ sr_field_count y = 0;
  la_field_types : Forall (fun f => sized a (fd_type f) depth) (tab a FIELDS);
  la_variants : forall id en, get_at (tab a ENUMS) id = Some en ->
    simple (en_tag_type en) = true /\ 0 <= en_variant_start en /\ 0 <= en_variant_count en
    /\ en_variant_start en + en_variant_count en <= tcount a VARIANTS;
  la_payloads : Forall (fun v => va_payload_type v = DYN_TYPE_VOID \/ sized a (va_payload_type v) depth) (tab a VARIANTS) }.

(** The rows of two programs agree but for what layouts write. *)
Record same_shape (a a' : DynAstProgram) : Prop := {
  sh_other : forall k, k ∉ [STRUCTS; ENUMS; FIELDS] -> tab a' k = tab a k;
  sh_structs : map (fun st => set_struct st 0 0) (tab a' STRUCTS) = map (fun st => set_struct st 0 0) (tab a STRUCTS);
  sh_enums : map (fun en => set_enum en 0 0 0 0) (tab a' ENUMS) = map (fun en => set_enum en 0 0 0 0) (tab a ENUMS);
  sh_fields : map (fun f => set_offset f 0) (tab a' FIELDS) = map (fun f => set_offset f 0) (tab a FIELDS) }.
End Spec.

(** ** Arithmetic *)
Lemma round_up_spec x al : 0 <= x -> 0 < al -> x <= round_up x al < x + al /\ (al | round_up x al).
Proof.
  intros Hx Hal. unfold round_up. pose proof (Z.div_mod (x + al - 1) al). pose proof (Z.mod_pos_bound (x + al - 1) al).
  split; [lia|]. apply Z.divide_factor_r.
Qed.
Lemma alignment_pos al : alignment_ok al -> 1 <= al <= 8.
Proof. intros [->|[->|[->| ->]]]; lia. Qed.
Lemma alignment_divides al al' : alignment_ok al -> alignment_ok al' -> al <= al' -> (al | al').
Proof.
  intros H H' Hle. destruct H as [->|[->|[->| ->]]], H' as [->|[->|[->| ->]]]; try lia;
    first [by exists 1|by exists 2|by exists 4|by exists 8].
Qed.
Lemma alignment_max al al' : alignment_ok al -> alignment_ok al' -> alignment_ok (Z.max al al').
Proof. intros H H'. destruct (Z.max_spec al al') as [[_ ->]|[_ ->]]; done. Qed.
Lemma simple_layout_pos pb t b : pb = 4 \/ pb = 8 -> 1 <= simple_layout pb t b /\ (b = true -> alignment_ok (simple_layout pb t b)).
Proof.
  intros Hpb. unfold simple_layout, scalar_size, alignment_ok. repeat (split_if; try (destruct b; lia)).
Qed.

(** ** Shapes *)
Lemma same_shape_refl a : same_shape a a.
Proof. by split. Qed.
Lemma same_shape_trans a b c : same_shape a b -> same_shape b c -> same_shape a c.
Proof. intros [O1 S1 E1 F1] [O2 S2 E2 F2]. split; [|congruence..]. intros k Hk. by rewrite O2, O1. Qed.
Lemma map_eq_get {A B} (f : A -> B) (l l' : list A) i x' : map f l' = map f l -> get_at l' i = Some x' -> exists x, get_at l i = Some x /\ f x' = f x.
Proof.
  intros E Hx. pose proof (get_at_map f _ _ _ Hx) as Hm. rewrite E in Hm. apply get_at_Some in Hm as [Hr Hm].
  rewrite length_map in Hr. destruct (get_at_is_Some l i Hr) as [x Hy]. exists x. split; [done|].
  apply get_at_Some in Hy as [_ Hy]. rewrite list_lookup_fmap, Hy in Hm. cbn in Hm. congruence.
Qed.
Lemma map_eq_length {A B} (f : A -> B) (l l' : list A) : map f l' = map f l -> length l' = length l.
Proof. intros E. by rewrite <- (length_map f l'), E, length_map. Qed.
Lemma shape_struct a a' id st' : same_shape a a' -> get_at (tab a' STRUCTS) id = Some st' ->
  exists st, get_at (tab a STRUCTS) id = Some st /\ sr_span st' = sr_span st /\ sr_packed st' = sr_packed st
    /\ sr_field_start st' = sr_field_start st /\ sr_field_count st' = sr_field_count st.
Proof. intros S Hg. destruct (map_eq_get _ _ _ _ _ (sh_structs _ _ S) Hg) as (st & Hst & E). exists st. by injection E. Qed.
Lemma shape_enum a a' id en' : same_shape a a' -> get_at (tab a' ENUMS) id = Some en' ->
  exists en, get_at (tab a ENUMS) id = Some en /\ en_name en' = en_name en /\ en_tag_type en' = en_tag_type en
    /\ en_variant_start en' = en_variant_start en /\ en_variant_count en' = en_variant_count en.
Proof. intros S Hg. destruct (map_eq_get _ _ _ _ _ (sh_enums _ _ S) Hg) as (en & Hen & E). exists en. by injection E. Qed.
Lemma shape_field a a' i f' : same_shape a a' -> get_at (tab a' FIELDS) i = Some f' ->
  exists f, get_at (tab a FIELDS) i = Some f /\ fd_type f' = fd_type f.
Proof. intros S Hg. destruct (map_eq_get _ _ _ _ _ (sh_fields _ _ S) Hg) as (f & Hf & E). exists f. by injection E. Qed.
Lemma shape_counts a a' : same_shape a a' ->
  tcount a' STRUCTS = tcount a STRUCTS /\ tcount a' ENUMS = tcount a ENUMS /\ tcount a' FIELDS = tcount a FIELDS.
Proof. intros [O S E F]. unfold tcount, zlen. split_and!; f_equal; by eapply map_eq_length. Qed.

Lemma map_set_at {A B} (f : A -> B) (l : list A) i x y : get_at l i = Some x -> f y = f x -> map f (<[Z.to_nat i := y]> l) = map f l.
Proof.
  intros [Hi Hx]%get_at_Some E. change (map f) with (fmap (M := list) f). rewrite list_fmap_insert, E. apply list_insert_id.
  by rewrite list_lookup_fmap, Hx.
Qed.
(** Writing what layouts write. *)
Lemma same_shape_write {H : Host} k i (x y : row k) (s s' : St) :
  get_at (tab (prog s) k) i = Some x -> write k i y s = Some (tt, s') ->
  match k return row k -> row k -> Prop with
  | STRUCTS => fun x y => set_struct y 0 0 = set_struct x 0 0
  | ENUMS => fun x y => set_enum y 0 0 0 0 = set_enum x 0 0 0 0
  | FIELDS => fun x y => set_offset y 0 = set_offset x 0
  | _ => fun _ _ => False
  end x y ->
  same_shape (prog s) (prog s').
Proof.
  intros Hx E Hs. pose proof Hx as [Hi _]%get_at_Some. unfold write in E. rewrite set_at_insert in E by done. simplify_eq. cbn [prog set_prog].
  destruct k; try done; (split;
    [intros k' Hk'; rewrite tab_set_other by set_solver; done
    |repeat (rewrite tab_set_same || rewrite tab_set_other by discriminate); try done; by eapply map_set_at..]).
Qed.

(** The kinds of types exclude each other. *)
Ltac kinds :=
  unfold simple, dyn_type_is_distinct, dyn_type_is_struct, dyn_type_is_enum, dyn_type_is_array in *; type_bases;
  repeat match goal with
  | h : negb _ = true |- _ => apply negb_true_iff in h
  | h : (_ || _) = false |- _ => apply orb_false_iff in h as [? ?]
  | h : (_ && _) = true |- _ => apply andb_true_iff in h as [? ?]
  | h : (_ && _) = false |- _ => apply andb_false_iff in h
  | h : (_ <=? _) = true |- _ => apply Z.leb_le in h
  | h : (_ <? _) = true |- _ => apply Z.ltb_lt in h
  end.
Lemma struct_kind t : dyn_type_is_struct t = true -> simple t = false /\ dyn_type_is_distinct t = false /\ dyn_type_is_enum t = false /\ dyn_type_is_array t = false.
Proof. intros Ht. kinds. split_and!; zb; done. Qed.
Lemma enum_kind t : dyn_type_is_enum t = true -> simple t = false /\ dyn_type_is_distinct t = false /\ dyn_type_is_struct t = false /\ dyn_type_is_array t = false.
Proof. intros Ht. kinds. split_and!; zb; done. Qed.
Lemma array_kind t : dyn_type_is_array t = true -> simple t = false /\ dyn_type_is_distinct t = false /\ dyn_type_is_struct t = false /\ dyn_type_is_enum t = false.
Proof. intros Ht. kinds. split_and!; zb; done. Qed.
Lemma distinct_kind t : dyn_type_is_distinct t = true -> simple t = false /\ dyn_type_is_array t = false /\ dyn_type_is_struct t = false /\ dyn_type_is_enum t = false.
Proof. intros Ht. kinds. split_and!; zb; done. Qed.
Lemma simple_kind t : simple t = true -> dyn_type_is_distinct t = false /\ dyn_type_is_struct t = false /\ dyn_type_is_enum t = false /\ dyn_type_is_array t = false.
Proof. unfold simple. intros Ht%negb_true_iff. rewrite !orb_false_iff in Ht. naive_solver. Qed.
Ltac kind_clash :=
  exfalso;
  try (match goal with h : dyn_type_is_struct ?t = true |- _ => pose proof (struct_kind t h) end);
  try (match goal with h : dyn_type_is_enum ?t = true |- _ => pose proof (enum_kind t h) end);
  try (match goal with h : dyn_type_is_array ?t = true |- _ => pose proof (array_kind t h) end);
  try (match goal with h : dyn_type_is_distinct ?t = true |- _ => pose proof (distinct_kind t h) end);
  destruct_and?; congruence.
Lemma laid_unique pb a state t size align size' align' :
  laid pb a state t size align -> laid pb a state t size' align' -> size = size' /\ align = align'.
Proof.
  intros Hl. revert size' align'. induction Hl as [t Ht|t x size align Ht Hx Hl IH|t st Ht Hst Hm|t en Ht Hen Hm|t x unit align Ht Hx Hl IH Hpos];
    intros size' align' Hl'; inversion Hl'; subst; try kind_clash; simplify_eq; try done.
  all: match goal with IH : forall _ _, laid _ _ _ _ _ _ -> _ |- _ => edestruct IH as [? ?]; [eassumption|]; by subst end.
Qed.
Lemma slice_at_cons {A} (l : list A) k x n : get_at l k = Some x -> slice_at l k (Z.of_nat (S n)) = x :: slice_at l (k + 1) (Z.of_nat n).
Proof.
  intros [Hk Hx]%get_at_Some. unfold slice_at. rewrite !Nat2Z.id, (drop_S l x (Z.to_nat k) Hx).
  by replace (Z.to_nat (k + 1)) with (S (Z.to_nat k)) by lia.
Qed.

(** ** Marks *)
Definition zeros (state : list Z) : nat := length (List.filter (Z.eqb 0) state).
Lemma zeros_mark state i m : get_at state i = Some 0 -> m <> 0 -> S (zeros (<[Z.to_nat i := m]> state)) = zeros state.
Proof.
  intros [_ Hi]%get_at_Some Hm. unfold zeros. revert Hi. generalize (Z.to_nat i). induction state as [|x l IH]; intros [|n] Hi; cbn in Hi; [done..| |].
  - injection Hi as ->. cbn. by destruct m.
  - specialize (IH n Hi). change (<[S n := ?y]> (x :: l)) with (x :: <[n := y]> l). cbn [List.filter]. destruct (0 =? x); cbn [length]; lia.
Qed.
Lemma zeros_remark state i m m' : get_at state i = Some m -> m <> 0 -> m' <> 0 -> zeros (<[Z.to_nat i := m']> state) = zeros state.
Proof.
  intros [_ Hi]%get_at_Some Hm Hm'. unfold zeros. revert Hi. generalize (Z.to_nat i). induction state as [|x l IH]; intros [|n] Hi; cbn in Hi; [done..| |].
  - injection Hi as ->. cbn. by destruct m, m'.
  - specialize (IH n Hi). change (<[S n := ?y]> (x :: l)) with (x :: <[n := y]> l). cbn [List.filter]. destruct (0 =? x); cbn [length]; lia.
Qed.

(** ** One step of the computation

    Declarations that were visited keep their mark, row and fields, but for
    the slot [except]; without a new diagnostic nothing is left under way. *)
Section Steps.
Context {H : Host} (pb : Z) (a0 : DynAstProgram) (depth : nat).
Context (Hpb : pb = 4 \/ pb = 8) (Hla : layable a0 depth).
Let n0 := tcount a0 STRUCTS.

Record step (except : Z) (s : St) (state : list Z) (s' : St) (state' : list Z) : Prop := {
  sp_shape : same_shape (prog s) (prog s');
  sp_length : length state' = length state;
  sp_marks : forall i m, get_at state i = Some m -> m <> 0 -> i <> except -> get_at state' i = Some m;
  sp_structs : forall id m, get_at state id = Some m -> m <> 0 -> id <> except ->
    get_at (tab (prog s') STRUCTS) id = get_at (tab (prog s) STRUCTS) id;
  sp_fields : forall id m st, get_at state id = Some m -> m <> 0 -> id <> except -> get_at (tab (prog s) STRUCTS) id = Some st ->
    fields_of (prog s') st = fields_of (prog s) st;
  sp_enums : forall id m, 0 <= id -> get_at state (n0 + id) = Some m -> m <> 0 -> n0 + id <> except ->
    get_at (tab (prog s') ENUMS) id = get_at (tab (prog s) ENUMS) id;
  sp_diags : exists more, diags s' = more ++ diags s;
  sp_quiet : diags s' = diags s -> forall i, i <> except -> get_at state' i = Some 1 -> get_at state i = Some 1;
  sp_zeros : (zeros state' <= zeros state)%nat }.

Lemma layout_step_refl except s state : step except s state s state.
Proof. split; try done. by exists []. Qed.
Lemma app_eq_self {A} (l l' : list A) : l ++ l' = l' -> l = [].
Proof. intros E. apply (app_inv_tail l' l []). done. Qed.
Lemma layout_step_trans ex s1 m1 s2 m2 s3 m3 : step ex s1 m1 s2 m2 -> step ex s2 m2 s3 m3 -> step ex s1 m1 s3 m3.
Proof.
  intros [S1 L1 M1 T1 F1 E1 [d1 D1] Q1 Z1] [S2 L2 M2 T2 F2 E2 [d2 D2] Q2 Z2]. split.
  - by eapply same_shape_trans.
  - congruence.
  - eauto.
  - intros id m Hm Hn He. rewrite (T2 id m), (T1 id m); eauto.
  - intros id m st Hm Hn He Hst. rewrite (F2 id m), (F1 id m); eauto. by rewrite (T1 id m).
  - intros id m H0 Hm Hn He. rewrite (E2 id m), (E1 id m); eauto.
  - exists (d2 ++ d1). by rewrite D2, D1, app_assoc.
  - rewrite D2, D1, app_assoc. intros E%app_eq_self%app_eq_nil. destruct E as [-> ->]. intros i He Hi. apply Q1; [by rewrite D1|done|].
    apply Q2; [by rewrite D2|done..].
  - lia.
Qed.
Lemma step_weaken ex s state s' state' : step (-1) s state s' state' -> step ex s state s' state'.
Proof.
  intros [S L M T F E D Q Z]. assert (forall i m, get_at state i = Some m -> i <> -1) as Hne.
  { intros i m Hm ->. apply get_at_range in Hm. lia. }
  split; try done; eauto.
  intros Hd i _ Hi. apply Q; [done| |done]. intros ->. apply get_at_range in Hi. lia.
Qed.
(** An unvisited slot needs no exception, unless it is left under way in silence. *)
Lemma step_leave i s state s' state' :
  step i s state s' state' -> get_at state i = Some 0 -> diags s' <> diags s \/ get_at state' i <> Some 1 -> step (-1) s state s' state'.
Proof.
  intros [S L M T F E D Q Z] Hi Hout. assert (forall j m, get_at state j = Some m -> m <> 0 -> j <> i) as Hne by (intros j m Hm Hm0 ->; congruence).
  split; try done; eauto. intros Hd j _ Hj. destruct Hout as [|Hout]; [done|]. apply Q; [done| |done]. intros ->. done.
Qed.
Lemma step_mark i s state m : get_at state i <> None -> m <> 0 -> step i s state s (<[Z.to_nat i := m]> state).
Proof.
  intros Hi Hm. destruct (get_at state i) as [m0|] eqn:Hm0; [|done]. pose proof (get_at_range _ _ _ Hm0).
  assert (forall j m1, get_at state j = Some m1 -> j <> i -> get_at (<[Z.to_nat i:=m]> state) j = Some m1) as Hother.
  { intros j m1 Hj Hne. pose proof (get_at_range _ _ _ Hj). by rewrite get_at_insert_ne by lia. }
  split; try done; eauto.
  - apply length_insert.
  - by exists [].
  - intros _ j Hne Hj. pose proof (get_at_range _ _ _ Hj). by rewrite get_at_insert_ne in Hj by lia.
  - destruct (Z.eq_dec m0 0) as [->|]; [pose proof (zeros_mark _ _ m Hm0 Hm); lia|]. by rewrite (zeros_remark _ _ _ m Hm0).
Qed.
Lemma step_error ex s state span message : exists s', error_span span message s = Some (tt, s') /\ step ex s state s' state
  /\ diags s' <> diags s /\ prog s' = prog s /\ diags s' = (span, message) :: diags s.
Proof.
  eexists. split; [reflexivity|]. split; [|by split; [intros E%(app_eq_self [_])|]]. split; try done. by exists [(span, message)].
Qed.

Lemma laid_step ex s state s' state' t size align :
  same_shape a0 (prog s) -> step ex s state s' state' -> get_at state ex <> Some 2 ->
  laid pb (prog s) state t size align -> laid pb (prog s') state' t size align.
Proof.
  intros Hsh [S L M T F E D Q Z] Hex Hl. assert (forall i, get_at state i = Some 2 -> i <> ex) as Hne by (intros i Hi ->; done).
  induction Hl as [t Ht|t x size align Ht Hx Hl IH|t st Ht Hst Hm|t en Ht Hen Hm|t x unit align Ht Hx Hl IH Hpos].
  - by apply laid_simple.
  - eapply laid_alias; [done| |done]. by rewrite (sh_other _ _ S) by set_solver.
  - eapply laid_struct; [done| |by apply M; auto]. rewrite (T _ 2); auto.
  - destruct (shape_counts _ _ S) as (C1 & _ & _). destruct (shape_counts _ _ Hsh) as (C0 & _ & _).
    eapply laid_enum; [done| |rewrite C1; by apply M; auto]. rewrite C0 in Hm. rewrite (E _ 2); auto. apply get_at_range in Hen. lia.
  - eapply laid_array; [done| |done..]. by rewrite (sh_other _ _ S) by set_solver.
Qed.
Lemma placed_step ex s state s' state' packed fs e m e' m' :
  same_shape a0 (prog s) -> step ex s state s' state' -> get_at state ex <> Some 2 ->
  placed pb (prog s) state packed fs e m e' m' -> placed pb (prog s') state' packed fs e m e' m'.
Proof. intros Hsh Hst Hex Hp. induction Hp; [constructor|]. econstructor; try done. by eapply laid_step. Qed.

(** ** The invariant *)
Record ok (s : St) (state : list Z) : Prop := {
  ok_shape : same_shape a0 (prog s);
  ok_marks : zlen state = tcount a0 STRUCTS + tcount a0 ENUMS;
  ok_range : Forall (fun m => 0 <= m <= 2) state;
  ok_structs : forall id st, get_at (tab (prog s) STRUCTS) id = Some st -> get_at state id = Some 2 -> struct_ok pb (prog s) state st;
  ok_enums : forall id en, get_at (tab (prog s) ENUMS) id = Some en -> get_at state (n0 + id) = Some 2 -> enum_ok pb (prog s) state (diags s) en }.

Lemma struct_kept ex s state s' state' id st :
  ok s state -> step ex s state s' state' -> get_at state ex <> Some 2 -> get_at state id = Some 2 ->
  get_at (tab (prog s') STRUCTS) id = Some st -> struct_ok pb (prog s') state' st.
Proof.
  intros Hok Hst Hex Hm Hst'. assert (id <> ex) by (by intros ->). pose proof Hst as [S L M T F E D Q Z]. rewrite (T id 2) in Hst' by done.
  destruct (ok_structs _ _ Hok id st Hst' Hm) as (H1 & H2 & H3). split; [done|]. split; [done|]. destruct (_ =? 0); [done|].
  destruct H3 as (e & Hp & He). exists e. split; [|done]. rewrite (F id 2) by done. eapply placed_step; [apply Hok|done..].
Qed.
Lemma payload_kept ex s state s' state' size align v :
  same_shape a0 (prog s) -> step ex s state s' state' -> get_at state ex <> Some 2 ->
  payload_ok pb (prog s) state (diags s) size align v -> payload_ok pb (prog s') state' (diags s') size align v.
Proof.
  intros Hsh Hst Hex. destruct (sp_diags _ _ _ _ _ Hst) as [more D]. intros [Hv|[(sz & al & Hl & ? & ?)|[msg Hin]]].
  - by left.
  - right; left. exists sz, al. split; [by eapply laid_step|done].
  - right; right. exists msg. rewrite D. set_solver.
Qed.
Lemma enum_kept ex s state s' state' id en :
  ok s state -> step ex s state s' state' -> get_at state ex <> Some 2 -> get_at state (n0 + id) = Some 2 ->
  get_at (tab (prog s') ENUMS) id = Some en -> enum_ok pb (prog s') state' (diags s') en.
Proof.
  intros Hok Hst Hex Hm Hen. assert (n0 + id <> ex) by (by intros <-). pose proof Hst as [S L M T F E D Q Z].
  rewrite (E id 2) in Hen; try done; [|apply get_at_range in Hen; lia].
  destruct (ok_enums _ _ Hok id en Hen Hm) as (H1 & H2 & H3 & H4 & H5 & H6). split_and!; try done; try lia.
  unfold variants_of in *. rewrite (sh_other _ _ S) by set_solver. eapply Forall_impl; [exact H6|].
  intros v Hv. eapply payload_kept; [apply Hok|done..].
Qed.
(** A step whose new marks are not "done". *)
Lemma ok_step ex s state s' state' :
  ok s state -> step ex s state s' state' -> get_at state ex <> Some 2 -> Forall (fun m => 0 <= m <= 2) state' ->
  (forall i, get_at state' i = Some 2 -> get_at state i = Some 2) -> ok s' state'.
Proof.
  intros Hok Hst Hex Hr Hnew. split.
  - eapply same_shape_trans; [apply Hok|apply Hst].
  - rewrite <- (ok_marks _ _ Hok). unfold zlen. by rewrite (sp_length _ _ _ _ _ Hst).
  - done.
  - intros id st Hg Hm. apply (struct_kept ex s state s' state' id); auto.
  - intros id en Hg Hm. apply (enum_kept ex s state s' state' id); auto.
Qed.

Lemma limit_large : 2 ^ 32 - 1 <= address_limit pb.
Proof. unfold address_limit. destruct Hpb as [->| ->]; cbn; unfold UINT32_MAX, UINT64_MAX; lia. Qed.
Lemma laid_pos s state t size align :
  ok s state -> laid pb (prog s) state t size align -> 1 <= size /\ alignment_ok align.
Proof.
  intros Hok Hl. induction Hl as [t Ht|t x size align Ht Hx Hl IH|t st Ht Hst Hm|t en Ht Hen Hm|t x unit align Ht Hx Hl IH Hpos].
  - pose proof (simple_layout_pos pb t false Hpb) as [H1 _]. pose proof (simple_layout_pos pb t true Hpb) as [_ H2]. by auto.
  - done.
  - destruct (ok_structs _ _ Hok _ _ Hst Hm) as (? & [? _] & _). done.
  - destruct (shape_counts _ _ (ok_shape _ _ Hok)) as (C & _). unfold n0 in *. rewrite C in Hm.
    destruct (ok_enums _ _ Hok _ _ Hen Hm) as (? & [? _] & _). done.
  - destruct IH as [? ?]. split; [|done]. nia.
Qed.

Definition gives (s' : St) (state' : list Z) (s : St) (t : Z) (alignment : bool) (r : Z) : Prop :=
  (r <> 0 /\ exists size align, laid pb (prog s') state' t size align /\ r = (if alignment then align else size) /\ (alignment = false -> size <= address_limit pb))
  \/ (r = 0 /\ simple t = false /\ diags s' <> diags s).
Definition lays (layout : Z -> bool -> list Z -> M (Z * list Z)) (bound : nat) : Prop :=
  forall t h alignment state s, ok s state -> sized a0 t h -> (h <= depth)%nat -> (zeros state * S depth + h < bound)%nat ->
  exists r state' s', layout t alignment state s = Some ((r, state'), s') /\ ok s' state' /\ step (-1) s state s' state'
    /\ gives s' state' s t alignment r.

(** Writing the offset of a field of the struct under way. *)
Lemma write_offset id st i f s state offset :
  ok s state -> get_at state id = Some 1 -> get_at (tab (prog s) STRUCTS) id = Some st -> 0 <= i < sr_field_count st ->
  get_at (tab (prog s) FIELDS) (sr_field_start st + i) = Some f ->
  exists s', write FIELDS (sr_field_start st + i) (set_offset f offset) s = Some (tt, s') /\ ok s' state /\ step id s state s' state
    /\ diags s' = diags s /\ tab (prog s') STRUCTS = tab (prog s) STRUCTS /\ tab (prog s') FIELDS = <[Z.to_nat (sr_field_start st + i) := set_offset f offset]> (tab (prog s) FIELDS).
Proof.
  intros Hok Hm Hst Hi Hf. pose proof Hf as [Hr _]%get_at_Some.
  destruct (write FIELDS (sr_field_start st + i) (set_offset f offset) s) as [[[] s']|] eqn:E; [|by unfold write in E; rewrite set_at_insert in E].
  pose proof (same_shape_write FIELDS _ f _ s s' Hf E eq_refl) as Hsh. unfold write in E. rewrite set_at_insert in E by done. simplify_eq.
  cbn [prog set_prog] in *. exists (set_prog (set_table FIELDS (mkTable (<[Z.to_nat (sr_field_start st + i):=set_offset f offset]> (tab (prog s) FIELDS)) (room (tables (prog s) FIELDS))) (prog s)) s).
  assert (step id s state (set_prog (set_table FIELDS (mkTable (<[Z.to_nat (sr_field_start st + i):=set_offset f offset]> (tab (prog s) FIELDS)) (room (tables (prog s) FIELDS))) (prog s)) s) state) as Hstep.
  { split; cbn [prog set_prog diags]; try done.
    - intros id' m st' Hm' _ Hne Hst'. unfold fields_of. rewrite tab_set_same. cbn [rows].
      destruct (shape_struct _ _ _ _ (ok_shape _ _ Hok) Hst') as (x & Hx & _ & _ & Es & Ec).
      destruct (shape_struct _ _ _ _ (ok_shape _ _ Hok) Hst) as (y & Hy & _ & _ & Es' & Ec').
      pose proof (la_fields _ _ Hla _ _ Hx). pose proof (la_apart _ _ Hla _ _ _ _ Hne Hx Hy). unfold slice_at.
      apply list_eq. intros j. destruct (decide (j < Z.to_nat (sr_field_count st'))%nat).
      + rewrite !lookup_take_lt, !lookup_drop, list_lookup_insert_ne by lia. done.
      + rewrite !lookup_take_ge by lia. done.
    - by exists []. }
  split; [done|]. split; [|split; [done|split; [done|split]]].
  - apply (ok_step id s state); try done; [congruence|apply Hok].
  - done.
  - cbn [prog set_prog]. by rewrite tab_set_same.
Qed.

Lemma grew ex ex' s1 m1 s2 m2 s3 m3 : step ex s1 m1 s2 m2 -> step ex' s2 m2 s3 m3 ->
  diags s2 <> diags s1 \/ diags s3 <> diags s2 -> diags s3 <> diags s1.
Proof.
  intros A B Hor E. destruct (sp_diags _ _ _ _ _ A) as [d1 D1], (sp_diags _ _ _ _ _ B) as [d2 D2].
  rewrite D2, D1, app_assoc in E. apply app_eq_self, app_eq_nil in E as [-> ->]. cbn in *. destruct Hor; congruence.
Qed.
(** The two queries of one field. *)
Lemma query_field (layout : Z -> bool -> list Z -> M (Z * list Z)) bound (packed : bool) t (state : list Z) (s : St) :
  lays layout bound -> ok s state -> sized a0 t depth -> (zeros state * S depth + depth < bound)%nat ->
  exists align state1 s1 size state' s',
    (if packed then mret (1, state) else layout t true state) s = Some ((align, state1), s1)
    /\ layout t false state1 s1 = Some ((size, state'), s') /\ ok s' state' /\ step (-1) s state s' state'
    /\ ((align = 0 \/ size = 0) /\ diags s' <> diags s
        \/ align <> 0 /\ size <> 0 /\ size <= address_limit pb /\ exists al, laid pb (prog s') state' t size al /\ align = if packed then 1 else al).
Proof.
  intros Hl Hok Ht Hb.
  assert (exists align state1 s1, (if packed then mret (1, state) else layout t true state) s = Some ((align, state1), s1)
    /\ ok s1 state1 /\ step (-1) s state s1 state1
    /\ (if packed then align = 1 else gives s1 state1 s t true align)) as (align & state1 & s1 & E1 & Hok1 & Hs1 & Hg1).
  { destruct packed; [|by apply (Hl t depth true)]. exists 1, state, s. split; [done|]. split; [done|]. split; [apply layout_step_refl|done]. }
  destruct (Hl t depth false state1 s1) as (size & state2 & s2 & E2 & Hok2 & Hs2 & Hg2); try done.
  { pose proof (sp_zeros _ _ _ _ _ Hs1). nia. }
  exists align, state1, s1, size, state2, s2. split; [done|]. split; [done|]. split; [done|]. split; [by eapply layout_step_trans|].
  destruct Hg2 as [[Hn2 (sz & al & Hl2 & -> & Hle2)]|(-> & _ & Hd2)].
  2: { left. split; [by right|]. eapply grew; eauto. }
  destruct packed; [subst align; right; split; [done|]; split; [done|]; split; [by apply Hle2|]; by exists al|].
  destruct Hg1 as [[Hn1 (sz' & al' & Hl1 & -> & _)]|(-> & _ & Hd1)].
  - right. split; [done|]. split; [done|]. split; [by apply Hle2|]. exists al. split; [done|].
    eapply laid_step in Hl1; [|apply Hok1|exact Hs2|done]. by destruct (laid_unique _ _ _ _ _ _ _ _ Hl1 Hl2) as [_ ->].
  - left. split; [by left|]. eapply grew; eauto.
Qed.

Definition fields_result (st : DynAstStruct) (s s' : St) (state' : list Z) (i n size m : Z) (p : Placed) : Prop :=
  match p with
  | PLACE_FAILED => diags s' <> diags s
  | PLACE_OVERSIZED => True
  | PLACE_DONE e m' =>
      placed pb (prog s') state' (sr_packed st) (slice_at (tab (prog s') FIELDS) (sr_field_start st + i) n) size m e m'
      /\ size <= e <= address_limit pb /\ (n <> 0 -> 1 <= e) /\ alignment_ok m'
  end.
Lemma field_row s state id st i :
  ok s state -> get_at (tab (prog s) STRUCTS) id = Some st -> 0 <= i < sr_field_count st ->
  exists f, get_at (tab (prog s) FIELDS) (sr_field_start st + i) = Some f /\ sized a0 (fd_type f) depth.
Proof.
  intros Hok Hst Hi. destruct (shape_struct _ _ _ _ (ok_shape _ _ Hok) Hst) as (x & Hx & _ & _ & Es & Ec).
  destruct (la_fields _ _ Hla _ _ Hx) as (? & ? & ?). destruct (shape_counts _ _ (ok_shape _ _ Hok)) as (_ & _ & C).
  destruct (get_at_is_Some (tab (prog s) FIELDS) (sr_field_start st + i)) as [f Hf]; [unfold tcount, zlen in *; lia|].
  exists f. split; [done|]. destruct (shape_field _ _ _ _ (ok_shape _ _ Hok) Hf) as (f0 & Hf0 & ->).
  pose proof (la_field_types _ _ Hla) as Hall. rewrite Forall_forall in Hall. apply Hall. by eapply get_at_elem.
Qed.
Lemma step_field ex s state s' state' id st i f :
  step ex s state s' state' -> get_at state id = Some 1 -> id <> ex -> get_at (tab (prog s) STRUCTS) id = Some st ->
  0 <= sr_field_start st -> 0 <= i < sr_field_count st ->
  get_at (tab (prog s) FIELDS) (sr_field_start st + i) = Some f -> get_at (tab (prog s') FIELDS) (sr_field_start st + i) = Some f.
Proof.
  intros Hs Hm Hne Hst H0 Hi Hf. apply (slice_at_get _ _ (sr_field_count st)); [done|]. fold (fields_of (prog s') st). rewrite (sp_fields _ _ _ _ _ Hs id 1 st) by done.
  apply get_at_Some in Hf as [Hr Hf]. unfold fields_of. apply get_at_Some. unfold slice_at. rewrite length_take, length_drop. split; [lia|].
  rewrite lookup_take_lt, lookup_drop by lia. by replace (Z.to_nat (sr_field_start st) + Z.to_nat i)%nat with (Z.to_nat (sr_field_start st + i)) by lia.
Qed.

Lemma layout_fields_ok layout bound id : lays layout bound -> forall n i size m state s st,
  ok s state -> get_at state id = Some 1 -> get_at (tab (prog s) STRUCTS) id = Some st -> 0 <= i -> i + Z.of_nat n = sr_field_count st ->
  0 <= size <= address_limit pb -> alignment_ok m -> (zeros state * S depth + depth < bound)%nat ->
  exists p state' s', layout_fields pb layout st n i size m state s = Some ((p, state'), s') /\ ok s' state' /\ step id s state s' state'
    /\ get_at state' id = Some 1 /\ get_at (tab (prog s') STRUCTS) id = Some st
    /\ (forall j f, 0 <= j < i -> get_at (tab (prog s) FIELDS) (sr_field_start st + j) = Some f ->
          get_at (tab (prog s') FIELDS) (sr_field_start st + j) = Some f)
    /\ fields_result st s s' state' i (Z.of_nat n) size m p.
Proof.
  intros Hl. induction n as [|n IH]; intros i size m state s st Hok Hm Hst Hi Hn Hsz Hal Hb; cbn [layout_fields].
  { exists (PLACE_DONE size m), state, s. split; [done|]. split; [done|]. split; [apply layout_step_refl|]. do 3 (split; [done|]).
    split; [constructor|]. split; [lia|]. done. }
  destruct (field_row s state id st i Hok Hst) as (f & Hf & Ht); [lia|]. unfold mbind at 1, read. rewrite Hf.
  destruct (query_field layout bound (sr_packed st) (fd_type f) state s Hl Hok Ht Hb)
    as (align & state1 & s1 & fsize & state2 & s2 & E1 & E2 & Hok2 & Hs2 & Hcase).
  unfold mbind at 1. rewrite E1. unfold mbind at 1. rewrite E2.
  assert (id <> -1) as Hid by (apply get_at_range in Hm; lia).
  assert (get_at state2 id = Some 1) as Hm2 by (by apply (sp_marks _ _ _ _ _ Hs2)).
  assert (get_at (tab (prog s2) STRUCTS) id = Some st) as Hst2 by (by rewrite (sp_structs _ _ _ _ _ Hs2 id 1)).
  destruct (shape_struct _ _ _ _ (ok_shape _ _ Hok) Hst) as (x0 & Hx0 & _ & _ & Es0 & Ec0). pose proof (la_fields _ _ Hla _ _ Hx0) as Hrange.
  assert (forall j g, 0 <= j < sr_field_count st -> get_at (tab (prog s) FIELDS) (sr_field_start st + j) = Some g ->
            get_at (tab (prog s2) FIELDS) (sr_field_start st + j) = Some g) as Hkeep by (intros; eapply step_field; eauto; lia).
  destruct Hcase as [[Hz Hd]|(Hna & Hns & Hfle & al & Hlaid & ->)].
  { replace ((align =? 0) || (fsize =? 0)) with true by (destruct Hz as [->| ->]; rewrite ?orb_true_r; done).
    exists PLACE_FAILED, state2, s2. split; [done|]. split; [done|]. split; [by apply step_weaken|]. do 2 (split; [done|]). split; [|done]. intros j g Hj. apply Hkeep. lia. }
  set (align := if sr_packed st then 1 else al) in *. destruct (laid_pos _ _ _ _ _ Hok2 Hlaid) as [Hfs Hala].
  assert (alignment_ok align) as Halign by (subst align; destruct (sr_packed st); [by left|done]). pose proof (alignment_pos _ Halign).
  rewrite (proj2 (Z.eqb_neq align 0)), (proj2 (Z.eqb_neq fsize 0)) by lia. cbn [orb].
  replace (if m <? align then align else m) with (Z.max m align) by (destruct (Z.ltb_spec m align); lia).
  destruct (Z.ltb_spec (address_limit pb - (align - 1)) size) as [|Hfit].
  { exists PLACE_OVERSIZED, state2, s2. split; [done|]. split; [done|]. split; [by apply step_weaken|]. do 2 (split; [done|]). split; [|done]. intros j g Hj. apply Hkeep. lia. }
  destruct (round_up_spec size align) as [Hup _]; [lia..|].
  destruct (write_offset id st i f s2 state2 (round_up size align)) as (s3 & E3 & Hok3 & Hs3 & Hd3 & Ht3 & Hf3); try done; [lia|by apply Hkeep; [lia|]|].
  unfold mbind at 1. rewrite E3.
  assert (get_at (tab (prog s3) FIELDS) (sr_field_start st + i) = Some (set_offset f (round_up size align))) as Hf3i.
  { rewrite Hf3. apply get_at_insert_eq. apply Hkeep in Hf; [|lia]. by apply get_at_Some in Hf as [? _]. }
  assert (forall j g, 0 <= j < i -> get_at (tab (prog s) FIELDS) (sr_field_start st + j) = Some g ->
            get_at (tab (prog s3) FIELDS) (sr_field_start st + j) = Some g) as Hkeep3.
  { intros j g Hj Hg. rewrite Hf3, get_at_insert_ne by lia. apply Hkeep; [lia|done]. }
  pose proof (layout_step_trans id _ _ _ _ _ _ (step_weaken id _ _ _ _ Hs2) Hs3) as Hs13.
  destruct (Z.ltb_spec (address_limit pb - round_up size align) fsize) as [|Hfit2].
  { exists PLACE_OVERSIZED, state2, s3. split_and!; try done. by rewrite Ht3. }
  destruct (IH (i + 1) (round_up size align + fsize) (Z.max m align) state2 s3 st) as (p & state4 & s4 & E4 & Hok4 & Hs4 & Hm4 & Hst4 & Hk4 & Hr4); try done; try lia.
  { by rewrite Ht3. }
  { by apply alignment_max. }
  { pose proof (sp_zeros _ _ _ _ _ Hs2). nia. }
  exists p, state4, s4. split; [done|]. split; [done|]. split; [by eapply layout_step_trans|]. do 2 (split; [done|]). split; [intros j g Hj Hg; apply Hk4; [lia|by apply Hkeep3]|].
  destruct p as [| |e m']; cbn [fields_result] in *; [|done|].
  - intros E. apply Hr4. pose proof (sp_diags _ _ _ _ _ Hs13) as [d1 D1]. pose proof (sp_diags _ _ _ _ _ Hs4) as [d2 D2].
    rewrite D2, D1, app_assoc in E. apply app_eq_self, app_eq_nil in E as [-> ->]. by rewrite D2.
  - destruct Hr4 as (Hp & He & Hpos & Hm'). split; [|split_and!; try done; lia].
    rewrite (slice_at_cons _ _ (set_offset f (round_up size align))) by (apply Hk4; [lia|done]).
    apply (placed_cons pb _ _ _ _ _ _ _ fsize al); cbn [set_offset fd_type fd_offset]; fold align.
    + eapply laid_step; [apply Hok3|exact Hs4|congruence|]. eapply laid_step; [apply Hok2|exact Hs3|congruence|done].
    + done.
    + lia.
    + by replace (sr_field_start st + i + 1) with (sr_field_start st + (i + 1)) by lia.
Qed.

(** ** Finishing a declaration *)
Lemma range_insert state i m : Forall (fun m => 0 <= m <= 2) state -> 0 <= m <= 2 -> Forall (fun m => 0 <= m <= 2) (<[i := m]> state).
Proof. intros Hr Hm. by apply Forall_insert. Qed.
Lemma marked_get (state : list Z) i m j x : get_at state i <> None -> get_at (<[Z.to_nat i := m]> state) j = Some x -> (j = i /\ x = m) \/ (j <> i /\ get_at state j = Some x).
Proof.
  intros Hi Hj. destruct (get_at state i) as [m0|] eqn:Hm0; [|done]. pose proof (get_at_range _ _ _ Hm0). pose proof (get_at_range _ _ _ Hj).
  destruct (Z.eq_dec j i) as [->|]; [left|right].
  - rewrite get_at_insert_eq in Hj by (unfold zlen in *; lia). by simplify_eq.
  - by rewrite get_at_insert_ne in Hj by lia.
Qed.
Lemma write_row_step k i (x y : row k) slot s state :
  ok s state -> get_at (tab (prog s) k) i = Some x -> k = STRUCTS /\ slot = i \/ k = ENUMS /\ slot = n0 + i ->
  match k return row k -> row k -> Prop with
  | STRUCTS => fun x y => set_struct y 0 0 = set_struct x 0 0
  | ENUMS => fun x y => set_enum y 0 0 0 0 = set_enum x 0 0 0 0
  | _ => fun _ _ => False
  end x y ->
  exists s', write k i y s = Some (tt, s') /\ step slot s state s' state /\ diags s' = diags s /\ get_at (tab (prog s') k) i = Some y
    /\ tab (prog s') FIELDS = tab (prog s) FIELDS.
Proof.
  intros Hok Hx Hk Hs. pose proof Hx as [Hr _]%get_at_Some.
  destruct (write k i y s) as [[[] s']|] eqn:E; [|by unfold write in E; rewrite set_at_insert in E]. exists s'. split; [done|].
  assert (same_shape (prog s) (prog s')) as Hsh by (eapply same_shape_write; [done..|]; by destruct Hk as [[-> _]|[-> _]]).
  unfold write in E. rewrite set_at_insert in E by done. simplify_eq. cbn [prog set_prog diags] in *.
  assert (forall k', k <> k' -> tab (set_table k (mkTable (<[Z.to_nat i:=y]> (tab (prog s) k)) (room (tables (prog s) k))) (prog s)) k' = tab (prog s) k') as Ho
    by (intros; by rewrite tab_set_other).
  assert (forall j, j <> i -> 0 <= j -> get_at (tab (set_table k (mkTable (<[Z.to_nat i:=y]> (tab (prog s) k)) (room (tables (prog s) k))) (prog s)) k) j = get_at (tab (prog s) k) j) as Hj
    by (intros; rewrite tab_set_same; cbn [rows]; by rewrite get_at_insert_ne by lia).
  split; [split; cbn [prog set_prog diags]; try done|split; [done|split]].
  - intros id m Hm _ Hne. pose proof (get_at_range _ _ _ Hm). destruct Hk as [[-> ->]|[-> _]]; [by apply Hj; [|lia]|by rewrite Ho].
  - intros id m st Hm _ Hne Hst. unfold fields_of. rewrite Ho; [done|]. by destruct Hk as [[-> _]|[-> _]].
  - intros id m H0 Hm _ Hne. destruct Hk as [[-> _]|[-> ->]]; [by rewrite Ho|apply Hj; [lia|done]].
  - by exists [].
  - rewrite tab_set_same. cbn [rows]. by apply get_at_insert_eq.
  - apply Ho. by destruct Hk as [[-> _]|[-> _]].
Qed.
Lemma finish_struct id st size al s state :
  ok s state -> get_at state id = Some 1 -> get_at (tab (prog s) STRUCTS) id = Some st ->
  struct_ok pb (prog s) state (set_struct st size al) ->
  exists s', write STRUCTS id (set_struct st size al) s = Some (tt, s') /\ ok s' (<[Z.to_nat id := 2]> state)
    /\ step id s state s' (<[Z.to_nat id := 2]> state).
Proof.
  intros Hok Hm Hst Hso. destruct (write_row_step STRUCTS id st (set_struct st size al) id s state) as (s' & E & Hw & Hd & Hg & Hf); try done; [by left|].
  exists s'. split; [done|]. assert (get_at state id <> None) as Hin by congruence.
  assert (step id s state s' (<[Z.to_nat id := 2]> state)) as Hs by (eapply layout_step_trans; [exact Hw|by apply step_mark]).
  split; [|done]. assert (get_at state id <> Some 2) as Hex by congruence. split.
  - eapply same_shape_trans; [apply Hok|apply Hs].
  - rewrite <- (ok_marks _ _ Hok). unfold zlen. by rewrite length_insert.
  - apply range_insert; [apply Hok|lia].
  - intros id' st' Hst' Hm'. destruct (marked_get _ _ _ _ _ Hin Hm') as [[-> _]|[Hne Hm2]]; [|by eapply struct_kept].
    rewrite Hg in Hst'. simplify_eq. destruct Hso as (H1 & H2 & H3). split; [done|]. split; [done|].
    cbn [set_struct sr_field_count sr_packed sr_alignment sr_size] in *. destruct (_ =? 0); [done|]. destruct H3 as (e & Hp & He). exists e. split; [|done].
    unfold fields_of in *. rewrite Hf. by eapply placed_step; [apply Hok|..].
  - intros id' en Hen Hm'. destruct (marked_get _ _ _ _ _ Hin Hm') as [[E2 _]|[Hne Hm2]]; [|by eapply enum_kept].
    apply get_at_range in Hst. apply get_at_range in Hen. destruct (shape_counts _ _ (ok_shape _ _ Hok)) as (C & _). unfold n0, tcount in *. lia.
Qed.

Definition finishes (one : Z -> list Z -> M (bool * list Z)) (slot id : Z) (bound : nat) : Prop :=
  forall state s, ok s state -> (zeros state * S depth <= bound)%nat ->
  exists b state' s', one id state s = Some ((b, state'), s') /\ ok s' state' /\ step (-1) s state s' state'
    /\ (if b : bool then get_at state' slot = Some 2 else diags s' <> diags s) /\ get_at state' slot <> Some 0.
(** Entering an unvisited declaration. *)
Lemma enter_slot i state s : ok s state -> get_at state i = Some 0 ->
  ok s (<[Z.to_nat i := 1]> state) /\ step i s state s (<[Z.to_nat i := 1]> state) /\ S (zeros (<[Z.to_nat i := 1]> state)) = zeros state
  /\ get_at (<[Z.to_nat i := 1]> state) i = Some 1 /\ set_at state i 1 = Some (<[Z.to_nat i := 1]> state).
Proof.
  intros Hok Hi. pose proof (get_at_range _ _ _ Hi) as Hr. assert (get_at state i <> None) as Hin by congruence.
  assert (step i s state s (<[Z.to_nat i := 1]> state)) as Hs by (by apply step_mark). split_and!.
  - apply (ok_step i s state); try done; [congruence|apply range_insert; [apply Hok|lia]|].
    intros j Hj. destruct (marked_get _ _ _ _ _ Hin Hj) as [[_ ?]|[_ ?]]; done.
  - done.
  - by apply zeros_mark.
  - apply get_at_insert_eq. done.
  - by apply set_at_insert.
Qed.

Lemma mark_cases s state i : ok s state -> 0 <= i < zlen state -> exists m, get_at state i = Some m /\ (m = 0 \/ m = 1 \/ m = 2).
Proof.
  intros Hok Hi. destruct (get_at_is_Some state i Hi) as [m Hm]. exists m. split; [done|].
  pose proof (ok_range _ _ Hok) as Hr. rewrite Forall_forall in Hr. pose proof (Hr m (get_at_elem _ _ _ Hm)). lia.
Qed.
(** Ending with an error, and ending with a layout. *)
Lemma leave_error i s0 state0 s state span message :
  get_at state0 i = Some 0 -> step i s0 state0 s state -> ok s state -> get_at state i = Some 1 ->
  exists b state' s', (error_span span message ;; mret (false, state)) s = Some ((b, state'), s') /\ ok s' state' /\ step (-1) s0 state0 s' state'
    /\ (if b : bool then get_at state' i = Some 2 else diags s' <> diags s0) /\ get_at state' i <> Some 0.
Proof.
  intros H0 Hs Hok Hm. destruct (step_error i s state span message) as (s' & E & Hs' & Hd & Hp & _).
  exists false, state, s'. unfold mbind. rewrite E. pose proof (layout_step_trans _ _ _ _ _ _ _ Hs Hs') as Hss.
  assert (diags s' <> diags s0) as Hd0 by (apply (grew _ _ _ _ _ _ _ _ Hs Hs'); by right). split_and!; try done; try congruence.
  - apply (ok_step i s state); try done; [congruence|apply Hok].
  - apply (step_leave i); auto.
Qed.
(** A declaration that is under way. *)
Lemma report_again i s state span message : ok s state -> get_at state i = Some 1 ->
  exists b state' s', (error_span span message ;; mret (false, state)) s = Some ((b, state'), s') /\ ok s' state' /\ step (-1) s state s' state'
    /\ (if b : bool then get_at state' i = Some 2 else diags s' <> diags s) /\ get_at state' i <> Some 0.
Proof.
  intros Hok Hm. destruct (step_error (-1) s state span message) as (s' & E & Hs' & Hd & _). exists false, state, s'.
  unfold mbind. rewrite E. split_and!; try done; [|congruence]. apply (ok_step (-1) s state); try done. apply Hok.
Qed.
Lemma layout_struct_ok layout bound id : lays layout bound -> 0 <= id < n0 -> finishes (layout_struct pb layout) id id bound.
Proof.
  intros Hl Hid state s Hok Hb. unfold layout_struct. destruct (shape_counts _ _ (ok_shape _ _ Hok)) as (C & _).
  destruct (mark_cases s state id Hok) as (m & Hm & Hcase); [rewrite (ok_marks _ _ Hok); unfold n0, tcount, zlen in *; lia|].
  destruct (get_at_is_Some (tab (prog s) STRUCTS) id) as [st Hst]; [unfold n0, tcount, zlen in *; lia|].
  unfold mbind at 1, lift at 1. rewrite Hm. unfold mbind at 1, read at 1. rewrite Hst. destruct Hcase as [->|[->| ->]]; cbn [Z.eqb].
  - destruct (enter_slot id state s Hok Hm) as (Hok1 & Hs1 & Hz1 & Hm1 & Hset). unfold mbind at 1, lift at 1. rewrite Hset.
    set (state1 := <[Z.to_nat id := 1]> state) in *.
    assert (forall s2 state2 size al, ok s2 state2 -> step id s state s2 state2 -> get_at state2 id = Some 1 -> get_at (tab (prog s2) STRUCTS) id = Some st ->
      struct_ok pb (prog s2) state2 (set_struct st size al) ->
      exists b state' s', (write STRUCTS id (set_struct st size al) ;; let! state := lift (set_at state2 id 2) in mret (true, state)) s2 = Some ((b, state'), s')
        /\ ok s' state' /\ step (-1) s state s' state' /\ (if b : bool then get_at state' id = Some 2 else diags s' <> diags s) /\ get_at state' id <> Some 0) as Hfin.
    { intros s2 state2 size al Hok2 Hs2 Hm2 Hst2 Hso. pose proof (get_at_range _ _ _ Hm2).
      destruct (finish_struct id st size al s2 state2 Hok2 Hm2 Hst2 Hso) as (s3 & E3 & Hok3 & Hs3). exists true, (<[Z.to_nat id := 2]> state2), s3.
      unfold mbind at 1. rewrite E3. unfold mbind, lift. rewrite set_at_insert by done.
      assert (get_at (<[Z.to_nat id := 2]> state2) id = Some 2) as E2 by (by apply get_at_insert_eq). split_and!; try done; [|congruence].
      apply (step_leave id); [by eapply layout_step_trans|done|right; congruence]. }
    destruct (Z.eqb_spec (sr_field_count st) 0) as [E0|Hn0].
    + apply Hfin; try done. split; [by left|]. cbn. pose proof limit_large. rewrite E0. cbn. split; [lia|done].
    + destruct (shape_struct _ _ _ _ (ok_shape _ _ Hok) Hst) as (x0 & Hx0 & _ & _ & Es0 & Ec0). pose proof (la_fields _ _ Hla _ _ Hx0) as Hrange.
      pose proof limit_large as Hlim.
      destruct (layout_fields_ok layout bound id Hl (Z.to_nat (sr_field_count st)) 0 0 1 state1 s st) as (p & state2 & s2 & E2 & Hok2 & Hs2 & Hm2 & Hst2 & _ & Hr);
        try done; try lia; [by left|].
      unfold mbind at 1. rewrite E2. pose proof (layout_step_trans _ _ _ _ _ _ _ Hs1 Hs2) as Hs12. rewrite Z2Nat.id in Hr by lia.
      destruct p as [| |e m']; cbn [fields_result] in Hr.
      * exists false, state2, s2. split_and!; try done; [|congruence]. apply (step_leave id); auto.
      * by apply leave_error.
      * destruct Hr as (Hp & He & Hpos & Hal). specialize (Hpos Hn0). destruct (Z.ltb_spec (address_limit pb - (m' - 1)) e) as [|Hfit]; [by apply leave_error|].
        pose proof (alignment_pos _ Hal). destruct (round_up_spec e m') as [Hup _]; [lia..|]. apply Hfin; try done. split; [done|]. cbn [set_struct sr_field_count sr_packed sr_size sr_alignment].
        split; [lia|]. rewrite (proj2 (Z.eqb_neq _ 0) Hn0). exists e. split; [|done]. unfold fields_of. cbn [set_struct sr_field_start sr_field_count]. rewrite Z.add_0_r in Hp. done.
  - by apply report_again.
  - exists true, state, s. split_and!; try done; [apply layout_step_refl|congruence].
Qed.

(** ** Enums *)
Lemma payload_larger s state size align size' align' v : size <= size' -> align <= align' ->
  payload_ok pb (prog s) state (diags s) size align v -> payload_ok pb (prog s) state (diags s) size' align' v.
Proof. intros H1 H2 [?|[(sz & al & ? & ? & ?)|?]]; [by left|right; left; exists sz, al; split_and!; [done|lia..]|by right; right]. Qed.
Lemma ok_quiet_step s state s' : ok s state -> step (-1) s state s' state -> ok s' state.
Proof. intros Hok Hs. apply (ok_step (-1) s state); try done. apply Hok. Qed.
Lemma layout_variants_ok layout bound en : lays layout bound -> forall n j size align state s,
  ok s state -> 0 <= j -> 0 <= en_variant_start en -> en_variant_start en + j + Z.of_nat n <= tcount a0 VARIANTS ->
  0 <= size <= address_limit pb -> alignment_ok align -> (zeros state * S depth + depth < bound)%nat ->
  exists size' align' state' s', layout_variants layout en n j size align state s = Some ((size', align', state'), s')
    /\ ok s' state' /\ step (-1) s state s' state' /\ size <= size' <= address_limit pb /\ align <= align' /\ alignment_ok align'
    /\ Forall (payload_ok pb (prog s') state' (diags s') size' align') (slice_at (tab (prog s') VARIANTS) (en_variant_start en + j) (Z.of_nat n)).
Proof.
  intros Hl. induction n as [|n IH]; intros j size align state s Hok Hj H0 Hn Hsz Hal Hb; cbn [layout_variants].
  { exists size, align, state, s. split_and!; try done; try lia. apply layout_step_refl. }
  destruct (get_at_is_Some (tab (prog s) VARIANTS) (en_variant_start en + j)) as [v Hv].
  { rewrite (sh_other _ _ (ok_shape _ _ Hok)) by set_solver. unfold tcount, zlen in *. lia. }
  unfold mbind at 1, read. rewrite Hv.
  (* what is left to do once the payload has been looked at *)
  assert (forall size1 align1 state1 s1, ok s1 state1 -> step (-1) s state s1 state1 -> size <= size1 <= address_limit pb -> align <= align1 ->
    alignment_ok align1 -> payload_ok pb (prog s1) state1 (diags s1) size1 align1 v ->
    exists size' align' state' s', layout_variants layout en n (j + 1) size1 align1 state1 s1 = Some ((size', align', state'), s')
      /\ ok s' state' /\ step (-1) s state s' state' /\ size <= size' <= address_limit pb /\ align <= align' /\ alignment_ok align'
      /\ Forall (payload_ok pb (prog s') state' (diags s') size' align') (slice_at (tab (prog s') VARIANTS) (en_variant_start en + j) (Z.of_nat (S n)))) as Hnext.
  { intros size1 align1 state1 s1 Hok1 Hs1 Hsz1 Hal1 Hala Hp. pose proof (sp_zeros _ _ _ _ _ Hs1).
    destruct (IH (j + 1) size1 align1 state1 s1) as (size' & align' & state' & s' & E & Hok' & Hs' & Hsz' & Hal' & Hala' & Hall); try done; try lia; [nia|].
    exists size', align', state', s'. split_and!; try done; try lia; [by eapply layout_step_trans|].
    assert (get_at (tab (prog s') VARIANTS) (en_variant_start en + j) = Some v) as Hv'.
    { rewrite (sh_other _ _ (ok_shape _ _ Hok')), <- (sh_other _ _ (ok_shape _ _ Hok)) by set_solver. done. }
    rewrite (slice_at_cons _ _ _ _ Hv'). constructor.
    - eapply payload_larger; [| |eapply payload_kept; [apply Hok1|exact Hs'|done|exact Hp]]; lia.
    - by replace (en_variant_start en + j + 1) with (en_variant_start en + (j + 1)) by lia. }
  assert (forall message state1 s1, ok s1 state1 -> step (-1) s state s1 state1 ->
    exists size' align' state' s', (error_span (va_name v) message ;; layout_variants layout en n (j + 1) size align state1) s1 = Some ((size', align', state'), s')
      /\ ok s' state' /\ step (-1) s state s' state' /\ size <= size' <= address_limit pb /\ align <= align' /\ alignment_ok align'
      /\ Forall (payload_ok pb (prog s') state' (diags s') size' align') (slice_at (tab (prog s') VARIANTS) (en_variant_start en + j) (Z.of_nat (S n)))) as Herr.
  { intros message state1 s1 Hok1 Hs1. destruct (step_error (-1) s1 state1 (va_name v) message) as (s2 & E & Hs2 & Hd & _ & Ed). unfold mbind. rewrite E.
    apply Hnext; try done; try lia; [by eapply ok_quiet_step|by eapply layout_step_trans|]. right; right. exists message. rewrite Ed. set_solver. }
  destruct (Z.eqb_spec (va_payload_type v) DYN_TYPE_VOID) as [Ev|Hnv].
  { apply Hnext; try done; try lia; [apply layout_step_refl|by left]. }
  destruct (dyn_type_is_enum (va_payload_type v)) eqn:Hen; [apply Herr; [done|apply layout_step_refl]|].
  assert (sized a0 (va_payload_type v) depth) as Ht.
  { pose proof (la_payloads _ _ Hla) as Hall. rewrite Forall_forall in Hall. destruct (Hall v) as [|]; [|done|done].
    rewrite (sh_other _ _ (ok_shape _ _ Hok)) in Hv by set_solver. by eapply get_at_elem. }
  destruct (query_field layout bound false (va_payload_type v) state s Hl Hok Ht Hb) as (pa & state1 & s1 & ps & state2 & s2 & E1 & E2 & Hok2 & Hs2 & Hcase).
  unfold mbind at 1. rewrite E1. unfold mbind at 1. rewrite E2. destruct Hcase as [[Hz Hd]|(Hna & Hns & Hfle & al & Hlaid & ->)].
  { replace ((pa =? 0) || (ps =? 0)) with true by (destruct Hz as [->| ->]; rewrite ?orb_true_r; done). by apply Herr. }
  destruct (laid_pos _ _ _ _ _ Hok2 Hlaid) as [Hps Hala]. pose proof (alignment_pos _ Hala).
  rewrite (proj2 (Z.eqb_neq al 0)), (proj2 (Z.eqb_neq ps 0)) by lia. cbn [orb].
  replace (if size <? ps then ps else size) with (Z.max size ps) by (destruct (Z.ltb_spec size ps); lia).
  replace (if align <? al then al else align) with (Z.max align al) by (destruct (Z.ltb_spec align al); lia).
  apply Hnext; try done; try lia; [by apply alignment_max|]. right; left. exists ps, al. split_and!; [done|lia..].
Qed.

Lemma finish_enum id en size al psize pal s state :
  ok s state -> get_at state (n0 + id) = Some 1 -> get_at (tab (prog s) ENUMS) id = Some en ->
  enum_ok pb (prog s) state (diags s) (set_enum en size al psize pal) ->
  exists s', write ENUMS id (set_enum en size al psize pal) s = Some (tt, s') /\ ok s' (<[Z.to_nat (n0 + id) := 2]> state)
    /\ step (n0 + id) s state s' (<[Z.to_nat (n0 + id) := 2]> state).
Proof.
  intros Hok Hm Hen Heo.
  destruct (write_row_step ENUMS id en (set_enum en size al psize pal) (n0 + id) s state) as (s' & E & Hw & Hd & Hg & Hf); try done; [by right|].
  exists s'. split; [done|]. assert (get_at state (n0 + id) <> None) as Hin by congruence.
  assert (step (n0 + id) s state s' (<[Z.to_nat (n0 + id) := 2]> state)) as Hs by (eapply layout_step_trans; [exact Hw|by apply step_mark]).
  split; [|done]. assert (get_at state (n0 + id) <> Some 2) as Hex by congruence. pose proof (get_at_range _ _ _ Hen). split.
  - eapply same_shape_trans; [apply Hok|apply Hs].
  - rewrite <- (ok_marks _ _ Hok). unfold zlen. by rewrite length_insert.
  - apply range_insert; [apply Hok|lia].
  - intros id' st Hst Hm'. destruct (marked_get _ _ _ _ _ Hin Hm') as [[-> _]|[Hne Hm2]]; [|by eapply struct_kept].
    apply get_at_range in Hst. destruct (shape_counts _ _ (sp_shape _ _ _ _ _ Hs)) as (C1 & _). destruct (shape_counts _ _ (ok_shape _ _ Hok)) as (C & _).
    unfold n0, tcount in *. lia.
  - intros id' en' Hen' Hm'. destruct (marked_get _ _ _ _ _ Hin Hm') as [[E2 _]|[Hne Hm2]]; [|by eapply enum_kept].
    assert (id' = id) as -> by lia. rewrite Hg in Hen'. simplify_eq. destruct Heo as (H1 & H2 & H3 & H4 & H5 & H6). split_and!; try done; try apply H2.
    unfold variants_of in *. cbn [set_enum en_variant_start en_variant_count en_payload_size en_payload_alignment] in *.
    rewrite (sh_other _ _ (sp_shape _ _ _ _ _ Hs)) by set_solver. eapply Forall_impl; [exact H6|]. intros v Hv. by eapply payload_kept; [apply Hok|..].
Qed.
(** The tag of an enum is a simple type. *)
Lemma query_tag layout bound t alignment state s : lays layout bound -> ok s state -> simple t = true -> (zeros state * S depth < bound)%nat ->
  exists state' s', layout t alignment state s = Some ((simple_layout pb t alignment, state'), s') /\ ok s' state' /\ step (-1) s state s' state'.
Proof.
  intros Hl Hok Ht Hb. destruct (Hl t 0%nat alignment state s) as (r & state' & s' & E & Hok' & Hs' & Hg); try done; [by apply sized_simple|lia|lia|].
  exists state', s'. split; [|done]. rewrite E. do 3 f_equal. destruct Hg as [[_ (sz & al & Hl' & -> & _)]|(_ & Hn & _)]; [|congruence].
  destruct (laid_unique _ _ _ _ _ _ _ _ Hl' (laid_simple pb (prog s') state' t Ht)) as [-> ->]. by destruct alignment.
Qed.
Lemma layout_enum_ok layout bound id : lays layout bound -> 0 <= id < tcount a0 ENUMS -> finishes (layout_enum pb layout) (n0 + id) id bound.
Proof.
  intros Hl Hid state s Hok Hb. unfold layout_enum. unfold mbind at 1, ast at 1. destruct (shape_counts _ _ (ok_shape _ _ Hok)) as (C & C' & _).
  rewrite C. fold n0. assert (0 <= n0) by (unfold n0, tcount, zlen; lia).
  destruct (mark_cases s state (n0 + id) Hok) as (m & Hm & Hcase); [rewrite (ok_marks _ _ Hok); unfold n0; lia|].
  destruct (get_at_is_Some (tab (prog s) ENUMS) id) as [en Hen]; [unfold n0, tcount, zlen in *; lia|].
  unfold mbind at 1, lift at 1. rewrite Hm. unfold mbind at 1, read at 1. rewrite Hen. destruct Hcase as [->|[->| ->]]; cbn [Z.eqb].
  2: by apply report_again.
  2: { exists true, state, s. split_and!; try done; [apply layout_step_refl|congruence]. }
  destruct (enter_slot (n0 + id) state s Hok Hm) as (Hok1 & Hs1 & Hz1 & Hm1 & Hset). unfold mbind at 1, lift at 1. rewrite Hset.
  set (state1 := <[Z.to_nat (n0 + id) := 1]> state) in *. rewrite <- Hz1, Nat.mul_succ_l in Hb.
  destruct (shape_enum _ _ _ _ (ok_shape _ _ Hok) Hen) as (x & Hx & _ & Et & Evs & Evc). destruct (la_variants _ _ Hla _ _ Hx) as (Hts & Hv0 & Hvc & Hvr).
  rewrite <- Et in Hts. set (t := en_tag_type en) in *.
  destruct (query_tag layout bound t false state1 s) as (state2 & s2 & E2 & Hok2 & Hs2); try done; [lia|]. unfold mbind at 1. rewrite E2.
  pose proof (sp_zeros _ _ _ _ _ Hs2) as Hz2.
  destruct (query_tag layout bound t true state2 s2) as (state3 & s3 & E3 & Hok3 & Hs3); try done; [nia|]. unfold mbind at 1. rewrite E3.
  pose proof (sp_zeros _ _ _ _ _ Hs3) as Hz3. pose proof limit_large as Hlim.
  destruct (layout_variants_ok layout bound en Hl (Z.to_nat (en_variant_count en)) 0 0 1 state3 s3)
    as (psize & pal & state4 & s4 & E4 & Hok4 & Hs4 & Hps & Hpal & Hpala & Hall); try done; try lia; [by left|nia|].
  unfold mbind at 1. rewrite E4. rewrite Z2Nat.id, Z.add_0_r in Hall by lia.
  pose proof (layout_step_trans _ _ _ _ _ _ _ (layout_step_trans _ _ _ _ _ _ _ Hs2 Hs3) Hs4) as Hs14.
  assert (n0 + id <> -1) as Hslot by lia.
  assert (get_at state4 (n0 + id) = Some 1) as Hm4 by (by apply (sp_marks _ _ _ _ _ Hs14)).
  assert (get_at (tab (prog s4) ENUMS) id = Some en) as Hen4 by (rewrite (sp_enums _ _ _ _ _ Hs14 id 1); [done|lia|done..]).
  pose proof (simple_layout_pos pb t false Hpb) as [Hts1 _]. pose proof (simple_layout_pos pb t true Hpb) as [Hta1 Hta]. specialize (Hta eq_refl).
  set (tal := simple_layout pb t true) in *. set (tsz := simple_layout pb t false) in *.
  replace (if pal <? tal then tal else pal) with (Z.max tal pal) by (destruct (Z.ltb_spec pal tal); lia).
  pose proof (alignment_max _ _ Hta Hpala) as Hal. pose proof (alignment_pos _ Hal). pose proof (alignment_pos _ Hpala).
  set (al := Z.max tal pal) in *. destruct (round_up_spec tsz pal) as [Hoff _]; [lia..|]. set (offset := round_up tsz pal) in *.
  assert (step (n0 + id) s state s4 state4) as Hs04 by (eapply layout_step_trans; [exact Hs1|by apply step_weaken]).
  destruct (write_row_step ENUMS id en (set_enum en (en_size en) al psize pal) (n0 + id) s4 state4) as (s5 & E5 & Hs5 & Hd5 & Hen5 & _); try done; [by right|].
  unfold mbind at 1. rewrite E5. assert (ok s5 state4) as Hok5 by (apply (ok_step (n0 + id) s4 state4); try done; [congruence|apply Hok4]).
  pose proof (layout_step_trans _ _ _ _ _ _ _ Hs04 Hs5) as Hs05.
  destruct ((_ <? psize) || _) eqn:Hover; [by apply leave_error|]. apply orb_false_iff in Hover as [Ho1%Z.ltb_ge Ho2%Z.ltb_ge].
  destruct (round_up_spec (offset + psize) al) as [Hup _]; [lia..|].
  destruct (finish_enum id (set_enum en (en_size en) al psize pal) (round_up (offset + psize) al) al psize pal s5 state4) as (s6 & E6 & Hok6 & Hs6); try done.
  { split; [done|]. cbn [set_enum en_size en_alignment en_payload_alignment en_payload_size en_tag_type]. fold t tsz tal al offset. split_and!; try done; try lia.
    unfold variants_of. cbn [set_enum en_variant_start en_variant_count]. rewrite (sh_other _ _ (sp_shape _ _ _ _ _ Hs5)) by set_solver.
    eapply Forall_impl; [exact Hall|]. intros v Hv. eapply payload_kept; [apply Hok4|exact Hs5|congruence|done]. }
  change (set_enum (set_enum en (en_size en) al psize pal) (round_up (offset + psize) al) al psize pal) with (set_enum en (round_up (offset + psize) al) al psize pal) in E6.
  pose proof (get_at_range _ _ _ Hm4).
  exists true, (<[Z.to_nat (n0 + id) := 2]> state4), s6. unfold mbind at 1. rewrite E6.
  unfold mbind, lift. rewrite set_at_insert by done.
  assert (get_at (<[Z.to_nat (n0 + id) := 2]> state4) (n0 + id) = Some 2) as E7 by (by apply get_at_insert_eq). split_and!; try done; [|congruence].
  apply (step_leave (n0 + id)); [by eapply layout_step_trans|done|right; congruence].
Qed.

(** ** Types *)
Lemma gives_struct t (alignment : bool) (layout : Z -> bool -> list Z -> M (Z * list Z)) bound (state : list Z) (s : St) : lays layout bound -> ok s state -> dyn_type_is_struct t = true -> t - DYN_TYPE_STRUCT_BASE < n0 ->
  (zeros state * S depth <= bound)%nat ->
  exists r state' s', (let! (ok, state) := layout_struct pb layout (t - DYN_TYPE_STRUCT_BASE) state in
    if negb ok then mret (0, state) else let! st := read STRUCTS (t - DYN_TYPE_STRUCT_BASE) in mret (if alignment then sr_alignment st else sr_size st, state)) s
    = Some ((r, state'), s') /\ ok s' state' /\ step (-1) s state s' state' /\ gives s' state' s t alignment r.
Proof.
  intros Hl Hok Ht Hid Hb. pose proof Ht as Ht'. unfold dyn_type_is_struct in Ht'. to_prop.
  destruct (layout_struct_ok layout bound (t - DYN_TYPE_STRUCT_BASE) Hl ltac:(lia) state s Hok Hb) as (b & state' & s' & E & Hok' & Hs' & Hb' & _).
  unfold mbind at 1. rewrite E. destruct b; cbn [negb].
  - destruct (shape_counts _ _ (ok_shape _ _ Hok')) as (C & _).
    destruct (get_at_is_Some (tab (prog s') STRUCTS) (t - DYN_TYPE_STRUCT_BASE)) as [st Hst]; [unfold n0, tcount, zlen in *; lia|].
    unfold mbind, read. rewrite Hst. eexists _, state', s'. split; [reflexivity|]. split; [done|]. split; [done|]. left.
    destruct (ok_structs _ _ Hok' _ _ Hst Hb') as (Hal%alignment_pos & Hsz & _). split; [destruct alignment; lia|].
    exists (sr_size st), (sr_alignment st). split; [by apply laid_struct|]. split; [done|]. lia.
  - exists 0, state', s'. split; [done|]. split; [done|]. split; [done|]. right. destruct (struct_kind t Ht) as (? & _). done.
Qed.
Lemma gives_enum t (alignment : bool) (layout : Z -> bool -> list Z -> M (Z * list Z)) bound (state : list Z) (s : St) : lays layout bound -> ok s state -> dyn_type_is_enum t = true -> t - DYN_TYPE_ENUM_BASE < tcount a0 ENUMS ->
  (zeros state * S depth <= bound)%nat ->
  exists r state' s', (let! (ok, state) := layout_enum pb layout (t - DYN_TYPE_ENUM_BASE) state in
    if negb ok then mret (0, state) else let! en := read ENUMS (t - DYN_TYPE_ENUM_BASE) in mret (if alignment then en_alignment en else en_size en, state)) s
    = Some ((r, state'), s') /\ ok s' state' /\ step (-1) s state s' state' /\ gives s' state' s t alignment r.
Proof.
  intros Hl Hok Ht Hid Hb. pose proof Ht as Ht'. unfold dyn_type_is_enum in Ht'. to_prop.
  destruct (layout_enum_ok layout bound (t - DYN_TYPE_ENUM_BASE) Hl ltac:(lia) state s Hok Hb) as (b & state' & s' & E & Hok' & Hs' & Hb' & _).
  unfold mbind at 1. rewrite E. destruct b; cbn [negb].
  - destruct (shape_counts _ _ (ok_shape _ _ Hok')) as (C & C' & _).
    destruct (get_at_is_Some (tab (prog s') ENUMS) (t - DYN_TYPE_ENUM_BASE)) as [en Hen]; [unfold n0, tcount, zlen in *; lia|].
    unfold mbind, read. rewrite Hen. eexists _, state', s'. split; [reflexivity|]. split; [done|]. split; [done|]. left.
    destruct (ok_enums _ _ Hok' _ _ Hen Hb') as (Hal%alignment_pos & Hsz & _). split; [destruct alignment; lia|].
    exists (en_size en), (en_alignment en). split; [apply laid_enum; try done; by rewrite C|]. split; [done|]. lia.
  - exists 0, state', s'. split; [done|]. split; [done|]. split; [done|]. right. destruct (enum_kind t Ht) as (? & _). done.
Qed.
Lemma type_layout_ok fuel : lays (type_layout pb fuel) fuel.
Proof.
  induction fuel as [|n IH]; intros t h alignment state s Hok Hsz Hh Hb; [lia|]. cbn [type_layout]. unfold mbind at 1, ast at 1.
  destruct (shape_counts _ _ (ok_shape _ _ Hok)) as (C & C' & _).
  destruct Hsz as [t h Ht|t x h Ht Hx Hsz|t h Ht Hid|t h Ht Hid|t x h Ht Hx Hpos Hsz].
  - destruct (simple_kind t Ht) as (-> & -> & -> & ->). exists (simple_layout pb t alignment), state, s. split; [|split; [done|split; [apply layout_step_refl|]]].
    + unfold simple_layout. repeat split_if; done.
    + left. pose proof (simple_layout_pos pb t alignment Hpb) as [? _]. split; [lia|].
      exists (simple_layout pb t false), (simple_layout pb t true). split; [by apply laid_simple|]. split; [by destruct alignment|].
      intros _. pose proof limit_large. assert (simple_layout pb t false <= 16); [|lia]. unfold simple_layout, scalar_size. repeat split_if; lia.
  - rewrite Ht. assert (get_at (tab (prog s) ALIASES) (t - DYN_TYPE_DISTINCT_BASE) = Some x) as Hx' by (by rewrite (sh_other _ _ (ok_shape _ _ Hok)) by set_solver).
    rewrite (proj2 (Z.leb_gt _ _)) by (apply get_at_range in Hx'; unfold tcount; lia). unfold mbind at 1, read. rewrite Hx'.
    destruct (IH (al_target x) h alignment state s) as (r & state' & s' & E & Hok' & Hs' & Hg); try done; try lia.
    exists r, state', s'. split; [done|]. split; [done|]. split; [done|]. destruct (distinct_kind t Ht) as (Hns & _).
    destruct Hg as [[Hn (sz & al & Hlaid & -> & Hle)]|(-> & _ & Hd)]; [left|by right]. split; [done|]. exists sz, al. split; [|done].
    eapply laid_alias; [done| |done]. by rewrite (sh_other _ _ (ok_shape _ _ Hok')) by set_solver.
  - destruct (struct_kind t Ht) as (_ & -> & _). rewrite Ht, C, (proj2 (Z.leb_gt _ _)) by lia. apply (gives_struct t alignment _ n); try done. nia.
  - destruct (enum_kind t Ht) as (_ & -> & -> & _). rewrite Ht, C', (proj2 (Z.leb_gt _ _)) by lia. apply (gives_enum t alignment _ n); try done. nia.
  - destruct (array_kind t Ht) as (Hns & -> & -> & ->). rewrite Ht.
    assert (get_at (tab (prog s) ARRAYS) (t - DYN_TYPE_ARRAY_BASE) = Some x) as Hx' by (by rewrite (sh_other _ _ (ok_shape _ _ Hok)) by set_solver).
    unfold mbind at 1, read. rewrite Hx'. destruct (IH (ar_element x) h alignment state s) as (r & state' & s' & E & Hok' & Hs' & Hg); try done; try lia.
    unfold mbind at 1. rewrite E.
    assert (get_at (tab (prog s') ARRAYS) (t - DYN_TYPE_ARRAY_BASE) = Some x) as Hx2 by (by rewrite (sh_other _ _ (ok_shape _ _ Hok')) by set_solver).
    destruct Hg as [[Hn (sz & al & Hlaid & -> & Hle)]|(-> & _ & Hd)].
    + destruct (laid_pos _ _ _ _ _ Hok' Hlaid) as [Hszp Hal]. destruct alignment; cbn [negb andb].
      * exists al, state', s'. split_and!; try done. left. split; [done|]. exists (sz * ar_length x), al. split; [by apply (laid_array pb _ _ t x sz al)|done].
      * rewrite (proj2 (Z.eqb_neq sz 0) Hn). cbn [negb andb]. destruct (Z.ltb_spec (address_limit pb / sz) (ar_length x)) as [Hlt|Hge].
        -- destruct (step_error (-1) s' state' (mkDynSpan 0 0) "array layout exceeds target address space") as (s2 & E2 & Hs2 & Hd2 & _).
           exists 0, state', s2. unfold mbind. rewrite E2. split_and!; try done; [by eapply ok_quiet_step|by eapply layout_step_trans|]. right. split_and!; try done.
           eapply grew; eauto.
        -- exists (sz * ar_length x), state', s'. split_and!; try done. left. split; [nia|]. exists (sz * ar_length x), al. split; [by apply (laid_array pb _ _ t x sz al)|].
           split; [done|]. intros _. pose proof (Z.mul_div_le (address_limit pb) sz ltac:(lia)). nia.
    + rewrite andb_false_r. cbn [andb]. exists 0, state', s'. split; [by destruct alignment|]. split_and!; try done. by right.
Qed.

(** ** The whole program *)
Lemma layout_all_ok one slot bound n i state s :
  (forall id, i <= id < i + Z.of_nat n -> finishes one (slot + id) id bound) -> ok s state -> (zeros state * S depth <= bound)%nat -> 0 <= slot + i ->
  exists state' s', layout_all one n i state s = Some (state', s') /\ ok s' state' /\ step (-1) s state s' state'
    /\ forall id, i <= id < i + Z.of_nat n -> get_at state' (slot + id) <> Some 0.
Proof.
  revert i state s. induction n as [|n IH]; intros i state s Hone Hok Hb Hi; cbn [layout_all].
  { exists state, s. split_and!; try done; [apply layout_step_refl|lia]. }
  destruct (Hone i ltac:(lia) state s Hok Hb) as (b & state1 & s1 & E & Hok1 & Hs1 & _ & Hm1). unfold mbind at 1. rewrite E.
  pose proof (sp_zeros _ _ _ _ _ Hs1).
  destruct (IH (i + 1) state1 s1) as (state2 & s2 & E2 & Hok2 & Hs2 & Hm2); [intros; apply Hone; lia|done|nia|lia|].
  exists state2, s2. split_and!; try done; [by eapply layout_step_trans|]. intros id Hid. destruct (Z.eq_dec id i) as [->|]; [|apply Hm2; lia].
  intros E0. apply Hm1. destruct (get_at state1 (slot + i)) as [m|] eqn:Em.
  - destruct (Z.eq_dec m 0) as [->|Hn]; [done|]. rewrite (sp_marks _ _ _ _ _ Hs2 _ m) in E0; try done. lia.
  - exfalso. apply get_at_range in E0. destruct (get_at_is_Some state1 (slot + i)); [|congruence]. rewrite <- (sp_length _ _ _ _ _ Hs2). done.
Qed.

(** The offsets as a C programmer expects them. *)
Lemma placed_sound s state packed fs e m e' m' : ok s state -> placed pb (prog s) state packed fs e m e' m' -> 0 <= e -> alignment_ok m ->
  e <= e' /\ m <= m' /\ alignment_ok m' /\ forall i f, fs !! i = Some f -> exists size align,
    laid pb (prog s) state (fd_type f) size align /\ 1 <= size /\ ((if packed then 1 else align) | fd_offset f)
    /\ ((if packed then 1 else align) | m') /\ e <= fd_offset f /\ fd_offset f + size <= e'
    /\ forall j g, (i < j)%nat -> fs !! j = Some g -> fd_offset f + size <= fd_offset g.
Proof.
  intros Hok Hp. induction Hp as [e m|f fs e m size align e' m' Hl al Hoff Hle Hp IH]; intros He Hm; [split_and!; try done; lia|].
  destruct (laid_pos _ _ _ _ _ Hok Hl) as [Hsz Hala].
  assert (alignment_ok al) as Hal by (subst al; destruct packed; [by left|done]). pose proof (alignment_pos _ Hal).
  destruct (round_up_spec e al) as [Hup Hdiv]; [lia..|]. rewrite <- Hoff in Hup, Hdiv.
  destruct IH as (Hee & Hmm & Hm' & Hall); [lia|by apply alignment_max|]. split_and!; try done; try lia. intros [|i] g Hg; cbn in Hg.
  - simplify_eq. exists size, align. split_and!; try done; try lia; [apply alignment_divides; try done; lia|].
    intros [|j] g' Hj Hg'; [lia|]. cbn in Hg'. destruct (Hall j g' Hg') as (? & ? & _ & _ & _ & _ & ? & _). lia.
  - destruct (Hall i g Hg) as (size' & align' & ? & ? & ? & ? & ? & ? & Hnext). exists size', align'. split_and!; try done; try lia.
    intros [|j] g' Hj Hg'; [lia|]. apply (Hnext j); [lia|done].
Qed.
End Steps.

(** A struct whose fields are apart, aligned and inside it. *)
Definition well_laid (pb : Z) (a : DynAstProgram) (state : list Z) (st : DynAstStruct) : Prop :=
  alignment_ok (sr_alignment st) /\ 1 <= sr_size st <= address_limit pb /\ (sr_alignment st | sr_size st) /\
  forall i f, fields_of a st !! i = Some f -> exists size align, laid pb a state (fd_type f) size align /\ 1 <= size
    /\ ((if sr_packed st then 1 else align) | fd_offset f) /\ ((if sr_packed st then 1 else align) | sr_alignment st)
    /\ 0 <= fd_offset f /\ fd_offset f + size <= sr_size st
    /\ forall j g, (i < j)%nat -> fields_of a st !! j = Some g -> fd_offset f + size <= fd_offset g.
Lemma struct_ok_well_laid {H : Host} pb a0 s state st : pb = 4 \/ pb = 8 -> ok pb a0 s state -> 0 <= sr_field_count st ->
  struct_ok pb (prog s) state st -> well_laid pb (prog s) state st.
Proof.
  intros Hpb Hok Hc (Hal & Hsz & Hst). split; [done|]. split; [done|]. destruct (Z.eqb_spec (sr_field_count st) 0) as [E0|].
  - destruct Hst as [-> ->]. split; [by exists 1|]. intros i f Hf. unfold fields_of, slice_at in Hf. by rewrite E0 in Hf.
  - destruct Hst as (e & Hp & ->). destruct (placed_sound pb a0 Hpb s state _ _ _ _ _ _ Hok Hp) as (He & Hm & _ & Hall); [lia|by left|].
    pose proof (alignment_pos _ Hal). destruct (round_up_spec e (sr_alignment st)) as [Hup Hdiv]; [lia..|]. split; [done|].
    intros i f Hf. destruct (Hall i f Hf) as (size & align & ? & ? & ? & ? & ? & ? & ?). exists size, align. split_and!; try done; lia.
Qed.

(** C2: take a program whose field and payload types are built from simple
    types, structs, enums, finite chains of aliases and arrays of at least one
    element ([layable]; a field with an empty array is left without a layout,
    see [zero_length_field_unlaid]). Computing its layouts ends. Unless memory
    for the marks runs out, every struct that was finished has its fields in
    order, each at an offset that is a multiple of its alignment, without
    overlap and inside the struct, whose size is a multiple of its alignment
    and fits the address space; every finished enum has room for its tag and
    each payload that was not reported; only sizes, alignments and offsets were
    written; and when nothing was reported, every struct and enum was
    finished. *)
Theorem layouts_correct {H : Host} (s : St) pb depth fuel :
  pb = 4 \/ pb = 8 -> layable (prog s) depth ->
  (Z.to_nat (tcount (prog s) STRUCTS + tcount (prog s) ENUMS) * S depth <= fuel)%nat ->
  exists r s', compute_layouts_v2 pb fuel s = Some (r, s') /\
    if negb r then allocation_failed (prog s') = true /\ same_rows (prog s) (prog s')
    else exists state, same_shape (prog s) (prog s') /\ zlen state = tcount (prog s) STRUCTS + tcount (prog s) ENUMS
      /\ (forall id st, get_at (tab (prog s') STRUCTS) id = Some st -> get_at state id = Some 2 -> well_laid pb (prog s') state st)
      /\ (forall id en, get_at (tab (prog s') ENUMS) id = Some en -> get_at state (tcount (prog s) STRUCTS + id) = Some 2 ->
            enum_ok pb (prog s') state (diags s') en)
      /\ (diags s' = diags s -> Forall (fun m => m = 2) state).
Proof.
  intros Hpb Hla Hf. set (a0 := prog s) in *. set (count := tcount a0 STRUCTS + tcount a0 ENUMS) in *.
  assert (0 <= tcount a0 STRUCTS /\ 0 <= tcount a0 ENUMS) as [Hs0 He0] by (unfold tcount, zlen; lia).
  unfold compute_layouts_v2. unfold mbind at 1, ast at 1. fold a0 count. unfold mbind at 1, allocate_bytes.
  destruct (allocate (world s) count) as [got w]. set (s1 := mkSt (prog s) (sema s) (diags s) (work s) w).
  destruct (negb (count =? 0) && negb got) eqn:Hmem.
  { unfold mbind, fail_memory. eexists false, _. split; [reflexivity|]. cbn. by split. }
  set (state0 := replicate (Z.to_nat count) 0).
  assert (forall i, get_at state0 i <> Some 2 /\ get_at state0 i <> Some 1) as Hno.
  { intros i. split; intros E; apply get_at_elem in E; apply elem_of_replicate_inv in E; done. }
  assert (ok pb a0 s1 state0) as Hok0.
  { split.
    - apply same_shape_refl.
    - unfold zlen, state0. rewrite length_replicate. lia.
    - apply Forall_replicate. lia.
    - intros id st _ Hm. by destruct (Hno id).
    - intros id en _ Hm. by destruct (Hno (tcount a0 STRUCTS + id)). }
  assert (zeros state0 * S depth <= fuel)%nat as Hz0.
  { etransitivity; [|exact Hf]. apply Nat.mul_le_mono_r. unfold zeros. etransitivity; [apply List.filter_length_le|]. unfold state0. by rewrite length_replicate. }
  pose proof (type_layout_ok pb a0 depth Hpb Hla fuel) as Hlays.
  destruct (layout_all_ok pb a0 depth (layout_enum pb (type_layout pb fuel)) (tcount a0 STRUCTS) fuel (Z.to_nat (tcount a0 ENUMS)) 0 state0 s1)
    as (state2 & s2 & E2 & Hok2 & Hs2 & Hm2); try done; [intros id Hid; apply layout_enum_ok; try done; lia|lia|].
  unfold mbind at 1. rewrite E2. pose proof (sp_zeros _ _ _ _ _ _ Hs2).
  destruct (layout_all_ok pb a0 depth (layout_struct pb (type_layout pb fuel)) 0 fuel (Z.to_nat (tcount a0 STRUCTS)) 0 state2 s2)
    as (state3 & s3 & E3 & Hok3 & Hs3 & Hm3); try done; [intros id Hid; apply layout_struct_ok; try done; lia|nia|].
  unfold mbind. rewrite E3. pose proof (layout_step_trans _ _ _ _ _ _ _ _ Hs2 Hs3) as Hs13. exists true, s3. split; [done|]. cbn [negb]. exists state3.
  split; [apply Hs13|]. split; [apply Hok3|]. split; [|split; [apply Hok3|]].
  - intros id st Hst Hm. eapply struct_ok_well_laid; try done; [|by eapply (ok_structs _ _ _ _ Hok3)].
    destruct (shape_struct _ _ _ _ (ok_shape _ _ _ _ Hok3) Hst) as (x & Hx & _ & _ & _ & ->). by destruct (la_fields _ _ Hla _ _ Hx) as (_ & ? & _).
  - intros Hd. apply Forall_forall. intros m Hin. apply list_elem_of_lookup in Hin as [i Hi].
    assert (get_at state3 (Z.of_nat i) = Some m) as Hg.
    { apply get_at_Some. rewrite Nat2Z.id. split; [|done]. apply lookup_lt_Some in Hi. lia. }
    pose proof (ok_marks _ _ _ _ Hok3) as Hlen. pose proof (get_at_range _ _ _ Hg).
    destruct (mark_cases _ _ _ _ (Z.of_nat i) Hok3) as (m' & Hm' & Hcase); [lia|]. rewrite Hg in Hm'. simplify_eq. destruct Hcase as [->|[->| ->]]; [| |done].
    + exfalso. destruct (Z_lt_le_dec (Z.of_nat i) (tcount a0 STRUCTS)); [apply (Hm3 (Z.of_nat i)); [lia|done]|].
      assert (get_at state2 (Z.of_nat i) <> Some 0) as H2.
      { replace (Z.of_nat i) with (tcount a0 STRUCTS + (Z.of_nat i - tcount a0 STRUCTS)) by lia. apply Hm2. fold count in Hlen. unfold zlen in *. lia. }
      destruct (get_at_is_Some state2 (Z.of_nat i)) as [x Hx]; [rewrite <- (sp_length _ _ _ _ _ _ Hs3); unfold zlen in *; lia|].
      pose proof (sp_marks _ _ _ _ _ _ Hs3 _ x Hx ltac:(congruence) ltac:(lia)). congruence.
    + exfalso. apply (proj2 (Hno (Z.of_nat i))). apply (sp_quiet _ _ _ _ _ _ Hs13); [done|lia|done].
Qed.

(** [struct A { x: u8, y: i32, z: [2]u16 }], [struct B { a: A, e: E }] and
    [enum E : u8 { None, Some(i64) }]. *)
Definition field_of (t : Z) : DynAstField := mkField no_span t UINT32_MAX 0.
Definition sample_layout : DynAstProgram :=
  with_rows STRUCTS [mkStruct no_span no_span false 0 3 0 0 empty_index; mkStruct no_span no_span false 3 2 0 0 empty_index]
  (with_rows FIELDS [field_of DYN_TYPE_U8; field_of DYN_TYPE_I32; field_of DYN_TYPE_ARRAY_BASE; field_of DYN_TYPE_STRUCT_BASE; field_of DYN_TYPE_ENUM_BASE]
  (with_rows ENUMS [mkEnum no_span DYN_TYPE_U8 0 2 0 0 0 0 true empty_index]
  (with_rows VARIANTS [mkVariant no_span DYN_TYPE_VOID 0; mkVariant no_span DYN_TYPE_I64 1]
  (with_rows ARRAYS [mkAstArray DYN_TYPE_U16 2] empty_ast)))).
Lemma sample_layable : layable sample_layout 1.
Proof.
  split.
  - intros id st Hst%get_at_elem. change (st ∈ [mkStruct no_span no_span false 0 3 0 0 empty_index; mkStruct no_span no_span false 3 2 0 0 empty_index]) in Hst.
    change (tcount sample_layout FIELDS) with 5. apply elem_of_cons in Hst as [->|Hst]; [cbn; lia|]. apply list_elem_of_singleton in Hst as ->. cbn. lia.
  - intros i j x y Hne [Hi Hx]%get_at_Some [Hj Hy]%get_at_Some.
    change (tab sample_layout STRUCTS) with [mkStruct no_span no_span false 0 3 0 0 empty_index; mkStruct no_span no_span false 3 2 0 0 empty_index] in *.
    destruct (Z.to_nat i) as [|[|]] eqn:Ei, (Z.to_nat j) as [|[|]] eqn:Ej; cbn in Hx, Hy; simplify_eq; cbn; lia.
  - change (Forall (fun f => sized sample_layout (fd_type f) 1) [field_of DYN_TYPE_U8; field_of DYN_TYPE_I32; field_of DYN_TYPE_ARRAY_BASE; field_of DYN_TYPE_STRUCT_BASE; field_of DYN_TYPE_ENUM_BASE]).
    repeat (apply Forall_cons; split); [by apply sized_simple|by apply sized_simple| |by apply sized_struct|by apply sized_enum|constructor].
    apply (sized_array _ _ (mkAstArray DYN_TYPE_U16 2)); [done|done|done|by apply sized_simple].
  - intros id en Hen%get_at_elem. change (en ∈ [mkEnum no_span DYN_TYPE_U8 0 2 0 0 0 0 true empty_index]) in Hen. apply list_elem_of_singleton in Hen as ->.
    change (tcount sample_layout VARIANTS) with 2. cbn. split; [done|lia].
  - change (Forall (fun v => va_payload_type v = DYN_TYPE_VOID \/ sized sample_layout (va_payload_type v) 1) [mkVariant no_span DYN_TYPE_VOID 0; mkVariant no_span DYN_TYPE_I64 1]).
    repeat (apply Forall_cons; split); [by left|right; by apply sized_simple|constructor].
Qed.
Lemma layouts_correct_witness :
  exists r s', compute_layouts_v2 8 6 (state_of sample_layout) = Some (r, s') /\
    if negb r then allocation_failed (prog s') = true /\ same_rows sample_layout (prog s')
    else exists state, same_shape sample_layout (prog s') /\ zlen state = 3
      /\ (forall id st, get_at (tab (prog s') STRUCTS) id = Some st -> get_at state id = Some 2 -> well_laid 8 (prog s') state st)
      /\ (forall id en, get_at (tab (prog s') ENUMS) id = Some en -> get_at state (2 + id) = Some 2 -> enum_ok 8 (prog s') state (diags s') en)
      /\ (diags s' = [] -> Forall (fun m => m = 2) state).
Proof.
  apply (@layouts_correct willing_host (state_of sample_layout) 8 1 6).
  - right. reflexivity.
  - apply sample_layable.
  - vm_compute. lia.
Defined.
(** Sizes 12 and 32, offsets 0, 4, 8 and 0, 16. *)
Example sample_layout_values :
  match compute_layouts_v2 8 6 (state_of sample_layout) with
  | Some (r, s') => map (fun st => (sr_size st, sr_alignment st)) (tab (prog s') STRUCTS) = [(12, 4); (32, 8)]
                    /\ map fd_offset (tab (prog s') FIELDS) = [0; 4; 8; 0; 16] /\ diags s' = []
  | None => False
  end.
Proof. vm_compute. done. Qed.

(** [struct A { x: [0]u8 }] and [struct B { a: A }]: the array has no size, so
    A is left under way without a word and without a layout, and B, which does
    not contain itself, is then refused because A "contains itself by value". *)
Definition zero_length_field : DynAstProgram :=
  with_rows STRUCTS [mkStruct (mkDynSpan 0 10) no_span false 0 1 0 0 empty_index; mkStruct (mkDynSpan 20 30) no_span false 1 1 0 0 empty_index]
  (with_rows FIELDS [field_of DYN_TYPE_ARRAY_BASE; field_of DYN_TYPE_STRUCT_BASE]
  (with_rows ARRAYS [mkAstArray DYN_TYPE_U8 0] empty_ast)).
Example zero_length_field_unlaid :
  match compute_layouts_v2 8 9 (state_of zero_length_field) with
  | Some (r, s') => r = true /\ map (fun st => (sr_size st, sr_alignment st)) (tab (prog s') STRUCTS) = [(0, 0); (0, 0)]
                    /\ Forall (fun d => d = (mkDynSpan 0 10, "struct contains itself by value"%string)) (diags s') /\ diags s' <> []
  | None => False
  end.
Proof. vm_compute. split_and!; try done. repeat constructor. Qed.
