(* ===== verification/AstLiteral.v ===== *)
(** Literals and marks of the syntax tree (src/src/ast.c): integers,
    characters, strings, operators, primitive type names, the generic scope and
    the marks of [#wrap].

    The functions read a span of the source; here they take its text. *)

From S2P Require Import Prelude Target Source Work Ir Ast AstTypes AstNames.

(** ** Integers *)
Definition ascii_digit (c : Z) : bool := (48 <=? c) && (c <=? 57).
Definition ascii_lower (c : Z) : Z := if (65 <=? c) && (c <=? 90) then c + 32 else c.
(** [isdigit(c) ? c - '0' : tolower(c) - 'a' + 10], unsigned. *)
Definition digit_value (c : Z) : Z := if ascii_digit c then c - 48 else u32 (ascii_lower c - 97 + 10).
Definition number_base (t : bytes) : Z * bytes :=
  match t with
  | z :: p :: _ :: _ =>
      if negb (z =? 48) then (10, t)
      else if p =? 120 then (16, skipn 2 t) else if p =? 98 then (2, skipn 2 t) else if p =? 111 then (8, skipn 2 t) else (10, t)
  | _ => (10, t)
  end.
Fixpoint parse_digits (base v : Z) (t : bytes) : option Z :=
  match t with
  | [] => Some v
  | c :: t' =>
      if c =? 95 then parse_digits base v t'
      else
        let d := digit_value c in
        if (UINT64_MAX - d) / base <? v then None else parse_digits base (v * base + d) t'
  end.
(** [None] is [*ok = false]. *)
Definition parse_uint (t : bytes) : option Z := let '(base, digits) := number_base t in parse_digits base 0 digits.

(** ** Characters *)
Definition simple_escape (c : Z) : option Z :=
  if c =? 110 then Some 10 else if c =? 114 then Some 13 else if c =? 116 then Some 9 else if c =? 48 then Some 0
  else if (c =? 92) || (c =? 39) || (c =? 34) then Some c else None.
(** The digits of [\u{...}] up to the brace, in [uint64_t]. *)
Fixpoint unicode_digits (v : Z) (t : bytes) : option Z :=
  match t with
  | [] => None
  | h :: t' => if h =? 125 then Some v else unicode_digits (u64 (v * 16 + digit_value h)) t'
  end.
Definition scalar_value (v : Z) : bool := negb ((0x10ffff <? v) || ((0xd800 <=? v) && (v <=? 0xdfff))).
Definition parse_escape (t : bytes) : option Z :=
  match t with
  | [] => None
  | c :: t' =>
      match simple_escape c with
      | Some v => Some v
      | None =>
          if (c =? 120) && (2 <=? zlen t') then
            match t' with h :: l :: _ => Some (u32 (u32 (digit_value h) * 16 + digit_value l)) | _ => None end
          else if (c =? 117) && bool_decide (get_at t' 0 = Some 123) then
            let* v := unicode_digits 0 (skipn 1 t') in if scalar_value v then Some v else None
          else None
      end
  end.
Fixpoint utf8_loop (v : Z) (t : bytes) : option Z :=
  match t with
  | [] => Some v
  | c :: t' => if Z.land c 0xc0 =? 0x80 then utf8_loop (Z.lor (Z.shiftl v 6) (Z.land c 0x3f)) t' else None
  end.
(** The text with its quotes. *)
Definition inside_quotes (t : bytes) : bytes := removelast (skipn 1 t).
Definition parse_char (t : bytes) : option Z :=
  match inside_quotes t with
  | [] => None
  | c :: r =>
      if c =? 92 then parse_escape r
      else if c <? 0x80 then if bool_decide (r = []) then Some c else None
      else
        let count := if 0xf0 <=? c then 4 else if 0xe0 <=? c then 3 else if 0xc0 <=? c then 2 else 0 in
        if (count =? 0) || negb (count =? zlen r + 1) then None
        else
          let* v := utf8_loop (Z.land c (Z.shiftl 1 (7 - count) - 1)) r in
          if scalar_value v then Some v else None
  end.

(** ** Strings *)
Inductive StringError := INVALID_ESCAPE | UNSUPPORTED_ESCAPE.
Definition cons_ok (b : Z) (r : bytes + StringError) : bytes + StringError :=
  match r with inl l => inl (b :: l) | inr e => inr e end.
Fixpoint string_bytes (t : bytes) : bytes + StringError :=
  match t with
  | [] => inl []
  | c :: t1 =>
      if negb (c =? 92) then cons_ok c (string_bytes t1)
      else
        match t1 with
        | [] => inr INVALID_ESCAPE
        | e :: t2 =>
            match simple_escape e with
            | Some v => cons_ok v (string_bytes t2)
            | None =>
                if e =? 120 then
                  match t2 with
                  | h :: l :: t3 => cons_ok (Z.land (u32 (u32 (digit_value h) * 16 + digit_value l)) 255) (string_bytes t3)
                  | _ => inr UNSUPPORTED_ESCAPE
                  end
                else inr UNSUPPORTED_ESCAPE
            end
        end
  end.
Section Strings.
Context {H : Host}.
Definition parse_string (n : DynSpan) (t : bytes) : M Z :=
  let inner := inside_quotes t in
  let! ok := allocate_bytes (zlen inner + 1) in
  let! room := (if ok : bool then reserve_string else mret false) in
  if negb room then error_span n "out of memory" ;; mret UINT32_MAX
  else
    match string_bytes inner with
    | inr INVALID_ESCAPE => error_span n "invalid string escape" ;; mret UINT32_MAX
    | inr UNSUPPORTED_ESCAPE => error_span n "unsupported string escape" ;; mret UINT32_MAX
    | inl out => let! id := push STRINGS out in mret (u32 id)
    end.
End Strings.

(** ** Operators and primitive types *)
Fixpoint assoc {A} (default : A) (t : bytes) (m : list (string * A)) : A :=
  match m with [] => default | (k, x) :: m' => if bytes_eqb t (str k) then x else assoc default t m' end.
Definition op_from (t : bytes) : DynOperator :=
  assoc DYN_OP_NONE t
    [("-", DYN_OP_SUB); ("-=", DYN_OP_SUB); ("!", DYN_OP_NOT); ("~", DYN_OP_BIT_NOT); ("+", DYN_OP_ADD); ("+=", DYN_OP_ADD);
     ("*", DYN_OP_MUL); ("*=", DYN_OP_MUL); ("/", DYN_OP_DIV); ("/=", DYN_OP_DIV); ("%", DYN_OP_REM); ("%=", DYN_OP_REM);
     ("==", DYN_OP_EQ); ("!=", DYN_OP_NE); ("<", DYN_OP_LT); ("<=", DYN_OP_LE); (">", DYN_OP_GT); (">=", DYN_OP_GE);
     ("&&", DYN_OP_LOGICAL_AND); ("||", DYN_OP_LOGICAL_OR); ("&", DYN_OP_BIT_AND); ("&=", DYN_OP_BIT_AND);
     ("|", DYN_OP_BIT_OR); ("|=", DYN_OP_BIT_OR); ("^", DYN_OP_BIT_XOR); ("^=", DYN_OP_BIT_XOR);
     ("<<", DYN_OP_SHL); ("<<=", DYN_OP_SHL); (">>", DYN_OP_SHR); (">>=", DYN_OP_SHR)]%string.
(** The names of primitive types at the start of [parse_type_name]. *)
Definition primitive_type (t : bytes) : option Z :=
  assoc None t
    [("bool", Some DYN_TYPE_BOOL); ("i8", Some DYN_TYPE_I8); ("i16", Some DYN_TYPE_I16); ("i32", Some DYN_TYPE_I32);
     ("i64", Some DYN_TYPE_I64); ("u8", Some DYN_TYPE_U8); ("u16", Some DYN_TYPE_U16); ("u32", Some DYN_TYPE_U32);
     ("u64", Some DYN_TYPE_U64); ("isize", Some DYN_TYPE_ISIZE); ("usize", Some DYN_TYPE_USIZE); ("f32", Some DYN_TYPE_F32);
     ("f64", Some DYN_TYPE_F64); ("rawptr", Some DYN_TYPE_RAWPTR); ("any", Some DYN_TYPE_ANY)]%string.
Definition dyn_type_name (t : Z) : option string :=
  if t <? DYN_TYPE_STRUCT_BASE then
    get_at ["<infer>"; "<error>"; "void"; "bool"; "i8"; "i16"; "i32"; "i64"; "u8"; "u16"; "u32"; "u64"; "isize"; "usize";
            "f32"; "f64"; "[]const u8"; "rawptr"; "any"]%string t
  else Some (if dyn_type_is_enum t then "enum" else if dyn_type_is_pointer t then "pointer" else if dyn_type_is_array t then "array"
             else if dyn_type_is_slice t then "slice" else "struct")%string.

(** ** The generic scope: names and their types *)
Definition scope_type (scope : list (DynSpan * Z)) (name : DynSpan) (s : DynSource) (introduce : bool) : Z * list (DynSpan * Z) :=
  match List.find (fun p => dyn_span_text_equal (fst p) name s) scope with
  | Some p => (if introduce then DYN_TYPE_ERROR else snd p, scope)
  | None =>
      if negb introduce || (zlen scope =? DYN_MAX_TYPE_PARAMS) then (DYN_TYPE_ERROR, scope)
      else (DYN_TYPE_PARAM_BASE + zlen scope, scope ++ [(name, DYN_TYPE_PARAM_BASE + zlen scope)])
  end.

(** ** [#wrap] *)
Section Wrap.
Context {H : Host}.
Definition is_expr (k : DynExprKind) (e : DynAstExpr) : bool := bool_decide (x_kind e = k).
Definition negative_literal (e : DynAstExpr) : M bool :=
  if negb (is_expr DYN_EXPR_UNARY e) || negb (bool_decide (x_op e = DYN_OP_NEG)) || (x_left e =? DYN_NO_EXPR) then mret false
  else
    let! l := read EXPRESSIONS (x_left e) in
    mret (is_expr DYN_EXPR_INT l || is_expr DYN_EXPR_FLOAT l || is_expr DYN_EXPR_CHAR l).
Definition set_wrap (e : DynAstExpr) : DynAstExpr :=
  mkAstExpr (x_kind e) (x_type e) (x_span e) (x_op e) (x_left e) (x_right e) (x_integer e) (x_floating e) (x_boolean e)
    (x_item_start e) (x_item_count e) true.
Fixpoint mark_items (mark : Z -> M Z) (n : nat) (at_ : Z) : M Z :=
  match n with
  | O => mret 0
  | S n => let! i := read ITEMS at_ in let! m := mark (it_expression i) in let! ms := mark_items mark n (at_ + 1) in mret (u32 (m + ms))
  end.
(** [fuel] is what is left of the depth of 4096. *)
Fixpoint mark_wrap_at (fuel : nat) (id : Z) : M Z :=
  match fuel with
  | O => mret 0
  | S n =>
      let! a := ast in
      if (id =? DYN_NO_EXPR) || (tcount a EXPRESSIONS <=? id) then mret 0
      else
        let! e := read EXPRESSIONS id in
        let! negative := negative_literal e in
        let arithmetic := bool_decide (x_op e = DYN_OP_ADD) || bool_decide (x_op e = DYN_OP_SUB) || bool_decide (x_op e = DYN_OP_MUL)
                          || bool_decide (x_op e = DYN_OP_SHL) in
        let wraps := (is_expr DYN_EXPR_BINARY e && arithmetic)
                     || (is_expr DYN_EXPR_UNARY e && bool_decide (x_op e = DYN_OP_NEG) && negb negative) in
        (if wraps then write EXPRESSIONS id (set_wrap e) else mret tt) ;;
        let marked := Z.b2z wraps in
        if is_expr DYN_EXPR_SIZE e || is_expr DYN_EXPR_ALIGN e || is_expr DYN_EXPR_TYPEOF e || is_expr DYN_EXPR_LEN e then mret marked
        else
          let! l := mark_wrap_at n (x_left e) in
          let! r := mark_wrap_at n (x_right e) in
          let! t := (if is_expr DYN_EXPR_SLICE e then mark_wrap_at n (u32 (x_integer e)) else mret 0) in
          let! i :=
            (if is_expr DYN_EXPR_CALL e || is_expr DYN_EXPR_STRUCT e || is_expr DYN_EXPR_ARRAY e || is_expr DYN_EXPR_SYSCALL e
             then mark_items (mark_wrap_at n) (Z.to_nat (x_item_count e)) (x_item_start e) else mret 0) in
          mret (u32 (marked + l + r + t + i))
  end.
Definition mark_wrap (id depth : Z) : M Z := mark_wrap_at (Z.to_nat (4097 - depth)) id.
End Wrap.

(** ** What a number means *)
(** The digits of the language: [0]-[9], and [a]-[f] or [A]-[F] for ten to fifteen. *)
Definition digit_of (c d : Z) : Prop :=
  (0 <= d <= 9 /\ c = 48 + d) \/ (10 <= d <= 15 /\ (c = 97 + (d - 10) \/ c = 65 + (d - 10))).
(** A row of digits of a base, with underscores anywhere, and its value. *)
Inductive spells (base : Z) : bytes -> Z -> Prop :=
  | spells_nothing : spells base [] 0
  | spells_underscore t v : spells base t v -> spells base (t ++ str "_") v
  | spells_digit t v c d : spells base t v -> digit_of c d -> d < base -> spells base (t ++ [c]) (v * base + d).
Inductive number_literal : bytes -> Z -> Prop :=
  | binary_number t v : t <> [] -> spells 2 t v -> number_literal (str "0b" ++ t) v
  | octal_number t v : t <> [] -> spells 8 t v -> number_literal (str "0o" ++ t) v
  | hex_number t v : t <> [] -> spells 16 t v -> number_literal (str "0x" ++ t) v
  | decimal_number t v : spells 10 t v -> number_literal t v.

Lemma digit_value_of c d : digit_of c d -> digit_value c = d.
Proof.
  intros Hd. assert (0 <= d <= 15) as Hr by (unfold digit_of in Hd; lia).
  assert (forallb (fun d => if d <? 10 then digit_value (48 + d) =? d else (digit_value (97 + (d - 10)) =? d) && (digit_value (65 + (d - 10)) =? d))
            (seqZ 0 16) = true) as Hall by (vm_compute; reflexivity).
  rewrite forallb_forall in Hall. specialize (Hall d). rewrite <- list_elem_of_In, elem_of_seqZ in Hall. specialize (Hall ltac:(lia)).
  destruct (Z.ltb_spec d 10); [apply Z.eqb_eq in Hall|apply andb_true_iff in Hall as [H1%Z.eqb_eq H2%Z.eqb_eq]];
    destruct Hd as [[? ->]|[? [->| ->]]]; first [done|lia].
Qed.
Lemma digit_of_not_underscore c d : digit_of c d -> c <> 95.
Proof. unfold digit_of. lia. Qed.
Lemma spells_nonneg base t v : 1 <= base -> spells base t v -> 0 <= v.
Proof. intros Hb. induction 1 as [|t v _ IH|t v c d _ IH Hc Hd]; [lia|done|]. unfold digit_of in Hc. nia. Qed.
Lemma parse_digits_app base v t t' :
  parse_digits base v (t ++ t') = let* w := parse_digits base v t in parse_digits base w t'.
Proof. revert v. induction t as [|c t IH]; intros v; [done|]. cbn [app parse_digits].
  destruct (c =? 95); [apply IH|]. cbv zeta. destruct (_ <? _); [done|apply IH].
Qed.
Lemma parse_digits_exact base t v : 1 <= base <= 16 -> spells base t v -> parse_digits base 0 t = if v <? 2 ^ 64 then Some v else None.
Proof.
  intros Hb. induction 1 as [|t v Ht IH|t v c d Ht IH Hc Hd]; [done| |]; rewrite parse_digits_app, IH;
    pose proof (spells_nonneg _ _ _ (proj1 Hb) Ht) as Hv.
  { destruct (v <? 2 ^ 64); reflexivity. }
  assert (0 <= d) by (unfold digit_of in Hc; lia). destruct (Z.ltb_spec v (2 ^ 64)) as [Hlt|Hge]; cbn.
  2: { rewrite (proj2 (Z.ltb_ge _ _)); [done|nia]. }
  rewrite (proj2 (Z.eqb_neq c 95)) by (by eapply digit_of_not_underscore). rewrite (digit_value_of c d Hc). unfold UINT64_MAX.
  destruct (Z.ltb_spec ((2 ^ 64 - 1 - d) / base) v) as [Hl|Hl]; destruct (Z.ltb_spec (v * base + d) (2 ^ 64)) as [Hw|Hw]; try done; exfalso.
  - pose proof (Z.div_le_lower_bound (2 ^ 64 - 1 - d) base v ltac:(lia)). nia.
  - pose proof (Z.mul_div_le (2 ^ 64 - 1 - d) base ltac:(lia)). nia.
Qed.
Lemma spells_chars base t v : spells base t v -> base <= 10 -> Forall (fun c => c = 95 \/ 48 <= c <= 57) t.
Proof.
  intros Ht Hb. induction Ht as [|t v _ IH|t v c d _ IH Hc Hd]; [constructor| |]; (apply Forall_app; split; [exact IH|]); (constructor; [|constructor]).
  - by left.
  - right. unfold digit_of in Hc. lia.
Qed.
Lemma number_base_decimal t v : spells 10 t v -> number_base t = (10, t).
Proof.
  intros Ht%spells_chars; [|lia]. unfold number_base. destruct t as [|z [|p [|q t]]]; [done..|].
  apply Forall_cons in Ht as [_ [Hp _]%Forall_cons].
  repeat (match goal with |- context [?x =? ?y] => destruct (Z.eqb_spec x y) end; cbn [negb]); try reflexivity; lia.
Qed.
(** C26: a number literal is read as its exact value, whatever its base (decimal,
    [0b] binary, [0o] octal, [0x] hexadecimal with digits of either case) and
    wherever it has underscores, and is refused exactly when the value does
    not fit 64 bits. *)
Theorem parse_uint_exact t v :
  number_literal t v -> parse_uint t = if v <? 2 ^ 64 then Some v else None.
Proof.
  unfold parse_uint. intros [u w Hu Ht|u w Hu Ht|u w Hu Ht|u w Ht].
  4: { rewrite (number_base_decimal _ _ Ht). apply parse_digits_exact; [lia|done]. }
  all: destruct u as [|c u]; [done|]; cbn [app str].
  - exact (parse_digits_exact 2 _ _ ltac:(lia) Ht).
  - exact (parse_digits_exact 8 _ _ ltac:(lia) Ht).
  - exact (parse_digits_exact 16 _ _ ltac:(lia) Ht).
Qed.
Lemma parse_uint_exact_witness :
  parse_uint (str "0b1_01") = Some 5 /\ parse_uint (str "0o17") = Some 15 /\ parse_uint (str "0xF_f") = Some 255
  /\ parse_uint (str "18446744073709551616") = None.
Proof.
  assert (forall base t v d c, spells base t v -> digit_of c d -> d < base -> spells base (t ++ [c]) (v * base + d)) as D by (intros; by apply spells_digit).
  split; [|split; [|split]].
  - apply (parse_uint_exact (str "0b1_01") 5). apply (binary_number (str "1_01") 5); [discriminate|].
    apply (D 2 (str "1_0") 2 1 49); [|left; lia|lia]. apply (D 2 (str "1_") 1 0 48); [|left; lia|lia].
    apply (spells_underscore 2 (str "1")). apply (D 2 [] 0 1 49); [constructor|left; lia|lia].
  - apply (parse_uint_exact (str "0o17") 15). apply (octal_number (str "17") 15); [discriminate|].
    apply (D 8 (str "1") 1 7 55); [|left; lia|lia]. apply (D 8 [] 0 1 49); [constructor|left; lia|lia].
  - apply (parse_uint_exact (str "0xF_f") 255). apply (hex_number (str "F_f") 255); [discriminate|].
    apply (D 16 (str "F_") 15 15 102); [|right; lia|lia]. apply (spells_underscore 16 (str "F")).
    apply (D 16 [] 0 15 70); [constructor|right; lia|lia].
  - apply (parse_uint_exact (str "18446744073709551616") 18446744073709551616). apply decimal_number.
    change 18446744073709551616 with ((((((((((((((((((((0 * 10 + 1) * 10 + 8) * 10 + 4) * 10 + 4) * 10 + 6) * 10 + 7) * 10 + 4) * 10 + 4) * 10 + 0) * 10 + 7) * 10 + 3) * 10 + 7) * 10 + 0) * 10 + 9) * 10 + 5) * 10 + 5) * 10 + 1) * 10 + 6) * 10 + 1) * 10 + 6).
    change (str "18446744073709551616") with (((((((((((((((((((([] ++ [49]) ++ [56]) ++ [52]) ++ [52]) ++ [54]) ++ [55]) ++ [52]) ++ [52]) ++ [48]) ++ [55]) ++ [51]) ++ [55]) ++ [48]) ++ [57]) ++ [53]) ++ [53]) ++ [49]) ++ [54]) ++ [49]) ++ [54]).
    repeat (apply D; [|left; lia|lia]). constructor.
Defined.

(** ** Strings and characters round trip *)
Definition hex_digit (d : Z) : Z := if d <? 10 then 48 + d else 87 + d.
(** A literal for given bytes. *)
Definition quote_byte (c : Z) : bytes :=
  if (c =? 34) || (c =? 92) then [92; c]
  else if (c <? 32) || (126 <? c) then [92; 120; hex_digit (c / 16); hex_digit (c mod 16)]
  else [c].
Definition quote_string (b : bytes) : bytes := 34 :: concat (map quote_byte b) ++ [34].

Lemma digit_value_hex d : 0 <= d < 16 -> digit_value (hex_digit d) = d.
Proof.
  intros Hd. assert (forallb (fun d => digit_value (hex_digit d) =? d) (seqZ 0 16) = true) as Hall by (vm_compute; reflexivity).
  rewrite forallb_forall in Hall. apply Z.eqb_eq, Hall, list_elem_of_In, elem_of_seqZ. lia.
Qed.
Lemma string_bytes_quote c r : 0 <= c < 256 -> string_bytes (quote_byte c ++ r) = cons_ok c (string_bytes r).
Proof.
  intros Hc. unfold quote_byte. destruct ((c =? 34) || (c =? 92)) eqn:Eq.
  - apply orb_true_iff in Eq as [->%Z.eqb_eq| ->%Z.eqb_eq]; reflexivity.
  - apply orb_false_iff in Eq as [H34 H92]. destruct ((c <? 32) || (126 <? c)) eqn:Ex.
    + pose proof (Z.div_mod c 16). pose proof (Z.mod_pos_bound c 16). pose proof (Z.div_pos c 16). pose proof (Z.div_lt_upper_bound c 16 16).
      cbn [app string_bytes]. cbn [Z.eqb simple_escape negb orb Pos.eqb]. change (simple_escape 120) with (@None Z).
      rewrite !digit_value_hex by lia. rewrite (u32_small (c / 16)), u32_small by lia. f_equal. change 255 with (2 ^ 8 - 1). rewrite land_ones_mod by lia.
      rewrite Z.mod_small; lia.
    + cbn [app string_bytes]. by rewrite H92.
Qed.
Lemma quote_round_trip b : Forall is_byte b -> string_bytes (concat (map quote_byte b)) = inl b.
Proof.
  induction 1 as [|c b Hc Hb IH]; [done|]. cbn [map concat]. rewrite string_bytes_quote by exact Hc. by rewrite IH.
Qed.
Lemma inside_quote_string b : inside_quotes (quote_string b) = concat (map quote_byte b).
Proof. unfold inside_quotes, quote_string. cbn [skipn]. apply removelast_last. Qed.

(** C25: any byte string can be written as a literal and is read back exactly:
    the literal that quotes it (escapes for quotes, backslashes and bytes that do
    not print) becomes one new string of the program with those bytes, without
    a diagnostic, unless memory runs out, which is reported. *)
Theorem string_literal_roundtrip {H : Host} (s : St) n b :
  Forall is_byte b -> tcount (prog s) STRINGS < UINT32_MAX ->
  exists id s', parse_string n (quote_string b) s = Some (id, s') /\
    ((id = tcount (prog s) STRINGS /\ tab (prog s') STRINGS = tab (prog s) STRINGS ++ [b] /\ diags s' = diags s)
     \/ (id = UINT32_MAX /\ tab (prog s') STRINGS = tab (prog s) STRINGS /\ diags s' = (n, "out of memory"%string) :: diags s)).
Proof.
  intros Hb Hn. unfold parse_string. rewrite inside_quote_string, quote_round_trip by done. unfold mbind at 1, allocate_bytes.
  destruct (allocate (world s) _) as [ok w]. set (s1 := mkSt (prog s) (sema s) (diags s) (work s) w). destruct ok.
  - unfold mbind at 1, reserve_string, reserve. destruct (reserve_rows_spec STRINGS 8 1 s1) as (ok & s2 & -> & (Es & Ed & Ew) & Hr & _).
    destruct ok; cbn [negb].
    + unfold mbind. destruct (push_spec STRINGS b s2) as (s3 & -> & (Es3 & Ed3 & Ew3) & Hp & _). eexists _, s3. split; [reflexivity|]. left.
      unfold tcount in *. rewrite Hr. cbn [s1 prog]. change UINT32_MAX with 4294967295 in Hn. split; [apply u32_small; unfold zlen in *; lia|].
      rewrite Hp, Hr. split; [done|]. by rewrite Ed3, Ed.
    + unfold mbind, error_span. eexists _, _. split; [reflexivity|]. right. cbn. rewrite Hr, Ed. done.
  - unfold mbind, error_span, mret. cbn. eexists _, _. split; [reflexivity|]. right. done.
Qed.
Lemma string_literal_roundtrip_witness :
  exists id s', parse_string no_span (quote_string [0; 34; 92; 200; 65]) (state_of empty_ast) = Some (id, s') /\
    ((id = 0 /\ tab (prog s') STRINGS = [[0; 34; 92; 200; 65]] /\ diags s' = [])
     \/ (id = UINT32_MAX /\ tab (prog s') STRINGS = [] /\ diags s' = [(no_span, "out of memory"%string)])).
Proof.
  apply (@string_literal_roundtrip willing_host (state_of empty_ast) no_span [0; 34; 92; 200; 65]).
  - repeat constructor; unfold is_byte; lia.
  - vm_compute. reflexivity.
Defined.

(** UTF-8 of a scalar value. *)
Definition utf8_encode (v : Z) : bytes :=
  if v <? 0x80 then [v]
  else if v <? 0x800 then [0xc0 + v / 64; 0x80 + v mod 64]
  else if v <? 0x10000 then [0xe0 + v / 4096; 0x80 + v / 64 mod 64; 0x80 + v mod 64]
  else [0xf0 + v / 262144; 0x80 + v / 4096 mod 64; 0x80 + v / 64 mod 64; 0x80 + v mod 64].
Lemma continuation r t v : 0 <= r < 64 -> 0 <= v -> utf8_loop v (0x80 + r :: t) = utf8_loop (v * 64 + r) t.
Proof.
  intros Hr Hv. cbn [utf8_loop].
  assert (forallb (fun r => (Z.land (0x80 + r) 0xc0 =? 0x80) && (Z.land (0x80 + r) 0x3f =? r)) (seqZ 0 64) = true) as Hall by (vm_compute; reflexivity).
  rewrite forallb_forall in Hall. specialize (Hall r). rewrite <- list_elem_of_In, elem_of_seqZ in Hall.
  apply andb_true_iff in Hall as [-> ->%Z.eqb_eq]; [|lia]. rewrite Z.lor_comm, lor_shift_add by lia. f_equal. lia.
Qed.
Lemma lead_bits c count : (count = 2 \/ count = 3 \/ count = 4) -> 0 <= c < 2 ^ (7 - count) ->
  Z.land (256 - 2 ^ (8 - count) + c) (Z.shiftl 1 (7 - count) - 1) = c.
Proof.
  intros Hn Hc. rewrite Z.shiftl_1_l, land_ones_mod by lia.
  replace (256 - 2 ^ (8 - count) + c) with (c + (256 / 2 ^ (7 - count) - 2) * 2 ^ (7 - count)) .
  2: { destruct Hn as [->|[->| ->]];
       [change (c + 6 * 32 = 256 - 64 + c)|change (c + 14 * 16 = 256 - 32 + c)|change (c + 30 * 8 = 256 - 16 + c)]; lia. }
  rewrite Z_mod_plus_full. apply Z.mod_small. lia.
Qed.
(** A character literal that holds the UTF-8 of a scalar value stands for it. *)
Lemma char_literal_utf8 v : 0 <= v -> scalar_value v = true -> v <> 92 -> parse_char (39 :: utf8_encode v ++ [39]) = Some v.
Proof.
  intros Hv Hs H92. assert (v <= 0x10ffff) by (unfold scalar_value in Hs; apply negb_true_iff, orb_false_iff in Hs as [Hs%Z.ltb_ge _]; lia).
  unfold parse_char. assert (inside_quotes (39 :: utf8_encode v ++ [39]) = utf8_encode v) as -> by apply removelast_last. unfold utf8_encode.
  pose proof (Z.div_mod v 64). pose proof (Z.mod_pos_bound v 64). pose proof (Z.div_mod (v / 64) 64). pose proof (Z.mod_pos_bound (v / 64) 64).
  pose proof (Z.div_mod (v / 4096) 64). pose proof (Z.mod_pos_bound (v / 4096) 64).
  assert (v / 64 / 64 = v / 4096) as E1 by (rewrite Z.div_div by lia; done). assert (v / 4096 / 64 = v / 262144) as E2 by (rewrite Z.div_div by lia; done).
  destruct (Z.ltb_spec v 0x80).
  - rewrite (proj2 (Z.eqb_neq v 92)), (proj2 (Z.ltb_lt v 0x80)) by lia. done.
  - destruct (Z.ltb_spec v 0x800); [|destruct (Z.ltb_spec v 0x10000)].
    + rewrite (proj2 (Z.eqb_neq _ 92)), (proj2 (Z.ltb_ge _ 0x80)), (proj2 (Z.leb_gt 0xf0 _)), (proj2 (Z.leb_gt 0xe0 _)), (proj2 (Z.leb_le 0xc0 _)) by lia.
      cbn [Z.eqb orb negb zlen length Pos.eqb Z.of_nat Z.add]. change 192 with (256 - 2 ^ (8 - 2)). rewrite lead_bits by (cbn; lia).
      rewrite continuation by lia. cbn [utf8_loop]. replace (v / 64 * 64 + v mod 64) with v by lia. by rewrite Hs.
    + rewrite (proj2 (Z.eqb_neq _ 92)), (proj2 (Z.ltb_ge _ 0x80)), (proj2 (Z.leb_gt 0xf0 _)), (proj2 (Z.leb_le 0xe0 _)) by lia.
      cbn [Z.eqb orb negb zlen length Pos.eqb Z.of_nat Z.add]. change 224 with (256 - 2 ^ (8 - 3)). rewrite lead_bits by (cbn; lia).
      rewrite !continuation by lia. cbn [utf8_loop]. replace ((v / 4096 * 64 + v / 64 mod 64) * 64 + v mod 64) with v by lia. by rewrite Hs.
    + rewrite (proj2 (Z.eqb_neq _ 92)), (proj2 (Z.ltb_ge _ 0x80)), (proj2 (Z.leb_le 0xf0 _)) by lia.
      cbn [Z.eqb orb negb zlen length Pos.eqb Z.of_nat Z.add]. change 240 with (256 - 2 ^ (8 - 4)). rewrite lead_bits by (cbn; lia).
      rewrite !continuation by lia. cbn [utf8_loop].
      replace (((v / 262144 * 64 + v / 4096 mod 64) * 64 + v / 64 mod 64) * 64 + v mod 64) with v by lia. by rewrite Hs.
Qed.

(** ** [#wrap] only sets marks of arithmetic *)
Definition may_wrap (e : DynAstExpr) : Prop :=
  (x_kind e = DYN_EXPR_BINARY /\ (x_op e = DYN_OP_ADD \/ x_op e = DYN_OP_SUB \/ x_op e = DYN_OP_MUL \/ x_op e = DYN_OP_SHL))
  \/ (x_kind e = DYN_EXPR_UNARY /\ x_op e = DYN_OP_NEG).
Definition wrapped (e e' : DynAstExpr) : Prop := e' = e \/ (e' = set_wrap e /\ may_wrap e).
Definition only_wraps (a a' : DynAstProgram) : Prop :=
  (forall k, k <> EXPRESSIONS -> tab a' k = tab a k) /\ Forall2 wrapped (tab a EXPRESSIONS) (tab a' EXPRESSIONS).
Lemma only_wraps_refl a : only_wraps a a.
Proof. split; [done|]. change (Forall2 wrapped (tab a EXPRESSIONS) (tab a EXPRESSIONS)). induction (tab a EXPRESSIONS); constructor; [by left|done]. Qed.
Lemma only_wraps_trans a b c : only_wraps a b -> only_wraps b c -> only_wraps a c.
Proof.
  intros [O1 F1] [O2 F2]. split; [intros k Hk; by rewrite O2, O1|]. revert F1 F2. generalize (tab a EXPRESSIONS) (tab b EXPRESSIONS) (tab c EXPRESSIONS).
  intros l1 l2 l3 F1. revert l3. induction F1 as [|x y l1 l2 Hxy F1 IH]; intros l3 F2; inversion F2 as [|y' z l2' l3' Hyz F2']; subst; constructor; [|auto].
  destruct Hxy as [->|[-> Hx]], Hyz as [->|[-> Hy]]; [by left|by right|by right|right; by split].
Qed.
Section WrapSpec.
Context {H : Host}.
Definition wraps_only {A} (m : M A) : Prop := forall s r s', m s = Some (r, s') -> only_wraps (prog s) (prog s').
Lemma wraps_only_bind {A B} (m : M A) (f : A -> M B) : wraps_only m -> (forall x, wraps_only (f x)) -> wraps_only (mbind m f).
Proof. intros Hm Hf s r s' E. unfold mbind in E. destruct (m s) as [[x s1]|] eqn:E1; [|done]. eapply only_wraps_trans; [by eapply Hm|by eapply Hf]. Qed.
Lemma wraps_only_ret {A} (x : A) : wraps_only (mret x).
Proof. intros s r s' E. unfold mret in E. simplify_eq. apply only_wraps_refl. Qed.
Lemma wraps_only_read k i : wraps_only (read k i).
Proof. intros s r s' E. unfold read in E. destruct (get_at _ _); simplify_eq. apply only_wraps_refl. Qed.
Lemma wraps_only_ast : wraps_only ast.
Proof. intros s r s' E. unfold ast in E. simplify_eq. apply only_wraps_refl. Qed.
Lemma wraps_only_if {A} (b : bool) (m m' : M A) : wraps_only m -> wraps_only m' -> wraps_only (if b then m else m').
Proof. by destruct b. Qed.
End WrapSpec.
Ltac wraps_only := repeat first [apply wraps_only_bind; [|intros ?]|apply wraps_only_if|apply wraps_only_ret|apply wraps_only_read|apply wraps_only_ast].
Section WrapFrame.
Context {H : Host}.
(** Setting the mark of an operator that may wrap. *)
Lemma wraps_only_write id e s s' u :
  get_at (tab (prog s) EXPRESSIONS) id = Some e -> may_wrap e -> write EXPRESSIONS id (set_wrap e) s = Some (u, s') -> only_wraps (prog s) (prog s').
Proof.
  intros He Hm E. pose proof He as [Hr Hl]%get_at_Some. unfold write in E. rewrite set_at_insert in E by done. simplify_eq. cbn [prog set_prog].
  split; [intros k Hk; by rewrite tab_set_other|]. rewrite tab_set_same. cbn [rows].
  change (Forall2 wrapped (tab (prog s) EXPRESSIONS) (<[Z.to_nat id := set_wrap e]> (tab (prog s) EXPRESSIONS))).
  rewrite <- (list_insert_id (tab (prog s) EXPRESSIONS) (Z.to_nat id) e) at 1 by done. apply Forall2_insert; [|by right].
  apply (only_wraps_refl (prog s)).
Qed.
Lemma negative_literal_same e s r s' : negative_literal e s = Some (r, s') -> s' = s.
Proof.
  unfold negative_literal. destruct (_ || _); [intros E; unfold mret in E; by simplify_eq|]. unfold mbind, read.
  destruct (get_at _ _); [|done]. intros E. unfold mret in E. by simplify_eq.
Qed.
Lemma wraps_only_items mark n at_ : (forall id, wraps_only (mark id)) -> wraps_only (mark_items mark n at_).
Proof. intros Hm. revert at_. induction n as [|n IH]; intros at_; cbn [mark_items]; wraps_only; auto. Qed.

(** Marking the operators written inside [#wrap(...)] changes nothing of the
    program but the wrap marks of integer additions, subtractions, products,
    left shifts and negations, at any depth. *)
Theorem mark_wrap_frame id depth s r s' : mark_wrap id depth s = Some (r, s') -> only_wraps (prog s) (prog s').
Proof.
  unfold mark_wrap. generalize (Z.to_nat (4097 - depth)). intros fuel. revert id s r s'. induction fuel as [|n IH]; intros id s r s' E; cbn [mark_wrap_at] in E.
  { unfold mret in E. simplify_eq. apply only_wraps_refl. }
  unfold mbind at 1, ast at 1 in E. destruct (_ || _); [unfold mret in E; simplify_eq; apply only_wraps_refl|].
  unfold mbind at 1, read at 1 in E. destruct (get_at (tab (prog s) EXPRESSIONS) id) as [e|] eqn:He; [|done].
  unfold mbind at 1 in E. destruct (negative_literal e s) as [[neg s1]|] eqn:En; [|done]. apply negative_literal_same in En as ->.
  set (wraps := (is_expr DYN_EXPR_BINARY e && _) || _) in E. unfold mbind at 1 in E.
  destruct ((if wraps then write EXPRESSIONS id (set_wrap e) else mret tt) s) as [[u s1]|] eqn:E1; [|done].
  assert (only_wraps (prog s) (prog s1)) as Hw.
  { destruct wraps eqn:Ew; [|unfold mret in E1; simplify_eq; apply only_wraps_refl]. eapply wraps_only_write; [exact He| |exact E1].
    subst wraps. unfold is_expr in Ew. rewrite orb_true_iff, !andb_true_iff, !orb_true_iff, !bool_decide_eq_true in Ew. unfold may_wrap. naive_solver. }
  eapply only_wraps_trans; [exact Hw|]. revert s1 r s' E Hw E1. assert (forall i, wraps_only (mark_wrap_at n i)) as IH' by (intros i ? ? ?; apply IH).
  intros s1 r s' E _ _. match type of E with ?m s1 = _ => assert (wraps_only m) as Hm; [|by apply (Hm s1 r s')] end.
  wraps_only; auto. by apply wraps_only_items.
Qed.
End WrapFrame.
(** [a + -1] inside [#wrap]: the sum is marked, the negative literal is not. *)
Definition sample_wrap : DynAstProgram :=
  with_rows EXPRESSIONS [plain_expr DYN_EXPR_BINARY DYN_OP_ADD 1 2 0; plain_expr DYN_EXPR_NAME DYN_OP_NONE UINT32_MAX UINT32_MAX 0;
                         plain_expr DYN_EXPR_UNARY DYN_OP_NEG 3 UINT32_MAX 0; plain_expr DYN_EXPR_INT DYN_OP_NONE UINT32_MAX UINT32_MAX 1] empty_ast.
Lemma mark_wrap_frame_witness :
  match mark_wrap 0 4090 (state_of sample_wrap) with
  | Some (r, s') => only_wraps sample_wrap (prog s') /\ r = 1 /\ map x_wrap (tab (prog s') EXPRESSIONS) = [true; false; false; false]
  | None => False
  end.
Proof.
  destruct (mark_wrap 0 4090 (state_of sample_wrap)) as [[r s']|] eqn:E.
  - split; [exact (@mark_wrap_frame willing_host 0 4090 (state_of sample_wrap) r s' E)|]. vm_compute in E. injection E as <- <-. split; reflexivity.
  - vm_compute in E. discriminate E.
Defined.
