(* ===== verification/SemaGlobals.v ===== *)
(** The order in which globals are initialised (src/src/sema_globals.c).

    A depth-first search over the initialisers, the functions they call and the
    globals both mention; its work is metered and its depth limited. The order it
    finds is a topological order of what initialisers read directly and through
    functions called by name (calls of function values are not followed); when
    it finds none, a cycle or a limit was reported or memory was refused. *)

From S2P Require Import Prelude Target Source Work Ir Ast AstTypes.

Section InitGraph.
Context {H : Host}.

(** [InitGraph], less what it borrows ([a], [s], [errors]). [order] is the
    whole array and [count] its used length. *)
Record InitGraph := mkGraph {
  g_state : list Z; g_functions : list bool; g_order : list Z; g_count : Z; g_depth : Z; g_stopped : bool }.
Definition set_state (l : list Z) (g : InitGraph) : InitGraph :=
  mkGraph l (g_functions g) (g_order g) (g_count g) (g_depth g) (g_stopped g).
Definition set_functions (l : list bool) (g : InitGraph) : InitGraph :=
  mkGraph (g_state g) l (g_order g) (g_count g) (g_depth g) (g_stopped g).
Definition set_depth (d : Z) (g : InitGraph) : InitGraph :=
  mkGraph (g_state g) (g_functions g) (g_order g) (g_count g) d (g_stopped g).
Definition set_order (l : list Z) (n : Z) (g : InitGraph) : InitGraph :=
  mkGraph (g_state g) (g_functions g) l n (g_depth g) (g_stopped g).
Definition set_stopped (g : InitGraph) : InitGraph :=
  mkGraph (g_state g) (g_functions g) (g_order g) (g_count g) (g_depth g) true.

(** A visit, and [&&] of visits. *)
Definition visit : Type := InitGraph -> M (bool * InitGraph).
Definition visited (ok : bool) : visit := fun g => mret (ok, g).
Definition both (p q : visit) : visit := fun g =>
  let! (ok, g) := p g in if ok : bool then q g else mret (false, g).
Fixpoint every {A} (f : A -> visit) (l : list A) : visit :=
  match l with [] => visited true | x :: l' => both (f x) (every f l') end.

Definition depth_message : string := "initializer dependency depth exceeds 512".
Definition budget_message : string := "analysis work budget exceeded".
Definition cycle_message : string := "global initialization cycle involving '%.*s'".

Definition enter_graph : visit := fun g =>
  if g_stopped g then mret (false, g)
  else if 512 <=? g_depth g then
    error_span (mkDynSpan 0 0) depth_message ;; mret (false, set_stopped g)
  else
    let! ok := step_work 1 in
    if negb ok then error_span (mkDynSpan 0 0) budget_message ;; mret (false, set_stopped g)
    else mret (true, set_depth (g_depth g + 1) g).
(** [enter_graph], the body, and the decrement of [depth] after it. *)
Definition entered (body : visit) : visit := fun g =>
  let! (ok, g) := enter_graph g in
  if negb ok then mret (false, g)
  else let! (ok, g) := body g in mret (ok, set_depth (g_depth g - 1) g).

Definition cycle_error (id : Z) : M unit :=
  let! gl := read GLOBALS id in error_span (gl_name gl) cycle_message.

(** The bodies of the functions, over the functions they call. *)
Section Bodies.
Variables (visit_expr visit_global visit_function : Z -> visit) (visit_block : Z -> Z -> visit).

Definition visit_function_body (id : Z) : visit := fun g =>
  let! a := ast in
  if tcount a FUNCTIONS <=? id then mret (true, g)
  else
    let! seen := lift (get_at (g_functions g) id) in
    if seen : bool then mret (true, g)
    else
      let! l := lift (set_at (g_functions g) id true) in
      let! f := read FUNCTIONS id in
      visit_block (fn_body_start f) (fn_body_count f) (set_functions l g).
Definition visit_item (start i : Z) : visit := fun g =>
  let! it := read ITEMS (u32 (start + i)) in visit_expr (it_expression it) g.
Definition visit_expr_body (id : Z) : visit := fun g =>
  let! a := ast in
  if (id =? DYN_NO_EXPR) || (tcount a EXPRESSIONS <=? id) then mret (true, g)
  else
    let! e := read EXPRESSIONS id in
    both (if bool_decide (x_kind e = DYN_EXPR_GLOBAL) then visit_global (u32 (x_integer e)) else visited true)
      (both (if bool_decide (x_kind e = DYN_EXPR_CALL) then visit_function (u32 (x_integer e)) else visited true)
        (both (both (visit_expr (x_left e)) (visit_expr (x_right e)))
          (every (visit_item (x_item_start e)) (seqZ 0 (x_item_count e))))) g.
Definition visit_arm (start i : Z) : visit := fun g =>
  let! arm := read CASE_ARMS (u32 (start + i)) in visit_block (ca_body_start arm) (ca_body_count arm) g.
Definition visit_stmt (st : DynAstStmt) : visit :=
  both (both (visit_expr (s_expression st)) (visit_expr (s_target_ st)))
    (both (both (visit_block (s_body_start st) (s_body_count st)) (visit_block (s_else_start st) (s_else_count st)))
      (every (visit_arm (s_case_arm_start st)) (seqZ 0 (s_case_arm_count st)))).
Definition visit_child (start i : Z) : visit := fun g =>
  let! c := read CHILDREN (u32 (start + i)) in
  let! st := read STATEMENTS c in
  visit_stmt st g.
Definition visit_block_body (start count : Z) : visit := every (visit_child start) (seqZ 0 count).
(** [visit_global] from [g->state[id] = 1] on. *)
Definition visit_initializer (id : Z) : visit := fun g =>
  let! a := ast in
  let! l := lift (set_at (g_state g) id 1) in
  let saved := g_functions g in
  let! gl := read GLOBALS id in
  let! (ok, g) := visit_expr (gl_initializer gl)
                    (set_functions (replicate (Z.to_nat (tcount a FUNCTIONS)) false) (set_state l g)) in
  let g := set_functions saved g in
  if negb ok then let! l := lift (set_at (g_state g) id 0) in mret (false, set_state l g)
  else
    let! l := lift (set_at (g_state g) id 2) in
    let g := set_state l g in
    if negb (gl_initializer gl =? DYN_NO_EXPR) then
      let! o := lift (set_at (g_order g) (g_count g) id) in
      mret (true, set_order o (g_count g + 1) g)
    else mret (true, g).
Definition visit_global_body (id : Z) : visit := fun g =>
  let! a := ast in
  if tcount a GLOBALS <=? id then mret (false, g)
  else
    let! st := lift (get_at (g_state g) id) in
    if st =? 2 then mret (true, g)
    else if st =? 1 then cycle_error id ;; mret (false, g)
    else
      let! ok := allocate_bytes (tcount a FUNCTIONS) in
      if negb (tcount a FUNCTIONS =? 0) && negb ok then mret (false, g) else visit_initializer id g.
End Bodies.

Fixpoint visit_expr (fuel : nat) (id : Z) : visit :=
  match fuel with
  | O => fun _ => undefined
  | S n =>
      if id =? DYN_NO_EXPR then visited true
      else entered (visit_expr_body (visit_expr n) (visit_global n) (visit_function n) id)
  end
with visit_block (fuel : nat) (start count : Z) : visit :=
  match fuel with
  | O => fun _ => undefined
  | S n =>
      if count =? 0 then visited true
      else entered (visit_block_body (visit_expr n) (visit_block n) start count)
  end
with visit_function (fuel : nat) (id : Z) : visit :=
  match fuel with O => fun _ => undefined | S n => visit_function_body (visit_block n) id end
with visit_global (fuel : nat) (id : Z) : visit :=
  match fuel with O => fun _ => undefined | S n => visit_global_body (visit_expr n) id end.

(** Every global is visited, also after a cycle; the loop ends early only when
    the search was stopped. *)
Fixpoint visit_globals (fuel : nat) (l : list Z) (ok : bool) : visit := fun g =>
  match l with
  | [] => mret (ok, g)
  | i :: l' =>
      let! (found, g) := visit_global fuel i g in
      if found : bool then visit_globals fuel l' ok g
      else if g_stopped g then mret (false, g)
      else visit_globals fuel l' false g
  end.
(** The visits need two levels of recursion for each level of depth. *)
Definition graph_fuel : nat := 1028.
(** The result, and [global_init_order] with [global_init_count] when they are set. *)
Definition order_initializers : M (bool * option (list Z * Z)) :=
  let! a := ast in
  if tcount a GLOBALS =? 0 then mret (true, None)
  else
    let! ok1 := allocate_bytes (tcount a GLOBALS) in
    let! ok2 := allocate_bytes (4 * tcount a GLOBALS) in
    if negb ok1 || negb ok2 then mret (false, None)
    else
      let zeros := replicate (Z.to_nat (tcount a GLOBALS)) 0 in
      let! (ok, g) := visit_globals graph_fuel (seqZ 0 (tcount a GLOBALS)) true (mkGraph zeros [] zeros 0 0 false) in
      if negb ok then mret (false, None) else mret (true, Some (g_order g, g_count g)).

(** ** What an initialiser needs

    A node of the search, and what it mentions without entering a function or
    another initialiser: globals, functions called by name and, when [v] is
    true, functions used as values, which may be called too. *)
Inductive node := Expr (id : Z) | Block (start count : Z).
Inductive target := Global (id : Z) | Function (id : Z).
Inductive mentions (v : bool) (a : DynAstProgram) : node -> target -> Prop :=
| mention_global id e :
    id <> DYN_NO_EXPR -> get_at (tab a EXPRESSIONS) id = Some e -> x_kind e = DYN_EXPR_GLOBAL ->
    mentions v a (Expr id) (Global (u32 (x_integer e)))
| mention_call id e :
    id <> DYN_NO_EXPR -> get_at (tab a EXPRESSIONS) id = Some e -> x_kind e = DYN_EXPR_CALL ->
    mentions v a (Expr id) (Function (u32 (x_integer e)))
| mention_value id e :
    v = true -> id <> DYN_NO_EXPR -> get_at (tab a EXPRESSIONS) id = Some e -> x_kind e = DYN_EXPR_FUNCTION ->
    mentions v a (Expr id) (Function (u32 (x_integer e)))
| mention_operand id e o t :
    id <> DYN_NO_EXPR -> get_at (tab a EXPRESSIONS) id = Some e -> o = x_left e \/ o = x_right e ->
    mentions v a (Expr o) t -> mentions v a (Expr id) t
| mention_item id e i it t :
    id <> DYN_NO_EXPR -> get_at (tab a EXPRESSIONS) id = Some e -> 0 <= i < x_item_count e ->
    get_at (tab a ITEMS) (u32 (x_item_start e + i)) = Some it ->
    mentions v a (Expr (it_expression it)) t -> mentions v a (Expr id) t
| mention_stmt_expr start count i c st x t :
    0 <= i < count -> get_at (tab a CHILDREN) (u32 (start + i)) = Some c -> get_at (tab a STATEMENTS) c = Some st ->
    x = s_expression st \/ x = s_target_ st -> mentions v a (Expr x) t -> mentions v a (Block start count) t
| mention_stmt_body start count i c st t :
    0 <= i < count -> get_at (tab a CHILDREN) (u32 (start + i)) = Some c -> get_at (tab a STATEMENTS) c = Some st ->
    mentions v a (Block (s_body_start st) (s_body_count st)) t -> mentions v a (Block start count) t
| mention_stmt_else start count i c st t :
    0 <= i < count -> get_at (tab a CHILDREN) (u32 (start + i)) = Some c -> get_at (tab a STATEMENTS) c = Some st ->
    mentions v a (Block (s_else_start st) (s_else_count st)) t -> mentions v a (Block start count) t
| mention_stmt_arm start count i c st j arm t :
    0 <= i < count -> get_at (tab a CHILDREN) (u32 (start + i)) = Some c -> get_at (tab a STATEMENTS) c = Some st ->
    0 <= j < s_case_arm_count st -> get_at (tab a CASE_ARMS) (u32 (s_case_arm_start st + j)) = Some arm ->
    mentions v a (Block (ca_body_start arm) (ca_body_count arm)) t -> mentions v a (Block start count) t.

(** The globals reached from a set of targets, through the bodies of
    functions; [needs] is the dependence of a global on another. *)
Inductive reaches (v : bool) (a : DynAstProgram) : (target -> Prop) -> Z -> Prop :=
| reach_global (T : target -> Prop) h : T (Global h) -> reaches v a T h
| reach_call (T : target -> Prop) f fn h :
    T (Function f) -> get_at (tab a FUNCTIONS) f = Some fn ->
    reaches v a (mentions v a (Block (fn_body_start fn) (fn_body_count fn))) h -> reaches v a T h.
Definition needs (v : bool) (a : DynAstProgram) (g h : Z) : Prop :=
  exists gl, get_at (tab a GLOBALS) g = Some gl /\ reaches v a (mentions v a (Expr (gl_initializer gl))) h.
Definition has_initializer (a : DynAstProgram) (g : Z) : Prop :=
  exists gl, get_at (tab a GLOBALS) g = Some gl /\ gl_initializer gl <> DYN_NO_EXPR.

(** [l] lists every global with an initialiser once, after the globals it needs. *)
Definition placed_before (v : bool) (a : DynAstProgram) (l : list Z) : Prop :=
  forall i g h, l !! i = Some g -> needs v a g h -> has_initializer a h -> exists j, (j < i)%nat /\ l !! j = Some h.
Definition initial_order (v : bool) (a : DynAstProgram) (l : list Z) : Prop :=
  NoDup l /\ (forall g, g ∈ l <-> has_initializer a g) /\ placed_before v a l.

(** The ranges of the tables that the search follows without a test. *)
Definition block_in_range (a : DynAstProgram) (start count : Z) : Prop :=
  forall i, 0 <= i < count -> exists c st, get_at (tab a CHILDREN) (u32 (start + i)) = Some c /\ get_at (tab a STATEMENTS) c = Some st.
Record graph_ok (a : DynAstProgram) : Prop := {
  items_in_range : forall id e i, get_at (tab a EXPRESSIONS) id = Some e -> 0 <= i < x_item_count e ->
    exists it, get_at (tab a ITEMS) (u32 (x_item_start e + i)) = Some it;
  globals_in_range : forall id e, get_at (tab a EXPRESSIONS) id = Some e -> x_kind e = DYN_EXPR_GLOBAL ->
    u32 (x_integer e) < tcount a GLOBALS;
  bodies_in_range : forall f fn, get_at (tab a FUNCTIONS) f = Some fn -> block_in_range a (fn_body_start fn) (fn_body_count fn);
  statements_in_range : forall i st, get_at (tab a STATEMENTS) i = Some st ->
    block_in_range a (s_body_start st) (s_body_count st) /\ block_in_range a (s_else_start st) (s_else_count st) /\
    forall j, 0 <= j < s_case_arm_count st -> exists arm, get_at (tab a CASE_ARMS) (u32 (s_case_arm_start st + j)) = Some arm;
  arms_in_range : forall i arm, get_at (tab a CASE_ARMS) i = Some arm -> block_in_range a (ca_body_start arm) (ca_body_count arm);
  ids_in_range : forall id e, get_at (tab a EXPRESSIONS) id = Some e -> 0 <= x_left e /\ 0 <= x_right e;
  item_ids_in_range : forall i it, get_at (tab a ITEMS) i = Some it -> 0 <= it_expression it;
  statement_ids_in_range : forall i st, get_at (tab a STATEMENTS) i = Some st -> 0 <= s_expression st /\ 0 <= s_target_ st;
  initializers_in_range : forall i gl, get_at (tab a GLOBALS) i = Some gl -> 0 <= gl_initializer gl }.

(** Without function values both readings of [needs] agree. *)
Definition no_function_values (a : DynAstProgram) : Prop :=
  forall id e, get_at (tab a EXPRESSIONS) id = Some e -> x_kind e <> DYN_EXPR_FUNCTION.
Lemma mentions_called a n t : no_function_values a -> mentions true a n t -> mentions false a n t.
Proof.
  intros Hn. induction 1 as [id e|id e|id e _ _ He Hk|id e o t|id e i it t|start count i c st x t|start count i c st t|start count i c st t|start count i c st j arm t];
    [by eapply mention_global|by eapply mention_call|by destruct (Hn _ _ He)|by eapply mention_operand|by eapply mention_item
    |by eapply mention_stmt_expr|by eapply mention_stmt_body|by eapply mention_stmt_else|by eapply mention_stmt_arm].
Qed.
Lemma reaches_called a (T T' : target -> Prop) h : no_function_values a -> (forall t, T t -> T' t) -> reaches true a T h -> reaches false a T' h.
Proof.
  intros Hn HT Hr. revert T' HT. induction Hr as [T h Hh|T f fn h Hf Hfn Hr IH]; intros T' HT; [by apply reach_global, HT|].
  eapply reach_call; [by apply HT|done|]. apply IH. intros t. by apply mentions_called.
Qed.
Lemma order_called a l : no_function_values a -> initial_order false a l -> initial_order true a l.
Proof.
  intros Hn (Hd & Hl & Hp). split; [done|]. split; [done|]. intros i g h Hg (gl & Hgl & Hr). apply (Hp i g h Hg). exists gl. split; [done|].
  eapply reaches_called; [done| |exact Hr]. intros t. by apply mentions_called.
Qed.

(** The worlds that a run comes through: it asks for memory, for the time,
    and whether it is cancelled. *)
Inductive host_step : World -> World -> Prop :=
| asks_memory w n : host_step w (snd (allocate w n))
| asks_time w : host_step w (snd (clock w))
| asks_cancelled f w : cancelled = Some f -> host_step w (snd (f w)).
Abbreviation reached := (rtc host_step).
Lemma step_reached work units w ok work' w' : dyn_work_step work units w = (ok, work', w') -> reached w w'.
Proof.
  unfold dyn_work_step. destruct work as [x|]; [|by intros [= <- <- <-]]. destruct (negb (running x)); [by intros [= <- <- <-]|].
  destruct (_ <? units); [by intros [= <- <- <-]|]. cbv zeta. destruct (units <? _); [by intros [= <- <- <-]|].
  destruct (poll x w) as [st w1] eqn:E. intros [= <- <- <-]. unfold poll in E.
  assert (exists stop w2, match cancelled with Some f => f w | None => (false, w) end = (stop, w2) /\ reached w w2) as (stop & w2 & E2 & Hw2).
  { destruct cancelled as [f|] eqn:Ec; [|by do 2 eexists]. pose proof (asks_cancelled f w Ec) as Hs. destruct (f w) as [stop w2].
    exists stop, w2. split; [done|]. by apply rtc_once. }
  rewrite E2 in E. destruct stop; [by injection E as <- <-|]. destruct (negb _); [|by injection E as <- <-].
  pose proof (asks_time w2) as Hs. destruct (clock w2) as [now w3]. injection E as <- <-. etransitivity; [exact Hw2|]. by apply rtc_once.
Qed.

(** From one state of a run to a later one, and why a search that started in
    [s0] can fail in [s]: a cycle or a limit, both reported by this run, or an
    allocation of this run that was refused. *)
Definition later (s s' : St) : Prop := (exists new, diags s' = new ++ diags s) /\ reached (world s) (world s').
Definition reported (s0 s : St) (m : Diagnostic) : Prop := exists new, diags s = new ++ diags s0 /\ m ∈ new.
Definition limit_reported (s0 s : St) : Prop :=
  reported s0 s (mkDynSpan 0 0, depth_message) \/ reported s0 s (mkDynSpan 0 0, budget_message).
Definition refused (s0 s : St) : Prop :=
  exists w n w', reached (world s0) w /\ allocate w n = (false, w') /\ reached w' (world s).
Definition no_order (a : DynAstProgram) (s0 s : St) : Prop :=
  (exists h gl, tc (needs false a) h h /\ get_at (tab a GLOBALS) h = Some gl /\ reported s0 s (gl_name gl, cycle_message))
  \/ limit_reported s0 s \/ refused s0 s.
Lemma later_refl s : later s s.
Proof. split; [by exists []|done]. Qed.
Lemma later_trans s1 s2 s3 : later s1 s2 -> later s2 s3 -> later s1 s3.
Proof. intros [[n1 E1] W1] [[n2 E2] W2]. split; [exists (n2 ++ n1); by rewrite E2, E1, app_assoc|by etransitivity]. Qed.
Lemma later_error s d : later s (mkSt (prog s) (sema s) (d :: diags s) (work s) (world s)).
Proof. split; [by exists [d]|done]. Qed.
Lemma reported_now s0 s d : later s0 s -> reported s0 (mkSt (prog s) (sema s) (d :: diags s) (work s) (world s)) d.
Proof. intros [[new E] _]. exists (d :: new). cbn. rewrite E. split; [done|by left]. Qed.
Lemma reported_later s0 s s' d : later s s' -> reported s0 s d -> reported s0 s' d.
Proof. intros [[n E] _] (new & Hd & Hin). exists (n ++ new). rewrite E, Hd, app_assoc. split; [done|]. apply elem_of_app. by right. Qed.
Lemma limit_later s0 s s' : later s s' -> limit_reported s0 s -> limit_reported s0 s'.
Proof. intros Hl [?|?]; [left|right]; by eapply reported_later. Qed.
Lemma no_order_later a s0 s s' : later s s' -> no_order a s0 s -> no_order a s0 s'.
Proof.
  intros Hl [(h & gl & ? & ? & ?)|[Hm|(w & n & w' & ? & ? & ?)]].
  - left. exists h, gl. split_and!; [done|done|by eapply reported_later].
  - right; left. by eapply limit_later.
  - right; right. exists w, n, w'. split_and!; [done|done|]. destruct Hl as [_ Hw]. by etransitivity.
Qed.

(** ** The invariant of the search *)
Section Search.
Variable a : DynAstProgram.
Hypothesis Hwf : graph_ok a.
Variable s0 : St.

Definition state_is (g : InitGraph) (v x : Z) : Prop := get_at (g_state g) x = Some v.
Record search_ok (g : InitGraph) (s : St) : Prop := {
  so_prog : prog s = a;
  so_state : zlen (g_state g) = tcount a GLOBALS;
  so_order : zlen (g_order g) = tcount a GLOBALS;
  so_count : 0 <= g_count g <= zlen (g_order g);
  so_depth : 0 <= g_depth g <= 512;
  so_nodup : NoDup (take (Z.to_nat (g_count g)) (g_order g));
  so_listed : forall x, x ∈ take (Z.to_nat (g_count g)) (g_order g) <-> state_is g 2 x /\ has_initializer a x;
  so_sorted : placed_before false a (take (Z.to_nat (g_count g)) (g_order g));
  so_done : forall x h, state_is g 2 x -> needs false a x h -> state_is g 2 h;
  so_later : later s0 s;
  so_stopped : g_stopped g = true -> limit_reported s0 s }.

(** A target is dealt with: the global is initialised, the function marked. *)
Definition hit (g : InitGraph) (t : target) : Prop :=
  match t with
  | Global h => state_is g 2 h
  | Function f => tcount a FUNCTIONS <= f \/ get_at (g_functions g) f = Some true
  end.
Definition covers (g : InitGraph) (T : target -> Prop) : Prop := forall t, T t -> hit g t.
Definition body_of (f : Z) (t : target) : Prop :=
  exists fn, get_at (tab a FUNCTIONS) f = Some fn /\ mentions false a (Block (fn_body_start fn) (fn_body_count fn)) t.
(** From [g] to [g'] marks and initialisations were added, and the functions
    marked meanwhile are covered. *)
Record advanced (g g' : InitGraph) : Prop := {
  ad_functions : zlen (g_functions g') = zlen (g_functions g);
  ad_marked : forall f, get_at (g_functions g) f = Some true -> get_at (g_functions g') f = Some true;
  ad_depth : g_depth g' = g_depth g;
  ad_active : forall x, state_is g' 1 x <-> state_is g 1 x;
  ad_done : forall x, state_is g 2 x -> state_is g' 2 x }.
Definition new_covered (g g' : InitGraph) : Prop :=
  forall f, get_at (g_functions g') f = Some true -> get_at (g_functions g) f <> Some true -> covers g' (body_of f).
(** The active globals need all that the visit can reach. *)
Definition awaited (g : InitGraph) (T : target -> Prop) : Prop :=
  forall x h, state_is g 1 x -> reaches false a T h -> tc (needs false a) x h.

Definition good (frame : bool) (depth : Z) (v : visit) (T : target -> Prop) : Prop :=
  forall g s, search_ok g s -> (frame = true -> zlen (g_functions g) = tcount a FUNCTIONS) -> awaited g T -> depth <= g_depth g ->
  exists ok g' s', v g s = Some ((ok, g'), s') /\ search_ok g' s' /\ advanced g g' /\ later s s' /\
    (ok = true -> covers g' T /\ new_covered g g' /\ diags s' = diags s) /\ (ok = false -> no_order a s0 s').

Lemma advanced_refl g : advanced g g.
Proof. by split. Qed.
Lemma advanced_trans g1 g2 g3 : advanced g1 g2 -> advanced g2 g3 -> advanced g1 g3.
Proof.
  intros [] []. split; [congruence|eauto|congruence| |eauto]. intros x. etransitivity; eauto.
Qed.
Lemma covers_advanced g g' T : advanced g g' -> covers g T -> covers g' T.
Proof. intros [] Hc [h|f] Ht; [exact (ad_done0 _ (Hc _ Ht))|]. destruct (Hc _ Ht); [by left|right; eauto]. Qed.
Lemma new_covered_trans g1 g2 g3 :
  advanced g2 g3 -> new_covered g1 g2 -> new_covered g2 g3 -> new_covered g1 g3.
Proof.
  intros Had H12 H23 f Hf Hn. destruct (decide (get_at (g_functions g2) f = Some true)) as [E|E].
  - eapply covers_advanced; [done|]. by apply H12.
  - by apply H23.
Qed.
Lemma reaches_mono T T' h : (forall t, T t -> T' t) -> reaches false a T h -> reaches false a T' h.
Proof. intros HT. destruct 1 as [T h Hh|T f fn h Hf Hfn Hb]; [by apply reach_global, HT|by eapply reach_call; eauto]. Qed.
Lemma awaited_mono g T T' : (forall t, T t -> T' t) -> awaited g T' -> awaited g T.
Proof. intros HT Ha x h Hx Hr. eapply Ha; [done|]. by eapply reaches_mono. Qed.
Lemma awaited_advanced g g' T : advanced g g' -> awaited g T -> awaited g' T.
Proof. intros Had Ha x h Hx. by apply Ha, (ad_active _ _ Had). Qed.
Lemma good_ext fr d v T T' : (forall t, T t <-> T' t) -> good fr d v T -> good fr d v T'.
Proof.
  intros HT Hg g s Hok Hfr Ha Hd. destruct (Hg g s Hok Hfr) as (ok & g' & s' & E & Hok' & Had & Hds & Ht & Hf); [|done|].
  { eapply awaited_mono; [|exact Ha]. intros t. apply HT. }
  exists ok, g', s'. split_and!; try done. intros ->. destruct (Ht eq_refl) as (Hc & ? & ?). split_and!; try done.
  intros t Htt. by apply Hc, HT.
Qed.
Lemma good_visited fr d : good fr d (visited true) (fun _ => False).
Proof.
  intros g s Hok Hfr Ha Hd. exists true, g, s. split_and!; [done|done|apply advanced_refl|apply later_refl| |done].
  intros _. split_and!; [by intros t|by intros f H1 H2|done].
Qed.
Lemma good_both fr d p q T1 T2 :
  good fr d p T1 -> good fr d q T2 -> good fr d (both p q) (fun t => T1 t \/ T2 t).
Proof.
  intros Hp Hq g s Hok Hfr Ha Hd. unfold both, mbind.
  destruct (Hp g s Hok Hfr) as ([] & g1 & s1 & -> & Hok1 & Had1 & Hd1 & Ht1 & Hf1); [|done| |].
  { eapply awaited_mono; [|done]. by left. }
  2: { by exists false, g1, s1. }
  destruct (Ht1 eq_refl) as (Hc1 & Hn1 & Ed1).
  destruct (Hq g1 s1 Hok1) as (ok & g2 & s2 & -> & Hok2 & Had2 & Hd2 & Ht2 & Hf2).
  { intros Hx. rewrite (ad_functions _ _ Had1). by apply Hfr. }
  { eapply awaited_advanced; [done|]. eapply awaited_mono; [|done]. by right. }
  { by rewrite (ad_depth _ _ Had1). }
  exists ok, g2, s2. split_and!; try done; [by eapply advanced_trans|by eapply later_trans|].
  intros ->. destruct (Ht2 eq_refl) as (Hc2 & Hn2 & Ed2). split_and!.
  - intros t [Ht|Ht]; [|by apply Hc2]. by eapply covers_advanced.
  - by eapply new_covered_trans.
  - congruence.
Qed.
Lemma good_every {A} fr d (f : A -> visit) T l :
  (forall x, x ∈ l -> good fr d (f x) (T x)) -> good fr d (every f l) (fun t => exists x, x ∈ l /\ T x t).
Proof.
  induction l as [|x l IH]; intros Hf; cbn [every].
  - eapply good_ext; [|apply good_visited]. intros t. split; [done|]. by intros (x & Hx%elem_of_nil & _).
  - eapply good_ext; [|apply good_both; [apply Hf; left|apply IH; intros; apply Hf; by right]].
    intros t. split.
    + intros [Ht|(y & Hy & Ht)]; [exists x|exists y]; (split; [|done]); [left|by right].
    + intros (y & [->|Hy]%elem_of_cons & Ht); [by left|right; eauto].
Qed.

Lemma get_at_upd {A} (l : list A) i j x y :
  0 <= i < zlen l -> get_at (<[Z.to_nat i := x]> l) j = Some y <-> (j = i /\ y = x) \/ (j <> i /\ get_at l j = Some y).
Proof.
  intros Hi. unfold zlen in Hi. destruct (decide (j = i)) as [->|Hne]; [rewrite get_at_insert_eq by lia; naive_solver|].
  destruct (Z_lt_le_dec j 0); [|rewrite get_at_insert_ne by lia; naive_solver].
  unfold get_at. zb. naive_solver.
Qed.
Lemma good_read fr d k i x (f : row k -> visit) T :
  get_at (tab a k) i = Some x -> good fr d (f x) T -> good fr d (fun g => let! x := read k i in f x g) T.
Proof. intros Hx Hf g s Hok. unfold mbind, read. rewrite (so_prog _ _ Hok), Hx. by apply Hf. Qed.
Lemma search_ok_later g s s' : prog s' = prog s -> later s s' -> search_ok g s -> search_ok g s'.
Proof.
  intros Hp Hd []. split; try done; [congruence|by eapply later_trans|]. intros E. by eapply limit_later; [|apply so_stopped0].
Qed.
Lemma search_ok_depth g s n : 0 <= n <= 512 -> search_ok g s -> search_ok (set_depth n g) s.
Proof. by intros Hn []. Qed.
Lemma advanced_depth g g' n m :
  advanced (set_depth n g) g' -> g_depth g = m -> advanced g (set_depth m g').
Proof. intros [] E. by split. Qed.

Lemma good_entered fr d body T : (d < 512 -> good fr (d + 1) body T) -> good fr d (entered body) T.
Proof.
  intros Hb g s Hok Hfr Ha Hd. unfold entered, enter_graph, mbind, mret.
  destruct (g_stopped g) eqn:Es.
  { exists false, g, s. split_and!; [done|done|apply advanced_refl|apply later_refl|done|]. intros _. right; left. by apply (so_stopped _ _ Hok). }
  pose proof (so_depth _ _ Hok) as Hdep. destruct (Z.leb_spec 512 (g_depth g)) as [Hge|Hlt]; cbn [negb].
  { eexists false, (set_stopped g), _. split; [reflexivity|]. pose proof (reported_now s0 s (mkDynSpan 0 0, depth_message) (so_later _ _ Hok)) as Hrep.
    destruct Hok. split_and!; [|by split|apply later_error|done|].
    - split; try done; [by eapply later_trans, later_error|]. intros _. by left.
    - intros _. right; left. by left. }
  unfold step_work. destruct (dyn_work_step _ _ _) as [[[] w] world'] eqn:Ew; cbn [negb error_span]; apply step_reached in Ew.
  2: { eexists false, (set_stopped g), _. split; [reflexivity|]. set (s1 := mkSt (prog s) (sema s) (diags s) w world').
       assert (later s s1) as L1 by (split; [by exists []|done]).
       pose proof (later_trans _ _ _ (so_later _ _ Hok) L1) as L2.
       pose proof (reported_now s0 s1 (mkDynSpan 0 0, budget_message) L2) as Hrep.
       destruct Hok. split_and!; [|by split|eapply later_trans; [exact L1|apply (later_error s1)]|done|].
       - split; try done; [eapply later_trans; [exact L2|apply (later_error s1)]|]. intros _. by right.
       - intros _. right; left. by right. }
  set (s1 := mkSt _ _ _ _ _). set (g1 := set_depth (g_depth g + 1) g). assert (later s s1) as L1 by (split; [by exists []|done]).
  destruct (Hb ltac:(lia) g1 s1) as (ok & g2 & s2 & -> & Hok2 & Had & Hds & Ht & Hf).
  { apply search_ok_depth; [lia|]. by eapply search_ok_later; [| |done]. }
  { done. }
  { done. }
  { cbn. lia. }
  pose proof (ad_depth _ _ Had) as Ed. cbn in Ed. rewrite Ed.
  exists ok, (set_depth (g_depth g) g2), s2. replace (g_depth g + 1 - 1) with (g_depth g) by lia. split_and!; try done.
  - apply search_ok_depth; [lia|done].
  - by eapply advanced_depth.
  - by eapply later_trans.
Qed.

Lemma good_function d vb id :
  0 <= id ->
  (forall fn, get_at (tab a FUNCTIONS) id = Some fn ->
     good true d (vb (fn_body_start fn) (fn_body_count fn)) (mentions false a (Block (fn_body_start fn) (fn_body_count fn)))) ->
  good true d (visit_function_body vb id) (fun t => t = Function id).
Proof.
  intros Hid Hb g s Hok Hfr Ha Hd. unfold visit_function_body, mbind, ast, mret, lift. rewrite (so_prog _ _ Hok).
  destruct (Z.leb_spec (tcount a FUNCTIONS) id) as [Hge|Hlt].
  { exists true, g, s. split_and!; [done|done|apply advanced_refl|apply later_refl| |done]. intros _. split_and!; [|by intros ???|done].
    intros t ->. by left. }
  destruct (get_at_is_Some (g_functions g) id) as [seen Hs]; [unfold zlen in Hfr; lia|]. rewrite Hs. destruct seen.
  { exists true, g, s. split_and!; [done|done|apply advanced_refl|apply later_refl| |done]. intros _. split_and!; [|by intros ???|done].
    intros t ->. by right. }
  destruct (get_at_is_Some (tab a FUNCTIONS) id) as [fn Hfn]; [unfold tcount, zlen in Hlt; lia|].
  rewrite set_at_insert by (unfold zlen in Hfr; lia). unfold read. rewrite (so_prog _ _ Hok), Hfn.
  specialize (Hfr eq_refl). set (l := <[Z.to_nat id := true]> (g_functions g)).
  destruct (Hb fn Hfn (set_functions l g) s) as (ok & g2 & s2 & -> & Hok2 & Had & Hds & Ht & Hf).
  { by destruct Hok. }
  { intros _. cbn. unfold zlen, l. by rewrite length_insert. }
  { intros x h Hx Hr. apply Ha; [done|]. by eapply reach_call. }
  { done. }
  assert (Hl : forall f, get_at l f = Some true <-> f = id \/ get_at (g_functions g) f = Some true).
  { intros f. unfold l. rewrite get_at_upd by lia. naive_solver. }
  exists ok, g2, s2. destruct Had as [A1 A2 A3 A4 A5]. split_and!; try done.
  - split; try done. { rewrite A1. cbn. unfold zlen, l. by rewrite length_insert. } intros f Hf'. apply A2, Hl. by right.
  - intros ->. destruct (Ht eq_refl) as (Hc & Hn & ->). split_and!; [|intros f Hf1 Hf2|done].
    + intros t ->. right. apply A2, Hl. by left.
    + destruct (decide (f = id)) as [->|Hne].
      * intros t (fn' & Hfn' & Hm). simplify_eq. by apply Hc.
      * apply Hn; [done|]. cbn. rewrite Hl. naive_solver.
Qed.

(** With every marked function covered, all that is reached is initialised. *)
Lemma covered_reaches g T h :
  covers g T -> (forall f, get_at (g_functions g) f = Some true -> covers g (body_of f)) -> reaches false a T h -> state_is g 2 h.
Proof.
  intros Hc Hb Hr. revert Hc. induction Hr as [T h Ht|T f fn h Ht Hfn _ IH]; intros Hc; [by apply (Hc (Global h))|].
  destruct (Hc _ Ht) as [Hge|Hm].
  - apply get_at_Some in Hfn as [Hf _]. unfold tcount, zlen in Hge. lia.
  - apply IH. intros t Ht'. apply (Hb f Hm). by exists fn.
Qed.

(** Entering the initialiser of [id], and leaving it without a result. *)
Lemma search_ok_mark g s l id v :
  v <> 2 -> 0 <= id < tcount a GLOBALS -> ~ state_is g 2 id -> search_ok g s ->
  search_ok (set_functions l (set_state (<[Z.to_nat id := v]> (g_state g)) g)) s.
Proof.
  intros Hv Hid Hn [].
  assert (E : forall x, get_at (<[Z.to_nat id := v]> (g_state g)) x = Some 2 <-> state_is g 2 x).
  { intros x. rewrite get_at_upd by lia. unfold state_is in *. split; [naive_solver|]. intros Hx. right. split; [|done]. by intros ->. }
  split; try done; cbn.
  - unfold zlen. by rewrite length_insert.
  - intros x. rewrite so_listed0. unfold state_is at 2. cbn. by rewrite E.
  - intros x h. unfold state_is; cbn. rewrite !E. apply so_done0.
Qed.
Lemma awaited_initializer g l id gl :
  0 <= id < zlen (g_state g) -> get_at (tab a GLOBALS) id = Some gl -> awaited g (fun t => t = Global id) ->
  awaited (set_functions l (set_state (<[Z.to_nat id := 1]> (g_state g)) g)) (mentions false a (Expr (gl_initializer gl))).
Proof.
  intros Hid Hgl Ha x h Hx Hr. assert (needs false a id h) as Hn by (by exists gl).
  unfold state_is in Hx; cbn in Hx. rewrite get_at_upd in Hx by done. destruct Hx as [[-> _]|[_ Hx]]; [by apply tc_once|].
  apply tc_r with id; [|done]. apply Ha; [done|]. by apply reach_global.
Qed.

(** The list has room for one more global. *)
Lemma order_room g s id :
  search_ok g s -> has_initializer a id -> ~ state_is g 2 id -> g_count g < zlen (g_order g).
Proof.
  intros [] [gl [Hgl _]] Hn. set (o := take (Z.to_nat (g_count g)) (g_order g)) in *.
  assert (Hlen : length o = Z.to_nat (g_count g)) by (unfold o, zlen in *; rewrite length_take; lia).
  assert (length (id :: o) <= length (seqZ 0 (tcount a GLOBALS)))%nat as Hle.
  { apply submseteq_length, NoDup_submseteq.
    - apply NoDup_cons. split; [|done]. by intros [Hx _]%so_listed0.
    - intros x [->|[Hx _]%so_listed0]%elem_of_cons; apply elem_of_seqZ.
      + apply get_at_Some in Hgl as [? _]. unfold tcount, zlen. lia.
      + apply get_at_Some in Hx as [? _]. unfold zlen in so_state0. lia. }
  rewrite length_seqZ in Hle. cbn in Hle. unfold tcount, zlen in *. lia.
Qed.
Lemma take_snoc_write (l : list Z) n x :
  0 <= n < zlen l -> take (Z.to_nat (n + 1)) (<[Z.to_nat n := x]> l) = take (Z.to_nat n) l ++ [x].
Proof.
  unfold zlen. intros Hn. replace (Z.to_nat (n + 1)) with (S (Z.to_nat n)) by lia.
  rewrite (take_S_r _ _ x) by (apply list_lookup_insert_eq; lia). by rewrite take_insert_ge.
Qed.
(** Leaving it with all that it needs initialised. *)
Lemma search_ok_finish g s id gl o n :
  get_at (tab a GLOBALS) id = Some gl -> ~ state_is g 2 id -> search_ok g s ->
  (forall h, needs false a id h -> state_is g 2 h) ->
  (if gl_initializer gl =? DYN_NO_EXPR then o = g_order g /\ n = g_count g
   else o = <[Z.to_nat (g_count g) := id]> (g_order g) /\ n = g_count g + 1) ->
  search_ok (set_order o n (set_state (<[Z.to_nat id := 2]> (g_state g)) g)) s.
Proof.
  intros Hgl Hn Hok Hneeds Ho. pose proof Hok as []. assert (Hid : 0 <= id < zlen (g_state g)).
  { apply get_at_Some in Hgl as [? _]. unfold tcount, zlen in *. lia. }
  assert (E : forall x, get_at (<[Z.to_nat id := 2]> (g_state g)) x = Some 2 <-> x = id \/ state_is g 2 x).
  { intros x. rewrite get_at_upd by done. unfold state_is. destruct (decide (x = id)); naive_solver. }
  assert (Hi : has_initializer a id <-> gl_initializer gl <> DYN_NO_EXPR).
  { split; [intros (gl' & Hgl' & ?); by simplify_eq|by exists gl]. }
  assert (Hdone : forall x h, x = id \/ state_is g 2 x -> needs false a x h -> h = id \/ state_is g 2 h).
  { intros x h [->|Hx] Hh; right; [by apply Hneeds|by eapply so_done0]. }
  destruct (Z.eqb_spec (gl_initializer gl) DYN_NO_EXPR) as [En|En]; destruct Ho as [-> ->].
  - split; try done; cbn; [unfold zlen; by rewrite length_insert| |].
    + intros x. rewrite so_listed0. unfold state_is at 2. cbn. rewrite E. naive_solver.
    + intros x h. unfold state_is; cbn. rewrite !E. apply Hdone.
  - assert (g_count g < zlen (g_order g)) as Hroom by (by eapply order_room; [|apply Hi|]).
    assert (Hnot : id ∉ take (Z.to_nat (g_count g)) (g_order g)) by (by intros [Hx _]%so_listed0).
    split; try done; cbn; try rewrite take_snoc_write by lia.
    + unfold zlen. by rewrite length_insert.
    + unfold zlen. by rewrite length_insert.
    + unfold zlen in *. rewrite length_insert. lia.
    + apply NoDup_app. split_and!; [done| |apply NoDup_singleton]. by intros x Hx ->%list_elem_of_singleton.
    + intros x. rewrite elem_of_app, so_listed0, list_elem_of_singleton. unfold state_is at 2. cbn. rewrite E. naive_solver.
    + intros i x h Hx Hh Hh'. apply lookup_app_Some in Hx as [Hx|[Hlen Hx]].
      * destruct (so_sorted0 i x h Hx Hh Hh') as (j & Hj & Hjh). exists j. split; [done|]. by apply lookup_app_l_Some.
      * apply list_lookup_singleton_Some in Hx as [_ ->].
        assert (h ∈ take (Z.to_nat (g_count g)) (g_order g)) as [j Hj]%list_elem_of_lookup by (apply so_listed0; eauto).
        exists j. split; [apply lookup_lt_Some in Hj; lia|]. by apply lookup_app_l_Some.
    + intros x h. unfold state_is; cbn. rewrite !E. apply Hdone.
Qed.

Lemma get_at_replicate_false n f : get_at (replicate n false) f <> Some true.
Proof. intros [_ Hx]%get_at_Some. by apply lookup_replicate in Hx as [? _]. Qed.
(** The state after the initialiser of [id], seen from the state before. *)
Lemma advanced_around g g1 g2 id v w :
  0 <= id < zlen (g_state g) -> ~ state_is g 1 id -> ~ state_is g 2 id -> v <> 1 ->
  g_state g1 = <[Z.to_nat id := 1]> (g_state g) -> g_depth g1 = g_depth g -> advanced g1 g2 ->
  zlen (g_state g2) = zlen (g_state g) ->
  advanced g (set_order w.1 w.2 (set_state (<[Z.to_nat id := v]> (g_state g2)) (set_functions (g_functions g) g2))).
Proof.
  intros Hid H1 H2 Hv E1 Ed [_ _ Ad Aa An] Hlen. unfold state_is in *.
  assert (Hg1 : forall x u, get_at (g_state g1) x = Some u <-> (x = id /\ u = 1) \/ (x <> id /\ get_at (g_state g) x = Some u))
    by (intros; rewrite E1; by apply get_at_upd).
  split; cbn; [done|done|congruence| |]; intros x; unfold state_is; cbn; rewrite get_at_upd by lia.
  - rewrite Aa, Hg1. destruct (decide (x = id)); naive_solver.
  - intros Hx. right. split; [by intros ->|]. apply An, Hg1. right. split; [by intros ->|done].
Qed.

Lemma initializer_ok d ve id gl g s :
  get_at (tab a GLOBALS) id = Some gl -> ~ state_is g 1 id -> ~ state_is g 2 id ->
  good true d (ve (gl_initializer gl)) (mentions false a (Expr (gl_initializer gl))) ->
  search_ok g s -> awaited g (fun t => t = Global id) -> d <= g_depth g ->
  exists ok g' s', visit_initializer ve id g s = Some ((ok, g'), s') /\ search_ok g' s' /\ advanced g g' /\ later s s' /\
    (ok = true -> covers g' (fun t => t = Global id) /\ new_covered g g' /\ diags s' = diags s) /\ (ok = false -> no_order a s0 s').
Proof.
  intros Hgl Hn1 Hn2 Hb Hok Ha Hd. unfold visit_initializer, mbind, ast, mret, lift.
  pose proof (so_prog _ _ Hok) as Ep. pose proof (so_state _ _ Hok) as Hst.
  assert (Hid : 0 <= id < zlen (g_state g)) by (apply get_at_Some in Hgl as [? _]; unfold tcount, zlen in *; lia).
  rewrite set_at_insert by done. unfold read at 1. rewrite Ep, Hgl. set (g1 := set_functions _ _).
  destruct (Hb g1 s) as (ok2 & g2 & s2 & -> & Hok2 & Had & Hds & Ht & Hf).
  { apply search_ok_mark; [done|lia|done|done]. }
  { intros _. cbn. unfold zlen. rewrite length_replicate. unfold tcount, zlen. lia. }
  { by apply awaited_initializer. }
  { done. }
  pose proof (so_state _ _ Hok2) as Hst2.
  assert (Hact : state_is g2 1 id) by (apply (ad_active _ _ Had); cbn; apply get_at_upd; [lia|by left]).
  assert (Hn2' : ~ state_is g2 2 id) by (unfold state_is in *; congruence).
  assert (Hadv : forall v w, v <> 1 -> advanced g (set_order w.1 w.2 (set_state (<[Z.to_nat id := v]> (g_state g2)) (set_functions (g_functions g) g2)))).
  { intros v w' Hv. eapply (advanced_around g g1); try done. congruence. }
  cbn [g_state set_functions]. destruct ok2; cbn [negb]; rewrite set_at_insert by (unfold zlen in *; lia).
  2: { eexists false, _, s2. split; [reflexivity|]. split_and!; [|by apply (Hadv 0 (_, _))|done|done|by intros _; apply Hf].
       apply (search_ok_mark g2 s2 (g_functions g)); [done|lia|done|done]. }
  destruct (Ht eq_refl) as (Hc & Hn & Ed). cbn [g_order g_count set_state set_functions].
  assert (Hneeds : forall h, needs false a id h -> state_is g2 2 h).
  { intros h (gl' & Hgl' & Hr). simplify_eq. eapply covered_reaches; [exact Hc| |exact Hr].
    intros f Hm. apply Hn; [done|]. cbn. apply get_at_replicate_false. }
  assert (Hend : forall o n,
    (if gl_initializer gl =? DYN_NO_EXPR then o = g_order g2 /\ n = g_count g2
     else o = <[Z.to_nat (g_count g2) := id]> (g_order g2) /\ n = g_count g2 + 1) ->
    let g' := set_order o n (set_state (<[Z.to_nat id := 2]> (g_state g2)) (set_functions (g_functions g) g2)) in
    search_ok g' s2 /\ advanced g g' /\ covers g' (fun t => t = Global id) /\ new_covered g g').
  { intros o n Ho. split_and!; [|by apply (Hadv 2 (o, n))| |by intros f Hf1 Hf2].
    - by destruct (search_ok_finish g2 s2 id gl o n Hgl Hn2' Hok2 Hneeds Ho).
    - intros t ->. cbn. apply get_at_upd; [lia|by left]. }
  destruct (gl_initializer gl =? DYN_NO_EXPR) eqn:En; cbn [negb].
  - destruct (Hend (g_order g2) (g_count g2)) as (? & ? & ? & ?); [done|]. by eexists true, _, s2.
  - assert (g_count g2 < zlen (g_order g2)).
    { eapply order_room; [done| |done]. exists gl. split; [done|]. by apply Z.eqb_neq. }
    pose proof (so_count _ _ Hok2). rewrite set_at_insert by (unfold zlen in *; lia).
    destruct (Hend _ _ (conj eq_refl eq_refl)) as (? & ? & ? & ?). by eexists true, _, s2.
Qed.
Lemma good_global fr d ve id :
  0 <= id < tcount a GLOBALS ->
  (forall gl, get_at (tab a GLOBALS) id = Some gl ->
     good true d (ve (gl_initializer gl)) (mentions false a (Expr (gl_initializer gl)))) ->
  good fr d (visit_global_body ve id) (fun t => t = Global id).
Proof.
  intros Hid Hb g s Hok Hfr Ha Hd. unfold visit_global_body, mbind, ast, mret, lift. pose proof (so_prog _ _ Hok) as Ep. rewrite Ep.
  pose proof (so_state _ _ Hok) as Hst. zb. destruct (get_at_is_Some (g_state g) id) as [st Hs]; [unfold zlen in Hst; lia|]. rewrite Hs.
  destruct (get_at_is_Some (tab a GLOBALS) id) as [gl Hgl]; [done|].
  destruct (Z.eqb_spec st 2) as [->|H2].
  { exists true, g, s. split_and!; [done|done|apply advanced_refl|apply later_refl| |done]. intros _. by split_and!; [intros t ->|intros ???|]. }
  destruct (Z.eqb_spec st 1) as [->|H1].
  { unfold cycle_error, mbind, read. rewrite Ep, Hgl. eexists false, g, _. split; [reflexivity|].
    split_and!; [by eapply search_ok_later; [|apply later_error|]|apply advanced_refl|apply later_error|done|].
    intros _. left. exists id, gl. split_and!; [|done|apply reported_now, Hok]. apply Ha; [done|]. by apply reach_global. }
  unfold allocate_bytes. destruct (allocate (world s) _) as [ok w] eqn:Ea. set (s1 := mkSt _ _ _ _ w).
  assert (later s s1) as L1.
  { split; [by exists []|]. pose proof (asks_memory (world s) (tcount a FUNCTIONS)) as Hstep. rewrite Ea in Hstep. by apply rtc_once. }
  assert (Hok1 : search_ok g s1) by (by eapply search_ok_later; [| |done]).
  destruct (negb (tcount a FUNCTIONS =? 0) && negb ok) eqn:Eo.
  { exists false, g, s1. split_and!; [done|done|apply advanced_refl|done|done|]. intros _. right; right.
    exists (world s), (tcount a FUNCTIONS), w. to_prop. destruct Eo as [_ ->]. by split_and!; [apply (so_later _ _ Hok)| |]. }
  destruct (initializer_ok d ve id gl g s1) as (ok' & g' & s' & ?); unfold state_is; try done; [congruence|congruence|by apply Hb|].
  destruct_and!. exists ok', g', s'. split_and!; try done. by eapply later_trans.
Qed.

(** ** The recursion *)
Lemma good_expr_body d ve vg vf id :
  (forall x, 0 <= x -> good true d (ve x) (mentions false a (Expr x))) ->
  (forall x, 0 <= x < tcount a GLOBALS -> good true d (vg x) (fun t => t = Global x)) ->
  (forall x, 0 <= x -> good true d (vf x) (fun t => t = Function x)) ->
  0 <= id -> good true d (visit_expr_body ve vg vf id) (mentions false a (Expr id)).
Proof.
  intros He Hg Hf Hid.
  destruct (decide (id = DYN_NO_EXPR \/ tcount a EXPRESSIONS <= id)) as [Hout|Hin].
  - intros g s Hok Hfr Ha Hd. unfold visit_expr_body, mbind, ast. rewrite (so_prog _ _ Hok).
    replace ((id =? DYN_NO_EXPR) || _) with true by (symmetry; apply orb_true_iff; rewrite Z.eqb_eq, Z.leb_le; tauto).
    exists true, g, s. split_and!; [done|done|apply advanced_refl|apply later_refl| |done]. intros _. split_and!; [|by intros ???|done].
    intros t Ht. exfalso. inversion Ht as [? e Hne Hx|? e Hne Hx|? e ? Hne Hx|? e ? ? Hne Hx|? e ? ? ? Hne Hx| | | |]; subst; try done;
      apply get_at_Some in Hx as [Hx _]; unfold tcount, zlen in Hout; lia.
  - destruct (get_at_is_Some (tab a EXPRESSIONS) id) as [e Hx]; [unfold tcount, zlen in Hin; lia|].
    destruct (ids_in_range a Hwf id e Hx) as [Hl Hr]. assert (Hno : id <> DYN_NO_EXPR) by tauto.
    assert (G : good true d
      (both (if bool_decide (x_kind e = DYN_EXPR_GLOBAL) then vg (u32 (x_integer e)) else visited true)
        (both (if bool_decide (x_kind e = DYN_EXPR_CALL) then vf (u32 (x_integer e)) else visited true)
          (both (both (ve (x_left e)) (ve (x_right e))) (every (visit_item ve (x_item_start e)) (seqZ 0 (x_item_count e))))))
      (fun t => (x_kind e = DYN_EXPR_GLOBAL /\ t = Global (u32 (x_integer e))) \/ (x_kind e = DYN_EXPR_CALL /\ t = Function (u32 (x_integer e)))
        \/ (mentions false a (Expr (x_left e)) t \/ mentions false a (Expr (x_right e)) t)
        \/ exists i, i ∈ seqZ 0 (x_item_count e) /\ exists it, get_at (tab a ITEMS) (u32 (x_item_start e + i)) = Some it /\ mentions false a (Expr (it_expression it)) t)).
    { pose proof (u32_range (x_integer e)).
      apply good_both; [|apply good_both; [|apply good_both; [apply good_both; by apply He|]]].
      - case_bool_decide as Ek; (eapply good_ext; [|first [apply Hg; split; [lia|by eapply (globals_in_range a Hwf)]|apply good_visited]]); naive_solver.
      - case_bool_decide as Ek; (eapply good_ext; [|first [apply Hf; lia|apply good_visited]]); naive_solver.
      - apply good_every. intros i Hi%elem_of_seqZ. destruct (items_in_range a Hwf id e i Hx) as [it Hit]; [lia|].
        apply good_read with it; [done|]. eapply good_ext; [|apply He; by eapply (item_ids_in_range a Hwf)].
        intros t. split; [by exists it|]. intros (it' & Hit' & ?). by simplify_eq. }
    intros g s Hok. unfold visit_expr_body, mbind, ast, read. rewrite (so_prog _ _ Hok).
    replace ((id =? DYN_NO_EXPR) || _) with false by (symmetry; apply orb_false_iff; rewrite Z.eqb_neq, Z.leb_gt; lia).
    cbn beta iota. rewrite (so_prog _ _ Hok), Hx. revert g s Hok. eapply good_ext; [|exact G]. clear G. intros t. split.
    + intros [[Hk ->]|[[Hk ->]|[[Ht|Ht]|(i & Hi%elem_of_seqZ & it & Hit & Ht)]]].
      * by apply (mention_global _ _ _ e).
      * by apply (mention_call _ _ _ e).
      * apply (mention_operand _ _ _ e (x_left e)); [done|done|by left|done].
      * apply (mention_operand _ _ _ e (x_right e)); [done|done|by right|done].
      * apply (mention_item _ _ _ e i it); try done.
    + intros Ht. inversion Ht as [? e' ? Hx'|? e' ? Hx'|? e' Hv|? e' ? ? ? Hx' Ho|? e' i it ? ? Hx' Hi| | | |]; subst; try done; rewrite Hx in Hx'; simplify_eq.
      * by left.
      * by right; left.
      * right; right; left. destruct Ho as [->| ->]; [by left|by right].
      * right; right; right. exists i. split; [apply elem_of_seqZ; lia|]. by exists it.
Qed.

Lemma good_stmt d ve vb i st :
  get_at (tab a STATEMENTS) i = Some st ->
  (forall x, 0 <= x -> good true d (ve x) (mentions false a (Expr x))) ->
  (forall p n, block_in_range a p n -> good true d (vb p n) (mentions false a (Block p n))) ->
  good true d (visit_stmt ve vb st) (fun t =>
    (mentions false a (Expr (s_expression st)) t \/ mentions false a (Expr (s_target_ st)) t)
    \/ (mentions false a (Block (s_body_start st) (s_body_count st)) t \/ mentions false a (Block (s_else_start st) (s_else_count st)) t)
    \/ exists j, j ∈ seqZ 0 (s_case_arm_count st) /\ exists arm,
        get_at (tab a CASE_ARMS) (u32 (s_case_arm_start st + j)) = Some arm /\ mentions false a (Block (ca_body_start arm) (ca_body_count arm)) t).
Proof.
  intros Hst He Hb. destruct (statements_in_range a Hwf i st Hst) as (Hbody & Helse & Harm).
  destruct (statement_ids_in_range a Hwf i st Hst) as [Hx Ht].
  apply good_both; [apply good_both; by apply He|]. apply good_both; [apply good_both; by apply Hb|].
  apply good_every. intros j Hj%elem_of_seqZ. destruct (Harm j) as [arm Ea]; [lia|].
  apply good_read with arm; [done|]. eapply good_ext; [|apply Hb; by eapply (arms_in_range a Hwf)].
  intros t. split; [by exists arm|]. intros (arm' & Ea' & ?). by simplify_eq.
Qed.
Lemma good_block_body d ve vb start count :
  (forall x, 0 <= x -> good true d (ve x) (mentions false a (Expr x))) ->
  (forall p n, block_in_range a p n -> good true d (vb p n) (mentions false a (Block p n))) ->
  block_in_range a start count -> good true d (visit_block_body ve vb start count) (mentions false a (Block start count)).
Proof.
  intros He Hb Hr. eapply good_ext.
  2: { apply (good_every _ _ _ (fun i t => exists c st, get_at (tab a CHILDREN) (u32 (start + i)) = Some c /\ get_at (tab a STATEMENTS) c = Some st /\
         ((mentions false a (Expr (s_expression st)) t \/ mentions false a (Expr (s_target_ st)) t)
          \/ (mentions false a (Block (s_body_start st) (s_body_count st)) t \/ mentions false a (Block (s_else_start st) (s_else_count st)) t)
          \/ exists j, j ∈ seqZ 0 (s_case_arm_count st) /\ exists arm,
              get_at (tab a CASE_ARMS) (u32 (s_case_arm_start st + j)) = Some arm /\ mentions false a (Block (ca_body_start arm) (ca_body_count arm)) t))).
       intros i Hi%elem_of_seqZ. destruct (Hr i) as (c & st & Hc & Hst); [lia|].
       apply good_read with c; [done|]. apply good_read with st; [done|]. eapply good_ext; [|by eapply good_stmt].
       intros t. split; [by exists c, st|]. intros (c' & st' & Hc' & Hst' & ?). by simplify_eq. }
  intros t. split.
  - intros (i & Hi%elem_of_seqZ & c & st & Hc & Hst & [[Ht|Ht]|[[Ht|Ht]|(j & Hj%elem_of_seqZ & arm & Ha & Ht)]]).
    + apply (mention_stmt_expr _ _ _ _ i c st (s_expression st)); [lia|done|done|by left|done].
    + apply (mention_stmt_expr _ _ _ _ i c st (s_target_ st)); [lia|done|done|by right|done].
    + by apply (mention_stmt_body _ _ _ _ i c st); [lia|..].
    + by apply (mention_stmt_else _ _ _ _ i c st); [lia|..].
    + by apply (mention_stmt_arm _ _ _ _ i c st j arm); [lia| | |lia|..].
  - inversion 1 as [| | | | |? ? i c st x ? Hi Hc Hst Hx Ht|? ? i c st ? Hi Hc Hst Ht|? ? i c st ? Hi Hc Hst Ht|? ? i c st j arm ? Hi Hc Hst Hj Ha Ht]; subst;
      exists i; (split; [apply elem_of_seqZ; lia|]); exists c, st; (split; [done|]); (split; [done|]).
    + left. destruct Hx as [->| ->]; [by left|by right].
    + by right; left; left.
    + by right; left; right.
    + right; right. exists j. split; [apply elem_of_seqZ; lia|]. by exists arm.
Qed.

Definition fuel_for (d : Z) : Z := 2 * (512 - d) + 2.
Lemma visits_good fuel d :
  d <= 512 -> fuel_for d <= Z.of_nat fuel ->
  (forall id, 0 <= id -> good true d (visit_expr fuel id) (mentions false a (Expr id)))
  /\ (forall p n, block_in_range a p n -> good true d (visit_block fuel p n) (mentions false a (Block p n)))
  /\ (fuel_for d + 1 <= Z.of_nat fuel ->
      (forall id, 0 <= id -> good true d (visit_function fuel id) (fun t => t = Function id))
      /\ (forall fr id, 0 <= id < tcount a GLOBALS -> good fr d (visit_global fuel id) (fun t => t = Global id))).
Proof.
  unfold fuel_for. revert d. induction fuel as [|n IH]; intros d Hd Hfuel; [lia|].
  split_and!; cbn [visit_expr visit_block visit_function visit_global].
  - intros id Hid. destruct (Z.eqb_spec id DYN_NO_EXPR) as [->|Hne].
    { eapply good_ext; [|apply good_visited]. intros t. split; [done|]. by inversion 1. }
    apply good_entered. intros Hlt. destruct (IH (d + 1)) as (He & Hb & Hfg); [lia|lia|]. destruct Hfg as [Hf Hg]; [lia|].
    by apply good_expr_body; [|apply Hg| |].
  - intros p m Hr. destruct (Z.eqb_spec m 0) as [->|Hne].
    { eapply good_ext; [|apply good_visited]. intros t. split; [done|]. inversion 1; lia. }
    apply good_entered. intros Hlt. destruct (IH (d + 1)) as (He & Hb & _); [lia|lia|]. by apply good_block_body.
  - intros Hmore. destruct (IH d) as (He & Hb & _); [lia|lia|]. split.
    + intros id Hid. apply good_function; [done|]. intros fn Hfn. apply Hb. by eapply (bodies_in_range a Hwf).
    + intros fr id Hid. apply good_global; [done|]. intros gl Hgl. apply He. by eapply (initializers_in_range a Hwf).
Qed.

Lemma visit_globals_ok l ok g s :
  (forall x, x ∈ l -> 0 <= x < tcount a GLOBALS) -> search_ok g s -> g_depth g = 0 -> (forall x, ~ state_is g 1 x) ->
  (ok = false -> no_order a s0 s) ->
  exists ok' g' s', visit_globals graph_fuel l ok g s = Some ((ok', g'), s') /\ search_ok g' s' /\
    (ok' = true -> ok = true /\ (forall x, x ∈ l \/ state_is g 2 x -> state_is g' 2 x) /\ diags s' = diags s) /\
    (ok' = false -> no_order a s0 s').
Proof.
  revert ok g s. induction l as [|x l IH]; intros ok g s Hl Hok Hd Hact Hno; cbn [visit_globals].
  { exists ok, g, s. split_and!; try done. intros ->. split_and!; try done. by intros x [Hx%elem_of_nil|]. }
  destruct (visits_good graph_fuel 0) as (_ & _ & Hfg); [lia|done|]. destruct Hfg as [_ Hg]; [done|].
  destruct (Hg false x (Hl x ltac:(left)) g s) as (found & g1 & s1 & E & Hok1 & Had & Hds & Ht & Hf); [done|done| |lia|].
  { intros y h Hy. by destruct (Hact y). }
  unfold mbind. rewrite E.
  assert (Hact1 : forall y, ~ state_is g1 1 y) by (intros y Hy%(ad_active _ _ Had); by eapply Hact).
  assert (Hl' : forall y, y ∈ l -> 0 <= y < tcount a GLOBALS) by (intros y Hy; apply Hl; by right).
  assert (Hd1 : g_depth g1 = 0) by (rewrite (ad_depth _ _ Had); done).
  destruct found.
  - destruct (Ht eq_refl) as (Hc & _ & Ed).
    destruct (IH ok g1 s1) as (ok' & g' & s' & -> & Hok' & Ht' & Hf'); try done.
    { intros Eo. eapply no_order_later; [exact Hds|by apply Hno]. }
    exists ok', g', s'. split_and!; try done. intros Eo. destruct (Ht' Eo) as (-> & Hdone & ->). split_and!; [done| |done].
    intros y [[->|Hy]%elem_of_cons|Hy]; apply Hdone; [right; by apply (Hc (Global x))|by left|right; by apply (ad_done _ _ Had)].
  - destruct (g_stopped g1); [by exists false, g1, s1|].
    destruct (IH false g1 s1) as (ok' & g' & s' & -> & Hok' & Ht' & Hf'); try done.
    exists ok', g', s'. split_and!; try done. intros Eo. by destruct (Ht' Eo) as [? _].
Qed.

Lemma start_ok s : prog s = a -> later s0 s ->
  let zeros := replicate (Z.to_nat (tcount a GLOBALS)) 0 in search_ok (mkGraph zeros [] zeros 0 0 false) s.
Proof.
  intros Ep L0 zeros. assert (Hz : forall x, get_at zeros x <> Some 2) by (intros x [_ Hx]%get_at_Some; by apply lookup_replicate in Hx as [? _]).
  assert (Hlen : zlen zeros = tcount a GLOBALS) by (unfold zeros, zlen; rewrite length_replicate; unfold tcount, zlen; lia).
  split; cbn; try done; [unfold zlen; lia|apply NoDup_nil_2|..].
  - intros x. split; [by intros Hx%elem_of_nil|]. by intros [Hx%Hz _].
  - by intros x h Hx%Hz.
Qed.
End Search.

(** C10: The order of initialisation. On a program whose ranges lie in its
    tables, [order_initializers] ends and follows no index out of a table. When it
    succeeds, the order it stores holds every global with an initialiser once, each after
    all the globals that its initialiser reads, directly or in a function that it calls by
    name, and nothing was reported; when the program does not use functions as values, this
    covers all that its initialisers can call (calls of function values are not followed,
    see [order_ignores_function_values]). When it fails, this run reported a global that
    needs itself, or that the depth or the work was exhausted, or it was refused memory. *)
Theorem initializer_order_correct (s : St) :
  graph_ok (prog s) ->
  exists ok init s', order_initializers s = Some ((ok, init), s') /\
    (ok = true -> diags s' = diags s /\
       let order := match init with Some (o, n) => take (Z.to_nat n) o | None => [] end in
       initial_order false (prog s) order /\ (no_function_values (prog s) -> initial_order true (prog s) order)) /\
    (ok = false -> init = None /\ no_order (prog s) s s').
Proof.
  intros Hwf. cut (exists ok init s', order_initializers s = Some ((ok, init), s') /\
    (ok = true -> diags s' = diags s /\ initial_order false (prog s) (match init with Some (o, n) => take (Z.to_nat n) o | None => [] end)) /\
    (ok = false -> init = None /\ no_order (prog s) s s')).
  { intros (ok & init & s' & E & Ht & Hf). exists ok, init, s'. split; [done|]. split; [|done]. intros Hok. destruct (Ht Hok) as [Hd Ho].
    split; [done|]. split; [done|]. intros Hn. by apply order_called. }
  unfold order_initializers, mbind, ast, mret, allocate_bytes.
  destruct (Z.eqb_spec (tcount (prog s) GLOBALS) 0) as [E0|E0].
  { eexists true, None, s. split_and!; try done. intros _. split; [done|]. split_and!; [apply NoDup_nil_2| |intros i g h Hx; by rewrite lookup_nil in Hx].
    intros g. split; [by intros Hx%elem_of_nil|]. intros (gl & [Hgl _]%get_at_Some & _). unfold tcount, zlen in E0. lia. }
  pose proof (asks_memory (world s) (tcount (prog s) GLOBALS)) as W1.
  destruct (allocate (world s) _) as [ok1 w1] eqn:E1. cbn in W1 |- *. pose proof (asks_memory w1 (4 * tcount (prog s) GLOBALS)) as W2.
  destruct (allocate w1 _) as [ok2 w2] eqn:E2. cbn in W2 |- *.
  assert (reached (world s) w1) as R1 by (by apply rtc_once). assert (reached w1 w2) as R2 by (by apply rtc_once).
  destruct (negb ok1 || negb ok2) eqn:Eo.
  { eexists false, None, _. split_and!; try done. intros _. split; [done|]. right; right.
    destruct ok1; [|by exists (world s), (tcount (prog s) GLOBALS), w1]. destruct ok2; [done|].
    by exists w1, (4 * tcount (prog s) GLOBALS), w2. }
  set (s1 := mkSt (prog s) _ _ _ w2). set (zeros := replicate _ 0).
  assert (later s s1) as L1 by (split; [by exists []|by etransitivity]).
  destruct (visit_globals_ok (prog s) Hwf s (seqZ 0 (tcount (prog s) GLOBALS)) true (mkGraph zeros [] zeros 0 0 false) s1)
    as (ok & g & s' & -> & Hok & Ht & Hf); [| |done| |done|].
  { intros x Hx%elem_of_seqZ. lia. }
  { by apply start_ok. }
  { intros x [_ Hx]%get_at_Some. by apply lookup_replicate in Hx as [? _]. }
  destruct ok; cbn [negb]; [|by eexists false, None, s'; split_and!; try done; intros _; split; [|apply Hf]].
  eexists true, (Some (g_order g, g_count g)), s'. split_and!; try done. intros _. destruct (Ht eq_refl) as (_ & Hdone & ->).
  destruct Hok. split; [done|]. split_and!; [done| |done]. intros x. rewrite so_listed0. split; [by intros [_ ?]|].
  intros Hx. split; [|done]. apply Hdone. left. apply elem_of_seqZ. destruct Hx as (gl & [? _]%get_at_Some & _). unfold tcount, zlen. lia.
Qed.
End InitGraph.

(** [a := f()] before [b := 1], where [f] returns [b]: [b] is initialised first. *)
Definition call_expr : DynAstExpr := plain_expr DYN_EXPR_CALL DYN_OP_NONE DYN_NO_EXPR DYN_NO_EXPR 0.
Definition global_expr (g : Z) : DynAstExpr := plain_expr DYN_EXPR_GLOBAL DYN_OP_NONE DYN_NO_EXPR DYN_NO_EXPR g.
Definition init_global (x : Z) : DynAstGlobal := mkGlobal no_span no_span 0 x false false.
Definition return_stmt (x : Z) : DynAstStmt :=
  mkAstStmt DYN_STMT_RETURN no_span no_span no_span no_span 0 x DYN_NO_EXPR DYN_OP_NONE 0 0 0 0 0 0 0 0 0 false false false false.
Definition plain_fn (body_start body_count : Z) : DynAstFn :=
  mkFn no_span no_span no_span no_span 0 0 0 body_start body_count 0 0 false false false false false false false 0 0 0 0.
Definition init_sample (second : DynAstExpr) : DynAstProgram :=
  with_rows EXPRESSIONS [call_expr; global_expr 1; second]
    (with_rows GLOBALS [init_global 0; init_global 2]
      (with_rows FUNCTIONS [plain_fn 0 1] (with_rows STATEMENTS [return_stmt 1] (with_rows CHILDREN [0] empty_ast)))).
Definition run_order (second : DynAstExpr) : option (bool * list Z * list string) :=
  match @order_initializers willing_host (state_of (init_sample second)) with
  | Some ((ok, init), s) => Some (ok, match init with Some (o, n) => take (Z.to_nat n) o | None => [] end, map snd (diags s))
  | None => None
  end.
Example order_after_call : run_order (plain_expr DYN_EXPR_INT DYN_OP_NONE DYN_NO_EXPR DYN_NO_EXPR 1) = Some (true, [1; 0], []).
Proof. vm_compute. reflexivity. Qed.
Example order_of_cycle : run_order (global_expr 0) = Some (false, [], [cycle_message; cycle_message]).
Proof. vm_compute. reflexivity. Qed.

(** [a := g()] where [g] is a function value whose body reads [b := 1]: only
    called names are followed, so [a] comes first. *)
Example order_ignores_function_values :
  option_map (fun r => fst r)
    (@order_initializers willing_host (state_of
      (with_rows EXPRESSIONS [plain_expr DYN_EXPR_INDIRECT_CALL DYN_OP_NONE 3 DYN_NO_EXPR 0; global_expr 1;
                              plain_expr DYN_EXPR_INT DYN_OP_NONE DYN_NO_EXPR DYN_NO_EXPR 1;
                              plain_expr DYN_EXPR_FUNCTION DYN_OP_NONE DYN_NO_EXPR DYN_NO_EXPR 0] (init_sample call_expr))))
  = Some (true, Some ([0; 1], 2)).
Proof. vm_compute. reflexivity. Qed.

Lemma init_sample_ok : graph_ok (init_sample (plain_expr DYN_EXPR_INT DYN_OP_NONE DYN_NO_EXPR DYN_NO_EXPR 1)).
Proof.
  set (a := init_sample _).
  assert (He : forall i e, get_at (tab a EXPRESSIONS) i = Some e -> e ∈ [call_expr; global_expr 1; plain_expr DYN_EXPR_INT DYN_OP_NONE DYN_NO_EXPR DYN_NO_EXPR 1])
    by (intros i e; apply get_at_elem).
  assert (Hs : forall i st, get_at (tab a STATEMENTS) i = Some st -> st ∈ [return_stmt 1]) by (intros i st; apply get_at_elem).
  assert (Hf : forall i f, get_at (tab a FUNCTIONS) i = Some f -> f ∈ [plain_fn 0 1]) by (intros i f; apply get_at_elem).
  assert (Hg : forall i g, get_at (tab a GLOBALS) i = Some g -> g ∈ [init_global 0; init_global 2]) by (intros i g; apply get_at_elem).
  assert (Hi : forall i it, get_at (tab a ITEMS) i <> Some it) by (intros i it Hx%get_at_elem; by apply elem_of_nil in Hx).
  assert (Ha : forall i arm, get_at (tab a CASE_ARMS) i <> Some arm) by (intros i arm Hx%get_at_elem; by apply elem_of_nil in Hx).
  split.
  - intros id e i Hx%He. set_unfold in Hx. intros Hn. exfalso. destruct Hx as [Hx|[Hx|[Hx|[]]]]; rewrite Hx in Hn; cbn in Hn; lia.
  - intros id e Hx%He Hk. set_unfold in Hx. by destruct Hx as [Hx|[Hx|[Hx|[]]]]; rewrite Hx in *.
  - intros f fn Hx%Hf. set_unfold in Hx. destruct Hx as [->|[]]. intros i Hn. cbn in Hn. assert (i = 0) as -> by lia. by exists 0, (return_stmt 1).
  - intros i st Hx%Hs. set_unfold in Hx. destruct Hx as [->|[]]. split_and!; intros j Hj; cbn in Hj; lia.
  - by intros i arm Hx%Ha.
  - intros id e Hx%He. set_unfold in Hx. by destruct Hx as [Hx|[Hx|[Hx|[]]]]; rewrite Hx in *.
  - by intros i it Hx%Hi.
  - intros i st Hx%Hs. set_unfold in Hx. by destruct Hx as [->|[]].
  - intros i gl Hx%Hg. set_unfold in Hx. by destruct Hx as [->|[->|[]]].
Qed.
Lemma initializer_order_witness :
  let a := init_sample (plain_expr DYN_EXPR_INT DYN_OP_NONE DYN_NO_EXPR DYN_NO_EXPR 1) in
  graph_ok a /\
  exists ok init s', @order_initializers willing_host (state_of a) = Some ((ok, init), s') /\
    (ok = true -> diags s' = [] /\
       let order := match init with Some (o, n) => take (Z.to_nat n) o | None => [] end in
       initial_order false a order /\ (no_function_values a -> initial_order true a order)) /\
    (ok = false -> init = None /\ no_order a (state_of a) s').
Proof. split; [exact init_sample_ok|]. exact (@initializer_order_correct willing_host (state_of _) init_sample_ok). Defined.
