(* ===== verification/SemaFind.v ===== *)
(** Lookups of semantic analysis over the state it keeps (src/src/sema.c,
    src/src/ast.c): structs, enums, variants, fields, aliases, locals, globals
    and functions by name, and the printed names of types.

    Each index that caches a lookup lives in the state, as in the code. *)

From S2P Require Import Prelude Target Source Work Ir Ast AstTypes SemaTypes SemaConst AstNames AstLiteral.

(** ** Rows with one field changed *)
Definition set_kind (k : DynExprKind) (e : DynAstExpr) : DynAstExpr :=
  mkAstExpr k (x_type e) (x_span e) (x_op e) (x_left e) (x_right e) (x_integer e) (x_floating e) (x_boolean e) (x_item_start e) (x_item_count e) (x_wrap e).
Definition set_type (t : Z) (e : DynAstExpr) : DynAstExpr :=
  mkAstExpr (x_kind e) t (x_span e) (x_op e) (x_left e) (x_right e) (x_integer e) (x_floating e) (x_boolean e) (x_item_start e) (x_item_count e) (x_wrap e).
Definition set_left (l : Z) (e : DynAstExpr) : DynAstExpr :=
  mkAstExpr (x_kind e) (x_type e) (x_span e) (x_op e) l (x_right e) (x_integer e) (x_floating e) (x_boolean e) (x_item_start e) (x_item_count e) (x_wrap e).
Definition set_right (r : Z) (e : DynAstExpr) : DynAstExpr :=
  mkAstExpr (x_kind e) (x_type e) (x_span e) (x_op e) (x_left e) r (x_integer e) (x_floating e) (x_boolean e) (x_item_start e) (x_item_count e) (x_wrap e).
Definition set_integer (i : Z) (e : DynAstExpr) : DynAstExpr :=
  mkAstExpr (x_kind e) (x_type e) (x_span e) (x_op e) (x_left e) (x_right e) i (x_floating e) (x_boolean e) (x_item_start e) (x_item_count e) (x_wrap e).
Definition set_boolean (b : bool) (e : DynAstExpr) : DynAstExpr :=
  mkAstExpr (x_kind e) (x_type e) (x_span e) (x_op e) (x_left e) (x_right e) (x_integer e) (x_floating e) b (x_item_start e) (x_item_count e) (x_wrap e).
Definition set_floating (f : Floats.SpecFloat.spec_float) (e : DynAstExpr) : DynAstExpr :=
  mkAstExpr (x_kind e) (x_type e) (x_span e) (x_op e) (x_left e) (x_right e) (x_integer e) f (x_boolean e) (x_item_start e) (x_item_count e) (x_wrap e).
Definition set_items (start count : Z) (e : DynAstExpr) : DynAstExpr :=
  mkAstExpr (x_kind e) (x_type e) (x_span e) (x_op e) (x_left e) (x_right e) (x_integer e) (x_floating e) (x_boolean e) start count (x_wrap e).
Definition set_field_names (ix : DynNameIndex) (st : DynAstStruct) : DynAstStruct :=
  mkStruct (sr_span st) (sr_name st) (sr_packed st) (sr_field_start st) (sr_field_count st) (sr_size st) (sr_alignment st) ix.
Definition set_variant_names (ix : DynNameIndex) (en : DynAstEnum) : DynAstEnum :=
  mkEnum (en_name en) (en_tag_type en) (en_variant_start en) (en_variant_count en) (en_size en) (en_alignment en) (en_payload_size en)
    (en_payload_alignment en) (en_has_payload en) ix.

(** Changes of statements, locals, arms and patterns. *)
Definition s_with (e t l : Z) (st : DynAstStmt) : DynAstStmt :=
  mkAstStmt (s_kind st) (s_span st) (s_name st) (s_label st) (s_control_label st) (s_declared_type st) e t (s_assignment_op st) l
    (s_body_start st) (s_body_count st) (s_else_start st) (s_else_count st) (s_loop_id st) (s_target_loop_id st)
    (s_case_arm_start st) (s_case_arm_count st) (s_for_pointer st) (s_for_const st) (s_is_const st) (s_for_range st).
Definition set_s_expression (e : Z) (st : DynAstStmt) : DynAstStmt := s_with e (s_target_ st) (s_local_id st) st.
Definition set_s_target (t : Z) (st : DynAstStmt) : DynAstStmt := s_with (s_expression st) t (s_local_id st) st.
Definition set_s_local (l : Z) (st : DynAstStmt) : DynAstStmt := s_with (s_expression st) (s_target_ st) l st.
Definition set_active (b : bool) (l : DynAstLocal) : DynAstLocal := mkLocal (lo_name l) (lo_type l) b (lo_is_const l) (lo_owner_function l).
Definition set_arm_local (l : Z) (arm : DynAstCaseArm) : DynAstCaseArm :=
  mkCaseArm (ca_span arm) (ca_binding arm) (ca_pattern_start arm) (ca_pattern_count arm) (ca_body_start arm) (ca_body_count arm) l
    (ca_wildcard arm) (ca_pointer_binding arm).
Definition p_with (first last variant : Z) (is_enum signed : bool) (p : DynAstPattern) : DynAstPattern :=
  mkPattern (pt_span p) (pt_first p) (pt_last p) (pt_type p) first last variant (pt_range p) (pt_inclusive p) is_enum signed (pt_is_type p).
Definition set_pattern_variant (v : Z) (p : DynAstPattern) : DynAstPattern :=
  p_with (pt_first_value p) (pt_last_value p) v true (pt_is_signed p) p.
Definition set_pattern_signed (b : bool) (p : DynAstPattern) : DynAstPattern :=
  p_with (pt_first_value p) (pt_last_value p) (pt_variant p) (pt_is_enum p) b p.
Definition set_pattern_values (first last : Z) (p : DynAstPattern) : DynAstPattern :=
  p_with first last (pt_variant p) (pt_is_enum p) (pt_is_signed p) p.

Section Find.
Context {H : Host} (src : DynSource) (garbage : Z -> Z).

Definition set_expr (id : Z) (f : DynAstExpr -> DynAstExpr) : M unit :=
  let! e := read EXPRESSIONS id in write EXPRESSIONS id (f e).
Definition expr_row (id : Z) : M DynAstExpr := read EXPRESSIONS id.
Definition if_ (b : bool) (m : M unit) : M unit := if b then m else mret tt.

(** [count] rows from [start]; undefined when they are not all in the table. *)
Definition rows_of (k : Tab) (start count : Z) : M (list (row k)) :=
  let! a := ast in
  if (count =? 0) || ((0 <=? start) && (start + count <=? tcount a k)) then mret (slice_at (tab a k) start count) else undefined.

(** [dyn_name_index_find] with the flag and the allocator of the state. *)
Definition find_in (ix : DynNameIndex) (names : list DynSpan) (name : DynSpan) (module : bool) : M (Z * DynNameIndex) := fun s =>
  match dyn_name_index_find garbage ix names name src module (allocation_failed (prog s)) (world s) with
  | Some (r, ix, failed, w) =>
      let a := prog s in
      Some ((r, ix), mkSt (mkAst (tables a) failed (type_capacity_exceeded a) (struct_names a) (enum_names a) (alias_names a))
                       (sema s) (diags s) (work s) w)
  | None => None
  end.
Definition put_struct_names (ix : DynNameIndex) : M unit := fun s =>
  let a := prog s in
  Some (tt, set_prog (mkAst (tables a) (allocation_failed a) (type_capacity_exceeded a) ix (enum_names a) (alias_names a)) s).
Definition put_enum_names (ix : DynNameIndex) : M unit := fun s =>
  let a := prog s in
  Some (tt, set_prog (mkAst (tables a) (allocation_failed a) (type_capacity_exceeded a) (struct_names a) ix (alias_names a)) s).
Definition put_alias_names (ix : DynNameIndex) : M unit := fun s =>
  let a := prog s in
  Some (tt, set_prog (mkAst (tables a) (allocation_failed a) (type_capacity_exceeded a) (struct_names a) (enum_names a) ix) s).
Definition struct_named (name : DynSpan) : M Z :=
  let! a := ast in
  let! (found, ix) := find_in (struct_names a) (map sr_name (tab a STRUCTS)) name true in
  put_struct_names ix ;; mret found.
Definition enum_named (name : DynSpan) : M Z :=
  let! a := ast in
  let! (found, ix) := find_in (enum_names a) (map en_name (tab a ENUMS)) name true in
  put_enum_names ix ;; mret found.
Definition alias_named (name : DynSpan) : M Z :=
  let! a := ast in
  let! (found, ix) := find_in (alias_names a) (map al_name (tab a ALIASES)) name true in
  put_alias_names ix ;; mret found.

(** The first alias of that name for a type that satisfies [p]. *)
Fixpoint aliased (p : Z -> bool) (base : Z) (name : DynSpan) (l : list DynAstAlias) : option Z :=
  match l with
  | [] => Some UINT32_MAX
  | x :: l' =>
      if negb (al_distinct x) && p (al_target x) then
        let* same := dyn_module_name_equal name (al_name x) src in
        if same : bool then Some (al_target x - base) else aliased p base name l'
      else aliased p base name l'
  end.
Definition sema_find_struct (name : DynSpan) : M Z :=
  let name := unqualified_span name src in
  let! found := struct_named name in
  if negb (found =? UINT32_MAX) then mret found
  else let! a := ast in lift (aliased dyn_type_is_struct DYN_TYPE_STRUCT_BASE name (tab a ALIASES)).
Definition sema_find_enum (name : DynSpan) : M Z :=
  let name := unqualified_span name src in
  let! found := enum_named name in
  if negb (found =? UINT32_MAX) then mret found
  else let! a := ast in lift (aliased dyn_type_is_enum DYN_TYPE_ENUM_BASE name (tab a ALIASES)).
Definition sema_expr_enum (id : Z) : M Z :=
  if id =? DYN_NO_EXPR then mret UINT32_MAX
  else
    let! e := expr_row id in
    if is_kind e DYN_EXPR_NAME || is_kind e DYN_EXPR_FIELD then sema_find_enum (x_span e) else mret UINT32_MAX.
Definition sema_find_variant (eid : Z) (name : DynSpan) : M Z :=
  let! en := read ENUMS eid in
  let! vs := rows_of VARIANTS (en_variant_start en) (en_variant_count en) in
  let! (id, ix) := find_in (en_variant_names en) (map va_name vs) name false in
  write ENUMS eid (set_variant_names ix en) ;;
  mret (if id =? UINT32_MAX then id else u32 (en_variant_start en + id)).
Definition sema_find_field (sid : Z) (name : DynSpan) : M Z :=
  let! st := read STRUCTS sid in
  let! fs := rows_of FIELDS (sr_field_start st) (sr_field_count st) in
  let! (id, ix) := find_in (sr_field_names st) (map fd_name fs) name false in
  write STRUCTS sid (set_field_names ix st) ;; mret id.

(** Locals, globals and functions. *)
Definition find_local_ (name : DynSpan) : M Z := fun s =>
  let x := sema s in
  match find_local garbage (local_index x) (prog s) (current_function x) name src (world s) with
  | Some (r, ix, failed, w) =>
      let s := mkSt (prog s) (mkSema (pointer_bytes x) (fn_index x) (gl_index x) (current_function x) (current_return_type x)
                               (active_loops x) (active_loop_capacity x) ix) (diags s) (work s) w in
      Some (r, if failed : bool then fail_allocation s else s)
  | None => None
  end.
Definition find_global_ (name : DynSpan) : M Z :=
  let! a := ast in let! x := the_sema in lift (sema_find_global_name (gl_index x) a name src).
Definition sema_find_function (name : DynSpan) : M Z :=
  let! l := find_local_ name in
  if negb (l =? UINT32_MAX) then mret UINT32_MAX
  else
    let! g := find_global_ name in
    if negb (g =? UINT32_MAX) then mret UINT32_MAX
    else let! a := ast in let! x := the_sema in lift (sema_name_lookup (fn_index x) a name src true).

(** A name used as a type: an alias, resolved before the analysis starts
    (state 2; state 1 is an alias being resolved), a struct or an enum. *)
Definition resolved_alias (id : Z) : M Z :=
  let! x := read ALIASES id in
  if al_state x =? 2 then mret (if al_distinct x then DYN_TYPE_DISTINCT_BASE + id else al_target x)
  else if al_state x =? 1 then mret DYN_TYPE_ERROR
  else undefined.
Definition find_alias (name : DynSpan) : M Z := alias_named (unqualified_span name src).
Definition find_struct (name : DynSpan) : M Z :=
  let name := unqualified_span name src in
  let! id := struct_named name in
  if negb (id =? UINT32_MAX) then mret id
  else
    let! id := enum_named name in
    mret (if id =? UINT32_MAX then id else DYN_TYPE_ENUM_BASE - DYN_TYPE_STRUCT_BASE + id).
Definition dyn_ast_named_type (name : DynSpan) : M Z :=
  let! alias := find_alias name in
  if negb (alias =? UINT32_MAX) then resolved_alias alias
  else
    let! id := find_struct name in
    mret (if id =? UINT32_MAX then DYN_TYPE_ERROR else DYN_TYPE_STRUCT_BASE + id).
End Find.

(** ** Printed names of types

    The C string that a buffer of [cap] bytes holds after [snprintf]. *)
Definition printed (cap : Z) (t : bytes) : bytes := take (Z.to_nat (cap - 1)) t.
Fixpoint number_text (fuel : nat) (n : Z) (acc : bytes) : bytes :=
  match fuel with
  | O => acc
  | S f => let acc := (48 + n mod 10) :: acc in if n <? 10 then acc else number_text f (n / 10) acc
  end.
(** The length prefix that module rewriting gives a name: [dyn_m], sixteen
    hexadecimal digits and an underscore. *)
Definition display_span (s : DynSource) (p : DynSpan) : bytes :=
  let t := span_text s p in
  if (22 <? end_byte p - start_byte p) && bytes_eqb (take 5 t) (str "dyn_m") && (nth 21 t 0 =? 95) then drop 22 t else t.
Fixpoint type_names (f : Z -> option bytes) (cap : Z) (l : list Z) (first : bool) (out : bytes) : option bytes :=
  match l with
  | [] => Some out
  | t :: l' =>
      if cap <=? zlen out then Some out
      else
        let* inner := f t in
        type_names f cap l' false (out ++ (if first then [] else str ", ") ++ inner)
  end.
Fixpoint type_name_into (fuel : nat) (a : DynAstProgram) (s : DynSource) (cap : Z) (t : Z) : option bytes :=
  match fuel with
  | O => None
  | S n =>
      if cap =? 0 then Some []
      else
        let inner := type_name_into n a s 384 in
        if t <? DYN_TYPE_STRUCT_BASE then
          let* basic := dyn_type_name t in Some (printed cap (str basic))
        else if dyn_type_is_struct t then
          let* st := get_at (tab a STRUCTS) (t - DYN_TYPE_STRUCT_BASE) in Some (printed cap (display_span s (sr_name st)))
        else if dyn_type_is_enum t then
          let* en := get_at (tab a ENUMS) (t - DYN_TYPE_ENUM_BASE) in Some (printed cap (display_span s (en_name en)))
        else if dyn_type_is_pointer t then
          let* p := pointer_info a t in
          let* i := inner (po_pointee p) in
          Some (printed cap (if dyn_type_is_function (po_pointee p) && negb (po_is_const p) then i
                             else str "*" ++ (if po_is_const p then str "const " else []) ++ i))
        else if dyn_type_is_array t then
          let* ar := array_info a t in
          let* i := inner (ar_element ar) in
          Some (printed cap (str "[" ++ number_text 20 (ar_length ar) [] ++ str "]" ++ i))
        else if dyn_type_is_slice t then
          let* sl := slice_info a t in
          let* i := inner (sl_element sl) in
          Some (printed cap (str "[]" ++ (if sl_is_const sl then str "const " else []) ++ i))
        else if dyn_type_is_function t then
          let* f := fn_type_info a t in
          let* out := type_names inner cap (fn_params a f) true (str "fn(") in
          if zlen out <? cap then
            let* i := inner (ft_return_type f) in Some (printed cap (out ++ str ") " ++ i))
          else Some (printed cap out)
        else Some (printed cap (str "unknown"))
  end.
Definition display_type_name (fuel : nat) (a : DynAstProgram) (s : DynSource) (cap t : Z) : option bytes :=
  if negb (dyn_type_is_distinct t) then type_name_into fuel a s cap t
  else if (tcount a ALIASES <=? t - DYN_TYPE_DISTINCT_BASE) || (cap =? 0) then Some []
  else let* x := get_at (tab a ALIASES) (t - DYN_TYPE_DISTINCT_BASE) in Some (printed cap (span_text s (al_name x))).
Definition reflection_id (name : bytes) : Z :=
  fold_left (fun h c => u64 (Z.lxor h c * 1099511628211)) name 1469598103934665603.
Definition reflection_kind (a : DynAstProgram) (t : Z) : Z :=
  if t =? DYN_TYPE_VOID then 1 else if t =? DYN_TYPE_BOOL then 2 else if is_integer a t then 3
  else if (t =? DYN_TYPE_F32) || (t =? DYN_TYPE_F64) then 4 else if dyn_type_is_pointer t then 5 else if dyn_type_is_array t then 6
  else if dyn_type_is_slice t then 7 else if dyn_type_is_struct t then 8 else if dyn_type_is_enum t then 9
  else if dyn_type_is_function t then 10 else 0.
