(* ===== verification/SemaExpr.v ===== *)
(** Type checking of expressions (src/src/sema.c, [check_expr] and the
    functions it calls): the tree is annotated with types, names are resolved,
    conversions are inserted, and what is wrong is reported.

    Each kind of expression has its own definition, over the recursive check;
    [check_expr] joins them. *)

From S2P Require Import Prelude Target Source Work Ir Ast AstTypes SemaTypes SemaConst AstNames AstGeneric AstLiteral SemaFind.
From Stdlib Require Import Floats.SpecFloat.

Section SemaExpr.
Context {H : Host} (host : DynTarget) (src : DynSource) (garbage : Z -> Z).
(** Fuel of the recursions over types and constants. *)
Variable deep : nat.

Definition pb : M Z := let! x := the_sema in mret (pointer_bytes x).
Definition zero_expr : DynAstExpr :=
  mkAstExpr DYN_EXPR_INT DYN_TYPE_INFER no_span DYN_OP_NONE 0 0 0 (S754_zero false) false 0 0 false.
Definition new_expr (kind : DynExprKind) (type left_ integer_ : Z) : DynAstExpr :=
  mkAstExpr kind type no_span DYN_OP_NONE left_ DYN_NO_EXPR integer_ (S754_zero false) false 0 0 false.

(** [return a->expressions[id].type = t], and the same after an error at the
    expression. *)
Definition typed (id t : Z) : M Z := set_expr id (set_type t) ;; mret t.
Definition report (id : Z) (message : string) : M unit := let! e := expr_row id in error_span (x_span e) message.
Definition failed (id : Z) (message : string) : M Z := report id message ;; typed id DYN_TYPE_ERROR.
(** The printed types go into the text of the error, which is not kept. *)
Definition shown (cap t : Z) : M unit := let! a := ast in let! _ := lift (display_type_name deep a src cap t) in mret tt.
Definition error_types (span : DynSpan) (message : string) (expected found : Z) : M unit :=
  shown 384 expected ;; shown 384 found ;; error_span span (message ++ " (expected %s, found %s)").

Definition convert_expr (source target : Z) : M Z :=
  let! ok := reserve_expr in
  if negb ok then mret DYN_NO_EXPR else push EXPRESSIONS (new_expr DYN_EXPR_CONVERT target source 0).
Definition can_convert_ (from to : Z) : M bool := let! a := ast in let! p := pb in mret (can_convert p a from to).
Definition index_operand (operand t : Z) (span : DynSpan) (what : string) : M Z :=
  let! a := ast in
  let! p := pb in
  if negb (is_integer a t) then error_span span (what ++ " requires integer") ;; mret operand
  else if negb (signed_int a t) then mret operand
  else if bits p a DYN_TYPE_USIZE <? bits p a t then
    error_span span (what ++ " type is wider than usize on this target; use #cast") ;; mret operand
  else convert_expr operand DYN_TYPE_USIZE.
Fixpoint for_each (f : Z -> M unit) (l : list Z) : M unit :=
  match l with [] => mret tt | i :: l' => f i ;; for_each f l' end.
Definition set_item_expression (i x : Z) : M unit :=
  let! it := read ITEMS i in write ITEMS i (mkItem (it_name it) x (it_field_index it)).
Definition item_expression (i : Z) : M Z := let! it := read ITEMS i in mret (it_expression it).
(** The item becomes a conversion of itself. *)
Definition convert_item (i target : Z) : M unit :=
  let! x := item_expression i in let! c := convert_expr x target in set_item_expression i c.
(** The span of an item's expression. *)
Definition item_span (i : Z) : M DynSpan := let! x := item_expression i in let! e := expr_row x in mret (x_span e).

(** ** Reflection: the constant that [#typeof] becomes *)
Definition reflection_expr (kind : DynExprKind) (type integer : Z) : M Z :=
  let! ok := reserve_expr in
  if negb ok then mret DYN_NO_EXPR else push EXPRESSIONS (new_expr kind type DYN_NO_EXPR integer).
Definition reserve_reflection_items (extra : Z) : M bool := reserve_rows ITEMS 16 extra.
Definition reserve_reflection_string : M bool := reserve STRINGS 8.
Definition reflection_string (type : Z) (text : bytes) : M Z :=
  let! ok := reserve_reflection_string in
  if negb ok then mret DYN_NO_EXPR
  else
    let! copy := allocate_bytes (zlen text) in
    if negb (zlen text =? 0) && negb copy then mret DYN_NO_EXPR
    else let! string := push STRINGS text in reflection_expr DYN_EXPR_STRING type (u32 string).
(** Room for [n] items, left as they are in memory. *)
Definition zero_item : DynAstItem := mkItem no_span 0 0.
Fixpoint skip_items (n : nat) : M unit := match n with O => mret tt | S n => push ITEMS zero_item ;; skip_items n end.
(** The members from the [i]th; false when memory runs out. *)
Fixpoint reflection_each (member_type name_type array_start i : Z) (members : list (DynSpan * Z)) : M bool :=
  match members with
  | [] => mret true
  | (n, t) :: members' =>
      let! name := reflection_string name_type (span_text src n) in
      let! a := ast in
      let! type_name := lift (display_type_name deep a src 512 t) in
      let! type_id := reflection_expr DYN_EXPR_INT DYN_TYPE_U64 (if t =? DYN_TYPE_VOID then 0 else reflection_id type_name) in
      if (name =? DYN_NO_EXPR) || (type_id =? DYN_NO_EXPR) then mret false
      else
        let! fields := push ITEMS (mkItem no_span name 0) in
        push ITEMS (mkItem no_span type_id 1) ;;
        let! member := reflection_expr DYN_EXPR_STRUCT member_type (member_type - DYN_TYPE_STRUCT_BASE) in
        if member =? DYN_NO_EXPR then mret false
        else
          set_expr member (set_items (u32 fields) 2) ;;
          write ITEMS (u32 (array_start + i)) (mkItem no_span member 0) ;;
          reflection_each member_type name_type array_start (i + 1) members'
  end.
Definition reflection_members (member_type slice_type : Z) (members : list (DynSpan * Z)) : M Z :=
  let count := zlen members in
  if count =? 0 then reflection_expr DYN_EXPR_NIL slice_type 0
  else
    let! ok := reserve_reflection_items (count * 3) in
    if negb ok then mret DYN_NO_EXPR
    else
      let! a := ast in
      let array_start := u32 (tcount a ITEMS) in
      skip_items (length members) ;;
      let! st := read STRUCTS (member_type - DYN_TYPE_STRUCT_BASE) in
      let! f := read FIELDS (sr_field_start st) in
      let! ok := reflection_each member_type (fd_type f) array_start 0 members in
      if negb ok then mret DYN_NO_EXPR
      else
        let! array_type := sema_intern_array member_type count in
        let! array := reflection_expr DYN_EXPR_ARRAY array_type 0 in
        let! slice := reflection_expr DYN_EXPR_SLICE slice_type DYN_NO_EXPR in
        if (array =? DYN_NO_EXPR) || (slice =? DYN_NO_EXPR) then mret DYN_NO_EXPR
        else
          set_expr array (set_items array_start count) ;;
          set_expr slice (set_left array) ;;
          set_expr slice (set_right DYN_NO_EXPR) ;;
          mret slice.

(** Storage that may not be written. *)
Fixpoint lvalue_const (fuel : nat) (a : DynAstProgram) (id : Z) : option bool :=
  match fuel with
  | O => None
  | S n =>
      if id =? DYN_NO_EXPR then Some false
      else
        let* e := get_at (tab a EXPRESSIONS) id in
        let left_type := let* l := get_at (tab a EXPRESSIONS) (x_left e) in Some (x_type l) in
        let const_pointer t := match pointer_info a t with Some p => po_is_const p | None => false end in
        if is_kind e DYN_EXPR_UNARY && is_op e DYN_OP_DEREF then let* t := left_type in Some (const_pointer t)
        else if is_kind e DYN_EXPR_FIELD then
          let* t := left_type in
          if dyn_type_is_pointer t then Some (const_pointer t) else lvalue_const n a (x_left e)
        else if is_kind e DYN_EXPR_INDEX then
          let* t := left_type in
          match slice_info a t with Some sl => Some (sl_is_const sl) | None => lvalue_const n a (x_left e) end
        else if is_kind e DYN_EXPR_GLOBAL then
          if x_integer e <? tcount a GLOBALS then let* g := get_at (tab a GLOBALS) (x_integer e) in Some (gl_is_const g)
          else Some false
        else Some false
  end.

(** ** The kinds of expressions, over the recursive check *)
Section Checks.
Variable check : Z -> Z -> M Z.
(** What a pointer type that has no row points to: the error type ([mret
    DYN_TYPE_ERROR]) in the code, nothing ([undefined]) in a strict run. *)
Variable missing : M Z.

(** An item against the type wanted of it; [mismatch] reports. *)
Definition check_item (i want : Z) (skip_error : bool) (mismatch : Z -> M unit) : M unit :=
  let! x := item_expression i in
  let! value := check x want in
  if negb (value =? want) && negb (value =? DYN_TYPE_ERROR) && negb (skip_error && (want =? DYN_TYPE_ERROR)) then
    let! ok := can_convert_ value want in
    if ok : bool then convert_item i want else mismatch value
  else mret tt.

(** *** Enum variants *)
Definition check_variant (id eid expected : Z) : M Z :=
  let! e := expr_row id in
  let! variant := sema_find_variant src garbage eid (x_span e) in
  set_expr id (set_left DYN_NO_EXPR) ;;
  if variant =? UINT32_MAX then failed id "unknown enum variant"
  else
    let! v := read VARIANTS variant in
    let! e := expr_row id in
    let constructor := is_kind e DYN_EXPR_ENUM in
    set_expr id (fun e => set_type (DYN_TYPE_ENUM_BASE + eid) (set_integer variant (set_kind DYN_EXPR_ENUM e))) ;;
    (if va_payload_type v =? DYN_TYPE_VOID then
       if_ (constructor || negb (x_item_count e =? 0)) (report id "payloadless enum variant is not callable")
     else if negb constructor then
       if_ (negb (expected =? DYN_TYPE_ENUM_BASE + eid)) (report id "payload enum variant requires exactly one argument")
     else if negb (x_item_count e =? 1) then report id "payload enum variant requires exactly one argument"
     else check_item (x_item_start e) (va_payload_type v) false (fun _ => error_span (x_span e) "enum payload type mismatch")) ;;
    let! e := expr_row id in mret (x_type e).

(** *** Calls *)
Definition check_all (start count : Z) : M unit :=
  for_each (fun i => let! x := item_expression (u32 (start + i)) in let! _ := check x DYN_TYPE_INFER in mret tt) (seqZ 0 count).
Definition variadic_message : string := "C variadic argument requires integer, float, or pointer".
(** An argument in the variable part of a C call. *)
Definition check_variadic_c (i : Z) : M unit :=
  let! x := item_expression i in
  let! value := check x DYN_TYPE_INFER in
  let promoted :=
    if value =? DYN_TYPE_F32 then DYN_TYPE_F64
    else if (value =? DYN_TYPE_I8) || (value =? DYN_TYPE_I16) || (value =? DYN_TYPE_U8) || (value =? DYN_TYPE_U16) then DYN_TYPE_I32
    else value in
  if negb (promoted =? value) && negb (value =? DYN_TYPE_ERROR) then convert_item i promoted
  else
    if_ (negb (existsb (Z.eqb value) [DYN_TYPE_I32; DYN_TYPE_U32; DYN_TYPE_I64; DYN_TYPE_U64; DYN_TYPE_ISIZE; DYN_TYPE_USIZE; DYN_TYPE_F64])
         && negb (dyn_type_is_pointer value) && negb (value =? DYN_TYPE_ERROR))
      (let! span := item_span i in error_span span variadic_message).
Definition check_variadic (callee : DynAstFn) (i : Z) : M unit :=
  let! a := ast in
  match slice_info a (fn_variadic_type callee) with
  | None => undefined
  | Some sl =>
      let element := sl_element sl in
      let! x := item_expression i in
      let! value := check x (if element =? DYN_TYPE_ANY then DYN_TYPE_INFER else element) in
      if negb (element =? DYN_TYPE_ANY) && negb (value =? element) && negb (value =? DYN_TYPE_ERROR) then
        let! ok := can_convert_ value element in
        if ok : bool then convert_item i element
        else let! span := item_span i in error_span span "variadic argument type mismatch"
      else mret tt
  end.
Definition abi_message : string := "type has no supported C ABI; use C-compatible storage or a pointer adapter".
Definition check_direct (id fn : Z) : M Z :=
  set_expr id (fun e => set_integer fn (set_left DYN_NO_EXPR e)) ;;
  let! callee := read FUNCTIONS fn in
  let! e := expr_row id in
  if_ (fn_is_main callee) (report id "entry function 'main' cannot be called") ;;
  let! a := ast in
  let! abi := lift (sema_c_abi_function a callee) in
  if_ (negb abi) (report id abi_message) ;;
  if_ ((negb (fn_variadic callee) && negb (x_item_count e =? fn_param_count callee))
       || (fn_variadic callee && (x_item_count e <? fn_param_count callee)))
    (report id "function argument count mismatch") ;;
  for_each (fun i =>
      let arg := u32 (x_item_start e + i) in
      let! p := read PARAMS (u32 (fn_param_start callee + i)) in
      check_item arg (pa_type p) true (fun value =>
        let! span := item_span arg in error_types span "function argument type mismatch" (pa_type p) value))
    (seqZ 0 (Z.min (x_item_count e) (fn_param_count callee))) ;;
  if_ (fn_variadic callee)
    (for_each (fun i => (if fn_foreign callee then check_variadic_c else check_variadic callee) (u32 (x_item_start e + i)))
       (seqZ (fn_param_count callee) (x_item_count e - fn_param_count callee))) ;;
  typed id (fn_return_type callee).
Definition check_indirect (id : Z) : M Z :=
  let! e := expr_row id in
  let! target := check (x_left e) DYN_TYPE_INFER in
  let! a := ast in
  match pointer_info a target with
  | Some p =>
      match fn_type_info a (po_pointee p) with
      | Some signature =>
          if_ ((negb (ft_variadic signature) && negb (x_item_count e =? ft_param_count signature))
               || (ft_variadic signature && (x_item_count e <? ft_param_count signature)))
            (error_span (x_span e) "function pointer argument count mismatch") ;;
          for_each (fun i =>
              let arg := u32 (x_item_start e + i) in
              let! want := read FN_TYPE_PARAMS (u32 (ft_param_start signature + i)) in
              check_item arg want false (fun value =>
                let! span := item_span arg in error_types span "function pointer argument type mismatch" want value))
            (seqZ 0 (Z.min (x_item_count e) (ft_param_count signature))) ;;
          if_ (ft_variadic signature)
            (for_each (fun i => check_variadic_c (u32 (x_item_start e + i)))
               (seqZ (ft_param_count signature) (x_item_count e - ft_param_count signature))) ;;
          set_expr id (set_integer (po_pointee p - DYN_TYPE_FN_BASE)) ;;
          typed id (ft_return_type signature)
      | None => if_ (negb (target =? DYN_TYPE_ERROR)) (error_span (x_span e) "call target must be function pointer") ;;
                check_all (x_item_start e) (x_item_count e) ;; typed id DYN_TYPE_ERROR
      end
  | None => if_ (negb (target =? DYN_TYPE_ERROR)) (error_span (x_span e) "call target must be function pointer") ;;
            check_all (x_item_start e) (x_item_count e) ;; typed id DYN_TYPE_ERROR
  end.

(** *** Calls of generic functions *)
Record Inference := mkInference { i_args : list Z; i_values : list (option Z); i_failed : bool }.
Definition inference_failed (v : Inference) : Inference := mkInference (i_args v) (i_values v) true.
Definition all_bound (args : list Z) (count : Z) : bool := forallb (fun t => negb (t =? DYN_TYPE_INFER)) (take (Z.to_nat count) args).
Definition generic_arg (first_pass : bool) (g : DynAstGeneric) (item_start i : Z) (v : Inference) : M Inference :=
  let! p := read GENERIC_PARAMS (u32 (ge_param_start g + i)) in
  let! arg := item_expression (u32 (item_start + i)) in
  if arg =? DYN_NO_EXPR then mret (inference_failed v)
  else
    let! e := expr_row arg in
    (if first_pass && is_kind e DYN_EXPR_NAME then
       let! value := (if gp_is_type p then mret false
                      else let! l := find_local_ src garbage (x_span e) in mret (negb (l =? UINT32_MAX))) in
       if value : bool then mret tt
       else
         let! named := dyn_ast_named_type src garbage (x_span e) in
         if_ (negb (named =? DYN_TYPE_ERROR)) (set_expr arg (fun e => set_type named (set_kind DYN_EXPR_TYPE e)))
     else mret tt) ;;
    let! e := expr_row arg in
    let is_type := is_kind e DYN_EXPR_TYPE in
    if first_pass && negb (Bool.eqb (gp_is_type p) is_type) then
      error_span (x_span e) (if gp_is_type p then "expected a type argument" else "a type is not a value") ;; mret (inference_failed v)
    else if is_type then
      if first_pass then
        let! args := lift (set_at (i_args v) (gp_pattern p - DYN_TYPE_PARAM_BASE) (x_type e)) in
        mret (mkInference args (i_values v) (i_failed v))
      else mret v
    else
      let! a := ast in
      let! literal := lift (untyped_literal deep a arg) in
      if Bool.eqb first_pass literal then mret v
      else
        let! expected :=
          (if first_pass then mret DYN_TYPE_INFER
           else let! known := dyn_ast_substitute deep (gp_pattern p) (i_args v) in
                mret (if all_bound (i_args v) (ge_type_param_count g) then known else DYN_TYPE_INFER)) in
        let! value := check arg expected in
        let! values := lift (set_at (i_values v) i (Some value)) in
        let! a := ast in
        let! (conflict, args) := lift (bind_pattern deep a (gp_pattern p) value (i_args v)) in
        match conflict with
        | None => mret (mkInference args values (i_failed v))
        | Some k =>
            let! bound := lift (get_at args k) in
            shown 128 bound ;; shown 128 value ;;
            let! _ := lift (get_at (ge_type_names g) k) in
            let! e := expr_row arg in
            error_span (x_span e) "%.*s is both %s and %s in this call" ;;
            mret (mkInference args values true)
        end.
Fixpoint generic_args (first_pass : bool) (g : DynAstGeneric) (item_start : Z) (l : list Z) (v : Inference) : M Inference :=
  match l with
  | [] => mret v
  | i :: l' => let! v := generic_arg first_pass g item_start i v in generic_args first_pass g item_start l' v
  end.
(** The first type parameter that has no argument ends the search. *)
Fixpoint args_missing (call : DynSpan) (args : list Z) : M bool :=
  match args with
  | [] => mret false
  | t :: args' =>
      if (t =? DYN_TYPE_INFER) || (t =? DYN_TYPE_ERROR) then
        if_ (t =? DYN_TYPE_INFER) (error_span call "cannot infer %.*s from the arguments") ;; mret true
      else args_missing call args'
  end.
(** The value arguments against the parameters of the instance; type
    arguments are dropped. The number of items kept. *)
Fixpoint keep_args (g : DynAstGeneric) (item_start : Z) (values : list (option Z)) (l : list Z) (param kept : Z) : M Z :=
  match l with
  | [] => mret kept
  | i :: l' =>
      let! p := read GENERIC_PARAMS (u32 (ge_param_start g + i)) in
      if gp_is_type p then keep_args g item_start values l' param kept
      else
        let! arg := item_expression (u32 (item_start + i)) in
        let! target := read PARAMS param in
        let target := pa_type target in
        let! value := lift (mjoin (get_at values i)) in
        let! arg :=
          (if negb (value =? target) && negb (value =? DYN_TYPE_ERROR) && negb (target =? DYN_TYPE_ERROR) then
             let! ok := can_convert_ value target in
             if ok : bool then convert_expr arg target
             else let! e := expr_row arg in error_types (x_span e) "function argument type mismatch" target value ;; mret arg
           else mret arg) in
        write ITEMS (u32 (item_start + kept)) (mkItem no_span arg UINT32_MAX) ;;
        keep_args g item_start values l' (u32 (param + 1)) (kept + 1)
  end.
Definition check_generic_call (id generic : Z) : M Z :=
  let! g := read GENERICS generic in
  let! e := expr_row id in
  let call := x_span e in
  let item_start := x_item_start e in
  let item_count := x_item_count e in
  if negb (item_count =? ge_param_count g) then error_span call "function argument count mismatch" ;; typed id DYN_TYPE_ERROR
  else if 64 <? item_count then error_span call "too many arguments for a generic function" ;; typed id DYN_TYPE_ERROR
  else
    let start := mkInference (replicate (Z.to_nat DYN_MAX_TYPE_PARAMS) DYN_TYPE_INFER) (replicate 64 None) false in
    let! v := generic_args true g item_start (seqZ 0 item_count) start in
    let! v := generic_args false g item_start (seqZ 0 item_count) v in
    let! missing := (if i_failed v then mret true else args_missing call (take (Z.to_nat (ge_type_param_count g)) (i_args v))) in
    if missing : bool then typed id DYN_TYPE_ERROR
    else
      let! a := ast in
      let! hash := lift (instance_hash deep a src (i_args v) (ge_type_param_count g)) in
      let! function := find_or_instantiate deep generic (i_args v) call hash in
      if function =? UINT32_MAX then typed id DYN_TYPE_ERROR
      else
        let! f := read FUNCTIONS function in
        let! kept := keep_args g item_start (i_values v) (seqZ 0 item_count) (fn_param_start f) 0 in
        let! f := read FUNCTIONS function in
        let! a := ast in
        let! abi := lift (sema_c_abi_function a f) in
        if_ (negb abi) (error_span call abi_message) ;;
        set_expr id (fun e => set_integer function (set_left DYN_NO_EXPR (set_items (x_item_start e) kept e))) ;;
        typed id (fn_return_type f).
(** A call by name. [None] when the name is a value, and the call has become
    an indirect one. *)
Definition check_call (id : Z) : M (option Z) :=
  let! e := expr_row id in
  let! fn := sema_find_function src garbage (x_span e) in
  if fn =? UINT32_MAX then
    let! l := find_local_ src garbage (x_span e) in
    let! unknown := (if negb (l =? UINT32_MAX) then mret false
                     else let! g := find_global_ src (x_span e) in mret (g =? UINT32_MAX)) in
    if unknown : bool then
      let! a := ast in
      report id (match suggest_name a (x_span e) src true 256 with
                 | Some _ => "unknown %s; did you mean '%.*s'?" | None => "unknown function" end) ;;
      check_all (x_item_start e) (x_item_count e) ;;
      let! t := typed id DYN_TYPE_ERROR in mret (Some t)
    else
      let! ok := reserve_expr in
      if negb ok then error_span (x_span e) "out of memory" ;; mret (Some DYN_TYPE_ERROR)
      else
        let! target := push EXPRESSIONS (mkAstExpr DYN_EXPR_NAME DYN_TYPE_INFER (x_span e) DYN_OP_NONE DYN_NO_EXPR DYN_NO_EXPR 0
                                           (S754_zero false) false 0 0 false) in
        set_expr id (fun e => set_kind DYN_EXPR_INDIRECT_CALL (set_left (u32 target) e)) ;;
        mret None
  else
    let! f := read FUNCTIONS fn in
    let! t := (if fn_is_generic f then check_generic_call id (fn_generic f) else check_direct id fn) in
    mret (Some t).

(** *** Names *)
Definition check_name (id : Z) : M Z :=
  let! e := expr_row id in
  let! l := find_local_ src garbage (x_span e) in
  if negb (l =? UINT32_MAX) then
    set_expr id (set_integer l) ;;
    let! lo := read LOCALS l in typed id (lo_type lo)
  else
    let! global := find_global_ src (x_span e) in
    if negb (global =? UINT32_MAX) then
      set_expr id (fun e => set_integer global (set_kind DYN_EXPR_GLOBAL e)) ;;
      let! g := read GLOBALS global in typed id (gl_type g)
    else
      let! fn := sema_find_function src garbage (x_span e) in
      if negb (fn =? UINT32_MAX) then
        let! f := read FUNCTIONS fn in
        if fn_is_generic f then failed id "a generic function can only be called, not used as a value"
        else if fn_variadic f && negb (fn_foreign f) then failed id "native variadic function pointers are not supported"
        else
          let! a := ast in
          let! abi := lift (sema_c_abi_function a f) in
          if negb abi then failed id abi_message
          else
            set_expr id (fun e => set_integer fn (set_kind DYN_EXPR_FUNCTION e)) ;;
            let! t := function_pointer_type fn in typed id t
      else
        let! a := ast in
        failed id (match suggest_name a (x_span e) src false 256 with
                   | Some _ => "unknown %s; did you mean '%.*s'?" | None => "unknown name" end).

(** *** Arrays, slices and their elements *)
Fixpoint check_elements (start : Z) (l : list Z) (element : Z) : M Z :=
  match l with
  | [] => mret element
  | i :: l' =>
      let item := u32 (start + i) in
      let! x := item_expression item in
      let! value := check x element in
      if element =? DYN_TYPE_INFER then check_elements start l' value
      else
        (if negb (value =? element) && negb (value =? DYN_TYPE_ERROR) then
           let! ok := can_convert_ value element in
           if ok : bool then convert_item item element
           else let! span := item_span item in error_span span "array element type mismatch"
         else mret tt) ;;
        check_elements start l' element
  end.
Definition check_array (id expected : Z) : M Z :=
  let! e := expr_row id in
  let! a := ast in
  match array_info a expected with
  | None =>
      if x_item_count e =? 0 then failed id "empty array literal requires expected fixed-array type"
      else
        let! element := check_elements (x_item_start e) (seqZ 0 (x_item_count e)) DYN_TYPE_INFER in
        let! t := sema_intern_array element (x_item_count e) in typed id t
  | Some want =>
      if ar_length want <? x_item_count e then failed id "array literal has too many elements"
      else
        let! _ := check_elements (x_item_start e) (seqZ 0 (x_item_count e)) (ar_element want) in
        typed id expected
  end.
Definition check_index (id : Z) : M Z :=
  let! e := expr_row id in
  let! base := check (x_left e) DYN_TYPE_INFER in
  let! e := expr_row id in
  let! index := check (x_right e) DYN_TYPE_USIZE in
  let! e := expr_row id in
  let! right_ := index_operand (x_right e) index (x_span e) "array index" in
  set_expr id (set_right right_) ;;
  let! a := ast in
  match array_info a base, slice_info a base with
  | None, None => failed id "indexing requires array or slice"
  | Some ar, _ => typed id (ar_element ar)
  | None, Some sl => typed id (sl_element sl)
  end.
Definition slice_bounds (id element : Z) (element_const : bool) : M Z :=
  let! e := expr_row id in
  (if negb (x_right e =? DYN_NO_EXPR) then
     let! t := check (x_right e) DYN_TYPE_USIZE in
     let! e := expr_row id in
     let! r := index_operand (x_right e) t (x_span e) "slice bound" in set_expr id (set_right r)
   else mret tt) ;;
  let! e := expr_row id in
  (if negb (x_integer e =? DYN_NO_EXPR) then
     let! t := check (u32 (x_integer e)) DYN_TYPE_USIZE in
     let! e := expr_row id in
     let! r := index_operand (u32 (x_integer e)) t (x_span e) "slice bound" in set_expr id (set_integer r)
   else mret tt) ;;
  let! t := sema_intern_slice element element_const in typed id t.
Definition check_slice (id : Z) : M Z :=
  let! e := expr_row id in
  let! base := check (x_left e) DYN_TYPE_INFER in
  let! a := ast in
  let! p := pb in
  let! e := expr_row id in
  match array_info a base, slice_info a base, pointer_info a base with
  | Some ar, _, _ => slice_bounds id (ar_element ar) false
  | None, Some sl, _ => slice_bounds id (sl_element sl) (sl_is_const sl)
  | None, None, Some pointer =>
      if x_integer e =? DYN_NO_EXPR then failed id "pointer slicing requires explicit end bound"
      else
        let! size := lift (sema_type_layout deep p a (po_pointee pointer) false) in
        if size =? 0 then failed id "cannot slice pointer to unsized type"
        else slice_bounds id (po_pointee pointer) (po_is_const pointer)
  | None, None, None => failed id "slicing requires array, slice, or pointer range"
  end.
Definition check_len (id : Z) : M Z :=
  let! e := expr_row id in
  let! base := check (x_left e) DYN_TYPE_INFER in
  if negb (dyn_type_is_array base) && negb (dyn_type_is_slice base) then failed id "#len requires array or slice"
  else typed id DYN_TYPE_USIZE.

(** *** [#typeof] *)
Fixpoint last_named (names : list (Z * DynSpan)) (name : bytes) (found : Z) : Z :=
  match names with
  | [] => found
  | (i, n) :: names' => last_named names' name (if span_is n src name then i else found)
  end.
Definition numbered {A} (l : list A) : list (Z * A) := imap (fun i x => (Z.of_nat i, x)) l.
(** The fields that the compiler fills in have the types it expects. *)
Definition reflection_abi (st member : DynAstStruct) (en : DynAstEnum) (kind_enum : Z) : M bool :=
  if negb ((sr_field_count st =? 13) && (sr_field_count member =? 2) && (11 <=? en_variant_count en)) then mret false
  else
    let! fs := rows_of FIELDS (sr_field_start st) 13 in
    let type_at i := match get_at fs i with Some f => fd_type f | None => DYN_TYPE_ERROR end in
    mret ((type_at 0 =? DYN_TYPE_U64) && (type_at 1 =? DYN_TYPE_ENUM_BASE + kind_enum) && (type_at 3 =? DYN_TYPE_USIZE)
          && (type_at 4 =? DYN_TYPE_USIZE) && (type_at 5 =? DYN_TYPE_U64) && (type_at 6 =? DYN_TYPE_USIZE)
          && (type_at 7 =? DYN_TYPE_USIZE) && (type_at 8 =? DYN_TYPE_USIZE) && (type_at 9 =? DYN_TYPE_U64)).
(** What [#typeof] says of a type besides its size: element, array length,
    members, parameters, result. *)
Definition type_parts (operand : Z) : M (Z * Z * Z * Z * Z) :=
  let! a := ast in
  if dyn_type_is_pointer operand then
    let! p := lift (pointer_info a operand) in mret (po_pointee p, 0, 0, 0, DYN_TYPE_VOID)
  else if dyn_type_is_array operand then
    let! ar := lift (array_info a operand) in mret (ar_element ar, ar_length ar, 0, 0, DYN_TYPE_VOID)
  else if dyn_type_is_slice operand then
    let! sl := lift (slice_info a operand) in mret (sl_element sl, 0, 0, 0, DYN_TYPE_VOID)
  else if dyn_type_is_struct operand then
    let! st := read STRUCTS (operand - DYN_TYPE_STRUCT_BASE) in mret (DYN_TYPE_VOID, 0, sr_field_count st, 0, DYN_TYPE_VOID)
  else if dyn_type_is_enum operand then
    let! en := read ENUMS (operand - DYN_TYPE_ENUM_BASE) in mret (DYN_TYPE_VOID, 0, en_variant_count en, 0, DYN_TYPE_VOID)
  else if dyn_type_is_function operand then
    let! f := lift (fn_type_info a operand) in mret (DYN_TYPE_VOID, 0, 0, ft_param_count f, ft_return_type f)
  else mret (DYN_TYPE_VOID, 0, 0, 0, DYN_TYPE_VOID).
Definition related_id (t : Z) : M Z :=
  if t =? DYN_TYPE_VOID then mret 0
  else let! a := ast in let! n := lift (display_type_name deep a src 512 t) in mret (reflection_id n).
(** The names and types of the members, in two arrays of their own. *)
Definition members_of (operand reflected_fn : Z) : M (list (DynSpan * Z)) :=
  let! a := ast in
  if dyn_type_is_struct operand then
    let! st := read STRUCTS (operand - DYN_TYPE_STRUCT_BASE) in
    let! fs := rows_of FIELDS (sr_field_start st) (sr_field_count st) in mret (map (fun f => (fd_name f, fd_type f)) fs)
  else if dyn_type_is_enum operand then
    let! en := read ENUMS (operand - DYN_TYPE_ENUM_BASE) in
    let! vs := rows_of VARIANTS (en_variant_start en) (en_variant_count en) in mret (map (fun v => (va_name v, va_payload_type v)) vs)
  else
    let! f := lift (fn_type_info a operand) in
    let! ts := rows_of FN_TYPE_PARAMS (ft_param_start f) (ft_param_count f) in
    let! ns :=
      (if reflected_fn =? UINT32_MAX then mret (map (fun _ => no_span) ts)
       else let! g := read FUNCTIONS reflected_fn in
            let! ps := rows_of PARAMS (fn_param_start g) (ft_param_count f) in mret (map pa_name ps)) in
    mret (zip ns ts).
Definition member_values (operand reflected_fn member_type member_slice nil_value : Z) : M Z :=
  let! (_, _, members, parameters, _) := type_parts operand in
  let count := members + parameters in
  let! names := allocate_bytes (count * 8) in
  let! types := allocate_bytes (count * 4) in
  if names && types then
    let! ms := members_of operand reflected_fn in reflection_members member_type member_slice ms
  else mret (if count =? 0 then nil_value else DYN_NO_EXPR).
Fixpoint write_values (start i : Z) (values : list Z) : M bool :=
  match values with
  | [] => mret true
  | v :: values' =>
      if v =? DYN_NO_EXPR then mret false
      else write ITEMS (u32 (start + i)) (mkItem no_span v i) ;; write_values start (i + 1) values'
  end.
Definition reflect (id operand reflected_fn info member kind_enum : Z) : M Z :=
  let! st := read STRUCTS info in
  let! en := read ENUMS kind_enum in
  let! a := ast in
  let! name := lift (display_type_name deep a src 512 operand) in
  let! ok := reserve_reflection_string in
  let! ok := (if ok : bool then reserve_reflection_items 13 else mret false) in
  if negb ok then failed id "out of memory"
  else
    let! copy := allocate_bytes (zlen name) in
    if negb (zlen name =? 0) && negb copy then failed id "out of memory"
    else
      let! string := push STRINGS name in
      let! a := ast in
      let start := u32 (tcount a ITEMS) in
      skip_items 13 ;;
      let! v0 := reflection_expr DYN_EXPR_INT DYN_TYPE_U64 (reflection_id name) in
      let! v1 := reflection_expr DYN_EXPR_ENUM (DYN_TYPE_ENUM_BASE + kind_enum) (u32 (en_variant_start en + reflection_kind a operand)) in
      let! f2 := read FIELDS (u32 (sr_field_start st + 2)) in
      let! v2 := reflection_expr DYN_EXPR_STRING (fd_type f2) (u32 string) in
      let unsized := (operand =? DYN_TYPE_VOID) || dyn_type_is_function operand in
      let! p := pb in
      let! size := (if unsized then mret 0 else lift (sema_type_layout deep p a operand false)) in
      let! alignment := (if unsized then mret 1 else lift (sema_type_layout deep p a operand true)) in
      let! v3 := reflection_expr DYN_EXPR_INT DYN_TYPE_USIZE size in
      let! v4 := reflection_expr DYN_EXPR_INT DYN_TYPE_USIZE alignment in
      let! (element, array_length, members, parameters, result) := type_parts operand in
      let! element_id := related_id element in
      let! result_id := related_id result in
      let! v5 := reflection_expr DYN_EXPR_INT DYN_TYPE_U64 element_id in
      let! v6 := reflection_expr DYN_EXPR_INT DYN_TYPE_USIZE array_length in
      let! v7 := reflection_expr DYN_EXPR_INT DYN_TYPE_USIZE members in
      let! v8 := reflection_expr DYN_EXPR_INT DYN_TYPE_USIZE parameters in
      let! v9 := reflection_expr DYN_EXPR_INT DYN_TYPE_U64 result_id in
      let member_type := DYN_TYPE_STRUCT_BASE + member in
      let! member_slice := sema_intern_slice member_type true in
      let! v10 := reflection_expr DYN_EXPR_NIL member_slice 0 in
      let! v11 := reflection_expr DYN_EXPR_NIL member_slice 0 in
      let! v12 := reflection_expr DYN_EXPR_NIL member_slice 0 in
      let! v10 := (if dyn_type_is_struct operand then member_values operand reflected_fn member_type member_slice v10 else mret v10) in
      let! v11 := (if dyn_type_is_enum operand then member_values operand reflected_fn member_type member_slice v11 else mret v11) in
      let! v12 := (if dyn_type_is_function operand then member_values operand reflected_fn member_type member_slice v12 else mret v12) in
      let! ok := write_values start 0 [v0; v1; v2; v3; v4; v5; v6; v7; v8; v9; v10; v11; v12] in
      if negb ok then failed id "out of memory"
      else
        set_expr id (fun e => set_items start 13 (set_right DYN_NO_EXPR (set_left DYN_NO_EXPR
          (set_integer info (set_type (DYN_TYPE_STRUCT_BASE + info) (set_kind DYN_EXPR_STRUCT e)))))) ;;
        mret (DYN_TYPE_STRUCT_BASE + info).
Definition check_typeof (id : Z) : M Z :=
  let! e := expr_row id in
  let! (operand, reflected_fn) :=
    (if x_boolean e then mret (u32 (x_integer e), UINT32_MAX)
     else
       let! source := expr_row (x_left e) in
       let! fn := (if is_kind source DYN_EXPR_NAME then sema_find_function src garbage (x_span source) else mret UINT32_MAX) in
       let! t := (if fn =? UINT32_MAX then check (x_left e) DYN_TYPE_INFER else function_signature_type fn) in
       mret (t, fn)) in
  let! a := ast in
  let structs := numbered (map sr_name (tab a STRUCTS)) in
  let info := last_named structs (str "TypeInfo") UINT32_MAX in
  let member := last_named structs (str "TypeMember") UINT32_MAX in
  let kind_enum := last_named (numbered (map en_name (tab a ENUMS))) (str "TypeKind") UINT32_MAX in
  if (info =? UINT32_MAX) || (member =? UINT32_MAX) || (kind_enum =? UINT32_MAX) then failed id "compiler reflection ABI is unavailable"
  else
    let! st := read STRUCTS info in
    let! mst := read STRUCTS member in
    let! en := read ENUMS kind_enum in
    let! abi := reflection_abi st mst en kind_enum in
    if negb abi then failed id "compiler TypeInfo ABI mismatch"
    else reflect id operand reflected_fn info member kind_enum.

(** *** Sizes, offsets, casts and system calls *)
Definition check_size (id : Z) : M Z :=
  let! e := expr_row id in
  let align := is_kind e DYN_EXPR_ALIGN in
  let! operand := (if x_boolean e then mret (u32 (x_integer e)) else check (x_left e) DYN_TYPE_INFER) in
  let! a := ast in
  let! p := pb in
  let! value := lift (sema_type_layout deep p a operand align) in
  if value =? 0 then
    failed id (if align then "#alignof requires sized value or type" else "#sizeof requires sized value or type")
  else set_expr id (fun e => set_integer value (set_kind DYN_EXPR_INT e)) ;; typed id DYN_TYPE_USIZE.
Definition check_offset (id : Z) : M Z :=
  let! e := expr_row id in
  let! a := ast in
  let target := u32 (x_integer e) in
  if negb (dyn_type_is_struct target) || (tcount a STRUCTS <=? target - DYN_TYPE_STRUCT_BASE) then
    failed id "#offsetof requires a struct type"
  else
    let sid := target - DYN_TYPE_STRUCT_BASE in
    let! field := sema_find_field src garbage sid (mkDynSpan (x_item_start e) (x_item_count e)) in
    if field =? UINT32_MAX then failed id "#offsetof names an unknown field"
    else
      let! st := read STRUCTS sid in
      let! f := read FIELDS (u32 (sr_field_start st + field)) in
      set_expr id (fun e => set_items 0 0 (set_integer (fd_offset f) (set_kind DYN_EXPR_INT e))) ;;
      typed id DYN_TYPE_USIZE.
Definition plain_enum (a : DynAstProgram) (t : Z) : option bool :=
  if dyn_type_is_enum t then let* en := get_at (tab a ENUMS) (t - DYN_TYPE_ENUM_BASE) in Some (negb (en_has_payload en)) else Some false.
Definition check_cast (id : Z) : M Z :=
  let! e := expr_row id in
  let! source := check (x_left e) DYN_TYPE_INFER in
  let! e := expr_row id in
  let target := u32 (x_integer e) in
  if source =? DYN_TYPE_ERROR then typed id DYN_TYPE_ERROR
  else
    let! a := ast in
    let source_ptr := dyn_type_is_pointer source || (source =? DYN_TYPE_RAWPTR) in
    let target_ptr := dyn_type_is_pointer target || (target =? DYN_TYPE_RAWPTR) in
    let! source_tag := lift (plain_enum a source) in
    let! target_tag := lift (plain_enum a target) in
    if (numeric a source && numeric a target) || (source_ptr && target_ptr) || (source_ptr && is_integer a target)
       || (is_integer a source && target_ptr) || (source =? target) || (source_tag && is_integer a target)
       || (is_integer a source && target_tag)
    then typed id target
    else shown 128 source ;; shown 128 target ;; failed id "cannot cast %s to %s".
Definition check_bitcast (id : Z) : M Z :=
  let! e := expr_row id in
  let! source := check (x_left e) DYN_TYPE_INFER in
  let! e := expr_row id in
  let target := u32 (x_integer e) in
  let! a := ast in
  let! p := pb in
  let scalar := (numeric a source || dyn_type_is_pointer source) && (numeric a target || dyn_type_is_pointer target) in
  let! from := lift (sema_type_layout deep p a source false) in
  let! to := lift (sema_type_layout deep p a target false) in
  if negb scalar || (from =? 0) || negb (from =? to) || negb (Bool.eqb (dyn_type_is_pointer source) (dyn_type_is_pointer target)) then
    failed id "#bitcast requires compatible scalar representation sizes"
  else typed id target.
Definition check_syscall (id : Z) : M Z :=
  let! e := expr_row id in
  let target := dyn_context_target host (s_target src) in
  if_ ((x_item_count e <? 1) || (7 <? x_item_count e)) (report id "#syscall requires syscall number and at most six arguments") ;;
  for_each (fun i =>
      let! x := item_expression (u32 (x_item_start e + i)) in
      let! t := check x DYN_TYPE_INFER in
      let! a := ast in
      if_ (negb (is_integer a t) && negb (dyn_type_is_pointer t))
        (let! span := item_span (u32 (x_item_start e + i)) in error_span span "#syscall arguments require integer or pointer"))
    (seqZ 0 (x_item_count e)) ;;
  if_ (bytes_eqb (t_kernel target) (str "none")) (report id "#syscall requires an operating system; bare-metal targets have none") ;;
  if_ (negb (x_item_count e =? 0) && bytes_eqb (t_kernel target) (str "linux") && negb (bytes_eqb (t_arch target) (str "x86_64")))
    (let! x := item_expression (x_item_start e) in
     let! number := expr_row x in
     if negb (is_kind number DYN_EXPR_INT) then
       error_span (x_span number) "non-x86 Linux #syscall number must be a constant portable Linux syscall ID"
     else
       match dyn_target_syscall_number target (x_integer number) with
       | None => error_span (x_span number) "syscall has no mapping for this Linux target"
       | Some native => set_expr x (set_integer native)
       end) ;;
  typed id DYN_TYPE_ISIZE.

(** *** Literals *)
Definition check_nil (id expected : Z) : M Z :=
  if negb (dyn_type_is_pointer expected) && negb (expected =? DYN_TYPE_RAWPTR) then failed id "nil requires expected pointer type"
  else typed id expected.
Definition check_int (id expected : Z) : M Z :=
  let! e := expr_row id in
  let! a := ast in
  let! p := pb in
  if (expected =? DYN_TYPE_F32) || (expected =? DYN_TYPE_F64) then
    if (if expected =? DYN_TYPE_F32 then 2 ^ 24 else 2 ^ 53) <? x_integer e then
      failed id "integer literal is not exactly representable in expected float type"
    else
      set_expr id (fun e => set_floating (binary_normalize 53 1024 (x_integer e) 0 false) (set_kind DYN_EXPR_FLOAT e)) ;;
      typed id expected
  else if negb (expected =? DYN_TYPE_INFER) && negb (dyn_type_is_distinct expected) && is_integer a expected then
    if negb (literal_fits p a (x_integer e) expected) then failed id "integer literal is not representable in expected type"
    else typed id expected
  else if 2 ^ 31 - 1 <? x_integer e then failed id "integer literal does not fit default i32"
  else typed id DYN_TYPE_I32.
Definition check_char (id expected : Z) : M Z :=
  let! e := expr_row id in
  let! a := ast in
  let! p := pb in
  let t := if (expected =? DYN_TYPE_U8) || (expected =? DYN_TYPE_U16) || (expected =? DYN_TYPE_U32) then expected
           else if x_integer e <=? 255 then DYN_TYPE_U8 else DYN_TYPE_U32 in
  if negb (literal_fits p a (x_integer e) t) then failed id "character literal is not representable in expected type"
  else typed id t.
Definition check_string (id expected : Z) : M Z :=
  if expected =? DYN_TYPE_INFER then let! t := sema_intern_slice DYN_TYPE_U8 true in typed id t
  else
    let! a := ast in
    match slice_info a expected with
    | Some target =>
        if negb (sl_element target =? DYN_TYPE_U8) || negb (sl_is_const target) then
          failed id "string literal requires expected []const u8 type"
        else typed id expected
    | None => failed id "string literal requires expected []const u8 type"
    end.

(** *** Structs *)
Definition check_struct_item (sid : Z) (st : DynAstStruct) (start i : Z) : M unit :=
  let item := u32 (start + i) in
  let! it := read ITEMS item in
  let! field := sema_find_field src garbage sid (it_name it) in
  if field =? UINT32_MAX then error_span (it_name it) "unknown struct field"
  else
    write ITEMS item (mkItem (it_name it) (it_expression it) field) ;;
    for_each (fun j =>
        let! other := read ITEMS (u32 (start + j)) in
        if_ (dyn_span_text_equal (it_name it) (it_name other) src) (error_span (it_name it) "duplicate struct literal field"))
      (seqZ 0 i) ;;
    let! f := read FIELDS (u32 (sr_field_start st + field)) in
    check_item item (fd_type f) true (fun _ => error_span (it_name it) "struct field initializer type mismatch").
Definition check_struct (id expected : Z) : M Z :=
  let! e := expr_row id in
  let! sid := (if x_boolean e && dyn_type_is_struct expected then mret (expected - DYN_TYPE_STRUCT_BASE)
               else sema_find_struct src garbage (x_span e)) in
  let! a := ast in
  if (sid =? UINT32_MAX) || (tcount a STRUCTS <=? sid) then
    failed id (if x_boolean e then "inferred struct literal requires expected struct type" else "unknown struct type")
  else
    set_expr id (fun e => set_type (DYN_TYPE_STRUCT_BASE + sid) (set_integer sid e)) ;;
    let! st := read STRUCTS sid in
    for_each (check_struct_item sid st (x_item_start e)) (seqZ 0 (x_item_count e)) ;;
    let! e := expr_row id in mret (x_type e).
Definition check_field (id : Z) : M Z :=
  let! e := expr_row id in
  let! base := check (x_left e) DYN_TYPE_INFER in
  let! a := ast in
  let! base :=
    (if dyn_type_is_pointer base then
       let! pointee := (match pointer_info a base with Some p => mret (po_pointee p) | None => missing end) in
       set_expr id (set_boolean true) ;; mret pointee
     else mret base) in
  if negb (dyn_type_is_struct base) then
    if_ (negb (base =? DYN_TYPE_ERROR)) (report id "field access requires struct or struct pointer") ;; typed id DYN_TYPE_ERROR
  else
    let sid := base - DYN_TYPE_STRUCT_BASE in
    let! e := expr_row id in
    let! field := sema_find_field src garbage sid (x_span e) in
    if field =? UINT32_MAX then shown 400 base ;; failed id "%s has no field '%.*s'"
    else
      set_expr id (set_integer field) ;;
      let! st := read STRUCTS sid in
      let! f := read FIELDS (u32 (sr_field_start st + field)) in
      typed id (fd_type f).

(** *** Operators *)
Definition negative_message : string := "negative literal is not representable in expected type".
Definition check_address (id : Z) : M Z :=
  let! e := expr_row id in
  let! operand := expr_row (x_left e) in
  let! function :=
    (if is_kind operand DYN_EXPR_NAME then
       let! l := find_local_ src garbage (x_span operand) in
       if negb (l =? UINT32_MAX) then mret false
       else let! fn := sema_find_function src garbage (x_span operand) in mret (negb (fn =? UINT32_MAX))
     else mret false) in
  if function : bool then failed id "a function is already a value; drop the '&'"
  else
    let! value := check (x_left e) DYN_TYPE_INFER in
    let! e := expr_row id in
    let! o := expr_row (x_left e) in
    if negb (is_kind o DYN_EXPR_NAME) && negb (is_kind o DYN_EXPR_GLOBAL) && negb (is_kind o DYN_EXPR_FIELD) && negb (is_kind o DYN_EXPR_INDEX)
       && negb (is_kind o DYN_EXPR_UNARY && is_op o DYN_OP_DEREF)
    then failed id "address operand must be assignable storage or function"
    else
      let! a := ast in
      let! const := lift (lvalue_const deep a (x_left e)) in
      let! t := sema_intern_pointer value const in typed id t.
Definition check_unary (id operand : Z) : M Z :=
  let! e := expr_row id in
  let! a := ast in
  if is_op e DYN_OP_DEREF then
    match pointer_info a operand with
    | None => failed id "dereference requires pointer"
    | Some p =>
        if po_pointee p =? DYN_TYPE_VOID then failed id "raw *void pointer cannot be dereferenced" else typed id (po_pointee p)
    end
  else
    (if is_op e DYN_OP_NOT && negb (operand =? DYN_TYPE_BOOL) then report id "! requires bool"
     else if is_op e DYN_OP_BIT_NOT && negb (is_integer a operand) then report id "~ requires integer"
     else if_ (is_op e DYN_OP_NEG && negb (numeric a operand)) (report id "unary - requires numeric type")) ;;
    typed id operand.
Definition check_shift (id left_ : Z) : M Z :=
  let! e := expr_row id in
  let! right_ := check (x_right e) DYN_TYPE_USIZE in
  let! a := ast in
  let! p := pb in
  if negb (is_integer a left_) || negb (is_integer a right_) || signed_int a right_ then failed id "shift count requires unsigned integer"
  else
    let! e := expr_row id in
    let! rhs := lift (constant_uint deep a (x_right e)) in
    if c_valid rhs && (bits p a left_ <=? c_value rhs) then failed id "invalid constant shift count"
    else typed id left_.
Definition aggregate (a : DynAstProgram) (t : Z) : option bool :=
  if (t =? DYN_TYPE_STRING) || dyn_type_is_struct t || dyn_type_is_array t || dyn_type_is_slice t then Some true
  else if dyn_type_is_enum t then let* en := get_at (tab a ENUMS) (t - DYN_TYPE_ENUM_BASE) in Some (en_has_payload en)
  else Some false.
(** A comparison of an unsigned value with zero whose result is known. *)
Definition sign_test (a : DynAstProgram) (e : DynAstExpr) : option bool :=
  let* l := get_at (tab a EXPRESSIONS) (x_left e) in
  let* r := get_at (tab a EXPRESSIONS) (x_right e) in
  let right_zero := is_kind r DYN_EXPR_INT && (x_integer r =? 0) in
  let left_zero := is_kind l DYN_EXPR_INT && (x_integer l =? 0) in
  Some ((right_zero && (is_op e DYN_OP_LT || is_op e DYN_OP_GE)) || (left_zero && (is_op e DYN_OP_GT || is_op e DYN_OP_LE))).
Definition check_comparison (id operand : Z) : M Z :=
  let! e := expr_row id in
  let! a := ast in
  let! incomparable := lift (aggregate a operand) in
  if incomparable : bool then failed id "aggregate values are not comparable"
  else if (dyn_type_is_pointer operand || dyn_type_is_enum operand) && negb (is_op e DYN_OP_EQ) && negb (is_op e DYN_OP_NE) then
    failed id (if dyn_type_is_enum operand then "enums support equality only" else "pointers support equality only")
  else
    let! x := the_sema in
    let! in_instance := (if current_function x =? UINT32_MAX then mret false
                         else let! f := read FUNCTIONS (current_function x) in mret (fn_is_instance f)) in
    let! known := (if is_integer a operand && negb (signed_int a operand) && negb in_instance then lift (sign_test a e) else mret false) in
    if known : bool then failed id "comparison is constant: an unsigned value is never negative"
    else typed id DYN_TYPE_BOOL.
Definition check_arithmetic (id operand : Z) : M Z :=
  let! e := expr_row id in
  let! a := ast in
  let! p := pb in
  if_ (negb (numeric a operand)) (report id "arithmetic requires numeric operands") ;;
  if x_wrap e && negb (is_integer a operand) && numeric a operand then failed id "#wrap requires integer arithmetic"
  else if negb (is_integer a operand) then typed id operand
  else
    let! rhs := lift (constant_uint deep a (x_right e)) in
    if (is_op e DYN_OP_DIV || is_op e DYN_OP_REM) && c_valid rhs && (c_value rhs =? 0) then failed id "invalid constant division by zero"
    else if x_wrap e then typed id operand
    else
      let! overflows :=
        (if signed_int a operand then
           let! all := lift (constant_int deep a id) in
           mret (c_overflow all || (c_valid all && negb (constant_fits_type p a (c_value all) operand)))
         else
           let! all := lift (constant_uint deep a id) in
           mret (c_overflow all || (c_valid all && (bits p a operand <? 64) && (2 ^ bits p a operand - 1 <? c_value all)))) in
      if overflows : bool then failed id "constant arithmetic overflows result type" else typed id operand.
(** Pointers of different types are compared after a conversion. *)
Definition join_pointers (id left_ right_ : Z) : M (Z * Z) :=
  let! e := expr_row id in
  if negb (left_ =? right_) && dyn_type_is_pointer left_ && dyn_type_is_pointer right_ && (is_op e DYN_OP_EQ || is_op e DYN_OP_NE) then
    let! ok := can_convert_ left_ right_ in
    if ok : bool then
      let! c := convert_expr (x_left e) right_ in set_expr id (set_left c) ;; mret (right_, right_)
    else
      let! ok := can_convert_ right_ left_ in
      if ok : bool then
        let! c := convert_expr (x_right e) left_ in set_expr id (set_right c) ;; mret (left_, left_)
      else mret (left_, right_)
  else mret (left_, right_).
Definition check_binary (id left_ right_ : Z) : M Z :=
  if (left_ =? DYN_TYPE_ERROR) || (right_ =? DYN_TYPE_ERROR) then typed id DYN_TYPE_ERROR
  else
    let! (left_, right_) := join_pointers id left_ right_ in
    let! e := expr_row id in
    let! a := ast in
    if negb (left_ =? right_) then
      shown 128 left_ ;; shown 128 right_ ;; failed id "operator has mismatched types %s and %s; cast one operand"
    else if is_op e DYN_OP_LOGICAL_AND || is_op e DYN_OP_LOGICAL_OR then
      if_ (negb (left_ =? DYN_TYPE_BOOL)) (report id "logical operators require bool") ;; typed id DYN_TYPE_BOOL
    else if is_comparison (x_op e) then check_comparison id left_
    else if is_op e DYN_OP_BIT_AND || is_op e DYN_OP_BIT_OR || is_op e DYN_OP_BIT_XOR then
      if_ (negb (is_integer a left_) && negb (left_ =? DYN_TYPE_BOOL)) (report id "bitwise operators require integer or bool") ;;
      typed id left_
    else check_arithmetic id left_.
(** The operands: [nil] on the left takes its type from the right operand, a
    literal on the left too. The left type, and the right one when it is known. *)
Definition check_operands (id expected : Z) : M (Z * option Z) :=
  let! e := expr_row id in
  let! a := ast in
  let! literal_left :=
    (if is_kind e DYN_EXPR_BINARY && negb (is_op e DYN_OP_SHL) && negb (is_op e DYN_OP_SHR) && negb (is_op e DYN_OP_LOGICAL_AND)
        && negb (is_op e DYN_OP_LOGICAL_OR)
     then let! l := lift (untyped_numeric_literal deep a (x_left e)) in
          if l : bool then let! r := lift (untyped_numeric_literal deep a (x_right e)) in mret (negb r) else mret false
     else mret false) in
  let! l := expr_row (x_left e) in
  if is_kind l DYN_EXPR_NIL && is_kind e DYN_EXPR_BINARY then
    let! r := check (x_right e) DYN_TYPE_INFER in
    let! e := expr_row id in
    let! left_ := check (x_left e) r in
    mret (left_, if literal_left : bool then Some DYN_TYPE_INFER else None)
  else if literal_left : bool then
    let! r := check (x_right e) (if is_comparison (x_op e) then DYN_TYPE_INFER else expected) in
    let! e := expr_row id in
    let! left_ := check (x_left e) (if r =? DYN_TYPE_ERROR then expected else r) in
    mret (left_, Some r)
  else let! left_ := check (x_left e) expected in mret (left_, None).
Definition check_operand_types (id expected : Z) : M Z :=
  let! (left_, known) := check_operands id expected in
  let! e := expr_row id in
  if is_kind e DYN_EXPR_UNARY then check_unary id left_
  else if is_op e DYN_OP_SHL || is_op e DYN_OP_SHR then check_shift id left_
  else
    let! right_ := (match known with Some r => mret r | None => check (x_right e) left_ end) in
    check_binary id left_ right_.
Definition check_operator (id expected : Z) : M Z :=
  let! e := expr_row id in
  let! a := ast in
  let! p := pb in
  let negation := is_kind e DYN_EXPR_UNARY && is_op e DYN_OP_NEG && negb (dyn_type_is_distinct expected) in
  let! negated :=
    (if negation && (signed_int a expected || is_integer a expected) then
       let! l := expr_row (x_left e) in mret (if is_kind l DYN_EXPR_INT then Some (x_integer l) else None)
     else mret None) in
  match negated with
  | Some v =>
      if signed_int a expected then
        let width := bits p a expected in
        if (if width =? 64 then 2 ^ 63 else 2 ^ (width - 1)) <? v then failed id negative_message
        else
          set_expr (x_left e) (set_type expected) ;;
          set_expr id (set_boolean true) ;; typed id expected
      else if negb (v =? 0) then failed id negative_message
      else check_operand_types id expected
  | None =>
      if is_kind e DYN_EXPR_UNARY && is_op e DYN_OP_ADDRESS then check_address id else check_operand_types id expected
  end.

(** *** The dispatch *)
Definition check_kind (id expected : Z) : M Z :=
  let! e := expr_row id in
  match x_kind e with
  | DYN_EXPR_INDIRECT_CALL => check_indirect id
  | DYN_EXPR_FUNCTION | DYN_EXPR_CONVERT | DYN_EXPR_BOOL => mret (x_type e)
  | DYN_EXPR_TYPE => error_span (x_span e) "a type is not a value; only generic functions take type arguments" ;; mret DYN_TYPE_ERROR
  | DYN_EXPR_NAME => check_name id
  | DYN_EXPR_ARRAY => check_array id expected
  | DYN_EXPR_INDEX => check_index id
  | DYN_EXPR_SLICE => check_slice id
  | DYN_EXPR_LEN => check_len id
  | DYN_EXPR_TYPEOF => check_typeof id
  | DYN_EXPR_SIZE | DYN_EXPR_ALIGN => check_size id
  | DYN_EXPR_OFFSET => check_offset id
  | DYN_EXPR_CAST => check_cast id
  | DYN_EXPR_BITCAST => check_bitcast id
  | DYN_EXPR_SYSCALL => check_syscall id
  | DYN_EXPR_NIL => check_nil id expected
  | DYN_EXPR_STRUCT => check_struct id expected
  | DYN_EXPR_FIELD => check_field id
  | DYN_EXPR_INT => check_int id expected
  | DYN_EXPR_FLOAT => typed id (if expected =? DYN_TYPE_F64 then DYN_TYPE_F64 else DYN_TYPE_F32)
  | DYN_EXPR_CHAR => check_char id expected
  | DYN_EXPR_STRING => check_string id expected
  | _ => check_operator id expected
  end.
Definition check_expr_body (id expected : Z) : M Z :=
  let! ok := step_work 1 in
  if negb ok then mret DYN_TYPE_ERROR
  else if id =? DYN_NO_EXPR then mret DYN_TYPE_VOID
  else
    let! e := expr_row id in
    let! qualified := sema_expr_enum src garbage (x_left e) in
    if_ (is_kind e DYN_EXPR_ENUM && (qualified =? UINT32_MAX))
      (set_expr id (fun e => set_right DYN_NO_EXPR (set_left (x_right e) (set_kind DYN_EXPR_INDIRECT_CALL e)))) ;;
    let! e := expr_row id in
    if is_kind e DYN_EXPR_ENUM || (is_kind e DYN_EXPR_FIELD && negb (qualified =? UINT32_MAX)) then check_variant id qualified expected
    else
      let! called := (if is_kind e DYN_EXPR_CALL then check_call id else mret None) in
      match called with Some t => mret t | None => check_kind id expected end.
End Checks.

Fixpoint check_with (missing : M Z) (fuel : nat) (id expected : Z) : M Z :=
  match fuel with O => undefined | S n => check_expr_body (check_with missing n) missing id expected end.
Definition check_expr : nat -> Z -> Z -> M Z := check_with (mret DYN_TYPE_ERROR).
(** The same, undefined at a field of a pointer whose type has no row. *)
Definition check_strict : nat -> Z -> Z -> M Z := check_with undefined.
End SemaExpr.
