(* ===== verification/SemaExprSpec.v ===== *)
(** What type checking of expressions guarantees ([SemaExpr]): the error
    type is never given silently.

    [trouble] is a report, an exhausted budget, a full table or a table that
    could not grow. Until there is trouble no row of the program holds the error
    type, and checking an expression gives another type. *)

From S2P Require Import Prelude Target Source Work Ir Ast AstTypes SemaTypes SemaConst AstNames AstGeneric AstLiteral SemaFind SemaExpr.
From Stdlib Require Import Floats.SpecFloat.

(** Memory that is asked for is given. *)
Class Grants (H : Host) : Prop := grants : forall w n, (allocate w n).1 = true.

(** Whether statements are checked. *)
Class Coarse := coarse : bool.

Section Clean.
Context {H : Host} {C : Coarse}.

Definition stopped (w : option DynWork) : Prop := match w with Some w => running w = false | None => False end.
(** An expression whose number is that of "no expression", or a function
    whose number is that of "no function". *)
Definition full (a : DynAstProgram) : Prop := UINT32_MAX < tcount a EXPRESSIONS \/ UINT32_MAX <= tcount a FUNCTIONS.
Definition trouble (s : St) : Prop :=
  diags s <> [] \/ types_failed (prog s) = true \/ stopped (work s) \/ full (prog s).

Definition clean_row (k : Tab) : row k -> Prop :=
  match k with
  | EXPRESSIONS => fun e => x_type e <> DYN_TYPE_ERROR
  | ITEMS => fun it => it_expression it <> DYN_NO_EXPR
  | FIELDS => fun f => fd_type f <> DYN_TYPE_ERROR
  | VARIANTS => fun v => va_payload_type v <> DYN_TYPE_ERROR
  | PARAMS => fun p => pa_type p <> DYN_TYPE_ERROR
  | FUNCTIONS => fun f => fn_return_type f <> DYN_TYPE_ERROR
  | GLOBALS => fun g => gl_type g <> DYN_TYPE_ERROR
  | POINTERS => fun p => po_pointee p <> DYN_TYPE_ERROR
  | ARRAYS => fun p => ar_element p <> DYN_TYPE_ERROR
  | SLICES => fun p => sl_element p <> DYN_TYPE_ERROR
  | FN_TYPES => fun f => ft_return_type f <> DYN_TYPE_ERROR
  | FN_TYPE_PARAMS => fun t => t <> DYN_TYPE_ERROR
  | LOCALS => fun l => lo_type l <> DYN_TYPE_ERROR
  | GENERICS => fun g => ge_return_pattern g <> DYN_TYPE_ERROR
  | GENERIC_PARAMS => fun p => gp_pattern p <> DYN_TYPE_ERROR
  | INSTANCES => fun i => in_function i <> UINT32_MAX
  | STATEMENTS => fun st => s_declared_type st <> DYN_TYPE_ERROR
  | PATTERNS => fun p => pt_type p <> DYN_TYPE_ERROR
  | _ => fun _ => True
  end.
Definition clean (a : DynAstProgram) : Prop := forall k i x, get_at (tab a k) i = Some x -> clean_row k x.

(** What checking does not change of a row: checking an expression, and,
    coarser, checking statements. *)
Definition shape (k : Tab) : row k -> row k :=
  match k with
  | LOCALS => fun l => if coarse then set_active false l else l
  | STATEMENTS => fun st => if coarse then s_with 0 0 0 (set_target_loop st 0) else st
  | PATTERNS => fun p => if coarse then p_with 0 0 0 false false p else p
  | CASE_ARMS => fun arm => if coarse then set_arm_local 0 arm else arm
  | EXPRESSIONS => fun e => mkAstExpr DYN_EXPR_NAME 0 (x_span e) (x_op e) 0 0 0 (S754_zero false) false 0 0 false
  | ITEMS => fun _ => mkItem no_span 0 0
  | STRUCTS => set_field_names empty_index
  | ENUMS => set_variant_names empty_index
  | _ => id
  end.
(** The state after checking: reports, an exhausted budget and failures of the
    tables stay, and the rows of every table keep their shapes, with new rows
    at the end. *)
Record onward (s s' : St) : Prop := {
  on_diags : exists d, diags s' = d ++ diags s;
  on_failed : types_failed (prog s) = true -> types_failed (prog s') = true;
  on_work : stopped (work s) -> stopped (work s');
  on_rows k : map (shape k) (tab (prog s) k) `prefix_of` map (shape k) (tab (prog s') k) }.
Lemma onward_refl s : onward s s.
Proof. split; try done. by exists []. Qed.
Lemma onward_trans s1 s2 s3 : onward s1 s2 -> onward s2 s3 -> onward s1 s3.
Proof.
  intros [[d D] F W R] [[d' D'] F' W' R']; split; auto; [exists (d' ++ d); by rewrite D', D, app_assoc|].
  intros k. etrans; [apply R|apply R'].
Qed.
Lemma onward_count s s' k : onward s s' -> tcount (prog s) k <= tcount (prog s') k.
Proof. intros [_ _ _ R]. pose proof (prefix_length _ _ (R k)) as Hl. rewrite !length_map in Hl. unfold tcount, zlen. lia. Qed.
Lemma onward_trouble s s' : onward s s' -> trouble s -> trouble s'.
Proof.
  intros Ho. pose proof (onward_count _ _ EXPRESSIONS Ho). pose proof (onward_count _ _ FUNCTIONS Ho). destruct Ho as [[d D] F W _].
  unfold trouble, full. intros [Hd|[?|[?|?]]]; [left|tauto|tauto|].
  - rewrite D. intros [_ E]%app_eq_nil. by apply Hd.
  - right; right; right. lia.
Qed.

(** A run goes onward; and without trouble a clean program stays clean and
    the result satisfies [Q]. *)
Definition lasting {A} (m : M A) : Prop := forall s r s', m s = Some (r, s') -> onward s s'.
Definition safe {A} (m : M A) (Q : A -> Prop) : Prop :=
  forall s r s', m s = Some (r, s') -> clean (prog s) -> trouble s' \/ (clean (prog s') /\ Q r).

(** ** Rules *)
Lemma lasting_ret {A} (x : A) : lasting (mret x).
Proof. intros s r s' [= <- <-]. apply onward_refl. Qed.
Lemma lasting_bind {A B} (m : M A) (f : A -> M B) : lasting m -> (forall x, lasting (f x)) -> lasting (mbind m f).
Proof.
  intros Hm Hf s r s'. unfold mbind. destruct (m s) as [[x s1]|] eqn:E; [|done]. intros E2. eapply onward_trans; [by eapply Hm|by eapply Hf].
Qed.
Lemma lasting_undefined {A} : lasting (undefined (A := A)).
Proof. by intros s r s'. Qed.
Lemma lasting_lift {A} (o : option A) : lasting (lift o).
Proof. intros s r s'. unfold lift. destruct o; [|done]. intros [= <- <-]. apply onward_refl. Qed.
Lemma lasting_ast : lasting ast.
Proof. intros s r s' [= <- <-]. apply onward_refl. Qed.
Lemma lasting_sema : lasting the_sema.
Proof. intros s r s' [= <- <-]. apply onward_refl. Qed.
Lemma lasting_read k i : lasting (read k i).
Proof. intros s r s'. unfold read. destruct (get_at _ _); [|done]. intros [= <- <-]. apply onward_refl. Qed.
(** What only touches the reports, the flags, the budget or the indexes. *)
Lemma onward_same s s' :
  (exists d, diags s' = d ++ diags s) -> (types_failed (prog s) = true -> types_failed (prog s') = true) ->
  (stopped (work s) -> stopped (work s')) -> (forall k, tab (prog s') k = tab (prog s) k) -> onward s s'.
Proof. intros ? ? ? E. split; [done..|]. intros k. by rewrite E. Qed.
Lemma onward_table k t s :
  map (shape k) (tab (prog s) k) `prefix_of` map (shape k) (rows t) -> onward s (set_prog (set_table k t (prog s)) s).
Proof.
  intros Hp. split; [by eexists []|done|done|]. intros k'. cbn [prog set_prog].
  destruct (decide (k = k')) as [<-|Hne]; [by rewrite tab_set_same|by rewrite tab_set_other].
Qed.
(** A change of a row that keeps its shape. *)
Lemma onward_write k i x y s s' :
  write k i y s = Some (tt, s') -> get_at (tab (prog s) k) i = Some x -> shape k y = shape k x -> onward s s'.
Proof.
  unfold write. destruct (set_at _ _ _) as [l|] eqn:E; [|done]. intros [= <-] [Hi Hx]%get_at_Some Hs. apply onward_table. cbn [rows].
  unfold set_at in E. split_if_in E; [|done]. simplify_eq. rewrite list_fmap_insert, list_insert_id; [done|].
  by rewrite list_lookup_fmap, Hx, Hs.
Qed.
Lemma lasting_update k i (f : row k -> row k) :
  (forall x, shape k (f x) = shape k x) -> lasting (mbind (read k i) (fun x => write k i (f x))).
Proof.
  intros Hf s [] s'. unfold mbind, read. destruct (get_at _ _) as [x|] eqn:E; [|done]. intros Hw. by eapply onward_write.
Qed.
Lemma lasting_write_item i x : lasting (write ITEMS i x).
Proof.
  intros s [] s' E. pose proof E as E'. unfold write, set_at in E'. split_if_in E'; [|done]. to_prop.
  destruct (get_at_is_Some (tab (prog s) ITEMS) i) as [y Hy]; [unfold zlen in *; lia|]. by eapply onward_write.
Qed.
Lemma lasting_push k x : lasting (push k x).
Proof.
  intros s r s' [= <- <-]. apply onward_table. cbn [rows]. rewrite map_app. by apply prefix_app_r.
Qed.
Lemma lasting_reserve k initial extra : lasting (reserve_rows k initial extra).
Proof.
  intros s r s'. unfold reserve_rows. destruct (_ <=? _); [intros [= <- <-]; apply onward_refl|].
  destruct (allocate (world s) _) as [[] w]; intros [= <- <-]; [|by apply onward_same; [exists []|..]].
  eapply onward_trans; [|by apply (onward_table k (mkTable _ _) (mkSt (prog s) (sema s) (diags s) (work s) w))]. by apply onward_same; [exists []|..].
Qed.
Lemma lasting_allocate n : lasting (allocate_bytes n).
Proof.
  intros s r s'. unfold allocate_bytes. destruct (allocate (world s) n) as [ok w]. intros [= <- <-]. by apply onward_same; [exists []|..].
Qed.
Lemma lasting_error span message : lasting (error_span span message).
Proof. intros s r s' [= <- <-]. by apply onward_same; [eexists [_]|..]. Qed.
Lemma lasting_exceed : lasting exceed_capacity.
Proof. intros s r s' [= <- <-]. apply onward_same; [by exists []|intros _; cbn; apply orb_true_r|done|done]. Qed.
Lemma dyn_work_step_stops w units world ok w' world' :
  dyn_work_step w units world = (ok, w', world') -> (stopped w -> stopped w') /\ (ok = false -> stopped w').
Proof.
  unfold dyn_work_step. destruct w as [w|]; [|by intros [= <- <- <-]]. destruct (running w) eqn:Er; cbn [negb].
  2: { intros [= <- <- <-]. done. }
  destruct (_ <? units); [by intros [= <- <- <-]|]. destruct (units <? _).
  { intros [= <- <- <-]. split; [|done]. cbn. congruence. }
  destruct (poll w world) as [st world1]. intros [= <- <- <-]. split; [cbn; congruence|done].
Qed.
Lemma lasting_step n : lasting (step_work n).
Proof.
  intros s r s'. unfold step_work. destruct (dyn_work_step _ _ _) as [[ok w] world'] eqn:E. intros [= <- <-].
  apply dyn_work_step_stops in E as [E _]. by apply onward_same; [exists []|..].
Qed.

Lemma safe_value {A} (x : A) (Q : A -> Prop) : Q x -> safe (mret x) Q.
Proof. intros HQ s r s' [= <- <-] Hc. by right. Qed.
Lemma safe_then {A B} (m : M A) (f : A -> M B) P Q :
  safe m P -> (forall x, lasting (f x)) -> (forall x, P x -> safe (f x) Q) -> safe (mbind m f) Q.
Proof.
  intros Hm Hl Hf s r s'. unfold mbind. destruct (m s) as [[x s1]|] eqn:E; [|done]. intros E2 Hc.
  destruct (Hm s x s1 E Hc) as [Ht|[Hc1 HP]]; [left; eapply onward_trouble; [by eapply Hl|done]|]. by eapply Hf.
Qed.
Lemma safe_weaken {A} (m : M A) (P Q : A -> Prop) : (forall x, P x -> Q x) -> safe m P -> safe m Q.
Proof. intros HPQ Hm s r s' E Hc. destruct (Hm s r s' E Hc) as [|[]]; [by left|right; auto]. Qed.
Lemma safe_undefined {A} Q : safe (undefined (A := A)) Q.
Proof. by intros s r s'. Qed.
Lemma safe_lift {A} (o : option A) (Q : A -> Prop) : (forall x, o = Some x -> Q x) -> safe (lift o) Q.
Proof. intros HQ s r s'. unfold lift. destruct o; [|done]. intros [= <- <-] Hc. right. auto. Qed.
Lemma safe_ast : safe ast clean.
Proof. intros s r s' [= <- <-] Hc. by right. Qed.
Lemma safe_ast_room : safe ast (fun a => u32 (tcount a FUNCTIONS) <> UINT32_MAX).
Proof.
  intros s r s' [= <- <-] Hc. destruct (Z.ltb_spec (tcount (prog s) FUNCTIONS) UINT32_MAX) as [Hlt|Hge].
  - right. split; [done|]. rewrite u32_small; [lia|]. unfold UINT32_MAX, tcount, zlen in *. lia.
  - left. right; right; right. by right.
Qed.
Lemma safe_sema : safe the_sema (fun _ => True).
Proof. intros s r s' [= <- <-] Hc. by right. Qed.
Lemma safe_read k i : safe (read k i) (fun x => clean_row k x /\ 0 <= i).
Proof.
  intros s r s'. unfold read. destruct (get_at _ _) as [x|] eqn:E; [|done]. intros [= <- <-] Hc. right. split; [done|].
  split; [by eapply Hc|]. apply get_at_Some in E as [E _]. lia.
Qed.
Lemma clean_set k t a : clean a -> (forall i x, get_at (rows t) i = Some x -> clean_row k x) -> clean (set_table k t a).
Proof.
  intros Hc Hk k' i x. destruct (decide (k = k')) as [<-|Hne]; [rewrite tab_set_same; apply Hk|rewrite tab_set_other by done; apply Hc].
Qed.
Lemma clean_tables a a' : (forall k, tables a' k = tables a k) -> clean a -> clean a'.
Proof. intros E Hc k i x. unfold tab. rewrite E. apply Hc. Qed.
Lemma safe_write k i x : clean_row k x -> safe (write k i x) (fun _ => 0 <= i).
Proof.
  intros Hx s r s'. unfold write. destruct (set_at _ _ _) as [l|] eqn:E; [|done]. intros [= <- <-] Hc. right.
  unfold set_at in E. split_if_in E; [|done]. simplify_eq. to_prop. split; [|lia].
  apply clean_set; [done|]. cbn [rows]. intros j y [Hj Hy]%get_at_Some. rewrite length_insert in Hj.
  apply list_lookup_insert_Some in Hy as [(_ & <- & _)|[_ Hy]]; [done|]. eapply Hc. apply get_at_Some. split; [exact Hj|exact Hy].
Qed.
Lemma safe_push k x : clean_row k x -> safe (push k x) (fun i => 0 <= i).
Proof.
  intros Hx s r s' [= <- <-] Hc. right. split; [|unfold zlen; lia]. apply clean_set; [done|]. cbn [rows].
  intros j y [Hj Hy]%get_at_Some. apply lookup_app_Some in Hy as [Hy|[_ Hy]].
  - eapply Hc. apply get_at_Some. split; [|exact Hy]. apply lookup_lt_Some in Hy. unfold tab. lia.
  - by apply list_lookup_singleton_Some in Hy as [_ <-].
Qed.
Lemma safe_reserve k initial extra : safe (reserve_rows k initial extra) (fun ok => ok = true).
Proof.
  intros s r s'. unfold reserve_rows. destruct (_ <=? _); [intros [= <- <-] Hc; by right|].
  destruct (allocate (world s) _) as [ok w] eqn:E; destruct ok; intros [= <- <-] Hc.
  - right. split; [|done]. apply clean_set; [done|]. intros i x. apply Hc.
  - left. right; left. done.
Qed.
Lemma safe_allocate {G : Grants H} n : safe (allocate_bytes n) (fun ok => ok = true).
Proof.
  intros s r s'. unfold allocate_bytes. destruct (allocate (world s) n) as [ok w] eqn:E. intros [= <- <-] Hc. right. split; [done|].
  pose proof (grants (world s) n) as Hg. by rewrite E in Hg.
Qed.
Lemma safe_error span message Q : safe (error_span span message) Q.
Proof. intros s r s' [= <- <-] Hc. left. by left. Qed.
Lemma safe_exceed Q : safe exceed_capacity Q.
Proof. intros s r s' [= <- <-] Hc. left. right; left. cbn. apply orb_true_r. Qed.
Lemma safe_step n : safe (step_work n) (fun ok => ok = true).
Proof.
  intros s r s'. unfold step_work. destruct (dyn_work_step _ _ _) as [[ok w] world'] eqn:E. intros [= <- <-] Hc.
  apply dyn_work_step_stops in E as [_ E]. destruct ok; [by right|]. left. right; right; left. by apply E.
Qed.
Lemma safe_error_bind {B} span message (f : unit -> M B) Q : (forall x, lasting (f x)) -> safe (mbind (error_span span message) f) Q.
Proof. intros Hl. eapply safe_then; [apply (safe_error _ _ (fun _ => False))|done|done]. Qed.
End Clean.

Create HintDb lasting discriminated.
#[export] Hint Resolve lasting_ret lasting_undefined lasting_lift lasting_ast lasting_sema lasting_read lasting_write_item lasting_push
  lasting_reserve lasting_allocate lasting_error lasting_exceed lasting_step : lasting.
(** Follows the structure of a computation. *)
Ltac lasting :=
  cbv beta zeta;
  lazymatch goal with
  | |- lasting (mbind _ _) => apply lasting_bind; [lasting|intros; lasting]
  | |- lasting (match ?x with _ => _ end) => destruct x; lasting
  | |- forall _, _ => intros; lasting
  | |- lasting _ => solve [eauto 3 with lasting]
  | |- _ => idtac
  end.

Create HintDb safe discriminated.
#[export] Hint Resolve safe_undefined safe_ast safe_sema safe_read safe_write safe_push safe_reserve safe_allocate safe_error
  safe_exceed safe_step : safe.
(** One step of a computation: the head by its lemma, then the rest. *)
Ltac safe_head :=
  cbv beta zeta;
  lazymatch goal with
  | |- safe (mbind (mret ?x) ?f) ?Q => change (safe (f x) Q)
  | |- safe (mbind (error_span _ _) _) _ => apply safe_error_bind; lasting
  | |- safe (mbind _ _) _ => eapply safe_then; [solve [eauto 3 with safe]|lasting|intros ? ?; cbv beta in *]
  | |- safe (match ?x with _ => _ end) _ => destruct x eqn:?
  | |- safe (mret _) _ => apply safe_value
  | |- safe (error_span _ _) _ => apply safe_error
  | |- safe undefined _ => apply safe_undefined
  end.
Ltac safe_tail := solve [eapply safe_weaken; [|eauto 3 with safe]; cbn; intros; intuition congruence].
Ltac safe := repeat safe_head; try safe_tail; try done.

(** ** Types *)
Section Types.
Context {H : Host} {C : Coarse} {G : Grants H}.

Lemma find_index_range {A} (p : A -> bool) (l : list A) i : find_index p l = Some i -> 0 <= i.
Proof.
  revert i. induction l as [|x l IH]; intros i; cbn; [done|]. destruct (p x); [intros [= <-]; lia|].
  destruct (find_index p l) as [j|] eqn:E; [|done]. intros [= <-]. specialize (IH j eq_refl). lia.
Qed.
Lemma lasting_intern_row k base limit initial same x : lasting (intern_row k base limit initial same x).
Proof. unfold intern_row, reserve. lasting. Qed.
Lemma safe_intern_row k base limit initial same x :
  1 < base -> clean_row k x -> safe (intern_row k base limit initial same x) (fun r => r <> DYN_TYPE_ERROR).
Proof.
  intros Hb Hx. unfold intern_row, reserve. safe_head. safe_head.
  - apply find_index_range in Heqo. apply safe_value. unfold DYN_TYPE_ERROR. lia.
  - safe_head; [eapply safe_then; [apply (safe_exceed (fun _ => False))|lasting|done]|].
    safe_head. safe_head; [by subst|]. safe_head. apply safe_value. unfold DYN_TYPE_ERROR. lia.
Qed.

Lemma lasting_push_params ps : lasting (push_params ps).
Proof. induction ps; cbn [push_params]; lasting. Qed.
Lemma safe_push_params ps : Forall (fun t => t <> DYN_TYPE_ERROR) ps -> safe (push_params ps) (fun _ => True).
Proof.
  induction 1 as [|t ps Ht _ IH]; cbn [push_params]; [by apply safe_value|].
  eapply safe_then; [by apply safe_push| |done]. intros _. apply lasting_push_params.
Qed.
Hint Resolve lasting_intern_row lasting_push_params : lasting.
Lemma lasting_intern_fn ps result variadic : lasting (intern_fn_type_ex ps result variadic).
Proof. unfold intern_fn_type_ex, reserve_fn_type, reserve_fn_type_params, reserve. lasting. Qed.
Lemma safe_intern_fn ps result variadic :
  Forall (fun t => t <> DYN_TYPE_ERROR) ps -> result <> DYN_TYPE_ERROR ->
  safe (intern_fn_type_ex ps result variadic) (fun r => r <> DYN_TYPE_ERROR).
Proof.
  intros Hps Hr. unfold intern_fn_type_ex, reserve_fn_type, reserve_fn_type_params, reserve. safe_head. safe_head.
  - apply find_index_range in Heqo. apply safe_value. unfold DYN_TYPE_FN_BASE, DYN_TYPE_ERROR. lia.
  - safe_head; [eapply safe_then; [apply (safe_exceed (fun _ => False))|lasting|done]|].
    safe_head. subst. cbn [negb]. safe_head. subst. cbn [negb]. safe_head.
    eapply safe_then; [by apply safe_push_params|lasting|]. intros _ _.
    eapply safe_then; [by apply safe_push|lasting|]. intros i Hi. cbv beta in Hi. apply safe_value. unfold DYN_TYPE_FN_BASE, DYN_TYPE_ERROR. lia.
Qed.
Lemma lasting_intern_pointer t c : lasting (intern_pointer t c).
Proof. apply lasting_intern_row. Qed.
Lemma lasting_intern_array t n : lasting (intern_array t n).
Proof. apply lasting_intern_row. Qed.
Lemma lasting_intern_slice t c : lasting (intern_slice t c).
Proof. apply lasting_intern_row. Qed.
Lemma safe_intern_pointer t c : t <> DYN_TYPE_ERROR -> safe (intern_pointer t c) (fun r => r <> DYN_TYPE_ERROR).
Proof. intros Ht. by apply safe_intern_row. Qed.
Lemma safe_intern_array t n : t <> DYN_TYPE_ERROR -> safe (intern_array t n) (fun r => r <> DYN_TYPE_ERROR).
Proof. intros Ht. by apply safe_intern_row. Qed.
Lemma safe_intern_slice t c : t <> DYN_TYPE_ERROR -> safe (intern_slice t c) (fun r => r <> DYN_TYPE_ERROR).
Proof. intros Ht. by apply safe_intern_row. Qed.
Hint Resolve lasting_intern_fn lasting_intern_pointer lasting_intern_array lasting_intern_slice : lasting.
Hint Resolve safe_intern_fn safe_intern_pointer safe_intern_array safe_intern_slice : safe.

Lemma get_at_slice {A} (l : list A) start count x : x ∈ slice_at l start count -> exists i, get_at l i = Some x.
Proof.
  unfold slice_at. intros [j Hj]%list_elem_of_lookup. apply lookup_take_Some in Hj as [Hj _]. rewrite lookup_drop in Hj.
  exists (Z.of_nat (Z.to_nat start + j)). apply get_at_Some. rewrite Nat2Z.id. split; [|done]. apply lookup_lt_Some in Hj. lia.
Qed.
Lemma clean_slice k a start count : clean a -> Forall (clean_row k) (slice_at (tab a k) start count).
Proof. intros Hc. apply Forall_forall. intros x [i Hi]%get_at_slice. by eapply Hc. Qed.
Lemma clean_params a f : clean a -> Forall (fun t => t <> DYN_TYPE_ERROR) (fn_params a f).
Proof. apply (clean_slice FN_TYPE_PARAMS). Qed.
Lemma safe_param_types f : safe (param_types f) (Forall (fun t => t <> DYN_TYPE_ERROR)).
Proof. unfold param_types. safe_head. apply safe_value, Forall_map. by apply (clean_slice PARAMS). Qed.
Lemma lasting_param_types f : lasting (param_types f).
Proof. unfold param_types. lasting. Qed.
Hint Resolve lasting_param_types : lasting.
Hint Resolve safe_param_types : safe.
Lemma lasting_function_pointer fn : lasting (function_pointer_type fn).
Proof. unfold function_pointer_type, sema_intern_fn_type_ex, sema_intern_pointer. lasting. Qed.
Lemma safe_function_pointer fn : safe (function_pointer_type fn) (fun r => r <> DYN_TYPE_ERROR).
Proof.
  unfold function_pointer_type, sema_intern_fn_type_ex, sema_intern_pointer. safe_head. destruct H0 as [Hr _]. cbn in Hr.
  safe_head. subst. rewrite andb_false_r. safe.
Qed.
Lemma lasting_function_signature fn : lasting (function_signature_type fn).
Proof. unfold function_signature_type, sema_intern_fn_type, sema_intern_fn_type_ex. lasting. Qed.
Lemma safe_function_signature fn : safe (function_signature_type fn) (fun r => r <> DYN_TYPE_ERROR).
Proof.
  unfold function_signature_type, sema_intern_fn_type, sema_intern_fn_type_ex. safe_head. destruct H0 as [Hr _]. cbn in Hr.
  safe_head. subst. rewrite andb_false_r. safe.
Qed.

Lemma lasting_substitute_params sub count at_ : (forall t, lasting (sub t)) -> lasting (substitute_params sub count at_).
Proof. intros Hs. revert at_. induction count; intros at_; cbn [substitute_params]; lasting. Qed.
Hint Resolve lasting_substitute_params : lasting.
Lemma lasting_substitute fuel t args : lasting (dyn_ast_substitute fuel t args).
Proof. revert t. induction fuel as [|n IH]; intros t; cbn [dyn_ast_substitute]; unfold intern_fn_type; lasting. Qed.
Hint Resolve lasting_substitute : lasting.
Lemma safe_substitute_params sub count at_ :
  (forall t, lasting (sub t)) -> (forall t, t <> DYN_TYPE_ERROR -> safe (sub t) (fun r => r <> DYN_TYPE_ERROR)) ->
  safe (substitute_params sub count at_) (fun r => Forall (fun t => t <> DYN_TYPE_ERROR) r.1).
Proof.
  intros Hl Hs. revert at_. induction count as [|c IH]; intros at_; cbn [substitute_params]; [apply safe_value; constructor|].
  safe_head. destruct H0 as [Ht _]. cbn in Ht. eapply safe_then; [by apply Hs|lasting|]. intros p Hp.
  eapply safe_then; [apply IH|lasting|]. intros [ps changed] Hps. apply safe_value. by constructor.
Qed.
Lemma safe_substitute fuel t args :
  Forall (fun t => t <> DYN_TYPE_ERROR) args -> t <> DYN_TYPE_ERROR -> safe (dyn_ast_substitute fuel t args) (fun r => r <> DYN_TYPE_ERROR).
Proof.
  intros Ha. revert t. induction fuel as [|n IH]; intros t Ht; cbn [dyn_ast_substitute]; [apply safe_undefined|].
  unfold intern_fn_type. repeat (safe_head; try (by apply safe_value); cbn in * |-; destruct_and?); try safe_tail.
  all: try (eapply safe_then; [by apply IH|lasting|]; intros ? ?; safe).
  - apply safe_lift. intros x [_ Hx]%get_at_Some. exact (Forall_lookup_1 _ _ _ _ Ha Hx).
  - eapply safe_then; [by apply safe_substitute_params; [lasting|]|lasting|]. intros [ps changed] Hps.
    eapply safe_then; [by apply IH|lasting|]. intros ? ?. safe.
Qed.
End Types.

#[export] Hint Resolve lasting_intern_fn lasting_intern_pointer lasting_intern_array lasting_intern_slice lasting_param_types
  lasting_function_pointer lasting_function_signature lasting_substitute : lasting.
#[export] Hint Resolve safe_intern_fn safe_intern_pointer safe_intern_array safe_intern_slice safe_function_pointer
  safe_function_signature safe_substitute : safe.

(** ** Lookups *)
Section Lookups.
Context {H : Host} {C : Coarse} {G : Grants H} (src : DynSource) (garbage : Z -> Z).

Lemma least_match_nonneg fuel matches base ns entry found r :
  0 <= found -> least_match fuel matches base ns entry found = Some r -> 0 <= r.
Proof.
  revert entry found. induction fuel as [|n IH]; intros entry found Hf; cbn [least_match]; [done|].
  destruct (entry =? 0); [by intros [= <-]|]. pose proof (u32_range (base + entry - 1)).
  destruct (matches _) as [ok|]; [|done]. destruct (get_at ns _) as [next|]; [|done]. apply IH. destruct (ok && _); lia.
Qed.
Lemma linear_match_nonneg matches i count r : 0 <= i -> linear_match matches i count = Some r -> 0 <= r.
Proof.
  revert i. induction count as [|n IH]; intros i Hi; cbn [linear_match]; [by intros [= <-]|].
  destruct (matches i) as [[]|]; [intros [= <-]; lia|apply IH; lia|done].
Qed.
Lemma name_index_find_result ix names name module flag w r ix' flag' w' :
  dyn_name_index_find garbage ix names name src module flag w = Some (r, ix', flag', w') -> 0 <= r /\ (flag = true -> flag' = true).
Proof.
  unfold dyn_name_index_find.
  assert (Hlin : forall f w, match linear_match (name_matches module names name src) 0 (length names) with Some x => Some (x, ix, f, w) | None => None end
                         = Some (r, ix', flag', w') -> 0 <= r /\ flag' = f).
  { intros f w0. destruct (linear_match _ _ _) as [x|] eqn:E; [|done]. intros [= <- <- <- <-]. split; [|done]. by eapply linear_match_nonneg in E. }
  destruct ((32 <=? zlen names) && negb flag) eqn:Eb; [|intros [? ->]%Hlin; done]. to_prop. destruct Eb as [_ ->].
  destruct (if _ <? _ then _ else _) as [grown w1]. destruct grown as [ix1|]; [|intros [? _]%Hlin; done].
  unfold index_search. destruct (insert_each _ _ _ _ _) as [[bs ns]|]; [|done]. cbn [fst snd]. destruct (get_at bs _) as [entry|]; [|done].
  destruct (least_match _ _ _ _ _ _) as [x|] eqn:E; [|done]. cbn [fst snd]. intros [= <- <- <- <-]. split; [|done]. by eapply least_match_nonneg in E.
Qed.
Lemma lasting_find_in ix names name module : lasting (find_in src garbage ix names name module).
Proof.
  intros s r s'. unfold find_in. destruct (dyn_name_index_find _ _ _ _ _ _ _ _) as [[[[r' ix'] flag] w]|] eqn:E; [|done].
  intros [= <- <-]. apply name_index_find_result in E as [_ E]. apply onward_same; [by exists []| |done|done]. unfold types_failed. cbn.
  rewrite !orb_true_iff. naive_solver.
Qed.
Lemma safe_find_in ix names name module : safe (find_in src garbage ix names name module) (fun r => 0 <= r.1).
Proof.
  intros s r s'. unfold find_in. destruct (dyn_name_index_find _ _ _ _ _ _ _ _) as [[[[r' ix'] flag] w]|] eqn:E; [|done].
  intros [= <- <-] Hc. apply name_index_find_result in E as [E _]. right. split; [|done]. by eapply clean_tables.
Qed.
Lemma lasting_put_struct_names ix : lasting (put_struct_names ix).
Proof. intros s r s' [= <- <-]. by apply onward_same; [exists []|..]. Qed.
Lemma lasting_put_enum_names ix : lasting (put_enum_names ix).
Proof. intros s r s' [= <- <-]. by apply onward_same; [exists []|..]. Qed.
Lemma lasting_put_alias_names ix : lasting (put_alias_names ix).
Proof. intros s r s' [= <- <-]. by apply onward_same; [exists []|..]. Qed.
Lemma safe_put_struct_names ix : safe (put_struct_names ix) (fun _ => True).
Proof. intros s r s' [= <- <-] Hc. right. split; [|done]. by eapply clean_tables. Qed.
Lemma safe_put_enum_names ix : safe (put_enum_names ix) (fun _ => True).
Proof. intros s r s' [= <- <-] Hc. right. split; [|done]. by eapply clean_tables. Qed.
Lemma safe_put_alias_names ix : safe (put_alias_names ix) (fun _ => True).
Proof. intros s r s' [= <- <-] Hc. right. split; [|done]. by eapply clean_tables. Qed.
Lemma lasting_find_local name : lasting (find_local_ src garbage name).
Proof.
  intros s r s'. unfold find_local_. destruct (find_local _ _ _ _ _ _ _) as [[[[r' ix'] flag] w]|]; [|done].
  intros [= <- <-]. by destruct flag; apply onward_same; try exists [].
Qed.
Lemma safe_find_local name : safe (find_local_ src garbage name) (fun _ => True).
Proof.
  intros s r s'. unfold find_local_. destruct (find_local _ _ _ _ _ _ _) as [[[[r' ix'] flag] w]|]; [|done].
  intros [= <- <-] Hc. right. split; [|done]. by destruct flag; eapply clean_tables.
Qed.
Hint Resolve lasting_find_in lasting_put_struct_names lasting_put_enum_names lasting_put_alias_names lasting_find_local : lasting.
Hint Resolve safe_find_in safe_put_struct_names safe_put_enum_names safe_put_alias_names safe_find_local : safe.
Lemma lasting_struct_named name : lasting (struct_named src garbage name).
Proof. unfold struct_named. lasting. Qed.
Lemma lasting_enum_named name : lasting (enum_named src garbage name).
Proof. unfold enum_named. lasting. Qed.
Lemma lasting_alias_named name : lasting (alias_named src garbage name).
Proof. unfold alias_named. lasting. Qed.
Lemma safe_struct_named name : safe (struct_named src garbage name) (fun r => 0 <= r).
Proof. unfold struct_named. safe_head. safe_head. destruct x0 as [found ix]. safe. Qed.
Lemma safe_enum_named name : safe (enum_named src garbage name) (fun r => 0 <= r).
Proof. unfold enum_named. safe_head. safe_head. destruct x0 as [found ix]. safe. Qed.
Lemma safe_alias_named name : safe (alias_named src garbage name) (fun r => 0 <= r).
Proof. unfold alias_named. safe_head. safe_head. destruct x0 as [found ix]. safe. Qed.
Hint Resolve lasting_struct_named lasting_enum_named lasting_alias_named : lasting.
Hint Resolve safe_struct_named safe_enum_named safe_alias_named : safe.
Lemma aliased_nonneg p base name l r :
  (forall t, p t = true -> base <= t) -> aliased src p base name l = Some r -> 0 <= r.
Proof.
  intros Hp. induction l as [|x l IH]; cbn [aliased]; [by intros [= <-]|]. destruct (negb _ && p _) eqn:E; [|done].
  destruct (dyn_module_name_equal _ _ _) as [[]|]; [|done|done]. intros [= <-]. apply andb_true_iff in E as [_ E%Hp]. lia.
Qed.
Lemma lasting_sema_find_struct name : lasting (sema_find_struct src garbage name).
Proof. unfold sema_find_struct. lasting. Qed.
Lemma lasting_sema_find_enum name : lasting (sema_find_enum src garbage name).
Proof. unfold sema_find_enum. lasting. Qed.
Lemma safe_sema_find_struct name : safe (sema_find_struct src garbage name) (fun r => 0 <= r).
Proof.
  unfold sema_find_struct. safe_head. safe_head; [by apply safe_value|]. safe_head. apply safe_lift. intros r E.
  eapply aliased_nonneg; [|exact E]. intros t. unfold dyn_type_is_struct. intros Ht. to_prop. lia.
Qed.
Lemma safe_sema_find_enum name : safe (sema_find_enum src garbage name) (fun r => 0 <= r).
Proof.
  unfold sema_find_enum. safe_head. safe_head; [by apply safe_value|]. safe_head. apply safe_lift. intros r E.
  eapply aliased_nonneg; [|exact E]. intros t. unfold dyn_type_is_enum. intros Ht. to_prop. lia.
Qed.
Hint Resolve lasting_sema_find_struct lasting_sema_find_enum : lasting.
Hint Resolve safe_sema_find_struct safe_sema_find_enum : safe.
Lemma lasting_expr_row id : lasting (expr_row id).
Proof. apply (lasting_read EXPRESSIONS). Qed.
Lemma safe_expr_row id : safe (expr_row id) (fun e => x_type e <> DYN_TYPE_ERROR /\ 0 <= id).
Proof. apply (safe_read EXPRESSIONS). Qed.
Hint Resolve lasting_expr_row : lasting.
Hint Resolve safe_expr_row : safe.
Lemma lasting_sema_expr_enum id : lasting (sema_expr_enum src garbage id).
Proof. unfold sema_expr_enum. lasting. Qed.
Lemma safe_sema_expr_enum id : safe (sema_expr_enum src garbage id) (fun r => 0 <= r).
Proof. unfold sema_expr_enum. safe. Qed.
Lemma lasting_rows_of k start count : lasting (rows_of k start count).
Proof. unfold rows_of. lasting. Qed.
Lemma safe_rows_of k start count : safe (rows_of k start count) (Forall (clean_row k)).
Proof. unfold rows_of. safe_head. safe_head; [|apply safe_undefined]. apply safe_value. by apply clean_slice. Qed.
Hint Resolve lasting_rows_of : lasting.
Hint Resolve safe_rows_of : safe.
(** A search among the members of a row keeps the row but for its index. *)
Lemma member_search {B} k k' i (start count : row k -> Z) index (name_of : row k' -> DynSpan) name put (res : Z -> row k -> B) s r s' :
  (let! x := read k i in let! l := rows_of k' (start x) (count x) in
   let! (id, ix) := find_in src garbage (index x) (map name_of l) name false in
   write k i (put ix x) ;; mret (res id x)) s = Some (r, s') ->
  exists x ix s1, get_at (tab (prog s) k) i = Some x /\ onward s s1 /\ (forall k, tables (prog s1) k = tables (prog s) k)
                  /\ write k i (put ix x) s1 = Some (tt, s').
Proof.
  unfold mbind at 1, read. destruct (get_at _ _) as [x|] eqn:Ex; [|done].
  unfold mbind at 1. destruct (rows_of _ _ _ s) as [[l s1]|] eqn:El; [|done].
  assert (s1 = s) as ->. { unfold rows_of, mbind, ast in El. destruct (_ || _); [|done]. unfold mret in El. congruence. }
  unfold mbind at 1. destruct (find_in _ _ _ _ _ _ s) as [[[id ix] s1]|] eqn:Ef; [|done].
  assert (forall k, tables (prog s1) k = tables (prog s) k).
  { unfold find_in in Ef. destruct (dyn_name_index_find _ _ _ _ _ _ _ _) as [[[[? ?] ?] ?]|]; [|done]. by simplify_eq. }
  apply lasting_find_in in Ef. unfold mbind. destruct (write _ _ _ _) as [[[] s2]|] eqn:Ew; [|done]. intros [= <- <-]. naive_solver.
Qed.
Lemma lasting_find_variant eid name : lasting (sema_find_variant src garbage eid name).
Proof.
  intros s r s' (x & ix & s1 & Hx & Ho & Ht & Hw)%(member_search ENUMS VARIANTS). eapply onward_trans; [done|].
  eapply (onward_write ENUMS eid x); [done| |done]. unfold tab. by rewrite Ht.
Qed.
Lemma lasting_find_field sid name : lasting (sema_find_field src garbage sid name).
Proof.
  intros s r s' (x & ix & s1 & Hx & Ho & Ht & Hw)%(member_search STRUCTS FIELDS _ _ _ _ _ _ _ (fun id _ => id)).
  eapply onward_trans; [done|]. eapply (onward_write STRUCTS sid x); [done| |done]. unfold tab. by rewrite Ht.
Qed.
Lemma safe_find_variant eid name : safe (sema_find_variant src garbage eid name) (fun _ => 0 <= eid).
Proof.
  intros s r s' (x & ix & s1 & Hx & Ho & Ht & Hw)%(member_search ENUMS VARIANTS) Hc.
  eapply (safe_write ENUMS eid _ I); [exact Hw|]. by eapply clean_tables.
Qed.
Lemma safe_find_field sid name : safe (sema_find_field src garbage sid name) (fun _ => 0 <= sid).
Proof.
  intros s r s' (x & ix & s1 & Hx & Ho & Ht & Hw)%(member_search STRUCTS FIELDS _ _ _ _ _ _ _ (fun id _ => id)) Hc.
  eapply (safe_write STRUCTS sid _ I); [exact Hw|]. by eapply clean_tables.
Qed.
Lemma lasting_find_global name : lasting (find_global_ src name).
Proof. unfold find_global_. lasting. Qed.
Lemma safe_find_global name : safe (find_global_ src name) (fun _ => True).
Proof. unfold find_global_. safe_head. safe_head. by apply safe_lift. Qed.
Hint Resolve lasting_find_global : lasting.
Hint Resolve safe_find_global : safe.
Lemma lasting_find_function name : lasting (sema_find_function src garbage name).
Proof. unfold sema_find_function. lasting. Qed.
Lemma safe_find_function name : safe (sema_find_function src garbage name) (fun _ => True).
Proof. unfold sema_find_function. repeat safe_head; try done. by apply safe_lift. Qed.
Lemma lasting_named_type name : lasting (dyn_ast_named_type src garbage name).
Proof. unfold dyn_ast_named_type, find_alias, find_struct, resolved_alias. lasting. Qed.
Lemma safe_resolved_alias id : safe (resolved_alias id) (fun _ => True).
Proof. unfold resolved_alias. repeat safe_head; done. Qed.
Lemma safe_find_alias name : safe (find_alias src garbage name) (fun _ => True).
Proof. unfold find_alias. eapply safe_weaken; [|apply safe_alias_named]. done. Qed.
Lemma safe_find_struct name : safe (find_struct src garbage name) (fun _ => True).
Proof. unfold find_struct. repeat safe_head; done. Qed.
Lemma safe_named_type name : safe (dyn_ast_named_type src garbage name) (fun _ => True).
Proof.
  unfold dyn_ast_named_type. eapply safe_then; [apply safe_find_alias| |].
  - unfold find_struct, resolved_alias. lasting.
  - intros alias _. destruct (negb _); [apply safe_resolved_alias|]. eapply safe_then; [apply safe_find_struct|lasting|].
    intros id _. by apply safe_value.
Qed.
End Lookups.

#[export] Hint Resolve lasting_find_in lasting_find_local lasting_sema_find_struct lasting_sema_find_enum lasting_expr_row
  lasting_sema_expr_enum lasting_rows_of lasting_find_variant lasting_find_field lasting_find_global lasting_find_function
  lasting_named_type : lasting.
#[export] Hint Resolve safe_find_in safe_find_local safe_sema_find_struct safe_sema_find_enum safe_expr_row safe_sema_expr_enum
  safe_rows_of safe_find_variant safe_find_field safe_find_global safe_find_function safe_named_type : safe.

(** ** The operations of the checker *)
Section Operations.
Context {H : Host} {C : Coarse} {G : Grants H} (src : DynSource) (deep : nat).

(** A change of a row that gives no error type. *)
Definition gentle (f : DynAstExpr -> DynAstExpr) : Prop := forall e, x_type e <> DYN_TYPE_ERROR -> x_type (f e) <> DYN_TYPE_ERROR.
Definition keeps (f : DynAstExpr -> DynAstExpr) : Prop := forall e, shape EXPRESSIONS (f e) = shape EXPRESSIONS e.
Lemma lasting_set_expr id f : keeps f -> lasting (set_expr id f).
Proof. apply (lasting_update EXPRESSIONS). Qed.
Hint Extern 1 (keeps _) => intros ?; reflexivity : lasting.
Lemma safe_set_expr id f : gentle f -> safe (set_expr id f) (fun _ => True).
Proof.
  intros Hf s r s'. unfold set_expr, mbind, read. destruct (get_at _ _) as [e|] eqn:E; [|done]. intros Ew Hc.
  destruct (safe_write EXPRESSIONS id (f e) (Hf e (Hc EXPRESSIONS id e E)) s r s' Ew Hc) as [|[]]; auto.
Qed.
Hint Resolve lasting_set_expr : lasting.
Lemma lasting_typed id t : lasting (typed id t).
Proof. unfold typed. lasting. Qed.
Lemma safe_typed id t : t <> DYN_TYPE_ERROR -> safe (typed id t) (fun r => r <> DYN_TYPE_ERROR).
Proof.
  intros Ht. unfold typed. eapply safe_then; [apply safe_set_expr; by intros e _|lasting|]. intros _ _. by apply safe_value.
Qed.
Lemma lasting_report id message : lasting (report id message).
Proof. unfold report. lasting. Qed.
Lemma safe_report id message Q : safe (report id message) Q.
Proof. unfold report. safe. Qed.
Hint Resolve lasting_typed lasting_report : lasting.
Lemma lasting_failed id message : lasting (failed id message).
Proof. unfold failed. lasting. Qed.
Lemma safe_failed id message Q : safe (failed id message) Q.
Proof. unfold failed. eapply safe_then; [apply (safe_report _ _ (fun _ => False))|lasting|done]. Qed.
Lemma safe_report_bind {B} id message (f : unit -> M B) Q : (forall x, lasting (f x)) -> safe (mbind (report id message) f) Q.
Proof. intros Hl. eapply safe_then; [apply (safe_report _ _ (fun _ => False))|done|done]. Qed.
Lemma lasting_if b m : lasting m -> lasting (if_ b m).
Proof. destruct b; [done|]. intros _. apply lasting_ret. Qed.
Lemma safe_if b (m : M unit) (Q : unit -> Prop) : safe m Q -> (b = false -> Q tt) -> safe (if_ b m) Q.
Proof. destruct b; [done|]. intros _ HQ. apply safe_value. auto. Qed.
Lemma lasting_shown cap t : lasting (shown src deep cap t).
Proof. unfold shown. lasting. Qed.
Lemma safe_shown cap t : safe (shown src deep cap t) (fun _ => True).
Proof. unfold shown. safe_head. eapply safe_then; [by apply (safe_lift _ (fun _ => True))|lasting|]. intros _ _. by apply safe_value. Qed.
Hint Resolve lasting_shown : lasting.
Hint Resolve safe_shown : safe.
Lemma lasting_error_types span message want found : lasting (error_types src deep span message want found).
Proof. unfold error_types. lasting. Qed.
Lemma safe_error_types span message want found Q : safe (error_types src deep span message want found) Q.
Proof. unfold error_types. safe. Qed.
Lemma lasting_pb : lasting pb.
Proof. unfold pb. lasting. Qed.
Lemma safe_pb : safe pb (fun _ => True).
Proof. unfold pb. safe. Qed.
Lemma lasting_reserve_expr : lasting reserve_expr.
Proof. apply lasting_reserve. Qed.
Lemma safe_reserve_expr : safe reserve_expr (fun ok => ok = true).
Proof. apply safe_reserve. Qed.
Hint Resolve lasting_pb lasting_reserve_expr : lasting.
Hint Resolve safe_pb safe_reserve_expr : safe.
Lemma lasting_convert_expr x t : lasting (convert_expr x t).
Proof. unfold convert_expr. lasting. Qed.
Lemma safe_push_expr e : x_type e <> DYN_TYPE_ERROR -> safe (push EXPRESSIONS e) (fun r => 0 <= r < DYN_NO_EXPR).
Proof.
  intros He s r s' E Hc. destruct (safe_push EXPRESSIONS e He s r s' E Hc) as [|[Hc' Hr]]; [by left|].
  destruct (Z.ltb_spec r DYN_NO_EXPR) as [|Hge]; [by right|]. left. right; right; right; left. injection E as <- <-.
  unfold tcount. cbn [prog set_prog]. rewrite tab_set_same. cbn [rows]. unfold DYN_NO_EXPR, zlen in *. rewrite length_app. cbn. lia.
Qed.
Lemma safe_convert_expr x t : t <> DYN_TYPE_ERROR -> safe (convert_expr x t) (fun r => r <> DYN_NO_EXPR).
Proof.
  intros Ht. unfold convert_expr. safe_head. subst. cbn [negb]. eapply safe_weaken; [|by apply safe_push_expr]. cbn. intros. lia.
Qed.
Lemma lasting_can_convert f t : lasting (can_convert_ f t).
Proof. unfold can_convert_. lasting. Qed.
Lemma safe_can_convert f t : safe (can_convert_ f t) (fun _ => True).
Proof. unfold can_convert_. safe. Qed.
Hint Resolve lasting_convert_expr lasting_can_convert : lasting.
Hint Resolve safe_can_convert : safe.
Lemma lasting_index_operand operand t span what : lasting (index_operand operand t span what).
Proof. unfold index_operand. lasting. Qed.
Lemma safe_index_operand operand t span what : safe (index_operand operand t span what) (fun _ => True).
Proof.
  unfold index_operand. repeat safe_head; try done. eapply safe_weaken; [|by apply safe_convert_expr]. done.
Qed.
Lemma lasting_for_each f l : (forall i, lasting (f i)) -> lasting (for_each f l).
Proof. intros Hf. induction l; cbn [for_each]; lasting. Qed.
Lemma safe_for_each f l : (forall i, lasting (f i)) -> (forall i, safe (f i) (fun _ => True)) -> safe (for_each f l) (fun _ => True).
Proof.
  intros Hl Hf. induction l as [|i l IH]; cbn [for_each]; [by apply safe_value|].
  eapply safe_then; [apply Hf| |done]. intros _. by apply lasting_for_each.
Qed.
Lemma lasting_item_expression i : lasting (item_expression i).
Proof. unfold item_expression. lasting. Qed.
Lemma safe_item_expression i : safe (item_expression i) (fun x => x <> DYN_NO_EXPR).
Proof. unfold item_expression. safe_head. destruct H0 as [Hx _]. by apply safe_value. Qed.
Hint Resolve lasting_item_expression : lasting.
Hint Resolve safe_item_expression : safe.
Lemma lasting_set_item i x : lasting (set_item_expression i x).
Proof. unfold set_item_expression. lasting. Qed.
Lemma safe_set_item i x : x <> DYN_NO_EXPR -> safe (set_item_expression i x) (fun _ => True).
Proof. intros Hx. unfold set_item_expression. safe_head. eapply safe_weaken; [|by apply safe_write]. done. Qed.
Hint Resolve lasting_set_item : lasting.
Lemma lasting_convert_item i t : lasting (convert_item i t).
Proof. unfold convert_item. lasting. Qed.
Lemma safe_convert_item i t : t <> DYN_TYPE_ERROR -> safe (convert_item i t) (fun _ => True).
Proof.
  intros Ht. unfold convert_item. safe_head. eapply safe_then; [by apply safe_convert_expr|lasting|]. intros c Hc. by apply safe_set_item.
Qed.
Lemma lasting_item_span i : lasting (item_span i).
Proof. unfold item_span. lasting. Qed.
Lemma safe_item_span i : safe (item_span i) (fun _ => True).
Proof. unfold item_span. safe. Qed.

(** Reflection. *)
Lemma lasting_reflection_expr kind t i : lasting (reflection_expr kind t i).
Proof. unfold reflection_expr. lasting. Qed.
Lemma safe_reflection_expr kind t i : t <> DYN_TYPE_ERROR -> safe (reflection_expr kind t i) (fun r => r <> DYN_NO_EXPR).
Proof.
  intros Ht. unfold reflection_expr. safe_head. subst. cbn [negb]. eapply safe_weaken; [|by apply safe_push_expr]. cbn. intros. lia.
Qed.
Hint Resolve lasting_reflection_expr : lasting.
Hint Resolve safe_reflection_expr : safe.
Lemma lasting_reflection_string t text : lasting (reflection_string t text).
Proof. unfold reflection_string, reserve_reflection_string, reserve. lasting. Qed.
Lemma safe_reflection_string t text : t <> DYN_TYPE_ERROR -> safe (reflection_string t text) (fun r => r <> DYN_NO_EXPR).
Proof.
  intros Ht. unfold reflection_string, reserve_reflection_string, reserve. safe_head. subst. cbn [negb]. safe_head. subst. rewrite andb_false_r.
  eapply safe_then; [by apply (safe_push STRINGS)|lasting|]. intros i _. by apply safe_reflection_expr.
Qed.
Lemma lasting_skip_items n : lasting (skip_items n).
Proof. induction n; cbn [skip_items]; lasting. Qed.
Lemma safe_skip_items n : safe (skip_items n) (fun _ => True).
Proof.
  induction n as [|n IH]; cbn [skip_items]; [by apply safe_value|]. eapply safe_then; [by apply safe_push| |done].
  intros _. apply lasting_skip_items.
Qed.
Hint Resolve lasting_reflection_string lasting_skip_items : lasting.
Lemma lasting_reflection_each mt nt start i ms : lasting (reflection_each src deep mt nt start i ms).
Proof. revert i. induction ms as [|[n t] ms IH]; intros i; cbn [reflection_each]; lasting. Qed.
Lemma safe_reflection_each mt nt start i ms :
  mt <> DYN_TYPE_ERROR -> nt <> DYN_TYPE_ERROR -> safe (reflection_each src deep mt nt start i ms) (fun ok => ok = true).
Proof.
  intros Hm Hn. revert i. induction ms as [|[n t] ms IH]; intros i; cbn [reflection_each]; [by apply safe_value|].
  pose proof lasting_reflection_each as Hl.
  eapply safe_then; [by apply safe_reflection_string|lasting|]. intros name Hname. safe_head.
  eapply safe_then; [by apply (safe_lift _ (fun _ => True))|lasting|]. intros type_name _.
  eapply safe_then; [by apply safe_reflection_expr|lasting|]. intros type_id Hid. cbv beta in *.
  rewrite (proj2 (Z.eqb_neq name _) Hname), (proj2 (Z.eqb_neq type_id _) Hid). cbn [orb].
  eapply safe_then; [by apply safe_push|lasting|]. intros fields _. eapply safe_then; [by apply safe_push|lasting|]. intros _ _.
  eapply safe_then; [by apply safe_reflection_expr|lasting|]. intros member Hmem. cbv beta in *.
  rewrite (proj2 (Z.eqb_neq member _) Hmem).
  eapply safe_then; [apply safe_set_expr; by intros e He|lasting|]. intros _ _. eapply safe_then; [by apply safe_write| |intros _ _; apply IH].
  lasting.
Qed.
Hint Resolve lasting_reflection_each : lasting.
Lemma lasting_reflection_members mt st ms : lasting (reflection_members src deep mt st ms).
Proof. unfold reflection_members, reserve_reflection_items, sema_intern_array. lasting. Qed.
Lemma safe_reflection_members mt st ms :
  mt <> DYN_TYPE_ERROR -> st <> DYN_TYPE_ERROR -> safe (reflection_members src deep mt st ms) (fun r => r <> DYN_NO_EXPR).
Proof.
  intros Hm Hs. unfold reflection_members, reserve_reflection_items, sema_intern_array. safe_head; [by apply safe_reflection_expr|].
  safe_head. subst. cbn [negb]. safe_head. eapply safe_then; [apply safe_skip_items|lasting|]. intros _ _. safe_head. safe_head.
  destruct H2 as [Hf _]. cbn in Hf. eapply safe_then; [by apply safe_reflection_each|lasting|]. intros ok ->. cbn [negb].
  eapply safe_then; [by apply safe_intern_array|lasting|]. intros array_type Hat. safe_head. safe_head.
  rewrite (proj2 (Z.eqb_neq x2 _) H2), (proj2 (Z.eqb_neq x3 _) H3). cbn [orb].
  do 3 (eapply safe_then; [apply safe_set_expr; by intros e He|lasting|]; intros _ _). by apply safe_value.
Qed.

(** Instances of generic functions. *)
Lemma lasting_instantiate_params fuel gps args count : lasting (instantiate_params fuel gps args count).
Proof. revert count. induction gps as [|p gps IH]; intros count; cbn [instantiate_params]; unfold reserve_param, reserve; lasting. Qed.
Lemma safe_instantiate_params fuel gps args count :
  Forall (fun t => t <> DYN_TYPE_ERROR) args -> Forall (clean_row GENERIC_PARAMS) gps ->
  safe (instantiate_params fuel gps args count) (fun r => r <> None).
Proof.
  intros Ha Hg. revert count. induction Hg as [|p gps Hp _ IH]; intros count; cbn [instantiate_params]; [by apply safe_value|].
  unfold reserve_param, reserve. destruct (gp_is_type p); [apply IH|]. pose proof lasting_instantiate_params as Hl.
  safe_head. subst. cbn [negb]. eapply safe_then; [by apply safe_substitute|lasting|]. intros t Ht.
  eapply safe_then; [by apply (safe_push PARAMS)| |intros _ _; apply IH]. lasting.
Qed.
Hint Resolve lasting_instantiate_params : lasting.
Lemma lasting_instantiate fuel generic args depth call hash : lasting (dyn_ast_instantiate fuel generic args depth call hash).
Proof. unfold dyn_ast_instantiate, reserve_function, reserve. lasting. Qed.
Lemma safe_push_function f : fn_return_type f <> DYN_TYPE_ERROR -> safe (push FUNCTIONS f) (fun r => u32 r <> UINT32_MAX).
Proof.
  intros Hf s r s' E Hc. destruct (safe_push FUNCTIONS f Hf s r s' E Hc) as [|[Hc' Hr]]; [by left|].
  destruct (Z.ltb_spec r UINT32_MAX) as [Hlt|Hge].
  - right. split; [done|]. rewrite u32_small; unfold UINT32_MAX in *; lia.
  - left. right; right; right; right. injection E as <- <-. unfold tcount. cbn [prog set_prog]. rewrite tab_set_same.
    cbn [rows]. unfold zlen in *. rewrite length_app. cbn. lia.
Qed.
Lemma safe_instantiate fuel generic args depth call hash :
  Forall (fun t => t <> DYN_TYPE_ERROR) args -> safe (dyn_ast_instantiate fuel generic args depth call hash) (fun r => r <> UINT32_MAX).
Proof.
  intros Ha. unfold dyn_ast_instantiate, reserve_function, reserve. safe_head. destruct H0 as [Hg _]. cbn in Hg.
  safe_head. subst. cbn [negb]. safe_head. subst. cbn [negb]. safe_head. safe_head. eapply safe_then; [by apply safe_substitute|lasting|].
  intros rt Hrt. safe_head. eapply safe_then; [apply safe_instantiate_params; [done|by apply clean_slice]|lasting|].
  intros [count|] Hcount; [|done]. eapply safe_then; [apply safe_ast_room|lasting|]. intros a' Hroom.
  eapply safe_then; [by apply (safe_push INSTANCES)|lasting|]. intros _ _.
  eapply safe_then; [by apply (safe_push_function (instance_function _ _ _ _ _))|lasting|]. intros f Hf. by apply safe_value.
Qed.
Hint Resolve lasting_instantiate : lasting.
Lemma lasting_find_or_instantiate fuel generic args call hash : lasting (find_or_instantiate fuel generic args call hash).
Proof. unfold find_or_instantiate. lasting. Qed.
Lemma find_instance_clean a g generic args i : clean a -> find_instance a g generic args = Some i -> in_function i <> UINT32_MAX.
Proof.
  intros Hc Hf. unfold find_instance in Hf. apply List.find_some in Hf as [Hin _]. apply list_elem_of_In, list_elem_of_lookup in Hin as [j Hj].
  apply (Hc INSTANCES (Z.of_nat j)). apply get_at_Some. rewrite Nat2Z.id. split; [|done]. apply lookup_lt_Some in Hj. change (row INSTANCES) with DynAstInstance in *. lia.
Qed.
Lemma safe_find_or_instantiate fuel generic args call hash :
  Forall (fun t => t <> DYN_TYPE_ERROR) args -> safe (find_or_instantiate fuel generic args call hash) (fun r => r <> UINT32_MAX).
Proof.
  intros Ha. unfold find_or_instantiate. safe_head. safe_head.
  eapply safe_then with (P := fun _ => True); [repeat safe_head; done|lasting|]. intros depth _. safe_head.
  destruct (find_instance _ _ _ _) as [i|] eqn:Ei; [apply safe_value; by eapply find_instance_clean|].
  safe_head; [by apply safe_error_bind; lasting|]. eapply safe_then; [by apply safe_instantiate|lasting|]. intros f Hf. cbv beta in Hf.
  rewrite (proj2 (Z.eqb_neq f _) Hf). safe_head. by apply safe_value.
Qed.
End Operations.

#[export] Hint Resolve lasting_set_expr lasting_typed lasting_report lasting_failed lasting_shown lasting_error_types lasting_pb
  lasting_reserve_expr lasting_convert_expr lasting_can_convert lasting_index_operand lasting_item_expression lasting_set_item
  lasting_convert_item lasting_item_span lasting_reflection_expr lasting_skip_items lasting_reflection_members
  lasting_find_or_instantiate : lasting.
#[export] Hint Resolve safe_typed safe_report safe_failed safe_shown safe_error_types safe_pb safe_reserve_expr safe_convert_expr
  safe_can_convert safe_index_operand safe_item_expression safe_set_item safe_convert_item safe_item_span safe_reflection_expr
  safe_skip_items safe_reflection_members safe_find_or_instantiate : safe.
#[export] Hint Extern 1 (keeps _) => intros ?; reflexivity : lasting.
Ltac lasting ::=
  cbv beta zeta;
  lazymatch goal with
  | |- lasting (mbind _ _) => apply lasting_bind; [lasting|intros; lasting]
  | |- lasting (if_ _ _) => apply lasting_if; lasting
  | |- lasting (for_each _ _) => apply lasting_for_each; intros; lasting
  | |- lasting (match ?x with _ => _ end) => destruct x; lasting
  | |- lasting (match ?x with _ => _ end _) => destruct x; lasting
  | |- forall _, _ => intros; lasting
  | |- lasting _ => solve [eauto 3 with lasting]
  | |- _ => idtac
  end.
(** Closes a goal that says that a type is not the error type. *)
Ltac no_error :=
  cbn [clean_row] in *; destruct_and?; subst;
  solve [done | eauto | congruence | unfold DYN_TYPE_ERROR, DYN_TYPE_STRUCT_BASE, DYN_TYPE_ENUM_BASE in *; lia].
Ltac safe_head ::=
  cbv beta zeta;
  lazymatch goal with
  | |- safe (mbind (mret ?x) ?f) ?Q => change (safe (f x) Q)
  | |- safe (mbind (error_span _ _) _) _ => apply safe_error_bind; lasting
  | |- safe (mbind (report _ _) _) _ => apply safe_report_bind; lasting
  | |- safe (mbind (set_expr _ _) _) _ => eapply safe_then; [apply safe_set_expr; intros ? ?; cbn; no_error|lasting|intros _ _]
  | |- safe (mbind (lift _) _) _ => eapply safe_then; [apply (safe_lift _ (fun _ => True)); done|lasting|intros ? _]
  | |- safe (mbind (if_ _ _) _) _ =>
      eapply (safe_then _ _ (fun _ => True)); [apply safe_if; [try solve [apply safe_report | apply safe_error]|done]|lasting|intros _ _]
  | |- safe (mbind _ _) _ => eapply safe_then; [solve [eauto 3 with safe]|lasting|intros ? ?; cbv beta in *]
  | |- safe (match ?x with _ => _ end) _ => destruct x eqn:?
  | |- safe (if_ _ _) _ => apply safe_if; [|done]
  | |- safe (mret _) _ => apply safe_value
  | |- safe (error_span _ _) _ => apply safe_error
  | |- safe (report _ _) _ => apply safe_report
  | |- safe (failed _ _) _ => apply safe_failed
  | |- safe (typed _ _) _ => apply safe_typed
  | |- safe (lift _) _ => apply safe_lift; done
  | |- safe (set_expr _ _) _ => apply safe_set_expr; intros ? ?; cbn; no_error
  | |- safe undefined _ => apply safe_undefined
  end.

(** A head of several steps, with its postcondition. *)
Ltac safe_part P := eapply (safe_then _ _ P); [|lasting|intros ? ?; cbv beta in *].
Ltac checked := repeat safe_head; try done; try no_error.

(** ** The checker, over a recursive check that is safe *)
Section Checker.
Context {H : Host} {C : Coarse} {G : Grants H} (host : DynTarget) (src : DynSource) (garbage : Z -> Z) (deep : nat) (check : Z -> Z -> M Z).
Variable missing : M Z.
Hypothesis Hlasting : forall id t, lasting (check id t).
Hypothesis Hmissing : lasting missing.
Hypothesis Hsafe : forall id t, safe (check id t) (fun r => r <> DYN_TYPE_ERROR).
Hint Resolve Hlasting Hmissing : lasting.
Hypothesis Hsafe_missing : safe missing (fun r => r <> DYN_TYPE_ERROR).
Hint Resolve Hsafe Hsafe_missing : safe.

Lemma lasting_check_item i want skip mismatch : (forall v, lasting (mismatch v)) -> lasting (check_item check i want skip mismatch).
Proof. intros Hm. unfold check_item. lasting. Qed.
Lemma safe_check_item i want skip mismatch :
  (forall v, lasting (mismatch v)) -> (forall v, safe (mismatch v) (fun _ => True)) -> want <> DYN_TYPE_ERROR ->
  safe (check_item check i want skip mismatch) (fun _ => True).
Proof. intros Hl Hm Hw. unfold check_item. repeat safe_head; try done. by apply safe_convert_item. Qed.
Hint Extern 1 (lasting (check_item _ _ _ _ _)) => apply lasting_check_item; lasting : lasting.
Lemma lasting_check_variant id eid expected : lasting (check_variant src garbage check id eid expected).
Proof. unfold check_variant. lasting. Qed.
Lemma safe_check_variant id eid expected : safe (check_variant src garbage check id eid expected) (fun r => r <> DYN_TYPE_ERROR).
Proof.
  unfold check_variant. do 3 safe_head. safe_head; [safe_head|]. do 3 safe_head.
  eapply safe_then with (P := fun _ => True); [|lasting|].
  - repeat safe_head; try done. apply safe_check_item; [lasting|intros; safe_head|no_error].
  - intros _ _. safe_head. apply safe_value. no_error.
Qed.
Lemma lasting_check_all start count : lasting (check_all check start count).
Proof. unfold check_all. lasting. Qed.
Lemma safe_check_all start count : safe (check_all check start count) (fun _ => True).
Proof. unfold check_all. apply safe_for_each; [lasting|]. intros i. repeat safe_head. done. Qed.
Lemma lasting_variadic_c i : lasting (check_variadic_c check i).
Proof. unfold check_variadic_c. lasting. Qed.
Lemma safe_variadic_c i : safe (check_variadic_c check i) (fun _ => True).
Proof.
  unfold check_variadic_c. do 2 safe_head. destruct (negb _ && negb _).
  - apply safe_convert_item. repeat (destruct (_ || _) || destruct (_ =? _)); no_error.
  - repeat safe_head.
Qed.
Lemma slice_element_clean a t sl : clean a -> slice_info a t = Some sl -> sl_element sl <> DYN_TYPE_ERROR.
Proof. unfold slice_info. destruct (dyn_type_is_slice t); [|done]. intros Hc. apply (Hc SLICES). Qed.
Lemma array_element_clean a t p : clean a -> array_info a t = Some p -> ar_element p <> DYN_TYPE_ERROR.
Proof. unfold array_info. destruct (dyn_type_is_array t); [|done]. intros Hc. apply (Hc ARRAYS). Qed.
Lemma pointee_clean a t p : clean a -> pointer_info a t = Some p -> po_pointee p <> DYN_TYPE_ERROR.
Proof. unfold pointer_info. destruct (dyn_type_is_pointer t); [|done]. intros Hc. apply (Hc POINTERS). Qed.
Lemma fn_result_clean a t f : clean a -> fn_type_info a t = Some f -> ft_return_type f <> DYN_TYPE_ERROR.
Proof. unfold fn_type_info. destruct (dyn_type_is_function t); [|done]. intros Hc. apply (Hc FN_TYPES). Qed.
Hint Resolve slice_element_clean array_element_clean pointee_clean fn_result_clean : core.
Lemma lasting_variadic callee i : lasting (check_variadic check callee i).
Proof. unfold check_variadic. lasting. Qed.
Lemma safe_variadic callee i : safe (check_variadic check callee i) (fun _ => True).
Proof. unfold check_variadic. repeat safe_head; try done. apply safe_convert_item. eauto. Qed.
Hint Resolve lasting_check_variant lasting_check_all lasting_variadic_c lasting_variadic : lasting.
Hint Resolve safe_check_variant safe_check_all safe_variadic_c safe_variadic : safe.
Lemma lasting_check_direct id fn : lasting (check_direct src deep check id fn).
Proof. unfold check_direct. lasting. Qed.
Lemma safe_check_direct id fn : safe (check_direct src deep check id fn) (fun r => r <> DYN_TYPE_ERROR).
Proof.
  unfold check_direct. do 3 safe_head. destruct H0 as [Hr _]. cbn in Hr. do 5 safe_head.
  eapply safe_then; [apply safe_for_each|lasting|].
  { lasting. }
  { intros i. cbv beta zeta. safe_head. apply safe_check_item; [lasting|intros; safe_head; apply safe_error_types|no_error]. }
  intros _ _. safe_head; [apply safe_for_each|by safe_head].
  { lasting. }
  { intros i. destruct (fn_foreign _); [apply safe_variadic_c|apply safe_variadic]. }
Qed.
Lemma lasting_check_indirect id : lasting (check_indirect src deep check id).
Proof. unfold check_indirect. lasting. Qed.
Hint Resolve lasting_check_direct lasting_check_indirect : lasting.
Lemma lasting_generic_arg first g start i v : lasting (generic_arg src garbage deep check first g start i v).
Proof. unfold generic_arg. lasting. Qed.
Hint Resolve lasting_generic_arg : lasting.
Lemma lasting_generic_args first g start l v : lasting (generic_args src garbage deep check first g start l v).
Proof. revert v. induction l; intros v; cbn [generic_args]; lasting. Qed.
Lemma lasting_args_missing call args : lasting (args_missing call args).
Proof. induction args; cbn [args_missing]; lasting. Qed.
Lemma lasting_keep_args g start values l param kept : lasting (keep_args src deep g start values l param kept).
Proof. revert param kept. induction l; intros param kept; cbn [keep_args]; lasting. Qed.
Hint Resolve lasting_generic_args lasting_args_missing lasting_keep_args : lasting.
Lemma lasting_check_generic id g : lasting (check_generic_call src garbage deep check id g).
Proof. unfold check_generic_call. lasting. Qed.
Hint Resolve lasting_check_generic : lasting.
Lemma lasting_check_call id : lasting (check_call src garbage deep check id).
Proof. unfold check_call. lasting. Qed.
Lemma lasting_check_name id : lasting (check_name src garbage id).
Proof. unfold check_name. lasting. Qed.
Lemma lasting_check_elements start l element : lasting (check_elements check start l element).
Proof. revert element. induction l; intros element; cbn [check_elements]; lasting. Qed.
Hint Resolve lasting_check_call lasting_check_name lasting_check_elements : lasting.
Lemma lasting_check_array id t : lasting (check_array check id t).
Proof. unfold check_array, sema_intern_array. lasting. Qed.
Lemma lasting_check_index id : lasting (check_index check id).
Proof. unfold check_index. lasting. Qed.
Lemma lasting_slice_bounds id element c : lasting (slice_bounds check id element c).
Proof. unfold slice_bounds, sema_intern_slice. lasting. Qed.
Hint Resolve lasting_check_array lasting_check_index lasting_slice_bounds : lasting.
Lemma lasting_check_slice id : lasting (check_slice deep check id).
Proof. unfold check_slice. lasting. Qed.
Lemma lasting_check_len id : lasting (check_len check id).
Proof. unfold check_len. lasting. Qed.
Lemma lasting_type_parts t : lasting (type_parts t).
Proof. unfold type_parts. lasting. Qed.
Lemma lasting_related_id t : lasting (related_id src deep t).
Proof. unfold related_id. lasting. Qed.
Lemma lasting_members_of t fn : lasting (members_of t fn).
Proof. unfold members_of. lasting. Qed.
Hint Resolve lasting_check_slice lasting_check_len lasting_type_parts lasting_related_id lasting_members_of : lasting.
Lemma lasting_member_values t fn mt ms nil : lasting (member_values src deep t fn mt ms nil).
Proof. unfold member_values. lasting. Qed.
Lemma lasting_write_values start i values : lasting (write_values start i values).
Proof. revert i. induction values; intros i; cbn [write_values]; lasting. Qed.
Lemma lasting_reflection_abi st m en k : lasting (reflection_abi st m en k).
Proof. unfold reflection_abi. lasting. Qed.
Hint Resolve lasting_member_values lasting_write_values lasting_reflection_abi : lasting.
Lemma lasting_reflect id t fn info m k : lasting (reflect src deep id t fn info m k).
Proof. unfold reflect, sema_intern_slice, reserve_reflection_string, reserve_reflection_items, reserve. lasting. Qed.
Hint Resolve lasting_reflect : lasting.
Lemma lasting_check_typeof id : lasting (check_typeof src garbage deep check id).
Proof. unfold check_typeof. lasting. Qed.
Lemma lasting_check_size id : lasting (check_size deep check id).
Proof. unfold check_size. lasting. Qed.
Lemma lasting_check_offset id : lasting (check_offset src garbage id).
Proof. unfold check_offset. lasting. Qed.
Lemma lasting_check_cast id : lasting (check_cast src deep check id).
Proof. unfold check_cast. lasting. Qed.
Lemma lasting_check_bitcast id : lasting (check_bitcast deep check id).
Proof. unfold check_bitcast. lasting. Qed.
Lemma lasting_check_syscall id : lasting (check_syscall host src check id).
Proof. unfold check_syscall. lasting. Qed.
Lemma lasting_check_nil id t : lasting (check_nil id t).
Proof. unfold check_nil. lasting. Qed.
Lemma lasting_check_int id t : lasting (check_int id t).
Proof. unfold check_int. lasting. Qed.
Lemma lasting_check_char id t : lasting (check_char id t).
Proof. unfold check_char. lasting. Qed.
Lemma lasting_check_string id t : lasting (check_string id t).
Proof. unfold check_string, sema_intern_slice. lasting. Qed.
Lemma lasting_struct_item sid st start i : lasting (check_struct_item src garbage check sid st start i).
Proof. unfold check_struct_item. lasting. Qed.
Hint Resolve lasting_check_typeof lasting_check_size lasting_check_offset lasting_check_cast lasting_check_bitcast lasting_check_syscall
  lasting_check_nil lasting_check_int lasting_check_char lasting_check_string lasting_struct_item : lasting.
Lemma lasting_check_struct id t : lasting (check_struct src garbage check id t).
Proof. unfold check_struct. lasting. Qed.
Lemma lasting_check_field id : lasting (check_field src garbage deep check missing id).
Proof. unfold check_field. lasting. Qed.
Lemma lasting_check_address id : lasting (check_address src garbage deep check id).
Proof. unfold check_address, sema_intern_pointer. lasting. Qed.
Lemma lasting_check_unary id t : lasting (check_unary id t).
Proof. unfold check_unary. lasting. Qed.
Lemma lasting_check_shift id t : lasting (check_shift deep check id t).
Proof. unfold check_shift. lasting. Qed.
Lemma lasting_check_comparison id t : lasting (check_comparison id t).
Proof. unfold check_comparison. lasting. Qed.
Lemma lasting_check_arithmetic id t : lasting (check_arithmetic deep id t).
Proof. unfold check_arithmetic. lasting. Qed.
Lemma lasting_join_pointers id l r : lasting (join_pointers id l r).
Proof. unfold join_pointers. lasting. Qed.
Hint Resolve lasting_check_struct lasting_check_field lasting_check_address lasting_check_unary lasting_check_shift
  lasting_check_comparison lasting_check_arithmetic lasting_join_pointers : lasting.
Lemma lasting_check_binary id l r : lasting (check_binary src deep id l r).
Proof. unfold check_binary. lasting. Qed.
Lemma lasting_check_operands id t : lasting (check_operands deep check id t).
Proof. unfold check_operands. lasting. Qed.
Hint Resolve lasting_check_binary lasting_check_operands : lasting.
Lemma lasting_check_operand_types id t : lasting (check_operand_types src deep check id t).
Proof. unfold check_operand_types. lasting. Qed.
Hint Resolve lasting_check_operand_types : lasting.
Lemma lasting_check_operator id t : lasting (check_operator src garbage deep check id t).
Proof. unfold check_operator. lasting. Qed.
Hint Resolve lasting_check_operator : lasting.
Lemma lasting_check_kind id t : lasting (check_kind host src garbage deep check missing id t).
Proof. unfold check_kind. lasting. Qed.
Hint Resolve lasting_check_kind : lasting.
Lemma lasting_check_body id t : lasting (check_expr_body host src garbage deep check missing id t).
Proof. unfold check_expr_body. lasting. Qed.

(** A report guarded by "not the error type" is made. *)
Lemma safe_told {B} t (m : M unit) (f : unit -> M B) Q :
  t <> DYN_TYPE_ERROR -> safe m (fun _ => False) -> (forall x, lasting (f x)) -> safe (mbind (if_ (negb (t =? DYN_TYPE_ERROR)) m) f) Q.
Proof. intros Ht Hm Hf. rewrite (proj2 (Z.eqb_neq t _) Ht). by eapply safe_then. Qed.
Lemma safe_check_indirect id : safe (check_indirect src deep check id) (fun r => r <> DYN_TYPE_ERROR).
Proof.
  unfold check_indirect. do 3 safe_head. destruct (pointer_info _ _) as [p|].
  2: { apply safe_told; [done|apply safe_error|lasting]. }
  destruct (fn_type_info _ _) as [f|] eqn:Ef.
  2: { apply safe_told; [done|apply safe_error|lasting]. }
  safe_head. eapply safe_then; [apply safe_for_each|lasting|].
  { lasting. }
  { intros i. cbv beta zeta. safe_head. apply safe_check_item; [lasting|intros; safe_head; apply safe_error_types|no_error]. }
  intros _ _. safe_head; [apply safe_for_each; [lasting|intros; apply safe_variadic_c]|]. safe_head. safe_head. eauto.
Qed.
Hint Resolve safe_check_direct safe_check_indirect : safe.

(** *** Inference *)
Definition known (t : Z) : Prop := t <> DYN_TYPE_ERROR.
Record inferred (v : Inference) : Prop := {
  inf_args : Forall known (i_args v);
  inf_values i t : get_at (i_values v) i = Some (Some t) -> known t;
  inf_failed : i_failed v = false }.
Lemma set_at_Forall {A} (P : A -> Prop) (l l' : list A) i x : Forall P l -> P x -> set_at l i x = Some l' -> Forall P l'.
Proof. unfold set_at. intros Hl Hx E. split_if_in E; [|done]. simplify_eq. by apply Forall_insert. Qed.
Lemma bind_pattern_known fuel a pattern actual args conflict args' :
  clean a -> Forall known args -> known actual -> bind_pattern fuel a pattern actual args = Some (conflict, args') -> Forall known args'.
Proof.
  intros Hc Ha. revert pattern actual. induction fuel as [|n IH]; intros pattern actual Hk; cbn [bind_pattern]; [done|].
  rewrite (proj2 (Z.eqb_neq actual _) Hk). unfold mbind.
  repeat (case_match; try done); intros; simplify_eq; try done; try (by eapply set_at_Forall).
  all: eapply IH; [|done].
  - by eapply (Hc POINTERS).
  - by eapply (Hc SLICES).
  - by eapply (Hc ARRAYS).
Qed.
Lemma get_at_set {A} (l l' : list A) i j x y : set_at l i x = Some l' -> get_at l' j = Some y -> y = x \/ get_at l j = Some y.
Proof.
  unfold set_at. intros E. split_if_in E; [|done]. simplify_eq. intros [Hj Hy]%get_at_Some. rewrite length_insert in Hj.
  apply list_lookup_insert_Some in Hy as [(_ & <- & _)|[_ Hy]]; [by left|]. right. by apply get_at_Some.
Qed.
(** The first look at an argument: a name of a type becomes that type. *)
Lemma safe_type_argument (first is_type : bool) (arg : Z) (e : DynAstExpr) :
  safe (if first && is_kind e DYN_EXPR_NAME then
          let! value := (if is_type : bool then mret false else let! l := find_local_ src garbage (x_span e) in mret (negb (l =? UINT32_MAX))) in
          if value : bool then mret tt
          else
            let! named := dyn_ast_named_type src garbage (x_span e) in
            if_ (negb (named =? DYN_TYPE_ERROR)) (set_expr arg (fun e => set_type named (set_kind DYN_EXPR_TYPE e)))
        else mret tt) (fun _ => True).
Proof.
  destruct (_ && _); [|by apply safe_value]. safe_part (fun _ : bool => True).
  - destruct is_type; [by apply safe_value|]. safe_head. by apply safe_value.
  - destruct x; [by apply safe_value|]. safe_head. destruct (Z.eqb_spec x DYN_TYPE_ERROR) as [->|Hx]; [by apply safe_value|].
    apply safe_set_expr. by intros y _.
Qed.
(** The check of a value argument and what it says of the type arguments. *)
Lemma safe_value_argument (first : bool) g p arg i v :
  inferred v -> known (gp_pattern p) ->
  safe (let! expected :=
          (if first then mret DYN_TYPE_INFER
           else let! t := dyn_ast_substitute deep (gp_pattern p) (i_args v) in
                mret (if all_bound (i_args v) (ge_type_param_count g) then t else DYN_TYPE_INFER)) in
        let! value := check arg expected in
        let! values := lift (set_at (i_values v) i (Some value)) in
        let! a := ast in
        let! (conflict, args) := lift (bind_pattern deep a (gp_pattern p) value (i_args v)) in
        match conflict with
        | None => mret (mkInference args values (i_failed v))
        | Some k =>
            let! bound := lift (get_at args k) in
            shown src deep 128 bound ;; shown src deep 128 value ;;
            let! _ := lift (get_at (ge_type_names g) k) in
            let! e := expr_row arg in
            error_span (x_span e) "%.*s is both %s and %s in this call" ;;
            mret (mkInference args values true)
        end) inferred.
Proof.
  intros [Ha Hv Hf] Hp. safe_part (fun _ : Z => True).
  { destruct first; [by apply safe_value|]. eapply safe_then; [by apply safe_substitute|lasting|]. intros t _. by apply safe_value. }
  safe_head. eapply safe_then; [apply (safe_lift _ (fun l => set_at (i_values v) i (Some x0) = Some l)); done|lasting|].
  intros values Hvalues. safe_head.
  eapply safe_then; [apply (safe_lift _ (fun r => bind_pattern deep x1 (gp_pattern p) x0 (i_args v) = Some r)); done|lasting|].
  intros [conflict args] Hargs. destruct conflict as [k|]; [checked|]. apply safe_value. split; cbn; [by eapply bind_pattern_known| |done].
  intros j t Hj. destruct (get_at_set _ _ _ _ _ _ Hvalues Hj) as [E|E]; [congruence|by eapply Hv].
Qed.
Lemma safe_generic_arg first g start i v :
  inferred v -> safe (generic_arg src garbage deep check first g start i v) inferred.
Proof.
  intros Hv. unfold generic_arg. do 2 safe_head. rewrite (proj2 (Z.eqb_neq _ _) H1). safe_head.
  eapply safe_then; [apply safe_type_argument|lasting|]. intros _ _. safe_head. cbv zeta. destruct (first && negb _); [safe_head|].
  destruct (is_kind x2 DYN_EXPR_TYPE).
  - destruct first; [|by apply safe_value]. destruct Hv as [Ha Hv Hf].
    eapply safe_then; [apply (safe_lift _ (Forall known))|lasting|].
    + intros args. apply set_at_Forall; [done|]. apply H3.
    + intros args Hargs. by apply safe_value.
  - do 2 safe_head. destruct (Bool.eqb first _); [by apply safe_value|]. apply safe_value_argument; [done|]. apply H0.
Qed.
Hint Resolve safe_generic_arg : safe.
Lemma safe_generic_args first g start l v : inferred v -> safe (generic_args src garbage deep check first g start l v) inferred.
Proof.
  revert v. induction l as [|i l IH]; intros v Hv; cbn [generic_args]; [by apply safe_value|]. safe_head. by apply IH.
Qed.
Lemma safe_args_missing call args : Forall known args -> safe (args_missing call args) (fun b => b = false).
Proof.
  induction 1 as [|t args Ht _ IH]; cbn [args_missing]; [by apply safe_value|]. rewrite (proj2 (Z.eqb_neq t DYN_TYPE_ERROR) Ht), orb_false_r.
  destruct (t =? DYN_TYPE_INFER) eqn:E; [|done]. cbn [if_]. by safe_head.
Qed.
Lemma safe_keep_args g start values l param kept :
  (forall i t, get_at values i = Some (Some t) -> known t) -> safe (keep_args src deep g start values l param kept) (fun _ => True).
Proof.
  intros Hv. revert param kept. induction l as [|i l IH]; intros param kept; cbn [keep_args]; [by apply safe_value|].
  safe_head. destruct (gp_is_type _); [apply IH|]. safe_head. safe_head. cbv zeta.
  eapply safe_then; [apply (safe_lift _ known)|lasting|].
  { intros t. destruct (get_at values i) as [[u|]|] eqn:E; try done. intros [= <-]. by eapply Hv. }
  intros value Hvalue. safe_part (fun x => x <> DYN_NO_EXPR).
  { destruct (_ && _); [|by apply safe_value]. safe_head. destruct x2; [apply safe_convert_expr; no_error|]. safe_head.
    eapply safe_then; [apply (safe_error_types _ _ _ _ _ _ (fun _ => False))|lasting|done]. }
  eapply safe_then; [by apply (safe_write ITEMS)|lasting|]. intros _ _. apply IH.
Qed.
Lemma safe_check_generic id g : safe (check_generic_call src garbage deep check id g) (fun r => r <> DYN_TYPE_ERROR).
Proof.
  unfold check_generic_call. do 2 safe_head. cbv zeta. destruct (negb _); [safe_head|]. destruct (64 <? _); [safe_head|].
  eapply safe_then; [apply safe_generic_args|lasting|intros v Hv].
  { split; cbn [i_args i_values i_failed]; [apply Forall_replicate; by unfold known| |done]. intros i t [_ E]%get_at_Some. by apply lookup_replicate in E as []. }
  eapply safe_then; [by apply safe_generic_args|lasting|clear v Hv; intros v [Ha Hv Hf]]. rewrite Hf.
  eapply safe_then; [by apply safe_args_missing, Forall_take|lasting|]. intros b ->. safe_head. safe_head.
  eapply safe_then; [by apply safe_find_or_instantiate|lasting|]. intros f Hfn. cbv beta in Hfn. rewrite (proj2 (Z.eqb_neq f _) Hfn).
  safe_head. eapply safe_then; [by apply safe_keep_args|lasting|]. intros kept _. checked.
Qed.
Hint Resolve safe_check_generic : safe.
Lemma safe_check_call id : safe (check_call src garbage deep check id) (fun r => r <> Some DYN_TYPE_ERROR).
Proof.
  unfold check_call. do 2 safe_head. destruct (_ =? _).
  - safe_head. safe_part (fun _ : bool => True).
    { destruct (negb _); [by apply safe_value|]. safe_head. by apply safe_value. }
    destruct x2; [checked|]. safe_head. subst. cbn [negb].
    eapply safe_then; [by apply (safe_push EXPRESSIONS)|lasting|]. intros target _. safe_head. by apply safe_value.
  - safe_head. safe_part (fun r => r <> DYN_TYPE_ERROR); [destruct (fn_is_generic _); eauto with safe|]. apply safe_value. congruence.
Qed.
Lemma safe_check_name id : safe (check_name src garbage id) (fun r => r <> DYN_TYPE_ERROR).
Proof. unfold check_name. checked. Qed.
Lemma safe_check_elements start l element : known element -> safe (check_elements check start l element) known.
Proof.
  revert element. induction l as [|i l IH]; intros element He; cbn [check_elements]; [by apply safe_value|]. do 2 safe_head.
  destruct (element =? _); [by apply IH|]. safe_part (fun _ : unit => True); [|by apply IH].
  repeat safe_head; try done. by apply safe_convert_item.
Qed.
Lemma safe_check_array id t : safe (check_array check id t) (fun r => r <> DYN_TYPE_ERROR).
Proof.
  unfold check_array, sema_intern_array. do 2 safe_head. destruct (array_info _ _) as [want|] eqn:Ew.
  - safe_head; [safe_head|]. eapply safe_then; [apply safe_check_elements; unfold known; eauto|lasting|]. intros _ _. safe_head.
    unfold array_info in Ew. by intros ->.
  - safe_head; [safe_head|]. eapply safe_then; [by apply safe_check_elements|lasting|]. intros element He. checked.
Qed.
Lemma safe_check_index id : safe (check_index check id) (fun r => r <> DYN_TYPE_ERROR).
Proof. unfold check_index. repeat safe_head; eauto. Qed.
Lemma safe_slice_bounds id element c : known element -> safe (slice_bounds check id element c) (fun r => r <> DYN_TYPE_ERROR).
Proof.
  intros He. unfold slice_bounds, sema_intern_slice. safe_head. safe_part (fun _ : unit => True); [checked|]. safe_head.
  safe_part (fun _ : unit => True); [checked|]. checked.
Qed.
Lemma safe_check_slice id : safe (check_slice deep check id) (fun r => r <> DYN_TYPE_ERROR).
Proof.
  unfold check_slice. repeat safe_head; apply safe_slice_bounds; unfold known; eauto.
Qed.
Lemma safe_check_len id : safe (check_len check id) (fun r => r <> DYN_TYPE_ERROR).
Proof. unfold check_len. checked. Qed.
Hint Resolve safe_check_call safe_check_name safe_check_array safe_check_index safe_check_slice safe_check_len : safe.

(** *** Reflection *)
Lemma safe_type_parts t : safe (type_parts t) (fun _ => True).
Proof. unfold type_parts. checked. Qed.
Lemma safe_related_id t : safe (related_id src deep t) (fun _ => True).
Proof. unfold related_id. checked. Qed.
Lemma safe_members_of t fn : safe (members_of t fn) (fun _ => True).
Proof.
  unfold members_of. safe_head. safe_head; [checked|]. safe_head; [checked|]. do 2 safe_head. safe_part (fun _ : list DynSpan => True); checked.
Qed.
Hint Resolve safe_type_parts safe_related_id safe_members_of : safe.
Lemma safe_member_values t fn mt ms nil :
  known mt -> known ms -> nil <> DYN_NO_EXPR -> safe (member_values src deep t fn mt ms nil) (fun r => r <> DYN_NO_EXPR).
Proof.
  intros Hm Hs Hn. unfold member_values. safe_head. destruct x as [[[[? ?] members] parameters] ?]. do 2 safe_head. subst. cbn [andb].
  safe_head. by apply safe_reflection_members.
Qed.
Lemma safe_write_values start i values :
  Forall (fun v => v <> DYN_NO_EXPR) values -> safe (write_values start i values) (fun ok => ok = true).
Proof.
  intros Hv. revert i. induction Hv as [|v values Hv _ IH]; intros i; cbn [write_values]; [by apply safe_value|].
  rewrite (proj2 (Z.eqb_neq v _) Hv). eapply safe_then; [by apply (safe_write ITEMS)|lasting|]. intros _ _. apply IH.
Qed.
Lemma safe_reflection_abi st m en k : safe (reflection_abi st m en k) (fun _ => True).
Proof. unfold reflection_abi. checked. Qed.
Hint Resolve safe_write_values safe_reflection_abi : safe.
Ltac reflected v := eapply safe_then; [apply safe_reflection_expr; no_error|lasting|]; intros v ?; cbv beta in *.
Lemma safe_reflect id t fn info m k : 0 <= m -> safe (reflect src deep id t fn info m k) (fun r => r <> DYN_TYPE_ERROR).
Proof.
  intros Hm. unfold reflect, sema_intern_slice, reserve_reflection_string, reserve_reflection_items, reserve.
  safe_head. destruct H0 as [_ Hinfo]. safe_head. destruct H0 as [_ Hk]. do 2 safe_head. safe_head. subst. safe_head. subst. cbn [negb].
  safe_head. subst. rewrite andb_false_r. eapply safe_then; [by apply (safe_push STRINGS)|lasting|]. intros string _. do 2 safe_head.
  reflected v0. reflected v1. safe_head. reflected v2. safe_head. do 2 (safe_part (fun _ : Z => True); [checked|]).
  reflected v3. reflected v4. safe_head. destruct x9 as [[[[element array_length] members] parameters] result]. do 2 safe_head.
  reflected v5. reflected v6. reflected v7. reflected v8. reflected v9.
  eapply safe_then; [apply safe_intern_slice; no_error|lasting|]. intros member_slice Hslice. cbv beta in *.
  reflected v10. reflected v11. reflected v12.
  do 3 (safe_part (fun v => v <> DYN_NO_EXPR); [destruct (_ t); [apply safe_member_values; unfold known; no_error|by apply safe_value]|]).
  eapply safe_then; [apply safe_write_values; repeat (constructor; [done|]); constructor|lasting|]. intros ok ->. cbn [negb].
  checked.
Qed.
Hint Resolve safe_reflect : safe.
Lemma last_named_range names name found : 0 <= found -> (forall i n, (i, n) ∈ names -> 0 <= i) -> 0 <= last_named src names name found.
Proof.
  revert found. induction names as [|[i n] names IH]; intros found Hf Hn; cbn [last_named]; [done|].
  apply IH; [destruct (span_is _ _ _); [eapply Hn; by left|done]|]. intros j m Hj. eapply Hn. by right.
Qed.
Lemma numbered_range {A} (l : list A) i x : (i, x) ∈ numbered l -> 0 <= i.
Proof. unfold numbered. intros (j & y & [= -> ->] & _)%elem_of_lookup_imap. lia. Qed.
Lemma safe_check_typeof id : safe (check_typeof src garbage deep check id) (fun r => r <> DYN_TYPE_ERROR).
Proof.
  unfold check_typeof. safe_head. safe_part (fun _ : Z * Z => True).
  { safe_head; [by apply safe_value|]. safe_head. safe_part (fun _ : Z => True); [destruct (is_kind _ _); [eauto with safe|by apply safe_value]|].
    safe_part (fun _ : Z => True); [destruct (_ =? _); (eapply safe_weaken; [|eauto with safe]); done|].
    by apply safe_value. }
  destruct x0 as [operand fn]. safe_head. cbv zeta. safe_head; [safe_head|]. do 4 safe_head. safe_head; [safe_head|].
  apply safe_reflect, last_named_range; [done|]. intros i n. apply numbered_range.
Qed.

(** *** Sizes, casts, system calls, literals *)
Lemma error_underlying a : underlying_type a DYN_TYPE_ERROR = DYN_TYPE_ERROR.
Proof. unfold underlying_type. by rewrite Nat.add_1_r. Qed.
Lemma error_not_numeric a : numeric a DYN_TYPE_ERROR = false.
Proof. unfold numeric, is_integer. by rewrite !error_underlying. Qed.
Lemma error_not_integer a : is_integer a DYN_TYPE_ERROR = false.
Proof. unfold is_integer. by rewrite error_underlying. Qed.
Lemma error_not_signed a : signed_int a DYN_TYPE_ERROR = false.
Proof. unfold signed_int. by rewrite error_underlying. Qed.
Lemma safe_check_size id : safe (check_size deep check id) (fun r => r <> DYN_TYPE_ERROR).
Proof.
  unfold check_size. safe_head. safe_part (fun _ : Z => True); [|checked]. destruct (x_boolean x); [by apply safe_value|].
  eapply safe_weaken; [|apply Hsafe]. done.
Qed.
Lemma safe_check_offset id : safe (check_offset src garbage id) (fun r => r <> DYN_TYPE_ERROR).
Proof. unfold check_offset. checked. Qed.
Lemma safe_check_cast id : safe (check_cast src deep check id) (fun r => r <> DYN_TYPE_ERROR).
Proof.
  unfold check_cast. do 3 safe_head. rewrite (proj2 (Z.eqb_neq x0 _) H1). safe_head.
  safe_head. eapply safe_then; [apply (safe_lift _ (fun b => plain_enum x2 (u32 (x_integer x1)) = Some b)); done|lasting|]. intros tag Htag.
  destruct (_ || _) eqn:Eb; [|checked]. safe_head. intros E. rewrite E in Htag, Eb. unfold plain_enum in Htag. cbn in Htag. simplify_eq.
  rewrite error_not_numeric, error_not_integer, (proj2 (Z.eqb_neq x0 _) H1) in Eb. cbn in Eb. by rewrite !andb_false_r in Eb.
Qed.
Lemma safe_check_bitcast id : safe (check_bitcast deep check id) (fun r => r <> DYN_TYPE_ERROR).
Proof.
  unfold check_bitcast. do 7 safe_head. safe_head; [safe_head|]. safe_head. intros E. rewrite E, error_not_numeric in Heqb. cbn in Heqb.
  by rewrite andb_false_r in Heqb.
Qed.
Lemma safe_check_nil id t : safe (check_nil id t) (fun r => r <> DYN_TYPE_ERROR).
Proof. unfold check_nil. checked. by intros ->. Qed.
Lemma safe_check_int id t : safe (check_int id t) (fun r => r <> DYN_TYPE_ERROR).
Proof. unfold check_int. repeat safe_head; try done; intros ->; try done. by rewrite error_not_integer, andb_false_r in *. Qed.
Lemma safe_check_char id t : safe (check_char id t) (fun r => r <> DYN_TYPE_ERROR).
Proof.
  unfold check_char. do 3 safe_head. safe_head; [safe_head|]. safe_head. destruct (_ || _) eqn:E; [by intros ->|]. by destruct (_ <=? _).
Qed.
Lemma safe_check_string id t : safe (check_string id t) (fun r => r <> DYN_TYPE_ERROR).
Proof. unfold check_string, sema_intern_slice. checked. by intros ->. Qed.
Lemma safe_check_syscall id : safe (check_syscall host src check id) (fun r => r <> DYN_TYPE_ERROR).
Proof.
  unfold check_syscall. do 2 safe_head. eapply safe_then; [apply safe_for_each; [lasting|]|lasting|].
  { intros i. do 3 safe_head. apply safe_if; [|done]. checked. }
  intros _ _. safe_head. safe_head; [|by safe_head]. do 2 safe_head. checked.
Qed.
Hint Resolve safe_check_typeof safe_check_size safe_check_offset safe_check_cast safe_check_bitcast safe_check_syscall
  safe_check_nil safe_check_int safe_check_char safe_check_string : safe.

(** *** Structs *)
Lemma safe_struct_item sid st start i : safe (check_struct_item src garbage check sid st start i) (fun _ => True).
Proof.
  unfold check_struct_item. do 2 safe_head. safe_head; [safe_head|].
  eapply safe_then; [apply (safe_write ITEMS); apply H0|lasting|]. intros _ _. eapply safe_then; [apply safe_for_each; [lasting|]|lasting|].
  { intros j. safe_head. apply safe_if; [|done]. safe_head. }
  intros _ _. safe_head. apply safe_check_item; [lasting|intros; safe_head|no_error].
Qed.
Lemma safe_check_struct id t : safe (check_struct src garbage check id t) (fun r => r <> DYN_TYPE_ERROR).
Proof.
  unfold check_struct. safe_head. safe_part (fun sid => 0 <= sid).
  { destruct (_ && _) eqn:E; [|eauto with safe]. apply safe_value. apply andb_true_iff in E as [_ E]. unfold dyn_type_is_struct in E. to_prop. lia. }
  safe_head. safe_head; [safe_head|]. do 2 safe_head. eapply safe_then; [apply safe_for_each; [lasting|]|lasting|].
  { intros. apply safe_struct_item. }
  intros _ _. checked.
Qed.
Lemma safe_check_field id : safe (check_field src garbage deep check missing id) (fun r => r <> DYN_TYPE_ERROR).
Proof.
  unfold check_field. do 3 safe_head. safe_part known.
  { destruct (dyn_type_is_pointer _); [|by apply safe_value]. safe_part known; [|by checked].
    destruct (pointer_info _ _) as [p|] eqn:Ep; [apply safe_value; unfold known; eauto|apply Hsafe_missing]. }
  destruct (negb _); [apply safe_told; [done|apply safe_report|lasting]|]. checked.
Qed.
Hint Resolve safe_check_struct safe_check_field : safe.

(** *** Operators *)
Lemma safe_check_address id : safe (check_address src garbage deep check id) (fun r => r <> DYN_TYPE_ERROR).
Proof.
  unfold check_address, sema_intern_pointer. do 2 safe_head. safe_part (fun _ : bool => True).
  { repeat safe_head; done. }
  checked.
Qed.
Lemma safe_check_unary id t : known t -> safe (check_unary id t) (fun r => r <> DYN_TYPE_ERROR).
Proof.
  intros Ht. unfold check_unary. do 2 safe_head. safe_head.
  - repeat safe_head. eauto.
  - safe_part (fun _ : unit => True); [|by checked]. repeat safe_head; done.
Qed.
Lemma safe_check_shift id t : known t -> safe (check_shift deep check id t) (fun r => r <> DYN_TYPE_ERROR).
Proof. intros Ht. unfold check_shift. checked. Qed.
Lemma safe_check_comparison id t : safe (check_comparison id t) (fun r => r <> DYN_TYPE_ERROR).
Proof.
  unfold check_comparison. do 3 safe_head. safe_head; [safe_head|]. safe_head; [safe_head|]. safe_head.
  do 2 (safe_part (fun _ : bool => True); [by checked|]). checked.
Qed.
Lemma safe_check_arithmetic id t : known t -> safe (check_arithmetic deep id t) (fun r => r <> DYN_TYPE_ERROR).
Proof.
  intros Ht. unfold check_arithmetic. do 4 safe_head. safe_head; [safe_head|]. safe_head; [by safe_head|]. safe_head.
  safe_head; [safe_head|]. safe_head; [by safe_head|]. safe_part (fun _ : bool => True); [by checked|]. checked.
Qed.
Lemma safe_join_pointers id l r : known l -> known r -> safe (join_pointers id l r) (fun p => known p.1 /\ known p.2).
Proof.
  intros Hl Hr. unfold join_pointers. safe_head. safe_head; [|by apply safe_value]. safe_head.
  destruct x0; [eapply safe_then; [by apply safe_convert_expr|lasting|]; intros c _; checked|]. safe_head.
  destruct x0; [eapply safe_then; [by apply safe_convert_expr|lasting|]; intros c _; checked|]. by apply safe_value.
Qed.
Hint Resolve safe_check_address safe_check_unary safe_check_shift safe_check_comparison safe_check_arithmetic : safe.
Lemma safe_check_binary id l r : known l -> known r -> safe (check_binary src deep id l r) (fun t => t <> DYN_TYPE_ERROR).
Proof.
  intros Hl Hr. unfold check_binary. rewrite (proj2 (Z.eqb_neq l _) Hl), (proj2 (Z.eqb_neq r _) Hr). cbn [orb].
  eapply safe_then; [by apply safe_join_pointers|lasting|]. intros [left_ right_] [Hl' Hr']. do 2 safe_head. safe_head; [checked|].
  safe_head; [checked|]. safe_head; [apply safe_check_comparison|]. safe_head; [checked|]. by apply safe_check_arithmetic.
Qed.
Lemma safe_check_operands id t :
  safe (check_operands deep check id t) (fun p => known p.1 /\ forall r, p.2 = Some r -> known r).
Proof.
  unfold check_operands. do 2 safe_head. safe_part (fun _ : bool => True); [by checked|]. safe_head. safe_head.
  - do 3 safe_head. apply safe_value. split; [done|]. by intros r; destruct x1; intros [= <-].
  - destruct x1; [do 3 safe_head; apply safe_value; split; [done|]; by intros r [= <-]|]. safe_head. by apply safe_value.
Qed.
Lemma safe_check_operand_types id t : safe (check_operand_types src deep check id t) (fun r => r <> DYN_TYPE_ERROR).
Proof.
  unfold check_operand_types. eapply safe_then; [apply safe_check_operands|lasting|]. intros [left_ right_] [Hl Hr]. cbn in Hl, Hr. safe_head.
  safe_head; [by apply safe_check_unary|]. safe_head; [by apply safe_check_shift|]. safe_part known.
  - destruct right_ as [r|]; [apply safe_value; auto|apply Hsafe].
  - by apply safe_check_binary.
Qed.
Hint Resolve safe_check_operand_types : safe.
Lemma safe_check_operator id t : safe (check_operator src garbage deep check id t) (fun r => r <> DYN_TYPE_ERROR).
Proof.
  unfold check_operator. do 3 safe_head. cbv zeta. safe_part (fun _ : option Z => True); [by checked|]. destruct x2 as [v|].
  - safe_head; [|checked; apply safe_check_operand_types]. assert (t <> DYN_TYPE_ERROR) by (intros ->; by rewrite error_not_signed in *). checked.
  - safe_head; [apply safe_check_address|apply safe_check_operand_types].
Qed.
Lemma safe_check_kind id t : safe (check_kind host src garbage deep check missing id t) (fun r => r <> DYN_TYPE_ERROR).
Proof.
  unfold check_kind. safe_head. destruct (x_kind x); try (by eauto with safe); try (by apply safe_check_operator); checked.
  by destruct (_ =? _).
Qed.
Lemma safe_check_body id t : safe (check_expr_body host src garbage deep check missing id t) (fun r => r <> DYN_TYPE_ERROR).
Proof.
  unfold check_expr_body. safe_head. subst. cbn [negb]. safe_head; [by apply safe_value|]. do 2 safe_head. safe_head; [by checked|]. safe_head.
  safe_head; [apply safe_check_variant|]. safe_part (fun r => r <> Some DYN_TYPE_ERROR).
  - destruct (is_kind x1 DYN_EXPR_CALL); [apply safe_check_call|by apply safe_value].
  - destruct x2 as [r|]; [apply safe_value; congruence|apply safe_check_kind].
Qed.
End Checker.

(** ** A strict run is a run *)
Section Below.
Context {H : Host}.
Definition below {A} (m m' : M A) : Prop := forall s x, m s = Some x -> m' s = Some x.
Lemma below_refl {A} (m : M A) : below m m.
Proof. by intros s x. Qed.
Lemma below_undefined {A} (m : M A) : below undefined m.
Proof. by intros s x. Qed.
Lemma below_bind {A B} (m m' : M A) (f f' : A -> M B) : below m m' -> (forall x, below (f x) (f' x)) -> below (mbind m f) (mbind m' f').
Proof.
  intros Hm Hf s r. unfold mbind. destruct (m s) as [[x s1]|] eqn:E; [|done]. rewrite (Hm _ _ E). apply Hf.
Qed.
Lemma below_if b m m' : below m m' -> below (if_ b m) (if_ b m').
Proof. destruct b; [done|]. intros _. apply below_refl. Qed.
Lemma below_for_each f f' l : (forall i, below (f i) (f' i)) -> below (for_each f l) (for_each f' l).
Proof. intros Hf. induction l; cbn [for_each]; [apply below_refl|]. by apply below_bind. Qed.
End Below.
Create HintDb below discriminated.
Ltac below :=
  cbv beta zeta;
  lazymatch goal with
  | |- below ?m ?m => apply below_refl
  | |- below (mbind _ _) (mbind _ _) => apply below_bind; [below|intros; below]
  | |- below (match ?x with _ => _ end) _ => destruct x; below
  | |- below (match ?x with _ => _ end _) _ => destruct x; below
  | |- below (if_ _ _) _ => apply below_if; below
  | |- below (for_each _ _) _ => apply below_for_each; intros; below
  | |- forall _, _ => intros; below
  | |- below _ _ => solve [eauto 3 with below]
  | |- _ => idtac
  end.

Section Strict.
Context {H : Host} (host : DynTarget) (src : DynSource) (garbage : Z -> Z) (deep : nat) (check check' : Z -> Z -> M Z) (missing missing' : M Z).
Hypothesis Hbelow : forall id t, below (check id t) (check' id t).
Hypothesis Hmissing : below missing missing'.
Hint Resolve Hbelow Hmissing : below.

Lemma below_check_item i want skip mismatch : below (check_item check i want skip mismatch) (check_item check' i want skip mismatch).
Proof. unfold check_item. below. Qed.
Hint Resolve below_check_item : below.
Lemma below_check_variant id eid t : below (check_variant src garbage check id eid t) (check_variant src garbage check' id eid t).
Proof. unfold check_variant. below. Qed.
Lemma below_check_all start count : below (check_all check start count) (check_all check' start count).
Proof. unfold check_all. below. Qed.
Lemma below_variadic_c i : below (check_variadic_c check i) (check_variadic_c check' i).
Proof. unfold check_variadic_c. below. Qed.
Lemma below_variadic callee i : below (check_variadic check callee i) (check_variadic check' callee i).
Proof. unfold check_variadic. below. Qed.
Hint Resolve below_check_variant below_check_all below_variadic_c below_variadic : below.
Lemma below_check_direct id fn : below (check_direct src deep check id fn) (check_direct src deep check' id fn).
Proof. unfold check_direct. below. Qed.
Lemma below_check_indirect id : below (check_indirect src deep check id) (check_indirect src deep check' id).
Proof. unfold check_indirect. below. Qed.
Lemma below_generic_arg first g start i v : below (generic_arg src garbage deep check first g start i v) (generic_arg src garbage deep check' first g start i v).
Proof. unfold generic_arg. below. Qed.
Hint Resolve below_check_direct below_check_indirect below_generic_arg : below.
Lemma below_generic_args first g start l v : below (generic_args src garbage deep check first g start l v) (generic_args src garbage deep check' first g start l v).
Proof. revert v. induction l; intros v; cbn [generic_args]; below. Qed.
Hint Resolve below_generic_args : below.
Lemma below_check_generic id g : below (check_generic_call src garbage deep check id g) (check_generic_call src garbage deep check' id g).
Proof. unfold check_generic_call. below. Qed.
Hint Resolve below_check_generic : below.
Lemma below_check_call id : below (check_call src garbage deep check id) (check_call src garbage deep check' id).
Proof. unfold check_call. below. Qed.
Lemma below_check_elements start l element : below (check_elements check start l element) (check_elements check' start l element).
Proof. revert element. induction l; intros element; cbn [check_elements]; below. Qed.
Hint Resolve below_check_call below_check_elements : below.
Lemma below_check_array id t : below (check_array check id t) (check_array check' id t).
Proof. unfold check_array. below. Qed.
Lemma below_check_index id : below (check_index check id) (check_index check' id).
Proof. unfold check_index. below. Qed.
Lemma below_slice_bounds id element c : below (slice_bounds check id element c) (slice_bounds check' id element c).
Proof. unfold slice_bounds. below. Qed.
Hint Resolve below_check_array below_check_index below_slice_bounds : below.
Lemma below_check_slice id : below (check_slice deep check id) (check_slice deep check' id).
Proof. unfold check_slice. below. Qed.
Lemma below_check_len id : below (check_len check id) (check_len check' id).
Proof. unfold check_len. below. Qed.
Lemma below_check_typeof id : below (check_typeof src garbage deep check id) (check_typeof src garbage deep check' id).
Proof. unfold check_typeof. below. Qed.
Lemma below_check_size id : below (check_size deep check id) (check_size deep check' id).
Proof. unfold check_size. below. Qed.
Lemma below_check_cast id : below (check_cast src deep check id) (check_cast src deep check' id).
Proof. unfold check_cast. below. Qed.
Lemma below_check_bitcast id : below (check_bitcast deep check id) (check_bitcast deep check' id).
Proof. unfold check_bitcast. below. Qed.
Lemma below_check_syscall id : below (check_syscall host src check id) (check_syscall host src check' id).
Proof. unfold check_syscall. below. Qed.
Lemma below_struct_item sid st start i : below (check_struct_item src garbage check sid st start i) (check_struct_item src garbage check' sid st start i).
Proof. unfold check_struct_item. below. Qed.
Hint Resolve below_struct_item : below.
Lemma below_check_struct id t : below (check_struct src garbage check id t) (check_struct src garbage check' id t).
Proof. unfold check_struct. below. Qed.
Lemma below_check_field id : below (check_field src garbage deep check missing id) (check_field src garbage deep check' missing' id).
Proof. unfold check_field. below. Qed.
Lemma below_check_address id : below (check_address src garbage deep check id) (check_address src garbage deep check' id).
Proof. unfold check_address. below. Qed.
Lemma below_check_shift id t : below (check_shift deep check id t) (check_shift deep check' id t).
Proof. unfold check_shift. below. Qed.
Lemma below_check_operands id t : below (check_operands deep check id t) (check_operands deep check' id t).
Proof. unfold check_operands. below. Qed.
Hint Resolve below_check_slice below_check_len below_check_typeof below_check_size below_check_cast below_check_bitcast below_check_syscall
  below_check_struct below_check_field below_check_address below_check_shift below_check_operands : below.
Lemma below_check_operand_types id t : below (check_operand_types src deep check id t) (check_operand_types src deep check' id t).
Proof. unfold check_operand_types. below. Qed.
Hint Resolve below_check_operand_types : below.
Lemma below_check_operator id t : below (check_operator src garbage deep check id t) (check_operator src garbage deep check' id t).
Proof. unfold check_operator. below. Qed.
Hint Resolve below_check_operator : below.
Lemma below_check_kind id t : below (check_kind host src garbage deep check missing id t) (check_kind host src garbage deep check' missing' id t).
Proof. unfold check_kind. below. Qed.
Hint Resolve below_check_kind : below.
Lemma below_check_body id t : below (check_expr_body host src garbage deep check missing id t) (check_expr_body host src garbage deep check' missing' id t).
Proof. unfold check_expr_body. below. Qed.
End Strict.

Section Whole.
Context {H : Host} {C : Coarse} {G : Grants H} (host : DynTarget) (src : DynSource) (garbage : Z -> Z) (deep : nat).

Lemma lasting_check_with missing fuel id t : lasting missing -> lasting (check_with host src garbage deep missing fuel id t).
Proof. intros Hm. revert id t. induction fuel as [|n IH]; intros id t; cbn [check_with]; [apply lasting_undefined|by apply lasting_check_body]. Qed.
Lemma safe_check_strict fuel id t : safe (check_strict host src garbage deep fuel id t) (fun r => r <> DYN_TYPE_ERROR).
Proof.
  unfold check_strict. revert id t. induction fuel as [|n IH]; intros id t; cbn [check_with]; [apply safe_undefined|].
  apply safe_check_body; [intros; apply lasting_check_with, lasting_undefined|apply lasting_undefined|apply IH|apply safe_undefined].
Qed.
Lemma strict_is_a_run fuel id t : below (check_strict host src garbage deep fuel id t) (check_expr host src garbage deep fuel id t).
Proof.
  unfold check_strict, check_expr. revert id t. induction fuel as [|n IH]; intros id t; cbn [check_with]; [apply below_undefined|].
  apply below_check_body; [apply IH|apply below_undefined].
Qed.
End Whole.

(** ** A sample: a pointer [g] to a struct with the field [x] *)
Definition text_gxS : DynSource := mkSource [] (str "gxS") None [] None false false [].
Definition plain_expr (kind : DynExprKind) (span : DynSpan) (op : DynOperator) (left_ right_ integer : Z) : DynAstExpr :=
  mkAstExpr kind DYN_TYPE_INFER span op left_ right_ integer (S754_zero false) false 0 0 false.
Definition program_gxS (l : list DynAstExpr) : DynAstProgram :=
  with_rows EXPRESSIONS l
    (with_rows GLOBALS [mkGlobal (mkDynSpan 0 1) no_span DYN_TYPE_POINTER_BASE DYN_NO_EXPR false false]
       (with_rows POINTERS [mkPointer DYN_TYPE_STRUCT_BASE false]
          (with_rows STRUCTS [mkStruct no_span (mkDynSpan 2 3) false 0 1 4 4 empty_index]
             (with_rows FIELDS [mkField (mkDynSpan 1 2) DYN_TYPE_I32 DYN_NO_EXPR 0] empty_ast)))).
Definition state_gxS (l : list DynAstExpr) : @St willing_host :=
  match @sema_names_build willing_host (program_gxS l) text_gxS false tt with
  | Some (Some globals, _) =>
      @mkSt willing_host (program_gxS l) (mkSema 8 (mkNames [] []) globals UINT32_MAX 0 [] 0 empty_index) [] None tt
  | _ => state_of (program_gxS l)
  end.
Definition first_target : DynTarget := hd (mkTarget [] [] None [] [] [] [] [] [] true) targets.
Definition g_name : DynAstExpr := plain_expr DYN_EXPR_NAME (mkDynSpan 0 1) DYN_OP_NONE DYN_NO_EXPR DYN_NO_EXPR 0.
Definition nil_literal : DynAstExpr := plain_expr DYN_EXPR_NIL no_span DYN_OP_NONE DYN_NO_EXPR DYN_NO_EXPR 0.
(** [g.x + 1] *)
Definition field_sum : list DynAstExpr :=
  [g_name; plain_expr DYN_EXPR_FIELD (mkDynSpan 1 2) DYN_OP_NONE 0 DYN_NO_EXPR 0;
   plain_expr DYN_EXPR_INT no_span DYN_OP_NONE DYN_NO_EXPR DYN_NO_EXPR 1; plain_expr DYN_EXPR_BINARY no_span DYN_OP_ADD 1 2 0].

Lemma clean_empty : clean empty_ast.
Proof. intros k i x [Hi _]%get_at_Some. cbn in Hi. lia. Qed.
Lemma clean_with_rows k l a : Forall (clean_row k) l -> clean a -> clean (with_rows k l a).
Proof.
  intros Hl Hc k' i x. destruct (decide (k = k')) as [<-|Hne]; [rewrite tab_with_same|rewrite tab_with_other by done; apply Hc].
  intros [_ Hx]%get_at_Some. by eapply Forall_lookup_1.
Qed.
Lemma clean_gxS l : Forall (clean_row EXPRESSIONS) l -> clean (prog (state_gxS l)).
Proof.
  intros Hl. replace (prog (state_gxS l)) with (program_gxS l).
  2: { unfold state_gxS. destruct (@sema_names_build _ _ _ _ _) as [[[] ?]|]; done. }
  repeat (apply clean_with_rows; [first [exact Hl|by repeat constructor]|]). apply clean_empty.
Qed.

(** ** What checking an expression keeps and reports *)

(** Checking an expression never takes back a report, an exhausted budget
    or a failure of the tables, and never disturbs what is already there: every
    row of every table keeps its place, new rows come after it, and of the rows
    that were there only expressions (not their spans or operators), items and
    the name indexes of structs and enums change. *)
Theorem check_expr_keeps_program {H : Host} host src garbage deep fuel id expected s t s' :
  check_expr host src garbage deep fuel id expected s = Some (t, s') -> onward (C := false) s s'.
Proof. apply lasting_check_with, lasting_ret. Qed.

(** The error type is never given in silence. When every row of the
    program is free of the error type and memory is given, a run of the check
    in which no field is taken of a pointer type without a row is the run of
    the code, and it ends in trouble (a report, the end of the budget, a table
    that is full or could not grow) or with a type that is not the error type
    and rows that are free of it. *)
Theorem check_expr_never_silent {H : Host} {G : Grants H} host src garbage deep fuel id expected s t s' :
  clean (prog s) -> check_strict host src garbage deep fuel id expected s = Some (t, s') ->
  check_expr host src garbage deep fuel id expected s = Some (t, s') /\ (trouble s' \/ (clean (prog s') /\ t <> DYN_TYPE_ERROR)).
Proof. intros Hc E. split; [by apply strict_is_a_run|]. by eapply (safe_check_strict (C := false)). Qed.
Local Notation check_gxS := (@check_expr willing_host first_target text_gxS (fun _ => 7) 8).
Local Notation strict_gxS := (@check_strict willing_host first_target text_gxS (fun _ => 7) 8).
Lemma field_sum_strict :
  match strict_gxS 10 3 DYN_TYPE_INFER (state_gxS field_sum) with Some (t, s') => (t =? DYN_TYPE_I32) && (zlen (diags s') =? 0) | None => false end = true.
Proof. vm_compute. reflexivity. Qed.
Lemma field_sum_checked :
  match check_gxS 10 3 DYN_TYPE_INFER (state_gxS field_sum) with Some (t, s') => t =? DYN_TYPE_I32 | None => false end = true.
Proof. vm_compute. reflexivity. Qed.
Lemma check_expr_keeps_program_witness :
  match check_gxS 10 3 DYN_TYPE_INFER (state_gxS field_sum) with Some (t, s') => onward (C := false) (state_gxS field_sum) s' | None => False end.
Proof.
  pose proof field_sum_checked as Hrun. destruct (check_gxS 10 3 DYN_TYPE_INFER (state_gxS field_sum)) as [[t s']|] eqn:E; [|discriminate].
  exact (check_expr_keeps_program _ _ _ _ _ _ _ _ _ _ E).
Defined.
Lemma check_expr_never_silent_witness :
  match strict_gxS 10 3 DYN_TYPE_INFER (state_gxS field_sum) with
  | Some (t, s') =>
      t = DYN_TYPE_I32 /\ zlen (diags s') = 0 /\ check_gxS 10 3 DYN_TYPE_INFER (state_gxS field_sum) = Some (t, s')
      /\ (trouble s' \/ (clean (prog s') /\ t <> DYN_TYPE_ERROR))
  | None => False
  end.
Proof.
  pose proof field_sum_strict as Hrun.
  destruct (strict_gxS 10 3 DYN_TYPE_INFER (state_gxS field_sum)) as [[t s']|] eqn:E; [|discriminate].
  to_prop. split; [apply Hrun|]. split; [apply Hrun|].
  refine (@check_expr_never_silent willing_host _ _ _ _ _ _ _ _ _ _ _ _ E); [by intros w n|].
  apply clean_gxS. repeat constructor; cbn; unfold DYN_TYPE_INFER, DYN_TYPE_ERROR; lia.
Defined.

(** [nil == g], with [g] the name of a global pointer, reads outside the
    table of expressions whatever the fuel: the right operand is checked first,
    which turns the name into a reference to the global, and the second check
    of that operand takes it for an operator and reads its missing left
    operand. [g == nil] is checked without a report. *)
Theorem nil_left_of_global :
  (forall fuel, check_gxS fuel 2 DYN_TYPE_INFER
     (state_gxS [g_name; nil_literal; plain_expr DYN_EXPR_BINARY no_span DYN_OP_EQ 1 0 0]) = None)
  /\ exists s', check_gxS 3 2 DYN_TYPE_INFER
       (state_gxS [g_name; nil_literal; plain_expr DYN_EXPR_BINARY no_span DYN_OP_EQ 0 1 0]) = Some (DYN_TYPE_BOOL, s') /\ diags s' = [].
Proof.
  split; [|eexists; split; vm_compute; reflexivity]. intros [|[|[|fuel]]]; vm_compute; reflexivity.
Qed.

(** Pointers to two distinct types print alike, so [#typeof] gives them one id. *)
Example distinct_pointers_share_an_id :
  let a := with_rows ALIASES [mkAlias (mkDynSpan 0 1) DYN_TYPE_I32 true 2; mkAlias (mkDynSpan 1 2) DYN_TYPE_I32 true 2]
             (with_rows POINTERS [mkPointer DYN_TYPE_DISTINCT_BASE false; mkPointer (DYN_TYPE_DISTINCT_BASE + 1) false] empty_ast) in
  display_type_name 8 a text_gxS 512 DYN_TYPE_DISTINCT_BASE = Some (str "g")
  /\ display_type_name 8 a text_gxS 512 (DYN_TYPE_DISTINCT_BASE + 1) = Some (str "x")
  /\ display_type_name 8 a text_gxS 512 DYN_TYPE_POINTER_BASE = Some (str "*unknown")
  /\ display_type_name 8 a text_gxS 512 (DYN_TYPE_POINTER_BASE + 1) = Some (str "*unknown").
Proof. vm_compute. repeat split. Qed.
