(* ===== verification/SemaStmt.v ===== *)
(** Type checking of statements (src/src/sema.c, [sema_stmt], [sema_block],
    [sema_case_v2] and the functions they call).

    A statement is its number; the result says whether control never goes past
    it. A block that is scoped takes its locals out of scope at its end. The
    second treatment of [case] in [sema_stmt] (lines 2940 to 3085) is never
    reached and has no counterpart here. *)

From S2P Require Import Prelude Target Source Work Ir Ast AstTypes SemaTypes SemaConst SemaCase AstNames AstGeneric AstLiteral SemaFind SemaExpr.
From Stdlib Require Import Floats.SpecFloat.

Section SemaStmt.
Context {H : Host} (host : DynTarget) (src : DynSource) (garbage : Z -> Z).
Variable deep : nat.

Definition change (k : Tab) (i : Z) (f : row k -> row k) : M unit := let! x := read k i in write k i (f x).

(** ** Storage *)
Fixpoint mutable_case_subject (fuel : nat) (a : DynAstProgram) (id : Z) : option bool :=
  match fuel with
  | O => None
  | S n =>
      if id =? DYN_NO_EXPR then Some false
      else
        let* e := get_at (tab a EXPRESSIONS) id in
        let left_type := let* l := get_at (tab a EXPRESSIONS) (x_left e) in Some (x_type l) in
        if is_kind e DYN_EXPR_NAME then Some true
        else if is_kind e DYN_EXPR_GLOBAL then
          if x_integer e <? tcount a GLOBALS then let* g := get_at (tab a GLOBALS) (x_integer e) in Some (negb (gl_is_const g)) else Some false
        else if is_kind e DYN_EXPR_FIELD then
          let* t := left_type in
          match pointer_info a t with Some p => Some (negb (po_is_const p)) | None => mutable_case_subject n a (x_left e) end
        else if is_kind e DYN_EXPR_INDEX then
          let* t := left_type in
          match slice_info a t with Some sl => Some (negb (sl_is_const sl)) | None => mutable_case_subject n a (x_left e) end
        else if is_kind e DYN_EXPR_UNARY && is_op e DYN_OP_DEREF then
          let* t := left_type in
          Some (match pointer_info a t with Some p => negb (po_is_const p) | None => false end)
        else Some false
  end.
(** Storage of the current function that a borrow may not outlive. *)
Fixpoint function_storage (fuel : nat) (current : Z) (a : DynAstProgram) (id : Z) : option bool :=
  match fuel with
  | O => None
  | S n =>
      if (id =? DYN_NO_EXPR) || (tcount a EXPRESSIONS <=? id) then Some false
      else
        let* e := get_at (tab a EXPRESSIONS) id in
        let base := let* l := get_at (tab a EXPRESSIONS) (x_left e) in Some (underlying_type a (x_type l)) in
        if x_type e =? DYN_TYPE_ERROR then Some false
        else if is_kind e DYN_EXPR_NAME then
          if x_integer e <? tcount a LOCALS then
            let* l := get_at (tab a LOCALS) (x_integer e) in Some (lo_owner_function l =? current)
          else Some false
        else if is_kind e DYN_EXPR_FIELD then
          let* t := base in if dyn_type_is_pointer t then Some false else function_storage n current a (x_left e)
        else if is_kind e DYN_EXPR_INDEX then
          let* t := base in if dyn_type_is_array t then function_storage n current a (x_left e) else Some false
        else Some false
  end.
Fixpoint any_item (f : Z -> option bool) (l : list DynAstItem) : option bool :=
  match l with
  | [] => Some false
  | it :: l' => let* b := f (it_expression it) in if b : bool then Some true else any_item f l'
  end.
Fixpoint returns_local_borrow (fuel : nat) (current : Z) (a : DynAstProgram) (id : Z) : option bool :=
  match fuel with
  | O => None
  | S n =>
      if (id =? DYN_NO_EXPR) || (tcount a EXPRESSIONS <=? id) then Some false
      else
        let* e := get_at (tab a EXPRESSIONS) id in
        if x_type e =? DYN_TYPE_ERROR then Some false
        else if is_kind e DYN_EXPR_UNARY && is_op e DYN_OP_ADDRESS then function_storage fuel current a (x_left e)
        else if is_kind e DYN_EXPR_SLICE then
          let* l := get_at (tab a EXPRESSIONS) (x_left e) in
          let* stored := (if dyn_type_is_array (underlying_type a (x_type l)) then function_storage fuel current a (x_left e) else Some false) in
          if stored : bool then Some true else returns_local_borrow n current a (x_left e)
        else if is_kind e DYN_EXPR_CONVERT || is_kind e DYN_EXPR_CAST || is_kind e DYN_EXPR_BITCAST then
          let t := underlying_type a (x_type e) in
          if dyn_type_is_pointer t || dyn_type_is_slice t || (t =? DYN_TYPE_RAWPTR) then returns_local_borrow n current a (x_left e)
          else Some false
        else if is_kind e DYN_EXPR_STRUCT || is_kind e DYN_EXPR_ARRAY then
          if (x_item_count e =? 0) || ((0 <=? x_item_start e) && (x_item_start e + x_item_count e <=? tcount a ITEMS)) then
            any_item (returns_local_borrow n current a) (slice_at (tab a ITEMS) (x_item_start e) (x_item_count e))
          else None
        else Some false
  end.

(** ** Deferred statements *)
Definition is_stmt (st : DynAstStmt) (k : DynStmtKind) : bool := bool_decide (s_kind st = k).
Definition child (i : Z) : M Z := read CHILDREN i.
(** [ok = valid(each) && ok]: every one is looked at. *)
Fixpoint all_of (f : Z -> M bool) (l : list Z) (ok : bool) : M bool :=
  match l with [] => mret ok | i :: l' => let! b := f i in all_of f l' (b && ok) end.
(** The bodies of the arms of a [case]. *)
Fixpoint defer_arms (each : Z -> Z -> bool -> M bool) (start : Z) (l : list Z) (ok : bool) : M bool :=
  match l with
  | [] => mret ok
  | i :: l' =>
      let! arm := read CASE_ARMS (u32 (start + i)) in
      let! ok := each (ca_body_start arm) (ca_body_count arm) ok in defer_arms each start l' ok
  end.
Fixpoint valid_defer_stmt (fuel : nat) (id : Z) : M bool :=
  match fuel with
  | O => undefined
  | S n =>
      let! st := read STATEMENTS id in
      if is_stmt st DYN_STMT_RETURN || is_stmt st DYN_STMT_BREAK || is_stmt st DYN_STMT_CONTINUE || is_stmt st DYN_STMT_LOCAL
         || is_stmt st DYN_STMT_DEFER
      then error_span (s_span st) "deferred block cannot contain control transfer, declaration, or nested defer" ;; mret false
      else
        let each start count ok := all_of (fun i => let! c := child (u32 (start + i)) in valid_defer_stmt n c) (seqZ 0 count) ok in
        let! ok := each (s_body_start st) (s_body_count st) true in
        let! ok := each (s_else_start st) (s_else_count st) ok in
        if is_stmt st DYN_STMT_CASE then
          defer_arms each (s_case_arm_start st) (seqZ 0 (s_case_arm_count st)) ok
        else mret ok
  end.
Definition validate_pointer_case_bindings (st : DynAstStmt) : M unit :=
  for_each (fun i =>
      let! arm := read CASE_ARMS (u32 (s_case_arm_start st + i)) in
      if ca_pointer_binding arm then
        let! a := ast in
        let! ok := lift (mutable_case_subject deep a (s_expression st)) in
        if_ (negb ok) (error_span (ca_binding arm) "pointer payload binding requires mutable assignable case subject")
      else mret tt)
    (seqZ 0 (s_case_arm_count st)).

(** ** The kinds of statements, over the checks of expressions and blocks *)
Section Statements.
Variable check : Z -> Z -> M Z.
Variable block : Z -> Z -> bool -> M bool.

(** A new active local of the current function. *)
Definition add_local (name : DynSpan) (t : Z) (const : bool) : M Z :=
  let! x := the_sema in push LOCALS (mkLocal name t true const (current_function x)).
Definition deactivate (i : Z) : M unit := change LOCALS i (set_active false).
Definition convert_statement (id target : Z) : M unit :=
  let! st := read STATEMENTS id in
  let! c := convert_expr (s_expression st) target in change STATEMENTS id (set_s_expression c).
(** The local of an arm's binding, if memory allows. *)
Definition bind_arm (ai : Z) (arm : DynAstCaseArm) (t : Z) : M unit :=
  let! ok := reserve_local in
  if ok : bool then let! l := add_local (ca_binding arm) t false in change CASE_ARMS ai (set_arm_local (u32 l)) else mret tt.
(** The body of an arm, and the end of the scope of its binding. *)
Definition arm_body (ai : Z) : M bool :=
  let! arm := read CASE_ARMS ai in
  let! t := block (ca_body_start arm) (ca_body_count arm) true in
  let! arm := read CASE_ARMS ai in
  if_ (negb (ca_local_id arm =? UINT32_MAX)) (deactivate (ca_local_id arm)) ;; mret t.

(** *** [case] over [any] *)
Definition any_pattern (st : DynAstStmt) (i : Z) (ai : Z) : M unit :=
  let! arm := read CASE_ARMS ai in
  let! typed_ := (if negb (ca_pattern_count arm =? 1) then mret false
                  else let! p := read PATTERNS (ca_pattern_start arm) in mret (pt_is_type p)) in
  if negb typed_ then error_span (ca_span arm) "any case arm requires an is type pattern"
  else
    let! p := read PATTERNS (ca_pattern_start arm) in
    for_each (fun q =>
        let! old := read CASE_ARMS (u32 (s_case_arm_start st + q)) in
        if ca_wildcard old || (ca_pattern_count old =? 0) then mret tt
        else
          let! o := read PATTERNS (ca_pattern_start old) in
          if_ (pt_is_type o && (pt_type o =? pt_type p)) (error_span (pt_span p) "duplicate any type pattern"))
      (seqZ 0 i) ;;
    if span_present (ca_binding arm) then bind_arm ai arm (pt_type p) else mret tt.
(** The arms, with whether a [_] arm was seen and whether all bodies end
    control so far. *)
Fixpoint any_arms (st : DynAstStmt) (l : list Z) (wildcard all_terminate : bool) : M (bool * bool) :=
  match l with
  | [] => mret (wildcard, all_terminate)
  | i :: l' =>
      let ai := u32 (s_case_arm_start st + i) in
      let! arm := read CASE_ARMS ai in
      (if ca_wildcard arm then if_ wildcard (error_span (ca_span arm) "duplicate _ case arm") else any_pattern st i ai) ;;
      let! t := arm_body ai in
      any_arms st l' (wildcard || ca_wildcard arm) (t && all_terminate)
  end.

(** *** [case] over integers and enums *)
Definition overlap_message : string := "duplicate or overlapping case pattern".
(** The variants seen; [None] is memory that was refused. *)
Definition enum_pattern (subject variant_start pi : Z) (seen : option (list bool)) : M (option (list bool)) :=
  let! p := read PATTERNS pi in
  if pt_range p then error_span (pt_span p) "enum case pattern cannot be a range" ;; mret seen
  else
    let! t := check (pt_first p) subject in
    let! variant := (if negb (t =? subject) then mret None
                     else let! pe := expr_row (pt_first p) in
                          mret (if is_kind pe DYN_EXPR_ENUM then Some (u32 (x_integer pe)) else None)) in
    match variant with
    | None => error_span (pt_span p) "case enum pattern type mismatch" ;; mret seen
    | Some v =>
        change PATTERNS pi (set_pattern_variant v) ;;
        let relative := u32 (v - variant_start) in
        let! l := lift seen in
        let! old := lift (get_at l relative) in
        if_ old (error_span (pt_span p) overlap_message) ;;
        let! l := lift (set_at l relative true) in mret (Some l)
    end.
(** The ends of an integer pattern: whether they are constants of the
    subject's type, after they are stored. *)
Definition pattern_ends (subject pi : Z) : M bool :=
  let! a := ast in
  let signed := signed_int a subject in
  change PATTERNS pi (set_pattern_signed signed) ;;
  let! p := read PATTERNS pi in
  let fold_ id := let! a := ast in lift (if signed then constant_int deep a id else constant_uint deep a id) in
  let! t := check (pt_first p) subject in
  let! lo := fold_ (pt_first p) in
  let valid := (t =? subject) && c_valid lo in
  let first := u64 (c_value lo) in
  change PATTERNS pi (set_pattern_values first first) ;;
  if pt_range p then
    let! ht := check (pt_last p) subject in
    let! hi := fold_ (pt_last p) in
    let valid := valid && (ht =? subject) && c_valid hi in
    if valid && negb (pt_inclusive p) && (c_value hi =? (if signed then - 2 ^ 63 else 0)) then mret false
    else if valid then
      change PATTERNS pi (set_pattern_values first (u64 (c_value hi - (if pt_inclusive p then 0 else 1)))) ;; mret true
    else mret false
  else mret valid.
Definition reversed (p : DynAstPattern) : bool :=
  if pt_is_signed p then i64 (pt_last_value p) <? i64 (pt_first_value p) else pt_last_value p <? pt_first_value p.
Definition integer_pattern (st : DynAstStmt) (subject i j pi : Z) : M unit :=
  let! valid := pattern_ends subject pi in
  let! p := read PATTERNS pi in
  if negb valid then error_span (pt_span p) "case pattern must be compile-time integer constant"
  else if reversed p then error_span (pt_span p) "case range is empty or reversed"
  else
    for_each (fun ai =>
        let! old := read CASE_ARMS (u32 (s_case_arm_start st + ai)) in
        for_each (fun q =>
            let! other := read PATTERNS (u32 (ca_pattern_start old + q)) in
            if_ (interval_overlap p other) (error_span (pt_span p) overlap_message))
          (seqZ 0 (if ai =? i then j else ca_pattern_count old)))
      (seqZ 0 (i + 1)).
Fixpoint case_arm_patterns (st : DynAstStmt) (subject : Z) (en : option DynAstEnum) (i start : Z) (l : list Z) (seen : option (list bool)) :
    M (option (list bool)) :=
  match l with
  | [] => mret seen
  | j :: l' =>
      let pi := u32 (start + j) in
      let! seen := (match en with
                    | Some en => enum_pattern subject (en_variant_start en) pi seen
                    | None => integer_pattern st subject i j pi ;; mret seen
                    end) in
      case_arm_patterns st subject en i start l' seen
  end.
Definition case_binding (enum_case : bool) (ai : Z) : M unit :=
  let! arm := read CASE_ARMS ai in
  if span_present (ca_binding arm) then
    let! variant := (if negb enum_case || ca_wildcard arm || negb (ca_pattern_count arm =? 1) then mret None
                     else let! p := read PATTERNS (ca_pattern_start arm) in mret (if pt_is_enum p then Some (pt_variant p) else None)) in
    match variant with
    | None => error_span (ca_binding arm) "payload binding requires one enum variant pattern"
    | Some v =>
        let! v := read VARIANTS v in
        if va_payload_type v =? DYN_TYPE_VOID then error_span (ca_binding arm) "payloadless variant cannot bind payload"
        else
          let! l := find_local_ src garbage (ca_binding arm) in
          if negb (l =? UINT32_MAX) then error_span (ca_binding arm) "shadowing or duplicate local is forbidden"
          else bind_arm ai arm (va_payload_type v)
    end
  else mret tt.
Fixpoint case_arms (st : DynAstStmt) (subject : Z) (en : option DynAstEnum) (l : list Z) (seen : option (list bool))
    (wildcard all_terminate : bool) : M (option (list bool) * bool * bool) :=
  match l with
  | [] => mret (seen, wildcard, all_terminate)
  | i :: l' =>
      let ai := u32 (s_case_arm_start st + i) in
      let! arm := read CASE_ARMS ai in
      if_ (ca_wildcard arm && wildcard) (error_span (ca_span arm) "duplicate _ case arm") ;;
      let! seen := case_arm_patterns st subject en i (ca_pattern_start arm) (seqZ 0 (ca_pattern_count arm)) seen in
      case_binding (match en with Some _ => true | None => false end) ai ;;
      let! t := arm_body ai in
      case_arms st subject en l' seen (wildcard || ca_wildcard arm) (t && all_terminate)
  end.
Definition sema_case_v2 (id : Z) : M bool :=
  let! st := read STATEMENTS id in
  let! subject := check (s_expression st) DYN_TYPE_INFER in
  let! a := ast in
  let arms := seqZ 0 (s_case_arm_count st) in
  if subject =? DYN_TYPE_ANY then
    let! (wildcard, all_terminate) := any_arms st arms false true in
    if_ (negb wildcard) (error_span (s_span st) "any case requires _ arm") ;; mret all_terminate
  else if negb (dyn_type_is_enum subject) && negb (is_integer a subject) then
    error_span (s_span st) "case requires integer or enum value" ;; mret false
  else
    let! en := (if dyn_type_is_enum subject then let! en := read ENUMS (subject - DYN_TYPE_ENUM_BASE) in mret (Some en) else mret None) in
    let! seen := (match en with
                  | Some en => let! ok := allocate_bytes (en_variant_count en) in
                               mret (if ok : bool then Some (replicate (Z.to_nat (en_variant_count en)) false) else None)
                  | None => mret None
                  end) in
    let! (seen, wildcard, all_terminate) := case_arms st subject en arms seen false true in
    let! a := ast in
    let! p := pb in
    let! complete := (match en with
                      | Some en => if en_variant_count en =? 0 then mret true else let! l := lift seen in mret (forallb (fun b => b) l)
                      | None => lift (integer_case_complete deep p a st subject)
                      end) in
    if_ (wildcard && complete) (error_span (s_span st) "_ case arm is unreachable because all cases are covered") ;;
    if_ (negb wildcard && negb complete) (error_span (s_span st) "case is not exhaustive") ;;
    mret all_terminate.

(** *** Loops *)
Definition shadow_message : string := "shadowing or duplicate local is forbidden".
(** The loop's variable, its body, and the end of both scopes. *)
Definition loop_with_local (id : Z) (t : Z) : M bool :=
  let! st := read STATEMENTS id in
  let! l := add_local (s_name st) t false in
  change STATEMENTS id (set_s_local (u32 l)) ;;
  let! pushed := push_loop src id in
  let! _ := block (s_body_start st) (s_body_count st) true in
  (if pushed : bool then pop_loop else mret tt) ;;
  let! st := read STATEMENTS id in
  deactivate (s_local_id st) ;; mret false.
(** The type of the bounds of a range; the error type when they differ. *)
Definition range_type (st : DynAstStmt) : M Z :=
  let both x tx y ty :=
    let! t := check x tx in
    let want := if tx =? DYN_TYPE_INFER then t else tx in
    if negb (t =? want) then mret DYN_TYPE_ERROR
    else let! u := check y (if ty =? DYN_TYPE_INFER then want else ty) in mret (if u =? want then want else DYN_TYPE_ERROR) in
  let! a := ast in
  let! first := lift (range_bound_literal a (s_target_ st)) in
  let! last := lift (range_bound_literal a (s_expression st)) in
  if first && last then
    let! f := expr_row (s_target_ st) in
    let! negative := (if is_kind f DYN_EXPR_UNARY then mret true
                      else let! l := expr_row (s_expression st) in mret (is_kind l DYN_EXPR_UNARY)) in
    let t := if negative : bool then DYN_TYPE_ISIZE else DYN_TYPE_USIZE in
    both (s_target_ st) t (s_expression st) t
  else if first then both (s_expression st) DYN_TYPE_INFER (s_target_ st) DYN_TYPE_INFER
  else both (s_target_ st) DYN_TYPE_INFER (s_expression st) DYN_TYPE_INFER.
Definition check_for_range (id : Z) : M bool :=
  let! st := read STATEMENTS id in
  let! t := range_type st in
  let! a := ast in
  if (t =? DYN_TYPE_ERROR) || negb (is_integer a t) then
    error_span (s_span st) "range bounds require the same integer type" ;; mret false
  else if s_for_pointer st then error_span (s_span st) "range for-in binds values; remove the pointer binding" ;; mret false
  else
    let! l := find_local_ src garbage (s_name st) in
    if negb (l =? UINT32_MAX) then error_span (s_name st) shadow_message ;; mret false
    else
      let! ok := reserve_local in
      if negb ok then error_span (s_span st) "out of memory" ;; mret false else loop_with_local id t.
Definition check_for_in (id : Z) : M bool :=
  let! st := read STATEMENTS id in
  let! collection := check (s_target_ st) DYN_TYPE_INFER in
  let! a := ast in
  let ar := array_info a collection in
  let sl := slice_info a collection in
  let is_array := match ar with Some _ => true | None => false end in
  let const_slice := match sl with Some sl => sl_is_const sl | None => false end in
  match (match ar, sl with Some ar, _ => Some (ar_element ar) | None, Some sl => Some (sl_element sl) | None, None => None end) with
  | None => error_span (s_span st) "for-in requires array or slice" ;; mret false
  | Some element =>
      let! assignable := (if s_for_pointer st && is_array then
                            let! e := expr_row (s_target_ st) in
                            mret (existsb (is_kind e) [DYN_EXPR_NAME; DYN_EXPR_GLOBAL; DYN_EXPR_FIELD; DYN_EXPR_INDEX; DYN_EXPR_UNARY])
                          else mret true) in
      if negb assignable then error_span (s_span st) "pointer for-in over array requires assignable collection" ;; mret false
      else if s_for_pointer st && negb (s_for_const st) && const_slice then
        error_span (s_span st) "mutable pointer for-in requires mutable collection" ;; mret false
      else
        let! l := find_local_ src garbage (s_name st) in
        if negb (l =? UINT32_MAX) then error_span (s_name st) shadow_message ;; mret false
        else
          let! ok := reserve_local in
          if negb ok then error_span (s_span st) "out of memory" ;; mret false
          else
            let! binding := (if s_for_pointer st then sema_intern_pointer element (s_for_const st || const_slice) else mret element) in
            if binding =? DYN_TYPE_ERROR then error_span (s_span st) "out of memory" ;; mret false else loop_with_local id binding
  end.
Definition check_if (id : Z) : M bool :=
  let! st := read STATEMENTS id in
  let! condition := (if s_expression st =? DYN_NO_EXPR then mret DYN_TYPE_BOOL else check (s_expression st) DYN_TYPE_BOOL) in
  if_ (negb (condition =? DYN_TYPE_BOOL) && negb (condition =? DYN_TYPE_ERROR))
    (error_span (s_span st) "control-flow condition requires bool") ;;
  let loop := is_stmt st DYN_STMT_FOR in
  let! pushed := (if loop then push_loop src id else mret false) in
  let! body := block (s_body_start st) (s_body_count st) true in
  (if pushed : bool then pop_loop else mret tt) ;;
  if loop then mret false
  else if s_else_count st =? 0 then mret false
  else let! other := block (s_else_start st) (s_else_count st) true in mret (body && other).

(** *** Declarations and assignments *)
Definition check_local (id : Z) : M bool :=
  let! st := read STATEMENTS id in
  let! l := find_local_ src garbage (s_name st) in
  let! shadows := (if negb (l =? UINT32_MAX) then mret true
                   else let! a := ast in let! x := the_sema in
                        lift (shadows_global (gl_index x) a (current_function x) (s_name st) src)) in
  if shadows : bool then error_span (s_name st) shadow_message ;; mret false
  else if (s_declared_type st =? DYN_TYPE_INFER) && (s_expression st =? DYN_NO_EXPR) then
    error_span (s_span st) "inferred local requires initializer" ;; mret false
  else
    let! t := (if s_expression st =? DYN_NO_EXPR then mret (s_declared_type st)
               else
                 let! value := check (s_expression st) (s_declared_type st) in
                 if s_declared_type st =? DYN_TYPE_INFER then mret value
                 else
                   (if negb (value =? s_declared_type st) && negb (value =? DYN_TYPE_ERROR) then
                      let! ok := can_convert_ value (s_declared_type st) in
                      if ok : bool then convert_statement id (s_declared_type st)
                      else error_types src deep (s_span st) "initializer type mismatch" (s_declared_type st) value
                    else mret tt) ;;
                   mret (s_declared_type st)) in
    if (t =? DYN_TYPE_ERROR) || (t =? DYN_TYPE_STRING) || (t =? DYN_TYPE_VOID) then
      if_ (t =? DYN_TYPE_STRING) (error_span (s_span st) "string locals are deferred until slice lowering") ;;
      if_ (t =? DYN_TYPE_VOID) (error_span (s_span st) "local cannot have void type") ;; mret false
    else
      let! ok := reserve_local in
      if negb ok then error_span (s_span st) "out of memory" ;; mret false
      else let! l := add_local (s_name st) t (s_is_const st) in change STATEMENTS id (set_s_local (u32 l)) ;; mret false.
(** Whether a compound assignment is defined at the target's type. *)
Definition is_assign (st : DynAstStmt) (o : DynOperator) : bool := bool_decide (s_assignment_op st = o).
Definition compound_valid (a : DynAstProgram) (op : DynOperator) (target : Z) : bool :=
  (numeric a target && match op with DYN_OP_ADD | DYN_OP_SUB | DYN_OP_MUL | DYN_OP_DIV | DYN_OP_REM => true | _ => false end)
  || (is_integer a target
      && match op with DYN_OP_BIT_AND | DYN_OP_BIT_OR | DYN_OP_BIT_XOR | DYN_OP_SHL | DYN_OP_SHR => true | _ => false end)
  || ((target =? DYN_TYPE_BOOL) && match op with DYN_OP_BIT_AND | DYN_OP_BIT_OR | DYN_OP_BIT_XOR => true | _ => false end).
(** The value assigned against the type of the target. *)
Definition assign_value (id target value : Z) (message : string) : M unit :=
  let! st := read STATEMENTS id in
  if negb (value =? target) && negb (value =? DYN_TYPE_ERROR) && negb (target =? DYN_TYPE_ERROR) then
    let! ok := can_convert_ value target in
    if ok && is_assign st DYN_OP_NONE then convert_statement id target
    else error_types src deep (s_span st) message target value
  else mret tt.
Definition assign_compound (id target : Z) (message : string) : M unit :=
  let! st := read STATEMENTS id in
  let! a := ast in
  if_ (negb (is_assign st DYN_OP_NONE) && negb (compound_valid a (s_assignment_op st) target)) (error_span (s_span st) message).
Definition assign_through (id : Z) : M bool :=
  let! st := read STATEMENTS id in
  let! target := check (s_target_ st) DYN_TYPE_INFER in
  let! value := check (s_expression st) target in
  let! a := ast in
  let! const := lift (lvalue_const deep a (s_target_ st)) in
  if_ const (error_span (s_span st) "assignment through *const pointer") ;;
  assign_value id target value "field assignment type mismatch" ;;
  assign_compound id target "compound operator is invalid for field type" ;; mret false.
(** The type of a variable assigned by name; [None] after an error. *)
Definition assign_name (id : Z) : M (option Z) :=
  let! st := read STATEMENTS id in
  let! local := find_local_ src garbage (s_name st) in
  let! global := find_global_ src (s_name st) in
  if negb (local =? UINT32_MAX) then
    change STATEMENTS id (set_s_local local) ;;
    let! l := read LOCALS local in
    if_ (lo_is_const l) (error_span (s_name st) "cannot assign to constant") ;; mret (Some (lo_type l))
  else if negb (global =? UINT32_MAX) then
    let! g := read GLOBALS global in
    if_ (gl_is_const g) (error_span (s_name st) "cannot assign to constant") ;;
    let! ok := reserve_expr in
    if negb ok then error_span (s_span st) "out of memory" ;; mret None
    else
      let! target := push EXPRESSIONS (mkAstExpr DYN_EXPR_GLOBAL (gl_type g) no_span DYN_OP_NONE DYN_NO_EXPR DYN_NO_EXPR global
                                         (S754_zero false) false 0 0 false) in
      change STATEMENTS id (fun st => set_s_local UINT32_MAX (set_s_target (u32 target) st)) ;; mret (Some (gl_type g))
  else error_span (s_name st) "assignment target is not declared" ;; mret None.
Definition check_assign (id : Z) : M bool :=
  let! st := read STATEMENTS id in
  if negb (s_target_ st =? DYN_NO_EXPR) then assign_through id
  else if discard_name (s_name st) src then let! _ := check (s_expression st) DYN_TYPE_INFER in mret false
  else
    let! target := assign_name id in
    match target with
    | None => mret false
    | Some target =>
        let shift := is_assign st DYN_OP_SHL || is_assign st DYN_OP_SHR in
        let! value := check (s_expression st) (if shift then DYN_TYPE_USIZE else target) in
        let! a := ast in
        (if shift then
           if_ (negb (is_integer a value) || signed_int a value) (error_span (s_span st) "shift count requires unsigned integer")
         else assign_value id target value "assignment type mismatch") ;;
        assign_compound id target "compound operator is invalid for variable type" ;; mret false
    end.

(** *** The rest *)
Definition check_defer (st : DynAstStmt) : M bool :=
  let! valid := all_of (fun i => let! c := child (u32 (s_body_start st + i)) in valid_defer_stmt deep c) (seqZ 0 (s_body_count st)) true in
  (if valid : bool then let! _ := block (s_body_start st) (s_body_count st) true in mret tt else mret tt) ;; mret false.
Definition check_panic (id : Z) : M bool :=
  let! st := read STATEMENTS id in
  let! message_type := sema_intern_slice DYN_TYPE_U8 true in
  let! value := check (s_expression st) message_type in
  (if negb (value =? message_type) && negb (value =? DYN_TYPE_ERROR) then
     let! ok := can_convert_ value message_type in
     if ok : bool then convert_statement id message_type else error_span (s_span st) "#panic message requires []const u8"
   else mret tt) ;;
  mret true.
Definition check_return (id : Z) : M bool :=
  let! st := read STATEMENTS id in
  let! x := the_sema in
  let want := current_return_type x in
  (if want =? DYN_TYPE_VOID then if_ (negb (s_expression st =? DYN_NO_EXPR)) (error_span (s_span st) "void function cannot return a value")
   else if s_expression st =? DYN_NO_EXPR then error_span (s_span st) "non-void function must return a value"
   else
     let! value := check (s_expression st) want in
     let! a := ast in
     let! borrow := lift (returns_local_borrow deep (current_function x) a (s_expression st)) in
     if_ borrow (error_span (s_span st) "returned value borrows function-local storage") ;;
     if negb (value =? want) && negb (value =? DYN_TYPE_ERROR) then
       let! ok := can_convert_ value want in
       if ok : bool then convert_statement id want else error_types src deep (s_span st) "return type mismatch" want value
     else mret tt) ;;
  mret true.
Definition check_expression (id : Z) : M bool :=
  let! st := read STATEMENTS id in
  let! e := expr_row (s_expression st) in
  let! value := check (s_expression st) DYN_TYPE_INFER in
  if_ (negb (is_kind e DYN_EXPR_SYSCALL) && negb (value =? DYN_TYPE_VOID) && negb (value =? DYN_TYPE_ERROR))
    (error_span (s_span st) "discard non-void call result with '_ = call()'") ;;
  mret false.
Definition sema_stmt (id : Z) : M bool :=
  let! st := read STATEMENTS id in
  match s_kind st with
  | DYN_STMT_INVALID => mret false
  | DYN_STMT_DEFER => check_defer st
  | DYN_STMT_PANIC => check_panic id
  | DYN_STMT_CASE => validate_pointer_case_bindings st ;; sema_case_v2 id
  | DYN_STMT_RETURN => check_return id
  | DYN_STMT_EXPR => check_expression id
  | DYN_STMT_BREAK | DYN_STMT_CONTINUE => let! _ := resolve_loop_control src id in mret true
  | DYN_STMT_IF => check_if id
  | DYN_STMT_FOR =>
      if s_for_range st then check_for_range id
      else if negb (s_target_ st =? DYN_NO_EXPR) then check_for_in id
      else check_if id
  | DYN_STMT_LOCAL => check_local id
  | DYN_STMT_ASSIGN => check_assign id
  end.
Fixpoint block_statements (start : Z) (l : list Z) (terminated : bool) : M bool :=
  match l with
  | [] => mret terminated
  | i :: l' =>
      let! c := child (u32 (start + i)) in
      let! st := read STATEMENTS c in
      if terminated then error_span (s_span st) "unreachable statement" ;; block_statements start l' terminated
      else let! t := sema_stmt c in block_statements start l' t
  end.
Definition sema_block_body (start count : Z) (scoped : bool) : M bool :=
  let! a := ast in
  let base := tcount a LOCALS in
  let! terminated := block_statements start (seqZ 0 count) false in
  let! a := ast in
  (if scoped then for_each deactivate (seqZ base (tcount a LOCALS - base)) else mret tt) ;;
  mret terminated.
End Statements.

(** One level of fuel is spent on a block inside a block. *)
Fixpoint sema_block_with (check : Z -> Z -> M Z) (fuel : nat) (start count : Z) (scoped : bool) : M bool :=
  match fuel with
  | O => undefined
  | S n => sema_block_body check (sema_block_with check n) start count scoped
  end.
(** [efuel] is the fuel of every expression. *)
Definition sema_block (efuel : nat) : nat -> Z -> Z -> bool -> M bool := sema_block_with (check_expr host src garbage deep efuel).
(** The same, undefined at a field of a pointer whose type has no row. *)
Definition sema_block_strict (efuel : nat) : nat -> Z -> Z -> bool -> M bool := sema_block_with (check_strict host src garbage deep efuel).
End SemaStmt.
