(* ===== verification/SemaStmtSpec.v ===== *)
(** What type checking of statements guarantees ([SemaStmt]): it only adds to
    the program and its reports, gives no error type in silence, and closes
    the scopes it opens. *)

From S2P Require Import Prelude Target Source Work Ir Ast AstTypes SemaTypes SemaConst SemaCase AstNames AstGeneric AstLiteral SemaFind.
From S2P Require Import SemaExpr SemaStmt SemaExprSpec.
From Stdlib Require Import Floats.SpecFloat.

#[local] Instance statements_coarse : Coarse := true.
#[local] Hint Extern 0 Coarse => exact statements_coarse : safe.

Section Steps.
Context {H : Host} {G : Grants H} (src : DynSource) (garbage : Z -> Z) (deep : nat).

Lemma lasting_change k i f : (forall x, shape k (f x) = shape k x) -> lasting (change k i f).
Proof. apply lasting_update. Qed.
Lemma safe_change k i f : (forall x, clean_row k x -> clean_row k (f x)) -> safe (change k i f) (fun _ => True).
Proof.
  intros Hf s r s'. unfold change, mbind, read. destruct (get_at _ _) as [x|] eqn:E; [|done]. intros Ew Hc.
  destruct (safe_write k i (f x) (Hf x (Hc k i x E)) s r s' Ew Hc) as [|[]]; auto.
Qed.
Lemma lasting_child i : lasting (child i).
Proof. apply (lasting_read CHILDREN). Qed.
Lemma safe_child i : safe (child i) (fun _ => True).
Proof. eapply safe_weaken; [|apply (safe_read CHILDREN)]. done. Qed.
Lemma lasting_set_sema x : lasting (set_sema x).
Proof. intros s r s' [= <- <-]. by apply onward_same; [exists []|..]. Qed.
Lemma safe_set_sema x : safe (set_sema x) (fun _ => True).
Proof. intros s r s' [= <- <-] Hc. by right. Qed.
End Steps.
#[export] Hint Resolve lasting_set_sema lasting_child : lasting.
#[export] Hint Extern 1 (lasting (change _ _ _)) => apply lasting_change; intros ?; reflexivity : lasting.
#[export] Hint Resolve safe_set_sema safe_child : safe.
#[export] Hint Extern 1 (safe (change _ _ _) _) => apply safe_change; by intros ? ? : safe.

Ltac finished := repeat safe_head; first [done|solve [eauto 4 with safe]|no_error|idtac].

(** ** Loops *)
Section Loops.
Context {H : Host} {G : Grants H} (src : DynSource).

Lemma lasting_label_active label loops : lasting (label_active src label loops).
Proof. induction loops; cbn [label_active]; lasting. Qed.
Lemma safe_label_active label loops : safe (label_active src label loops) (fun _ => True).
Proof.
  pose proof lasting_label_active as Hl. induction loops as [|l loops IH]; cbn [label_active]; [by apply safe_value|]. safe_head. safe_head; [by apply safe_value|done].
Qed.
Hint Resolve lasting_label_active : lasting.
Hint Resolve safe_label_active : safe.
Lemma lasting_push_loop id : lasting (push_loop src id).
Proof. unfold push_loop. lasting. Qed.
Lemma safe_push_loop id : safe (push_loop src id) (fun _ => True).
Proof.
  unfold push_loop. do 2 safe_head. safe_part (fun _ : bool => True); [finished|]. safe_part (fun _ : unit => True); finished.
Qed.
Lemma lasting_pop_loop : lasting pop_loop.
Proof. unfold pop_loop. lasting. Qed.
Lemma safe_pop_loop : safe pop_loop (fun _ => True).
Proof. unfold pop_loop. safe_head. apply safe_set_sema. Qed.
Lemma labelled_loop_same label loops s r s' : labelled_loop src label loops s = Some (r, s') -> s' = s.
Proof.
  revert r. induction loops as [|l loops IH]; intros r; cbn [labelled_loop]; [by intros [= <- <-]|]. unfold mbind, read.
  destruct (get_at _ _); [|done]. destruct (_ && _); [by intros [= <- <-]|apply IH].
Qed.
(** The loop of a [break] or [continue] is found without a change, and then
    its row is written or a report is made. *)
Lemma resolve_loop_control_cases id s r s' :
  resolve_loop_control src id s = Some (r, s') ->
  (exists st loop, get_at (tab (prog s) STATEMENTS) id = Some st /\ write STATEMENTS id (set_target_loop st loop) s = Some (tt, s'))
  \/ exists span message, error_span span message s = Some (tt, s').
Proof.
  unfold resolve_loop_control. unfold mbind at 1, read at 1. destruct (get_at _ _) as [st|] eqn:Est; [|done].
  unfold mbind at 1, the_sema at 1. destruct (active_loops _) as [|inner outer]; [intros [= <- <-]; right; by eexists _, _|].
  destruct (negb _).
  - unfold mbind at 1, read at 1. destruct (get_at _ inner) as [l|]; [|done]. unfold mbind. destruct (write _ _ _ _) as [[[] s1]|] eqn:Ew; [|done].
    intros [= <- <-]. left. eauto.
  - unfold mbind at 1. destruct (labelled_loop _ _ _ _) as [[found s1]|] eqn:El; [|done]. apply labelled_loop_same in El as ->.
    destruct found as [l|]; [|intros [= <- <-]; right; by eexists _, _].
    unfold mbind. destruct (write _ _ _ _) as [[[] s1]|] eqn:Ew; [|done]. intros [= <- <-]. left. eauto.
Qed.
Lemma lasting_resolve id : lasting (resolve_loop_control src id).
Proof.
  intros s r s' [(st & l & Hst & Hw)|(span & m & E)]%resolve_loop_control_cases; [|by eapply lasting_error].
  by eapply (onward_write STATEMENTS id st).
Qed.
Lemma safe_resolve id : safe (resolve_loop_control src id) (fun _ => True).
Proof.
  intros s r s' [(st & l & Hst & Hw)|(span & m & E)]%resolve_loop_control_cases Hc; [|by eapply (safe_error _ _ (fun _ => True))].
  destruct (safe_write STATEMENTS id (set_target_loop st l) (Hc STATEMENTS id st Hst) _ _ _ Hw Hc) as [|[]]; auto.
Qed.
End Loops.
#[export] Hint Resolve lasting_push_loop lasting_pop_loop lasting_resolve : lasting.
#[export] Hint Resolve safe_push_loop safe_pop_loop safe_resolve : safe.

(** ** Statements, over checks of expressions and blocks *)
Section Statements.
Context {H : Host} {G : Grants H} (src : DynSource) (garbage : Z -> Z) (deep : nat) (check : Z -> Z -> M Z) (block : Z -> Z -> bool -> M bool).
Hypothesis Hcheck : forall id t, lasting (check id t).
Hypothesis Hblock : forall start count scoped, lasting (block start count scoped).
Hint Resolve Hcheck Hblock : lasting.

Lemma lasting_all_of f l ok : (forall i, lasting (f i)) -> lasting (all_of f l ok).
Proof. intros Hf. revert ok. induction l; intros ok; cbn [all_of]; lasting. Qed.
Hint Extern 1 (lasting (all_of _ _ _)) => apply lasting_all_of; lasting : lasting.
Lemma lasting_defer_arms each start l ok : (forall x y b, lasting (each x y b)) -> lasting (defer_arms each start l ok).
Proof. intros He. revert ok. induction l; intros ok; cbn [defer_arms]; lasting. Qed.
Hint Extern 1 (lasting (defer_arms _ _ _ _)) => apply lasting_defer_arms; lasting : lasting.
Lemma lasting_valid_defer fuel id : lasting (valid_defer_stmt fuel id).
Proof.
  revert id. induction fuel as [|n IH]; intros id; cbn [valid_defer_stmt]; [apply lasting_undefined|]. lasting.
Qed.
Hint Resolve lasting_valid_defer : lasting.
Lemma lasting_validate st : lasting (validate_pointer_case_bindings deep st).
Proof. unfold validate_pointer_case_bindings. lasting. Qed.
Lemma lasting_add_local name t c : lasting (add_local name t c).
Proof. unfold add_local. lasting. Qed.
Lemma lasting_deactivate i : lasting (deactivate i).
Proof. unfold deactivate. lasting. Qed.
Lemma lasting_convert_statement id t : lasting (convert_statement id t).
Proof. unfold convert_statement. lasting. Qed.
Hint Resolve lasting_validate lasting_add_local lasting_deactivate lasting_convert_statement : lasting.
Lemma lasting_bind_arm ai arm t : lasting (bind_arm ai arm t).
Proof. unfold bind_arm, reserve_local, reserve. lasting. Qed.
Lemma lasting_arm_body ai : lasting (arm_body block ai).
Proof. unfold arm_body. lasting. Qed.
Hint Resolve lasting_bind_arm lasting_arm_body : lasting.
Lemma lasting_any_pattern st i ai : lasting (any_pattern st i ai).
Proof. unfold any_pattern. lasting. Qed.
Hint Resolve lasting_any_pattern : lasting.
Lemma lasting_any_arms st l w t : lasting (any_arms block st l w t).
Proof. revert w t. induction l; intros w t; cbn [any_arms]; lasting. Qed.
Lemma lasting_enum_pattern subject start pi seen : lasting (enum_pattern check subject start pi seen).
Proof. unfold enum_pattern. lasting. Qed.
Lemma lasting_pattern_ends subject pi : lasting (pattern_ends deep check subject pi).
Proof. unfold pattern_ends. lasting. Qed.
Hint Resolve lasting_any_arms lasting_enum_pattern lasting_pattern_ends : lasting.
Lemma lasting_integer_pattern st subject i j pi : lasting (integer_pattern deep check st subject i j pi).
Proof. unfold integer_pattern. lasting. Qed.
Hint Resolve lasting_integer_pattern : lasting.
Lemma lasting_arm_patterns st subject en i start l seen : lasting (case_arm_patterns deep check st subject en i start l seen).
Proof. revert seen. induction l; intros seen; cbn [case_arm_patterns]; lasting. Qed.
Lemma lasting_case_binding e ai : lasting (case_binding src garbage e ai).
Proof. unfold case_binding. lasting. Qed.
Hint Resolve lasting_arm_patterns lasting_case_binding : lasting.
Lemma lasting_case_arms st subject en l seen w t : lasting (case_arms src garbage deep check block st subject en l seen w t).
Proof. revert seen w t. induction l; intros seen w t; cbn [case_arms]; lasting. Qed.
Hint Resolve lasting_case_arms : lasting.
Lemma lasting_case id : lasting (sema_case_v2 src garbage deep check block id).
Proof. unfold sema_case_v2. lasting. Qed.
Lemma lasting_loop_with_local id t : lasting (loop_with_local src block id t).
Proof. unfold loop_with_local. lasting. Qed.
Lemma lasting_range_type st : lasting (range_type check st).
Proof. unfold range_type. lasting. Qed.
Hint Resolve lasting_case lasting_loop_with_local lasting_range_type : lasting.
Lemma lasting_for_range id : lasting (check_for_range src garbage check block id).
Proof. unfold check_for_range, reserve_local, reserve. lasting. Qed.
Lemma lasting_for_in id : lasting (check_for_in src garbage check block id).
Proof. unfold check_for_in, reserve_local, reserve, sema_intern_pointer. lasting. Qed.
Lemma lasting_if_stmt id : lasting (check_if src check block id).
Proof. unfold check_if. lasting. Qed.
Lemma lasting_local id : lasting (check_local src garbage deep check id).
Proof. unfold check_local, reserve_local, reserve. lasting. Qed.
Lemma lasting_assign_value id target value m : lasting (assign_value src deep id target value m).
Proof. unfold assign_value. lasting. Qed.
Lemma lasting_assign_compound id target m : lasting (assign_compound id target m).
Proof. unfold assign_compound. lasting. Qed.
Lemma lasting_assign_name id : lasting (assign_name src garbage id).
Proof. unfold assign_name. lasting. Qed.
Hint Resolve lasting_for_range lasting_for_in lasting_if_stmt lasting_local lasting_assign_value lasting_assign_compound lasting_assign_name : lasting.
Lemma lasting_assign_through id : lasting (assign_through src deep check id).
Proof. unfold assign_through. lasting. Qed.
Hint Resolve lasting_assign_through : lasting.
Lemma lasting_assign id : lasting (check_assign src garbage deep check id).
Proof. unfold check_assign. lasting. Qed.
Lemma lasting_defer st : lasting (check_defer deep block st).
Proof. unfold check_defer. lasting. Qed.
Lemma lasting_panic id : lasting (check_panic check id).
Proof. unfold check_panic, sema_intern_slice. lasting. Qed.
Lemma lasting_return id : lasting (check_return src deep check id).
Proof. unfold check_return. lasting. Qed.
Lemma lasting_expression id : lasting (check_expression check id).
Proof. unfold check_expression. lasting. Qed.
Hint Resolve lasting_assign lasting_defer lasting_panic lasting_return lasting_expression : lasting.
Lemma lasting_stmt id : lasting (sema_stmt src garbage deep check block id).
Proof. unfold sema_stmt. lasting. Qed.
Hint Resolve lasting_stmt : lasting.
Lemma lasting_block_statements start l t : lasting (block_statements src garbage deep check block start l t).
Proof. revert t. induction l; intros t; cbn [block_statements]; lasting. Qed.
Hint Resolve lasting_block_statements : lasting.
Lemma lasting_block_body start count scoped : lasting (sema_block_body src garbage deep check block start count scoped).
Proof. unfold sema_block_body. lasting. Qed.

Hypothesis Hsafe : forall id t, safe (check id t) (fun r => r <> DYN_TYPE_ERROR).
Hypothesis Hsafe_block : forall start count scoped, safe (block start count scoped) (fun _ => True).
Hint Resolve Hsafe Hsafe_block : safe.

Lemma safe_all_of f l ok : (forall i, lasting (f i)) -> (forall i, safe (f i) (fun _ => True)) -> safe (all_of f l ok) (fun _ => True).
Proof.
  intros Hl Hf. revert ok. induction l as [|i l IH]; intros ok; cbn [all_of]; [by apply safe_value|].
  eapply safe_then; [apply Hf|intros; by apply lasting_all_of|]. intros b _. apply IH.
Qed.
Lemma safe_defer_arms each start l ok :
  (forall x y b, lasting (each x y b)) -> (forall x y b, safe (each x y b) (fun _ => True)) -> safe (defer_arms each start l ok) (fun _ => True).
Proof.
  intros Hl He. revert ok. induction l as [|i l IH]; intros ok; cbn [defer_arms]; [by apply safe_value|].
  eapply safe_then; [apply safe_read|lasting|]. intros arm _. eapply safe_then; [apply He|lasting|]. intros b _. apply IH.
Qed.
Lemma safe_valid_defer fuel id : safe (valid_defer_stmt fuel id) (fun _ => True).
Proof.
  revert id. induction fuel as [|n IH]; intros id; cbn [valid_defer_stmt]; [apply safe_undefined|]. cbv zeta. safe_head.
  assert (He : forall start count ok, safe (all_of (fun i => let! c := child (u32 (start + i)) in valid_defer_stmt n c) (seqZ 0 count) ok) (fun _ => True)).
  { intros. apply safe_all_of; [lasting|]. intros i. safe_head. apply IH. }
  destruct (_ || _); [finished|]. do 2 (eapply safe_then; [apply He|lasting|]; intros ? _). safe_head; [|by apply safe_value].
  apply safe_defer_arms; [lasting|apply He].
Qed.
Lemma safe_validate st : safe (validate_pointer_case_bindings deep st) (fun _ => True).
Proof. unfold validate_pointer_case_bindings. apply safe_for_each; [lasting|]. intros i. finished. Qed.
Lemma safe_add_local name t c : t <> DYN_TYPE_ERROR -> safe (add_local name t c) (fun l => 0 <= l).
Proof. intros Ht. unfold add_local. safe_head. by apply (safe_push LOCALS). Qed.
Lemma safe_deactivate i : safe (deactivate i) (fun _ => True).
Proof. by apply (safe_change LOCALS). Qed.
Lemma safe_convert_statement id t : t <> DYN_TYPE_ERROR -> safe (convert_statement id t) (fun _ => True).
Proof.
  intros Ht. unfold convert_statement. safe_head. eapply safe_then; [by apply safe_convert_expr|lasting|]. intros c _. by apply (safe_change STATEMENTS).
Qed.
Hint Resolve safe_valid_defer safe_validate safe_deactivate safe_convert_statement : safe.
Lemma safe_bind_arm ai arm t : t <> DYN_TYPE_ERROR -> safe (bind_arm ai arm t) (fun _ => True).
Proof.
  intros Ht. unfold bind_arm, reserve_local, reserve. safe_head. subst. eapply safe_then; [by apply safe_add_local|lasting|]. intros l _.
  by apply (safe_change CASE_ARMS).
Qed.
Lemma safe_arm_body ai : safe (arm_body block ai) (fun _ => True).
Proof. unfold arm_body. do 3 safe_head. safe_head; [apply safe_deactivate|by apply safe_value]. Qed.
Hint Resolve safe_bind_arm safe_arm_body : safe.
Lemma safe_any_pattern st i ai : safe (any_pattern st i ai) (fun _ => True).
Proof.
  unfold any_pattern. safe_head. safe_part (fun _ : bool => True); [finished|]. safe_head; [safe_head|]. safe_head.
  eapply safe_then; [apply safe_for_each; [lasting|]|lasting|intros _ _].
  - intros q. finished.
  - safe_head; [|by apply safe_value]. apply safe_bind_arm. no_error.
Qed.
Hint Resolve safe_any_pattern : safe.
Lemma safe_any_arms st l w t : safe (any_arms block st l w t) (fun _ => True).
Proof.
  revert w t. induction l as [|i l IH]; intros w t; cbn [any_arms]; [by apply safe_value|]. cbv zeta. pose proof lasting_any_arms as Hl.
  safe_head. safe_part (fun _ : unit => True); [finished|]. safe_head. apply IH.
Qed.
Lemma safe_enum_pattern subject start pi seen : safe (enum_pattern check subject start pi seen) (fun _ => True).
Proof.
  unfold enum_pattern. safe_head. safe_head; [safe_head|]. safe_head. safe_part (fun _ : option Z => True); [finished|].
  destruct x1 as [v|]; [|safe_head]. eapply safe_then; [by apply (safe_change PATTERNS)|lasting|]. intros _ _. finished.
Qed.
Lemma safe_pattern_ends subject pi : safe (pattern_ends deep check subject pi) (fun _ => True).
Proof.
  unfold pattern_ends. safe_head. cbv zeta. eapply safe_then; [by apply (safe_change PATTERNS)|lasting|]. intros _ _. do 2 safe_head.
  safe_part (fun _ : Constant => True); [finished|]. eapply safe_then; [by apply (safe_change PATTERNS)|lasting|]. intros _ _.
  safe_head; [|by apply safe_value]. safe_head. safe_part (fun _ : Constant => True); [finished|]. safe_head; [by apply safe_value|].
  safe_head; [|by apply safe_value]. eapply safe_then; [by apply (safe_change PATTERNS)|lasting|]. intros _ _. by apply safe_value.
Qed.
Hint Resolve safe_any_arms safe_enum_pattern safe_pattern_ends : safe.
Lemma safe_integer_pattern st subject i j pi : safe (integer_pattern deep check st subject i j pi) (fun _ => True).
Proof.
  unfold integer_pattern. do 2 safe_head. safe_head; [safe_head|]. safe_head; [safe_head|].
  apply safe_for_each; [lasting|]. intros ai. safe_head. apply safe_for_each; [lasting|]. intros q. finished.
Qed.
Hint Resolve safe_integer_pattern : safe.
Lemma safe_arm_patterns st subject en i start l seen : safe (case_arm_patterns deep check st subject en i start l seen) (fun _ => True).
Proof.
  revert seen. induction l as [|j l IH]; intros seen; cbn [case_arm_patterns]; [by apply safe_value|]. cbv zeta. pose proof lasting_arm_patterns as Hl.
  safe_part (fun _ : option (list bool) => True); [|apply IH]. finished.
Qed.
Lemma safe_case_binding e ai : safe (case_binding src garbage e ai) (fun _ => True).
Proof.
  unfold case_binding. safe_head. safe_head; [|by apply safe_value]. safe_part (fun _ : option Z => True); [finished|].
  destruct x0 as [v|]; [|safe_head]. safe_head. safe_head; [safe_head|]. safe_head. safe_head; [safe_head|]. apply safe_bind_arm. no_error.
Qed.
Hint Resolve safe_arm_patterns safe_case_binding : safe.
Lemma safe_case_arms st subject en l seen w t : safe (case_arms src garbage deep check block st subject en l seen w t) (fun _ => True).
Proof.
  revert seen w t. induction l as [|i l IH]; intros seen w t; cbn [case_arms]; [by apply safe_value|]. cbv zeta. pose proof lasting_case_arms as Hl.
  do 5 safe_head. apply IH.
Qed.
Hint Resolve safe_case_arms : safe.
Lemma safe_case id : safe (sema_case_v2 src garbage deep check block id) (fun _ => True).
Proof.
  unfold sema_case_v2. do 3 safe_head. cbv zeta. safe_head.
  { safe_head. destruct x2 as [w t]. finished. }
  safe_head; [safe_head|]. safe_part (fun _ : option DynAstEnum => True); [finished|].
  safe_part (fun _ : option (list bool) => True); [destruct x2; finished|]. safe_head. destruct x4 as [[seen w] t]. do 2 safe_head.
  safe_part (fun _ : bool => True); [destruct x2; finished|]. finished.
Qed.
Lemma safe_loop_with_local id t : t <> DYN_TYPE_ERROR -> safe (loop_with_local src block id t) (fun _ => True).
Proof.
  intros Ht. unfold loop_with_local. safe_head. eapply safe_then; [by apply safe_add_local|lasting|]. intros l _.
  eapply safe_then; [by apply (safe_change STATEMENTS)|lasting|]. intros _ _. do 2 safe_head.
  safe_part (fun _ : unit => True); [destruct x0; finished|]. finished.
Qed.
Lemma safe_range_type st : safe (range_type check st) (fun _ => True).
Proof.
  unfold range_type. cbv zeta. do 3 safe_head. safe_head.
  - safe_head. safe_part (fun _ : bool => True); [finished|]. finished.
  - finished.
Qed.
Hint Resolve safe_case safe_loop_with_local safe_range_type : safe.
Lemma safe_for_range id : safe (check_for_range src garbage check block id) (fun _ => True).
Proof.
  unfold check_for_range, reserve_local, reserve. do 3 safe_head. safe_head; [safe_head|]. apply orb_false_iff in Heqb as [Ht%Z.eqb_neq _].
  safe_head; [safe_head|]. safe_head. safe_head; [safe_head|]. safe_head. subst. cbn [negb]. by apply safe_loop_with_local.
Qed.
Lemma safe_for_in id : safe (check_for_in src garbage check block id) (fun _ => True).
Proof.
  unfold check_for_in, reserve_local, reserve, sema_intern_pointer. do 3 safe_head. cbv zeta.
  destruct (match array_info _ _ with Some _ => _ | None => _ end) as [element|] eqn:Ee; [|safe_head].
  assert (element <> DYN_TYPE_ERROR) as He.
  { destruct (array_info _ _) as [ar|] eqn:Ear; [simplify_eq; by eapply array_element_clean|].
    destruct (slice_info _ _) as [sl|] eqn:Esl; [|done]. simplify_eq. by eapply slice_element_clean. }
  safe_part (fun _ : bool => True); [finished|]. safe_head; [safe_head|]. safe_head; [safe_head|]. safe_head. safe_head; [safe_head|].
  safe_head. subst. cbn [negb]. safe_part (fun t => t <> DYN_TYPE_ERROR); [finished|]. rewrite (proj2 (Z.eqb_neq _ _) H5).
  by apply safe_loop_with_local.
Qed.
Lemma safe_if_stmt id : safe (check_if src check block id) (fun _ => True).
Proof.
  unfold check_if. safe_head. safe_part (fun _ : Z => True); [finished; eapply safe_weaken; [|apply Hsafe]; done|]. safe_head. cbv zeta.
  safe_part (fun _ : bool => True); [finished|]. safe_head. safe_part (fun _ : unit => True); [finished|]. finished.
Qed.

(** Nothing converts to the error type. *)
Lemma can_convert_known p a f t : f <> DYN_TYPE_ERROR -> can_convert p a f t = true -> t <> DYN_TYPE_ERROR.
Proof.
  intros Hf Hc ->. unfold can_convert, lossless in Hc. rewrite (proj2 (Z.eqb_neq f _) Hf), error_not_integer, !andb_false_r in Hc. cbn in Hc.
  repeat case_match; done.
Qed.
Lemma safe_convertible f t : f <> DYN_TYPE_ERROR -> safe (can_convert_ f t) (fun b => b = true -> t <> DYN_TYPE_ERROR).
Proof. intros Hf. unfold can_convert_. do 2 safe_head. apply safe_value. by apply can_convert_known. Qed.
Lemma safe_local id : safe (check_local src garbage deep check id) (fun _ => True).
Proof.
  unfold check_local, reserve_local, reserve. do 2 safe_head. safe_part (fun _ : bool => True); [finished|]. safe_head; [safe_head|].
  safe_head; [safe_head|]. safe_part (fun t => t <> DYN_TYPE_ERROR).
  - safe_head; [apply safe_value; no_error|]. safe_head. safe_head; [by apply safe_value|].
    safe_part (fun _ : unit => True); [|apply safe_value; no_error]. safe_head; [|by apply safe_value]. safe_head.
    destruct x3; [apply safe_convert_statement; no_error|apply safe_error_types].
  - safe_head; [finished|]. safe_head. subst. cbn [negb]. eapply safe_then; [by apply safe_add_local|lasting|]. intros l _.
    eapply safe_then; [by apply (safe_change STATEMENTS)|lasting|]. intros _ _. by apply safe_value.
Qed.
Lemma safe_assign_value id target value m : value <> DYN_TYPE_ERROR -> safe (assign_value src deep id target value m) (fun _ => True).
Proof.
  intros Hv. unfold assign_value. safe_head. safe_head; [|by apply safe_value]. eapply safe_then; [by apply safe_convertible|lasting|]. intros ok Hok.
  destruct ok; cbn [andb]; [safe_head; [apply safe_convert_statement; auto|apply safe_error_types]|apply safe_error_types].
Qed.
Lemma safe_assign_compound id target m : safe (assign_compound id target m) (fun _ => True).
Proof. unfold assign_compound. finished. Qed.
Hint Resolve safe_assign_value safe_assign_compound : safe.
Lemma safe_assign_through id : safe (assign_through src deep check id) (fun _ => True).
Proof. unfold assign_through. finished. Qed.
Lemma safe_assign_name id : safe (assign_name src garbage id) (fun _ => True).
Proof.
  unfold assign_name. do 3 safe_head. safe_head.
  - eapply safe_then; [by apply (safe_change STATEMENTS)|lasting|]. intros _ _. finished.
  - safe_head; [|safe_head]. do 3 safe_head. subst. cbn [negb]. eapply safe_then; [apply (safe_push EXPRESSIONS); no_error|lasting|]. intros target _.
    eapply safe_then; [by apply (safe_change STATEMENTS)|lasting|]. intros _ _. by apply safe_value.
Qed.
Hint Resolve safe_assign_through safe_assign_name : safe.
Lemma safe_assign id : safe (check_assign src garbage deep check id) (fun _ => True).
Proof.
  unfold check_assign. safe_head. safe_head; [apply safe_assign_through|]. safe_head; [finished|]. safe_head. destruct x0 as [target|]; [|by apply safe_value].
  cbv zeta. do 2 safe_head. safe_part (fun _ : unit => True); [finished|]. finished.
Qed.
Lemma safe_defer st : safe (check_defer deep block st) (fun _ => True).
Proof.
  unfold check_defer. eapply safe_then; [apply safe_all_of; [lasting|]|lasting|].
  - intros i. finished.
  - intros valid _. safe_part (fun _ : unit => True); finished.
Qed.
Lemma safe_panic id : safe (check_panic check id) (fun _ => True).
Proof.
  unfold check_panic, sema_intern_slice. safe_head. eapply safe_then; [by apply safe_intern_slice|lasting|]. intros t Ht. cbv beta in Ht. safe_head.
  safe_part (fun _ : unit => True); [|by apply safe_value]. safe_head; [|by apply safe_value]. safe_head. destruct x1; [by apply safe_convert_statement|safe_head].
Qed.
Lemma safe_return id : safe (check_return src deep check id) (fun _ => True).
Proof.
  unfold check_return. do 2 safe_head. safe_part (fun _ : unit => True); [|by apply safe_value]. safe_head; [finished|]. safe_head; [safe_head|].
  do 4 safe_head. safe_head; [|by apply safe_value]. eapply safe_then; [by apply safe_convertible|lasting|]. intros ok Hok.
  destruct ok; [apply safe_convert_statement; auto|apply safe_error_types].
Qed.
Lemma safe_check_expression id : safe (check_expression check id) (fun _ => True).
Proof. unfold check_expression. finished. Qed.
Hint Resolve safe_for_range safe_for_in safe_if_stmt safe_local safe_assign safe_defer safe_panic safe_return safe_check_expression : safe.
Lemma safe_stmt id : safe (sema_stmt src garbage deep check block id) (fun _ => True).
Proof. unfold sema_stmt. safe_head. destruct (s_kind x); finished. Qed.
Hint Resolve safe_stmt : safe.
Lemma safe_block_statements start l t : safe (block_statements src garbage deep check block start l t) (fun _ => True).
Proof.
  pose proof lasting_block_statements as Hl. revert t. induction l as [|i l IH]; intros t; cbn [block_statements]; [by apply safe_value|].
  do 2 safe_head. destruct t; [safe_head|]. safe_head. apply IH.
Qed.
Hint Resolve safe_block_statements : safe.
Lemma safe_block_body start count scoped : safe (sema_block_body src garbage deep check block start count scoped) (fun _ => True).
Proof.
  unfold sema_block_body. do 3 safe_head. safe_part (fun _ : unit => True); [|by apply safe_value]. safe_head; [|by apply safe_value].
  apply safe_for_each; [lasting|]. apply safe_deactivate.
Qed.
End Statements.

(** ** A strict run is a run *)
Section Strict.
Context {H : Host} (src : DynSource) (garbage : Z -> Z) (deep : nat) (check check' : Z -> Z -> M Z) (block block' : Z -> Z -> bool -> M bool).
Hypothesis Hcheck : forall id t, below (check id t) (check' id t).
Hypothesis Hblock : forall start count scoped, below (block start count scoped) (block' start count scoped).
Hint Resolve Hcheck Hblock : below.

Lemma below_arm_body ai : below (arm_body block ai) (arm_body block' ai).
Proof. unfold arm_body. below. Qed.
Hint Resolve below_arm_body : below.
Lemma below_any_arms st l w t : below (any_arms block st l w t) (any_arms block' st l w t).
Proof. revert w t. induction l; intros w t; cbn [any_arms]; below. Qed.
Lemma below_enum_pattern subject start pi seen : below (enum_pattern check subject start pi seen) (enum_pattern check' subject start pi seen).
Proof. unfold enum_pattern. below. Qed.
Lemma below_pattern_ends subject pi : below (pattern_ends deep check subject pi) (pattern_ends deep check' subject pi).
Proof. unfold pattern_ends. below. Qed.
Hint Resolve below_any_arms below_enum_pattern below_pattern_ends : below.
Lemma below_integer_pattern st subject i j pi : below (integer_pattern deep check st subject i j pi) (integer_pattern deep check' st subject i j pi).
Proof. unfold integer_pattern. below. Qed.
Hint Resolve below_integer_pattern : below.
Lemma below_arm_patterns st subject en i start l seen :
  below (case_arm_patterns deep check st subject en i start l seen) (case_arm_patterns deep check' st subject en i start l seen).
Proof. revert seen. induction l; intros seen; cbn [case_arm_patterns]; below. Qed.
Hint Resolve below_arm_patterns : below.
Lemma below_case_arms st subject en l seen w t :
  below (case_arms src garbage deep check block st subject en l seen w t) (case_arms src garbage deep check' block' st subject en l seen w t).
Proof. revert seen w t. induction l; intros seen w t; cbn [case_arms]; below. Qed.
Hint Resolve below_case_arms : below.
Lemma below_case id : below (sema_case_v2 src garbage deep check block id) (sema_case_v2 src garbage deep check' block' id).
Proof. unfold sema_case_v2. below. Qed.
Lemma below_loop_with_local id t : below (loop_with_local src block id t) (loop_with_local src block' id t).
Proof. unfold loop_with_local. below. Qed.
Lemma below_range_type st : below (range_type check st) (range_type check' st).
Proof. unfold range_type. below. Qed.
Hint Resolve below_case below_loop_with_local below_range_type : below.
Lemma below_for_range id : below (check_for_range src garbage check block id) (check_for_range src garbage check' block' id).
Proof. unfold check_for_range. below. Qed.
Lemma below_for_in id : below (check_for_in src garbage check block id) (check_for_in src garbage check' block' id).
Proof. unfold check_for_in. below. Qed.
Lemma below_if_stmt id : below (check_if src check block id) (check_if src check' block' id).
Proof. unfold check_if. below. Qed.
Lemma below_local id : below (check_local src garbage deep check id) (check_local src garbage deep check' id).
Proof. unfold check_local. below. Qed.
Lemma below_assign_through id : below (assign_through src deep check id) (assign_through src deep check' id).
Proof. unfold assign_through. below. Qed.
Hint Resolve below_assign_through : below.
Lemma below_assign id : below (check_assign src garbage deep check id) (check_assign src garbage deep check' id).
Proof. unfold check_assign. below. Qed.
Lemma below_defer st : below (check_defer deep block st) (check_defer deep block' st).
Proof. unfold check_defer. below. Qed.
Lemma below_panic id : below (check_panic check id) (check_panic check' id).
Proof. unfold check_panic. below. Qed.
Lemma below_return id : below (check_return src deep check id) (check_return src deep check' id).
Proof. unfold check_return. below. Qed.
Lemma below_expression id : below (check_expression check id) (check_expression check' id).
Proof. unfold check_expression. below. Qed.
Hint Resolve below_for_range below_for_in below_if_stmt below_local below_assign below_defer below_panic below_return below_expression : below.
Lemma below_stmt id : below (sema_stmt src garbage deep check block id) (sema_stmt src garbage deep check' block' id).
Proof. unfold sema_stmt. below. Qed.
Hint Resolve below_stmt : below.
Lemma below_block_statements start l t :
  below (block_statements src garbage deep check block start l t) (block_statements src garbage deep check' block' start l t).
Proof. revert t. induction l; intros t; cbn [block_statements]; below. Qed.
Hint Resolve below_block_statements : below.
Lemma below_block_body start count scoped :
  below (sema_block_body src garbage deep check block start count scoped) (sema_block_body src garbage deep check' block' start count scoped).
Proof. unfold sema_block_body. below. Qed.
End Strict.

Section Blocks.
Context {H : Host} (host : DynTarget) (src : DynSource) (garbage : Z -> Z) (deep efuel : nat).

Lemma lasting_block_with check fuel start count scoped :
  (forall id t, lasting (check id t)) -> lasting (sema_block_with src garbage deep check fuel start count scoped).
Proof.
  intros Hc. revert start count scoped. induction fuel as [|n IH]; intros; cbn [sema_block_with]; [apply lasting_undefined|]. by apply lasting_block_body.
Qed.
Lemma safe_block_strict {G : Grants H} fuel start count scoped :
  safe (sema_block_strict host src garbage deep efuel fuel start count scoped) (fun _ => True).
Proof.
  unfold sema_block_strict. revert start count scoped. induction fuel as [|n IH]; intros; cbn [sema_block_with]; [apply safe_undefined|].
  apply safe_block_body; [|intros; apply lasting_block_with| |exact IH].
  all: intros; first [apply lasting_check_with, lasting_undefined|apply (safe_check_strict (C := true))].
Qed.
Lemma strict_block_is_a_run fuel start count scoped :
  below (sema_block_strict host src garbage deep efuel fuel start count scoped) (sema_block host src garbage deep efuel fuel start count scoped).
Proof.
  unfold sema_block_strict, sema_block. revert start count scoped. induction fuel as [|n IH]; intros; cbn [sema_block_with]; [apply below_undefined|].
  apply below_block_body; [apply strict_is_a_run|exact IH].
Qed.
End Blocks.

(** ** Scopes *)
Section Scopes.
Context {H : Host}.

Lemma deactivate_spec i s r s' :
  deactivate i s = Some (r, s') ->
  exists l, get_at (tab (prog s) LOCALS) i = Some l
    /\ tab (prog s') LOCALS = <[Z.to_nat i := set_active false l]> (tab (prog s) LOCALS).
Proof.
  unfold deactivate, change, mbind, read. destruct (get_at _ _) as [l|] eqn:E; [|done]. unfold write. rewrite set_at_insert by (by eapply get_at_Some).
  intros [= <- <-]. exists l. split; [done|]. cbn [prog set_prog]. by rewrite tab_set_same.
Qed.
(** From [from] on nothing is active, and before it nothing has changed. *)
Definition dimmed (from : Z) (ls ls' : list (row LOCALS)) : Prop :=
  length ls' = length ls /\ forall i (l' : DynAstLocal), get_at ls' i = Some l' -> (from <= i -> lo_active l' = false) /\ (i < from -> get_at ls i = Some l').
Lemma for_each_deactivate from n s r s' :
  0 <= from -> from + Z.of_nat n = tcount (prog s) LOCALS -> for_each deactivate (seqZ from (Z.of_nat n)) s = Some (r, s') ->
  dimmed from (tab (prog s) LOCALS) (tab (prog s') LOCALS).
Proof.
  revert from s. induction n as [|n IH]; intros from s Hf Hn.
  - intros [= <- <-]. split; [done|]. intros i l [Hi Hl]%get_at_Some. split; [unfold tcount, zlen in *; lia|]. intros _. by apply get_at_Some.
  - rewrite (seqZ_cons from) by lia. cbn [for_each]. unfold mbind at 1. destruct (deactivate from s) as [[[] s1]|] eqn:E; [|done].
    apply deactivate_spec in E as (l & Hl & Etab). replace (Z.pred (Z.of_nat (S n))) with (Z.of_nat n) by lia. intros Hr.
    assert (tcount (prog s1) LOCALS = tcount (prog s) LOCALS) as Hc by (unfold tcount, zlen; by rewrite Etab, length_insert).
    destruct (IH (Z.succ from) s1 ltac:(lia) ltac:(lia) Hr) as [Hlen Hd]. rewrite Etab, length_insert in Hlen. split; [done|].
    intros i l' Hi. destruct (Hd i l' Hi) as [Hge Hlt]. split.
    + intros Hfi. destruct (Z.eq_dec i from) as [->|]; [|apply Hge; lia]. specialize (Hlt ltac:(lia)). rewrite Etab in Hlt.
      rewrite get_at_insert_eq in Hlt by (by eapply get_at_Some). by injection Hlt as <-.
    + intros Hfi. specialize (Hlt ltac:(lia)). apply get_at_Some in Hi as [Hi _].
      by rewrite Etab, get_at_insert_ne in Hlt by lia.
Qed.
End Scopes.

(** ** What checking a block keeps, reports and closes *)

(** Checking a block of statements only adds to the program and its
    reports: rows keep their places and shapes (a statement may get a converted
    expression, a local and its loop, a pattern its values, an arm its local, a
    local may leave its scope). And a scoped block takes every local that was
    declared since its start out of scope. *)
Theorem block_closes_scope {H : Host} host src garbage deep efuel fuel start count scoped s t s' :
  sema_block host src garbage deep efuel fuel start count scoped s = Some (t, s') ->
  onward s s' /\
  (scoped = true -> forall i l, tcount (prog s) LOCALS <= i -> get_at (tab (prog s') LOCALS) i = Some l -> lo_active l = false).
Proof.
  intros E. assert (Hcheck : forall id t, lasting (check_expr host src garbage deep efuel id t)) by (intros; apply lasting_check_with, lasting_ret).
  split; [by eapply lasting_block_with|]. intros ->. destruct fuel as [|n]; [done|].
  unfold sema_block in E. cbn [sema_block_with] in E. unfold sema_block_body in E. unfold mbind at 1, ast at 1 in E. unfold mbind at 1 in E.
  destruct (block_statements _ _ _ _ _ _ _ _ s) as [[t1 s1]|] eqn:E1; [|done]. unfold mbind at 1, ast at 1 in E. unfold mbind in E.
  destruct (for_each _ _ s1) as [[[] s2]|] eqn:E2; [|done]. injection E as <- <-.
  assert (Hc : tcount (prog s) LOCALS <= tcount (prog s1) LOCALS).
  { apply onward_count. eapply lasting_block_statements; [exact Hcheck|intros; by apply lasting_block_with|exact E1]. }
  intros i l Hi Hl. replace (tcount (prog s1) LOCALS - tcount (prog s) LOCALS) with (Z.of_nat (Z.to_nat (tcount (prog s1) LOCALS - tcount (prog s) LOCALS))) in E2 by lia.
  apply for_each_deactivate in E2 as [_ Hd]; [by apply (Hd i l Hl)|unfold tcount, zlen; lia|lia].
Qed.

(** A block is never checked in silence: when every row is free of the
    error type and memory is given, a run in which no field is taken of a
    pointer type without a row is the run of the code, and it ends in trouble
    (a report, the end of the budget, a full table or one that could not grow)
    or with every expression, local, parameter and type row of the program free
    of the error type. *)
Theorem block_never_silent {H : Host} {G : Grants H} host src garbage deep efuel fuel start count scoped s t s' :
  clean (prog s) -> sema_block_strict host src garbage deep efuel fuel start count scoped s = Some (t, s') ->
  sema_block host src garbage deep efuel fuel start count scoped s = Some (t, s') /\ (trouble s' \/ clean (prog s')).
Proof.
  intros Hc E. split; [by apply strict_block_is_a_run|]. destruct (safe_block_strict _ _ _ _ _ _ _ _ _ _ _ _ E Hc) as [|[]]; auto.
Qed.

(** [y := g.x + 1; return y] *)
Definition text_gxSy : DynSource := mkSource [] (str "gxSy") None [] None false false [].
Definition plain_stmt (kind : DynStmtKind) (name : DynSpan) (expression : Z) : DynAstStmt :=
  mkAstStmt kind no_span name no_span no_span DYN_TYPE_INFER expression DYN_NO_EXPR DYN_OP_NONE UINT32_MAX 0 0 0 0 0 0 0 0 false false false false.
Definition program_gxSy : DynAstProgram :=
  with_rows STATEMENTS [plain_stmt DYN_STMT_LOCAL (mkDynSpan 3 4) 3; plain_stmt DYN_STMT_RETURN no_span 4]
    (with_rows CHILDREN [0; 1] (with_rows FUNCTIONS
       [mkFn no_span (mkDynSpan 2 3) no_span no_span DYN_TYPE_I32 0 0 0 2 0 0 false false false false false false false 0 0 DYN_TYPE_INFER UINT32_MAX]
       (program_gxS (field_sum ++ [plain_expr DYN_EXPR_NAME (mkDynSpan 3 4) DYN_OP_NONE DYN_NO_EXPR DYN_NO_EXPR 0])))).
Definition state_gxSy : @St willing_host :=
  match @sema_names_build willing_host program_gxSy text_gxSy false tt with
  | Some (Some globals, _) =>
      @mkSt willing_host program_gxSy (mkSema 8 (mkNames [] []) globals 0 DYN_TYPE_I32 [] 0 empty_index) [] None tt
  | _ => state_of program_gxSy
  end.
Local Notation strict_gxSy := (@sema_block_strict willing_host first_target text_gxSy (fun _ => 7) 8 10 3 0 2 true state_gxSy).
Local Notation block_gxSy := (@sema_block willing_host first_target text_gxSy (fun _ => 7) 8 10 3 0 2 true state_gxSy).
Lemma block_gxSy_strict :
  match strict_gxSy with Some (t, s') => t && (zlen (diags s') =? 0) && (tcount (prog s') LOCALS =? 1) | None => false end = true.
Proof. vm_compute. reflexivity. Qed.
Lemma block_gxSy_checked : match block_gxSy with Some (t, s') => tcount (prog s') LOCALS =? 1 | None => false end = true.
Proof. vm_compute. reflexivity. Qed.
Lemma block_closes_scope_witness :
  match block_gxSy with
  | Some (t, s') =>
      onward state_gxSy s' /\
      forall i l, tcount (prog state_gxSy) LOCALS <= i -> get_at (tab (prog s') LOCALS) i = Some l -> lo_active l = false
  | None => False
  end.
Proof.
  pose proof block_gxSy_checked as Hrun. destruct block_gxSy as [[t s']|] eqn:E; [|discriminate].
  destruct (block_closes_scope _ _ _ _ _ _ _ _ _ _ _ _ E) as [Ho Hs]. split; [exact Ho|exact (Hs eq_refl)].
Defined.
Lemma block_never_silent_witness :
  match strict_gxSy with
  | Some (t, s') => zlen (diags s') = 0 /\ block_gxSy = Some (t, s') /\ (trouble s' \/ clean (prog s'))
  | None => False
  end.
Proof.
  pose proof block_gxSy_strict as Hrun. destruct strict_gxSy as [[t s']|] eqn:E; [|discriminate]. to_prop. split; [apply Hrun|].
  refine (@block_never_silent willing_host _ _ _ _ _ _ _ _ _ _ _ _ _ _ E); [by intros w n|].
  replace (prog state_gxSy) with program_gxSy by (unfold state_gxSy; by destruct (@sema_names_build _ _ _ _ _) as [[[] ?]|]).
  repeat (apply clean_with_rows; [repeat constructor; cbn; unfold DYN_TYPE_INFER, DYN_TYPE_ERROR; first [done|lia]|]). apply clean_empty.
Defined.
