(* ===== verification/SemaDecl.v ===== *)
(** Globals before they are checked (src/src/sema.c): which initialisers are
    compile-time expressions ([compile_time_expr]), and the order in which
    globals of inferred types are checked ([global_type_order]).

    Both are depth-first searches with an explicit stack, one frame per step of
    the work budget; the model's stack has its top first. *)

From S2P Require Import Prelude Target Source Work Ir Ast AstTypes SemaTypes SemaConst AstNames SemaFind.

Section Search.
Context {H : Host} (src : DynSource) (garbage : Z -> Z).

(** Room for [required] frames of eight bytes: the new capacity, [None] when
    memory is refused. *)
Definition grow_stack (capacity required : Z) : M (option Z) :=
  if required <=? capacity then mret (Some capacity)
  else
    let next := if capacity * 2 <? required then required else capacity * 2 in
    if (2 ^ 64 - 1) / 8 <? next then fail_memory ;; mret None
    else
      let! ok := allocate_bytes (next * 8) in
      if ok : bool then mret (Some next) else fail_memory ;; mret None.
(** The expressions of the items of an expression. *)
Fixpoint item_expressions (start : Z) (l : list Z) : M (list Z) :=
  match l with
  | [] => mret []
  | i :: l' => let! it := read ITEMS (u32 (start + i)) in let! rest := item_expressions start l' in mret (it_expression it :: rest)
  end.

(** ** Compile-time expressions *)
Inductive ConstantFrame := Visit (id : Z) | LeaveGlobal (id : Z).
Definition numeric_range (t : Z) : bool := (DYN_TYPE_I8 <=? t) && (t <=? DYN_TYPE_F64).
Definition is_literal (e : DynAstExpr) : bool :=
  existsb (is_kind e) [DYN_EXPR_FUNCTION; DYN_EXPR_INT; DYN_EXPR_FLOAT; DYN_EXPR_BOOL; DYN_EXPR_CHAR; DYN_EXPR_STRING; DYN_EXPR_NIL].
(** What one expression adds to the stack (its top first) and to the marks of
    the globals; [None] for one that is not compile-time. *)
Definition constant_expr (e : DynAstExpr) (marks : list Z) : M (option (list ConstantFrame * list Z)) :=
  let! a := ast in
  let pushes l := mret (Some (l, marks)) in
  if is_literal e then pushes []
  else if is_kind e DYN_EXPR_GLOBAL then
    let g := u32 (x_integer e) in
    if tcount a GLOBALS <=? g then mret None
    else
      let! gl := read GLOBALS g in
      if negb (gl_is_const gl) then mret None
      else
        let! mark := lift (get_at marks g) in
        if mark =? 1 then mret None
        else if mark =? 2 then pushes []
        else let! marks := lift (set_at marks g 1) in mret (Some ([Visit (gl_initializer gl); LeaveGlobal g], marks))
  else if is_kind e DYN_EXPR_CONVERT || (is_kind e DYN_EXPR_UNARY && negb (is_op e DYN_OP_ADDRESS) && negb (is_op e DYN_OP_DEREF)) then
    pushes [Visit (x_left e)]
  else if is_kind e DYN_EXPR_CAST then
    let! left_ := read EXPRESSIONS (x_left e) in
    if numeric_range (underlying_type a (x_type e)) && numeric_range (underlying_type a (x_type left_)) then pushes [Visit (x_left e)] else mret None
  else if is_kind e DYN_EXPR_BINARY then pushes [Visit (x_left e); Visit (x_right e)]
  else if is_kind e DYN_EXPR_STRUCT || is_kind e DYN_EXPR_ARRAY then
    let! items := item_expressions (x_item_start e) (seqZ 0 (x_item_count e)) in pushes (rev (map Visit items))
  else mret None.
Fixpoint constant_search (fuel : nat) (stack : list ConstantFrame) (capacity : Z) (marks : list Z) : M (bool * list Z) :=
  match fuel with
  | O => undefined
  | S n =>
      match stack with
      | [] => mret (true, marks)
      | f :: stack =>
          let! ok := step_work 1 in
          if negb ok then mret (false, marks)
          else
            match f with
            | LeaveGlobal g => let! marks := lift (set_at marks g 2) in constant_search n stack capacity marks
            | Visit id =>
                let! a := ast in
                if (id =? DYN_NO_EXPR) || (tcount a EXPRESSIONS <=? id) then mret (false, marks)
                else
                  let! e := read EXPRESSIONS id in
                  let! capacity := grow_stack capacity (zlen stack + x_item_count e + 3) in
                  match capacity with
                  | None => mret (false, marks)
                  | Some capacity =>
                      let! r := constant_expr e marks in
                      match r with
                      | None => mret (false, marks)
                      | Some (frames, marks) => constant_search n (frames ++ stack) capacity marks
                      end
                  end
            end
      end
  end.
(** The marks of a search that failed are taken back. *)
Definition compile_time_expr (fuel : nat) (id : Z) (marks : list Z) : M (bool * list Z) :=
  let! (ok, marks) := constant_search fuel [Visit id] 64 marks in
  mret (ok, if ok : bool then marks else map (fun m => if m =? 1 then 0 else m) marks).

(** [for (i = 0; i < count && dyn_work_step(1); ++i)] over marks. *)
Fixpoint while_work (f : Z -> list Z -> M (list Z)) (l : list Z) (marks : list Z) : M (list Z) :=
  match l with
  | [] => mret marks
  | i :: l' =>
      let! ok := step_work 1 in
      if negb ok then mret marks else let! marks := f i marks in while_work f l' marks
  end.
Definition check_constant_global (fuel : nat) (i : Z) (marks : list Z) : M (list Z) :=
  let! g := read GLOBALS i in
  if gl_is_const g && negb (gl_initializer g =? DYN_NO_EXPR) then
    let! (ok, marks) := compile_time_expr fuel (gl_initializer g) marks in
    (if ok : bool then mret tt else error_span (gl_name g) "constant initializer must be compile-time expression") ;; mret marks
  else mret marks.
Definition check_constant_default (fuel : nat) (i : Z) (marks : list Z) : M (list Z) :=
  let! f := read FIELDS i in
  if negb (fd_default f =? DYN_NO_EXPR) then
    let! (ok, marks) := compile_time_expr fuel (fd_default f) marks in
    (if ok : bool then mret tt else error_span (fd_name f) "struct field default must be compile-time expression") ;; mret marks
  else mret marks.
(** [false] is memory that was refused. *)
Definition check_constants (fuel : nat) : M bool :=
  let! a := ast in
  let n := tcount a GLOBALS in
  let! ok := allocate_bytes (if n =? 0 then 1 else n) in
  if negb ok then fail_memory ;; mret false
  else
    let! marks := while_work (check_constant_global fuel) (seqZ 0 n) (replicate (Z.to_nat n) 0) in
    let! _ := while_work (check_constant_default fuel) (seqZ 0 (tcount a FIELDS)) marks in mret true.

(** ** The order of inferred globals *)
Inductive GlobalTypeFrame := TypeExpr (id : Z) | TypeEnter (id : Z) | TypeLeave (id : Z).
(** The inferred global that an expression names. *)
Definition inferred_name (e : DynAstExpr) : M (option Z) :=
  let! named := (if is_kind e DYN_EXPR_NAME then mret true
                 else if is_kind e DYN_EXPR_CALL then let! f := sema_find_function src garbage (x_span e) in mret (f =? UINT32_MAX)
                 else mret false) in
  if negb named then mret None
  else
    let! g := find_global_ src (x_span e) in
    if g =? UINT32_MAX then mret None
    else let! gl := read GLOBALS g in mret (if gl_type gl =? DYN_TYPE_INFER then Some g else None).
Record TypeOrder := mkTypeOrder { to_capacity : Z; to_state : list Z; to_order : list Z }.
(** What one frame, popped from above [count] others, does: the frames it
    pushes (the top first) and the new state; [None] is a search that failed. *)
Definition type_frame (f : GlobalTypeFrame) (count : Z) (t : TypeOrder) : M (option (list GlobalTypeFrame * TypeOrder)) :=
  let! a := ast in
  match f with
  | TypeLeave g =>
      let! st := lift (set_at (to_state t) g 2) in
      if tcount a GLOBALS <=? zlen (to_order t) then undefined
      else mret (Some ([], mkTypeOrder (to_capacity t) st (to_order t ++ [g])))
  | TypeEnter g =>
      let! st := lift (get_at (to_state t) g) in
      if st =? 2 then mret (Some ([], t))
      else if st =? 1 then
        let! gl := read GLOBALS g in
        error_span (gl_name gl) "cyclic inferred global type dependency" ;; mret None
      else
        let! capacity := grow_stack (to_capacity t) (count + 2) in
        match capacity with
        | None => mret None
        | Some capacity =>
            let! state := lift (set_at (to_state t) g 1) in
            let! gl := read GLOBALS g in
            mret (Some ([TypeExpr (gl_initializer gl); TypeLeave g], mkTypeOrder capacity state (to_order t)))
        end
  | TypeExpr id =>
      if (id =? DYN_NO_EXPR) || (tcount a EXPRESSIONS <=? id) then mret (Some ([], t))
      else
        let! e := read EXPRESSIONS id in
        let! capacity := grow_stack (to_capacity t) (count + x_item_count e + 3) in
        match capacity with
        | None => mret None
        | Some capacity =>
            let! g := inferred_name e in
            let! items := item_expressions (x_item_start e) (seqZ 0 (x_item_count e)) in
            mret (Some (rev (map TypeExpr items) ++ TypeExpr (x_right e) :: TypeExpr (x_left e) :: match g with Some g => [TypeEnter g] | None => [] end,
                        mkTypeOrder capacity (to_state t) (to_order t)))
        end
  end.
Fixpoint type_loop (fuel : nat) (stack : list GlobalTypeFrame) (t : TypeOrder) : M (option TypeOrder) :=
  match fuel with
  | O => undefined
  | S n =>
      match stack with
      | [] => mret (Some t)
      | f :: stack =>
          let! ok := step_work 1 in
          if negb ok then mret None
          else
            let! r := type_frame f (zlen stack) t in
            match r with None => mret None | Some (frames, t) => type_loop n (frames ++ stack) t end
      end
  end.
Fixpoint type_roots (fuel : nat) (roots : list Z) (t : TypeOrder) : M (option TypeOrder) :=
  match roots with
  | [] => mret (Some t)
  | root :: roots =>
      let! st := lift (get_at (to_state t) root) in
      if st =? 2 then type_roots fuel roots t
      else
        let! ready := (if negb (to_capacity t =? 0) then mret (Some t)
                       else
                         let! ok := allocate_bytes (64 * 8) in
                         if ok : bool then mret (Some (mkTypeOrder 64 (to_state t) (to_order t))) else fail_memory ;; mret None) in
        match ready with
        | None => mret None
        | Some t =>
            let! r := type_loop fuel [TypeEnter root] t in
            match r with Some t => type_roots fuel roots t | None => mret None end
        end
  end.
Definition global_type_order (fuel : nat) : M (option (list Z)) :=
  let! a := ast in
  let n := tcount a GLOBALS in
  let! ok1 := allocate_bytes ((if n =? 0 then 1 else n) * 4) in
  let! ok2 := allocate_bytes (if n =? 0 then 1 else n) in
  if negb ok1 || negb ok2 then fail_memory ;; mret None
  else
    let! r := type_roots fuel (seqZ 0 n) (mkTypeOrder 0 (replicate (Z.to_nat n) 0) []) in
    mret (match r with Some t => Some (to_order t) | None => None end).
End Search.
