(* ===== verification/SemaDeclSpec.v ===== *)
(** The searches of [SemaDecl] against what they look for: expressions that
    are compile-time, and the globals whose types an initialiser needs. *)

From S2P Require Import Prelude Target Source Work Ir Ast AstTypes SemaTypes SemaConst AstNames AstGeneric AstLiteral SemaFind SemaDecl.
From S2P Require Import SemaExpr SemaExprSpec.
From Stdlib Require Import Floats.SpecFloat.

(** ** Compile-time expressions

    The parts that have to be compile-time for an expression to be; [None]
    for an expression that never is. *)
Definition initializer_of (a : DynAstProgram) (g : Z) : Z :=
  match get_at (tab a GLOBALS) g with Some gl => gl_initializer gl | None => DYN_NO_EXPR end.
Definition item_values (a : DynAstProgram) (e : DynAstExpr) : list Z :=
  map (fun i => match get_at (tab a ITEMS) (u32 (x_item_start e + i)) with Some it => it_expression it | None => DYN_NO_EXPR end)
    (seqZ 0 (x_item_count e)).
Definition constant_parts (a : DynAstProgram) (e : DynAstExpr) : option (list Z) :=
  if is_literal e then Some []
  else if is_kind e DYN_EXPR_GLOBAL then
    match get_at (tab a GLOBALS) (u32 (x_integer e)) with
    | Some gl => if gl_is_const gl then Some [gl_initializer gl] else None
    | None => None
    end
  else if is_kind e DYN_EXPR_CONVERT || (is_kind e DYN_EXPR_UNARY && negb (is_op e DYN_OP_ADDRESS) && negb (is_op e DYN_OP_DEREF)) then
    Some [x_left e]
  else if is_kind e DYN_EXPR_CAST then
    match get_at (tab a EXPRESSIONS) (x_left e) with
    | Some l => if numeric_range (underlying_type a (x_type e)) && numeric_range (underlying_type a (x_type l)) then Some [x_left e] else None
    | None => None
    end
  else if is_kind e DYN_EXPR_BINARY then Some [x_left e; x_right e]
  else if is_kind e DYN_EXPR_STRUCT || is_kind e DYN_EXPR_ARRAY then Some (item_values a e)
  else None.
(** Compile-time by a derivation of a height, and by any. *)
Fixpoint constant_within (a : DynAstProgram) (n : nat) (id : Z) : Prop :=
  match n with
  | O => False
  | S n => id <> DYN_NO_EXPR /\ exists e parts, get_at (tab a EXPRESSIONS) id = Some e /\ constant_parts a e = Some parts /\ Forall (constant_within a n) parts
  end.
Definition constant (a : DynAstProgram) (id : Z) : Prop := exists n, constant_within a n id.

Lemma constant_more a n : forall m id, (n <= m)%nat -> constant_within a n id -> constant_within a m id.
Proof.
  induction n as [|n IH]; intros [|m] id Hle Hn; try done; try lia. destruct Hn as (Hid & e & parts & He & Hp & HF).
  split; [done|]. exists e, parts. split; [done|]. split; [done|]. eapply Forall_impl; [exact HF|]. intros x. apply IH. lia.
Qed.
Lemma constant_all a l : Forall (constant a) l -> exists n, Forall (constant_within a n) l.
Proof.
  induction 1 as [|x l [n Hn] _ [m Hm]]; [exists 0%nat; constructor|]. exists (n + m)%nat. constructor; [eapply constant_more; [|done]; lia|].
  eapply Forall_impl; [exact Hm|]. intros y. apply constant_more. lia.
Qed.
Lemma constant_iff a id e : id <> DYN_NO_EXPR -> get_at (tab a EXPRESSIONS) id = Some e ->
  constant a id <-> exists parts, constant_parts a e = Some parts /\ Forall (constant a) parts.
Proof.
  intros Hid He. split.
  - intros [[|n] Hn]; [done|]. destruct Hn as (_ & e' & parts & He' & Hp & HF). rewrite He in He'. injection He' as <-. exists parts. split; [done|].
    eapply Forall_impl; [exact HF|]. intros x Hx. by exists n.
  - intros (parts & Hp & HF). apply constant_all in HF as [n Hn]. exists (S n). split; [done|]. by exists e, parts.
Qed.
(** [x] needs no higher derivation than [y]. *)
Definition not_higher (a : DynAstProgram) (x y : Z) : Prop := forall n, constant_within a n y -> constant_within a n x.
Lemma part_not_higher a id e parts x y : get_at (tab a EXPRESSIONS) id = Some e -> constant_parts a e = Some parts -> x ∈ parts ->
  not_higher a id y -> not_higher a x y.
Proof.
  intros He Hp Hx Hid n Hn. apply Hid in Hn. destruct n as [|n]; [done|]. destruct Hn as (_ & e' & parts' & He' & Hp' & HF).
  rewrite He in He'. injection He' as <-. rewrite Hp in Hp'. injection Hp' as <-. rewrite Forall_forall in HF. eapply constant_more; [|by apply HF]. lia.
Qed.
(** Nothing is part of an expression that needs no higher derivation. *)
Lemma no_cycle a id e y : get_at (tab a EXPRESSIONS) id = Some e -> constant_parts a e = Some [y] -> not_higher a id y -> ~ constant a id.
Proof.
  intros He Hp Hid [n Hn]. induction n as [|n IH]; [done|]. destruct Hn as (_ & e' & parts' & He' & Hp' & HF).
  rewrite He in He'. injection He' as <-. rewrite Hp in Hp'. injection Hp' as <-. apply Forall_cons in HF as [HF _]. by apply IH, Hid.
Qed.

(** Why a search gives up without an answer. *)
Definition halted {H : Host} (s : St) : Prop := stopped (work s) \/ allocation_failed (prog s) = true.

Section ConstantSearch.
Context {H : Host} (a : DynAstProgram).

Lemma grow_stack_spec capacity required s r s' : prog s = a -> grow_stack capacity required s = Some (r, s') ->
  match r with Some _ => prog s' = a /\ work s' = work s /\ diags s' = diags s | None => halted s' /\ same_rows a (prog s') end.
Proof.
  intros Ha E. unfold grow_stack in E. destruct (required <=? capacity); [by injection E as <- <-|].
  destruct (_ <? _); [injection E as <- <-; split; [by right|]; intros k; by subst|].
  unfold mbind, allocate_bytes in E. destruct (allocate (world s) _) as [[] w]; injection E as <- <-; [done|].
  split; [by right|]. intros k. by subst.
Qed.
Lemma item_expressions_spec start l : forall s r s', item_expressions start l s = Some (r, s') -> prog s = a ->
  s' = s /\ r = map (fun i => match get_at (tab a ITEMS) (u32 (start + i)) with Some it => it_expression it | None => DYN_NO_EXPR end) l.
Proof.
  induction l as [|i l IH]; intros s r s' E Ha; cbn [item_expressions] in E; [by injection E as <- <-|].
  unfold mbind, read in E. rewrite Ha in E. cbn [map]. destruct (get_at (tab a ITEMS) (u32 (start + i))) as [it|]; [|done].
  destruct (item_expressions start l s) as [[rest s1]|] eqn:E1; [|done]. injection E as <- <-. by destruct (IH _ _ _ E1 Ha) as [-> ->].
Qed.

(** What one expression does to the search. *)
Inductive pushed (e : DynAstExpr) (marks : list Z) : option (list ConstantFrame * list Z) -> Prop :=
| pushed_never : constant_parts a e = None -> pushed e marks None
| pushed_cycle g : constant_parts a e = Some [initializer_of a g] -> get_at marks g = Some 1 -> pushed e marks None
| pushed_known g : constant_parts a e = Some [initializer_of a g] -> get_at marks g = Some 2 -> pushed e marks (Some ([], marks))
| pushed_global g marks' m : constant_parts a e = Some [initializer_of a g] -> get_at marks g = Some m -> m <> 1 -> m <> 2 ->
    set_at marks g 1 = Some marks' -> pushed e marks (Some ([Visit (initializer_of a g); LeaveGlobal g], marks'))
| pushed_parts l parts : constant_parts a e = Some parts -> Permutation l parts -> pushed e marks (Some (map Visit l, marks)).
Lemma constant_expr_spec e marks s r s' : prog s = a -> constant_expr e marks s = Some (r, s') -> s' = s /\ pushed e marks r.
Proof.
  intros Ha E. unfold constant_expr, mbind, ast in E. rewrite Ha in E. cbv zeta in E.
  assert (Hparts : forall l parts, constant_parts a e = Some parts -> Permutation l parts -> pushed e marks (Some (map Visit l, marks))) by (intros; by eapply pushed_parts).
  unfold constant_parts in Hparts. destruct (is_literal e) eqn:El.
  { injection E as <- <-. split; [done|]. by apply (Hparts [] []). }
  destruct (is_kind e DYN_EXPR_GLOBAL) eqn:Eg.
  { clear Hparts. assert (Hp : constant_parts a e = match get_at (tab a GLOBALS) (u32 (x_integer e)) with
      | Some gl => if gl_is_const gl then Some [gl_initializer gl] else None | None => None end) by (unfold constant_parts; by rewrite El, Eg).
    set (g := u32 (x_integer e)) in *. destruct (tcount a GLOBALS <=? g) eqn:Et.
    { injection E as <- <-. split; [done|]. apply pushed_never. rewrite Hp. unfold tcount, zlen in Et. to_prop. unfold get_at. by rewrite (proj2 (Z.ltb_ge g _)), andb_false_r by lia. }
    unfold read, lift in E. rewrite Ha in E. destruct (get_at (tab a GLOBALS) g) as [gl|] eqn:Egl; [|done].
    destruct (gl_is_const gl) eqn:Ec; cbn [negb] in E; [|injection E as <- <-; split; [done|]; by apply pushed_never].
    assert (constant_parts a e = Some [initializer_of a g]) as Hp' by (unfold initializer_of; by rewrite Hp, Egl).
    destruct (get_at marks g) as [m|] eqn:Em; [|done]. destruct (Z.eqb_spec m 1) as [->|H1]; [injection E as <- <-; split; [done|]; by eapply pushed_cycle|].
    destruct (Z.eqb_spec m 2) as [->|H2]; [injection E as <- <-; split; [done|]; by eapply pushed_known|].
    destruct (set_at marks g 1) as [marks'|] eqn:Es; [|done]. injection E as <- <-. split; [done|].
    replace (gl_initializer gl) with (initializer_of a g) by (unfold initializer_of; by rewrite Egl). by eapply pushed_global. }
  destruct (is_kind e DYN_EXPR_CONVERT || _) eqn:Ev; [injection E as <- <-; split; [done|]; by apply (Hparts [x_left e] [x_left e])|].
  destruct (is_kind e DYN_EXPR_CAST) eqn:Eca.
  { unfold read in E. rewrite Ha in E. destruct (get_at (tab a EXPRESSIONS) (x_left e)) as [l|] eqn:Ele; [|done].
    destruct (numeric_range _ && numeric_range _) eqn:En; injection E as <- <-; (split; [done|]); [by apply (Hparts [x_left e] [x_left e])|]. apply pushed_never.
    unfold constant_parts. by rewrite El, Eg, Ev, Eca, Ele, En. }
  destruct (is_kind e DYN_EXPR_BINARY) eqn:Eb; [injection E as <- <-; split; [done|]; by apply (Hparts [x_left e; x_right e] [x_left e; x_right e])|].
  destruct (is_kind e DYN_EXPR_STRUCT || is_kind e DYN_EXPR_ARRAY) eqn:Es.
  { destruct (item_expressions _ _ s) as [[items s1]|] eqn:Ei; [|done]. injection E as <- <-. apply item_expressions_spec in Ei as [-> ->]; [|done].
    split; [done|]. rewrite <- map_rev. eapply Hparts; [done|]. symmetry. apply Permutation_rev. }
  injection E as <- <-. split; [done|]. apply pushed_never. unfold constant_parts. by rewrite El, Eg, Ev, Eca, Eb, Es.
Qed.

(** *** The invariant of the search

    [sound]: once the visits above are compile-time, so is the global that is
    left, and in the end the root. [bounded]: a visit needs no higher derivation
    than the globals below it, which are being searched. *)
Context (root : Z).
Fixpoint sound (stack : list ConstantFrame) (above : Prop) : Prop :=
  match stack with
  | [] => above -> constant a root
  | Visit id :: stack => sound stack (above /\ constant a id)
  | LeaveGlobal g :: stack => (above -> constant a (initializer_of a g)) /\ sound stack above
  end.
Fixpoint bounded (stack : list ConstantFrame) : Prop :=
  match stack with
  | [] => True
  | Visit id :: stack => (forall g, LeaveGlobal g ∈ stack -> not_higher a id (initializer_of a g)) /\ bounded stack
  | LeaveGlobal _ :: stack => bounded stack
  end.
Record searching (marks : list Z) (stack : list ConstantFrame) : Prop := {
  sr_sound : sound stack True;
  sr_bounded : bounded stack;
  sr_entered g : get_at marks g = Some 1 -> LeaveGlobal g ∈ stack;
  sr_known g : get_at marks g = Some 2 -> constant a (initializer_of a g);
  sr_complete : constant a root -> forall id, Visit id ∈ stack -> constant a id }.

Lemma sound_mono stack : forall P Q : Prop, (Q -> P) -> sound stack P -> sound stack Q.
Proof. induction stack as [|[id|g] stack IH]; intros P Q HQP; cbn [sound]; [tauto|apply IH; tauto|]. intros [? ?]. split; [tauto|by eapply IH]. Qed.
Lemma sound_visits l stack : forall P, sound stack (P /\ Forall (constant a) l) -> sound (map Visit l ++ stack) P.
Proof.
  induction l as [|x l IH]; intros P Hs; cbn [map app sound]; [eapply sound_mono; [|exact Hs]; auto|].
  apply IH. eapply sound_mono; [|exact Hs]. intros [[HP Hx] Hl]. split; [done|by constructor].
Qed.
Lemma bounded_visits l stack : (forall id g, id ∈ l -> LeaveGlobal g ∈ stack -> not_higher a id (initializer_of a g)) -> bounded stack ->
  bounded (map Visit l ++ stack).
Proof.
  intros Hl Hs. induction l as [|x l IH]; cbn [map app bounded]; [done|]. split; [|apply IH; intros; apply Hl; [by right|done]].
  intros g Hg. apply Hl; [by left|]. rewrite elem_of_app, list_elem_of_fmap in Hg. by destruct Hg as [(? & ? & ?)|].
Qed.
Lemma visit_in l stack id : Visit id ∈ map Visit l ++ stack -> id ∈ l \/ Visit id ∈ stack.
Proof. rewrite elem_of_app, list_elem_of_fmap. intros [(y & [= ->] & Hy)|]; auto. Qed.

(** Steps that keep it. *)
Lemma searching_leave g marks marks' stack : searching marks (LeaveGlobal g :: stack) -> set_at marks g 2 = Some marks' -> searching marks' stack.
Proof.
  intros [[Hg Hs] Hb He Hk Hc] E. pose proof (fun q => set_at_get _ _ _ _ q E) as Hget. split; [done|done|..].
  - intros q. rewrite Hget. destruct (Z.eqb_spec q g) as [->|Hne]; [done|]. intros Hq. apply He, elem_of_cons in Hq as [[= ->]|]; done.
  - intros q. rewrite Hget. destruct (Z.eqb_spec q g) as [->|Hne]; [auto|apply Hk].
  - intros Hr id Hid. apply Hc; [done|by right].
Qed.
Lemma searching_parts marks id e parts l stack : id <> DYN_NO_EXPR -> get_at (tab a EXPRESSIONS) id = Some e -> constant_parts a e = Some parts ->
  Permutation l parts -> searching marks (Visit id :: stack) -> searching marks (map Visit l ++ stack).
Proof.
  intros Hid He Hp Hl [Hs [Hbi Hb] Hen Hk Hc]. pose proof (constant_iff a id e Hid He) as Hiff. split.
  - apply sound_visits. eapply sound_mono; [|exact Hs]. intros [_ HF]. split; [done|]. apply Hiff. exists parts. split; [done|]. by rewrite <- Hl.
  - apply bounded_visits; [|done]. intros x g Hx Hg. eapply part_not_higher; [done..| |by apply Hbi]. by rewrite <- Hl.
  - intros g Hg. apply elem_of_app. right. apply Hen, elem_of_cons in Hg as [|]; done.
  - done.
  - intros Hr x [Hx|Hx]%visit_in; [|apply Hc; [done|by right]].
    assert (constant a id) as (parts' & Hp' & HF)%Hiff by (apply Hc; [done|by left]). rewrite Hp in Hp'. injection Hp' as <-.
    rewrite Forall_forall in HF. apply HF. by rewrite <- Hl.
Qed.
Lemma searching_global marks marks' id e g m stack : id <> DYN_NO_EXPR -> get_at (tab a EXPRESSIONS) id = Some e ->
  constant_parts a e = Some [initializer_of a g] -> get_at marks g = Some m -> m <> 2 -> set_at marks g 1 = Some marks' ->
  searching marks (Visit id :: stack) -> searching marks' (Visit (initializer_of a g) :: LeaveGlobal g :: stack).
Proof.
  intros Hid He Hp Hm Hm2 E Hsr. pose proof (searching_parts marks id e _ [initializer_of a g] stack Hid He Hp (Permutation_refl _) Hsr) as Hsr'.
  destruct Hsr' as [Hs [Hbi Hb] Hen Hk Hc]. pose proof (fun q => set_at_get _ _ _ _ q E) as Hget. split.
  - cbn [map app sound] in *. split; [tauto|]. exact Hs.
  - cbn [bounded]. split; [|done]. intros h [[= ->]|Hh]%elem_of_cons; [by intros n|by apply Hbi].
  - intros q. rewrite Hget. destruct (Z.eqb_spec q g) as [->|Hne]; [intros _; right; by left|]. intros Hq.
    apply Hen in Hq as [[=]|Hq]%elem_of_cons. by right; right.
  - intros q. rewrite Hget. destruct (Z.eqb_spec q g) as [->|Hne]; [done|apply Hk].
  - intros Hr x [[= ->]|[[=]|Hx]%elem_of_cons]%elem_of_cons; apply Hc; auto; [by left|by right].
Qed.

(** A mark of a global that is being searched is a cycle. *)
Lemma searching_cycle marks id e g stack : id <> DYN_NO_EXPR -> get_at (tab a EXPRESSIONS) id = Some e ->
  constant_parts a e = Some [initializer_of a g] -> get_at marks g = Some 1 -> searching marks (Visit id :: stack) -> ~ constant a root.
Proof.
  intros Hid He Hp Hm [_ [Hbi _] Hen _ Hc] Hr. apply Hen in Hm as [[=]|Hm]%elem_of_cons. refine (no_cycle a id e _ He Hp (Hbi _ Hm) _).
  apply Hc; [done|by left].
Qed.
Lemma searching_never marks id stack : searching marks (Visit id :: stack) -> ~ constant a id -> ~ constant a root.
Proof. intros [_ _ _ _ Hc] Hn Hr. apply Hn, Hc; [done|by left]. Qed.

Definition answered (ok : bool) (marks' : list Z) (s' : St) : Prop :=
  same_rows a (prog s') /\ (forall g, get_at marks' g = Some 2 -> constant a (initializer_of a g)) /\
  if ok then constant a root /\ (forall g, get_at marks' g <> Some 1) else constant a root -> halted s'.
Lemma answered_no marks stack s : prog s = a -> searching marks stack -> ~ constant a root -> answered false marks s.
Proof. intros Ha Hsr Hn. split; [intros k; by rewrite Ha|]. split; [apply Hsr|done]. Qed.
Lemma step_work_spec n s ok s' : step_work n s = Some (ok, s') -> prog s' = prog s /\ diags s' = diags s /\ (ok = false -> stopped (work s')).
Proof.
  unfold step_work. destruct (dyn_work_step _ _ _) as [[b w] world'] eqn:E. intros [= <- <-]. apply dyn_work_step_stops in E as [_ E]. done.
Qed.
Lemma constant_search_spec fuel : forall stack capacity marks s ok marks' s', prog s = a -> searching marks stack ->
  constant_search fuel stack capacity marks s = Some ((ok, marks'), s') -> answered ok marks' s'.
Proof.
  induction fuel as [|fuel IH]; intros stack capacity marks s ok marks' s' Ha Hsr E; [done|]. cbn [constant_search] in E.
  destruct stack as [|f stack].
  { injection E as <- <- <-. split; [intros k; by rewrite Ha|]. destruct Hsr as [Hs _ Hen Hk _]. split; [done|]. split; [by apply Hs|].
    intros g Hg. by apply Hen, not_elem_of_nil in Hg. }
  unfold mbind at 1 in E. destruct (step_work 1 s) as [[b s1]|] eqn:Ew; [|done]. apply step_work_spec in Ew as (Ha1 & _ & Hstop). rewrite Ha in Ha1.
  destruct b; cbn [negb] in E.
  2: { injection E as <- <- <-. split; [intros k; by rewrite Ha1|]. split; [apply Hsr|]. intros _. left. auto. }
  destruct f as [id|g].
  2: { unfold mbind, lift in E. destruct (set_at marks g 2) as [marks1|] eqn:Es; [|done]. eapply IH; [exact Ha1| |exact E]. by eapply searching_leave. }
  unfold mbind at 1, ast at 1 in E. rewrite Ha1 in E.
  destruct ((id =? DYN_NO_EXPR) || (tcount a EXPRESSIONS <=? id)) eqn:Eid.
  { injection E as <- <- <-. eapply answered_no; [done..|]. eapply searching_never; [done|]. intros [[|n] Hn]; [done|].
    destruct Hn as (Hn & e & _ & He & _). apply get_at_Some in He as [He _]. apply orb_prop in Eid. unfold tcount, zlen in Eid. lia. }
  unfold mbind at 1, read in E. rewrite Ha1 in E. destruct (get_at (tab a EXPRESSIONS) id) as [e|] eqn:He; [|done].
  assert (id <> DYN_NO_EXPR) as Hid by (apply orb_false_iff in Eid as [Eid _]; by apply Z.eqb_neq).
  unfold mbind at 1 in E. destruct (grow_stack _ _ s1) as [[c s2]|] eqn:Eg; [|done]. apply grow_stack_spec in Eg; [|done].
  destruct c as [c|].
  2: { injection E as <- <- <-. destruct Eg as [Hh Hrows]. split; [done|]. split; [apply Hsr|done]. }
  destruct Eg as (Ha2 & _ & _).
  unfold mbind at 1 in E. destruct (constant_expr e marks s2) as [[r s3]|] eqn:Ec; [|done]. apply constant_expr_spec in Ec as [-> Hp]; [|done].
  destruct Hp as [Hnone|g Hp Hm|g Hp Hm|g marks1 m Hp Hm Hm1 Hm2 Es|l parts Hp Hl].
  - injection E as <- <- <-. eapply answered_no; [done..|]. eapply searching_never; [done|]. rewrite constant_iff by done. intros (? & ? & _). congruence.
  - injection E as <- <- <-. eapply answered_no; [done..|]. by eapply searching_cycle.
  - eapply IH; [exact Ha2| |exact E]. destruct Hsr as [Hs [_ Hb] Hen Hk Hc]. split; [|done|..|done|].
    + eapply sound_mono; [|exact Hs]. intros _. split; [done|]. apply (constant_iff a id e Hid He). exists [initializer_of a g]. split; [done|].
      constructor; [by apply Hk|constructor].
    + intros q Hq. by apply Hen in Hq as [[=]|Hq]%elem_of_cons.
    + intros Hr x Hx. apply Hc; [done|by right].
  - eapply IH; [exact Ha2| |exact E]. by eapply searching_global.
  - eapply IH; [exact Ha2| |exact E]. by eapply searching_parts.
Qed.
End ConstantSearch.

(** Marks that a search may start from: those of globals that are known. *)
Definition known_marks (a : DynAstProgram) (marks : list Z) : Prop :=
  forall g m, get_at marks g = Some m -> m <> 1 /\ (m = 2 -> constant a (initializer_of a g)).


(** *** The search ends *)

(** Rows that refer to rows: what building the program ensures. *)
Definition items_in (a : DynAstProgram) (e : DynAstExpr) : bool :=
  forallb (fun i => match get_at (tab a ITEMS) (u32 (x_item_start e + i)) with Some it => 0 <=? it_expression it | None => false end)
    (seqZ 0 (x_item_count e)).
Definition expr_in (a : DynAstProgram) (e : DynAstExpr) : bool :=
  (0 <=? x_left e) && (0 <=? x_right e) && items_in a e && implb (is_kind e DYN_EXPR_CAST) (x_left e <? tcount a EXPRESSIONS).
Definition searchable (a : DynAstProgram) : bool :=
  forallb (expr_in a) (tab a EXPRESSIONS) && forallb (fun gl => 0 <=? gl_initializer gl) (tab a GLOBALS).

Section Ends.
Context {H : Host} (a : DynAstProgram) (Hrows : searchable a = true).

Lemma expr_in_row id e : get_at (tab a EXPRESSIONS) id = Some e -> expr_in a e = true.
Proof.
  intros [_ He]%get_at_Some. unfold searchable in Hrows. apply andb_prop in Hrows as [Hr _]. rewrite forallb_forall in Hr.
  by apply list_elem_of_lookup_2, list_elem_of_In, Hr in He.
Qed.
Lemma initializer_in g : get_at (tab a GLOBALS) g <> None -> 0 <= initializer_of a g.
Proof.
  unfold initializer_of. destruct (get_at (tab a GLOBALS) g) as [gl|] eqn:E; [intros _|done]. apply get_at_Some in E as [_ E].
  unfold searchable in Hrows. apply andb_prop in Hrows as [_ Hr]. rewrite forallb_forall in Hr.
  apply list_elem_of_lookup_2, list_elem_of_In, Hr in E. lia.
Qed.
Lemma item_expressions_total start l s : prog s = a ->
  forallb (fun i => match get_at (tab a ITEMS) (u32 (start + i)) with Some it => 0 <=? it_expression it | None => false end) l = true ->
  exists items, item_expressions start l s = Some (items, s) /\ Forall (fun x => 0 <= x) items.
Proof.
  intros Ha. induction l as [|i l IH]; cbn [forallb item_expressions]; [eexists; split; [done|constructor]|]. intros [Hi Hl]%andb_prop.
  unfold mbind, read. rewrite Ha. destruct (get_at (tab a ITEMS) _) as [it|]; [|done]. destruct (IH Hl) as (items & -> & HF).
  eexists. split; [done|]. constructor; [lia|done].
Qed.
Definition frame_in (marks : list Z) (f : ConstantFrame) : Prop :=
  match f with Visit id => 0 <= id | LeaveGlobal g => 0 <= g < zlen marks end.
Lemma constant_expr_total id e marks s : prog s = a -> get_at (tab a EXPRESSIONS) id = Some e -> zlen marks = tcount a GLOBALS ->
  exists r, constant_expr e marks s = Some (r, s) /\
    match r with Some (frames, marks') => zlen marks' = zlen marks /\ Forall (frame_in marks') frames | None => True end.
Proof.
  intros Ha He Hm. apply expr_in_row in He. unfold expr_in in He. rewrite !andb_true_iff in He. destruct He as [[[Hl Hr] Hi] Hcast].
  apply Z.leb_le in Hl, Hr. assert (Hvisits : forall l, Forall (fun x => 0 <= x) l -> Forall (frame_in marks) (map Visit l)) by (intros; by apply Forall_map).
  unfold constant_expr, mbind, ast. rewrite Ha. cbv zeta. destruct (is_literal e); [by eexists|].
  destruct (is_kind e DYN_EXPR_GLOBAL).
  { destruct (Z.leb_spec (tcount a GLOBALS) (u32 (x_integer e))) as [|Hlt]; [by eexists|]. pose proof (u32_range (x_integer e)) as Hu.
    set (g := u32 (x_integer e)) in *. unfold read, lift. rewrite Ha. destruct (get_at_is_Some (tab a GLOBALS) g) as [gl Hgl]; [unfold tcount, zlen in *; lia|].
    rewrite Hgl. destruct (negb (gl_is_const gl)); [by eexists|]. destruct (get_at_is_Some marks g) as [m ->]; [unfold zlen in *; lia|].
    destruct (m =? 1); [by eexists|]. destruct (m =? 2); [by eexists|]. rewrite set_at_insert by (unfold zlen in *; lia). eexists. split; [done|].
    unfold zlen in *. rewrite length_insert. split; [done|]. pose proof (initializer_in g) as Hinit. unfold initializer_of in Hinit. rewrite Hgl in Hinit.
    repeat constructor; cbn [frame_in]; [by apply Hinit|lia|]. unfold zlen. rewrite length_insert. lia. }
  destruct (is_kind e DYN_EXPR_CONVERT || _); [by eexists; repeat constructor|]. destruct (is_kind e DYN_EXPR_CAST).
  { unfold read. rewrite Ha. apply Z.ltb_lt in Hcast. destruct (get_at_is_Some (tab a EXPRESSIONS) (x_left e)) as [l ->]; [unfold tcount, zlen in *; lia|].
    destruct (_ && _); by eexists; repeat constructor. }
  destruct (is_kind e DYN_EXPR_BINARY); [by eexists; repeat constructor|]. destruct (_ || _); [|by eexists].
  destruct (item_expressions_total (x_item_start e) (seqZ 0 (x_item_count e)) s Ha Hi) as (items & -> & HF). eexists. split; [done|]. split; [done|].
  by apply Forall_rev, Hvisits.
Qed.
Lemma grow_stack_total capacity required s : exists r s', grow_stack capacity required s = Some (r, s') /\ work s' = work s /\
  diags s' = diags s /\ (is_Some r -> prog s' = prog s).
Proof.
  unfold grow_stack. destruct (_ <=? _); [by do 2 eexists|]. destruct (_ <? _); [do 2 eexists; repeat (split; [done|]); by intros [? ?]|].
  unfold mbind, allocate_bytes. destruct (allocate (world s) _) as [[] w]; [by do 2 eexists|]. do 2 eexists. repeat (split; [done|]). by intros [? ?].
Qed.
(** A step of a budget: one unit less, or the end. *)
Lemma step_work_total s w : work s = Some w -> 0 <= remaining w -> exists ok s' v, step_work 1 s = Some (ok, s') /\ prog s' = prog s /\
  diags s' = diags s /\ work s' = Some v /\ 0 <= remaining v <= remaining w /\ (ok = true -> remaining v = remaining w - 1).
Proof.
  intros Hw Hr. unfold step_work. rewrite Hw. destruct (dyn_work_step (Some w) 1 (world s)) as [[ok w'] world'] eqn:E.
  apply work_step_spec in E as (v & -> & Hv & _ & Hok); [|done..]. exists ok. do 2 eexists. repeat (split; [done|]).
  intros ->. by apply Hok.
Qed.
Lemma constant_search_total fuel : forall stack capacity marks s w, prog s = a -> work s = Some w -> 0 <= remaining w -> remaining w + 1 < Z.of_nat fuel ->
  zlen marks = tcount a GLOBALS -> Forall (frame_in marks) stack ->
  exists ok marks' s' v, constant_search fuel stack capacity marks s = Some ((ok, marks'), s') /\ zlen marks' = zlen marks /\ diags s' = diags s /\
    work s' = Some v /\ 0 <= remaining v <= remaining w.
Proof.
  induction fuel as [|fuel IH]; intros stack capacity marks s w Ha Hw Hr Hf Hm HF; [lia|]. cbn [constant_search].
  destruct stack as [|f stack]; [do 3 eexists; exists w; repeat (split; [done|]); lia|]. apply Forall_cons in HF as [Hfr HF].
  destruct (step_work_total s w Hw Hr) as (ok & s1 & v & Es & Ha1 & Hd1 & Hw1 & Hv & Hok). unfold mbind at 1. rewrite Es. rewrite Ha in Ha1.
  destruct ok; cbn [negb]; [|do 3 eexists; exists v; repeat (split; [done|]); lia]. specialize (Hok eq_refl).
  assert (remaining v + 1 < Z.of_nat fuel) as Hfuel by lia.
  destruct f as [id|g].
  2: { cbn [frame_in] in Hfr. unfold mbind, lift. rewrite set_at_insert by (unfold zlen in *; lia).
    assert (zlen (<[Z.to_nat g := 2]> marks) = zlen marks) as Hlen by (unfold zlen; by rewrite length_insert).
    destruct (IH stack capacity (<[Z.to_nat g := 2]> marks) s1 v) as (ok & marks' & s' & x & E & HL & Hd & Hx & Hxv); [done..|lia|lia|lia| |].
    - eapply Forall_impl; [exact HF|]. intros [y|y]; cbn [frame_in]; [done|lia].
    - exists ok, marks', s', x. split; [exact E|]. split; [lia|]. split; [congruence|]. split; [done|lia]. }
  unfold mbind at 1, ast at 1. rewrite Ha1. destruct (_ || _) eqn:Eid; [do 3 eexists; exists v; repeat (split; [done|]); lia|].
  apply orb_false_iff in Eid as [_ Eid].
  destruct (get_at_is_Some (tab a EXPRESSIONS) id) as [e He]; [cbn [frame_in] in Hfr; unfold tcount, zlen in Eid; lia|].
  unfold mbind at 1, read. rewrite Ha1, He. unfold mbind at 1.
  destruct (grow_stack_total capacity (zlen stack + x_item_count e + 3) s1) as (c & s2 & -> & Hw2 & Hd2 & Ha2).
  assert (work s2 = Some v /\ diags s2 = diags s) as [Hw2' Hd2'] by (split; congruence).
  destruct c as [c|]; [|do 3 eexists; exists v; repeat (split; [done|]); lia].
  specialize (Ha2 ltac:(by eexists)). rewrite Ha1 in Ha2. unfold mbind at 1.
  destruct (constant_expr_total id e marks s2 Ha2 He Hm) as (r & -> & Hpush). destruct r as [[frames marks1]|]; [|do 3 eexists; exists v; repeat (split; [done|]); lia].
  destruct Hpush as [Hlen HF1]. destruct (IH (frames ++ stack) c marks1 s2 v) as (ok & marks' & s' & x & E & HL & Hd & Hx & Hxv); [done|done|lia|lia|lia| |].
  - apply Forall_app. split; [done|]. eapply Forall_impl; [exact HF|]. intros [y|y]; cbn [frame_in]; [done|lia].
  - exists ok, marks', s', x. split; [exact E|]. split; [lia|]. split; [congruence|]. split; [done|lia].
Qed.
End Ends.

(** [compile_time_expr] decides whether an expression is compile-time. Under a
    budget it always ends; when it says yes there is a finite derivation
    (literals, conversions, operators, casts of numbers, aggregates and constant
    globals, without a cycle among these); when it says no although there is
    one, the budget or memory ran out. The marks it leaves for later searches
    are of globals that are compile-time only. *)
Lemma compile_time_expr_correct {H : Host} fuel id marks s w :
  searchable (prog s) = true -> known_marks (prog s) marks -> zlen marks = tcount (prog s) GLOBALS -> 0 <= id ->
  work s = Some w -> 0 <= remaining w -> remaining w + 1 < Z.of_nat fuel ->
  exists ok marks' s' v, compile_time_expr fuel id marks s = Some ((ok, marks'), s') /\
    same_rows (prog s) (prog s') /\ diags s' = diags s /\ work s' = Some v /\ 0 <= remaining v <= remaining w /\
    known_marks (prog s) marks' /\ zlen marks' = zlen marks /\
    if ok then constant (prog s) id else constant (prog s) id -> halted s'.
Proof.
  intros Hrows Hk Hm Hid Hw Hr Hf.
  destruct (constant_search_total (prog s) Hrows fuel [Visit id] 64 marks s w) as (ok & marks' & s' & v & E & HL & Hd & Hv & Hvr); [done..|repeat constructor; done|].
  unfold compile_time_expr, mbind. rewrite E. do 3 eexists. exists v. split; [reflexivity|].
  assert (searching (prog s) id marks [Visit id]) as Hsr.
  { split; [by intros [_ ?]|split; [|done]|..].
    - intros g Hg. by apply not_elem_of_nil in Hg.
    - intros g Hg. by apply Hk in Hg as [? _].
    - intros g Hg. apply Hk in Hg as [_ Hg]. auto.
    - intros Hc x [[= ->]|Hx%not_elem_of_nil]%elem_of_cons; done. }
  destruct (constant_search_spec (prog s) id fuel _ _ _ _ _ _ _ eq_refl Hsr E) as (Hrow & H2 & Hans). do 4 (split; [done|]). destruct ok.
  - destruct Hans as [Hc H1]. split; [|done]. intros g m Hg. split; [intros ->; by apply H1 in Hg|intros ->; auto].
  - split; [|split; [unfold zlen in *; by rewrite length_map|done]]. intros g m Hg. apply get_at_Some in Hg as [Hlt Hg].
    rewrite length_map in Hlt. rewrite list_lookup_fmap in Hg. destruct (marks' !! Z.to_nat g) as [x|] eqn:Ex; [|done]. injection Hg as <-.
    assert (get_at marks' g = Some x) as Hx by by apply get_at_Some. destruct (Z.eqb_spec x 1); [done|]. split; [done|]. intros ->. auto.
Qed.

(** *** All constants *)
Lemma constant_parts_same a a' e : same_rows a a' -> constant_parts a' e = constant_parts a e.
Proof. intros Hr. unfold constant_parts, item_values, underlying_type, alias_targets. by rewrite !(Hr GLOBALS), !(Hr EXPRESSIONS), !(Hr ITEMS), !(Hr ALIASES). Qed.
Lemma constant_same a a' id : same_rows a a' -> constant a' id <-> constant a id.
Proof.
  intros Hr. enough (forall n id, constant_within a' n id <-> constant_within a n id) as Hn by (unfold constant; by setoid_rewrite Hn).
  clear id. induction n as [|n IH]; intros id; [done|]. cbn [constant_within]. rewrite (Hr EXPRESSIONS). setoid_rewrite (constant_parts_same a a'); [|done].
  by setoid_rewrite (Forall_iff _ _ _ IH).
Qed.
Lemma known_same a a' marks : same_rows a a' -> known_marks a' marks <-> known_marks a marks.
Proof. intros Hr. unfold known_marks, initializer_of. rewrite (Hr GLOBALS). setoid_rewrite (constant_same a a'); done. Qed.
Lemma searchable_same a a' : same_rows a a' -> searchable a' = searchable a.
Proof.
  intros Hr. unfold searchable. rewrite (Hr EXPRESSIONS), (Hr GLOBALS). f_equal. f_equal. unfold expr_in, items_in, tcount.
  by rewrite (Hr ITEMS), (Hr EXPRESSIONS).
Qed.
(** A search does not undo why an earlier one gave up. *)
Section Keeps.
Context {H : Host}.
Definition no_better (s s' : St) : Prop :=
  (stopped (work s) -> stopped (work s')) /\ (allocation_failed (prog s) = true -> allocation_failed (prog s') = true).
Lemma no_better_refl s : no_better s s.
Proof. done. Qed.
Lemma no_better_trans s1 s2 s3 : no_better s1 s2 -> no_better s2 s3 -> no_better s1 s3.
Proof. intros [? ?] [? ?]. split; auto. Qed.
Lemma no_better_halted s s' : no_better s s' -> halted s -> halted s'.
Proof. intros [Hs Hf] [?|?]; [left|right]; auto. Qed.
Lemma step_work_keeps n s ok s' : step_work n s = Some (ok, s') -> no_better s s'.
Proof.
  unfold step_work. destruct (dyn_work_step _ _ _) as [[b w] world'] eqn:E. intros [= <- <-]. by apply dyn_work_step_stops in E as [E _].
Qed.
Lemma grow_stack_keeps capacity required s r s' : grow_stack capacity required s = Some (r, s') -> no_better s s'.
Proof.
  unfold grow_stack. destruct (_ <=? _); [by intros [= <- <-]|]. destruct (_ <? _); [by intros [= <- <-]|].
  unfold mbind, allocate_bytes. destruct (allocate (world s) _) as [[] w]; by intros [= <- <-].
Qed.
Lemma constant_search_keeps fuel : forall stack capacity marks s r s', constant_search fuel stack capacity marks s = Some (r, s') -> no_better s s'.
Proof.
  induction fuel as [|fuel IH]; intros stack capacity marks s r s' E; [done|]. cbn [constant_search] in E. destruct stack as [|f stack]; [by injection E as <- <-|].
  unfold mbind at 1 in E. destruct (step_work 1 s) as [[ok s1]|] eqn:E1; [|done]. apply step_work_keeps in E1. eapply no_better_trans; [exact E1|].
  destruct ok; cbn [negb] in E; [|by injection E as <- <-]. destruct f as [id|g].
  2: { unfold mbind, lift in E. destruct (set_at marks g 2); [|done]. by eapply IH. }
  unfold mbind at 1, ast at 1 in E. destruct (_ || _); [by injection E as <- <-|]. unfold mbind at 1, read in E. destruct (get_at _ id) as [e|]; [|done].
  unfold mbind at 1 in E. destruct (grow_stack _ _ s1) as [[c s2]|] eqn:E2; [|done]. apply grow_stack_keeps in E2. eapply no_better_trans; [exact E2|].
  destruct c as [c|]; [|by injection E as <- <-]. unfold mbind at 1 in E. destruct (constant_expr e marks s2) as [[x s3]|] eqn:E3; [|done].
  apply (constant_expr_spec (prog s2)) in E3 as [-> _]; [|done]. destruct x as [[frames marks1]|]; [|by injection E as <- <-]. by eapply IH.
Qed.
Lemma compile_time_keeps fuel id marks s r s' : compile_time_expr fuel id marks s = Some (r, s') -> no_better s s'.
Proof.
  unfold compile_time_expr, mbind. destruct (constant_search _ _ _ _ s) as [[[ok m] s1]|] eqn:E; [|done]. intros [= <- <-]. by eapply constant_search_keeps.
Qed.
End Keeps.

Section Constants.
Context {H : Host} (a : DynAstProgram) (Hrows : searchable a = true) (fuel : nat).
(** The state between searches. *)
Definition checking (marks : list Z) (s : St) : Prop :=
  same_rows a (prog s) /\ known_marks a marks /\ zlen marks = tcount a GLOBALS /\
  exists w, work s = Some w /\ 0 <= remaining w /\ remaining w + 1 < Z.of_nat fuel.
(** One check of whether [P]: silent and it holds, or the report [d], of a
    failure or after the search gave up. *)
Definition checks (c : M (list Z)) (P : Prop) (d : Diagnostic) (s : St) : Prop :=
  exists marks' s', c s = Some (marks', s') /\ checking marks' s' /\ no_better s s' /\
    ((diags s' = diags s /\ P) \/ (diags s' = d :: diags s /\ (P -> halted s'))).
Lemma report_checking marks s span message : checking marks s ->
  checking marks (mkSt (prog s) (sema s) ((span, message) :: diags s) (work s) (world s)).
Proof. done. Qed.
Lemma compile_time_checks id span message marks s : checking marks s -> 0 <= id ->
  checks (let! (ok, marks) := compile_time_expr fuel id marks in (if ok : bool then mret tt else error_span span message) ;; mret marks)
    (constant a id) (span, message) s.
Proof.
  intros (Hr & Hk & Hm & w & Hw & Hw0 & Hf) Hid.
  destruct (compile_time_expr_correct fuel id marks s w) as (ok & marks' & s' & v & E & Hr' & Hd & Hv & Hvr & Hk' & Hm' & Hres); try done.
  { by rewrite (searchable_same a). } { by apply (known_same a). } { unfold tcount in *. by rewrite (Hr GLOBALS). }
  pose proof (compile_time_keeps _ _ _ _ _ _ E) as Hh. assert (checking marks' s') as Hch.
  { split; [intros k; by rewrite Hr', Hr|]. split; [by apply (known_same a (prog s))|]. split; [lia|]. exists v. split; [done|lia]. }
  assert (constant (prog s) id <-> constant a id) as Hc by by apply constant_same.
  unfold checks, mbind. rewrite E. destruct ok.
  - do 2 eexists. split; [done|]. split; [done|]. split; [done|]. left. split; [done|]. by apply Hc.
  - do 2 eexists. split; [done|]. split; [by apply report_checking|]. split; [exact Hh|]. right. cbn [diags]. rewrite Hd. split; [done|].
    intros HP. apply Hc, Hres in HP. exact HP.
Qed.
(** A loop over checks: what holds is reported only after a search gave up,
    and what does not is reported unless the budget ran out. *)
Definition reports (P : Z -> Prop) (R : Z -> Diagnostic) (l : list Z) (s' : St) (new : list Diagnostic) : Prop :=
  Forall (fun d => exists i, i ∈ l /\ d = R i /\ (P i -> halted s')) new /\ (~ stopped (work s') -> forall i, i ∈ l -> P i \/ R i ∈ new).
Lemma while_work_checks (f : Z -> list Z -> M (list Z)) (P : Z -> Prop) (R : Z -> Diagnostic) l :
  (forall i marks s, i ∈ l -> checking marks s -> checks (f i marks) (P i) (R i) s) ->
  forall marks s, checking marks s -> exists marks' s' new, while_work f l marks s = Some (marks', s') /\ checking marks' s' /\ no_better s s' /\
    diags s' = new ++ diags s /\ reports P R l s' new.
Proof.
  induction l as [|i l IH]; intros Hf marks s Hs; cbn [while_work].
  { exists marks, s, []. do 4 (split; [done|]). split; [constructor|]. intros _ i Hi. by apply not_elem_of_nil in Hi. }
  destruct Hs as (Hr & Hk & Hm & w & Hw & Hw0 & Hfu). destruct (step_work_total s w Hw Hw0) as (ok & s1 & v & Es & Ha1 & Hd1 & Hw1 & Hv & Hok).
  pose proof (step_work_keeps _ _ _ _ Es) as Hh1. apply step_work_spec in Es as Hsp. unfold mbind at 1. rewrite Es.
  assert (checking marks s1) as Hs1 by (split; [by rewrite Ha1|]; split; [done|]; split; [done|]; exists v; split; [done|lia]).
  destruct ok; cbn [negb].
  2: { exists marks, s1, []. do 4 (split; [done|]). split; [constructor|]. intros Hns. exfalso. apply Hns. by apply Hsp. }
  destruct (Hf i marks s1 ltac:(by left) Hs1) as (marks2 & s2 & E2 & Hs2 & Hh2 & Hd2). unfold mbind at 1. rewrite E2.
  destruct (IH ltac:(intros; apply Hf; [by right|done]) marks2 s2 Hs2) as (marks' & s' & new & E & Hs' & Hh & Hd & Hrep & Hall).
  exists marks', s'. rewrite Hd1 in Hd2.
  assert (Forall (fun d => exists j, j ∈ i :: l /\ d = R j /\ (P j -> halted s')) new) as Hnew.
  { eapply Forall_impl; [exact Hrep|]. intros d (j & Hj & Hd' & HP). exists j. split; [by right|done]. }
  destruct Hd2 as [[Hd2 HP]|[Hd2 HP]].
  - exists new. split; [done|]. split; [done|]. split; [by do 2 (eapply no_better_trans; [done|])|]. split; [by rewrite Hd, Hd2|]. split; [done|].
    intros Hst j [->|Hj]%elem_of_cons; auto.
  - exists (new ++ [R i]). split; [done|]. split; [done|]. split; [by do 2 (eapply no_better_trans; [done|])|].
    split; [by rewrite Hd, Hd2, <- app_assoc|]. split.
    + apply Forall_app. split; [done|]. constructor; [|constructor]. exists i. split; [by left|]. split; [done|].
      intros Hi. eapply no_better_halted; [exact Hh|]. by apply HP.
    + intros Hst j [->|Hj]%elem_of_cons; [right; apply elem_of_app; right; by left|].
      destruct (Hall Hst j Hj) as [|]; [by left|]. right. apply elem_of_app. by left.
Qed.
End Constants.

(** What the checks of constants look for. *)
Definition constant_declared (a : DynAstProgram) (g : Z) : Prop :=
  forall gl, get_at (tab a GLOBALS) g = Some gl -> gl_is_const gl = true -> gl_initializer gl <> DYN_NO_EXPR -> constant a (gl_initializer gl).
Definition default_constant (a : DynAstProgram) (i : Z) : Prop :=
  forall f, get_at (tab a FIELDS) i = Some f -> fd_default f <> DYN_NO_EXPR -> constant a (fd_default f).
Definition defaults_in (a : DynAstProgram) : bool := forallb (fun f => 0 <=? fd_default f) (tab a FIELDS).
Definition constant_report (a : DynAstProgram) (g : Z) : Diagnostic :=
  (match get_at (tab a GLOBALS) g with Some gl => gl_name gl | None => no_span end, "constant initializer must be compile-time expression"%string).
Definition default_report (a : DynAstProgram) (i : Z) : Diagnostic :=
  (match get_at (tab a FIELDS) i with Some f => fd_name f | None => no_span end, "struct field default must be compile-time expression"%string).
Lemma checks_silent {H : Host} a fuel marks s (P : Prop) d : checking a fuel marks s -> P -> checks a fuel (mret marks) P d s.
Proof. intros Hs HP. exists marks, s. split; [done|]. split; [done|]. split; [done|]. by left. Qed.
Lemma checks_iff {H : Host} a fuel c (P Q : Prop) d s : (P <-> Q) -> checks a fuel c P d s -> checks a fuel c Q d s.
Proof. intros HPQ (marks & s' & E & Hs & Hh & Hd). exists marks, s'. split; [done|]. split; [done|]. split; [done|]. destruct Hd as [[? ?]|[? ?]]; [left|right]; naive_solver. Qed.
Lemma global_checks {H : Host} a fuel i marks s : searchable a = true -> 0 <= i < tcount a GLOBALS -> checking a fuel marks s ->
  checks a fuel (check_constant_global fuel i marks) (constant_declared a i) (constant_report a i) s.
Proof.
  intros Hrows Hi Hs. unfold check_constant_global. destruct (get_at_is_Some (tab a GLOBALS) i) as [g Hg]; [done|].
  assert (forall c P d, read GLOBALS i s = Some (g, s) -> checks a fuel (c g) P d s -> checks a fuel (mbind (read GLOBALS i) c) P d s) as Hbind
    by (intros c P d Er; unfold checks, mbind; by rewrite Er).
  apply Hbind; [unfold read; by rewrite (proj1 Hs GLOBALS), Hg|]. unfold constant_declared, constant_report. rewrite Hg.
  destruct (gl_is_const g && negb (gl_initializer g =? DYN_NO_EXPR)) eqn:E.
  - apply andb_prop in E as [Ec En]. apply negb_true_iff, Z.eqb_neq in En.
    eapply checks_iff; [|apply compile_time_checks; [done|done|]]; [naive_solver|].
    pose proof (initializer_in a Hrows i) as Hin. unfold initializer_of in Hin. rewrite Hg in Hin. by apply Hin.
  - apply checks_silent; [done|]. intros gl [= <-] Hc Hn. rewrite Hc in E. by apply negb_false_iff, Z.eqb_eq in E.
Qed.
Lemma default_checks {H : Host} a fuel i marks s : searchable a = true -> defaults_in a = true -> 0 <= i < tcount a FIELDS -> checking a fuel marks s ->
  checks a fuel (check_constant_default fuel i marks) (default_constant a i) (default_report a i) s.
Proof.
  intros Hrows Hdef Hi Hs. unfold check_constant_default. destruct (get_at_is_Some (tab a FIELDS) i) as [f Hf]; [done|].
  assert (forall c P d, read FIELDS i s = Some (f, s) -> checks a fuel (c f) P d s -> checks a fuel (mbind (read FIELDS i) c) P d s) as Hbind
    by (intros c P d Er; unfold checks, mbind; by rewrite Er).
  apply Hbind; [unfold read; by rewrite (proj1 Hs FIELDS), Hf|]. unfold default_constant, default_report. rewrite Hf.
  destruct (negb (fd_default f =? DYN_NO_EXPR)) eqn:En.
  - apply negb_true_iff, Z.eqb_neq in En. eapply checks_iff; [|apply compile_time_checks; [done|done|]]; [naive_solver|].
    unfold defaults_in in Hdef. rewrite forallb_forall in Hdef. apply get_at_Some in Hf as [_ Hf]. apply list_elem_of_lookup_2, list_elem_of_In, Hdef in Hf. lia.
  - apply checks_silent; [done|]. intros f' [= <-] Hn. by apply negb_false_iff, Z.eqb_eq in En.
Qed.


(** ** The order of inferred globals

    The inferred global that an expression names, the ones its tree names, and
    what the type of a global needs. *)
Section TypeOrder.
Context {H : Host} (src : DynSource) (garbage : Z -> Z) (a : DynAstProgram).

(** The first global declared with the name, and the one an expression names
    when its type is inferred. *)
Definition declared_global (name : DynSpan) : option Z :=
  linear_match (name_matches true (declared a false) name src) 0 (length (declared a false)).
Definition named_global (e : DynAstExpr) : option Z :=
  if is_kind e DYN_EXPR_NAME || is_kind e DYN_EXPR_CALL then
    let* g := declared_global (x_span e) in
    let* gl := get_at (tab a GLOBALS) g in if gl_type gl =? DYN_TYPE_INFER then Some g else None
  else None.
Inductive names : Z -> Z -> Prop :=
| names_here id g e : id <> DYN_NO_EXPR -> get_at (tab a EXPRESSIONS) id = Some e -> named_global e = Some g -> names id g
| names_operand id g e o : id <> DYN_NO_EXPR -> get_at (tab a EXPRESSIONS) id = Some e -> o = x_left e \/ o = x_right e -> names o g -> names id g
| names_item id g e o : id <> DYN_NO_EXPR -> get_at (tab a EXPRESSIONS) id = Some e -> o ∈ item_values a e -> names o g -> names id g.
Definition needs (x y : Z) : Prop := names (initializer_of a x) y.

(** States of the analysis in which the search runs: outside of functions,
    with the indexes of the globals and functions of the program. *)
Definition outside (x : Sema) : Prop :=
  current_function x = UINT32_MAX /\ names_ok src (declared a false) (gl_index x) /\ names_ok src (declared a true) (fn_index x)
  /\ tcount a GLOBALS < UINT32_MAX.
Definition about (d : list Diagnostic) (s : St) : Prop := same_rows a (prog s) /\ outside (sema s) /\ diags s = d.

Lemma declared_same s functions : same_rows a (prog s) -> declared (prog s) functions = declared a functions ++ [].
Proof. intros Hr. unfold declared. rewrite (Hr FUNCTIONS), (Hr GLOBALS). by rewrite app_nil_r. Qed.
Lemma declared_global_total name : exists g, declared_global name = Some g /\ (g = UINT32_MAX \/ 0 <= g < tcount a GLOBALS).
Proof.
  unfold declared_global. destruct (linear_match_spec (name_matches true (declared a false) name src) 0 (length (declared a false))) as (r & -> & Hr).
  { intros j Hj. apply name_matches_total. unfold zlen. lia. }
  exists r. split; [done|]. destruct Hr as [[-> _]|(Hr & _)]; [by left|]. right. unfold declared in Hr. rewrite length_map in Hr.
  unfold tcount, zlen. change (row GLOBALS) with DynAstGlobal in *. lia.
Qed.
Lemma find_global_is d name s : about d s -> find_global_ src name s = option_map (fun g => (g, s)) (declared_global name).
Proof.
  intros (Hr & (_ & Hg & _) & _). unfold find_global_, mbind, ast, the_sema, lift, sema_find_global_name, declared_global.
  rewrite (names_lookup (prog s) src false name (declared a false) (gl_index (sema s)) []); [|done|by apply declared_same].
  by destruct (linear_match _ _ _).
Qed.
Lemma find_local_outside d name s : about d s -> exists s', find_local_ src garbage name s = Some (UINT32_MAX, s') /\ about d s' /\ work s' = work s.
Proof.
  intros (Hr & (Hc & Ho) & Hd). unfold find_local_, find_local, sema_local_lookup. rewrite Hc. cbn [Z.eqb]. eexists. split; [reflexivity|].
  split; [|done]. split; [done|]. split; [|done]. by split.
Qed.
(** A function of that name is found only when no global has it. *)
Lemma find_function_about d name s : about d s -> exists r s', sema_find_function src garbage name s = Some (r, s') /\
  about d s' /\ work s' = work s /\ (r <> UINT32_MAX -> declared_global name = Some UINT32_MAX).
Proof.
  intros Ha. unfold sema_find_function. destruct (find_local_outside d name s Ha) as (s1 & E1 & Ha1 & Hw1). unfold mbind at 1. rewrite E1.
  rewrite Z.eqb_refl. cbn [negb]. unfold mbind at 1. rewrite (find_global_is d) by done. destruct (declared_global_total name) as (g & -> & _). cbn [option_map].
  destruct (Z.eqb_spec g UINT32_MAX) as [->|Hne]; cbn [negb].
  - unfold mbind, ast, the_sema, lift. destruct Ha1 as (Hr & (Hc & Hg & Hf & Hn) & Hd).
    rewrite (names_lookup (prog s1) src true name (declared a true) (fn_index (sema s1)) []); [|done|by apply declared_same].
    destruct (linear_match_spec (name_matches true (declared a true) name src) 0 (length (declared a true))) as (r & -> & _).
    { intros j Hj. apply name_matches_total. unfold zlen. lia. }
    exists r, s1. split; [done|]. split; [|done]. by split.
  - exists UINT32_MAX, s1. split; [done|]. by split.
Qed.
Lemma name_about d e s : about d s -> (let! g := find_global_ src (x_span e) in if g =? UINT32_MAX then mret None
     else let! gl := read GLOBALS g in mret (if gl_type gl =? DYN_TYPE_INFER then Some g else None)) s
  = Some (let* g := declared_global (x_span e) in let* gl := get_at (tab a GLOBALS) g in if gl_type gl =? DYN_TYPE_INFER then Some g else None, s).
Proof.
  intros Ha. unfold mbind at 1. rewrite (find_global_is d) by done. destruct (declared_global_total (x_span e)) as (g & -> & Hg). cbn [option_map].
  destruct (Z.eqb_spec g UINT32_MAX) as [->|Hne].
  - destruct Ha as (_ & (_ & _ & _ & Hn) & _). unfold get_at. rewrite (proj2 (Z.ltb_ge _ _)), andb_false_r; [done|]. unfold tcount, zlen in Hn. lia.
  - destruct Hg as [|Hg]; [done|]. destruct (get_at_is_Some (tab a GLOBALS) g Hg) as [gl Hgl]. unfold mbind, read.
    by rewrite (proj1 Ha GLOBALS), Hgl.
Qed.
Lemma inferred_name_about d e s : about d s -> exists s', inferred_name src garbage e s = Some (named_global e, s') /\ about d s' /\ work s' = work s.
Proof.
  intros Ha. unfold inferred_name, named_global. unfold mbind at 1.
  destruct (is_kind e DYN_EXPR_NAME); cbn [orb]; [cbn [mret negb]; exists s; by rewrite (name_about d)|].
  destruct (is_kind e DYN_EXPR_CALL); [|exists s; by split].
  unfold mbind at 1. destruct (find_function_about d (x_span e) s Ha) as (f & s1 & -> & Ha1 & Hw1 & Hf). cbn [mret].
  exists s1. destruct (Z.eqb_spec f UINT32_MAX) as [->|Hne]; cbn [negb]; [by rewrite (name_about d)|]. split; [|done].
  rewrite (Hf Hne). cbn [mret]. destruct Ha as (_ & (_ & _ & _ & Hn) & _). unfold get_at.
  rewrite (proj2 (Z.ltb_ge _ _)), andb_false_r; [done|]. unfold tcount, zlen in Hn. lia.
Qed.

(** *** The invariant of the search

    The globals a frame will have put into the order when it is done. *)
Definition promises (f : GlobalTypeFrame) (y : Z) : Prop :=
  match f with TypeExpr id => names id y | TypeEnter g | TypeLeave g => y = g end.
(** What a global needs is in the order, or promised above it; and so is the
    root in the end. *)
Context (root : Z).
Fixpoint pending (order : list Z) (above : Z -> Prop) (stack : list GlobalTypeFrame) : Prop :=
  match stack with
  | [] => root ∈ order \/ above root
  | f :: stack =>
      match f with TypeLeave g => forall y, needs g y -> y ∈ order \/ above y | _ => True end
      /\ pending order (fun y => above y \/ promises f y) stack
  end.
(** What is promised is needed by the globals below, which are being searched. *)
Fixpoint behind (stack : list GlobalTypeFrame) : Prop :=
  match stack with
  | [] => True
  | f :: stack => (forall g y, TypeLeave g ∈ stack -> promises f y -> tc needs g y) /\ behind stack
  end.
Fixpoint leaving (stack : list GlobalTypeFrame) : list Z :=
  match stack with [] => [] | TypeLeave g :: stack => g :: leaving stack | _ :: stack => leaving stack end.
Definition topological (order : list Z) : Prop := forall pre x post y, order = pre ++ x :: post -> needs x y -> y ∈ pre.
Record ordering (t : TypeOrder) (stack : list GlobalTypeFrame) : Prop := {
  or_size : zlen (to_state t) = tcount a GLOBALS;
  or_done g : get_at (to_state t) g = Some 2 <-> g ∈ to_order t;
  or_open g : get_at (to_state t) g = Some 1 <-> g ∈ leaving stack;
  or_once : NoDup (to_order t);
  or_leaving : NoDup (leaving stack);
  or_topological : topological (to_order t);
  or_pending : pending (to_order t) (fun _ => False) stack;
  or_behind : behind stack }.

Lemma leaving_in g stack : TypeLeave g ∈ stack <-> g ∈ leaving stack.
Proof.
  induction stack as [|f stack IH]; cbn [leaving]; [by rewrite !elem_of_nil|]. rewrite elem_of_cons, IH. destruct f; rewrite ?elem_of_cons; naive_solver.
Qed.
Lemma leaving_app l stack : (forall f, f ∈ l -> match f with TypeLeave _ => False | _ => True end) -> leaving (l ++ stack) = leaving stack.
Proof.
  induction l as [|f l IH]; intros Hl; [done|]. cbn [app leaving]. pose proof (Hl f ltac:(by left)). destruct f; [..|done]; apply IH; intros; apply Hl; by right.
Qed.
Lemma pending_mono order order' stack : forall A A' : Z -> Prop, (forall y, y ∈ order -> y ∈ order') -> (forall y, A y -> y ∈ order' \/ A' y) ->
  pending order A stack -> pending order' A' stack.
Proof.
  induction stack as [|f stack IH]; intros A A' Ho HA; cbn [pending]; [intros [|]; auto|]. intros [Hf Hs]. split.
  - destruct f; try done. intros y Hy. destruct (Hf y Hy); auto.
  - eapply IH; [exact Ho| |exact Hs]. cbn beta. intros y [Hy|Hy]; [destruct (HA y Hy); auto|auto].
Qed.
(** A frame that is replaced by frames that promise at least as much, and only
    what it is allowed to. *)
Lemma pending_app order l stack : forall A A' : Z -> Prop, (forall f, f ∈ l -> match f with TypeLeave _ => False | _ => True end) ->
  (forall y, A y -> y ∈ order \/ A' y \/ exists f, f ∈ l /\ promises f y) -> pending order A stack -> pending order A' (l ++ stack).
Proof.
  induction l as [|f l IH]; intros A A' Hl HA Hs; cbn [app pending].
  - eapply pending_mono; [done| |exact Hs]. intros y Hy. destruct (HA y Hy) as [|[|(f & Hf%not_elem_of_nil & _)]]; auto; done.
  - split; [pose proof (Hl f ltac:(by left)); by destruct f|]. eapply IH; [intros; apply Hl; by right| |exact Hs]. cbn beta. intros y Hy.
    destruct (HA y Hy) as [|[|(f' & [->|Hf']%elem_of_cons & Hp)]]; auto. right. right. eauto.
Qed.
Lemma behind_app l stack : (forall f, f ∈ l -> match f with TypeLeave _ => False | _ => True end) ->
  (forall f g y, f ∈ l -> TypeLeave g ∈ stack -> promises f y -> tc needs g y) -> behind stack -> behind (l ++ stack).
Proof.
  induction l as [|f l IH]; intros Hl Hp Hs; cbn [app behind]; [done|]. split; [|apply IH; [intros; apply Hl; by right|intros f' g y Hf'; apply Hp; by right|done]].
  intros g y Hg. apply Hp; [by left|]. apply leaving_in in Hg. rewrite leaving_app in Hg by (intros; apply Hl; by right). by apply leaving_in.
Qed.

(** Steps that keep it. *)
Lemma ordering_leave t g stack st : ordering t (TypeLeave g :: stack) -> set_at (to_state t) g 2 = Some st ->
  (g ∉ to_order t) /\ ordering (mkTypeOrder (to_capacity t) st (to_order t ++ [g])) stack.
Proof.
  intros [Hn Hd Ho Hone Hl Ht [Hg Hp] [_ Hb]] E. pose proof (fun q => set_at_get _ _ _ _ q E) as Hget. pose proof (set_at_length _ _ _ _ E) as Hlen.
  cbn [leaving] in Ho, Hl. apply NoDup_cons in Hl as [Hnl Hl].
  assert (get_at (to_state t) g = Some 1) as H1 by (apply Ho; by left).
  assert (g ∉ to_order t) as Hng by (intros Hin; apply Hd in Hin; congruence). split; [done|].
  split; cbn [to_state to_order]; [unfold zlen in *; lia|..|done| |eapply pending_mono; [| |exact Hp]|done].
  - intros q. rewrite Hget, elem_of_app, list_elem_of_singleton, <- Hd. destruct (Z.eqb_spec q g); naive_solver.
  - intros q. rewrite Hget. destruct (Z.eqb_spec q g) as [->|Hne]; [split; [done|intros ?; by destruct Hnl]|]. rewrite Ho, elem_of_cons. naive_solver.
  - apply NoDup_app. split; [done|]. split; [|apply NoDup_singleton]. intros q Hq ->%list_elem_of_singleton. done.
  - intros pre x post y Hs Hy. destruct post as [|z post _] using rev_ind.
    + apply app_inj_tail in Hs as [<- <-]. by destruct (Hg y Hy) as [|[]].
    + rewrite app_comm_cons, app_assoc in Hs. apply app_inj_tail in Hs as [Hs _]. by eapply Ht.
  - intros y Hy. apply elem_of_app. by left.
  - intros y [[]| ->]. left. apply elem_of_app. right. by left.
Qed.
Lemma ordering_known t g stack : ordering t (TypeEnter g :: stack) -> get_at (to_state t) g = Some 2 -> ordering t stack.
Proof.
  intros [Hn Hd Ho Hone Hl Ht [_ Hp] [_ Hb]] H2. split; try done. eapply pending_mono; [done| |exact Hp]. cbn beta. intros y [[]| ->]. left. by apply Hd.
Qed.
Lemma ordering_cycle t g stack : ordering t (TypeEnter g :: stack) -> get_at (to_state t) g = Some 1 -> tc needs g g.
Proof. intros [_ _ Ho _ _ _ _ [Hb _]] H1. apply (Hb g g); [|done]. apply leaving_in. by apply Ho in H1. Qed.
Lemma ordering_enter t g m stack st capacity : ordering t (TypeEnter g :: stack) -> get_at (to_state t) g = Some m -> m <> 1 -> m <> 2 ->
  set_at (to_state t) g 1 = Some st ->
  ordering (mkTypeOrder capacity st (to_order t)) (TypeExpr (initializer_of a g) :: TypeLeave g :: stack).
Proof.
  intros [Hn Hd Ho Hone Hl Ht [_ Hp] [Hb1 Hb]] Hm Hm1 Hm2 E. pose proof (fun q => set_at_get _ _ _ _ q E) as Hget.
  pose proof (set_at_length _ _ _ _ E) as Hlen. cbn [leaving] in Ho, Hl.
  split; cbn [to_state to_order leaving]; [unfold zlen in *; lia|..|done| |done| |].
  - intros q. rewrite Hget, <- Hd. destruct (Z.eqb_spec q g) as [->|]; [|done]. split; congruence.
  - intros q. rewrite Hget, elem_of_cons, <- Ho. destruct (Z.eqb_spec q g) as [->|]; naive_solver.
  - apply NoDup_cons. split; [|done]. rewrite <- Ho. congruence.
  - cbn [pending promises]. split; [done|]. split; [intros y Hy; right; by right|]. eapply pending_mono; [done| |exact Hp]. cbn beta. naive_solver.
  - cbn [behind promises]. split; [|split; [|done]].
    + intros h y [[= ->]|Hh]%elem_of_cons Hy; [by apply tc_once|]. eapply tc_r; [by apply Hb1|done].
    + intros h y Hh ->. by apply Hb1.
Qed.
Lemma ordering_expr t id frames stack capacity : (forall f, f ∈ frames -> match f with TypeLeave _ => False | _ => True end) ->
  (forall y, names id y <-> exists f, f ∈ frames /\ promises f y) -> ordering t (TypeExpr id :: stack) ->
  ordering (mkTypeOrder capacity (to_state t) (to_order t)) (frames ++ stack).
Proof.
  intros Hf Hy [Hn Hd Ho Hone Hl Ht [_ Hp] [Hb1 Hb]]. cbn [leaving] in Ho, Hl. split; cbn [to_state to_order]; rewrite ?leaving_app by done; try done.
  - eapply pending_app; [done| |exact Hp]. cbn beta. intros y [[]|Hy']. right. right. by apply Hy.
  - apply behind_app; [done| |done]. intros f g y Hin Hg Hpr. apply Hb1; [done|]. cbn [promises]. apply Hy. eauto.
Qed.

Lemma elem_of_rev {A} (x : A) l : x ∈ rev l <-> x ∈ l.
Proof. rewrite !list_elem_of_In. symmetry. apply in_rev. Qed.
(** The frames of one expression. *)
Definition expr_frames (e : DynAstExpr) : list GlobalTypeFrame :=
  rev (map TypeExpr (item_values a e)) ++ TypeExpr (x_right e) :: TypeExpr (x_left e) :: match named_global e with Some g => [TypeEnter g] | None => [] end.
Lemma expr_frames_names id e y : id <> DYN_NO_EXPR -> get_at (tab a EXPRESSIONS) id = Some e ->
  names id y <-> exists f, f ∈ expr_frames e /\ promises f y.
Proof.
  intros Hid He. split.
  - assert (Hsame : forall e', get_at (tab a EXPRESSIONS) id = Some e' -> e' = e) by (intros; congruence). unfold expr_frames.
    destruct 1 as [id y e' _ He' Hg|id y e' o _ He' Ho Hn|id y e' o _ He' Ho Hn]; apply Hsame in He' as ->.
    + exists (TypeEnter y). split; [|done]. rewrite Hg. apply elem_of_app. right. right. right. by left.
    + exists (TypeExpr o). split; [|done]. apply elem_of_app. right. destruct Ho as [-> | ->]; [right; by left|by left].
    + exists (TypeExpr o). split; [|done]. apply elem_of_app. left. apply elem_of_rev, list_elem_of_fmap. eauto.
  - unfold expr_frames. intros (f & Hf & Hp). rewrite elem_of_app, elem_of_rev, list_elem_of_fmap, !elem_of_cons in Hf.
    destruct Hf as [(o & -> & Ho)|[->|[->|Hf]]]; cbn [promises] in Hp; [by eapply names_item|by eapply names_operand; [..|right|]|by eapply names_operand; [..|left|]|].
    destruct (named_global e) as [g|] eqn:Eg; [|by apply not_elem_of_nil in Hf]. apply list_elem_of_singleton in Hf as ->. cbn [promises] in Hp. subst.
    by eapply names_here.
Qed.
Lemma expr_frames_kind e f : f ∈ expr_frames e -> match f with TypeLeave _ => False | _ => True end.
Proof.
  unfold expr_frames. rewrite elem_of_app, elem_of_rev, list_elem_of_fmap, !elem_of_cons. intros [(o & -> & _)|[->|[->|Hf]]]; try done.
  destruct (named_global e); [by apply list_elem_of_singleton in Hf as ->|by apply not_elem_of_nil in Hf].
Qed.

(** *** The search ends *)
Hypothesis (Hrows : searchable a = true).
Context (d : list Diagnostic).
(** Lookups of the names of the program have results. *)
Definition type_frame_in (f : GlobalTypeFrame) : Prop :=
  match f with TypeExpr id => 0 <= id | TypeEnter g | TypeLeave g => 0 <= g < tcount a GLOBALS end.
Lemma named_global_in e g : named_global e = Some g -> 0 <= g < tcount a GLOBALS.
Proof.
  unfold named_global. destruct (_ || _); [|done]. destruct (declared_global _) as [x|]; [|done].
  destruct (get_at (tab a GLOBALS) x) as [gl|] eqn:E; [|done]. destruct (gl_type gl =? DYN_TYPE_INFER); [|done]. intros [= <-].
  apply get_at_Some in E as [E _]. done.
Qed.
Lemma expr_frames_in id e : get_at (tab a EXPRESSIONS) id = Some e -> Forall type_frame_in (expr_frames e).
Proof.
  intros He. apply (expr_in_row a Hrows) in He. unfold expr_in in He. rewrite !andb_true_iff in He. destruct He as [[[Hl Hr] Hi] _].
  unfold expr_frames. apply Forall_app. split.
  - apply Forall_rev, Forall_map, Forall_map. unfold items_in in Hi. apply Forall_forall. intros i Hin. rewrite forallb_forall in Hi.
    apply list_elem_of_In, Hi in Hin. destruct (get_at _ _); [cbn; lia|done].
  - repeat constructor; cbn [type_frame_in]; try lia. destruct (named_global e) as [g|] eqn:Eg; [|constructor].
    repeat constructor; cbn [type_frame_in]; apply named_global_in in Eg; lia.
Qed.
Lemma item_expressions_about start l s items : about d s -> item_expressions start l s = Some (items, s) ->
  items = map (fun i => match get_at (tab a ITEMS) (u32 (start + i)) with Some it => it_expression it | None => DYN_NO_EXPR end) l.
Proof. intros Ha E. destruct (item_expressions_spec (prog s) start l s items s E eq_refl) as [_ ->]. by rewrite (proj1 Ha ITEMS). Qed.
Lemma item_expressions_ends e s : about d s -> items_in a e = true ->
  item_expressions (x_item_start e) (seqZ 0 (x_item_count e)) s = Some (item_values a e, s).
Proof.
  intros Ha Hi. destruct (item_expressions_total (prog s) (x_item_start e) (seqZ 0 (x_item_count e)) s eq_refl) as (items & E & _).
  { rewrite (proj1 Ha ITEMS). exact Hi. }
  rewrite E. by rewrite (item_expressions_about _ _ _ _ Ha E).
Qed.
Lemma grow_stack_about capacity required s : about d s -> exists r s', grow_stack capacity required s = Some (r, s') /\ work s' = work s /\
  about d s' /\ (r = None -> halted s').
Proof.
  intros (Hr & Hx & Hd). unfold grow_stack. destruct (_ <=? _); [by do 2 eexists|]. destruct (_ <? _).
  { do 2 eexists. split; [done|]. split; [done|]. split; [done|]. intros _. by right. }
  unfold mbind, allocate_bytes. destruct (allocate (world s) _) as [[] w]; [by do 2 eexists|]. do 2 eexists. split; [done|]. split; [done|]. split; [done|].
  intros _. by right.
Qed.
(** Room in the order for one more global. *)
Lemma type_order_room (l : list Z) g : NoDup l -> g ∉ l -> (forall x, x ∈ g :: l -> 0 <= x < tcount a GLOBALS) -> zlen l < tcount a GLOBALS.
Proof.
  intros Hl Hg Hin. assert (g :: l ⊆+ seqZ 0 (tcount a GLOBALS)) as Hs.
  { apply NoDup_submseteq; [by apply NoDup_cons|]. intros x Hx. apply elem_of_seqZ. specialize (Hin x Hx). lia. }
  apply submseteq_length in Hs. rewrite length_seqZ in Hs. cbn [length] in Hs. unfold zlen. lia.
Qed.
Definition type_failure (s' : St) : Prop :=
  same_rows a (prog s') /\ (halted s' \/ exists g gl, get_at (tab a GLOBALS) g = Some gl /\
    diags s' = (gl_name gl, "cyclic inferred global type dependency"%string) :: d /\ tc needs g g).
Lemma about_failure s : about d s -> halted s -> type_failure s.
Proof. intros (Hr & _ & _) Hh. split; [done|by left]. Qed.

(** What one frame gives. *)
Definition frame_result (t : TypeOrder) (stack : list GlobalTypeFrame) (s : St) (r : option (list GlobalTypeFrame * TypeOrder)) (s' : St) : Prop :=
  match r with
  | Some (frames, t') => about d s' /\ work s' = work s /\ ordering t' (frames ++ stack) /\ Forall type_frame_in frames /\
                         exists l, to_order t' = to_order t ++ l
  | None => type_failure s'
  end.
Lemma state_known t stack g : ordering t stack -> 0 <= g < tcount a GLOBALS -> 0 <= g < Z.of_nat (length (to_state t)).
Proof. intros [Hn _ _ _ _ _ _ _] Hg. unfold zlen in Hn. lia. Qed.
Lemma leave_frame t g stack s : about d s -> ordering t (TypeLeave g :: stack) -> 0 <= g < tcount a GLOBALS ->
  exists r s', type_frame src garbage (TypeLeave g) (zlen stack) t s = Some (r, s') /\ frame_result t stack s r s'.
Proof.
  intros Ha Ho Hg. pose proof (state_known _ _ _ Ho Hg) as Hlt. pose proof (set_at_insert (to_state t) g 2 Hlt) as Es.
  destruct (ordering_leave _ _ _ _ Ho Es) as [Hng Ho']. unfold type_frame, mbind, ast, lift. rewrite Es.
  assert (zlen (to_order t) < tcount a GLOBALS) as Hroom.
  { apply (type_order_room _ g); [apply Ho|done|]. intros x [->|Hx]%elem_of_cons; [done|]. apply Ho in Hx as Hx2. apply get_at_Some in Hx2 as [Hx2 _].
    pose proof (or_size _ _ Ho) as Hn. unfold zlen in Hn. lia. }
  unfold tcount in *. rewrite (proj1 Ha GLOBALS). rewrite (proj2 (Z.leb_gt _ _)) by done. do 2 eexists. split; [done|]. split; [done|]. split; [done|].
  split; [done|]. split; [done|]. by exists [g].
Qed.
Lemma enter_frame t g stack s : about d s -> ordering t (TypeEnter g :: stack) -> 0 <= g < tcount a GLOBALS ->
  exists r s', type_frame src garbage (TypeEnter g) (zlen stack) t s = Some (r, s') /\ frame_result t stack s r s'.
Proof.
  intros Ha Ho Hg. pose proof (state_known _ _ _ Ho Hg) as Hlt. destruct (get_at_is_Some (tab a GLOBALS) g) as [gl Hgl]; [done|].
  assert (to_order t = to_order t ++ []) as Hnil by by rewrite app_nil_r.
  unfold type_frame. unfold mbind at 1, ast at 1. unfold mbind at 1, lift at 1. destruct (get_at_is_Some _ _ Hlt) as [m Hm]. rewrite Hm.
  destruct (Z.eqb_spec m 2) as [->|H2].
  { do 2 eexists. split; [done|]. split; [done|]. split; [done|]. split; [by eapply ordering_known|]. split; [constructor|by exists []]. }
  destruct (Z.eqb_spec m 1) as [->|H1].
  { unfold mbind, read, error_span. rewrite (proj1 Ha GLOBALS), Hgl. do 2 eexists. split; [done|]. split; [apply Ha|]. right. exists g, gl.
    split; [done|]. cbn [diags]. rewrite (proj2 (proj2 Ha)). split; [done|]. by eapply ordering_cycle. }
  unfold mbind at 1. destruct (grow_stack_about (to_capacity t) (zlen stack + 2) s Ha) as (c & s2 & -> & Hw2 & Ha2 & Hc).
  destruct c as [c|]; [|do 2 eexists; split; [done|]; by apply about_failure; auto].
  unfold mbind, lift, read. rewrite (set_at_insert _ _ 1 Hlt), (proj1 Ha2 GLOBALS), Hgl. do 2 eexists. split; [done|]. split; [done|]. split; [done|].
  replace (gl_initializer gl) with (initializer_of a g) by (unfold initializer_of; by rewrite Hgl).
  split; [eapply ordering_enter; [done..|by apply set_at_insert]|]. split; [|by exists []].
  repeat constructor; cbn [type_frame_in]; try lia. apply initializer_in; [done|]. by rewrite Hgl.
Qed.
Lemma expr_frame t id stack s : about d s -> ordering t (TypeExpr id :: stack) -> 0 <= id ->
  exists r s', type_frame src garbage (TypeExpr id) (zlen stack) t s = Some (r, s') /\ frame_result t stack s r s'.
Proof.
  intros Ha Ho Hid. assert (to_order t = to_order t ++ []) as Hnil by by rewrite app_nil_r.
  unfold type_frame. unfold mbind at 1, ast at 1. unfold tcount at 1. rewrite (proj1 Ha EXPRESSIONS). destruct (_ || _) eqn:Eid.
  { do 2 eexists. split; [done|]. split; [done|]. split; [done|]. split; [|split; [constructor|by exists []]].
    destruct t as [c st o]. apply (ordering_expr (mkTypeOrder c st o) id []); [by intros f Hf%not_elem_of_nil| |done].
    intros y. split; [|by intros (f & Hf%not_elem_of_nil & _)]. intros Hy. exfalso. apply orb_prop in Eid. unfold zlen in Eid.
    destruct Hy as [id y e Hne He|id y e o' Hne He|id y e o' Hne He]; apply get_at_Some in He as [He _]; lia. }
  apply orb_false_iff in Eid as [Eno Eid]. apply Z.eqb_neq in Eno. apply Z.leb_gt in Eid. unfold zlen in Eid.
  destruct (get_at_is_Some (tab a EXPRESSIONS) id) as [e He]; [lia|]. unfold mbind at 1, read. rewrite (proj1 Ha EXPRESSIONS), He. unfold mbind at 1.
  destruct (grow_stack_about (to_capacity t) (zlen stack + x_item_count e + 3) s Ha) as (c & s2 & -> & Hw2 & Ha2 & Hc).
  destruct c as [c|]; [|do 2 eexists; split; [done|]; by apply about_failure; auto].
  unfold mbind at 1. destruct (inferred_name_about d e s2 Ha2) as (s3 & -> & Ha3 & Hw3).
  pose proof (expr_in_row a Hrows _ _ He) as Hin. unfold expr_in in Hin. rewrite !andb_true_iff in Hin.
  unfold mbind at 1. rewrite (item_expressions_ends e s3 Ha3) by apply Hin. do 2 eexists. split; [done|]. fold (expr_frames e). split; [done|].
  split; [congruence|]. split; [|split; [by eapply expr_frames_in|by exists []]].
  apply (ordering_expr _ id); [apply expr_frames_kind|intros y; by apply expr_frames_names|done].
Qed.

(** What the loop gives. *)
Definition type_result (t : TypeOrder) (w : DynWork) (r : option TypeOrder) (s' : St) : Prop :=
  match r with
  | Some t' => about d s' /\ ordering t' [] /\ (exists l, to_order t' = to_order t ++ l) /\
               exists v, work s' = Some v /\ 0 <= remaining v <= remaining w
  | None => type_failure s'
  end.
Lemma type_loop_spec fuel : forall stack t s w, about d s -> work s = Some w -> 0 <= remaining w -> remaining w + 1 < Z.of_nat fuel ->
  ordering t stack -> Forall type_frame_in stack -> exists r s', type_loop src garbage fuel stack t s = Some (r, s') /\ type_result t w r s'.
Proof.
  induction fuel as [|fuel IH]; intros stack t s w Ha Hw Hr Hf Ho HF; [lia|]. cbn [type_loop].
  destruct stack as [|f stack].
  { do 2 eexists. split; [done|]. split; [done|]. split; [done|]. split; [exists []; by rewrite app_nil_r|]. exists w. split; [done|lia]. }
  apply Forall_cons in HF as [Hfr HF]. destruct (step_work_total s w Hw Hr) as (ok & s1 & v & Es & _ & _ & Hw1 & Hv & Hok).
  assert (about d s1) as Ha1.
  { destruct Ha as (Hr1 & Hx1 & Hd1). unfold step_work in Es. destruct (dyn_work_step _ _ _) as [[b w'] world']. by injection Es as <- <-. }
  unfold mbind at 1. rewrite Es. destruct ok; cbn [negb].
  2: { do 2 eexists. split; [done|]. apply about_failure; [done|]. left. apply step_work_spec in Es as (_ & _ & Hstop). auto. }
  specialize (Hok eq_refl). unfold mbind at 1.
  assert (exists r s', type_frame src garbage f (zlen stack) t s1 = Some (r, s') /\ frame_result t stack s1 r s') as (r & s2 & -> & Hres)
    by (destruct f; [by apply expr_frame|by apply enter_frame|by apply leave_frame]).
  destruct r as [[frames t1]|]; [|by do 2 eexists]. destruct Hres as (Ha2 & Hw2 & Ho2 & HF2 & l & Hl).
  destruct (IH (frames ++ stack) t1 s2 v) as (r & s3 & E & Hr3); [done|congruence|lia|lia|done|by apply Forall_app|].
  exists r, s3. split; [done|]. destruct r as [t'|]; [|done]. destruct Hr3 as (Ha3 & Ho3 & (l' & Hl') & x & Hx & Hxv). split; [done|]. split; [done|].
  split; [exists (l ++ l'); by rewrite Hl', Hl, app_assoc|]. exists x. split; [done|lia].
Qed.
End TypeOrder.

(** *** Every root *)
Record ordered src (a : DynAstProgram) (t : TypeOrder) : Prop := {
  od_size : zlen (to_state t) = tcount a GLOBALS;
  od_done g : get_at (to_state t) g = Some 2 <-> g ∈ to_order t;
  od_closed g : get_at (to_state t) g <> Some 1;
  od_once : NoDup (to_order t);
  od_topological : topological src a (to_order t) }.
Lemma ordered_enter src a root t : ordered src a t -> ordering src a root t [TypeEnter root].
Proof.
  intros [Hn Hd Hc Ho Ht]. split; try done.
  - intros g. split; [by intros ?%Hc|by intros ?%not_elem_of_nil].
  - constructor.
  - split; [done|]. right. by right.
  - split; [|done]. by intros g y Hg%not_elem_of_nil.
Qed.
Lemma ordering_closed src a root t : ordering src a root t [] -> ordered src a t /\ root ∈ to_order t.
Proof.
  intros [Hn Hd Hc Ho Hl Ht Hp _]. split; [|by destruct Hp as [|[]]]. split; try done. intros g Hg. by apply Hc, not_elem_of_nil in Hg.
Qed.

Section Roots.
Context {H : Host} (src : DynSource) (garbage : Z -> Z) (a : DynAstProgram) (d : list Diagnostic).
Hypothesis (Hrows : searchable a = true).

Lemma type_roots_spec fuel roots : forall t s w, about src a d s -> work s = Some w -> 0 <= remaining w -> remaining w + 1 < Z.of_nat fuel ->
  ordered src a t -> Forall (fun g => 0 <= g < tcount a GLOBALS) roots ->
  exists r s', type_roots src garbage fuel roots t s = Some (r, s') /\
    match r with
    | Some t' => about src a d s' /\ ordered src a t' /\ (exists l, to_order t' = to_order t ++ l) /\ Forall (fun g => g ∈ to_order t') roots
    | None => type_failure src a d s'
    end.
Proof.
  induction roots as [|root roots IH]; intros t s w Ha Hw Hr Hf Ho HF; cbn [type_roots].
  { do 2 eexists. split; [done|]. split; [done|]. split; [done|]. split; [exists []; by rewrite app_nil_r|constructor]. }
  apply Forall_cons in HF as [Hroot HF]. pose proof (od_size _ _ _ Ho) as Hn.
  destruct (get_at_is_Some (to_state t) root) as [m Hm]; [unfold zlen in Hn; lia|]. unfold mbind at 1, lift. rewrite Hm.
  destruct (Z.eqb_spec m 2) as [->|_].
  { destruct (IH t s w) as (r & s' & E & Hres); [done..|]. exists r, s'. split; [done|]. destruct r as [t'|]; [|done].
    destruct Hres as (Ha' & Ho' & (l & Hl) & HF'). split; [done|]. split; [done|]. split; [eauto|]. constructor; [|done]. rewrite Hl. apply elem_of_app. left. by apply Ho. }
  assert (exists r s1, (if negb (to_capacity t =? 0) then mret (Some t) else let! ok := allocate_bytes (64 * 8) in
      if ok : bool then mret (Some (mkTypeOrder 64 (to_state t) (to_order t))) else fail_memory ;; mret None) s = Some (r, s1) /\
    about src a d s1 /\ work s1 = work s /\ match r with Some t1 => ordered src a t1 /\ to_order t1 = to_order t | None => halted s1 end)
    as (ready & s1 & E1 & Ha1 & Hw1 & Hready).
  { destruct (negb _); [by do 2 eexists|]. unfold mbind, allocate_bytes. destruct (allocate (world s) _) as [[] w'].
    - do 2 eexists. split; [done|]. split; [done|]. split; [done|]. split; [|done]. by destruct Ho.
    - do 2 eexists. split; [done|]. split; [done|]. split; [done|]. by right. }
  unfold mbind at 1. rewrite E1. destruct ready as [t1|]; [|do 2 eexists; split; [done|]; by apply about_failure]. destruct Hready as [Ho1 Ht1].
  unfold mbind at 1. destruct (type_loop_spec src garbage a root Hrows d fuel [TypeEnter root] t1 s1 w) as (r & s2 & -> & Hres);
    [done|congruence|done|done|by apply ordered_enter|constructor; [exact Hroot|constructor]|].
  destruct r as [t2|]; [|by do 2 eexists]. destruct Hres as (Ha2 & Ho2 & (l & Hl) & v & Hw2 & Hv). apply ordering_closed in Ho2 as [Ho2 Hin].
  destruct (IH t2 s2 v) as (r & s' & E & Hres); [done|done|lia|lia|done|done|]. exists r, s'. split; [done|]. destruct r as [t'|]; [|done].
  destruct Hres as (Ha' & Ho' & (l' & Hl') & HF'). split; [done|]. split; [done|]. rewrite Ht1 in Hl. split; [exists (l ++ l'); by rewrite Hl', Hl, app_assoc|].
  constructor; [|done]. rewrite Hl'. apply elem_of_app. by left.
Qed.
End Roots.

(** C8: Started as the analysis starts it, outside of functions and with the
    name indexes of the program, [global_type_order] always ends under a
    budget. The order it returns has every global exactly once, and each after
    the globals of inferred types that its initialiser names or calls, anywhere
    in its tree; a name stands for the first global declared with it. Without
    an order, either a global whose type needs itself was reported, or the
    budget or memory ran out. *)
Theorem global_type_order_correct {H : Host} src garbage fuel s w :
  searchable (prog s) = true ->
  outside src (prog s) (sema s) ->
  work s = Some w -> 0 <= remaining w -> remaining w + 1 < Z.of_nat fuel ->
  exists r s', global_type_order src garbage fuel s = Some (r, s') /\ same_rows (prog s) (prog s') /\
    match r with
    | Some order =>
        NoDup order /\ (forall g, g ∈ order <-> 0 <= g < tcount (prog s) GLOBALS) /\ topological src (prog s) order
    | None => halted s' \/ exists g gl, get_at (tab (prog s) GLOBALS) g = Some gl /\
        diags s' = (gl_name gl, "cyclic inferred global type dependency"%string) :: diags s /\ tc (needs src (prog s)) g g
    end.
Proof.
  intros Hrows Hout Hw Hr Hf. unfold global_type_order. unfold mbind at 1, ast at 1. cbv zeta. set (a := prog s) in *. set (n := tcount a GLOBALS).
  unfold mbind at 1, allocate_bytes at 1. destruct (allocate (world s) _) as [ok1 w1]. unfold mbind at 1, allocate_bytes at 1. cbn [world prog sema diags work].
  destruct (allocate w1 _) as [ok2 w2]. set (s1 := mkSt _ _ _ _ _). assert (about src a (diags s) s1) as Ha by done.
  destruct (negb ok1 || negb ok2). { do 2 eexists. split; [done|]. split; [done|]. left. by right. }
  unfold mbind at 1. assert (0 <= n) as Hn by (unfold n, tcount, zlen; lia).
  destruct (type_roots_spec src garbage a (diags s) Hrows fuel (seqZ 0 n) (mkTypeOrder 0 (replicate (Z.to_nat n) 0) []) s1 w)
    as (r & s' & E & Hres); [done..| | |].
  - split; cbn [to_state to_order]; [unfold zlen; rewrite length_replicate; lia|..|constructor|].
    + intros g. split; [|by intros ?%not_elem_of_nil]. intros [_ Hg]%get_at_Some. by apply lookup_replicate in Hg as [? _].
    + intros g [_ Hg]%get_at_Some. by apply lookup_replicate in Hg as [? _].
    + intros [|] x post y; done.
  - apply Forall_forall. intros g Hg%elem_of_seqZ. lia.
  - rewrite E. do 2 eexists. split; [reflexivity|]. destruct r as [t|]; [|exact Hres]. destruct Hres as (Ha' & Ho & _ & HF). split; [apply Ha'|].
    split; [apply Ho|]. split; [|apply Ho]. intros g. split; [|intros Hg; rewrite Forall_forall in HF; apply HF, elem_of_seqZ; fold n in Hg; lia].
    intros Hg. apply Ho in Hg. apply get_at_Some in Hg as [Hg _]. pose proof (od_size _ _ _ Ho) as Hs. unfold zlen in Hs. lia.
Qed.

(** ** Examples: [x := y; y :: 1], and [x] as a constant *)
Definition text_xy : DynSource := mkSource [] (str "xy") None [] None false false [].
Definition program_xy (e : DynAstExpr) : DynAstProgram :=
  with_rows GLOBALS [mkGlobal (mkDynSpan 0 1) no_span DYN_TYPE_INFER 0 true false; mkGlobal (mkDynSpan 1 2) no_span DYN_TYPE_INFER 1 true false]
    (with_rows EXPRESSIONS [e; Ast.plain_expr DYN_EXPR_INT DYN_OP_NONE DYN_NO_EXPR DYN_NO_EXPR 1] empty_ast).
Definition name_y : DynAstExpr := mkAstExpr DYN_EXPR_NAME DYN_TYPE_INFER (mkDynSpan 1 2) DYN_OP_NONE DYN_NO_EXPR DYN_NO_EXPR 0 (S754_zero false) false 0 0 false.
Definition global_y : DynAstExpr := Ast.plain_expr DYN_EXPR_GLOBAL DYN_OP_NONE DYN_NO_EXPR DYN_NO_EXPR 1.
Definition names_xy (a : DynAstProgram) : SemaNames :=
  match @sema_names_build willing_host a text_xy false tt with Some (Some ix, _) => ix | _ => mkNames [] [] end.
Definition state_xy (e : DynAstExpr) : @St willing_host :=
  @mkSt willing_host (program_xy e) (mkSema 8 (mkNames [] []) (names_xy (program_xy e)) UINT32_MAX 0 [] 0 empty_index) []
    (Some (mkWork 100 1000 0 DYN_WORK_RUNNING)) tt.

(** [x := y()]. *)
Definition call_y : DynAstExpr := mkAstExpr DYN_EXPR_CALL DYN_TYPE_INFER (mkDynSpan 1 2) DYN_OP_NONE DYN_NO_EXPR DYN_NO_EXPR 0 (S754_zero false) false 0 0 false.
Lemma outside_xy : outside text_xy (program_xy call_y) (@sema willing_host (state_xy call_y)).
Proof.
  split; [done|]. split; [|split; [by left|by vm_compute]].
  destruct (@sema_names_build_spec willing_host (program_xy call_y) text_xy false tt) as (r & w & E & Hr); [by vm_compute|].
  unfold state_xy, names_xy. cbn [sema gl_index]. rewrite E. destruct r as [ix|]; [done|]. by vm_compute in E.
Qed.
Lemma global_type_order_witness : exists r s', global_type_order text_xy (fun _ => 0) 102 (state_xy call_y) = Some (r, s') /\
  same_rows (program_xy call_y) (prog s') /\
  match r with
  | Some order => NoDup order /\ (forall g, g ∈ order <-> 0 <= g < tcount (program_xy call_y) GLOBALS) /\
                  topological text_xy (program_xy call_y) order
  | None => halted s' \/ exists g gl, get_at (tab (program_xy call_y) GLOBALS) g = Some gl /\
      diags s' = [(gl_name gl, "cyclic inferred global type dependency"%string)] /\ tc (needs text_xy (program_xy call_y)) g g
  end.
Proof.
  refine (global_type_order_correct text_xy (fun _ => 0) 102 (state_xy call_y) (mkWork 100 1000 0 DYN_WORK_RUNNING) _ outside_xy eq_refl _ _);
    [vm_compute; reflexivity|cbn; lia|cbn; lia].
Defined.
(** The order puts [y] before [x]. *)
Example order_xy : option_map fst (global_type_order text_xy (fun _ => 0) 102 (state_xy name_y)) = Some (Some [1; 0])
  /\ option_map fst (global_type_order text_xy (fun _ => 0) 102 (state_xy call_y)) = Some (Some [1; 0]).
Proof. vm_compute. split; reflexivity. Qed.
