(* ===== verification/LspText.v ===== *)
(** Strings of the language server's messages (src/src/lsp_server.c, lines 22
    to 204): [json_string_after] reads and decodes the string of a field into a
    buffer it allocates, [json_escape] writes a text into a response. *)

From S2P Require Import Prelude LspJson.

(** ** Decoding *)

Definition hex_digit (c : Z) : Z :=
  if (48 <=? c) && (c <=? 57) then c - 48
  else if (97 <=? c) && (c <=? 102) then c - 97 + 10
  else if (65 <=? c) && (c <=? 70) then c - 65 + 10
  else 16.
Fixpoint hex_digits (n : nat) (p : bytes) (code : Z) : option (Z * bytes) :=
  match n with
  | O => Some (code, p)
  | S n' =>
      match p with
      | [] => None
      | c :: q =>
          let digit := hex_digit c in
          if digit =? 16 then None else hex_digits n' q (u32 (Z.lor (Z.shiftl code 4) digit))
      end
  end.
(** The code and the rest of the text, or [false]. *)
Definition json_hex_quad (p : bytes) : option (Z * bytes) := hex_digits 4 p 0.

(** The code point of a [\u] escape and of the low surrogate that follows. *)
Definition code_point (p : bytes) : option (Z * bytes) :=
  let* (code, p) := json_hex_quad p in
  if (0xd800 <=? code) && (code <=? 0xdbff) then
    if negb (starts p [92; 117]) then None
    else
      let* (low, p) := json_hex_quad (skipn 2 p) in
      if (low <? 0xdc00) || (0xdfff <? low) then None
      else Some (0x10000 + Z.shiftl (code - 0xd800) 10 + (low - 0xdc00), p)
  else if (0xdc00 <=? code) && (code <=? 0xdfff) then None
  else Some (code, p).

Fixpoint utf8_tail (n : nat) (code : Z) : bytes :=
  match n with
  | O => []
  | S n' => Z.lor 0x80 (Z.land (Z.shiftr code (6 * Z.of_nat n')) 0x3f) :: utf8_tail n' code
  end.
Definition utf8_bytes (code : Z) : bytes :=
  if code <? 0x80 then [code]
  else
    let '(n, lead) := if code <? 0x800 then (1%nat, 0xc0) else if code <? 0x10000 then (2%nat, 0xe0) else (3%nat, 0xf0) in
    Z.lor lead (Z.shiftr code (6 * Z.of_nat n)) :: utf8_tail n code.

Definition simple_escape (e : Z) : option Z :=
  if e =? 110 then Some 10 else if e =? 114 then Some 13 else if e =? 116 then Some 9
  else if e =? 98 then Some 8 else if e =? 102 then Some 12
  else if (e =? 34) || (e =? 92) || (e =? 47) then Some e else None.

(** [out[at++] = c] in a buffer of [maximum + 1] bytes; [None] is a write out
    of its bounds. *)
Definition filled (out : bytes) : Z := Z.of_nat (length out).
Definition put_byte (maximum : Z) (out : bytes) (c : Z) : option bytes :=
  if filled out <? maximum + 1 then Some (out ++ [c]) else None.
Fixpoint put_all (maximum : Z) (out bs : bytes) : option bytes :=
  match bs with
  | [] => Some out
  | c :: bs => let* out := put_byte maximum out c in put_all maximum out bs
  end.

(** The loop: where it stopped and what it wrote, or [NULL]. *)
Fixpoint string_chars (fuel : nat) (maximum : Z) (p out : bytes) : option (option (bytes * bytes)) :=
  match fuel with
  | O => None
  | S f =>
      match p with
      | [] => Some (Some ([], out))
      | c :: q =>
          if (c =? 34) || (maximum <=? filled out) then Some (Some (p, out))
          else if c =? 92 then
            match q with
            | [] => Some (Some ([], out))
            | e :: q =>
                if e =? 117 then
                  match code_point q with
                  | None => Some None
                  | Some (code, q) =>
                      if code =? 0 then Some None
                      else if maximum - filled out <? Z.of_nat (length (utf8_bytes code)) then Some None
                      else let* out := put_all maximum out (utf8_bytes code) in string_chars f maximum q out
                  end
                else
                  match simple_escape e with
                  | None => Some None
                  | Some c => let* out := put_byte maximum out c in string_chars f maximum q out
                  end
            end
          else let* out := put_byte maximum out c in string_chars f maximum q out
      end
  end.

(** [alloc] says whether the allocation succeeds. *)
Definition json_string_after (alloc : bool) (body key : bytes) (maximum : Z) : option (option bytes) :=
  match lsp_json_find body key with
  | None => Some None
  | Some p =>
      if negb (cstr_get p =? 34) then Some None
      else
        let p := tl p in
        let remaining := Z.of_nat (length p) in
        let maximum := if remaining <? maximum then remaining else maximum in
        if negb alloc then Some None
        else
          let* r := string_chars (length p + 1) maximum p [] in
          match r with
          | None => Some None
          | Some (p, out) => Some (if cstr_get p =? 34 then Some out else None)
          end
  end.

(** ** Encoding *)

Definition hex_char (d : Z) : Z := if d <? 10 then 48 + d else 97 + (d - 10).
Definition escape_char (c : Z) : bytes :=
  if (c =? 34) || (c =? 92) then [92; c]
  else if c =? 10 then [92; 110]
  else if c =? 13 then [92; 114]
  else if c =? 9 then [92; 116]
  else if c <? 32 then [92; 117; 48; 48; hex_char (Z.shiftr c 4); hex_char (Z.land c 15)]
  else [c].
Definition escaped (text : bytes) : bytes := concat (map escape_char text).
(** [NULL] for a text too long or without memory. *)
Definition json_escape (alloc : bool) (text : bytes) : option bytes :=
  if (UINT64_MAX - 1) / 6 <? Z.of_nat (length text) then None
  else if negb alloc then None
  else Some (escaped text).

(** ** What a JSON string means *)

Definition quad (h : bytes) (code : Z) : Prop :=
  length h = 4%nat /\ Forall (fun c => hex_digit c <> 16) h
  /\ code = fold_left (fun v c => 16 * v + hex_digit c) h 0.
(** The code point of the text after [\u]. *)
Inductive code_text : bytes -> Z -> Prop :=
| code_one h code : quad h code -> ~ 0xd800 <= code <= 0xdfff -> code_text h code
| code_two h high l low : quad h high -> quad l low -> 0xd800 <= high <= 0xdbff -> 0xdc00 <= low <= 0xdfff ->
    code_text (h ++ 92 :: 117 :: l) (0x10000 + (high - 0xd800) * 2 ^ 10 + (low - 0xdc00)).
(** The characters of a string and the bytes they stand for. *)
Inductive char_text : bytes -> bytes -> Prop :=
| ct_plain c : c <> 34 -> c <> 92 -> char_text [c] [c]
| ct_simple e c : e <> 117 -> simple_escape e = Some c -> char_text [92; e] [c]
| ct_unicode h code : code_text h code -> code <> 0 -> char_text (92 :: 117 :: h) (utf8_bytes code).
Inductive string_text : bytes -> bytes -> Prop :=
| st_nil : string_text [] []
| st_char c t cs ts : char_text c t -> string_text cs ts -> string_text (c ++ cs) (t ++ ts).

(** ** Lemmas *)

Lemma hex_digit_range c : 0 <= hex_digit c <= 16.
Proof. unfold hex_digit. repeat split_if; lia. Qed.
Lemma hex_digits_iff n : forall p code v q, 0 <= v < 16 ^ (7 - Z.of_nat n) -> (n <= 7)%nat ->
  hex_digits n p v = Some (code, q)
  <-> exists h, p = h ++ q /\ length h = n /\ Forall (fun c => hex_digit c <> 16) h
      /\ code = fold_left (fun v c => 16 * v + hex_digit c) h v.
Proof.
  induction n as [|n IH]; intros p code v q Hv Hn; simpl.
  { split; [intros [= <- <-]; exists []; auto|].
    intros (h & -> & Hl & _ & ->). destruct h; [done | discriminate Hl]. }
  destruct p as [|c p].
  { split; [discriminate|]. intros ([|? h] & E & L & _); discriminate. }
  pose proof (hex_digit_range c) as Hd.
  destruct (Z.eqb_spec (hex_digit c) 16) as [E|E].
  { split; [discriminate|]. intros ([|? h] & E' & L & F & _); [discriminate L|].
    injection E' as <- _. inversion F; done. }
  assert (Hp : 16 ^ (7 - Z.of_nat n) = 16 * 16 ^ (7 - Z.of_nat (S n))).
  { rewrite <- Z.pow_succ_r by lia. f_equal. lia. }
  assert (Hb : 16 ^ (7 - Z.of_nat n) <= 16 ^ 7) by (apply Z.pow_le_mono_r; lia).
  assert (Hs : u32 (Z.lor (Z.shiftl v 4) (hex_digit c)) = 16 * v + hex_digit c).
  { rewrite Z.lor_comm, lor_shift_add by lia. rewrite u32_small; lia. }
  rewrite Hs, IH by lia. split.
  - intros (h & -> & L & F & ->). exists (c :: h). repeat split; simpl; auto.
  - intros ([|c' h] & E' & L & F & ->); [discriminate L|].
    injection E' as <- ->. apply Forall_cons in F as [_ F]. exists h. repeat split; auto.
Qed.
Lemma json_hex_quad_iff p code q : json_hex_quad p = Some (code, q) <-> exists h, p = h ++ q /\ quad h code.
Proof. unfold json_hex_quad, quad. rewrite hex_digits_iff by lia. naive_solver. Qed.
Lemma quad_range h code : quad h code -> 0 <= code < 0x10000.
Proof.
  intros (L & F & ->). destruct h as [|a [|b [|c [|d [|]]]]]; try discriminate L.
  repeat (apply Forall_cons in F as [? F]). simpl.
  pose proof (hex_digit_range a); pose proof (hex_digit_range b); pose proof (hex_digit_range c);
    pose proof (hex_digit_range d). lia.
Qed.

Lemma code_point_complete h code q : code_text h code -> code_point (h ++ q) = Some (code, q).
Proof.
  intros [h' code' Hq Hr | h' high l low Hh Hl R1 R2]; unfold code_point.
  - assert (E : json_hex_quad (h' ++ q) = Some (code', q)) by (apply json_hex_quad_iff; eauto).
    rewrite E; simpl. repeat split_if; to_prop; first [done | lia].
  - assert (E : json_hex_quad ((h' ++ 92 :: 117 :: l) ++ q) = Some (high, [92; 117] ++ l ++ q)).
    { apply json_hex_quad_iff. exists h'. by rewrite <- app_assoc. }
    assert (E2 : json_hex_quad (l ++ q) = Some (low, q)) by (apply json_hex_quad_iff; eauto).
    rewrite E; cbn [mbind option_bind]. destruct (starts_app [92; 117] (l ++ q)) as [-> _].
    change (skipn 2 ([92; 117] ++ l ++ q)) with (l ++ q). rewrite E2; cbn [mbind option_bind negb]. rewrite Z.shiftl_mul_pow2 by lia. zb; try lia; done.
Qed.
Lemma code_point_sound p code q : code_point p = Some (code, q) -> exists h, p = h ++ q /\ code_text h code.
Proof.
  unfold code_point. destruct (json_hex_quad p) as [[high p']|] eqn:E; [cbn [mbind option_bind] | discriminate].
  apply json_hex_quad_iff in E as (h & -> & Hq). intros H. split_if_in H.
  - destruct (starts p' [92; 117]) eqn:Es; [|discriminate H]. cbn [negb] in H.
    apply starts_sound in Es as (r & -> & Hr). change (skipn 2 ([92; 117] ++ r)) with r in H.
    destruct (json_hex_quad r) as [[low p'']|] eqn:E; [cbn [mbind option_bind] in H | discriminate].
    apply json_hex_quad_iff in E as (l & -> & Hl). split_if_in H; [discriminate H|]. injection H as <- <-.
    rewrite Z.shiftl_mul_pow2 by lia. to_prop. exists (h ++ 92 :: 117 :: l). split; [by rewrite <- app_assoc|].
    constructor; auto; lia.
  - split_if_in H; [discriminate H|]. injection H as <- <-. to_prop. exists h. split; [done|]. constructor; [done|lia].
Qed.

Lemma length_utf8_tail n code : length (utf8_tail n code) = n.
Proof. induction n; simpl; auto. Qed.
Lemma code_text_length h code : code_text h code -> (length (utf8_bytes code) <= length h)%nat /\ 0 <= code.
Proof.
  assert (Hu : forall code, (length (utf8_bytes code) <= 4)%nat /\ (code < 0x10000 -> (length (utf8_bytes code) <= 3)%nat)).
  { intros c. unfold utf8_bytes. repeat split_if; to_prop; simpl; rewrite ?length_utf8_tail; lia. }
  intros [h' code' Hq Hr | h' high l low Hh Hl R1 R2]; pose proof (Hu code) as [H1 H2].
  - pose proof (quad_range _ _ Hq). destruct (Hu code') as [? ?], Hq as (-> & _). lia.
  - destruct Hh as (L1 & _), Hl as (L2 & _). rewrite length_app; simpl. rewrite L1, L2.
    destruct (Hu (0x10000 + (high - 0xd800) * 2 ^ 10 + (low - 0xdc00))). lia.
Qed.
Lemma char_text_length c t : char_text c t -> (1 <= length c)%nat /\ (1 <= length t <= length c)%nat.
Proof.
  intros [c' ? ? | e c' ? ? | h code Hc ?]; simpl; try lia.
  pose proof (code_text_length _ _ Hc). assert (1 <= length (utf8_bytes code))%nat; [|lia].
  unfold utf8_bytes. repeat split_if; simpl; lia.
Qed.
Lemma string_text_length cs ts : string_text cs ts -> (length ts <= length cs)%nat.
Proof.
  induction 1 as [|c t cs ts Hc _ IH]; [done|]. apply char_text_length in Hc. rewrite !length_app. lia.
Qed.

Lemma put_byte_fits maximum out c : filled out < maximum + 1 -> put_byte maximum out c = Some (out ++ [c]).
Proof. intros. unfold put_byte. by zb. Qed.
Lemma put_all_fits maximum bs : forall out,
  filled out + Z.of_nat (length bs) <= maximum + 1 -> put_all maximum out bs = Some (out ++ bs).
Proof.
  unfold filled. induction bs as [|c bs IH]; intros out H; simpl in *; [by rewrite app_nil_r|].
  rewrite put_byte_fits by (unfold filled; lia). simpl. rewrite IH by (rewrite length_app; simpl; lia).
  by rewrite <- app_assoc.
Qed.

Lemma string_chars_step f maximum c t p out :
  char_text c t -> filled out + Z.of_nat (length t) <= maximum ->
  string_chars (S f) maximum (c ++ p) out = string_chars f maximum p (out ++ t).
Proof.
  intros Hc Hm. pose proof (char_text_length _ _ Hc) as [_ Hl].
  destruct Hc as [c' H1 H2 | e c' H1 H2 | h code H1 H2]; simpl in Hm, Hl |- *.
  - zb. rewrite put_byte_fits by lia. done.
  - zb. rewrite H2, put_byte_fits by lia. done.
  - zb. rewrite (code_point_complete _ _ _ H1). zb.
    rewrite put_all_fits by lia. done.
Qed.
Lemma string_chars_complete maximum cs ts : string_text cs ts -> forall f out r,
  (length cs < f)%nat -> filled out + Z.of_nat (length ts) <= maximum ->
  string_chars f maximum (cs ++ 34 :: r) out = Some (Some (34 :: r, out ++ ts)).
Proof.
  induction 1 as [|c t cs ts Hc Hs IH]; intros f out r Hf Hm.
  - destruct f; [simpl in Hf; lia|]. simpl. by rewrite app_nil_r.
  - pose proof (char_text_length _ _ Hc). rewrite length_app in *. destruct f as [|f]; [lia|].
    rewrite <- app_assoc, (string_chars_step _ _ _ t), IH; [by rewrite app_assoc | lia | | done | lia].
    unfold filled in *. rewrite length_app. lia.
Qed.

(** The step of the loop at [p], and what it does when there is none. *)
Lemma string_chars_inv f maximum p out :
  filled out <= maximum ->
  (exists c t q, p = c ++ q /\ char_text c t /\ filled out + Z.of_nat (length t) <= maximum)
  \/ string_chars (S f) maximum p out = Some None
  \/ exists r, string_chars (S f) maximum p out = Some (Some (r, out)) /\ (r = p \/ r = []).
Proof.
  intros Ha. destruct p as [|c p]; [right; right; eauto|].
  simpl string_chars. destruct ((c =? 34) || (maximum <=? filled out)) eqn:E1; [right; right; eauto|].
  to_prop. destruct E1 as [E1 E2]. destruct (Z.eqb_spec c 92) as [->|E3].
  2: { left. exists [c], [c], p. split; [done|]. split; [by constructor | simpl; lia]. }
  destruct p as [|e p]; [right; right; eauto|].
  destruct (Z.eqb_spec e 117) as [->|E4].
  - destruct (code_point p) as [[code q]|] eqn:Ec; [|tauto].
    apply code_point_sound in Ec as (h & -> & Hh).
    destruct (Z.eqb_spec code 0) as [E5|E5]; [tauto|].
    destruct (Z.ltb_spec (maximum - filled out) (Z.of_nat (length (utf8_bytes code)))) as [E6|E6]; [tauto|].
    left. exists (92 :: 117 :: h), (utf8_bytes code), q. split; [done|]. split; [by constructor | lia].
  - destruct (simple_escape e) as [c|] eqn:Ee; [|tauto].
    left. exists [92; e], [c], p. split; [done|]. split; [by constructor | simpl; lia].
Qed.
Lemma string_chars_total f : forall maximum p out, (length p < f)%nat -> filled out <= maximum ->
  is_Some (string_chars f maximum p out).
Proof.
  induction f as [|f IH]; intros maximum p out Hf Ha; [lia|].
  destruct (string_chars_inv f maximum p out Ha) as [(c & t & q & -> & Hc & Hm) | [-> | (r & -> & _)]]; eauto.
  rewrite (string_chars_step _ _ _ t) by done. pose proof (char_text_length _ _ Hc).
  unfold filled in *. rewrite !length_app in *. apply IH; [lia | unfold filled; rewrite length_app; lia].
Qed.
Lemma string_chars_sound f : forall maximum p out r out', filled out <= maximum ->
  string_chars f maximum p out = Some (Some (r, out')) -> cstr_get r = 34 ->
  exists cs ts, p = cs ++ r /\ string_text cs ts /\ out' = out ++ ts /\ filled out' <= maximum.
Proof.
  induction f as [|f IH]; intros maximum p out r out' Ha H Hr; [done|].
  destruct (string_chars_inv f maximum p out Ha) as [(c & t & q & -> & Hc & Hm) | [E | (r' & E & E')]].
  - rewrite (string_chars_step _ _ _ t) in H by done.
    apply IH in H as (cs & ts & -> & Hs & -> & Hb); [|unfold filled in *; rewrite length_app; lia | done].
    exists (c ++ cs), (t ++ ts). rewrite <- !app_assoc in *. repeat split; auto. by constructor.
  - congruence.
  - rewrite E in H. injection H as -> ->. destruct E' as [-> | ->]; [|discriminate Hr].
    exists [], []. rewrite app_nil_r. repeat split; auto. constructor.
Qed.

Lemma string_after_exact body key maximum :
  0 <= maximum ->
  exists r, json_string_after true body key maximum = Some r
  /\ forall t, r = Some t <->
       Z.of_nat (length t) <= maximum
       /\ exists cs rest, lsp_json_find body key = Some (34 :: cs ++ 34 :: rest) /\ string_text cs t.
Proof.
  intros Hm. unfold json_string_after. destruct (lsp_json_find body key) as [p|]; [|exists None; naive_solver].
  destruct (Z.eqb_spec (cstr_get p) 34) as [E|E]; cbn [negb].
  2: { exists None. split; [done|]. intros t. split; [done|]. intros (_ & cs & rest & [= ->] & _). done. }
  apply cstr_head in E; [|lia]. rewrite E. set (p' := tl p). change (tl (34 :: p')) with p'.
  set (m := if Z.of_nat (length p') <? maximum then Z.of_nat (length p') else maximum).
  assert (Hmm : 0 <= m <= maximum /\ (m = maximum \/ m = Z.of_nat (length p'))) by (unfold m; destruct (Z.ltb_spec (Z.of_nat (length p')) maximum); lia).
  destruct (string_chars_total (length p' + 1) m p' []) as [r Er]; [lia | unfold filled; simpl; lia|].
  rewrite Er; cbn [mbind option_bind].
  assert (Hiff : forall t, (exists q, r = Some (q, t) /\ cstr_get q = 34) <->
    Z.of_nat (length t) <= maximum /\ exists cs rest, Some (34 :: p') = Some (34 :: cs ++ 34 :: rest) /\ string_text cs t).
  { intros t. split.
    - intros (q & -> & Hq). apply string_chars_sound in Er as (cs & ts & Hp & Hs & -> & Hb); [|unfold filled; simpl; lia|done].
      unfold filled in Hb. simpl in *. split; [lia|]. exists cs, (tl q). apply cstr_head in Hq; [|lia].
      by rewrite <- Hq, Hp.
    - intros (Hl & cs & rest & [= Hp] & Hs). exists (34 :: rest). split; [|done].
      pose proof (string_text_length _ _ Hs). fold p' in Hp.
      assert (length cs < length p')%nat by (rewrite Hp, length_app; simpl; lia).
      rewrite Hp in Er at 2. rewrite (string_chars_complete _ _ _ Hs) in Er by (unfold filled; simpl; lia).
      by injection Er as <-. }
  destruct r as [[q out]|]; eexists; (split; [reflexivity|]); intros t; rewrite <- Hiff.
  - split_if; to_prop; [split; [intros [= ->]; eauto | naive_solver] | split; [done | naive_solver]].
  - naive_solver.
Qed.

(** [json_string_after] always returns, never writing outside the buffer
    it allocates; it returns [t] exactly when the field's value is a string
    whose characters and escapes stand for the bytes [t] and [t] has at most
    [maximum] bytes, and [NULL] otherwise. *)
Theorem json_string_after_exact body key maximum :
  0 <= maximum ->
  exists r, json_string_after true body key maximum = Some r
  /\ forall t, r = Some t <->
       Z.of_nat (length t) <= maximum
       /\ exists cs rest, lsp_json_find body key = Some (34 :: cs ++ 34 :: rest) /\ string_text cs t.
Proof. apply string_after_exact. Qed.

Definition sample_body : bytes :=
  str "{" ++ quoted (str "text") ++ str ":" ++ quoted (str "a\u00e9\n\ud83d\ude00") ++ str "}".
Definition sample_text : bytes := [97; 0xc3; 0xa9; 10; 0xf0; 0x9f; 0x98; 0x80].

Lemma json_string_after_exact_witness :
  json_string_after true sample_body (quoted (str "text")) 8 = Some (Some sample_text)
  /\ exists cs rest, lsp_json_find sample_body (quoted (str "text")) = Some (34 :: cs ++ 34 :: rest)
       /\ string_text cs sample_text.
Proof.
  destruct (json_string_after_exact sample_body (quoted (str "text")) 8 ltac:(lia)) as (r & E & H).
  assert (Hr : r = Some sample_text) by (vm_compute in E; injection E as <-; vm_compute; reflexivity).
  split; [rewrite E, Hr; reflexivity | exact (proj2 (proj1 (H sample_text) Hr))].
Defined.

(** ** Encoded texts *)

Lemma hex_char_digit d : 0 <= d < 16 -> hex_digit (hex_char d) = d.
Proof. intros. assert (In d (map Z.of_nat (seq 0 16))) as Hd by (apply in_map_iff; exists (Z.to_nat d); rewrite in_seq; lia).
  simpl in Hd. repeat destruct Hd as [<-|Hd]; try done. Qed.
Lemma escape_char_text c : 0 < c < 256 -> char_text (escape_char c) [c].
Proof.
  intros Hc. unfold escape_char. repeat split_if; to_prop; subst; try (apply ct_simple; [lia | done]).
  - destruct Heqb as [-> | ->]; apply ct_simple; done.
  - assert (Hs : Z.shiftr c 4 = c / 16) by (rewrite Z.shiftr_div_pow2 by lia; done).
    assert (Hl : Z.land c 15 = c mod 16) by (change 15 with (Z.ones 4); rewrite Z.land_ones by lia; done).
    assert (Hu : utf8_bytes c = [c]) by (unfold utf8_bytes; by zb). rewrite <- Hu.
    apply ct_unicode; [apply code_one | lia]; [|lia].
    rewrite Hs, Hl. pose proof (Z.div_mod c 16). pose proof (Z.mod_pos_bound c 16).
    assert (0 <= c / 16 < 2) by (split; [apply Z.div_pos | apply Z.div_lt_upper_bound]; lia).
    split; [done|]. split.
    + repeat constructor; try done; rewrite hex_char_digit; lia.
    + simpl. rewrite !hex_char_digit by lia. unfold hex_digit; simpl. lia.
  - constructor; lia.
Qed.
Lemma escaped_text t : c_string t -> string_text (escaped t) t.
Proof.
  unfold escaped. induction t as [|c t IH]; intros Hc; [constructor|]. apply Forall_cons in Hc as [H1 H2]. simpl.
  change (c :: t) with ([c] ++ t). constructor; [by apply escape_char_text | by apply IH].
Qed.
Lemma length_escaped t : (length (escaped t) <= 6 * length t)%nat.
Proof.
  unfold escaped. induction t as [|c t IH]; simpl; [lia|]. rewrite length_app.
  assert (length (escape_char c) <= 6)%nat; [|lia]. unfold escape_char. repeat split_if; simpl; lia.
Qed.

(** A key of printable ASCII characters. *)
Definition plain_key (k : bytes) : Prop := Forall (fun c => 32 <= c < 128 /\ c <> 34 /\ c <> 92) k.
(** [{key: "..."}] with a text [json_escape] wrote. *)
Definition message (key text rest : bytes) : bytes :=
  [123] ++ quoted key ++ [58] ++ quoted text ++ rest.

Lemma plain_key_chars k : plain_key k -> json_chars k /\ c_string k.
Proof.
  induction 1 as [|c k (H1 & H2 & H3) _ [IH1 IH2]]; [split; constructor|].
  split; [apply (chars_cons [c] k); [by constructor | done] | constructor; [lia | done]].
Qed.
Lemma key_loop_plain k : plain_key k -> forall f, (length k < f)%nat -> key_loop f k (k ++ [34]) = true.
Proof.
  induction 1 as [|c k (H1 & H2 & H3) _ IH]; intros [|f] Hf; simpl in *; try lia.
  zb. apply IH. lia.
Qed.
Lemma lsp_json_end_key k r : plain_key k -> lsp_json_end (quoted k ++ r) 0 = Some r.
Proof.
  intros Hk. apply plain_key_chars in Hk as [H1 H2]. unfold lsp_json_end, quoted.
  rewrite Nat.add_comm. cbn [json_end Nat.add app lsp_json_space is_space].
  change (is_space 34) with false. cbn [cstr_get tl]. change (128 <? 0) with false. cbn [Z.eqb Pos.eqb].
  rewrite <- app_assoc. apply (string_loop_complete k H1); [exact H2|]. cbn [length app]. rewrite length_app. lia.
Qed.
Lemma lsp_json_find_message k text rest :
  plain_key k -> lsp_json_find (message k text rest) (quoted k) = Some (quoted text ++ rest).
Proof.
  intros Hk. unfold lsp_json_find, message. rewrite Nat.add_comm. set (tail := [58] ++ quoted text ++ rest).
  cbn [json_find Nat.add app lsp_json_space]. change (is_space 123) with false. cbv iota zeta.
  replace (lsp_json_member (123 :: quoted k ++ tail) (quoted k)) with (Some (quoted text ++ rest)); [done|].
  unfold lsp_json_member. cbn [lsp_json_space]. change (is_space 123) with false. cbn [cstr_get tl Z.eqb Pos.eqb negb].
  rewrite space_stop by done. cbn [length member_loop]. change (cstr_get (quoted k ++ tail) =? 34) with true. cbv iota.
  rewrite lsp_json_end_key by done. cbn [mbind option_bind].
  replace (lsp_json_key_equal (quoted k ++ tail) tail (quoted k)) with true; [done|].
  symmetry. unfold lsp_json_key_equal.
  replace (length (quoted k ++ tail) - length tail - 2)%nat with (length k)
    by (unfold quoted; rewrite !length_app; simpl; lia).
  change (tl (quoted k ++ tail)) with ((k ++ [34]) ++ tail). rewrite <- app_assoc, take_app_length.
  apply key_loop_plain; [done | lia].
Qed.

(** A text without NUL bytes that the server writes into a field with
    [json_escape] is read back unchanged by [json_string_after], for every
    text [json_escape] does not refuse as too long; the text written has at
    most six bytes per byte of the text, what it allocates. *)
Theorem json_escape_roundtrip key text out rest maximum :
  plain_key key -> c_string text -> Z.of_nat (length text) <= maximum ->
  json_escape true text = Some out ->
  json_string_after true (message key out rest) (quoted key) maximum = Some (Some text)
  /\ (length out <= 6 * length text)%nat.
Proof.
  intros Hk Ht Hm Ho. assert (out = escaped text) as ->.
  { unfold json_escape in Ho. split_if_in Ho; [discriminate Ho|]. by injection Ho. }
  split; [|apply length_escaped].
  destruct (string_after_exact (message key (escaped text) rest) (quoted key) maximum ltac:(lia)) as (r & -> & Hr).
  f_equal. apply Hr. split; [done|]. rewrite lsp_json_find_message by done.
  exists (escaped text), rest. split; [|by apply escaped_text]. unfold quoted. cbn [app]. by rewrite <- app_assoc.
Qed.
Lemma json_escape_roundtrip_witness :
  let text := str "a\b" ++ [10; 1; 34; 0xc3; 0xa9] in
  let out := str "a\\b\n\u0001\" ++ [34; 0xc3; 0xa9] in
  json_escape true text = Some out
  /\ json_string_after true (message (str "text") out [125]) (quoted (str "text")) 100 = Some (Some text).
Proof.
  split; [vm_compute; reflexivity|].
  refine (proj1 (json_escape_roundtrip (str "text") (str "a\b" ++ [10; 1; 34; 0xc3; 0xa9]) _ [125] 100 _ _ _ _));
    [| | vm_compute; done | vm_compute; reflexivity]; apply (bool_decide_unpack _); vm_compute; exact I.
Defined.
