(* ===== verification/LspInput.v ===== *)
(** Message framing of the language server (src/src/lsp_input.h): one buffer
    that reads collect bytes in, and from which [lsp_input_next] takes the
    next message.

    The outside is a [world]: the bytes the client will have sent, and what
    each turn of the loop meets in [poll], [realloc] and [read].  A turn reads
    an arbitrary part of what is left, so a theorem for every list of turns is
    a theorem for every way the bytes arrive.  When the turns run out the loop
    still waits, which is the result [None].  The branch for Windows is not
    modelled. *)

From S2P Require Import Prelude LspJson.

(** ** The outside *)

Inductive poll_answer := PollInterrupted | NotReady | PollFailed | Ready.
(** [Chunk n]: at most [n + 1] bytes arrive, none at the end of the stream. *)
Inductive got := ReadInterrupted | ReadFailed | Chunk (n : nat).
Record turn := { t_polls : list poll_answer; t_realloc : bool; t_got : got }.
Record world := { w_stream : bytes; w_turns : list turn }.

(** ** The buffer *)

(** [data] holds the bytes up to [length]; a NUL follows them. *)
Record LspInput := { data : bytes; capacity : Z; eof : bool; failed : bool }.
Definition in_start : LspInput := {| data := []; capacity := 0; eof := false; failed := false |}.
Definition in_length (i : LspInput) : Z := Z.of_nat (length (data i)).
Definition limit : Z := 16 * 1024 * 1024.
Definition header_limit : Z := 8192.
Definition fail_input (i : LspInput) : LspInput :=
  {| data := data i; capacity := capacity i; eof := eof i; failed := true |}.

(** ** The header *)

Fixpoint c_text (s : bytes) : bytes :=
  match s with
  | [] => []
  | c :: s => if c =? 0 then [] else c :: c_text s
  end.
Fixpoint find_text (s needle : bytes) : option nat :=
  if starts s needle then Some O
  else match s with
       | [] => None
       | _ :: s => match find_text s needle with Some n => Some (S n) | None => None end
       end.
(** The offset [strstr] finds. *)
Definition find_string (s needle : bytes) : option nat := find_text (c_text s) needle.
Definition header_end (s : bytes) : nat :=
  match find_string s [13; 10; 13; 10] with
  | Some n => n + 4
  | None => match find_string s [10; 10] with Some n => n + 2 | None => 0 end
  end.

Definition tolower (c : Z) : Z := if (65 <=? c) && (c <=? 90) then c + 32 else c.
Definition content_length : bytes := str "content-length:".
(** [!strncasecmp(line, "Content-Length:", 15)] *)
Definition is_content_length (line : bytes) : bool :=
  bytes_eqb (map tolower (firstn 15 line)) content_length.
Fixpoint skip_blank (p : bytes) : bytes :=
  match p with
  | c :: q => if (c =? 32) || (c =? 9) then skip_blank q else p
  | [] => []
  end.
(** The length of a Content-Length line, or a failure. *)
Definition length_value (line : bytes) : option Z :=
  let number := skip_blank (skipn 15 line) in
  if negb (isdigit (cstr_get number)) then None
  else
    let '(value, tail) := strtoull number 0 in
    let* value := value in
    if (value =? 0) || (limit <? value) || (negb (cstr_get tail =? 13) && negb (cstr_get tail =? 10)) then None
    else Some value.
(** [memchr(line, '\n', size)], as the offset after the newline. *)
Fixpoint newline_after (line : bytes) (size : nat) : option nat :=
  match size, line with
  | S size, c :: line =>
      if c =? 10 then Some 1%nat else match newline_after line size with Some n => Some (S n) | None => None end
  | _, _ => None
  end.
(** The lines before [stop], which is [size] bytes further: the length found,
    or a failure. *)
Fixpoint header_lines (fuel : nat) (line : bytes) (size : nat) (found : option Z) : option (option Z) :=
  match fuel with
  | O => None
  | S f =>
      if (size =? 0)%nat then Some found
      else
        let* found :=
          (if is_content_length line then
             match found with
             | Some _ => None
             | None => match length_value line with Some v => Some (Some v) | None => None end
             end
           else Some found) in
        match newline_after line size with
        | None => Some found
        | Some n => header_lines f (skipn n line) (size - n) found
        end
  end.

(** ** One message from the buffer *)

(** The C string of a body; one with a NUL inside is emptied. *)
Definition body_text (body : bytes) : bytes := if one_of 0 body then [] else body.
Inductive framing := NoFrame | BadFrame | Frame (body rest : bytes).
Definition take_frame (malloc : bool) (s : bytes) : framing :=
  if (length s =? 0)%nat then NoFrame
  else
    let stop := header_end s in
    if (stop =? 0)%nat then if header_limit <=? Z.of_nat (length s) then BadFrame else NoFrame
    else
      match header_lines (S stop) s stop None with
      | None | Some None => BadFrame
      | Some (Some body_length) =>
          if header_limit <? Z.of_nat stop then BadFrame
          else if Z.of_nat stop + body_length <=? Z.of_nat (length s) then
            if negb malloc then BadFrame
            else
              let size := Z.to_nat body_length in
              Frame (body_text (firstn size (skipn stop s))) (skipn (stop + size) s)
          else NoFrame
      end.

(** ** Reading *)

Definition max_capacity : Z := limit + header_limit + 4096.
Definition new_capacity (capacity : Z) : Z :=
  let capacity := if capacity =? 0 then 8192 else capacity * 2 in
  if max_capacity <? capacity then max_capacity else capacity.
(** The buffer with room for a read, or a failure. *)
Definition grow_input (realloc : bool) (i : LspInput) : option LspInput :=
  if capacity i - in_length i <? 4097 then
    let capacity := new_capacity (capacity i) in
    if capacity <=? in_length i + 1 then None
    else if negb realloc then None
    else Some {| data := data i; capacity := capacity; eof := eof i; failed := failed i |}
  else Some i.

(** A [read] of at most [n + 1] bytes into the room left: the buffer and what is
    left to read. *)
Definition read_chunk (i : LspInput) (n : nat) (stream : bytes) : LspInput * bytes :=
  let size := Nat.min (S n) (Z.to_nat (capacity i - in_length i - 1)) in
  ({| data := data i ++ firstn size stream; capacity := capacity i;
      eof := (length (firstn size stream) =? 0)%nat; failed := failed i |}, skipn size stream).
(** The [poll] loop: an interrupted call is repeated, and one that waits is
    never [NotReady]; [None] while it waits. *)
Fixpoint poll_loop (wait : bool) (polls : list poll_answer) : option poll_answer :=
  match polls with
  | [] => None
  | PollInterrupted :: polls => poll_loop wait polls
  | NotReady :: polls => if wait then poll_loop wait polls else Some NotReady
  | p :: _ => Some p
  end.

(** What the buffer decides alone: a message, or the end after a failure, a bad
    frame or the end of the stream; [None] when more bytes are needed. *)
Definition from_buffer (malloc : bool) (i : LspInput) : option (option bytes * LspInput) :=
  match take_frame malloc (data i) with
  | Frame body rest => Some (Some body, {| data := rest; capacity := capacity i; eof := eof i; failed := failed i |})
  | BadFrame => Some (None, fail_input i)
  | NoFrame => if eof i || failed i then Some (None, if in_length i =? 0 then i else fail_input i) else None
  end.

(** The result, [None] while it waits: the body or [NULL], the buffer and the
    outside afterwards.  [malloc] says whether a body can be allocated. *)
Fixpoint input_loop (malloc wait : bool) (i : LspInput) (stream : bytes) (turns : list turn)
    : option (option bytes * LspInput * world) :=
  match from_buffer malloc i with
  | Some (r, i) => Some (r, i, {| w_stream := stream; w_turns := turns |})
  | None =>
      match turns with
      | [] => None
      | t :: turns =>
          let done r i := Some (r, i, {| w_stream := stream; w_turns := turns |}) in
          match poll_loop wait (t_polls t) with
          | None => None
          | Some NotReady => done None i
          | Some PollFailed | Some PollInterrupted => done None (fail_input i)
          | Some Ready =>
              match grow_input (t_realloc t) i with
              | None => done None (fail_input i)
              | Some i =>
                  match t_got t with
                  | ReadInterrupted => input_loop malloc wait i stream turns
                  | ReadFailed => done None (fail_input i)
                  | Chunk n => let '(i, stream) := read_chunk i n stream in input_loop malloc wait i stream turns
                  end
              end
          end
      end
  end.
Definition lsp_input_next (malloc wait : bool) (i : LspInput) (w : world) : option (option bytes * LspInput * world) :=
  input_loop malloc wait i (w_stream w) (w_turns w).

(** ** The buffer's invariant *)

Definition input_ok (i : LspInput) : Prop :=
  (capacity i = 0 /\ data i = []) \/ (8192 <= capacity i <= max_capacity /\ in_length i < capacity i).

(** The bytes that no message was taken from yet. *)
Definition unread (i : LspInput) (w : world) : bytes := data i ++ w_stream w.
(** [seen] starts with a header, which ends at its first empty line and
    announces the length of [content], and with [content]. *)
Definition framed (header content seen : bytes) : Prop :=
  (exists tail, seen = header ++ content ++ tail)
  /\ header_end seen = length header
  /\ header_lines (S (length header)) seen (length header) None = Some (Some (Z.of_nat (length content)))
  /\ Z.of_nat (length header) <= header_limit /\ 0 < Z.of_nat (length content) <= limit.

Lemma length_value_bounds line v : length_value line = Some v -> 0 < v <= limit.
Proof.
  unfold length_value. intros H. split_if_in H; [discriminate H|].
  destruct (strtoull _ 0) as [[value|] tail] eqn:E; [|discriminate H].
  assert (0 <= value).
  { assert (G : forall p acc v t, 0 <= acc -> strtoull p acc = (Some v, t) -> 0 <= v).
    { intros p. induction p as [|c p IH]; intros acc v' t Ha; simpl; [split_if; naive_solver|].
      split_if; [|split_if; naive_solver]. apply IH. unfold isdigit in *. to_prop. lia. }
    by apply G in E. }
  split_if_in H; [discriminate H|]. injection H as <-. to_prop. lia.
Qed.
Lemma header_lines_bounds f : forall line size found v,
  (forall w, found = Some w -> 0 < w <= limit) ->
  header_lines f line size found = Some (Some v) -> 0 < v <= limit.
Proof.
  induction f as [|f IH]; intros line size found v Hf H; [discriminate H|]. cbn [header_lines] in H.
  destruct (size =? 0)%nat; [injection H; apply Hf|].
  destruct (if is_content_length line then _ else _) as [found'|] eqn:E; [|discriminate H].
  assert (Hf' : forall w, found' = Some w -> 0 < w <= limit).
  { intros w ->. split_if_in E; [|injection E; apply Hf]. destruct found; [discriminate E|].
    destruct (length_value line) eqn:E'; [|discriminate E]. injection E as <-. by apply length_value_bounds in E'. }
  destruct (newline_after line size); [by eapply IH | injection H; apply Hf'].
Qed.
Lemma take_frame_split malloc s body rest :
  take_frame malloc s = Frame body rest ->
  exists header content, s = header ++ content ++ rest /\ framed header content s /\ body = body_text content.
Proof.
  unfold take_frame. intros H. split_if_in H; [discriminate H|].
  destruct (header_end s =? 0)%nat eqn:E0; [split_if_in H; discriminate H|].
  destruct (header_lines _ s _ None) as [[size|]|] eqn:Eh; try discriminate H.
  split_if_in H; [discriminate H|]. split_if_in H; [|discriminate H]. split_if_in H; [discriminate H|].
  injection H as <- <-. to_prop. assert (Hb : 0 < size <= limit) by (eapply header_lines_bounds; [|exact Eh]; intros; discriminate).
  set (stop := header_end s) in *. exists (firstn stop s), (firstn (Z.to_nat size) (skipn stop s)).
  assert (Hs : s = firstn stop s ++ firstn (Z.to_nat size) (skipn stop s) ++ skipn (stop + Z.to_nat size) s).
  { rewrite <- (drop_drop s), !take_drop. done. }
  assert (L1 : length (firstn stop s) = stop) by (rewrite length_firstn; lia).
  assert (L2 : length (firstn (Z.to_nat size) (skipn stop s)) = Z.to_nat size)
    by (rewrite length_firstn, length_skipn; lia).
  split; [done|]. split; [|done]. unfold framed. rewrite L1, L2, Z2Nat.id by lia. split_and!; eauto; lia.
Qed.

Lemma new_capacity_range c : c = 0 \/ 8192 <= c <= max_capacity ->
  8192 <= new_capacity c <= max_capacity /\ (new_capacity c = max_capacity \/ c * 2 <= new_capacity c).
Proof.
  unfold new_capacity, max_capacity, limit, header_limit. intros H.
  destruct (Z.eqb_spec c 0) as [->|]; [cbv; split; [split | right]; discriminate|].
  cbv zeta. destruct (Z.ltb_spec (16 * 1024 * 1024 + 8192 + 4096) (c * 2)); lia.
Qed.
Lemma grow_ok realloc i i' : input_ok i -> grow_input realloc i = Some i' ->
  input_ok i' /\ data i' = data i /\ eof i' = eof i /\ failed i' = failed i /\ in_length i + 2 <= capacity i'.
Proof.
  unfold grow_input. intros Hi H. pose proof (new_capacity_range (capacity i) ltac:(unfold input_ok in Hi; tauto)).
  split_if_in H; [|injection H as <-; to_prop; split_and!; auto; lia].
  split_if_in H; [discriminate H|]. split_if_in H; [discriminate H|]. injection H as <-. simpl. to_prop.
  split_and!; try done; [|lia]. right. simpl. change (in_length _) with (in_length i). lia.
Qed.
Lemma grow_succeeds i : input_ok i -> in_length i < limit + header_limit -> is_Some (grow_input true i).
Proof.
  unfold grow_input, input_ok. intros Hi Hl. pose proof (new_capacity_range (capacity i) ltac:(tauto)).
  split_if; [|eauto]. unfold max_capacity, limit, header_limit in *.
  assert (in_length i + 1 < new_capacity (capacity i)); [|by zb; eauto].
  destruct Hi as [[Hc Hd] | Hi]; [unfold in_length in *; rewrite Hd in *; simpl in *|]; lia.
Qed.

Lemma read_chunk_ok i n stream i' stream' :
  input_ok i -> in_length i + 2 <= capacity i -> read_chunk i n stream = (i', stream') ->
  input_ok i' /\ data i' ++ stream' = data i ++ stream /\ failed i' = failed i
  /\ (stream <> [] -> eof i' = false /\ (length stream' < length stream)%nat)
  /\ (stream = [] -> eof i' = true /\ data i' = data i /\ stream' = []).
Proof.
  unfold read_chunk, input_ok, in_length. intros Hi Hr H.
  set (size := Nat.min (S n) (Z.to_nat (capacity i - Z.of_nat (length (data i)) - 1))) in H.
  assert (Hs : (1 <= size)%nat /\ Z.of_nat size <= capacity i - Z.of_nat (length (data i)) - 1) by lia.
  clearbody size. injection H as <- <-. cbn [data capacity eof failed].
  split_and!.
  - right. rewrite length_app, length_firstn. destruct Hi as [[Hc _] | Hi]; [exfalso|]; lia.
  - by rewrite <- app_assoc, take_drop.
  - done.
  - intros Hn. destruct stream as [|c stream]; [done|]. destruct size; [lia|]. simpl. rewrite length_skipn. split; [done|lia].
  - intros ->. rewrite firstn_nil, skipn_nil, app_nil_r. done.
Qed.

(** The result of a call, whatever the outside does: the buffer stays within
    its bounds, and a message takes exactly one frame off the unread bytes. *)
Definition call_ok (before : bytes) (r : option bytes) (i : LspInput) (w : world) : Prop :=
  input_ok i
  /\ match r with
     | None => unread i w = before
     | Some body => exists header content seen rest,
         before = seen ++ rest /\ framed header content seen /\ body = body_text content
         /\ before = header ++ content ++ unread i w
     end.
Lemma fail_input_ok i : input_ok i -> input_ok (fail_input i).
Proof. done. Qed.
Lemma from_buffer_ok malloc i stream turns r i' :
  input_ok i -> from_buffer malloc i = Some (r, i') ->
  call_ok (data i ++ stream) r i' {| w_stream := stream; w_turns := turns |}.
Proof.
  unfold from_buffer. intros Hi H. destruct (take_frame malloc (data i)) as [| |body rest] eqn:E.
  - split_if_in H; [|discriminate H]. injection H as <- <-. by destruct (in_length i =? 0).
  - by injection H as <- <-.
  - apply take_frame_split in E as (header & content & Hd & Hf & ->). injection H as <- <-. split.
    + right. destruct Hf as (_ & _ & _ & _ & Hc). unfold in_length in *; simpl.
      destruct Hi as [[_ Hi] | Hi]; [rewrite Hi in Hd; apply (f_equal length) in Hd|];
        [|unfold in_length in Hi; rewrite Hd in Hi]; rewrite !length_app in *; simpl in *; lia.
    + exists header, content, (data i), stream. split_and!; try done. unfold unread; simpl.
      rewrite Hd. by rewrite <- !app_assoc.
Qed.
Lemma input_loop_ok malloc wait : forall turns i stream r i' w',
  input_ok i -> input_loop malloc wait i stream turns = Some (r, i', w') -> call_ok (data i ++ stream) r i' w'.
Proof.
  induction turns as [|t turns IH]; intros i stream r i' w' Hi H; cbn [input_loop] in H;
    destruct (from_buffer malloc i) as [[r0 i0]|] eqn:E; try (injection H as <- <- <-; by eapply from_buffer_ok);
    [done|].
  destruct (poll_loop wait (t_polls t)) as [[| | |]|]; try (by injection H as <- <- <-); [|done].
  destruct (grow_input (t_realloc t) i) as [i1|] eqn:Eg; [|by injection H as <- <- <-].
  destruct (grow_ok _ _ _ Hi Eg) as (Hi1 & Hd1 & _ & _ & Hr). rewrite <- Hd1.
  destruct (t_got t) as [| |n]; [by apply IH in H | by injection H as <- <- <- |].
  destruct (read_chunk i1 n stream) as [i2 stream2] eqn:Er.
  apply read_chunk_ok in Er as (Hi2 & Hd & _); [|done|unfold in_length in *; rewrite Hd1; lia].
  rewrite <- Hd. by apply IH in H.
Qed.

(** ** Frames as the protocol writes them *)

(** A header of lines with one Content-Length line, each ended by a carriage
    return and a newline, an empty line, and the body. *)
Record wire_frame := { f_before : list bytes; f_name : bytes; f_blank : bytes; f_digits : bytes;
                  f_after : list bytes; f_body : bytes }.
Definition crlf (lines : list bytes) : bytes := concat (map (fun l => l ++ [13; 10]) lines).
Definition f_line (f : wire_frame) : bytes := f_name f ++ f_blank f ++ f_digits f.
Definition f_lines (f : wire_frame) : list bytes := f_before f ++ [f_line f] ++ f_after f.
Definition f_header (f : wire_frame) : bytes := crlf (f_lines f) ++ [13; 10].
Definition frame_bytes (f : wire_frame) : bytes := f_header f ++ f_body f.

Definition no_break (l : bytes) : Prop := l <> [] /\ Forall (fun c => c <> 0 /\ c <> 10 /\ c <> 13) l.
Definition other_line (l : bytes) : Prop := no_break l /\ is_content_length l = false.
Definition decimal_value (ds : bytes) : Z := fold_left (fun v c => v * 10 + (c - 48)) ds 0.
Definition frame_ok (f : wire_frame) : Prop :=
  Forall other_line (f_before f) /\ Forall other_line (f_after f)
  /\ map tolower (f_name f) = content_length /\ Forall (fun c => c = 32 \/ c = 9) (f_blank f)
  /\ f_digits f <> [] /\ digit_text (f_digits f)
  /\ decimal_value (f_digits f) = Z.of_nat (length (f_body f)) /\ 0 < Z.of_nat (length (f_body f)) <= limit
  /\ Z.of_nat (length (f_header f)) <= header_limit.

(** *** Where a header ends *)

Lemma find_text_mono needle : forall s n r,
  find_text s needle = Some n -> exists m, find_text (s ++ r) needle = Some m /\ (m <= n)%nat /\ (n + length needle <= length s)%nat.
Proof.
  assert (Hst : forall s r, starts s needle = true -> starts (s ++ r) needle = true /\ (length needle <= length s)%nat).
  { intros s r H. apply starts_sound in H as (q & -> & _). rewrite <- app_assoc.
    split; [apply starts_app | rewrite length_app; lia]. }
  induction s as [|c s IH]; intros n r H; cbn [find_text app] in *.
  - destruct (starts [] needle) eqn:E; [|discriminate H]. injection H as <-.
    destruct (Hst [] r E) as [E' ?]. exists O. split_and!; [|lia|lia].
    cbn [app] in E'. destruct r; cbn [find_text]; by rewrite E'.
  - destruct (starts (c :: s) needle) eqn:E.
    + injection H as <-. destruct (Hst _ r E) as [E' ?]. rewrite app_comm_cons, E'. exists O. split_and!; [done|lia|lia].
    + destruct (find_text s needle) as [k|] eqn:Ef; [|discriminate H]. injection H as <-.
      destruct (IH k r eq_refl) as (m & -> & ? & ?). simpl. destruct (starts (c :: s ++ r) needle); eexists; split_and!; eauto; lia.
Qed.
Lemma starts_no needle c s : cstr_get needle <> c -> needle <> [] -> starts (c :: s) needle = false.
Proof. destruct needle as [|d needle]; [done|]. intros H _. by apply starts_head. Qed.
Lemma find_text_skip needle l s :
  needle <> [] -> Forall (fun c => c <> cstr_get needle) l ->
  find_text (l ++ s) needle = option_map (fun n => (length l + n)%nat) (find_text s needle).
Proof.
  intros Hn. induction 1 as [|c l Hc _ IH]; [cbn [app]; by destruct (find_text s needle)|]. cbn [app find_text].
  rewrite starts_no by auto. rewrite IH. by destruct (find_text s needle).
Qed.
Lemma no_break_without l d : no_break l -> d = 10 \/ d = 13 -> Forall (fun c => c <> d) l.
Proof. intros [_ H] Hd. eapply Forall_impl; [exact H|]. simpl. intros c ?. lia. Qed.
Lemma crlf_cons l ls : crlf (l :: ls) = l ++ 13 :: 10 :: crlf ls.
Proof. unfold crlf. simpl. by rewrite <- app_assoc. Qed.
(** What follows the end of a line starts another line or is the empty line. *)
Lemma crlf_head ls r : Forall no_break ls -> exists c q, crlf ls ++ 13 :: 10 :: r = c :: q /\ c <> 10 /\ (ls <> [] -> c <> 13).
Proof.
  destruct ls as [|l ls]; intros H; [eexists _, _; split; [reflexivity | done]|].
  apply Forall_cons in H as [[Hn Hl] _]. destruct l as [|c l]; [done|]. apply Forall_cons in Hl as [Hc _].
  rewrite crlf_cons. eexists c, _. split; [reflexivity | split; [lia | lia]].
Qed.
Lemma find_empty_line ls r : ls <> [] -> Forall no_break ls ->
  find_text (crlf ls ++ 13 :: 10 :: r) [13; 10; 13; 10] = Some (length (crlf ls) - 2)%nat.
Proof.
  intros Hn H. induction H as [|l ls Hl Hls IH]; [done|]. rewrite crlf_cons, <- app_assoc, length_app. cbn [app length].
  rewrite find_text_skip by (try done; by apply no_break_without; auto).
  destruct (decide (ls = [])) as [->|Hne].
  - cbn [crlf map concat app find_text]. pose proof (proj1 (starts_app [13; 10; 13; 10] r)) as Hs.
    cbn [app] in Hs. rewrite Hs. simpl. f_equal. lia.
  - destruct (crlf_head ls r Hls) as (c & q & E & _ & Hc). rewrite E in *. specialize (Hc Hne). specialize (IH Hne).
    cbn [find_text]. destruct (starts (13 :: 10 :: c :: q) _) eqn:Es.
    { apply starts_sound in Es as (r' & Es & _). simpl in Es. congruence. }
    rewrite starts_no by done. cbn [find_text] in IH. rewrite IH. simpl. f_equal.
    destruct ls as [|l' ls]; [done|]. rewrite crlf_cons, length_app. simpl. lia.
Qed.
Lemma find_blank_line ls : Forall no_break ls -> find_text (crlf ls ++ [13; 10]) [10; 10] = None.
Proof.
  induction 1 as [|l ls Hl Hls IH]; [reflexivity|]. rewrite crlf_cons, <- app_assoc. cbn [app].
  rewrite find_text_skip by (try done; by apply no_break_without; auto).
  destruct (crlf_head ls [] Hls) as (c & q & E & Hc & _). rewrite E in *.
  cbn [find_text] in *. rewrite starts_no by done. destruct (starts (10 :: c :: q) [10; 10]) eqn:Es.
  { apply starts_sound in Es as (r' & Es & _). simpl in Es. congruence. }
  by rewrite IH.
Qed.

Lemma c_text_app l r : Forall (fun c => c <> 0) l -> c_text (l ++ r) = l ++ c_text r.
Proof. induction 1 as [|c l Hc _ IH]; [done|]. simpl. zb. by rewrite IH. Qed.
Lemma crlf_no_nul ls : Forall no_break ls -> Forall (fun c => c <> 0) (crlf ls ++ [13; 10]).
Proof.
  intros H. apply Forall_app. split; [|repeat constructor; lia].
  induction H as [|l ls [_ Hl] _ IH]; [constructor|]. rewrite crlf_cons. apply Forall_app. split.
  - eapply Forall_impl; [exact Hl|]. simpl. tauto.
  - repeat constructor; [lia | lia | done].
Qed.
Section header.
Context (lines : list bytes) (Hne : lines <> []) (Hok : Forall no_break lines).
#[local] Abbreviation header := (crlf lines ++ [13; 10]).

Lemma header_end_complete r : header_end (header ++ r) = length header.
Proof using Hne Hok.
  unfold header_end, find_string. rewrite c_text_app by by apply crlf_no_nul. rewrite <- app_assoc. cbn [app].
  rewrite find_empty_line by done. rewrite length_app. simpl.
  destruct lines as [|l ls]; [done|]. rewrite crlf_cons, length_app. simpl. lia.
Qed.
Lemma header_end_partial p q : header = p ++ q -> q <> [] -> header_end p = 0%nat.
Proof using Hne Hok.
  intros E Hq. pose proof (crlf_no_nul _ Hok) as Hz. pose proof (find_empty_line lines [] Hne Hok) as H4.
  pose proof (find_blank_line lines Hok) as H2. rewrite E in *. apply Forall_app in Hz as [Hz _].
  unfold header_end, find_string. pose proof (c_text_app p [] Hz) as Hp. simpl in Hp. rewrite !app_nil_r in Hp. rewrite Hp.
  destruct (find_text p [13; 10; 13; 10]) as [n|] eqn:En.
  { apply (find_text_mono _ _ _ q) in En as (m & Em & ? & ?). rewrite H4 in Em. injection Em as <-. exfalso.
    apply (f_equal length) in E. rewrite !length_app in E. simpl in *.
    destruct q; [done|]. simpl in E. lia. }
  destruct (find_text p [10; 10]) as [n|] eqn:En2; [|done].
  apply (find_text_mono _ _ _ q) in En2 as (m & Em & _). congruence.
Qed.
End header.

(** *** What a header announces *)

Lemma is_content_length_line l r : is_content_length (l ++ 13 :: r) = is_content_length l.
Proof.
  unfold is_content_length, bytes_eqb. apply bool_decide_ext.
  destruct (le_lt_dec 15 (length l)) as [Hl|Hl]; [by rewrite take_app_le|].
  assert (Hf : forall q, firstn 15 (l ++ 13 :: q) !! length l = Some 13).
  { intros q. rewrite lookup_take_lt by lia. apply list_lookup_middle. done. }
  assert (Hc : content_length !! length l <> Some 13).
  { intros E. apply list_elem_of_lookup_2 in E. revert E. apply (bool_decide_unpack _). vm_compute. exact I. }
  split; intros E; exfalso.
  - apply Hc. by rewrite <- E, list_lookup_fmap, Hf.
  - rewrite take_ge in E by lia. apply (f_equal length) in E. rewrite length_map in E. vm_compute (length content_length) in E. lia.
Qed.
Lemma after_newline_line l r size : Forall (fun c => c <> 10) l -> (length l + 2 <= size)%nat ->
  newline_after (l ++ 13 :: 10 :: r) size = Some (length l + 2)%nat.
Proof.
  intros H. revert size. induction H as [|c l Hc _ IH]; intros size Hs; destruct size as [|size]; simpl in *; try lia.
  - destruct size; [lia|]. done.
  - zb. rewrite IH by lia. f_equal.
Qed.
(** A line is passed with what it says of the length. *)
Lemma header_lines_line fuel l r size found found' :
  Forall (fun c => c <> 10) l -> (length l + 2 <= size)%nat ->
  (if is_content_length l then
     match found with
     | Some _ => None
     | None => match length_value (l ++ 13 :: 10 :: r) with Some v => Some (Some v) | None => None end
     end
   else Some found) = Some found' ->
  header_lines (S fuel) (l ++ 13 :: 10 :: r) size found = header_lines fuel r (size - (length l + 2)) found'.
Proof.
  intros Hl Hs H. cbn [header_lines]. destruct (Nat.eqb_spec size 0); [lia|].
  rewrite is_content_length_line, H, after_newline_line by done.
  replace (skipn (length l + 2) (l ++ 13 :: 10 :: r)) with r; [done|].
  rewrite drop_app_ge by lia. replace (length l + 2 - length l)%nat with 2%nat by lia. done.
Qed.
Lemma header_lines_other ls r : Forall other_line ls -> forall fuel size found,
  (length (crlf ls) + 2 <= size)%nat -> (size < fuel)%nat ->
  exists fuel', header_lines fuel (crlf ls ++ r) size found = header_lines fuel' r (size - length (crlf ls)) found
    /\ (size - length (crlf ls) < fuel')%nat.
Proof.
  induction 1 as [|l ls [Hl Hc] _ IH]; intros fuel size found Hs Hf.
  { exists fuel. simpl in *. by rewrite Nat.sub_0_r. }
  rewrite crlf_cons, length_app in *. cbn [length app] in *. destruct fuel as [|fuel]; [lia|].
  rewrite <- app_assoc. cbn [app]. rewrite (header_lines_line _ _ _ _ _ found); [|by apply no_break_without; auto|lia|by rewrite Hc].
  destruct (IH fuel (size - (length l + 2))%nat found) as (fuel' & -> & H'); [lia..|].
  exists fuel'. split; [f_equal; lia | lia].
Qed.
Lemma skip_blank_app b r : Forall (fun c => c = 32 \/ c = 9) b -> isdigit (cstr_get r) = true -> skip_blank (b ++ r) = r.
Proof.
  intros H Hr. induction H as [|c b Hc _ IH]; simpl.
  - destruct r as [|c r]; [done|]. simpl in *. unfold isdigit in Hr. to_prop. by zb.
  - rewrite IH. destruct Hc as [-> | ->]; done.
Qed.
Lemma strtoull_app ds r : digit_text ds -> isdigit (cstr_get r) = false -> forall v,
  strtoull (ds ++ r) v = (let n := fold_left (fun v c => v * 10 + (c - 48)) ds v in
                          (if n <=? UINT64_MAX then Some n else None, r)).
Proof.
  intros H Hr. induction H as [|c ds Hc _ IH]; intros v; cbn [app strtoull fold_left].
  - destruct r as [|c r]; [done|]. simpl in Hr |- *. by rewrite Hr.
  - by rewrite Hc, IH.
Qed.
Lemma f_name_chars f : frame_ok f -> length (f_name f) = 15%nat /\ Forall (fun c => c <> 0 /\ c <> 10 /\ c <> 13) (f_name f).
Proof.
  intros (_ & _ & H & _). split; [rewrite <- (length_map tolower), H; reflexivity|].
  apply Forall_forall. intros c Hc. assert (Hl : tolower c ∈ content_length) by (rewrite <- H; by apply list_elem_of_fmap_2).
  assert (Hr : Forall (fun d => 32 < d) content_length) by (apply (bool_decide_unpack _); vm_compute; exact I).
  rewrite Forall_forall in Hr. apply Hr in Hl. unfold tolower in Hl. split_if_in Hl; to_prop; lia.
Qed.
Lemma f_line_ok f : frame_ok f -> no_break (f_line f) /\ is_content_length (f_line f) = true.
Proof.
  intros H. pose proof (f_name_chars f H) as [Hl Hn]. destruct H as (_ & _ & Hm & Hb & Hd0 & Hd & _). unfold f_line. split.
  - split; [intros E; apply (f_equal length) in E; rewrite length_app in E; simpl in E; lia|].
    rewrite !Forall_app. split_and!; [done | |]; (eapply Forall_impl; [eassumption|]); simpl; [lia|].
    unfold isdigit. intros c Hc. to_prop. lia.
  - unfold is_content_length, bytes_eqb. rewrite take_app_le, take_ge by lia. by apply bool_decide_eq_true.
Qed.
Lemma f_line_value f r : frame_ok f -> length_value (f_line f ++ 13 :: r) = Some (Z.of_nat (length (f_body f))).
Proof.
  intros H. pose proof (f_name_chars f H) as [Hl _]. destruct H as (_ & _ & Hm & Hb & Hd0 & Hd & Hv & Hsize & _).
  unfold length_value, f_line. rewrite <- !app_assoc, drop_app_ge, Hl by lia. change (15 - 15)%nat with 0%nat.
  rewrite drop_0. cbv zeta.
  assert (Hh : isdigit (cstr_get (f_digits f ++ 13 :: r)) = true).
  { destruct (f_digits f) as [|c ds]; [done|]. apply Forall_cons in Hd as [? _]. done. }
  rewrite skip_blank_app, Hh, strtoull_app by done. cbn [negb cstr_get]. fold (decimal_value (f_digits f)). rewrite Hv. cbv zeta.
  unfold limit, UINT64_MAX in *. zb. done.
Qed.
Lemma f_lines_ok f : frame_ok f -> f_lines f <> [] /\ Forall no_break (f_lines f).
Proof.
  intros H. pose proof (f_line_ok f H) as [Hl _]. destruct H as (Hb & Ha & _). unfold f_lines. split; [by destruct (f_before f)|].
  rewrite !Forall_app. split_and!; [| by constructor |]; (eapply Forall_impl; [eassumption|]); by intros ? [? _].
Qed.
Lemma header_lines_frame f r : frame_ok f ->
  header_lines (S (length (f_header f))) (f_header f ++ r) (length (f_header f)) None
  = Some (Some (Z.of_nat (length (f_body f)))).
Proof.
  intros H. destruct (f_line_ok f H) as [Hl Hc]. pose proof (fun r => f_line_value f r H) as Hv. destruct H as (Hb & Ha & _).
  assert (E : f_header f = crlf (f_before f) ++ f_line f ++ 13 :: 10 :: crlf (f_after f) ++ [13; 10]).
  { unfold f_header, f_lines, crlf. rewrite !map_app, !concat_app. cbn [map concat]. rewrite app_nil_r.
    by rewrite <- !app_assoc. }
  set (a := length (crlf (f_before f))). set (c := length (crlf (f_after f))).
  assert (L : length (f_header f) = (a + (length (f_line f) + 2) + (c + 2))%nat)
    by (unfold a, c; rewrite E, !length_app; simpl; rewrite length_app; simpl; lia).
  rewrite E at 2. rewrite <- !app_assoc. cbn [app]. rewrite <- !app_assoc. cbn [app]. rewrite L. clear E L.
  destruct (header_lines_other (f_before f) (f_line f ++ 13 :: 10 :: crlf (f_after f) ++ 13 :: 10 :: r) Hb
              (S (a + (length (f_line f) + 2) + (c + 2))) (a + (length (f_line f) + 2) + (c + 2)) None)
    as (f1 & -> & F1); [unfold a; lia.. |].
  fold a in F1 |- *. destruct f1 as [|f1]; [lia|].
  rewrite (header_lines_line _ _ _ _ _ (Some (Z.of_nat (length (f_body f)))));
    [|by apply no_break_without; auto | lia | by rewrite Hc, Hv].
  replace (a + (length (f_line f) + 2) + (c + 2) - a - (length (f_line f) + 2))%nat with (c + 2)%nat by lia.
  destruct (header_lines_other (f_after f) (13 :: 10 :: r) Ha f1 (c + 2) (Some (Z.of_nat (length (f_body f)))))
    as (f2 & -> & F2); [unfold c; lia | lia|].
  fold c in F2 |- *. replace (c + 2 - c)%nat with 2%nat in * by lia.
  destruct f2 as [|[|f2]]; [lia | lia|]. reflexivity.
Qed.

Lemma take_frame_complete f rest : frame_ok f ->
  take_frame true (frame_bytes f ++ rest) = Frame (body_text (f_body f)) rest.
Proof.
  intros H. destruct (f_lines_ok f H) as [Hn Hl]. unfold take_frame, frame_bytes. rewrite <- app_assoc.
  assert (Hh : (2 <= length (f_header f))%nat) by (unfold f_header; rewrite length_app; simpl; lia).
  replace (header_end (f_header f ++ f_body f ++ rest)) with (length (f_header f)) by (symmetry; by apply header_end_complete).
  rewrite header_lines_frame by done. destruct H as (_ & _ & _ & _ & _ & _ & _ & Hs & Hh').
  rewrite !length_app. destruct (Nat.eqb_spec (length (f_header f) + (length (f_body f) + length rest)) 0); [lia|].
  destruct (Nat.eqb_spec (length (f_header f)) 0); [lia|]. zb. rewrite Nat2Z.id, drop_app_length, take_app_length.
  by rewrite <- drop_drop, !drop_app_length.
Qed.
Lemma take_frame_partial f p q : frame_ok f -> frame_bytes f = p ++ q -> q <> [] -> take_frame true p = NoFrame.
Proof.
  intros H E Hq. destruct (f_lines_ok f H) as [Hn Hl]. unfold frame_bytes in E. unfold take_frame.
  destruct (Nat.eqb_spec (length p) 0); [done|].
  destruct (le_lt_dec (length (f_header f)) (length p)) as [Hp|Hp].
  - assert (exists b, p = f_header f ++ b /\ f_body f = b ++ q) as (b & -> & Eb).
    { exists (skipn (length (f_header f)) p). apply app_eq_inv in E as [(k & E1 & E2) | (k & E1 & E2)].
      - rewrite E1, length_app in Hp. destruct k; [|simpl in Hp; lia]. rewrite app_nil_r in E1. subst p. simpl in E2.
        rewrite drop_all, app_nil_r. by rewrite <- E2.
      - rewrite E1, drop_app_length. done. }
    replace (header_end (f_header f ++ b)) with (length (f_header f)) by (symmetry; by apply header_end_complete).
    rewrite header_lines_frame by done. assert (Hh : (2 <= length (f_header f))%nat) by (unfold f_header; rewrite length_app; simpl; lia).
    destruct (Nat.eqb_spec (length (f_header f)) 0); [lia|]. destruct H as (_ & _ & _ & _ & _ & _ & _ & Hs & Hh').
    assert (length b < length (f_body f))%nat by (rewrite Eb, length_app; destruct q; [done | simpl; lia]).
    rewrite length_app. zb. done.
  - assert (exists k, f_header f = p ++ k /\ k <> []) as (k & Ek & Hk).
    { apply app_eq_inv in E as [(k & E1 & E2) | (k & E1 & E2)].
      - exists k. split; [done|]. intros ->. rewrite app_nil_r in E1. subst. lia.
      - rewrite E1, length_app in Hp. lia. }
    rewrite (header_end_partial _ Hn Hl p k) by done. destruct H as (_ & _ & _ & _ & _ & _ & _ & Hs & Hh').
    unfold header_limit in *. simpl. zb. done.
Qed.

(** ** Delivery *)

(** A turn in which nothing fails. *)
Definition good_turn (t : turn) : Prop :=
  poll_loop true (t_polls t) = Some Ready /\ t_realloc t = true /\ t_got t <> ReadFailed.
Definition is_chunk (t : turn) : bool := match t_got t with Chunk _ => true | _ => false end.
Definition chunks (turns : list turn) : nat := length (List.filter is_chunk turns).
(** The unread bytes are [text], nothing failed and the turns suffice. *)
Definition ready_for (text : bytes) (i : LspInput) (w : world) : Prop :=
  input_ok i /\ eof i = false /\ failed i = false /\ unread i w = text
  /\ Forall good_turn (w_turns w) /\ (length (w_stream w) < chunks (w_turns w))%nat.

(** One turn, when the buffer decides nothing. *)
Lemma input_loop_turn t turns i stream text :
  ready_for text i {| w_stream := stream; w_turns := t :: turns |} ->
  from_buffer true i = None -> in_length i < limit + header_limit -> stream <> [] ->
  exists i' stream', input_loop true true i stream (t :: turns) = input_loop true true i' stream' turns
    /\ ready_for text i' {| w_stream := stream'; w_turns := turns |}.
Proof.
  intros (Hi & He & Hf & Hu & Hg & Hc) Hb Hl Hs. cbn [input_loop]. rewrite Hb. cbn [w_turns w_stream] in *. unfold unread in *. simpl in Hu.
  apply Forall_cons in Hg as [(-> & -> & Hg1) Hg]. destruct (grow_succeeds i Hi Hl) as [i1 E1]. rewrite E1.
  destruct (grow_ok _ _ _ Hi E1) as (Hi1 & Hd1 & He1 & Hf1 & Hr). unfold chunks, is_chunk in *. simpl in Hc.
  destruct (t_got t) as [| |n]; [| done |].
  - exists i1, stream. split; [done|]. unfold ready_for, unread; simpl. rewrite Hd1, He1, Hf1. split_and!; auto.
  - destruct (read_chunk i1 n stream) as [i2 stream2] eqn:E2. exists i2, stream2. split; [done|].
    apply read_chunk_ok in E2 as (Hi2 & Hd2 & Hf2 & Hn & _); [|done|unfold in_length in *; rewrite Hd1; lia].
    destruct (Hn Hs) as [He2 Hl2]. unfold ready_for, unread; simpl in *. rewrite Hd2, Hd1, Hf2, Hf1, He2.
    split_and!; auto. unfold chunks, is_chunk in *. lia.
Qed.
(** Either the whole frame is in the buffer, or more of it is to be read. *)
Lemma take_frame_cases f rest p stream : frame_ok f -> p ++ stream = frame_bytes f ++ rest ->
  (exists d, take_frame true p = Frame (body_text (f_body f)) d /\ rest = d ++ stream)
  \/ (take_frame true p = NoFrame /\ Z.of_nat (length p) < limit + header_limit /\ stream <> []).
Proof.
  intros Hf H. apply app_eq_inv in H as [(d & -> & ->) | (q & E & ->)].
  - left. exists d. by rewrite take_frame_complete.
  - destruct (decide (q = [])) as [->|Hq].
    + left. exists []. rewrite app_nil_r in E. subst p. split; [|done].
      rewrite <- (app_nil_r (frame_bytes f)). by apply take_frame_complete.
    + right. split_and!; [by eapply take_frame_partial | | by destruct q].
      apply (f_equal length) in E. unfold frame_bytes in E. rewrite !length_app in E.
      destruct Hf as (_ & _ & _ & _ & _ & _ & _ & Hs & Hh). destruct q; [done|]. simpl in E. lia.
Qed.
Lemma input_loop_frame f rest : frame_ok f -> forall turns i stream,
  ready_for (frame_bytes f ++ rest) i {| w_stream := stream; w_turns := turns |} ->
  exists i' w', input_loop true true i stream turns = Some (Some (body_text (f_body f)), i', w') /\ ready_for rest i' w'.
Proof.
  intros Hf turns. induction turns as [|t turns IH]; intros i stream H;
    pose proof H as (Hi & He & Hfl & Hu & Hg & Hc);
    (destruct (take_frame_cases _ _ _ _ Hf Hu) as [(d & E & Er) | (E & Hl & Hs)];
     [eexists _, _; split; [cbn [input_loop]; unfold from_buffer; rewrite E; reflexivity|];
      assert (Hb : from_buffer true i = Some (Some (body_text (f_body f)),
                 {| data := d; capacity := capacity i; eof := eof i; failed := failed i |})) by (unfold from_buffer; by rewrite E);
      destruct (from_buffer_ok true i stream [] _ _ Hi Hb) as [Hi' _]; repeat split; auto |]).
  - simpl in Hc. unfold chunks in Hc. simpl in Hc. lia.
  - assert (Hb : from_buffer true i = None) by (unfold from_buffer; rewrite E, He, Hfl; done).
    destruct (input_loop_turn _ _ _ _ _ H Hb Hl Hs) as (i1 & s1 & -> & H1). by apply IH.
Qed.
Lemma input_loop_end turns : forall i,
  ready_for [] i {| w_stream := []; w_turns := turns |} ->
  exists i' w', input_loop true true i [] turns = Some (None, i', w') /\ failed i' = false /\ eof i' = true /\ unread i' w' = [].
Proof.
  induction turns as [|t turns IH]; intros i (Hi & He & Hf & Hu & Hg & Hc); [unfold chunks in Hc; simpl in Hc; lia|].
  apply app_eq_nil in Hu as [Hd _]. cbn [input_loop].
  assert (Hb0 : from_buffer true i = None) by (unfold from_buffer; by rewrite Hd, He, Hf). rewrite Hb0.
  apply Forall_cons in Hg as [(-> & -> & Hg1) Hg].
  destruct (grow_succeeds i Hi) as [i1 E1]; [unfold in_length, limit, header_limit; rewrite Hd; simpl; lia|]. rewrite E1.
  destruct (grow_ok _ _ _ Hi E1) as (Hi1 & Hd1 & He1 & Hf1 & Hr). unfold chunks, is_chunk in *. simpl in Hc.
  destruct (t_got t) as [| |n]; [| done |].
  - apply IH. unfold ready_for, unread; simpl. rewrite Hd1, Hd, He1, Hf1. split_and!; auto.
  - destruct (read_chunk i1 n []) as [i2 stream2] eqn:E2.
    apply read_chunk_ok in E2 as (Hi2 & Hd2 & Hf2 & _ & Hn); [|done|unfold in_length in *; rewrite Hd1; lia].
    destruct (Hn eq_refl) as (He2 & Hd2' & ->). rewrite Hd1, Hd in Hd2'.
    assert (Hb : from_buffer true i2 = Some (None, i2)) by (unfold from_buffer, in_length; by rewrite Hd2', He2).
    exists i2, {| w_stream := []; w_turns := turns |}. split; [destruct turns; cbn [input_loop]; by rewrite Hb|].
    unfold unread. rewrite Hd2'. split_and!; [congruence | done | done].
Qed.

(** The messages of a run: [lsp_input_next] until it returns [NULL], at most
    [n] calls. *)
Fixpoint read_all (n : nat) (i : LspInput) (w : world) : option (list bytes * LspInput * world) :=
  match n with
  | O => None
  | S n =>
      let* (r, i, w) := lsp_input_next true true i w in
      match r with
      | None => Some ([], i, w)
      | Some body => let* (bodies, i, w) := read_all n i w in Some (body :: bodies, i, w)
      end
  end.
Lemma read_all_frames fs : Forall frame_ok fs -> forall i w,
  ready_for (concat (map frame_bytes fs)) i w ->
  exists i' w', read_all (S (length fs)) i w = Some (map (fun f => body_text (f_body f)) fs, i', w')
  /\ failed i' = false /\ eof i' = true /\ unread i' w' = [].
Proof.
  induction 1 as [|f fs Hf Hfs IH]; intros i [stream turns] H; cbn [read_all length map concat] in *; unfold lsp_input_next.
  - pose proof H as (_ & _ & _ & Hu & _). apply app_eq_nil in Hu as [_ Hs]. simpl in Hs. subst stream.
    destruct (input_loop_end _ _ H) as (i' & w' & E & H'). cbn [w_stream w_turns]. rewrite E. eauto.
  - destruct (input_loop_frame _ _ Hf _ _ _ H) as (i1 & w1 & E & H1). cbn [w_stream w_turns]. rewrite E.
    destruct (IH _ _ H1) as (i2 & w2 & E2 & H2). unfold lsp_input_next in E2. rewrite E2. eauto.
Qed.

(** C23: however the bytes of a sequence of well-formed frames arrive, in reads
    of any sizes and with any interruptions, the calls of [lsp_input_next]
    return exactly the bodies in order and then [NULL] at the end of the
    stream, without failing and with no byte left over. *)
Theorem frames_delivered fs turns :
  Forall frame_ok fs -> Forall good_turn turns -> (length (concat (map frame_bytes fs)) < chunks turns)%nat ->
  exists i' w', read_all (S (length fs)) in_start {| w_stream := concat (map frame_bytes fs); w_turns := turns |}
    = Some (map (fun f => body_text (f_body f)) fs, i', w')
  /\ failed i' = false /\ eof i' = true /\ unread i' w' = [].
Proof. intros Hf Hg Hc. apply read_all_frames; [done|]. repeat split; auto. by left. Qed.

Definition f_example (body : bytes) (digits : bytes) : wire_frame :=
  {| f_before := [str "X-Trace: 1"]; f_name := str "content-LENGTH:"; f_blank := [32; 9]; f_digits := digits;
     f_after := [str "Content-Type: x"]; f_body := body |}.
Definition t_example (n : nat) : turn := {| t_polls := [PollInterrupted; Ready]; t_realloc := true; t_got := Chunk n |}.
#[global] Instance no_break_dec l : Decision (no_break l).
Proof. unfold no_break. apply _. Defined.
#[global] Instance other_line_dec l : Decision (other_line l).
Proof. unfold other_line. apply _. Defined.
#[global] Instance frame_ok_dec f : Decision (frame_ok f).
Proof. unfold frame_ok, digit_text. apply _. Defined.

Lemma frames_delivered_witness :
  exists i' w',
    read_all 3 in_start
      {| w_stream := frame_bytes (f_example (str "{}") (str "2")) ++ frame_bytes (f_example (str "[1]") (str "03"));
         w_turns := map t_example (seq 0 140) |}
    = Some ([str "{}"; str "[1]"], i', w') /\ failed i' = false.
Proof.
  destruct (frames_delivered [f_example (str "{}") (str "2"); f_example (str "[1]") (str "03")] (map t_example (seq 0 140)))
    as (i' & w' & E & H & _).
  - repeat constructor; apply (bool_decide_unpack _); vm_compute; exact I.
  - apply Forall_map, Forall_forall. intros n _. repeat split. discriminate.
  - apply Nat.ltb_lt. vm_compute. reflexivity.
  - exists i', w'. split; [exact E | exact H].
Defined.

(** Whatever happens outside, in every call, waiting or not: the buffer
    keeps its bytes and the terminator within an allocation of at most
    [max_capacity] bytes; [NULL] loses no byte, and a message takes exactly one
    frame off the unread bytes. *)
Theorem input_next_preserves malloc wait i w r i' w' :
  input_ok i -> lsp_input_next malloc wait i w = Some (r, i', w') -> call_ok (unread i w) r i' w'.
Proof. apply input_loop_ok. Qed.
Lemma input_next_preserves_witness :
  exists i' w', lsp_input_next true false in_start
      {| w_stream := str "Content-Length: 2" ++ [13; 10; 13; 10] ++ str "{}C";
         w_turns := [t_example 5; t_example 40] |} = Some (Some (str "{}"), i', w')
  /\ unread i' w' = str "C" /\ input_ok i'.
Proof.
  set (w := {| w_stream := str "Content-Length: 2" ++ [13; 10; 13; 10] ++ str "{}C"; w_turns := [t_example 5; t_example 40] |}).
  destruct (lsp_input_next true false in_start w) as [[[r i'] w']|] eqn:E; [|vm_compute in E; discriminate E].
  pose proof (input_next_preserves true false in_start w r i' w' (or_introl (conj eq_refl eq_refl)) E) as [H _].
  exists i', w'. vm_compute in E. injection E as <- <- <-. split; [reflexivity|]. split; [reflexivity | exact H].
Defined.

(** A header that ends with a bare empty line is found only after the
    search for CR LF CR LF in the whole buffer, which reaches into later
    messages: the same bytes give two messages when they arrive one frame at a
    time, and lose the first when they arrive together. *)
Theorem bare_newline_header_depends_on_arrival :
  let first := str "Content-Length: 2" ++ [10; 10] ++ str "{}" in
  let second := str "Content-Length: 3" ++ [13; 10; 13; 10] ++ str "[1]" in
  let run turns := option_map (fun x => fst (fst x)) (read_all 4 in_start {| w_stream := first ++ second; w_turns := turns |}) in
  run [t_example (length first - 1); t_example 100; t_example 0] = Some [str "{}"; str "[1]"]
  /\ run [t_example 100; t_example 0] = Some [str "[1"].
Proof. split; vm_compute; reflexivity. Qed.
