(* ===== verification/LspWork.v ===== *)
(** The read-ahead queue of the language server (src/src/lsp_work.h): requests
    that arrive during an analysis are queued in order, and a cancellation of
    the running request is taken out and stops the work.

    The queue is the linked list of the source: nodes in a heap, reached from
    [head] and with [tail] at the last; an access to a node that is not
    allocated has no result.  The input is an interface, a source of messages,
    of which the framing buffer is an instance. *)

From S2P Require Import Prelude Work LspJson LspText LspInput.

(** ** The interface to the input *)

(** [input_next wait]: the next message or [NULL]; [input_fail] sets its
    failure flag.  Messages are C strings of at most [limit] bytes. *)
Class MessageSource (I : Type) := {
  input_next : bool -> I -> option (option bytes * I);
  input_fail : I -> I;
  source_ok : I -> Prop;
  source_next_ok wait i r i' : source_ok i -> input_next wait i = Some (r, i') ->
    source_ok i' /\ forall body, r = Some body -> Z.of_nat (length body) <= limit;
  source_fail_ok i : source_ok i -> source_ok (input_fail i) }.

(** ** Cancellations *)

Definition cancel_method : bytes := str "$/cancelRequest".
(** [memory] says whether the texts can be allocated. *)
Definition is_cancel_method (memory : bool) (body : bytes) : option bool :=
  let* method := json_string_after memory body (quoted (str "method")) 256 in
  Some (match method with Some m => bytes_eqb m cancel_method | None => false end).
Definition lsp_is_cancel (memory : bool) (body : bytes) : option bool := is_cancel_method memory body.
Definition id_wrapper (id : bytes) : bytes := str "{" ++ quoted (str "id") ++ str ":" ++ id ++ str "}".
Definition lsp_cancel_matches (memory : bool) (body : bytes) (id : option bytes) : option bool :=
  match id with
  | None => Some false
  | Some id =>
      if negb (lsp_json_valid body) then Some false
      else
        let* cancel := is_cancel_method memory body in
        if negb cancel then Some false
        else
          match lsp_json_member body (quoted (str "params")) with
          | None => Some false
          | Some params =>
              match lsp_json_member params (quoted (str "id")) with
              | None => Some false
              | Some value =>
                  match lsp_json_end value 0 with
                  | None => Some false
                  | Some end_ =>
                      if bytes_eqb (firstn (length value - length end_) value) id then Some true
                      else if (cstr_get id =? 34) && (cstr_get value =? 34) then
                        if negb memory then Some false
                        else
                          let* left_ := json_string_after memory (id_wrapper id) (quoted (str "id")) (64 * 1024) in
                          let* right_ := json_string_after memory params (quoted (str "id")) (64 * 1024) in
                          Some (match left_, right_ with Some l, Some r => bytes_eqb l r | _, _ => false end)
                      else Some false
                  end
              end
          end
  end.

(** ** The queue *)

Record LspQueued := mkQueued { body : bytes; may_cancel : bool; next : option nat }.
Abbreviation heap := (gmap nat LspQueued).

Section Work.
Context {I : Type} `{Src : MessageSource I}.

Record LspWork := mkQueue {
  input : I; nodes : heap; fresh_node : nat; head : option nat; tail : option nat;
  count : Z; bytes_ : Z; id : option bytes }.
Definition with_input (s : LspWork) (i : I) : LspWork :=
  mkQueue i (nodes s) (fresh_node s) (head s) (tail s) (count s) (bytes_ s) (id s).
Definition strlen (b : bytes) : Z := Z.of_nat (length b).
Definition set_link (h : heap) (a : nat) (n : option nat) : option heap :=
  let* q := h !! a in Some (<[a := mkQueued (body q) (may_cancel q) n]> h).

(** [*at], where [at] is [&state->head] or [&previous->next]. *)
Definition at_get (s : LspWork) (previous : option nat) : option (option nat) :=
  match previous with
  | None => Some (head s)
  | Some p => let* q := nodes s !! p in Some (next q)
  end.
(** The node [a] out of the list: [*at = item->next], the tail, the counts and
    [free]. *)
Definition unlink (s : LspWork) (previous : option nat) (a : nat) (item : LspQueued) : option LspWork :=
  let* (h, hd) :=
    match previous with
    | None => Some (nodes s, next item)
    | Some p => let* h := set_link (nodes s) p (next item) in Some (h, head s)
    end in
  let tl_ := if bool_decide (tail s = Some a) then previous else tail s in
  Some (mkQueue (input s) (delete a h) (fresh_node s) hd tl_ (u64 (count s - 1)) (u64 (bytes_ s - strlen (body item))) (id s)).
(** The first queued cancellation of the running request, taken out. *)
Fixpoint poll_queue (fuel : nat) (memory : bool) (s : LspWork) (previous : option nat) : option (option LspWork) :=
  match fuel with
  | O => None
  | S f =>
      let* at_ := at_get s previous in
      match at_ with
      | None => Some None
      | Some a =>
          let* item := nodes s !! a in
          let* found := (if may_cancel item then lsp_cancel_matches memory (body item) (id s) else Some false) in
          if found : bool then let* s := unlink s previous a item in Some (Some s)
          else poll_queue f memory s (Some a)
      end
  end.
(** The new last node. *)
Definition queue_append (s : LspWork) (b : bytes) (cancel : bool) : option LspWork :=
  let a := fresh_node s in
  let h := <[a := mkQueued b cancel None]> (nodes s) in
  let* (h, hd) :=
    match tail s with
    | Some t => let* h := set_link h t (Some a) in Some (h, head s)
    | None => Some (h, Some a)
    end in
  Some (mkQueue (input s) h (S a) hd (Some a) (u64 (count s + 1)) (u64 (bytes_ s + strlen b)) (id s)).
(** The messages at hand, up to the limits; [item_memory] says whether the
    node of a turn can be allocated. *)
Fixpoint read_ahead (fuel : nat) (memory : bool) (item_memory : nat -> bool) (s : LspWork) : option (bool * LspWork) :=
  match fuel with
  | O => None
  | S f =>
      if (count s <? 64) && (bytes_ s <? 16 * 1024 * 1024) then
        let* (r, i) := input_next false (input s) in
        let s := with_input s i in
        match r with
        | None => Some (false, s)
        | Some b =>
            let* cancel := lsp_is_cancel memory b in
            let* found := (if cancel : bool then lsp_cancel_matches memory b (id s) else Some false) in
            if found : bool then Some (true, s)
            else if negb (item_memory f) then Some (true, with_input s (input_fail (input s)))
            else let* s := queue_append s b cancel in read_ahead f memory item_memory s
        end
      else Some (false, s)
  end.
Definition lsp_work_poll (memory : bool) (item_memory : nat -> bool) (s : LspWork) : option (bool * LspWork) :=
  let* r := poll_queue (S (size (nodes s))) memory s None in
  match r with
  | Some s => Some (true, s)
  | None => read_ahead 65 memory item_memory s
  end.
Definition lsp_work_next (wait : bool) (s : LspWork) : option (option bytes * LspWork) :=
  match head s with
  | None => let* (r, i) := input_next wait (input s) in Some (r, with_input s i)
  | Some a =>
      let* item := nodes s !! a in
      let hd := next item in
      let tl_ := match hd with None => None | Some _ => tail s end in
      Some (Some (body item),
            mkQueue (input s) (delete a (nodes s)) (fresh_node s) hd tl_ (u64 (count s - 1)) (u64 (bytes_ s - strlen (body item))) (id s))
  end.
Definition work_start (i : I) : LspWork := mkQueue i ∅ 0 None None 0 0 None.
End Work.
Arguments LspWork : clear implicits.

(** ** Settings *)

Definition lsp_work_setting (text : option bytes) (fallback maximum : Z) : Z :=
  match text with
  | None => fallback
  | Some t =>
      if (cstr_get t <? 48) || (57 <? cstr_get t) then fallback
      else
        match strtoull t 0 with
        | (Some n, []) => if (n =? 0) || (maximum <? n) then fallback else n
        | _ => fallback
        end
  end.

(** Ticks of [clock] in a second, as POSIX fixes them. *)
Definition CLOCKS_PER_SEC : Z := 1000000.
(** The budget of the next request, from the settings [DYN_LSP_MAX_WORK] and
    [DYN_LSP_CPU_MS]. *)
Definition lsp_work_begin {I} (max_work cpu_ms : option bytes) (now : Z) (s : LspWork I) : LspWork I * DynWork :=
  let units := lsp_work_setting max_work 100000000 UINT64_MAX in
  let milliseconds := lsp_work_setting cpu_ms 2000 60000 in
  (mkQueue (input s) (nodes s) (fresh_node s) (head s) (tail s) (count s) (bytes_ s) None,
   mkWork units 0 (now + milliseconds * CLOCKS_PER_SEC / 1000) DYN_WORK_RUNNING).

(** ** What the queue promises *)

(** The queue as a list, its contents with their flags. *)
Abbreviation queue := (list (bytes * bool)).
Definition total (q : queue) : Z := fold_right (fun x n => strlen (fst x) + n) 0 q.
(** A text is allocated or not, but the comparison always has a result. *)
Definition cancels (memory : bool) (id : option bytes) (b : bytes) : bool :=
  bool_decide (lsp_cancel_matches memory b id = Some true).
Definition cancel_message (memory : bool) (b : bytes) : bool := bool_decide (lsp_is_cancel memory b = Some true).

(** The first marked message that cancels [id], taken out. *)
Fixpoint take_cancel (memory : bool) (id : option bytes) (q : queue) : option queue :=
  match q with
  | [] => None
  | (b, c) :: q =>
      if c && cancels memory id b then Some q
      else match take_cancel memory id q with Some q => Some ((b, c) :: q) | None => None end
  end.

Section Spec.
Context {I : Type} `{Src : MessageSource I}.
#[local] Abbreviation LspWork := (LspWork I).

(** The contract, on lists. *)
Fixpoint spec_read (fuel : nat) (memory : bool) (item_memory : nat -> bool) (id : option bytes) (q : queue) (i : I)
    : option (bool * queue * I) :=
  match fuel with
  | O => None
  | S f =>
      if (Z.of_nat (length q) <? 64) && (total q <? 16 * 1024 * 1024) then
        let* (r, i) := input_next false i in
        match r with
        | None => Some (false, q, i)
        | Some b =>
            if cancel_message memory b && cancels memory id b then Some (true, q, i)
            else if negb (item_memory f) then Some (true, q, input_fail i)
            else spec_read f memory item_memory id (q ++ [(b, cancel_message memory b)]) i
        end
      else Some (false, q, i)
  end.
Definition spec_poll (memory : bool) (item_memory : nat -> bool) (id : option bytes) (q : queue) (i : I)
    : option (bool * queue * I) :=
  match take_cancel memory id q with
  | Some q => Some (true, q, i)
  | None => spec_read 65 memory item_memory id q i
  end.
Definition spec_next (wait : bool) (q : queue) (i : I) : option (option bytes * queue * I) :=
  match q with
  | [] => let* (r, i) := input_next wait i in Some (r, [], i)
  | (b, _) :: q => Some (Some b, q, i)
  end.

(** ** Linked lists *)

Abbreviation cells := (list (nat * (bytes * bool))).
Fixpoint lseg (h : heap) (p m : option nat) (cs : cells) : Prop :=
  match cs with
  | [] => p = m
  | (a, (b, c)) :: cs => p = Some a /\ exists n, h !! a = Some (mkQueued b c n) /\ lseg h n m cs
  end.
Definition last_cell (cs : cells) : option nat := last (map fst cs).
(** The heap holds the nodes of the list and nothing else; the counts are its
    length and the bytes of its messages. *)
Definition holds (s : LspWork) (cs : cells) : Prop :=
  source_ok (input s)
  /\ Z.of_nat (length cs) <= 64 /\ total (map snd cs) < 32 * 1024 * 1024
  /\ count s = Z.of_nat (length cs) /\ bytes_ s = total (map snd cs)
  /\ NoDup (map fst cs) /\ Forall (fun a => (a < fresh_node s)%nat) (map fst cs)
  /\ dom (nodes s) = list_to_set (map fst cs)
  /\ lseg (nodes s) (head s) None cs /\ tail s = last_cell cs.
Definition represents (s : LspWork) (q : queue) : Prop := exists cs, map snd cs = q /\ holds s cs.

Lemma lseg_app h p m c1 c2 : lseg h p m (c1 ++ c2) <-> exists k, lseg h p k c1 /\ lseg h k m c2.
Proof.
  revert p. induction c1 as [|[a [b c]] c1 IH]; intros p; simpl; [naive_solver|].
  setoid_rewrite IH. naive_solver.
Qed.
Lemma lseg_frame h h' p m cs : (forall a, a ∈ map fst cs -> h' !! a = h !! a) -> lseg h p m cs -> lseg h' p m cs.
Proof.
  revert p. induction cs as [|[a [b c]] cs IH]; intros p Hf; simpl in *; [done|].
  intros (-> & n & Hn & Hl). split; [done|]. exists n. rewrite Hf by left. split; [done|].
  apply IH; [|done]. intros a' Ha. apply Hf. by right.
Qed.
Lemma set_link_defined h a b c n n' : h !! a = Some (mkQueued b c n) -> set_link h a n' = Some (<[a := mkQueued b c n']> h).
Proof. intros H. unfold set_link. by rewrite H. Qed.
Lemma last_cell_snoc (cs : cells) x : last_cell (cs ++ [x]) = Some (fst x).
Proof. unfold last_cell. rewrite map_app. apply last_snoc. Qed.
Lemma cells_split (cs : cells) : cs = [] \/ exists cs0 a b c, cs = cs0 ++ [(a, (b, c))].
Proof. destruct cs as [|x cs] using rev_ind; [by left | right]. destruct x as [a [b c]]. eauto. Qed.
(** The last node gets a new successor. *)
Lemma lseg_retarget h p m m' cs a b c :
  NoDup (map fst (cs ++ [(a, (b, c))])) -> lseg h p m (cs ++ [(a, (b, c))]) ->
  h !! a = Some (mkQueued b c m) /\ lseg (<[a := mkQueued b c m']> h) p m' (cs ++ [(a, (b, c))]).
Proof.
  rewrite map_app. intros Hd. rewrite !lseg_app. apply NoDup_app in Hd as (_ & Hd & _).
  intros (k & Hl & -> & n & Hn & ->). split; [done|]. exists (Some a). split.
  - eapply lseg_frame; [|exact Hl]. intros x Hx. rewrite lookup_insert_ne; [done|].
    intros <-. apply (Hd _ Hx). simpl. by left.
  - split; [done|]. exists m'. by rewrite lookup_insert_eq.
Qed.

Lemma queue_total_app q1 q2 : total (q1 ++ q2) = total q1 + total q2.
Proof. induction q1 as [|x q1 IH]; simpl; [done|]. rewrite IH. lia. Qed.
Lemma queue_total_nonneg q : 0 <= total q.
Proof. induction q as [|x q IH]; simpl; [done|]. unfold strlen. lia. Qed.
Lemma last_cell_unlink (c1 c2 : cells) x :
  NoDup (map fst (c1 ++ x :: c2)) ->
  (if bool_decide (last_cell (c1 ++ x :: c2) = Some (fst x)) then last_cell c1 else last_cell (c1 ++ x :: c2))
  = last_cell (c1 ++ c2).
Proof.
  intros Hd. destruct (cells_split c2) as [-> | (c0 & a & b & c & ->)].
  - rewrite last_cell_snoc, app_nil_r. by rewrite bool_decide_eq_true_2.
  - rewrite app_comm_cons, !app_assoc, !last_cell_snoc. cbn [fst].
    rewrite bool_decide_eq_false_2; [done|]. intros [= ->].
    rewrite map_app in Hd. apply NoDup_app in Hd as (_ & _ & Hd). simpl in Hd. rewrite map_app in Hd.
    apply NoDup_cons in Hd as [Hd _]. apply Hd, elem_of_app. right. simpl. by left.
Qed.
Lemma dom_delete_cell (h : heap) (c1 c2 : cells) x :
  NoDup (map fst (c1 ++ x :: c2)) -> dom h = list_to_set (map fst (c1 ++ x :: c2)) ->
  dom (delete (fst x) h) = list_to_set (map fst (c1 ++ c2)).
Proof.
  rewrite !map_app. simpl. intros Hd E. apply NoDup_app in Hd as (_ & H1 & Hd). apply NoDup_cons in Hd as [H2 _].
  rewrite dom_delete_L, E. apply set_eq. intros y. rewrite elem_of_difference, !elem_of_list_to_set, elem_of_singleton.
  rewrite !elem_of_app, elem_of_cons. split; [tauto|]. intros Hy. split; [tauto|]. intros ->.
  destruct Hy as [Hy|Hy]; [by apply (H1 _ Hy); left | done].
Qed.
Lemma holds_node s c1 a b c c2 : holds s (c1 ++ (a, (b, c)) :: c2) ->
  exists n, at_get s (last_cell c1) = Some (Some a) /\ nodes s !! a = Some (mkQueued b c n).
Proof.
  intros (_ & _ & _ & _ & _ & Hd & _ & _ & Hl & _). apply lseg_app in Hl as (k & H1 & -> & n & Hn & H2).
  exists n. split; [|done]. destruct (cells_split c1) as [-> | (c0 & a' & b' & c' & ->)]; simpl in *; [by rewrite H1|].
  rewrite last_cell_snoc. cbn [fst at_get]. apply lseg_app in H1 as (k' & _ & -> & n' & -> & ->). done.
Qed.
(** The links after a node is taken out. *)
Lemma unlink_links h hd (c1 : cells) a b c n c2 :
  NoDup (map fst (c1 ++ (a, (b, c)) :: c2)) -> lseg h hd None (c1 ++ (a, (b, c)) :: c2) ->
  h !! a = Some (mkQueued b c n) ->
  exists h' hd', match last_cell c1 with
                 | None => Some (h, n)
                 | Some p => let* h := set_link h p n in Some (h, hd)
                 end = Some (h', hd')
  /\ dom (delete a h') = dom (delete a h) /\ lseg (delete a h') hd' None (c1 ++ c2).
Proof.
  intros Hd Hl Hn. apply lseg_app in Hl as (k & H1 & -> & n' & Hn' & H2). rewrite Hn in Hn'. injection Hn' as <-.
  rewrite map_app in Hd. simpl in Hd. apply NoDup_app in Hd as (D1 & D2 & D3). apply NoDup_cons in D3 as [D3 D4].
  assert (Ha : a ∉ map fst c1) by (intros Ha; apply (D2 _ Ha); by left).
  destruct (cells_split c1) as [-> | (c0 & p & b' & c' & ->)].
  - exists h, n. split; [done|]. split; [done|]. simpl. eapply lseg_frame; [|exact H2].
    intros x Hx. rewrite lookup_delete_ne; [done|]. by intros ->.
  - destruct (lseg_retarget _ _ _ n _ _ _ _ D1 H1) as [Hp H1']. rewrite last_cell_snoc. cbn [fst].
    rewrite (set_link_defined _ _ _ _ _ n Hp). eexists _, _. split; [reflexivity|]. split.
    { rewrite !dom_delete_L, dom_insert_lookup_L; [done|by eexists]. }
    apply lseg_app. exists n. split; (eapply lseg_frame; [|eassumption]); intros x Hx.
    + rewrite lookup_delete_ne; [done|]. by intros ->.
    + rewrite lookup_delete_ne by (by intros ->). rewrite lookup_insert_ne; [done|]. intros ->.
      apply (D2 x); [|by right]. rewrite map_app. apply elem_of_app. right. by left.
Qed.
Lemma unlink_ok s c1 a b c n c2 :
  holds s (c1 ++ (a, (b, c)) :: c2) -> nodes s !! a = Some (mkQueued b c n) ->
  exists s', unlink s (last_cell c1) a (mkQueued b c n) = Some s' /\ holds s' (c1 ++ c2)
    /\ input s' = input s /\ id s' = id s.
Proof.
  intros (Hs & H64 & Ht & Hc & Hb & Hd & Hf & Hdom & Hl & Htail) Hn.
  pose proof (last_cell_unlink _ _ _ Hd) as Hlast. rewrite <- Htail in Hlast.
  pose proof (dom_delete_cell (nodes s) c1 c2 (a, (b, c)) Hd Hdom) as Hdom'. cbn [fst] in Hlast, Hdom'.
  destruct (unlink_links _ _ _ _ _ _ _ _ Hd Hl Hn) as (h' & hd' & E & Edom & Hl').
  unfold unlink. cbn [next]. rewrite E. eexists. split; [reflexivity|]. split; [|done]. rewrite Hlast.
  rewrite map_app, queue_total_app in Ht, Hb. cbn [map snd total fold_right fst] in Ht, Hb. fold (total (map snd c2)) in Ht, Hb.
  pose proof (queue_total_nonneg (map snd c1)). pose proof (queue_total_nonneg (map snd c2)). unfold strlen in *.
  rewrite !length_app in *. cbn [length] in *. rewrite !map_app in *. simpl in Hd, Hf.
  apply NoDup_app in Hd as (D1 & D2 & D3). apply NoDup_cons in D3 as [D3 D4].
  apply Forall_app in Hf as [F1 F2]. apply Forall_cons in F2 as [_ F2].
  unfold holds; simpl. unfold strlen. rewrite length_app, !map_app, queue_total_app, Hc, Hb, Edom, !u64_small by lia.
  split_and!; try done; try lia.
  - apply NoDup_app. split_and!; [done| |done]. intros x X1 X2. apply (D2 _ X1). by right.
  - by apply Forall_app.
Qed.

Lemma queue_append_ok s cs b c :
  holds s cs -> Z.of_nat (length cs) < 64 -> total (map snd cs) < 16 * 1024 * 1024 -> Z.of_nat (length b) <= limit ->
  exists s', queue_append s b c = Some s' /\ holds s' (cs ++ [(fresh_node s, (b, c))]) /\ input s' = input s /\ id s' = id s.
Proof.
  intros (Hs & _ & _ & Hc & Hb & Hd & Hf & Hdom & Hl & Htail) H64 Ht Hlb. unfold queue_append, limit in *.
  set (a := fresh_node s) in *. assert (Ha : a ∉ map fst cs).
  { intros Ha. rewrite Forall_forall in Hf. apply Hf in Ha. lia. }
  assert (E : exists h hd, match tail s with
                 | None => Some (<[a := mkQueued b c None]> (nodes s), Some a)
                 | Some t => let* h := set_link (<[a := mkQueued b c None]> (nodes s)) t (Some a) in Some (h, head s)
                 end = Some (h, hd) /\ dom h = {[a]} ∪ dom (nodes s) /\ lseg h hd None (cs ++ [(a, (b, c))])).
  { destruct (cells_split cs) as [-> | (c0 & p & b' & c' & ->)].
    - rewrite Htail. eexists _, _. split; [reflexivity|]. split; [apply dom_insert_L|]. simpl. split; [done|].
      eexists. by rewrite lookup_insert_eq.
    - rewrite last_cell_snoc in Htail. rewrite Htail. cbn [fst].
      apply (lseg_frame _ (<[a := mkQueued b c None]> (nodes s))) in Hl.
      2: { intros x Hx. rewrite lookup_insert_ne; [done|]. by intros <-. }
      destruct (lseg_retarget _ _ _ (Some a) _ _ _ _ Hd Hl) as [Hp Hl']. rewrite (set_link_defined _ _ _ _ _ (Some a) Hp).
      eexists _, _. split; [reflexivity|]. split; [rewrite dom_insert_lookup_L by (by eexists); apply dom_insert_L|].
      apply lseg_app. exists (Some a). split; [done|]. simpl. split; [done|]. exists None. split; [|done].
      rewrite lookup_insert_ne, lookup_insert_eq; [done|]. intros ->. apply Ha. rewrite map_app. apply elem_of_app. right. by left. }
  destruct E as (h & hd & -> & Hdom' & Hl'). eexists. split; [reflexivity|]. split; [|done].
  pose proof (queue_total_nonneg (map snd cs)). unfold strlen.
  unfold holds; simpl. rewrite length_app, !map_app, queue_total_app, last_cell_snoc, Hc, Hb. simpl. unfold strlen. rewrite !u64_small by lia.
  split_and!; try done; try lia.
  - apply NoDup_app. split_and!; [done| |by apply NoDup_singleton]. intros x X1 X2. apply list_elem_of_singleton in X2. by subst.
  - apply Forall_app. split; [|by repeat constructor]. eapply Forall_impl; [exact Hf|]. simpl. lia.
  - rewrite Hdom', Hdom, list_to_set_app_L. simpl. set_solver.
Qed.

(** ** Refinement *)

Lemma json_string_after_total memory b key maximum : 0 <= maximum -> is_Some (json_string_after memory b key maximum).
Proof.
  intros Hm. destruct memory; [destruct (string_after_exact b key maximum Hm) as (r & -> & _); eauto|].
  unfold json_string_after. destruct (lsp_json_find b key) as [p|]; [|eauto]. simpl. split_if; eauto.
Qed.
Lemma lsp_is_cancel_defined memory b : lsp_is_cancel memory b = Some (cancel_message memory b).
Proof.
  unfold cancel_message. assert (is_Some (lsp_is_cancel memory b)) as [x Hx]; [|rewrite Hx; f_equal; by destruct x].
  unfold lsp_is_cancel, is_cancel_method. destruct (json_string_after_total memory b (quoted (str "method")) 256) as [r ->]; [lia|].
  by eexists.
Qed.
Lemma lsp_cancel_matches_defined memory b id : lsp_cancel_matches memory b id = Some (cancels memory id b).
Proof.
  unfold cancels. assert (is_Some (lsp_cancel_matches memory b id)) as [x Hx]; [|rewrite Hx; f_equal; by destruct x].
  unfold lsp_cancel_matches. destruct id as [id|]; [|by eexists]. split_if; [by eexists|].
  pose proof (lsp_is_cancel_defined memory b) as Hc. unfold lsp_is_cancel in Hc. rewrite Hc. split_if; [by eexists|].
  repeat (case_match; try by eexists).
  - rename select (json_string_after memory (id_wrapper id) _ _ = _) into E1.
    rename select (json_string_after memory _ _ _ = None) into E2.
    edestruct json_string_after_total as [? E3]; [|rewrite E2 in E3; discriminate E3]. lia.
  - rename select (json_string_after memory _ _ _ = None) into E2.
    edestruct json_string_after_total as [? E3]; [|rewrite E2 in E3; discriminate E3]. lia.
Qed.

Lemma poll_queue_ok memory : forall c2 c1 s fuel, holds s (c1 ++ c2) -> (length c2 < fuel)%nat ->
  exists r, poll_queue fuel memory s (last_cell c1) = Some r
  /\ match take_cancel memory (id s) (map snd c2) with
     | None => r = None
     | Some q => exists s' cs, r = Some s' /\ holds s' cs /\ map snd cs = map snd c1 ++ q /\ input s' = input s /\ id s' = id s
     end.
Proof.
  induction c2 as [|[a [b c]] c2 IH]; intros c1 s [|fuel] H Hf; simpl in Hf; try lia; cbn [poll_queue map take_cancel snd].
  - rewrite app_nil_r in H. destruct H as (_ & _ & _ & _ & _ & _ & _ & _ & Hl & _).
    exists None. split; [|done]. destruct (cells_split c1) as [-> | (c0 & a & b & c & ->)]; simpl in Hl |- *; [by rewrite Hl|].
    rewrite last_cell_snoc. cbn [at_get fst]. apply lseg_app in Hl as (k & _ & -> & n & -> & ->). done.
  - destruct (holds_node _ _ _ _ _ _ H) as (n & -> & Hn). rewrite Hn. cbn [may_cancel body].
    destruct (c && cancels memory (id s) b) eqn:Ec.
    + apply andb_true_iff in Ec as [-> Ec]. rewrite lsp_cancel_matches_defined, Ec.
      destruct (unlink_ok _ _ _ _ _ _ _ H Hn) as (s' & -> & H' & Hi & Hid).
      eexists. split; [reflexivity|]. exists s', (c1 ++ c2). rewrite map_app. auto.
    + assert ((if c then lsp_cancel_matches memory b (id s) else Some false) = Some false) as ->.
      { destruct c; [|done]. rewrite lsp_cancel_matches_defined. by f_equal. }
      specialize (IH (c1 ++ [(a, (b, c))]) s fuel). rewrite <- app_assoc, last_cell_snoc in IH. cbn [fst app] in IH.
      destruct (IH H ltac:(lia)) as (r & -> & Hr). exists r. split; [done|].
      destruct (take_cancel memory (id s) (map snd c2)) as [q|]; [|done].
      destruct Hr as (s' & cs & -> & H' & Hm & Hi & Hid). exists s', cs. split_and!; auto.
      rewrite Hm, map_app, <- app_assoc. done.
Qed.
Lemma holds_with_input s i cs : holds s cs -> source_ok i -> holds (with_input s i) cs.
Proof. unfold holds, with_input; simpl. tauto. Qed.

(** What a call leaves and its contract are the same. *)
Definition agrees {R} (ident : option bytes) (r : option (R * LspWork)) (spec : option (R * queue * I)) : Prop :=
  match r, spec with
  | Some (x, s), Some (x', q, i) => x = x' /\ represents s q /\ input s = i /\ id s = ident
  | None, None => True
  | _, _ => False
  end.
Lemma read_ahead_ok memory item_memory : forall fuel s cs, holds s cs ->
  agrees (id s) (read_ahead fuel memory item_memory s) (spec_read fuel memory item_memory (id s) (map snd cs) (input s)).
Proof.
  induction fuel as [|fuel IH]; intros s cs H; [done|]. cbn [read_ahead spec_read].
  pose proof H as (Hs & _ & _ & Hc & Hb & _). rewrite Hc, Hb, length_map.
  destruct ((Z.of_nat (length cs) <? 64) && _) eqn:Eg; [|simpl; split_and!; try done; by exists cs].
  apply andb_true_iff in Eg as [E64 E16]. to_prop.
  destruct (input_next false (input s)) as [[r i]|] eqn:Ei; [|done].
  destruct (source_next_ok _ _ _ _ Hs Ei) as [Hi Hl]. destruct r as [b|].
  2: { simpl. split_and!; try done. exists cs. split; [done | by apply holds_with_input]. }
  rewrite lsp_is_cancel_defined. cbn [id with_input].
  assert (E : (if cancel_message memory b then lsp_cancel_matches memory b (id s) else Some false)
              = Some (cancel_message memory b && cancels memory (id s) b)).
  { destruct (cancel_message memory b); [apply lsp_cancel_matches_defined | done]. }
  rewrite E. destruct (cancel_message memory b && cancels memory (id s) b).
  { simpl. split_and!; try done. exists cs. split; [done | by apply holds_with_input]. }
  destruct (item_memory fuel); cbn [negb].
  2: { simpl. split_and!; try done. exists cs. split; [done|]. apply holds_with_input; [|by apply source_fail_ok].
       by apply holds_with_input. }
  destruct (queue_append_ok (with_input s i) cs b (cancel_message memory b)) as (s' & -> & H' & Hi' & Hid'); [| | |by apply Hl|].
  { by apply holds_with_input. } { done. } { done. }
  specialize (IH _ _ H'). rewrite map_app, Hid', Hi' in IH. exact IH.
Qed.
Lemma work_poll_ok memory item_memory s q : represents s q ->
  agrees (id s) (lsp_work_poll memory item_memory s) (spec_poll memory item_memory (id s) q (input s)).
Proof.
  intros (cs & <- & H). unfold lsp_work_poll, spec_poll.
  destruct (poll_queue_ok memory cs [] s (S (size (nodes s))) H) as (r & E & Hr).
  { destruct H as (_ & _ & _ & _ & _ & Hd & _ & Hdom & _). rewrite <- size_dom, Hdom, size_list_to_set, length_map by done. lia. }
  change (last_cell []) with (@None nat) in E. rewrite E.
  destruct (take_cancel memory (id s) (map snd cs)) as [q|].
  - destruct Hr as (s' & cs' & -> & H' & Hq & Hi & Hid). simpl. split_and!; try done. by exists cs'.
  - subst r. by apply read_ahead_ok.
Qed.
Lemma work_next_ok wait s q : represents s q ->
  agrees (id s) (lsp_work_next wait s) (spec_next wait q (input s)).
Proof.
  intros (cs & <- & H). unfold lsp_work_next, spec_next. destruct cs as [|[a [b c]] cs].
  - pose proof H as (Hs & _ & _ & _ & _ & _ & _ & _ & Hl & _). simpl in Hl. rewrite Hl. cbn [map].
    destruct (input_next wait (input s)) as [[r i]|] eqn:Ei; [|done].
    destruct (source_next_ok _ _ _ _ Hs Ei) as [Hi _]. simpl. split_and!; try done. exists []. split; [done | by apply holds_with_input].
  - destruct (holds_node s [] a b c cs H) as (n & Hh & Hn). simpl in Hh. injection Hh as Hh. rewrite Hh, Hn. cbn [map snd next body].
    destruct (unlink_ok s [] a b c n cs H Hn) as (s' & E & H' & Hi & Hid). unfold unlink in E. simpl in E. injection E as <-.
    simpl. split_and!; try done. exists cs. split; [done|]. simpl in H'.
    replace (match n with Some _ => tail s | None => None end) with (if bool_decide (tail s = Some a) then None else tail s); [done|].
    destruct H' as (_ & _ & _ & _ & _ & _ & _ & _ & Hl' & Ht'). simpl in Hl'.
    transitivity (last_cell cs); [exact Ht'|]. clear Ht'.
    destruct H as (_ & _ & _ & _ & _ & Hd & _ & _ & _ & Ht). destruct cs as [|[a' [b' c']] cs]; simpl in Hl'.
    + subst n. done.
    + destruct Hl' as [-> _]. rewrite Ht. unfold last_cell. simpl. done.
Qed.

(** ** Order *)

(** The server between two messages: it takes the next one, names the request
    it runs, or polls during the analysis. *)
Inductive op := Next (wait : bool) | Request (ident : option bytes) | Poll (memory : bool).
Definition with_id (s : LspWork) (ident : option bytes) : LspWork :=
  mkQueue (input s) (nodes s) (fresh_node s) (head s) (tail s) (count s) (bytes_ s) ident.
Definition run_op (o : op) (s : LspWork) : option (list bytes * LspWork) :=
  match o with
  | Next wait => let* (r, s) := lsp_work_next wait s in Some (match r with Some b => [b] | None => [] end, s)
  | Request ident => Some ([], with_id s ident)
  | Poll memory => let* (_, s) := lsp_work_poll memory (fun _ => true) s in Some ([], s)
  end.
(** The messages the server took, in order. *)
Fixpoint run (ops : list op) (s : LspWork) : option (list bytes * LspWork) :=
  match ops with
  | [] => Some ([], s)
  | o :: ops => let* (ms, s) := run_op o s in let* (ms', s) := run ops s in Some (ms ++ ms', s)
  end.

(** [ms] are the messages that calls of the input gave between two states. *)
Inductive received : I -> list bytes -> I -> Prop :=
| received_none i : received i [] i
| received_call wait i r i' ms i'' : input_next wait i = Some (r, i') -> received i' ms i'' ->
    received i (match r with Some b => b :: ms | None => ms end) i''.
Lemma received_app i ms i' ms' i'' : received i ms i' -> received i' ms' i'' -> received i (ms ++ ms') i''.
Proof.
  induction 1 as [|wait i r i' ms i1 E _ IH]; intros H; [done|].
  apply IH in H. pose proof (received_call _ _ _ _ _ _ E H) as H'. by destruct r.
Qed.
Lemma received_one wait i r i' : input_next wait i = Some (r, i') -> received i (match r with Some b => [b] | None => [] end) i'.
Proof. intros E. exact (received_call _ _ _ _ _ _ E (received_none i')). Qed.

(** The messages without some cancellations of requests. *)
Definition is_cancellation (b : bytes) : Prop := exists memory ident, cancels memory (Some ident) b = true.
Inductive kept : list bytes -> list bytes -> Prop :=
| kept_nil : kept [] []
| kept_take b l m : kept l m -> kept (b :: l) (b :: m)
| kept_drop b l m : is_cancellation b -> kept l m -> kept l (b :: m).
Lemma kept_app l m l' m' : kept l m -> kept l' m' -> kept (l ++ l') (m ++ m').
Proof. induction 1; intros; simpl; [done | constructor; auto | constructor; auto]. Qed.
Lemma kept_refl l : kept l l.
Proof. induction l; constructor; auto. Qed.
Lemma kept_remove l1 b l2 m : is_cancellation b -> kept (l1 ++ b :: l2) m -> kept (l1 ++ l2) m.
Proof.
  intros Hb H. remember (l1 ++ b :: l2) as l eqn:E. revert l1 E.
  induction H as [|b' l m H IH|b' l m Hb' H IH]; intros l1 E; [by destruct l1| |constructor; auto].
  destruct l1 as [|x l1]; injection E as -> ->; [by constructor | constructor; auto].
Qed.

Lemma cancels_is memory ident b : cancels memory ident b = true -> is_cancellation b.
Proof. destruct ident as [ident|]; intros H; [by exists memory, ident | by apply bool_decide_eq_true in H]. Qed.
Lemma take_cancel_kept memory ident q q' l m :
  take_cancel memory ident q = Some q' -> kept (l ++ map fst q) m -> kept (l ++ map fst q') m.
Proof.
  revert q' l. induction q as [|[b c] q IH]; intros q' l H Hk; simpl in *; [done|].
  destruct (c && cancels memory ident b) eqn:E.
  - injection H as <-. apply andb_true_iff in E as [_ E]. eapply kept_remove; [by eapply cancels_is | done].
  - destruct (take_cancel memory ident q) as [q0|]; [|done]. injection H as <-. simpl.
    specialize (IH q0 (l ++ [b]) eq_refl). rewrite <- !app_assoc in IH. by apply IH.
Qed.
Lemma spec_read_kept memory ident fuel : forall q i r q' i',
  spec_read fuel memory (fun _ => true) ident q i = Some (r, q', i') ->
  exists ms, received i ms i' /\ forall l m, kept (l ++ map fst q) m -> kept (l ++ map fst q') (m ++ ms).
Proof.
  assert (Hnil : forall q : queue, forall l m, kept (l ++ map fst q) m -> kept (l ++ map fst q) (m ++ [])).
  { intros q l m H. by rewrite app_nil_r. }
  induction fuel as [|fuel IH]; intros q i r q' i' H; [done|]. cbn [spec_read] in H.
  split_if_in H; [|injection H as <- <- <-; exists []; split; [constructor | apply Hnil]].
  destruct (input_next false i) as [[[b|] i1]|] eqn:Ei; [| |done]; pose proof (received_one _ _ _ _ Ei) as Hr; simpl in Hr.
  2: { injection H as <- <- <-. exists []. split; [done | apply Hnil]. }
  destruct (cancel_message memory b && cancels memory ident b) eqn:Ec.
  { injection H as <- <- <-. apply andb_true_iff in Ec as [_ Ec]. exists [b]. split; [done|]. intros l m Hk.
    rewrite <- (app_nil_r (l ++ map fst q)). apply kept_app; [done|]. constructor; [by eapply cancels_is | constructor]. }
  cbn [negb] in H. apply IH in H as (ms & Hms & Hk). exists (b :: ms). split; [by apply (received_app _ [b] i1)|].
  intros l m Hl. replace (m ++ b :: ms) with ((m ++ [b]) ++ ms) by by rewrite <- app_assoc.
  apply Hk. rewrite map_app, app_assoc. apply kept_app; [done | apply kept_refl].
Qed.
(** One operation: what the input gave during it, and what stays of it. *)
Lemma run_op_kept o s q ms s' : represents s q -> run_op o s = Some (ms, s') ->
  exists rs q', received (input s) rs (input s') /\ represents s' q'
  /\ forall l m, kept (l ++ map fst q) m -> kept ((l ++ ms) ++ map fst q') (m ++ rs).
Proof.
  intros Hq H. destruct o as [wait|ident|memory]; simpl in H.
  - pose proof (work_next_ok wait s q Hq) as Ha. destruct (lsp_work_next wait s) as [[r s1]|]; [|done]. injection H as <- <-.
    unfold agrees in Ha. destruct (spec_next wait q (input s)) as [[[r' q'] i']|] eqn:Es; [|done].
    destruct Ha as (-> & Hq' & <- & _). destruct q as [|[b c] q]; simpl in Es.
    + destruct (input_next wait (input s)) as [[r0 i0]|] eqn:Ei; [|done]. injection Es as <- <- Hi.
      rewrite <- Hi in *. exists (match r0 with Some b => [b] | None => [] end), [].
      split; [by apply (received_one wait)|]. split; [done|]. intros l m Hk. simpl in *. rewrite app_nil_r in *. apply kept_app; [done | apply kept_refl].
    + injection Es as <- <- Hi. rewrite <- Hi. exists [], q. split; [constructor|]. split; [done|]. intros l m Hk.
      rewrite app_nil_r, <- app_assoc. done.
  - injection H as <- <-. exists [], q. split; [constructor|]. split; [destruct Hq as (cs & Hm & Hh); exists cs; split; [done | exact Hh]|].
    intros l m Hk. by rewrite !app_nil_r.
  - pose proof (work_poll_ok memory (fun _ => true) s q Hq) as Ha. destruct (lsp_work_poll memory _ s) as [[r s1]|]; [|done].
    injection H as <- <-. unfold agrees in Ha. destruct (spec_poll memory _ (id s) q (input s)) as [[[r' q'] i']|] eqn:Es; [|done].
    destruct Ha as (-> & Hq' & <- & _). unfold spec_poll in Es. destruct (take_cancel memory (id s) q) as [q1|] eqn:Et.
    + injection Es as _ <- Hi. rewrite <- Hi. exists [], q1. split; [constructor|]. split; [done|]. intros l m Hk.
      rewrite !app_nil_r. by eapply take_cancel_kept.
    + apply spec_read_kept in Es as (rs & Hr & Hk). exists rs, q'. split; [done|]. split; [done|]. intros l m Hl. rewrite app_nil_r. by apply Hk.
Qed.
Lemma run_kept ops : forall s q ms s', represents s q -> run ops s = Some (ms, s') ->
  exists rs q', received (input s) rs (input s') /\ represents s' q'
  /\ forall l m, kept (l ++ map fst q) m -> kept ((l ++ ms) ++ map fst q') (m ++ rs).
Proof.
  induction ops as [|o ops IH]; intros s q ms s' Hq H; simpl in H.
  - injection H as <- <-. exists [], q. split; [constructor|]. split; [done|]. intros l m Hk. by rewrite !app_nil_r.
  - destruct (run_op o s) as [[ms1 s1]|] eqn:E1; [|done]. destruct (run ops s1) as [[ms2 s2]|] eqn:E2; [|done]. injection H as <- <-.
    apply (run_op_kept _ _ _ _ _ Hq) in E1 as (rs1 & q1 & R1 & Hq1 & K1).
    apply (IH _ _ _ _ Hq1) in E2 as (rs2 & q2 & R2 & Hq2 & K2). exists (rs1 ++ rs2), q2.
    split; [by eapply received_app|]. split; [done|]. intros l m Hk. rewrite !app_assoc. apply K2. by apply K1.
Qed.
Lemma represents_start i : source_ok i -> represents (work_start i) [].
Proof. intros H. exists []. split; [done|]. unfold holds. simpl. split_and!; try done; try lia; constructor. Qed.
End Spec.

(** C24: the linked queue implements its contract on lists.  From any state that
    represents a list, a poll takes out the first queued cancellation of the
    running request, or else appends the messages at hand until a cancellation,
    the 64 messages or the 16 MiB; a take returns the first message, or asks
    the input when there is none.  No freed node is touched, none leaks, and
    the counts stay exact: at most 64 messages of less than 32 MiB. *)
Theorem work_queue_refines {I} `{Src : MessageSource I} (s : LspWork I) q memory item_memory wait :
  represents s q ->
  agrees (id s) (lsp_work_poll memory item_memory s) (spec_poll memory item_memory (id s) q (input s))
  /\ agrees (id s) (lsp_work_next wait s) (spec_next wait q (input s)).
Proof. intros H. split; [by apply work_poll_ok | by apply work_next_ok]. Qed.

(** Reading ahead keeps the order of requests.  After any sequence of
    takes, requests and polls, what the server took followed by what is queued
    is exactly what the input gave, in its order, without some messages, each
    of them a cancellation of a running request. *)
Theorem work_keeps_order {I} `{Src : MessageSource I} (ops : list op) (i : I) ms s :
  source_ok i -> run ops (work_start i) = Some (ms, s) ->
  exists rs q, received i rs (input s) /\ represents s q /\ kept (ms ++ map fst q) rs.
Proof.
  intros Hi H. destruct (run_kept ops _ [] _ _ (represents_start i Hi) H) as (rs & q & Hr & Hq & Hk).
  exists rs, q. split; [done|]. split; [done|]. apply (Hk [] []). constructor.
Qed.

(** ** The framing buffer as the input *)

Lemma body_text_length content : (length (body_text content) <= length content)%nat.
Proof. unfold body_text. split_if; simpl; lia. Qed.
#[export, refine] Instance framing_source : MessageSource (LspInput * world) := {
  input_next wait x := let* (r, i, w) := lsp_input_next true wait (fst x) (snd x) in Some (r, (i, w));
  input_fail x := (fail_input (fst x), snd x);
  source_ok x := input_ok (fst x) }.
Proof.
  - intros wait [i w] r [i' w'] Hi H. simpl in *. destruct (lsp_input_next true wait i w) as [[[r0 i0] w0]|] eqn:E; [|done].
    injection H as -> -> ->. destruct (input_loop_ok _ _ _ _ _ _ _ _ Hi E) as [Hi' Hr]. split; [done|].
    intros b ->. destruct Hr as (h & c & seen & rest & _ & (_ & _ & _ & _ & Hc) & -> & _). pose proof (body_text_length c). lia.
  - intros [i w] H. done.
Defined.

(** A request and its cancellation. *)
Definition plain_frame (b : bytes) (digits : string) : bytes :=
  str "Content-Length: " ++ str digits ++ [13; 10; 13; 10] ++ b.
Definition field (k : string) (v : bytes) : bytes := quoted (str k) ++ str ":" ++ v.
Definition hover : bytes := str "{" ++ field "method" (quoted (str "hover")) ++ str "}".
Definition cancel7 : bytes :=
  str "{" ++ field "method" (quoted cancel_method) ++ str "," ++ field "params" (str "{" ++ field "id" (str "7") ++ str "}") ++ str "}".
Definition example_world : world :=
  {| w_stream := plain_frame hover "18" ++ plain_frame cancel7 "46" ++ plain_frame hover "18";
     w_turns := [t_example 200; {| t_polls := [NotReady]; t_realloc := true; t_got := Chunk 0 |}] |}.
Definition example_ops : list op := [Request (Some (str "7")); Poll true; Poll true; Next true].

Lemma work_keeps_order_witness :
  exists s, run example_ops (work_start (in_start, example_world)) = Some ([hover], s)
  /\ exists rs q, received (in_start, example_world) rs (input s) /\ represents s q /\ kept ([hover] ++ map fst q) rs.
Proof.
  destruct (run example_ops (work_start (in_start, example_world))) as [[ms s]|] eqn:E; [|vm_compute in E; discriminate E].
  pose proof (work_keeps_order example_ops (in_start, example_world) ms s (or_introl (conj eq_refl eq_refl)) E) as H.
  assert (ms = [hover]) as -> by (vm_compute in E; injection E as <- _; vm_compute; reflexivity).
  exists s. split; [reflexivity | exact H].
Defined.
Lemma work_queue_refines_witness :
  exists s q, lsp_work_poll true (fun _ => true) (with_id (work_start (in_start, example_world)) (Some (str "7"))) = Some (true, s)
  /\ represents s q /\ map fst q = [hover].
Proof.
  set (s0 := with_id (work_start (in_start, example_world)) (Some (str "7"))).
  assert (H0 : represents s0 []).
  { exists []. split; [reflexivity|]. unfold holds. simpl. split_and!; try done; try lia; try constructor. split; reflexivity. }
  destruct (work_queue_refines s0 [] true (fun _ => true) true H0) as [H _].
  destruct (lsp_work_poll true (fun _ => true) s0) as [[r s]|] eqn:E; [|vm_compute in E; discriminate E].
  unfold agrees in H.
  destruct (spec_poll true (fun _ => true) (id s0) [] (input s0)) as [[[r' q] i]|] eqn:Es; [|contradiction H].
  destruct H as (-> & Hr & _). vm_compute in Es. injection Es as Er Eq Ei. exists s, q.
  split; [by rewrite <- Er|]. split; [exact Hr|]. rewrite <- Eq. vm_compute. reflexivity.
Defined.
