(* ===== verification/LspWire.v ===== *)
(** Columns on the wire (src/src/lsp_wire.h, lines 4 to 102, and the positions of
    lsp_server.c): the compiler counts bytes, the protocol UTF-16 units, and a
    cursor remembers where the last conversion stopped.

    A text is a C string with the address it is known by; a row is what is left
    of the text from its first byte on. *)

From S2P Require Import Prelude LspJson.

(** ** Conversion *)

Definition wire_char (p : bytes) (i : nat) : Z := nth i p 0.
Definition lead_width (c : Z) : nat := if c <? 0x80 then 1 else if c <? 0xe0 then 2 else if c <? 0xf0 then 3 else 4.
(** [while (valid < width && p[valid] && (p[valid] & 0xc0) == 0x80) ++valid] *)
Fixpoint valid_bytes (fuel valid width : nat) (p : bytes) : nat :=
  match fuel with
  | O => valid
  | S f =>
      if (valid <? width)%nat && negb (wire_char p valid =? 0) && (Z.land (wire_char p valid) 0xc0 =? 0x80)
      then valid_bytes f (S valid) width p else valid
  end.
Definition char_width (p : bytes) : nat :=
  let width := lead_width (wire_char p 0) in
  if (valid_bytes 3 1 width p =? width)%nat then width else 1.
Definition char_units (p : bytes) : Z := if (char_width p =? 4)%nat then 2 else 1.

(** The scan of a row at [p], which is [bytes] bytes and [units] units after its
    start. *)
Fixpoint column_scan (fuel : nat) (to_bytes : bool) (column : Z) (p : bytes) (bytes units : Z) : option (Z * Z) :=
  match fuel with
  | O => None
  | S f =>
      if negb (cstr_get p =? 0) && negb (cstr_get p =? 10) && ((if to_bytes then units else bytes) <? column) then
        let width := char_width p in
        let step := char_units p in
        if to_bytes && (column <? units + step) then Some (bytes, units)
        else if negb to_bytes && (column <? bytes + Z.of_nat width) then Some (bytes, units)
        else column_scan f to_bytes column (skipn width p) (bytes + Z.of_nat width) (units + step)
      else Some (bytes, units)
  end.

(** [c_text] is the address of the text, [c_row] the rest of it from the row. *)
Record LspWireCursor := mkCursor { c_text : option nat; c_row : bytes; c_line : nat; c_bytes : Z; c_units : Z }.
Definition no_cursor : LspWireCursor := mkCursor None [] 0 0 0.
(** After the first newline. *)
Fixpoint next_row (p : bytes) : option bytes :=
  match p with
  | [] => None
  | c :: q => if c =? 10 then Some q else next_row q
  end.
(** [n] lines further; [false] when the text has fewer. *)
Fixpoint advance (n : nat) (c : LspWireCursor) : bool * LspWireCursor :=
  match n with
  | O => (true, c)
  | S n =>
      match next_row (c_row c) with
      | None => (false, c)
      | Some row => advance n (mkCursor (c_text c) row (S (c_line c)) 0 0)
      end
  end.
Definition lsp_wire_column_at (utf8 : bool) (cursor : LspWireCursor) (text : option (nat * bytes)) (line : nat) (column : Z)
    (to_bytes : bool) : option (Z * LspWireCursor) :=
  match text with
  | None => Some (column, cursor)
  | Some (address, s) =>
      if utf8 then Some (column, cursor)
      else
        let cursor := if negb (bool_decide (c_text cursor = Some address)) || (line <? c_line cursor)%nat
                      then mkCursor (Some address) s 0 0 0 else cursor in
        let '(found, cursor) := advance (line - c_line cursor) cursor in
        if negb found then Some (column, cursor)
        else
          let '(bytes, units) := if column <? (if to_bytes then c_units cursor else c_bytes cursor) then (0, 0)
                                 else (c_bytes cursor, c_units cursor) in
          let p := skipn (Z.to_nat bytes) (c_row cursor) in
          let* (bytes, units) := column_scan (S (length p)) to_bytes column p bytes units in
          Some (if to_bytes then bytes else units, mkCursor (c_text cursor) (c_row cursor) (c_line cursor) bytes units)
  end.
Definition lsp_wire_column (utf8 : bool) (text : option (nat * bytes)) (line : nat) (column : Z) (to_bytes : bool) : option Z :=
  let* (column, _) := lsp_wire_column_at utf8 no_cursor text line column to_bytes in Some column.

(** ** Positions of a request *)

Definition json_point (point : option bytes) : option (Z * Z) :=
  let* p := point in
  let* line := lsp_json_size (lsp_json_member p (quoted (str "line"))) in
  let* character := lsp_json_size (lsp_json_member p (quoted (str "character"))) in
  Some (line, character).
(** [json_position]: the byte column; the outer [None] is no result. *)
Definition json_position (utf8 : bool) (text : option (nat * bytes)) (body : bytes) : option (option (Z * Z)) :=
  let position :=
    match lsp_json_find body (quoted (str "position")) with
    | Some p => Some p
    | None =>
        match lsp_json_find body (quoted (str "positions")) with
        | Some p => Some (if cstr_get p =? 91 then lsp_json_space (tl p) else p)
        | None => None
        end
    end in
  match json_point position with
  | None => Some None
  | Some (line, character) =>
      let* column := lsp_wire_column utf8 text (Z.to_nat line) character true in Some (Some (line, column))
  end.
Definition json_range_positions (body : bytes) : option (Z * Z * (Z * Z)) :=
  let* range := lsp_json_find body (quoted (str "range")) in
  let* start := json_point (lsp_json_member range (quoted (str "start"))) in
  let* end_ := json_point (lsp_json_member range (quoted (str "end"))) in
  Some (start, end_).

(** ** The response buffer *)

Record LspWireBuffer := mkBuffer { b_text : bytes; b_capacity : Z; b_failed : bool; b_failure : option string }.
Definition no_buffer : LspWireBuffer := mkBuffer [] 0 false None.
Definition b_length (b : LspWireBuffer) : Z := Z.of_nat (length (b_text b)).
Definition response_limit : Z := 16 * 1024 * 1024.
(** [realloc] says whether it succeeds. *)
Definition lsp_wire_append (realloc : bool) (out : LspWireBuffer) (text : bytes) : LspWireBuffer :=
  let size := Z.of_nat (length text) in
  if b_failed out then out
  else if u64 (response_limit - b_length out) <? size then
    mkBuffer (b_text out) (b_capacity out) true (Some "response exceeds server capacity")
  else
    let needed := u64 (b_length out + size + 1) in
    let stored capacity := mkBuffer (b_text out ++ text) capacity false (b_failure out) in
    if b_capacity out <? needed then
      let capacity := if b_capacity out =? 0 then 1024 else u64 (b_capacity out * 2) in
      let capacity := if capacity <? needed then needed else capacity in
      if negb realloc then mkBuffer (b_text out) (b_capacity out) true (Some "response allocation failed")
      else stored capacity
    else stored (b_capacity out).

(** ** Character boundaries *)

Definition in_row (p : bytes) : Prop := cstr_get p <> 0 /\ cstr_get p <> 10.
(** The boundaries between the characters of a row, in bytes and in units. *)
Inductive boundary (row : bytes) : Z -> Z -> Prop :=
| boundary_start : boundary row 0 0
| boundary_next b u : boundary row b u -> in_row (skipn (Z.to_nat b) row) ->
    boundary row (b + Z.of_nat (char_width (skipn (Z.to_nat b) row))) (u + char_units (skipn (Z.to_nat b) row)).

Lemma lead_width_range c : (1 <= lead_width c <= 4)%nat.
Proof. unfold lead_width. repeat split_if; lia. Qed.
Lemma valid_bytes_le p width : forall fuel valid, (valid <= length p)%nat -> (valid_bytes fuel valid width p <= length p)%nat.
Proof.
  induction fuel as [|fuel IH]; intros valid H; simpl; [done|]. split_if; [|done]. apply IH. to_prop.
  destruct (Nat.le_gt_cases (length p) valid) as [Hl|Hl]; [|lia].
  unfold wire_char in *. rewrite nth_overflow in * by done. lia.
Qed.
Lemma char_width_range p : cstr_get p <> 0 -> (1 <= char_width p <= length p)%nat.
Proof.
  intros Hp. destruct p as [|c p]; [done|]. unfold char_width. pose proof (lead_width_range (wire_char (c :: p) 0)).
  destruct (Nat.eqb_spec (valid_bytes 3 1 (lead_width (wire_char (c :: p) 0)) (c :: p)) (lead_width (wire_char (c :: p) 0))) as [E|E];
    [|simpl; lia].
  rewrite <- E at 2. split; [lia|]. apply valid_bytes_le. simpl. lia.
Qed.
Lemma char_units_range p : 1 <= char_units p <= 2.
Proof. unfold char_units. split_if; lia. Qed.
Lemma boundary_range row b u : boundary row b u -> 0 <= b <= Z.of_nat (length row) /\ 0 <= u.
Proof.
  induction 1 as [|b u _ IH [Hp _]]; [lia|]. pose proof (char_width_range _ Hp). pose proof (char_units_range (skipn (Z.to_nat b) row)).
  rewrite length_skipn in *. lia.
Qed.

(** ** The scan *)

Section scan.
Context (to_bytes : bool) (column : Z).
(** What the scan counts. *)
Definition key (b u : Z) : Z := if to_bytes then u else b.

(** One step of the scan: it goes to the next boundary unless that is past the
    column. *)
Lemma column_scan_step f p b u :
  in_row p -> key (b + Z.of_nat (char_width p)) (u + char_units p) <= column ->
  column_scan (S f) to_bytes column p b u
  = column_scan f to_bytes column (skipn (char_width p) p) (b + Z.of_nat (char_width p)) (u + char_units p).
Proof using.
  intros [H1 H2] Hk. pose proof (char_width_range _ H1). pose proof (char_units_range p). unfold key in Hk.
  cbn [column_scan]. destruct to_bytes; zb; done.
Qed.
Lemma column_scan_stop f p b u :
  ~ in_row p \/ column < key (b + Z.of_nat (char_width p)) (u + char_units p) -> key b u <= column ->
  column_scan (S f) to_bytes column p b u = Some (b, u).
Proof using.
  intros H Hk. unfold key, in_row in *. cbn [column_scan].
  destruct (Z.eqb_spec (cstr_get p) 0); [done|]. destruct (Z.eqb_spec (cstr_get p) 10); [done|]. cbn [negb andb].
  destruct H as [H|H]; [tauto|]. destruct to_bytes; split_if; cbn [negb andb]; zb; done.
Qed.
(** The scan from a boundary stops at the last one that is not past the column. *)
Definition last_boundary (row : bytes) (b u : Z) : Prop :=
  boundary row b u /\ key b u <= column
  /\ (~ in_row (skipn (Z.to_nat b) row)
      \/ column < key (b + Z.of_nat (char_width (skipn (Z.to_nat b) row))) (u + char_units (skipn (Z.to_nat b) row))).
Lemma column_scan_last row : forall f b u,
  boundary row b u -> key b u <= column -> (length row < f + Z.to_nat b)%nat ->
  exists b' u', column_scan f to_bytes column (skipn (Z.to_nat b) row) b u = Some (b', u') /\ last_boundary row b' u'.
Proof using.
  induction f as [|f IH]; intros b u Hb Hk Hf; pose proof (boundary_range _ _ _ Hb) as [Hr _]; [lia|].
  set (p := skipn (Z.to_nat b) row).
  assert (Hd : ~ in_row p \/ in_row p) by (unfold in_row; lia).
  destruct Hd as [Hd|Hd]; [exists b, u; rewrite column_scan_stop by auto; split; [done|]; split_and!; auto|].
  destruct (Z.lt_ge_cases column (key (b + Z.of_nat (char_width p)) (u + char_units p))) as [Hc|Hc].
  { exists b, u. rewrite column_scan_stop by auto. split; [done|]; split_and!; auto. }
  rewrite column_scan_step by done. pose proof (char_width_range _ (proj1 Hd)) as Hw. unfold p in *.
  rewrite drop_drop, <- (Nat2Z.id (char_width _)), <- Z2Nat.inj_add, Nat2Z.id by lia.
  apply IH; [by constructor | done | lia].
Qed.
(** There is one such boundary. *)
Definition after_char (row : bytes) (x y : Z * Z) : Prop :=
  in_row (skipn (Z.to_nat (fst x)) row)
  /\ y = (fst x + Z.of_nat (char_width (skipn (Z.to_nat (fst x)) row)), snd x + char_units (skipn (Z.to_nat (fst x)) row)).
Lemma boundary_reached row b u : boundary row b u -> rtc (after_char row) (0, 0) (b, u).
Proof using. induction 1 as [|b u _ IH Hp]; [constructor|]. eapply rtc_r; [exact IH|]. by split. Qed.
Lemma boundary_linear row b u b' u' : boundary row b u -> boundary row b' u' ->
  rtc (after_char row) (b, u) (b', u') \/ rtc (after_char row) (b', u') (b, u).
Proof using.
  intros H H'. induction H as [|b u H IH Hp]; [left; by apply boundary_reached|]. destruct IH as [IH|IH].
  - inversion IH as [|? y ? [_ ->] Hr]; subst; [right; apply rtc_once; by split | by left].
  - right. eapply rtc_r; [exact IH|]. by split.
Qed.
Lemma reached_le row x y : rtc (after_char row) x y -> fst x <= fst y /\ snd x <= snd y.
Proof using.
  induction 1 as [|x y z [Hp ->] _ IH]; [lia|]. simpl in IH. pose proof (char_units_range (skipn (Z.to_nat (fst x)) row)). lia.
Qed.
Lemma last_boundary_ordered row b u b' u' :
  last_boundary row b u -> last_boundary row b' u' -> rtc (after_char row) (b, u) (b', u') -> b = b' /\ u = u'.
Proof using.
  intros (_ & _ & Hl) (_ & Hk & _) Hr. inversion Hr as [|? y ? [Hp ->] Hr']; subst; [done|]. simpl in *.
  apply reached_le in Hr' as [H1 H2]. simpl in *. unfold key in *. destruct Hl as [Hl|Hl]; [done|]. destruct to_bytes; lia.
Qed.
Lemma last_boundary_unique row b u b' u' : last_boundary row b u -> last_boundary row b' u' -> b = b' /\ u = u'.
Proof using.
  intros H H'. destruct (boundary_linear row b u b' u' (proj1 H) (proj1 H')) as [Hr|Hr]; [by eapply last_boundary_ordered|].
  destruct (last_boundary_ordered _ _ _ _ _ H' H Hr) as [-> ->]. done.
Qed.
End scan.

(** ** The cursor *)

(** The row of a line. *)
Fixpoint row_at (s : bytes) (line : nat) : option bytes :=
  match line with
  | O => Some s
  | S line => match next_row s with Some s => row_at s line | None => None end
  end.
Lemma row_at_add m : forall s n row, row_at s n = Some row -> row_at s (n + m) = row_at row m.
Proof.
  intros s n. revert s. induction n as [|n IH]; intros s row H; simpl in *; [by injection H as ->|].
  destruct (next_row s) as [s'|]; [by apply IH | done].
Qed.
(** What a conversion means: on a line of the text the last boundary that is
    not past the column; the column itself on a line the text does not have. *)
Definition converts (s : bytes) (line : nat) (column : Z) (to_bytes : bool) (result : Z) : Prop :=
  match row_at s line with
  | None => result = column
  | Some row => exists b u, last_boundary to_bytes column row b u /\ result = if to_bytes then b else u
  end.
Lemma converts_unique s line column to_bytes x y :
  converts s line column to_bytes x -> converts s line column to_bytes y -> x = y.
Proof.
  unfold converts. destruct (row_at s line) as [row|]; [|congruence].
  intros (b & u & H & ->) (b' & u' & H' & ->). destruct (last_boundary_unique _ _ _ _ _ _ _ H H') as [-> ->]. done.
Qed.

Section cursor.
(** The texts, by address, while a cursor is in use. *)
Context (texts : nat -> bytes).
Definition cursor_ok (c : LspWireCursor) : Prop :=
  match c_text c with
  | None => True
  | Some t => row_at (texts t) (c_line c) = Some (c_row c) /\ boundary (c_row c) (c_bytes c) (c_units c)
  end.
Lemma advance_ok t n : forall c, c_text c = Some t -> cursor_ok c ->
  exists found c', advance n c = (found, c') /\ c_text c' = Some t /\ cursor_ok c'
  /\ if found then c_line c' = (c_line c + n)%nat else row_at (texts t) (c_line c + n) = None.
Proof using.
  induction n as [|n IH]; intros c Ht Hc; simpl.
  { exists true, c. split_and!; auto; lia. }
  unfold cursor_ok in Hc. rewrite Ht in Hc. destruct Hc as [Hr Hb]. destruct (next_row (c_row c)) as [row|] eqn:En.
  - destruct (IH (mkCursor (c_text c) row (S (c_line c)) 0 0)) as (found & c' & E & Ht' & Hc' & Hf); [done| |].
    { unfold cursor_ok. cbn [c_text c_line c_row c_bytes c_units]. rewrite Ht. split; [|constructor]. rewrite <- Nat.add_1_r, (row_at_add 1 _ _ _ Hr). simpl. by rewrite En. }
    exists found, c'. simpl in Hf. rewrite Nat.add_succ_r. auto.
  - exists false, c. split_and!; auto; [unfold cursor_ok; by rewrite Ht|].
    rewrite (row_at_add (S n) _ _ _ Hr). simpl. by rewrite En.
Qed.
Lemma wire_column_at_converts c t line column to_bytes :
  cursor_ok c -> 0 <= column ->
  exists result c', lsp_wire_column_at false c (Some (t, texts t)) line column to_bytes = Some (result, c')
  /\ cursor_ok c' /\ converts (texts t) line column to_bytes result.
Proof using.
  intros Hc Hcol. unfold lsp_wire_column_at.
  set (c0 := if negb (bool_decide (c_text c = Some t)) || (line <? c_line c)%nat then mkCursor (Some t) (texts t) 0 0 0 else c).
  assert (H0 : c_text c0 = Some t /\ cursor_ok c0 /\ (c_line c0 <= line)%nat).
  { unfold c0. destruct (bool_decide_reflect (c_text c = Some t)) as [E|E]; cbn [negb orb].
    - destruct (Nat.ltb_spec line (c_line c)); split_and!; auto; [|simpl; lia]. split; [done | constructor].
    - split_and!; [done | | simpl; lia]. split; [done | constructor]. }
  destruct H0 as (Ht0 & Hc0 & Hl0). clearbody c0.
  destruct (advance_ok t (line - c_line c0) c0 Ht0 Hc0) as (found & c1 & -> & Ht1 & Hc1 & Hf).
  replace (c_line c0 + (line - c_line c0))%nat with line in Hf by lia.
  destruct found; cbn [negb].
  2: { exists column, c1. split_and!; auto. unfold converts. by rewrite Hf. }
  pose proof Hc1 as Hc1'. unfold cursor_ok in Hc1'. rewrite Ht1, Hf in Hc1'. destruct Hc1' as [Hr Hb].
  set (start := if column <? (if to_bytes then c_units c1 else c_bytes c1) then (0, 0) else (c_bytes c1, c_units c1)).
  assert (Hs : boundary (c_row c1) (fst start) (snd start) /\ key to_bytes (fst start) (snd start) <= column).
  { unfold start, key. destruct (Z.ltb_spec column (if to_bytes then c_units c1 else c_bytes c1)); simpl;
      (split; [constructor || done | destruct to_bytes; lia]). }
  destruct start as [b u]. simpl in Hs. destruct Hs as [Hsb Hsk].
  pose proof (boundary_range _ _ _ Hsb) as [Hbr _].
  destruct (column_scan_last to_bytes column (c_row c1) (S (length (skipn (Z.to_nat b) (c_row c1)))) b u Hsb Hsk) as (b' & u' & E & Hlast).
  { rewrite length_skipn. lia. }
  rewrite E. eexists _, _. split; [reflexivity|]. split.
  - unfold cursor_ok; simpl. rewrite Ht1, Hf. split; [done | apply Hlast].
  - unfold converts. rewrite Hr. eauto.
Qed.
Lemma no_cursor_ok : cursor_ok no_cursor.
Proof using. done. Qed.
End cursor.

(** The cursor only saves work.  Whatever conversions it served before, on
    any texts and in any order, [lsp_wire_column_at] gives what a conversion
    with a new cursor gives, and that is the last character boundary of the line
    that is not past the column; the cursor stays usable. *)
Theorem wire_cursor_exact (texts : nat -> bytes) cursor t line column to_bytes :
  cursor_ok texts cursor -> 0 <= column ->
  exists result cursor',
    lsp_wire_column_at false cursor (Some (t, texts t)) line column to_bytes = Some (result, cursor')
    /\ lsp_wire_column false (Some (t, texts t)) line column to_bytes = Some result
    /\ converts (texts t) line column to_bytes result /\ cursor_ok texts cursor'.
Proof.
  intros Hc Hcol. destruct (wire_column_at_converts texts cursor t line column to_bytes Hc Hcol) as (r & c' & E & Hc' & Hr).
  destruct (wire_column_at_converts texts no_cursor t line column to_bytes (no_cursor_ok texts) Hcol) as (r0 & c0 & E0 & _ & Hr0).
  exists r, c'. split_and!; auto. unfold lsp_wire_column. rewrite E0. f_equal. by eapply converts_unique.
Qed.
Definition sample_source (t : nat) : bytes :=
  if (t =? 0)%nat then str "ab" ++ [10; 0xc3; 0xa9; 0xf0; 0x9f; 0x98; 0x80] ++ str "x = 1" else [].
Lemma wire_cursor_exact_witness :
  exists cursor', lsp_wire_column_at false (mkCursor (Some 0%nat) (skipn 3 (sample_source 0)) 1 2 1)
      (Some (0%nat, sample_source 0)) 1 3 true = Some (6, cursor')
  /\ lsp_wire_column false (Some (0%nat, sample_source 0)) 1 3 true = Some 6 /\ cursor_ok sample_source cursor'.
Proof.
  set (c := mkCursor (Some 0%nat) (skipn 3 (sample_source 0)) 1 2 1).
  assert (Hc : cursor_ok sample_source c).
  { split; [reflexivity|]. refine (boundary_next _ 0 0 (boundary_start _) _). split; vm_compute; discriminate. }
  destruct (wire_cursor_exact sample_source c 0 1 3 true Hc ltac:(lia)) as (r & c' & E & E' & _ & Hc').
  assert (r = 6) as -> by (vm_compute in E; by injection E).
  exists c'. split; [exact E|]. split; [exact E' | exact Hc'].
Defined.

Lemma boundary_last to_bytes row b u : boundary row b u -> last_boundary to_bytes (key to_bytes b u) row b u.
Proof.
  intros H. split_and!; [done | lia|]. destruct (decide (cstr_get (skipn (Z.to_nat b) row) = 0)) as [E|E]; [left; by intros []|].
  right. pose proof (char_width_range _ E). pose proof (char_units_range (skipn (Z.to_nat b) row)). unfold key. destruct to_bytes; lia.
Qed.
(** At every character boundary of every line the two conversions undo each
    other: [u] UTF-16 units are [b] bytes and [b] bytes are [u] units. *)
Theorem wire_columns_roundtrip t s line row b u :
  row_at s line = Some row -> boundary row b u ->
  lsp_wire_column false (Some (t, s)) line u true = Some b
  /\ lsp_wire_column false (Some (t, s)) line b false = Some u.
Proof.
  intros Hr Hb. pose proof (boundary_range _ _ _ Hb) as [Hb0 Hu0].
  assert (H : forall to_bytes, lsp_wire_column false (Some (t, s)) line (key to_bytes b u) to_bytes = Some (if to_bytes then b else u)).
  { intros to_bytes. destruct (wire_column_at_converts (fun _ => s) no_cursor t line (key to_bytes b u) to_bytes) as (r & c & E & _ & Hc);
      [done | unfold key; destruct to_bytes; lia|].
    unfold lsp_wire_column. rewrite E. f_equal. eapply converts_unique; [exact Hc|]. unfold converts. rewrite Hr.
    exists b, u. split; [by apply boundary_last | done]. }
  split; [exact (H true) | exact (H false)].
Qed.
Lemma wire_columns_roundtrip_witness :
  lsp_wire_column false (Some (7%nat, sample_source 0)) 1 3 true = Some 6
  /\ lsp_wire_column false (Some (7%nat, sample_source 0)) 1 6 false = Some 3.
Proof.
  apply (wire_columns_roundtrip 7 (sample_source 0) 1 (skipn 3 (sample_source 0)) 6 3); [reflexivity|].
  assert (H1 : boundary (skipn 3 (sample_source 0)) 2 1)
    by (refine (boundary_next _ 0 0 (boundary_start _) _); split; vm_compute; discriminate).
  refine (boundary_next _ 2 1 H1 _); split; vm_compute; discriminate.
Defined.

(** ** The response buffer *)

Definition buffer_ok (b : LspWireBuffer) : Prop :=
  b_length b <= response_limit /\ (b_text b = [] \/ b_length b < b_capacity b) /\ 0 <= b_capacity b <= 2 * (response_limit + 1)
  /\ (b_failed b = false -> b_failure b = None).
(** An append stores the text behind the others, or fails and keeps them; the
    text and its terminator stay in the allocation, and a failure stays. *)
Lemma lsp_wire_append_ok realloc out text :
  buffer_ok out -> Z.of_nat (length text) < 2 ^ 63 ->
  let out' := lsp_wire_append realloc out text in
  buffer_ok out' /\ (b_failed out = true -> out' = out)
  /\ (b_failed out = false ->
      (b_failed out' = false /\ b_text out' = b_text out ++ text /\ b_length out' < b_capacity out')
      \/ (b_failed out' = true /\ b_text out' = b_text out
          /\ (realloc = false \/ response_limit < b_length out + Z.of_nat (length text)))).
Proof.
  unfold buffer_ok, b_length, response_limit. intros (Hl & Hc & Hcap & Hf) Ht. unfold lsp_wire_append.
  destruct (b_failed out) eqn:Ef; [cbv zeta; rewrite Ef; split_and!; try lia; auto; intros; discriminate|].
  unfold b_length, response_limit. rewrite !u64_small by lia.
  destruct (Z.ltb_spec (16 * 1024 * 1024 - Z.of_nat (length (b_text out))) (Z.of_nat (length text))) as [Hs|Hs].
  { simpl. split_and!; try lia; auto; try done. intros _. right. split_and!; auto. right. lia. }
  set (needed := Z.of_nat (length (b_text out)) + Z.of_nat (length text) + 1).
  destruct (Z.ltb_spec (b_capacity out) needed) as [Hn|Hn].
  2: { simpl. rewrite length_app. split_and!; try lia; auto; try (right; lia). intros _. left. split_and!; auto. lia. }
  set (grown := if b_capacity out =? 0 then 1024 else b_capacity out * 2).
  assert (Hg : 0 <= grown <= 2 * (16 * 1024 * 1024 + 1)) by (unfold grown, needed in *; destruct (Z.eqb_spec (b_capacity out) 0); lia).
  destruct realloc; simpl; [|split_and!; try lia; auto; try done; intros _; right; auto].
  assert (Hcap' : needed <= (if grown <? needed then needed else grown) <= 2 * (16 * 1024 * 1024 + 1))
    by (unfold needed in *; destruct (Z.ltb_spec grown (Z.of_nat (length (b_text out)) + Z.of_nat (length text) + 1)); lia).
  rewrite length_app. unfold needed in *. split_and!; try lia; auto; try (right; lia). intros _. left. split_and!; auto. lia.
Qed.
