(* ===== verification/LspDocument.v ===== *)
(** Documents of the language server (src/src/lsp_document.c): file URIs and
    their cache, positions by the table of line starts, the edits of a change
    notification, and words. *)

From S2P Require Import Prelude Source LspJson LspText LspWire.

(** ** File URIs *)

Definition lsp_hex (c : Z) : Z :=
  if (48 <=? c) && (c <=? 57) then c - 48
  else if (97 <=? c) && (c <=? 102) then c - 97 + 10
  else if (65 <=? c) && (c <=? 70) then c - 65 + 10
  else 16.
(** The path of the loop; a bad escape makes it empty. *)
Fixpoint uri_decode (input : bytes) : option bytes :=
  match input with
  | [] => Some []
  | c :: q =>
      if c =? 37 then
        match q with
        | h :: l :: q =>
            if (lsp_hex h =? 16) || (lsp_hex l =? 16) then None
            else
              let value := lsp_hex h * 16 + lsp_hex l in
              if value =? 0 then None
              else let* path := uri_decode q in Some (value :: path)
        | _ => None
        end
      else let* path := uri_decode q in Some (c :: path)
  end.
(** The cache, newest entry first. *)
Abbreviation uri_paths := (list (bytes * bytes)).
Fixpoint uri_find (uri : bytes) (cache : uri_paths) : option bytes :=
  match cache with
  | [] => None
  | (u, path) :: cache => if bytes_eqb u uri then Some path else uri_find uri cache
  end.
(** The part of the URI that names a local file. *)
Definition uri_local (uri : bytes) : bytes :=
  let input := skipn 7 uri in
  if starts input (str "localhost/") then skipn 9 input else input.
(** The path and the cache; [alloc] says whether the entry can be allocated. *)
Definition lsp_file_path (alloc : bool) (cache : uri_paths) (uri : bytes) : bytes * uri_paths :=
  if negb (starts uri (str "file://")) then (uri, cache)
  else
    match uri_find uri cache with
    | Some path => (path, cache)
    | None =>
        let input := uri_local uri in
        if negb (cstr_get input =? 47) then ([], cache)
        else if negb alloc then ([], cache)
        else
          let path := match uri_decode input with Some path => path | None => [] end in
          (path, (uri, path) :: cache)
    end.

Definition hex_upper (d : Z) : Z := if d <? 10 then 48 + d else 65 + (d - 10).
Definition uri_plain (c : Z) : bool :=
  ((97 <=? c) && (c <=? 122)) || ((65 <=? c) && (c <=? 90)) || ((48 <=? c) && (c <=? 57)) || one_of c (str "/:-._~").
Definition uri_char (c : Z) : bytes :=
  if uri_plain c then [c] else [37; hex_upper (Z.shiftr c 4); hex_upper (Z.land c 15)].
Definition lsp_path_uri (alloc : bool) (path : bytes) : option bytes :=
  if (UINT64_MAX - 8) / 3 <? zlen path then None
  else if negb alloc then None
  else Some (str "file://" ++ concat (map uri_char path)).

(** ** Positions *)

(** The offsets after the newlines from [i] on. *)
Fixpoint starts_after (text : bytes) (i : Z) : list Z :=
  match text with
  | [] => []
  | c :: t => if c =? 10 then u32 (i + 1) :: starts_after t (u32 (i + 1)) else starts_after t (u32 (i + 1))
  end.
(** The table, or none without memory. *)
Definition lsp_document_lines (alloc : bool) (text : bytes) : option (list Z) :=
  if alloc then Some (0 :: starts_after text 0) else None.

(** [while (at < start + column && text[at] && text[at] != '\n') ++at], for the
    text at [at]. *)
Fixpoint offset_scan (p : bytes) (at_ limit : Z) : Z :=
  match p with
  | [] => at_
  | c :: q => if (at_ <? limit) && negb (c =? 0) && negb (c =? 10) then offset_scan q (at_ + 1) limit else at_
  end.
(** The start of a row, by [strchr]. *)
Fixpoint row_start (row : nat) (p : bytes) (start : Z) : option Z :=
  match row with
  | O => Some start
  | S row => match next_row p with Some q => row_start row q (start + (zlen p - zlen q)) | None => None end
  end.
Definition lsp_offset (text : bytes) (table : option (list Z)) (row : nat) (column : Z) : option Z :=
  let* start :=
    match table with
    | Some lines => if zlen lines <=? Z.of_nat row then Some None else let* s := get_at lines (Z.of_nat row) in Some (Some s)
    | None => Some (row_start row text 0)
    end in
  Some (match start with
        | None => u32 (zlen text)
        | Some start => u32 (offset_scan (skipn (Z.to_nat start) text) start (u64 (start + column)))
        end).

(** The row and the column of an offset, counted. *)
Fixpoint text_point (p : bytes) (left_ : nat) (row column : Z) : Z * Z :=
  match left_, p with
  | S left_, c :: p => if c =? 10 then text_point p left_ (u32 (row + 1)) 0 else text_point p left_ row (u32 (column + 1))
  | _, _ => (row, column)
  end.
Definition dyn_text_point (text : bytes) (offset : Z) : Z * Z := text_point text (Z.to_nat offset) 0 0.
Fixpoint point_search (fuel : nat) (lines : list Z) (offset low high : Z) : option Z :=
  match fuel with
  | O => None
  | S f =>
      if 1 <? high - low then
        let middle := low + (high - low) / 2 in
        let* start := get_at lines middle in
        if start <=? offset then point_search f lines offset middle high else point_search f lines offset low middle
      else Some low
  end.
Definition lsp_point (text : bytes) (table : option (list Z)) (offset : Z) : option (Z * Z) :=
  match table with
  | None => Some (dyn_text_point text offset)
  | Some lines =>
      let* low := point_search (S (length lines)) lines offset 0 (zlen lines) in
      let* start := get_at lines low in
      Some (low, u32 (offset - start))
  end.
Definition lsp_text_end (text : bytes) : Z * Z := text_point text (length text) 0 0.

(** ** Edits *)

(** [strchr(p, '\n')], or the end. *)
Fixpoint row_length (p : bytes) : Z :=
  match p with
  | [] => 0
  | c :: q => if c =? 10 then 0 else 1 + row_length q
  end.
Definition lsp_text_offset (text : bytes) (line : nat) (character : Z) : option Z :=
  let* start := row_start line text 0 in
  if row_length (skipn (Z.to_nat start) text) <? character then None else Some (start + character).
Definition lsp_apply_change (utf8 alloc : bool) (text replacement : bytes) (sl : nat) (sc : Z) (el : nat) (ec : Z)
    : option (option bytes) :=
  let* sc := lsp_wire_column utf8 (Some (0%nat, text)) sl sc true in
  let* ec := lsp_wire_column utf8 (Some (0%nat, text)) el ec true in
  Some (let* start := lsp_text_offset text sl sc in
        let* end_ := lsp_text_offset text el ec in
        if end_ <? start then None
        else if negb alloc then None
        else Some (firstn (Z.to_nat start) text ++ replacement ++ skipn (Z.to_nat end_) text)).

(** The end of an object by its braces, outside strings; [None] when the text
    ends first. *)
Fixpoint object_end (end_ : bytes) (depth : Z) (quoted : bool) : option bytes :=
  match end_ with
  | [] => None
  | c :: q =>
      if quoted then
        if c =? 92 then match q with [] => None | _ :: q => object_end q depth true end
        else object_end q depth (negb (c =? 34))
      else if c =? 34 then object_end q depth true
      else if c =? 123 then object_end q (depth + 1) false
      else if c =? 125 then if depth - 1 =? 0 then Some q else object_end q (depth - 1) false
      else object_end q depth false
  end.
(** One change, the object as a string of its own. *)
Definition apply_object (utf8 alloc : bool) (text change : bytes) : option (option bytes) :=
  let* replacement := json_string_after alloc change (LspJson.quoted (str "text")) (1024 * 1024) in
  match replacement with
  | None => Some None
  | Some replacement =>
      match lsp_json_member change (LspJson.quoted (str "range")) with
      | None => Some (Some replacement)
      | Some _ =>
          match json_range_positions change with
          | None => Some None
          | Some ((sl, sc), (el, ec)) => lsp_apply_change utf8 alloc text replacement (Z.to_nat sl) sc (Z.to_nat el) ec
          end
      end
  end.
Fixpoint skip_isspace (p : bytes) : bytes :=
  match p with
  | c :: q => if isspace c then skip_isspace q else p
  | [] => []
  end.
(** The changes at [p] in order; [None] inside is [NULL]. *)
Fixpoint changes_loop (fuel : nat) (utf8 alloc : bool) (text p : bytes) : option (option bytes) :=
  match fuel with
  | O => None
  | S f =>
      let p := skip_isspace p in
      if cstr_get p =? 93 then Some (Some text)
      else if negb (cstr_get p =? 123) then Some None
      else
        match object_end p 0 false with
        | None => Some None
        | Some end_ =>
            let* updated := apply_object utf8 alloc text (firstn (length p - length end_) p) in
            match updated with
            | None => Some None
            | Some text =>
                let p := skip_isspace end_ in
                if cstr_get p =? 93 then Some (Some text)
                else if negb (cstr_get p =? 44) then Some None
                else changes_loop f utf8 alloc text (tl p)
            end
        end
  end.
Definition lsp_apply_changes (utf8 alloc : bool) (text body : bytes) : option (option bytes) :=
  match lsp_json_find body (LspJson.quoted (str "contentChanges")) with
  | None => Some None
  | Some changes =>
      if negb (cstr_get changes =? 91) then Some None
      else if negb alloc then Some None
      else changes_loop (S (length changes)) utf8 alloc text (tl changes)
  end.

(** ** Words *)

Fixpoint word_back (before : bytes) : nat :=
  match before with
  | c :: q => if word_char c then S (word_back q) else O
  | [] => O
  end.
(** The start and the length of the identifier at a byte column of a line. *)
Definition identifier_at (text : bytes) (line : nat) (character : Z) : option (Z * Z) :=
  let* start := row_start line text 0 in
  let row := firstn (Z.to_nat (row_length (skipn (Z.to_nat start) text))) (skipn (Z.to_nat start) text) in
  if zlen row <=? character then None
  else
    let at_ := Z.to_nat character in
    if negb (word_char (nth at_ row 0)) then None
    else
      let a := word_back (rev (firstn at_ row)) in
      let b := word_back (skipn at_ row) in
      Some (start + character - Z.of_nat a, Z.of_nat (a + b)).

(** ** URIs come back *)

(** The cache holds answers of the function without a cache. *)
Definition cache_ok (cache : uri_paths) : Prop := Forall (fun e => snd e = fst (lsp_file_path true [] (fst e))) cache.
Lemma uri_find_ok uri cache path : cache_ok cache -> uri_find uri cache = Some path -> path = fst (lsp_file_path true [] uri).
Proof.
  induction 1 as [|[u p] cache Hp _ IH]; cbn [uri_find]; [done|]. destruct (bytes_eqb_spec u uri) as [->|_]; [|done].
  by intros [= <-].
Qed.
Lemma file_path_cached cache uri :
  cache_ok cache ->
  fst (lsp_file_path true cache uri) = fst (lsp_file_path true [] uri) /\ cache_ok (snd (lsp_file_path true cache uri)).
Proof.
  intros Hc. destruct (uri_find uri cache) as [path|] eqn:E.
  - pose proof (uri_find_ok _ _ _ Hc E) as Hp. unfold lsp_file_path at 1 3. rewrite E.
    destruct (starts uri (str "file://")) eqn:Es; cbn [negb]; [done|]. split; [|done]. unfold lsp_file_path. by rewrite Es.
  - assert (Hf : lsp_file_path true cache uri = (fst (lsp_file_path true [] uri), snd (lsp_file_path true [] uri) ++ cache)).
    { unfold lsp_file_path. rewrite E. cbn [uri_find]. repeat split_if; done. }
    rewrite Hf. split; [done|]. cbn [snd]. apply Forall_app. split; [|done].
    destruct (lsp_file_path true [] uri) as [path added] eqn:Ep. cbn [snd].
    assert (Ha : added = [] \/ added = [(uri, path)]).
    { unfold lsp_file_path in Ep. cbn [uri_find] in Ep. repeat (split_if_in Ep; [injection Ep as <- <-; auto|]).
      injection Ep as <- <-. auto. }
    destruct Ha as [-> | ->]; [constructor|]. constructor; [|constructor]. cbn [fst snd]. by rewrite Ep.
Qed.

Lemma lsp_hex_upper d : 0 <= d < 16 -> lsp_hex (hex_upper d) = d.
Proof.
  intros H. unfold lsp_hex, hex_upper. destruct (Z.ltb_spec d 10); zb; [lia|].
  destruct (Z.leb_spec 48 (65 + (d - 10))), (Z.leb_spec (65 + (d - 10)) 57); try lia; cbn [andb]; zb; lia.
Qed.
Lemma uri_decode_char c q path : 0 < c < 256 -> uri_decode q = Some path -> uri_decode (uri_char c ++ q) = Some (c :: path).
Proof.
  intros Hc Hq. unfold uri_char. destruct (uri_plain c) eqn:E.
  - cbn [app uri_decode]. rewrite Hq. destruct (Z.eqb_spec c 37) as [->|]; [discriminate E | done].
  - assert (Hs : Z.shiftr c 4 = c / 16) by (rewrite Z.shiftr_div_pow2 by lia; done).
    assert (Hl : Z.land c 15 = c mod 16) by (change 15 with (Z.ones 4); rewrite Z.land_ones by lia; done).
    pose proof (Z.div_mod c 16). pose proof (Z.mod_pos_bound c 16).
    assert (0 <= c / 16 < 16) by (split; [apply Z.div_pos | apply Z.div_lt_upper_bound]; lia).
    cbn [app uri_decode]. rewrite Hs, Hl, !lsp_hex_upper by lia. zb. rewrite Hq. do 2 f_equal. lia.
Qed.
Lemma uri_decode_encoded path : c_string path -> uri_decode (concat (map uri_char path)) = Some path.
Proof.
  induction 1 as [|c path Hc _ IH]; [done|]. cbn [map concat]. by apply uri_decode_char.
Qed.

(** The path of a URI the server made of an absolute path is that path
    again, whatever the cache of earlier URIs holds, and the cache stays a
    table of correct answers. *)
Theorem uri_roundtrip path uri cache :
  c_string path -> cstr_get path = 47 -> cache_ok cache -> lsp_path_uri true path = Some uri ->
  fst (lsp_file_path true cache uri) = path /\ cache_ok (snd (lsp_file_path true cache uri)).
Proof.
  intros Hp Hh Hc Hu. destruct (file_path_cached cache uri Hc) as [-> Hk]. split; [|done]. clear Hk.
  unfold lsp_path_uri in Hu. split_if_in Hu; [discriminate Hu|]. cbn [negb] in Hu.
  assert (uri = str "file://" ++ concat (map uri_char path)) as -> by congruence.
  unfold lsp_file_path. rewrite (proj1 (starts_app (str "file://") (concat (map uri_char path)))). cbn [negb uri_find].
  assert (Hl : uri_local (str "file://" ++ concat (map uri_char path)) = concat (map uri_char path)).
  { unfold uri_local. change (skipn 7 (str "file://" ++ concat (map uri_char path))) with (concat (map uri_char path)).
    destruct path as [|c path]; [done|]. simpl in Hh. subst c. cbn [map concat].
    change (uri_char 47) with [47]. cbn [app]. rewrite (starts_head _ 108 (tl (str "localhost/"))); done. }
  rewrite Hl. replace (cstr_get (concat (map uri_char path)) =? 47) with true.
  2: { destruct path as [|c path]; [done|]. simpl in Hh. subst c. done. }
  cbn [negb fst]. by rewrite uri_decode_encoded.
Qed.
Lemma uri_roundtrip_witness :
  lsp_path_uri true (str "/a b/c%.dyn") = Some (str "file:///a%20b/c%25.dyn")
  /\ fst (lsp_file_path true [(str "file:///x", str "/x")] (str "file:///a%20b/c%25.dyn")) = str "/a b/c%.dyn".
Proof.
  split; [vm_compute; reflexivity|].
  refine (proj1 (uri_roundtrip (str "/a b/c%.dyn") (str "file:///a%20b/c%25.dyn") [(str "file:///x", str "/x")] _ _ _ _)).
  - apply (bool_decide_unpack _). vm_compute. exact I.
  - reflexivity.
  - constructor; [vm_compute; reflexivity | constructor].
  - vm_compute. reflexivity.
Defined.

(** ** The line table *)

Lemma next_row_newline p : next_row p = after_newline p.
Proof. induction p as [|c p IH]; [done|]. cbn [next_row after_newline]. by rewrite IH. Qed.
Lemma starts_after_lines t : forall i, 0 <= i -> i + zlen t < 2 ^ 32 -> starts_after t i = line_starts t i.
Proof.
  induction t as [|c t IH]; intros i Hi Hl; [done|]. rewrite zlen_cons in Hl. unfold zlen in *. cbn [starts_after line_starts].
  rewrite u32_small by lia. by rewrite IH by (unfold zlen; lia).
Qed.
Lemma row_start_lookup row : forall p start, row_start row p start = (start :: line_starts p start) !! row.
Proof.
  induction row as [|row IH]; intros p start; [done|]. cbn [row_start lookup list_lookup].
  rewrite next_row_newline. destruct (after_newline p) as [q|] eqn:E.
  - destruct (after_newline_Some p q start E) as [-> _]. rewrite IH.
    replace (start + (zlen p - zlen q)) with (start + zlen p - zlen q) by lia. done.
  - by rewrite after_newline_None.
Qed.
Lemma get_at_nat {A} (l : list A) (i : nat) : get_at l (Z.of_nat i) = l !! i.
Proof.
  unfold get_at. destruct (Z.ltb_spec (Z.of_nat i) (Z.of_nat (length l))).
  - zb. by rewrite Nat2Z.id.
  - rewrite andb_false_r. symmetry. apply lookup_ge_None. lia.
Qed.
(** The table gives the same offsets as searching the newlines. *)
Lemma offset_table_agrees text row column :
  zlen text < 2 ^ 32 -> lsp_offset text (lsp_document_lines true text) row column = lsp_offset text None row column.
Proof.
  intros Hl. unfold lsp_offset, lsp_document_lines. rewrite starts_after_lines by lia.
  rewrite row_start_lookup, get_at_nat. destruct (Z.leb_spec (zlen (0 :: line_starts text 0)) (Z.of_nat row)) as [H|H].
  - rewrite (proj2 (lookup_ge_None _ _)); [done|]. unfold zlen in H. lia.
  - destruct (lookup_lt_is_Some_2 (0 :: line_starts text 0) row) as [s ->]; [unfold zlen in H; lia | done].
Qed.

(** The search ends on the last start that is not past the offset. *)
Lemma point_search_spec lines offset fuel : forall low high,
  0 <= low -> low < high <= zlen lines -> (Z.to_nat (high - low) <= fuel)%nat ->
  (forall s, get_at lines low = Some s -> s <= offset) -> (forall s, get_at lines high = Some s -> offset < s) ->
  exists r, point_search fuel lines offset low high = Some r /\ low <= r < high
  /\ (forall s, get_at lines r = Some s -> s <= offset) /\ (forall s, get_at lines (r + 1) = Some s -> offset < s).
Proof.
  induction fuel as [|fuel IH]; intros low high H0 Hr Hf Hlow Hhigh; [lia|]. cbn [point_search].
  destruct (Z.ltb_spec 1 (high - low)) as [Hd|Hd].
  2: { exists low. replace high with (low + 1) in * by lia. split_and!; auto; lia. }
  set (middle := low + (high - low) / 2).
  assert (Hm : low < middle < high).
  { pose proof (Z.div_mod (high - low) 2). pose proof (Z.mod_pos_bound (high - low) 2). unfold middle. lia. }
  destruct (get_at_is_Some lines middle) as [s Hs]; [unfold zlen in Hr; lia|]. rewrite Hs.
  destruct (Z.leb_spec s offset) as [Hso|Hso].
  - destruct (IH middle high) as (r & E & Hrr & H1 & H2); [lia|lia|lia| |done|].
    { intros s' Hs'. rewrite Hs in Hs'. injection Hs' as <-. done. }
    exists r. split_and!; auto; lia.
  - destruct (IH low middle) as (r & E & Hrr & H1 & H2); [lia|lia|lia|done| |].
    { intros s' Hs'. rewrite Hs in Hs'. injection Hs' as <-. done. }
    exists r. split_and!; auto; lia.
Qed.
(** Counting gives the starts up to the offset and the distance to the last. *)
Lemma text_point_lines t : forall n row j start, (n <= length t)%nat ->
  0 <= row -> row + zlen t < 2 ^ 32 -> 0 <= start <= j -> j + zlen t < 2 ^ 32 ->
  text_point t n row (j - start)
  = (row + zlen (line_starts (firstn n t) j), j + Z.of_nat n - List.last (line_starts (firstn n t) j) start).
Proof.
  induction t as [|c t IH]; intros n row j start Hn Hr Hrl Hs Hl; [simpl in Hn; replace n with O by lia; unfold zlen; simpl; f_equal; lia|].
  destruct n as [|n]; [unfold zlen; simpl; f_equal; lia|]. rewrite zlen_cons in *. assert (0 <= zlen t) by (unfold zlen; lia).
  cbn [text_point firstn line_starts]. simpl in Hn. destruct (c =? 10).
  - replace 0 with ((j + 1) - (j + 1)) at 1 by lia. rewrite u32_small by lia. rewrite IH by lia.
    rewrite last_cons_line, zlen_cons. f_equal; lia.
  - rewrite u32_small by lia. replace (j - start + 1) with (j + 1 - start) by lia. rewrite IH by lia. f_equal; lia.
Qed.

Lemma line_table_split text offset i s :
  0 <= offset <= zlen text -> get_at (0 :: line_starts text 0) i = Some s ->
  i <= zlen (line_starts (firstn (Z.to_nat offset) text) 0) <-> s <= offset.
Proof.
  intros Ho H. set (before := firstn (Z.to_nat offset) text). set (after := skipn (Z.to_nat offset) text).
  assert (zlen before = offset) as Hb by (unfold before, zlen in *; rewrite length_firstn; lia).
  assert (Hs : 0 :: line_starts text 0 = (0 :: line_starts before 0) ++ line_starts after offset).
  { rewrite <- (firstn_skipn (Z.to_nat offset) text) at 1. fold before after. rewrite line_starts_app, Hb. done. }
  rewrite Hs in H. destruct (Z.lt_ge_cases i (zlen (0 :: line_starts before 0))) as [Hi|Hi].
  - rewrite zget_app_l in H by done. rewrite zlen_cons in Hi. split; [|lia]. intros _.
    apply get_at_In in H. destruct H as [<-|H]; [lia|]. apply line_starts_range in H. lia.
  - rewrite zget_app_r in H by done. rewrite zlen_cons in Hi. split; [lia|]. intros Hso.
    apply get_at_In, line_starts_range in H. lia.
Qed.
(** The search in the table counts the lines. *)
Lemma point_search_lines text offset :
  0 <= offset <= zlen text ->
  let lines := 0 :: line_starts text 0 in
  let k := zlen (line_starts (firstn (Z.to_nat offset) text) 0) in
  point_search (S (length lines)) lines offset 0 (zlen lines) = Some k
  /\ get_at lines k = Some (last_line (firstn (Z.to_nat offset) text) 0).
Proof.
  intros Ho lines k. destruct (line_search text offset Ho) as [_ Hk]. fold lines in Hk. fold k in Hk.
  replace (1 + k - 1) with k in Hk by lia.
  assert (Hsplit : forall i s, get_at lines i = Some s -> i <= k <-> s <= offset) by (intros i s; by apply line_table_split).
  destruct (point_search_spec lines offset (S (length lines)) 0 (zlen lines)) as (r & -> & Hr & H1 & H2).
  - lia.
  - unfold lines, zlen. simpl. lia.
  - unfold zlen. lia.
  - intros s [= <-]. lia.
  - intros s Hs. apply get_at_Some in Hs as [Hs _]. unfold zlen in Hs. lia.
  - split; [|done]. f_equal. destruct (get_at_is_Some lines r) as [s Hs]; [unfold zlen in Hr; lia|].
    pose proof (proj2 (Hsplit r s Hs) (H1 s Hs)).
    destruct (Z.eq_dec r k) as [|Hne]; [done|]. apply get_at_Some in Hk as [Hk _].
    destruct (get_at_is_Some lines (r + 1)) as [s' Hs']; [lia|]. specialize (H2 s' Hs').
    pose proof (proj1 (Hsplit (r + 1) s' Hs') ltac:(lia)). lia.
Qed.
Lemma line_starts_length t j : zlen (line_starts t j) <= zlen t.
Proof.
  revert j. induction t as [|c t IH]; intros j; [done|]. cbn [line_starts]. rewrite zlen_cons. specialize (IH (j + 1)).
  split_if; rewrite ?zlen_cons; lia.
Qed.
Lemma last_line_clean t : forall j d, d <= j ->
  let l := List.last (line_starts t j) d in
  (line_starts t j = [] /\ l = d /\ Forall (fun c => c <> 10) t)
  \/ (j < l <= j + zlen t /\ Forall (fun c => c <> 10) (skipn (Z.to_nat (l - j)) t)).
Proof.
  induction t as [|c t IH]; intros j d Hd; [left; auto|]. cbn [line_starts]. rewrite zlen_cons.
  assert (0 <= zlen t) by (unfold zlen; lia). destruct (Z.eqb_spec c 10) as [->|Hc].
  - right. rewrite last_cons_line. destruct (IH (j + 1) (j + 1) ltac:(lia)) as [(_ & -> & Hf) | [Hl Hf]].
    + split; [lia|]. replace (Z.to_nat (j + 1 - j)) with 1%nat by lia. done.
    + split; [lia|]. replace (Z.to_nat (List.last (line_starts t (j + 1)) (j + 1) - j))
        with (S (Z.to_nat (List.last (line_starts t (j + 1)) (j + 1) - (j + 1)))) by lia. done.
  - destruct (IH (j + 1) d ltac:(lia)) as [(E & El & Hf) | [Hl Hf]].
    + left. split_and!; auto.
    + right. split; [lia|]. replace (Z.to_nat (List.last (line_starts t (j + 1)) d - j))
        with (S (Z.to_nat (List.last (line_starts t (j + 1)) d - (j + 1)))) by lia. done.
Qed.
Lemma offset_scan_run p : forall n at_, (n <= length p)%nat -> Forall (fun c => c <> 0 /\ c <> 10) (firstn n p) ->
  offset_scan p at_ (at_ + Z.of_nat n) = at_ + Z.of_nat n.
Proof.
  induction p as [|c p IH]; intros n at_ Hn Hf; [simpl in *; lia|]. destruct n as [|n]; cbn [offset_scan].
  - rewrite Z.add_0_r. by zb.
  - cbn [firstn] in Hf. apply Forall_cons in Hf as [[H1 H2] Hf]. zb. simpl in Hn.
    replace (at_ + Z.of_nat (S n)) with (at_ + 1 + Z.of_nat n) by lia. rewrite IH by (lia || done). lia.
Qed.

(** The point of an offset, by the table and by counting. *)
Lemma point_lines text offset :
  0 <= offset <= zlen text -> zlen text < 2 ^ 32 ->
  let before := firstn (Z.to_nat offset) text in
  let point := (zlen (line_starts before 0), offset - last_line before 0) in
  lsp_point text (lsp_document_lines true text) offset = Some point /\ lsp_point text None offset = Some point
  /\ 0 <= last_line before 0 <= offset.
Proof.
  intros Ho Hl before point. assert (Hb : zlen before = offset) by (unfold before, zlen in *; rewrite length_firstn; lia).
  assert (Hr : 0 <= last_line before 0 <= offset).
  { unfold last_line. destruct (last_line_clean before 0 0 ltac:(lia)) as [(_ & -> & _) | [H _]]; lia. }
  split_and!; [| |lia|lia].
  - unfold lsp_point, lsp_document_lines. rewrite starts_after_lines by lia.
    destruct (point_search_lines text offset Ho) as [-> H2]. fold before in H2 |- *. rewrite H2.
    rewrite u32_small by lia. done.
  - unfold lsp_point, dyn_text_point. f_equal. replace 0 with (0 - 0) at 2 by lia.
    rewrite text_point_lines by (unfold zlen in *; lia). fold before. unfold point, last_line. f_equal; lia.
Qed.

(** The offset at the end of [before] lies on row [row] at column [column]:
    that many newlines come before it, and that many bytes since the last. *)
Definition lies_at (before : bytes) (row : nat) (column : Z) : Prop :=
  exists lines line, before = lines ++ line /\ (10 ∉ line) /\ (lines = [] \/ exists lines', lines = lines' ++ [10])
    /\ row = count_occ Z.eq_dec lines 10 /\ column = zlen line.
Lemma line_starts_count t : forall j, length (line_starts t j) = count_occ Z.eq_dec t 10.
Proof.
  induction t as [|c t IH]; intros j; [done|]. cbn [line_starts count_occ].
  destruct (Z.eq_dec c 10) as [->|Hc]; [by rewrite Z.eqb_refl; cbn [length]; rewrite IH|].
  rewrite (proj2 (Z.eqb_neq c 10) Hc). apply IH.
Qed.
Lemma lies_at_lines before : lies_at before (length (line_starts before 0)) (zlen before - last_line before 0).
Proof.
  induction before as [|c t IH] using rev_ind; [by exists [], []; split_and!; [| apply not_elem_of_nil | left | |]|].
  rewrite (line_starts_app t [c] 0) at 1. unfold last_line. rewrite line_starts_app, zlen_app, Z.add_0_l. cbn [line_starts].
  destruct (Z.eqb_spec c 10) as [->|Hc].
  - exists (t ++ [10]), []. rewrite app_nil_r, List.last_last, length_app, line_starts_count, count_occ_app.
    split_and!; [done|apply not_elem_of_nil|right; by exists t|done|unfold zlen; cbn; lia].
  - rewrite !app_nil_r. destruct IH as (lines & line & -> & Hl & Hn & Hr & Hcol). exists lines, (line ++ [c]).
    rewrite app_assoc. split_and!; try done; [set_solver|]. unfold last_line in Hcol. rewrite (zlen_app line), <- Hcol. lia.
Qed.
Lemma offset_back text offset :
  c_string text -> zlen text < 2 ^ 32 -> 0 <= offset <= zlen text ->
  let before := firstn (Z.to_nat offset) text in
  lsp_offset text None (length (line_starts before 0)) (offset - last_line before 0) = Some offset.
Proof.
  intros Hc Hl Ho before. destruct (point_lines text offset Ho Hl) as (_ & _ & Hr). fold before in Hr.
  unfold lsp_offset. rewrite row_start_lookup, <- get_at_nat.
  destruct (point_search_lines text offset Ho) as [_ Hg]. fold before in Hg. unfold zlen at 1 in Hg. rewrite Hg.
  replace (last_line before 0 + (offset - last_line before 0)) with offset by lia.
  rewrite (u64_small offset) by lia.
  pose proof (offset_scan_run (skipn (Z.to_nat (last_line before 0)) text) (Z.to_nat (offset - last_line before 0)) (last_line before 0)) as Hs.
  replace (last_line before 0 + Z.of_nat (Z.to_nat (offset - last_line before 0))) with offset in Hs by lia.
  rewrite Hs; [by rewrite u32_small by lia | |].
  - rewrite length_skipn. unfold zlen in *. lia.
  - set (l := last_line before 0) in *. assert (E : firstn (Z.to_nat (offset - l)) (skipn (Z.to_nat l) text) = skipn (Z.to_nat l) before).
    { unfold before. rewrite skipn_firstn_comm. f_equal. lia. }
    rewrite E. assert (Hn : Forall (fun c => c <> 10) (skipn (Z.to_nat l) before)).
    { unfold l, last_line. destruct (last_line_clean before 0 0 ltac:(lia)) as [(_ & -> & Hf) | [_ Hf]]; [done|]. by rewrite Z.sub_0_r in Hf. }
    assert (Hz : Forall (fun c => c <> 0) (skipn (Z.to_nat l) before)).
    { apply Forall_drop, Forall_take. eapply Forall_impl; [exact Hc|]. simpl. lia. }
    rewrite Forall_forall in *. intros c Hin. auto.
Qed.


(** ** Edits *)

(** Row [line] of a text starts after that many lines with their newlines. *)
Definition row_begins (text : bytes) (line : nat) (before row : bytes) : Prop :=
  exists ls, length ls = line /\ Forall (Forall (fun c => c <> 10)) ls /\ before = concat (map (fun l => l ++ [10]) ls)
    /\ text = before ++ row.
(** The first [n] bytes go on a character: their top bits are 10. *)
Definition followed (n : nat) (q : bytes) : Prop := (n <= length q)%nat /\ Forall (fun c => Z.land c 0xc0 = 0x80) (firstn n q).
(** The character at the head of a row, its bytes and its UTF-16 units: an ASCII
    byte, a sequence of two, three or four bytes by its first byte, of which
    only the last has two units, or a byte that starts no complete sequence. *)
Inductive character : bytes -> nat -> Z -> Prop :=
| character_ascii c q : c < 0x80 -> c <> 0 -> c <> 10 -> character (c :: q) 1 1
| character_two c q : 0x80 <= c < 0xe0 -> followed 1 q -> character (c :: q) 2 1
| character_three c q : 0xe0 <= c < 0xf0 -> followed 2 q -> character (c :: q) 3 1
| character_four c q : 0xf0 <= c -> followed 3 q -> character (c :: q) 4 2
| character_broken c q : 0x80 <= c ->
    ~ (c < 0xe0 /\ followed 1 q) -> ~ (0xe0 <= c < 0xf0 /\ followed 2 q) -> ~ (0xf0 <= c /\ followed 3 q) -> character (c :: q) 1 1.
(** The ends of the characters of a row, in bytes and in units. *)
Inductive walk (row : bytes) : Z -> Z -> Prop :=
| walk_start : walk row 0 0
| walk_on b u w n : walk row b u -> character (skipn (Z.to_nat b) row) w n -> walk row (b + Z.of_nat w) (u + n).
(** The byte offset of a position of the protocol. In UTF-8 the column is in
    bytes and has to be inside the line or at its end. In UTF-16 it is in units
    and stands for the last end of a character that is not past it. *)
Definition position (utf8 : bool) (text : bytes) (line : nat) (column offset : Z) : Prop :=
  exists before row, row_begins text line before row /\
    if utf8 then column <= zlen row /\ Forall (fun c => c <> 10) (firstn (Z.to_nat column) row) /\ offset = zlen before + column
    else exists b u, walk row b u /\ u <= column /\ (forall w n, character (skipn (Z.to_nat b) row) w n -> column < u + n)
                     /\ offset = zlen before + b.

Lemma next_row_suffix p q : next_row p = Some q -> exists a, p = a ++ q.
Proof.
  induction p as [|c p IH]; [done|]. cbn [next_row]. destruct (c =? 10).
  - intros [= <-]. by exists [c].
  - intros H. destruct (IH H) as [a ->]. by exists (c :: a).
Qed.
Lemma next_row_line p q : next_row p = Some q -> exists l, Forall (fun c => c <> 10) l /\ p = l ++ 10 :: q.
Proof.
  induction p as [|c p IH]; [done|]. cbn [next_row]. destruct (Z.eqb_spec c 10) as [->|Hc].
  - intros [= <-]. exists []. split; [constructor | done].
  - intros H. destruct (IH H) as (l & Hl & ->). exists (c :: l). split; [by constructor | done].
Qed.
Lemma next_row_app l q : Forall (fun c => c <> 10) l -> next_row (l ++ 10 :: q) = Some q.
Proof. induction 1 as [|c l Hc _ IH]; [done|]. cbn [app next_row]. by rewrite (proj2 (Z.eqb_neq _ _) Hc). Qed.
Lemma row_at_start line : forall text start,
  match row_at text line with
  | Some row => exists a, text = a ++ row /\ row_start line text start = Some (start + zlen a)
  | None => row_start line text start = None
  end.
Proof.
  induction line as [|line IH]; intros text start; cbn [row_at row_start].
  - exists []. split; [done|]. f_equal. unfold zlen. simpl. lia.
  - destruct (next_row text) as [q|] eqn:E; [|done]. destruct (next_row_suffix _ _ E) as [a ->].
    specialize (IH q (start + (zlen (a ++ q) - zlen q))). destruct (row_at q line) as [row|]; [|done].
    destruct IH as (a' & -> & ->). exists (a ++ a'). split; [by rewrite app_assoc|]. f_equal. rewrite !zlen_app. lia.
Qed.
Lemma row_length_app p q : Forall (fun c => c <> 10) p -> row_length (p ++ q) = zlen p + row_length q.
Proof.
  induction 1 as [|c p Hc _ IH]; [done|]. cbn [app row_length]. rewrite zlen_cons. zb. rewrite IH. lia.
Qed.
Lemma row_length_nonneg p : 0 <= row_length p.
Proof. induction p as [|c p IH]; cbn [row_length]; [done|]. split_if; lia. Qed.
(** The bytes of a character that is followed are not newlines. *)
Lemma valid_bytes_clean p width : forall fuel valid i, (valid <= i < valid_bytes fuel valid width p)%nat ->
  Z.land (wire_char p i) 0xc0 = 0x80.
Proof.
  induction fuel as [|fuel IH]; intros valid i Hi; simpl in Hi; [lia|].
  destruct ((valid <? width)%nat && _ && _) eqn:E; [|lia]. to_prop. destruct (Nat.eq_dec i valid) as [->|]; [tauto|].
  eapply IH. split; [|apply Hi]. lia.
Qed.
Lemma char_clean p : in_row p -> Forall (fun c => c <> 10) (firstn (char_width p) p).
Proof.
  intros [H1 H2]. apply Forall_lookup. intros i c Hc. apply lookup_take_Some in Hc as [Hc Hi].
  assert (Hn : wire_char p i = c) by (unfold wire_char; by apply nth_lookup_Some).
  destruct i as [|i]; [destruct p; simpl in *; congruence|]. unfold char_width in Hi.
  destruct (Nat.eqb_spec (valid_bytes 3 1 (lead_width (wire_char p 0)) p) (lead_width (wire_char p 0))) as [E|E]; [|lia].
  pose proof (valid_bytes_clean p (lead_width (wire_char p 0)) 3 1 (S i) ltac:(lia)) as Hl. rewrite Hn in Hl. intros ->. discriminate Hl.
Qed.
Lemma boundary_in_row row b u : boundary row b u -> b <= row_length row.
Proof.
  intros H. assert (Hc : Forall (fun c => c <> 10) (firstn (Z.to_nat b) row)).
  { induction H as [|b u Hb IH Hp]; [constructor|]. pose proof (boundary_range _ _ _ Hb) as [Hr _].
    rewrite Z2Nat.inj_add, Nat2Z.id, <- take_take_drop by lia. apply Forall_app. split; [done | by apply char_clean]. }
  pose proof (boundary_range _ _ _ H) as [Hr _]. rewrite <- (firstn_skipn (Z.to_nat b) row), row_length_app by done.
  pose proof (row_length_nonneg (skipn (Z.to_nat b) row)). unfold zlen. rewrite length_firstn. lia.
Qed.

Lemma row_begins_at line : forall text row, row_at text line = Some row <-> exists before, row_begins text line before row.
Proof.
  induction line as [|line IH]; intros text row; cbn [row_at].
  - split.
    + intros [= <-]. exists []. exists []. auto.
    + intros (before & [|l ls] & Hl & _ & -> & ->); [done | discriminate Hl].
  - split.
    + destruct (next_row text) as [q|] eqn:E; [|done]. intros (before & ls & Hl & Hc & -> & ->)%IH.
      destruct (next_row_line _ _ E) as (l & Hll & ->). exists (l ++ [10] ++ concat (map (fun l => l ++ [10]) ls)), (l :: ls).
      split; [simpl; lia|]. split; [by constructor|]. cbn [map concat]. by rewrite <- !app_assoc.
    + intros (before & [|l ls] & Hl & Hc & -> & ->); [discriminate Hl|]. apply Forall_cons in Hc as [Hl' Hc].
      cbn [map concat]. rewrite <- !app_assoc. cbn [app]. rewrite next_row_app by done. apply IH. exists (concat (map (fun l => l ++ [10]) ls)), ls.
      simpl in Hl. auto.
Qed.
Lemma row_begins_start text line before row : row_begins text line before row -> row_start line text 0 = Some (zlen before).
Proof.
  intros H. pose proof (proj2 (row_begins_at line text row) (ex_intro _ before H)) as E. pose proof (row_at_start line text 0) as Hs.
  rewrite E in Hs. destruct Hs as (a & Ea & ->). destruct H as (ls & _ & _ & _ & Et). rewrite Et in Ea. apply app_inv_tail in Ea as ->.
  done.
Qed.

(** The bytes of the scan are the characters. *)
Lemma valid_bytes_followed c q : forall fuel valid width, (1 <= valid <= width)%nat -> (width - valid <= fuel)%nat ->
  valid_bytes fuel valid width (c :: q) = width <-> followed (width - valid) (skipn (valid - 1) q).
Proof.
  induction fuel as [|fuel IH]; intros valid width Hv Hf; cbn [valid_bytes].
  - replace width with valid by lia. rewrite Nat.sub_diag. split; [|done]. intros _. split; [lia | constructor].
  - destruct (Nat.ltb_spec valid width) as [Hl|Hl].
    2: { replace width with valid by lia. rewrite Nat.sub_diag. split; [|done]. intros _. split; [lia | constructor]. }
    replace (width - valid)%nat with (S (width - S valid)) by lia.
    assert (Hq : wire_char (c :: q) valid = nth 0 (skipn (valid - 1) q) 0).
    { unfold wire_char. destruct valid as [|valid]; [lia|]. cbn [nth]. replace (S valid - 1)%nat with valid by lia.
      rewrite nth_skipn. by rewrite Nat.add_0_r. }
    rewrite Hq. specialize (IH (S valid) width ltac:(lia) ltac:(lia)).
    replace (skipn (S valid - 1) q) with (skipn 1 (skipn (valid - 1) q)) in IH by (rewrite skipn_skipn; f_equal; lia).
    destruct (skipn (valid - 1) q) as [|d r]; cbn [nth skipn] in *.
    + split; [cbn; lia|]. intros [Hn _]. simpl in Hn. lia.
    + cbn [andb]. destruct (Z.eqb_spec (Z.land d 0xc0) 0x80) as [Hd|Hd].
      * replace (d =? 0) with false by (symmetry; apply Z.eqb_neq; intros ->; discriminate Hd). cbn [negb andb]. rewrite IH.
        unfold followed. cbn [length firstn]. rewrite drop_0, Forall_cons. split; [intros [? ?]; split; [lia | auto] | intros [? [? ?]]; split; [lia | auto]].
      * rewrite andb_false_r. split; [lia|]. intros [_ [? _]%Forall_cons]. done.
Qed.
Lemma lead_followed c q n : lead_width c = S n ->
  (valid_bytes 3 1 (lead_width c) (c :: q) =? lead_width c)%nat = true <-> followed n q.
Proof.
  intros Hn. rewrite Nat.eqb_eq, valid_bytes_followed by (unfold lead_width; repeat split_if; lia). rewrite Hn.
  replace (S n - 1)%nat with n by lia. done.
Qed.
Lemma followed_none q : followed 0 q.
Proof. split; [lia | constructor]. Qed.
Lemma character_code p w n : character p w n <-> in_row p /\ w = char_width p /\ n = char_units p.
Proof.
  destruct p as [|c q].
  { split; [intros H; inversion H | intros [[H _] _]; done]. }
  unfold char_units, char_width, in_row. change (wire_char (c :: q) 0) with c. cbn [cstr_get].
  pose proof (followed_none q) as H0.
  assert (exists k, lead_width c = S k /\ (c < 0x80 /\ k = 0%nat \/ 0x80 <= c < 0xe0 /\ k = 1%nat \/ 0xe0 <= c < 0xf0 /\ k = 2%nat \/ 0xf0 <= c /\ k = 3%nat))
    as (k & Hk & Hc).
  { unfold lead_width. destruct (Z.ltb_spec c 0x80), (Z.ltb_spec c 0xe0), (Z.ltb_spec c 0xf0); try lia; eexists; (split; [reflexivity | lia]). }
  pose proof (lead_followed c q k Hk) as Hf.
  destruct (valid_bytes 3 1 (lead_width c) (c :: q) =? lead_width c)%nat.
  - pose proof (proj1 Hf eq_refl) as F. rewrite Hk. split.
    + intros H. inversion H; subst; (split; [lia|]); destruct Hc as [[? ->]|[[? ->]|[[? ->]|[? ->]]]]; try lia; try (by split); exfalso; tauto.
    + intros ([? ?] & -> & ->). destruct Hc as [[? ->]|[[? ->]|[[? ->]|[? ->]]]]; cbn; by constructor.
  - assert (~ followed k q) as F by (intros F; by apply Hf in F). change ((1 =? 4)%nat) with false. cbv iota. split.
    + intros H. inversion H; subst; (split; [lia|]); destruct Hc as [[? ->]|[[? ->]|[[? ->]|[? ->]]]]; try lia; try (by split); exfalso; tauto.
    + intros ([? ?] & -> & ->). destruct Hc as [[? ->]|[[? ->]|[[? ->]|[? ->]]]]; first [done | apply character_broken; (lia || (intros [? ?]; (lia || done)))].
Qed.
Lemma walk_boundary row b u : walk row b u <-> boundary row b u.
Proof.
  split; induction 1 as [|b u]; try constructor; auto.
  - match goal with H : character _ _ _ |- _ => apply character_code in H as (Hr & -> & ->) end. by constructor.
  - by apply character_code.
Qed.
Lemma walk_last row column b u :
  last_boundary true column row b u
  <-> walk row b u /\ u <= column /\ forall w n, character (skipn (Z.to_nat b) row) w n -> column < u + n.
Proof.
  unfold last_boundary, key. rewrite walk_boundary. split; intros (Hb & Hu & H); (split; [done|]); (split; [done|]).
  - intros w n (Hr & -> & ->)%character_code. destruct H; [done | lia].
  - destruct (decide (cstr_get (skipn (Z.to_nat b) row) = 0)) as [E|E]; [left; by intros []|].
    destruct (decide (cstr_get (skipn (Z.to_nat b) row) = 10)) as [E'|E']; [left; by intros []|].
    right. eapply H. by apply character_code.
Qed.

Lemma row_length_within p n : 0 <= n -> (row_length p <? n) = false <-> n <= zlen p /\ Forall (fun c => c <> 10) (firstn (Z.to_nat n) p).
Proof.
  intros Hn. rewrite Z.ltb_ge. revert n Hn. induction p as [|c p IH]; intros n Hn; cbn [row_length].
  - rewrite firstn_nil. change (zlen []) with 0. split; [|tauto]. intros. split; [lia | constructor].
  - rewrite zlen_cons. destruct (Z.eq_dec n 0) as [->|Hz].
    { assert (0 <= zlen p) by (unfold zlen; lia). split; [|intros _; split_if; pose proof (row_length_nonneg p); lia].
      intros _. split; [lia | constructor]. }
    replace (Z.to_nat n) with (S (Z.to_nat (n - 1))) by lia. cbn [firstn]. rewrite Forall_cons. specialize (IH (n - 1) ltac:(lia)).
    destruct (Z.eqb_spec c 10) as [->|Hc]; [split; [lia | tauto]|]. split.
    + intros H. destruct (proj1 IH ltac:(lia)) as [? ?]. split; [lia | auto].
    + intros (H & _ & Hf). assert (n - 1 <= row_length p) by (apply IH; split; [lia | done]). lia.
Qed.

(** A position and the offset the two steps of the source compute. *)
Lemma text_offset_position utf8 text line character :
  0 <= character ->
  exists column, lsp_wire_column utf8 (Some (0%nat, text)) line character true = Some column
  /\ forall offset, lsp_text_offset text line column = Some offset <-> position utf8 text line character offset.
Proof.
  intros Hc. destruct utf8.
  - exists character. split; [done|]. intros offset. unfold lsp_text_offset, position. split.
    + intros H. pose proof (row_at_start line text 0) as Hs. destruct (row_at text line) as [row|] eqn:E; [|by rewrite Hs in H].
      apply row_begins_at in E as [before Hb]. rewrite (row_begins_start _ _ _ _ Hb) in H. exists before, row. split; [done|].
      destruct Hb as (ls & _ & _ & _ & ->). unfold zlen in H at 1. rewrite Nat2Z.id, drop_app_length in H.
      destruct (row_length row <? character) eqn:El; [done|]. apply row_length_within in El as [? ?]; [|done]. injection H as <-. auto.
    + intros (before & row & Hb & Hl & Hf & ->). rewrite (row_begins_start _ _ _ _ Hb). destruct Hb as (ls & _ & _ & _ & ->).
      unfold zlen at 1. rewrite Nat2Z.id, drop_app_length. by rewrite (proj2 (row_length_within row character Hc)).
  - destruct (wire_column_at_converts (fun _ => text) no_cursor 0 line character true I Hc) as (column & c & E & _ & Hr).
    exists column. split; [unfold lsp_wire_column; by rewrite E|]. intros offset. unfold lsp_text_offset, position, converts in *.
    pose proof (row_at_start line text 0) as Hs. pose proof (row_begins_at line text) as Hrows. destruct (row_at text line) as [row|].
    + destruct (proj1 (Hrows row) eq_refl) as [before Hb]. rewrite (row_begins_start _ _ _ _ Hb).
      destruct Hr as (b & u & Hl & ->). pose proof (boundary_in_row row b u (proj1 Hl)).
      assert (skipn (Z.to_nat (zlen before)) text = row) as ->.
      { destruct Hb as (ls & _ & _ & _ & ->). unfold zlen. by rewrite Nat2Z.id, drop_app_length. }
      zb. split.
      * intros [= <-]. exists before, row. split; [done|]. exists b, u. apply walk_last in Hl as (? & ? & ?). auto.
      * intros (before' & row' & Hb' & b' & u' & W & Hu & Hn & ->). assert (row' = row) as -> by (apply Some_inj; symmetry; apply Hrows; eauto).
        destruct (last_boundary_unique _ _ _ _ _ _ _ Hl (proj2 (walk_last _ _ _ _) (conj W (conj Hu Hn)))) as [-> ->].
        pose proof (row_begins_start _ _ _ _ Hb) as E1. rewrite (row_begins_start _ _ _ _ Hb') in E1. congruence.
    + rewrite Hs. split; [done|]. intros (before & row & Hb & _). assert (None = Some row) by (apply Hrows; eauto). done.
Qed.

(** C28: a change replaces exactly the text between its two positions, in either
    encoding of columns: the call always returns, with the new text exactly when
    memory can be had and both positions are in the document and in order, and
    with [NULL] otherwise. In UTF-8 a column past the end of its line is
    refused; in UTF-16 it stands for the end of the line, and a column inside
    a character for the start of it. *)
Theorem apply_change_exact utf8 alloc text replacement sl sc el ec :
  0 <= sc -> 0 <= ec ->
  exists r, lsp_apply_change utf8 alloc text replacement sl sc el ec = Some r
  /\ forall t, r = Some t <-> alloc = true /\ exists s e, position utf8 text sl sc s /\ position utf8 text el ec e /\ s <= e
       /\ t = firstn (Z.to_nat s) text ++ replacement ++ skipn (Z.to_nat e) text.
Proof.
  intros Hs He. destruct (text_offset_position utf8 text sl sc Hs) as (cs & E1 & P1).
  destruct (text_offset_position utf8 text el ec He) as (ce & E2 & P2). unfold lsp_apply_change. rewrite E1, E2.
  eexists. split; [reflexivity|]. intros t. setoid_rewrite <- P1. setoid_rewrite <- P2.
  destruct (lsp_text_offset text sl cs) as [s|]; [|naive_solver].
  destruct (lsp_text_offset text el ce) as [e|]; [|naive_solver].
  destruct (Z.ltb_spec e s) as [Hlt|Hle].
  - split; [done|]. intros (_ & s' & e' & [= <-] & [= <-] & ? & _). lia.
  - destruct alloc; cbn [negb]; [|naive_solver].
    split; [intros [= <-]; split; [done|]; exists s, e; auto|]. by intros (_ & s' & e' & [= <-] & [= <-] & _ & ->).
Qed.
Definition sample_edit : bytes := str "ab" ++ [10; 0xf0; 0x9f; 0x98; 0x80] ++ str "cd".
Lemma apply_change_exact_witness :
  (forall t, Some (str "aXYcd") = Some t <-> true = true /\ exists s e, position false sample_edit 0 1 s /\ position false sample_edit 1 2 e /\ s <= e
     /\ t = firstn (Z.to_nat s) sample_edit ++ str "XY" ++ skipn (Z.to_nat e) sample_edit)
  /\ (forall t, None = Some t <-> true = true /\ exists s e, position true sample_edit 0 1 s /\ position true sample_edit 1 7 e /\ s <= e
     /\ t = firstn (Z.to_nat s) sample_edit ++ str "XY" ++ skipn (Z.to_nat e) sample_edit).
Proof.
  split.
  - destruct (apply_change_exact false true sample_edit (str "XY") 0 1 1 2 ltac:(lia) ltac:(lia)) as (r & E & H).
    assert (Some (str "aXYcd") = r) as ->; [vm_compute in E; injection E as <-; reflexivity | exact H].
  - destruct (apply_change_exact true true sample_edit (str "XY") 0 1 1 7 ltac:(lia) ltac:(lia)) as (r & E & H).
    assert (None = r) as ->; [vm_compute in E; injection E as <-; reflexivity | exact H].
Defined.

(** ** Sequences of changes *)

(** The scan for the end of an object passes over every value inside it. *)
Definition passes (t : bytes) : Prop := forall d r, 1 <= d -> object_end (t ++ r) d false = object_end r d false.
Definition no_mark (t : bytes) : Prop := Forall (fun c => c <> 34 /\ c <> 123 /\ c <> 125) t.
Lemma passes_plain t : no_mark t -> passes t.
Proof.
  intros H d r Hd. induction H as [|c t (H1 & H2 & H3) _ IH]; [done|]. cbn [app object_end]. by zb.
Qed.
Lemma passes_app a b : passes a -> passes b -> passes (a ++ b).
Proof. intros Ha Hb d r Hd. rewrite <- app_assoc, Ha, Hb by done. done. Qed.
Lemma object_end_chars body d r : json_chars body -> object_end (body ++ 34 :: r) d true = object_end r d false.
Proof.
  assert (Hskip : forall t q, Forall (fun c => c <> 92 /\ c <> 34) t -> object_end (t ++ q) d true = object_end q d true).
  { intros t q Ht. induction Ht as [|c t [H1 H2] _ IH]; [done|]. cbn [app object_end]. by zb. }
  assert (Hhex : forall c, isxdigit c = true -> c <> 92 /\ c <> 34) by (intros c; unfold isxdigit, isdigit; intros H; to_prop; lia).
  induction 1 as [|a b Ha _ IH]; [done|]. rewrite <- app_assoc. destruct Ha as [c Hc H1 H2|t Ht|e He|x y z w Hx Hy Hz Hw].
  - by rewrite Hskip by (repeat constructor; done).
  - rewrite Hskip; [done|]. destruct Ht; unfold cont in *; repeat constructor; lia.
  - cbn [app object_end]. done.
  - cbn [app]. change (object_end (92 :: 117 :: [x; y; z; w] ++ b ++ 34 :: r) d true = object_end r d false).
    cbn [object_end]. change (92 =? 92) with true. cbv iota. by rewrite Hskip by (repeat constructor; apply Hhex; done).
Qed.
Lemma passes_string t : json_string t -> passes t.
Proof.
  intros (body & Hb & ->) d r Hd. rewrite <- !app_assoc. cbn [app object_end]. change (34 =? 34) with true. cbv iota.
  by apply object_end_chars.
Qed.
Lemma spaces_no_mark ws : spaces ws -> no_mark ws.
Proof. intros H. eapply Forall_impl; [exact H|]. simpl. unfold is_space. intros c Hc. to_prop. lia. Qed.
Lemma number_no_mark t : number_text t -> no_mark t.
Proof.
  assert (Hd : forall ds, digit_text ds -> no_mark ds).
  { intros ds H. eapply Forall_impl; [exact H|]. simpl. unfold isdigit. intros c Hc. to_prop. lia. }
  intros (sign & int & frac & expo & -> & Hs & Hi & Hf & He). unfold no_mark in *. rewrite !Forall_app. split_and!.
  - destruct Hs as [-> | ->]; repeat constructor; lia.
  - destruct Hi as [-> | (d & ds & -> & H1 & H2)]; [repeat constructor; lia|]. constructor; [lia | by apply Hd].
  - destruct Hf as [-> | (d & ds & -> & H)]; [constructor|]. constructor; [lia | by apply Hd].
  - destruct He as [-> | (e & sg & d & ds & -> & H1 & H2 & H3)]; [constructor|]. constructor; [lia|].
    apply Forall_app. split; [|by apply Hd]. destruct H2 as [-> | [-> | ->]]; repeat constructor; lia.
Qed.
(** An object or array around what passes. *)
Lemma passes_container (object : bool) t :
  passes t -> passes ([if object then 123 else 91] ++ t ++ [if object then 125 else 93]).
Proof.
  intros Ht d r Hd. destruct object; rewrite <- !app_assoc; cbn [app].
  - cbn [object_end]. change (123 =? 34) with false. change (123 =? 123) with true. cbv iota. rewrite Ht by lia.
    cbn [object_end]. change (125 =? 34) with false. change (125 =? 123) with false. change (125 =? 125) with true. cbv iota.
    replace (d + 1 - 1) with d by lia. by zb.
  - cbn [object_end]. change (91 =? 34) with false. change (91 =? 123) with false. change (91 =? 125) with false. cbv iota.
    rewrite Ht by done. done.
Qed.
Lemma passes_spaces ws : spaces ws -> passes ws.
Proof. intros H. by apply passes_plain, spaces_no_mark. Qed.
Lemma values_pass :
  (forall n t, value n t -> passes t) /\ (forall n object t, members n object t -> passes t)
  /\ (forall n object t, member n object t -> passes t).
Proof.
  assert (Hcomma : passes [44]) by (apply passes_plain; repeat constructor; lia).
  assert (Hcolon : passes [58]) by (apply passes_plain; repeat constructor; lia).
  assert (Hword : forall w, In w [str "true"; str "false"; str "null"] -> passes w).
  { intros w Hw. apply passes_plain, (bool_decide_unpack _). cbn [In] in Hw. destruct Hw as [<-|[<-|[<-|[]]]]; vm_compute; exact I. }
  apply json_ind.
  - intros n t Ht. by apply passes_string.
  - intros n t Ht. by apply passes_plain, number_no_mark.
  - intros n. apply Hword. cbn; auto.
  - intros n. apply Hword. cbn; auto.
  - intros n. apply Hword. cbn; auto.
  - intros n object ws Hws. by apply passes_container, passes_spaces.
  - intros n object ws t Hws _ Ht. rewrite (app_assoc ws). apply passes_container, passes_app; [by apply passes_spaces | done].
  - intros n object t ws _ Ht Hws. apply passes_app; [done | by apply passes_spaces].
  - intros n object t ws ws' rest _ Ht Hws Hws' _ Hr. repeat (apply passes_app; [first [done | by apply passes_spaces]|]). done.
  - done.
  - intros n k ws ws' t Hk Hws Hws' _ Ht.
    repeat (apply passes_app; [first [done | by apply passes_string | by apply passes_spaces]|]). done.
Qed.
(** The end of an object is the end the grammar gives. *)
Definition is_object (t : bytes) : Prop := (exists n, value n t) /\ cstr_get t = 123.
Lemma object_end_exact t r : is_object t -> object_end (t ++ r) 0 false = Some r.
Proof.
  assert (Hin : forall s, passes s -> object_end (([123] ++ s ++ [125]) ++ r) 0 false = Some r).
  { intros s Hs. rewrite <- !app_assoc. cbn [app object_end]. change (123 =? 34) with false. change (123 =? 123) with true. cbv iota.
    rewrite Hs by lia. cbn [object_end]. done. }
  intros [[n H] Hh]. destruct H as [n t H|n t H|n|n|n|n [] ws H|n [] ws t H H']; try discriminate Hh.
  - apply json_string_head in H as [q ->]. discriminate Hh.
  - apply number_head in H as (c & q & -> & Hc). simpl in Hh. lia.
  - by apply Hin, passes_spaces.
  - rewrite (app_assoc ws). apply Hin. apply passes_app; [by apply passes_spaces | by eapply (proj1 (proj2 values_pass))].
Qed.

(** The text of a list of changes, up to and with its closing bracket. *)
Inductive changes_text : list bytes -> bytes -> Prop :=
| changes_none ws r : spaces ws -> changes_text [] (ws ++ 93 :: r)
| changes_one ws o ws' r : spaces ws -> is_object o -> spaces ws' -> changes_text [o] (ws ++ o ++ ws' ++ 93 :: r)
| changes_more ws o ws' os p : spaces ws -> is_object o -> spaces ws' -> changes_text os p ->
    changes_text (o :: os) (ws ++ o ++ ws' ++ 44 :: p).
(** The changes one after the other; the first that fails ends them. *)
Fixpoint changes_fold (utf8 alloc : bool) (text : bytes) (os : list bytes) : option (option bytes) :=
  match os with
  | [] => Some (Some text)
  | o :: os =>
      let* updated := apply_object utf8 alloc text o in
      match updated with
      | None => Some None
      | Some text => changes_fold utf8 alloc text os
      end
  end.
Lemma skip_isspace_spaces ws p : spaces ws -> isspace (cstr_get p) = false -> skip_isspace (ws ++ p) = p.
Proof.
  intros H Hp. induction H as [|c ws Hc _ IH]; cbn [app skip_isspace].
  - destruct p as [|c p]; [done|]. simpl in Hp |- *. by rewrite Hp.
  - assert (isspace c = true) as ->; [|done]. unfold is_space, isspace in *. to_prop. destruct Hc as [[[-> | ->] | ->] | ->]; done.
Qed.
Lemma object_head o r : is_object o -> cstr_get (o ++ r) = 123 /\ (1 <= length o)%nat.
Proof. intros [_ Hh]. destruct o as [|c o]; [discriminate Hh|]. simpl in *. split; [done | lia]. Qed.
Lemma changes_loop_fold utf8 alloc os p : changes_text os p -> forall fuel text, (length p < fuel)%nat ->
  changes_loop fuel utf8 alloc text p = changes_fold utf8 alloc text os.
Proof.
  induction 1 as [ws r Hws | ws o ws' r Hws Ho Hws' | ws o ws' os p Hws Ho Hws' Hp IH]; intros [|fuel] text Hf;
    try lia; cbn [changes_loop].
  - by rewrite skip_isspace_spaces.
  - destruct (object_head o (ws' ++ 93 :: r) Ho) as [Hh _]. rewrite skip_isspace_spaces by (try done; by rewrite Hh).
    rewrite Hh. change (123 =? 93) with false. change (123 =? 123) with true. cbn [negb]. rewrite object_end_exact by done.
    rewrite length_app, Nat.add_sub, take_app_length. cbn [changes_fold].
    destruct (apply_object utf8 alloc text o) as [[text'|]|]; try done. by rewrite skip_isspace_spaces.
  - destruct (object_head o (ws' ++ 44 :: p) Ho) as [Hh _]. rewrite skip_isspace_spaces by (try done; by rewrite Hh).
    rewrite Hh. change (123 =? 93) with false. change (123 =? 123) with true. cbn [negb]. rewrite object_end_exact by done.
    rewrite (length_app o), Nat.add_sub, take_app_length. cbn [changes_fold].
    destruct (apply_object utf8 alloc text o) as [[text'|]|]; try done. rewrite skip_isspace_spaces by done.
    change (cstr_get (44 :: p) =? 93) with false. change (cstr_get (44 :: p) =? 44) with true. cbn [negb tl].
    apply IH. rewrite !length_app in Hf. simpl in Hf. lia.
Qed.
(** The changes of a notification are applied one after the other, each to
    the text the one before left, and a change that cannot be applied makes the
    whole notification fail: the objects found by counting braces are those of
    the JSON grammar. *)
Theorem apply_changes_sequential utf8 text body p os :
  lsp_json_find body (LspJson.quoted (str "contentChanges")) = Some (91 :: p) -> changes_text os p ->
  lsp_apply_changes utf8 true text body = changes_fold utf8 true text os.
Proof.
  intros Hb Hp. unfold lsp_apply_changes. rewrite Hb. change (cstr_get (91 :: p) =? 91) with true. cbn [negb tl].
  apply changes_loop_fold; [done | simpl; lia].
Qed.
Lemma is_object_read o : c_string o -> cstr_get o = 123 -> lsp_json_end o 0 = Some [] -> is_object o.
Proof.
  intros Hc Hh He. apply lsp_json_end_sound in He as (t & Et & Hv & _); [|done|by rewrite Hh].
  rewrite app_nil_r in Et. subst t. split; [by eexists | done].
Qed.
Definition sample_insert : bytes :=
  let q s := LspJson.quoted (str s) in
  let point c := str "{" ++ q "line"%string ++ str ":0," ++ q "character"%string ++ str ":" ++ c ++ str "}" in
  str "{" ++ q "range"%string ++ str ":{" ++ q "start"%string ++ str ":" ++ point (str "1") ++ str "," ++ q "end"%string ++ str ":"
  ++ point (str "2") ++ str "}," ++ q "text"%string ++ str ":" ++ q "}{"%string ++ str "}".
Definition sample_replace : bytes := str "{" ++ LspJson.quoted (str "text") ++ str ":" ++ LspJson.quoted (str "abc") ++ str "}".
Definition sample_notification : bytes :=
  str "{" ++ LspJson.quoted (str "contentChanges") ++ str ":[ " ++ sample_replace ++ str " ," ++ sample_insert ++ str "]}".
Lemma apply_changes_sequential_witness :
  lsp_apply_changes false true (str "old") sample_notification
  = changes_fold false true (str "old") [sample_replace; sample_insert]
  /\ lsp_apply_changes false true (str "old") sample_notification = Some (Some (str "a}{c")).
Proof.
  assert (H : lsp_apply_changes false true (str "old") sample_notification
              = changes_fold false true (str "old") [sample_replace; sample_insert]).
  { apply (apply_changes_sequential false (str "old") sample_notification
             ([32] ++ sample_replace ++ [32] ++ 44 :: [] ++ sample_insert ++ [] ++ 93 :: str "}")).
    - vm_compute. reflexivity.
    - apply changes_more; [repeat constructor | | repeat constructor | apply changes_one; [constructor | | constructor]].
      + apply is_object_read; [apply (bool_decide_unpack _); vm_compute; exact I | reflexivity | vm_compute; reflexivity].
      + apply is_object_read; [apply (bool_decide_unpack _); vm_compute; exact I | reflexivity | vm_compute; reflexivity]. }
  split; [exact H | vm_compute; reflexivity].
Defined.

(** ** Words *)

Lemma word_back_spec l : exists w r, l = w ++ r /\ length w = word_back l /\ Forall (fun c => word_char c = true) w
  /\ (r = [] \/ word_char (cstr_get r) = false).
Proof.
  induction l as [|c l IH]; [exists [], []; auto|]. cbn [word_back]. destruct (word_char c) eqn:E.
  - destruct IH as (w & r & -> & Hl & Hw & Hr). exists (c :: w), r. simpl. auto.
  - exists [], (c :: l). auto.
Qed.
(** The word found is the longest run of word characters around the column. *)
Lemma identifier_at_maximal text line character start size :
  0 <= character -> identifier_at text line character = Some (start, size) ->
  exists row_offset pre word post,
    row_start line text 0 = Some row_offset
    /\ firstn (Z.to_nat (row_length (skipn (Z.to_nat row_offset) text))) (skipn (Z.to_nat row_offset) text) = pre ++ word ++ post
    /\ start = row_offset + zlen pre /\ size = zlen word /\ zlen pre <= character < zlen pre + zlen word
    /\ Forall (fun c => word_char c = true) word
    /\ (pre = [] \/ word_char (cstr_get (rev pre)) = false) /\ (post = [] \/ word_char (cstr_get post) = false).
Proof.
  intros Hc H. unfold identifier_at in H. destruct (row_start line text 0) as [s|]; [|done]. cbv zeta in H. exists s.
  set (row := firstn _ _) in *. destruct (Z.leb_spec (zlen row) character) as [|Hl]; [done|].
  destruct (word_char (nth (Z.to_nat character) row 0)) eqn:Ew; [|done]. cbn [negb] in H. injection H as Hs Hn.
  set (k := Z.to_nat character) in *. assert (Hk : (k < length row)%nat) by (unfold k, zlen in *; lia).
  destruct (word_back_spec (rev (firstn k row))) as (w1 & pre & E1 & L1 & F1 & R1).
  destruct (word_back_spec (skipn k row)) as (w2 & post & E2 & L2 & F2 & R2).
  assert (Ef : firstn k row = rev pre ++ rev w1) by (rewrite <- (rev_involutive (firstn k row)), E1; apply rev_app_distr).
  exists (rev pre), (rev w1 ++ w2), post.
  assert (Hw2 : w2 <> []).
  { intros ->. simpl in E2. destruct (lookup_lt_is_Some_2 row k Hk) as [c Hck].
    rewrite (nth_lookup_Some _ _ _ _ Hck) in Ew. rewrite (drop_S _ _ _ Hck) in E2. subst post. destruct R2 as [R2|R2]; [done|].
    simpl in R2. congruence. }
  assert (Lk : (length pre + length w1)%nat = k).
  { apply (f_equal length) in Ef. rewrite length_app, !length_rev, length_firstn in Ef. lia. }
  unfold zlen. rewrite length_app, !length_rev. destruct w2 as [|x w2]; [done|]. cbn [length] in *. split_and!; try (unfold k in *; lia).
  - done.
  - rewrite <- (firstn_skipn k row), Ef, E2, <- !app_assoc. done.
  - apply Forall_app. split; [by apply Forall_rev | done].
  - rewrite rev_involutive. destruct R1 as [-> | R1]; auto.
  - done.
Qed.
